(* ===== verification/_CoqProject ===== *)
-Q . S2P
Prelude.v
Lists.v
Bits.v
Bitops.v
Tnum.v
TnumTheorems.v
Bounds.v
RegState.v
ScalarOps.v
ScalarBits.v
Insn.v
Interp.v
Env.v
Branch.v
MemAccess.v
RegArg.v
Precision.v
Bookkeeping.v
Alu.v
Frame.v
AluSound.v
PtrSound.v
AluStep.v
CondJmp.v
CondJmpSound.v
AluFrame.v
AluIds.v
Samples.v
VerifierTheorems.v
StackAccess.v
StackSound.v
StackVar.v
MemInsn.v
MemFrame.v
MemStep.v
AluMachine.v
JumpMachine.v
MemTheorems.v
Pruning.v
Explore.v
HelperCall.v
Sort.v
SortSound.v
Subprogs.v
SubprogsSound.v
Cfg.v
CfgSound.v
ProgFlow.v
Resolve.v
DoCheck.v
DoCheckFrame.v
DoCheckMachine.v
HelperMachine.v
DoCheckSafe.v
ResolveSound.v
BpfCheck.v
BpfCheckSound.v
BpfCheckTheorems.v
HelperTheorems.v
PruningSound.v
PruningTheorems.v
Buddy.v
BuddyBlocks.v
BuddyRepr.v
BuddyFree.v
BuddyAlloc.v
BuddyFallback.v
BuddySingle.v
BuddyZone.v
BuddySamples.v
BuddyTheorems.v
ListSort.v
ListSortSound.v
Glob.v
GlobSound.v
Kstrtox.v
KstrtoxSound.v
Semaphore.v
SemaphoreSound.v
LibTheorems.v
