(* ===== verification/Prelude.v ===== *)
(** * Verification of parts of the Linux kernel, version 5.10

    Models and theorems for parts of the kernel sources: the verifier
    and interpreter of BPF programs (kernel/bpf), the buddy page allocator
    (mm/page_alloc.c), library routines (lib) and semaphores
    (kernel/locking).  Each definition translates
    one C function, structure or loop and keeps its name where Rocq allows;
    the theorems are collected in the files whose names end in "Theorems".

    ** Conventions

    A C integer of width [w] is a [Z] in the range of its type, and every
    operation that can leave the range is followed by its conversion ([u64],
    [s32], ... of this file); the kernel is compiled so that signed overflow
    wraps.  What C leaves undefined has no successor in the interpreter.  Code
    that updates the verifier environment is written in a state and error
    monad; the allocator passes the zone; an error path is a value of the
    result type.  Loops that are not structural take fuel, and a lemma shows
    that the fuel given is enough.  For the walks up the parents of a verifier
    state (mark_reg_read, mark_all_scalars_precise, __mark_chain_precision,
    update_branch_counts) the lemma is [parent_walks_end] of [Explore], under the
    condition that parents are older than their children; remembering a state,
    where parents are set, keeps it ([add_state_older]).  These walks only change
    marks and counters, of which no theorem on the machine speaks.

    ** The BPF verifier

    The verifier (kernel/bpf/verifier.c) walks a program and keeps, per
    register, what it knows of the value; the interpreter (kernel/bpf/core.c)
    then runs the program without checks.  The interface between the two is a
    simulation: whatever the interpreter computes is described by a state the
    verifier goes on with.

    - [Bits], [Bitops]: bit-level facts and the find-last-set functions.
    - [Tnum], [TnumTheorems]: tristate numbers of tnum.c; addition and
      subtraction are exact, multiplication is sound, ranges, inclusion and
      alignment are decided as documented.
    - [Bounds], [RegState]: struct bpf_reg_state, its five views of a value and
      the functions that tighten and re-synchronise them; [reg_inv] is its
      invariant and [reg_mem] its meaning.
    - [ScalarOps], [ScalarBits]: the scalar range functions, one per opcode.
    - [Insn], [Interp]: instruction encoding, the opcode table, and the
      interpreter as a step function.
    - [Env], [RegArg], [Precision], [Bookkeeping]: struct bpf_verifier_env with
      states, frames, stack slots and the exploration stack; liveness and
      precision marks, which are shown not to change what a state says.
    - [Branch], [MemAccess], [Alu], [CondJmp]: branch prediction and
      refinement, bounds checks of memory accesses, arithmetic and conditional
      jumps, with the error paths.
    - [Frame], [AluFrame]: which parts of the environment a computation leaves
      alone, as the predicate [fixes] and the class [View].
    - [AluSound], [PtrSound], [AluStep], [AluIds], [CondJmpSound]: the
      simulation of arithmetic and conditional jumps.
    - [StackAccess]: spilling and filling registers and the types of stack
      bytes, with fixed and variable offsets; [StackSound] and [StackVar] give
      stack slots their meaning in the memory of the machine and show that the
      accesses keep it.  The class [CellSim] is what they need of the relation
      between a register state and a value, so that they serve both the
      simulation of instructions and the pruning of states.
    - [MemInsn]: check_mem_access for every type of pointer and the load and
      store instructions of do_check.  The operations of program and map types
      and the type information of the kernel are the parameter [access_ops].
    - [MemFrame], [MemStep]: accepted loads and stores are executed by the
      interpreter, and [machine_sim], which relates the registers, the stack
      slots of all frames, map values and packets to the machine, is kept.  The
      pointers to the context, sockets, kernel objects and buffers are not
      covered: their loads are rewritten before a program runs.
    - [AluMachine], [JumpMachine]: arithmetic and jumps keep [machine_sim] too.
    - [Pruning], [PruningSound]: the comparison of a state with an explored
      one; the explored state describes what its continuation depends on: the
      values of registers and spilled registers, their kinds under any reading of
      the pointer types, and the bytes of the stack.  The ties between registers
      with the same id are kept only where check_ids compares them.
    - [Explore]: the stack of states, the lists of explored states, the
      propagation of marks and the heuristics of is_state_visited; the walks up
      the parents of a state end.
    - [HelperCall], [HelperMachine], [HelperTheorems]: check_helper_call, with
      the prototypes and the types of the kernel as the parameter [helper_ops].
      The helpers themselves are a parameter of the interpreter; [helper_fits]
      is the contract of their prototypes: on the arguments the verifier checks
      for they return, change only memory they may write, and give a result of
      the declared type.  Under it accepted calls keep [machine_sim].  Released
      references are gone and return values are within their bounds.  Three
      checks that let through too much are described exactly: helpers that write
      read-only maps, tail calls beyond the array, and the frame of a stack
      pointer that is added to a scalar.
    - [Subprogs], [SubprogsSound]: check_subprogs and check_max_stack_depth; the
      table of functions is well formed ([functions]) and every chain of calls
      fits the stack.  The recursion over call chains is bounded by
      MAX_CALL_FRAMES as in the code.
    - [Cfg], [CfgSound], [ProgFlow]: check_cfg as an explicit depth-first search,
      whose stack gives every instruction a rank; calls go down in rank, so there
      is no recursion, and without CAP_BPF every edge does, so runs are short.
      Every instruction is pushed and popped once, which bounds the fuel.
    - [Resolve], [ResolveSound]: resolve_pseudo_ldimm64; a load of a map value
      gets the address that the map has for it.
    - [DoCheck], [DoCheckFrame], [DoCheckMachine], [DoCheckSafe]: the loop of
      do_check with function calls and exits, do_check_common, the global
      functions and the main function.  The loop has fuel for one round more
      than BPF_COMPLEXITY_LIMIT_INSNS and never uses it up.  A program whose
      paths the loop all follows itself runs to its exit on every machine, or to a
      division by zero, which is patched later ([covered] excludes pruned paths,
      calls between functions, the calls of helpers that [call_covered] leaves
      out, packet loads by LD_ABS and LD_IND, loads of BTF ids, accesses through
      pointers that are rewritten, jumps on pointers that cannot be NULL, and the
      addition of a stack pointer to a scalar of another frame).
    - [BpfCheck], [BpfCheckSound], [BpfCheckTheorems]: bpf_check from the
      environment it sets up to the last check before instructions are
      rewritten, the phases put together, and the theorems on programs as a
      whole.
    - [Samples], [VerifierTheorems], [MemTheorems], [PruningTheorems]: concrete
      states and the theorems on single instructions and on pruning; loads,
      stores and conditional jumps on the machine are in [MemTheorems].

    ** The buddy allocator

    A zone holds free blocks of 2^order frames on lists per order and migrate
    type, marks their first page, and counts free pages.  The abstract state
    is a block map: first frame to order and list.

    - [Lists]: arrays of lists.
    - [Buddy]: pages, zones and every operation from [set_page_guard] to
      [take_page_off_buddy]; pages are identified by frame number.
    - [BuddyBlocks]: aligned blocks and block maps; a coalesced map is
      determined by the frames it covers.
    - [BuddyRepr]: a zone represents a block map, and each primitive implements
      one update of it.
    - [BuddyFree], [BuddyAlloc], [BuddyFallback], [BuddySingle]: merging,
      splitting, falling back to other migrate types, single frames.
    - [BuddyZone]: rmqueue, rmqueue_bulk and the freeing functions under the
      zone lock, and a system of steps that tracks who holds which block.
    - [BuddySamples], [BuddyTheorems]: concrete zones and the theorems: blocks
      in use are always apart, freeing restores what allocation took, every
      operation returns, and three defects.

    The merge loop has fuel for every order twice, the retry loop of __rmqueue
    fuel for every frame, since each retry moves a block to the wanted type,
    and the loop of rmqueue fuel for every free page.

    ** Library routines and semaphores

    - [ListSort], [ListSortSound]: lib/list_sort.c on a memory of next and prev
      fields; the pending runs follow the bits of the counter, and the result
      is a stable sort in place.
    - [Glob], [GlobSound]: lib/glob.c against patterns as sequences of tokens.
      It ends on every pattern and its answers are right; an inverted class can
      make it read behind the string instead.
    - [Kstrtox], [KstrtoxSound]: lib/kstrtox.c, the character table, and
      hex2bin/bin2hex, against a reader with unbounded integers.
    - [Semaphore], [SemaphoreSound]: kernel/locking/semaphore.c as a system of
      tasks whose steps are the sections under the lock.  Waking up
      spuriously, signals and time are choices of the environment.
    - [Sort], [SortSound]: lib/sort.c on byte offsets and lib/bsearch.c; the sort
      is a sorted permutation, the search decides.  check_subprogs uses both.
    - [LibTheorems]: the theorems on the others.

    sort_r has fuel for both phases of its loop, list_sort has fuel for the length of the list, glob_match for one round per
    pair of positions.

    ** Not modelled

    BPF: type records and the checks of btf.c, the prototypes of program types,
    and devices are parameters, because they are tables and records outside of
    the verifier.  The passes after the checks rewrite a program for the JIT and
    do not change what was checked; the JIT, the system call, map implementations
    and the log are I/O, generated code or concurrent data structures.  CONFIG_NET,
    CONFIG_PERF_EVENTS and CONFIG_X86_64 are taken as set.  That pruning preserves
    safety is not shown: it depends on the soundness of the liveness and precision
    marks, and [PruningTheorems] has states for which the comparison itself is
    wrong.  The simulation with the interpreter follows calls of helpers whose
    arguments are numbers, maps, the context and memory of the program and whose
    result is a number or a map value.  It does not follow those that take or
    return sockets and other kernel objects, lock, release a reference, move the
    packet or never return, nor those whose result is bounded by a size passed,
    because the objects and their life times are not part of the machine here;
    nor calls between functions, for which the interpreter has no frames before
    the program is rewritten.  Allocator:
    per-CPU lists, watermarks, zone lists, reclaim, hotplug; page reporting and
    tracing have no effect on the modelled state.  The rest of the kernel is
    device, file system, network and architecture code in which I/O, locking and
    hardware dominate. *)
From Stdlib Require Import ZArith Lia Bool Btauto Morphisms RelationClasses.

Local Open Scope Z_scope.

(** * Machine integers

    A C object of a [w]-bit unsigned type is a [Z] in [0, 2^w), one of a
    [w]-bit signed type a [Z] in [-2^(w-1), 2^(w-1)).  [uwrap]/[swrap] are the
    conversions to these types (the kernel is built with -fno-strict-overflow,
    so signed arithmetic wraps as well). *)

Definition uwrap (w z : Z) : Z := z mod 2 ^ w.
Definition swrap (w z : Z) : Z := (z + 2 ^ (w - 1)) mod 2 ^ w - 2 ^ (w - 1).
Definition uin (w x : Z) : Prop := 0 <= x < 2 ^ w.
Definition sin (w x : Z) : Prop := - 2 ^ (w - 1) <= x < 2 ^ (w - 1).

Declare Scope kint_scope.
Delimit Scope kint_scope with kint.

Abbreviation u8 := (uwrap 8).
Abbreviation u16 := (uwrap 16).
Abbreviation u32 := (uwrap 32).
Abbreviation u64 := (uwrap 64).
Abbreviation s16 := (swrap 16).
Abbreviation s32 := (swrap 32).
Abbreviation s64 := (swrap 64).

Abbreviation U16_MAX := 65535.
Abbreviation U32_MAX := 4294967295.
Abbreviation U64_MAX := 18446744073709551615.
Abbreviation S32_MAX := 2147483647.
Abbreviation S32_MIN := (-2147483648).
Abbreviation S64_MAX := 9223372036854775807.
Abbreviation S64_MIN := (-9223372036854775808).

(** [~x], [x << n], [x >> n] at the unsigned width [w]. *)
Definition unot (w x : Z) : Z := uwrap w (Z.lnot x).
Definition ushl (w x n : Z) : Z := uwrap w (Z.shiftl x n).
Definition ushr (x n : Z) : Z := Z.shiftr x n.

Arguments uwrap : simpl never.
Arguments swrap : simpl never.
Arguments unot : simpl never.
Arguments ushl : simpl never.
Arguments ushr : simpl never.

Infix ".&" := Z.land (at level 40, left associativity) : kint_scope.
Infix ".^" := Z.lxor (at level 45, left associativity) : kint_scope.
Infix ".|" := Z.lor (at level 48, left associativity) : kint_scope.

(** ** Tactics *)

(** Evaluate the powers of two with a closed exponent. *)
Ltac pow2_closed e k :=
  match e with
  | context [2 ^ ?w] =>
      let w' := eval cbn in w in
      match isZcst w' with true =>
        let v := eval vm_compute in (2 ^ w) in k w v end
  end.

Ltac pow2_const :=
  repeat match goal with
  | |- ?G => pow2_closed G ltac:(fun w v => change (2 ^ w) with v)
  | H : ?T |- _ => pow2_closed T ltac:(fun w v => change (2 ^ w) with v in H)
  end.

(** [lia] on goals that mention the range predicates at literal widths. *)
Ltac kia := unfold uin, sin in *; pow2_const; lia.

(** Split a definition that is a conjunction of three parts. *)
Ltac split3 := refine (conj _ (conj _ _)).

Ltac split_and := repeat match goal with |- _ /\ _ => split end.

(** ** Wrapping *)

Lemma pow2_pos w : 0 <= w -> 0 < 2 ^ w.
Proof. intros; apply Z.pow_pos_nonneg; lia. Qed.

Lemma pow2_half w : 0 < w -> 2 ^ w = 2 * 2 ^ (w - 1).
Proof. intros; rewrite <- Z.pow_succ_r by lia; f_equal; lia. Qed.

Lemma uwrap_range w z : 0 <= w -> uin w (uwrap w z).
Proof. intros; apply Z.mod_pos_bound, pow2_pos; lia. Qed.

Lemma swrap_range w z : 0 < w -> sin w (swrap w z).
Proof.
  intros; unfold sin, swrap.
  pose proof (Z.mod_pos_bound (z + 2 ^ (w - 1)) (2 ^ w) (pow2_pos w ltac:(lia))).
  pose proof (pow2_half w ltac:(lia)); lia.
Qed.

Lemma uwrap_id w x : uin w x -> uwrap w x = x.
Proof. intros; apply Z.mod_small; assumption. Qed.

Lemma swrap_id w x : 0 < w -> sin w x -> swrap w x = x.
Proof.
  unfold sin, swrap; intros.
  pose proof (pow2_half w ltac:(lia)); rewrite Z.mod_small; lia.
Qed.

Lemma mod_pow2_le w w' z : 0 <= w <= w' -> (z mod 2 ^ w') mod 2 ^ w = z mod 2 ^ w.
Proof.
  intros; apply Z.mod_mod_divide.
  exists (2 ^ (w' - w)); rewrite <- Z.pow_add_r by lia; f_equal; lia.
Qed.

Lemma uwrap_uwrap w w' z : 0 <= w <= w' -> uwrap w (uwrap w' z) = uwrap w z.
Proof. apply mod_pow2_le. Qed.

(** Two integers have the same [w]-bit representation. *)
Definition weq (w x y : Z) : Prop := uwrap w x = uwrap w y.

Lemma swrap_weq w x y : 0 < w -> weq w x y -> swrap w x = swrap w y.
Proof.
  unfold weq, uwrap, swrap; intros Hw H; f_equal.
  rewrite Z.add_mod, H, <- Z.add_mod by (pose proof (pow2_pos w); lia); reflexivity.
Qed.

Lemma weq_uwrap w w' x : 0 <= w <= w' -> weq w (uwrap w' x) x.
Proof. apply uwrap_uwrap. Qed.

Lemma weq_swrap w w' x : 0 < w <= w' -> weq w (swrap w' x) x.
Proof.
  unfold weq, uwrap, swrap; intros.
  pose proof (pow2_pos w ltac:(lia)).
  rewrite Zminus_mod, mod_pow2_le, <- Zminus_mod by lia.
  f_equal; lia.
Qed.

Lemma swrap_uwrap w w' z : 0 < w <= w' -> swrap w (uwrap w' z) = swrap w z.
Proof. intros; apply swrap_weq, weq_uwrap; lia. Qed.

Lemma uwrap_swrap w w' z : 0 < w <= w' -> uwrap w (swrap w' z) = uwrap w z.
Proof. intros; apply weq_swrap; lia. Qed.

Lemma swrap_swrap w w' z : 0 < w <= w' -> swrap w (swrap w' z) = swrap w z.
Proof. intros; apply swrap_weq, weq_swrap; lia. Qed.

Lemma weq_add w x x' y y' : 0 <= w -> weq w x x' -> weq w y y' -> weq w (x + y) (x' + y').
Proof.
  unfold weq, uwrap; intros ? H1 H2; pose proof (pow2_pos w).
  rewrite Z.add_mod, H1, H2, <- Z.add_mod by lia; reflexivity.
Qed.

Lemma weq_sub w x x' y y' : 0 <= w -> weq w x x' -> weq w y y' -> weq w (x - y) (x' - y').
Proof. unfold weq, uwrap; intros ? H1 H2; rewrite Zminus_mod, H1, H2, <- Zminus_mod; reflexivity. Qed.

Lemma weq_mul w x x' y y' : 0 <= w -> weq w x x' -> weq w y y' -> weq w (x * y) (x' * y').
Proof.
  unfold weq, uwrap; intros ? H1 H2; pose proof (pow2_pos w).
  rewrite Z.mul_mod, H1, H2, <- Z.mul_mod by lia; reflexivity.
Qed.

#[export] Instance weq_equiv w : Equivalence (weq w).
Proof. unfold weq; split; congruence. Qed.

(** The signed reading of an unsigned value. *)
Lemma swrap_cases w x : 0 < w -> uin w x ->
  (x < 2 ^ (w - 1) /\ swrap w x = x) \/ (2 ^ (w - 1) <= x /\ swrap w x = x - 2 ^ w).
Proof.
  unfold uin, swrap; intros; pose proof (pow2_half w ltac:(lia)).
  destruct (Z_lt_ge_dec x (2 ^ (w - 1))); [left|right]; split; try lia.
  - rewrite Z.mod_small; lia.
  - replace (x + 2 ^ (w - 1)) with (x - 2 ^ (w - 1) + 1 * 2 ^ w) by lia.
    rewrite Z.mod_add, Z.mod_small; lia.
Qed.
