(* ===== verification/Lists.v ===== *)
(** Lemmas on lists shared by the components that keep arrays: total lookup
    after an update, and the elements of an array of lists. *)
From stdpp Require Import base list sorting.

(** Decides a closed proposition by evaluation. *)
Ltac checked := match goal with |- ?P => exact (bool_decide_unpack P ltac:(vm_compute; exact I)) end.

Lemma total_alter {A} `{Inhabited A} (f : A -> A) i j (l : list A) : i < length l ->
  alter f i l !!! j = if decide (i = j) then f (l !!! j) else l !!! j.
Proof.
  intros Hi; rewrite !list_lookup_total_alt; destruct (decide (i = j)) as [<-|N].
  - rewrite list_lookup_alter_eq; destruct (lookup_lt_is_Some_2 l i Hi) as [x ->]; reflexivity.
  - rewrite list_lookup_alter_ne by exact N; reflexivity.
Qed.

Lemma alter_other {A} `{Inhabited A} (f : A -> A) i j (l : list A) : i <> j -> alter f i l !!! j = l !!! j.
Proof. intros N; rewrite !list_lookup_total_alt, list_lookup_alter_ne by exact N; reflexivity. Qed.

Lemma lookup_total_fmap {A} `{Inhabited A} (f : A -> A) (l : list A) i :
  f inhabitant = inhabitant -> (f <$> l) !!! i = f (l !!! i).
Proof.
  intros Hf; rewrite !list_lookup_total_alt, list_lookup_fmap; destruct (l !! i); cbn; [reflexivity|].
  symmetry; exact Hf.
Qed.

(** ** Arrays of lists *)

Lemma filter_join {A} (P : A -> Prop) `{!forall x, Decision (P x)} (L : list (list A)) :
  mjoin (filter P <$> L) = filter P (mjoin L).
Proof. induction L as [|l L IH]; cbn; [reflexivity|]; rewrite filter_app; f_equal; exact IH. Qed.

Lemma join_cons {A} (x : A) i (L : list (list A)) : i < length L -> mjoin (alter (cons x) i L) ≡ₚ x :: mjoin L.
Proof.
  revert i; induction L as [|l L IH]; intros [|i] H; cbn in *; [lia|lia|reflexivity|].
  rewrite (IH i) by lia; symmetry; apply Permutation_middle.
Qed.

Lemma join_snoc {A} (x : A) i (L : list (list A)) : i < length L -> mjoin (alter (fun l => l ++ [x]) i L) ≡ₚ x :: mjoin L.
Proof.
  revert i; induction L as [|l L IH]; intros [|i] H; cbn in *; [lia|lia|rewrite <- app_assoc; symmetry; apply Permutation_middle|].
  rewrite (IH i) by lia; symmetry; apply Permutation_middle.
Qed.

Lemma elem_of_join_at {A} (x : A) i (L : list (list A)) : x ∈ L !!! i -> x ∈ mjoin L.
Proof.
  intros H; rewrite list_lookup_total_alt in H; destruct (L !! i) as [l|] eqn:E; cbn in H; [|apply elem_of_nil in H as []].
  apply list_elem_of_join; exists l; split; [exact H|exact (list_elem_of_lookup_2 _ _ _ E)].
Qed.

(** An element of a duplicate-free array of lists is on one list. *)
Lemma join_NoDup_unique {A} (x : A) i j (L : list (list A)) : NoDup (mjoin L) -> x ∈ L !!! i -> x ∈ L !!! j -> i = j.
Proof.
  revert i j; induction L as [|l L IH]; intros i j N Hi Hj; [destruct i; apply elem_of_nil in Hi as []|].
  cbn in N; apply NoDup_app in N as (_ & D & N).
  destruct i as [|i], j as [|j]; cbn in Hi, Hj; trivial; [exfalso; apply (D x Hi), (elem_of_join_at _ _ _ Hj)| |f_equal; eauto].
  exfalso; apply (D x Hj), (elem_of_join_at _ _ _ Hi).
Qed.

Lemma filter_ne_id {A} `{EqDecision A} (x : A) (l : list A) : x ∉ l -> filter (fun y => y <> x) l = l.
Proof.
  induction l as [|z l IH]; [reflexivity|]; intros Ny; rewrite not_elem_of_cons in Ny; destruct Ny as [Nz Ny].
  rewrite filter_cons_True by congruence; f_equal; exact (IH Ny).
Qed.

Lemma length_filter_ne {A} `{EqDecision A} (x : A) (l : list A) : NoDup l -> x ∈ l -> S (length (filter (fun y => y <> x) l)) = length l.
Proof.
  induction l as [|y l IH]; intros N H; [apply elem_of_nil in H as []|].
  apply NoDup_cons in N as [Ny N]; rewrite filter_cons; destruct (decide (y <> x)) as [D|D]; cbn.
  - rewrite IH; trivial; apply elem_of_cons in H as [->|H]; [contradiction|exact H].
  - rewrite filter_ne_id; [reflexivity|]; destruct (decide (y = x)) as [<-|]; [exact Ny|contradiction].
Qed.
