(* ===== verification/Bits.v ===== *)
(** Bit-level facts on machine integers: [Z.testbit] of every operation of the
    prelude, ranges by bits, and the carry/borrow form of addition and
    subtraction that the tristate-number proofs rest on. *)
From Stdlib Require Import ZArith Lia Bool Btauto.
From S2P Require Import Prelude.

Local Open Scope Z_scope.

(** ** Bits of the operations *)

Lemma testbit_uwrap w z i : 0 <= w -> 0 <= i -> Z.testbit (uwrap w z) i = (i <? w) && Z.testbit z i.
Proof.
  intros; unfold uwrap; destruct (Z.ltb_spec i w).
  - rewrite Z.mod_pow2_bits_low by lia; reflexivity.
  - rewrite Z.mod_pow2_bits_high by lia; reflexivity.
Qed.

Lemma testbit_unot w z i : 0 <= w -> 0 <= i -> Z.testbit (unot w z) i = (i <? w) && negb (Z.testbit z i).
Proof. intros; unfold unot; rewrite testbit_uwrap, Z.lnot_spec by lia; reflexivity. Qed.

Lemma testbit_ushl w z n i : 0 <= w -> 0 <= n -> 0 <= i ->
  Z.testbit (ushl w z n) i = (i <? w) && (n <=? i) && Z.testbit z (i - n).
Proof.
  intros; unfold ushl; rewrite testbit_uwrap, Z.shiftl_spec by lia.
  destruct (Z.leb_spec n i); [|rewrite (Z.testbit_neg_r z (i - n)) by lia]; btauto.
Qed.

Lemma testbit_ushr z n i : 0 <= i -> Z.testbit (ushr z n) i = Z.testbit z (i + n).
Proof. intros; apply Z.shiftr_spec; lia. Qed.

Lemma testbit_swrap w z i : 0 < w -> 0 <= i -> Z.testbit (swrap w z) i = Z.testbit z (Z.min i (w - 1)).
Proof.
  intros Hw Hi; pose proof (uwrap_range w z ltac:(lia)) as Hr.
  rewrite <- (swrap_uwrap w w) by lia.
  replace (Z.testbit z (Z.min i (w - 1))) with (Z.testbit (uwrap w z) (Z.min i (w - 1)))
    by (rewrite testbit_uwrap by lia; destruct (Z.ltb_spec (Z.min i (w - 1)) w); [reflexivity|lia]).
  set (u := uwrap w z) in *; clearbody u.
  pose proof (pow2_half w Hw) as Hh; unfold uin in Hr.
  assert (Htop : Z.testbit u (w - 1) = (2 ^ (w - 1) <=? u)).
  { rewrite Z.testbit_odd, Z.shiftr_div_pow2 by lia.
    destruct (Z.leb_spec (2 ^ (w - 1)) u).
    - replace (u / 2 ^ (w - 1)) with 1; [reflexivity|].
      apply Z.div_unique with (u - 2 ^ (w - 1)); lia.
    - rewrite Z.div_small by lia; reflexivity. }
  destruct (swrap_cases w u Hw Hr) as [[Hlt ->]|[Hge ->]].
  - destruct (Z.le_gt_cases i (w - 1)); [rewrite Z.min_l by lia; reflexivity|].
    rewrite Z.min_r, Htop by lia; destruct (Z.leb_spec (2 ^ (w - 1)) u); [lia|].
    rewrite <- (Z.mod_small u (2 ^ w)) by lia; apply Z.mod_pow2_bits_high; lia.
  - destruct (Z.le_gt_cases i (w - 1)).
    + rewrite Z.min_l by lia.
      rewrite <- (Z.mod_pow2_bits_low (u - 2 ^ w) w), <- (Z.mod_pow2_bits_low u w) by lia.
      replace (u - 2 ^ w) with (u + (-1) * 2 ^ w) by lia.
      rewrite Z.mod_add by lia; reflexivity.
    + rewrite Z.min_r, Htop by lia; destruct (Z.leb_spec (2 ^ (w - 1)) u); [|lia].
      rewrite Z.testbit_odd, Z.shiftr_div_pow2 by lia.
      replace ((u - 2 ^ w) / 2 ^ i) with (-1); [reflexivity|].
      assert (2 ^ w <= 2 ^ i) by (apply Z.pow_le_mono_r; lia).
      apply Z.div_unique with (u - 2 ^ w + 2 ^ i); lia.
Qed.

Create Rewrite HintDb kbits.

#[export] Hint Rewrite Z.land_spec Z.lor_spec Z.lxor_spec Z.ldiff_spec Z.testbit_0_l : kbits.
#[export] Hint Rewrite testbit_uwrap testbit_unot testbit_ushl testbit_ushr using lia : kbits.

(** The same below the width, where no comparison is left. *)
Lemma testbit_uwrap_low w z i : 0 <= i < w -> Z.testbit (uwrap w z) i = Z.testbit z i.
Proof. intros; rewrite testbit_uwrap by lia; destruct (Z.ltb_spec i w); [reflexivity|lia]. Qed.

Lemma testbit_unot_low w z i : 0 <= i < w -> Z.testbit (unot w z) i = negb (Z.testbit z i).
Proof. intros; rewrite testbit_unot by lia; destruct (Z.ltb_spec i w); [reflexivity|lia]. Qed.

Create Rewrite HintDb kbits_low.

#[export] Hint Rewrite Z.land_spec Z.lor_spec Z.lxor_spec Z.ldiff_spec Z.testbit_0_l : kbits_low.
#[export] Hint Rewrite testbit_uwrap_low testbit_unot_low testbit_ushl testbit_ushr using lia : kbits_low.

(** ** Ranges by bits *)

Lemma uin_high w x i : 0 <= w <= i -> uin w x -> Z.testbit x i = false.
Proof. intros Hw Hx; rewrite <- (uwrap_id w x Hx); unfold uwrap; apply Z.mod_pow2_bits_high; lia. Qed.

Lemma uin_bits w x : 0 <= w -> (uin w x <-> forall i, w <= i -> Z.testbit x i = false).
Proof.
  intros Hw; split; [intros Hx i Hi; apply (uin_high w); [lia|exact Hx]|].
  intros Hx; replace x with (uwrap w x); [apply uwrap_range; lia|].
  apply Z.bits_inj'; intros i Hi; rewrite testbit_uwrap by lia.
  destruct (Z.ltb_spec i w); [reflexivity|rewrite Hx by lia; reflexivity].
Qed.

Lemma bits_inj_w w x y : 0 <= w -> uin w x -> uin w y ->
  (forall i, 0 <= i < w -> Z.testbit x i = Z.testbit y i) -> x = y.
Proof.
  intros Hw Hx Hy H; apply Z.bits_inj'; intros i Hi.
  destruct (Z.lt_ge_cases i w); [apply H; lia|].
  rewrite !(uin_high w) by (trivial; lia); reflexivity.
Qed.

Create HintDb kint discriminated.

Lemma uin_land w x y : 0 <= w -> uin w x -> uin w (Z.land x y).
Proof. intros Hw Hx; apply uin_bits; [lia|]; intros i Hi; rewrite Z.land_spec, (uin_high w x) by (trivial; lia); reflexivity. Qed.

Lemma uin_land_r w x y : 0 <= w -> uin w y -> uin w (Z.land x y).
Proof. intros; rewrite Z.land_comm; apply uin_land; assumption. Qed.

Lemma uin_lor w x y : 0 <= w -> uin w x -> uin w y -> uin w (Z.lor x y).
Proof. intros Hw Hx Hy; apply uin_bits; [lia|]; intros i Hi; rewrite Z.lor_spec, !(uin_high w) by (trivial; lia); reflexivity. Qed.

Lemma uin_lxor w x y : 0 <= w -> uin w x -> uin w y -> uin w (Z.lxor x y).
Proof. intros Hw Hx Hy; apply uin_bits; [lia|]; intros i Hi; rewrite Z.lxor_spec, !(uin_high w) by (trivial; lia); reflexivity. Qed.

Lemma uin_ldiff w x y : 0 <= w -> uin w x -> uin w (Z.ldiff x y).
Proof. intros Hw Hx; apply uin_bits; [lia|]; intros i Hi; rewrite Z.ldiff_spec, (uin_high w x) by (trivial; lia); reflexivity. Qed.

Lemma uin_unot w x : 0 <= w -> uin w (unot w x).
Proof. intros; apply uwrap_range; lia. Qed.

Lemma uin_ushl w x n : 0 <= w -> uin w (ushl w x n).
Proof. intros; apply uwrap_range; lia. Qed.

Lemma uin_ushr w x n : 0 <= w -> 0 <= n -> uin w x -> uin w (ushr x n).
Proof. intros Hw Hn Hx; apply uin_bits; [lia|]; intros i Hi; rewrite testbit_ushr, (uin_high w) by (trivial; lia); reflexivity. Qed.

Lemma uin_le w w' x : 0 <= w <= w' -> uin w x -> uin w' x.
Proof. unfold uin; intros; pose proof (Z.pow_le_mono_r 2 w w'); lia. Qed.

Lemma uin_0 w : 0 <= w -> uin w 0.
Proof. intros; pose proof (pow2_pos w); unfold uin; lia. Qed.

#[export] Hint Resolve uin_0 : kint.
#[export] Hint Extern 0 (0 <= _) => lia : kint.
#[export] Hint Extern 0 (0 < _) => lia : kint.
#[export] Hint Resolve uin_unot uin_ushl uwrap_range swrap_range : kint.

(** Ranges of compound terms, directed by their syntax. *)
Ltac uin_solve :=
  lazymatch goal with
  | |- uin _ (Z.land _ _) =>
      first [ solve [apply uin_land; [lia|uin_solve]] | solve [apply uin_land_r; [lia|uin_solve]] ]
  | |- uin _ (Z.lor _ _) => apply uin_lor; [lia|uin_solve|uin_solve]
  | |- uin _ (Z.lxor _ _) => apply uin_lxor; [lia|uin_solve|uin_solve]
  | |- uin _ (Z.ldiff _ _) => apply uin_ldiff; [lia|uin_solve]
  | |- uin _ (ushr _ _) => apply uin_ushr; [lia|lia|uin_solve]
  | |- uin _ (ushl _ _ _) => apply uin_ushl; lia
  | |- uin _ (unot _ _) => apply uin_unot; lia
  | |- _ => eauto 4 with kint
  end.

(** Equality of [w]-bit values by their bits. *)
Ltac bits_split :=
  repeat match goal with
  | |- context [?a <? ?b] => destruct (Z.ltb_spec a b); try lia
  | |- context [?a <=? ?b] => destruct (Z.leb_spec a b); try lia
  end.

Ltac by_bits w :=
  apply (bits_inj_w w);
  [ lia | uin_solve | uin_solve
  | let i := fresh "i" in let Hi := fresh "Hi" in
    intros i Hi; autorewrite with kbits; bits_split; try btauto ].

(** ** Carries and borrows *)

Definition carryb (x y i : Z) : bool := 2 ^ i <=? x mod 2 ^ i + y mod 2 ^ i.
Definition borrowb (x y i : Z) : bool := x mod 2 ^ i <? y mod 2 ^ i.

Lemma testbit_add x y i : 0 <= i ->
  Z.testbit (x + y) i = xorb (xorb (Z.testbit x i) (Z.testbit y i)) (carryb x y i).
Proof.
  intros Hi; rewrite !Z.testbit_odd, !Z.shiftr_div_pow2 by lia; unfold carryb.
  pose proof (pow2_pos i Hi) as Hp.
  pose proof (Z.div_mod x (2 ^ i)) as Hx; pose proof (Z.mod_pos_bound x (2 ^ i) Hp).
  pose proof (Z.div_mod y (2 ^ i)) as Hy; pose proof (Z.mod_pos_bound y (2 ^ i) Hp).
  destruct (Z.leb_spec (2 ^ i) (x mod 2 ^ i + y mod 2 ^ i)).
  - replace ((x + y) / 2 ^ i) with (x / 2 ^ i + y / 2 ^ i + 1)
      by (apply Z.div_unique with (x mod 2 ^ i + y mod 2 ^ i - 2 ^ i); lia).
    rewrite !Z.odd_add; reflexivity.
  - replace ((x + y) / 2 ^ i) with (x / 2 ^ i + y / 2 ^ i)
      by (apply Z.div_unique with (x mod 2 ^ i + y mod 2 ^ i); lia).
    rewrite !Z.odd_add, xorb_false_r; reflexivity.
Qed.

Lemma testbit_sub x y i : 0 <= i ->
  Z.testbit (x - y) i = xorb (xorb (Z.testbit x i) (Z.testbit y i)) (borrowb x y i).
Proof.
  intros Hi; rewrite !Z.testbit_odd, !Z.shiftr_div_pow2 by lia; unfold borrowb.
  pose proof (pow2_pos i Hi) as Hp.
  pose proof (Z.div_mod x (2 ^ i)) as Hx; pose proof (Z.mod_pos_bound x (2 ^ i) Hp).
  pose proof (Z.div_mod y (2 ^ i)) as Hy; pose proof (Z.mod_pos_bound y (2 ^ i) Hp).
  destruct (Z.ltb_spec (x mod 2 ^ i) (y mod 2 ^ i)).
  - replace ((x - y) / 2 ^ i) with (x / 2 ^ i - y / 2 ^ i - 1)
      by (apply Z.div_unique with (x mod 2 ^ i - y mod 2 ^ i + 2 ^ i); lia).
    rewrite !Z.odd_sub; reflexivity.
  - replace ((x - y) / 2 ^ i) with (x / 2 ^ i - y / 2 ^ i)
      by (apply Z.div_unique with (x mod 2 ^ i - y mod 2 ^ i); lia).
    rewrite !Z.odd_sub, xorb_false_r; reflexivity.
Qed.

(** [a] has no bit set that [b] has not. *)
Definition subbits (a b : Z) : Prop := Z.ldiff a b = 0.

Lemma subbits_spec a b : subbits a b <-> forall i, 0 <= i -> Z.testbit a i = true -> Z.testbit b i = true.
Proof.
  unfold subbits; split.
  - intros H i Hi Ha; pose proof (f_equal (fun z => Z.testbit z i) H) as Hb; cbn beta in Hb.
    rewrite Z.ldiff_spec, Z.testbit_0_l, Ha in Hb; destruct (Z.testbit b i); [reflexivity|discriminate].
  - intros H; apply Z.bits_inj'; intros i Hi; rewrite Z.ldiff_spec, Z.testbit_0_l.
    destruct (Z.testbit a i) eqn:E; [rewrite (H i Hi E)|]; reflexivity.
Qed.

Lemma subbits_mod a b i : 0 <= i -> subbits a b -> a mod 2 ^ i <= b mod 2 ^ i.
Proof.
  intros Hi H; apply Z.ldiff_le; [apply Z.mod_pos_bound, pow2_pos; lia|].
  apply (proj2 (subbits_spec _ _)); intros j Hj; rewrite <- !(Z.land_ones _ i), !Z.land_spec by lia.
  rewrite !andb_true_iff; intros [? ?]; split; [eapply subbits_spec; eauto|assumption].
Qed.

Lemma subbits_le a b : 0 <= b -> subbits a b -> 0 <= a <= b.
Proof. intros; apply Z.ldiff_le; assumption. Qed.

Lemma carryb_mono x x' y y' i : 0 <= i -> subbits x x' -> subbits y y' ->
  implb (carryb x y i) (carryb x' y' i) = true.
Proof.
  intros Hi Hx Hy; unfold carryb.
  pose proof (subbits_mod x x' i Hi Hx); pose proof (subbits_mod y y' i Hi Hy).
  destruct (Z.leb_spec (2 ^ i) (x mod 2 ^ i + y mod 2 ^ i));
    destruct (Z.leb_spec (2 ^ i) (x' mod 2 ^ i + y' mod 2 ^ i)); trivial; lia.
Qed.

Lemma borrowb_mono x x' y y' i : 0 <= i -> subbits x' x -> subbits y y' ->
  implb (borrowb x y i) (borrowb x' y' i) = true.
Proof.
  intros Hi Hx Hy; unfold borrowb.
  pose proof (subbits_mod x' x i Hi Hx); pose proof (subbits_mod y y' i Hi Hy).
  destruct (Z.ltb_spec (x mod 2 ^ i) (y mod 2 ^ i));
    destruct (Z.ltb_spec (x' mod 2 ^ i) (y' mod 2 ^ i)); trivial; lia.
Qed.

Lemma subbits_refl a : subbits a a.
Proof. apply Z.ldiff_diag. Qed.

(** Disjoint words add without carries. *)
Lemma add_disjoint a b : Z.land a b = 0 -> a + b = Z.lor a b.
Proof. intros H; rewrite Z.add_nocarry_lxor, Z.lxor_lor by exact H; reflexivity. Qed.
