(* ===== verification/Bitops.v ===== *)
(** Word-level bit searches of include/asm-generic/bitops and
    include/linux/log2.h, and their arithmetic meaning. *)
From Stdlib Require Import ZArith Lia Bool.
From S2P Require Import Prelude Bits.

Local Open Scope Z_scope.
Local Open Scope kint_scope.

(** ** Model *)

(** [__fls] with BITS_PER_LONG = 64: [num] counts down while the word is
    shifted up. *)
Definition __fls (word : Z) : Z :=
  let num := 63 in
  let '(num, word) :=
    if word .& ushl 64 U64_MAX 32 =? 0 then (num - 32, ushl 64 word 32) else (num, word) in
  let '(num, word) :=
    if word .& ushl 64 U64_MAX 48 =? 0 then (num - 16, ushl 64 word 16) else (num, word) in
  let '(num, word) :=
    if word .& ushl 64 U64_MAX 56 =? 0 then (num - 8, ushl 64 word 8) else (num, word) in
  let '(num, word) :=
    if word .& ushl 64 U64_MAX 60 =? 0 then (num - 4, ushl 64 word 4) else (num, word) in
  let '(num, word) :=
    if word .& ushl 64 U64_MAX 62 =? 0 then (num - 2, ushl 64 word 2) else (num, word) in
  if word .& ushl 64 U64_MAX 63 =? 0 then num - 1 else num.

(** [fls64] with BITS_PER_LONG = 64. *)
Definition fls64 (x : Z) : Z :=
  if x =? 0 then 0 else __fls x + 1.

(** [fls] on a 32-bit word. *)
Definition fls (x : Z) : Z :=
  let r := 32 in
  if x =? 0 then 0 else
  let '(r, x) := if x .& 0xffff0000 =? 0 then (r - 16, ushl 32 x 16) else (r, x) in
  let '(r, x) := if x .& 0xff000000 =? 0 then (r - 8, ushl 32 x 8) else (r, x) in
  let '(r, x) := if x .& 0xf0000000 =? 0 then (r - 4, ushl 32 x 4) else (r, x) in
  let '(r, x) := if x .& 0xc0000000 =? 0 then (r - 2, ushl 32 x 2) else (r, x) in
  if x .& 0x80000000 =? 0 then r - 1 else r.

Definition is_power_of_2 (n : Z) : bool :=
  negb (n =? 0) && (n .& u64 (n - 1) =? 0).

(** ** Correctness *)

(** The test of one halving step: no bit at or above position [w - k]. *)
Lemma land_high_zero w k x : 0 < k < w -> uin w x ->
  (x .& ushl w (2 ^ w - 1) (w - k) =? 0) = (x <? 2 ^ (w - k)).
Proof.
  intros Hk Hx; replace (2 ^ w - 1) with (Z.ones w) by (rewrite Z.ones_equiv; lia).
  destruct (Z.ltb_spec x (2 ^ (w - k))) as [Hlt|Hge].
  - apply Z.eqb_eq; by_bits w.
    rewrite (uin_high (w - k) x i) by (trivial; unfold uin in *; lia); reflexivity.
  - apply Z.eqb_neq; intros H.
    assert (Hu : uin (w - k) x); [|unfold uin in Hu; lia].
    apply uin_bits; [lia|]; intros i Hi.
    destruct (Z.lt_ge_cases i w); [|apply (uin_high w); [lia|exact Hx]].
    pose proof (f_equal (fun z => Z.testbit z i) H) as Hb; cbn beta in Hb.
    rewrite Z.land_spec, testbit_ushl, Z.testbit_0_l, Z.ones_spec_low in Hb by lia.
    destruct (Z.ltb_spec i w); destruct (Z.leb_spec (w - k) i); try lia.
    rewrite !andb_true_r in Hb; exact Hb.
Qed.

(** One halving step keeps [num + log2 word] and doubles the known prefix. *)
Lemma fls_step w k num x m : 0 < k -> 2 * k <= w -> m = 2 ^ w - 1 ->
  2 ^ (w - 2 * k) <= x < 2 ^ w ->
  let '(num', x') :=
    if x .& ushl w m (w - k) =? 0 then (num - k, ushl w x k) else (num, x) in
  2 ^ (w - k) <= x' < 2 ^ w /\ num' + Z.log2 x' = num + Z.log2 x.
Proof.
  intros Hk Hkw -> Hx; pose proof (pow2_pos (w - 2 * k) ltac:(lia)).
  rewrite land_high_zero by (unfold uin; lia).
  destruct (Z.ltb_spec x (2 ^ (w - k))) as [Hlt|Hge]; [|lia].
  assert (Hp : 2 ^ (w - k) * 2 ^ k = 2 ^ w) by (rewrite <- Z.pow_add_r by lia; f_equal; lia).
  assert (Hq : 2 ^ (w - 2 * k) * 2 ^ k = 2 ^ (w - k)) by (rewrite <- Z.pow_add_r by lia; f_equal; lia).
  pose proof (pow2_pos k ltac:(lia)).
  assert (E : ushl w x k = x * 2 ^ k).
  { unfold ushl; rewrite Z.shiftl_mul_pow2 by lia; apply uwrap_id; unfold uin; nia. }
  rewrite E; split; [nia|].
  rewrite Z.log2_mul_pow2 by lia; lia.
Qed.

Lemma log2_top w x : 1 < w -> 2 ^ (w - 2) <= x < 2 ^ w ->
  Z.log2 x = if x <? 2 ^ (w - 1) then w - 2 else w - 1.
Proof.
  intros Hw Hx; destruct (Z.ltb_spec x (2 ^ (w - 1))).
  - apply Z.log2_unique; [lia|]; replace (Z.succ (w - 2)) with (w - 1) by lia; lia.
  - apply Z.log2_unique; [lia|]; replace (Z.succ (w - 1)) with w by lia; lia.
Qed.

Ltac fls_halve w k :=
  match goal with
  | |- context [if ?x .& ?m =? 0 then (?n - k, ?y) else (?n, ?x)] =>
      let H := fresh "Hs" in
      assert (H : 2 ^ (w - 2 * k) <= x < 2 ^ w) by (pow2_const; lia);
      apply (fls_step w k n x (2 ^ w - 1) ltac:(lia) ltac:(lia) eq_refl) in H;
      change (ushl w (2 ^ w - 1) (w - k)) with m in H;
      destruct (if x .& m =? 0 then (n - k, y) else (n, x)) as [? ?];
      let H' := fresh "Hr" in destruct H as [H H']
  end.

Lemma __fls_log2 word : 0 < word -> uin 64 word -> __fls word = Z.log2 word.
Proof.
  intros Hp Hw; unfold __fls; unfold uin in Hw.
  fls_halve 64 32; fls_halve 64 16; fls_halve 64 8; fls_halve 64 4; fls_halve 64 2.
  change (ushl 64 U64_MAX 63) with (ushl 64 (2 ^ 64 - 1) (64 - 1)).
  rewrite land_high_zero by (pow2_const; unfold uin; lia).
  pose proof (log2_top 64 z8 ltac:(lia) ltac:(pow2_const; lia)) as Hl.
  destruct (z8 <? 2 ^ (64 - 1)); lia.
Qed.

Lemma fls64_spec x : uin 64 x -> fls64 x = if x =? 0 then 0 else Z.log2 x + 1.
Proof.
  intros Hx; unfold fls64; destruct (Z.eqb_spec x 0); [reflexivity|].
  rewrite __fls_log2 by (trivial; unfold uin in Hx; lia); reflexivity.
Qed.

(** [fls64 x] is the number of significant bits of [x]. *)
Lemma fls64_bound x : uin 64 x -> 0 <= fls64 x <= 64 /\ x < 2 ^ fls64 x /\ (x = 0 \/ 2 ^ (fls64 x - 1) <= x).
Proof.
  intros Hx; rewrite fls64_spec by exact Hx; unfold uin in Hx.
  destruct (Z.eqb_spec x 0) as [->|Hn]; [cbn; lia|].
  pose proof (Z.log2_spec x ltac:(lia)) as Hl; pose proof (Z.log2_nonneg x).
  replace (Z.log2 x + 1 - 1) with (Z.log2 x) by lia; rewrite Z.add_1_r.
  assert (Z.log2 x < 64) by (apply Z.log2_lt_pow2; lia).
  split_and; [lia|lia|lia|right; lia].
Qed.

Lemma fls_log2 x : 0 < x -> uin 32 x -> fls x = Z.log2 x + 1.
Proof.
  intros Hp Hw; unfold fls; unfold uin in Hw.
  replace (x =? 0) with false by (symmetry; apply Z.eqb_neq; lia).
  fls_halve 32 16; fls_halve 32 8; fls_halve 32 4; fls_halve 32 2.
  change 0x80000000 with (ushl 32 (2 ^ 32 - 1) (32 - 1)).
  rewrite land_high_zero by (pow2_const; unfold uin; lia).
  match goal with |- context [?y <? _] =>
    pose proof (log2_top 32 y ltac:(lia) ltac:(pow2_const; lia)) as Hl; destruct (y <? 2 ^ (32 - 1))
  end; lia.
Qed.

(** [n & (n - 1)] clears the lowest set bit, so the test accepts exactly the
    powers of two. *)
Lemma land_pred_pow2 n : 0 < n -> Z.land n (n - 1) = 0 -> n = 2 ^ Z.log2 n.
Proof.
  intros Hn H; pose proof (Z.log2_spec n Hn) as [Hl Hu]; pose proof (Z.log2_nonneg n).
  destruct (Z.eq_dec n (2 ^ Z.log2 n)) as [|Hne]; [assumption|exfalso].
  assert (Hb : Z.testbit (Z.land n (n - 1)) (Z.log2 n) = true);
    [|rewrite H, Z.testbit_0_l in Hb; discriminate].
  rewrite Z.land_spec, Z.bit_log2 by lia.
  replace (Z.log2 n) with (Z.log2 (n - 1)) by (apply Z.log2_unique; lia).
  rewrite Z.bit_log2; [reflexivity|].
  destruct (Z.eq_dec n 1) as [->|]; [cbn in Hne; lia|lia].
Qed.

Lemma land_pow2_pred k : 0 <= k -> Z.land (2 ^ k) (2 ^ k - 1) = 0.
Proof.
  intros Hk; replace (2 ^ k - 1) with (Z.ones k) by (rewrite Z.ones_equiv; lia).
  rewrite Z.land_ones by lia; apply Z.mod_same; pose proof (pow2_pos k); lia.
Qed.

Lemma is_power_of_2_spec n : uin 64 n ->
  is_power_of_2 n = true <-> exists k, 0 <= k < 64 /\ n = 2 ^ k.
Proof.
  intros Hn; unfold is_power_of_2; rewrite andb_true_iff, negb_true_iff, Z.eqb_neq, Z.eqb_eq.
  unfold uin in Hn; split.
  - intros [H0 H]; rewrite uwrap_id in H by (unfold uin; lia).
    exists (Z.log2 n); split; [|apply land_pred_pow2; lia].
    pose proof (Z.log2_nonneg n); assert (Z.log2 n < 64) by (apply Z.log2_lt_pow2; lia); lia.
  - intros (k & Hk & ->); pose proof (pow2_pos k ltac:(lia)).
    rewrite uwrap_id by (unfold uin; lia); split; [lia|apply land_pow2_pred; lia].
Qed.
