(* ===== verification/Tnum.v ===== *)
(** Tristate numbers: kernel/bpf/tnum.c and include/linux/tnum.h.

    A [tnum] describes the set of 64-bit values that agree with [value] on
    every bit that is clear in [mask].  The operations are modelled one by one;
    the theorems show that each one over-approximates the machine operation it
    stands for, that the addition and the range constructor are the most
    precise ones possible, and that the containment test is exact. *)
From Stdlib Require Import ZArith Lia Bool Btauto.
From S2P Require Import Prelude Bits Bitops.

Local Open Scope Z_scope.
Local Open Scope kint_scope.

(** ** Model *)

Record tnum := TNUM { value : Z; mask : Z }.

Definition tnum_unknown : tnum := TNUM 0 (u64 (-1)).

Definition tnum_const (value : Z) : tnum := TNUM value 0.

Definition tnum_range (min max : Z) : tnum :=
  let chi := min .^ max in
  let bits := u8 (fls64 chi) in
  if bits >? 63 then tnum_unknown else
  let delta := u64 (ushl 64 1 bits - 1) in
  TNUM (min .& unot 64 delta) delta.

Definition tnum_lshift (a : tnum) (shift : Z) : tnum :=
  TNUM (ushl 64 (value a) shift) (ushl 64 (mask a) shift).

Definition tnum_rshift (a : tnum) (shift : Z) : tnum :=
  TNUM (ushr (value a) shift) (ushr (mask a) shift).

Definition tnum_arshift (a : tnum) (min_shift insn_bitness : Z) : tnum :=
  if insn_bitness =? 32 then
    TNUM (u32 (Z.shiftr (s32 (value a)) min_shift))
         (u32 (Z.shiftr (s32 (mask a)) min_shift))
  else
    TNUM (u64 (Z.shiftr (s64 (value a)) min_shift))
         (u64 (Z.shiftr (s64 (mask a)) min_shift)).

Definition tnum_add (a b : tnum) : tnum :=
  let sm := u64 (mask a + mask b) in
  let sv := u64 (value a + value b) in
  let sigma := u64 (sm + sv) in
  let chi := sigma .^ sv in
  let mu := chi .| mask a .| mask b in
  TNUM (sv .& unot 64 mu) mu.

Definition tnum_sub (a b : tnum) : tnum :=
  let dv := u64 (value a - value b) in
  let alpha := u64 (dv + mask a) in
  let beta := u64 (dv - mask b) in
  let chi := alpha .^ beta in
  let mu := chi .| mask a .| mask b in
  TNUM (dv .& unot 64 mu) mu.

Definition tnum_and (a b : tnum) : tnum :=
  let alpha := value a .| mask a in
  let beta := value b .| mask b in
  let v := value a .& value b in
  TNUM v (alpha .& beta .& unot 64 v).

Definition tnum_or (a b : tnum) : tnum :=
  let v := value a .| value b in
  let mu := mask a .| mask b in
  TNUM v (mu .& unot 64 v).

Definition tnum_xor (a b : tnum) : tnum :=
  let v := value a .^ value b in
  let mu := mask a .| mask b in
  TNUM (v .& unot 64 mu) mu.

(** The [while (mask)] loop of [hma]; the fuel is the width of [mask], which
    loses one bit per turn. *)
Fixpoint hma_loop (fuel : nat) (acc : tnum) (value mask : Z) : tnum :=
  match fuel with
  | O => acc
  | S fuel =>
      if mask =? 0 then acc else
      let acc := if negb (mask .& 1 =? 0) then tnum_add acc (TNUM 0 value) else acc in
      hma_loop fuel acc (ushl 64 value 1) (ushr mask 1)
  end.

Definition hma (acc : tnum) (value mask : Z) : tnum := hma_loop 64 acc value mask.

Definition tnum_mul (a b : tnum) : tnum :=
  let pi := u64 (value a * value b) in
  let acc := hma (TNUM pi 0) (mask a) (mask b .| value b) in
  hma acc (mask b) (value a).

Definition tnum_intersect (a b : tnum) : tnum :=
  let v := value a .| value b in
  let mu := mask a .& mask b in
  TNUM (v .& unot 64 mu) mu.

Definition tnum_cast (a : tnum) (size : Z) : tnum :=
  TNUM (value a .& u64 (ushl 64 1 (size * 8) - 1))
       (mask a .& u64 (ushl 64 1 (size * 8) - 1)).

Definition tnum_is_const (a : tnum) : bool := mask a =? 0.

Definition tnum_equals_const (a : tnum) (b : Z) : bool :=
  tnum_is_const a && (value a =? b).

Definition tnum_is_unknown (a : tnum) : bool := unot 64 (mask a) =? 0.

Definition tnum_is_aligned (a : tnum) (size : Z) : bool :=
  if size =? 0 then true
  else (value a .| mask a) .& u64 (size - 1) =? 0.

Definition tnum_in (a b : tnum) : bool :=
  if negb (mask b .& unot 64 (mask a) =? 0) then false
  else value a =? value b .& unot 64 (mask a).

Definition tnum_subreg (a : tnum) : tnum := tnum_cast a 4.

Definition tnum_clear_subreg (a : tnum) : tnum :=
  tnum_lshift (tnum_rshift a 32) 32.

Definition tnum_const_subreg (a : tnum) (value : Z) : tnum :=
  tnum_or (tnum_clear_subreg a) (tnum_const value).

Definition tnum_subreg_is_const (a : tnum) : bool := mask (tnum_subreg a) =? 0.

(** ** Meaning *)

(** [x] is one of the values [a] stands for. *)
Definition tnum_mem (a : tnum) (x : Z) : Prop :=
  uin 64 x /\ Z.ldiff x (mask a) = value a.

(** The representation invariant: 64-bit fields, and no bit both known and
    unknown. *)
Definition tnum_ok (a : tnum) : Prop :=
  uin 64 (value a) /\ uin 64 (mask a) /\ Z.land (value a) (mask a) = 0.

Lemma tnum_ok_value a : tnum_ok a -> uin 64 (value a).
Proof. intros (? & ? & ?); assumption. Qed.

Lemma tnum_ok_mask a : tnum_ok a -> uin 64 (mask a).
Proof. intros (? & ? & ?); assumption. Qed.

Lemma tnum_mem_range a x : tnum_mem a x -> uin 64 x.
Proof. intros [? ?]; assumption. Qed.

#[export] Hint Resolve tnum_ok_value tnum_ok_mask tnum_mem_range : kint.

Lemma tnum_mem_bit a x i : tnum_mem a x -> Z.testbit (value a) i = Z.testbit x i && negb (Z.testbit (mask a) i).
Proof. intros [Hx <-]; apply Z.ldiff_spec. Qed.

Lemma tnum_ok_bit a i : tnum_ok a -> Z.testbit (value a) i && Z.testbit (mask a) i = false.
Proof. intros (? & ? & H); rewrite <- Z.land_spec, H; apply Z.testbit_0_l. Qed.

Lemma tnum_mem_intro a x : uin 64 (value a) -> uin 64 x ->
  (forall i, 0 <= i < 64 -> Z.testbit (value a) i = Z.testbit x i && negb (Z.testbit (mask a) i)) ->
  tnum_mem a x.
Proof.
  intros Hv Hx H; split; [exact Hx|]; apply (bits_inj_w 64); try uin_solve.
  intros i Hi; rewrite Z.ldiff_spec, H by lia; reflexivity.
Qed.

Lemma tnum_ok_intro a : uin 64 (value a) -> uin 64 (mask a) ->
  (forall i, 0 <= i < 64 -> Z.testbit (value a) i && Z.testbit (mask a) i = false) -> tnum_ok a.
Proof.
  intros Hv Hm H; split; [|split]; trivial; apply (bits_inj_w 64); try uin_solve.
  intros i Hi; rewrite Z.land_spec, Z.testbit_0_l; apply H; lia.
Qed.

(** Replace the known bits of every tnum by what membership says of them. *)
Ltac tnum_mem_at i :=
  repeat match goal with
  | H : tnum_mem ?a ?x |- context [Z.testbit (value ?a) i] => rewrite (tnum_mem_bit a x i H)
  end.

Ltac tnum_ok_at i :=
  repeat match goal with
  | H : tnum_ok ?a |- _ => generalize (tnum_ok_bit a i H); clear H
  end;
  repeat match goal with |- context [Z.testbit ?a i] => destruct (Z.testbit a i) end.

(** Bitwise operators on tnums: everything is decided bit by bit. *)
Ltac tnum_bitwise :=
  match goal with
  | |- tnum_mem _ _ => apply tnum_mem_intro
  | |- tnum_ok _ => apply tnum_ok_intro
  end; cbn [value mask];
  [ uin_solve | uin_solve
  | let i := fresh "i" in intros i ?; autorewrite with kbits_low;
    tnum_mem_at i;
    match goal with
    | H : tnum_mem _ _ |- _ => try btauto
    | _ => tnum_ok_at i; cbn; intros; try discriminate; reflexivity
    end ].

Section Bitwise.
Variables a b : tnum.
Hypothesis Ha : tnum_ok a.
Hypothesis Hb : tnum_ok b.

Lemma tnum_and_ok : tnum_ok (tnum_and a b).
Proof. unfold tnum_and; tnum_bitwise. Qed.

Lemma tnum_or_ok : tnum_ok (tnum_or a b).
Proof. unfold tnum_or; tnum_bitwise. Qed.

Lemma tnum_xor_ok : tnum_ok (tnum_xor a b).
Proof. unfold tnum_xor; tnum_bitwise. Qed.

Lemma tnum_intersect_ok : tnum_ok (tnum_intersect a b).
Proof. unfold tnum_intersect; tnum_bitwise. Qed.

Variables x y : Z.
Hypothesis Hx : tnum_mem a x.
Hypothesis Hy : tnum_mem b y.

Lemma tnum_and_mem : tnum_mem (tnum_and a b) (x .& y).
Proof. unfold tnum_and; tnum_bitwise. Qed.

Lemma tnum_or_mem : tnum_mem (tnum_or a b) (x .| y).
Proof. unfold tnum_or; tnum_bitwise. Qed.

Lemma tnum_xor_mem : tnum_mem (tnum_xor a b) (x .^ y).
Proof. unfold tnum_xor; tnum_bitwise. Qed.
End Bitwise.

Lemma tnum_intersect_mem a b x : tnum_ok a -> tnum_ok b -> tnum_mem a x -> tnum_mem b x -> tnum_mem (tnum_intersect a b) x.
Proof. intros; unfold tnum_intersect; tnum_bitwise. Qed.

(** ** Addition and subtraction *)

(** Abstract the bits, carries and borrows of the goal and try every case. *)
Ltac bool_implb :=
  repeat match goal with
  | |- context [carryb ?x ?y ?i] => generalize (carryb x y i)
  | |- context [borrowb ?x ?y ?i] => generalize (borrowb x y i)
  | |- context [Z.testbit ?x ?i] => generalize (Z.testbit x i)
  end; clear;
  repeat match goal with |- forall _ : bool, _ => intros [] end;
  cbn; intros; try discriminate; reflexivity.

(** A member lies, bit by bit, between [value] and [value + mask]. *)
Lemma tnum_mem_lower a x : tnum_mem a x -> subbits (value a) x.
Proof.
  intros H; apply subbits_spec; intros i Hi; rewrite (tnum_mem_bit a x i H), andb_true_iff; tauto.
Qed.

Lemma tnum_mem_upper a x : tnum_ok a -> tnum_mem a x -> subbits x (value a + mask a).
Proof.
  intros (_ & _ & Hd) H; rewrite add_disjoint by exact Hd; apply subbits_spec; intros i Hi.
  rewrite Z.lor_spec, (tnum_mem_bit a x i H); intros ->; cbn; destruct (Z.testbit (mask a) i); reflexivity.
Qed.

Lemma tnum_upper_bit a x i : tnum_ok a -> tnum_mem a x ->
  Z.testbit (value a + mask a) i = Z.testbit x i || Z.testbit (mask a) i.
Proof.
  intros (_ & _ & Hd) H; rewrite add_disjoint, Z.lor_spec, (tnum_mem_bit a x i H) by exact Hd; btauto.
Qed.

Lemma tnum_value_mem a : tnum_ok a -> tnum_mem a (value a).
Proof.
  intros H; apply tnum_mem_intro; eauto with kint; intros i Hi.
  pose proof (tnum_ok_bit a i H); destruct (Z.testbit (value a) i), (Z.testbit (mask a) i); trivial; discriminate.
Qed.

(** The three sums the analysis compares: minimal, actual and maximal. *)
Lemma tnum_add_carries a b x y i : 0 <= i -> tnum_ok a -> tnum_ok b -> tnum_mem a x -> tnum_mem b y ->
  implb (carryb (value a) (value b) i) (carryb x y i) = true /\
  implb (carryb x y i) (carryb (value a + mask a) (value b + mask b) i) = true.
Proof.
  intros; split; apply carryb_mono; eauto using tnum_mem_lower, tnum_mem_upper.
Qed.

Lemma tnum_sub_borrows a b x y i : 0 <= i -> tnum_ok a -> tnum_ok b -> tnum_mem a x -> tnum_mem b y ->
  implb (borrowb (value a + mask a) (value b) i) (borrowb x y i) = true /\
  implb (borrowb x y i) (borrowb (value a) (value b + mask b) i) = true.
Proof.
  intros; split; apply borrowb_mono; eauto using tnum_mem_lower, tnum_mem_upper.
Qed.

Lemma tnum_add_sigma a b :
  u64 (u64 (mask a + mask b) + u64 (value a + value b)) = u64 ((value a + mask a) + (value b + mask b)).
Proof.
  change (weq 64 (u64 (mask a + mask b) + u64 (value a + value b)) ((value a + mask a) + (value b + mask b))).
  replace ((value a + mask a) + (value b + mask b)) with ((mask a + mask b) + (value a + value b)) by lia.
  apply weq_add; [lia| |]; apply weq_uwrap; lia.
Qed.

Lemma tnum_sub_alpha a b : u64 (u64 (value a - value b) + mask a) = u64 ((value a + mask a) - value b).
Proof.
  change (weq 64 (u64 (value a - value b) + mask a) ((value a + mask a) - value b)).
  replace (value a + mask a - value b) with ((value a - value b) + mask a) by lia.
  apply weq_add; [lia|apply weq_uwrap; lia|reflexivity].
Qed.

Lemma tnum_sub_beta a b : u64 (u64 (value a - value b) - mask b) = u64 (value a - (value b + mask b)).
Proof.
  change (weq 64 (u64 (value a - value b) - mask b) (value a - (value b + mask b))).
  replace (value a - (value b + mask b)) with ((value a - value b) - mask b) by lia.
  apply weq_sub; [lia|apply weq_uwrap; lia|reflexivity].
Qed.

(** The bits of [tnum_add]'s mask: an operand bit is unknown, or the carry into
    the position is. *)
Lemma tnum_add_mask_bit a b i : 0 <= i < 64 -> tnum_ok a -> tnum_ok b ->
  Z.testbit (mask (tnum_add a b)) i =
  Z.testbit (mask a) i || Z.testbit (mask b) i ||
  xorb (carryb (value a) (value b) i) (carryb (value a + mask a) (value b + mask b) i).
Proof.
  intros Hi Ha Hb; cbn [tnum_add mask]; rewrite tnum_add_sigma; autorewrite with kbits_low.
  rewrite (testbit_add (value a + mask a)), (testbit_add (value a) (value b)) by lia.
  rewrite (tnum_upper_bit a _ i Ha (tnum_value_mem a Ha)), (tnum_upper_bit b _ i Hb (tnum_value_mem b Hb)).
  pose proof (tnum_ok_bit a i Ha) as Ea; pose proof (tnum_ok_bit b i Hb) as Eb; revert Ea Eb; bool_implb.
Qed.

Lemma tnum_sub_mask_bit a b i : 0 <= i < 64 -> tnum_ok a -> tnum_ok b ->
  Z.testbit (mask (tnum_sub a b)) i =
  Z.testbit (mask a) i || Z.testbit (mask b) i ||
  xorb (borrowb (value a + mask a) (value b) i) (borrowb (value a) (value b + mask b) i).
Proof.
  intros Hi Ha Hb; cbn [tnum_sub mask]; rewrite tnum_sub_alpha, tnum_sub_beta; autorewrite with kbits_low.
  rewrite (testbit_sub (value a + mask a)), (testbit_sub (value a) (value b + mask b)) by lia.
  rewrite (tnum_upper_bit a _ i Ha (tnum_value_mem a Ha)), (tnum_upper_bit b _ i Hb (tnum_value_mem b Hb)).
  pose proof (tnum_ok_bit a i Ha) as Ea; pose proof (tnum_ok_bit b i Hb) as Eb; revert Ea Eb; bool_implb.
Qed.

Lemma tnum_add_ok a b : tnum_ok a -> tnum_ok b -> tnum_ok (tnum_add a b).
Proof.
  intros; unfold tnum_add; apply tnum_ok_intro; cbn [value mask]; try uin_solve.
  intros i Hi; rewrite Z.land_spec, testbit_unot_low by lia; btauto.
Qed.

Lemma tnum_sub_ok a b : tnum_ok a -> tnum_ok b -> tnum_ok (tnum_sub a b).
Proof.
  intros; unfold tnum_sub; apply tnum_ok_intro; cbn [value mask]; try uin_solve.
  intros i Hi; rewrite Z.land_spec, testbit_unot_low by lia; btauto.
Qed.

Lemma tnum_add_value a b : value (tnum_add a b) = u64 (value a + value b) .& unot 64 (mask (tnum_add a b)).
Proof. reflexivity. Qed.

Lemma tnum_sub_value a b : value (tnum_sub a b) = u64 (value a - value b) .& unot 64 (mask (tnum_sub a b)).
Proof. reflexivity. Qed.

Lemma tnum_add_mem a b x y : tnum_ok a -> tnum_ok b -> tnum_mem a x -> tnum_mem b y ->
  tnum_mem (tnum_add a b) (u64 (x + y)).
Proof.
  intros Ha Hb Hx Hy; apply tnum_mem_intro; eauto using tnum_add_ok with kint.
  intros i Hi; rewrite tnum_add_value; autorewrite with kbits_low.
  rewrite tnum_add_mask_bit, !testbit_add by (assumption || lia).
  rewrite (tnum_mem_bit a x i Hx), (tnum_mem_bit b y i Hy).
  destruct (tnum_add_carries a b x y i) as [E1 E2]; trivial; [lia|]; revert E1 E2; bool_implb.
Qed.

Lemma tnum_sub_mem a b x y : tnum_ok a -> tnum_ok b -> tnum_mem a x -> tnum_mem b y ->
  tnum_mem (tnum_sub a b) (u64 (x - y)).
Proof.
  intros Ha Hb Hx Hy; apply tnum_mem_intro; eauto using tnum_sub_ok with kint.
  intros i Hi; rewrite tnum_sub_value; autorewrite with kbits_low.
  rewrite tnum_sub_mask_bit, !testbit_sub by (assumption || lia).
  rewrite (tnum_mem_bit a x i Hx), (tnum_mem_bit b y i Hy).
  destruct (tnum_sub_borrows a b x y i) as [E1 E2]; trivial; [lia|].
  destruct (tnum_sub_borrows a b (value a) (value b) i) as [E3 E4]; eauto using tnum_value_mem; [lia|].
  revert E1 E2 E3 E4; bool_implb.
Qed.

(** ** Precision of the addition *)

Lemma tnum_mem_set a i : 0 <= i < 64 -> tnum_ok a -> Z.testbit (mask a) i = true ->
  tnum_mem a (value a + 2 ^ i).
Proof.
  intros Hi Ha Hm; pose proof (tnum_ok_bit a i Ha) as Hv; rewrite Hm, andb_true_r in Hv.
  assert (Hd : Z.land (value a) (2 ^ i) = 0).
  { apply Z.bits_inj'; intros j Hj; rewrite Z.land_spec, Z.testbit_0_l, Z.pow2_bits_eqb by lia.
    destruct (Z.eqb_spec i j) as [->|]; [rewrite Hv; reflexivity|btauto]. }
  assert (Hu : uin 64 (2 ^ i)) by (unfold uin; split; [lia|apply Z.pow_lt_mono_r; lia]).
  rewrite add_disjoint by exact Hd; apply tnum_mem_intro; try uin_solve.
  intros j Hj; rewrite Z.lor_spec, Z.pow2_bits_eqb by lia.
  pose proof (tnum_ok_bit a j Ha); destruct (Z.eqb_spec i j) as [->|].
  - rewrite Hm, Hv; reflexivity.
  - rewrite orb_false_r; destruct (Z.testbit (value a) j), (Z.testbit (mask a) j); trivial; discriminate.
Qed.

Lemma tnum_top_mem a : tnum_ok a -> tnum_mem a (value a + mask a).
Proof.
  intros Ha; pose proof Ha as (_ & _ & Hd); rewrite add_disjoint by exact Hd.
  apply tnum_mem_intro; try uin_solve; intros i Hi; rewrite Z.lor_spec.
  pose proof (tnum_ok_bit a i Ha); destruct (Z.testbit (value a) i), (Z.testbit (mask a) i); trivial; discriminate.
Qed.

Lemma testbit_add_pow2 z i : 0 <= i -> Z.testbit (z + 2 ^ i) i = negb (Z.testbit z i).
Proof.
  intros Hi; rewrite testbit_add, Z.pow2_bits_true by lia; unfold carryb.
  pose proof (pow2_pos i Hi); rewrite Z.mod_same by lia.
  pose proof (Z.mod_pos_bound z (2 ^ i) ltac:(lia)).
  destruct (Z.leb_spec (2 ^ i) (z mod 2 ^ i + 0)); [lia|btauto].
Qed.

(** Every bit [tnum_add] gives up really takes both values. *)
Lemma tnum_add_witness a b i : 0 <= i < 64 -> tnum_ok a -> tnum_ok b ->
  Z.testbit (mask (tnum_add a b)) i = true ->
  exists x y x' y', tnum_mem a x /\ tnum_mem b y /\ tnum_mem a x' /\ tnum_mem b y' /\
    Z.testbit (x + y) i <> Z.testbit (x' + y') i.
Proof.
  intros Hi Ha Hb; rewrite tnum_add_mask_bit by assumption.
  assert (Hflip : forall z, Z.testbit z i <> Z.testbit (z + 2 ^ i) i)
    by (intros z; rewrite testbit_add_pow2 by lia; destruct (Z.testbit z i); discriminate).
  destruct (Z.testbit (mask a) i) eqn:Ea.
  { exists (value a), (value b), (value a + 2 ^ i), (value b); split_and; auto using tnum_value_mem, tnum_mem_set.
    replace (value a + 2 ^ i + value b) with (value a + value b + 2 ^ i) by lia; apply Hflip. }
  destruct (Z.testbit (mask b) i) eqn:Eb.
  { exists (value a), (value b), (value a), (value b + 2 ^ i); split_and; auto using tnum_value_mem, tnum_mem_set.
    rewrite Z.add_assoc; apply Hflip. }
  intros Hc; exists (value a), (value b), (value a + mask a), (value b + mask b).
  split_and; auto using tnum_value_mem, tnum_top_mem.
  rewrite (testbit_add (value a + mask a)), (testbit_add (value a) (value b)) by lia.
  rewrite (tnum_upper_bit a _ i Ha (tnum_value_mem a Ha)), (tnum_upper_bit b _ i Hb (tnum_value_mem b Hb)), Ea, Eb.
  revert Hc; generalize (carryb (value a) (value b) i) (carryb (value a + mask a) (value b + mask b) i).
  destruct (Z.testbit (value a) i), (Z.testbit (value b) i); intros [] []; cbn; congruence.
Qed.

(** A tnum whose unknown bits are all forced is below every sound one. *)
Lemma tnum_least (P : Z -> Prop) (t c : tnum) x0 : tnum_ok t -> tnum_ok c ->
  (forall i, 0 <= i < 64 -> Z.testbit (mask t) i = true ->
     exists x x', P x /\ P x' /\ Z.testbit x i <> Z.testbit x' i) ->
  P x0 -> tnum_mem t x0 -> (forall x, P x -> tnum_mem c x) ->
  forall z, tnum_mem t z -> tnum_mem c z.
Proof.
  intros Ht Hc Hw H0 Hm0 HP z Hz; apply tnum_mem_intro; try uin_solve.
  intros i Hi; destruct (Z.testbit (mask c) i) eqn:Em.
  - pose proof (tnum_ok_bit c i Hc) as E; rewrite Em, andb_true_r in E; rewrite E; btauto.
  - assert (Hall : forall x, P x -> Z.testbit (value c) i = Z.testbit x i)
      by (intros x Hx; rewrite (tnum_mem_bit c x i (HP x Hx)), Em; btauto).
    destruct (Z.testbit (mask t) i) eqn:Et.
    + destruct (Hw i Hi Et) as (x & x' & Hx & Hx' & Hne); rewrite <- (Hall x Hx), <- (Hall x' Hx') in Hne; congruence.
    + rewrite (Hall x0 H0).
      pose proof (tnum_mem_bit t z i Hz) as E1; pose proof (tnum_mem_bit t x0 i Hm0) as E2.
      rewrite Et in E1, E2; rewrite andb_true_r in *; congruence.
Qed.

Lemma tnum_add_best a b c : tnum_ok a -> tnum_ok b -> tnum_ok c ->
  (forall x y, tnum_mem a x -> tnum_mem b y -> tnum_mem c (u64 (x + y))) ->
  forall z, tnum_mem (tnum_add a b) z -> tnum_mem c z.
Proof.
  intros Ha Hb Hc H.
  apply (tnum_least (fun z => exists x y, tnum_mem a x /\ tnum_mem b y /\ z = u64 (x + y)))
    with (x0 := u64 (value a + value b)); trivial.
  - apply tnum_add_ok; assumption.
  - intros i Hi Hm; destruct (tnum_add_witness a b i Hi Ha Hb Hm) as (x & y & x' & y' & ? & ? & ? & ? & Hne).
    exists (u64 (x + y)), (u64 (x' + y')); rewrite !testbit_uwrap_low by lia.
    split_and; cbn beta; trivial; eauto 7.
  - exists (value a), (value b); auto using tnum_value_mem.
  - apply tnum_add_mem; auto using tnum_value_mem.
  - intros ? (x & y & ? & ? & ->); auto.
Qed.

Lemma tnum_sub_witness a b i : 0 <= i < 64 -> tnum_ok a -> tnum_ok b ->
  Z.testbit (mask (tnum_sub a b)) i = true ->
  exists x y x' y', tnum_mem a x /\ tnum_mem b y /\ tnum_mem a x' /\ tnum_mem b y' /\
    Z.testbit (x - y) i <> Z.testbit (x' - y') i.
Proof.
  intros Hi Ha Hb; rewrite tnum_sub_mask_bit by assumption.
  assert (Hflip : forall z, Z.testbit z i <> Z.testbit (z + 2 ^ i) i)
    by (intros z; rewrite testbit_add_pow2 by lia; destruct (Z.testbit z i); discriminate).
  destruct (Z.testbit (mask a) i) eqn:Ea.
  { exists (value a), (value b), (value a + 2 ^ i), (value b); split_and; auto using tnum_value_mem, tnum_mem_set.
    replace (value a + 2 ^ i - value b) with (value a - value b + 2 ^ i) by lia; apply Hflip. }
  destruct (Z.testbit (mask b) i) eqn:Eb.
  { exists (value a), (value b + 2 ^ i), (value a), (value b); split_and; auto using tnum_value_mem, tnum_mem_set.
    replace (value a - value b) with (value a - (value b + 2 ^ i) + 2 ^ i) by lia; apply Hflip. }
  intros Hc; exists (value a + mask a), (value b), (value a), (value b + mask b).
  split_and; auto using tnum_value_mem, tnum_top_mem.
  rewrite (testbit_sub (value a + mask a)), (testbit_sub (value a) (value b + mask b)) by lia.
  rewrite (tnum_upper_bit a _ i Ha (tnum_value_mem a Ha)), (tnum_upper_bit b _ i Hb (tnum_value_mem b Hb)), Ea, Eb.
  revert Hc; generalize (borrowb (value a + mask a) (value b) i) (borrowb (value a) (value b + mask b) i).
  destruct (Z.testbit (value a) i), (Z.testbit (value b) i); intros [] []; cbn; congruence.
Qed.

Lemma tnum_sub_best a b c : tnum_ok a -> tnum_ok b -> tnum_ok c ->
  (forall x y, tnum_mem a x -> tnum_mem b y -> tnum_mem c (u64 (x - y))) ->
  forall z, tnum_mem (tnum_sub a b) z -> tnum_mem c z.
Proof.
  intros Ha Hb Hc H.
  apply (tnum_least (fun z => exists x y, tnum_mem a x /\ tnum_mem b y /\ z = u64 (x - y)))
    with (x0 := u64 (value a - value b)); trivial.
  - apply tnum_sub_ok; assumption.
  - intros i Hi Hm; destruct (tnum_sub_witness a b i Hi Ha Hb Hm) as (x & y & x' & y' & ? & ? & ? & ? & Hne).
    exists (u64 (x - y)), (u64 (x' - y')); rewrite !testbit_uwrap_low by lia.
    split_and; cbn beta; trivial; eauto 7.
  - exists (value a), (value b); auto using tnum_value_mem.
  - apply tnum_sub_mem; auto using tnum_value_mem.
  - intros ? (x & y & ? & ? & ->); auto.
Qed.

(** ** Multiplication *)

Lemma hma_loop_fuel f1 : forall f2 acc v m, 0 <= m < 2 ^ Z.of_nat f1 -> m < 2 ^ Z.of_nat f2 ->
  hma_loop f1 acc v m = hma_loop f2 acc v m.
Proof.
  induction f1 as [|f1 IH]; intros [|f2] acc v m H1 H2; cbn [hma_loop]; trivial;
    try (replace m with 0 by (cbn in *; lia); reflexivity).
  destruct (Z.eqb_spec m 0); [reflexivity|].
  rewrite !Nat2Z.inj_succ, !Z.pow_succ_r in * by lia.
  unfold ushr; rewrite Z.shiftr_div_pow2 by lia; change (2 ^ 1) with 2.
  apply IH; Z.div_mod_to_equations; lia.
Qed.

Lemma hma_loop_S f acc v m :
  hma_loop (S f) acc v m =
  if m =? 0 then acc else
  hma_loop f (if negb (m .& 1 =? 0) then tnum_add acc (TNUM 0 v) else acc) (ushl 64 v 1) (ushr m 1).
Proof. reflexivity. Qed.

(** The fuel of the model is never what stops the loop: [hma] satisfies the
    defining equation of the source's [while (mask)]. *)
Lemma hma_unfold acc v m : uin 64 m ->
  hma acc v m =
  if m =? 0 then acc else
  hma (if negb (m .& 1 =? 0) then tnum_add acc (TNUM 0 v) else acc) (ushl 64 v 1) (ushr m 1).
Proof.
  intros Hm; unfold hma; rewrite (hma_loop_fuel 64 65); [|exact Hm|].
  - apply (hma_loop_S 64).
  - eapply Z.lt_trans; [apply Hm|]; reflexivity.
Qed.

Lemma land_1_bit m : (m .& 1 =? 0) = negb (Z.testbit m 0).
Proof. change 1 with (Z.ones 1); rewrite Z.land_ones, Z.bit0_odd, Zmod_odd by lia; destruct (Z.odd m); reflexivity. Qed.

Lemma subbits_ushr a b : subbits a b -> subbits (ushr a 1) (ushr b 1).
Proof. intros H; apply subbits_spec; intros i Hi; rewrite !testbit_ushr by lia; apply subbits_spec; [exact H|lia]. Qed.

Lemma subbits_ushl a b : subbits a b -> subbits (ushl 64 a 1) (ushl 64 b 1).
Proof.
  intros H; apply subbits_spec; intros i Hi; rewrite !testbit_ushl by lia.
  rewrite !andb_true_iff, Z.leb_le; intros [[? ?] ?]; split_and; trivial.
  eapply subbits_spec; [exact H|lia|assumption].
Qed.

Lemma tnum_masked_ok v : uin 64 v -> tnum_ok (TNUM 0 v).
Proof. intros; unfold tnum_ok; split_and; cbn; trivial; uin_solve. Qed.

Lemma tnum_masked_mem v p : uin 64 v -> subbits p v -> tnum_mem (TNUM 0 v) p.
Proof. intros Hv Hp; split; [|exact Hp]; unfold uin in *; pose proof (subbits_le p v ltac:(lia) Hp); lia. Qed.

Lemma odd_split y : y = Z.b2z (Z.testbit y 0) + 2 * ushr y 1.
Proof. unfold ushr; rewrite Z.bit0_odd, <- Z.div2_spec; pose proof (Z.div2_odd y); lia. Qed.

(** The accumulator absorbs [p * y] for every [p] below [v] and [y] below [m]. *)
Lemma hma_loop_mem fuel : forall acc v m z p y, 0 <= m < 2 ^ Z.of_nat fuel -> uin 64 v -> tnum_ok acc ->
  tnum_mem acc z -> subbits p v -> subbits y m ->
  tnum_ok (hma_loop fuel acc v m) /\ tnum_mem (hma_loop fuel acc v m) (u64 (z + p * y)).
Proof.
  induction fuel as [|fuel IH]; intros acc v m z p y Hm Hv Hok Hz Hp Hy; cbn [hma_loop].
  { pose proof (subbits_le y m ltac:(lia) Hy); replace y with 0 by (cbn in Hm; lia).
    rewrite Z.mul_0_r, Z.add_0_r, uwrap_id by eauto with kint; auto. }
  destruct (Z.eqb_spec m 0) as [->|Hm0].
  { pose proof (subbits_le y 0 ltac:(lia) Hy); replace y with 0 by lia.
    rewrite Z.mul_0_r, Z.add_0_r, uwrap_id by eauto with kint; auto. }
  pose proof (proj1 (subbits_spec y m) Hy 0 ltac:(lia)) as Hy0.
  rewrite Nat2Z.inj_succ, Z.pow_succ_r in Hm by lia.
  set (acc' := if negb (m .& 1 =? 0) then _ else _).
  assert (Hacc : tnum_ok acc' /\ tnum_mem acc' (u64 (z + p * Z.b2z (Z.testbit y 0)))).
  { subst acc'; rewrite land_1_bit, negb_involutive; pose proof (tnum_masked_ok v Hv) as Hmo.
    destruct (Z.testbit m 0) eqn:Em.
    - split; [apply tnum_add_ok; assumption|]; apply tnum_add_mem; trivial.
      destruct (Z.testbit y 0); cbn [Z.b2z]; rewrite ?Z.mul_1_r, ?Z.mul_0_r; apply tnum_masked_mem; trivial.
      apply Z.ldiff_0_l.
    - destruct (Z.testbit y 0) eqn:Ey; [discriminate (Hy0 eq_refl)|].
      cbn [Z.b2z]; rewrite Z.mul_0_r, Z.add_0_r, uwrap_id by eauto with kint; auto. }
  destruct (IH acc' (ushl 64 v 1) (ushr m 1) (u64 (z + p * Z.b2z (Z.testbit y 0))) (ushl 64 p 1) (ushr y 1))
    as [Hr1 Hr2]; try tauto; auto using subbits_ushl, subbits_ushr; try uin_solve.
  { unfold ushr; rewrite Z.shiftr_div_pow2 by lia; change (2 ^ 1) with 2; Z.div_mod_to_equations; lia. }
  split; [exact Hr1|]; replace (u64 (z + p * y)) with
    (u64 (u64 (z + p * Z.b2z (Z.testbit y 0)) + ushl 64 p 1 * ushr y 1)); [exact Hr2|].
  transitivity (u64 ((z + p * Z.b2z (Z.testbit y 0)) + (p * 2) * ushr y 1));
    [|f_equal; rewrite (odd_split y) at 3; lia].
  apply weq_add; [lia|apply weq_uwrap; lia|]; apply weq_mul; [lia| |reflexivity].
  unfold ushl; rewrite Z.shiftl_mul_pow2 by lia; apply weq_uwrap; lia.
Qed.

Lemma subbits_lor_l a b : subbits a (Z.lor b a).
Proof. apply subbits_spec; intros i _ H; rewrite Z.lor_spec, H; btauto. Qed.

Lemma tnum_mem_split a x : tnum_mem a x -> x = value a + (x .& mask a).
Proof.
  intros [_ <-]; rewrite add_disjoint.
  - apply Z.bits_inj'; intros i _; autorewrite with kbits_low; btauto.
  - apply Z.bits_inj'; intros i _; autorewrite with kbits_low; btauto.
Qed.

Lemma tnum_const_ok v : uin 64 v -> tnum_ok (tnum_const v).
Proof. intros; unfold tnum_ok; split_and; cbn; trivial; try uin_solve; apply Z.land_0_r. Qed.

Lemma tnum_const_mem v : uin 64 v -> tnum_mem (tnum_const v) v.
Proof. intros; split; [assumption|apply Z.ldiff_0_r]. Qed.

Lemma tnum_mul_spec a b x y : tnum_ok a -> tnum_ok b -> tnum_mem a x -> tnum_mem b y ->
  tnum_ok (tnum_mul a b) /\ tnum_mem (tnum_mul a b) (u64 (x * y)).
Proof.
  intros Ha Hb Hx Hy; unfold tnum_mul, hma.
  set (pi := u64 (value a * value b)).
  assert (Hpi : uin 64 pi) by (subst pi; uin_solve).
  assert (Hmb : uin 64 (mask b .| value b)) by uin_solve.
  destruct (hma_loop_mem 64 (TNUM pi 0) (mask a) (mask b .| value b) pi (x .& mask a) y) as [Ho Hm];
    eauto using tnum_const_ok, tnum_const_mem with kint.
  { apply subbits_spec; intros i _; rewrite Z.land_spec, andb_true_iff; tauto. }
  { pose proof (tnum_mem_upper b y Hb Hy) as H; destruct Hb as (_ & _ & Hd).
    rewrite add_disjoint, Z.lor_comm in H by exact Hd; exact H. }
  destruct (hma_loop_mem 64 _ (mask b) (value a) _ (y .& mask b) (value a) (tnum_ok_value a Ha)
              (tnum_ok_mask b Hb) Ho Hm) as [Ho' Hm'].
  { apply subbits_spec; intros i _; rewrite Z.land_spec, andb_true_iff; tauto. }
  { apply subbits_refl. }
  split; [exact Ho'|].
  replace (u64 (x * y)) with (u64 (u64 (pi + (x .& mask a) * y) + (y .& mask b) * value a)); [exact Hm'|].
  transitivity (u64 ((value a * value b + (x .& mask a) * y) + (y .& mask b) * value a)).
  - apply weq_add; [lia| |reflexivity].
    transitivity (pi + (x .& mask a) * y); [apply weq_uwrap; lia|].
    apply weq_add; [lia|apply weq_uwrap; lia|reflexivity].
  - f_equal; pose proof (tnum_mem_split a x Hx); pose proof (tnum_mem_split b y Hy); nia.
Qed.

Lemma tnum_mul_ok a b : tnum_ok a -> tnum_ok b -> tnum_ok (tnum_mul a b).
Proof. intros Ha Hb; apply (tnum_mul_spec a b (value a) (value b)); auto using tnum_value_mem. Qed.

Lemma tnum_mul_mem a b x y : tnum_ok a -> tnum_ok b -> tnum_mem a x -> tnum_mem b y ->
  tnum_mem (tnum_mul a b) (u64 (x * y)).
Proof. intros; apply tnum_mul_spec; assumption. Qed.

(** ** Shifts *)

Lemma tnum_lshift_ok a n : 0 <= n -> tnum_ok a -> tnum_ok (tnum_lshift a n).
Proof.
  intros Hn Ha; apply tnum_ok_intro; cbn [tnum_lshift value mask]; try uin_solve.
  intros i Hi; rewrite !testbit_ushl by lia; rewrite <- andb_diag with (b := (i <? 64) && (n <=? i)).
  pose proof (tnum_ok_bit a (i - n) Ha) as E.
  destruct (Z.testbit (value a) (i - n)), (Z.testbit (mask a) (i - n)); try discriminate; btauto.
Qed.

Lemma tnum_rshift_ok a n : 0 <= n -> tnum_ok a -> tnum_ok (tnum_rshift a n).
Proof.
  intros Hn Ha; apply tnum_ok_intro; cbn [tnum_rshift value mask]; try uin_solve.
  intros i Hi; rewrite !testbit_ushr by lia; apply tnum_ok_bit; assumption.
Qed.

Lemma tnum_lshift_mem a x n : 0 <= n -> tnum_mem a x -> tnum_mem (tnum_lshift a n) (ushl 64 x n).
Proof.
  intros Hn Hx; apply tnum_mem_intro; cbn [tnum_lshift value mask]; try uin_solve.
  intros i Hi; rewrite !testbit_ushl, (tnum_mem_bit a x _ Hx) by lia.
  destruct (i <? 64), (n <=? i); btauto.
Qed.

Lemma tnum_rshift_mem a x n : 0 <= n -> tnum_ok a -> tnum_mem a x -> tnum_mem (tnum_rshift a n) (ushr x n).
Proof.
  intros Hn Ha Hx; apply tnum_mem_intro; cbn [tnum_rshift value mask]; try uin_solve.
  intros i Hi; rewrite !testbit_ushr by lia; apply tnum_mem_bit; assumption.
Qed.

(** Bit [i] of an arithmetic shift right at width [w]. *)
Lemma testbit_sar w z n i : 0 < w -> 0 <= n -> 0 <= i < w ->
  Z.testbit (uwrap w (Z.shiftr (swrap w z) n)) i = Z.testbit z (Z.min (i + n) (w - 1)).
Proof. intros; rewrite testbit_uwrap_low, Z.shiftr_spec, testbit_swrap by lia; reflexivity. Qed.

Lemma tnum_arshift_ok a n : 0 <= n -> tnum_ok a -> tnum_ok (tnum_arshift a n 64).
Proof.
  intros Hn Ha; apply tnum_ok_intro; cbn [tnum_arshift Z.eqb Pos.eqb value mask]; try uin_solve.
  intros i Hi; rewrite !testbit_sar by lia; apply tnum_ok_bit; assumption.
Qed.

Lemma tnum_arshift_mem a x n : 0 <= n -> tnum_mem a x ->
  tnum_mem (tnum_arshift a n 64) (u64 (Z.shiftr (s64 x) n)).
Proof.
  intros Hn Hx; apply tnum_mem_intro; cbn [tnum_arshift Z.eqb Pos.eqb value mask]; try uin_solve.
  intros i Hi; rewrite !testbit_sar by lia; apply tnum_mem_bit; assumption.
Qed.

Lemma uin_u32 z : uin 64 (u32 z).
Proof. apply (uin_le 32); [lia|apply uwrap_range; lia]. Qed.

#[export] Hint Resolve uin_u32 : kint.

Lemma tnum_arshift32_ok a n : 0 <= n -> tnum_ok a -> tnum_ok (tnum_arshift a n 32).
Proof.
  intros Hn Ha; apply tnum_ok_intro; cbn [tnum_arshift Z.eqb Pos.eqb value mask]; try uin_solve.
  intros i Hi; destruct (Z.lt_ge_cases i 32); [|rewrite (uin_high 32) by eauto with kint; reflexivity].
  rewrite !testbit_sar by lia; apply tnum_ok_bit; assumption.
Qed.

Lemma tnum_arshift32_mem a x n : 0 <= n -> tnum_mem a x ->
  tnum_mem (tnum_arshift a n 32) (u32 (Z.shiftr (s32 x) n)).
Proof.
  intros Hn Hx; apply tnum_mem_intro; cbn [tnum_arshift Z.eqb Pos.eqb value mask]; try uin_solve.
  intros i Hi; destruct (Z.lt_ge_cases i 32); [|rewrite !(uin_high 32) by eauto with kint; reflexivity].
  rewrite !testbit_sar by lia; apply tnum_mem_bit; assumption.
Qed.

(** ** Casts and sub-registers *)

Lemma cast_mask size : 1 <= size < 8 -> u64 (ushl 64 1 (size * 8) - 1) = Z.ones (size * 8).
Proof.
  intros H; unfold ushl; rewrite Z.shiftl_1_l, Z.ones_equiv, <- Z.sub_1_r.
  assert (2 ^ (size * 8) < 2 ^ 64) by (apply Z.pow_lt_mono_r; lia).
  pose proof (pow2_pos (size * 8) ltac:(lia)).
  rewrite (uwrap_id 64 (2 ^ _)), uwrap_id by (unfold uin; lia); reflexivity.
Qed.

Lemma tnum_cast_alt a size : 1 <= size < 8 ->
  tnum_cast a size = TNUM (uwrap (size * 8) (value a)) (uwrap (size * 8) (mask a)).
Proof. intros H; unfold tnum_cast; rewrite cast_mask, !Z.land_ones by lia; reflexivity. Qed.

Lemma uin_uwrap_le w w' z : 0 <= w <= w' -> uin w' (uwrap w z).
Proof. intros; apply (uin_le w); [lia|apply uwrap_range; lia]. Qed.

Lemma tnum_cast_ok a size : 1 <= size < 8 -> tnum_ok a -> tnum_ok (tnum_cast a size).
Proof.
  intros Hs Ha; rewrite tnum_cast_alt by lia; apply tnum_ok_intro; cbn [value mask]; try (apply uin_uwrap_le; lia).
  intros i Hi; rewrite !testbit_uwrap by lia; pose proof (tnum_ok_bit a i Ha) as E.
  destruct (Z.testbit (value a) i), (Z.testbit (mask a) i); try discriminate; btauto.
Qed.

Lemma tnum_cast_mem a x size : 1 <= size < 8 -> tnum_mem a x ->
  tnum_mem (tnum_cast a size) (uwrap (size * 8) x).
Proof.
  intros Hs Hx; rewrite tnum_cast_alt by lia; apply tnum_mem_intro; cbn [value mask]; try (apply uin_uwrap_le; lia).
  intros i Hi; rewrite !testbit_uwrap, (tnum_mem_bit a x i Hx) by lia; destruct (i <? size * 8); btauto.
Qed.

Lemma tnum_subreg_ok a : tnum_ok a -> tnum_ok (tnum_subreg a).
Proof. apply tnum_cast_ok; lia. Qed.

Lemma tnum_subreg_mem a x : tnum_mem a x -> tnum_mem (tnum_subreg a) (u32 x).
Proof. apply (tnum_cast_mem a x 4); lia. Qed.

Lemma tnum_subreg_alt a : tnum_subreg a = TNUM (u32 (value a)) (u32 (mask a)).
Proof. apply (tnum_cast_alt a 4); lia. Qed.

Lemma tnum_clear_subreg_ok a : tnum_ok a -> tnum_ok (tnum_clear_subreg a).
Proof. intros; apply tnum_lshift_ok, tnum_rshift_ok; trivial; lia. Qed.

Lemma tnum_clear_subreg_mem a x : tnum_ok a -> tnum_mem a x ->
  tnum_mem (tnum_clear_subreg a) (ushl 64 (ushr x 32) 32).
Proof. intros; apply tnum_lshift_mem, tnum_rshift_mem; trivial; lia. Qed.

(** A word is its upper half joined with its lower half. *)
Lemma u64_halves x : uin 64 x -> ushl 64 (ushr x 32) 32 .| u32 x = x.
Proof.
  intros Hx; apply (bits_inj_w 64); try uin_solve; intros i Hi.
  rewrite Z.lor_spec, testbit_ushl, testbit_uwrap by lia.
  destruct (Z.ltb_spec i 64), (Z.leb_spec 32 i), (Z.ltb_spec i 32); try lia; [|btauto].
  rewrite testbit_ushr by lia; replace (i - 32 + 32) with i by lia; btauto.
Qed.

(** Joining what is known of the two halves. *)
Lemma tnum_join_mem a b x : tnum_ok a -> tnum_ok b -> tnum_mem a x -> tnum_mem b (u32 x) ->
  tnum_mem (tnum_or (tnum_clear_subreg a) b) x.
Proof.
  intros Ha Hb Hx Hb'; rewrite <- (u64_halves x) by eauto with kint.
  apply tnum_or_mem; auto using tnum_clear_subreg_mem, tnum_clear_subreg_ok.
Qed.

Lemma tnum_const_subreg_ok a v : uin 32 v -> tnum_ok a -> tnum_ok (tnum_const_subreg a v).
Proof.
  intros Hv Ha; apply tnum_or_ok; auto using tnum_clear_subreg_ok.
  apply tnum_const_ok, (uin_le 32); [lia|exact Hv].
Qed.

Lemma tnum_const_subreg_mem a x v : uin 32 v -> tnum_ok a -> tnum_mem a x -> u32 x = v ->
  tnum_mem (tnum_const_subreg a v) x.
Proof.
  intros Hv Ha Hx <-; apply tnum_join_mem; trivial.
  - apply tnum_const_ok, (uin_le 32); [lia|exact Hv].
  - apply tnum_const_mem, (uin_le 32); [lia|exact Hv].
Qed.


(** ** The range constructor *)

Lemma tnum_unknown_ok : tnum_ok tnum_unknown.
Proof. unfold tnum_ok; split_and; cbn [tnum_unknown value mask]; try uin_solve; apply Z.land_0_l. Qed.

Lemma tnum_unknown_mem x : uin 64 x -> tnum_mem tnum_unknown x.
Proof.
  intros Hx; apply tnum_mem_intro; cbn [tnum_unknown value mask]; try uin_solve.
  intros i Hi; rewrite testbit_uwrap_low, Z.bits_m1, Z.testbit_0_l by lia; btauto.
Qed.

Lemma land_unot w x m : 0 <= w -> uin w x -> x .& unot w m = Z.ldiff x m.
Proof.
  intros Hw Hx; apply (bits_inj_w w); try uin_solve; intros i Hi; autorewrite with kbits_low; btauto.
Qed.

(** The two forms of [tnum_range]: [k] is the number of low bits in which
    [min] and [max] may differ. *)
Lemma tnum_range_alt min max : uin 64 min -> uin 64 max ->
  exists k, 0 <= k <= 64 /\ Z.shiftr min k = Z.shiftr max k /\
    (k = 0 \/ Z.testbit min (k - 1) <> Z.testbit max (k - 1)) /\
    tnum_range min max = TNUM (Z.ldiff min (Z.ones k)) (Z.ones k).
Proof.
  intros Hmin Hmax; assert (Hc : uin 64 (min .^ max)) by uin_solve.
  destruct (fls64_bound _ Hc) as (Hk & Hlt & Htop); exists (fls64 (min .^ max)).
  set (k := fls64 (min .^ max)) in *; split; [exact Hk|split; [|split]].
  - apply Z.lxor_eq; rewrite <- Z.shiftr_lxor, Z.shiftr_div_pow2, Z.div_small by (unfold uin in Hc; lia); reflexivity.
  - destruct (Z.eq_dec k 0) as [|Hk0]; [left; assumption|right; intros E].
    assert (Hb : Z.testbit (min .^ max) (k - 1) = false) by (rewrite Z.lxor_spec, E; btauto).
    destruct Htop as [H0|Hge].
    { apply Hk0; unfold k; rewrite H0; reflexivity. }
    pose proof (pow2_pos (k - 1) ltac:(lia)).
    assert (Hl : Z.log2 (min .^ max) = k - 1)
      by (apply Z.log2_unique; [lia|]; replace (Z.succ (k - 1)) with k by lia; lia).
    rewrite <- Hl, Z.bit_log2 in Hb by lia; discriminate.
  - unfold tnum_range; fold k; rewrite (uwrap_id 8 k) by kia.
    destruct (Z.gtb_spec k 63).
    + replace k with 64 by lia; unfold tnum_unknown; f_equal; symmetry.
      apply (bits_inj_w 64); try uin_solve; intros i Hi.
      rewrite Z.ldiff_spec, Z.ones_spec_low, Z.testbit_0_l by lia; btauto.
    + assert (E : u64 (ushl 64 1 k - 1) = Z.ones k).
      { unfold ushl; rewrite Z.shiftl_1_l, Z.ones_equiv, <- Z.sub_1_r.
        assert (2 ^ k < 2 ^ 64) by (apply Z.pow_lt_mono_r; lia); pose proof (pow2_pos k ltac:(lia)).
        rewrite (uwrap_id 64 (2 ^ _)), uwrap_id by (unfold uin; lia); reflexivity. }
      rewrite E, land_unot by (trivial; lia); reflexivity.
Qed.

Lemma tnum_range_ok min max : uin 64 min -> uin 64 max -> tnum_ok (tnum_range min max).
Proof.
  intros Hmin Hmax; destruct (tnum_range_alt min max Hmin Hmax) as (k & Hk & _ & _ & ->).
  apply tnum_ok_intro; cbn [value mask]; try uin_solve.
  - rewrite Z.ones_equiv; pose proof (Z.pow_le_mono_r 2 k 64 ltac:(lia) ltac:(lia)).
    pose proof (pow2_pos k); unfold uin; lia.
  - intros i _; rewrite Z.ldiff_spec; btauto.
Qed.

Lemma ldiff_ones x k : 0 <= k -> Z.ldiff x (Z.ones k) = Z.shiftl (Z.shiftr x k) k.
Proof. intros; apply Z.ldiff_ones_r; assumption. Qed.

Lemma tnum_range_mem min max x : uin 64 min -> uin 64 max -> min <= x <= max ->
  tnum_mem (tnum_range min max) x.
Proof.
  intros Hmin Hmax Hx; destruct (tnum_range_alt min max Hmin Hmax) as (k & Hk & He & _ & ->).
  split; cbn [value mask]; [unfold uin in *; lia|].
  rewrite !ldiff_ones by lia; f_equal; rewrite !Z.shiftr_div_pow2 in * by lia.
  pose proof (pow2_pos k ltac:(lia)).
  pose proof (Z.div_le_mono min x (2 ^ k) ltac:(lia) ltac:(lia)).
  pose proof (Z.div_le_mono x max (2 ^ k) ltac:(lia) ltac:(lia)); lia.
Qed.

(** Two neighbours inside the interval that disagree on every bit up to the top
    differing one. *)
Lemma range_straddle min max k : uin 64 min -> uin 64 max -> min <= max -> 0 < k ->
  Z.shiftr min k = Z.shiftr max k -> Z.testbit min (k - 1) <> Z.testbit max (k - 1) ->
  exists m, min <= m - 1 /\ m <= max /\
    forall i, 0 <= i < k -> Z.testbit (m - 1) i <> Z.testbit m i.
Proof.
  intros Hmin Hmax Hle Hk Hs Hb; set (m := Z.shiftl (Z.shiftr max (k - 1)) (k - 1)); exists m.
  pose proof (pow2_pos (k - 1) ltac:(lia)) as Hp.
  rewrite !Z.testbit_odd in Hb; rewrite !Z.shiftr_div_pow2 in * by lia.
  assert (Hm : m = max / 2 ^ (k - 1) * 2 ^ (k - 1))
    by (unfold m; rewrite Z.shiftl_mul_pow2, Z.shiftr_div_pow2 by lia; reflexivity).
  assert (Hdiv : forall z, z / 2 ^ k = z / 2 ^ (k - 1) / 2)
    by (intros z; rewrite Z.div_div, (pow2_half k) by lia; f_equal; lia).
  rewrite !Hdiv in Hs.
  pose proof (Z.div_le_mono min max _ Hp Hle) as Hmono.
  set (A := min / 2 ^ (k - 1)) in *; set (B := max / 2 ^ (k - 1)) in *.
  assert (HAB : B = A + 1 /\ Z.odd B = true).
  { rewrite <- !Z.div2_div in Hs; pose proof (Z.div2_odd A); pose proof (Z.div2_odd B).
    destruct (Z.odd A), (Z.odd B); cbn [Z.b2z] in *; try congruence; split; trivial; lia. }
  destruct HAB as [HB Ho].
  pose proof (Z.mod_pos_bound min (2 ^ (k - 1)) Hp); pose proof (Z.mod_pos_bound max (2 ^ (k - 1)) Hp).
  pose proof (Z.div_mod min (2 ^ (k - 1)) ltac:(lia)) as E1; pose proof (Z.div_mod max (2 ^ (k - 1)) ltac:(lia)) as E2.
  fold A in E1; fold B in E2; split_and; [nia|nia|].
  intros i Hi; rewrite testbit_sub by lia; unfold borrowb.
  assert (Hm0 : m mod 2 ^ i = 0).
  { rewrite Hm; replace (k - 1) with (k - 1 - i + i) by lia; rewrite Z.pow_add_r, Z.mul_assoc by lia.
    apply Z.mod_mul; pose proof (pow2_pos i); lia. }
  rewrite Hm0; destruct (Z.eq_dec i 0) as [->|].
  - change (0 <? 1 mod 2 ^ 0) with false; change (Z.testbit 1 0) with true.
    destruct (Z.testbit m 0); discriminate.
  - rewrite Z.mod_1_l by (apply Z.pow_gt_1; lia); replace (Z.testbit 1 i) with false
      by (symmetry; apply (Z.bits_above_log2 1 i); cbn; lia).
    change (0 <? 1) with true; destruct (Z.testbit m i); discriminate.
Qed.

Lemma tnum_range_best min max c : uin 64 min -> uin 64 max -> min <= max -> tnum_ok c ->
  (forall x, min <= x <= max -> tnum_mem c x) ->
  forall z, tnum_mem (tnum_range min max) z -> tnum_mem c z.
Proof.
  intros Hmin Hmax Hle Hc H.
  apply (tnum_least (fun x => min <= x <= max)) with (x0 := min); trivial; try lia.
  - apply tnum_range_ok; assumption.
  - destruct (tnum_range_alt min max Hmin Hmax) as (k & Hk & Hs & Hb & ->); cbn [mask].
    intros i Hi Hm; destruct (Z.lt_ge_cases i k); [|rewrite Z.ones_spec_high in Hm by lia; discriminate].
    destruct Hb as [|Hb]; [lia|].
    destruct (range_straddle min max k) as (m & H1 & H2 & H3); trivial; [lia|].
    exists (m - 1), m; split_and; try lia; apply H3; lia.
  - apply tnum_range_mem; trivial; lia.
Qed.

(** ** Tests *)

Lemma tnum_is_const_mem a x : tnum_is_const a = true -> tnum_mem a x -> x = value a.
Proof. unfold tnum_is_const; rewrite Z.eqb_eq; intros E [_ <-]; rewrite E, Z.ldiff_0_r; reflexivity. Qed.

Lemma tnum_equals_const_mem a b x : tnum_equals_const a b = true -> tnum_mem a x -> x = b.
Proof.
  unfold tnum_equals_const; rewrite andb_true_iff, Z.eqb_eq; intros [E <-].
  apply tnum_is_const_mem; exact E.
Qed.

Lemma tnum_in_spec a b : tnum_ok a -> tnum_ok b ->
  tnum_in a b = true <-> forall x, tnum_mem b x -> tnum_mem a x.
Proof.
  intros Ha Hb; unfold tnum_in; rewrite !(land_unot 64) by (try lia; eauto with kint).
  destruct (Z.eqb_spec (Z.ldiff (mask b) (mask a)) 0) as [Em|Em]; cbn [negb].
  - rewrite Z.eqb_eq; split.
    + intros Ev x Hx; apply tnum_mem_intro; try uin_solve; intros i Hi.
      rewrite Ev, Z.ldiff_spec, (tnum_mem_bit b x i Hx).
      pose proof (proj1 (subbits_spec _ _) Em i ltac:(lia)) as Hs.
      destruct (Z.testbit (mask b) i); [rewrite Hs by reflexivity|]; btauto.
    + intros H; apply (bits_inj_w 64); try uin_solve; intros i Hi; rewrite Z.ldiff_spec.
      apply tnum_mem_bit, H, tnum_value_mem; assumption.
  - split; [discriminate|]; intros H; exfalso; apply Em.
    apply subbits_spec; intros i Hi Hmb.
    destruct (Z.lt_ge_cases i 64); [|rewrite (uin_high 64) in Hmb by (trivial; lia || eauto with kint); discriminate].
    pose proof (tnum_mem_bit a _ i (H _ (tnum_value_mem b Hb))) as E1.
    pose proof (tnum_mem_bit a _ i (H _ (tnum_mem_set b i ltac:(lia) Hb Hmb))) as E2.
    rewrite testbit_add_pow2 in E2 by lia.
    destruct (Z.testbit (mask a) i), (Z.testbit (value b) i); trivial; rewrite E1 in E2; discriminate.
Qed.

Lemma tnum_is_aligned_spec a k : 0 <= k < 64 -> tnum_ok a ->
  tnum_is_aligned a (2 ^ k) = true <-> forall x, tnum_mem a x -> x mod 2 ^ k = 0.
Proof.
  intros Hk Ha; unfold tnum_is_aligned; pose proof (pow2_pos k ltac:(lia)).
  replace (2 ^ k =? 0) with false by (symmetry; apply Z.eqb_neq; lia).
  assert (2 ^ k < 2 ^ 64) by (apply Z.pow_lt_mono_r; lia).
  rewrite uwrap_id, Z.sub_1_r, <- Z.ones_equiv, Z.eqb_eq by (unfold uin; lia); split.
  - intros Hz x Hx; rewrite <- Z.land_ones by lia; apply Z.bits_inj'; intros i Hi.
    pose proof (f_equal (fun z => Z.testbit z i) Hz) as E; cbn beta in E.
    rewrite Z.land_spec, Z.lor_spec, Z.testbit_0_l, (tnum_mem_bit a x i Hx) in E.
    rewrite Z.land_spec, Z.testbit_0_l.
    destruct (Z.testbit x i), (Z.testbit (mask a) i), (Z.testbit (Z.ones k) i); trivial.
  - intros H1; pose proof Ha as (_ & _ & Hd); rewrite <- add_disjoint, Z.land_ones by (trivial; lia).
    apply H1, tnum_top_mem; assumption.
Qed.

Arguments tnum_range : simpl never.
Arguments tnum_add : simpl never.
Arguments tnum_sub : simpl never.
Arguments tnum_and : simpl never.
Arguments tnum_or : simpl never.
Arguments tnum_xor : simpl never.
Arguments tnum_mul : simpl never.
Arguments tnum_lshift : simpl never.
Arguments tnum_rshift : simpl never.
Arguments tnum_arshift : simpl never.
Arguments tnum_intersect : simpl never.
Arguments tnum_cast : simpl never.
Arguments tnum_subreg : simpl never.
Arguments tnum_clear_subreg : simpl never.
Arguments tnum_const_subreg : simpl never.
Arguments tnum_const : simpl never.
Arguments tnum_unknown : simpl never.
