(* ===== verification/TnumTheorems.v ===== *)
(** What kernel/bpf/tnum.c promises, as theorems: addition and subtraction are
    the most precise sound operations, multiplication is sound, a range is
    abstracted by the least tnum above it, and the inclusion and alignment tests
    decide what they claim. *)
From Stdlib Require Import ZArith Lia Bool.
From S2P Require Import Prelude Bits Bitops Tnum.

Local Open Scope Z_scope.
Local Open Scope kint_scope.

(** Closed facts about tnums, by evaluation. *)
Ltac tnum_eval := unfold tnum_ok, tnum_mem; cbn [value mask]; split_and; first [kia | vm_compute; reflexivity].

(** C32: [tnum_add] is the best abstraction of 64-bit addition: its result is
    well formed, contains every sum, and lies below any tnum that does. *)
Theorem tnum_add_exact a b : tnum_ok a -> tnum_ok b ->
  tnum_ok (tnum_add a b) /\
  (forall x y, tnum_mem a x -> tnum_mem b y -> tnum_mem (tnum_add a b) (u64 (x + y))) /\
  (forall c, tnum_ok c -> (forall x y, tnum_mem a x -> tnum_mem b y -> tnum_mem c (u64 (x + y))) ->
   forall z, tnum_mem (tnum_add a b) z -> tnum_mem c z).
Proof.
  intros Ha Hb; split; [apply tnum_add_ok; assumption|]; split.
  - intros x y; apply tnum_add_mem; assumption.
  - intros c Hc; apply tnum_add_best; assumption.
Qed.

Lemma tnum_add_exact_witness :
  tnum_ok (TNUM 4 3) /\ tnum_ok (TNUM 8 1) /\
  tnum_mem (tnum_add (TNUM 4 3) (TNUM 8 1)) (u64 (6 + 9)).
Proof.
  assert (Ha : tnum_ok (TNUM 4 3)) by tnum_eval; assert (Hb : tnum_ok (TNUM 8 1)) by tnum_eval.
  split; [exact Ha|]; split; [exact Hb|].
  refine (proj1 (proj2 (tnum_add_exact (TNUM 4 3) (TNUM 8 1) Ha Hb)) 6 9 _ _); tnum_eval.
Defined.

(** [tnum_sub] is the best abstraction of 64-bit subtraction. *)
Theorem tnum_sub_exact a b : tnum_ok a -> tnum_ok b ->
  tnum_ok (tnum_sub a b) /\
  (forall x y, tnum_mem a x -> tnum_mem b y -> tnum_mem (tnum_sub a b) (u64 (x - y))) /\
  (forall c, tnum_ok c -> (forall x y, tnum_mem a x -> tnum_mem b y -> tnum_mem c (u64 (x - y))) ->
   forall z, tnum_mem (tnum_sub a b) z -> tnum_mem c z).
Proof.
  intros Ha Hb; split; [apply tnum_sub_ok; assumption|]; split.
  - intros x y; apply tnum_sub_mem; assumption.
  - intros c Hc; apply tnum_sub_best; assumption.
Qed.

Lemma tnum_sub_exact_witness :
  tnum_ok (TNUM 8 3) /\ tnum_ok (TNUM 2 1) /\ tnum_mem (tnum_sub (TNUM 8 3) (TNUM 2 1)) (u64 (9 - 3)).
Proof.
  assert (Ha : tnum_ok (TNUM 8 3)) by tnum_eval; assert (Hb : tnum_ok (TNUM 2 1)) by tnum_eval.
  split; [exact Ha|]; split; [exact Hb|]; refine (proj1 (proj2 (tnum_sub_exact (TNUM 8 3) (TNUM 2 1) Ha Hb)) 9 3 _ _); tnum_eval.
Defined.

(** [tnum_mul], through its half-multiply-add loop, is well formed and
    contains every 64-bit product. *)
Theorem tnum_mul_sound a b x y : tnum_ok a -> tnum_ok b -> tnum_mem a x -> tnum_mem b y ->
  tnum_ok (tnum_mul a b) /\ tnum_mem (tnum_mul a b) (u64 (x * y)).
Proof. apply tnum_mul_spec. Qed.

Lemma tnum_mul_sound_witness :
  tnum_ok (TNUM 4 3) /\ tnum_ok (TNUM 2 1) /\ tnum_mem (tnum_mul (TNUM 4 3) (TNUM 2 1)) (u64 (7 * 3)).
Proof.
  assert (Ha : tnum_ok (TNUM 4 3)) by tnum_eval; assert (Hb : tnum_ok (TNUM 2 1)) by tnum_eval.
  split; [exact Ha|]; split; [exact Hb|]; refine (proj2 (tnum_mul_sound (TNUM 4 3) (TNUM 2 1) 7 3 Ha Hb _ _)); tnum_eval.
Defined.

(** [tnum_range min max] is the least tnum that contains the whole
    interval, the full 64-bit range included. *)
Theorem tnum_range_exact min max : uin 64 min -> uin 64 max -> min <= max ->
  tnum_ok (tnum_range min max) /\
  (forall x, min <= x <= max -> tnum_mem (tnum_range min max) x) /\
  (forall c, tnum_ok c -> (forall x, min <= x <= max -> tnum_mem c x) -> forall z, tnum_mem (tnum_range min max) z -> tnum_mem c z).
Proof. intros H1 H2 H3; split; [|split]; eauto using tnum_range_ok, tnum_range_mem, tnum_range_best. Qed.

Lemma tnum_range_exact_witness : tnum_range 16 19 = TNUM 16 3 /\ tnum_mem (tnum_range 16 19) 18.
Proof.
  split; [reflexivity|]; refine (proj1 (proj2 (tnum_range_exact 16 19 _ _ _)) 18 _); [kia|kia|lia|lia].
Defined.

(** [tnum_in a b] decides inclusion of the concrete sets. *)
Theorem tnum_in_exact a b : tnum_ok a -> tnum_ok b -> tnum_in a b = true <-> forall x, tnum_mem b x -> tnum_mem a x.
Proof. apply tnum_in_spec. Qed.

Lemma tnum_in_exact_witness : tnum_in (TNUM 0 15) (TNUM 4 3) = true /\ forall x, tnum_mem (TNUM 4 3) x -> tnum_mem (TNUM 0 15) x.
Proof.
  split; [reflexivity|]; apply (tnum_in_exact (TNUM 0 15) (TNUM 4 3)); [tnum_eval|tnum_eval|reflexivity].
Defined.

(** [tnum_is_aligned a (1 << k)] holds exactly when every value of [a] is a
    multiple of [2^k]. *)
Theorem tnum_is_aligned_exact a k : 0 <= k < 64 -> tnum_ok a ->
  tnum_is_aligned a (2 ^ k) = true <-> forall x, tnum_mem a x -> x mod 2 ^ k = 0.
Proof. apply tnum_is_aligned_spec. Qed.

Lemma tnum_is_aligned_exact_witness : tnum_is_aligned (TNUM 8 16) (2 ^ 3) = true /\ forall x, tnum_mem (TNUM 8 16) x -> x mod 2 ^ 3 = 0.
Proof.
  split; [reflexivity|]; apply (tnum_is_aligned_exact (TNUM 8 16) 3); [lia|tnum_eval|reflexivity].
Defined.
