(* ===== verification/Bounds.v ===== *)
(** Signed and unsigned intervals of a [w]-bit value, at an arbitrary width.

    The verifier keeps the same four bounds at 64 and at 32 bits and computes
    with them in pairs of functions.  The facts both members of a pair need are
    proved here once, for a width [w]. *)
From Stdlib Require Import ZArith Lia Bool.
From S2P Require Import Prelude Bits Bitops Tnum.

Local Open Scope Z_scope.
Local Open Scope kint_scope.

Record bounds := mk_bounds { bsmin : Z; bsmax : Z; bumin : Z; bumax : Z }.

(** The fields have their C types. *)
Definition bnd_ok (w : Z) (b : bounds) : Prop :=
  sin w (bsmin b) /\ sin w (bsmax b) /\ uin w (bumin b) /\ uin w (bumax b).

(** The [w] low bits of [x] are within the bounds. *)
Definition bnd_in (w : Z) (b : bounds) (x : Z) : Prop :=
  bsmin b <= swrap w x <= bsmax b /\ bumin b <= uwrap w x <= bumax b.

Section Width.
Variable w : Z.
Hypothesis Hw : 1 < w.

Lemma bnd_in_weq b x y : weq w x y -> bnd_in w b x -> bnd_in w b y.
Proof. intros H; unfold bnd_in; rewrite (swrap_weq w x y) by (trivial; lia); rewrite H; trivial. Qed.

(** The two readings of a value agree on one half and differ by [2^w] on the
    other. *)
Lemma readings x : let u := uwrap w x in let s := swrap w x in
  0 <= u < 2 ^ w /\
  ((u < 2 ^ (w - 1) /\ s = u) \/ (2 ^ (w - 1) <= u /\ s = u - 2 ^ w)).
Proof.
  cbn zeta; pose proof (uwrap_range w x ltac:(lia)) as Hr; split; [exact Hr|].
  rewrite <- (swrap_uwrap w w x) by lia; apply swrap_cases; [lia|exact Hr].
Qed.

Lemma uwrap_of_sin s : sin w s -> (0 <= s /\ uwrap w s = s) \/ (s < 0 /\ uwrap w s = s + 2 ^ w).
Proof.
  unfold sin; intros Hs; pose proof (pow2_half w ltac:(lia)) as Hh.
  destruct (Z.le_gt_cases 0 s); [left|right]; split; trivial.
  - apply uwrap_id; unfold uin; lia.
  - rewrite <- (uwrap_id w (s + 2 ^ w)) by (unfold uin; lia).
    unfold uwrap; rewrite <- (Z.mod_add s 1 (2 ^ w)) by (pose proof (pow2_pos w); lia).
    f_equal; lia.
Qed.

(** *** Learning bounds from known bits *)

(** The signed reading orders words like the unsigned one does after the
    sign bit is flipped. *)
Lemma swrap_flip u : uin w u -> swrap w u = (u .^ 2 ^ (w - 1)) - 2 ^ (w - 1).
Proof.
  intros Hu; pose proof (pow2_half w ltac:(lia)) as Hh; pose proof (pow2_pos (w - 1) ltac:(lia)) as Hp.
  assert (Hd : forall a, 0 <= a < 2 ^ (w - 1) -> Z.land a (2 ^ (w - 1)) = 0).
  { intros a Ha; apply Z.bits_inj'; intros i Hi; rewrite Z.land_spec, Z.testbit_0_l, Z.pow2_bits_eqb by lia.
    destruct (Z.eqb_spec (w - 1) i) as [<-|]; [|apply andb_false_r].
    rewrite (uin_high (w - 1)) by (trivial; lia); reflexivity. }
  destruct (swrap_cases w u ltac:(lia) Hu) as [[? ->]|[? ->]]; unfold uin in Hu.
  - rewrite <- Z.add_nocarry_lxor by (apply Hd; lia); lia.
  - replace u with ((u - 2 ^ (w - 1)) + 2 ^ (w - 1)) at 2 by lia.
    rewrite Z.add_nocarry_lxor by (apply Hd; lia).
    rewrite Z.lxor_assoc, Z.lxor_nilpotent, Z.lxor_0_r; lia.
Qed.

Lemma swrap_le_bits a b : uin w a -> uin w b ->
  (forall i, 0 <= i < w - 1 -> Z.testbit a i = true -> Z.testbit b i = true) ->
  (Z.testbit b (w - 1) = true -> Z.testbit a (w - 1) = true) ->
  swrap w a <= swrap w b.
Proof.
  intros Ha Hb Hlow Htop; rewrite !swrap_flip by assumption; apply Z.sub_le_mono_r.
  assert (Hp : uin w (2 ^ (w - 1))) by (unfold uin; pose proof (pow2_half w ltac:(lia)); lia).
  apply subbits_le; [assert (Hu : uin w (b .^ 2 ^ (w - 1))) by uin_solve; unfold uin in Hu; lia|].
  apply subbits_spec; intros i Hi; rewrite !Z.lxor_spec, Z.pow2_bits_eqb by lia.
  destruct (Z.eqb_spec (w - 1) i) as [<-|Hne].
  - destruct (Z.testbit a (w - 1)), (Z.testbit b (w - 1)); cbn; intros; trivial;
      discriminate (Htop eq_refl).
  - rewrite !xorb_false_r; destruct (Z.lt_ge_cases i w); [apply Hlow; lia|].
    rewrite (uin_high w a) by (trivial; lia); discriminate.
Qed.

(** *** Bounds from known bits: [u] agrees with [v] outside [m] *)

Section KnownBits.
Variables v m u : Z.
Hypothesis Hv : uin w v.
Hypothesis Hm : uin w m.
Hypothesis Hu : uin w u.
Hypothesis Hmem : Z.ldiff u m = v.

Lemma known_bit i : Z.testbit v i = Z.testbit u i && negb (Z.testbit m i).
Proof using Hmem. rewrite <- Hmem; apply Z.ldiff_spec. Qed.

Lemma known_umin : v <= u.
Proof using Hu Hmem.
  apply subbits_le; [unfold uin in Hu; lia|].
  apply subbits_spec; intros i Hi; rewrite known_bit, andb_true_iff; tauto.
Qed.

Lemma known_umax : u <= v .| m.
Proof using Hv Hm Hmem.
  apply subbits_le; [apply Z.lor_nonneg; unfold uin in *; lia|].
  apply subbits_spec; intros i Hi H; rewrite Z.lor_spec, known_bit, H.
  destruct (Z.testbit m i); reflexivity.
Qed.

(** [c] has the sign bit and no other below it; [c'] is its complement. *)
Lemma known_smin c : (forall i, 0 <= i < w - 1 -> Z.testbit c i = false) -> Z.testbit c (w - 1) = true ->
  swrap w (v .| (m .& c)) <= swrap w u.
Proof using Hw Hv Hm Hu Hmem.
  intros Hc Ht; apply swrap_le_bits; trivial; [uin_solve| |].
  - intros i Hi; rewrite Z.lor_spec, Z.land_spec, Hc, known_bit by lia.
    destruct (Z.testbit u i), (Z.testbit m i); trivial.
  - intros H; rewrite Z.lor_spec, Z.land_spec, Ht, known_bit, H; destruct (Z.testbit m (w - 1)); reflexivity.
Qed.

Lemma known_smax c : (forall i, 0 <= i < w - 1 -> Z.testbit c i = true) -> Z.testbit c (w - 1) = false ->
  swrap w u <= swrap w (v .| (m .& c)).
Proof using Hw Hv Hm Hu Hmem.
  intros Hc Ht; apply swrap_le_bits; trivial; [uin_solve| |].
  - intros i Hi H; rewrite Z.lor_spec, Z.land_spec, Hc, known_bit, H by lia.
    destruct (Z.testbit m i); reflexivity.
  - rewrite Z.lor_spec, Z.land_spec, Ht, known_bit.
    destruct (Z.testbit u (w - 1)), (Z.testbit m (w - 1)); trivial.
Qed.
End KnownBits.

(** *** Learning each kind of bound from the other *)

(** What the two __regN_deduce_bounds functions compute. *)
Definition deduce (b : bounds) : bounds :=
  if (bsmin b >=? 0) || (bsmax b <? 0) then
    let umin := Z.max (uwrap w (bsmin b)) (bumin b) in
    let umax := Z.min (uwrap w (bsmax b)) (bumax b) in
    mk_bounds (swrap w umin) (swrap w umax) umin umax
  else if swrap w (bumax b) >=? 0 then
    let umax := Z.min (uwrap w (bsmax b)) (bumax b) in
    mk_bounds (swrap w (bumin b)) (swrap w umax) (bumin b) umax
  else if swrap w (bumin b) <? 0 then
    let umin := Z.max (uwrap w (bsmin b)) (bumin b) in
    mk_bounds (swrap w umin) (swrap w (bumax b)) umin (bumax b)
  else b.

Lemma uin_max a b : uin w a -> uin w b -> uin w (Z.max a b).
Proof. unfold uin; lia. Qed.

Lemma uin_min a b : uin w a -> uin w b -> uin w (Z.min a b).
Proof. unfold uin; lia. Qed.

Lemma deduce_ok b : bnd_ok w b -> bnd_ok w (deduce b).
Proof.
  intros (? & ? & ? & ?); unfold deduce, bnd_ok.
  repeat match goal with |- context [if ?c then _ else _] => destruct c end; cbn [bsmin bsmax bumin bumax];
    split_and; trivial; try (apply swrap_range; lia); auto using uin_max, uin_min, uwrap_range with zarith.
Qed.

Ltac reading z Hz := destruct (swrap_cases w z ltac:(lia) Hz) as [[? ->]|[? ->]].

Lemma deduce_in b x : bnd_ok w b -> bnd_in w b x -> bnd_in w (deduce b) x.
Proof.
  intros (Hs & Hs' & Hu & Hu') [Hxs Hxu]; unfold deduce, bnd_in.
  pose proof (readings x) as [Hr Hc]; cbn zeta in *.
  pose proof (uwrap_of_sin _ Hs) as E1; pose proof (uwrap_of_sin _ Hs') as E2.
  pose proof (pow2_half w ltac:(lia)) as Hh; pose proof (pow2_pos (w - 1) ltac:(lia)).
  unfold sin in Hs, Hs'; set (u := uwrap w x) in *; set (s := swrap w x) in *; clearbody u s.
  set (P := 2 ^ (w - 1)) in *; set (Q := 2 ^ w) in *.
  destruct (Z.geb_spec (bsmin b) 0); [|destruct (Z.ltb_spec (bsmax b) 0)]; cbn [orb bsmin bsmax bumin bumax].
  - reading (Z.max (uwrap w (bsmin b)) (bumin b)) (uin_max _ _ (uwrap_range w (bsmin b) ltac:(lia)) Hu);
      reading (Z.min (uwrap w (bsmax b)) (bumax b)) (uin_min _ _ (uwrap_range w (bsmax b) ltac:(lia)) Hu');
      subst P Q; unfold uin in *; lia.
  - reading (Z.max (uwrap w (bsmin b)) (bumin b)) (uin_max _ _ (uwrap_range w (bsmin b) ltac:(lia)) Hu);
      reading (Z.min (uwrap w (bsmax b)) (bumax b)) (uin_min _ _ (uwrap_range w (bsmax b) ltac:(lia)) Hu');
      subst P Q; unfold uin in *; lia.
  - destruct (Z.geb_spec (swrap w (bumax b)) 0) as [Hg|Hg]; [|destruct (Z.ltb_spec (swrap w (bumin b)) 0) as [Hl|Hl]];
      cbn [bsmin bsmax bumin bumax].
    + revert Hg; reading (bumax b) Hu'; intros Hg; [|subst P Q; unfold uin in *; lia].
      reading (bumin b) Hu;
        reading (Z.min (uwrap w (bsmax b)) (bumax b)) (uin_min _ _ (uwrap_range w (bsmax b) ltac:(lia)) Hu');
        subst P Q; unfold uin in *; lia.
    + revert Hl; reading (bumin b) Hu; intros Hl; [subst P Q; unfold uin in *; lia|].
      reading (bumax b) Hu';
        reading (Z.max (uwrap w (bsmin b)) (bumin b)) (uin_max _ _ (uwrap_range w (bsmin b) ltac:(lia)) Hu);
        subst P Q; unfold uin in *; lia.
    + auto.
Qed.

(** *** No information, full information, information from known bits *)

Definition bnd_top : bounds := mk_bounds (- 2 ^ (w - 1)) (2 ^ (w - 1) - 1) 0 (2 ^ w - 1).

Lemma bnd_top_ok : bnd_ok w bnd_top.
Proof.
  pose proof (pow2_pos (w - 1) ltac:(lia)); pose proof (pow2_half w ltac:(lia)).
  unfold bnd_ok, bnd_top, sin, uin; cbn; lia.
Qed.

Lemma bnd_top_in x : bnd_in w bnd_top x.
Proof.
  pose proof (swrap_range w x ltac:(lia)) as Hs; pose proof (uwrap_range w x ltac:(lia)) as Hu.
  unfold sin, uin in *; unfold bnd_in, bnd_top; cbn; lia.
Qed.

Definition bnd_known (z : Z) : bounds := mk_bounds (swrap w z) (swrap w z) (uwrap w z) (uwrap w z).

Lemma bnd_known_ok z : bnd_ok w (bnd_known z).
Proof.
  pose proof (swrap_range w z ltac:(lia)); pose proof (uwrap_range w z ltac:(lia)).
  unfold bnd_ok, bnd_known; cbn; auto.
Qed.

Lemma bnd_known_in z x : weq w x z -> bnd_in w (bnd_known z) x.
Proof. intros H; unfold bnd_in, bnd_known; cbn; rewrite (swrap_weq w x z), H by (trivial; lia); lia. Qed.

Definition bnd_update (b : bounds) (v m c c' : Z) : bounds :=
  mk_bounds (Z.max (bsmin b) (swrap w (v .| (m .& c)))) (Z.min (bsmax b) (swrap w (v .| (m .& c'))))
            (Z.max (bumin b) v) (Z.min (bumax b) (v .| m)).

(** The sign-bit constant [c] and its complement [c'] below the width. *)
Definition sign_consts (c c' : Z) : Prop :=
  (forall i, 0 <= i < w - 1 -> Z.testbit c i = false) /\ Z.testbit c (w - 1) = true /\
  (forall i, 0 <= i < w - 1 -> Z.testbit c' i = true) /\ Z.testbit c' (w - 1) = false.

Lemma bnd_update_ok b v m c c' : uin w v -> uin w m -> bnd_ok w b -> bnd_ok w (bnd_update b v m c c').
Proof.
  intros Hv Hm (? & ? & ? & ?); unfold bnd_update, bnd_ok; cbn.
  pose proof (swrap_range w (v .| (m .& c)) ltac:(lia)); pose proof (swrap_range w (v .| (m .& c')) ltac:(lia)).
  assert (uin w (v .| m)) by uin_solve; unfold sin, uin in *; lia.
Qed.

Lemma bnd_update_in b v m c c' x : sign_consts c c' -> uin w v -> uin w m ->
  Z.ldiff (uwrap w x) m = v -> bnd_in w b x -> bnd_in w (bnd_update b v m c c') x.
Proof.
  intros (C1 & C2 & C3 & C4) Hv Hm Hx [Hs Hu]; unfold bnd_update, bnd_in; cbn.
  pose proof (uwrap_range w x ltac:(lia)) as Hr.
  pose proof (known_umin v m _ Hr Hx); pose proof (known_umax v m _ Hv Hm Hx).
  pose proof (known_smin v m _ Hv Hm Hr Hx c C1 C2) as E1; pose proof (known_smax v m _ Hv Hm Hr Hx c' C3 C4) as E2.
  rewrite swrap_uwrap in E1, E2 by lia; lia.
Qed.

(** *** Agreement of the sign information

    When the signed lower bound is nonnegative, the unsigned upper bound and
    the known bits say so too.  The bitwise transfer functions rely on it: they
    copy unsigned bounds into signed fields. *)
Definition bnd_sync (b : bounds) (m : Z) : Prop :=
  0 <= bsmin b -> bumax b < 2 ^ (w - 1) /\ Z.testbit m (w - 1) = false.

Lemma deduce_sync b x : bnd_ok w b -> bnd_in w b x ->
  0 <= bsmin (deduce b) -> bumax (deduce b) < 2 ^ (w - 1).
Proof.
  intros (Hs & Hs' & Hu & Hu') [Hxs Hxu]; unfold deduce.
  pose proof (readings x) as [Hr Hc]; cbn zeta in *.
  pose proof (uwrap_of_sin _ Hs) as E1; pose proof (uwrap_of_sin _ Hs') as E2.
  pose proof (pow2_half w ltac:(lia)) as Hh; pose proof (pow2_pos (w - 1) ltac:(lia)).
  unfold sin in Hs, Hs'.
  destruct (Z.geb_spec (bsmin b) 0); [|destruct (Z.ltb_spec (bsmax b) 0)]; cbn [orb bsmin bsmax bumin bumax].
  - intros _; lia.
  - reading (Z.max (uwrap w (bsmin b)) (bumin b)) (uin_max _ _ (uwrap_range w (bsmin b) ltac:(lia)) Hu); unfold uin in *; lia.
  - destruct (Z.geb_spec (swrap w (bumax b)) 0) as [Hg|Hg]; [|destruct (Z.ltb_spec (swrap w (bumin b)) 0) as [Hl|Hl]];
      cbn [bsmin bsmax bumin bumax].
    + revert Hg; reading (bumax b) Hu'; unfold uin in *; lia.
    + revert Hl; reading (bumin b) Hu; intros Hl; [unfold uin in *; lia|].
      reading (Z.max (uwrap w (bsmin b)) (bumin b)) (uin_max _ _ (uwrap_range w (bsmin b) ltac:(lia)) Hu); unfold uin in *; lia.
    + lia.
Qed.

Lemma update_sync b v m c c' : sign_consts c c' -> uin w v -> uin w m -> Z.land v m = 0 ->
  bnd_sync b m -> bnd_sync (bnd_update b v m c c') m.
Proof.
  intros (C1 & C2 & C3 & C4) Hv Hm Hd Hs H; unfold bnd_update in *; cbn [bsmin bumax] in *.
  destruct (Z.le_gt_cases 0 (bsmin b)) as [Hb|Hb]; [destruct (Hs Hb); split; [lia|assumption]|].
  assert (Hn : 0 <= swrap w (v .| (m .& c))) by lia.
  assert (Hl : uin w (v .| (m .& c))) by uin_solve.
  assert (Ht : Z.testbit (v .| (m .& c)) (w - 1) = false).
  { apply uin_high with (w := w - 1); [lia|].
    destruct (swrap_cases w _ ltac:(lia) Hl) as [[? E]|[? E]]; unfold uin in *; lia. }
  rewrite Z.lor_spec, Z.land_spec, C2, andb_true_r, orb_false_iff in Ht; destruct Ht as [Htv Htm].
  split; [|exact Htm].
  assert (Hu : uin (w - 1) (v .| m)); [|unfold uin in Hu; lia].
  apply uin_bits; [lia|]; intros i Hi; rewrite Z.lor_spec.
  destruct (Z.eq_dec i (w - 1)) as [->|]; [rewrite Htv, Htm; reflexivity|].
  rewrite (uin_high w v), (uin_high w m) by (trivial; lia); reflexivity.
Qed.
End Width.

Arguments bnd_in_weq {w} Hw {b} x y.

(** A range below the sign bit leaves the sign bit known. *)
Lemma tnum_range_top w min max : 1 < w <= 64 -> uin 64 min -> 0 <= min <= max -> max < 2 ^ (w - 1) ->
  Z.testbit (mask (tnum_range min max)) (w - 1) = false.
Proof.
  intros Hw Hmin Hle Hlt.
  assert (Hp : 2 ^ (w - 1) < 2 ^ 64) by (apply Z.pow_lt_mono_r; lia).
  destruct (tnum_range_alt min max) as (k & Hk & _ & Hd & ->); trivial; [unfold uin; lia|]; cbn [mask].
  apply Z.ones_spec_high; split; [lia|].
  destruct Hd as [->|Hd]; [lia|].
  destruct (Z.le_gt_cases k (w - 1)); [assumption|exfalso; apply Hd].
  rewrite !(uin_high (w - 1)) by (unfold uin; lia); reflexivity.
Qed.
