(* ===== verification/RegState.v ===== *)
(** The verifier's view of one register: struct bpf_reg_state of
    include/linux/bpf_verifier.h and the helpers of kernel/bpf/verifier.c that
    reset, tighten and re-synchronise its five views of a 64-bit value (known
    bits, and signed and unsigned bounds at 64 and at 32 bits).

    [reg_mem r x] is the concretisation: register state [r] admits the machine
    value [x].  Every helper is shown to keep admitting the values it must. *)
From Stdlib Require Import ZArith Lia Bool.
From S2P Require Import Prelude Bits Bitops Tnum Bounds.

Local Open Scope Z_scope.
Local Open Scope kint_scope.

(** ** Model: data *)

Inductive bpf_reg_type :=
| NOT_INIT | SCALAR_VALUE | PTR_TO_CTX | CONST_PTR_TO_MAP | PTR_TO_MAP_VALUE
| PTR_TO_MAP_VALUE_OR_NULL | PTR_TO_STACK | PTR_TO_PACKET_META | PTR_TO_PACKET
| PTR_TO_PACKET_END | PTR_TO_FLOW_KEYS | PTR_TO_SOCKET | PTR_TO_SOCKET_OR_NULL
| PTR_TO_SOCK_COMMON | PTR_TO_SOCK_COMMON_OR_NULL | PTR_TO_TCP_SOCK
| PTR_TO_TCP_SOCK_OR_NULL | PTR_TO_TP_BUFFER | PTR_TO_XDP_SOCK | PTR_TO_BTF_ID
| PTR_TO_BTF_ID_OR_NULL | PTR_TO_MEM | PTR_TO_MEM_OR_NULL | PTR_TO_RDONLY_BUF
| PTR_TO_RDONLY_BUF_OR_NULL | PTR_TO_RDWR_BUF | PTR_TO_RDWR_BUF_OR_NULL
| PTR_TO_PERCPU_BTF_ID.

Definition bpf_reg_type_eq_dec (a b : bpf_reg_type) : {a = b} + {a <> b}.
Proof. decide equality. Defined.

Definition type_eqb (a b : bpf_reg_type) : bool := if bpf_reg_type_eq_dec a b then true else false.

(** A pointer to a register of an explored verifier state: the state's key in
    the state store, the frame, and a register or spill slot number. *)
Inductive reg_ref :=
| RegRef (st : Z) (frame : nat) (regno : nat)
| SlotRef (st : Z) (frame : nat) (spi : nat).

(** The union of [range], [map_ptr], [btf_id] and [mem_size] is its widest
    member [raw]. *)
Record bpf_reg_state := mk_reg {
  type_ : bpf_reg_type;
  raw : Z;
  off : Z;
  id : Z;
  ref_obj_id : Z;
  var_off : tnum;
  smin_value : Z;
  smax_value : Z;
  umin_value : Z;
  umax_value : Z;
  s32_min_value : Z;
  s32_max_value : Z;
  u32_min_value : Z;
  u32_max_value : Z;
  parent : option reg_ref;
  frameno : Z;
  subreg_def : Z;
  live : Z;
  precise : bool
}.

(** Field assignment, [reg->f = v]. *)
Definition set_type (r : bpf_reg_state) (v : bpf_reg_type) : bpf_reg_state :=
  mk_reg v (raw r) (off r) (id r) (ref_obj_id r) (var_off r) (smin_value r) (smax_value r) (umin_value r) (umax_value r) (s32_min_value r) (s32_max_value r) (u32_min_value r) (u32_max_value r) (parent r) (frameno r) (subreg_def r) (live r) (precise r).
Definition set_raw (r : bpf_reg_state) (v : Z) : bpf_reg_state :=
  mk_reg (type_ r) v (off r) (id r) (ref_obj_id r) (var_off r) (smin_value r) (smax_value r) (umin_value r) (umax_value r) (s32_min_value r) (s32_max_value r) (u32_min_value r) (u32_max_value r) (parent r) (frameno r) (subreg_def r) (live r) (precise r).
Definition set_off (r : bpf_reg_state) (v : Z) : bpf_reg_state :=
  mk_reg (type_ r) (raw r) v (id r) (ref_obj_id r) (var_off r) (smin_value r) (smax_value r) (umin_value r) (umax_value r) (s32_min_value r) (s32_max_value r) (u32_min_value r) (u32_max_value r) (parent r) (frameno r) (subreg_def r) (live r) (precise r).
Definition set_id (r : bpf_reg_state) (v : Z) : bpf_reg_state :=
  mk_reg (type_ r) (raw r) (off r) v (ref_obj_id r) (var_off r) (smin_value r) (smax_value r) (umin_value r) (umax_value r) (s32_min_value r) (s32_max_value r) (u32_min_value r) (u32_max_value r) (parent r) (frameno r) (subreg_def r) (live r) (precise r).
Definition set_ref_obj_id (r : bpf_reg_state) (v : Z) : bpf_reg_state :=
  mk_reg (type_ r) (raw r) (off r) (id r) v (var_off r) (smin_value r) (smax_value r) (umin_value r) (umax_value r) (s32_min_value r) (s32_max_value r) (u32_min_value r) (u32_max_value r) (parent r) (frameno r) (subreg_def r) (live r) (precise r).
Definition set_var_off (r : bpf_reg_state) (v : tnum) : bpf_reg_state :=
  mk_reg (type_ r) (raw r) (off r) (id r) (ref_obj_id r) v (smin_value r) (smax_value r) (umin_value r) (umax_value r) (s32_min_value r) (s32_max_value r) (u32_min_value r) (u32_max_value r) (parent r) (frameno r) (subreg_def r) (live r) (precise r).
Definition set_smin_value (r : bpf_reg_state) (v : Z) : bpf_reg_state :=
  mk_reg (type_ r) (raw r) (off r) (id r) (ref_obj_id r) (var_off r) v (smax_value r) (umin_value r) (umax_value r) (s32_min_value r) (s32_max_value r) (u32_min_value r) (u32_max_value r) (parent r) (frameno r) (subreg_def r) (live r) (precise r).
Definition set_smax_value (r : bpf_reg_state) (v : Z) : bpf_reg_state :=
  mk_reg (type_ r) (raw r) (off r) (id r) (ref_obj_id r) (var_off r) (smin_value r) v (umin_value r) (umax_value r) (s32_min_value r) (s32_max_value r) (u32_min_value r) (u32_max_value r) (parent r) (frameno r) (subreg_def r) (live r) (precise r).
Definition set_umin_value (r : bpf_reg_state) (v : Z) : bpf_reg_state :=
  mk_reg (type_ r) (raw r) (off r) (id r) (ref_obj_id r) (var_off r) (smin_value r) (smax_value r) v (umax_value r) (s32_min_value r) (s32_max_value r) (u32_min_value r) (u32_max_value r) (parent r) (frameno r) (subreg_def r) (live r) (precise r).
Definition set_umax_value (r : bpf_reg_state) (v : Z) : bpf_reg_state :=
  mk_reg (type_ r) (raw r) (off r) (id r) (ref_obj_id r) (var_off r) (smin_value r) (smax_value r) (umin_value r) v (s32_min_value r) (s32_max_value r) (u32_min_value r) (u32_max_value r) (parent r) (frameno r) (subreg_def r) (live r) (precise r).
Definition set_s32_min_value (r : bpf_reg_state) (v : Z) : bpf_reg_state :=
  mk_reg (type_ r) (raw r) (off r) (id r) (ref_obj_id r) (var_off r) (smin_value r) (smax_value r) (umin_value r) (umax_value r) v (s32_max_value r) (u32_min_value r) (u32_max_value r) (parent r) (frameno r) (subreg_def r) (live r) (precise r).
Definition set_s32_max_value (r : bpf_reg_state) (v : Z) : bpf_reg_state :=
  mk_reg (type_ r) (raw r) (off r) (id r) (ref_obj_id r) (var_off r) (smin_value r) (smax_value r) (umin_value r) (umax_value r) (s32_min_value r) v (u32_min_value r) (u32_max_value r) (parent r) (frameno r) (subreg_def r) (live r) (precise r).
Definition set_u32_min_value (r : bpf_reg_state) (v : Z) : bpf_reg_state :=
  mk_reg (type_ r) (raw r) (off r) (id r) (ref_obj_id r) (var_off r) (smin_value r) (smax_value r) (umin_value r) (umax_value r) (s32_min_value r) (s32_max_value r) v (u32_max_value r) (parent r) (frameno r) (subreg_def r) (live r) (precise r).
Definition set_u32_max_value (r : bpf_reg_state) (v : Z) : bpf_reg_state :=
  mk_reg (type_ r) (raw r) (off r) (id r) (ref_obj_id r) (var_off r) (smin_value r) (smax_value r) (umin_value r) (umax_value r) (s32_min_value r) (s32_max_value r) (u32_min_value r) v (parent r) (frameno r) (subreg_def r) (live r) (precise r).
Definition set_parent (r : bpf_reg_state) (v : option reg_ref) : bpf_reg_state :=
  mk_reg (type_ r) (raw r) (off r) (id r) (ref_obj_id r) (var_off r) (smin_value r) (smax_value r) (umin_value r) (umax_value r) (s32_min_value r) (s32_max_value r) (u32_min_value r) (u32_max_value r) v (frameno r) (subreg_def r) (live r) (precise r).
Definition set_frameno (r : bpf_reg_state) (v : Z) : bpf_reg_state :=
  mk_reg (type_ r) (raw r) (off r) (id r) (ref_obj_id r) (var_off r) (smin_value r) (smax_value r) (umin_value r) (umax_value r) (s32_min_value r) (s32_max_value r) (u32_min_value r) (u32_max_value r) (parent r) v (subreg_def r) (live r) (precise r).
Definition set_subreg_def (r : bpf_reg_state) (v : Z) : bpf_reg_state :=
  mk_reg (type_ r) (raw r) (off r) (id r) (ref_obj_id r) (var_off r) (smin_value r) (smax_value r) (umin_value r) (umax_value r) (s32_min_value r) (s32_max_value r) (u32_min_value r) (u32_max_value r) (parent r) (frameno r) v (live r) (precise r).
Definition set_live (r : bpf_reg_state) (v : Z) : bpf_reg_state :=
  mk_reg (type_ r) (raw r) (off r) (id r) (ref_obj_id r) (var_off r) (smin_value r) (smax_value r) (umin_value r) (umax_value r) (s32_min_value r) (s32_max_value r) (u32_min_value r) (u32_max_value r) (parent r) (frameno r) (subreg_def r) v (precise r).
Definition set_precise (r : bpf_reg_state) (v : bool) : bpf_reg_state :=
  mk_reg (type_ r) (raw r) (off r) (id r) (ref_obj_id r) (var_off r) (smin_value r) (smax_value r) (umin_value r) (umax_value r) (s32_min_value r) (s32_max_value r) (u32_min_value r) (u32_max_value r) (parent r) (frameno r) (subreg_def r) (live r) v.

(** The fields of struct bpf_verifier_env these helpers read. *)
Record env_flags := mk_flags {
  subprog_cnt : Z;
  bpf_capable : bool
}.

(** ** Model: operations *)

Definition type_is_pkt_pointer (t : bpf_reg_type) : bool :=
  type_eqb t PTR_TO_PACKET || type_eqb t PTR_TO_PACKET_META.

Definition reg_type_not_null (t : bpf_reg_type) : bool :=
  type_eqb t PTR_TO_SOCKET || type_eqb t PTR_TO_TCP_SOCK ||
  type_eqb t PTR_TO_MAP_VALUE || type_eqb t PTR_TO_SOCK_COMMON.

Definition reg_type_may_be_null (t : bpf_reg_type) : bool :=
  type_eqb t PTR_TO_MAP_VALUE_OR_NULL || type_eqb t PTR_TO_SOCKET_OR_NULL ||
  type_eqb t PTR_TO_SOCK_COMMON_OR_NULL || type_eqb t PTR_TO_TCP_SOCK_OR_NULL ||
  type_eqb t PTR_TO_BTF_ID_OR_NULL || type_eqb t PTR_TO_MEM_OR_NULL ||
  type_eqb t PTR_TO_RDONLY_BUF_OR_NULL || type_eqb t PTR_TO_RDWR_BUF_OR_NULL.

Definition ___mark_reg_known (reg : bpf_reg_state) (imm : Z) : bpf_reg_state :=
  let reg := set_var_off reg (tnum_const imm) in
  let reg := set_smin_value reg (s64 imm) in
  let reg := set_smax_value reg (s64 imm) in
  let reg := set_umin_value reg imm in
  let reg := set_umax_value reg imm in
  let reg := set_s32_min_value reg (s32 imm) in
  let reg := set_s32_max_value reg (s32 imm) in
  let reg := set_u32_min_value reg (u32 imm) in
  set_u32_max_value reg (u32 imm).

(** The memset clears every field between [type] and [var_off]. *)
Definition __mark_reg_known (reg : bpf_reg_state) (imm : Z) : bpf_reg_state :=
  let reg := set_raw reg 0 in
  let reg := set_off reg 0 in
  let reg := set_id reg 0 in
  let reg := set_ref_obj_id reg 0 in
  ___mark_reg_known reg imm.

Definition __mark_reg32_known (reg : bpf_reg_state) (imm : Z) : bpf_reg_state :=
  let reg := set_var_off reg (tnum_const_subreg (var_off reg) (u32 imm)) in
  let reg := set_s32_min_value reg (s32 imm) in
  let reg := set_s32_max_value reg (s32 imm) in
  let reg := set_u32_min_value reg (u32 imm) in
  set_u32_max_value reg (u32 imm).

Definition __mark_reg_known_zero (reg : bpf_reg_state) : bpf_reg_state :=
  __mark_reg_known reg 0.

Definition __mark_reg_const_zero (reg : bpf_reg_state) : bpf_reg_state :=
  let reg := __mark_reg_known reg 0 in
  set_type reg SCALAR_VALUE.

Definition __mark_reg_unbounded (reg : bpf_reg_state) : bpf_reg_state :=
  let reg := set_smin_value reg S64_MIN in
  let reg := set_smax_value reg S64_MAX in
  let reg := set_umin_value reg 0 in
  let reg := set_umax_value reg U64_MAX in
  let reg := set_s32_min_value reg S32_MIN in
  let reg := set_s32_max_value reg S32_MAX in
  let reg := set_u32_min_value reg 0 in
  set_u32_max_value reg U32_MAX.

Definition __mark_reg64_unbounded (reg : bpf_reg_state) : bpf_reg_state :=
  let reg := set_smin_value reg S64_MIN in
  let reg := set_smax_value reg S64_MAX in
  let reg := set_umin_value reg 0 in
  set_umax_value reg U64_MAX.

Definition __mark_reg32_unbounded (reg : bpf_reg_state) : bpf_reg_state :=
  let reg := set_s32_min_value reg S32_MIN in
  let reg := set_s32_max_value reg S32_MAX in
  let reg := set_u32_min_value reg 0 in
  set_u32_max_value reg U32_MAX.

(** [S32_MIN], [S64_MIN] are signed constants, converted to u64 for the [&]. *)
Definition __update_reg32_bounds (reg : bpf_reg_state) : bpf_reg_state :=
  let var32_off := tnum_subreg (var_off reg) in
  let reg := set_s32_min_value reg
    (Z.max (s32_min_value reg) (s32 (value var32_off .| (mask var32_off .& u64 S32_MIN)))) in
  let reg := set_s32_max_value reg
    (Z.min (s32_max_value reg) (s32 (value var32_off .| (mask var32_off .& u64 S32_MAX)))) in
  let reg := set_u32_min_value reg (Z.max (u32_min_value reg) (u32 (value var32_off))) in
  set_u32_max_value reg (Z.min (u32_max_value reg) (u32 (value var32_off .| mask var32_off))).

Definition __update_reg64_bounds (reg : bpf_reg_state) : bpf_reg_state :=
  let reg := set_smin_value reg
    (Z.max (smin_value reg) (s64 (value (var_off reg) .| (mask (var_off reg) .& u64 S64_MIN)))) in
  let reg := set_smax_value reg
    (Z.min (smax_value reg) (s64 (value (var_off reg) .| (mask (var_off reg) .& u64 S64_MAX)))) in
  let reg := set_umin_value reg (Z.max (umin_value reg) (value (var_off reg))) in
  set_umax_value reg (Z.min (umax_value reg) (value (var_off reg) .| mask (var_off reg))).

Definition __update_reg_bounds (reg : bpf_reg_state) : bpf_reg_state :=
  let reg := __update_reg32_bounds reg in
  __update_reg64_bounds reg.

(** [s = u = e] assigns [e] to the unsigned field and its signed reading to the
    signed one. *)
Definition __reg32_deduce_bounds (reg : bpf_reg_state) : bpf_reg_state :=
  if (s32_min_value reg >=? 0) || (s32_max_value reg <? 0) then
    let reg := set_u32_min_value reg (Z.max (u32 (s32_min_value reg)) (u32_min_value reg)) in
    let reg := set_s32_min_value reg (s32 (u32_min_value reg)) in
    let reg := set_u32_max_value reg (Z.min (u32 (s32_max_value reg)) (u32_max_value reg)) in
    set_s32_max_value reg (s32 (u32_max_value reg))
  else if s32 (u32_max_value reg) >=? 0 then
    let reg := set_s32_min_value reg (s32 (u32_min_value reg)) in
    let reg := set_u32_max_value reg (Z.min (u32 (s32_max_value reg)) (u32_max_value reg)) in
    set_s32_max_value reg (s32 (u32_max_value reg))
  else if s32 (u32_min_value reg) <? 0 then
    let reg := set_u32_min_value reg (Z.max (u32 (s32_min_value reg)) (u32_min_value reg)) in
    let reg := set_s32_min_value reg (s32 (u32_min_value reg)) in
    set_s32_max_value reg (s32 (u32_max_value reg))
  else reg.

Definition __reg64_deduce_bounds (reg : bpf_reg_state) : bpf_reg_state :=
  if (smin_value reg >=? 0) || (smax_value reg <? 0) then
    let reg := set_umin_value reg (Z.max (u64 (smin_value reg)) (umin_value reg)) in
    let reg := set_smin_value reg (s64 (umin_value reg)) in
    let reg := set_umax_value reg (Z.min (u64 (smax_value reg)) (umax_value reg)) in
    set_smax_value reg (s64 (umax_value reg))
  else if s64 (umax_value reg) >=? 0 then
    let reg := set_smin_value reg (s64 (umin_value reg)) in
    let reg := set_umax_value reg (Z.min (u64 (smax_value reg)) (umax_value reg)) in
    set_smax_value reg (s64 (umax_value reg))
  else if s64 (umin_value reg) <? 0 then
    let reg := set_umin_value reg (Z.max (u64 (smin_value reg)) (umin_value reg)) in
    let reg := set_smin_value reg (s64 (umin_value reg)) in
    set_smax_value reg (s64 (umax_value reg))
  else reg.

Definition __reg_deduce_bounds (reg : bpf_reg_state) : bpf_reg_state :=
  let reg := __reg32_deduce_bounds reg in
  __reg64_deduce_bounds reg.

Definition __reg_bound_offset (reg : bpf_reg_state) : bpf_reg_state :=
  let var64_off := tnum_intersect (var_off reg) (tnum_range (umin_value reg) (umax_value reg)) in
  let var32_off := tnum_intersect (tnum_subreg (var_off reg))
                                  (tnum_range (u32_min_value reg) (u32_max_value reg)) in
  set_var_off reg (tnum_or (tnum_clear_subreg var64_off) var32_off).

Definition __reg32_bound_s64 (a : Z) : bool := (a >=? 0) && (a <=? S32_MAX).

Definition __reg_assign_32_into_64 (reg : bpf_reg_state) : bpf_reg_state :=
  let reg := set_umin_value reg (u32_min_value reg) in
  let reg := set_umax_value reg (u32_max_value reg) in
  if __reg32_bound_s64 (s32_min_value reg) && __reg32_bound_s64 (s32_max_value reg) then
    let reg := set_smin_value reg (s32_min_value reg) in
    set_smax_value reg (s32_max_value reg)
  else
    let reg := set_smin_value reg 0 in
    set_smax_value reg U32_MAX.

Definition __reg_combine_32_into_64 (reg : bpf_reg_state) : bpf_reg_state :=
  let reg :=
    if tnum_equals_const (tnum_clear_subreg (var_off reg)) 0 then
      __reg_assign_32_into_64 reg
    else
      let reg := __mark_reg64_unbounded reg in
      __update_reg_bounds reg in
  let reg := __reg_deduce_bounds reg in
  let reg := __reg_bound_offset reg in
  __update_reg_bounds reg.

Definition __reg64_bound_s32 (a : Z) : bool := (a >=? S32_MIN) && (a <=? S32_MAX).

Definition __reg64_bound_u32 (a : Z) : bool := (a >=? 0) && (a <=? U32_MAX).

Definition __reg_combine_64_into_32 (reg : bpf_reg_state) : bpf_reg_state :=
  let reg := __mark_reg32_unbounded reg in
  let reg :=
    if __reg64_bound_s32 (smin_value reg) && __reg64_bound_s32 (smax_value reg) then
      let reg := set_s32_min_value reg (s32 (smin_value reg)) in
      set_s32_max_value reg (s32 (smax_value reg))
    else reg in
  let reg :=
    if __reg64_bound_u32 (umin_value reg) && __reg64_bound_u32 (umax_value reg) then
      let reg := set_u32_min_value reg (u32 (umin_value reg)) in
      set_u32_max_value reg (u32 (umax_value reg))
    else reg in
  let reg := __reg_deduce_bounds reg in
  let reg := __reg_bound_offset reg in
  __update_reg_bounds reg.

(** The memset clears every field before [var_off], [type] included. *)
Definition __mark_reg_unknown (env : env_flags) (reg : bpf_reg_state) : bpf_reg_state :=
  let reg := set_raw reg 0 in
  let reg := set_off reg 0 in
  let reg := set_id reg 0 in
  let reg := set_ref_obj_id reg 0 in
  let reg := set_type reg SCALAR_VALUE in
  let reg := set_var_off reg tnum_unknown in
  let reg := set_frameno reg 0 in
  let reg := set_precise reg ((subprog_cnt env >? 1) || negb (bpf_capable env)) in
  __mark_reg_unbounded reg.

Definition __mark_reg_not_init (env : env_flags) (reg : bpf_reg_state) : bpf_reg_state :=
  let reg := __mark_reg_unknown env reg in
  set_type reg NOT_INIT.

Definition register_is_null (reg : bpf_reg_state) : bool :=
  type_eqb (type_ reg) SCALAR_VALUE && tnum_equals_const (var_off reg) 0.

Definition register_is_const (reg : bpf_reg_state) : bool :=
  type_eqb (type_ reg) SCALAR_VALUE && tnum_is_const (var_off reg).

Definition __is_scalar_unbounded (reg : bpf_reg_state) : bool :=
  tnum_is_unknown (var_off reg) &&
  (smin_value reg =? S64_MIN) && (smax_value reg =? S64_MAX) &&
  (umin_value reg =? 0) && (umax_value reg =? U64_MAX) &&
  (s32_min_value reg =? S32_MIN) && (s32_max_value reg =? S32_MAX) &&
  (u32_min_value reg =? 0) && (u32_max_value reg =? U32_MAX).

Definition register_is_bounded (reg : bpf_reg_state) : bool :=
  type_eqb (type_ reg) SCALAR_VALUE && negb (__is_scalar_unbounded reg).

Definition __is_pointer_value (allow_ptr_leaks : bool) (reg : bpf_reg_state) : bool :=
  if allow_ptr_leaks then false else negb (type_eqb (type_ reg) SCALAR_VALUE).

Definition zext_32_to_64 (reg : bpf_reg_state) : bpf_reg_state :=
  let reg := set_var_off reg (tnum_subreg (var_off reg)) in
  __reg_assign_32_into_64 reg.

Definition coerce_reg_to_size (reg : bpf_reg_state) (size : Z) : bpf_reg_state :=
  let reg := set_var_off reg (tnum_cast (var_off reg) size) in
  let mask := u64 (ushl 64 1 (size * 8) - 1) in
  let reg :=
    if umin_value reg .& unot 64 mask =? umax_value reg .& unot 64 mask then
      let reg := set_umin_value reg (umin_value reg .& mask) in
      set_umax_value reg (umax_value reg .& mask)
    else
      let reg := set_umin_value reg 0 in
      set_umax_value reg mask in
  let reg := set_smin_value reg (s64 (umin_value reg)) in
  let reg := set_smax_value reg (s64 (umax_value reg)) in
  if size >=? 4 then reg else __reg_combine_64_into_32 reg.

(** ** Meaning *)

Definition b64 (r : bpf_reg_state) : bounds :=
  mk_bounds (smin_value r) (smax_value r) (umin_value r) (umax_value r).

Definition b32 (r : bpf_reg_state) : bounds :=
  mk_bounds (s32_min_value r) (s32_max_value r) (u32_min_value r) (u32_max_value r).

(** Every field has its C type and the tnum is well formed. *)
Definition reg_ok (r : bpf_reg_state) : Prop :=
  tnum_ok (var_off r) /\ bnd_ok 64 (b64 r) /\ bnd_ok 32 (b32 r).

(** All five views admit the 64-bit value [x]. *)
Definition reg_mem (r : bpf_reg_state) (x : Z) : Prop :=
  tnum_mem (var_off r) x /\ bnd_in 64 (b64 r) x /\ bnd_in 32 (b32 r) x.

(** The views agree about the sign at both widths. *)
Definition reg_sync (r : bpf_reg_state) : Prop :=
  bnd_sync 64 (b64 r) (mask (var_off r)) /\ bnd_sync 32 (b32 r) (mask (var_off r)).

(** What the verifier maintains of a scalar register that holds [x]. *)
Definition reg_inv (r : bpf_reg_state) (x : Z) : Prop :=
  reg_ok r /\ reg_mem r x /\ reg_sync r.

Lemma reg_mem_range r x : reg_mem r x -> uin 64 x.
Proof. intros (H & _); eauto with kint. Qed.

#[export] Hint Resolve reg_mem_range : kint.

(** ** The field-wise effect of the helpers *)

Lemma sign_consts_64 : sign_consts 64 (u64 S64_MIN) (u64 S64_MAX).
Proof.
  change (u64 S64_MIN) with (Z.shiftl 1 63); change (u64 S64_MAX) with (Z.ones 63).
  repeat split; intros; try reflexivity; [apply Z.shiftl_spec_low|apply Z.ones_spec_low]; lia.
Qed.

Lemma sign_consts_32 : sign_consts 32 (u64 S32_MIN) (u64 S32_MAX).
Proof.
  change (u64 S32_MIN) with (Z.shiftl 8589934591 31); change (u64 S32_MAX) with (Z.ones 31).
  repeat split; intros; try reflexivity; [apply Z.shiftl_spec_low|apply Z.ones_spec_low]; lia.
Qed.

Lemma b64_update r : b64 (__update_reg_bounds r) =
  bnd_update 64 (b64 r) (value (var_off r)) (mask (var_off r)) (u64 S64_MIN) (u64 S64_MAX).
Proof. reflexivity. Qed.

Lemma b32_update r : tnum_ok (var_off r) -> b32 (__update_reg_bounds r) =
  bnd_update 32 (b32 r) (u32 (value (var_off r))) (u32 (mask (var_off r))) (u64 S32_MIN) (u64 S32_MAX).
Proof.
  intros Hok; unfold b32, __update_reg_bounds, __update_reg64_bounds, __update_reg32_bounds, bnd_update; cbn.
  rewrite tnum_subreg_alt; cbn [value mask].
  rewrite (uwrap_id 32 (u32 (value (var_off r)))), (uwrap_id 32 (_ .| _)) by uin_solve; reflexivity.
Qed.

Lemma b64_deduce r : b64 (__reg_deduce_bounds r) = deduce 64 (b64 r).
Proof.
  unfold __reg_deduce_bounds.
  assert (H : b64 (__reg32_deduce_bounds r) = b64 r)
    by (unfold __reg32_deduce_bounds; repeat match goal with |- context [if ?c then _ else _] => destruct c end; reflexivity).
  rewrite <- H; generalize (__reg32_deduce_bounds r); intros q.
  unfold __reg64_deduce_bounds, deduce, b64; cbn.
  destruct ((smin_value q >=? 0) || (smax_value q <? 0)); [reflexivity|].
  destruct (s64 (umax_value q) >=? 0); [reflexivity|].
  destruct (s64 (umin_value q) <? 0); reflexivity.
Qed.

Lemma b32_deduce r : b32 (__reg_deduce_bounds r) = deduce 32 (b32 r).
Proof.
  unfold __reg_deduce_bounds.
  transitivity (b32 (__reg32_deduce_bounds r));
    [unfold __reg64_deduce_bounds; repeat match goal with |- context [if ?c then _ else _] => destruct c end; reflexivity|].
  unfold __reg32_deduce_bounds, deduce, b32; cbn.
  destruct ((s32_min_value r >=? 0) || (s32_max_value r <? 0)); [reflexivity|].
  destruct (s32 (u32_max_value r) >=? 0); [reflexivity|].
  destruct (s32 (u32_min_value r) <? 0); reflexivity.
Qed.

Lemma var_off_deduce r : var_off (__reg_deduce_bounds r) = var_off r.
Proof.
  unfold __reg_deduce_bounds, __reg64_deduce_bounds, __reg32_deduce_bounds.
  repeat match goal with |- context [if ?c then _ else _] => destruct c; cbn end; reflexivity.
Qed.

(** ** Soundness of the synchronisation steps *)

Lemma tnum_mem_low a x : tnum_mem a x -> Z.ldiff (u32 x) (u32 (mask a)) = u32 (value a).
Proof. intros H; apply tnum_subreg_mem in H; rewrite tnum_subreg_alt in H; apply H. Qed.

Lemma update_ok r : reg_ok r -> reg_ok (__update_reg_bounds r).
Proof.
  intros (Ht & H64 & H32); unfold reg_ok; rewrite b64_update, b32_update by exact Ht.
  split_and; [exact Ht| |]; apply bnd_update_ok; trivial; try lia; eauto with kint.
Qed.

Lemma update_mem r x : reg_ok r -> reg_mem r x -> reg_mem (__update_reg_bounds r) x.
Proof.
  intros (Ht & _ & _) (Hm & H64 & H32); unfold reg_mem; rewrite b64_update, b32_update by exact Ht.
  split_and; [exact Hm| |]; apply bnd_update_in; trivial; try lia; eauto with kint.
  - apply sign_consts_64.
  - rewrite uwrap_id by eauto with kint; apply Hm.
  - apply sign_consts_32.
  - apply tnum_mem_low; exact Hm.
Qed.

Lemma update_reg_sync r : reg_ok r -> reg_sync r -> reg_sync (__update_reg_bounds r).
Proof.
  intros (Ht & _ & _) (H64 & H32); unfold reg_sync; rewrite b64_update, b32_update by exact Ht; split.
  - apply update_sync; eauto using sign_consts_64 with kint; try lia; apply Ht.
  - change (mask (var_off (__update_reg_bounds r))) with (mask (var_off r)).
    intros H; pose proof (update_sync 32 ltac:(lia) (b32 r) (u32 (value (var_off r))) (u32 (mask (var_off r))) _ _ sign_consts_32)
      as Hs; specialize (Hs ltac:(eauto with kint) ltac:(eauto with kint)).
    destruct Hs as [? Hb]; trivial.
    + pose proof (tnum_subreg_ok _ Ht) as (_ & _ & Hd); rewrite tnum_subreg_alt in Hd; exact Hd.
    + intros H0; destruct (H32 H0); split; [assumption|]; rewrite testbit_uwrap_low by lia; assumption.
    + rewrite testbit_uwrap_low in Hb by lia; auto.
Qed.

Lemma deduce_reg_ok r : reg_ok r -> reg_ok (__reg_deduce_bounds r).
Proof.
  intros (Ht & H64 & H32); unfold reg_ok; rewrite b64_deduce, b32_deduce, var_off_deduce.
  split_and; [exact Ht| |]; apply deduce_ok; trivial; lia.
Qed.

Lemma deduce_mem r x : reg_ok r -> reg_mem r x -> reg_mem (__reg_deduce_bounds r) x.
Proof.
  intros (Ht & H64 & H32) (Hm & Hi64 & Hi32); unfold reg_mem; rewrite b64_deduce, b32_deduce, var_off_deduce.
  split_and; [exact Hm| |]; apply deduce_in; trivial; lia.
Qed.

Lemma uin32_64 x : uin 32 x -> uin 64 x.
Proof. apply uin_le; lia. Qed.

#[export] Hint Resolve uin32_64 : kint.

Lemma bound_offset_ok r : reg_ok r -> reg_ok (__reg_bound_offset r).
Proof.
  intros (Ht & H64 & H32); split_and; trivial; cbn [__reg_bound_offset set_var_off var_off]; unfold reg_ok.
  pose proof H64 as (_ & _ & ? & ?); pose proof H32 as (_ & _ & ? & ?); cbn in *.
  split_and; trivial; apply tnum_or_ok; [apply tnum_clear_subreg_ok|];
    apply tnum_intersect_ok; auto using tnum_subreg_ok, tnum_range_ok with kint.
Qed.

Lemma bound_offset_mem r x : reg_ok r -> reg_mem r x -> reg_mem (__reg_bound_offset r) x.
Proof.
  intros (Ht & H64 & H32) (Hm & Hi64 & Hi32); unfold reg_mem; cbn [__reg_bound_offset set_var_off var_off].
  pose proof H64 as (_ & _ & ? & ?); pose proof H32 as (_ & _ & ? & ?); cbn in *.
  split_and; trivial; apply tnum_join_mem.
  1, 2: apply tnum_intersect_ok; auto using tnum_subreg_ok, tnum_range_ok with kint.
  - apply tnum_intersect_mem; auto using tnum_range_ok with kint.
    apply tnum_range_mem; auto with kint; destruct Hi64 as [_ Hu]; cbn in Hu.
    rewrite uwrap_id in Hu by eauto with kint; exact Hu.
  - apply tnum_intersect_mem; auto using tnum_subreg_ok, tnum_subreg_mem, tnum_range_ok with kint.
    apply tnum_range_mem; auto with kint; apply Hi32.
Qed.

Lemma tnum_or_mask_false a b i : 0 <= i < 64 -> Z.testbit (mask a) i = false -> Z.testbit (mask b) i = false ->
  Z.testbit (mask (tnum_or a b)) i = false.
Proof. intros Hi Ha Hb; unfold tnum_or; cbn [mask]; autorewrite with kbits_low; rewrite Ha, Hb; reflexivity. Qed.

Lemma tnum_clear_subreg_mask a i : 0 <= i < 64 ->
  Z.testbit (mask (tnum_clear_subreg a)) i = (32 <=? i) && Z.testbit (mask a) i.
Proof.
  intros Hi; unfold tnum_clear_subreg, tnum_lshift, tnum_rshift; cbn [mask].
  rewrite testbit_ushl by lia; destruct (Z.ltb_spec i 64), (Z.leb_spec 32 i); try lia.
  rewrite testbit_ushr by lia; replace (i - 32 + 32) with i by lia; reflexivity.
Qed.

Lemma tnum_intersect_mask_r a b i : Z.testbit (mask b) i = false -> Z.testbit (mask (tnum_intersect a b)) i = false.
Proof. intros H; cbn [tnum_intersect mask]; unfold tnum_intersect; cbn [mask]; rewrite Z.land_spec, H; apply andb_false_r. Qed.

(** Refining the known bits from unsigned bounds that agree with the signed
    ones about the sign. *)
Lemma bound_sync q x : reg_ok q -> reg_mem q x ->
  (0 <= smin_value q -> umax_value q < 2 ^ 63) -> (0 <= s32_min_value q -> u32_max_value q < 2 ^ 31) ->
  reg_sync (__reg_bound_offset q).
Proof.
  intros (Ht1 & H641 & H321) (_ & Hi64 & Hi32) D64 D32.
  destruct H641 as (_ & _ & Hu & Hu'); destruct H321 as (_ & _ & Hv & Hv'); cbn in *.
  destruct Hi64 as [_ Hx]; destruct Hi32 as [_ Hx']; cbn in *.
  split; intros H; cbn [b64 b32 bsmin bumax __reg_bound_offset set_var_off var_off
                        smin_value umax_value s32_min_value u32_max_value] in *.
  - specialize (D64 H); split; [exact D64|]; change (64 - 1) with 63.
    apply tnum_or_mask_false; [lia| |].
    + rewrite tnum_clear_subreg_mask by lia; apply tnum_intersect_mask_r.
      apply (tnum_range_top 64); trivial; unfold uin in *; lia.
    + unfold tnum_intersect; cbn [mask]; rewrite Z.land_spec, tnum_subreg_alt; cbn [mask].
      rewrite testbit_uwrap by lia; reflexivity.
  - specialize (D32 H); split; [exact D32|]; change (32 - 1) with 31.
    apply tnum_or_mask_false; [lia| |].
    + rewrite tnum_clear_subreg_mask by lia; reflexivity.
    + apply tnum_intersect_mask_r, (tnum_range_top 32); trivial; try lia; [apply uin32_64; assumption|unfold uin in *; lia].
Qed.

(** Deducing bounds and then refining the known bits leaves the views agreeing
    about the sign. *)
Lemma resync r x : reg_ok r -> reg_mem r x -> reg_sync (__reg_bound_offset (__reg_deduce_bounds r)).
Proof.
  intros Hok Hm; apply (bound_sync _ x); [apply deduce_reg_ok; exact Hok|apply deduce_mem; assumption| |].
  all: destruct Hok as (_ & H64 & H32); destruct Hm as (_ & H64m & H32m).
  - pose proof (deduce_sync 64 ltac:(lia) _ x H64 H64m) as H; rewrite <- b64_deduce in H; exact H.
  - pose proof (deduce_sync 32 ltac:(lia) _ x H32 H32m) as H; rewrite <- b32_deduce in H; exact H.
Qed.

Lemma bound_offset_inv r x : reg_inv r x -> reg_inv (__reg_bound_offset r) x.
Proof.
  intros (Hok & Hm & S64 & S32); split; [|split]; [apply bound_offset_ok|apply bound_offset_mem|apply (bound_sync _ x)]; trivial.
  - intros H; apply S64; exact H.
  - intros H; apply S32; exact H.
Qed.

(** The tail every operation ends with. *)
Lemma deduce_bound_inv r x : reg_ok r -> reg_mem r x -> reg_inv (__reg_bound_offset (__reg_deduce_bounds r)) x.
Proof.
  intros Hok Hm; split; [|split].
  - apply bound_offset_ok, deduce_reg_ok; exact Hok.
  - apply bound_offset_mem; [apply deduce_reg_ok; exact Hok|apply deduce_mem; assumption].
  - apply (resync r x); assumption.
Qed.

Lemma update_inv r x : reg_inv r x -> reg_inv (__update_reg_bounds r) x.
Proof.
  intros (Hok & Hm & Hs); split; [|split]; auto using update_ok, update_mem, update_reg_sync.
Qed.

(** ** Marks *)

Lemma known_inv r imm : uin 64 imm -> reg_inv (___mark_reg_known r imm) imm.
Proof.
  intros Hi; assert (E64 : b64 (___mark_reg_known r imm) = bnd_known 64 imm)
    by (unfold bnd_known; rewrite (uwrap_id 64 imm) by exact Hi; reflexivity).
  assert (E32 : b32 (___mark_reg_known r imm) = bnd_known 32 imm) by reflexivity.
  split; [|split]; unfold reg_ok, reg_mem, reg_sync; rewrite E64, E32.
  - split_and; [apply tnum_const_ok; exact Hi| |]; apply bnd_known_ok; lia.
  - split_and; [apply tnum_const_mem; exact Hi| |]; apply bnd_known_in; (lia || reflexivity).
  - split; intros H; cbn [bnd_known bsmin bumax] in *; (split; [|apply Z.testbit_0_l]).
    + pose proof (readings 64 ltac:(lia) imm); cbn zeta in *; pow2_const; lia.
    + pose proof (readings 32 ltac:(lia) imm); cbn zeta in *; pow2_const; lia.
Qed.

Lemma mark_known_inv r imm : uin 64 imm -> reg_inv (__mark_reg_known r imm) imm.
Proof. apply known_inv. Qed.

Lemma mark_unknown_inv env r x : uin 64 x -> reg_inv (__mark_reg_unknown env r) x.
Proof.
  intros Hx; split3.
  - split3; [apply tnum_unknown_ok|apply (bnd_top_ok 64); lia|apply (bnd_top_ok 32); lia].
  - split3; [apply tnum_unknown_mem; exact Hx|apply (bnd_top_in 64); lia|apply (bnd_top_in 32); lia].
  - split; intros H; cbn in H; lia.
Qed.

(** ** Moving information between the widths *)

Lemma b32_assign r : b32 (__reg_assign_32_into_64 r) = b32 r.
Proof. unfold __reg_assign_32_into_64; destruct (_ && _); reflexivity. Qed.

Lemma var_off_assign r : var_off (__reg_assign_32_into_64 r) = var_off r.
Proof. unfold __reg_assign_32_into_64; destruct (_ && _); reflexivity. Qed.

Lemma assign_ok r : bnd_ok 32 (b32 r) -> bnd_ok 64 (b64 (__reg_assign_32_into_64 r)).
Proof.
  intros (H1 & H2 & H3 & H4); cbn in *; unfold __reg_assign_32_into_64; cbn.
  destruct (_ && _); unfold bnd_ok; cbn; kia.
Qed.

(** Sound for a value whose upper half is zero. *)
Lemma assign_in r x : uin 32 x -> bnd_in 32 (b32 r) x -> bnd_in 64 (b64 (__reg_assign_32_into_64 r)) x.
Proof.
  intros Hx [Hs Hu]; cbn in *; unfold __reg_assign_32_into_64, __reg32_bound_s64; cbn.
  rewrite (uwrap_id 32 x Hx) in Hu; unfold bnd_in.
  pose proof (readings 32 ltac:(lia) x) as [_ Hr]; cbn zeta in Hr; rewrite (uwrap_id 32 x Hx) in Hr.
  rewrite (swrap_id 64 x), (uwrap_id 64 x) by kia.
  destruct (Z.geb_spec (s32_min_value r) 0), (Z.leb_spec (s32_min_value r) S32_MAX),
    (Z.geb_spec (s32_max_value r) 0), (Z.leb_spec (s32_max_value r) S32_MAX); cbn; kia.
Qed.

Lemma clear_subreg_zero t x : tnum_ok t -> tnum_mem t x -> tnum_equals_const (tnum_clear_subreg t) 0 = true -> uin 32 x.
Proof.
  intros Ht Hx Hc; pose proof (tnum_equals_const_mem _ _ _ Hc (tnum_clear_subreg_mem t x Ht Hx)) as E.
  rewrite <- (u64_halves x), E, Z.lor_0_l by eauto with kint; eauto with kint.
Qed.

Lemma b64_assign_congr r : b64 (__mark_reg64_unbounded r) = bnd_top 64.
Proof. reflexivity. Qed.

(** [__reg_combine_32_into_64] rebuilds the 64-bit bounds: whatever they were,
    the result admits every value the known bits and the 32-bit bounds admit. *)
Lemma combine_32_into_64_inv r x : tnum_ok (var_off r) -> bnd_ok 32 (b32 r) ->
  tnum_mem (var_off r) x -> bnd_in 32 (b32 r) x -> reg_inv (__reg_combine_32_into_64 r) x.
Proof.
  intros Ht Hb Hm Hi; unfold __reg_combine_32_into_64; apply update_inv.
  destruct (tnum_equals_const _ 0) eqn:E.
  - pose proof (clear_subreg_zero _ x Ht Hm E) as Hx.
    apply deduce_bound_inv; unfold reg_ok, reg_mem; rewrite var_off_assign, b32_assign;
      split_and; trivial; [apply assign_ok|apply assign_in]; assumption.
  - assert (Hok : reg_ok (__mark_reg64_unbounded r))
      by (split3; trivial; rewrite b64_assign_congr; apply bnd_top_ok; lia).
    assert (Hmm : reg_mem (__mark_reg64_unbounded r) x)
      by (split3; trivial; rewrite b64_assign_congr; apply bnd_top_in; lia).
    apply deduce_bound_inv; [apply update_ok|apply update_mem]; assumption.
Qed.

(** [__reg_combine_64_into_32] rebuilds the 32-bit bounds. *)
Lemma combine_64_into_32_inv r x : tnum_ok (var_off r) -> bnd_ok 64 (b64 r) ->
  tnum_mem (var_off r) x -> bnd_in 64 (b64 r) x -> reg_inv (__reg_combine_64_into_32 r) x.
Proof.
  intros Ht Hb Hm Hi; unfold __reg_combine_64_into_32; apply update_inv.
  set (r1 := __mark_reg32_unbounded r).
  set (r2 := if __reg64_bound_s32 (smin_value r1) && _ then _ else r1).
  set (r3 := if __reg64_bound_u32 (umin_value r2) && _ then _ else r2).
  assert (Hx : uin 64 x) by eauto with kint.
  destruct Hb as (B1 & B2 & B3 & B4); destruct Hi as [Hs Hu]; cbn in B1, B2, B3, B4, Hs, Hu.
  pose proof (bnd_top_ok 32 ltac:(lia)) as (T1 & T2 & T3 & T4); cbn in T1, T2, T3, T4.
  pose proof (bnd_top_in 32 ltac:(lia) x) as [Ts Tu]; cbn in Ts, Tu.
  assert (E2 : sin 32 (s32_min_value r2) /\ sin 32 (s32_max_value r2) /\
               s32_min_value r2 <= s32 x <= s32_max_value r2).
  { subst r2; unfold __reg64_bound_s32; cbn [r1 __mark_reg32_unbounded set_s32_min_value set_s32_max_value set_u32_min_value set_u32_max_value smin_value smax_value].
    destruct (Z.geb_spec (smin_value r) S32_MIN), (Z.leb_spec (smin_value r) S32_MAX),
      (Z.geb_spec (smax_value r) S32_MIN), (Z.leb_spec (smax_value r) S32_MAX); cbn; auto.
    rewrite <- (swrap_swrap 32 64 x) by lia; rewrite !swrap_id by kia; kia. }
  assert (Eu : b64 r2 = b64 r /\ u32_min_value r2 = 0 /\ u32_max_value r2 = U32_MAX /\ var_off r2 = var_off r)
    by (subst r2; match goal with |- context [if ?c then _ else _] => destruct c end; auto).
  clearbody r2; clear r1; destruct Eu as (Eb & Eu3 & Eu4 & Ev).
  pose proof (f_equal bumin Eb) as Eu1; pose proof (f_equal bumax Eb) as Eu2; cbn in Eu1, Eu2.
  assert (E3 : uin 32 (u32_min_value r3) /\ uin 32 (u32_max_value r3) /\
               u32_min_value r3 <= u32 x <= u32_max_value r3).
  { subst r3; unfold __reg64_bound_u32; rewrite Eu1, Eu2.
    destruct (Z.geb_spec (umin_value r) 0), (Z.leb_spec (umin_value r) U32_MAX),
      (Z.geb_spec (umax_value r) 0), (Z.leb_spec (umax_value r) U32_MAX); cbn; rewrite ?Eu3, ?Eu4; auto.
    rewrite (uwrap_id 64) in Hu by exact Hx; rewrite ?Eu1, ?Eu2, !uwrap_id by kia; kia. }
  assert (F : s32_min_value r3 = s32_min_value r2 /\ s32_max_value r3 = s32_max_value r2 /\
              b64 r3 = b64 r /\ var_off r3 = var_off r)
    by (rewrite <- Eb, <- Ev; subst r3; match goal with |- context [if ?c then _ else _] => destruct c end; auto).
  destruct F as (F1 & F2 & F3 & F4).
  apply deduce_bound_inv; unfold reg_ok, reg_mem; rewrite F3, F4; unfold bnd_ok, bnd_in; cbn; rewrite F1, F2; tauto.
Qed.

Lemma u32_u32 x : u32 (u32 x) = u32 x.
Proof. apply uwrap_uwrap; lia. Qed.

(** Zero extension: the register holds the low half afterwards. *)
Lemma zext_ok r : tnum_ok (var_off r) -> bnd_ok 32 (b32 r) -> reg_ok (zext_32_to_64 r).
Proof.
  intros Ht Hb; unfold zext_32_to_64; split3.
  - rewrite var_off_assign; apply tnum_subreg_ok; exact Ht.
  - apply assign_ok; exact Hb.
  - rewrite b32_assign; exact Hb.
Qed.

Lemma zext_mem r x : tnum_mem (var_off r) x -> bnd_in 32 (b32 r) x -> reg_mem (zext_32_to_64 r) (u32 x).
Proof.
  intros Hm Hi; unfold zext_32_to_64.
  assert (Hw : weq 32 x (u32 x)) by (symmetry; apply u32_u32).
  assert (Hi' : bnd_in 32 (b32 r) (u32 x)) by (apply (bnd_in_weq (w := 32) ltac:(lia) x); assumption).
  split3.
  - rewrite var_off_assign; apply tnum_subreg_mem; exact Hm.
  - apply assign_in; [eauto with kint|exact Hi'].
  - rewrite b32_assign; exact Hi'.
Qed.

(** ** Truncation *)

Lemma land_ones_mask w x : 0 <= w -> Z.land x (Z.ones w) = uwrap w x.
Proof. intros; apply Z.land_ones; assumption. Qed.

(** [umin] and [umax] share the bits above the mask: the low parts keep the
    order. *)
Lemma low_parts w lo hi x : 0 <= w <= 64 -> uin 64 lo -> uin 64 hi -> lo <= x <= hi ->
  Z.ldiff lo (Z.ones w) = Z.ldiff hi (Z.ones w) -> uwrap w lo <= uwrap w x <= uwrap w hi.
Proof.
  intros Hw Hlo Hhi Hx; rewrite !ldiff_ones, !Z.shiftl_mul_pow2, !Z.shiftr_div_pow2 by lia.
  pose proof (pow2_pos w ltac:(lia)) as Hp; intros E; unfold uwrap.
  pose proof (Z.div_le_mono lo x _ Hp ltac:(lia)); pose proof (Z.div_le_mono x hi _ Hp ltac:(lia)).
  pose proof (Z.div_mod lo (2 ^ w) ltac:(lia)); pose proof (Z.div_mod x (2 ^ w) ltac:(lia)).
  pose proof (Z.div_mod hi (2 ^ w) ltac:(lia)); nia.
Qed.

(** The register after truncation to [size] bytes, before the 32-bit bounds
    are revisited. *)
Lemma coerce_bounds lo hi w x : 0 < w <= 32 -> uin 64 lo -> uin 64 hi -> lo <= x <= hi ->
  let m := Z.ones w in
  let '(lo', hi') :=
    if lo .& unot 64 m =? hi .& unot 64 m then (lo .& m, hi .& m) else (0, m) in
  0 <= lo' <= uwrap w x /\ uwrap w x <= hi' < 2 ^ w.
Proof.
  intros Hw Hlo Hhi Hx; cbn zeta; rewrite !(land_unot 64) by (trivial; lia).
  pose proof (uwrap_range w x ltac:(lia)) as Hr; pose proof (uwrap_range w lo ltac:(lia)) as Hr1.
  pose proof (uwrap_range w hi ltac:(lia)) as Hr2; unfold uin in Hr, Hr1, Hr2.
  destruct (Z.eqb_spec (Z.ldiff lo (Z.ones w)) (Z.ldiff hi (Z.ones w))) as [E|E].
  - rewrite !land_ones_mask by lia; pose proof (low_parts w lo hi x ltac:(lia) Hlo Hhi Hx E); lia.
  - rewrite Z.ones_equiv; lia.
Qed.

Lemma coerce_inv r x size : size = 1 \/ size = 2 \/ size = 4 ->
  reg_inv r x -> reg_inv (coerce_reg_to_size r size) (uwrap (size * 8) x).
Proof.
  intros Hsz ((Ht & H64 & H32) & (Hm & Hi64 & Hi32) & (_ & Hs32)).
  assert (Hx : uin 64 x) by eauto with kint.
  unfold coerce_reg_to_size; rewrite cast_mask by lia.
  set (w := size * 8) in *; assert (Hw : 0 < w <= 32) by lia.
  set (r0 := set_var_off r (tnum_cast (var_off r) size)).
  destruct H64 as (_ & _ & Hlo & Hhi); destruct Hi64 as [_ Hu]; cbn in Hlo, Hhi, Hu.
  rewrite (uwrap_id 64) in Hu by exact Hx.
  pose proof (coerce_bounds _ _ w x Hw Hlo Hhi Hu) as Hc; cbn zeta in Hc.
  change (umin_value r0) with (umin_value r); change (umax_value r0) with (umax_value r).
  pose proof (Z.pow_le_mono_r 2 w 32 ltac:(lia) ltac:(lia)) as Hpw; pose proof (pow2_pos w ltac:(lia)).
  set (r1 := if umin_value r .& _ =? _ then _ else _).
  assert (E1 : 0 <= umin_value r1 <= uwrap w x /\ uwrap w x <= umax_value r1 < 2 ^ w /\
               b32 r1 = b32 r /\ var_off r1 = tnum_cast (var_off r) size)
    by (revert Hc; subst r1; destruct (umin_value r .& _ =? _); cbn; tauto).
  clearbody r1; clear Hc; destruct E1 as (E1 & E2 & E3 & E4).
  set (r2 := set_smax_value _ _).
  assert (F : b64 r2 = mk_bounds (umin_value r1) (umax_value r1) (umin_value r1) (umax_value r1)).
  { unfold b64; cbn; rewrite !swrap_id by kia; reflexivity. }
  assert (F1 : b32 r2 = b32 r /\ var_off r2 = tnum_cast (var_off r) size) by (rewrite <- E3, <- E4; auto).
  destruct F1 as [F1 F2]; clearbody r2.
  assert (Hr : uin w (uwrap w x)) by (apply uwrap_range; lia); unfold uin in Hr.
  assert (Gok : bnd_ok 64 (b64 r2)) by (rewrite F; unfold bnd_ok; cbn; kia).
  assert (Gin : bnd_in 64 (b64 r2) (uwrap w x)).
  { rewrite F; unfold bnd_in; cbn; rewrite swrap_id, (uwrap_id 64) by kia; lia. }
  assert (Gt : tnum_ok (var_off r2)) by (rewrite F2; apply tnum_cast_ok; trivial; lia).
  assert (Gm : tnum_mem (var_off r2) (uwrap w x)) by (rewrite F2; apply tnum_cast_mem; trivial; lia).
  destruct (Z.geb_spec size 4) as [Hge|Hlt]; [|apply combine_64_into_32_inv; assumption].
  assert (size = 4) by lia; subst size; subst w; change (4 * 8) with 32 in *; split3.
  - split3; trivial; rewrite F1; exact H32.
  - split3; trivial; rewrite F1; apply (bnd_in_weq (w := 32) ltac:(lia) x); trivial; symmetry; apply u32_u32.
  - split; rewrite ?F, ?F1, F2, (tnum_cast_alt _ 4) by lia; intros Hn; cbn [bsmin bumax mask] in *.
    + split; [kia|]; change (4 * 8) with 32; rewrite testbit_uwrap by lia; reflexivity.
    + destruct (Hs32 Hn) as [? ?]; split; trivial; change (4 * 8) with 32; rewrite testbit_uwrap_low by lia; assumption.
Qed.
