(* ===== verification/ScalarOps.v ===== *)
(** Range arithmetic on two scalar registers: the scalar{,32}_min_max_*
    functions of kernel/bpf/verifier.c, one definition per function.

    Each one is shown to admit the result of the machine operation whenever the
    operands admit the inputs; the pairs (64-bit and 32-bit member) share the
    width-generic facts of the second half of this file. *)
From Stdlib Require Import ZArith Lia Bool.
From S2P Require Import Prelude Bits Bitops Tnum Bounds RegState.

Local Open Scope Z_scope.
Local Open Scope kint_scope.

(** ** Model *)

Definition signed_add_overflows (a b : Z) : bool :=
  let res := s64 (u64 a + u64 b) in
  if b <? 0 then res >? a else res <? a.

Definition signed_add32_overflows (a b : Z) : bool :=
  let res := s32 (u32 a + u32 b) in
  if b <? 0 then res >? a else res <? a.

Definition signed_sub_overflows (a b : Z) : bool :=
  let res := s64 (u64 a - u64 b) in
  if b <? 0 then res <? a else res >? a.

Definition signed_sub32_overflows (a b : Z) : bool :=
  let res := s32 (u32 a - u32 b) in
  if b <? 0 then res <? a else res >? a.

Definition scalar32_min_max_add (dst_reg src_reg : bpf_reg_state) : bpf_reg_state :=
  let smin_val := s32_min_value src_reg in
  let smax_val := s32_max_value src_reg in
  let umin_val := u32_min_value src_reg in
  let umax_val := u32_max_value src_reg in
  let dst_reg :=
    if signed_add32_overflows (s32_min_value dst_reg) smin_val ||
       signed_add32_overflows (s32_max_value dst_reg) smax_val then
      let dst_reg := set_s32_min_value dst_reg S32_MIN in
      set_s32_max_value dst_reg S32_MAX
    else
      let dst_reg := set_s32_min_value dst_reg (s32 (s32_min_value dst_reg + smin_val)) in
      set_s32_max_value dst_reg (s32 (s32_max_value dst_reg + smax_val)) in
  if (u32 (u32_min_value dst_reg + umin_val) <? umin_val) ||
     (u32 (u32_max_value dst_reg + umax_val) <? umax_val) then
    let dst_reg := set_u32_min_value dst_reg 0 in
    set_u32_max_value dst_reg U32_MAX
  else
    let dst_reg := set_u32_min_value dst_reg (u32 (u32_min_value dst_reg + umin_val)) in
    set_u32_max_value dst_reg (u32 (u32_max_value dst_reg + umax_val)).

Definition scalar_min_max_add (dst_reg src_reg : bpf_reg_state) : bpf_reg_state :=
  let smin_val := smin_value src_reg in
  let smax_val := smax_value src_reg in
  let umin_val := umin_value src_reg in
  let umax_val := umax_value src_reg in
  let dst_reg :=
    if signed_add_overflows (smin_value dst_reg) smin_val ||
       signed_add_overflows (smax_value dst_reg) smax_val then
      let dst_reg := set_smin_value dst_reg S64_MIN in
      set_smax_value dst_reg S64_MAX
    else
      let dst_reg := set_smin_value dst_reg (s64 (smin_value dst_reg + smin_val)) in
      set_smax_value dst_reg (s64 (smax_value dst_reg + smax_val)) in
  if (u64 (umin_value dst_reg + umin_val) <? umin_val) ||
     (u64 (umax_value dst_reg + umax_val) <? umax_val) then
    let dst_reg := set_umin_value dst_reg 0 in
    set_umax_value dst_reg U64_MAX
  else
    let dst_reg := set_umin_value dst_reg (u64 (umin_value dst_reg + umin_val)) in
    set_umax_value dst_reg (u64 (umax_value dst_reg + umax_val)).

Definition scalar32_min_max_sub (dst_reg src_reg : bpf_reg_state) : bpf_reg_state :=
  let smin_val := s32_min_value src_reg in
  let smax_val := s32_max_value src_reg in
  let umin_val := u32_min_value src_reg in
  let umax_val := u32_max_value src_reg in
  let dst_reg :=
    if signed_sub32_overflows (s32_min_value dst_reg) smax_val ||
       signed_sub32_overflows (s32_max_value dst_reg) smin_val then
      let dst_reg := set_s32_min_value dst_reg S32_MIN in
      set_s32_max_value dst_reg S32_MAX
    else
      let dst_reg := set_s32_min_value dst_reg (s32 (s32_min_value dst_reg - smax_val)) in
      set_s32_max_value dst_reg (s32 (s32_max_value dst_reg - smin_val)) in
  if u32_min_value dst_reg <? umax_val then
    let dst_reg := set_u32_min_value dst_reg 0 in
    set_u32_max_value dst_reg U32_MAX
  else
    let dst_reg := set_u32_min_value dst_reg (u32 (u32_min_value dst_reg - umax_val)) in
    set_u32_max_value dst_reg (u32 (u32_max_value dst_reg - umin_val)).

Definition scalar_min_max_sub (dst_reg src_reg : bpf_reg_state) : bpf_reg_state :=
  let smin_val := smin_value src_reg in
  let smax_val := smax_value src_reg in
  let umin_val := umin_value src_reg in
  let umax_val := umax_value src_reg in
  let dst_reg :=
    if signed_sub_overflows (smin_value dst_reg) smax_val ||
       signed_sub_overflows (smax_value dst_reg) smin_val then
      let dst_reg := set_smin_value dst_reg S64_MIN in
      set_smax_value dst_reg S64_MAX
    else
      let dst_reg := set_smin_value dst_reg (s64 (smin_value dst_reg - smax_val)) in
      set_smax_value dst_reg (s64 (smax_value dst_reg - smin_val)) in
  if umin_value dst_reg <? umax_val then
    let dst_reg := set_umin_value dst_reg 0 in
    set_umax_value dst_reg U64_MAX
  else
    let dst_reg := set_umin_value dst_reg (u64 (umin_value dst_reg - umax_val)) in
    set_umax_value dst_reg (u64 (umax_value dst_reg - umin_val)).

Definition scalar32_min_max_mul (dst_reg src_reg : bpf_reg_state) : bpf_reg_state :=
  let smin_val := s32_min_value src_reg in
  let umin_val := u32_min_value src_reg in
  let umax_val := u32_max_value src_reg in
  if (smin_val <? 0) || (s32_min_value dst_reg <? 0) then
    __mark_reg32_unbounded dst_reg
  else if (umax_val >? U16_MAX) || (u32_max_value dst_reg >? U16_MAX) then
    __mark_reg32_unbounded dst_reg
  else
    let dst_reg := set_u32_min_value dst_reg (u32 (u32_min_value dst_reg * umin_val)) in
    let dst_reg := set_u32_max_value dst_reg (u32 (u32_max_value dst_reg * umax_val)) in
    if u32_max_value dst_reg >? S32_MAX then
      let dst_reg := set_s32_min_value dst_reg S32_MIN in
      set_s32_max_value dst_reg S32_MAX
    else
      let dst_reg := set_s32_min_value dst_reg (s32 (u32_min_value dst_reg)) in
      set_s32_max_value dst_reg (s32 (u32_max_value dst_reg)).

Definition scalar_min_max_mul (dst_reg src_reg : bpf_reg_state) : bpf_reg_state :=
  let smin_val := smin_value src_reg in
  let umin_val := umin_value src_reg in
  let umax_val := umax_value src_reg in
  if (smin_val <? 0) || (smin_value dst_reg <? 0) then
    __mark_reg64_unbounded dst_reg
  else if (umax_val >? U32_MAX) || (umax_value dst_reg >? U32_MAX) then
    __mark_reg64_unbounded dst_reg
  else
    let dst_reg := set_umin_value dst_reg (u64 (umin_value dst_reg * umin_val)) in
    let dst_reg := set_umax_value dst_reg (u64 (umax_value dst_reg * umax_val)) in
    if umax_value dst_reg >? S64_MAX then
      let dst_reg := set_smin_value dst_reg S64_MIN in
      set_smax_value dst_reg S64_MAX
    else
      let dst_reg := set_smin_value dst_reg (s64 (umin_value dst_reg)) in
      set_smax_value dst_reg (s64 (umax_value dst_reg)).

Definition scalar32_min_max_and (dst_reg src_reg : bpf_reg_state) : bpf_reg_state :=
  let src_known := tnum_subreg_is_const (var_off src_reg) in
  let dst_known := tnum_subreg_is_const (var_off dst_reg) in
  let var32_off := tnum_subreg (var_off dst_reg) in
  let smin_val := s32_min_value src_reg in
  let umax_val := u32_max_value src_reg in
  if src_known && dst_known then
    __mark_reg32_known dst_reg (value var32_off)
  else
    let dst_reg := set_u32_min_value dst_reg (u32 (value var32_off)) in
    let dst_reg := set_u32_max_value dst_reg (Z.min (u32_max_value dst_reg) umax_val) in
    if (s32_min_value dst_reg <? 0) || (smin_val <? 0) then
      let dst_reg := set_s32_min_value dst_reg S32_MIN in
      set_s32_max_value dst_reg S32_MAX
    else
      let dst_reg := set_s32_min_value dst_reg (s32 (u32_min_value dst_reg)) in
      set_s32_max_value dst_reg (s32 (u32_max_value dst_reg)).

Definition scalar_min_max_and (dst_reg src_reg : bpf_reg_state) : bpf_reg_state :=
  let src_known := tnum_is_const (var_off src_reg) in
  let dst_known := tnum_is_const (var_off dst_reg) in
  let smin_val := smin_value src_reg in
  let umax_val := umax_value src_reg in
  if src_known && dst_known then
    __mark_reg_known dst_reg (value (var_off dst_reg))
  else
    let dst_reg := set_umin_value dst_reg (value (var_off dst_reg)) in
    let dst_reg := set_umax_value dst_reg (Z.min (umax_value dst_reg) umax_val) in
    let dst_reg :=
      if (smin_value dst_reg <? 0) || (smin_val <? 0) then
        let dst_reg := set_smin_value dst_reg S64_MIN in
        set_smax_value dst_reg S64_MAX
      else
        let dst_reg := set_smin_value dst_reg (s64 (umin_value dst_reg)) in
        set_smax_value dst_reg (s64 (umax_value dst_reg)) in
    __update_reg_bounds dst_reg.

Definition scalar32_min_max_or (dst_reg src_reg : bpf_reg_state) : bpf_reg_state :=
  let src_known := tnum_subreg_is_const (var_off src_reg) in
  let dst_known := tnum_subreg_is_const (var_off dst_reg) in
  let var32_off := tnum_subreg (var_off dst_reg) in
  let smin_val := s32_min_value src_reg in
  let umin_val := u32_min_value src_reg in
  if src_known && dst_known then
    __mark_reg32_known dst_reg (value var32_off)
  else
    let dst_reg := set_u32_min_value dst_reg (Z.max (u32_min_value dst_reg) umin_val) in
    let dst_reg := set_u32_max_value dst_reg (u32 (value var32_off .| mask var32_off)) in
    if (s32_min_value dst_reg <? 0) || (smin_val <? 0) then
      let dst_reg := set_s32_min_value dst_reg S32_MIN in
      set_s32_max_value dst_reg S32_MAX
    else
      let dst_reg := set_s32_min_value dst_reg (s32 (u32_min_value dst_reg)) in
      set_s32_max_value dst_reg (s32 (u32_max_value dst_reg)).

Definition scalar_min_max_or (dst_reg src_reg : bpf_reg_state) : bpf_reg_state :=
  let src_known := tnum_is_const (var_off src_reg) in
  let dst_known := tnum_is_const (var_off dst_reg) in
  let smin_val := smin_value src_reg in
  let umin_val := umin_value src_reg in
  if src_known && dst_known then
    __mark_reg_known dst_reg (value (var_off dst_reg))
  else
    let dst_reg := set_umin_value dst_reg (Z.max (umin_value dst_reg) umin_val) in
    let dst_reg := set_umax_value dst_reg (value (var_off dst_reg) .| mask (var_off dst_reg)) in
    let dst_reg :=
      if (smin_value dst_reg <? 0) || (smin_val <? 0) then
        let dst_reg := set_smin_value dst_reg S64_MIN in
        set_smax_value dst_reg S64_MAX
      else
        let dst_reg := set_smin_value dst_reg (s64 (umin_value dst_reg)) in
        set_smax_value dst_reg (s64 (umax_value dst_reg)) in
    __update_reg_bounds dst_reg.

Definition scalar32_min_max_xor (dst_reg src_reg : bpf_reg_state) : bpf_reg_state :=
  let src_known := tnum_subreg_is_const (var_off src_reg) in
  let dst_known := tnum_subreg_is_const (var_off dst_reg) in
  let var32_off := tnum_subreg (var_off dst_reg) in
  let smin_val := s32_min_value src_reg in
  if src_known && dst_known then
    __mark_reg32_known dst_reg (value var32_off)
  else
    let dst_reg := set_u32_min_value dst_reg (u32 (value var32_off)) in
    let dst_reg := set_u32_max_value dst_reg (u32 (value var32_off .| mask var32_off)) in
    if (s32_min_value dst_reg >=? 0) && (smin_val >=? 0) then
      let dst_reg := set_s32_min_value dst_reg (s32 (u32_min_value dst_reg)) in
      set_s32_max_value dst_reg (s32 (u32_max_value dst_reg))
    else
      let dst_reg := set_s32_min_value dst_reg S32_MIN in
      set_s32_max_value dst_reg S32_MAX.

Definition scalar_min_max_xor (dst_reg src_reg : bpf_reg_state) : bpf_reg_state :=
  let src_known := tnum_is_const (var_off src_reg) in
  let dst_known := tnum_is_const (var_off dst_reg) in
  let smin_val := smin_value src_reg in
  if src_known && dst_known then
    __mark_reg_known dst_reg (value (var_off dst_reg))
  else
    let dst_reg := set_umin_value dst_reg (value (var_off dst_reg)) in
    let dst_reg := set_umax_value dst_reg (value (var_off dst_reg) .| mask (var_off dst_reg)) in
    let dst_reg :=
      if (smin_value dst_reg >=? 0) && (smin_val >=? 0) then
        let dst_reg := set_smin_value dst_reg (s64 (umin_value dst_reg)) in
        set_smax_value dst_reg (s64 (umax_value dst_reg))
      else
        let dst_reg := set_smin_value dst_reg S64_MIN in
        set_smax_value dst_reg S64_MAX in
    __update_reg_bounds dst_reg.

Definition __scalar32_min_max_lsh (dst_reg : bpf_reg_state) (umin_val umax_val : Z) : bpf_reg_state :=
  let dst_reg := set_s32_min_value dst_reg S32_MIN in
  let dst_reg := set_s32_max_value dst_reg S32_MAX in
  if (umax_val >? 31) || (u32_max_value dst_reg >? ushl 64 1 (31 - umax_val)) then
    let dst_reg := set_u32_min_value dst_reg 0 in
    set_u32_max_value dst_reg U32_MAX
  else
    let dst_reg := set_u32_min_value dst_reg (ushl 32 (u32_min_value dst_reg) umin_val) in
    set_u32_max_value dst_reg (ushl 32 (u32_max_value dst_reg) umax_val).

Definition scalar32_min_max_lsh (dst_reg src_reg : bpf_reg_state) : bpf_reg_state :=
  let umax_val := u32_max_value src_reg in
  let umin_val := u32_min_value src_reg in
  let subreg := tnum_subreg (var_off dst_reg) in
  let dst_reg := __scalar32_min_max_lsh dst_reg umin_val umax_val in
  let dst_reg := set_var_off dst_reg (tnum_subreg (tnum_lshift subreg (u8 umin_val))) in
  let dst_reg := __mark_reg64_unbounded dst_reg in
  __update_reg32_bounds dst_reg.

Definition __scalar64_min_max_lsh (dst_reg : bpf_reg_state) (umin_val umax_val : Z) : bpf_reg_state :=
  let dst_reg :=
    if (umin_val =? 32) && (umax_val =? 32) && (s32_max_value dst_reg >=? 0) then
      set_smax_value dst_reg (s64 (Z.shiftl (s32_max_value dst_reg) 32))
    else set_smax_value dst_reg S64_MAX in
  let dst_reg :=
    if (umin_val =? 32) && (umax_val =? 32) && (s32_min_value dst_reg >=? 0) then
      set_smin_value dst_reg (s64 (Z.shiftl (s32_min_value dst_reg) 32))
    else set_smin_value dst_reg S64_MIN in
  if umax_value dst_reg >? ushl 64 1 (63 - umax_val) then
    let dst_reg := set_umin_value dst_reg 0 in
    set_umax_value dst_reg U64_MAX
  else
    let dst_reg := set_umin_value dst_reg (ushl 64 (umin_value dst_reg) umin_val) in
    set_umax_value dst_reg (ushl 64 (umax_value dst_reg) umax_val).

Definition scalar_min_max_lsh (dst_reg src_reg : bpf_reg_state) : bpf_reg_state :=
  let umax_val := umax_value src_reg in
  let umin_val := umin_value src_reg in
  let dst_reg := __scalar64_min_max_lsh dst_reg umin_val umax_val in
  let dst_reg := __scalar32_min_max_lsh dst_reg umin_val umax_val in
  let dst_reg := set_var_off dst_reg (tnum_lshift (var_off dst_reg) (u8 umin_val)) in
  __update_reg_bounds dst_reg.

Definition scalar32_min_max_rsh (dst_reg src_reg : bpf_reg_state) : bpf_reg_state :=
  let subreg := tnum_subreg (var_off dst_reg) in
  let umax_val := u32_max_value src_reg in
  let umin_val := u32_min_value src_reg in
  let dst_reg := set_s32_min_value dst_reg S32_MIN in
  let dst_reg := set_s32_max_value dst_reg S32_MAX in
  let dst_reg := set_var_off dst_reg (tnum_rshift subreg (u8 umin_val)) in
  let dst_reg := set_u32_min_value dst_reg (ushr (u32_min_value dst_reg) umax_val) in
  let dst_reg := set_u32_max_value dst_reg (ushr (u32_max_value dst_reg) umin_val) in
  let dst_reg := __mark_reg64_unbounded dst_reg in
  __update_reg32_bounds dst_reg.

Definition scalar_min_max_rsh (dst_reg src_reg : bpf_reg_state) : bpf_reg_state :=
  let umax_val := umax_value src_reg in
  let umin_val := umin_value src_reg in
  let dst_reg := set_smin_value dst_reg S64_MIN in
  let dst_reg := set_smax_value dst_reg S64_MAX in
  let dst_reg := set_var_off dst_reg (tnum_rshift (var_off dst_reg) (u8 umin_val)) in
  let dst_reg := set_umin_value dst_reg (ushr (umin_value dst_reg) umax_val) in
  let dst_reg := set_umax_value dst_reg (ushr (umax_value dst_reg) umin_val) in
  let dst_reg := __mark_reg32_unbounded dst_reg in
  __update_reg_bounds dst_reg.

Definition scalar32_min_max_arsh (dst_reg src_reg : bpf_reg_state) : bpf_reg_state :=
  let umin_val := u32_min_value src_reg in
  let dst_reg := set_s32_min_value dst_reg (s32 (u32 (Z.shiftr (s32_min_value dst_reg) umin_val))) in
  let dst_reg := set_s32_max_value dst_reg (s32 (u32 (Z.shiftr (s32_max_value dst_reg) umin_val))) in
  let dst_reg := set_var_off dst_reg (tnum_arshift (tnum_subreg (var_off dst_reg)) (u8 umin_val) 32) in
  let dst_reg := set_u32_min_value dst_reg 0 in
  let dst_reg := set_u32_max_value dst_reg U32_MAX in
  let dst_reg := __mark_reg64_unbounded dst_reg in
  __update_reg32_bounds dst_reg.

Definition scalar_min_max_arsh (dst_reg src_reg : bpf_reg_state) : bpf_reg_state :=
  let umin_val := umin_value src_reg in
  let dst_reg := set_smin_value dst_reg (Z.shiftr (smin_value dst_reg) umin_val) in
  let dst_reg := set_smax_value dst_reg (Z.shiftr (smax_value dst_reg) umin_val) in
  let dst_reg := set_var_off dst_reg (tnum_arshift (var_off dst_reg) (u8 umin_val) 64) in
  let dst_reg := set_umin_value dst_reg 0 in
  let dst_reg := set_umax_value dst_reg U64_MAX in
  let dst_reg := __mark_reg32_unbounded dst_reg in
  __update_reg_bounds dst_reg.

(** ** Width-generic interval arithmetic *)

Definition sadd_ov (w a b : Z) : bool :=
  let res := swrap w (uwrap w a + uwrap w b) in
  if b <? 0 then res >? a else res <? a.

Definition ssub_ov (w a b : Z) : bool :=
  let res := swrap w (uwrap w a - uwrap w b) in
  if b <? 0 then res <? a else res >? a.

Definition sadd_range (w smin1 smax1 smin2 smax2 : Z) : Z * Z :=
  if sadd_ov w smin1 smin2 || sadd_ov w smax1 smax2 then (- 2 ^ (w - 1), 2 ^ (w - 1) - 1)
  else (swrap w (smin1 + smin2), swrap w (smax1 + smax2)).

Definition uadd_range (w umin1 umax1 umin2 umax2 : Z) : Z * Z :=
  if (uwrap w (umin1 + umin2) <? umin2) || (uwrap w (umax1 + umax2) <? umax2) then (0, 2 ^ w - 1)
  else (uwrap w (umin1 + umin2), uwrap w (umax1 + umax2)).

Definition ssub_range (w smin1 smax1 smin2 smax2 : Z) : Z * Z :=
  if ssub_ov w smin1 smax2 || ssub_ov w smax1 smin2 then (- 2 ^ (w - 1), 2 ^ (w - 1) - 1)
  else (swrap w (smin1 - smax2), swrap w (smax1 - smin2)).

Definition usub_range (w umin1 umax1 umin2 umax2 : Z) : Z * Z :=
  if umin1 <? umax2 then (0, 2 ^ w - 1)
  else (uwrap w (umin1 - umax2), uwrap w (umax1 - umin2)).

Definition bnd_pair (s u : Z * Z) : bounds := mk_bounds (fst s) (snd s) (fst u) (snd u).

Definition bnd_add (w : Z) (d s : bounds) : bounds :=
  bnd_pair (sadd_range w (bsmin d) (bsmax d) (bsmin s) (bsmax s))
           (uadd_range w (bumin d) (bumax d) (bumin s) (bumax s)).

Definition bnd_sub (w : Z) (d s : bounds) : bounds :=
  bnd_pair (ssub_range w (bsmin d) (bsmax d) (bsmin s) (bsmax s))
           (usub_range w (bumin d) (bumax d) (bumin s) (bumax s)).

(** [h] is the largest factor that cannot overflow. *)
Definition bnd_mul (w h : Z) (d s : bounds) : bounds :=
  if (bsmin s <? 0) || (bsmin d <? 0) then bnd_top w
  else if (bumax s >? h) || (bumax d >? h) then bnd_top w
  else
    let umin := uwrap w (bumin d * bumin s) in
    let umax := uwrap w (bumax d * bumax s) in
    if umax >? 2 ^ (w - 1) - 1 then mk_bounds (- 2 ^ (w - 1)) (2 ^ (w - 1) - 1) umin umax
    else mk_bounds (swrap w umin) (swrap w umax) umin umax.

(** The bitwise functions choose unsigned bounds and copy them to the signed
    side when both operands are nonnegative. *)
Definition bnd_bitwise (w : Z) (d s : bounds) (umin umax : Z) : bounds :=
  if (bsmin d <? 0) || (bsmin s <? 0) then mk_bounds (- 2 ^ (w - 1)) (2 ^ (w - 1) - 1) umin umax
  else mk_bounds (swrap w umin) (swrap w umax) umin umax.

Section Generic.
Variable w : Z.
Hypothesis Hw : 1 < w.

(** One wrap at most: the cases of a sum or difference of two values. *)
Lemma swrap_near z : - 2 ^ w <= z < 2 ^ w ->
  sin w (swrap w z) /\ (swrap w z = z \/ swrap w z = z - 2 ^ w \/ swrap w z = z + 2 ^ w).
Proof.
  intros Hz; pose proof (swrap_range w z ltac:(lia)) as Hr; split; [exact Hr|].
  pose proof (pow2_half w ltac:(lia)) as Hh; pose proof (pow2_pos (w - 1) ltac:(lia)).
  unfold swrap in *; unfold sin in Hr; set (P := 2 ^ (w - 1)) in *; set (Q := 2 ^ w) in *.
  pose proof (Z.div_mod (z + P) Q ltac:(lia)); pose proof (Z.mod_pos_bound (z + P) Q ltac:(lia)).
  assert (- 1 <= (z + P) / Q <= 1) by (split; [apply Z.div_le_lower_bound|apply Z.lt_succ_r, Z.div_lt_upper_bound]; lia).
  assert (Hq : (z + P) / Q = -1 \/ (z + P) / Q = 0 \/ (z + P) / Q = 1) by lia.
  destruct Hq as [Hq|[Hq|Hq]]; rewrite Hq in *; lia.
Qed.

Lemma swrap_sum x y : swrap w (x + y) = swrap w (swrap w x + swrap w y).
Proof. symmetry; apply swrap_weq; [lia|]; apply weq_add; [lia| |]; apply weq_swrap; lia. Qed.

Lemma swrap_diff x y : swrap w (x - y) = swrap w (swrap w x - swrap w y).
Proof. symmetry; apply swrap_weq; [lia|]; apply weq_sub; [lia| |]; apply weq_swrap; lia. Qed.

Lemma uwrap_sum x y : uwrap w (x + y) = uwrap w (uwrap w x + uwrap w y).
Proof. symmetry; apply weq_add; [lia| |]; apply weq_uwrap; lia. Qed.

Lemma uwrap_diff x y : uwrap w (x - y) = uwrap w (uwrap w x - uwrap w y).
Proof. symmetry; apply weq_sub; [lia| |]; apply weq_uwrap; lia. Qed.

Lemma uwrap_prod x y : uwrap w (x * y) = uwrap w (uwrap w x * uwrap w y).
Proof. symmetry; apply weq_mul; [lia| |]; apply weq_uwrap; lia. Qed.

Lemma sadd_ov_sin a b : sin w a -> sin w b -> sadd_ov w a b = false -> sin w (a + b).
Proof.
  intros Ha Hb; unfold sadd_ov; cbn zeta.
  replace (swrap w (uwrap w a + uwrap w b)) with (swrap w (a + b))
    by (apply swrap_weq; [lia|]; symmetry; apply weq_add; [lia| |]; apply weq_uwrap; lia).
  pose proof (pow2_half w ltac:(lia)); unfold sin in Ha, Hb.
  destruct (swrap_near (a + b) ltac:(lia)) as [Hr Hc]; unfold sin in *.
  destruct (Z.ltb_spec b 0); [rewrite Z.gtb_ltb|];
    match goal with |- (?p <? ?q) = false -> _ => destruct (Z.ltb_spec p q); [discriminate|] end; intros _; lia.
Qed.

Lemma ssub_ov_sin a b : sin w a -> sin w b -> ssub_ov w a b = false -> sin w (a - b).
Proof.
  intros Ha Hb; unfold ssub_ov; cbn zeta.
  replace (swrap w (uwrap w a - uwrap w b)) with (swrap w (a - b))
    by (apply swrap_weq; [lia|]; symmetry; apply weq_sub; [lia| |]; apply weq_uwrap; lia).
  pose proof (pow2_half w ltac:(lia)); unfold sin in Ha, Hb.
  destruct (swrap_near (a - b) ltac:(lia)) as [Hr Hc]; unfold sin in *.
  destruct (Z.ltb_spec b 0); [|rewrite Z.gtb_ltb];
    match goal with |- (?p <? ?q) = false -> _ => destruct (Z.ltb_spec p q); [discriminate|] end; intros _; lia.
Qed.

Lemma uadd_no_ov a b : uin w a -> uin w b -> b <= uwrap w (a + b) -> uwrap w (a + b) = a + b.
Proof.
  unfold uin; intros Ha Hb H; apply uwrap_id; split; [lia|].
  destruct (Z.lt_ge_cases (a + b) (2 ^ w)); [assumption|exfalso].
  unfold uwrap in H; replace (a + b) with (a + b - 2 ^ w + 1 * 2 ^ w) in H by lia.
  rewrite Z.mod_add, Z.mod_small in H by lia; lia.
Qed.

Lemma bnd_add_ok d s : bnd_ok w (bnd_add w d s).
Proof.
  pose proof (bnd_top_ok w Hw) as (T1 & T2 & T3 & T4); cbn in *.
  unfold bnd_add, sadd_range, uadd_range; destruct (_ || _); destruct (_ || _); unfold bnd_ok; cbn;
    split_and; trivial; (apply swrap_range || apply uwrap_range); lia.
Qed.

Lemma bnd_add_in d s x y : bnd_ok w d -> bnd_ok w s -> bnd_in w d x -> bnd_in w s y ->
  bnd_in w (bnd_add w d s) (x + y).
Proof.
  intros (D1 & D2 & D3 & D4) (S1 & S2 & S3 & S4) [Hxs Hxu] [Hys Hyu].
  pose proof (bnd_top_in w Hw (x + y)) as [Ts Tu]; cbn in Ts, Tu.
  split; cbn; [unfold sadd_range|unfold uadd_range].
  - destruct (sadd_ov w (bsmin d) (bsmin s)) eqn:E1; [exact Ts|].
    destruct (sadd_ov w (bsmax d) (bsmax s)) eqn:E2; [exact Ts|].
    apply sadd_ov_sin in E1; trivial; apply sadd_ov_sin in E2; trivial; cbn.
    replace (swrap w (x + y)) with (swrap w x + swrap w y)
      by (rewrite swrap_sum; symmetry; apply swrap_id; unfold sin in *; lia).
    rewrite !swrap_id with (x := _ + _) by (trivial; lia); lia.
  - destruct (Z.ltb_spec (uwrap w (bumin d + bumin s)) (bumin s)) as [?|L1]; [exact Tu|].
    destruct (Z.ltb_spec (uwrap w (bumax d + bumax s)) (bumax s)) as [?|L2]; [exact Tu|]; cbn.
    apply uadd_no_ov in L1; trivial; apply uadd_no_ov in L2; trivial.
    pose proof (uwrap_range w (bumax d + bumax s) ltac:(lia)) as Hr; unfold uin in *.
    rewrite L2 in Hr; rewrite L1, L2, (uwrap_sum x y).
    rewrite (uwrap_id w (uwrap w x + uwrap w y)) by (unfold uin; lia); lia.
Qed.

Lemma bnd_sub_ok d s : bnd_ok w (bnd_sub w d s).
Proof.
  pose proof (bnd_top_ok w Hw) as (T1 & T2 & T3 & T4); cbn in *.
  unfold bnd_sub, ssub_range, usub_range; destruct (_ || _); destruct (_ <? _); unfold bnd_ok; cbn;
    split_and; trivial; (apply swrap_range || apply uwrap_range); lia.
Qed.

Lemma bnd_sub_in d s x y : bnd_ok w d -> bnd_ok w s -> bnd_in w d x -> bnd_in w s y ->
  bnd_in w (bnd_sub w d s) (x - y).
Proof.
  intros (D1 & D2 & D3 & D4) (S1 & S2 & S3 & S4) [Hxs Hxu] [Hys Hyu].
  pose proof (bnd_top_in w Hw (x - y)) as [Ts Tu]; cbn in Ts, Tu.
  split; cbn; [unfold ssub_range|unfold usub_range].
  - destruct (ssub_ov w (bsmin d) (bsmax s)) eqn:E1; [exact Ts|].
    destruct (ssub_ov w (bsmax d) (bsmin s)) eqn:E2; [exact Ts|].
    apply ssub_ov_sin in E1; trivial; apply ssub_ov_sin in E2; trivial; cbn.
    replace (swrap w (x - y)) with (swrap w x - swrap w y)
      by (rewrite swrap_diff; symmetry; apply swrap_id; unfold sin in *; lia).
    rewrite !swrap_id with (x := _ - _) by (trivial; lia); lia.
  - destruct (Z.ltb_spec (bumin d) (bumax s)); [exact Tu|]; cbn.
    unfold uin in *; rewrite (uwrap_diff x y), !(uwrap_id w (_ - _)) by (unfold uin; lia); lia.
Qed.

Lemma bnd_mul_ok h d s : bnd_ok w (bnd_mul w h d s).
Proof.
  pose proof (bnd_top_ok w Hw) as T; pose proof T as (T1 & T2 & T3 & T4); cbn in T1, T2.
  unfold bnd_mul; destruct (_ || _); [exact T|]; destruct (_ || _); [exact T|].
  destruct (_ >? _); unfold bnd_ok; cbn; split_and; trivial; (apply swrap_range || apply uwrap_range); lia.
Qed.

(** A value below the sign bit reads the same either way. *)
Lemma copy_signed umin umax z : uin w umin -> umin <= uwrap w z <= umax -> umax < 2 ^ (w - 1) ->
  swrap w umin <= swrap w z <= swrap w umax.
Proof.
  unfold uin; intros H1 H2 H3; rewrite <- (swrap_uwrap w w z) by lia.
  rewrite !swrap_id by (unfold sin; lia); lia.
Qed.

Lemma bnd_mul_in h d s x y : bnd_ok w d -> bnd_ok w s -> 0 <= h -> h * h < 2 ^ w ->
  bnd_in w d x -> bnd_in w s y -> bnd_in w (bnd_mul w h d s) (x * y).
Proof.
  intros (_ & _ & D3 & D4) (_ & _ & S3 & S4) Hh0 Hh [_ Hxu] [_ Hyu].
  pose proof (bnd_top_in w Hw (x * y)) as T; pose proof T as [Ts Tu]; cbn in Ts, Tu.
  unfold bnd_mul; destruct (_ || _); [exact T|].
  destruct (Z.gtb_spec (bumax s) h); [exact T|]; destruct (Z.gtb_spec (bumax d) h); [exact T|]; cbn [orb].
  unfold uin in *.
  assert (Emin : uwrap w (bumin d * bumin s) = bumin d * bumin s) by (apply uwrap_id; unfold uin; nia).
  assert (Emax : uwrap w (bumax d * bumax s) = bumax d * bumax s) by (apply uwrap_id; unfold uin; nia).
  assert (Ex : uwrap w (x * y) = uwrap w x * uwrap w y) by (rewrite uwrap_prod; apply uwrap_id; unfold uin; nia).
  rewrite Emin, Emax; assert (Hu : bumin d * bumin s <= uwrap w (x * y) <= bumax d * bumax s) by (rewrite Ex; nia).
  destruct (Z.gtb_spec (bumax d * bumax s) (2 ^ (w - 1) - 1)); (split; [|exact Hu]); [exact Ts|].
  apply copy_signed; trivial; unfold uin; nia.
Qed.

Lemma bnd_bitwise_ok d s umin umax : uin w umin -> uin w umax -> bnd_ok w (bnd_bitwise w d s umin umax).
Proof.
  intros H1 H2; pose proof (bnd_top_ok w Hw) as (T1 & T2 & T3 & T4); cbn in T1, T2.
  unfold bnd_bitwise; destruct (_ || _); unfold bnd_ok; cbn; split_and; trivial; apply swrap_range; lia.
Qed.

Lemma bnd_bitwise_in d s umin umax z : uin w umin -> umin <= uwrap w z <= umax ->
  (0 <= bsmin d -> 0 <= bsmin s -> umax < 2 ^ (w - 1)) -> bnd_in w (bnd_bitwise w d s umin umax) z.
Proof.
  intros H1 H2 H3; pose proof (bnd_top_in w Hw z) as [Ts _]; cbn in Ts; unfold bnd_bitwise.
  destruct (Z.ltb_spec (bsmin d) 0); [split; trivial|]; destruct (Z.ltb_spec (bsmin s) 0); [split; trivial|]; cbn [orb].
  split; [|exact H2]; apply copy_signed; trivial; apply H3; assumption.
Qed.

(** A nonnegative signed lower bound puts the value below the sign bit. *)
Lemma nonneg_below b x : bnd_in w b x -> 0 <= bsmin b -> uwrap w x < 2 ^ (w - 1).
Proof. intros [Hs _] H; pose proof (readings w Hw x); cbn zeta in *; lia. Qed.

Lemma below_lor_mask v m u : uin w v -> uin w m -> Z.ldiff u m = v -> Z.testbit m (w - 1) = false ->
  0 <= u < 2 ^ (w - 1) -> v .| m < 2 ^ (w - 1).
Proof.
  intros Hv Hm E Ht Hu; assert (H : uin (w - 1) (v .| m)); [|unfold uin in H; lia].
  apply uin_bits; [lia|]; intros i Hi; rewrite Z.lor_spec, <- E, Z.ldiff_spec.
  rewrite (uin_high (w - 1) u) by (trivial; lia).
  destruct (Z.eq_dec i (w - 1)) as [->|]; [rewrite Ht; reflexivity|].
  rewrite (uin_high w m) by (trivial; lia); reflexivity.
Qed.

Lemma land_le_l a b : 0 <= a -> Z.land a b <= a.
Proof. intros; apply subbits_le; trivial; apply subbits_spec; intros i _; rewrite Z.land_spec, andb_true_iff; tauto. Qed.

Lemma land_le_r a b : 0 <= b -> Z.land a b <= b.
Proof. intros; rewrite Z.land_comm; apply land_le_l; assumption. Qed.

Lemma lor_ge a b : 0 <= a -> 0 <= b -> Z.max a b <= Z.lor a b.
Proof.
  intros; assert (0 <= Z.lor a b) by (apply Z.lor_nonneg; lia).
  assert (a <= Z.lor a b) by (apply subbits_le; trivial; apply subbits_spec; intros i _ H'; rewrite Z.lor_spec, H'; reflexivity).
  assert (b <= Z.lor a b) by (apply subbits_le; trivial; apply subbits_spec; intros i _ H'; rewrite Z.lor_spec, H'; apply orb_true_r).
  lia.
Qed.

Lemma uwrap_land x y : uwrap w (x .& y) = uwrap w x .& uwrap w y.
Proof. rewrite <- !land_ones_mask by lia; apply Z.bits_inj'; intros; rewrite !Z.land_spec; destruct (Z.testbit (Z.ones w) n), (Z.testbit x n), (Z.testbit y n); reflexivity. Qed.

Lemma uwrap_lor x y : uwrap w (x .| y) = uwrap w x .| uwrap w y.
Proof. rewrite <- !land_ones_mask by lia; apply Z.bits_inj'; intros; rewrite !Z.lor_spec, !Z.land_spec, !Z.lor_spec; destruct (Z.testbit (Z.ones w) n), (Z.testbit x n), (Z.testbit y n); reflexivity. Qed.

Lemma uwrap_lxor x y : uwrap w (x .^ y) = uwrap w x .^ uwrap w y.
Proof. rewrite <- !land_ones_mask by lia; apply Z.bits_inj'; intros; rewrite !Z.lxor_spec, !Z.land_spec, !Z.lxor_spec; destruct (Z.testbit (Z.ones w) n), (Z.testbit x n), (Z.testbit y n); reflexivity. Qed.

(** Shifting left by [n] within [n0, n1] cannot lose the top bit when the
    upper bound leaves room. *)
Lemma lsh_range umin umax n0 n1 x n : 0 <= n0 <= n -> n <= n1 < w -> uin w umin -> uin w umax ->
  umin <= uwrap w x <= umax -> umax <= 2 ^ (w - 1 - n1) ->
  ushl w umin n0 <= uwrap w (Z.shiftl x n) <= ushl w umax n1.
Proof.
  unfold uin; intros Hn0 Hn1 H1 H2 Hx Hm; unfold ushl; rewrite !Z.shiftl_mul_pow2 by lia.
  rewrite (uwrap_prod x).
  pose proof (pow2_half w ltac:(lia)) as Hh.
  assert (Hp : 2 ^ (w - 1 - n1) * 2 ^ n1 = 2 ^ (w - 1)) by (rewrite <- Z.pow_add_r by lia; f_equal; lia).
  pose proof (Z.pow_le_mono_r 2 n0 n ltac:(lia) ltac:(lia)); pose proof (Z.pow_le_mono_r 2 n n1 ltac:(lia) ltac:(lia)).
  pose proof (pow2_pos n0 ltac:(lia)); pose proof (pow2_pos (w - 1) ltac:(lia)).
  assert (Hlt : 2 ^ n < 2 ^ w) by (apply Z.pow_lt_mono_r; lia).
  rewrite (uwrap_id w (2 ^ n)) by (unfold uin; lia).
  assert (0 <= umin * 2 ^ n0) by nia.
  assert (umin * 2 ^ n0 <= uwrap w x * 2 ^ n) by nia.
  assert (uwrap w x * 2 ^ n <= umax * 2 ^ n1) by nia.
  assert (umax * 2 ^ n1 <= 2 ^ (w - 1)) by nia.
  rewrite !(uwrap_id w (_ * _)) by (unfold uin; lia); lia.
Qed.

Lemma rsh_range umin umax n0 n1 x n : 0 <= n0 <= n -> n <= n1 -> uin w umin -> uin w umax ->
  umin <= x <= umax -> ushr umin n1 <= ushr x n <= ushr umax n0.
Proof.
  unfold uin, ushr; intros Hn0 Hn1 H1 H2 Hx; rewrite !Z.shiftr_div_pow2 by lia.
  pose proof (pow2_pos n0 ltac:(lia)); pose proof (pow2_pos n ltac:(lia)).
  pose proof (Z.pow_le_mono_r 2 n0 n ltac:(lia) ltac:(lia)); pose proof (Z.pow_le_mono_r 2 n n1 ltac:(lia) ltac:(lia)).
  split.
  - transitivity (umin / 2 ^ n); [apply Z.div_le_compat_l; lia|apply Z.div_le_mono; lia].
  - transitivity (umax / 2 ^ n); [apply Z.div_le_mono; lia|apply Z.div_le_compat_l; lia].
Qed.

Lemma shiftr_mono a b n : 0 <= n -> a <= b -> Z.shiftr a n <= Z.shiftr b n.
Proof. intros; rewrite !Z.shiftr_div_pow2 by lia; apply Z.div_le_mono; trivial; apply pow2_pos; lia. Qed.

Lemma shiftr_sin a n : 0 <= n -> sin w a -> sin w (Z.shiftr a n).
Proof.
  unfold sin; intros Hn Ha; rewrite Z.shiftr_div_pow2 by lia; pose proof (pow2_pos n Hn); pose proof (pow2_pos (w - 1) ltac:(lia)).
  split; [apply Z.div_le_lower_bound; nia|apply Z.div_lt_upper_bound; nia].
Qed.
End Generic.

(** ** The source functions at the two widths *)

Ltac ifs := repeat match goal with |- context [if ?c then _ else _] => destruct c end; reflexivity.

Lemma add32_b32 d s : b32 (scalar32_min_max_add d s) = bnd_add 32 (b32 d) (b32 s).
Proof.
  unfold scalar32_min_max_add, bnd_add, sadd_range, uadd_range, b32; cbn.
  change (signed_add32_overflows (s32_min_value d)) with (sadd_ov 32 (s32_min_value d)).
  change (signed_add32_overflows (s32_max_value d)) with (sadd_ov 32 (s32_max_value d)).
  destruct (sadd_ov 32 _ _ || sadd_ov 32 _ _); cbn; destruct (_ || _); reflexivity.
Qed.

Lemma add32_frame d s : b64 (scalar32_min_max_add d s) = b64 d /\ var_off (scalar32_min_max_add d s) = var_off d.
Proof. unfold scalar32_min_max_add; cbn zeta; split; ifs. Qed.

Lemma add64_b64 d s : b64 (scalar_min_max_add d s) = bnd_add 64 (b64 d) (b64 s).
Proof.
  unfold scalar_min_max_add, bnd_add, sadd_range, uadd_range, b64; cbn.
  change (signed_add_overflows (smin_value d)) with (sadd_ov 64 (smin_value d)).
  change (signed_add_overflows (smax_value d)) with (sadd_ov 64 (smax_value d)).
  destruct (sadd_ov 64 _ _ || sadd_ov 64 _ _); cbn; destruct (_ || _); reflexivity.
Qed.

Lemma add64_frame d s : b32 (scalar_min_max_add d s) = b32 d /\ var_off (scalar_min_max_add d s) = var_off d.
Proof. unfold scalar_min_max_add; cbn zeta; split; ifs. Qed.

Lemma sub32_b32 d s : b32 (scalar32_min_max_sub d s) = bnd_sub 32 (b32 d) (b32 s).
Proof.
  unfold scalar32_min_max_sub, bnd_sub, ssub_range, usub_range, b32; cbn.
  change (signed_sub32_overflows (s32_min_value d)) with (ssub_ov 32 (s32_min_value d)).
  change (signed_sub32_overflows (s32_max_value d)) with (ssub_ov 32 (s32_max_value d)).
  destruct (ssub_ov 32 _ _ || ssub_ov 32 _ _); cbn; destruct (_ <? _); reflexivity.
Qed.

Lemma sub32_frame d s : b64 (scalar32_min_max_sub d s) = b64 d /\ var_off (scalar32_min_max_sub d s) = var_off d.
Proof. unfold scalar32_min_max_sub; cbn zeta; split; ifs. Qed.

Lemma sub64_b64 d s : b64 (scalar_min_max_sub d s) = bnd_sub 64 (b64 d) (b64 s).
Proof.
  unfold scalar_min_max_sub, bnd_sub, ssub_range, usub_range, b64; cbn.
  change (signed_sub_overflows (smin_value d)) with (ssub_ov 64 (smin_value d)).
  change (signed_sub_overflows (smax_value d)) with (ssub_ov 64 (smax_value d)).
  destruct (ssub_ov 64 _ _ || ssub_ov 64 _ _); cbn; destruct (_ <? _); reflexivity.
Qed.

Lemma sub64_frame d s : b32 (scalar_min_max_sub d s) = b32 d /\ var_off (scalar_min_max_sub d s) = var_off d.
Proof. unfold scalar_min_max_sub; cbn zeta; split; ifs. Qed.

Lemma mul32_b32 d s : b32 (scalar32_min_max_mul d s) = bnd_mul 32 U16_MAX (b32 d) (b32 s).
Proof.
  unfold scalar32_min_max_mul, bnd_mul, b32; cbn.
  destruct (_ || _); [reflexivity|]; destruct (_ || _); [reflexivity|]; cbn; destruct (_ >? _); reflexivity.
Qed.

Lemma mul32_frame d s : b64 (scalar32_min_max_mul d s) = b64 d /\ var_off (scalar32_min_max_mul d s) = var_off d.
Proof. unfold scalar32_min_max_mul; cbn zeta; split; ifs. Qed.

Lemma mul64_b64 d s : b64 (scalar_min_max_mul d s) = bnd_mul 64 U32_MAX (b64 d) (b64 s).
Proof.
  unfold scalar_min_max_mul, bnd_mul, b64; cbn.
  destruct (_ || _); [reflexivity|]; destruct (_ || _); [reflexivity|]; cbn; destruct (_ >? _); reflexivity.
Qed.

Lemma mul64_frame d s : b32 (scalar_min_max_mul d s) = b32 d /\ var_off (scalar_min_max_mul d s) = var_off d.
Proof. unfold scalar_min_max_mul; cbn zeta; split; ifs. Qed.

(** ** Soundness: addition, subtraction, multiplication *)

(** The result register of a step, assembled from its three parts. *)
Lemma reg_parts r z t e64 e32 : var_off r = t -> b64 r = e64 -> b32 r = e32 -> uin 64 z ->
  tnum_ok t -> bnd_ok 64 e64 -> bnd_ok 32 e32 ->
  tnum_mem t z -> bnd_in 64 e64 z -> bnd_in 32 e32 z -> reg_ok r /\ reg_mem r z.
Proof. intros <- <- <- ? ? ? ? ? ? ?; split; split3; assumption. Qed.

Lemma weq_u64 w z : 0 <= w <= 64 -> weq w z (u64 z).
Proof. intros; symmetry; apply weq_uwrap; lia. Qed.

Section Sound.
Variables (d s : bpf_reg_state) (x y : Z).
Hypothesis Hd : reg_inv d x.
Hypothesis Hs : reg_inv s y.

Lemma add_sound :
  let r := scalar_min_max_add (scalar32_min_max_add d s) s in
  let r := set_var_off r (tnum_add (var_off r) (var_off s)) in
  reg_ok r /\ reg_mem r (u64 (x + y)).
Proof using Hd Hs.
  destruct Hd as ((? & ? & ?) & (? & ? & ?) & _); destruct Hs as ((? & ? & ?) & (? & ? & ?) & _); cbn zeta.
  destruct (add32_frame d s) as [E1 E2]; destruct (add64_frame (scalar32_min_max_add d s) s) as [E3 E4].
  eapply reg_parts; [reflexivity|reflexivity|reflexivity|eauto with kint|..]; cbn [var_off set_var_off].
  - rewrite E4, E2; apply tnum_add_ok; assumption.
  - change (bnd_ok 64 (b64 (scalar_min_max_add (scalar32_min_max_add d s) s))).
    rewrite add64_b64; apply bnd_add_ok; lia.
  - change (bnd_ok 32 (b32 (scalar_min_max_add (scalar32_min_max_add d s) s))).
    rewrite E3, add32_b32; apply bnd_add_ok; lia.
  - rewrite E4, E2; apply tnum_add_mem; assumption.
  - change (bnd_in 64 (b64 (scalar_min_max_add (scalar32_min_max_add d s) s)) (u64 (x + y))).
    rewrite add64_b64, E1; eapply bnd_in_weq; [lia|apply weq_u64; lia|apply bnd_add_in; trivial; lia].
  - change (bnd_in 32 (b32 (scalar_min_max_add (scalar32_min_max_add d s) s)) (u64 (x + y))).
    rewrite E3, add32_b32; eapply bnd_in_weq; [lia|apply weq_u64; lia|apply bnd_add_in; trivial; lia].
Qed.

Lemma sub_sound :
  let r := scalar_min_max_sub (scalar32_min_max_sub d s) s in
  let r := set_var_off r (tnum_sub (var_off r) (var_off s)) in
  reg_ok r /\ reg_mem r (u64 (x - y)).
Proof using Hd Hs.
  destruct Hd as ((? & ? & ?) & (? & ? & ?) & _); destruct Hs as ((? & ? & ?) & (? & ? & ?) & _); cbn zeta.
  destruct (sub32_frame d s) as [E1 E2]; destruct (sub64_frame (scalar32_min_max_sub d s) s) as [E3 E4].
  eapply reg_parts; [reflexivity|reflexivity|reflexivity|eauto with kint|..]; cbn [var_off set_var_off].
  - rewrite E4, E2; apply tnum_sub_ok; assumption.
  - change (bnd_ok 64 (b64 (scalar_min_max_sub (scalar32_min_max_sub d s) s))).
    rewrite sub64_b64; apply bnd_sub_ok; lia.
  - change (bnd_ok 32 (b32 (scalar_min_max_sub (scalar32_min_max_sub d s) s))).
    rewrite E3, sub32_b32; apply bnd_sub_ok; lia.
  - rewrite E4, E2; apply tnum_sub_mem; assumption.
  - change (bnd_in 64 (b64 (scalar_min_max_sub (scalar32_min_max_sub d s) s)) (u64 (x - y))).
    rewrite sub64_b64, E1; eapply bnd_in_weq; [lia|apply weq_u64; lia|apply bnd_sub_in; trivial; lia].
  - change (bnd_in 32 (b32 (scalar_min_max_sub (scalar32_min_max_sub d s) s)) (u64 (x - y))).
    rewrite E3, sub32_b32; eapply bnd_in_weq; [lia|apply weq_u64; lia|apply bnd_sub_in; trivial; lia].
Qed.

Lemma mul_sound :
  let r := set_var_off d (tnum_mul (var_off d) (var_off s)) in
  let r := scalar_min_max_mul (scalar32_min_max_mul r s) s in
  reg_ok r /\ reg_mem r (u64 (x * y)).
Proof using Hd Hs.
  destruct Hd as ((? & ? & ?) & (? & ? & ?) & _); destruct Hs as ((? & ? & ?) & (? & ? & ?) & _); cbn zeta.
  set (d0 := set_var_off d _).
  destruct (mul32_frame d0 s) as [E1 E2]; destruct (mul64_frame (scalar32_min_max_mul d0 s) s) as [E3 E4].
  eapply reg_parts; [rewrite E4, E2; reflexivity|rewrite mul64_b64, E1; reflexivity|rewrite E3, mul32_b32; reflexivity|eauto with kint|..].
  - apply tnum_mul_ok; assumption.
  - apply bnd_mul_ok; lia.
  - apply bnd_mul_ok; lia.
  - apply tnum_mul_mem; assumption.
  - eapply bnd_in_weq; [lia|apply weq_u64; lia|apply bnd_mul_in; trivial; lia].
  - eapply bnd_in_weq; [lia|apply weq_u64; lia|apply bnd_mul_in; trivial; lia].
Qed.
End Sound.
