(* ===== verification/ScalarBits.v ===== *)
(** * Soundness of the bitwise and shift transfer functions

    [scalar32_min_max_and] .. [scalar_min_max_arsh] of kernel/bpf/verifier.c,
    in the order [adjust_scalar_min_max_vals] calls them.  The bitwise ones
    copy the unsigned bounds of the result into its signed bounds when both
    operands are non-negative; that is sound only because the views of an
    operand agree about its sign ([reg_sync]). *)

From Stdlib Require Import ZArith Lia Bool Btauto.
From S2P Require Import Prelude Bits Tnum Bounds RegState ScalarOps.
Local Open Scope Z_scope.
Local Open Scope kint_scope.

(** ** The common shape of AND, OR and XOR *)

Definition set_b32 (r : bpf_reg_state) (b : bounds) : bpf_reg_state :=
  set_u32_max_value (set_u32_min_value (set_s32_max_value (set_s32_min_value r (bsmin b)) (bsmax b)) (bumin b)) (bumax b).

Definition set_b64 (r : bpf_reg_state) (b : bounds) : bpf_reg_state :=
  set_umax_value (set_umin_value (set_smax_value (set_smin_value r (bsmin b)) (bsmax b)) (bumin b)) (bumax b).

Lemma b32_set r b : b32 (set_b32 r b) = b.
Proof. destruct b; reflexivity. Qed.

Lemma b64_set r b : b64 (set_b64 r b) = b.
Proof. destruct b; reflexivity. Qed.

Definition bitwise32 (r s : bpf_reg_state) (umin umax : Z) : bpf_reg_state :=
  if tnum_subreg_is_const (var_off s) && tnum_subreg_is_const (var_off r)
  then __mark_reg32_known r (value (tnum_subreg (var_off r)))
  else set_b32 r (bnd_bitwise 32 (b32 r) (b32 s) umin umax).

Definition bitwise64 (r s : bpf_reg_state) (umin umax : Z) : bpf_reg_state :=
  if tnum_is_const (var_off s) && tnum_is_const (var_off r)
  then __mark_reg_known r (value (var_off r))
  else __update_reg_bounds (set_b64 r (bnd_bitwise 64 (b64 r) (b64 s) umin umax)).

Lemma and32_eq r s : scalar32_min_max_and r s =
  bitwise32 r s (u32 (value (tnum_subreg (var_off r)))) (Z.min (u32_max_value r) (u32_max_value s)).
Proof. unfold scalar32_min_max_and, bitwise32, bnd_bitwise; destruct (_ && _); [reflexivity|]; cbn; ifs. Qed.

Lemma or32_eq r s : scalar32_min_max_or r s =
  bitwise32 r s (Z.max (u32_min_value r) (u32_min_value s))
    (u32 (value (tnum_subreg (var_off r)) .| mask (tnum_subreg (var_off r)))).
Proof. unfold scalar32_min_max_or, bitwise32, bnd_bitwise; destruct (_ && _); [reflexivity|]; cbn; ifs. Qed.

Lemma geb_ltb a b : (a >=? 0) && (b >=? 0) = negb ((a <? 0) || (b <? 0)).
Proof. rewrite negb_orb, !Z.geb_leb, !Z.leb_antisym; reflexivity. Qed.

Lemma xor32_eq r s : scalar32_min_max_xor r s =
  bitwise32 r s (u32 (value (tnum_subreg (var_off r))))
    (u32 (value (tnum_subreg (var_off r)) .| mask (tnum_subreg (var_off r)))).
Proof.
  unfold scalar32_min_max_xor, bitwise32, bnd_bitwise; destruct (_ && _); [reflexivity|]; cbn.
  rewrite geb_ltb; destruct (_ || _); reflexivity.
Qed.

Lemma and64_eq r s : scalar_min_max_and r s =
  bitwise64 r s (value (var_off r)) (Z.min (umax_value r) (umax_value s)).
Proof. unfold scalar_min_max_and, bitwise64, bnd_bitwise; destruct (_ && _); [reflexivity|]; cbn; ifs. Qed.

Lemma or64_eq r s : scalar_min_max_or r s =
  bitwise64 r s (Z.max (umin_value r) (umin_value s)) (value (var_off r) .| mask (var_off r)).
Proof. unfold scalar_min_max_or, bitwise64, bnd_bitwise; destruct (_ && _); [reflexivity|]; cbn; ifs. Qed.

Lemma xor64_eq r s : scalar_min_max_xor r s =
  bitwise64 r s (value (var_off r)) (value (var_off r) .| mask (var_off r)).
Proof.
  unfold scalar_min_max_xor, bitwise64, bnd_bitwise; destruct (_ && _); [reflexivity|]; cbn.
  rewrite geb_ltb; destruct (_ || _); reflexivity.
Qed.

(** Marking an already known low half changes nothing in the tnum. *)
Lemma const_subreg_id t : tnum_ok t -> tnum_subreg_is_const t = true ->
  tnum_const_subreg t (u32 (value (tnum_subreg t))) = t.
Proof.
  intros Ht; unfold tnum_subreg_is_const; rewrite tnum_subreg_alt; cbn [mask value]; rewrite Z.eqb_eq; intros E.
  rewrite u32_u32; pose proof Ht as (Hv & Hm & _).
  assert (V : value (tnum_const_subreg t (u32 (value t))) = value t) by (apply u64_halves; exact Hv).
  assert (M : mask (tnum_const_subreg t (u32 (value t))) = mask t).
  { apply (bits_inj_w 64); [lia|unfold tnum_const_subreg, tnum_or; cbn [mask]; uin_solve|exact Hm|].
    intros i Hi; change (mask (tnum_const_subreg t (u32 (value t))))
      with ((mask (tnum_clear_subreg t) .| 0) .& unot 64 (value (tnum_const_subreg t (u32 (value t))))).
    rewrite V, Z.lor_0_r, Z.land_spec, tnum_clear_subreg_mask, testbit_unot_low by lia.
    pose proof (tnum_ok_bit t i Ht) as D; assert (L : i < 32 -> Z.testbit (mask t) i = false).
    { intros; rewrite <- (testbit_uwrap_low 32) by lia; rewrite E; apply Z.testbit_0_l. }
    destruct (Z.leb_spec 32 i); [|rewrite L by lia; reflexivity].
    destruct (Z.testbit (value t) i), (Z.testbit (mask t) i); try reflexivity; discriminate. }
  destruct t as [v m], (tnum_const_subreg _ _) as [v' m']; cbn in V, M; congruence.
Qed.

Lemma subreg_const_value t z : tnum_mem t z -> tnum_subreg_is_const t = true -> value (tnum_subreg t) = u32 z.
Proof. intros Hz H; symmetry; apply tnum_is_const_mem; [exact H|apply tnum_subreg_mem; exact Hz]. Qed.

Lemma subreg_split t z : tnum_mem t z -> Z.ldiff (u32 z) (u32 (mask t)) = u32 (value t).
Proof. intros H; apply tnum_subreg_mem in H; rewrite tnum_subreg_alt in H; apply H. Qed.

Lemma bitwise32_frame r s l h : tnum_ok (var_off r) ->
  var_off (bitwise32 r s l h) = var_off r /\ b64 (bitwise32 r s l h) = b64 r.
Proof.
  intros Ht; unfold bitwise32; destruct (tnum_subreg_is_const (var_off s) && _) eqn:K; [|split; reflexivity].
  apply andb_true_iff in K; destruct K as [_ K]; split; [apply const_subreg_id; assumption|reflexivity].
Qed.

Lemma bitwise32_in r s z l h : tnum_mem (var_off r) z -> uin 32 l -> uin 32 h -> l <= u32 z <= h ->
  (0 <= s32_min_value r -> 0 <= s32_min_value s -> h < 2 ^ 31) ->
  bnd_ok 32 (b32 (bitwise32 r s l h)) /\ bnd_in 32 (b32 (bitwise32 r s l h)) z.
Proof.
  intros Hz Hl Hh B S; unfold bitwise32; destruct (tnum_subreg_is_const (var_off s) && _) eqn:K.
  - apply andb_true_iff in K; destruct K as [_ K]; split; [apply (bnd_known_ok 32 ltac:(lia))|].
    apply (bnd_known_in 32 ltac:(lia)); rewrite (subreg_const_value _ z) by assumption; symmetry; apply u32_u32.
  - rewrite b32_set; split; [apply bnd_bitwise_ok; trivial; lia|apply bnd_bitwise_in; trivial; lia].
Qed.

Lemma bitwise64_sound r s z l h : tnum_ok (var_off r) -> tnum_mem (var_off r) z ->
  bnd_ok 32 (b32 r) -> bnd_in 32 (b32 r) z -> uin 64 l -> uin 64 h -> l <= z <= h ->
  (0 <= smin_value r -> 0 <= smin_value s -> h < 2 ^ 63) ->
  reg_ok (bitwise64 r s l h) /\ reg_mem (bitwise64 r s l h) z.
Proof.
  intros Ht Hz Ho Hi Hl Hh B S; assert (Hu : uin 64 z) by apply Hz.
  unfold bitwise64; destruct (_ && _) eqn:K.
  - apply andb_true_iff in K; destruct K as [_ K].
    rewrite <- (tnum_is_const_mem _ z K Hz); destruct (mark_known_inv r z Hu) as (? & ? & _); auto.
  - set (r3 := set_b64 _ _); assert (R : reg_ok r3 /\ reg_mem r3 z).
    { eapply reg_parts; [reflexivity|apply b64_set|reflexivity|trivial..].
      - apply bnd_bitwise_ok; trivial; lia.
      - apply bnd_bitwise_in; trivial; [lia|]; rewrite (uwrap_id 64 z) by exact Hu; exact B. }
    destruct R as [R1 R2]; split; [apply update_ok|apply update_mem]; assumption.
Qed.

(** One 32-bit step followed by one 64-bit step, whose bounds are taken from
    the register the first step leaves. *)
Lemma bitwise_sound r s z l32 h32 (l64 h64 : bpf_reg_state -> Z) :
  (forall r r', var_off r' = var_off r -> b64 r' = b64 r -> l64 r' = l64 r /\ h64 r' = h64 r) ->
  tnum_ok (var_off r) -> tnum_mem (var_off r) z ->
  uin 32 l32 -> uin 32 h32 -> uin 64 (l64 r) -> uin 64 (h64 r) ->
  l32 <= u32 z <= h32 -> l64 r <= z <= h64 r ->
  (0 <= s32_min_value r -> 0 <= s32_min_value s -> h32 < 2 ^ 31) ->
  (0 <= smin_value r -> 0 <= smin_value s -> h64 r < 2 ^ 63) ->
  let r2 := bitwise32 r s l32 h32 in
  reg_ok (bitwise64 r2 s (l64 r2) (h64 r2)) /\ reg_mem (bitwise64 r2 s (l64 r2) (h64 r2)) z.
Proof.
  intros F Ht Hz Hl Hh Hl' Hh' B32 B64 S32 S64; cbn zeta.
  destruct (bitwise32_frame r s l32 h32 Ht) as [E1 E2]; destruct (F _ _ E1 E2) as [-> ->].
  destruct (bitwise32_in r s z l32 h32) as [I1 I2]; trivial.
  apply bitwise64_sound; trivial; try (rewrite E1; assumption).
  replace (smin_value (bitwise32 r s l32 h32)) with (smin_value r) by (symmetry; exact (f_equal bsmin E2)).
  exact S64.
Qed.

Lemma xor_mask_false a b i : 0 <= i < 64 -> Z.testbit (mask a) i = false -> Z.testbit (mask b) i = false ->
  Z.testbit (mask (tnum_xor a b)) i = false.
Proof. intros Hi Ha Hb; unfold tnum_xor; cbn [mask]; rewrite Z.lor_spec, Ha, Hb; reflexivity. Qed.

(** The upper bound [value | mask] of a result stays below the sign bit when
    the result does and its sign is known. *)
Lemma top_below32 t z : tnum_ok t -> tnum_mem t z -> Z.testbit (mask t) 31 = false -> u32 z < 2 ^ 31 ->
  u32 (value (tnum_subreg t) .| mask (tnum_subreg t)) < 2 ^ 31.
Proof.
  intros Ht Hz Hm Hb; rewrite tnum_subreg_alt; cbn [value mask]; rewrite uwrap_id by uin_solve.
  apply (below_lor_mask 32 ltac:(lia) _ _ (u32 z)); try uin_solve.
  - apply subreg_split; exact Hz.
  - rewrite testbit_uwrap_low by lia; exact Hm.
  - pose proof (uwrap_range 32 z ltac:(lia)) as [? _]; lia.
Qed.

Lemma top_below64 t z : tnum_ok t -> tnum_mem t z -> Z.testbit (mask t) 63 = false -> z < 2 ^ 63 ->
  value t .| mask t < 2 ^ 63.
Proof.
  intros (Hv & Hm & _) [Hu Hz] Hb H; apply (below_lor_mask 64 ltac:(lia) _ _ z); trivial.
  unfold uin in Hu; lia.
Qed.

Lemma tnum_bounds t z : tnum_ok t -> tnum_mem t z -> value t <= z <= value t .| mask t.
Proof.
  intros (Hv & Hm & _) [Hu Hz]; split; [apply (known_umin 64 _ (mask t))|apply (known_umax 64)]; trivial.
Qed.

Lemma subreg_bounds t z : tnum_ok t -> tnum_mem t z ->
  u32 (value (tnum_subreg t)) <= u32 z <= u32 (value (tnum_subreg t) .| mask (tnum_subreg t)).
Proof.
  intros Ht Hz; pose proof (tnum_bounds _ _ (tnum_subreg_ok _ Ht) (tnum_subreg_mem _ _ Hz)) as H.
  rewrite tnum_subreg_alt in *; cbn [value mask] in *.
  rewrite u32_u32, (uwrap_id 32 (_ .| _)) by uin_solve; exact H.
Qed.

Section Bitwise.
Variables (d s : bpf_reg_state) (x y : Z).
Hypothesis Hd : reg_inv d x.
Hypothesis Hs : reg_inv s y.

(** Two non-negative operands lie below the sign bit. *)
Lemma operands_below : (0 <= s32_min_value d -> u32 x < 2 ^ 31) /\ (0 <= s32_min_value s -> u32 y < 2 ^ 31) /\
  (0 <= smin_value d -> x < 2 ^ 63) /\ (0 <= smin_value s -> y < 2 ^ 63).
Proof using Hd Hs.
  destruct Hd as (_ & ((Hx & _) & I1 & I2) & _); destruct Hs as (_ & ((Hy & _) & I3 & I4) & _).
  pose proof (nonneg_below 32 ltac:(lia) _ _ I2); pose proof (nonneg_below 32 ltac:(lia) _ _ I4).
  pose proof (nonneg_below 64 ltac:(lia) _ _ I1) as N1; pose proof (nonneg_below 64 ltac:(lia) _ _ I3) as N2.
  rewrite uwrap_id in N1, N2 by assumption; auto.
Qed.

Lemma and_sound :
  let r := set_var_off d (tnum_and (var_off d) (var_off s)) in
  let r := scalar_min_max_and (scalar32_min_max_and r s) s in
  reg_ok r /\ reg_mem r (x .& y).
Proof using Hd Hs.
  destruct Hd as ((T1 & (_ & _ & U1 & U2) & (_ & _ & U3 & U4)) & (M1 & (_ & I1) & (_ & I2)) & (S1 & S2)).
  destruct Hs as ((T2 & (_ & _ & V1 & V2) & (_ & _ & V3 & V4)) & (M2 & (_ & J1) & (_ & J2)) & (S3 & S4)).
  cbn zeta; set (r := set_var_off d _); rewrite and64_eq, and32_eq.
  assert (Tr : tnum_ok (var_off r)) by (apply tnum_and_ok; assumption).
  assert (Mr : tnum_mem (var_off r) (x .& y)) by (apply tnum_and_mem; assumption).
  assert (Hx : uin 64 x) by apply M1; assert (Hy : uin 64 y) by apply M2.
  apply (bitwise_sound r s _ _ _ (fun r => value (var_off r)) (fun r => Z.min (umax_value r) (umax_value s))); trivial.
  - intros r1 r2 -> E; apply (f_equal bumax) in E; cbn in E; rewrite E; auto.
  - uin_solve.
  - unfold uin, b32 in *; cbn in *; lia.
  - apply Tr.
  - unfold uin, b64 in *; cbn in *; lia.
  - split; [apply subreg_bounds; assumption|]; rewrite (uwrap_land 32 ltac:(lia)).
    pose proof (uwrap_range 32 x ltac:(lia)) as [? _]; pose proof (uwrap_range 32 y ltac:(lia)) as [? _].
    pose proof (land_le_l (u32 x) (u32 y)); pose proof (land_le_r (u32 x) (u32 y)); cbn in *; lia.
  - split; [apply tnum_bounds; assumption|]; rewrite uwrap_id in I1, J1 by assumption; unfold uin in Hx, Hy.
    pose proof (land_le_l x y); pose proof (land_le_r x y); cbn in *; lia.
  - intros A _; destruct (S2 A) as [? _]; cbn in *; lia.
  - intros A _; destruct (S1 A) as [? _]; cbn in *; lia.
Qed.

Lemma or_sound :
  let r := set_var_off d (tnum_or (var_off d) (var_off s)) in
  let r := scalar_min_max_or (scalar32_min_max_or r s) s in
  reg_ok r /\ reg_mem r (x .| y).
Proof using Hd Hs.
  pose proof operands_below as (N1 & N2 & N3 & N4).
  destruct Hd as ((T1 & (_ & _ & U1 & U2) & (_ & _ & U3 & U4)) & (M1 & (_ & I1) & (_ & I2)) & (S1 & S2)).
  destruct Hs as ((T2 & (_ & _ & V1 & V2) & (_ & _ & V3 & V4)) & (M2 & (_ & J1) & (_ & J2)) & (S3 & S4)).
  cbn zeta; set (r := set_var_off d _); rewrite or64_eq, or32_eq.
  assert (Tr : tnum_ok (var_off r)) by (apply tnum_or_ok; assumption).
  assert (Mr : tnum_mem (var_off r) (x .| y)) by (apply tnum_or_mem; assumption).
  assert (Hx : uin 64 x) by apply M1; assert (Hy : uin 64 y) by apply M2.
  apply (bitwise_sound r s _ _ _ (fun r => Z.max (umin_value r) (umin_value s))
    (fun r => value (var_off r) .| mask (var_off r))); trivial.
  - intros r1 r2 -> E; apply (f_equal bumin) in E; cbn in E; rewrite E; auto.
  - unfold uin, b32 in *; cbn in *; lia.
  - uin_solve.
  - unfold uin, b64 in *; cbn in *; lia.
  - destruct Tr as (? & ? & _); uin_solve.
  - split; [|apply subreg_bounds; assumption]; rewrite (uwrap_lor 32 ltac:(lia)).
    pose proof (uwrap_range 32 x ltac:(lia)) as [? _]; pose proof (uwrap_range 32 y ltac:(lia)) as [? _].
    pose proof (lor_ge (u32 x) (u32 y)); cbn in *; lia.
  - split; [|apply tnum_bounds; assumption]; rewrite uwrap_id in I1, J1 by assumption; unfold uin in Hx, Hy.
    pose proof (lor_ge x y); cbn in *; lia.
  - intros A B; apply (top_below32 _ (x .| y)); trivial.
    + destruct (S2 A), (S4 B); apply tnum_or_mask_false; trivial; lia.
    + rewrite (uwrap_lor 32 ltac:(lia)); assert (H : uin 31 (u32 x .| u32 y)); [|apply H].
      apply uin_lor; [lia|..]; split; auto; apply uwrap_range; lia.
  - intros A B; apply (top_below64 _ (x .| y)); trivial.
    + destruct (S1 A), (S3 B); apply tnum_or_mask_false; trivial; lia.
    + assert (H : uin 63 (x .| y)); [|apply H]; apply uin_lor; [lia|..]; split; auto; first [apply Hx|apply Hy].
Qed.

Lemma xor_sound :
  let r := set_var_off d (tnum_xor (var_off d) (var_off s)) in
  let r := scalar_min_max_xor (scalar32_min_max_xor r s) s in
  reg_ok r /\ reg_mem r (x .^ y).
Proof using Hd Hs.
  pose proof operands_below as (N1 & N2 & N3 & N4).
  destruct Hd as ((T1 & _ & _) & (M1 & _ & _) & (S1 & S2)); destruct Hs as ((T2 & _ & _) & (M2 & _ & _) & (S3 & S4)).
  cbn zeta; set (r := set_var_off d _); rewrite xor64_eq, xor32_eq.
  assert (Tr : tnum_ok (var_off r)) by (apply tnum_xor_ok; assumption).
  assert (Mr : tnum_mem (var_off r) (x .^ y)) by (apply tnum_xor_mem; assumption).
  assert (Hx : uin 64 x) by apply M1; assert (Hy : uin 64 y) by apply M2.
  apply (bitwise_sound r s _ _ _ (fun r => value (var_off r)) (fun r => value (var_off r) .| mask (var_off r))); trivial.
  - intros r1 r2 -> _; auto.
  - uin_solve.
  - uin_solve.
  - apply Tr.
  - destruct Tr as (? & ? & _); uin_solve.
  - apply subreg_bounds; assumption.
  - apply tnum_bounds; assumption.
  - intros A B; apply (top_below32 _ (x .^ y)); trivial.
    + destruct (S2 A), (S4 B); apply xor_mask_false; trivial; lia.
    + rewrite (uwrap_lxor 32 ltac:(lia)); assert (H : uin 31 (u32 x .^ u32 y)); [|apply H].
      apply uin_lxor; [lia|..]; split; auto; apply uwrap_range; lia.
  - intros A B; apply (top_below64 _ (x .^ y)); trivial.
    + destruct (S1 A), (S3 B); apply xor_mask_false; trivial; lia.
    + assert (H : uin 63 (x .^ y)); [|apply H]; apply uin_lxor; [lia|..]; split; auto; first [apply Hx|apply Hy].
Qed.
End Bitwise.

(** ** Shifts by a known amount *)

Lemma update32_sound r x : reg_ok r /\ reg_mem r x -> reg_ok (__update_reg32_bounds r) /\ reg_mem (__update_reg32_bounds r) x.
Proof.
  intros [Hr Hx]; destruct (update_ok r Hr) as (U1 & _ & U3); destruct (update_mem r x Hr Hx) as (V1 & _ & V3).
  destruct Hr as (_ & Hr & _); destruct Hx as (_ & Hx & _); split; split3; assumption.
Qed.

Lemma update_sound r x : reg_ok r /\ reg_mem r x -> reg_ok (__update_reg_bounds r) /\ reg_mem (__update_reg_bounds r) x.
Proof. intros [Hr Hx]; split; [apply update_ok|apply update_mem]; assumption. Qed.

Lemma s64_shl32 x : s64 (Z.shiftl x 32) = Z.shiftl (s32 x) 32.
Proof.
  rewrite !Z.shiftl_mul_pow2 by lia; pose proof (swrap_range 32 x ltac:(lia)) as Hr; unfold sin in Hr.
  rewrite <- (swrap_id 64 (s32 x * 2 ^ 32)) by (unfold sin; lia); apply swrap_weq; [lia|].
  pose proof (weq_swrap 32 32 x ltac:(lia)) as E; unfold weq, uwrap in *.
  change (2 ^ 64) with (2 ^ 32 * 2 ^ 32); rewrite !Z.mul_mod_distr_r by lia; rewrite E; reflexivity.
Qed.

Lemma ushl_1 n : 0 <= n < 64 -> ushl 64 1 n = 2 ^ n.
Proof.
  intros Hn; unfold ushl; rewrite Z.shiftl_1_l; apply uwrap_id; split; [apply Z.pow_nonneg; lia|].
  apply Z.pow_lt_mono_r; lia.
Qed.

Lemma lsh32_in r x n : 0 <= n -> bnd_ok 32 (b32 r) -> bnd_in 32 (b32 r) x ->
  bnd_ok 32 (b32 (__scalar32_min_max_lsh r n n)) /\ bnd_in 32 (b32 (__scalar32_min_max_lsh r n n)) (Z.shiftl x n).
Proof.
  intros Hn (_ & _ & U1 & U2) [_ Hx]; pose proof (bnd_top_ok 32 ltac:(lia)) as T.
  pose proof (bnd_top_in 32 ltac:(lia) (Z.shiftl x n)) as T'; unfold __scalar32_min_max_lsh; cbn zeta.
  destruct (Z.gtb_spec n 31); [split; [exact T|exact T']|]; cbn [orb].
  destruct (Z.gtb_spec (u32_max_value (set_s32_max_value (set_s32_min_value r S32_MIN) S32_MAX)) (ushl 64 1 (31 - n))) as [|G];
    [split; [exact T|exact T']|].
  rewrite ushl_1 in G by lia; destruct T as (T1 & T2 & _ & _), T' as [T3 _]; split.
  - split; [exact T1|]; split; [exact T2|]; split; apply uin_ushl; lia.
  - split; [exact T3|]; apply lsh_range; trivial; lia.
Qed.

Definition lsh_signed (n b top : Z) : Z :=
  if (n =? 32) && (n =? 32) && (b >=? 0) then s64 (Z.shiftl b 32) else top.

Lemma lsh_signed_cases n b top : sin 32 b -> lsh_signed n b top = top \/ (n = 32 /\ lsh_signed n b top = Z.shiftl b 32).
Proof.
  intros Hb; unfold lsh_signed; destruct (Z.eqb_spec n 32); [|left; reflexivity]; destruct (_ && _); [right|left; reflexivity].
  rewrite s64_shl32, swrap_id by (trivial; lia); split; [assumption|reflexivity].
Qed.

Lemma lsh64_b64 r n : b64 (__scalar64_min_max_lsh r n n) =
  let u := if umax_value r >? ushl 64 1 (63 - n) then (0, U64_MAX) else (ushl 64 (umin_value r) n, ushl 64 (umax_value r) n) in
  mk_bounds (lsh_signed n (s32_min_value r) S64_MIN) (lsh_signed n (s32_max_value r) S64_MAX) (fst u) (snd u).
Proof.
  unfold __scalar64_min_max_lsh, lsh_signed, b64; cbn zeta.
  destruct (n =? 32); cbn [andb]; [|cbn; destruct (_ >? _); reflexivity].
  destruct (s32_max_value r >=? 0); cbn; destruct (s32_min_value r >=? 0); cbn; destruct (_ >? _); reflexivity.
Qed.

Lemma lsh64_frame r m n : b32 (__scalar64_min_max_lsh r m n) = b32 r /\ var_off (__scalar64_min_max_lsh r m n) = var_off r.
Proof.
  unfold __scalar64_min_max_lsh; cbn zeta; destruct (_ && _); cbn; destruct (_ && _); cbn; destruct (_ >? _); split; reflexivity.
Qed.

Lemma lsh32_frame r m n : b64 (__scalar32_min_max_lsh r m n) = b64 r /\ var_off (__scalar32_min_max_lsh r m n) = var_off r.
Proof. unfold __scalar32_min_max_lsh; cbn zeta; destruct (_ || _); split; reflexivity. Qed.

Lemma shl32_sin b : sin 32 b -> sin 64 (Z.shiftl b 32).
Proof. unfold sin; intros; rewrite Z.shiftl_mul_pow2 by lia; lia. Qed.

(** The signed bounds of the 64-bit shift are refined only when the amount is
    exactly 32 and the 32-bit bounds are non-negative. *)
Lemma lsh_signed_in n x lo hi : sin 32 lo -> sin 32 hi -> lo <= s32 x <= hi ->
  sin 64 (lsh_signed n lo S64_MIN) /\ sin 64 (lsh_signed n hi S64_MAX) /\
  lsh_signed n lo S64_MIN <= s64 (Z.shiftl x n) <= lsh_signed n hi S64_MAX.
Proof.
  intros Hl Hh Hx; pose proof (shl32_sin _ Hl); pose proof (shl32_sin _ Hh).
  pose proof (swrap_range 64 (Z.shiftl x n) ltac:(lia)) as Hr.
  assert (M : n = 32 -> s64 (Z.shiftl x n) = s32 x * 2 ^ 32)
    by (intros ->; rewrite s64_shl32, Z.shiftl_mul_pow2 by lia; reflexivity).
  set (z := s64 (Z.shiftl x n)) in *; clearbody z; rewrite !Z.shiftl_mul_pow2 in * by lia; unfold sin in *.
  destruct (lsh_signed_cases n lo S64_MIN Hl) as [->|[E1 ->]]; destruct (lsh_signed_cases n hi S64_MAX Hh) as [->|[E2 ->]];
    rewrite ?Z.shiftl_mul_pow2 by lia; try (specialize (M ltac:(assumption))); split_and; lia.
Qed.

Lemma lsh64_in r x n : 0 <= n < 64 -> bnd_ok 64 (b64 r) -> bnd_ok 32 (b32 r) -> bnd_in 64 (b64 r) x -> bnd_in 32 (b32 r) x ->
  bnd_ok 64 (b64 (__scalar64_min_max_lsh r n n)) /\ bnd_in 64 (b64 (__scalar64_min_max_lsh r n n)) (Z.shiftl x n).
Proof.
  intros Hn (_ & _ & U1 & U2) (W1 & W2 & _ & _) [_ Hx] [Hx32 _]; rewrite lsh64_b64.
  pose proof (bnd_top_ok 64 ltac:(lia)) as (_ & _ & T3 & T4); pose proof (bnd_top_in 64 ltac:(lia) (Z.shiftl x n)) as [_ T7].
  destruct (lsh_signed_in n x _ _ W1 W2 Hx32) as (L1 & L2 & L3); cbn zeta.
  destruct (Z.gtb_spec (umax_value r) (ushl 64 1 (63 - n))) as [G|G].
  - split; [unfold bnd_ok; split_and; trivial|split; [exact L3|exact T7]].
  - rewrite ushl_1 in G by lia; split; [unfold bnd_ok; split_and; trivial; apply uin_ushl; lia|].
    split; [exact L3|]; apply lsh_range; trivial; lia.
Qed.

Section Shift.
Variables (d s : bpf_reg_state) (x n : Z).
Hypothesis Hd : reg_inv d x.

(** The 64-bit shifts need the amount known in the 64-bit bounds. *)
Section Wide.
Hypothesis Hn : 0 <= n < 64.
Hypothesis Hmin : umin_value s = n.
Hypothesis Hmax : umax_value s = n.

Lemma lsh_sound : let r := scalar_min_max_lsh d s in reg_ok r /\ reg_mem r (ushl 64 x n).
Proof using Hd Hn Hmin Hmax.
  destruct Hd as ((T & O64 & O32) & (M & I64 & I32) & _); cbn zeta; unfold scalar_min_max_lsh; cbn zeta.
  rewrite Hmin, Hmax, (uwrap_id 8 n) by (unfold uin; lia).
  destruct (lsh64_in d x n) as [A1 A2]; trivial.
  destruct (lsh64_frame d n n) as [F1 F2]; set (d1 := __scalar64_min_max_lsh d n n) in *.
  destruct (lsh32_in d1 x n) as [B1 B2]; trivial; try lia; try (rewrite F1; assumption).
  destruct (lsh32_frame d1 n n) as [F3 F4]; set (d2 := __scalar32_min_max_lsh d1 n n) in *.
  apply update_sound; eapply reg_parts; [cbn; rewrite F4, F2; reflexivity|exact F3|reflexivity|..].
  - apply uin_ushl; lia.
  - apply tnum_lshift_ok; trivial; lia.
  - exact A1.
  - exact B1.
  - apply tnum_lshift_mem; trivial; lia.
  - eapply bnd_in_weq; [lia|apply weq_u64; lia|exact A2].
  - eapply bnd_in_weq; [lia|apply weq_u64; lia|exact B2].
Qed.

Lemma rsh_sound : let r := scalar_min_max_rsh d s in reg_ok r /\ reg_mem r (ushr x n).
Proof using Hd Hn Hmin Hmax.
  destruct Hd as ((T & (_ & _ & U1 & U2) & _) & (M & (_ & I64) & _) & _); cbn zeta; unfold scalar_min_max_rsh; cbn zeta.
  rewrite Hmin, Hmax, (uwrap_id 8 n) by (unfold uin; lia); assert (Hx : uin 64 x) by apply M.
  pose proof (bnd_top_ok 64 ltac:(lia)) as (T1 & T2 & _); pose proof (bnd_top_in 64 ltac:(lia) (ushr x n)) as [T3 _].
  apply update_sound; eapply reg_parts with (e64 := mk_bounds S64_MIN S64_MAX (ushr (umin_value d) n) (ushr (umax_value d) n))
      (e32 := bnd_top 32); [reflexivity|reflexivity|reflexivity|..].
  - apply uin_ushr; trivial; lia.
  - apply tnum_rshift_ok; trivial; lia.
  - split; [exact T1|]; split; [exact T2|]; split; apply uin_ushr; trivial; lia.
  - apply (bnd_top_ok 32); lia.
  - apply tnum_rshift_mem; trivial; lia.
  - split; [exact T3|]; rewrite uwrap_id by (apply uin_ushr; trivial; lia).
    rewrite uwrap_id in I64 by exact Hx; apply (rsh_range 64); trivial; lia.
  - apply (bnd_top_in 32); lia.
Qed.

Lemma arsh_sound : let r := scalar_min_max_arsh d s in reg_ok r /\ reg_mem r (u64 (Z.shiftr (s64 x) n)).
Proof using Hd Hn Hmin.
  destruct Hd as ((T & (S1 & S2 & _) & _) & (M & (I64 & _) & _) & _); cbn zeta; unfold scalar_min_max_arsh; cbn zeta.
  rewrite Hmin, (uwrap_id 8 n) by (unfold uin; lia).
  pose proof (bnd_top_ok 64 ltac:(lia)) as (_ & _ & T1 & T2).
  pose proof (bnd_top_in 64 ltac:(lia) (u64 (Z.shiftr (s64 x) n))) as [_ T3].
  apply update_sound; eapply reg_parts with (e64 := mk_bounds (Z.shiftr (smin_value d) n) (Z.shiftr (smax_value d) n) 0 U64_MAX)
      (e32 := bnd_top 32); [reflexivity|reflexivity|reflexivity|..].
  - eauto with kint.
  - apply tnum_arshift_ok; trivial; lia.
  - split; [apply shiftr_sin; trivial; lia|]; split; [apply shiftr_sin; trivial; lia|]; split; [exact T1|exact T2].
  - apply (bnd_top_ok 32); lia.
  - apply tnum_arshift_mem; trivial; lia.
  - split; [|exact T3]; cbn; rewrite swrap_uwrap, swrap_id by (try apply (shiftr_sin 64); try apply swrap_range; lia).
    cbn in I64; split; apply shiftr_mono; lia.
  - apply (bnd_top_in 32); lia.
Qed.
End Wide.

(** The 32-bit shifts need it known in the 32-bit bounds; they forget the
    upper half, which zero extension clears. *)
Section Narrow.
Hypothesis Hn : 0 <= n < 32.
Hypothesis Hmin : u32_min_value s = n.
Hypothesis Hmax : u32_max_value s = n.

Lemma lsh32_sound : let r := scalar32_min_max_lsh d s in reg_ok r /\ reg_mem r (ushl 32 (u32 x) n).
Proof using Hd Hn Hmin Hmax.
  destruct Hd as ((T & _ & O32) & (M & _ & I32) & _); cbn zeta; unfold scalar32_min_max_lsh; cbn zeta.
  rewrite Hmin, Hmax, (uwrap_id 8 n) by (unfold uin; lia); destruct (lsh32_in d x n) as [B1 B2]; trivial; try lia.
  assert (E : ushl 32 (u32 x) n = u32 (ushl 64 (u32 x) n)) by (unfold ushl; rewrite uwrap_uwrap by lia; reflexivity).
  apply update32_sound; eapply reg_parts with (e64 := bnd_top 64); try reflexivity;
    try apply (bnd_top_ok 64); try apply (bnd_top_in 64); try lia; trivial.
  - apply (uin_le 32); [lia|]; apply uin_ushl; lia.
  - apply tnum_subreg_ok, tnum_lshift_ok, tnum_subreg_ok; trivial; lia.
  - rewrite E; apply tnum_subreg_mem, tnum_lshift_mem, tnum_subreg_mem; trivial; lia.
  - eapply bnd_in_weq; [lia| |exact B2]; unfold weq, ushl; rewrite u32_u32, !Z.shiftl_mul_pow2 by lia.
    apply weq_mul; [lia| |reflexivity]; symmetry; apply u32_u32.
Qed.

Lemma rsh32_sound : let r := scalar32_min_max_rsh d s in reg_ok r /\ reg_mem r (ushr (u32 x) n).
Proof using Hd Hn Hmin Hmax.
  destruct Hd as ((T & _ & (_ & _ & U1 & U2)) & (M & _ & (_ & I32)) & _); cbn zeta; unfold scalar32_min_max_rsh; cbn zeta.
  rewrite Hmin, Hmax, (uwrap_id 8 n) by (unfold uin; lia).
  pose proof (bnd_top_ok 32 ltac:(lia)) as (T1 & T2 & _); pose proof (bnd_top_in 32 ltac:(lia) (ushr (u32 x) n)) as [T3 _].
  assert (Hx : uin 32 (ushr (u32 x) n)) by (apply uin_ushr; [lia..|apply uwrap_range; lia]).
  apply update32_sound; eapply reg_parts with (e64 := bnd_top 64)
    (e32 := mk_bounds S32_MIN S32_MAX (ushr (u32_min_value d) n) (ushr (u32_max_value d) n)); try reflexivity;
    try apply (bnd_top_ok 64); try apply (bnd_top_in 64); try lia.
  - apply (uin_le 32); [lia|exact Hx].
  - apply tnum_rshift_ok, tnum_subreg_ok; trivial; lia.
  - split; [exact T1|]; split; [exact T2|]; split; apply uin_ushr; trivial; lia.
  - apply tnum_rshift_mem; [lia|apply tnum_subreg_ok|apply tnum_subreg_mem]; assumption.
  - split; [exact T3|]; rewrite uwrap_id by exact Hx; apply (rsh_range 32); trivial; lia.
Qed.

Lemma arsh32_sound : let r := scalar32_min_max_arsh d s in reg_ok r /\ reg_mem r (u32 (Z.shiftr (s32 x) n)).
Proof using Hd Hn Hmin.
  destruct Hd as ((T & _ & (S1 & S2 & _)) & (M & _ & (I32 & _)) & _); cbn zeta; unfold scalar32_min_max_arsh; cbn zeta.
  rewrite Hmin, (uwrap_id 8 n), !swrap_uwrap by (unfold uin; lia).
  pose proof (bnd_top_ok 32 ltac:(lia)) as (_ & _ & T1 & T2).
  pose proof (bnd_top_in 32 ltac:(lia) (u32 (Z.shiftr (s32 x) n))) as [_ T3].
  pose proof (shiftr_sin 32 ltac:(lia) _ n ltac:(lia) S1) as W1; pose proof (shiftr_sin 32 ltac:(lia) _ n ltac:(lia) S2) as W2.
  rewrite !swrap_id by (trivial; lia).
  apply update32_sound; eapply reg_parts with (e64 := bnd_top 64)
    (e32 := mk_bounds (Z.shiftr (s32_min_value d) n) (Z.shiftr (s32_max_value d) n) 0 U32_MAX); try reflexivity;
    try apply (bnd_top_ok 64); try apply (bnd_top_in 64); try lia.
  - apply uin_u32.
  - apply tnum_arshift32_ok, tnum_subreg_ok; trivial; lia.
  - split; [exact W1|]; split; [exact W2|]; split; [exact T1|exact T2].
  - rewrite <- (swrap_uwrap 32 32 x) by lia; apply tnum_arshift32_mem, tnum_subreg_mem; trivial; lia.
  - split; [|exact T3]; rewrite swrap_uwrap, swrap_id by (try apply (shiftr_sin 32); try apply swrap_range; lia).
    cbn in I32; split; apply shiftr_mono; lia.
Qed.
End Narrow.
End Shift.

(** ** The transfer functions keep the register type *)

Create Rewrite HintDb reg_type.

Ltac type_frame f := intros; unfold f; cbn zeta; ifs.

Lemma type_s32_add d s : type_ (scalar32_min_max_add d s) = type_ d.
Proof. type_frame scalar32_min_max_add. Qed.
Lemma type_s64_add d s : type_ (scalar_min_max_add d s) = type_ d.
Proof. type_frame scalar_min_max_add. Qed.
Lemma type_s32_sub d s : type_ (scalar32_min_max_sub d s) = type_ d.
Proof. type_frame scalar32_min_max_sub. Qed.
Lemma type_s64_sub d s : type_ (scalar_min_max_sub d s) = type_ d.
Proof. type_frame scalar_min_max_sub. Qed.
Lemma type_s32_mul d s : type_ (scalar32_min_max_mul d s) = type_ d.
Proof. type_frame scalar32_min_max_mul. Qed.
Lemma type_s64_mul d s : type_ (scalar_min_max_mul d s) = type_ d.
Proof. type_frame scalar_min_max_mul. Qed.
Lemma type_s32_and d s : type_ (scalar32_min_max_and d s) = type_ d.
Proof. type_frame scalar32_min_max_and. Qed.
Lemma type_s64_and d s : type_ (scalar_min_max_and d s) = type_ d.
Proof. type_frame scalar_min_max_and. Qed.
Lemma type_s32_or d s : type_ (scalar32_min_max_or d s) = type_ d.
Proof. type_frame scalar32_min_max_or. Qed.
Lemma type_s64_or d s : type_ (scalar_min_max_or d s) = type_ d.
Proof. type_frame scalar_min_max_or. Qed.
Lemma type_s32_xor d s : type_ (scalar32_min_max_xor d s) = type_ d.
Proof. type_frame scalar32_min_max_xor. Qed.
Lemma type_s64_xor d s : type_ (scalar_min_max_xor d s) = type_ d.
Proof. type_frame scalar_min_max_xor. Qed.
Lemma type_s32_rsh d s : type_ (scalar32_min_max_rsh d s) = type_ d.
Proof. type_frame scalar32_min_max_rsh. Qed.
Lemma type_s64_rsh d s : type_ (scalar_min_max_rsh d s) = type_ d.
Proof. type_frame scalar_min_max_rsh. Qed.
Lemma type_s32_arsh d s : type_ (scalar32_min_max_arsh d s) = type_ d.
Proof. type_frame scalar32_min_max_arsh. Qed.
Lemma type_s64_arsh d s : type_ (scalar_min_max_arsh d s) = type_ d.
Proof. type_frame scalar_min_max_arsh. Qed.
Lemma type_lsh32 d m n : type_ (__scalar32_min_max_lsh d m n) = type_ d.
Proof. type_frame __scalar32_min_max_lsh. Qed.
Lemma type_lsh64 d m n : type_ (__scalar64_min_max_lsh d m n) = type_ d.
Proof. type_frame __scalar64_min_max_lsh. Qed.
Lemma type_s32_lsh d s : type_ (scalar32_min_max_lsh d s) = type_ d.
Proof. unfold scalar32_min_max_lsh; cbn; apply type_lsh32. Qed.
Lemma type_s64_lsh d s : type_ (scalar_min_max_lsh d s) = type_ d.
Proof. unfold scalar_min_max_lsh; cbn; rewrite type_lsh32; apply type_lsh64. Qed.
Lemma type_zext d : type_ (zext_32_to_64 d) = type_ d.
Proof. unfold zext_32_to_64, __reg_assign_32_into_64; cbn zeta; ifs. Qed.
Lemma type_set_var_off d t : type_ (set_var_off d t) = type_ d.
Proof. reflexivity. Qed.
#[export] Hint Rewrite type_s32_add type_s64_add type_s32_sub type_s64_sub type_s32_mul type_s64_mul type_s32_and type_s64_and type_s32_or type_s64_or type_s32_xor type_s64_xor type_s32_rsh type_s64_rsh type_s32_arsh type_s64_arsh type_s32_lsh type_s64_lsh type_zext type_set_var_off : reg_type.
