(* ===== verification/Insn.v ===== *)
(** Instruction encoding: include/uapi/linux/bpf_common.h,
    include/uapi/linux/bpf.h and include/linux/filter.h, with the opcode table
    [BPF_INSN_MAP] of kernel/bpf/core.c from which both the interpreter's jump
    table and the verifier's opcode white list are generated. *)
From Stdlib Require Import ZArith Lia Bool List.
From S2P Require Import Prelude.
Import ListNotations.

Local Open Scope Z_scope.
Local Open Scope kint_scope.

Record bpf_insn := mk_insn {
  insn_code : Z;
  insn_dst : Z;
  insn_src : Z;
  insn_off : Z;
  insn_imm : Z
}.

(** The C types of the fields. *)
Definition insn_ok (i : bpf_insn) : Prop :=
  uin 8 (insn_code i) /\ uin 4 (insn_dst i) /\ uin 4 (insn_src i) /\ sin 16 (insn_off i) /\ sin 32 (insn_imm i).

Definition BPF_CLASS (code : Z) : Z := code .& 0x07.
Definition BPF_SIZE (code : Z) : Z := code .& 0x18.
Definition BPF_MODE (code : Z) : Z := code .& 0xe0.
Definition BPF_OP (code : Z) : Z := code .& 0xf0.
Definition BPF_SRC (code : Z) : Z := code .& 0x08.

Abbreviation BPF_LD := 0x00.
Abbreviation BPF_LDX := 0x01.
Abbreviation BPF_ST := 0x02.
Abbreviation BPF_STX := 0x03.
Abbreviation BPF_ALU := 0x04.
Abbreviation BPF_JMP := 0x05.
Abbreviation BPF_JMP32 := 0x06.
Abbreviation BPF_ALU64 := 0x07.

Abbreviation BPF_W := 0x00.
Abbreviation BPF_H := 0x08.
Abbreviation BPF_B := 0x10.
Abbreviation BPF_DW := 0x18.
Abbreviation BPF_IMM := 0x00.
Abbreviation BPF_ABS := 0x20.
Abbreviation BPF_IND := 0x40.
Abbreviation BPF_MEM := 0x60.
Abbreviation BPF_XADD := 0xc0.
Abbreviation BPF_PROBE_MEM := 0x20.
Abbreviation BPF_NOSPEC := 0xc0.

Abbreviation BPF_ADD := 0x00.
Abbreviation BPF_SUB := 0x10.
Abbreviation BPF_MUL := 0x20.
Abbreviation BPF_DIV := 0x30.
Abbreviation BPF_OR := 0x40.
Abbreviation BPF_AND := 0x50.
Abbreviation BPF_LSH := 0x60.
Abbreviation BPF_RSH := 0x70.
Abbreviation BPF_NEG := 0x80.
Abbreviation BPF_MOD := 0x90.
Abbreviation BPF_XOR := 0xa0.
Abbreviation BPF_MOV := 0xb0.
Abbreviation BPF_ARSH := 0xc0.
Abbreviation BPF_END := 0xd0.
Abbreviation BPF_TO_LE := 0x00.
Abbreviation BPF_TO_BE := 0x08.

Abbreviation BPF_JA := 0x00.
Abbreviation BPF_JEQ := 0x10.
Abbreviation BPF_JGT := 0x20.
Abbreviation BPF_JGE := 0x30.
Abbreviation BPF_JSET := 0x40.
Abbreviation BPF_JNE := 0x50.
Abbreviation BPF_JSGT := 0x60.
Abbreviation BPF_JSGE := 0x70.
Abbreviation BPF_CALL := 0x80.
Abbreviation BPF_EXIT := 0x90.
Abbreviation BPF_JLT := 0xa0.
Abbreviation BPF_JLE := 0xb0.
Abbreviation BPF_JSLT := 0xc0.
Abbreviation BPF_JSLE := 0xd0.
Abbreviation BPF_TAIL_CALL := 0xf0.
Abbreviation BPF_CALL_ARGS := 0xe0.

Abbreviation BPF_K := 0x00.
Abbreviation BPF_X := 0x08.

Abbreviation BPF_REG_0 := 0.
Abbreviation BPF_REG_FP := 10.
Abbreviation MAX_BPF_REG := 11.
Abbreviation BPF_REG_AX := MAX_BPF_REG.
Abbreviation MAX_BPF_EXT_REG := (MAX_BPF_REG + 1).
Abbreviation MAX_BPF_STACK := 512.

(** ** Labels of the interpreter, one constructor per group of the table *)

Inductive alu_op := ADD | SUB | AND | OR | LSH | RSH | XOR | MUL | MOV | ARSH | DIV | MOD.
Inductive jmp_op := JEQ | JNE | JGT | JLT | JGE | JLE | JSGT | JSLT | JSGE | JSLE | JSET.
Inductive msize := B | H | W | DW.
(** Second operand: a register or the immediate. *)
Inductive operand := X | K.

Inductive label :=
| L_ALU (op : alu_op) (o : operand)
| L_ALU64 (op : alu_op) (o : operand)
| L_ALU_NEG
| L_ALU64_NEG
| L_ALU_END_TO_BE
| L_ALU_END_TO_LE
| L_JMP_CALL
| L_JMP_EXIT
| L_JMP32 (op : jmp_op) (o : operand)
| L_JMP (op : jmp_op) (o : operand)
| L_JMP_JA
| L_STX_MEM (s : msize)
| L_STX_XADD (s : msize)
| L_ST_MEM (s : msize)
| L_LDX_MEM (s : msize)
| L_LD_IMM_DW
| L_JMP_CALL_ARGS
| L_JMP_TAIL_CALL
| L_ST_NOSPEC
| L_LDX_PROBE_MEM (s : msize)
| L_default.

Definition alu_code (op : alu_op) : Z :=
  match op with
  | ADD => BPF_ADD | SUB => BPF_SUB | AND => BPF_AND | OR => BPF_OR | LSH => BPF_LSH | RSH => BPF_RSH
  | XOR => BPF_XOR | MUL => BPF_MUL | MOV => BPF_MOV | ARSH => BPF_ARSH | DIV => BPF_DIV | MOD => BPF_MOD
  end.

Definition jmp_code (op : jmp_op) : Z :=
  match op with
  | JEQ => BPF_JEQ | JNE => BPF_JNE | JGT => BPF_JGT | JLT => BPF_JLT | JGE => BPF_JGE | JLE => BPF_JLE
  | JSGT => BPF_JSGT | JSLT => BPF_JSLT | JSGE => BPF_JSGE | JSLE => BPF_JSLE | JSET => BPF_JSET
  end.

Definition size_code (s : msize) : Z :=
  match s with B => BPF_B | H => BPF_H | W => BPF_W | DW => BPF_DW end.

Definition src_code (o : operand) : Z := match o with X => BPF_X | K => BPF_K end.

(** The ALU and jump groups of the table, in its order. *)
Definition alu_ops : list alu_op := [ADD; SUB; AND; OR; LSH; RSH; XOR; MUL; MOV; ARSH; DIV; MOD].
Definition jmp_ops : list jmp_op := [JEQ; JNE; JGT; JLT; JGE; JLE; JSGT; JSLT; JSGE; JSLE; JSET].

Definition alu_row (class : Z) (l : alu_op -> operand -> label) (o : operand) : list (Z * label) :=
  map (fun op => (class .| alu_code op .| src_code o, l op o)) alu_ops.

Definition jmp_row (class : Z) (l : jmp_op -> operand -> label) (o : operand) : list (Z * label) :=
  map (fun op => (class .| jmp_code op .| src_code o, l op o)) jmp_ops.

Definition mem_row (class mode : Z) (l : msize -> label) (ss : list msize) : list (Z * label) :=
  map (fun s => (class .| mode .| size_code s, l s)) ss.

Definition BPF_INSN_MAP : list (Z * label) :=
  alu_row BPF_ALU L_ALU X ++
  [(BPF_ALU .| BPF_NEG, L_ALU_NEG);
   (BPF_ALU .| BPF_END .| BPF_TO_BE, L_ALU_END_TO_BE);
   (BPF_ALU .| BPF_END .| BPF_TO_LE, L_ALU_END_TO_LE)] ++
  alu_row BPF_ALU L_ALU K ++
  alu_row BPF_ALU64 L_ALU64 X ++
  [(BPF_ALU64 .| BPF_NEG, L_ALU64_NEG)] ++
  alu_row BPF_ALU64 L_ALU64 K ++
  [(BPF_JMP .| BPF_CALL, L_JMP_CALL); (BPF_JMP .| BPF_EXIT, L_JMP_EXIT)] ++
  jmp_row BPF_JMP32 L_JMP32 X ++
  jmp_row BPF_JMP32 L_JMP32 K ++
  jmp_row BPF_JMP L_JMP X ++
  jmp_row BPF_JMP L_JMP K ++
  [(BPF_JMP .| BPF_JA, L_JMP_JA)] ++
  mem_row BPF_STX BPF_MEM L_STX_MEM [B; H; W; DW] ++
  mem_row BPF_STX BPF_XADD L_STX_XADD [W; DW] ++
  mem_row BPF_ST BPF_MEM L_ST_MEM [B; H; W; DW] ++
  mem_row BPF_LDX BPF_MEM L_LDX_MEM [B; H; W; DW] ++
  [(BPF_LD .| BPF_IMM .| BPF_DW, L_LD_IMM_DW)].

(** Array with designated initialisers: the last one for an index wins. *)
Fixpoint table_get {A} (tbl : list (Z * A)) (dflt : A) (code : Z) : A :=
  match tbl with
  | [] => dflt
  | (c, v) :: tbl => if existsb (fun e => fst e =? code) tbl then table_get tbl dflt code
                     else if c =? code then v else table_get tbl dflt code
  end.

Definition bpf_opcode_in_insntable (code : Z) : bool :=
  table_get (map (fun e => (fst e, true)) BPF_INSN_MAP ++
    [(BPF_LD .| BPF_ABS .| BPF_B, true); (BPF_LD .| BPF_ABS .| BPF_H, true); (BPF_LD .| BPF_ABS .| BPF_W, true);
     (BPF_LD .| BPF_IND .| BPF_B, true); (BPF_LD .| BPF_IND .| BPF_H, true); (BPF_LD .| BPF_IND .| BPF_W, true)])
    false code.

Definition jumptable (code : Z) : label :=
  table_get (BPF_INSN_MAP ++
    [(BPF_JMP .| BPF_CALL_ARGS, L_JMP_CALL_ARGS);
     (BPF_JMP .| BPF_TAIL_CALL, L_JMP_TAIL_CALL);
     (BPF_ST .| BPF_NOSPEC, L_ST_NOSPEC)] ++
    mem_row BPF_LDX BPF_PROBE_MEM L_LDX_PROBE_MEM [B; H; W; DW]) L_default code.

(** ** What the table says about an opcode *)

Definition codes : list Z := map Z.of_nat (seq 0 256).

Lemma in_codes code : uin 8 code -> In code codes.
Proof.
  unfold uin; intros H; apply in_map_iff; exists (Z.to_nat code); split; [lia|].
  apply in_seq; lia.
Qed.

(** A decidable fact about every opcode byte is checked by running through
    them. *)
Lemma all_codes (P : Z -> bool) : forallb P codes = true -> forall code, uin 8 code -> P code = true.
Proof. intros H code Hc; rewrite forallb_forall in H; apply H, in_codes, Hc. Qed.

Definition label_code (l : label) : option Z :=
  match l with
  | L_ALU op o => Some (BPF_ALU .| alu_code op .| src_code o)
  | L_ALU64 op o => Some (BPF_ALU64 .| alu_code op .| src_code o)
  | L_ALU_NEG => Some (BPF_ALU .| BPF_NEG)
  | L_ALU64_NEG => Some (BPF_ALU64 .| BPF_NEG)
  | L_ALU_END_TO_BE => Some (BPF_ALU .| BPF_END .| BPF_TO_BE)
  | L_ALU_END_TO_LE => Some (BPF_ALU .| BPF_END .| BPF_TO_LE)
  | L_JMP_CALL => Some (BPF_JMP .| BPF_CALL)
  | L_JMP_EXIT => Some (BPF_JMP .| BPF_EXIT)
  | L_JMP32 op o => Some (BPF_JMP32 .| jmp_code op .| src_code o)
  | L_JMP op o => Some (BPF_JMP .| jmp_code op .| src_code o)
  | L_JMP_JA => Some (BPF_JMP .| BPF_JA)
  | L_STX_MEM s => Some (BPF_STX .| BPF_MEM .| size_code s)
  | L_STX_XADD s => Some (BPF_STX .| BPF_XADD .| size_code s)
  | L_ST_MEM s => Some (BPF_ST .| BPF_MEM .| size_code s)
  | L_LDX_MEM s => Some (BPF_LDX .| BPF_MEM .| size_code s)
  | L_LD_IMM_DW => Some (BPF_LD .| BPF_IMM .| BPF_DW)
  | L_JMP_CALL_ARGS => Some (BPF_JMP .| BPF_CALL_ARGS)
  | L_JMP_TAIL_CALL => Some (BPF_JMP .| BPF_TAIL_CALL)
  | L_ST_NOSPEC => Some (BPF_ST .| BPF_NOSPEC)
  | L_LDX_PROBE_MEM s => Some (BPF_LDX .| BPF_PROBE_MEM .| size_code s)
  | L_default => None
  end.

(** No initialiser of the jump table overwrites another. *)
Lemma jumptable_code code : uin 8 code ->
  match label_code (jumptable code) with Some c => code = c | None => True end.
Proof.
  intros H; assert (E : match label_code (jumptable code) with Some c => code =? c | None => true end = true).
  { revert code H; apply all_codes; vm_compute; reflexivity. }
  destruct (label_code _); [apply Z.eqb_eq; exact E|exact I].
Qed.

Lemma jumptable_label l c : label_code l = Some c ->
  match l with L_STX_XADD B | L_STX_XADD H => True | _ => jumptable c = l end.
Proof.
  destruct l as [[] []|[] []|  |  |  |  |  |  |[] []|[] []|  |[]|[]|[]|[]|  |  |  |  |[]|];
    intros [= <-]; solve [exact I|vm_compute; reflexivity].
Qed.

(** Every white-listed opcode has a label, apart from the legacy packet loads,
    which are rewritten before a program runs. *)
Lemma insntable_handled code : uin 8 code -> bpf_opcode_in_insntable code = true ->
  jumptable code <> L_default \/ (BPF_CLASS code = BPF_LD /\ (BPF_MODE code = BPF_ABS \/ BPF_MODE code = BPF_IND)).
Proof.
  intros H Ht; assert (E : (if bpf_opcode_in_insntable code then
      match jumptable code with L_default => (BPF_CLASS code =? BPF_LD) && ((BPF_MODE code =? BPF_ABS) || (BPF_MODE code =? BPF_IND)) | _ => true end
      else true) = true).
  { clear Ht; revert code H; apply all_codes; vm_compute; reflexivity. }
  rewrite Ht in E; destruct (jumptable code); try (left; discriminate); right.
  apply andb_true_iff in E; destruct E as [E1 E2]; apply orb_true_iff in E2; rewrite !Z.eqb_eq in *; auto.
Qed.
