(* ===== verification/Interp.v ===== *)
(** The eBPF interpreter, [___bpf_prog_run] of kernel/bpf/core.c.

    The machine state is the register array [regs[MAX_BPF_EXT_REG]], a byte
    store and the index of the next instruction.  What C leaves undefined (a
    shift by more than the width, a division by zero, an access to an unmapped
    address, a register index past the array) has no successor: the step is
    [None].  Helper functions called through [__bpf_call_base + imm] are an
    argument of the model.  Memory order is that of a little-endian build. *)
From Stdlib Require Import ZArith Lia Bool Btauto.
From stdpp Require Import base list gmap.
From S2P Require Import Prelude Bits Insn.

Local Open Scope Z_scope.
Local Open Scope kint_scope.

(** ** Byte order: include/uapi/linux/swab.h *)

Definition swab16 (x : Z) : Z :=
  (ushl 32 (u16 x .& 0x00ff) 8) .| (ushr (u16 x .& 0xff00) 8).

Definition swab32 (x : Z) : Z :=
  ushl 32 (u32 x .& 0x000000ff) 24 .| ushl 32 (u32 x .& 0x0000ff00) 8 .|
  ushr (u32 x .& 0x00ff0000) 8 .| ushr (u32 x .& 0xff000000) 24.

Definition swab64 (x : Z) : Z :=
  ushl 64 (u64 x .& 0x00000000000000ff) 56 .| ushl 64 (u64 x .& 0x000000000000ff00) 40 .|
  ushl 64 (u64 x .& 0x0000000000ff0000) 24 .| ushl 64 (u64 x .& 0x00000000ff000000) 8 .|
  ushr (u64 x .& 0x000000ff00000000) 8 .| ushr (u64 x .& 0x0000ff0000000000) 24 .|
  ushr (u64 x .& 0x00ff000000000000) 40 .| ushr (u64 x .& 0xff00000000000000) 56.

(** ** Arithmetic *)

(** [ALU(OPCODE, OP)]: [DST OP SRC] at the width of the class, where an
    immediate is sign extended to 64 bits or truncated to 32. *)
Definition alu_arith (w : Z) (op : alu_op) (a b : Z) : Z :=
  match op with
  | ADD => uwrap w (a + b)
  | SUB => uwrap w (a - b)
  | AND => a .& b
  | OR => a .| b
  | XOR => a .^ b
  | MUL => uwrap w (a * b)
  | _ => 0
  end.

(** [SHT(OPCODE, OP)] and the ARSH labels: the amount of a register shift is
    masked, the one of an immediate shift is used as it is. *)
Definition shift_amount (w : Z) (o : operand) (SRC IMM : Z) : option Z :=
  match o with
  | X => Some (SRC .& (w - 1))
  | K => if (0 <=? IMM) && (IMM <? w) then Some IMM else None
  end.

Definition alu_shift (w : Z) (op : alu_op) (a n : Z) : Z :=
  match op with
  | LSH => ushl w a n
  | RSH => ushr a n
  | ARSH => uwrap w (Z.shiftr (swrap w a) n)
  | _ => 0
  end.

(** The result of every two-operand label, for the operands in [DST] and in
    [SRC] or [IMM]. *)
Definition alu_exec (w : Z) (op : alu_op) (o : operand) (DST SRC IMM : Z) : option Z :=
  let a := uwrap w DST in
  let b := uwrap w (match o with X => SRC | K => IMM end) in
  match op with
  | ADD | SUB | AND | OR | XOR | MUL => Some (alu_arith w op a b)
  | LSH | RSH | ARSH => n ← shift_amount w o SRC IMM; Some (alu_shift w op a n)
  | MOV => Some b
  | DIV => if b =? 0 then None else Some (a / b)
  | MOD => if b =? 0 then None else Some (a mod b)
  end.

Definition alu_neg (w : Z) (DST : Z) : Z := uwrap w (- DST).

Definition alu_end_to_be (IMM DST : Z) : Z :=
  if IMM =? 16 then u16 (swab16 DST)
  else if IMM =? 32 then u32 (swab32 DST)
  else if IMM =? 64 then u64 (swab64 DST)
  else DST.

Definition alu_end_to_le (IMM DST : Z) : Z :=
  if IMM =? 16 then u16 DST
  else if IMM =? 32 then u32 DST
  else if IMM =? 64 then u64 DST
  else DST.

(** [COND_JMP(SIGN, OPCODE, CMP_OP)]. *)
Definition cond_jmp (w : Z) (op : jmp_op) (DST SRC : Z) : bool :=
  match op with
  | JEQ => uwrap w DST =? uwrap w SRC
  | JNE => negb (uwrap w DST =? uwrap w SRC)
  | JGT => uwrap w DST >? uwrap w SRC
  | JLT => uwrap w DST <? uwrap w SRC
  | JGE => uwrap w DST >=? uwrap w SRC
  | JLE => uwrap w DST <=? uwrap w SRC
  | JSET => negb (uwrap w DST .& uwrap w SRC =? 0)
  | JSGT => swrap w DST >? swrap w SRC
  | JSLT => swrap w DST <? swrap w SRC
  | JSGE => swrap w DST >=? swrap w SRC
  | JSLE => swrap w DST <=? swrap w SRC
  end.

(** ** Memory *)

Definition msize_bytes (s : msize) : nat :=
  match s with B => 1 | H => 2 | W => 4 | DW => 8 end.

Definition memory := gmap Z Z.

(** Little-endian access to [n] consecutive mapped bytes. *)
Fixpoint load_bytes (m : memory) (addr : Z) (n : nat) : option Z :=
  match n with
  | O => Some 0
  | S n => b ← m !! (u64 addr); r ← load_bytes m (addr + 1) n; Some (b + 256 * r)
  end.

Fixpoint store_bytes (m : memory) (addr : Z) (n : nat) (v : Z) : option memory :=
  match n with
  | O => Some m
  | S n => _ ← m !! (u64 addr); store_bytes (<[u64 addr := v mod 256]> m) (addr + 1) n (v / 256)
  end.

(** ** Machine *)

Record bpf_machine := mk_machine {
  m_regs : list Z;
  m_mem : memory;
  m_pc : Z
}.

Inductive outcome :=
| Next (s : bpf_machine)
| Return (r0 : Z).

Definition reg_get (regs : list Z) (r : Z) : option Z := regs !! Z.to_nat r.

Definition reg_set (regs : list Z) (r v : Z) : option (list Z) :=
  _ ← regs !! Z.to_nat r; Some (<[Z.to_nat r := v]> regs).

(** The second operand; [SRC] is not read when the operand is [IMM]. *)
Definition src_get (o : operand) (regs : list Z) (insn : bpf_insn) : option Z :=
  match o with X => reg_get regs (insn_src insn) | K => Some 0 end.

(** [DIV] and [MOD] go through the auxiliary register [AX]. *)
Definition step_divmod (w : Z) (op : alu_op) (o : operand) (insn : bpf_insn) (regs : list Z) : option (list Z) :=
  DST ← reg_get regs (insn_dst insn);
  if w =? 64 then
    SRC ← src_get o regs insn;
    r ← alu_exec 64 op o DST SRC (insn_imm insn);
    match op with
    | MOD => regs ← reg_set regs BPF_REG_AX r; reg_set regs (insn_dst insn) r
    | _ => reg_set regs (insn_dst insn) r
    end
  else
    regs ← reg_set regs BPF_REG_AX (u32 DST);
    SRC ← src_get o regs insn;
    AX ← reg_get regs BPF_REG_AX;
    q ← alu_exec 32 DIV o AX SRC (insn_imm insn);
    r ← alu_exec 32 MOD o AX SRC (insn_imm insn);
    regs ← reg_set regs BPF_REG_AX q;
    reg_set regs (insn_dst insn) (match op with MOD => r | _ => u32 q end).

Definition step_alu (w : Z) (op : alu_op) (o : operand) (insn : bpf_insn) (regs : list Z) : option (list Z) :=
  match op with
  | DIV | MOD => step_divmod w op o insn regs
  | _ =>
    DST ← reg_get regs (insn_dst insn);
    SRC ← src_get o regs insn;
    r ← alu_exec w op o DST SRC (insn_imm insn);
    reg_set regs (insn_dst insn) r
  end.

(** [DST = f(DST)]. *)
Definition step_unary (f : Z -> Z) (insn : bpf_insn) (regs : list Z) : option (list Z) :=
  DST ← reg_get regs (insn_dst insn); reg_set regs (insn_dst insn) (f DST).

(** The labels of the ALU and ALU64 classes. *)
Definition step_alu_insn (insn : bpf_insn) (regs : list Z) : option (list Z) :=
  match jumptable (insn_code insn) with
  | L_ALU op o => step_alu 32 op o insn regs
  | L_ALU64 op o => step_alu 64 op o insn regs
  | L_ALU_NEG => step_unary (alu_neg 32) insn regs
  | L_ALU64_NEG => step_unary (alu_neg 64) insn regs
  | L_ALU_END_TO_BE => step_unary (alu_end_to_be (insn_imm insn)) insn regs
  | L_ALU_END_TO_LE => step_unary (alu_end_to_le (insn_imm insn)) insn regs
  | _ => None
  end.

(** The next instruction of a conditional jump at [pc]. *)
Definition step_jmp (w : Z) (op : jmp_op) (o : operand) (insn : bpf_insn) (regs : list Z) (pc : Z) : option Z :=
  DST ← reg_get regs (insn_dst insn);
  SRC ← (match o with X => reg_get regs (insn_src insn) | K => Some (insn_imm insn) end);
  Some (if cond_jmp w op DST SRC then pc + insn_off insn + 1 else pc + 1).

Section Run.
(** Helper [imm] applied to the five argument registers and the memory. *)
Variable helper : Z -> list Z -> memory -> option (Z * memory).
Variable prog : list bpf_insn.

(** One round of [select_insn].  The labels of calls between programs and of
    fault-tolerant loads are outside the model. *)
Definition step (s : bpf_machine) : option outcome :=
  insn ← (if 0 <=? m_pc s then prog !! Z.to_nat (m_pc s) else None);
  let regs := m_regs s in
  let mem := m_mem s in
  let CONT regs mem := Some (Next (mk_machine regs mem (m_pc s + 1))) in
  let store sz v :=
    DST ← reg_get regs (insn_dst insn);
    mem ← store_bytes mem (DST + insn_off insn) (msize_bytes sz) v;
    CONT regs mem in
  match jumptable (insn_code insn) with
  | L_ALU _ _ | L_ALU64 _ _ | L_ALU_NEG | L_ALU64_NEG | L_ALU_END_TO_BE | L_ALU_END_TO_LE =>
    regs ← step_alu_insn insn regs; CONT regs mem
  | L_LD_IMM_DW =>
    insn1 ← prog !! Z.to_nat (m_pc s + 1);
    regs ← reg_set regs (insn_dst insn) (u32 (insn_imm insn) .| ushl 64 (u32 (insn_imm insn1)) 32);
    Some (Next (mk_machine regs mem (m_pc s + 2)))
  | L_JMP_CALL =>
    args ← mapM (reg_get regs) [1; 2; 3; 4; 5];
    '(r0, mem) ← helper (insn_imm insn) args mem;
    regs ← reg_set regs BPF_REG_0 (u64 r0);
    CONT regs mem
  | L_JMP_EXIT => r0 ← reg_get regs BPF_REG_0; Some (Return r0)
  | L_JMP_JA => Some (Next (mk_machine regs mem (m_pc s + insn_off insn + 1)))
  | L_JMP op o => pc ← step_jmp 64 op o insn regs (m_pc s); Some (Next (mk_machine regs mem pc))
  | L_JMP32 op o => pc ← step_jmp 32 op o insn regs (m_pc s); Some (Next (mk_machine regs mem pc))
  | L_STX_MEM sz => SRC ← reg_get regs (insn_src insn); store sz SRC
  | L_ST_MEM sz => store sz (insn_imm insn)
  | L_LDX_MEM sz =>
    SRC ← reg_get regs (insn_src insn);
    v ← load_bytes mem (SRC + insn_off insn) (msize_bytes sz);
    regs ← reg_set regs (insn_dst insn) v;
    CONT regs mem
  | L_STX_XADD sz =>
    SRC ← reg_get regs (insn_src insn);
    DST ← reg_get regs (insn_dst insn);
    v ← load_bytes mem (DST + insn_off insn) (msize_bytes sz);
    store sz (v + SRC)
  | L_ST_NOSPEC => CONT regs mem
  | L_JMP_CALL_ARGS | L_JMP_TAIL_CALL | L_LDX_PROBE_MEM _ | L_default => None
  end.

Fixpoint ___bpf_prog_run (fuel : nat) (s : bpf_machine) : option Z :=
  match fuel with
  | O => None
  | S fuel =>
    o ← step s;
    match o with
    | Return r0 => Some r0
    | Next s => ___bpf_prog_run fuel s
    end
  end.
End Run.
