(* ===== verification/Env.v ===== *)
(** The state of a verification run: struct bpf_verifier_env, its verifier
    states with their frames, registers and stack slots
    (include/linux/bpf_verifier.h), and the monad in which the functions of
    kernel/bpf/verifier.c that update it are written.

    A pointer to a register of the current frame is that register's index, so
    that two pointers to one register alias in the model as they do in C. *)
From Stdlib Require Import ZArith Lia Bool.
From stdpp Require Import base list gmap.
From S2P Require Import Prelude Bits Tnum Bounds RegState Insn.

Local Open Scope Z_scope.

(** ** Data *)

Inductive bpf_stack_slot_type := STACK_INVALID | STACK_SPILL | STACK_MISC | STACK_ZERO.

#[global] Instance slot_type_eq_dec : EqDecision bpf_stack_slot_type.
Proof. solve_decision. Defined.

#[global] Instance reg_type_eq_dec : EqDecision bpf_reg_type := bpf_reg_type_eq_dec.

Abbreviation BPF_REG_SIZE := 8.
Abbreviation REG_LIVE_NONE := 0.
Abbreviation REG_LIVE_READ32 := 1.
Abbreviation REG_LIVE_READ64 := 2.
Abbreviation REG_LIVE_READ := 3.
Abbreviation REG_LIVE_WRITTEN := 4.
Abbreviation REG_LIVE_DONE := 8.
Abbreviation DEF_NOT_SUBREG := 0.
Abbreviation BPF_MAX_VAR_OFF := (2 ^ 29).
Abbreviation BPF_COMPLEXITY_LIMIT_JMP_SEQ := 8192.

Abbreviation EPERM := 1.
Abbreviation ENOENT := 2.
Abbreviation E2BIG := 7.
Abbreviation ENOMEM := 12.
Abbreviation EACCES := 13.
Abbreviation EFAULT := 14.
Abbreviation EINVAL := 22.
Abbreviation ENOTSUPP := 524.

Record bpf_reference_state := mk_ref { ref_id : Z; ref_insn_idx : Z }.

Record bpf_idx_pair := mk_idx_pair { prev_idx : Z; idx : Z }.

(** What the verifier reads of a map; [inner_map_meta] is a key of the map
    store, 0 for NULL. *)
Record bpf_map := mk_map {
  map_type : Z;
  key_size : Z;
  value_size : Z;
  max_entries : Z;
  map_flags : Z;
  spin_lock_off : Z;
  inner_map_meta : Z;
  frozen : bool;
  writecnt : Z;
  map_btf : bool;
  map_bypass_spec_v1 : bool
}.

Record bpf_stack_state := mk_slot {
  spilled_ptr : bpf_reg_state;
  slot_type : list bpf_stack_slot_type
}.

(** One frame; [allocated_stack] is eight times the length of [stack]. *)
Record bpf_func_state := mk_func {
  regs : list bpf_reg_state;
  callsite : Z;
  fs_frameno : Z;
  subprogno : Z;
  refs : list bpf_reference_state;
  stack : list bpf_stack_state
}.

(** [vs_parent] is a key of the state store, 0 for NULL. *)
Record bpf_verifier_state := mk_state {
  frame : list bpf_func_state;
  vs_parent : Z;
  branches : Z;
  curframe : nat;
  active_spin_lock : Z;
  speculative : bool;
  first_insn_idx : Z;
  last_insn_idx : Z;
  jmp_history : list bpf_idx_pair
}.

Record bpf_verifier_stack_elem := mk_elem {
  elem_st : bpf_verifier_state;
  elem_insn_idx : Z;
  elem_prev_insn_idx : Z
}.

(** The members of the leading union are used by different instruction classes
    and are kept apart.  [btf_var_arg] is the union of [mem_size] and [btf_id]
    in [btf_var]. *)
Record bpf_insn_aux_data := mk_aux {
  ptr_type : bpf_reg_type;
  map_ptr_state : Z;
  map_index : Z;
  map_off : Z;
  btf_var_type : bpf_reg_type;
  btf_var_arg : Z;
  alu_limit : Z;
  map_key_state : Z;
  ctx_field_size : Z;
  seen : Z;
  sanitize_stack_spill : bool;
  zext_dst : bool;
  alu_state : Z;
  prune_point : bool
}.

Record bpf_subprog_info := mk_subprog {
  start : Z;
  linfo_idx : Z;
  stack_depth : Z;
  has_tail_call : bool;
  tail_call_reachable : bool;
  has_ld_abs : bool
}.

(** An explored state is a key of the state store; [sl_insn_idx] is the field
    [insn_idx] of the state. *)
Record bpf_verifier_state_list := mk_sl {
  sl_state : Z;
  sl_insn_idx : Z;
  miss_cnt : Z;
  hit_cnt : Z
}.

(** The fields of the environment that steer the search for explored states. *)
Record bpf_search := mk_search {
  test_state_freq : bool;
  explored_states : gmap Z (list bpf_verifier_state_list);
  free_list : list bpf_verifier_state_list;
  jmps_processed : Z;
  prev_jmps_processed : Z;
  insn_processed : Z;
  prev_insn_processed : Z;
  max_states_per_insn : Z;
  total_states : Z;
  peak_states : Z
}.

(** What the checks record about the accesses and the stack of a program, with
    its type and the type of the program it extends. *)
Record bpf_prog_aux := mk_prog_aux {
  prog_type : Z;
  dst_prog_type : option Z;
  max_pkt_offset : Z;
  max_ctx_offset : Z;
  max_tp_access : Z;
  max_rdonly_access : Z;
  max_rdwr_access : Z;
  prog_stack_depth : Z;
  prog_tail_call_reachable : bool
}.

(** How the program was loaded, as far as calls and exits look at it: where it
    will be attached, whether the function it is attached to returns void, if
    the program has type information, which of its functions are global, its
    license, whether it will be compiled, and what it has to keep for the helpers
    that walk the call chain. *)
Record bpf_prog_attach := mk_attach {
  expected_attach_type : Z;
  enforce_expected_attach_type : bool;
  attach_btf_id : Z;
  attach_func_void : bool;
  func_info_global : option (list bool);
  gpl_compatible : bool;
  jit_requested : bool;
  has_callchain_buf : bool;
  call_get_stack : bool
}.

(** [cur_freed] stands for [cur_state == NULL]; [states] is the store the
    [parent] pointers lead into, [maps] the one [map_ptr] leads into,
    [used_maps] holds keys of the latter, and
    [alloc] the outcomes of the coming memory allocations. *)
Record bpf_verifier_env := mk_env {
  insn_idx : Z;
  prev_insn_idx : Z;
  prog : list bpf_insn;
  head : list bpf_verifier_stack_elem;
  stack_size : Z;
  strict_alignment : bool;
  cur_state : bpf_verifier_state;
  cur_freed : bool;
  states : gmap Z bpf_verifier_state;
  maps : gmap Z bpf_map;
  id_gen : Z;
  explore_alu_limits : bool;
  allow_ptr_leaks : bool;
  allow_uninit_stack : bool;
  bypass_spec_v1 : bool;
  bypass_spec_v4 : bool;
  flags : env_flags;
  insn_aux_data : list bpf_insn_aux_data;
  pass_cnt : Z;
  longest_mark_read_walk : Z;
  subprog_info : list bpf_subprog_info;
  search : bpf_search;
  aux : bpf_prog_aux;
  seen_direct_write : bool;
  allow_ptr_to_map_access : bool;
  used_maps : list Z;
  attach : bpf_prog_attach;
  alloc : list bool
}.

(** Field assignment. *)
Definition set_spilled_ptr (s : bpf_stack_state) (v : bpf_reg_state) : bpf_stack_state :=
  mk_slot v (slot_type s).
Definition set_slot_type (s : bpf_stack_state) (v : list bpf_stack_slot_type) : bpf_stack_state :=
  mk_slot (spilled_ptr s) v.

Definition set_regs (f : bpf_func_state) (v : list bpf_reg_state) : bpf_func_state :=
  mk_func v (callsite f) (fs_frameno f) (subprogno f) (refs f) (stack f).
Definition set_callsite (f : bpf_func_state) (v : Z) : bpf_func_state :=
  mk_func (regs f) v (fs_frameno f) (subprogno f) (refs f) (stack f).
Definition set_fs_frameno (f : bpf_func_state) (v : Z) : bpf_func_state :=
  mk_func (regs f) (callsite f) v (subprogno f) (refs f) (stack f).
Definition set_subprogno (f : bpf_func_state) (v : Z) : bpf_func_state :=
  mk_func (regs f) (callsite f) (fs_frameno f) v (refs f) (stack f).
Definition set_refs (f : bpf_func_state) (v : list bpf_reference_state) : bpf_func_state :=
  mk_func (regs f) (callsite f) (fs_frameno f) (subprogno f) v (stack f).
Definition set_stack (f : bpf_func_state) (v : list bpf_stack_state) : bpf_func_state :=
  mk_func (regs f) (callsite f) (fs_frameno f) (subprogno f) (refs f) v.

Definition set_frame (s : bpf_verifier_state) (v : list bpf_func_state) : bpf_verifier_state :=
  mk_state v (vs_parent s) (branches s) (curframe s) (active_spin_lock s) (speculative s) (first_insn_idx s) (last_insn_idx s) (jmp_history s).
Definition set_vs_parent (s : bpf_verifier_state) (v : Z) : bpf_verifier_state :=
  mk_state (frame s) v (branches s) (curframe s) (active_spin_lock s) (speculative s) (first_insn_idx s) (last_insn_idx s) (jmp_history s).
Definition set_branches (s : bpf_verifier_state) (v : Z) : bpf_verifier_state :=
  mk_state (frame s) (vs_parent s) v (curframe s) (active_spin_lock s) (speculative s) (first_insn_idx s) (last_insn_idx s) (jmp_history s).
Definition set_curframe (s : bpf_verifier_state) (v : nat) : bpf_verifier_state :=
  mk_state (frame s) (vs_parent s) (branches s) v (active_spin_lock s) (speculative s) (first_insn_idx s) (last_insn_idx s) (jmp_history s).
Definition set_active_spin_lock (s : bpf_verifier_state) (v : Z) : bpf_verifier_state :=
  mk_state (frame s) (vs_parent s) (branches s) (curframe s) v (speculative s) (first_insn_idx s) (last_insn_idx s) (jmp_history s).
Definition set_speculative (s : bpf_verifier_state) (v : bool) : bpf_verifier_state :=
  mk_state (frame s) (vs_parent s) (branches s) (curframe s) (active_spin_lock s) v (first_insn_idx s) (last_insn_idx s) (jmp_history s).
Definition set_first_insn_idx (s : bpf_verifier_state) (v : Z) : bpf_verifier_state :=
  mk_state (frame s) (vs_parent s) (branches s) (curframe s) (active_spin_lock s) (speculative s) v (last_insn_idx s) (jmp_history s).
Definition set_last_insn_idx (s : bpf_verifier_state) (v : Z) : bpf_verifier_state :=
  mk_state (frame s) (vs_parent s) (branches s) (curframe s) (active_spin_lock s) (speculative s) (first_insn_idx s) v (jmp_history s).
Definition set_jmp_history (s : bpf_verifier_state) (v : list bpf_idx_pair) : bpf_verifier_state :=
  mk_state (frame s) (vs_parent s) (branches s) (curframe s) (active_spin_lock s) (speculative s) (first_insn_idx s) (last_insn_idx s) v.

Definition set_enforce_expected_attach_type (a : bpf_prog_attach) (v : bool) : bpf_prog_attach :=
  mk_attach (expected_attach_type a) v (attach_btf_id a) (attach_func_void a) (func_info_global a) (gpl_compatible a) (jit_requested a) (has_callchain_buf a) (call_get_stack a).
Definition set_has_callchain_buf (a : bpf_prog_attach) (v : bool) : bpf_prog_attach :=
  mk_attach (expected_attach_type a) (enforce_expected_attach_type a) (attach_btf_id a) (attach_func_void a) (func_info_global a) (gpl_compatible a) (jit_requested a) v (call_get_stack a).
Definition set_call_get_stack (a : bpf_prog_attach) (v : bool) : bpf_prog_attach :=
  mk_attach (expected_attach_type a) (enforce_expected_attach_type a) (attach_btf_id a) (attach_func_void a) (func_info_global a) (gpl_compatible a) (jit_requested a) (has_callchain_buf a) v.

Definition set_ptr_type (a : bpf_insn_aux_data) (v : bpf_reg_type) : bpf_insn_aux_data :=
  mk_aux v (map_ptr_state a) (map_index a) (map_off a) (btf_var_type a) (btf_var_arg a) (alu_limit a) (map_key_state a) (ctx_field_size a) (seen a) (sanitize_stack_spill a) (zext_dst a) (alu_state a) (prune_point a).
Definition set_map_ptr_state (a : bpf_insn_aux_data) (v : Z) : bpf_insn_aux_data :=
  mk_aux (ptr_type a) v (map_index a) (map_off a) (btf_var_type a) (btf_var_arg a) (alu_limit a) (map_key_state a) (ctx_field_size a) (seen a) (sanitize_stack_spill a) (zext_dst a) (alu_state a) (prune_point a).
Definition set_map_index (a : bpf_insn_aux_data) (v : Z) : bpf_insn_aux_data :=
  mk_aux (ptr_type a) (map_ptr_state a) v (map_off a) (btf_var_type a) (btf_var_arg a) (alu_limit a) (map_key_state a) (ctx_field_size a) (seen a) (sanitize_stack_spill a) (zext_dst a) (alu_state a) (prune_point a).
Definition set_map_off (a : bpf_insn_aux_data) (v : Z) : bpf_insn_aux_data :=
  mk_aux (ptr_type a) (map_ptr_state a) (map_index a) v (btf_var_type a) (btf_var_arg a) (alu_limit a) (map_key_state a) (ctx_field_size a) (seen a) (sanitize_stack_spill a) (zext_dst a) (alu_state a) (prune_point a).
Definition set_alu_limit (a : bpf_insn_aux_data) (v : Z) : bpf_insn_aux_data :=
  mk_aux (ptr_type a) (map_ptr_state a) (map_index a) (map_off a) (btf_var_type a) (btf_var_arg a) v (map_key_state a) (ctx_field_size a) (seen a) (sanitize_stack_spill a) (zext_dst a) (alu_state a) (prune_point a).
Definition set_map_key_state (a : bpf_insn_aux_data) (v : Z) : bpf_insn_aux_data :=
  mk_aux (ptr_type a) (map_ptr_state a) (map_index a) (map_off a) (btf_var_type a) (btf_var_arg a) (alu_limit a) v (ctx_field_size a) (seen a) (sanitize_stack_spill a) (zext_dst a) (alu_state a) (prune_point a).
Definition set_ctx_field_size (a : bpf_insn_aux_data) (v : Z) : bpf_insn_aux_data :=
  mk_aux (ptr_type a) (map_ptr_state a) (map_index a) (map_off a) (btf_var_type a) (btf_var_arg a) (alu_limit a) (map_key_state a) v (seen a) (sanitize_stack_spill a) (zext_dst a) (alu_state a) (prune_point a).
Definition set_seen (a : bpf_insn_aux_data) (v : Z) : bpf_insn_aux_data :=
  mk_aux (ptr_type a) (map_ptr_state a) (map_index a) (map_off a) (btf_var_type a) (btf_var_arg a) (alu_limit a) (map_key_state a) (ctx_field_size a) v (sanitize_stack_spill a) (zext_dst a) (alu_state a) (prune_point a).
Definition set_sanitize_stack_spill (a : bpf_insn_aux_data) (v : bool) : bpf_insn_aux_data :=
  mk_aux (ptr_type a) (map_ptr_state a) (map_index a) (map_off a) (btf_var_type a) (btf_var_arg a) (alu_limit a) (map_key_state a) (ctx_field_size a) (seen a) v (zext_dst a) (alu_state a) (prune_point a).
Definition set_zext_dst (a : bpf_insn_aux_data) (v : bool) : bpf_insn_aux_data :=
  mk_aux (ptr_type a) (map_ptr_state a) (map_index a) (map_off a) (btf_var_type a) (btf_var_arg a) (alu_limit a) (map_key_state a) (ctx_field_size a) (seen a) (sanitize_stack_spill a) v (alu_state a) (prune_point a).
Definition set_alu_state (a : bpf_insn_aux_data) (v : Z) : bpf_insn_aux_data :=
  mk_aux (ptr_type a) (map_ptr_state a) (map_index a) (map_off a) (btf_var_type a) (btf_var_arg a) (alu_limit a) (map_key_state a) (ctx_field_size a) (seen a) (sanitize_stack_spill a) (zext_dst a) v (prune_point a).
Definition set_prune_point (a : bpf_insn_aux_data) (v : bool) : bpf_insn_aux_data :=
  mk_aux (ptr_type a) (map_ptr_state a) (map_index a) (map_off a) (btf_var_type a) (btf_var_arg a) (alu_limit a) (map_key_state a) (ctx_field_size a) (seen a) (sanitize_stack_spill a) (zext_dst a) (alu_state a) v.

Definition set_insn_idx (e : bpf_verifier_env) (v : Z) : bpf_verifier_env :=
  mk_env v (prev_insn_idx e) (prog e) (head e) (stack_size e) (strict_alignment e) (cur_state e) (cur_freed e) (states e) (maps e) (id_gen e) (explore_alu_limits e) (allow_ptr_leaks e) (allow_uninit_stack e) (bypass_spec_v1 e) (bypass_spec_v4 e) (flags e) (insn_aux_data e) (pass_cnt e) (longest_mark_read_walk e) (subprog_info e) (search e) (aux e) (seen_direct_write e) (allow_ptr_to_map_access e) (used_maps e) (attach e) (alloc e).
Definition set_prev_insn_idx (e : bpf_verifier_env) (v : Z) : bpf_verifier_env :=
  mk_env (insn_idx e) v (prog e) (head e) (stack_size e) (strict_alignment e) (cur_state e) (cur_freed e) (states e) (maps e) (id_gen e) (explore_alu_limits e) (allow_ptr_leaks e) (allow_uninit_stack e) (bypass_spec_v1 e) (bypass_spec_v4 e) (flags e) (insn_aux_data e) (pass_cnt e) (longest_mark_read_walk e) (subprog_info e) (search e) (aux e) (seen_direct_write e) (allow_ptr_to_map_access e) (used_maps e) (attach e) (alloc e).
Definition set_prog (e : bpf_verifier_env) (v : list bpf_insn) : bpf_verifier_env :=
  mk_env (insn_idx e) (prev_insn_idx e) v (head e) (stack_size e) (strict_alignment e) (cur_state e) (cur_freed e) (states e) (maps e) (id_gen e) (explore_alu_limits e) (allow_ptr_leaks e) (allow_uninit_stack e) (bypass_spec_v1 e) (bypass_spec_v4 e) (flags e) (insn_aux_data e) (pass_cnt e) (longest_mark_read_walk e) (subprog_info e) (search e) (aux e) (seen_direct_write e) (allow_ptr_to_map_access e) (used_maps e) (attach e) (alloc e).
Definition set_head (e : bpf_verifier_env) (v : list bpf_verifier_stack_elem) : bpf_verifier_env :=
  mk_env (insn_idx e) (prev_insn_idx e) (prog e) v (stack_size e) (strict_alignment e) (cur_state e) (cur_freed e) (states e) (maps e) (id_gen e) (explore_alu_limits e) (allow_ptr_leaks e) (allow_uninit_stack e) (bypass_spec_v1 e) (bypass_spec_v4 e) (flags e) (insn_aux_data e) (pass_cnt e) (longest_mark_read_walk e) (subprog_info e) (search e) (aux e) (seen_direct_write e) (allow_ptr_to_map_access e) (used_maps e) (attach e) (alloc e).
Definition set_stack_size (e : bpf_verifier_env) (v : Z) : bpf_verifier_env :=
  mk_env (insn_idx e) (prev_insn_idx e) (prog e) (head e) v (strict_alignment e) (cur_state e) (cur_freed e) (states e) (maps e) (id_gen e) (explore_alu_limits e) (allow_ptr_leaks e) (allow_uninit_stack e) (bypass_spec_v1 e) (bypass_spec_v4 e) (flags e) (insn_aux_data e) (pass_cnt e) (longest_mark_read_walk e) (subprog_info e) (search e) (aux e) (seen_direct_write e) (allow_ptr_to_map_access e) (used_maps e) (attach e) (alloc e).
Definition set_strict_alignment (e : bpf_verifier_env) (v : bool) : bpf_verifier_env :=
  mk_env (insn_idx e) (prev_insn_idx e) (prog e) (head e) (stack_size e) v (cur_state e) (cur_freed e) (states e) (maps e) (id_gen e) (explore_alu_limits e) (allow_ptr_leaks e) (allow_uninit_stack e) (bypass_spec_v1 e) (bypass_spec_v4 e) (flags e) (insn_aux_data e) (pass_cnt e) (longest_mark_read_walk e) (subprog_info e) (search e) (aux e) (seen_direct_write e) (allow_ptr_to_map_access e) (used_maps e) (attach e) (alloc e).
Definition set_cur_state (e : bpf_verifier_env) (v : bpf_verifier_state) : bpf_verifier_env :=
  mk_env (insn_idx e) (prev_insn_idx e) (prog e) (head e) (stack_size e) (strict_alignment e) v (cur_freed e) (states e) (maps e) (id_gen e) (explore_alu_limits e) (allow_ptr_leaks e) (allow_uninit_stack e) (bypass_spec_v1 e) (bypass_spec_v4 e) (flags e) (insn_aux_data e) (pass_cnt e) (longest_mark_read_walk e) (subprog_info e) (search e) (aux e) (seen_direct_write e) (allow_ptr_to_map_access e) (used_maps e) (attach e) (alloc e).
Definition set_cur_freed (e : bpf_verifier_env) (v : bool) : bpf_verifier_env :=
  mk_env (insn_idx e) (prev_insn_idx e) (prog e) (head e) (stack_size e) (strict_alignment e) (cur_state e) v (states e) (maps e) (id_gen e) (explore_alu_limits e) (allow_ptr_leaks e) (allow_uninit_stack e) (bypass_spec_v1 e) (bypass_spec_v4 e) (flags e) (insn_aux_data e) (pass_cnt e) (longest_mark_read_walk e) (subprog_info e) (search e) (aux e) (seen_direct_write e) (allow_ptr_to_map_access e) (used_maps e) (attach e) (alloc e).
Definition set_states (e : bpf_verifier_env) (v : gmap Z bpf_verifier_state) : bpf_verifier_env :=
  mk_env (insn_idx e) (prev_insn_idx e) (prog e) (head e) (stack_size e) (strict_alignment e) (cur_state e) (cur_freed e) v (maps e) (id_gen e) (explore_alu_limits e) (allow_ptr_leaks e) (allow_uninit_stack e) (bypass_spec_v1 e) (bypass_spec_v4 e) (flags e) (insn_aux_data e) (pass_cnt e) (longest_mark_read_walk e) (subprog_info e) (search e) (aux e) (seen_direct_write e) (allow_ptr_to_map_access e) (used_maps e) (attach e) (alloc e).
Definition set_maps (e : bpf_verifier_env) (v : gmap Z bpf_map) : bpf_verifier_env :=
  mk_env (insn_idx e) (prev_insn_idx e) (prog e) (head e) (stack_size e) (strict_alignment e) (cur_state e) (cur_freed e) (states e) v (id_gen e) (explore_alu_limits e) (allow_ptr_leaks e) (allow_uninit_stack e) (bypass_spec_v1 e) (bypass_spec_v4 e) (flags e) (insn_aux_data e) (pass_cnt e) (longest_mark_read_walk e) (subprog_info e) (search e) (aux e) (seen_direct_write e) (allow_ptr_to_map_access e) (used_maps e) (attach e) (alloc e).
Definition set_id_gen (e : bpf_verifier_env) (v : Z) : bpf_verifier_env :=
  mk_env (insn_idx e) (prev_insn_idx e) (prog e) (head e) (stack_size e) (strict_alignment e) (cur_state e) (cur_freed e) (states e) (maps e) v (explore_alu_limits e) (allow_ptr_leaks e) (allow_uninit_stack e) (bypass_spec_v1 e) (bypass_spec_v4 e) (flags e) (insn_aux_data e) (pass_cnt e) (longest_mark_read_walk e) (subprog_info e) (search e) (aux e) (seen_direct_write e) (allow_ptr_to_map_access e) (used_maps e) (attach e) (alloc e).
Definition set_explore_alu_limits (e : bpf_verifier_env) (v : bool) : bpf_verifier_env :=
  mk_env (insn_idx e) (prev_insn_idx e) (prog e) (head e) (stack_size e) (strict_alignment e) (cur_state e) (cur_freed e) (states e) (maps e) (id_gen e) v (allow_ptr_leaks e) (allow_uninit_stack e) (bypass_spec_v1 e) (bypass_spec_v4 e) (flags e) (insn_aux_data e) (pass_cnt e) (longest_mark_read_walk e) (subprog_info e) (search e) (aux e) (seen_direct_write e) (allow_ptr_to_map_access e) (used_maps e) (attach e) (alloc e).
Definition set_allow_ptr_leaks (e : bpf_verifier_env) (v : bool) : bpf_verifier_env :=
  mk_env (insn_idx e) (prev_insn_idx e) (prog e) (head e) (stack_size e) (strict_alignment e) (cur_state e) (cur_freed e) (states e) (maps e) (id_gen e) (explore_alu_limits e) v (allow_uninit_stack e) (bypass_spec_v1 e) (bypass_spec_v4 e) (flags e) (insn_aux_data e) (pass_cnt e) (longest_mark_read_walk e) (subprog_info e) (search e) (aux e) (seen_direct_write e) (allow_ptr_to_map_access e) (used_maps e) (attach e) (alloc e).
Definition set_allow_uninit_stack (e : bpf_verifier_env) (v : bool) : bpf_verifier_env :=
  mk_env (insn_idx e) (prev_insn_idx e) (prog e) (head e) (stack_size e) (strict_alignment e) (cur_state e) (cur_freed e) (states e) (maps e) (id_gen e) (explore_alu_limits e) (allow_ptr_leaks e) v (bypass_spec_v1 e) (bypass_spec_v4 e) (flags e) (insn_aux_data e) (pass_cnt e) (longest_mark_read_walk e) (subprog_info e) (search e) (aux e) (seen_direct_write e) (allow_ptr_to_map_access e) (used_maps e) (attach e) (alloc e).
Definition set_bypass_spec_v1 (e : bpf_verifier_env) (v : bool) : bpf_verifier_env :=
  mk_env (insn_idx e) (prev_insn_idx e) (prog e) (head e) (stack_size e) (strict_alignment e) (cur_state e) (cur_freed e) (states e) (maps e) (id_gen e) (explore_alu_limits e) (allow_ptr_leaks e) (allow_uninit_stack e) v (bypass_spec_v4 e) (flags e) (insn_aux_data e) (pass_cnt e) (longest_mark_read_walk e) (subprog_info e) (search e) (aux e) (seen_direct_write e) (allow_ptr_to_map_access e) (used_maps e) (attach e) (alloc e).
Definition set_bypass_spec_v4 (e : bpf_verifier_env) (v : bool) : bpf_verifier_env :=
  mk_env (insn_idx e) (prev_insn_idx e) (prog e) (head e) (stack_size e) (strict_alignment e) (cur_state e) (cur_freed e) (states e) (maps e) (id_gen e) (explore_alu_limits e) (allow_ptr_leaks e) (allow_uninit_stack e) (bypass_spec_v1 e) v (flags e) (insn_aux_data e) (pass_cnt e) (longest_mark_read_walk e) (subprog_info e) (search e) (aux e) (seen_direct_write e) (allow_ptr_to_map_access e) (used_maps e) (attach e) (alloc e).
Definition set_flags (e : bpf_verifier_env) (v : env_flags) : bpf_verifier_env :=
  mk_env (insn_idx e) (prev_insn_idx e) (prog e) (head e) (stack_size e) (strict_alignment e) (cur_state e) (cur_freed e) (states e) (maps e) (id_gen e) (explore_alu_limits e) (allow_ptr_leaks e) (allow_uninit_stack e) (bypass_spec_v1 e) (bypass_spec_v4 e) v (insn_aux_data e) (pass_cnt e) (longest_mark_read_walk e) (subprog_info e) (search e) (aux e) (seen_direct_write e) (allow_ptr_to_map_access e) (used_maps e) (attach e) (alloc e).
Definition set_insn_aux_data (e : bpf_verifier_env) (v : list bpf_insn_aux_data) : bpf_verifier_env :=
  mk_env (insn_idx e) (prev_insn_idx e) (prog e) (head e) (stack_size e) (strict_alignment e) (cur_state e) (cur_freed e) (states e) (maps e) (id_gen e) (explore_alu_limits e) (allow_ptr_leaks e) (allow_uninit_stack e) (bypass_spec_v1 e) (bypass_spec_v4 e) (flags e) v (pass_cnt e) (longest_mark_read_walk e) (subprog_info e) (search e) (aux e) (seen_direct_write e) (allow_ptr_to_map_access e) (used_maps e) (attach e) (alloc e).
Definition set_pass_cnt (e : bpf_verifier_env) (v : Z) : bpf_verifier_env :=
  mk_env (insn_idx e) (prev_insn_idx e) (prog e) (head e) (stack_size e) (strict_alignment e) (cur_state e) (cur_freed e) (states e) (maps e) (id_gen e) (explore_alu_limits e) (allow_ptr_leaks e) (allow_uninit_stack e) (bypass_spec_v1 e) (bypass_spec_v4 e) (flags e) (insn_aux_data e) v (longest_mark_read_walk e) (subprog_info e) (search e) (aux e) (seen_direct_write e) (allow_ptr_to_map_access e) (used_maps e) (attach e) (alloc e).
Definition set_longest_mark_read_walk (e : bpf_verifier_env) (v : Z) : bpf_verifier_env :=
  mk_env (insn_idx e) (prev_insn_idx e) (prog e) (head e) (stack_size e) (strict_alignment e) (cur_state e) (cur_freed e) (states e) (maps e) (id_gen e) (explore_alu_limits e) (allow_ptr_leaks e) (allow_uninit_stack e) (bypass_spec_v1 e) (bypass_spec_v4 e) (flags e) (insn_aux_data e) (pass_cnt e) v (subprog_info e) (search e) (aux e) (seen_direct_write e) (allow_ptr_to_map_access e) (used_maps e) (attach e) (alloc e).
Definition set_subprog_info (e : bpf_verifier_env) (v : list bpf_subprog_info) : bpf_verifier_env :=
  mk_env (insn_idx e) (prev_insn_idx e) (prog e) (head e) (stack_size e) (strict_alignment e) (cur_state e) (cur_freed e) (states e) (maps e) (id_gen e) (explore_alu_limits e) (allow_ptr_leaks e) (allow_uninit_stack e) (bypass_spec_v1 e) (bypass_spec_v4 e) (flags e) (insn_aux_data e) (pass_cnt e) (longest_mark_read_walk e) v (search e) (aux e) (seen_direct_write e) (allow_ptr_to_map_access e) (used_maps e) (attach e) (alloc e).
Definition set_search (e : bpf_verifier_env) (v : bpf_search) : bpf_verifier_env :=
  mk_env (insn_idx e) (prev_insn_idx e) (prog e) (head e) (stack_size e) (strict_alignment e) (cur_state e) (cur_freed e) (states e) (maps e) (id_gen e) (explore_alu_limits e) (allow_ptr_leaks e) (allow_uninit_stack e) (bypass_spec_v1 e) (bypass_spec_v4 e) (flags e) (insn_aux_data e) (pass_cnt e) (longest_mark_read_walk e) (subprog_info e) v (aux e) (seen_direct_write e) (allow_ptr_to_map_access e) (used_maps e) (attach e) (alloc e).
Definition set_aux (e : bpf_verifier_env) (v : bpf_prog_aux) : bpf_verifier_env :=
  mk_env (insn_idx e) (prev_insn_idx e) (prog e) (head e) (stack_size e) (strict_alignment e) (cur_state e) (cur_freed e) (states e) (maps e) (id_gen e) (explore_alu_limits e) (allow_ptr_leaks e) (allow_uninit_stack e) (bypass_spec_v1 e) (bypass_spec_v4 e) (flags e) (insn_aux_data e) (pass_cnt e) (longest_mark_read_walk e) (subprog_info e) (search e) v (seen_direct_write e) (allow_ptr_to_map_access e) (used_maps e) (attach e) (alloc e).
Definition set_attach (e : bpf_verifier_env) (v : bpf_prog_attach) : bpf_verifier_env :=
  mk_env (insn_idx e) (prev_insn_idx e) (prog e) (head e) (stack_size e) (strict_alignment e) (cur_state e) (cur_freed e) (states e) (maps e) (id_gen e) (explore_alu_limits e) (allow_ptr_leaks e) (allow_uninit_stack e) (bypass_spec_v1 e) (bypass_spec_v4 e) (flags e) (insn_aux_data e) (pass_cnt e) (longest_mark_read_walk e) (subprog_info e) (search e) (aux e) (seen_direct_write e) (allow_ptr_to_map_access e) (used_maps e) v (alloc e).
Definition set_seen_direct_write (e : bpf_verifier_env) (v : bool) : bpf_verifier_env :=
  mk_env (insn_idx e) (prev_insn_idx e) (prog e) (head e) (stack_size e) (strict_alignment e) (cur_state e) (cur_freed e) (states e) (maps e) (id_gen e) (explore_alu_limits e) (allow_ptr_leaks e) (allow_uninit_stack e) (bypass_spec_v1 e) (bypass_spec_v4 e) (flags e) (insn_aux_data e) (pass_cnt e) (longest_mark_read_walk e) (subprog_info e) (search e) (aux e) v (allow_ptr_to_map_access e) (used_maps e) (attach e) (alloc e).
Definition set_used_maps (e : bpf_verifier_env) (v : list Z) : bpf_verifier_env :=
  mk_env (insn_idx e) (prev_insn_idx e) (prog e) (head e) (stack_size e) (strict_alignment e) (cur_state e) (cur_freed e) (states e) (maps e) (id_gen e) (explore_alu_limits e) (allow_ptr_leaks e) (allow_uninit_stack e) (bypass_spec_v1 e) (bypass_spec_v4 e) (flags e) (insn_aux_data e) (pass_cnt e) (longest_mark_read_walk e) (subprog_info e) (search e) (aux e) (seen_direct_write e) (allow_ptr_to_map_access e) v (attach e) (alloc e).
Definition set_alloc (e : bpf_verifier_env) (v : list bool) : bpf_verifier_env :=
  mk_env (insn_idx e) (prev_insn_idx e) (prog e) (head e) (stack_size e) (strict_alignment e) (cur_state e) (cur_freed e) (states e) (maps e) (id_gen e) (explore_alu_limits e) (allow_ptr_leaks e) (allow_uninit_stack e) (bypass_spec_v1 e) (bypass_spec_v4 e) (flags e) (insn_aux_data e) (pass_cnt e) (longest_mark_read_walk e) (subprog_info e) (search e) (aux e) (seen_direct_write e) (allow_ptr_to_map_access e) (used_maps e) (attach e) v.

(** ** The monad: state [bpf_verifier_env], early return of an error code *)

Definition verifier (A : Type) : Type := bpf_verifier_env -> (Z + A) * bpf_verifier_env.

#[global] Instance verifier_ret : MRet verifier := fun A a env => (inr a, env).

#[global] Instance verifier_bind : MBind verifier := fun A B f m env =>
  match m env with
  | (inl err, env) => (inl err, env)
  | (inr a, env) => f a env
  end.

Definition fail {A} (err : Z) : verifier A := fun env => (inl err, env).
Definition get : verifier bpf_verifier_env := fun env => (inr env, env).
Definition modify (f : bpf_verifier_env -> bpf_verifier_env) : verifier unit := fun env => (inr (), f env).
Definition when (b : bool) (m : verifier unit) : verifier unit := if b then m else mret ().

(** [ret = f(); ...]: run [m] and hand its error code, 0 for none, to the
    caller instead of returning early. *)
Definition catch (m : verifier unit) : verifier Z := fun env =>
  match m env with
  | (inl err, env) => (inr err, env)
  | (inr _, env) => (inr 0, env)
  end.

(** ** Access to the current frame *)

#[global] Instance reg_inhabited : Inhabited bpf_reg_state :=
  populate (mk_reg NOT_INIT 0 0 0 0 (TNUM 0 0) 0 0 0 0 0 0 0 0 None 0 0 0 false).
#[global] Instance slot_inhabited : Inhabited bpf_stack_state := populate (mk_slot inhabitant (replicate 8 STACK_INVALID)).
#[global] Instance func_inhabited : Inhabited bpf_func_state := populate (mk_func [] 0 0 0 [] []).
#[global] Instance aux_inhabited : Inhabited bpf_insn_aux_data := populate (mk_aux NOT_INIT 0 0 0 NOT_INIT 0 0 0 0 0 false false 0 false).
#[global] Instance insn_inhabited : Inhabited bpf_insn := populate (mk_insn 0 0 0 0 0).
#[global] Instance map_inhabited : Inhabited bpf_map := populate (mk_map 0 0 0 0 0 (-1) 0 false 0 false false).
#[global] Instance subprog_inhabited : Inhabited bpf_subprog_info := populate (mk_subprog 0 0 0 false false false).

Definition cur_func (env : bpf_verifier_env) : bpf_func_state := frame (cur_state env) !!! curframe (cur_state env).
Definition cur_regs (env : bpf_verifier_env) : list bpf_reg_state := regs (cur_func env).
Definition get_reg (env : bpf_verifier_env) (r : Z) : bpf_reg_state := cur_regs env !!! Z.to_nat r.

Definition upd_cur_func (f : bpf_func_state -> bpf_func_state) (env : bpf_verifier_env) : bpf_verifier_env :=
  let st := cur_state env in
  set_cur_state env (set_frame st (alter f (curframe st) (frame st))).

Definition upd_regs (f : list bpf_reg_state -> list bpf_reg_state) (env : bpf_verifier_env) : bpf_verifier_env :=
  upd_cur_func (fun fn => set_regs fn (f (regs fn))) env.

Definition put_reg (env : bpf_verifier_env) (r : Z) (v : bpf_reg_state) : bpf_verifier_env :=
  upd_regs (fun rs => <[Z.to_nat r := v]> rs) env.

(** [regs[r]], and an update of the register in place. *)
Definition reg_of (r : Z) : verifier bpf_reg_state := fun env => (inr (get_reg env r), env).
Definition upd_reg (r : Z) (f : bpf_reg_state -> bpf_reg_state) : verifier unit :=
  fun env => (inr (), put_reg env r (f (get_reg env r))).

Definition cur_aux (env : bpf_verifier_env) : bpf_insn_aux_data := insn_aux_data env !!! Z.to_nat (insn_idx env).
Definition upd_cur_aux (f : bpf_insn_aux_data -> bpf_insn_aux_data) (env : bpf_verifier_env) : bpf_verifier_env :=
  set_insn_aux_data env (alter f (Z.to_nat (insn_idx env)) (insn_aux_data env)).

Definition map_of (env : bpf_verifier_env) (ptr : Z) : bpf_map := maps env !!! ptr.

(** ** Resetting registers *)

(** [for (regno = 0; regno < n; regno++) __mark_reg_not_init(...)]. *)
Definition kill_regs (n : Z) (env : bpf_verifier_env) : bpf_verifier_env :=
  upd_regs (fun rs => imap (fun i r => if Z.of_nat i <? n then __mark_reg_not_init (flags env) r else r) rs) env.

Definition mark_reg_unknown (regno : Z) : verifier unit := fun env =>
  if regno >=? MAX_BPF_REG then (inr (), kill_regs BPF_REG_FP env)
  else upd_reg regno (__mark_reg_unknown (flags env)) env.

Definition mark_reg_not_init (regno : Z) : verifier unit := fun env =>
  if regno >=? MAX_BPF_REG then (inr (), kill_regs BPF_REG_FP env)
  else upd_reg regno (__mark_reg_not_init (flags env)) env.

Definition mark_reg_known_zero (regno : Z) : verifier unit := fun env =>
  if regno >=? MAX_BPF_REG then (inr (), kill_regs MAX_BPF_REG env)
  else upd_reg regno __mark_reg_known_zero env.

(** ** Laws *)

Create HintDb verifier discriminated.

(** The current frame exists and has its eleven registers. *)
Definition env_wf (env : bpf_verifier_env) : Prop :=
  (curframe (cur_state env) < length (frame (cur_state env)))%nat /\ length (cur_regs env) = 11%nat.

(** Register numbers the verifier lets through. *)
Definition regno_ok (r : Z) : Prop := 0 <= r < MAX_BPF_REG.

Lemma cur_func_upd f env : (curframe (cur_state env) < length (frame (cur_state env)))%nat ->
  cur_func (upd_cur_func f env) = f (cur_func env).
Proof.
  intros H; unfold cur_func, upd_cur_func; cbn.
  apply lookup_lt_is_Some_2 in H; destruct H as [x Hx].
  rewrite (list_lookup_total_correct _ _ x Hx).
  apply list_lookup_total_correct; rewrite list_lookup_alter_eq, Hx; reflexivity.
Qed.

Lemma cur_regs_upd f env : env_wf env -> cur_regs (upd_regs f env) = f (cur_regs env).
Proof. intros [H _]; unfold cur_regs, upd_regs; rewrite cur_func_upd by exact H; reflexivity. Qed.

Lemma env_wf_upd f env : env_wf env -> length (f (cur_regs env)) = 11%nat -> env_wf (upd_regs f env).
Proof.
  intros H Hl; split; [|rewrite cur_regs_upd; assumption].
  destruct H as [H _]; unfold upd_regs, upd_cur_func; cbn; rewrite length_alter; exact H.
Qed.

Lemma put_reg_wf env r v : env_wf env -> env_wf (put_reg env r v).
Proof. intros H; apply env_wf_upd; [exact H|]; rewrite length_insert; apply H. Qed.

Lemma get_put_same env r v : env_wf env -> regno_ok r -> get_reg (put_reg env r v) r = v.
Proof.
  intros H Hr; unfold get_reg, put_reg; rewrite cur_regs_upd by exact H.
  apply list_lookup_total_insert_eq; destruct H as [_ ->]; unfold regno_ok in Hr; lia.
Qed.

Lemma get_put_other env r r' v : env_wf env -> 0 <= r -> 0 <= r' -> r <> r' -> get_reg (put_reg env r v) r' = get_reg env r'.
Proof.
  intros H Hr Hr' Hne; unfold get_reg, put_reg; rewrite cur_regs_upd by exact H.
  apply list_lookup_total_insert_ne; lia.
Qed.
