(* ===== verification/Branch.v ===== *)
(** Learning from a comparison: the branch prediction and the branch
    refinement of kernel/bpf/verifier.c ([is_branch_taken], [reg_set_min_max],
    [reg_set_min_max_inv], [__reg_combine_min_max]).

    A register that admits [x] is compared with a constant: the prediction, when
    there is one, is what the interpreter's [cond_jmp] computes, and the
    register of the branch that is taken still admits [x].  The 32-bit and the
    64-bit code are instances of one width-generic refinement. *)
From Stdlib Require Import ZArith Lia Bool.
From stdpp Require Import base list gmap.
From S2P Require Import Prelude Lists Bits Bitops Tnum Bounds RegState ScalarOps ScalarBits Insn Interp Env.

Local Open Scope Z_scope.
Local Open Scope kint_scope.

(** ** Model *)

(** The [switch (opcode)] on the conditional jumps. *)
Definition jmp_of (opcode : Z) : option jmp_op :=
  if opcode =? BPF_JEQ then Some JEQ else if opcode =? BPF_JNE then Some JNE
  else if opcode =? BPF_JGT then Some JGT else if opcode =? BPF_JLT then Some JLT
  else if opcode =? BPF_JGE then Some JGE else if opcode =? BPF_JLE then Some JLE
  else if opcode =? BPF_JSGT then Some JSGT else if opcode =? BPF_JSLT then Some JSLT
  else if opcode =? BPF_JSGE then Some JSGE else if opcode =? BPF_JSLE then Some JSLE
  else if opcode =? BPF_JSET then Some JSET else None.

(** [if (yes) return 1; else if (no) return 0; break;]. *)
Definition decided (yes no : bool) : Z := if yes then 1 else if no then 0 else -1.

Definition is_branch32_taken (reg : bpf_reg_state) (val opcode : Z) : Z :=
  let subreg := tnum_subreg (var_off reg) in
  let sval := s32 val in
  match jmp_of opcode with
  | Some JEQ => if tnum_is_const subreg then Z.b2z (tnum_equals_const subreg val) else -1
  | Some JNE => if tnum_is_const subreg then Z.b2z (negb (tnum_equals_const subreg val)) else -1
  | Some JSET => decided (negb ((unot 64 (mask subreg) .& value subreg) .& val =? 0)) ((mask subreg .| value subreg) .& val =? 0)
  | Some JGT => decided (u32_min_value reg >? val) (u32_max_value reg <=? val)
  | Some JSGT => decided (s32_min_value reg >? sval) (s32_max_value reg <=? sval)
  | Some JLT => decided (u32_max_value reg <? val) (u32_min_value reg >=? val)
  | Some JSLT => decided (s32_max_value reg <? sval) (s32_min_value reg >=? sval)
  | Some JGE => decided (u32_min_value reg >=? val) (u32_max_value reg <? val)
  | Some JSGE => decided (s32_min_value reg >=? sval) (s32_max_value reg <? sval)
  | Some JLE => decided (u32_max_value reg <=? val) (u32_min_value reg >? val)
  | Some JSLE => decided (s32_max_value reg <=? sval) (s32_min_value reg >? sval)
  | None => -1
  end.

Definition is_branch64_taken (reg : bpf_reg_state) (val opcode : Z) : Z :=
  let sval := s64 val in
  match jmp_of opcode with
  | Some JEQ => if tnum_is_const (var_off reg) then Z.b2z (tnum_equals_const (var_off reg) val) else -1
  | Some JNE => if tnum_is_const (var_off reg) then Z.b2z (negb (tnum_equals_const (var_off reg) val)) else -1
  | Some JSET => decided (negb ((unot 64 (mask (var_off reg)) .& value (var_off reg)) .& val =? 0))
                         ((mask (var_off reg) .| value (var_off reg)) .& val =? 0)
  | Some JGT => decided (umin_value reg >? val) (umax_value reg <=? val)
  | Some JSGT => decided (smin_value reg >? sval) (smax_value reg <=? sval)
  | Some JLT => decided (umax_value reg <? val) (umin_value reg >=? val)
  | Some JSLT => decided (smax_value reg <? sval) (smin_value reg >=? sval)
  | Some JGE => decided (umin_value reg >=? val) (umax_value reg <? val)
  | Some JSGE => decided (smin_value reg >=? sval) (smax_value reg <? sval)
  | Some JLE => decided (umax_value reg <=? val) (umin_value reg >? val)
  | Some JSLE => decided (smax_value reg <=? sval) (smin_value reg >? sval)
  | None => -1
  end.

Definition is_branch_taken (reg : bpf_reg_state) (val opcode : Z) (is_jmp32 : bool) : Z :=
  if __is_pointer_value false reg then
    if negb (reg_type_not_null (type_ reg)) then -1
    else if negb (val =? 0) then -1
    else if opcode =? BPF_JEQ then 0
    else if opcode =? BPF_JNE then 1
    else -1
  else if is_jmp32 then is_branch32_taken reg (u32 val) opcode
  else is_branch64_taken reg val opcode.

(** The two registers belong to different states; the result is the new
    [(true_reg, false_reg)]. *)
Definition reg_set_min_max (true_reg false_reg : bpf_reg_state) (val val32 opcode : Z) (is_jmp32 : bool)
    : bpf_reg_state * bpf_reg_state :=
  let false_32off := tnum_subreg (var_off false_reg) in
  let false_64off := var_off false_reg in
  let true_32off := tnum_subreg (var_off true_reg) in
  let true_64off := var_off true_reg in
  let sval := s64 val in
  let sval32 := s32 val32 in
  let sync (true_reg false_reg : bpf_reg_state) (true_32off true_64off false_32off false_64off : tnum) :=
    if is_jmp32 then
      (__reg_combine_32_into_64 (set_var_off true_reg (tnum_or (tnum_clear_subreg true_64off) (tnum_subreg true_32off))),
       __reg_combine_32_into_64 (set_var_off false_reg (tnum_or (tnum_clear_subreg false_64off) (tnum_subreg false_32off))))
    else
      (__reg_combine_64_into_32 (set_var_off true_reg true_64off),
       __reg_combine_64_into_32 (set_var_off false_reg false_64off)) in
  let bounded (true_reg false_reg : bpf_reg_state) := sync true_reg false_reg true_32off true_64off false_32off false_64off in
  let known (reg : bpf_reg_state) := if is_jmp32 then __mark_reg32_known reg val32 else ___mark_reg_known reg val in
  let greater (strict : bool) :=
    if is_jmp32 then
      let false_umax := if strict then val32 else u32 (val32 - 1) in
      let true_umin := if strict then u32 (val32 + 1) else val32 in
      bounded (set_u32_min_value true_reg (Z.max (u32_min_value true_reg) true_umin))
              (set_u32_max_value false_reg (Z.min (u32_max_value false_reg) false_umax))
    else
      let false_umax := if strict then val else u64 (val - 1) in
      let true_umin := if strict then u64 (val + 1) else val in
      bounded (set_umin_value true_reg (Z.max (umin_value true_reg) true_umin))
              (set_umax_value false_reg (Z.min (umax_value false_reg) false_umax)) in
  let sgreater (strict : bool) :=
    if is_jmp32 then
      let false_smax := if strict then sval32 else s32 (sval32 - 1) in
      let true_smin := if strict then s32 (sval32 + 1) else sval32 in
      bounded (set_s32_min_value true_reg (Z.max (s32_min_value true_reg) true_smin))
              (set_s32_max_value false_reg (Z.min (s32_max_value false_reg) false_smax))
    else
      let false_smax := if strict then sval else s64 (sval - 1) in
      let true_smin := if strict then s64 (sval + 1) else sval in
      bounded (set_smin_value true_reg (Z.max (smin_value true_reg) true_smin))
              (set_smax_value false_reg (Z.min (smax_value false_reg) false_smax)) in
  let less (strict : bool) :=
    if is_jmp32 then
      let false_umin := if strict then val32 else u32 (val32 + 1) in
      let true_umax := if strict then u32 (val32 - 1) else val32 in
      bounded (set_u32_max_value true_reg (Z.min (u32_max_value true_reg) true_umax))
              (set_u32_min_value false_reg (Z.max (u32_min_value false_reg) false_umin))
    else
      let false_umin := if strict then val else u64 (val + 1) in
      let true_umax := if strict then u64 (val - 1) else val in
      bounded (set_umax_value true_reg (Z.min (umax_value true_reg) true_umax))
              (set_umin_value false_reg (Z.max (umin_value false_reg) false_umin)) in
  let sless (strict : bool) :=
    if is_jmp32 then
      let false_smin := if strict then sval32 else s32 (sval32 + 1) in
      let true_smax := if strict then s32 (sval32 - 1) else sval32 in
      bounded (set_s32_max_value true_reg (Z.min (s32_max_value true_reg) true_smax))
              (set_s32_min_value false_reg (Z.max (s32_min_value false_reg) false_smin))
    else
      let false_smin := if strict then sval else s64 (sval + 1) in
      let true_smax := if strict then s64 (sval - 1) else sval in
      bounded (set_smax_value true_reg (Z.min (smax_value true_reg) true_smax))
              (set_smin_value false_reg (Z.max (smin_value false_reg) false_smin)) in
  if __is_pointer_value false false_reg then (true_reg, false_reg)
  else match jmp_of opcode with
  | Some JEQ => bounded (known true_reg) false_reg
  | Some JNE => bounded true_reg (known false_reg)
  | Some JSET =>
    if is_jmp32 then
      sync true_reg false_reg
        (if is_power_of_2 val32 then tnum_or true_32off (tnum_const val32) else true_32off) true_64off
        (tnum_and false_32off (tnum_const (unot 32 val32))) false_64off
    else
      sync true_reg false_reg
        true_32off (if is_power_of_2 val then tnum_or true_64off (tnum_const val) else true_64off)
        false_32off (tnum_and false_64off (tnum_const (unot 64 val)))
  | Some JGE => greater false
  | Some JGT => greater true
  | Some JSGE => sgreater false
  | Some JSGT => sgreater true
  | Some JLE => less false
  | Some JLT => less true
  | Some JSLE => sless false
  | Some JSLT => sless true
  | None => (true_reg, false_reg)
  end.

Definition opcode_flip : list (Z * Z) :=
  [(BPF_JEQ, BPF_JEQ); (BPF_JNE, BPF_JNE); (BPF_JSET, BPF_JSET);
   (BPF_JGE, BPF_JLE); (BPF_JGT, BPF_JLT); (BPF_JLE, BPF_JGE); (BPF_JLT, BPF_JGT);
   (BPF_JSGE, BPF_JSLE); (BPF_JSGT, BPF_JSLT); (BPF_JSLE, BPF_JSGE); (BPF_JSLT, BPF_JSGT)].

Definition reg_set_min_max_inv (true_reg false_reg : bpf_reg_state) (val val32 opcode : Z) (is_jmp32 : bool)
    : bpf_reg_state * bpf_reg_state :=
  let opcode := table_get (map (fun e => (ushr (fst e) 4, snd e)) opcode_flip) 0 (ushr opcode 4) in
  if negb (opcode =? 0) then reg_set_min_max true_reg false_reg val val32 opcode is_jmp32 else (true_reg, false_reg).

(** On the registers of one state; [src] and [dst] may be the same register. *)
Definition __reg_combine_min_max (src dst : Z) (rs : list bpf_reg_state) : list bpf_reg_state :=
  let reg r (rs : list bpf_reg_state) := rs !!! Z.to_nat r in
  let both f (rs : list bpf_reg_state) := alter f (Z.to_nat src) (alter f (Z.to_nat dst) rs) in
  let in_turn f (rs : list bpf_reg_state) := alter f (Z.to_nat dst) (alter f (Z.to_nat src) rs) in
  let rs := both (fun r => set_umin_value r (Z.max (umin_value (reg src rs)) (umin_value (reg dst rs)))) rs in
  let rs := both (fun r => set_umax_value r (Z.min (umax_value (reg src rs)) (umax_value (reg dst rs)))) rs in
  let rs := both (fun r => set_smin_value r (Z.max (smin_value (reg src rs)) (smin_value (reg dst rs)))) rs in
  let rs := both (fun r => set_smax_value r (Z.min (smax_value (reg src rs)) (smax_value (reg dst rs)))) rs in
  let rs := both (fun r => set_var_off r (tnum_intersect (var_off (reg src rs)) (var_off (reg dst rs)))) rs in
  let rs := in_turn __update_reg_bounds rs in
  let rs := in_turn __reg_deduce_bounds rs in
  let rs := in_turn __reg_bound_offset rs in
  in_turn __update_reg_bounds rs.

(** The registers of the branch taken and of the fall-through. *)
Definition reg_combine_min_max (src dst opcode : Z) (true_regs false_regs : list bpf_reg_state)
    : list bpf_reg_state * list bpf_reg_state :=
  if opcode =? BPF_JEQ then (__reg_combine_min_max src dst true_regs, false_regs)
  else if opcode =? BPF_JNE then (true_regs, __reg_combine_min_max src dst false_regs)
  else (true_regs, false_regs).

(** ** Prediction *)

Lemma jmp_of_code op : jmp_of (jmp_code op) = Some op.
Proof. destruct op; reflexivity. Qed.

(** Both widths of the prediction: known bits [t] and bounds [b] of the [w]
    low bits. *)
Definition branch_pred (w : Z) (t : tnum) (b : bounds) (val : Z) (op : jmp_op) : Z :=
  let sval := swrap w val in
  match op with
  | JEQ => if tnum_is_const t then Z.b2z (tnum_equals_const t val) else -1
  | JNE => if tnum_is_const t then Z.b2z (negb (tnum_equals_const t val)) else -1
  | JSET => decided (negb ((unot 64 (mask t) .& value t) .& val =? 0)) ((mask t .| value t) .& val =? 0)
  | JGT => decided (bumin b >? val) (bumax b <=? val)
  | JSGT => decided (bsmin b >? sval) (bsmax b <=? sval)
  | JLT => decided (bumax b <? val) (bumin b >=? val)
  | JSLT => decided (bsmax b <? sval) (bsmin b >=? sval)
  | JGE => decided (bumin b >=? val) (bumax b <? val)
  | JSGE => decided (bsmin b >=? sval) (bsmax b <? sval)
  | JLE => decided (bumax b <=? val) (bumin b >? val)
  | JSLE => decided (bsmax b <=? sval) (bsmin b >? sval)
  end.

Lemma is_branch32_eq reg val op : is_branch32_taken reg val (jmp_code op) =
  branch_pred 32 (tnum_subreg (var_off reg)) (b32 reg) val op.
Proof. destruct op; reflexivity. Qed.

Lemma is_branch64_eq reg val op : is_branch64_taken reg val (jmp_code op) = branch_pred 64 (var_off reg) (b64 reg) val op.
Proof. destruct op; reflexivity. Qed.

Lemma decided_sound yes no c : (yes = true -> c = true) -> (no = true -> c = false) ->
  decided yes no = -1 \/ decided yes no = Z.b2z c.
Proof. unfold decided; intros Hy Hn; destruct yes; [rewrite Hy by reflexivity; auto|]; destruct no; [rewrite Hn by reflexivity|]; auto. Qed.

Lemma equals_const_mem t u val : tnum_mem t u -> tnum_is_const t = true -> tnum_equals_const t val = (u =? val).
Proof.
  intros Hm Hc; rewrite (tnum_is_const_mem t u Hc Hm).
  unfold tnum_equals_const; rewrite Hc; reflexivity.
Qed.

(** Known set bits are below the value, possibly set ones above it. *)
Lemma known_below t u : tnum_mem t u -> subbits (unot 64 (mask t) .& value t) u.
Proof.
  intros Hm; apply subbits_spec; intros i Hi H; rewrite Z.land_spec, andb_true_iff in H.
  apply (proj1 (subbits_spec _ _) (tnum_mem_lower _ _ Hm) i Hi), H.
Qed.

Lemma possible_above t u : tnum_mem t u -> subbits u (mask t .| value t).
Proof.
  intros Hm; apply subbits_spec; intros i Hi H; pose proof (tnum_mem_bit t u i Hm) as E; rewrite H in E.
  rewrite Z.lor_spec, E; destruct (Z.testbit (mask t) i); reflexivity.
Qed.

Lemma subbits_land a b v : subbits a b -> Z.land b v = 0 -> Z.land a v = 0.
Proof.
  intros H E; apply Z.bits_inj'; intros i Hi; rewrite Z.land_spec, Z.testbit_0_l.
  assert (F : Z.testbit (Z.land b v) i = false) by (rewrite E; apply Z.testbit_0_l); rewrite Z.land_spec in F.
  destruct (Z.testbit a i) eqn:A; [|reflexivity]; rewrite (proj1 (subbits_spec _ _) H i Hi A) in F; exact F.
Qed.

Lemma branch_pred_sound w t b val op x src : 0 < w -> tnum_mem t (uwrap w x) -> bnd_in w b x -> uwrap w src = val ->
  branch_pred w t b val op = -1 \/ branch_pred w t b val op = Z.b2z (cond_jmp w op x src).
Proof.
  intros Hw Hm [Hs Hu] Hv; assert (Ev : swrap w src = swrap w val) by (rewrite <- Hv; symmetry; apply swrap_uwrap; lia).
  destruct op; cbn [branch_pred cond_jmp]; rewrite ?Hv, ?Ev.
  1, 2: destruct (tnum_is_const t) eqn:C; [rewrite (equals_const_mem _ _ _ Hm C)|]; auto.
  9: { apply decided_sound; rewrite ?negb_true_iff, ?negb_false_iff, ?Z.eqb_neq, ?Z.eqb_eq.
       - intros N E; apply N; exact (subbits_land _ _ _ (known_below _ _ Hm) E).
       - intros E; exact (subbits_land _ _ _ (possible_above _ _ Hm) E). }
  all: apply decided_sound; intros H; lia.
Qed.

Definition jmp_width (is_jmp32 : bool) : Z := if is_jmp32 then 32 else 64.

Lemma scalar_not_pointer reg : type_ reg = SCALAR_VALUE -> __is_pointer_value false reg = false.
Proof. unfold __is_pointer_value; intros ->; reflexivity. Qed.

(** The prediction on a scalar is the interpreter's decision. *)
Lemma predict_scalar reg x val src op is_jmp32 : type_ reg = SCALAR_VALUE -> reg_mem reg x -> uin 64 val ->
  uwrap (jmp_width is_jmp32) src = uwrap (jmp_width is_jmp32) val ->
  let p := is_branch_taken reg val (jmp_code op) is_jmp32 in
  p = -1 \/ p = Z.b2z (cond_jmp (jmp_width is_jmp32) op x src).
Proof.
  intros Ht (Hm & H64 & H32) Hv E; cbn zeta; unfold is_branch_taken; rewrite scalar_not_pointer by exact Ht.
  destruct is_jmp32; cbn [jmp_width] in *; rewrite ?is_branch32_eq, ?is_branch64_eq; apply branch_pred_sound; trivial; try lia.
  - apply tnum_subreg_mem; exact Hm.
  - rewrite uwrap_id by eauto with kint; exact Hm.
  - rewrite E; apply uwrap_id; exact Hv.
Qed.

(** ** Refinement *)

(** What the comparison with [val] adds to the bounds of the [w] low bits. *)
Definition refine (w : Z) (op : jmp_op) (taken : bool) (val : Z) (b : bounds) : bounds :=
  let sval := swrap w val in
  let umin v := mk_bounds (bsmin b) (bsmax b) (Z.max (bumin b) v) (bumax b) in
  let umax v := mk_bounds (bsmin b) (bsmax b) (bumin b) (Z.min (bumax b) v) in
  let smin v := mk_bounds (Z.max (bsmin b) v) (bsmax b) (bumin b) (bumax b) in
  let smax v := mk_bounds (bsmin b) (Z.min (bsmax b) v) (bumin b) (bumax b) in
  match op, taken with
  | JEQ, true | JNE, false => mk_bounds sval sval val val
  | JEQ, false | JNE, true | JSET, _ => b
  | JGT, true => umin (uwrap w (val + 1)) | JGT, false => umax val
  | JGE, true => umin val | JGE, false => umax (uwrap w (val - 1))
  | JLT, true => umax (uwrap w (val - 1)) | JLT, false => umin val
  | JLE, true => umax val | JLE, false => umin (uwrap w (val + 1))
  | JSGT, true => smin (swrap w (sval + 1)) | JSGT, false => smax sval
  | JSGE, true => smin sval | JSGE, false => smax (swrap w (sval - 1))
  | JSLT, true => smax (swrap w (sval - 1)) | JSLT, false => smin sval
  | JSLE, true => smax sval | JSLE, false => smin (swrap w (sval + 1))
  end.

(** What it adds to their known bits. *)
Definition refine_off (w : Z) (op : jmp_op) (taken : bool) (val : Z) (t : tnum) : tnum :=
  match op, taken with
  | JSET, true => if is_power_of_2 val then tnum_or t (tnum_const val) else t
  | JSET, false => tnum_and t (tnum_const (unot w val))
  | _, _ => t
  end.

(** One register of [reg_set_min_max]. *)
Definition branch_reg (is_jmp32 taken : bool) (op : jmp_op) (val val32 : Z) (r : bpf_reg_state) : bpf_reg_state :=
  if is_jmp32 then
    __reg_combine_32_into_64
      (set_var_off (set_b32 r (refine 32 op taken val32 (b32 r)))
        (tnum_or (tnum_clear_subreg (var_off r)) (tnum_subreg (refine_off 32 op taken val32 (tnum_subreg (var_off r))))))
  else
    __reg_combine_64_into_32
      (set_var_off (set_b64 r (refine 64 op taken val (b64 r))) (refine_off 64 op taken val (var_off r))).

Lemma combine_64_b32 r q : __mark_reg32_unbounded r = __mark_reg32_unbounded q ->
  __reg_combine_64_into_32 r = __reg_combine_64_into_32 q.
Proof. unfold __reg_combine_64_into_32; intros ->; reflexivity. Qed.

Lemma reg_set_min_max_eq tr fr val val32 op is_jmp32 : uin 32 val32 -> type_ fr = SCALAR_VALUE ->
  reg_set_min_max tr fr val val32 (jmp_code op) is_jmp32 =
  (branch_reg is_jmp32 true op val val32 tr, branch_reg is_jmp32 false op val val32 fr).
Proof.
  intros Hv Ht; unfold reg_set_min_max; rewrite scalar_not_pointer, jmp_of_code by exact Ht; unfold branch_reg.
  destruct is_jmp32.
  - assert (K : forall r t, set_var_off (__mark_reg32_known r val32) t =
      set_var_off (set_b32 r (mk_bounds (s32 val32) (s32 val32) val32 val32)) t)
      by (intros; unfold __mark_reg32_known; rewrite (uwrap_id 32 val32) by exact Hv; reflexivity).
    destruct op; apply (f_equal2 pair); apply (f_equal __reg_combine_32_into_64); solve [apply K|reflexivity].
  - destruct op; apply (f_equal2 pair); apply combine_64_b32; reflexivity.
Qed.

Lemma refine_ok w op taken val b : 1 < w -> uin w val -> bnd_ok w b -> bnd_ok w (refine w op taken val b).
Proof.
  intros Hw Hv (H1 & H2 & H3 & H4); pose proof (swrap_range w val ltac:(lia)) as Hs.
  assert (U : forall z, uin w (uwrap w z)) by (intros; apply uwrap_range; lia).
  assert (S : forall z, sin w (swrap w z)) by (intros; apply swrap_range; lia).
  pose proof (U (val + 1)); pose proof (U (val - 1)); pose proof (S (swrap w val + 1)); pose proof (S (swrap w val - 1)).
  unfold bnd_ok, uin, sin in *; destruct op, taken; cbn [refine bsmin bsmax bumin bumax]; lia.
Qed.

Lemma refine_in w op taken val b x src : 1 < w -> bnd_in w b x -> uwrap w src = val ->
  cond_jmp w op x src = taken -> bnd_in w (refine w op taken val b) x.
Proof.
  intros Hw [Hs Hu] Hv C; assert (Ev : swrap w src = swrap w val) by (rewrite <- Hv; symmetry; apply swrap_uwrap; lia).
  pose proof (uwrap_range w x ltac:(lia)) as Rx; pose proof (swrap_range w x ltac:(lia)) as Sx.
  pose proof (uwrap_range w src ltac:(lia)) as Rv; pose proof (swrap_range w src ltac:(lia)) as Sv.
  rewrite Hv in Rv; rewrite Ev in Sv; unfold uin, sin in *.
  assert (P : forall z, 0 <= z < 2 ^ w -> uwrap w z = z) by (intros; apply uwrap_id; assumption).
  assert (Q : forall z, - 2 ^ (w - 1) <= z < 2 ^ (w - 1) -> swrap w z = z) by (intros; apply swrap_id; [lia|assumption]).
  unfold bnd_in; destruct op, taken; cbn [refine cond_jmp bsmin bsmax bumin bumax] in *;
    rewrite ?Hv, ?Ev, ?Z.gtb_ltb, ?Z.geb_leb, ?negb_true_iff, ?negb_false_iff in C; trivial;
    rewrite ?Z.eqb_eq, ?Z.eqb_neq, ?Z.ltb_lt, ?Z.ltb_ge, ?Z.leb_le, ?Z.leb_gt in C; 
    rewrite ?(P (val + 1)), ?(P (val - 1)), ?(Q (swrap w val + 1)), ?(Q (swrap w val - 1)) by lia; try lia.
  all: assert (E : swrap w x = swrap w val) by (rewrite <- Ev; apply swrap_weq; [lia|unfold weq; congruence]); lia.
Qed.

(** The bit a taken [JSET] with a power of two tests is set; after one that
    falls through, no bit of the operand is. *)
Lemma land_pow2_set u k : 0 <= k -> Z.land u (2 ^ k) <> 0 -> Z.lor u (2 ^ k) = u.
Proof.
  intros Hk H; assert (T : Z.testbit u k = true).
  { apply not_false_iff_true; intros F; apply H, Z.bits_inj'; intros i Hi.
    rewrite Z.land_spec, Z.pow2_bits_eqb, Z.testbit_0_l by lia; destruct (Z.eqb_spec k i); [subst; rewrite F|apply andb_false_r]; reflexivity. }
  apply Z.bits_inj'; intros i Hi; rewrite Z.lor_spec, Z.pow2_bits_eqb by lia.
  destruct (Z.eqb_spec k i); [subst; rewrite T|apply orb_false_r]; reflexivity.
Qed.

Lemma land_unot_id w u v : 0 <= w -> uin w u -> Z.land u v = 0 -> Z.land u (unot w v) = u.
Proof.
  intros Hw Hu H; rewrite land_unot by assumption; apply Z.bits_inj'; intros i Hi.
  assert (E : Z.testbit (Z.land u v) i = false) by (rewrite H; apply Z.testbit_0_l); rewrite Z.land_spec in E.
  rewrite Z.ldiff_spec; destruct (Z.testbit u i), (Z.testbit v i); cbn in *; congruence.
Qed.

Lemma refine_off_sound w op taken val t u x src : w = 32 \/ w = 64 -> tnum_ok t -> tnum_mem t u -> u = uwrap w x ->
  uwrap w src = val -> cond_jmp w op x src = taken ->
  tnum_ok (refine_off w op taken val t) /\ tnum_mem (refine_off w op taken val t) u.
Proof.
  intros Hw Ht Hm Hu Hv C; assert (Uv : uin 64 val) by (subst val; apply (uin_uwrap_le w 64); lia).
  assert (Un : uin 64 (unot w val)) by (unfold unot; apply (uin_uwrap_le w 64); lia).
  destruct op; cbn [refine_off]; auto; cbn [cond_jmp] in C; rewrite Hv, <- Hu in C.
  destruct taken; [apply negb_true_iff, Z.eqb_neq in C|apply negb_false_iff, Z.eqb_eq in C].
  - destruct (is_power_of_2 val) eqn:P; auto; apply is_power_of_2_spec in P; [|exact Uv]; destruct P as (k & Hk & Ek).
    split; [apply tnum_or_ok; auto using tnum_const_ok|].
    assert (E : Z.lor u val = u) by (rewrite Ek; apply land_pow2_set; [lia|rewrite <- Ek; exact C]).
    rewrite <- E.
    apply tnum_or_mem; auto using tnum_const_ok, tnum_const_mem.
  - split; [apply tnum_and_ok; auto using tnum_const_ok|].
    assert (E : Z.land u (unot w val) = u) by (apply land_unot_id; [lia|rewrite Hu; apply uwrap_range; lia|exact C]).
    rewrite <- E.
    apply tnum_and_mem; auto using tnum_const_ok, tnum_const_mem.
Qed.

Lemma branch_reg_inv is_jmp32 taken op val val32 r x src : reg_ok r -> reg_mem r x ->
  uwrap (jmp_width is_jmp32) src = (if is_jmp32 then val32 else val) ->
  cond_jmp (jmp_width is_jmp32) op x src = taken -> reg_inv (branch_reg is_jmp32 taken op val val32 r) x.
Proof.
  intros (Ht & B64 & B32) (Hm & I64 & I32) Hv C; assert (Hx : uin 64 x) by eauto with kint.
  destruct is_jmp32; cbn [jmp_width branch_reg] in *.
  - assert (V : uin 32 val32) by (subst val32; apply uwrap_range; lia).
    destruct (refine_off_sound 32 op taken val32 (tnum_subreg (var_off r)) (u32 x) x src) as [To Tm];
      auto using tnum_subreg_ok, tnum_subreg_mem.
    apply combine_32_into_64_inv; cbn [set_var_off var_off]; change (b32 (set_var_off ?q _)) with (b32 q); rewrite ?b32_set.
    + apply tnum_or_ok; [apply tnum_clear_subreg_ok|apply tnum_subreg_ok]; assumption.
    + apply refine_ok; trivial; lia.
    + apply tnum_join_mem; auto using tnum_subreg_ok; rewrite <- (u32_u32 x); apply tnum_subreg_mem; exact Tm.
    + eapply refine_in; eauto; lia.
  - assert (V : uin 64 val) by (subst val; apply uwrap_range; lia).
    destruct (refine_off_sound 64 op taken val (var_off r) x x src) as [To Tm]; auto; [symmetry; apply uwrap_id; exact Hx|].
    apply combine_64_into_32_inv; cbn [set_var_off var_off]; change (b64 (set_var_off ?q _)) with (b64 q); rewrite ?b64_set; trivial.
    + apply refine_ok; trivial; lia.
    + eapply refine_in; eauto; lia.
Qed.

(** ** Flipped comparison *)

Definition jmp_flip (op : jmp_op) : jmp_op :=
  match op with
  | JEQ => JEQ | JNE => JNE | JSET => JSET
  | JGE => JLE | JGT => JLT | JLE => JGE | JLT => JGT
  | JSGE => JSLE | JSGT => JSLT | JSLE => JSGE | JSLT => JSGT
  end.

Lemma reg_set_min_max_inv_eq tr fr val val32 op is_jmp32 :
  reg_set_min_max_inv tr fr val val32 (jmp_code op) is_jmp32 = reg_set_min_max tr fr val val32 (jmp_code (jmp_flip op)) is_jmp32.
Proof. destruct op; reflexivity. Qed.

Lemma cond_jmp_flip w op x y : cond_jmp w (jmp_flip op) y x = cond_jmp w op x y.
Proof.
  destruct op; cbn; rewrite ?Z.gtb_ltb, ?Z.geb_leb; trivial; [apply Z.eqb_sym|f_equal; apply Z.eqb_sym|].
  rewrite Z.land_comm; reflexivity.
Qed.

(** ** Equal registers *)

Section Equal.
Variables (src dst x : Z) (n : nat).
Hypothesis Hsrc : (Z.to_nat src < n)%nat.
Hypothesis Hdst : (Z.to_nat dst < n)%nat.

Definition pair_ok (P : bpf_reg_state -> Prop) (rs : list bpf_reg_state) : Prop :=
  length rs = n /\ P (rs !!! Z.to_nat src) /\ P (rs !!! Z.to_nat dst).

Lemma alter_pair (P : bpf_reg_state -> Prop) f i rs : (forall r, P r -> P (f r)) -> (i < n)%nat -> pair_ok P rs -> pair_ok P (alter f i rs).
Proof.
  intros Hf Hi (L & H1 & H2); split; [rewrite length_alter; exact L|].
  rewrite !total_alter by lia; split; destruct (decide _); auto.
Qed.

Lemma both_pair (P : bpf_reg_state -> Prop) f rs : (forall r, P r -> P (f r)) -> pair_ok P rs ->
  pair_ok P (alter f (Z.to_nat src) (alter f (Z.to_nat dst) rs)).
Proof using Hsrc Hdst. intros; apply alter_pair; auto; apply alter_pair; auto. Qed.

Lemma step_pair (P Q : bpf_reg_state -> Prop) f rs : (forall r, P r -> Q (f r)) -> (forall r, Q r -> Q (f r)) -> pair_ok P rs ->
  pair_ok Q (alter f (Z.to_nat dst) (alter f (Z.to_nat src) rs)).
Proof using Hsrc Hdst.
  intros Hf Hq (L & H1 & H2); split; [rewrite !length_alter; exact L|].
  rewrite !total_alter by (rewrite ?length_alter; lia); split;
    destruct (decide (Z.to_nat dst = _)), (decide (Z.to_nat src = _)); try congruence; auto.
Qed.

Let adm (r : bpf_reg_state) : Prop := reg_ok r /\ reg_mem r x.

(** Unsigned bounds that agree with the signed ones about the sign. *)
Let halved (r : bpf_reg_state) : Prop :=
  adm r /\ (0 <= smin_value r -> umax_value r < 2 ^ 63) /\ (0 <= s32_min_value r -> u32_max_value r < 2 ^ 31).

Lemma deduce_halved r : adm r -> halved (__reg_deduce_bounds r).
Proof using.
  clear Hsrc Hdst n src dst; intros [Hok Hm]; split; [split; [apply deduce_reg_ok|apply deduce_mem]; assumption|].
  destruct Hok as (_ & H64 & H32); destruct Hm as (_ & H64m & H32m); split.
  - pose proof (deduce_sync 64 ltac:(lia) _ x H64 H64m) as H; rewrite <- b64_deduce in H; exact H.
  - pose proof (deduce_sync 32 ltac:(lia) _ x H32 H32m) as H; rewrite <- b32_deduce in H; exact H.
Qed.

Lemma meet_adm p q r : adm p -> adm q -> adm r ->
  adm (set_umin_value r (Z.max (umin_value p) (umin_value q))) /\ adm (set_umax_value r (Z.min (umax_value p) (umax_value q))) /\
  adm (set_smin_value r (Z.max (smin_value p) (smin_value q))) /\ adm (set_smax_value r (Z.min (smax_value p) (smax_value q))) /\
  adm (set_var_off r (tnum_intersect (var_off p) (var_off q))).
Proof using.
  clear Hsrc Hdst n src dst; intros [(T1 & (? & ? & ? & ?) & _) (M1 & [? ?] & _)] [(T2 & (? & ? & ? & ?) & _) (M2 & [? ?] & _)]
    [(? & (? & ? & ? & ?) & ?) (? & [? ?] & ?)]; cbn in *.
  refine (conj _ (conj _ (conj _ (conj _ _)))); (split; split3; cbn; trivial);
    try solve [apply tnum_intersect_ok; assumption|apply tnum_intersect_mem; assumption].
  all: unfold bnd_ok, bnd_in, uin, sin in *; cbn in *; lia.
Qed.

Lemma combine_min_max_inv rs : pair_ok (fun r => reg_ok r /\ reg_mem r x) rs ->
  pair_ok (fun r => reg_inv r x) (__reg_combine_min_max src dst rs).
Proof using Hsrc Hdst.
  fold adm; intros H; unfold __reg_combine_min_max; cbv zeta.
  assert (U : forall r, adm r -> adm (__update_reg_bounds r)) by (intros r [? ?]; split; [apply update_ok|apply update_mem]; assumption).
  apply step_pair with (P := fun r => reg_inv r x); auto using update_inv.
  apply step_pair with (P := halved).
  { intros r ([? ?] & ? & ?); split; [|split]; [apply bound_offset_ok|apply bound_offset_mem|apply (bound_sync _ x)]; auto. }
  { intros r; apply bound_offset_inv. }
  apply step_pair with (P := adm); [exact deduce_halved|intros r [? _]; apply deduce_halved; assumption|].
  apply step_pair with (P := adm); auto.
  repeat match goal with |- pair_ok _ (alter _ _ (alter _ _ ?q)) =>
    let G := fresh in assert (G : pair_ok adm q); [|apply both_pair; [intros r R; apply meet_adm; trivial; apply G|exact G]] end.
  exact H.
Qed.
End Equal.

(** ** What a comparison leaves alone *)

(** Everything but the known bits and the bounds. *)
Definition reg_tag (r : bpf_reg_state) :=
  (type_ r, raw r, off r, id r, ref_obj_id r, parent r, frameno r, subreg_def r, live r, precise r).

Create Rewrite HintDb reg_tag.

Lemma tag_update r : reg_tag (__update_reg_bounds r) = reg_tag r.
Proof. reflexivity. Qed.

Lemma tag_deduce r : reg_tag (__reg_deduce_bounds r) = reg_tag r.
Proof.
  unfold __reg_deduce_bounds, __reg64_deduce_bounds, __reg32_deduce_bounds.
  repeat match goal with |- context [if ?c then _ else _] => destruct c end; reflexivity.
Qed.

Lemma tag_bound r : reg_tag (__reg_bound_offset r) = reg_tag r.
Proof. reflexivity. Qed.

#[export] Hint Rewrite tag_update tag_deduce tag_bound : reg_tag.

Lemma tag_combine_32 r : reg_tag (__reg_combine_32_into_64 r) = reg_tag r.
Proof.
  unfold __reg_combine_32_into_64; autorewrite with reg_tag; destruct (tnum_equals_const _ _); [|reflexivity].
  unfold __reg_assign_32_into_64; match goal with |- context [if ?c then _ else _] => destruct c end; reflexivity.
Qed.

Lemma tag_combine_64 r : reg_tag (__reg_combine_64_into_32 r) = reg_tag r.
Proof.
  unfold __reg_combine_64_into_32; autorewrite with reg_tag.
  match goal with |- context [if ?c then _ else _] => destruct c end;
    match goal with |- context [if ?c then _ else _] => destruct c end; reflexivity.
Qed.

Lemma tag_branch_reg is_jmp32 taken op val val32 r : reg_tag (branch_reg is_jmp32 taken op val val32 r) = reg_tag r.
Proof. destruct is_jmp32; cbn [branch_reg]; rewrite ?tag_combine_32, ?tag_combine_64; reflexivity. Qed.

Lemma tag_alter f i j (rs : list bpf_reg_state) : (forall r, reg_tag (f r) = reg_tag r) -> reg_tag (alter f i rs !!! j) = reg_tag (rs !!! j).
Proof.
  intros Hf; rewrite !list_lookup_total_alt; destruct (decide (i = j)) as [<-|N].
  - rewrite list_lookup_alter_eq; destruct (rs !! i); cbn; auto.
  - rewrite list_lookup_alter_ne by exact N; reflexivity.
Qed.

Lemma tag_combine_min_max src dst rs j : reg_tag (__reg_combine_min_max src dst rs !!! j) = reg_tag (rs !!! j).
Proof. unfold __reg_combine_min_max; cbv zeta; rewrite !tag_alter by (intros; autorewrite with reg_tag; reflexivity); reflexivity. Qed.

Lemma combine_min_max_other src dst rs j : Z.to_nat src <> j -> Z.to_nat dst <> j ->
  __reg_combine_min_max src dst rs !!! j = rs !!! j.
Proof. intros N1 N2; unfold __reg_combine_min_max; cbv zeta; rewrite !alter_other by assumption; reflexivity. Qed.

Lemma combine_min_max_length src dst rs : length (__reg_combine_min_max src dst rs) = length rs.
Proof. unfold __reg_combine_min_max; cbv zeta; rewrite !length_alter; reflexivity. Qed.
