(* ===== verification/MemAccess.v ===== *)
(** Bounds checks on memory accesses through a pointer with a variable offset:
    [__check_mem_access], [check_mem_region_access], [check_map_access] and
    their callers in kernel/bpf/verifier.c.

    An access through a register whose variable offset is [x] touches
    [off + x, off + x + size) of the object.  A check that returns 0 is shown
    to confine that window to the object for every [x] the register admits. *)
From Stdlib Require Import ZArith Lia Bool.
From stdpp Require Import base list gmap.
From S2P Require Import Prelude Bits Tnum Bounds RegState ScalarOps Insn Env.

Local Open Scope Z_scope.

(** ** Model *)

Definition check_reg_sane_offset (reg : bpf_reg_state) : bool :=
  let known := tnum_is_const (var_off reg) in
  let val := s64 (value (var_off reg)) in
  let smin := smin_value reg in
  if known && ((val >=? BPF_MAX_VAR_OFF) || (val <=? - BPF_MAX_VAR_OFF)) then false
  else if (off reg >=? BPF_MAX_VAR_OFF) || (off reg <=? - BPF_MAX_VAR_OFF) then false
  else if smin =? S64_MIN then false
  else if (smin >=? BPF_MAX_VAR_OFF) || (smin <=? - BPF_MAX_VAR_OFF) then false
  else true.

Definition __check_mem_access (off size mem_size : Z) (zero_size_allowed : bool) : verifier unit :=
  let size_ok := (size >? 0) || ((size =? 0) && zero_size_allowed) in
  if (off >=? 0) && size_ok && (u64 (u64 off + u64 size) <=? mem_size) then mret ()
  else fail (- EACCES).

Definition check_mem_region_access (regno off size mem_size : Z) (zero_size_allowed : bool) : verifier unit :=
  reg ← reg_of regno;
  if (smin_value reg <? 0) &&
     ((smin_value reg =? S64_MIN) || negb (s64 (off + smin_value reg) =? s32 (off + smin_value reg)) ||
      (s64 (smin_value reg + off) <? 0))
  then fail (- EACCES)
  else
    _ ← __check_mem_access (s32 (smin_value reg + off)) size mem_size zero_size_allowed;
    if umax_value reg >=? BPF_MAX_VAR_OFF then fail (- EACCES)
    else __check_mem_access (s32 (umax_value reg + off)) size mem_size zero_size_allowed.

Definition map_value_has_spin_lock (map : bpf_map) : bool := spin_lock_off map >=? 0.

(** [sizeof(struct bpf_spin_lock)] is 4. *)
Definition check_map_access (regno off size : Z) (zero_size_allowed : bool) : verifier unit :=
  env ← get;
  reg ← reg_of regno;
  let map := map_of env (raw reg) in
  _ ← check_mem_region_access regno off size (value_size map) zero_size_allowed;
  if map_value_has_spin_lock map then
    let lock := u32 (spin_lock_off map) in
    if (u64 (smin_value reg + off) <? u64 (lock + 4)) && (lock <? u64 (umax_value reg + off + size))
    then fail (- EACCES)
    else mret ()
  else mret ().

(** ** Running the monad *)

Lemma fail_ok {A} err env (a : A) env' : fail err env = (inr a, env') -> False.
Proof. discriminate. Qed.

Lemma bind_ok {A B} (m : verifier A) (f : A -> verifier B) env b env' :
  (a ← m; f a) env = (inr b, env') -> exists a env1, m env = (inr a, env1) /\ f a env1 = (inr b, env').
Proof.
  unfold mbind, verifier_bind; destruct (m env) as [[err|a] env1]; [discriminate|].
  intros H; exists a, env1; auto.
Qed.

(** Split a successful run of a bind. *)
Ltac run H :=
  let a := fresh "a" in let e := fresh "env" in let H1 := fresh "R" in
  apply bind_ok in H; destruct H as (a & e & H1 & H).

(** ** The window of an accepted access *)

Lemma check_mem_ok off size mem_size z env u env' : sin 32 off -> sin 32 size -> uin 32 mem_size ->
  __check_mem_access off size mem_size z env = (inr u, env') ->
  0 <= off /\ 0 <= size /\ off + size <= mem_size /\ (z = false -> 0 < size) /\ env' = env.
Proof.
  unfold __check_mem_access, sin, uin; intros Ho Hs Hm.
  destruct (Z.geb_spec off 0); [|discriminate]; cbn [andb].
  destruct (Z.gtb_spec size 0), (Z.eqb_spec size 0); cbn [andb orb]; try lia; try discriminate.
  2: destruct z; [|discriminate].
  all: rewrite !(uwrap_id 64) by (unfold uin; rewrite ?(uwrap_id 64) by (unfold uin; lia); lia).
  all: destruct (Z.leb_spec (off + size) mem_size); [|discriminate]; intros [= _ <-]; repeat split; intros; try lia; discriminate.
Qed.

(** An [int] parameter holds an offset sum exactly when the checks that
    follow the truncation accept it. *)
Lemma trunc_exact z : - 2 ^ 31 <= z < 2 ^ 31 + 2 ^ 29 -> 0 <= s32 z -> s32 z = z.
Proof.
  intros Hz Hp; destruct (swrap_near 32 ltac:(lia) z ltac:(lia)) as [Hr Hc]; unfold sin in Hr; lia.
Qed.

Lemma trunc_min off smin : sin 32 off -> sin 64 smin -> smin < 2 ^ 29 -> 0 <= s32 (smin + off) ->
  (smin <? 0) && ((smin =? S64_MIN) || negb (s64 (off + smin) =? s32 (off + smin)) || (s64 (smin + off) <? 0)) = false ->
  s32 (smin + off) = smin + off.
Proof.
  unfold sin; intros Ho Hs Hb Hp G; destruct (Z.ltb_spec smin 0); [|apply trunc_exact; lia].
  cbn [andb] in G; apply orb_false_iff in G; destruct G as [G _]; apply orb_false_iff in G; destruct G as [_ G].
  apply negb_false_iff, Z.eqb_eq in G; rewrite (Z.add_comm off smin) in G.
  pose proof (swrap_range 32 (smin + off) ltac:(lia)) as Hr.
  destruct (swrap_near 64 ltac:(lia) (smin + off) ltac:(lia)) as [Hr' Hc]; unfold sin in *; lia.
Qed.

(** The facts every accepted region access provides about the register's
    variable offset [x]. *)
Lemma region_ok regno off size mem_size z env u env' x :
  let reg := get_reg env regno in
  reg_ok reg -> reg_mem reg x -> sin 32 off -> sin 32 size -> uin 32 mem_size ->
  check_mem_region_access regno off size mem_size z env = (inr u, env') ->
  env' = env /\ 0 <= off + smin_value reg /\ off + umax_value reg + size <= mem_size /\ 0 <= size /\
  (z = false -> 0 < size) /\ umax_value reg < BPF_MAX_VAR_OFF /\ s64 x = x /\ smin_value reg <= x <= umax_value reg.
Proof.
  cbn zeta; intros (Ht & (B1 & B2 & B3 & B4) & _) ((Hx & _) & (Is & Iu) & _) Ho Hs Hm H.
  unfold check_mem_region_access in H; run H; injection R as <- <-; set (reg := get_reg env regno) in *.
  cbn in B1, B2, B3, B4, Is, Iu; rewrite (uwrap_id 64 x) in Iu by exact Hx.
  destruct (_ && _) eqn:G; [discriminate|]; run H.
  apply check_mem_ok in R; [|apply swrap_range; lia|exact Hs|exact Hm]; destruct R as (R1 & R2 & R3 & R4 & ->).
  destruct (Z.geb_spec (umax_value reg) BPF_MAX_VAR_OFF) as [|U]; [discriminate|].
  apply check_mem_ok in H; [|apply swrap_range; lia|exact Hs|exact Hm]; destruct H as (H1 & H2 & H3 & _ & ->).
  assert (Hsx : s64 x = x) by (apply swrap_id; unfold sin, uin in *; lia); rewrite Hsx in Is.
  rewrite (trunc_exact (umax_value reg + off)) in H3 by (unfold sin, uin in *; lia).
  rewrite (trunc_min off) in R1 by (trivial; lia).
  repeat split; trivial; lia.
Qed.

(** An access accepted by [check_map_access] stays inside the map value and
    off its spin lock. *)
Lemma map_access_ok regno off size z env u env' x :
  let reg := get_reg env regno in
  let map := map_of env (raw reg) in
  reg_ok reg -> reg_mem reg x -> sin 32 off -> sin 32 size -> uin 32 (value_size map) -> sin 32 (spin_lock_off map) ->
  check_map_access regno off size z env = (inr u, env') ->
  env' = env /\ 0 <= off + s64 x /\ off + s64 x + size <= value_size map /\
  (0 <= spin_lock_off map ->
   off + s64 x + size <= spin_lock_off map \/ spin_lock_off map + 4 <= off + s64 x).
Proof.
  cbn zeta; intros Hok Hmem Ho Hs Hv Hl H; unfold check_map_access in H.
  run H; injection R as <- <-; run H; injection R as <- <-; run H.
  eapply region_ok in R; eauto; destruct R as (-> & R1 & R2 & R3 & _ & R4 & R5 & R6); rewrite R5.
  destruct Hok as (_ & (B1 & _ & B3 & B4) & _); cbn in B1, B3, B4.
  set (reg := get_reg env regno) in *; set (map := map_of env (raw reg)) in *; unfold sin, uin in *.
  assert (W : env' = env /\ (0 <= spin_lock_off map ->
    off + x + size <= spin_lock_off map \/ spin_lock_off map + 4 <= off + x)).
  { unfold map_value_has_spin_lock in H; destruct (Z.geb_spec (spin_lock_off map) 0); [|injection H as _ <-; split; [reflexivity|lia]].
    rewrite (uwrap_id 32 (spin_lock_off map)) in H by (unfold uin; lia).
    rewrite !(uwrap_id 64) in H by (unfold uin; lia).
    destruct (Z.ltb_spec (smin_value reg + off) (spin_lock_off map + 4)), (Z.ltb_spec (spin_lock_off map) (umax_value reg + off + size));
      cbn [andb] in H; try discriminate; injection H as _ <-; split; trivial; intros _; lia. }
  destruct W as [-> W]; repeat split; trivial; lia.
Qed.
