(* ===== verification/RegArg.v ===== *)
(** Operand checks and liveness marks: [mark_reg_read], [is_reg64],
    [mark_insn_zext] and [check_reg_arg] of kernel/bpf/verifier.c. *)
From Stdlib Require Import ZArith Lia Bool.
From stdpp Require Import base list gmap.
From S2P Require Import Prelude Bits Tnum Bounds RegState ScalarOps Insn Env MemAccess.

Local Open Scope Z_scope.
Local Open Scope kint_scope.

Abbreviation BPF_PSEUDO_CALL := 1.
Abbreviation BPF_REG_6 := 6.

Inductive reg_arg_type := SRC_OP | DST_OP | DST_OP_NO_MARK.

#[global] Instance reg_arg_type_eq_dec : EqDecision reg_arg_type.
Proof. solve_decision. Defined.

#[global] Instance reg_ref_eq_dec : EqDecision reg_ref.
Proof. solve_decision. Defined.

(** ** Registers of explored states *)

Definition ref_state (p : reg_ref) : Z := match p with RegRef st _ _ | SlotRef st _ _ => st end.

Definition ref_in_state (st : bpf_verifier_state) (p : reg_ref) : option bpf_reg_state :=
  match p with
  | RegRef _ fr r => fn ← frame st !! fr; regs fn !! r
  | SlotRef _ fr spi => fn ← frame st !! fr; s ← stack fn !! spi; Some (spilled_ptr s)
  end.

Definition upd_in_state (f : bpf_reg_state -> bpf_reg_state) (p : reg_ref) (st : bpf_verifier_state) : bpf_verifier_state :=
  match p with
  | RegRef _ fr r => set_frame st (alter (fun fn => set_regs fn (alter f r (regs fn))) fr (frame st))
  | SlotRef _ fr spi =>
    set_frame st (alter (fun fn => set_stack fn (alter (fun s => set_spilled_ptr s (f (spilled_ptr s))) spi (stack fn))) fr (frame st))
  end.

Definition deref (m : gmap Z bpf_verifier_state) (p : reg_ref) : option bpf_reg_state :=
  st ← m !! ref_state p; ref_in_state st p.

Definition upd_ref (f : bpf_reg_state -> bpf_reg_state) (p : reg_ref) (m : gmap Z bpf_verifier_state) : gmap Z bpf_verifier_state :=
  alter (upd_in_state f p) (ref_state p) m.

(** ** Liveness *)

(** The body of the loop for one parent: [parent->live |= flag], where a full
    read overrides the 32-bit one. *)
Definition mark_live (flag : Z) (reg : bpf_reg_state) : bpf_reg_state :=
  let reg := set_live reg (live reg .| flag) in
  if flag =? REG_LIVE_READ64 then set_live reg (Z.ldiff (live reg) REG_LIVE_READ32) else reg.

(** Walk the parentage chain.  The chain leads from a state to its parent, so
    the number of explored states bounds its length. *)
Fixpoint mark_reg_read_loop (fuel : nat) (m : gmap Z bpf_verifier_state) (state : bpf_reg_state)
    (parent_ref : option reg_ref) (flag : Z) (writes : bool) (cnt : Z) : (Z + Z) * gmap Z bpf_verifier_state :=
  match fuel, parent_ref with
  | S fuel, Some p =>
    match deref m p with
    | None => (inr cnt, m)
    | Some preg =>
      if writes && negb (live state .& REG_LIVE_WRITTEN =? 0) then (inr cnt, m)
      else if negb (live preg .& REG_LIVE_DONE =? 0) then (inl (- EFAULT), m)
      else if (live preg .& REG_LIVE_READ =? flag) || negb (live preg .& REG_LIVE_READ64 =? 0) then (inr cnt, m)
      else mark_reg_read_loop fuel (upd_ref (mark_live flag) p m) (mark_live flag preg) (parent preg) flag true (cnt + 1)
    end
  | _, _ => (inr cnt, m)
  end.

Definition mark_reg_read (state : bpf_reg_state) (parent_ref : option reg_ref) (flag : Z) : verifier unit := fun env =>
  let writes := bool_decide (parent_ref = parent state) in
  match mark_reg_read_loop (S (size (states env))) (states env) state parent_ref flag writes 0 with
  | (inl err, m) => (inl err, set_states env m)
  | (inr cnt, m) =>
    let env := set_states env m in
    (inr (), if longest_mark_read_walk env <? cnt then set_longest_mark_read_walk env cnt else env)
  end.

(** ** Operand width *)

Definition is_reg64 (insn : bpf_insn) (regno : Z) (reg : bpf_reg_state) (t : reg_arg_type) : bool :=
  let code := insn_code insn in
  let class := BPF_CLASS code in
  let op := BPF_OP code in
  if (class =? BPF_JMP) && (op =? BPF_EXIT) then true
  else if (class =? BPF_JMP) && (op =? BPF_CALL) then
    if insn_src insn =? BPF_PSEUDO_CALL then false
    else bool_decide (t = SRC_OP)
  else if (class =? BPF_ALU64) || (class =? BPF_JMP) || ((class =? BPF_ALU) && (op =? BPF_END) && (insn_imm insn =? 64)) then true
  else if (class =? BPF_ALU) || (class =? BPF_JMP32) then false
  else if class =? BPF_LDX then
    if bool_decide (t <> SRC_OP) then BPF_SIZE code =? BPF_DW else true
  else if class =? BPF_STX then
    if negb (type_eqb (type_ reg) SCALAR_VALUE) then true else BPF_SIZE code =? BPF_DW
  else if class =? BPF_LD then
    if BPF_MODE code =? BPF_IMM then true
    else if bool_decide (t <> SRC_OP) then false
    else if regno =? BPF_REG_6 then true
    else true
  else true.

Definition insn_no_def (insn : bpf_insn) : bool :=
  let class := BPF_CLASS (insn_code insn) in
  (class =? BPF_JMP) || (class =? BPF_JMP32) || (class =? BPF_STX) || (class =? BPF_ST).

(** With [DST_OP] the register argument is not read. *)
Definition insn_has_def32 (insn : bpf_insn) : bool :=
  if insn_no_def insn then false else negb (is_reg64 insn (insn_dst insn) inhabitant DST_OP).

(** [regno] is the register [reg] points to. *)
Definition mark_insn_zext (regno : Z) : verifier unit := fun env =>
  let def_idx := subreg_def (get_reg env regno) in
  if def_idx =? DEF_NOT_SUBREG then (inr (), env)
  else
    let env := set_insn_aux_data env (alter (fun a => set_zext_dst a true) (Z.to_nat (def_idx - 1)) (insn_aux_data env)) in
    upd_reg regno (fun reg => set_subreg_def reg DEF_NOT_SUBREG) env.

Definition check_reg_arg (regno : Z) (t : reg_arg_type) : verifier unit :=
  env ← get;
  let insn := prog env !!! Z.to_nat (insn_idx env) in
  if regno >=? MAX_BPF_REG then fail (- EINVAL)
  else
    reg ← reg_of regno;
    let rw64 := is_reg64 insn regno reg t in
    if bool_decide (t = SRC_OP) then
      if type_eqb (type_ reg) NOT_INIT then fail (- EACCES)
      else if regno =? BPF_REG_FP then mret ()
      else
        _ ← when rw64 (mark_insn_zext regno);
        reg ← reg_of regno;
        mark_reg_read reg (parent reg) (if rw64 then REG_LIVE_READ64 else REG_LIVE_READ32)
    else
      if regno =? BPF_REG_FP then fail (- EACCES)
      else
        _ ← upd_reg regno (fun reg => set_live reg (live reg .| REG_LIVE_WRITTEN));
        _ ← upd_reg regno (fun reg => set_subreg_def reg (if rw64 then DEF_NOT_SUBREG else s32 (u32 (insn_idx env + 1))));
        when (bool_decide (t = DST_OP)) (mark_reg_unknown regno).
