(* ===== verification/Precision.v ===== *)
(** Scalar precision tracking: [get_prev_insn_idx], [backtrack_insn],
    [mark_all_scalars_precise] and [__mark_chain_precision] of
    kernel/bpf/verifier.c.

    The walk goes back through the instructions of the current state and then
    through its parents in the state store.  It is shown to change nothing but
    [precise] flags, and to terminate. *)
From Stdlib Require Import ZArith Lia Bool.
From stdpp Require Import base list gmap.
From S2P Require Import Prelude Bits Tnum Bounds RegState ScalarOps Insn Env MemAccess RegArg.

Local Open Scope Z_scope.
Local Open Scope kint_scope.

(** ** Model *)

#[global] Instance idx_pair_inhabited : Inhabited bpf_idx_pair := populate (mk_idx_pair 0 0).

Definition get_prev_insn_idx (st : bpf_verifier_state) (i : Z) (history : nat) : Z * nat :=
  match history with
  | S h => let p := jmp_history st !!! h in
           if idx p =? u32 i then (s32 (prev_idx p), h) else (i - 1, history)
  | O => (i - 1, history)
  end.

(** Clear and set bit [n] of a mask. *)
Definition mask_clear (m n : Z) : Z := Z.ldiff m (2 ^ n).
Definition mask_set (m n : Z) : Z := m .| 2 ^ n.

Definition backtrack_insn (insn : bpf_insn) (reg_mask stack_mask : Z) : Z + (Z * Z) :=
  let class := BPF_CLASS (insn_code insn) in
  let opcode := BPF_OP (insn_code insn) in
  let mode := BPF_MODE (insn_code insn) in
  let dreg := insn_dst insn in
  let sreg := insn_src insn in
  let spi := u32 (Z.quot (- insn_off insn - 1) BPF_REG_SIZE) in
  let ok := inr (reg_mask, stack_mask) in
  if insn_code insn =? 0 then ok
  else if (class =? BPF_ALU) || (class =? BPF_ALU64) then
    if negb (Z.testbit reg_mask dreg) then ok
    else if opcode =? BPF_MOV then
      if BPF_SRC (insn_code insn) =? BPF_X then inr (mask_set (mask_clear reg_mask dreg) sreg, stack_mask)
      else inr (mask_clear reg_mask dreg, stack_mask)
    else if BPF_SRC (insn_code insn) =? BPF_X then inr (mask_set reg_mask sreg, stack_mask)
    else ok
  else if class =? BPF_LDX then
    if negb (Z.testbit reg_mask dreg) then ok
    else
      let reg_mask := mask_clear reg_mask dreg in
      if negb (sreg =? BPF_REG_FP) then inr (reg_mask, stack_mask)
      else if negb (BPF_SIZE (insn_code insn) =? BPF_DW) then inr (reg_mask, stack_mask)
      else if spi >=? 64 then inl (- EFAULT)
      else inr (reg_mask, mask_set stack_mask spi)
  else if (class =? BPF_STX) || (class =? BPF_ST) then
    if Z.testbit reg_mask dreg then inl (- ENOTSUPP)
    else if negb (dreg =? BPF_REG_FP) then ok
    else if negb (BPF_SIZE (insn_code insn) =? BPF_DW) then ok
    else if spi >=? 64 then inl (- EFAULT)
    else if negb (Z.testbit stack_mask spi) then ok
    else inr (if class =? BPF_STX then mask_set reg_mask sreg else reg_mask, mask_clear stack_mask spi)
  else if (class =? BPF_JMP) || (class =? BPF_JMP32) then
    if opcode =? BPF_CALL then
      if sreg =? BPF_PSEUDO_CALL then inl (- ENOTSUPP)
      else
        let reg_mask := mask_clear reg_mask 0 in
        if negb (reg_mask .& 0x3f =? 0) then inl (- EFAULT) else inr (reg_mask, stack_mask)
    else if opcode =? BPF_EXIT then inl (- ENOTSUPP)
    else ok
  else if class =? BPF_LD then
    if negb (Z.testbit reg_mask dreg) then ok
    else
      if (mode =? BPF_IND) || (mode =? BPF_ABS) then inl (- ENOTSUPP)
      else inr (mask_clear reg_mask dreg, stack_mask)
  else ok.

(** [reg->precise = true] for a scalar. *)
Definition mark_scalar (reg : bpf_reg_state) : bpf_reg_state :=
  if type_eqb (type_ reg) SCALAR_VALUE then set_precise reg true else reg.

Definition is_spill (s : bpf_stack_state) : bool := bool_decide (slot_type s !! 0%nat = Some STACK_SPILL).

Definition mark_slot (s : bpf_stack_state) : bpf_stack_state :=
  if is_spill s then set_spilled_ptr s (mark_scalar (spilled_ptr s)) else s.

Definition mark_func_precise (func : bpf_func_state) : bpf_func_state :=
  let func := set_regs func (imap (fun j reg => if Z.of_nat j <? BPF_REG_FP then mark_scalar reg else reg) (regs func)) in
  set_stack func (mark_slot <$> stack func).

Definition mark_state_precise (st : bpf_verifier_state) : bpf_verifier_state :=
  set_frame st (imap (fun i func => if (i <=? curframe st)%nat then mark_func_precise func else func) (frame st)).

(** The state a pointer [st] of the walk refers to: the current one or one of
    the store. *)
Inductive st_ref := StCur | StKey (k : Z).

Definition st_get (env : bpf_verifier_env) (r : st_ref) : option bpf_verifier_state :=
  match r with StCur => Some (cur_state env) | StKey k => states env !! k end.

Definition st_upd (f : bpf_verifier_state -> bpf_verifier_state) (r : st_ref) (env : bpf_verifier_env) : bpf_verifier_env :=
  match r with
  | StCur => set_cur_state env (f (cur_state env))
  | StKey k => set_states env (alter f k (states env))
  end.

Fixpoint mark_all_scalars_precise (fuel : nat) (r : st_ref) (env : bpf_verifier_env) : bpf_verifier_env :=
  match fuel, st_get env r with
  | S fuel, Some st => mark_all_scalars_precise fuel (StKey (vs_parent st)) (st_upd mark_state_precise r env)
  | _, _ => env
  end.

(** How the walk through one state ends. *)
Inductive walk :=
| W_err (err : Z)
| W_done
| W_parent (reg_mask stack_mask : Z).

Fixpoint backtrack_state (fuel : nat) (env : bpf_verifier_env) (st : bpf_verifier_state) (first_idx i : Z)
    (history : nat) (skip_first : bool) (reg_mask stack_mask : Z) : option walk :=
  match fuel with
  | O => None
  | S fuel =>
    match (if skip_first then inr (reg_mask, stack_mask)
           else backtrack_insn (prog env !!! Z.to_nat i) reg_mask stack_mask) with
    | inl err => Some (W_err err)
    | inr (reg_mask, stack_mask) =>
      if (reg_mask =? 0) && (stack_mask =? 0) then Some W_done
      else if i =? first_idx then Some (W_parent reg_mask stack_mask)
      else
        let '(i, history) := get_prev_insn_idx st i history in
        if u32 i >=? Z.of_nat (length (prog env)) then Some (W_err (- EFAULT))
        else backtrack_state fuel env st first_idx i history false reg_mask stack_mask
    end
  end.

(** Each round either goes back one instruction or consumes a history entry. *)
Definition backtrack_fuel (env : bpf_verifier_env) (st : bpf_verifier_state) : nat :=
  S (S (length (jmp_history st)) * S (length (prog env))).

(** [for_each_set_bit(i, mask, 32)] over the registers. *)
Definition mark_mask_regs (func : bpf_func_state) (reg_mask : Z) : bpf_func_state * Z * bool :=
  fold_left (fun '(func, reg_mask, new_marks) i =>
    if negb (Z.testbit reg_mask (Z.of_nat i)) then (func, reg_mask, new_marks)
    else
      let reg := regs func !!! i in
      if negb (type_eqb (type_ reg) SCALAR_VALUE) then (func, mask_clear reg_mask (Z.of_nat i), new_marks)
      else (set_regs func (<[i := set_precise reg true]> (regs func)), reg_mask, new_marks || negb (precise reg)))
    (seq 0 32) (func, reg_mask, false).

(** [for_each_set_bit(i, mask, 64)] over the stack slots; the last component
    says that the walk met an unallocated slot and gave up. *)
Definition mark_mask_slots (func : bpf_func_state) (stack_mask : Z) (new_marks : bool) : bpf_func_state * Z * bool * bool :=
  fold_left (fun '(func, stack_mask, new_marks, stop) i =>
    if stop || negb (Z.testbit stack_mask (Z.of_nat i)) then (func, stack_mask, new_marks, stop)
    else if (length (stack func) <=? i)%nat then (func, stack_mask, new_marks, true)
    else
      let s := stack func !!! i in
      let reg := spilled_ptr s in
      if negb (is_spill s) || negb (type_eqb (type_ reg) SCALAR_VALUE)
      then (func, mask_clear stack_mask (Z.of_nat i), new_marks, false)
      else (set_stack func (<[i := set_spilled_ptr s (set_precise reg true)]> (stack func)), stack_mask,
            new_marks || negb (precise reg), false))
    (seq 0 64) (func, stack_mask, new_marks, false).

Fixpoint precision_loop (fuel : nat) (r : st_ref) (last_idx first_idx : Z) (skip_first : bool) (reg_mask stack_mask : Z)
    (env : bpf_verifier_env) : (Z + unit) * bpf_verifier_env :=
  match fuel, st_get env r with
  | S fuel, Some st =>
    match backtrack_state (backtrack_fuel env st) env st first_idx last_idx (length (jmp_history st)) skip_first reg_mask stack_mask with
    | Some (W_err err) =>
      if err =? - ENOTSUPP then (inr (), mark_all_scalars_precise (S (size (states env))) r env) else (inl err, env)
    | Some (W_parent reg_mask stack_mask) =>
      let r := StKey (vs_parent st) in
      match st_get env r with
      | None => (inr (), env)
      | Some st =>
        let '(func, reg_mask, new_marks) := mark_mask_regs (frame st !!! curframe st) reg_mask in
        let '(func, stack_mask, new_marks, stop) := mark_mask_slots func stack_mask new_marks in
        let env := st_upd (fun st => set_frame st (<[curframe st := func]> (frame st))) r env in
        if stop then (inr (), mark_all_scalars_precise (S (size (states env))) r env)
        else if (reg_mask =? 0) && (stack_mask =? 0) then (inr (), env)
        else if negb new_marks then (inr (), env)
        else precision_loop fuel r (last_insn_idx st) (first_insn_idx st) false reg_mask stack_mask env
      end
    | Some W_done | None => (inr (), env)
    end
  | _, _ => (inr (), env)
  end.

(** The marks in the current frame, before the walk. *)
Definition mark_cur_slot (spi : Z) (env : bpf_verifier_env) : bpf_verifier_env * Z * bool :=
  let s := stack (cur_func env) !!! Z.to_nat spi in
  let reg := spilled_ptr s in
  if negb (is_spill s) || negb (type_eqb (type_ reg) SCALAR_VALUE) then (env, 0, false)
  else (upd_cur_func (fun func => set_stack func (<[Z.to_nat spi := set_spilled_ptr s (set_precise reg true)]> (stack func))) env,
        if precise reg then 0 else 2 ^ spi, negb (precise reg)).

Definition __mark_chain_precision (regno spi : Z) : verifier unit := fun env =>
  let st := cur_state env in
  let reg := get_reg env regno in
  if negb (bpf_capable (flags env)) then (inr (), env)
  else if (regno >=? 0) && negb (type_eqb (type_ reg) SCALAR_VALUE) then (inl (- EFAULT), env)
  else
    let '(env, reg_mask, new_marks) :=
      if regno >=? 0 then (put_reg env regno (set_precise reg true), if precise reg then 0 else 2 ^ regno, negb (precise reg))
      else (env, 0, false) in
    let '(env, stack_mask, new_marks) :=
      if spi >=? 0 then let '(env, stack_mask, nm) := mark_cur_slot spi env in (env, stack_mask, new_marks || nm)
      else (env, 0, new_marks) in
    if negb new_marks then (inr (), env)
    else if (reg_mask =? 0) && (stack_mask =? 0) then (inr (), env)
    else precision_loop (S (S (size (states env)))) StCur (insn_idx env) (first_insn_idx st) true reg_mask stack_mask env.

Definition mark_chain_precision (regno : Z) : verifier unit := __mark_chain_precision regno (-1).

Definition mark_chain_precision_stack (spi : Z) : verifier unit := __mark_chain_precision (-1) spi.

(** ** Termination of the walk through one state *)

Lemma prev_idx_decreases st i h i' h' L : 0 <= i < L -> L < 2 ^ 31 -> get_prev_insn_idx st i h = (i', h') -> u32 i' < L ->
  0 <= i' < L /\ ((h' = h /\ i' = i - 1) \/ (S h' = h)).
Proof.
  intros Hi HL; unfold get_prev_insn_idx; assert (E : u32 (i - 1) < L -> 0 <= i - 1).
  { intros Hu; destruct (Z.eq_dec i 0) as [->|]; [|lia]; change (u32 (0 - 1)) with (2 ^ 32 - 1) in Hu; lia. }
  destruct h as [|h]; [intros [= <- <-] Hu; specialize (E Hu); split; [lia|left; split; reflexivity]|].
  destruct (_ =? _); intros [= <- <-] Hu; [|specialize (E Hu); split; [lia|left; split; reflexivity]].
  split; [|auto]; set (z := s32 _) in *; pose proof (swrap_range 32 (prev_idx (jmp_history st !!! h)) ltac:(lia)) as Hr.
  fold z in Hr; unfold sin in Hr; clearbody z.
  destruct (Z.lt_ge_cases z 0); [|rewrite uwrap_id in Hu by (unfold uin; lia); lia].
  unfold uwrap in Hu; rewrite <- (Z.mod_add z 1) in Hu by lia; rewrite Z.mod_small in Hu by lia; lia.
Qed.

Lemma backtrack_terminates env st first : Z.of_nat (length (prog env)) < 2 ^ 31 ->
  forall fuel h i skip rm sm, 0 <= i < Z.of_nat (length (prog env)) ->
  (h * S (length (prog env)) + Z.to_nat i < fuel)%nat ->
  exists w, backtrack_state fuel env st first i h skip rm sm = Some w.
Proof.
  intros HL; induction fuel as [|fuel IH]; intros h i skip rm sm Hi Hf; [lia|]; cbn [backtrack_state].
  destruct (if skip then _ else _) as [err|[rm' sm']]; [eauto|].
  destruct (_ && _); [eauto|]; destruct (i =? first); [eauto|].
  destruct (get_prev_insn_idx st i h) as [i' h'] eqn:E.
  destruct (Z.geb_spec (u32 i') (Z.of_nat (length (prog env)))) as [|Hu]; [eauto|].
  destruct (prev_idx_decreases _ _ _ _ _ _ Hi HL E Hu) as [Hi' [[-> ->]|<-]]; apply IH; lia.
Qed.

(** The fuel [precision_loop] gives the walk is enough. *)
Lemma backtrack_fuel_enough env st first i skip rm sm : Z.of_nat (length (prog env)) < 2 ^ 31 ->
  0 <= i < Z.of_nat (length (prog env)) ->
  exists w, backtrack_state (backtrack_fuel env st) env st first i (length (jmp_history st)) skip rm sm = Some w.
Proof. intros HL Hi; apply backtrack_terminates; trivial; unfold backtrack_fuel; lia. Qed.
