(* ===== verification/Bookkeeping.v ===== *)
(** Verifier states up to bookkeeping.

    Liveness marks, sub-register definitions and precision flags steer pruning
    and rewriting but say nothing about the values a register holds.  Two
    environments are [≈] when they agree on everything else; operand checks
    and precision tracking are shown to stay within one class. *)
From Stdlib Require Import ZArith Lia Bool.
From stdpp Require Import base list gmap.
From S2P Require Import Prelude Lists Bits Tnum Bounds RegState ScalarOps Insn Env MemAccess RegArg Precision.

Local Open Scope Z_scope.

Definition erase_reg (r : bpf_reg_state) : bpf_reg_state :=
  set_precise (set_live (set_subreg_def r 0) 0) false.

Definition erase_slot (s : bpf_stack_state) : bpf_stack_state := set_spilled_ptr s (erase_reg (spilled_ptr s)).

Definition erase_func (f : bpf_func_state) : bpf_func_state :=
  set_stack (set_regs f (erase_reg <$> regs f)) (erase_slot <$> stack f).

Definition erase_state (s : bpf_verifier_state) : bpf_verifier_state := set_frame s (erase_func <$> frame s).

Definition erase_aux (a : bpf_insn_aux_data) : bpf_insn_aux_data := set_zext_dst a false.

Definition erase_env (e : bpf_verifier_env) : bpf_verifier_env :=
  let e := set_cur_state e (erase_state (cur_state e)) in
  let e := set_states e (erase_state <$> states e) in
  let e := set_insn_aux_data e (erase_aux <$> insn_aux_data e) in
  set_longest_mark_read_walk e 0.

Definition same_env (e e' : bpf_verifier_env) : Prop := erase_env e = erase_env e'.
Infix "≈" := same_env (at level 70).

#[global] Instance same_env_equiv : Equivalence same_env.
Proof.
  unfold same_env; split; [intros e; reflexivity|intros e e'; auto|intros e e' e'' -> ->; reflexivity].
Qed.

(** ** List facts *)

Lemma fmap_alter_id {A B} (g : A -> B) (f : A -> A) (l : list A) i :
  (forall x, g (f x) = g x) -> g <$> alter f i l = g <$> l.
Proof.
  intros H; apply list_eq; intros j; rewrite !list_lookup_fmap.
  destruct (decide (i = j)) as [->|Hne]; [rewrite list_lookup_alter_eq|rewrite list_lookup_alter_ne by exact Hne; reflexivity].
  destruct (l !! j); cbn; [rewrite H|]; reflexivity.
Qed.

Lemma fmap_insert_id {A B} `{Inhabited A} (g : A -> B) (l : list A) i x : g x = g (l !!! i) -> g <$> <[i := x]> l = g <$> l.
Proof.
  intros Hx; apply list_eq; intros j; rewrite !list_lookup_fmap.
  destruct (decide (i = j)) as [->|Hne]; [|rewrite list_lookup_insert_ne by exact Hne; reflexivity].
  destruct (decide (j < length l)%nat) as [Hl|Hl].
  - rewrite list_lookup_insert_eq by exact Hl; rewrite (list_lookup_lookup_total_lt l j Hl); cbn; rewrite Hx; reflexivity.
  - rewrite list_insert_ge by lia; reflexivity.
Qed.

Lemma fmap_imap_id {A B} (g : A -> B) (f : nat -> A -> A) (l : list A) :
  (forall i x, g (f i x) = g x) -> g <$> imap f l = g <$> l.
Proof.
  intros H; apply list_eq; intros j; rewrite !list_lookup_fmap, list_lookup_imap.
  destruct (l !! j); cbn; [rewrite H|]; reflexivity.
Qed.

Lemma fmap_fmap_id {A B} (g : A -> B) (f : A -> A) (l : list A) : (forall x, g (f x) = g x) -> g <$> (f <$> l) = g <$> l.
Proof. intros H; rewrite <- list_fmap_compose; apply list_fmap_ext; intros i x _; apply H. Qed.

(** ** Updates within a class *)

Lemma erase_func_regs (f : bpf_func_state) rs : erase_reg <$> rs = erase_reg <$> regs f -> erase_func (set_regs f rs) = erase_func f.
Proof. unfold erase_func; cbn; intros ->; reflexivity. Qed.

Lemma erase_func_stack (f : bpf_func_state) ss : erase_slot <$> ss = erase_slot <$> stack f -> erase_func (set_stack f ss) = erase_func f.
Proof. unfold erase_func; cbn; intros ->; reflexivity. Qed.

Lemma erase_state_frame (s : bpf_verifier_state) fs : erase_func <$> fs = erase_func <$> frame s -> erase_state (set_frame s fs) = erase_state s.
Proof. unfold erase_state; cbn; intros ->; reflexivity. Qed.

Lemma same_cur_state e s : erase_state s = erase_state (cur_state e) -> set_cur_state e s ≈ e.
Proof. unfold same_env, erase_env; cbn; intros ->; reflexivity. Qed.

Lemma same_states e m : erase_state <$> m = erase_state <$> states e -> set_states e m ≈ e.
Proof. unfold same_env, erase_env; cbn; intros ->; reflexivity. Qed.

Lemma same_aux e l : erase_aux <$> l = erase_aux <$> insn_aux_data e -> set_insn_aux_data e l ≈ e.
Proof. unfold same_env, erase_env; cbn; intros ->; reflexivity. Qed.

Lemma same_walk e n : set_longest_mark_read_walk e n ≈ e.
Proof. reflexivity. Qed.

Lemma same_upd_cur_func f e : (forall fn, erase_func (f fn) = erase_func fn) -> upd_cur_func f e ≈ e.
Proof. intros H; apply same_cur_state, erase_state_frame, fmap_alter_id, H. Qed.

(** Only the frame's own value needs to be kept. *)
Lemma same_upd_cur_func_at f e : erase_func (f (cur_func e)) = erase_func (cur_func e) -> upd_cur_func f e ≈ e.
Proof.
  intros H; apply same_cur_state, erase_state_frame; apply list_eq; intros j; rewrite !list_lookup_fmap.
  destruct (decide (curframe (cur_state e) = j)) as [<-|Hne]; [|rewrite list_lookup_alter_ne by exact Hne; reflexivity].
  rewrite list_lookup_alter_eq; unfold cur_func in H; rewrite list_lookup_total_alt in H.
  destruct (frame (cur_state e) !! curframe (cur_state e)); cbn in *; [rewrite H|]; reflexivity.
Qed.

Lemma same_put_reg e r v : erase_reg v = erase_reg (get_reg e r) -> put_reg e r v ≈ e.
Proof.
  intros H; unfold put_reg, upd_regs; apply same_upd_cur_func_at; cbn.
  apply erase_func_regs, fmap_insert_id; exact H.
Qed.

(** ** What a class determines *)

Lemma cur_func_erase e : cur_func (erase_env e) = erase_func (cur_func e).
Proof. unfold cur_func; cbn; apply lookup_total_fmap; reflexivity. Qed.

Lemma get_reg_erase e r : get_reg (erase_env e) r = erase_reg (get_reg e r).
Proof. unfold get_reg, cur_regs; rewrite cur_func_erase; cbn; apply lookup_total_fmap; reflexivity. Qed.

Lemma same_reg e e' r : e ≈ e' -> erase_reg (get_reg e r) = erase_reg (get_reg e' r).
Proof. intros H; rewrite <- !get_reg_erase, H; reflexivity. Qed.

(** [reg_inv] and the type only read erased fields. *)
Lemma same_reg_inv e e' r x : e ≈ e' -> reg_inv (get_reg e r) x <-> reg_inv (get_reg e' r) x.
Proof.
  intros H; change (reg_inv (erase_reg (get_reg e r)) x <-> reg_inv (erase_reg (get_reg e' r)) x).
  rewrite (same_reg e e' r H); reflexivity.
Qed.

Lemma same_reg_type e e' r : e ≈ e' -> type_ (get_reg e r) = type_ (get_reg e' r).
Proof.
  intros H; change (type_ (erase_reg (get_reg e r)) = type_ (erase_reg (get_reg e' r))).
  rewrite (same_reg e e' r H); reflexivity.
Qed.

Lemma wf_erase e : env_wf (erase_env e) <-> env_wf e.
Proof.
  unfold env_wf, cur_regs; rewrite cur_func_erase; cbn; rewrite !length_fmap; reflexivity.
Qed.

#[global] Instance env_wf_proper : Proper (same_env ==> iff) env_wf.
Proof. intros e e' H; rewrite <- (wf_erase e), <- (wf_erase e'), H; reflexivity. Qed.

(** ** Operand checks *)

Lemma erase_mark_live flag r : erase_reg (mark_live flag r) = erase_reg r.
Proof. unfold mark_live; destruct (_ =? _); reflexivity. Qed.

Lemma upd_ref_same f p m : (forall r, erase_reg (f r) = erase_reg r) -> erase_state <$> upd_ref f p m = erase_state <$> m.
Proof.
  intros H; unfold upd_ref; apply map_eq; intros k; rewrite !lookup_fmap.
  destruct (decide (ref_state p = k)) as [->|Hne]; [|rewrite lookup_alter_ne by exact Hne; reflexivity].
  rewrite lookup_alter_eq; destruct (m !! k) as [st|]; cbn; [|reflexivity]; f_equal.
  destruct p; cbn [upd_in_state]; apply erase_state_frame, fmap_alter_id; intros fn.
  - apply erase_func_regs, fmap_alter_id, H.
  - apply erase_func_stack, fmap_alter_id; intros s; unfold erase_slot; cbn; rewrite H; reflexivity.
Qed.

Lemma read_loop_same fuel : forall m state p flag w cnt,
  erase_state <$> (mark_reg_read_loop fuel m state p flag w cnt).2 = erase_state <$> m.
Proof.
  induction fuel as [|fuel IH]; intros; cbn [mark_reg_read_loop]; [reflexivity|].
  destruct p as [p|]; [|reflexivity]; destruct (deref m p) as [preg|]; [|reflexivity].
  repeat case_match; try reflexivity.
  rewrite IH; apply upd_ref_same, erase_mark_live.
Qed.

Lemma mark_reg_read_same state p flag env : (mark_reg_read state p flag env).2 ≈ env.
Proof.
  unfold mark_reg_read; pose proof (read_loop_same (S (size (states env))) (states env) state p flag (bool_decide (p = parent state)) 0) as H.
  destruct (mark_reg_read_loop _ _ _ _ _ _ _) as [[err|cnt] m]; cbn in H |- *; [apply same_states, H|].
  destruct (_ <? _); [rewrite same_walk|]; apply same_states, H.
Qed.

Lemma mark_insn_zext_same regno env : (mark_insn_zext regno env).2 ≈ env.
Proof.
  unfold mark_insn_zext; destruct (_ =? _); [reflexivity|]; cbn; rewrite same_put_reg by reflexivity.
  apply same_aux, fmap_alter_id; reflexivity.
Qed.

(** A successful source-operand check: the register exists and is readable,
    and only bookkeeping changes. *)
Lemma src_op_ok regno env u env' : check_reg_arg regno SRC_OP env = (inr u, env') ->
  regno < MAX_BPF_REG /\ type_ (get_reg env regno) <> NOT_INIT /\ env' ≈ env.
Proof.
  intros H; unfold check_reg_arg in H; run H; injection R as <- <-.
  destruct (Z.geb_spec regno MAX_BPF_REG) as [|Hr]; [discriminate|]; run H; injection R as <- <-.
  cbn [bool_decide decide decide_rel] in H; change (bool_decide (SRC_OP = SRC_OP)) with true in H; cbn iota in H.
  unfold type_eqb in H; destruct (bpf_reg_type_eq_dec _ _) as [|Ht]; [discriminate|]; split; [lia|split; [exact Ht|]].
  destruct (regno =? BPF_REG_FP); [injection H as _ <-; reflexivity|]; run H; run H; injection R0 as <- <-.
  match type of H with mark_reg_read ?s ?p ?f ?e = _ => pose proof (mark_reg_read_same s p f e) as Hm; rewrite H in Hm end.
  cbn in Hm; rewrite Hm; unfold when in R; destruct (is_reg64 _ _ _ _).
  - pose proof (mark_insn_zext_same regno env) as Hz; rewrite R in Hz; exact Hz.
  - injection R as _ <-; reflexivity.
Qed.

(** A successful destination-operand check without mark. *)
Lemma dst_op_ok regno env u env' : env_wf env -> 0 <= regno -> check_reg_arg regno DST_OP_NO_MARK env = (inr u, env') ->
  regno < MAX_BPF_REG /\ regno <> BPF_REG_FP /\ env' ≈ env.
Proof.
  intros Hwf H0 H; unfold check_reg_arg in H; run H; injection R as <- <-.
  destruct (Z.geb_spec regno MAX_BPF_REG) as [|Hr]; [discriminate|]; run H; injection R as <- <-.
  change (bool_decide (DST_OP_NO_MARK = SRC_OP)) with false in H; cbn iota in H.
  destruct (Z.eqb_spec regno BPF_REG_FP) as [|Hfp]; [discriminate|]; split; [lia|split; [exact Hfp|]].
  run H; run H; injection R as _ <-; injection R0 as _ <-; injection H as _ <-.
  rewrite same_put_reg by reflexivity; apply same_put_reg; reflexivity.
Qed.

(** ** Precision tracking *)

Lemma erase_mark_scalar r : erase_reg (mark_scalar r) = erase_reg r.
Proof. unfold mark_scalar; destruct (type_eqb _ _); reflexivity. Qed.

Lemma erase_mark_slot s : erase_slot (mark_slot s) = erase_slot s.
Proof. unfold mark_slot, erase_slot; destruct (is_spill s); [cbn; rewrite erase_mark_scalar|]; reflexivity. Qed.

Lemma erase_mark_state s : erase_state (mark_state_precise s) = erase_state s.
Proof.
  unfold mark_state_precise; apply erase_state_frame, fmap_imap_id; intros i fn; destruct (_ <=? _)%nat; [|reflexivity].
  unfold mark_func_precise; cbn; rewrite erase_func_stack by (cbn; apply fmap_fmap_id, erase_mark_slot).
  apply erase_func_regs, fmap_imap_id; intros j r; destruct (_ <? _); [apply erase_mark_scalar|reflexivity].
Qed.

Lemma st_upd_same f r e : (forall s, st_get e r = Some s -> erase_state (f s) = erase_state s) -> st_upd f r e ≈ e.
Proof.
  intros H; destruct r as [|k]; cbn in *; [apply same_cur_state, H; reflexivity|].
  apply same_states, map_eq; intros k'; rewrite !lookup_fmap.
  destruct (decide (k = k')) as [->|Hne]; [|rewrite lookup_alter_ne by exact Hne; reflexivity].
  rewrite lookup_alter_eq; destruct (states e !! k') as [s|]; cbn; [rewrite H|]; reflexivity.
Qed.

Lemma mark_all_same fuel : forall r e, mark_all_scalars_precise fuel r e ≈ e.
Proof.
  induction fuel as [|fuel IH]; intros; cbn [mark_all_scalars_precise]; [reflexivity|].
  destruct (st_get e r); [|reflexivity]; rewrite IH; apply st_upd_same; intros; apply erase_mark_state.
Qed.

Lemma mark_regs_same fn m : erase_func (mark_mask_regs fn m).1.1 = erase_func fn.
Proof.
  unfold mark_mask_regs; generalize false as nm; generalize (seq 0 32); intros l; revert fn m.
  induction l as [|i l IH]; intros fn m nm; cbn [fold_left]; [reflexivity|].
  destruct (negb (Z.testbit _ _)); [apply IH|]; destruct (negb (type_eqb _ _)); rewrite IH; [reflexivity|].
  apply erase_func_regs, fmap_insert_id; reflexivity.
Qed.

Lemma mark_slots_same fn m nm : erase_func (mark_mask_slots fn m nm).1.1.1 = erase_func fn.
Proof.
  unfold mark_mask_slots; match goal with |- context [fold_left ?F _ _] =>
    assert (G : forall l fn m nm stop, erase_func (fold_left F l (fn, m, nm, stop)).1.1.1 = erase_func fn); [|apply G] end.
  clear fn m nm; intros l; induction l as [|i l IH]; intros fn m nm stop; cbn [fold_left]; [reflexivity|].
  destruct (_ || negb (Z.testbit _ _)); [apply IH|]; destruct (_ <=? _)%nat; [apply IH|].
  destruct (_ || _); rewrite IH; [reflexivity|]; apply erase_func_stack, fmap_insert_id; reflexivity.
Qed.

Lemma precision_loop_same fuel : forall r last first skip rm sm e, (precision_loop fuel r last first skip rm sm e).2 ≈ e.
Proof.
  induction fuel as [|fuel IH]; intros; cbn [precision_loop]; [reflexivity|].
  destruct (st_get e r) as [st|]; [|reflexivity].
  destruct (backtrack_state _ _ _ _ _ _ _ _ _) as [[err| |rm' sm']|]; try reflexivity.
  - destruct (_ =? _); [apply mark_all_same|reflexivity].
  - destruct (st_get e (StKey _)) as [st'|] eqn:E; [|reflexivity].
    pose proof (mark_regs_same (frame st' !!! curframe st') rm') as H1.
    destruct (mark_mask_regs _ _) as [[fn rm2] nm]; cbn in H1.
    pose proof (mark_slots_same fn sm' nm) as H2; destruct (mark_mask_slots _ _ _) as [[[fn2 sm2] nm2] stop]; cbn in H2.
    set (e' := st_upd _ _ _); assert (Hs : e' ≈ e).
    { apply st_upd_same; intros s Es; rewrite E in Es; injection Es as <-.
      apply erase_state_frame, fmap_insert_id; rewrite H2, H1; reflexivity. }
    destruct stop; [etransitivity; [apply mark_all_same|exact Hs]|]; destruct (_ && _); [exact Hs|]; destruct (negb _); [exact Hs|].
    etransitivity; [apply IH|exact Hs].
Qed.

Lemma mark_cur_slot_same spi e : (mark_cur_slot spi e).1.1 ≈ e.
Proof.
  unfold mark_cur_slot; destruct (_ || _); [reflexivity|]; apply same_upd_cur_func_at.
  apply erase_func_stack, fmap_insert_id; reflexivity.
Qed.

(** Precision tracking only sets [precise] flags. *)
Lemma mark_chain_same regno spi e : (__mark_chain_precision regno spi e).2 ≈ e.
Proof.
  unfold __mark_chain_precision; destruct (negb _); [reflexivity|]; destruct (_ && negb _); [reflexivity|].
  set (e1 := if regno >=? 0 then _ else _); assert (H1 : e1.1.1 ≈ e).
  { unfold e1; destruct (_ >=? _); [apply same_put_reg|]; reflexivity. }
  destruct e1 as [[e' rm] nm]; cbn in H1.
  set (e2 := if spi >=? 0 then _ else _); assert (H2 : e2.1.1 ≈ e).
  { unfold e2; destruct (_ >=? _); [|exact H1]; pose proof (mark_cur_slot_same spi e') as H.
    destruct (mark_cur_slot spi e') as [[? ?] ?]; cbn in *; etransitivity; [exact H|exact H1]. }
  destruct e2 as [[e'' sm] nm']; cbn in H2.
  destruct (negb _); [exact H2|]; destruct (_ && _); [exact H2|]; etransitivity; [apply precision_loop_same|exact H2].
Qed.
