(* ===== verification/Alu.v ===== *)
(** Arithmetic instructions: [check_alu_op] of kernel/bpf/verifier.c and
    everything it calls to compute the destination register: the Spectre v1
    sanitation of ALU operations, pointer arithmetic
    ([adjust_ptr_min_max_vals]) and scalar arithmetic
    ([adjust_scalar_min_max_vals]). *)
From Stdlib Require Import ZArith Lia Bool.
From stdpp Require Import base list gmap.
From S2P Require Import Prelude Bits Tnum Bounds RegState ScalarOps ScalarBits Insn Env MemAccess RegArg Precision.

Local Open Scope Z_scope.
Local Open Scope kint_scope.

Abbreviation REASON_BOUNDS := (-1).
Abbreviation REASON_TYPE := (-2).
Abbreviation REASON_PATHS := (-3).
Abbreviation REASON_LIMIT := (-4).
Abbreviation REASON_STACK := (-5).

Abbreviation BPF_ALU_SANITIZE_SRC := 1.
Abbreviation BPF_ALU_SANITIZE_DST := 2.
Abbreviation BPF_ALU_NEG_VALUE := 4.
Abbreviation BPF_ALU_NON_POINTER := 8.
Abbreviation BPF_ALU_IMMEDIATE := 16.

(** A [struct bpf_reg_state *] operand: a register of the current frame or a
    local variable. *)
Inductive reg_ptr := PReg (r : Z) | PVal (reg : bpf_reg_state).

Definition load_ptr (p : reg_ptr) : verifier bpf_reg_state :=
  match p with PReg r => reg_of r | PVal reg => mret reg end.

Definition ptr_is (p : reg_ptr) (r : Z) : bool := match p with PReg r' => r' =? r | PVal _ => false end.

(** ** Exploration stack *)

(** The outcome of the next allocation. *)
Definition kzalloc : verifier bool := fun env =>
  match alloc env with
  | [] => (inr true, env)
  | b :: l => (inr b, set_alloc env l)
  end.

(** Free the current state and every pushed one. *)
Definition drop_states (env : bpf_verifier_env) : bpf_verifier_env :=
  set_cur_freed (set_stack_size (set_head env []) (stack_size env - Z.of_nat (length (head env)))) true.

Definition push_stack (next_idx prev_idx : Z) (spec : bool) : verifier bool :=
  ok ← kzalloc;
  if negb ok then _ ← modify drop_states; mret false
  else
    env ← get;
    let cur := cur_state env in
    let st := set_speculative cur (speculative cur || spec) in
    _ ← modify (fun env => set_stack_size (set_head env (mk_elem st next_idx prev_idx :: head env)) (stack_size env + 1));
    copied ← kzalloc;
    env ← get;
    if negb copied then _ ← modify drop_states; mret false
    else if stack_size env >? BPF_COMPLEXITY_LIMIT_JMP_SEQ then _ ← modify drop_states; mret false
    else
      _ ← modify (fun env => set_states env (alter (fun p => set_branches p (branches p + 1)) (vs_parent st) (states env)));
      mret true.

(** [mark_reg_unknown] on the registers of a pushed state. *)
Definition regs_mark_unknown (fl : env_flags) (rs : list bpf_reg_state) (regno : Z) : list bpf_reg_state :=
  if regno >=? MAX_BPF_REG
  then imap (fun i r => if Z.of_nat i <? BPF_REG_FP then __mark_reg_not_init fl r else r) rs
  else alter (__mark_reg_unknown fl) (Z.to_nat regno) rs.

Definition upd_branch_regs (f : list bpf_reg_state -> list bpf_reg_state) (env : bpf_verifier_env) : bpf_verifier_env :=
  match head env with
  | [] => env
  | e :: l =>
    let st := elem_st e in
    let st := set_frame st (alter (fun fn => set_regs fn (f (regs fn))) (curframe st) (frame st)) in
    set_head env (mk_elem st (elem_insn_idx e) (elem_prev_insn_idx e) :: l)
  end.

Definition sanitize_speculative_path (insn : option bpf_insn) (next_idx curr_idx : Z) : verifier bool :=
  branch ← push_stack next_idx curr_idx true;
  env ← get;
  match insn with
  | Some insn =>
    if negb branch then mret false
    else if BPF_SRC (insn_code insn) =? BPF_K then
      _ ← modify (upd_branch_regs (fun rs => regs_mark_unknown (flags env) rs (insn_dst insn))); mret true
    else if BPF_SRC (insn_code insn) =? BPF_X then
      _ ← modify (upd_branch_regs (fun rs => regs_mark_unknown (flags env) rs (insn_dst insn)));
      _ ← modify (upd_branch_regs (fun rs => regs_mark_unknown (flags env) rs (insn_src insn))); mret true
    else mret true
  | None => mret branch
  end.

(** ** Sanitation of ALU operations *)

Definition retrieve_ptr_limit (env : bpf_verifier_env) (ptr_reg : bpf_reg_state) (mask_to_left : bool) : Z + Z :=
  let r := match type_ ptr_reg with
    | PTR_TO_STACK =>
      Some (MAX_BPF_STACK + Z.b2z mask_to_left, u32 (- (value (var_off ptr_reg) + off ptr_reg)))
    | PTR_TO_MAP_VALUE =>
      Some (value_size (map_of env (raw ptr_reg)),
            u32 ((if mask_to_left then smin_value ptr_reg else umax_value ptr_reg) + off ptr_reg))
    | _ => None
    end in
  match r with
  | None => inl REASON_TYPE
  | Some (max, ptr_limit) => if ptr_limit >=? max then inl REASON_LIMIT else inr ptr_limit
  end.

Definition can_skip_alu_sanitation (env : bpf_verifier_env) (insn : bpf_insn) : bool :=
  bypass_spec_v1 env || (BPF_SRC (insn_code insn) =? BPF_K).

Definition update_alu_sanitation_state (aux : bpf_insn_aux_data) (state limit : Z) : Z + bpf_insn_aux_data :=
  if negb (alu_state aux =? 0) && (negb (alu_state aux =? state) || negb (alu_limit aux =? limit))
  then inl REASON_PATHS
  else inr (set_alu_limit (set_alu_state aux (u8 state)) limit).

Definition sanitize_val_alu (insn : bpf_insn) : verifier unit := fun env =>
  if can_skip_alu_sanitation env insn then (inr (), env)
  else match update_alu_sanitation_state (cur_aux env) BPF_ALU_NON_POINTER 0 with
       | inl err => (inl err, env)
       | inr aux => (inr (), upd_cur_aux (fun _ => aux) env)
       end.

Definition sanitize_needed (opcode : Z) : bool := (opcode =? BPF_ADD) || (opcode =? BPF_SUB).

Record bpf_sanitize_info := mk_info { info_aux : bpf_insn_aux_data; mask_to_left : bool }.

(** The limits of a path that is not itself speculative. *)
Definition sanitize_ptr_limits (insn : bpf_insn) (ptr_reg off_reg : bpf_reg_state) (ptr_is_dst_reg : bool)
    (info : bpf_sanitize_info) (commit_window : bool) : verifier bpf_sanitize_info := fun env =>
  let opcode := BPF_OP (insn_code insn) in
  let off_is_imm := tnum_is_const (var_off off_reg) in
  let off_is_neg := smin_value off_reg <? 0 in
  if negb commit_window && negb (tnum_is_const (var_off off_reg)) &&
     negb (Bool.eqb (smin_value off_reg <? 0) (smax_value off_reg <? 0))
  then (inl REASON_BOUNDS, env)
  else
    let info := if commit_window then info
      else mk_info (info_aux info) (((opcode =? BPF_ADD) && off_is_neg) || ((opcode =? BPF_SUB) && negb off_is_neg)) in
    match retrieve_ptr_limit env ptr_reg (mask_to_left info) with
    | inl err => (inl err, env)
    | inr limit =>
      if commit_window then
        match update_alu_sanitation_state (cur_aux env) (alu_state (info_aux info))
                (u32 (Z.abs (s32 (u32 (alu_limit (info_aux info) - limit))))) with
        | inl err => (inl err, env)
        | inr aux => (inr info, upd_cur_aux (fun _ => aux) env)
        end
      else
        let state := (if off_is_neg then BPF_ALU_NEG_VALUE else 0) .| (if off_is_imm then BPF_ALU_IMMEDIATE else 0) .|
          (if ptr_is_dst_reg then BPF_ALU_SANITIZE_SRC else BPF_ALU_SANITIZE_DST) in
        let env := if off_is_imm then env else set_explore_alu_limits env true in
        match update_alu_sanitation_state (info_aux info) state limit with
        | inl err => (inl err, env)
        | inr aux => (inr (mk_info aux (mask_to_left info)), env)
        end
    end.

Definition sanitize_ptr_alu (insn : bpf_insn) (ptr off_ : reg_ptr) (dst : Z) (info : bpf_sanitize_info)
    (commit_window : bool) : verifier bpf_sanitize_info :=
  env ← get;
  ptr_reg ← load_ptr ptr;
  off_reg ← load_ptr off_;
  let off_is_imm := tnum_is_const (var_off off_reg) in
  let ptr_is_dst_reg := ptr_is ptr dst in
  if can_skip_alu_sanitation env insn then mret info
  else
    info ← (if speculative (cur_state env) then mret info
            else sanitize_ptr_limits insn ptr_reg off_reg ptr_is_dst_reg info commit_window);
    if commit_window || off_is_imm then mret info
    else
      tmp ← reg_of dst;
      _ ← when (negb ptr_is_dst_reg) (upd_reg dst (fun _ => ptr_reg));
      ret ← sanitize_speculative_path None (insn_idx env + 1) (insn_idx env);
      _ ← when (negb ptr_is_dst_reg && ret) (upd_reg dst (fun _ => tmp));
      if (ret : bool) then mret info else fail REASON_STACK.

(** Every reason is reported as [-EACCES]. *)
Definition sanitize_err (reason : Z) : Z := - EACCES.

(** [ret = m; if (ret < 0) return sanitize_err(...)]. *)
Definition or_sanitize_err {A} (m : verifier A) : verifier A := fun env =>
  match m env with
  | (inl reason, env) => (inl (sanitize_err reason), env)
  | r => r
  end.

Definition check_stack_access_for_ptr_arithmetic (reg : bpf_reg_state) (off : Z) : verifier unit :=
  if negb (tnum_is_const (var_off reg)) then fail (- EACCES)
  else if (off >=? 0) || (off <? - MAX_BPF_STACK) then fail (- EACCES)
  else mret ().

Definition sanitize_check_bounds (insn : bpf_insn) (dst : Z) : verifier unit :=
  env ← get;
  dst_reg ← reg_of dst;
  if bypass_spec_v1 env then mret ()
  else match type_ dst_reg with
       | PTR_TO_STACK => check_stack_access_for_ptr_arithmetic dst_reg (s32 (off dst_reg + value (var_off dst_reg)))
       | PTR_TO_MAP_VALUE => check_map_access (insn_dst insn) (off dst_reg) 1 false
       | _ => mret ()
       end.

(** ** Pointer arithmetic *)

(** The pointer types arithmetic is refused on; [known_zero_add] is the case
    [known && smin_val == 0 && opcode == BPF_ADD]. *)
Definition ptr_arith_prohibited (type : bpf_reg_type) (known_zero_add : bool) : bool :=
  match type with
  | PTR_TO_MAP_VALUE_OR_NULL => true
  | CONST_PTR_TO_MAP => negb known_zero_add
  | PTR_TO_PACKET_END | PTR_TO_SOCKET | PTR_TO_SOCK_COMMON | PTR_TO_TCP_SOCK | PTR_TO_XDP_SOCK => true
  | type => reg_type_may_be_null type
  end.

(** [ptr += K] and [ptr -= K]: the constant goes into the fixed offset. *)
Definition ptr_fixed (dst_reg ptr_reg : bpf_reg_state) (new_off : Z) : bpf_reg_state :=
  let dst_reg := set_smin_value dst_reg (smin_value ptr_reg) in
  let dst_reg := set_smax_value dst_reg (smax_value ptr_reg) in
  let dst_reg := set_umin_value dst_reg (umin_value ptr_reg) in
  let dst_reg := set_umax_value dst_reg (umax_value ptr_reg) in
  let dst_reg := set_var_off dst_reg (var_off ptr_reg) in
  let dst_reg := set_off dst_reg (s32 new_off) in
  set_raw dst_reg (raw ptr_reg).

Definition ptr_add_var (dst_reg ptr_reg off_reg : bpf_reg_state) (smin_val smax_val umin_val umax_val : Z) : bpf_reg_state :=
  let dst_reg :=
    if signed_add_overflows (smin_value ptr_reg) smin_val || signed_add_overflows (smax_value ptr_reg) smax_val
    then set_smax_value (set_smin_value dst_reg S64_MIN) S64_MAX
    else set_smax_value (set_smin_value dst_reg (s64 (smin_value ptr_reg + smin_val))) (s64 (smax_value ptr_reg + smax_val)) in
  let dst_reg :=
    if (u64 (umin_value ptr_reg + umin_val) <? umin_value ptr_reg) || (u64 (umax_value ptr_reg + umax_val) <? umax_value ptr_reg)
    then set_umax_value (set_umin_value dst_reg 0) U64_MAX
    else set_umax_value (set_umin_value dst_reg (u64 (umin_value ptr_reg + umin_val))) (u64 (umax_value ptr_reg + umax_val)) in
  let dst_reg := set_var_off dst_reg (tnum_add (var_off ptr_reg) (var_off off_reg)) in
  let dst_reg := set_off dst_reg (off ptr_reg) in
  set_raw dst_reg (raw ptr_reg).

Definition ptr_sub_var (dst_reg ptr_reg off_reg : bpf_reg_state) (smin_val smax_val umin_val umax_val : Z) : bpf_reg_state :=
  let dst_reg :=
    if signed_sub_overflows (smin_value ptr_reg) smax_val || signed_sub_overflows (smax_value ptr_reg) smin_val
    then set_smax_value (set_smin_value dst_reg S64_MIN) S64_MAX
    else set_smax_value (set_smin_value dst_reg (s64 (smin_value ptr_reg - smax_val))) (s64 (smax_value ptr_reg - smin_val)) in
  let dst_reg :=
    if umin_value ptr_reg <? umax_val
    then set_umax_value (set_umin_value dst_reg 0) U64_MAX
    else set_umax_value (set_umin_value dst_reg (u64 (umin_value ptr_reg - umax_val))) (u64 (umax_value ptr_reg - umin_val)) in
  let dst_reg := set_var_off dst_reg (tnum_sub (var_off ptr_reg) (var_off off_reg)) in
  let dst_reg := set_off dst_reg (off ptr_reg) in
  set_raw dst_reg (raw ptr_reg).

(** [dst_reg->id = ++env->id_gen]. *)
Definition fresh_id (dst : Z) : verifier unit := fun env =>
  let env := set_id_gen env (u32 (id_gen env + 1)) in
  upd_reg dst (fun reg => set_id reg (id_gen env)) env.

(** The switch on the opcode.  [ptr] and [off_] may be the destination itself,
    so their registers are read again at each use. *)
Definition ptr_op (insn : bpf_insn) (ptr off_ : reg_ptr) (dst : Z) (known : bool) (smin_val smax_val umin_val umax_val : Z) : verifier unit :=
  let opcode := BPF_OP (insn_code insn) in
  ptr_reg ← load_ptr ptr;
  off_reg ← load_ptr off_;
  let is_pkt := type_is_pkt_pointer (type_ ptr_reg) in
  if opcode =? BPF_ADD then
    if known && (s64 (off ptr_reg + smin_val) =? s32 (off ptr_reg + smin_val))
    then upd_reg dst (fun dst_reg => ptr_fixed dst_reg ptr_reg (off ptr_reg + smin_val))
    else
      _ ← upd_reg dst (fun dst_reg => ptr_add_var dst_reg ptr_reg off_reg smin_val smax_val umin_val umax_val);
      when is_pkt (_ ← fresh_id dst; upd_reg dst (fun dst_reg => set_raw dst_reg 0))
  else if opcode =? BPF_SUB then
    if ptr_is off_ dst then fail (- EACCES)
    else if type_eqb (type_ ptr_reg) PTR_TO_STACK then fail (- EACCES)
    else if known && (s64 (off ptr_reg - smin_val) =? s32 (off ptr_reg - smin_val))
    then upd_reg dst (fun dst_reg => set_id (ptr_fixed dst_reg ptr_reg (off ptr_reg - smin_val)) (id ptr_reg))
    else
      _ ← upd_reg dst (fun dst_reg => ptr_sub_var dst_reg ptr_reg off_reg smin_val smax_val umin_val umax_val);
      when is_pkt (_ ← fresh_id dst; when (smin_val <? 0) (upd_reg dst (fun dst_reg => set_raw dst_reg 0)))
  else fail (- EACCES).

Definition adjust_ptr_min_max_vals (insn : bpf_insn) (ptr off_ : reg_ptr) : verifier unit :=
  env ← get;
  ptr_reg ← load_ptr ptr;
  off_reg ← load_ptr off_;
  let dst := insn_dst insn in
  let known := tnum_is_const (var_off off_reg) in
  let smin_val := smin_value off_reg in
  let smax_val := smax_value off_reg in
  let umin_val := umin_value off_reg in
  let umax_val := umax_value off_reg in
  let opcode := BPF_OP (insn_code insn) in
  if (known && (negb (smin_val =? smax_val) || negb (umin_val =? umax_val))) || (smin_val >? smax_val) || (umin_val >? umax_val)
  then upd_reg dst (__mark_reg_unknown (flags env))
  else if negb (BPF_CLASS (insn_code insn) =? BPF_ALU64) then
    if (opcode =? BPF_SUB) && allow_ptr_leaks env then upd_reg dst (__mark_reg_unknown (flags env))
    else fail (- EACCES)
  else if ptr_arith_prohibited (type_ ptr_reg) (known && (smin_val =? 0) && (opcode =? BPF_ADD)) then fail (- EACCES)
  else
    _ ← upd_reg dst (fun dst_reg => set_id (set_type dst_reg (type_ ptr_reg)) (id ptr_reg));
    off_reg ← load_ptr off_;
    ptr_reg ← load_ptr ptr;
    if negb (check_reg_sane_offset off_reg) || negb (check_reg_sane_offset ptr_reg) then fail (- EINVAL)
    else
      _ ← upd_reg dst __mark_reg32_unbounded;
      let info := mk_info inhabitant false in
      info ← (if sanitize_needed opcode then or_sanitize_err (sanitize_ptr_alu insn ptr off_ dst info false) else mret info);
      _ ← ptr_op insn ptr off_ dst known smin_val smax_val umin_val umax_val;
      dst_reg ← reg_of dst;
      if negb (check_reg_sane_offset dst_reg) then fail (- EINVAL)
      else
        _ ← upd_reg dst (fun dst_reg => __reg_bound_offset (__reg_deduce_bounds (__update_reg_bounds dst_reg)));
        _ ← sanitize_check_bounds insn dst;
        _ ← (if sanitize_needed opcode then or_sanitize_err (sanitize_ptr_alu insn (PReg dst) off_ dst info true) else mret info);
        mret ().

(** ** Scalar arithmetic *)

(** The switch of [adjust_scalar_min_max_vals]; [dst] is the register
    [dst_reg] points to. *)
Definition scalar_op (insn : bpf_insn) (dst : Z) (src_reg : bpf_reg_state) : verifier unit :=
  let opcode := BPF_OP (insn_code insn) in
  let alu32 := negb (BPF_CLASS (insn_code insn) =? BPF_ALU64) in
  let insn_bitness := if alu32 then 32 else 64 in
  let shift f32 f64 :=
    if umax_value src_reg >=? insn_bitness then mark_reg_unknown (insn_dst insn)
    else upd_reg dst (fun d => if alu32 then f32 d src_reg else f64 d src_reg) in
  if opcode =? BPF_ADD then
    upd_reg dst (fun d =>
      let d := scalar_min_max_add (scalar32_min_max_add d src_reg) src_reg in
      set_var_off d (tnum_add (var_off d) (var_off src_reg)))
  else if opcode =? BPF_SUB then
    upd_reg dst (fun d =>
      let d := scalar_min_max_sub (scalar32_min_max_sub d src_reg) src_reg in
      set_var_off d (tnum_sub (var_off d) (var_off src_reg)))
  else if opcode =? BPF_MUL then
    upd_reg dst (fun d =>
      let d := set_var_off d (tnum_mul (var_off d) (var_off src_reg)) in
      scalar_min_max_mul (scalar32_min_max_mul d src_reg) src_reg)
  else if opcode =? BPF_AND then
    upd_reg dst (fun d =>
      let d := set_var_off d (tnum_and (var_off d) (var_off src_reg)) in
      scalar_min_max_and (scalar32_min_max_and d src_reg) src_reg)
  else if opcode =? BPF_OR then
    upd_reg dst (fun d =>
      let d := set_var_off d (tnum_or (var_off d) (var_off src_reg)) in
      scalar_min_max_or (scalar32_min_max_or d src_reg) src_reg)
  else if opcode =? BPF_XOR then
    upd_reg dst (fun d =>
      let d := set_var_off d (tnum_xor (var_off d) (var_off src_reg)) in
      scalar_min_max_xor (scalar32_min_max_xor d src_reg) src_reg)
  else if opcode =? BPF_LSH then shift scalar32_min_max_lsh scalar_min_max_lsh
  else if opcode =? BPF_RSH then shift scalar32_min_max_rsh scalar_min_max_rsh
  else if opcode =? BPF_ARSH then shift scalar32_min_max_arsh scalar_min_max_arsh
  else mark_reg_unknown (insn_dst insn).

Definition adjust_scalar_min_max_vals (insn : bpf_insn) (dst : Z) (src_reg : bpf_reg_state) : verifier unit :=
  env ← get;
  let opcode := BPF_OP (insn_code insn) in
  let alu32 := negb (BPF_CLASS (insn_code insn) =? BPF_ALU64) in
  let src_known := if alu32 then tnum_subreg_is_const (var_off src_reg) else tnum_is_const (var_off src_reg) in
  let tainted :=
    if alu32 then
      (src_known && (negb (s32_min_value src_reg =? s32_max_value src_reg) || negb (u32_min_value src_reg =? u32_max_value src_reg))) ||
      (s32_min_value src_reg >? s32_max_value src_reg) || (u32_min_value src_reg >? u32_max_value src_reg)
    else
      (src_known && (negb (smin_value src_reg =? smax_value src_reg) || negb (umin_value src_reg =? umax_value src_reg))) ||
      (smin_value src_reg >? smax_value src_reg) || (umin_value src_reg >? umax_value src_reg) in
  if tainted then upd_reg dst (__mark_reg_unknown (flags env))
  else if negb src_known && negb (opcode =? BPF_ADD) && negb (opcode =? BPF_SUB) && negb (opcode =? BPF_AND) then
    upd_reg dst (__mark_reg_unknown (flags env))
  else
    _ ← when (sanitize_needed opcode) (or_sanitize_err (sanitize_val_alu insn));
    _ ← scalar_op insn dst src_reg;
    _ ← when alu32 (upd_reg dst zext_32_to_64);
    upd_reg dst (fun d => __reg_bound_offset (__reg_deduce_bounds (__update_reg_bounds d))).

Definition adjust_reg_min_max_vals (insn : bpf_insn) : verifier unit :=
  env ← get;
  let opcode := BPF_OP (insn_code insn) in
  let dst := insn_dst insn in
  let src := insn_src insn in
  dst_reg ← reg_of dst;
  let is_ptr := negb (type_eqb (type_ dst_reg) SCALAR_VALUE) in
  _ ← when (negb is_ptr) (upd_reg dst (fun reg => set_id reg 0));
  if BPF_SRC (insn_code insn) =? BPF_X then
    src_reg ← reg_of src;
    if negb (type_eqb (type_ src_reg) SCALAR_VALUE) then
      if is_ptr then
        if (opcode =? BPF_SUB) && allow_ptr_leaks env then mark_reg_unknown dst
        else fail (- EACCES)
      else
        _ ← mark_chain_precision dst;
        adjust_ptr_min_max_vals insn (PReg src) (PReg dst)
    else if is_ptr then
      _ ← mark_chain_precision src;
      adjust_ptr_min_max_vals insn (PReg dst) (PReg src)
    else
      adjust_scalar_min_max_vals insn dst src_reg
  else
    let off_reg := __mark_reg_known (set_type inhabitant SCALAR_VALUE) (u64 (insn_imm insn)) in
    if is_ptr then adjust_ptr_min_max_vals insn (PReg dst) (PVal off_reg)
    else adjust_scalar_min_max_vals insn dst off_reg.

(** ** [check_alu_op] *)

Definition is_pointer_value (regno : Z) : verifier bool :=
  env ← get; reg ← reg_of regno; mret (__is_pointer_value (allow_ptr_leaks env) reg).

(** BPF_NEG and BPF_END. *)
Definition check_alu_unary (insn : bpf_insn) : verifier unit :=
  let opcode := BPF_OP (insn_code insn) in
  let bad :=
    if opcode =? BPF_NEG then
      negb (BPF_SRC (insn_code insn) =? 0) || negb (insn_src insn =? BPF_REG_0) || negb (insn_off insn =? 0) || negb (insn_imm insn =? 0)
    else
      negb (insn_src insn =? BPF_REG_0) || negb (insn_off insn =? 0) ||
      (negb (insn_imm insn =? 16) && negb (insn_imm insn =? 32) && negb (insn_imm insn =? 64)) ||
      (BPF_CLASS (insn_code insn) =? BPF_ALU64) in
  if bad then fail (- EINVAL)
  else
    _ ← check_reg_arg (insn_dst insn) SRC_OP;
    ptr ← is_pointer_value (insn_dst insn);
    if (ptr : bool) then fail (- EACCES)
    else check_reg_arg (insn_dst insn) DST_OP.

(** BPF_MOV from a register. *)
Definition check_alu_mov_reg (insn : bpf_insn) : verifier unit :=
  env ← get;
  let dst := insn_dst insn in
  let src := insn_src insn in
  src_reg ← reg_of src;
  if BPF_CLASS (insn_code insn) =? BPF_ALU64 then
    _ ← when (type_eqb (type_ src_reg) SCALAR_VALUE && (id src_reg =? 0)) (fresh_id src);
    src_reg ← reg_of src;
    _ ← upd_reg dst (fun _ => src_reg);
    upd_reg dst (fun d => set_subreg_def (set_live d (live d .| REG_LIVE_WRITTEN)) DEF_NOT_SUBREG)
  else
    ptr ← is_pointer_value src;
    if (ptr : bool) then fail (- EACCES)
    else
      _ ← (if type_eqb (type_ src_reg) SCALAR_VALUE then
             _ ← upd_reg dst (fun _ => src_reg);
             upd_reg dst (fun d => set_subreg_def (set_live (set_id d 0) (live d .| REG_LIVE_WRITTEN)) (s32 (u32 (insn_idx env + 1))))
           else mark_reg_unknown dst);
      _ ← upd_reg dst zext_32_to_64;
      upd_reg dst (fun d => __reg_bound_offset (__reg_deduce_bounds (__update_reg_bounds d))).

Definition check_alu_mov (insn : bpf_insn) : verifier unit :=
  let is_x := BPF_SRC (insn_code insn) =? BPF_X in
  let dst := insn_dst insn in
  _ ← (if is_x then
         if negb (insn_imm insn =? 0) || negb (insn_off insn =? 0) then fail (- EINVAL)
         else check_reg_arg (insn_src insn) SRC_OP
       else
         if negb (insn_src insn =? BPF_REG_0) || negb (insn_off insn =? 0) then fail (- EINVAL) else mret ());
  _ ← check_reg_arg dst DST_OP_NO_MARK;
  if is_x then check_alu_mov_reg insn
  else
    _ ← mark_reg_unknown dst;
    _ ← upd_reg dst (fun d => set_type d SCALAR_VALUE);
    if BPF_CLASS (insn_code insn) =? BPF_ALU64
    then upd_reg dst (fun d => __mark_reg_known d (u64 (insn_imm insn)))
    else upd_reg dst (fun d => __mark_reg_known d (u32 (insn_imm insn))).

(** All other operations. *)
Definition check_alu_binary (insn : bpf_insn) : verifier unit :=
  let opcode := BPF_OP (insn_code insn) in
  let is_x := BPF_SRC (insn_code insn) =? BPF_X in
  let is_k := BPF_SRC (insn_code insn) =? BPF_K in
  _ ← (if is_x then
         if negb (insn_imm insn =? 0) || negb (insn_off insn =? 0) then fail (- EINVAL)
         else check_reg_arg (insn_src insn) SRC_OP
       else
         if negb (insn_src insn =? BPF_REG_0) || negb (insn_off insn =? 0) then fail (- EINVAL) else mret ());
  _ ← check_reg_arg (insn_dst insn) SRC_OP;
  if ((opcode =? BPF_MOD) || (opcode =? BPF_DIV)) && is_k && (insn_imm insn =? 0) then fail (- EINVAL)
  else
    let size := if BPF_CLASS (insn_code insn) =? BPF_ALU64 then 64 else 32 in
    if ((opcode =? BPF_LSH) || (opcode =? BPF_RSH) || (opcode =? BPF_ARSH)) && is_k &&
       ((insn_imm insn <? 0) || (insn_imm insn >=? size))
    then fail (- EINVAL)
    else
      _ ← check_reg_arg (insn_dst insn) DST_OP_NO_MARK;
      adjust_reg_min_max_vals insn.

Definition check_alu_op (insn : bpf_insn) : verifier unit :=
  let opcode := BPF_OP (insn_code insn) in
  if (opcode =? BPF_END) || (opcode =? BPF_NEG) then check_alu_unary insn
  else if opcode =? BPF_MOV then check_alu_mov insn
  else if opcode >? BPF_END then fail (- EINVAL)
  else check_alu_binary insn.
