(* ===== verification/Frame.v ===== *)
(** What a check leaves alone.

    [fixes F m]: the computation [m] does not change the part [F] of the
    environment, whether it fails or not.  The class [View] lists the updates
    the checks of instructions make that a part of the environment may be blind
    to; [program] and [explored] are such parts, and [stacks] is what the
    arithmetic instructions keep of the current state. *)
From Stdlib Require Import ZArith Lia Bool.
From stdpp Require Import base list gmap.
From S2P Require Import Prelude Lists Bits Tnum Bounds RegState ScalarOps Insn Interp Env MemAccess RegArg Precision Bookkeeping Alu.

Local Open Scope Z_scope.
Local Open Scope kint_scope.

Definition fixes {T A} (F : bpf_verifier_env -> T) (m : verifier A) : Prop := forall e, F (m e).2 = F e.

Create HintDb fixes discriminated.

Section Fixes.
Context {T : Type} (F : bpf_verifier_env -> T).

Lemma fixes_run {A} (m : verifier A) e r e' : fixes F m -> m e = (r, e') -> F e' = F e.
Proof. intros H R; specialize (H e); rewrite R in H; exact H. Qed.

Lemma fixes_bind {A B} (m : verifier A) (f : A -> verifier B) : fixes F m -> (forall a, fixes F (f a)) -> fixes F (m ≫= f).
Proof.
  intros Hm Hf e; specialize (Hm e); unfold mbind, verifier_bind; destruct (m e) as [[err|a] e1]; cbn in *; [exact Hm|].
  rewrite (Hf a e1); exact Hm.
Qed.

Lemma fixes_ret {A} (a : A) : fixes F (mret a).
Proof. intros e; reflexivity. Qed.

Lemma fixes_fail {A} err : fixes F (fail err : verifier A).
Proof. intros e; reflexivity. Qed.

Lemma fixes_get : fixes F get.
Proof. intros e; reflexivity. Qed.

Lemma fixes_reg_of r : fixes F (reg_of r).
Proof. intros e; reflexivity. Qed.

Lemma fixes_load_ptr p : fixes F (load_ptr p).
Proof. intros e; destruct p; reflexivity. Qed.

Lemma fixes_if {A} (b : bool) (m m' : verifier A) : fixes F m -> fixes F m' -> fixes F (if b then m else m').
Proof. destruct b; auto. Qed.

Lemma fixes_when b m : fixes F m -> fixes F (when b m).
Proof. destruct b; [auto|intros _ e; reflexivity]. Qed.

Lemma fixes_catch m : fixes F m -> fixes F (catch m).
Proof. intros H e; specialize (H e); unfold catch; destruct (m e) as [[|] ?]; exact H. Qed.

Lemma fixes_or_err {A} (m : verifier A) : fixes F m -> fixes F (or_sanitize_err m).
Proof. intros H e; specialize (H e); unfold or_sanitize_err; destruct (m e) as [[|] ?]; exact H. Qed.

Lemma fixes_modify f : (forall e, F (f e) = F e) -> fixes F (modify f).
Proof. intros H e; exact (H e). Qed.

Lemma fixes_pointer_value r : fixes F (is_pointer_value r).
Proof. intros e; reflexivity. Qed.
End Fixes.

#[export] Hint Resolve fixes_bind fixes_ret fixes_fail fixes_get fixes_reg_of fixes_load_ptr fixes_if fixes_when fixes_catch fixes_or_err fixes_pointer_value : fixes.

(** ** Parts blind to the current state *)

(** What is set up before the check: the pruning points, and the maps that loads
    of map values name. *)
Definition aux_fixed (a : bpf_insn_aux_data) := (prune_point a, map_index a, map_off a).

Class View {T} (F : bpf_verifier_env -> T) : Prop := {
  vw_cur e s : F (set_cur_state e s) = F e;
  vw_same e e' : e' ≈ e -> F e' = F e;
  vw_alloc e l : F (set_alloc e l) = F e;
  vw_insn_aux e f i : (forall a, aux_fixed (f a) = aux_fixed a) -> F (set_insn_aux_data e (alter f i (insn_aux_data e))) = F e;
  vw_subprog e l : F (set_subprog_info e l) = F e;
  vw_aux e a : F (set_aux e a) = F e;
  vw_write e b : F (set_seen_direct_write e b) = F e
}.

(** The program: its instructions and maps, what was set up for them, the
    instruction under check and the state of the search. *)
Definition program (e : bpf_verifier_env) :=
  (maps e, prog e, insn_idx e, search e, aux_fixed <$> insn_aux_data e, used_maps e).

Lemma program_fields e e' : program e' = program e -> maps e' = maps e /\ prog e' = prog e /\ insn_idx e' = insn_idx e /\ search e' = search e.
Proof. unfold program; intros H; repeat split; congruence. Qed.

Lemma program_maps e e' : program e' = program e -> maps e' = maps e.
Proof. intros H; apply (program_fields _ _ H). Qed.

(** The states still to explore, and the ids handed out. *)
Definition explored (e : bpf_verifier_env) := (head e, stack_size e, id_gen e).

Lemma prune_alter f i (l : list bpf_insn_aux_data) : (forall a, aux_fixed (f a) = aux_fixed a) -> aux_fixed <$> alter f i l = aux_fixed <$> l.
Proof.
  intros H; apply list_eq; intros j; rewrite !list_lookup_fmap, list_lookup_alter; case_decide; subst; [|reflexivity].
  destruct (l !! _); cbn; [rewrite H|]; reflexivity.
Qed.

#[export] Instance program_view : View program.
Proof.
  split; try reflexivity.
  - intros e e' H; assert (P : forall q, program (erase_env q) = program q); [|rewrite <- (P e'), <- (P e), H; reflexivity].
    intros q; unfold program; cbn; rewrite <- list_fmap_compose; reflexivity.
  - intros e f i H; unfold program; cbn; rewrite prune_alter by exact H; reflexivity.
Qed.

#[export] Instance explored_view : View explored.
Proof. split; try reflexivity; intros e e' H; exact (f_equal explored H). Qed.

Section View.
Context {T : Type} (F : bpf_verifier_env -> T) {V : View F}.

Lemma fixes_same {A} (m : verifier A) : (forall e, (m e).2 ≈ e) -> fixes F m.
Proof. intros H e; apply vw_same, H. Qed.

Lemma fixes_upd_reg r f : fixes F (upd_reg r f).
Proof. intros e; apply vw_cur. Qed.

Lemma fixes_mark_unknown r : fixes F (mark_reg_unknown r).
Proof. intros e; unfold mark_reg_unknown; destruct (_ >=? _); apply vw_cur. Qed.

Lemma fixes_mark_zero r : fixes F (mark_reg_known_zero r).
Proof. intros e; unfold mark_reg_known_zero; destruct (_ >=? _); apply vw_cur. Qed.

Lemma fixes_kzalloc : fixes F kzalloc.
Proof. intros e; unfold kzalloc; destruct (alloc e); [reflexivity|apply vw_alloc]. Qed.

Lemma fixes_mark_read s p f : fixes F (mark_reg_read s p f).
Proof. apply fixes_same; intros e; apply mark_reg_read_same. Qed.

Lemma fixes_precision r : fixes F (mark_chain_precision r).
Proof. apply fixes_same; intros e; apply mark_chain_same. Qed.

Lemma fixes_zext r : fixes F (mark_insn_zext r).
Proof.
  intros e; unfold mark_insn_zext; destruct (_ =? _); [reflexivity|].
  etrans; [apply vw_cur|]; apply vw_insn_aux; reflexivity.
Qed.
End View.

#[export] Hint Resolve fixes_upd_reg fixes_mark_unknown fixes_mark_zero fixes_kzalloc fixes_mark_read fixes_precision fixes_zext : fixes.
#[export] Hint Extern 1 (View _) => typeclasses eauto : fixes.

(** One syntactic step of a computation. *)
Ltac fixes_step :=
  first
    [ progress auto with fixes nocore
    | apply fixes_bind; [|intros ?]
    | apply fixes_if
    | apply fixes_when
    | apply fixes_modify; intros; first [reflexivity|apply vw_cur|apply vw_insn_aux; reflexivity|apply vw_subprog|apply vw_aux|apply vw_write]
    | match goal with |- fixes _ (match ?x with _ => _ end) => destruct x end
    | progress cbv zeta ].
Ltac fixes_auto := repeat fixes_step.

Lemma fixes_reg_arg {T} (F : bpf_verifier_env -> T) {V : View F} r t : fixes F (check_reg_arg r t).
Proof. unfold check_reg_arg; fixes_auto. Qed.

#[export] Hint Resolve fixes_reg_arg : fixes.
