(* ===== verification/AluSound.v ===== *)
(** Soundness of the verifier's arithmetic against the interpreter.

    [check_alu_op] computes abstract registers, [step_alu] of [Interp] computes
    machine registers; an accepted instruction keeps every scalar register
    admitting the machine value. *)
From Stdlib Require Import ZArith Lia Bool.
From stdpp Require Import base list gmap.
From S2P Require Import Prelude Bits Tnum Bounds RegState ScalarOps ScalarBits Insn Interp Env MemAccess RegArg.
From S2P Require Import Precision Bookkeeping Alu.

Local Open Scope Z_scope.
Local Open Scope kint_scope.

(** ** Results of the machine operations *)

Lemma shift_amount_range w o SRC IMM n : w = 32 \/ w = 64 -> shift_amount w o SRC IMM = Some n -> 0 <= n < w.
Proof.
  intros Hw; unfold shift_amount; destruct o.
  - intros [= <-]; destruct Hw as [-> | ->]; [change (32 - 1) with (Z.ones 5)|change (64 - 1) with (Z.ones 6)];
      rewrite Z.land_ones by lia; apply Z.mod_pos_bound; lia.
  - destruct (Z.leb_spec 0 IMM), (Z.ltb_spec IMM w); cbn; try discriminate; intros [= <-]; lia.
Qed.

Lemma alu_exec_range w op o DST SRC IMM r : w = 32 \/ w = 64 -> alu_exec w op o DST SRC IMM = Some r -> uin w r.
Proof.
  intros Hw; assert (Hw0 : 0 <= w) by lia.
  pose proof (uwrap_range w DST ltac:(lia)) as Ha; set (a := uwrap w DST) in *.
  pose proof (uwrap_range w (match o with X => SRC | K => IMM end) ltac:(lia)) as Hb.
  unfold alu_exec; fold a; set (b := uwrap w (match o with X => SRC | K => IMM end)) in *; clearbody a b.
  assert (Hdiv : (b =? 0) = false -> 0 <= a / b <= a /\ 0 <= a mod b <= a).
  { intros E; apply Z.eqb_neq in E; unfold uin in *; pose proof (Z.mod_pos_bound a b ltac:(lia)).
    pose proof (Z.mod_le a b ltac:(lia) ltac:(lia)); pose proof (Z.div_pos a b ltac:(lia) ltac:(lia)).
    split; [split; [lia|apply Z.div_le_upper_bound; nia]|lia]. }
  destruct op; cbn [alu_arith mbind option_bind]; try (intros [= <-]; first [apply uwrap_range; lia|auto using uin_land, uin_lor, uin_lxor]; fail).
  1-3: destruct (shift_amount w o SRC IMM) as [n|] eqn:E; [|discriminate]; apply (shift_amount_range w) in E; [|exact Hw];
    intros [= <-]; cbn; first [apply uin_ushl; lia|apply uin_ushr; trivial; lia|apply uwrap_range; lia].
  all: destruct (b =? 0) eqn:E; [discriminate|]; intros [= <-]; specialize (Hdiv eq_refl); unfold uin in *; lia.
Qed.

(** The operand of an instruction as a 64-bit value: the source register, or
    the immediate sign extended as [__mark_reg_known(&off_reg, insn->imm)]
    does. *)
Definition operand_val (o : operand) (SRC IMM : Z) : Z := match o with X => SRC | K => u64 IMM end.

Lemma operand_wrap w o SRC IMM : 0 <= w <= 64 -> uwrap w (match o with X => SRC | K => IMM end) = uwrap w (operand_val o SRC IMM).
Proof. intros; destruct o; cbn; [reflexivity|]; rewrite uwrap_uwrap by lia; reflexivity. Qed.

Lemma shift_amount_eq w o SRC IMM n : w = 32 \/ w = 64 -> 0 <= operand_val o SRC IMM < w -> shift_amount w o SRC IMM = Some n ->
  n = operand_val o SRC IMM.
Proof.
  intros Hw Hy; unfold shift_amount, operand_val in *; destruct o.
  - intros [= <-]; destruct Hw as [-> | ->]; [change (32 - 1) with (Z.ones 5)|change (64 - 1) with (Z.ones 6)];
      rewrite Z.land_ones by lia; apply Z.mod_small; lia.
  - destruct (Z.leb_spec 0 IMM), (Z.ltb_spec IMM w); cbn; try discriminate; intros [= <-].
    symmetry; apply uwrap_id; unfold uin; lia.
Qed.

Lemma known_amount b y : bnd_in 64 b y -> uin 64 y -> bumin b = bumax b -> bumin b = y.
Proof. intros [_ H] Hy E; rewrite uwrap_id in H by exact Hy; lia. Qed.

Definition insn_w (insn : bpf_insn) : Z := if BPF_CLASS (insn_code insn) =? BPF_ALU64 then 64 else 32.

Lemma insn_w_cases insn : insn_w insn = 32 \/ insn_w insn = 64.
Proof. unfold insn_w; destruct (_ =? _); auto. Qed.

(** Marking the destination unknown, written through [regs]. *)
Lemma mark_unknown_run env dst : regno_ok dst ->
  mark_reg_unknown dst env = (inr (), put_reg env dst (__mark_reg_unknown (flags env) (get_reg env dst))).
Proof. unfold regno_ok, mark_reg_unknown; intros H; destruct (Z.geb_spec dst MAX_BPF_REG); [lia|reflexivity]. Qed.

(** What a step on register [dst] must leave there: a state that admits some
    [z] whose low [w] bits are the machine result. *)
Definition op_result (env : bpf_verifier_env) (dst w r : Z) (env1 : bpf_verifier_env) : Prop :=
  exists d' z, env1 = put_reg env dst d' /\ type_ d' = SCALAR_VALUE /\ reg_ok d' /\ reg_mem d' z /\ r = uwrap w z.

Section ScalarOp.
Variables (insn : bpf_insn) (env : bpf_verifier_env) (src_reg : bpf_reg_state) (x y SRC w : Z) (op : alu_op) (o : operand) (r : Z).
Local Abbreviation dst := (insn_dst insn).
Hypothesis Hdst : regno_ok dst.
Hypothesis Hw : insn_w insn = w.
Hypothesis Hop : BPF_OP (insn_code insn) = alu_code op.
Hypothesis Ht : type_ (get_reg env dst) = SCALAR_VALUE.
Hypothesis Hx : reg_inv (get_reg env dst) x.
Hypothesis Hy : reg_inv src_reg y.
Hypothesis Hyo : operand_val o SRC (insn_imm insn) = y.
Hypothesis Hr : alu_exec w op o x SRC (insn_imm insn) = Some r.
(** The amount of a shift is a known constant. *)
Hypothesis K64 : w = 64 -> alu_code op <> BPF_ADD -> alu_code op <> BPF_SUB -> alu_code op <> BPF_AND ->
  umin_value src_reg = umax_value src_reg.
Hypothesis K32 : w = 32 -> alu_code op <> BPF_ADD -> alu_code op <> BPF_SUB -> alu_code op <> BPF_AND ->
  u32_min_value src_reg = u32_max_value src_reg.

Lemma w_cases : w = 32 \/ w = 64.
Proof using Hw. rewrite <- Hw; apply insn_w_cases. Qed.

Lemma is_alu32 : negb (BPF_CLASS (insn_code insn) =? BPF_ALU64) = (w =? 32).
Proof using Hw. rewrite <- Hw; unfold insn_w; destruct (_ =? _); reflexivity. Qed.

Lemma result_range : uin w r.
Proof using Hw Hr. eapply alu_exec_range; [apply w_cases|exact Hr]. Qed.

Lemma arith_result f z : reg_ok (f (get_reg env dst)) /\ reg_mem (f (get_reg env dst)) z -> r = uwrap w z ->
  type_ (f (get_reg env dst)) = type_ (get_reg env dst) ->
  exists env1, upd_reg dst f env = (inr (), env1) /\ op_result env dst w r env1.
Proof using Ht.
  intros [H1 H2] E T; eexists; split; [reflexivity|]; exists (f (get_reg env dst)), z; rewrite T; auto.
Qed.

Lemma unknown_result : exists env1, mark_reg_unknown dst env = (inr (), env1) /\ op_result env dst w r env1.
Proof using Hdst Hw Hr.
  rewrite mark_unknown_run by exact Hdst; eexists; split; [reflexivity|].
  pose proof result_range as Hu; pose proof w_cases.
  assert (Hu' : uin 64 r) by (apply (uin_le w); [lia|exact Hu]).
  destruct (mark_unknown_inv (flags env) (get_reg env dst) r Hu') as (? & ? & _).
  eexists _, r; split; [reflexivity|]; split; [reflexivity|]; rewrite uwrap_id by exact Hu; auto.
Qed.

Lemma shift_known : umax_value src_reg < w -> alu_code op <> BPF_ADD -> alu_code op <> BPF_SUB -> alu_code op <> BPF_AND ->
  0 <= y < w /\ (w = 64 -> umin_value src_reg = y /\ umax_value src_reg = y) /\ (w = 32 -> u32_min_value src_reg = y /\ u32_max_value src_reg = y).
Proof using Hw Hy K64 K32.
  destruct Hy as (_ & ((Hu & _) & (_ & I64) & (_ & I32)) & _); cbn in I64, I32; intros Hm N1 N2 N3.
  rewrite (uwrap_id 64 y) in I64 by exact Hu; pose proof w_cases; unfold uin in Hu.
  split; [lia|]; split; intros E; [specialize (K64 E N1 N2 N3); lia|specialize (K32 E N1 N2 N3)].
  rewrite (uwrap_id 32 y) in I32 by (unfold uin; lia); lia.
Qed.

(** The shifts: unknown when the amount may reach the width, otherwise the
    transfer function of that width. *)
Lemma shift_result f32 f64 :
  (forall n, 0 <= n < 64 -> umin_value src_reg = n -> umax_value src_reg = n ->
     reg_ok (f64 (get_reg env dst) src_reg) /\ reg_mem (f64 (get_reg env dst) src_reg) (alu_shift 64 op x n)) ->
  (forall n, 0 <= n < 32 -> u32_min_value src_reg = n -> u32_max_value src_reg = n ->
     reg_ok (f32 (get_reg env dst) src_reg) /\ reg_mem (f32 (get_reg env dst) src_reg) (alu_shift 32 op (u32 x) n)) ->
  (n ← shift_amount w o SRC (insn_imm insn); Some (alu_shift w op (uwrap w x) n)) = Some r ->
  alu_code op <> BPF_ADD -> alu_code op <> BPF_SUB -> alu_code op <> BPF_AND ->
  (forall d s, type_ (f32 d s) = type_ d) -> (forall d s, type_ (f64 d s) = type_ d) ->
  exists env1, (if umax_value src_reg >=? w then mark_reg_unknown dst
    else upd_reg dst (fun d => if w =? 32 then f32 d src_reg else f64 d src_reg)) env = (inr (), env1) /\
    op_result env dst w r env1.
Proof using Hdst Hw Ht Hx Hy Hyo Hr K64 K32.
  intros S64 S32 Hs N1 N2 N3 T32 T64; destruct (Z.geb_spec (umax_value src_reg) w) as [|Hm]; [apply unknown_result|].
  destruct (shift_known Hm N1 N2 N3) as (Hyw & Y64 & Y32); assert (Hxu : uin 64 x) by apply Hx.
  destruct (shift_amount w o SRC (insn_imm insn)) as [n|] eqn:En; [|discriminate]; injection Hs as Hs.
  apply shift_amount_eq in En; [|apply w_cases|rewrite Hyo; exact Hyw]; rewrite Hyo in En; subst n.
  apply (arith_result _ r); [|symmetry; apply uwrap_id, result_range|destruct (w =? 32); auto]; rewrite <- Hs.
  destruct w_cases as [E|E]; rewrite E in *; cbn [Z.eqb Pos.eqb].
  - destruct (Y32 eq_refl); apply S32; trivial; lia.
  - destruct (Y64 eq_refl); rewrite (uwrap_id 64 x) by exact Hxu; apply S64; trivial; lia.
Qed.

Lemma scalar_op_sound : op <> MOV -> exists env1, scalar_op insn dst src_reg env = (inr (), env1) /\ op_result env dst w r env1.
Proof using Hdst Hw Hop Ht Hx Hy Hyo Hr K64 K32.
  intros Hmov; pose proof w_cases as Hwc; assert (Hw64 : 0 <= w <= 64) by lia.
  unfold scalar_op; rewrite Hop, is_alu32; replace (if w =? 32 then 32 else 64) with w by (destruct Hwc as [-> | ->]; reflexivity).
  pose proof Hr as Hr'; unfold alu_exec in Hr'; rewrite (operand_wrap w), Hyo in Hr' by exact Hw64.
  pose proof unknown_result as U; pose proof shift_result as S.
  remember op as op' eqn:Eop in Hr', Hmov, S |- *; clear Eop.
  destruct op'; cbn [alu_code Z.eqb Pos.eqb alu_arith] in Hr' |- *; try congruence; try exact U; try injection Hr' as Hr'.
  - eapply arith_result; [apply add_sound; eassumption| |cbn zeta; autorewrite with reg_type; reflexivity]; rewrite uwrap_uwrap by lia; rewrite <- Hr'; symmetry; apply uwrap_sum; lia.
  - eapply arith_result; [apply sub_sound; eassumption| |cbn zeta; autorewrite with reg_type; reflexivity]; rewrite uwrap_uwrap by lia; rewrite <- Hr'; symmetry; apply uwrap_diff; lia.
  - eapply arith_result; [apply and_sound; eassumption| |cbn zeta; autorewrite with reg_type; reflexivity]; rewrite <- Hr'; symmetry; apply uwrap_land; lia.
  - eapply arith_result; [apply or_sound; eassumption| |cbn zeta; autorewrite with reg_type; reflexivity]; rewrite <- Hr'; symmetry; apply uwrap_lor; lia.
  - apply S; try discriminate; [intros; eapply lsh_sound; eassumption|intros; eapply lsh32_sound; eassumption|exact Hr'|intros; autorewrite with reg_type; reflexivity..].
  - apply S; try discriminate; [intros; eapply rsh_sound; eassumption|intros; eapply rsh32_sound; eassumption|exact Hr'|intros; autorewrite with reg_type; reflexivity..].
  - eapply arith_result; [apply xor_sound; eassumption| |cbn zeta; autorewrite with reg_type; reflexivity]; rewrite <- Hr'; symmetry; apply uwrap_lxor; lia.
  - eapply arith_result; [apply mul_sound; eassumption| |cbn zeta; autorewrite with reg_type; reflexivity]; rewrite uwrap_uwrap by lia; rewrite <- Hr'; symmetry; apply uwrap_prod; lia.
  - apply S; try discriminate; [intros; eapply arsh_sound; eassumption| |exact Hr'|intros; autorewrite with reg_type; reflexivity..].
    intros; unfold alu_shift; rewrite swrap_uwrap by lia; eapply arsh32_sound; eassumption.
Qed.
End ScalarOp.

(** The tail keeps everything but the bounds. *)
Lemma tail_frame d : let t := __reg_bound_offset (__reg_deduce_bounds (__update_reg_bounds d)) in
  off t = off d /\ type_ t = type_ d.
Proof.
  unfold __reg_bound_offset, __reg_deduce_bounds, __reg32_deduce_bounds, __reg64_deduce_bounds; cbn zeta.
  split; repeat match goal with |- context [if ?c then _ else _] => destruct c end; reflexivity.
Qed.

(** ** Steps that touch one register *)

Definition only_reg (dst : Z) (env env' : bpf_verifier_env) : Prop :=
  env_wf env' /\ flags env' = flags env /\ forall r, 0 <= r -> r <> dst -> get_reg env' r = get_reg env r.

Lemma only_reg_refl dst env : env_wf env -> only_reg dst env env.
Proof. split; [assumption|]; split; reflexivity. Qed.

Lemma only_reg_trans dst e1 e2 e3 : only_reg dst e1 e2 -> only_reg dst e2 e3 -> only_reg dst e1 e3.
Proof.
  intros (_ & F1 & G1) (W2 & F2 & G2); split; [exact W2|]; split; [congruence|].
  intros r H0 Hr; rewrite G2, G1 by assumption; reflexivity.
Qed.

Lemma only_reg_put dst env v : env_wf env -> 0 <= dst -> only_reg dst env (put_reg env dst v).
Proof.
  intros W H0; split; [apply put_reg_wf, W|]; split; [reflexivity|].
  intros r Hr Hne; apply get_put_other; auto.
Qed.

#[global] Hint Resolve only_reg_refl only_reg_put put_reg_wf : verifier.

(** An update of [dst], run on a state reached by touching only [dst]. *)
Lemma only_reg_upd dst env env1 v : only_reg dst env env1 -> 0 <= dst -> only_reg dst env (put_reg env1 dst v).
Proof. intros H H0; eapply only_reg_trans; [exact H|apply only_reg_put; [apply H|exact H0]]. Qed.

Lemma sanitize_val_only insn dst env u env' : env_wf env -> sanitize_val_alu insn env = (inr u, env') ->
  only_reg dst env env' /\ get_reg env' dst = get_reg env dst.
Proof.
  intros W; unfold sanitize_val_alu; destruct (can_skip_alu_sanitation env insn); [intros [= _ <-]; split; auto with verifier|].
  destruct (update_alu_sanitation_state _ _ _) as [err|aux]; [discriminate|]; intros [= _ <-].
  split; [|reflexivity]; split; [exact W|]; split; reflexivity.
Qed.

Lemma or_sanitize_ok {A} (m : verifier A) env a env' : or_sanitize_err m env = (inr a, env') -> m env = (inr a, env').
Proof. unfold or_sanitize_err; destruct (m env) as [[e|b] e1]; [discriminate|auto]. Qed.

Section AdjustScalar.
Variables (insn : bpf_insn) (env : bpf_verifier_env) (src_reg : bpf_reg_state) (x SRC : Z) (op : alu_op) (o : operand) (r : Z).
Local Abbreviation dst := (insn_dst insn).
Hypothesis Hwf : env_wf env.
Hypothesis Hdst : regno_ok dst.
Hypothesis Hop : BPF_OP (insn_code insn) = alu_code op.
Hypothesis Hmov : op <> MOV.
Hypothesis Ht : type_ (get_reg env dst) = SCALAR_VALUE.
Hypothesis Hx : reg_inv (get_reg env dst) x.
Hypothesis Hy : reg_inv src_reg (operand_val o SRC (insn_imm insn)).
Hypothesis Hr : alu_exec (insn_w insn) op o x SRC (insn_imm insn) = Some r.

Lemma dst_nonneg : 0 <= dst.
Proof using Hdst. unfold regno_ok in Hdst; lia. Qed.

Lemma unknown_dst fl : only_reg dst env (put_reg env dst (__mark_reg_unknown fl (get_reg env dst))) /\
  type_ (get_reg (put_reg env dst (__mark_reg_unknown fl (get_reg env dst))) dst) = SCALAR_VALUE /\
  reg_inv (get_reg (put_reg env dst (__mark_reg_unknown fl (get_reg env dst))) dst) r.
Proof using Hwf Hdst Hr.
  split; [apply only_reg_put; [exact Hwf|apply dst_nonneg]|]; rewrite get_put_same by assumption.
  split; [reflexivity|]; apply mark_unknown_inv; apply (uin_le (insn_w insn)); [pose proof (insn_w_cases insn); lia|].
  eapply alu_exec_range; [apply insn_w_cases|exact Hr].
Qed.

(** The common tail: zero extension of a 32-bit result, then
    [__update_reg_bounds], [__reg_deduce_bounds], [__reg_bound_offset]. *)
Lemma tail_inv d z : reg_ok d -> reg_mem d z -> r = uwrap (insn_w insn) z ->
  reg_inv (__reg_bound_offset (__reg_deduce_bounds (__update_reg_bounds
    (if negb (BPF_CLASS (insn_code insn) =? BPF_ALU64) then zext_32_to_64 d else d)))) r.
Proof using.
  intros Hok Hm E; rewrite E; unfold insn_w; destruct (_ =? _); cbn [negb].
  - rewrite uwrap_id by apply Hm; apply deduce_bound_inv; [apply update_ok|apply update_mem]; assumption.
  - assert (Hz : reg_ok (zext_32_to_64 d)) by (apply zext_ok; apply Hok).
    assert (Hz' : reg_mem (zext_32_to_64 d) (u32 z)) by (apply zext_mem; apply Hm).
    apply deduce_bound_inv; [apply update_ok|apply update_mem]; assumption.
Qed.

Lemma adjust_scalar_sound u env' : adjust_scalar_min_max_vals insn dst src_reg env = (inr u, env') ->
  only_reg dst env env' /\ type_ (get_reg env' dst) = SCALAR_VALUE /\ reg_inv (get_reg env' dst) r.
Proof using Hwf Hdst Hop Hmov Ht Hx Hy Hr.
  intros H; unfold adjust_scalar_min_max_vals in H; run H; injection R as <- <-.
  match type of H with (if ?t then _ else _) _ = _ => destruct t eqn:T end; [injection H as _ <-; apply unknown_dst|].
  match type of H with (if ?t then _ else _) _ = _ => destruct t eqn:N end; [injection H as _ <-; apply unknown_dst|].
  run H; assert (S : only_reg dst env env0 /\ get_reg env0 dst = get_reg env dst).
  { unfold when in R; destruct (sanitize_needed _); [eapply sanitize_val_only; [exact Hwf|apply or_sanitize_ok; exact R]|].
    injection R as _ <-; split; auto with verifier. }
  destruct S as [S1 S2]; pose proof S1 as (W0 & F0 & _).
  destruct (scalar_op_sound insn env0 src_reg x (operand_val o SRC (insn_imm insn)) SRC (insn_w insn) op o r) as (env1 & Hs & d' & z & -> & Td & Hd1 & Hd2 & Hz);
    try assumption; try reflexivity; try (rewrite S2; assumption).
  - intros E N1 N2 N3; rewrite Hop in N; unfold insn_w in E; destruct (_ =? BPF_ALU64); [|discriminate]; cbn [negb] in T, N.
    apply Z.eqb_neq in N1, N2, N3; rewrite N1, N2, N3 in N; cbn in N; rewrite !andb_true_r, negb_false_iff in N; rewrite N in T.
    destruct (Z.eqb_spec (umin_value src_reg) (umax_value src_reg)); [assumption|].
    rewrite orb_true_r in T; discriminate.
  - intros E N1 N2 N3; rewrite Hop in N; unfold insn_w in E; destruct (_ =? BPF_ALU64); [discriminate|]; cbn [negb] in T, N.
    apply Z.eqb_neq in N1, N2, N3; rewrite N1, N2, N3 in N; cbn in N; rewrite !andb_true_r, negb_false_iff in N; rewrite N in T.
    destruct (Z.eqb_spec (u32_min_value src_reg) (u32_max_value src_reg)); [assumption|].
    rewrite orb_true_r in T; discriminate.
  - run H; rewrite Hs in R0; injection R0 as _ <-; run H; injection H as _ <-.
    pose proof dst_nonneg as H0; assert (W1 : env_wf (put_reg env0 dst d')) by auto with verifier.
    pose proof (tail_inv d' z Hd1 Hd2 Hz) as I; unfold when in R0.
    destruct (negb _); injection R0 as _ <-; (split; [repeat apply only_reg_upd; auto|]);
      rewrite !get_put_same by auto with verifier; (split; [|exact I]).
    + etransitivity; [apply (tail_frame (zext_32_to_64 d'))|]; rewrite type_zext; exact Td.
    + etransitivity; [apply (tail_frame d')|exact Td].
Qed.
End AdjustScalar.
