(* ===== verification/PtrSound.v ===== *)
(** Soundness of pointer arithmetic.

    A pointer register stands for [base + off + v] with [v] admitted by its
    bounds.  [adjust_ptr_min_max_vals] may move a constant into [off] or widen
    the bounds of [v]; either way [off + v] moves by exactly the scalar
    operand, modulo 2^64, and the object pointed into does not change. *)
From Stdlib Require Import ZArith Lia Bool.
From stdpp Require Import base list gmap.
From S2P Require Import Prelude Bits Tnum Bounds RegState ScalarOps ScalarBits Insn Env MemAccess RegArg Precision.
From S2P Require Import Bookkeeping Alu AluSound.

Local Open Scope Z_scope.
Local Open Scope kint_scope.

(** ** Operands *)

Definition ptr_val (env : bpf_verifier_env) (p : reg_ptr) : bpf_reg_state :=
  match p with PReg r => get_reg env r | PVal reg => reg end.

Definition ptr_ok (p : reg_ptr) : Prop := match p with PReg r => regno_ok r | PVal _ => True end.

Lemma load_ptr_run p env : load_ptr p env = (inr (ptr_val env p), env).
Proof. destruct p; reflexivity. Qed.

(** The fields pointer arithmetic reads. *)
Definition veq (r r' : bpf_reg_state) : Prop :=
  b64 r = b64 r' /\ var_off r = var_off r' /\ off r = off r' /\ raw r = raw r'.

#[global] Instance veq_equiv : Equivalence veq.
Proof.
  unfold veq; split; [intros r; auto|intros r r' (? & ? & ? & ?); auto|].
  intros r r' r'' (-> & -> & -> & ->) (-> & -> & -> & ->); auto.
Qed.

(** [env'] differs from [env] in [dst] at most, and there not in those fields. *)
Definition dst_veq (dst : Z) (env env' : bpf_verifier_env) : Prop :=
  only_reg dst env env' /\ veq (get_reg env' dst) (get_reg env dst).

Lemma dst_veq_refl dst env : env_wf env -> dst_veq dst env env.
Proof. intros; split; [auto with verifier|reflexivity]. Qed.

Lemma dst_veq_trans dst e1 e2 e3 : dst_veq dst e1 e2 -> dst_veq dst e2 e3 -> dst_veq dst e1 e3.
Proof. intros [O1 V1] [O2 V2]; split; [eapply only_reg_trans; eauto|rewrite V2; exact V1]. Qed.

Lemma dst_veq_put dst env v : env_wf env -> regno_ok dst -> veq v (get_reg env dst) -> dst_veq dst env (put_reg env dst v).
Proof.
  intros W Hd Hv; split; [apply only_reg_put; [exact W|unfold regno_ok in Hd; lia]|].
  rewrite get_put_same by assumption; exact Hv.
Qed.

Lemma ptr_val_veq dst env env' p : dst_veq dst env env' -> ptr_ok p -> veq (ptr_val env' p) (ptr_val env p).
Proof.
  intros [(_ & _ & G) V] Hp; destruct p as [r|reg]; cbn; [|reflexivity].
  destruct (Z.eq_dec r dst) as [->|Hne]; [exact V|]; rewrite G by (trivial; cbn in Hp; unfold regno_ok in Hp; lia); reflexivity.
Qed.

(** ** Sanitation leaves the registers alone *)

Definition regs_eq (env env' : bpf_verifier_env) : Prop :=
  cur_state env' = cur_state env /\ flags env' = flags env.

Lemma push_stack_regs a b c env r env' : push_stack a b c env = (inr r, env') -> regs_eq env env'.
Proof.
  unfold push_stack, kzalloc, modify, get, drop_states, mbind, verifier_bind, mret, verifier_ret.
  repeat first [progress cbn|case_match]; intros; simplify_eq; split; reflexivity.
Qed.

Lemma regs_eq_get env env' r : regs_eq env env' -> get_reg env' r = get_reg env r.
Proof. intros [E _]; unfold get_reg, cur_regs, cur_func; rewrite E; reflexivity. Qed.

Lemma regs_eq_wf env env' : regs_eq env env' -> env_wf env -> env_wf env'.
Proof. intros [E _]; unfold env_wf, cur_regs, cur_func; rewrite E; auto. Qed.

(** Every register keeps its state. *)
Definition dst_eq (dst : Z) (env env' : bpf_verifier_env) : Prop :=
  only_reg dst env env' /\ get_reg env' dst = get_reg env dst.

Lemma dst_eq_veq dst env env' : dst_eq dst env env' -> dst_veq dst env env'.
Proof. intros [O E]; split; [exact O|rewrite E; reflexivity]. Qed.

Lemma dst_eq_trans dst e1 e2 e3 : dst_eq dst e1 e2 -> dst_eq dst e2 e3 -> dst_eq dst e1 e3.
Proof. intros [O1 E1] [O2 E2]; split; [eapply only_reg_trans; eauto|congruence]. Qed.

Lemma regs_eq_dst dst env env' : env_wf env -> regs_eq env env' -> dst_eq dst env env'.
Proof.
  intros W E; split; [|apply (regs_eq_get _ _ _ E)].
  split; [apply (regs_eq_wf _ _ E W)|]; split; [apply E|]; intros; apply regs_eq_get, E.
Qed.

Lemma sanitize_limits_regs insn p s d info c env i env' :
  sanitize_ptr_limits insn p s d info c env = (inr i, env') -> regs_eq env env'.
Proof.
  unfold sanitize_ptr_limits; repeat case_match; intros; simplify_eq; split; reflexivity.
Qed.

Lemma sanitize_ptr_regs insn ptr off_ dst info c env i env' : env_wf env -> regno_ok dst ->
  sanitize_ptr_alu insn ptr off_ dst info c env = (inr i, env') -> dst_eq dst env env'.
Proof.
  intros W Hd H; unfold sanitize_ptr_alu in H; run H; injection R as <- <-.
  run H; rewrite load_ptr_run in R; injection R as <- <-; run H; rewrite load_ptr_run in R; injection R as <- <-.
  destruct (can_skip_alu_sanitation _ _); [injection H as _ <-; split; [auto with verifier|reflexivity]|]; run H.
  assert (E1 : regs_eq env env0).
  { destruct (speculative _); [injection R as _ <-; split; reflexivity|apply sanitize_limits_regs in R; exact R]. }
  pose proof (regs_eq_wf _ _ E1 W) as W1; pose proof (regs_eq_dst dst _ _ W E1) as V1.
  destruct (c || _); [injection H as _ <-; exact V1|]; run H; injection R0 as <- <-.
  eapply dst_eq_trans; [exact V1|]; run H; run H; run H.
  unfold sanitize_speculative_path in R1; run R1; apply push_stack_regs in R3; run R1; injection R4 as <- <-; injection R1 as <- <-.
  match type of H with (if ?b then _ else _) _ = _ => destruct b; [|discriminate] end; injection H as _ <-.
  destruct (ptr_is ptr dst); cbn in R0, R2; injection R0 as _ <-; injection R2 as _ <-.
  - apply regs_eq_dst; assumption.
  - assert (W3 : env_wf env4) by (eapply regs_eq_wf; [exact R3|auto with verifier]).
    split; [|rewrite get_put_same by assumption; reflexivity]; assert (H0 : 0 <= dst) by (unfold regno_ok in Hd; lia).
    apply only_reg_upd; [|exact H0]; eapply only_reg_trans; [apply only_reg_put; assumption|].
    apply regs_eq_dst; [auto with verifier|exact R3].
Qed.

(** ** New bounds of a variable offset *)

Lemma ptr_add_b64 d p s : b64 (ptr_add_var d p s (smin_value s) (smax_value s) (umin_value s) (umax_value s)) =
  bnd_pair (sadd_range 64 (smin_value p) (smax_value p) (smin_value s) (smax_value s))
           (uadd_range 64 (umin_value s) (umax_value s) (umin_value p) (umax_value p)).
Proof.
  unfold ptr_add_var, sadd_range, uadd_range, bnd_pair, b64; cbn zeta.
  change (signed_add_overflows (smin_value p)) with (sadd_ov 64 (smin_value p)).
  change (signed_add_overflows (smax_value p)) with (sadd_ov 64 (smax_value p)).
  rewrite (Z.add_comm (umin_value s)), (Z.add_comm (umax_value s)).
  destruct (sadd_ov 64 _ _ || _); destruct (_ || _); reflexivity.
Qed.

Lemma ptr_sub_b64 d p s : b64 (ptr_sub_var d p s (smin_value s) (smax_value s) (umin_value s) (umax_value s)) = bnd_sub 64 (b64 p) (b64 s).
Proof.
  unfold ptr_sub_var, bnd_sub, ssub_range, usub_range, bnd_pair, b64; cbn zeta.
  change (signed_sub_overflows (smin_value p)) with (ssub_ov 64 (smin_value p)).
  change (signed_sub_overflows (smax_value p)) with (ssub_ov 64 (smax_value p)).
  destruct (ssub_ov 64 _ _ || _); cbn; destruct (_ <? _); reflexivity.
Qed.

Lemma ptr_add_frame d p s a b c e : let r := ptr_add_var d p s a b c e in
  var_off r = tnum_add (var_off p) (var_off s) /\ off r = off p /\ b32 r = b32 d /\ type_ r = type_ d.
Proof. unfold ptr_add_var; cbn zeta; destruct (_ || _); destruct (_ || _); repeat split; reflexivity. Qed.

Lemma ptr_sub_frame d p s a b c e : let r := ptr_sub_var d p s a b c e in
  var_off r = tnum_sub (var_off p) (var_off s) /\ off r = off p /\ b32 r = b32 d /\ type_ r = type_ d.
Proof. unfold ptr_sub_var; cbn zeta; destruct (_ || _); destruct (_ <? _); repeat split; reflexivity. Qed.

(** A pointer offset: 64-bit views admit [v], the 32-bit ones are not used. *)
Definition off_mem (r : bpf_reg_state) (v : Z) : Prop :=
  tnum_ok (var_off r) /\ bnd_ok 64 (b64 r) /\ tnum_mem (var_off r) v /\ bnd_in 64 (b64 r) v.

Lemma off_mem_veq r r' v : veq r r' -> off_mem r' v -> off_mem r v.
Proof. intros (E1 & E2 & _); unfold off_mem; rewrite E1, E2; auto. Qed.

Lemma bnd_add_swap p s v y : bnd_ok 64 (b64 p) -> bnd_ok 64 (b64 s) -> bnd_in 64 (b64 p) v -> bnd_in 64 (b64 s) y ->
  let e := bnd_pair (sadd_range 64 (smin_value p) (smax_value p) (smin_value s) (smax_value s))
           (uadd_range 64 (umin_value s) (umax_value s) (umin_value p) (umax_value p)) in
  bnd_ok 64 e /\ bnd_in 64 e (v + y).
Proof.
  intros Op Os Ip Is; pose proof (bnd_add_ok 64 ltac:(lia) (b64 p) (b64 s)) as (A1 & A2 & _ & _).
  pose proof (bnd_add_ok 64 ltac:(lia) (b64 s) (b64 p)) as (_ & _ & A3 & A4).
  destruct (bnd_add_in 64 ltac:(lia) (b64 p) (b64 s) v y) as [B1 _]; trivial.
  destruct (bnd_add_in 64 ltac:(lia) (b64 s) (b64 p) y v) as [_ B2]; trivial.
  rewrite Z.add_comm in B2; split; [split; [exact A1|split; [exact A2|split; [exact A3|exact A4]]]|split; [exact B1|exact B2]].
Qed.

Lemma ptr_add_mem d p s v y : off_mem p v -> off_mem s y -> b32 d = bnd_top 32 ->
  let r := ptr_add_var d p s (smin_value s) (smax_value s) (umin_value s) (umax_value s) in
  reg_ok r /\ reg_mem r (u64 (v + y)).
Proof.
  intros (T1 & O1 & M1 & I1) (T2 & O2 & M2 & I2) Hd; cbn zeta.
  destruct (ptr_add_frame d p s (smin_value s) (smax_value s) (umin_value s) (umax_value s)) as (E1 & _ & E2 & _).
  destruct (bnd_add_swap p s v y O1 O2 I1 I2) as [B1 B2].
  eapply reg_parts; [exact E1|apply ptr_add_b64|rewrite E2; exact Hd|..].
  - eauto with kint.
  - apply tnum_add_ok; assumption.
  - exact B1.
  - apply (bnd_top_ok 32); lia.
  - apply tnum_add_mem; assumption.
  - eapply bnd_in_weq; [lia|apply weq_u64; lia|exact B2].
  - apply (bnd_top_in 32); lia.
Qed.

Lemma ptr_sub_mem d p s v y : off_mem p v -> off_mem s y -> b32 d = bnd_top 32 ->
  let r := ptr_sub_var d p s (smin_value s) (smax_value s) (umin_value s) (umax_value s) in
  reg_ok r /\ reg_mem r (u64 (v - y)).
Proof.
  intros (T1 & O1 & M1 & I1) (T2 & O2 & M2 & I2) Hd; cbn zeta.
  destruct (ptr_sub_frame d p s (smin_value s) (smax_value s) (umin_value s) (umax_value s)) as (E1 & _ & E2 & _).
  eapply reg_parts; [exact E1|apply ptr_sub_b64|rewrite E2; exact Hd|..].
  - eauto with kint.
  - apply tnum_sub_ok; assumption.
  - apply bnd_sub_ok; lia.
  - apply (bnd_top_ok 32); lia.
  - apply tnum_sub_mem; assumption.
  - eapply bnd_in_weq; [lia|apply weq_u64; lia|apply bnd_sub_in; trivial; lia].
  - apply (bnd_top_in 32); lia.
Qed.

Lemma ptr_fixed_mem d p n v : off_mem p v -> b32 d = bnd_top 32 -> reg_ok (ptr_fixed d p n) /\ reg_mem (ptr_fixed d p n) v.
Proof.
  intros (T1 & O1 & M1 & I1) Hd; eapply reg_parts with (e64 := b64 p); [reflexivity|reflexivity|exact Hd|..]; trivial;
    [apply M1|apply (bnd_top_ok 32)|apply (bnd_top_in 32)]; lia.
Qed.

(** ** The operation *)

(** How far the pointer moves: [y] for [+=], [- y] for [-=], where only a
    scalar source can be subtracted. *)
Definition ptr_moved (insn : bpf_insn) (off_ : reg_ptr) (p d' : bpf_reg_state) (v y v' : Z) : Prop :=
  sin 32 (off d') /\
  ((BPF_OP (insn_code insn) = BPF_ADD /\ weq 64 (off d' + v') (off p + v + y)) \/
   (BPF_OP (insn_code insn) = BPF_SUB /\ ptr_is off_ (insn_dst insn) = false /\ weq 64 (off d' + v') (off p + v - y))).

Lemma weq_exact z : s64 z = s32 z -> weq 64 (s32 z) z.
Proof. intros <-; apply weq_swrap; lia. Qed.

Lemma fixed_moved o y s : s64 y = s -> s64 (o + s) = s32 (o + s) -> forall v, weq 64 (s32 (o + s) + v) (o + v + y).
Proof.
  intros Hs E v; replace (o + v + y) with (o + y + v) by lia; apply weq_add; [lia| |reflexivity].
  rewrite (weq_exact _ E); apply weq_add; [lia|reflexivity|]; rewrite <- Hs; apply weq_swrap; lia.
Qed.

Lemma fixed_moved_sub o y s : s64 y = s -> s64 (o - s) = s32 (o - s) -> forall v, weq 64 (s32 (o - s) + v) (o + v - y).
Proof.
  intros Hs E v; replace (o + v - y) with (o - y + v) by lia; apply weq_add; [lia| |reflexivity].
  rewrite (weq_exact _ E); apply weq_sub; [lia|reflexivity|]; rewrite <- Hs; apply weq_swrap; lia.
Qed.

Section PtrOp.
Variables (insn : bpf_insn) (env : bpf_verifier_env) (ptr off_ : reg_ptr) (v y : Z).
Local Abbreviation dst := (insn_dst insn).
Local Abbreviation p := (ptr_val env ptr).
Local Abbreviation s := (ptr_val env off_).
Hypothesis Hwf : env_wf env.
Hypothesis Hdst : regno_ok dst.
Hypothesis Hd32 : b32 (get_reg env dst) = bnd_top 32.
Hypothesis Hp : off_mem p v.
Hypothesis Hoff : sin 32 (off p).
Hypothesis Hs : off_mem s y.
Hypothesis Hknown : tnum_is_const (var_off s) = true -> smin_value s = smax_value s.

Definition ptr_result (env' : bpf_verifier_env) : Prop :=
  only_reg dst env env' /\ type_ (get_reg env' dst) = type_ (get_reg env dst) /\
  exists v', reg_ok (get_reg env' dst) /\ reg_mem (get_reg env' dst) v' /\ ptr_moved insn off_ p (get_reg env' dst) v y v'.

Lemma known_value : tnum_is_const (var_off s) = true -> s64 y = smin_value s.
Proof using Hs Hknown. intros K; specialize (Hknown K); destruct Hs as (_ & _ & _ & [I _]); cbn in I; lia. Qed.

(** The destination after the update, and after [id] and [raw] are touched. *)
Lemma ptr_result_put d' v' : reg_ok d' -> reg_mem d' v' -> type_ d' = type_ (get_reg env dst) -> ptr_moved insn off_ p d' v y v' ->
  ptr_result (put_reg env dst d').
Proof using Hwf Hdst.
  intros H1 H2 H3 H4; split; [apply only_reg_put; [exact Hwf|unfold regno_ok in Hdst; lia]|].
  rewrite get_put_same by assumption; split; [exact H3|]; exists v'; auto.
Qed.

Lemma ptr_result_upd env1 d' : ptr_result env1 ->
  b64 d' = b64 (get_reg env1 dst) -> b32 d' = b32 (get_reg env1 dst) -> var_off d' = var_off (get_reg env1 dst) ->
  off d' = off (get_reg env1 dst) -> type_ d' = type_ (get_reg env1 dst) -> ptr_result (put_reg env1 dst d').
Proof using Hdst.
  intros (O & T & v' & R1 & R2 & R3) E1 E2 E3 E4 E5; pose proof O as (W & _).
  split; [apply only_reg_upd; [exact O|unfold regno_ok in Hdst; lia]|].
  rewrite get_put_same by assumption; split; [congruence|]; exists v'; unfold reg_ok, reg_mem, ptr_moved in *.
  rewrite E1, E2, E3, E4; auto.
Qed.

Lemma ptr_result_fresh env1 u env2 : ptr_result env1 -> fresh_id dst env1 = (inr u, env2) -> ptr_result env2.
Proof using Hdst. intros H [= _ <-]; apply ptr_result_upd; [exact H|reflexivity..]. Qed.

Lemma ptr_op_sound u env' :
  ptr_op insn ptr off_ dst (tnum_is_const (var_off s)) (smin_value s) (smax_value s) (umin_value s) (umax_value s) env = (inr u, env') ->
  ptr_result env'.
Proof using Hwf Hdst Hd32 Hp Hoff Hs Hknown.
  intros H; unfold ptr_op in H; run H; rewrite load_ptr_run in R; injection R as <- <-.
  run H; rewrite load_ptr_run in R; injection R as <- <-; pose proof known_value as Kv.
  destruct (Z.eqb_spec (BPF_OP (insn_code insn)) BPF_ADD) as [EA|NA].
  - destruct (tnum_is_const (var_off s)) eqn:K; [destruct (Z.eqb_spec (s64 (off p + smin_value s)) (s32 (off p + smin_value s))) as [E|]|];
      cbn [andb] in H.
    1: { injection H as _ <-; destruct (ptr_fixed_mem (get_reg env dst) p (off p + smin_value s) v Hp Hd32).
         eapply ptr_result_put; [eassumption|eassumption|reflexivity|]; split; [apply swrap_range; lia|left; split; [exact EA|]].
         apply fixed_moved; auto. }
    all: run H; injection R as _ <-; destruct (ptr_add_mem (get_reg env dst) p s v y Hp Hs Hd32) as [P1 P2].
    all: destruct (ptr_add_frame (get_reg env dst) p s (smin_value s) (smax_value s) (umin_value s) (umax_value s)) as (_ & F2 & _ & F4).
    all: assert (M : ptr_moved insn off_ p (ptr_add_var (get_reg env dst) p s (smin_value s) (smax_value s) (umin_value s) (umax_value s)) v y (u64 (v + y)))
      by (split; rewrite F2; [exact Hoff|left; split; [exact EA|]]; rewrite <- Z.add_assoc; apply weq_add; [lia|reflexivity|apply weq_uwrap; lia]).
    all: pose proof (ptr_result_put _ _ P1 P2 F4 M) as Q; unfold when in H; destruct (type_is_pkt_pointer _); [|injection H as _ <-; exact Q].
    all: run H; apply (ptr_result_fresh _ _ _ Q) in R; injection H as _ <-; apply ptr_result_upd; [exact R|reflexivity..].
  - destruct (Z.eqb_spec (BPF_OP (insn_code insn)) BPF_SUB) as [ES|]; [|discriminate].
    destruct (ptr_is off_ dst) eqn:Ei; [discriminate|]; destruct (type_eqb _ _); [discriminate|].
    destruct (tnum_is_const (var_off s)) eqn:K; [destruct (Z.eqb_spec (s64 (off p - smin_value s)) (s32 (off p - smin_value s))) as [E|]|];
      cbn [andb] in H.
    1: { injection H as _ <-; destruct (ptr_fixed_mem (get_reg env dst) p (off p - smin_value s) v Hp Hd32).
         eapply ptr_result_put; [eassumption|eassumption|reflexivity|]; split; [apply swrap_range; lia|right; split; [exact ES|split; [exact Ei|]]].
         apply fixed_moved_sub; auto. }
    all: run H; injection R as _ <-; destruct (ptr_sub_mem (get_reg env dst) p s v y Hp Hs Hd32) as [P1 P2].
    all: destruct (ptr_sub_frame (get_reg env dst) p s (smin_value s) (smax_value s) (umin_value s) (umax_value s)) as (_ & F2 & _ & F4).
    all: assert (M : ptr_moved insn off_ p (ptr_sub_var (get_reg env dst) p s (smin_value s) (smax_value s) (umin_value s) (umax_value s)) v y (u64 (v - y)))
      by (split; rewrite F2; [exact Hoff|right; split; [exact ES|split; [exact Ei|]]]; rewrite <- Z.add_sub_assoc; apply weq_add; [lia|reflexivity|apply weq_uwrap; lia]).
    all: pose proof (ptr_result_put _ _ P1 P2 F4 M) as Q; unfold when in H; destruct (type_is_pkt_pointer _); [|injection H as _ <-; exact Q].
    all: run H; apply (ptr_result_fresh _ _ _ Q) in R; destruct (smin_value s <? 0); injection H as _ <-; [|exact R];
      apply ptr_result_upd; [exact R|reflexivity..].
Qed.
End PtrOp.

Lemma check_map_access_env regno o size z env u env' : check_map_access regno o size z env = (inr u, env') -> env' = env.
Proof.
  unfold check_map_access, check_mem_region_access, __check_mem_access, reg_of, get, mbind, verifier_bind, mret, verifier_ret, fail.
  cbn zeta; repeat case_match; intros; simplify_eq; reflexivity.
Qed.

Lemma sanitize_check_env insn dst env u env' : sanitize_check_bounds insn dst env = (inr u, env') -> env' = env.
Proof.
  intros H; unfold sanitize_check_bounds in H; run H; injection R as <- <-; run H; injection R as <- <-.
  destruct (bypass_spec_v1 env); [injection H as _ <-; reflexivity|].
  destruct (type_ (get_reg env dst)); try (injection H as _ <-; reflexivity); [apply check_map_access_env in H; exact H|].
  unfold check_stack_access_for_ptr_arithmetic in H; destruct (negb _); [discriminate|]; destruct (_ || _); [discriminate|].
  injection H as _ <-; reflexivity.
Qed.

Section AdjustPtr.
Variables (insn : bpf_insn) (env : bpf_verifier_env) (ptr off_ : reg_ptr) (v y : Z).
Local Abbreviation dst := (insn_dst insn).
Local Abbreviation p := (ptr_val env ptr).
Local Abbreviation s := (ptr_val env off_).
Hypothesis Hwf : env_wf env.
Hypothesis Hdst : regno_ok dst.
Hypothesis Hpok : ptr_ok ptr.
Hypothesis Hsok : ptr_ok off_.
Hypothesis Hp : off_mem p v.
Hypothesis Hoff : sin 32 (off p).
Hypothesis Hs : off_mem s y.

(** The destination is an arbitrary scalar, or the same pointer moved. *)
Definition adjust_ptr_result (d' : bpf_reg_state) : Prop :=
  (type_ d' = SCALAR_VALUE /\ forall z, uin 64 z -> reg_inv d' z) \/
  (BPF_CLASS (insn_code insn) = BPF_ALU64 /\ type_ d' = type_ p /\ exists v', reg_inv d' v' /\ ptr_moved insn off_ p d' v y v').

Lemma scalar_dst fl : only_reg dst env (put_reg env dst (__mark_reg_unknown fl (get_reg env dst))) /\
  adjust_ptr_result (get_reg (put_reg env dst (__mark_reg_unknown fl (get_reg env dst))) dst).
Proof using Hwf Hdst.
  split; [apply only_reg_put; [exact Hwf|unfold regno_ok in Hdst; lia]|]; rewrite get_put_same by assumption.
  left; split; [reflexivity|]; intros; apply mark_unknown_inv; assumption.
Qed.

(** The state in which the operation runs: type and id inherited, 32-bit
    bounds forgotten, sanitation done. *)
Lemma ptr_prepared env1 env2 u1 u2 u3 env3 info info' :
  upd_reg dst (fun d => set_id (set_type d (type_ p)) (id p)) env = (inr u1, env1) ->
  upd_reg dst __mark_reg32_unbounded env1 = (inr u2, env2) ->
  (if sanitize_needed (BPF_OP (insn_code insn)) then or_sanitize_err (sanitize_ptr_alu insn ptr off_ dst info false) else mret info') env2 = (inr u3, env3) ->
  dst_veq dst env env3 /\ type_ (get_reg env3 dst) = type_ p /\ b32 (get_reg env3 dst) = bnd_top 32.
Proof using Hwf Hdst.
  intros [= _ <-] [= _ <-] H.
  set (e1 := put_reg env dst _) in *; assert (W1 : env_wf e1) by (apply put_reg_wf, Hwf).
  set (e2 := put_reg e1 dst _) in *; assert (W2 : env_wf e2) by (apply put_reg_wf, W1).
  assert (V : dst_veq dst env e2).
  { eapply dst_veq_trans; apply dst_veq_put; trivial; repeat split. }
  assert (E : dst_eq dst e2 env3).
  { destruct (sanitize_needed _); [apply or_sanitize_ok, sanitize_ptr_regs in H; assumption|injection H as _ <-].
    split; [auto with verifier|reflexivity]. }
  split; [eapply dst_veq_trans; [exact V|apply dst_eq_veq, E]|]; destruct E as [_ ->]; unfold e2.
  rewrite get_put_same by assumption; split; [cbn; unfold e1; rewrite get_put_same by assumption; reflexivity|reflexivity].
Qed.

(** The operation itself, from the prepared state. *)
Lemma ptr_op_prepared env2 u env3 : dst_veq dst env env2 -> type_ (get_reg env2 dst) = type_ p -> b32 (get_reg env2 dst) = bnd_top 32 ->
  (tnum_is_const (var_off s) && (negb (smin_value s =? smax_value s) || negb (umin_value s =? umax_value s))) ||
    (smin_value s >? smax_value s) || (umin_value s >? umax_value s) = false ->
  ptr_op insn ptr off_ dst (tnum_is_const (var_off s)) (smin_value s) (smax_value s) (umin_value s) (umax_value s) env2 = (inr u, env3) ->
  only_reg dst env env3 /\ type_ (get_reg env3 dst) = type_ p /\
  exists v', reg_ok (get_reg env3 dst) /\ reg_mem (get_reg env3 dst) v' /\ ptr_moved insn off_ p (get_reg env3 dst) v y v'.
Proof using Hdst Hpok Hsok Hp Hoff Hs.
  intros V Ty B T H; pose proof (ptr_val_veq _ _ _ ptr V Hpok) as Vp; pose proof (ptr_val_veq _ _ _ off_ V Hsok) as Vs.
  pose proof Vs as (E64 & Et & _ & _); pose proof Vp as (_ & _ & Eo & _).
  pose proof (f_equal bsmin E64) as F1; pose proof (f_equal bsmax E64) as F2.
  pose proof (f_equal bumin E64) as F3; pose proof (f_equal bumax E64) as F4; cbn in F1, F2, F3, F4.
  rewrite <- Et, <- F1, <- F2, <- F3, <- F4 in H, T; destruct V as [(W2 & FL & G) V].
  apply ptr_op_sound with (v := v) (y := y) in H; trivial.
  - destruct H as (O & Ty' & v' & R1 & R2 & R3); split; [eapply only_reg_trans; [split; [exact W2|split; [exact FL|exact G]]|exact O]|].
    split; [congruence|]; exists v'; split; [exact R1|split; [exact R2|]]; unfold ptr_moved in *; rewrite Eo in R3; exact R3.
  - eapply off_mem_veq; [exact Vp|exact Hp].
  - rewrite Eo; exact Hoff.
  - eapply off_mem_veq; [exact Vs|exact Hs].
  - intros K; rewrite K in T; destruct (Z.eqb_spec (smin_value (ptr_val env2 off_)) (smax_value (ptr_val env2 off_))); [assumption|discriminate].
Qed.

Lemma adjust_ptr_sound u env' : adjust_ptr_min_max_vals insn ptr off_ env = (inr u, env') ->
  only_reg dst env env' /\ adjust_ptr_result (get_reg env' dst).
Proof using Hwf Hdst Hpok Hsok Hp Hoff Hs.
  intros H; unfold adjust_ptr_min_max_vals in H; run H; injection R as <- <-.
  run H; rewrite load_ptr_run in R; injection R as <- <-; run H; rewrite load_ptr_run in R; injection R as <- <-.
  destruct ((tnum_is_const (var_off s) && _) || _ || _) eqn:T; [injection H as _ <-; apply scalar_dst|].
  destruct (Z.eqb_spec (BPF_CLASS (insn_code insn)) BPF_ALU64) as [C|]; cbn [negb] in H.
  2: { match type of H with (if ?c then _ else _) _ = _ => destruct c end; [injection H as _ <-; apply scalar_dst|discriminate]. }
  destruct (ptr_arith_prohibited _ _); [discriminate|].
  run H; run H; rewrite load_ptr_run in R0; injection R0 as <- <-; run H; rewrite load_ptr_run in R0; injection R0 as <- <-.
  match type of H with (if ?c then _ else _) _ = _ => destruct c end; [discriminate|]; run H; run H.
  destruct (ptr_prepared _ _ _ _ _ _ _ _ R R0 R1) as (V & Ty & B).
  pose proof (ptr_val_veq _ _ _ ptr V Hpok) as Vp; pose proof (ptr_val_veq _ _ _ off_ V Hsok) as Vs.
  run H; pose proof (ptr_op_prepared _ _ _ V Ty B T R2) as (O3 & Ty3 & v' & Ok & Mem & Mv).
  run H; injection R3 as <- <-; match type of H with (if ?c then _ else _) _ = _ => destruct c end; [discriminate|].
  run H; injection R3 as _ <-.
  run H; apply sanitize_check_env in R3; subst env4; run H; injection H as _ <-.
  set (t := __reg_bound_offset _) in *; pose proof O3 as (W3 & _).
  assert (E : dst_eq dst (put_reg env3 dst t) env4).
  { destruct (sanitize_needed _); [apply or_sanitize_ok, sanitize_ptr_regs in R3; auto with verifier|injection R3 as _ <-].
    split; [auto with verifier|reflexivity]. }
  destruct E as [OE EE]; split.
  - eapply only_reg_trans; [|exact OE]; apply only_reg_upd; [exact O3|unfold regno_ok in Hdst; lia].
  - rewrite EE, get_put_same by assumption; right; split; [exact C|].
    destruct (tail_frame (get_reg env3 dst)) as [To Tt]; fold t in To, Tt; split; [congruence|]; exists v'.
    split; [apply deduce_bound_inv; [apply update_ok|apply update_mem]; assumption|].
    unfold ptr_moved in *; rewrite To; exact Mv.
Qed.
End AdjustPtr.
