(* ===== verification/AluStep.v ===== *)
(** One arithmetic instruction, in the verifier and in the interpreter.

    [regs_sim env σ β] relates the verifier's registers to machine registers
    [σ]: a scalar admits the machine value, a pointer is [β r + off + v] for an
    admitted offset [v].  An instruction accepted by [check_alu_op] preserves
    the relation, invents no pointer base, and has no undefined behaviour but
    division by a zero register. *)
From Stdlib Require Import ZArith Lia Bool.
From stdpp Require Import base list gmap.
From S2P Require Import Prelude Bits Tnum Bounds RegState ScalarOps ScalarBits Insn Interp Env MemAccess RegArg.
From S2P Require Import Precision Bookkeeping Alu AluSound PtrSound.

Local Open Scope Z_scope.
Local Open Scope kint_scope.

(** ** Machine registers *)

Definition machine_upd (σ : list Z) (dst r : Z) (σ' : list Z) : Prop :=
  length σ' = 12%nat /\ reg_get σ' dst = Some r /\ forall i, regno_ok i -> i <> dst -> reg_get σ' i = reg_get σ i.

Lemma reg_get_some σ i : length σ = 12%nat -> 0 <= i < 12 -> exists x, reg_get σ i = Some x.
Proof. intros L Hi; apply lookup_lt_is_Some_2; lia. Qed.

Lemma reg_set_upd σ i v : length σ = 12%nat -> 0 <= i < 12 -> reg_set σ i v = Some (<[Z.to_nat i := v]> σ).
Proof. intros L Hi; unfold reg_set; destruct (reg_get_some σ i L Hi) as [x Hx]; unfold reg_get in Hx; rewrite Hx; reflexivity. Qed.

Lemma get_set_same σ i v : length σ = 12%nat -> 0 <= i < 12 -> reg_get (<[Z.to_nat i := v]> σ) i = Some v.
Proof. intros L Hi; unfold reg_get; apply list_lookup_insert_eq; lia. Qed.

Lemma get_set_other σ i j v : 0 <= i -> 0 <= j -> i <> j -> reg_get (<[Z.to_nat i := v]> σ) j = reg_get σ j.
Proof. intros; unfold reg_get; apply list_lookup_insert_ne; lia. Qed.

Lemma machine_upd_set σ dst r : length σ = 12%nat -> regno_ok dst -> machine_upd σ dst r (<[Z.to_nat dst := r]> σ).
Proof.
  unfold regno_ok; intros L Hd; split; [rewrite length_insert; exact L|]; split; [apply get_set_same; trivial; lia|].
  intros i Hi Hne; apply get_set_other; unfold regno_ok in Hi; lia.
Qed.

(** A write to [AX] does not show. *)
Lemma machine_upd_ax σ dst r q : length σ = 12%nat -> regno_ok dst ->
  machine_upd σ dst r (<[Z.to_nat dst := r]> (<[Z.to_nat BPF_REG_AX := q]> σ)).
Proof.
  unfold regno_ok; intros L Hd; assert (L' : length (<[Z.to_nat BPF_REG_AX := q]> σ) = 12%nat) by (rewrite length_insert; exact L).
  destruct (machine_upd_set _ dst r L' Hd) as (M1 & M2 & M3); split; [exact M1|]; split; [exact M2|].
  intros i Hi Hne; rewrite M3 by assumption; unfold regno_ok in Hi; apply get_set_other; lia.
Qed.

(** An ALU label computes [alu_exec] into the destination, and does so
    whenever the operation is defined. *)
Lemma divmod32 op o DST SRC IMM r : op = DIV \/ op = MOD -> alu_exec 32 op o DST SRC IMM = Some r ->
  exists q m, alu_exec 32 DIV o (u32 DST) SRC IMM = Some q /\ alu_exec 32 MOD o (u32 DST) SRC IMM = Some m /\
    r = match op with MOD => m | _ => u32 q end.
Proof.
  intros Ho H; unfold alu_exec in *; rewrite u32_u32; set (b := u32 (match o with X => SRC | K => IMM end)) in *.
  assert (Hd : (b =? 0) = false) by (destruct Ho as [-> | ->]; destruct (b =? 0); congruence).
  rewrite Hd in *; eexists _, _; split; [reflexivity|]; split; [reflexivity|].
  destruct Ho as [-> | ->]; injection H as <-; [|reflexivity]; symmetry; apply uwrap_id.
  pose proof (uwrap_range 32 DST ltac:(lia)) as Ha; pose proof (uwrap_range 32 (match o with X => SRC | K => IMM end) ltac:(lia)) as Hb.
  fold b in Hb; unfold uin in *; apply Z.eqb_neq in Hd; split; [apply Z.div_pos; lia|].
  apply Z.div_lt_upper_bound; nia.
Qed.

Section StepAlu.
Variables (w : Z) (op : alu_op) (o : operand) (insn : bpf_insn) (σ : list Z) (DST SRC : Z).
Hypothesis Hw : w = 32 \/ w = 64.
Hypothesis Hlen : length σ = 12%nat.
Hypothesis Hdst : regno_ok (insn_dst insn).
Hypothesis Hsrc : regno_ok (insn_src insn).
Hypothesis HD : reg_get σ (insn_dst insn) = Some DST.
Hypothesis HS : src_get o σ insn = Some SRC.

Lemma step_alu_some r : alu_exec w op o DST SRC (insn_imm insn) = Some r ->
  exists σ', step_alu w op o insn σ = Some σ' /\ machine_upd σ (insn_dst insn) r σ'.
Proof using Hw Hlen Hdst Hsrc HD HS.
  intros Hr; pose proof Hdst as Hd; pose proof Hsrc as Hs; unfold regno_ok in Hd, Hs.
  assert (simple : (op <> DIV /\ op <> MOD) \/ op = DIV \/ op = MOD) by (destruct op; auto; left; split; discriminate).
  destruct simple as [[N1 N2]|DM].
  - exists (<[Z.to_nat (insn_dst insn) := r]> σ); split; [|apply machine_upd_set; assumption].
    assert (E : step_alu w op o insn σ = (DST ← reg_get σ (insn_dst insn); SRC ← src_get o σ insn;
      r ← alu_exec w op o DST SRC (insn_imm insn); reg_set σ (insn_dst insn) r)) by (destruct op; congruence || reflexivity).
    rewrite E, HD; cbn; rewrite HS; cbn; rewrite Hr; cbn; apply reg_set_upd; trivial; lia.
  - assert (E : step_alu w op o insn σ = step_divmod w op o insn σ) by (destruct DM as [-> | ->]; reflexivity).
    rewrite E; unfold step_divmod; rewrite HD; cbn [mbind option_bind]; destruct Hw as [-> | ->]; cbn [Z.eqb Pos.eqb].
    + destruct (divmod32 _ _ _ _ _ _ DM Hr) as (q & m & Hq & Hm & ->).
      rewrite reg_set_upd by (trivial; lia); cbn [mbind option_bind].
      set (σ1 := <[Z.to_nat BPF_REG_AX := u32 DST]> σ); assert (L1 : length σ1 = 12%nat) by (unfold σ1; rewrite length_insert; exact Hlen).
      assert (HS1 : src_get o σ1 insn = Some SRC) by (destruct o; [cbn in *; unfold σ1; rewrite get_set_other by lia|]; exact HS).
      assert (HAX : reg_get σ1 BPF_REG_AX = Some (u32 DST)) by (apply get_set_same; trivial; lia).
      rewrite HS1; cbn [mbind option_bind]; rewrite HAX; cbn [mbind option_bind].
      rewrite Hq; cbn [mbind option_bind]; rewrite Hm; cbn [mbind option_bind].
      rewrite reg_set_upd by (trivial; lia); cbn [mbind option_bind].
      unfold σ1; rewrite list_insert_insert_eq, reg_set_upd by (rewrite ?length_insert; trivial; lia).
      eexists; split; [reflexivity|]; apply machine_upd_ax; assumption.
    + rewrite HS; cbn [mbind option_bind]; rewrite Hr; cbn [mbind option_bind].
      destruct DM as [-> | ->]; rewrite ?reg_set_upd by (trivial; lia); cbn [mbind option_bind].
      * eexists; split; [reflexivity|]; apply machine_upd_set; assumption.
      * rewrite reg_set_upd by (rewrite ?length_insert; trivial; lia); eexists; split; [reflexivity|]; apply machine_upd_ax; assumption.
Qed.

Lemma step_alu_none : alu_exec w op o DST SRC (insn_imm insn) = None -> step_alu w op o insn σ = None.
Proof using Hw Hlen Hdst Hsrc HD HS.
  intros Hr; pose proof Hsrc as Hs; unfold regno_ok in Hs.
  assert (simple : (op <> DIV /\ op <> MOD) \/ op = DIV \/ op = MOD) by (destruct op; auto; left; split; discriminate).
  destruct simple as [[N1 N2]|DM].
  - assert (E : step_alu w op o insn σ = (DST ← reg_get σ (insn_dst insn); SRC ← src_get o σ insn;
      r ← alu_exec w op o DST SRC (insn_imm insn); reg_set σ (insn_dst insn) r)) by (destruct op; congruence || reflexivity).
    rewrite E, HD; cbn; rewrite HS; cbn; rewrite Hr; reflexivity.
  - assert (E : step_alu w op o insn σ = step_divmod w op o insn σ) by (destruct DM as [-> | ->]; reflexivity).
    rewrite E; unfold step_divmod; rewrite HD; cbn [mbind option_bind]; destruct Hw as [-> | ->]; cbn [Z.eqb Pos.eqb].
    + rewrite reg_set_upd by (trivial; lia); cbn [mbind option_bind].
      set (σ1 := <[Z.to_nat BPF_REG_AX := u32 DST]> σ).
      assert (HS1 : src_get o σ1 insn = Some SRC) by (destruct o; [cbn in *; unfold σ1; rewrite get_set_other by lia|]; exact HS).
      assert (HAX : reg_get σ1 BPF_REG_AX = Some (u32 DST)) by (apply get_set_same; trivial; lia).
      rewrite HS1; cbn [mbind option_bind]; rewrite HAX; cbn [mbind option_bind].
      assert (N : alu_exec 32 DIV o (u32 DST) SRC (insn_imm insn) = None)
        by (unfold alu_exec in *; destruct DM as [-> | ->]; destruct (_ =? 0); congruence).
      rewrite N; reflexivity.
    + rewrite HS; cbn [mbind option_bind]; rewrite Hr; reflexivity.
Qed.
End StepAlu.

(** ** The simulation relation *)

Definition reg_sim (reg : bpf_reg_state) (base x : Z) : Prop :=
  uin 64 x /\
  match type_ reg with
  | NOT_INIT => True
  | SCALAR_VALUE => reg_inv reg x
  | _ => sin 32 (off reg) /\ exists v, reg_inv reg v /\ x = u64 (base + off reg + v)
  end.

Definition regs_sim (env : bpf_verifier_env) (σ : list Z) (β : Z -> Z) : Prop :=
  length σ = 12%nat /\ forall r, regno_ok r -> exists x, reg_get σ r = Some x /\ reg_sim (get_reg env r) (β r) x.

(** Every base after the step was one before. *)
Definition no_new_base (β β' : Z -> Z) : Prop := forall r, regno_ok r -> exists r0, regno_ok r0 /\ β' r = β r0.

Definition upd_base (β : Z -> Z) (dst b : Z) : Z -> Z := fun i => if i =? dst then b else β i.

Lemma same_regs_sim e e' σ β : e ≈ e' -> regs_sim e σ β -> regs_sim e' σ β.
Proof.
  intros H [L S]; split; [exact L|]; intros r Hr; destruct (S r Hr) as (x & Hx & Hs); exists x; split; [exact Hx|].
  change (reg_sim (erase_reg (get_reg e' r)) (β r) x); rewrite <- (same_reg e e' r H); exact Hs.
Qed.

Lemma sim_scalar reg b x : reg_sim reg b x -> type_ reg = SCALAR_VALUE -> reg_inv reg x.
Proof. intros [_ H] E; rewrite E in H; exact H. Qed.

Lemma sim_ptr reg b x : reg_sim reg b x -> type_ reg <> SCALAR_VALUE -> type_ reg <> NOT_INIT ->
  sin 32 (off reg) /\ exists v, reg_inv reg v /\ x = u64 (b + off reg + v).
Proof. intros [_ H] N1 N2; destruct (type_ reg); congruence. Qed.

Lemma scalar_sim reg b x : uin 64 x -> reg_inv reg x -> (type_ reg = SCALAR_VALUE) -> reg_sim reg b x.
Proof. intros Hu Hi E; split; [exact Hu|]; rewrite E; exact Hi. Qed.

Lemma ptr_sim reg b v : sin 32 (off reg) -> reg_inv reg v -> type_ reg <> SCALAR_VALUE -> reg_sim reg b (u64 (b + off reg + v)).
Proof.
  intros Ho Hi N; split; [apply uwrap_range; lia|]; destruct (type_ reg); trivial; try congruence; split; trivial; exists v; auto.
Qed.

(** What is left to show of a step on [dst]. *)
Definition step_sim (σ : list Z) (β : Z -> Z) (dst r : Z) (env' : bpf_verifier_env) : Prop :=
  env_wf env' /\ forall σ', machine_upd σ dst r σ' -> exists β', regs_sim env' σ' β' /\ no_new_base β β'.

Lemma step_sim_dst env env' σ β dst r r0 : regs_sim env σ β -> regno_ok dst -> only_reg dst env env' -> regno_ok r0 ->
  reg_sim (get_reg env' dst) (β r0) r -> step_sim σ β dst r env'.
Proof.
  intros [L S] Hd (W & _ & G) H0 Hs; split; [exact W|]; intros σ' (L' & M1 & M2); exists (upd_base β dst (β r0)); split.
  - split; [exact L'|]; intros i Hi; unfold upd_base; destruct (Z.eqb_spec i dst) as [->|Hne]; [exists r; auto|].
    destruct (S i Hi) as (x & Hx & Hsx); exists x; rewrite M2, G by (trivial; unfold regno_ok in *; lia); auto.
  - intros i Hi; unfold upd_base; destruct (i =? dst); eauto.
Qed.

(** ** Opcodes of the labels *)

Definition alu_label (w : Z) (op : alu_op) (o : operand) : label := if w =? 64 then L_ALU64 op o else L_ALU op o.

Lemma alu_label_code w op o insn : w = 32 \/ w = 64 -> uin 8 (insn_code insn) -> jumptable (insn_code insn) = alu_label w op o ->
  insn_w insn = w /\ BPF_OP (insn_code insn) = alu_code op /\ BPF_SRC (insn_code insn) = src_code o.
Proof.
  intros Hw Hc Hl; pose proof (jumptable_code (insn_code insn) Hc) as H; rewrite Hl in H; unfold insn_w, alu_label in *.
  destruct Hw as [-> | ->]; cbn in H; rewrite H; destruct op, o; repeat split.
Qed.

(** ** [adjust_reg_min_max_vals] *)

Lemma inv_off_mem reg x : reg_inv reg x -> off_mem reg x.
Proof. intros ((? & ? & ?) & (? & ? & ?) & _); split; auto. Qed.

Lemma moved_add b o v y o' v' : weq 64 (o' + v') (o + v + y) -> u64 (u64 (b + o + v) + y) = u64 (b + o' + v').
Proof.
  intros H; change (weq 64 (u64 (b + o + v) + y) (b + o' + v')); transitivity (b + (o + v + y)).
  - replace (b + (o + v + y)) with (b + o + v + y) by lia; apply weq_add; [lia|apply weq_uwrap; lia|reflexivity].
  - replace (b + o' + v') with (b + (o' + v')) by lia; apply weq_add; [lia|reflexivity|symmetry; exact H].
Qed.

Lemma moved_sub b o v y o' v' : weq 64 (o' + v') (o + v - y) -> u64 (u64 (b + o + v) - y) = u64 (b + o' + v').
Proof. intros H; rewrite <- Z.add_opp_r; apply moved_add; rewrite Z.add_opp_r; exact H. Qed.

(** The 64-bit sum and difference, for the operand in either encoding. *)
Lemma add_value o DST SRC IMM r y : alu_exec 64 ADD o DST SRC IMM = Some r -> u64 (match o with X => SRC | K => IMM end) = u64 y ->
  r = u64 (DST + y).
Proof. unfold alu_exec; cbn [alu_arith]; intros [= <-] ->; symmetry; apply uwrap_sum; lia. Qed.

Lemma sub_value o DST SRC IMM r y : alu_exec 64 SUB o DST SRC IMM = Some r -> u64 (match o with X => SRC | K => IMM end) = u64 y ->
  r = u64 (DST - y).
Proof. unfold alu_exec; cbn [alu_arith]; intros [= <-] ->; symmetry; apply uwrap_diff; lia. Qed.

(** How an accepted two-operand instruction gives [dst] the value [r]: as a
    scalar, or by moving the pointer in [r0] by [y], from a state [env0] that has
    the registers of [env] but for the id of a scalar destination. *)
Definition prepared (dst r0 : Z) (env env0 : bpf_verifier_env) : Prop :=
  env_wf env0 /\ id_gen env0 = id_gen env /\ erase_reg (get_reg env0 r0) = erase_reg (get_reg env r0) /\
  frameno (get_reg env0 dst) = frameno (get_reg env dst) /\
  forall j, 0 <= j -> j <> dst -> erase_reg (get_reg env0 j) = erase_reg (get_reg env j).

Inductive alu_case (insn : bpf_insn) (σ : list Z) (β : Z -> Z) (w : Z) (op : alu_op) (r : Z) (u : unit) (env env' : bpf_verifier_env) : Prop :=
| alu_scalar env0 : regs_sim env0 σ β -> only_reg (insn_dst insn) env0 env' -> type_ (get_reg env' (insn_dst insn)) = SCALAR_VALUE ->
    reg_inv (get_reg env' (insn_dst insn)) r -> alu_case insn σ β w op r u env env'
| alu_pointer env0 off_ r0 x y : prepared (insn_dst insn) r0 env env0 -> regs_sim env0 σ β -> regno_ok r0 -> ptr_ok off_ ->
    r0 = insn_dst insn \/ r0 = insn_src insn /\ type_ (get_reg env (insn_dst insn)) = SCALAR_VALUE -> reg_get σ r0 = Some x ->
    type_ (get_reg env0 r0) <> SCALAR_VALUE -> type_ (get_reg env0 r0) <> NOT_INIT -> off_mem (ptr_val env0 off_) y ->
    (w = 64 -> op = ADD -> r = u64 (x + y)) -> (w = 64 -> op = SUB -> ptr_is off_ (insn_dst insn) = false -> r = u64 (x - y)) ->
    adjust_ptr_min_max_vals insn (PReg r0) off_ env0 = (inr u, env') -> alu_case insn σ β w op r u env env'.

(** An update of [id] keeps the relation. *)
Lemma set_id_sim env σ β dst n : env_wf env -> regno_ok dst -> regs_sim env σ β ->
  regs_sim (put_reg env dst (set_id (get_reg env dst) n)) σ β.
Proof.
  intros W Hd [L S]; split; [exact L|]; intros i Hi; destruct (S i Hi) as (x & Hx & Hs); exists x; split; [exact Hx|].
  destruct (Z.eq_dec i dst) as [->|Hne]; [rewrite get_put_same by assumption; exact Hs|].
  rewrite get_put_other; trivial; unfold regno_ok in *; lia.
Qed.

Lemma set_id_type env dst i n : env_wf env -> regno_ok dst -> regno_ok i ->
  type_ (get_reg (put_reg env dst (set_id (get_reg env dst) n)) i) = type_ (get_reg env i).
Proof.
  intros W Hd Hi; destruct (Z.eq_dec i dst) as [->|Hne]; [rewrite get_put_same by assumption; reflexivity|].
  rewrite get_put_other; trivial; unfold regno_ok in *; lia.
Qed.

Lemma fresh_id_sim env σ β r u env' : env_wf env -> regno_ok r -> regs_sim env σ β -> fresh_id r env = (inr u, env') ->
  env_wf env' /\ regs_sim env' σ β.
Proof.
  intros W Hr S [= _ <-]; split; [apply put_reg_wf; exact W|].
  apply (set_id_sim (set_id_gen env (u32 (id_gen env + 1)))); [exact W|exact Hr|exact S].
Qed.

Lemma mark_chain_ok regno spi env u env' : __mark_chain_precision regno spi env = (inr u, env') -> env' ≈ env.
Proof. intros H; pose proof (mark_chain_same regno spi env) as E; rewrite H in E; exact E. Qed.

Lemma type_eqb_spec t t' : reflect (t = t') (type_eqb t t').
Proof. unfold type_eqb; destruct (bpf_reg_type_eq_dec t t'); constructor; assumption. Qed.

Section AdjustReg.
Variables (insn : bpf_insn) (σ : list Z) (β : Z -> Z) (w : Z) (op : alu_op) (r : Z).
Local Abbreviation dst := (insn_dst insn).
Local Abbreviation src := (insn_src insn).
Hypothesis Hdst : regno_ok dst.
Hypothesis Hw : insn_w insn = w.
Hypothesis Hop : BPF_OP (insn_code insn) = alu_code op.
Hypothesis Hr : uin 64 r.

(** A case is a simulation step; the base of a moved pointer is the one it had. *)
Lemma alu_case_step u env env' : alu_case insn σ β w op r u env env' -> step_sim σ β dst r env'.
Proof using Hdst Hw Hop Hr.
  intros [env0 S O T I|env0 off_ r0 x y (W & _) S H0 Ho _ Hx N1 N2 Hy RA RS H].
  { eapply (step_sim_dst env0 env' σ β dst r dst); trivial; apply scalar_sim; assumption. }
  pose proof S as [_ S']; destruct (S' r0 H0) as (x' & Hx' & Hs); rewrite Hx in Hx'; injection Hx' as <-; destruct (sim_ptr _ _ _ Hs N1 N2) as (So & v & Hv & Ex).
  destruct (adjust_ptr_sound insn env0 (PReg r0) off_ v y W Hdst H0 Ho (inv_off_mem _ _ Hv) So Hy _ _ H) as (O & [[T1 T2]|(C & T & v' & I & S0 & Mv)]).
  - eapply (step_sim_dst env0 env' σ β dst r dst); trivial; apply scalar_sim; auto.
  - eapply (step_sim_dst env0 env' σ β dst r r0); trivial.
    assert (E : r = u64 (β r0 + off (get_reg env' dst) + v')); [|rewrite E; apply ptr_sim; trivial; cbn [ptr_val] in T; congruence].
    assert (W64 : w = 64) by (rewrite <- Hw; unfold insn_w; rewrite C; reflexivity).
    rewrite Hop in Mv; destruct Mv as [[EA M]|(ES & Ei & M)].
    + rewrite (RA W64) by (destruct op; try discriminate; reflexivity); rewrite Ex; apply moved_add, M.
    + rewrite (RS W64) by (trivial; destruct op; try discriminate; reflexivity); rewrite Ex; apply moved_sub, M.
Qed.

Context (DST : Z) (Hmov : op <> MOV) (HD : reg_get σ dst = Some DST).

Lemma prepared_same r0 env env0 env1 : env_wf env0 -> env1 ≈ env0 -> prepared dst r0 env env0 -> prepared dst r0 env env1.
Proof using.
  intros W E (_ & G & P & F & O); split; [rewrite E; exact W|]; split; [rewrite <- G; exact (f_equal id_gen E)|].
  split; [rewrite <- P; apply same_reg, E|]; split; [rewrite <- F; exact (f_equal frameno (same_reg _ _ dst E))|].
  intros j H0 N; rewrite <- O by assumption; apply same_reg, E.
Qed.

(** The register-register part, after the destination's [id] is cleared. *)
Lemma adjust_x env0 env u env' SRC leaks : env_wf env -> regs_sim env σ β -> regno_ok src -> reg_get σ src = Some SRC ->
  alu_exec w op X DST SRC (insn_imm insn) = Some r ->
  type_ (get_reg env dst) <> NOT_INIT -> type_ (get_reg env src) <> NOT_INIT -> type_ (get_reg env0 dst) = type_ (get_reg env dst) ->
  (forall r0, r0 <> dst \/ type_ (get_reg env dst) <> SCALAR_VALUE -> 0 <= r0 -> prepared dst r0 env0 env) ->
  (if negb (type_eqb (type_ (get_reg env src)) SCALAR_VALUE) then
     if negb (type_eqb (type_ (get_reg env dst)) SCALAR_VALUE) then
       if (BPF_OP (insn_code insn) =? BPF_SUB) && leaks then mark_reg_unknown dst else fail (- EACCES)
     else _ ← mark_chain_precision dst; adjust_ptr_min_max_vals insn (PReg src) (PReg dst)
   else if negb (type_eqb (type_ (get_reg env dst)) SCALAR_VALUE) then
     _ ← mark_chain_precision src; adjust_ptr_min_max_vals insn (PReg dst) (PReg src)
   else adjust_scalar_min_max_vals insn dst (get_reg env src)) env = (inr u, env') ->
  alu_case insn σ β w op r u env0 env'.
Proof using Hdst Hw Hop Hmov HD Hr.
  intros W S Hsrc HS Hx Nd Ns Td0 P H; pose proof S as [_ S'].
  destruct (S' dst Hdst) as (x & Ex & Sd); rewrite HD in Ex; injection Ex as <-.
  destruct (S' src Hsrc) as (y & Hy & Ss); rewrite HS in Hy; injection Hy as <-.
  destruct (type_eqb_spec (type_ (get_reg env src)) SCALAR_VALUE) as [Ts|Ts]; cbn [negb] in H;
    destruct (type_eqb_spec (type_ (get_reg env dst)) SCALAR_VALUE) as [Td|Td]; cbn [negb] in H.
  - destruct (adjust_scalar_sound insn env (get_reg env src) DST SRC op X r) with (u := u) (env' := env') as (O & T & I); trivial.
    + apply (sim_scalar _ _ _ Sd Td).
    + apply (sim_scalar _ _ _ Ss Ts).
    + rewrite Hw; exact Hx.
    + eapply alu_scalar; eassumption.
  - run H; apply mark_chain_ok in R; apply (alu_pointer _ _ _ _ _ _ _ _ _ env1 (PReg src) dst DST SRC); cbn [ptr_val ptr_ok ptr_is];
      rewrite ?(same_reg_type env1 env) by exact R; trivial; auto.
    + eapply prepared_same; [exact W|exact R|apply P; [auto|apply Hdst]].
    + exact (same_regs_sim _ _ σ β (symmetry R) S).
    + apply inv_off_mem; rewrite (same_reg_inv env1 env) by exact R; apply (sim_scalar _ _ _ Ss Ts).
    + intros -> ->; eapply add_value; [exact Hx|reflexivity].
    + intros -> -> _; eapply sub_value; [exact Hx|reflexivity].
  - run H; apply mark_chain_ok in R; apply (alu_pointer _ _ _ _ _ _ _ _ _ env1 (PReg dst) src SRC DST); cbn [ptr_val ptr_ok ptr_is];
      rewrite ?Z.eqb_refl, ?(same_reg_type env1 env) by exact R; trivial; try discriminate.
    + eapply prepared_same; [exact W|exact R|apply P; [left; congruence|apply Hsrc]].
    + exact (same_regs_sim _ _ σ β (symmetry R) S).
    + right; split; [reflexivity|congruence].
    + apply inv_off_mem; rewrite (same_reg_inv env1 env) by exact R; apply (sim_scalar _ _ _ Sd Td).
    + intros -> ->; rewrite Z.add_comm; eapply add_value; [exact Hx|reflexivity].
  - destruct (_ && leaks); [|discriminate]; rewrite mark_unknown_run in H by exact Hdst; injection H as _ <-; eapply alu_scalar; [exact S|apply only_reg_put; trivial; unfold regno_ok in Hdst; lia|..];
      rewrite get_put_same by assumption; [reflexivity|apply mark_unknown_inv, Hr].
Qed.

(** The immediate part. *)
Lemma adjust_k env0 env u env' : env_wf env -> regs_sim env σ β -> alu_exec w op K DST 0 (insn_imm insn) = Some r ->
  type_ (get_reg env dst) <> NOT_INIT ->
  (type_ (get_reg env dst) <> SCALAR_VALUE -> prepared dst dst env0 env) ->
  (if negb (type_eqb (type_ (get_reg env dst)) SCALAR_VALUE)
   then adjust_ptr_min_max_vals insn (PReg dst) (PVal (__mark_reg_known (set_type inhabitant SCALAR_VALUE) (u64 (insn_imm insn))))
   else adjust_scalar_min_max_vals insn dst (__mark_reg_known (set_type inhabitant SCALAR_VALUE) (u64 (insn_imm insn)))) env = (inr u, env') ->
  alu_case insn σ β w op r u env0 env'.
Proof using Hdst Hw Hop Hmov HD Hr.
  intros W S Hx Nd P H; pose proof S as [_ S']; destruct (S' dst Hdst) as (x & Ex & Sd); rewrite HD in Ex; injection Ex as <-.
  set (off_reg := __mark_reg_known _ _) in *.
  assert (Ho : reg_inv off_reg (u64 (insn_imm insn))) by (apply mark_known_inv, uwrap_range; lia).
  destruct (type_eqb_spec (type_ (get_reg env dst)) SCALAR_VALUE) as [Td|Td]; cbn [negb] in H.
  - destruct (adjust_scalar_sound insn env off_reg DST 0 op K r) with (u := u) (env' := env') as (O & T & I); trivial.
    + apply (sim_scalar _ _ _ Sd Td).
    + rewrite Hw; exact Hx.
    + eapply alu_scalar; eassumption.
  - apply (alu_pointer _ _ _ _ _ _ _ _ _ env (PVal off_reg) dst DST (u64 (insn_imm insn))); auto.
    + exact I.
    + apply inv_off_mem, Ho.
    + intros -> ->; eapply add_value; [exact Hx|cbn; rewrite uwrap_uwrap by lia; reflexivity].
    + intros -> -> _; eapply sub_value; [exact Hx|cbn; rewrite uwrap_uwrap by lia; reflexivity].
Qed.
End AdjustReg.

Lemma alu_value_range insn w op o DST SRC r : insn_w insn = w -> alu_exec w op o DST SRC (insn_imm insn) = Some r -> uin 64 r.
Proof.
  intros Hw Hr; pose proof (insn_w_cases insn) as C; rewrite Hw in C; apply (uin_le w); [lia|]; eapply alu_exec_range; eassumption.
Qed.

Lemma adjust_reg_cases insn σ β w op o DST SRC r env u env' :
  env_wf env -> regs_sim env σ β -> regno_ok (insn_dst insn) -> regno_ok (insn_src insn) ->
  insn_w insn = w -> BPF_OP (insn_code insn) = alu_code op -> BPF_SRC (insn_code insn) = src_code o -> op <> MOV ->
  reg_get σ (insn_dst insn) = Some DST -> src_get o σ insn = Some SRC ->
  alu_exec w op o DST SRC (insn_imm insn) = Some r ->
  type_ (get_reg env (insn_dst insn)) <> NOT_INIT -> (o = X -> type_ (get_reg env (insn_src insn)) <> NOT_INIT) ->
  adjust_reg_min_max_vals insn env = (inr u, env') -> alu_case insn σ β w op r u env env'.
Proof.
  intros W S Hd Hs Hw Hop Hsc Hmov HD HS Hr Nd Ns H; unfold adjust_reg_min_max_vals in H.
  run H; injection R as <- <-; run H; injection R as <- <-; run H; pose proof (alu_value_range _ _ _ _ _ _ _ Hw Hr) as Ur.
  assert (P : env_wf env0 /\ regs_sim env0 σ β /\ (forall i, regno_ok i -> type_ (get_reg env0 i) = type_ (get_reg env i)) /\
    (forall r0, r0 <> insn_dst insn \/ type_ (get_reg env (insn_dst insn)) <> SCALAR_VALUE -> 0 <= r0 -> prepared (insn_dst insn) r0 env env0)).
  { unfold when in R; destruct (type_eqb_spec (type_ (get_reg env (insn_dst insn))) SCALAR_VALUE) as [Td|Td]; injection R as _ <-; [|unfold prepared; auto 8].
    split; [auto with verifier|]; split; [apply set_id_sim; assumption|split; [intros; apply set_id_type; assumption|]].
    intros r0 [N|N]; [|contradiction]; unfold prepared; rewrite get_put_same by assumption; intros H0.
    rewrite get_put_other by (trivial; unfold regno_ok in *; lia); split; [auto with verifier|split; [reflexivity|split; [reflexivity|split; [reflexivity|]]]].
    intros j J0 Nj; rewrite get_put_other by (trivial; unfold regno_ok in *; lia); reflexivity. }
  destruct P as (W0 & S0 & T0 & P0); rewrite <- (T0 _ Hd) in H, Nd; setoid_rewrite <- (T0 _ Hd) in P0; rewrite Hsc in H; destruct o; cbn [src_code Z.eqb Pos.eqb] in H.
  - run H; injection R0 as <- <-; eapply adjust_x; try eassumption; rewrite ?T0 by assumption; auto.
  - cbn in HS; injection HS as <-; eapply adjust_k; try eassumption; intros N; apply P0; [auto|apply Hd].
Qed.

(** ** The three forms of [check_alu_op] *)

(** Register numbers and operands a successful check guarantees. *)
Lemma src_part_ok (insn : bpf_insn) o env u env1 : 0 <= insn_src insn ->
  (if src_code o =? BPF_X then
     if negb (insn_imm insn =? 0) || negb (insn_off insn =? 0) then fail (- EINVAL) else check_reg_arg (insn_src insn) SRC_OP
   else if negb (insn_src insn =? BPF_REG_0) || negb (insn_off insn =? 0) then fail (- EINVAL) else mret ()) env = (inr u, env1) ->
  env1 ≈ env /\ regno_ok (insn_src insn) /\ (o = X -> type_ (get_reg env (insn_src insn)) <> NOT_INIT).
Proof.
  intros H0 H; destruct o; cbn [src_code Z.eqb Pos.eqb] in H.
  - destruct (_ || _); [discriminate|]; apply src_op_ok in H; destruct H as (H1 & H2 & H3).
    split; [exact H3|]; split; [split; lia|auto].
  - destruct (Z.eqb_spec (insn_src insn) BPF_REG_0) as [E|]; [|discriminate]; cbn [negb orb] in H.
    destruct (negb _); [discriminate|]; injection H as _ <-; split; [reflexivity|]; split; [unfold regno_ok; lia|discriminate].
Qed.

Section CheckAlu.
Variables (insn : bpf_insn) (env : bpf_verifier_env) (σ : list Z) (β : Z -> Z).
Local Abbreviation dst := (insn_dst insn).
Local Abbreviation src := (insn_src insn).
Hypothesis Hok : insn_ok insn.
Hypothesis Hwf : env_wf env.
Hypothesis Hsim : regs_sim env σ β.

Lemma regnos : 0 <= dst /\ 0 <= src.
Proof using Hok. destruct Hok as (_ & [? _] & [? _] & _); auto. Qed.

Lemma binary_cases w op o DST SRC r u env' : insn_w insn = w ->
  BPF_OP (insn_code insn) = alu_code op -> BPF_SRC (insn_code insn) = src_code o -> op <> MOV ->
  reg_get σ dst = Some DST -> src_get o σ insn = Some SRC -> alu_exec w op o DST SRC (insn_imm insn) = Some r ->
  check_alu_binary insn env = (inr u, env') -> alu_case insn σ β w op r u env env'.
Proof using Hok Hwf Hsim.
  intros Hw Hop Hsc Hmov HD HS Hr H; destruct regnos as [D0 S0]; unfold check_alu_binary in H; rewrite Hsc in H.
  run H; apply src_part_ok in R; [|exact S0]; destruct R as (E1 & Hs & Ns).
  run H; apply src_op_ok in R; destruct R as (D1 & Nd & E2).
  match type of H with (if ?c then _ else _) _ = _ => destruct c; [discriminate|] end.
  match type of H with (if ?c then _ else _) _ = _ => destruct c; [discriminate|] end.
  run H; assert (E12 : env1 ≈ env) by (etransitivity; eassumption).
  apply dst_op_ok in R; [|rewrite E12; exact Hwf|exact D0]; destruct R as (_ & _ & E3).
  assert (E : env2 ≈ env) by (etransitivity; eassumption).
  assert (Cs : alu_case insn σ β w op r u env2 env').
  { apply (adjust_reg_cases insn σ β w op o DST SRC r env2 u env'); try assumption.
    - rewrite E; exact Hwf.
    - eapply same_regs_sim; [symmetry; exact E|exact Hsim].
    - unfold regno_ok; lia.
    - rewrite (same_reg_type env2 env0) by (rewrite E; symmetry; exact E1); exact Nd.
    - intros Eo; rewrite (same_reg_type env2 env) by exact E; auto. }
  destruct Cs as [e0 S T I|e0 off_ r0 x y (W0 & G & P & F & O) S H0 Ho C Hx N1 N2 Hy RA RS Hrun]; [eapply alu_scalar; eassumption|].
  eapply alu_pointer; try eassumption; [|rewrite <- (same_reg_type env2 env) by exact E; exact C].
  split; [exact W0|]; split; [rewrite G; exact (f_equal id_gen E)|]; split; [rewrite P; apply same_reg, E|].
  split; [rewrite F; exact (f_equal frameno (same_reg _ _ dst E))|]; intros j J0 N; rewrite O by assumption; apply same_reg, E.
Qed.

Lemma binary_sound w op o DST SRC r u env' : insn_w insn = w -> regno_ok dst ->
  BPF_OP (insn_code insn) = alu_code op -> BPF_SRC (insn_code insn) = src_code o -> op <> MOV ->
  reg_get σ dst = Some DST -> src_get o σ insn = Some SRC -> alu_exec w op o DST SRC (insn_imm insn) = Some r ->
  check_alu_binary insn env = (inr u, env') -> step_sim σ β dst r env'.
Proof using Hok Hwf Hsim.
  intros Hw Hd Hop Hsc Hm HD HS Hr H; eapply (alu_case_step insn σ β w op r); try eassumption; [eapply alu_value_range; eassumption|eapply binary_cases; eassumption].
Qed.
(** A scalar written into [dst] in one or more updates. *)
Lemma scalar_written env1 env' r : regs_sim env1 σ β -> regno_ok dst -> only_reg dst env1 env' ->
  type_ (get_reg env' dst) = SCALAR_VALUE -> uin 64 r -> reg_inv (get_reg env' dst) r -> step_sim σ β dst r env'.
Proof using.
  intros S Hd O T Hu I; apply (step_sim_dst env1 env' σ β dst r dst); trivial; apply scalar_sim; assumption.
Qed.

Lemma mov_imm_sound w r u env' env1 : env_wf env1 -> regs_sim env1 σ β -> regno_ok dst -> insn_w insn = w ->
  r = uwrap w (insn_imm insn) ->
  (_ ← mark_reg_unknown dst; _ ← upd_reg dst (fun d => set_type d SCALAR_VALUE);
   if BPF_CLASS (insn_code insn) =? BPF_ALU64
   then upd_reg dst (fun d => __mark_reg_known d (u64 (insn_imm insn)))
   else upd_reg dst (fun d => __mark_reg_known d (u32 (insn_imm insn)))) env1 = (inr u, env') ->
  step_sim σ β dst r env'.
Proof using.
  intros W S Hd Hw Hr H; assert (D0 : 0 <= dst) by (unfold regno_ok in Hd; lia).
  run H; rewrite mark_unknown_run in R by exact Hd; injection R as _ <-; run H; injection R as _ <-.
  assert (Hu : uin 64 r).
  { rewrite Hr; pose proof (insn_w_cases insn); apply (uin_le w); [lia|apply uwrap_range; lia]. }
  unfold insn_w in Hw; destruct (_ =? _); injection H as _ <-; subst w;
    (eapply scalar_written; [exact S|exact Hd|repeat apply only_reg_upd; auto with verifier|..|exact Hu|]);
    rewrite ?get_put_same by auto with verifier; trivial; rewrite <- Hr; apply mark_known_inv, Hu.
Qed.

(** [R1 = (u32) R2]: the copied or unknown register is zero extended. *)
Lemma mov32_sound SRC u env' env1 : env_wf env1 -> regs_sim env1 σ β -> regno_ok dst -> uin 64 SRC ->
  (type_ (get_reg env1 src) = SCALAR_VALUE -> reg_inv (get_reg env1 src) SRC) ->
  (_ ← (if type_eqb (type_ (get_reg env1 src)) SCALAR_VALUE then
          _ ← upd_reg dst (fun _ => get_reg env1 src);
          upd_reg dst (fun d => set_subreg_def (set_live (set_id d 0) (live d .| REG_LIVE_WRITTEN)) (s32 (u32 (insn_idx env1 + 1))))
        else mark_reg_unknown dst);
   _ ← upd_reg dst zext_32_to_64;
   upd_reg dst (fun d => __reg_bound_offset (__reg_deduce_bounds (__update_reg_bounds d)))) env1 = (inr u, env') ->
  step_sim σ β dst (u32 SRC) env'.
Proof using.
  intros W S Hd Hu Hinv H; assert (D0 : 0 <= dst) by (unfold regno_ok in Hd; lia); run H.
  assert (P : only_reg dst env1 env0 /\ type_ (get_reg env0 dst) = SCALAR_VALUE /\
    reg_ok (get_reg env0 dst) /\ reg_mem (get_reg env0 dst) SRC).
  { destruct (type_eqb_spec (type_ (get_reg env1 src)) SCALAR_VALUE) as [T|T].
    - run R; injection R0 as _ <-; injection R as _ <-; destruct (Hinv T) as (I1 & I2 & _).
      split; [repeat apply only_reg_upd; auto with verifier|]; rewrite !get_put_same by auto with verifier; auto.
    - rewrite mark_unknown_run in R by exact Hd; injection R as _ <-.
      destruct (mark_unknown_inv (flags env1) (get_reg env1 dst) SRC Hu) as (I1 & I2 & _).
      split; [auto with verifier|]; rewrite get_put_same by assumption; auto. }
  destruct P as (O & T & Ok & Mem); pose proof O as (W0 & _).
  run H; injection R0 as _ <-; injection H as _ <-; set (d := get_reg env0 dst) in *.
  eapply scalar_written; [exact S|exact Hd|repeat apply only_reg_upd; auto with verifier|..|apply uin_u32|];
    rewrite !get_put_same by auto with verifier.
  - etransitivity; [apply tail_frame|]; rewrite type_zext; exact T.
  - assert (Hz : reg_ok (zext_32_to_64 d)) by (apply zext_ok; apply Ok).
    assert (Hz' : reg_mem (zext_32_to_64 d) (u32 SRC)) by (apply zext_mem; apply Mem).
    apply deduce_bound_inv; [apply update_ok|apply update_mem]; assumption.
Qed.

Lemma mov_reg_sound w SRC u env' env1 : env_wf env1 -> regs_sim env1 σ β -> regno_ok dst -> regno_ok src -> insn_w insn = w ->
  reg_get σ src = Some SRC -> check_alu_mov_reg insn env1 = (inr u, env') -> step_sim σ β dst (uwrap w SRC) env'.
Proof using.
  intros W S Hd Hs Hw HS H; assert (D0 : 0 <= dst) by (unfold regno_ok in Hd; lia).
  unfold check_alu_mov_reg in H; run H; injection R as <- <-; run H; injection R as <- <-.
  pose proof S as [_ Sx]; destruct (Sx src Hs) as (x & Ex & Sx'); rewrite HS in Ex; injection Ex as <-.
  assert (Hu : uin 64 SRC) by apply Sx'; unfold insn_w in Hw; destruct (_ =? BPF_ALU64); subst w.
  - run H; assert (P : env_wf env0 /\ regs_sim env0 σ β).
    { unfold when in R; destruct (_ && _); [eapply fresh_id_sim; eassumption|injection R as _ <-; auto]. }
    destruct P as [W0 S0]; run H; injection R0 as <- <-; run H; injection R0 as _ <-; injection H as _ <-.
    apply (step_sim_dst env0 _ σ β dst _ src); trivial; [repeat apply only_reg_upd; auto with verifier|].
    rewrite !get_put_same by auto with verifier; rewrite uwrap_id by exact Hu.
    destruct S0 as [_ S0]; destruct (S0 src Hs) as (x & Ex & Sy); rewrite HS in Ex; injection Ex as <-; exact Sy.
  - run H; unfold is_pointer_value in R; run R; injection R0 as <- <-; run R; injection R0 as <- <-; injection R as <- <-.
    destruct (__is_pointer_value _ _); [discriminate|].
    eapply mov32_sound; try eassumption; apply (sim_scalar _ _ _ Sx').
Qed.

Lemma mov_sound w o DST SRC r u env' : insn_w insn = w -> BPF_SRC (insn_code insn) = src_code o -> src_get o σ insn = Some SRC ->
  alu_exec w MOV o DST SRC (insn_imm insn) = Some r -> check_alu_mov insn env = (inr u, env') -> step_sim σ β dst r env'.
Proof using Hok Hwf Hsim.
  intros Hw Hsc HS Hr H; destruct regnos as [D0 S0]; unfold check_alu_mov in H; rewrite Hsc in H.
  run H; apply src_part_ok in R; [|exact S0]; destruct R as (E1 & Hs & Ns).
  run H; apply dst_op_ok in R; [|rewrite E1; exact Hwf|exact D0]; destruct R as (D1 & _ & E2).
  assert (E : env1 ≈ env) by (etransitivity; eassumption); assert (Hd : regno_ok dst) by (unfold regno_ok; lia).
  assert (W1 : env_wf env1) by (rewrite E; exact Hwf).
  assert (S1 : regs_sim env1 σ β) by (eapply same_regs_sim; [symmetry; exact E|exact Hsim]).
  cbn in Hr; injection Hr as <-; destruct o; cbn [src_code Z.eqb Pos.eqb] in H.
  - eapply mov_reg_sound; eassumption.
  - eapply mov_imm_sound; try eassumption; reflexivity.
Qed.

Lemma dst_mark_ok env1 u env' : env_wf env1 -> 0 <= dst -> check_reg_arg dst DST_OP env1 = (inr u, env') ->
  regno_ok dst /\ only_reg dst env1 env' /\ type_ (get_reg env' dst) = SCALAR_VALUE /\
  forall z, uin 64 z -> reg_inv (get_reg env' dst) z.
Proof using.
  intros W D0 H; unfold check_reg_arg in H; run H; injection R as <- <-.
  destruct (Z.geb_spec dst MAX_BPF_REG) as [|Hr]; [discriminate|]; run H; injection R as <- <-.
  change (bool_decide (DST_OP = SRC_OP)) with false in H; cbn iota in H.
  destruct (_ =? BPF_REG_FP); [discriminate|]; assert (Hd : regno_ok dst) by (unfold regno_ok; lia).
  run H; run H; injection R as _ <-; injection R0 as _ <-.
  change (bool_decide (DST_OP = DST_OP)) with true in H; cbn [when] in H; rewrite mark_unknown_run in H by exact Hd.
  injection H as _ <-; split; [exact Hd|]; split; [repeat apply only_reg_upd; auto with verifier|].
  rewrite !get_put_same by auto with verifier; split; [reflexivity|]; intros; apply mark_unknown_inv; assumption.
Qed.

Lemma unary_sound r u env' : uin 64 r -> check_alu_unary insn env = (inr u, env') -> step_sim σ β dst r env'.
Proof using Hok Hwf Hsim.
  intros Hr H; destruct regnos as [D0 S0]; unfold check_alu_unary in H.
  match type of H with (if ?c then _ else _) _ = _ => destruct c; [discriminate|] end.
  run H; apply src_op_ok in R; destruct R as (_ & _ & E1); run H.
  unfold is_pointer_value in R; run R; injection R0 as <- <-; run R; injection R0 as <- <-; injection R as <- <-.
  destruct (__is_pointer_value _ _); [discriminate|].
  assert (W1 : env_wf env0) by (rewrite E1; exact Hwf).
  destruct (dst_mark_ok _ _ _ W1 D0 H) as (Hd & O & T & I).
  eapply scalar_written; [|exact Hd|exact O|exact T|exact Hr|apply I, Hr].
  eapply same_regs_sim; [symmetry; exact E1|exact Hsim].
Qed.
End CheckAlu.

(** ** The whole instruction *)

Lemma alu_code_binary op : op <> MOV ->
  ((alu_code op =? BPF_END) || (alu_code op =? BPF_NEG)) = false /\ (alu_code op =? BPF_MOV) = false /\ (alu_code op >? BPF_END) = false.
Proof. destruct op; intros; try congruence; repeat split. Qed.

Definition is_alu_label (l : label) : bool :=
  match l with
  | L_ALU _ _ | L_ALU64 _ _ | L_ALU_NEG | L_ALU64_NEG | L_ALU_END_TO_BE | L_ALU_END_TO_LE => true
  | _ => false
  end.

Lemma not_alu_step insn σ : is_alu_label (jumptable (insn_code insn)) = false -> step_alu_insn insn σ = None.
Proof. unfold step_alu_insn; destruct (jumptable _); cbn; intros; discriminate || reflexivity. Qed.

(** The label of an ALU instruction, by the shape of the check. *)
Inductive alu_shape (insn : bpf_insn) : label -> Prop :=
| shape_binary w op o : w = 32 \/ w = 64 -> op <> MOV -> insn_w insn = w -> BPF_OP (insn_code insn) = alu_code op ->
    BPF_SRC (insn_code insn) = src_code o -> (forall env, check_alu_op insn env = check_alu_binary insn env) -> alu_shape insn (alu_label w op o)
| shape_mov w o : w = 32 \/ w = 64 -> insn_w insn = w -> BPF_SRC (insn_code insn) = src_code o ->
    (forall env, check_alu_op insn env = check_alu_mov insn env) -> alu_shape insn (alu_label w MOV o)
| shape_unary l : In l [L_ALU_NEG; L_ALU64_NEG; L_ALU_END_TO_BE; L_ALU_END_TO_LE] ->
    (forall env, check_alu_op insn env = check_alu_unary insn env) -> alu_shape insn l.

Lemma alu_label_shape insn w op o : uin 8 (insn_code insn) -> w = 32 \/ w = 64 ->
  jumptable (insn_code insn) = alu_label w op o -> alu_shape insn (alu_label w op o).
Proof.
  intros Hc Hw Hl; destruct (alu_label_code w op o insn Hw Hc Hl) as (E1 & E2 & E3).
  assert (M : op = MOV \/ op <> MOV) by (destruct op; auto; right; discriminate); destruct M as [-> | N].
  - apply shape_mov; trivial; intros; unfold check_alu_op; rewrite E2; reflexivity.
  - apply shape_binary; trivial; intros; unfold check_alu_op; rewrite E2.
    destruct (alu_code_binary op N) as (-> & -> & ->); reflexivity.
Qed.

Lemma alu_insn_shape insn : uin 8 (insn_code insn) ->
  (exists l, jumptable (insn_code insn) = l /\ alu_shape insn l) \/ is_alu_label (jumptable (insn_code insn)) = false.
Proof.
  intros Hc; pose proof (jumptable_code _ Hc) as J.
  destruct (jumptable (insn_code insn)) as [op o|op o| | | | | | |? ?|? ?| |?|?|?|?| | | | |?|] eqn:L; try (right; reflexivity); left;
    eexists; (split; [reflexivity|]); cbn in J.
  - apply (alu_label_shape insn 32 op o); auto.
  - apply (alu_label_shape insn 64 op o); auto.
  - apply shape_unary; [cbn; tauto|]; intros; unfold check_alu_op; rewrite J; reflexivity.
  - apply shape_unary; [cbn; tauto|]; intros; unfold check_alu_op; rewrite J; reflexivity.
  - apply shape_unary; [cbn; tauto|]; intros; unfold check_alu_op; rewrite J; reflexivity.
  - apply shape_unary; [cbn; tauto|]; intros; unfold check_alu_op; rewrite J; reflexivity.
Qed.

Lemma step_alu_label insn w op o σ : w = 32 \/ w = 64 -> jumptable (insn_code insn) = alu_label w op o ->
  step_alu_insn insn σ = step_alu w op o insn σ.
Proof. intros Hw Hl; unfold step_alu_insn; rewrite Hl; destruct Hw as [-> | ->]; reflexivity. Qed.

(** Register numbers of an accepted instruction. *)
Lemma binary_regnos insn env u env' : insn_ok insn -> check_alu_binary insn env = (inr u, env') ->
  BPF_SRC (insn_code insn) = BPF_X \/ BPF_SRC (insn_code insn) = BPF_K -> regno_ok (insn_dst insn) /\ regno_ok (insn_src insn).
Proof.
  intros (_ & [D0 _] & [S0 _] & _) H Hs; unfold check_alu_binary in H; run H.
  assert (P : exists o, BPF_SRC (insn_code insn) = src_code o) by (destruct Hs; [exists X|exists K]; assumption).
  destruct P as [o Ho]; rewrite Ho in R; apply src_part_ok in R; [|exact S0]; destruct R as (_ & Hsr & _).
  run H; apply src_op_ok in R; destruct R as (D1 & _); split; [unfold regno_ok; lia|exact Hsr].
Qed.

Lemma mov_regnos insn env u env' : insn_ok insn -> env_wf env -> check_alu_mov insn env = (inr u, env') ->
  BPF_SRC (insn_code insn) = BPF_X \/ BPF_SRC (insn_code insn) = BPF_K -> regno_ok (insn_dst insn) /\ regno_ok (insn_src insn).
Proof.
  intros (_ & [D0 _] & [S0 _] & _) W H Hs; unfold check_alu_mov in H; run H.
  assert (P : exists o, BPF_SRC (insn_code insn) = src_code o) by (destruct Hs; [exists X|exists K]; assumption).
  destruct P as [o Ho]; rewrite Ho in R; apply src_part_ok in R; [|exact S0]; destruct R as (E1 & Hsr & _).
  run H; apply dst_op_ok in R; [|rewrite E1; exact W|exact D0]; destruct R as (D1 & _); split; [unfold regno_ok; lia|exact Hsr].
Qed.

Lemma unary_regno insn env u env' : insn_ok insn -> check_alu_unary insn env = (inr u, env') -> regno_ok (insn_dst insn).
Proof.
  intros (_ & [D0 _] & _) H; unfold check_alu_unary in H.
  match type of H with (if ?c then _ else _) _ = _ => destruct c; [discriminate|] end.
  run H; apply src_op_ok in R; destruct R as (D1 & _); unfold regno_ok; lia.
Qed.

(** The two-operand labels: the machine step is [alu_exec] into [dst]. *)
Lemma label_step insn w op o σ σ' env β : regs_sim env σ β -> regno_ok (insn_dst insn) -> regno_ok (insn_src insn) ->
  w = 32 \/ w = 64 -> step_alu w op o insn σ = Some σ' ->
  exists DST SRC r, reg_get σ (insn_dst insn) = Some DST /\ src_get o σ insn = Some SRC /\
    alu_exec w op o DST SRC (insn_imm insn) = Some r /\ machine_upd σ (insn_dst insn) r σ'.
Proof.
  intros [L S] Hd Hs Hw H; destruct (S _ Hd) as (DST & HD & _); destruct (S _ Hs) as (SV & HSV & _).
  assert (P : exists SRC, src_get o σ insn = Some SRC) by (destruct o; [exists SV; exact HSV|exists 0; reflexivity]).
  destruct P as [SRC HS]; exists DST, SRC; destruct (alu_exec w op o DST SRC (insn_imm insn)) as [r|] eqn:E.
  - destruct (step_alu_some w op o insn σ DST SRC Hw L Hd Hs HD HS r E) as (σ2 & E2 & M); exists r.
    rewrite H in E2; injection E2 as ->; auto.
  - rewrite (step_alu_none w op o insn σ DST SRC Hw L Hd Hs HD HS E) in H; discriminate.
Qed.

Lemma unary_range insn l DST : uin 64 DST ->
  match l with
  | L_ALU_NEG => uin 64 (alu_neg 32 DST)
  | L_ALU64_NEG => uin 64 (alu_neg 64 DST)
  | L_ALU_END_TO_BE => uin 64 (alu_end_to_be (insn_imm insn) DST)
  | L_ALU_END_TO_LE => uin 64 (alu_end_to_le (insn_imm insn) DST)
  | _ => True
  end.
Proof.
  intros Hu; assert (U : forall w z, w = 16 \/ w = 32 \/ w = 64 -> uin 64 (uwrap w z))
    by (intros w z Hw; apply (uin_le w); [lia|apply uwrap_range; lia]).
  destruct l; trivial; unfold alu_neg, alu_end_to_be, alu_end_to_le; repeat case_match; auto.
Qed.

Lemma unary_step insn l σ σ' env β : regs_sim env σ β -> regno_ok (insn_dst insn) -> jumptable (insn_code insn) = l ->
  In l [L_ALU_NEG; L_ALU64_NEG; L_ALU_END_TO_BE; L_ALU_END_TO_LE] -> step_alu_insn insn σ = Some σ' ->
  exists r, uin 64 r /\ machine_upd σ (insn_dst insn) r σ'.
Proof.
  intros [L S] Hd Hl Hin H; destruct (S _ Hd) as (DST & HD & Hu & _); pose proof (unary_range insn l DST Hu) as U.
  unfold step_alu_insn in H; rewrite Hl in H; unfold step_unary in H; rewrite HD in H; cbn [mbind option_bind] in H.
  assert (D : 0 <= insn_dst insn < 12) by (unfold regno_ok in Hd; lia); pose proof (machine_upd_set σ (insn_dst insn)) as M.
  cbn in Hin; destruct Hin as [<-|[<-|[<-|[<-|[]]]]]; rewrite reg_set_upd in H by assumption; injection H as <-; eauto.
Qed.

Lemma src_code_cases o : src_code o = BPF_X \/ src_code o = BPF_K.
Proof. destruct o; auto. Qed.

Lemma check_alu_sound insn env u env' σ σ' β : insn_ok insn -> env_wf env -> regs_sim env σ β ->
  check_alu_op insn env = (inr u, env') -> step_alu_insn insn σ = Some σ' ->
  env_wf env' /\ exists β', regs_sim env' σ' β' /\ no_new_base β β'.
Proof.
  intros Hok W S H Hst; assert (Hc : uin 8 (insn_code insn)) by apply Hok.
  destruct (alu_insn_shape insn Hc) as [(l & Hl & Sh)|N]; [|rewrite not_alu_step in Hst by exact N; discriminate].
  assert (G : exists r, step_sim σ β (insn_dst insn) r env' /\ machine_upd σ (insn_dst insn) r σ').
  { destruct Sh as [w op o Hw Hm E1 E2 E3 E4|w o Hw E1 E3 E4|l Hin E4]; rewrite E4 in H.
    - rewrite (step_alu_label _ _ _ _ _ Hw Hl) in Hst.
      destruct (binary_regnos _ _ _ _ Hok H) as [Hd Hs]; [rewrite E3; apply src_code_cases|].
      destruct (label_step _ _ _ _ _ _ _ _ S Hd Hs Hw Hst) as (DST & SRC & r & HD & HS & Hr & M).
      exists r; split; [eapply binary_sound; eassumption|exact M].
    - rewrite (step_alu_label _ _ _ _ _ Hw Hl) in Hst.
      destruct (mov_regnos _ _ _ _ Hok W H) as [Hd Hs]; [rewrite E3; apply src_code_cases|].
      destruct (label_step _ _ _ _ _ _ _ _ S Hd Hs Hw Hst) as (DST & SRC & r & HD & HS & Hr & M).
      exists r; split; [eapply mov_sound; eassumption|exact M].
    - pose proof (unary_regno _ _ _ _ Hok H) as Hd.
      destruct (unary_step _ _ _ _ _ _ S Hd Hl Hin Hst) as (r & Hr & M).
      exists r; split; [eapply unary_sound; eassumption|exact M]. }
  destruct G as (r & [W' G] & M); split; [exact W'|apply (G σ' M)].
Qed.

(** ** Accepted instructions are defined *)

Definition alu_class (code : Z) : bool := (BPF_CLASS code =? BPF_ALU) || (BPF_CLASS code =? BPF_ALU64).

(** The encodings [check_alu_op] refuses by their opcode alone. *)
Definition alu_refused (code : Z) : bool :=
  (BPF_OP code >? BPF_END) || ((BPF_OP code =? BPF_END) && (BPF_CLASS code =? BPF_ALU64)) ||
  ((BPF_OP code =? BPF_NEG) && negb (BPF_SRC code =? 0)).

Lemma alu_class_label code : uin 8 code -> alu_class code = true -> alu_refused code = false -> is_alu_label (jumptable code) = true.
Proof.
  intros Hc H1 H2; assert (E : implb (alu_class code && negb (alu_refused code)) (is_alu_label (jumptable code)) = true).
  { clear H1 H2; revert code Hc; apply all_codes; vm_compute; reflexivity. }
  rewrite H1, H2 in E; exact E.
Qed.

Lemma alu_refused_fails insn env u env' : alu_refused (insn_code insn) = true -> check_alu_op insn env = (inr u, env') -> False.
Proof.
  unfold alu_refused, check_alu_op, check_alu_unary; intros A H.
  destruct (Z.eqb_spec (BPF_OP (insn_code insn)) BPF_END) as [E|N1]; cbn [orb andb] in *.
  - rewrite E in *; cbn in A, H; destruct (_ =? BPF_ALU64); [|discriminate].
    rewrite !orb_true_r in H; discriminate.
  - destruct (Z.eqb_spec (BPF_OP (insn_code insn)) BPF_NEG) as [E|N2]; cbn [orb andb] in *.
    + rewrite E in A; cbn in A; rewrite A in H; discriminate.
    + rewrite !orb_false_r in A; destruct (Z.eqb_spec (BPF_OP (insn_code insn)) BPF_MOV) as [E|N3]; [rewrite E in A; discriminate|].
      rewrite A in H; discriminate.
Qed.

Lemma alu_exec_none w op o DST SRC IMM : alu_exec w op o DST SRC IMM = None ->
  ((op = LSH \/ op = RSH \/ op = ARSH) /\ o = K /\ ~ (0 <= IMM < w)) \/
  ((op = DIV \/ op = MOD) /\ uwrap w (match o with X => SRC | K => IMM end) = 0).
Proof.
  unfold alu_exec; destruct op; try discriminate; intros H.
  1,2,3: left; split; [auto|]; unfold shift_amount in H; destruct o; [discriminate|]; split; [reflexivity|];
    destruct (Z.leb_spec 0 IMM), (Z.ltb_spec IMM w); cbn in H; try discriminate; lia.
  all: right; split; [auto|]; destruct (Z.eqb_spec (uwrap w (match o with X => SRC | K => IMM end)) 0); [assumption|discriminate].
Qed.

(** What [check_alu_binary] refuses of immediates. *)
Lemma binary_imm insn env u env' op w : check_alu_binary insn env = (inr u, env') -> insn_w insn = w ->
  BPF_OP (insn_code insn) = alu_code op -> BPF_SRC (insn_code insn) = BPF_K ->
  ((op = LSH \/ op = RSH \/ op = ARSH) -> 0 <= insn_imm insn < w) /\ ((op = DIV \/ op = MOD) -> insn_imm insn <> 0).
Proof.
  intros H Hw Hop Hk; unfold check_alu_binary in H; rewrite Hop, Hk in H; run H; run H.
  match type of H with (if ?c then _ else _) _ = _ => destruct c eqn:C1; [discriminate|] end.
  match type of H with (if ?c then _ else _) _ = _ => destruct c eqn:C2; [discriminate|] end.
  fold (insn_w insn) in C2; rewrite Hw in C2; split; intros Hcase.
  - assert (B : (insn_imm insn <? 0) || (insn_imm insn >=? w) = false) by (destruct Hcase as [-> | [-> | ->]]; exact C2).
    apply orb_false_iff in B; destruct B as [B1 B2]; destruct (Z.ltb_spec (insn_imm insn) 0), (Z.geb_spec (insn_imm insn) w); try discriminate; lia.
  - assert (B : (insn_imm insn =? 0) = false) by (destruct Hcase as [-> | ->]; exact C1); apply Z.eqb_neq, B.
Qed.

Lemma imm_nonzero w i : w = 32 \/ w = 64 -> sin 32 i -> i <> 0 -> uwrap w i <> 0.
Proof.
  unfold sin, uwrap; intros Hw Hi Hn E; apply Z.mod_divide in E; [|destruct Hw as [-> | ->]; lia].
  destruct E as [k E]; destruct Hw as [-> | ->]; nia.
Qed.

(** Division by a register that holds zero. *)
Definition div_by_zero (insn : bpf_insn) (σ : list Z) : Prop :=
  exists w op SRC, (w = 32 \/ w = 64) /\ jumptable (insn_code insn) = alu_label w op X /\ (op = DIV \/ op = MOD) /\
    reg_get σ (insn_src insn) = Some SRC /\ uwrap w SRC = 0.

Lemma binary_defined insn env u env' σ β w op o : insn_ok insn -> regs_sim env σ β -> check_alu_binary insn env = (inr u, env') ->
  w = 32 \/ w = 64 -> insn_w insn = w -> BPF_OP (insn_code insn) = alu_code op -> BPF_SRC (insn_code insn) = src_code o ->
  jumptable (insn_code insn) = alu_label w op o -> (exists σ', step_alu_insn insn σ = Some σ') \/ div_by_zero insn σ.
Proof.
  intros Hok [L S] H Hw E1 E2 E3 Hl; rewrite (step_alu_label _ _ _ _ _ Hw Hl).
  destruct (binary_regnos _ _ _ _ Hok H) as [Hd Hs]; [rewrite E3; apply src_code_cases|].
  destruct (S _ Hd) as (DST & HD & _); destruct (S _ Hs) as (SV & HSV & _).
  assert (P : exists SRC, src_get o σ insn = Some SRC) by (destruct o; [exists SV; exact HSV|exists 0; reflexivity]).
  destruct P as [SRC HS]; destruct (alu_exec w op o DST SRC (insn_imm insn)) as [r|] eqn:E.
  - left; destruct (step_alu_some w op o insn σ DST SRC Hw L Hd Hs HD HS r E) as (σ' & Hst & _); eauto.
  - right; apply alu_exec_none in E; destruct E as [(Hsh & -> & Hi)|(Hdm & Hz)].
    + exfalso; apply Hi; eapply binary_imm; eassumption.
    + destruct o; [exists w, op, SRC; auto 6|exfalso].
      apply (imm_nonzero w (insn_imm insn) Hw); [apply Hok| |exact Hz]; eapply binary_imm; eassumption.
Qed.

Lemma check_alu_defined insn env u env' σ β : insn_ok insn -> env_wf env -> regs_sim env σ β ->
  alu_class (insn_code insn) = true -> check_alu_op insn env = (inr u, env') ->
  (exists σ', step_alu_insn insn σ = Some σ') \/ div_by_zero insn σ.
Proof.
  intros Hok W S Hcl H; assert (Hc : uin 8 (insn_code insn)) by apply Hok.
  destruct (alu_refused (insn_code insn)) eqn:Rf; [exfalso; eapply alu_refused_fails; eassumption|].
  pose proof (alu_class_label _ Hc Hcl Rf) as Lb; destruct (alu_insn_shape insn Hc) as [(l & Hl & Sh)|N].
  - destruct Sh as [w op o Hw Hm E1 E2 E3 E4|w o Hw E1 E3 E4|l Hin E4]; rewrite E4 in H.
    + eapply binary_defined; eassumption.
    + rewrite (step_alu_label _ _ _ _ _ Hw Hl); destruct (mov_regnos _ _ _ _ Hok W H) as [Hd Hs]; [rewrite E3; apply src_code_cases|].
      pose proof S as [L S']; destruct (S' _ Hd) as (DST & HD & _); destruct (S' _ Hs) as (SV & HSV & _).
      assert (P : exists SRC, src_get o σ insn = Some SRC) by (destruct o; [exists SV; exact HSV|exists 0; reflexivity]).
      destruct P as [SRC HS]; left; edestruct (step_alu_some w MOV o insn σ DST SRC Hw L Hd Hs HD HS) as (σ' & Hst & _); [reflexivity|eauto].
    + left; pose proof (unary_regno _ _ _ _ Hok H) as Hd; pose proof S as [L S']; destruct (S' _ Hd) as (DST & HD & _).
      unfold step_alu_insn; rewrite Hl; unfold step_unary; rewrite HD; cbn [mbind option_bind].
      assert (D : 0 <= insn_dst insn < 12) by (unfold regno_ok in Hd; lia).
      cbn in Hin; destruct Hin as [<-|[<-|[<-|[<-|[]]]]]; rewrite reg_set_upd by assumption; eauto.
  - rewrite N in Lb; discriminate.
Qed.
