(* ===== verification/CondJmp.v ===== *)
(** Conditional jumps: [check_cond_jmp_op] of kernel/bpf/verifier.c and the
    passes it runs over the registers and spilled registers of the two states
    it leaves behind, the current one (fall-through) and the one pushed on the
    exploration stack (branch taken). *)
From Stdlib Require Import ZArith Lia Bool.
From stdpp Require Import base list gmap.
From S2P Require Import Prelude Bits Tnum Bounds RegState Insn Env Branch MemAccess RegArg Precision Alu.

Local Open Scope Z_scope.
Local Open Scope kint_scope.

Abbreviation MAX_PACKET_OFF := 0xffff.
Abbreviation BPF_MAP_TYPE_SOCKMAP := 15.
Abbreviation BPF_MAP_TYPE_XSKMAP := 17.
Abbreviation BPF_MAP_TYPE_SOCKHASH := 18.

(** ** Passes over a verifier state *)

(** [bpf_for_each_spilled_reg]. *)
Definition upd_spilled (f : bpf_reg_state -> bpf_reg_state) (s : bpf_stack_state) : bpf_stack_state :=
  if bool_decide (slot_type s !! 0%nat = Some STACK_SPILL) then set_spilled_ptr s (f (spilled_ptr s)) else s.

Definition upd_func_regs (f : bpf_reg_state -> bpf_reg_state) (fn : bpf_func_state) : bpf_func_state :=
  let fn := set_regs fn (f <$> regs fn) in
  set_stack fn (upd_spilled f <$> stack fn).

(** Frames [0..curframe]. *)
Definition upd_frames (f : bpf_func_state -> bpf_func_state) (st : bpf_verifier_state) : bpf_verifier_state :=
  set_frame st (imap (fun i fn => if decide (i <= curframe st)%nat then f fn else fn) (frame st)).

Definition st_func (st : bpf_verifier_state) : bpf_func_state := frame st !!! curframe st.
Definition st_reg (st : bpf_verifier_state) (r : Z) : bpf_reg_state := regs (st_func st) !!! Z.to_nat r.

Definition upd_st_regs (f : list bpf_reg_state -> list bpf_reg_state) (st : bpf_verifier_state) : bpf_verifier_state :=
  set_frame st (alter (fun fn => set_regs fn (f (regs fn))) (curframe st) (frame st)).

Definition __find_good_pkt_pointers (dst_reg : bpf_reg_state) (type : bpf_reg_type) (new_range : Z) (fn : bpf_func_state) : bpf_func_state :=
  upd_func_regs (fun reg =>
    if type_eqb (type_ reg) type && (id reg =? id dst_reg) then set_raw reg (Z.max (u16 (raw reg)) new_range) else reg) fn.

(** The [range] marked in the state where the packet bound is known to hold. *)
Definition good_pkt_range (dst_reg : bpf_reg_state) (range_right_open : bool) : option Z :=
  if (off dst_reg <? 0) || ((off dst_reg =? 0) && range_right_open) then None
  else if (umax_value dst_reg >? MAX_PACKET_OFF) || (u64 (umax_value dst_reg + off dst_reg) >? MAX_PACKET_OFF) then None
  else
    let new_range := u16 (off dst_reg) in
    Some (if range_right_open then u16 (new_range + 1) else new_range).

Definition find_good_pkt_pointers (dst_reg : bpf_reg_state) (type : bpf_reg_type) (range_right_open : bool)
    (vstate : bpf_verifier_state) : bpf_verifier_state :=
  match good_pkt_range dst_reg range_right_open with
  | None => vstate
  | Some new_range => upd_frames (__find_good_pkt_pointers dst_reg type new_range) vstate
  end.

Definition reg_may_point_to_spin_lock (maps : gmap Z bpf_map) (reg : bpf_reg_state) : bool :=
  type_eqb (type_ reg) PTR_TO_MAP_VALUE && map_value_has_spin_lock (maps !!! raw reg).

Definition reg_is_init_pkt_pointer (reg : bpf_reg_state) (which : bpf_reg_type) : bool :=
  type_eqb (type_ reg) which && (id reg =? 0) && (off reg =? 0) && tnum_equals_const (var_off reg) 0.

(** The type a checked pointer gets. *)
Definition not_null_type (maps : gmap Z bpf_map) (reg : bpf_reg_state) : bpf_reg_state :=
  match type_ reg with
  | PTR_TO_MAP_VALUE_OR_NULL =>
    let map := maps !!! raw reg in
    if negb (inner_map_meta map =? 0) then set_raw (set_type reg CONST_PTR_TO_MAP) (inner_map_meta map)
    else if map_type map =? BPF_MAP_TYPE_XSKMAP then set_type reg PTR_TO_XDP_SOCK
    else if (map_type map =? BPF_MAP_TYPE_SOCKMAP) || (map_type map =? BPF_MAP_TYPE_SOCKHASH) then set_type reg PTR_TO_SOCKET
    else set_type reg PTR_TO_MAP_VALUE
  | PTR_TO_SOCKET_OR_NULL => set_type reg PTR_TO_SOCKET
  | PTR_TO_SOCK_COMMON_OR_NULL => set_type reg PTR_TO_SOCK_COMMON
  | PTR_TO_TCP_SOCK_OR_NULL => set_type reg PTR_TO_TCP_SOCK
  | PTR_TO_BTF_ID_OR_NULL => set_type reg PTR_TO_BTF_ID
  | PTR_TO_MEM_OR_NULL => set_type reg PTR_TO_MEM
  | PTR_TO_RDONLY_BUF_OR_NULL => set_type reg PTR_TO_RDONLY_BUF
  | PTR_TO_RDWR_BUF_OR_NULL => set_type reg PTR_TO_RDWR_BUF
  | _ => reg
  end.

Definition mark_ptr_or_null_reg (maps : gmap Z bpf_map) (id_ : Z) (is_null : bool) (reg : bpf_reg_state) : bpf_reg_state :=
  if reg_type_may_be_null (type_ reg) && (id reg =? id_) && negb (id reg =? 0) then
    if negb (smin_value reg =? 0) || negb (smax_value reg =? 0) || negb (tnum_equals_const (var_off reg) 0) || negb (off reg =? 0)
    then reg
    else
      let reg := if is_null then set_type reg SCALAR_VALUE else not_null_type maps reg in
      if is_null then set_ref_obj_id (set_id reg 0) 0
      else if negb (reg_may_point_to_spin_lock maps reg) then set_id reg 0
      else reg
  else reg.

Definition __mark_ptr_or_null_regs (maps : gmap Z bpf_map) (id_ : Z) (is_null : bool) (fn : bpf_func_state) : bpf_func_state :=
  upd_func_regs (mark_ptr_or_null_reg maps id_ is_null) fn.

(** The references held by a frame: the last one takes the place of the one
    released.  [None] is [-EINVAL]. *)
Fixpoint ref_index (ptr_id : Z) (rs : list bpf_reference_state) : option nat :=
  match rs with
  | [] => None
  | r :: rs => if ref_id r =? ptr_id then Some 0%nat else S <$> ref_index ptr_id rs
  end.

Definition release_reference_state (ptr_id : Z) (rs : list bpf_reference_state) : option (list bpf_reference_state) :=
  let last_idx := (length rs - 1)%nat in
  i ← ref_index ptr_id rs;
  last ← rs !! last_idx;
  Some (take last_idx (<[i := last]> rs)).

Definition mark_ptr_or_null_regs (maps : gmap Z bpf_map) (regno : Z) (is_null : bool) (vstate : bpf_verifier_state) : bpf_verifier_state :=
  let reg := st_reg vstate regno in
  let vstate :=
    if negb (ref_obj_id reg =? 0) && (ref_obj_id reg =? id reg) && is_null then
      match release_reference_state (id reg) (refs (st_func vstate)) with
      | Some rs => set_frame vstate (alter (fun fn => set_refs fn rs) (curframe vstate) (frame vstate))
      | None => vstate
      end
    else vstate in
  upd_frames (__mark_ptr_or_null_regs maps (id reg) is_null) vstate.

(** The whole structure is copied over every register with the same id. *)
Definition find_equal_scalars (known_reg : bpf_reg_state) (vstate : bpf_verifier_state) : bpf_verifier_state :=
  upd_frames (upd_func_regs (fun reg =>
    if type_eqb (type_ reg) SCALAR_VALUE && (id reg =? id known_reg) then known_reg else reg)) vstate.

(** ** The two branches *)

Definition upd_this (f : bpf_verifier_state -> bpf_verifier_state) (env : bpf_verifier_env) : bpf_verifier_env :=
  set_cur_state env (f (cur_state env)).

(** The state on top of the exploration stack. *)
Definition upd_other (f : bpf_verifier_state -> bpf_verifier_state) (env : bpf_verifier_env) : bpf_verifier_env :=
  match head env with
  | [] => env
  | e :: l => set_head env (mk_elem (f (elem_st e)) (elem_insn_idx e) (elem_prev_insn_idx e) :: l)
  end.

#[global] Instance state_inhabited : Inhabited bpf_verifier_state := populate (mk_state [] 0 0 0%nat 0 false 0 0 []).

Definition other_state (env : bpf_verifier_env) : bpf_verifier_state :=
  match head env with [] => inhabitant | e :: _ => elem_st e end.

Definition other_reg (env : bpf_verifier_env) (r : Z) : bpf_reg_state := st_reg (other_state env) r.

Definition put_other (r : Z) (v : bpf_reg_state) (env : bpf_verifier_env) : bpf_verifier_env :=
  upd_other (upd_st_regs (fun rs => <[Z.to_nat r := v]> rs)) env.

(** Which of the two branches learns that the packet pointer is in bounds:
    [Some (this, reg, right_open)]. *)
Definition pkt_match (insn : bpf_insn) (dst_reg src_reg : bpf_reg_state) : option (bool * bpf_reg_state * bool) :=
  let ptr_first :=
    (type_eqb (type_ dst_reg) PTR_TO_PACKET && type_eqb (type_ src_reg) PTR_TO_PACKET_END) ||
    (type_eqb (type_ dst_reg) PTR_TO_PACKET_META && reg_is_init_pkt_pointer src_reg PTR_TO_PACKET) in
  let end_first :=
    (type_eqb (type_ dst_reg) PTR_TO_PACKET_END && type_eqb (type_ src_reg) PTR_TO_PACKET) ||
    (reg_is_init_pkt_pointer dst_reg PTR_TO_PACKET && type_eqb (type_ src_reg) PTR_TO_PACKET_META) in
  let opcode := BPF_OP (insn_code insn) in
  if opcode =? BPF_JGT then
    if ptr_first then Some (true, dst_reg, false) else if end_first then Some (false, src_reg, true) else None
  else if opcode =? BPF_JLT then
    if ptr_first then Some (false, dst_reg, true) else if end_first then Some (true, src_reg, false) else None
  else if opcode =? BPF_JGE then
    if ptr_first then Some (true, dst_reg, true) else if end_first then Some (false, src_reg, false) else None
  else if opcode =? BPF_JLE then
    if ptr_first then Some (false, dst_reg, false) else if end_first then Some (true, src_reg, true) else None
  else None.

Definition try_match_pkt_pointers (insn : bpf_insn) : verifier bool :=
  dst_reg ← reg_of (insn_dst insn);
  src_reg ← reg_of (insn_src insn);
  if negb (BPF_SRC (insn_code insn) =? BPF_X) then mret false
  else if BPF_CLASS (insn_code insn) =? BPF_JMP32 then mret false
  else match pkt_match insn dst_reg src_reg with
  | Some (this, reg, right_open) =>
    _ ← modify ((if this : bool then upd_this else upd_other) (find_good_pkt_pointers reg (type_ reg) right_open));
    mret true
  | None => mret false
  end.

(** ** [check_cond_jmp_op] *)

(** The operands. *)
Definition cond_jmp_operands (insn : bpf_insn) : verifier unit :=
  _ ← (if BPF_SRC (insn_code insn) =? BPF_X then
         if negb (insn_imm insn =? 0) then fail (- EINVAL)
         else
           _ ← check_reg_arg (insn_src insn) SRC_OP;
           ptr ← is_pointer_value (insn_src insn);
           if (ptr : bool) then fail (- EACCES) else mret ()
       else
         if negb (insn_src insn =? BPF_REG_0) then fail (- EINVAL) else mret ());
  check_reg_arg (insn_dst insn) SRC_OP.

(** The direction of the jump if it is known. *)
Definition cond_jmp_pred (insn : bpf_insn) (dst_reg src_reg : bpf_reg_state) : Z :=
  let opcode := BPF_OP (insn_code insn) in
  let is_jmp32 := BPF_CLASS (insn_code insn) =? BPF_JMP32 in
  if BPF_SRC (insn_code insn) =? BPF_K then is_branch_taken dst_reg (u64 (insn_imm insn)) opcode is_jmp32
  else if type_eqb (type_ src_reg) SCALAR_VALUE && is_jmp32 && tnum_is_const (tnum_subreg (var_off src_reg)) then
    is_branch_taken dst_reg (value (tnum_subreg (var_off src_reg))) opcode is_jmp32
  else if type_eqb (type_ src_reg) SCALAR_VALUE && negb is_jmp32 && tnum_is_const (var_off src_reg) then
    is_branch_taken dst_reg (value (var_off src_reg)) opcode is_jmp32
  else -1.

(** The jump follows one branch only; the other one is explored for
    speculative execution. *)
Definition cond_jmp_known (insn : bpf_insn) (pred : Z) : verifier unit :=
  env ← get;
  let next := if pred =? 1 then insn_idx env + 1 else insn_idx env + insn_off insn + 1 in
  ok ← (if bypass_spec_v1 env then mret true else sanitize_speculative_path (Some insn) next (insn_idx env));
  if negb ok then fail (- EFAULT)
  else when (pred =? 1) (modify (fun env => set_insn_idx env (insn_idx env + insn_off insn))).

(** The new [(true_reg, false_reg)] of register [r]. *)
Definition put_branches (r : Z) (tf : bpf_reg_state * bpf_reg_state) : verifier unit :=
  modify (fun env => put_other r tf.1 (put_reg env r tf.2)).

Definition equal_scalars (r : Z) : verifier unit := modify (fun env =>
  let reg := get_reg env r in
  if negb (id reg =? 0) && (id reg =? id (other_reg env r))
  then upd_other (find_equal_scalars (other_reg env r)) (upd_this (find_equal_scalars reg) env)
  else env).

(** Two scalar registers are compared. *)
Definition cond_jmp_scalars (insn : bpf_insn) (dst_reg src_reg : bpf_reg_state) : verifier unit :=
  let opcode := BPF_OP (insn_code insn) in
  let is_jmp32 := BPF_CLASS (insn_code insn) =? BPF_JMP32 in
  let dst := insn_dst insn in
  let src := insn_src insn in
  let is_const (reg : bpf_reg_state) := tnum_is_const (var_off reg) || (is_jmp32 && tnum_is_const (tnum_subreg (var_off reg))) in
  env ← get;
  if is_const src_reg then
    put_branches dst (reg_set_min_max (other_reg env dst) dst_reg (value (var_off src_reg))
                        (u32 (value (tnum_subreg (var_off src_reg)))) opcode is_jmp32)
  else if is_const dst_reg then
    put_branches src (reg_set_min_max_inv (other_reg env src) src_reg (value (var_off dst_reg))
                        (u32 (value (tnum_subreg (var_off dst_reg)))) opcode is_jmp32)
  else when (negb is_jmp32 && ((opcode =? BPF_JEQ) || (opcode =? BPF_JNE)))
    (modify (fun env =>
       let tf := reg_combine_min_max src dst opcode (regs (st_func (other_state env))) (cur_regs env) in
       upd_other (upd_st_regs (fun _ => tf.1)) (upd_this (upd_st_regs (fun _ => tf.2)) env))).

(** What the comparison says about the operands, in both branches. *)
Definition cond_jmp_refine (insn : bpf_insn) : verifier unit :=
  let opcode := BPF_OP (insn_code insn) in
  let is_jmp32 := BPF_CLASS (insn_code insn) =? BPF_JMP32 in
  let dst := insn_dst insn in
  env ← get;
  dst_reg ← reg_of dst;
  src_reg ← reg_of (insn_src insn);
  _ ← (if BPF_SRC (insn_code insn) =? BPF_X then
         when (type_eqb (type_ dst_reg) SCALAR_VALUE && type_eqb (type_ src_reg) SCALAR_VALUE)
           (_ ← cond_jmp_scalars insn dst_reg src_reg; equal_scalars (insn_src insn))
       else when (type_eqb (type_ dst_reg) SCALAR_VALUE)
         (put_branches dst (reg_set_min_max (other_reg env dst) dst_reg (u64 (insn_imm insn)) (u32 (insn_imm insn)) opcode is_jmp32)));
  dst_reg ← reg_of dst;
  when (type_eqb (type_ dst_reg) SCALAR_VALUE) (equal_scalars dst).

(** What it says about pointers. *)
Definition cond_jmp_pointers (insn : bpf_insn) : verifier unit :=
  let opcode := BPF_OP (insn_code insn) in
  let dst := insn_dst insn in
  dst_reg ← reg_of dst;
  if negb (BPF_CLASS (insn_code insn) =? BPF_JMP32) && (BPF_SRC (insn_code insn) =? BPF_K) && (insn_imm insn =? 0) &&
     ((opcode =? BPF_JEQ) || (opcode =? BPF_JNE)) && reg_type_may_be_null (type_ dst_reg)
  then
    _ ← modify (fun env => upd_this (mark_ptr_or_null_regs (maps env) dst (opcode =? BPF_JNE)) env);
    modify (fun env => upd_other (mark_ptr_or_null_regs (maps env) dst (opcode =? BPF_JEQ)) env)
  else
    matched ← try_match_pkt_pointers insn;
    ptr ← is_pointer_value dst;
    if negb matched && ptr then fail (- EACCES) else mret ().

Definition check_cond_jmp_op (insn : bpf_insn) : verifier unit :=
  let opcode := BPF_OP (insn_code insn) in
  if (opcode =? BPF_JA) || (opcode >? BPF_JSLE) then fail (- EINVAL)
  else
    _ ← cond_jmp_operands insn;
    dst_reg ← reg_of (insn_dst insn);
    src_reg ← reg_of (insn_src insn);
    let pred := cond_jmp_pred insn dst_reg src_reg in
    if pred >=? 0 then
      _ ← when (negb (__is_pointer_value false dst_reg)) (mark_chain_precision (insn_dst insn));
      _ ← when (BPF_SRC (insn_code insn) =? BPF_X) (mark_chain_precision (insn_src insn));
      cond_jmp_known insn pred
    else
      env ← get;
      other ← push_stack (insn_idx env + insn_off insn + 1) (insn_idx env) false;
      if negb other then fail (- EFAULT)
      else
        _ ← cond_jmp_refine insn;
        cond_jmp_pointers insn.
