(* ===== verification/CondJmpSound.v ===== *)
(** Conditional jumps, in the verifier and in the interpreter.

    [state_sim st σ β] extends the simulation of [AluStep] to any verifier
    state and to register ids: two scalars, or two pointers that may be NULL,
    with the same nonzero id hold the same value.  After an accepted
    conditional jump, the state the machine goes on in (the current one, or the
    one pushed for the branch) still simulates the machine. *)
From Stdlib Require Import ZArith Lia Bool.
From stdpp Require Import base list gmap.
From S2P Require Import Prelude Bits Tnum Bounds RegState ScalarOps ScalarBits Insn Interp Env Branch MemAccess.
From S2P Require Import RegArg Precision Bookkeeping Alu AluSound PtrSound AluStep CondJmp.

Local Open Scope Z_scope.
Local Open Scope kint_scope.

(** ** States *)

Definition st_wf (st : bpf_verifier_state) : Prop :=
  (curframe st < length (frame st))%nat /\ length (regs (st_func st)) = 11%nat.

(** The id that ties registers to each other, with their kind. *)
Definition link (reg : bpf_reg_state) : option (bool * Z) :=
  if id reg =? 0 then None
  else if type_eqb (type_ reg) SCALAR_VALUE then Some (false, id reg)
  else if reg_type_may_be_null (type_ reg) then Some (true, id reg)
  else None.

Definition ids_agree (st : bpf_verifier_state) (σ : list Z) : Prop :=
  forall r1 r2 k, regno_ok r1 -> regno_ok r2 -> link (st_reg st r1) = Some k -> link (st_reg st r2) = Some k ->
  reg_get σ r1 = reg_get σ r2.

Definition state_sim (st : bpf_verifier_state) (σ : list Z) (β : Z -> Z) : Prop :=
  st_wf st /\ length σ = 12%nat /\
  (forall r, regno_ok r -> exists x, reg_get σ r = Some x /\ reg_sim (st_reg st r) (β r) x) /\
  ids_agree st σ.

(** Another state whose registers simulate the same values and have no new
    links. *)
Lemma state_sim_map st st' σ β : st_wf st' -> state_sim st σ β ->
  (forall r x, regno_ok r -> reg_get σ r = Some x -> reg_sim (st_reg st r) (β r) x ->
     reg_sim (st_reg st' r) (β r) x /\ (link (st_reg st' r) = None \/ link (st_reg st' r) = link (st_reg st r))) ->
  state_sim st' σ β.
Proof.
  intros W' (W & L & S & A) H; split; [exact W'|]; split; [exact L|]; split.
  - intros r Hr; destruct (S r Hr) as (x & Hx & Hs); exists x; split; [exact Hx|]; apply (H r x); assumption.
  - intros r1 r2 k H1 H2 K1 K2; apply (A r1 r2 k H1 H2).
    + destruct (S r1 H1) as (x & Hx & Hs); destruct (H r1 x H1 Hx Hs) as [_ [E|E]]; congruence.
    + destruct (S r2 H2) as (x & Hx & Hs); destruct (H r2 x H2 Hx Hs) as [_ [E|E]]; congruence.
Qed.

Lemma st_func_alter f st : (curframe st < length (frame st))%nat ->
  st_func (set_frame st (alter f (curframe st) (frame st))) = f (st_func st).
Proof.
  intros H; unfold st_func; cbn; apply lookup_lt_is_Some_2 in H; destruct H as [x Hx].
  rewrite (list_lookup_total_correct _ _ x Hx); apply list_lookup_total_correct; rewrite list_lookup_alter_eq, Hx; reflexivity.
Qed.

Lemma st_func_frames f st : (curframe st < length (frame st))%nat -> st_func (upd_frames f st) = f (st_func st).
Proof.
  intros H; unfold st_func, upd_frames; cbn; apply lookup_lt_is_Some_2 in H; destruct H as [x Hx].
  rewrite (list_lookup_total_correct _ _ x Hx); apply list_lookup_total_correct; rewrite list_lookup_imap, Hx; cbn.
  rewrite decide_True by lia; reflexivity.
Qed.

(** A pass over all registers. *)
Lemma pass_wf f st : st_wf st -> st_wf (upd_frames (upd_func_regs f) st).
Proof.
  intros [H L]; split; [cbn; rewrite length_imap; exact H|].
  rewrite st_func_frames by exact H; cbn; rewrite length_fmap; exact L.
Qed.

Lemma pass_reg f st r : st_wf st -> regno_ok r -> st_reg (upd_frames (upd_func_regs f) st) r = f (st_reg st r).
Proof.
  intros [H L] Hr; unfold st_reg; rewrite st_func_frames by exact H; cbn.
  apply list_lookup_total_fmap; rewrite L; unfold regno_ok in Hr; lia.
Qed.

(** A change of the current frame's registers. *)
Lemma upd_st_regs_wf f st : st_wf st -> length (f (regs (st_func st))) = 11%nat -> st_wf (upd_st_regs f st).
Proof.
  intros [H L] Hl; split; [cbn; rewrite length_alter; exact H|]; unfold upd_st_regs.
  rewrite st_func_alter by exact H; exact Hl.
Qed.

Lemma upd_st_regs_reg f st r : st_wf st -> st_reg (upd_st_regs f st) r = f (regs (st_func st)) !!! Z.to_nat r.
Proof. intros [H L]; unfold st_reg, upd_st_regs; rewrite st_func_alter by exact H; reflexivity. Qed.

Lemma insert_wf st r v : st_wf st -> st_wf (upd_st_regs (fun rs => <[Z.to_nat r := v]> rs) st).
Proof. intros W; apply upd_st_regs_wf; [exact W|]; rewrite length_insert; apply W. Qed.

Lemma insert_reg st r v j : st_wf st -> regno_ok r -> 0 <= j ->
  st_reg (upd_st_regs (fun rs => <[Z.to_nat r := v]> rs) st) j = if j =? r then v else st_reg st j.
Proof.
  intros W Hr Hj; rewrite upd_st_regs_reg by exact W; unfold regno_ok in Hr; destruct (Z.eqb_spec j r) as [->|N].
  - apply list_lookup_total_insert_eq; destruct W as [_ ->]; lia.
  - apply list_lookup_total_insert_ne; lia.
Qed.

(** ** Passes *)

(** The fields the simulation looks at. *)
Lemma reg_sim_ext reg reg' b x : type_ reg' = type_ reg -> off reg' = off reg -> var_off reg' = var_off reg ->
  b64 reg' = b64 reg -> b32 reg' = b32 reg -> reg_sim reg b x -> reg_sim reg' b x.
Proof.
  intros Et Eo Ev E64 E32 [Hu H]; split; [exact Hu|]; rewrite Et, Eo.
  assert (I : forall v, reg_inv reg v -> reg_inv reg' v)
    by (intros v; unfold reg_inv, reg_ok, reg_mem, reg_sync; rewrite Ev, E64, E32; trivial).
  destruct (type_ reg); auto; destruct H as (Ho & v & Hi & Hx); eauto.
Qed.

Lemma pkt_pass_sim reg ty ro st σ β : state_sim st σ β -> state_sim (find_good_pkt_pointers reg ty ro st) σ β.
Proof.
  intros S; unfold find_good_pkt_pointers; destruct (good_pkt_range reg ro) as [n|]; [|exact S].
  assert (W : st_wf st) by apply S; apply (state_sim_map st); [apply pass_wf, W|exact S|].
  intros r x Hr Hx Hs; unfold __find_good_pkt_pointers; rewrite pass_reg by assumption.
  match goal with |- context [if ?c then _ else _] => destruct c end; [|auto].
  split; [eapply reg_sim_ext; [..|exact Hs]; reflexivity|right; reflexivity].
Qed.

Lemma link_scalar reg k : type_ reg = SCALAR_VALUE -> id reg = k -> k <> 0 -> link reg = Some (false, k).
Proof. unfold link; intros -> -> N; destruct (Z.eqb_spec k 0); [contradiction|reflexivity]. Qed.

Lemma type_eqb_true t t' : type_eqb t t' = true <-> t = t'.
Proof. unfold type_eqb; destruct (bpf_reg_type_eq_dec t t'); split; congruence. Qed.

Lemma equal_pass_sim r st σ β : state_sim st σ β -> regno_ok r -> type_ (st_reg st r) = SCALAR_VALUE -> id (st_reg st r) <> 0 ->
  state_sim (find_equal_scalars (st_reg st r) st) σ β.
Proof.
  intros S Hr Ht Hi; pose proof S as (W & _ & R & A); apply (state_sim_map st); [apply pass_wf, W|exact S|].
  intros j x Hj Hx Hs; unfold find_equal_scalars; rewrite pass_reg by assumption.
  destruct (type_eqb (type_ (st_reg st j)) SCALAR_VALUE) eqn:T, (Z.eqb_spec (id (st_reg st j)) (id (st_reg st r))) as [E|]; cbn [andb]; auto.
  apply type_eqb_true in T; assert (L1 := link_scalar _ _ Ht eq_refl Hi); assert (L2 := link_scalar _ _ T E Hi).
  split; [|right; congruence]; destruct (R r Hr) as (y & Hy & Hsy).
  assert (Some x = Some y) as [= ->] by (rewrite <- Hx, <- Hy; apply (A j r _ Hj Hr L2 L1)).
  apply scalar_sim; [apply Hs|apply (sim_scalar _ _ _ Hsy Ht)|exact Ht].
Qed.

Lemma not_null_type_spec maps reg : let reg' := not_null_type maps reg in
  reg_type_may_be_null (type_ reg) = true ->
  type_ reg' <> SCALAR_VALUE /\ type_ reg' <> NOT_INIT /\ reg_type_may_be_null (type_ reg') = false /\
  off reg' = off reg /\ var_off reg' = var_off reg /\ b64 reg' = b64 reg /\ b32 reg' = b32 reg.
Proof.
  cbn zeta; unfold not_null_type; destruct (type_ reg) eqn:T; intros N; try discriminate N;
    repeat match goal with |- context [if ?c then _ else _] => destruct c end; cbn; rewrite ?T; repeat split; congruence.
Qed.

Lemma may_be_null_ptr reg b x : reg_sim reg b x -> reg_type_may_be_null (type_ reg) = true ->
  sin 32 (off reg) /\ exists v, reg_inv reg v /\ x = u64 (b + off reg + v).
Proof. intros H N; apply (sim_ptr reg b x H); intros E; rewrite E in N; discriminate N. Qed.

(** A checked pointer: NULL becomes the scalar zero. *)
Lemma or_null_sim maps k is_null reg b x : reg_sim reg b x -> (is_null = true -> link reg = Some (true, k) -> x = 0) ->
  let reg' := mark_ptr_or_null_reg maps k is_null reg in
  reg_sim reg' b x /\ (link reg' = None \/ link reg' = link reg).
Proof.
  intros Hs Hn; cbn zeta; unfold mark_ptr_or_null_reg.
  destruct (reg_type_may_be_null (type_ reg)) eqn:N; cbn [andb]; [|auto].
  destruct (Z.eqb_spec (id reg) k) as [E|]; cbn [andb]; [|auto]; destruct (Z.eqb_spec (id reg) 0) as [|Z0]; cbn [negb]; [auto|].
  match goal with |- context [if ?c then reg else _] => destruct c eqn:C end; [auto|].
  assert (Lk : link reg = Some (true, k)).
  { unfold link; destruct (Z.eqb_spec (id reg) 0); [contradiction|]; destruct (type_eqb _ _) eqn:T.
    - apply type_eqb_true in T; rewrite T in N; discriminate N.
    - rewrite N, E; reflexivity. }
  destruct (may_be_null_ptr _ _ _ Hs N) as (Ho & v & Hv & Hx).
  repeat (apply orb_false_iff in C as [C ?]); destruct is_null.
  - split; [|left; reflexivity]; rewrite (Hn eq_refl Lk); split; [unfold uin; lia|]; cbn.
    assert (v = 0) as -> by (apply (tnum_equals_const_mem (var_off reg) 0); [apply negb_false_iff; assumption|apply Hv]).
    exact Hv.
  - destruct (not_null_type_spec maps reg N) as (T1 & T2 & T3 & Eo & Ev & E64 & E32).
    set (reg' := not_null_type maps reg) in *; clearbody reg'.
    assert (G : forall q, type_ q = type_ reg' -> off q = off reg' -> var_off q = var_off reg' -> b64 q = b64 reg' -> b32 q = b32 reg' -> reg_sim q b x).
    { intros q F1 F2 F3 F4 F5; rewrite Hx, <- Eo, <- F2; apply ptr_sim; [congruence| |congruence].
      unfold reg_inv, reg_ok, reg_mem, reg_sync in *; rewrite F3, F4, F5, Ev, E64, E32; exact Hv. }
    assert (Ln : forall q, type_ q = type_ reg' -> link q = None).
    { intros q F; unfold link; destruct (id q =? 0); [reflexivity|]; rewrite F, T3; destruct (type_eqb _ _) eqn:T; [|reflexivity].
      apply type_eqb_true in T; contradiction. }
    destruct (reg_may_point_to_spin_lock maps reg'); cbn [negb]; split; auto.
Qed.

Lemma or_null_pass_sim maps r is_null st σ β : state_sim st σ β -> regno_ok r -> reg_type_may_be_null (type_ (st_reg st r)) = true ->
  (is_null = true -> reg_get σ r = Some 0) -> state_sim (mark_ptr_or_null_regs maps r is_null st) σ β.
Proof.
  intros S Hr N Hn; unfold mark_ptr_or_null_regs; cbv zeta; match goal with |- state_sim (upd_frames _ ?s) _ _ => set (st1 := s) end.
  assert (S1 : state_sim st1 σ β /\ forall j, st_reg st1 j = st_reg st j).
  { subst st1; destruct (_ && _); [|auto]; destruct (release_reference_state _ _) as [rs|]; [|auto].
    pose proof S as ([H L] & _); assert (E : forall j, st_reg (set_frame st (alter (λ fn, set_refs fn rs) (curframe st) (frame st))) j = st_reg st j)
      by (intros j; unfold st_reg; rewrite st_func_alter by exact H; reflexivity).
    split; [|exact E]; apply (state_sim_map st); [|exact S|intros j x Hj Hx Hs; rewrite E; auto].
    split; [cbn; rewrite length_alter; exact H|]; rewrite st_func_alter by exact H; exact L. }
  destruct S1 as [S1 E1]; clearbody st1; pose proof S1 as (W & _ & R & A).
  apply (state_sim_map st1); [apply pass_wf, W|exact S1|]; intros j x Hj Hx Hs; unfold __mark_ptr_or_null_regs; rewrite pass_reg by assumption.
  apply or_null_sim; [exact Hs|]; intros E L; specialize (Hn E).
  assert (Lr : link (st_reg st1 r) = Some (true, id (st_reg st r))).
  { rewrite E1; unfold link in L |- *; destruct (Z.eqb_spec (id (st_reg st1 j)) 0) as [|Z0]; [discriminate|].
    destruct (type_eqb (type_ (st_reg st1 j)) _); [discriminate|]; destruct (reg_type_may_be_null (type_ (st_reg st1 j))); [|discriminate].
    injection L as L; destruct (Z.eqb_spec (id (st_reg st r)) 0); [congruence|]; destruct (type_eqb _ _) eqn:T.
    - apply type_eqb_true in T; rewrite T in N; discriminate N.
    - rewrite N; reflexivity. }
  pose proof (A j r _ Hj Hr L Lr); congruence.
Qed.

(** ** The relation *)

(** The registers [pkt_match] compares: a packet pointer and the end of what it
    points into. *)
Definition pkt_pair (p q : bpf_reg_state) : Prop :=
  type_ p = PTR_TO_PACKET /\ type_ q = PTR_TO_PACKET_END \/ type_ p = PTR_TO_PACKET_META /\ reg_is_init_pkt_pointer q PTR_TO_PACKET = true.

(** What a relation [sim] between verifier states and a machine with the
    registers [σ] has to be closed under to be preserved by conditional jumps. *)
Class JumpSim (mp : gmap Z bpf_map) (σ : list Z) (β : Z -> Z) (sim : bpf_verifier_state -> Prop) : Prop := {
  js_state st : sim st -> state_sim st σ β;
  js_spec st b : sim st -> sim (set_speculative st b);
  js_same e e' : e ≈ e' -> sim (cur_state e) -> sim (cur_state e');
  js_retag f st : sim st -> length (f (regs (st_func st))) = 11%nat ->
    (forall r, regno_ok r -> let q := f (regs (st_func st)) !!! Z.to_nat r in
       reg_tag q = reg_tag (st_reg st r) /\ forall x, reg_get σ r = Some x -> reg_sim (st_reg st r) (β r) x -> reg_sim q (β r) x) ->
    sim (upd_st_regs f st);
  js_equal r st : sim st -> regno_ok r -> type_ (st_reg st r) = SCALAR_VALUE -> id (st_reg st r) <> 0 -> sim (find_equal_scalars (st_reg st r) st);
  js_null r st x : sim st -> regno_ok r -> reg_type_may_be_null (type_ (st_reg st r)) = true -> reg_get σ r = Some x ->
    sim (mark_ptr_or_null_regs mp r (x =? 0) st);
  js_pkt a b ro st xa xb : sim st -> regno_ok a -> regno_ok b -> reg_get σ a = Some xa -> reg_get σ b = Some xb ->
    pkt_pair (st_reg st a) (st_reg st b) -> (if ro : bool then xa < xb else xa <= xb) ->
    sim (find_good_pkt_pointers (st_reg st a) (type_ (st_reg st a)) ro st)
}.

Lemma type_tag r q : reg_tag r = reg_tag q -> type_ r = type_ q.
Proof. unfold reg_tag; congruence. Qed.

Lemma id_tag r q : reg_tag r = reg_tag q -> id r = id q.
Proof. unfold reg_tag; congruence. Qed.

Lemma link_tag r q : reg_tag r = reg_tag q -> link r = link q.
Proof. intros H; unfold link; rewrite (type_tag _ _ H), (id_tag _ _ H); reflexivity. Qed.

Lemma same_state_sim e e' σ β : e ≈ e' -> state_sim (cur_state e) σ β -> state_sim (cur_state e') σ β.
Proof.
  intros H S; apply (state_sim_map (cur_state e)); [|exact S|].
  - change (env_wf e'); rewrite <- H; apply S.
  - intros r x Hr Hx Hs; change (st_reg (cur_state ?q) r) with (get_reg q r) in *; split.
    + change (reg_sim (erase_reg (get_reg e' r)) (β r) x); rewrite <- (same_reg e e' r H); exact Hs.
    + right; change (link (erase_reg (get_reg e' r)) = link (get_reg e r)); rewrite <- (same_reg e e' r H); reflexivity.
Qed.

#[export] Instance state_jump_sim mp σ β : JumpSim mp σ β (fun st => state_sim st σ β).
Proof.
  split.
  - trivial.
  - intros st b S; exact S.
  - intros e e'; apply same_state_sim.
  - intros f st S L H; pose proof S as (W & _); apply (state_sim_map st); [apply upd_st_regs_wf; assumption|exact S|].
    intros r x Hr Hx Hs; rewrite upd_st_regs_reg by exact W; destruct (H r Hr) as [T R]; split; [auto|right; apply link_tag, T].
  - intros r st; apply equal_pass_sim.
  - intros r st x S Hr N Hx; apply or_null_pass_sim; trivial; intros E; apply Z.eqb_eq in E; congruence.
  - intros a b ro st xa xb S _ _ _ _ _ _; apply pkt_pass_sim, S.
Qed.

(** ** The two branches *)

(** The two states differ in the bounds of scalars only. *)
Definition twins (env : bpf_verifier_env) : Prop :=
  forall r, regno_ok r -> reg_tag (get_reg env r) = reg_tag (other_reg env r) /\
    (type_ (get_reg env r) <> SCALAR_VALUE -> get_reg env r = other_reg env r).

(** The state the machine goes on in. *)
Definition sel (taken : bool) (env : bpf_verifier_env) : bpf_verifier_state :=
  if taken then other_state env else cur_state env.

(** The pushed state will be explored from [tgt], the current one goes on after
    [pc]; they differ in what they know of the values only. *)
Definition branches_ok (mp : gmap Z bpf_map) (sim : bpf_verifier_state -> Prop) (taken : bool) (tgt pc : Z) (env : bpf_verifier_env) : Prop :=
  env_wf env /\ st_wf (other_state env) /\ (exists e l, head env = e :: l /\ elem_insn_idx e = tgt) /\ (insn_idx env = pc /\ maps env = mp) /\
  twins env /\ sim (sel taken env).

Section Branches.
Context (mp : gmap Z bpf_map) (σ : list Z) (β : Z -> Z) (sim : bpf_verifier_state -> Prop) {Js : JumpSim mp σ β sim} (taken : bool) (tgt pc : Z).
Local Abbreviation ok env := (branches_ok mp sim taken tgt pc env).

Lemma branches_upd f g env : ok env -> st_wf (f (cur_state env)) -> st_wf (g (other_state env)) ->
  (forall r, regno_ok r -> reg_tag (st_reg (f (cur_state env)) r) = reg_tag (st_reg (g (other_state env)) r) /\
    (type_ (st_reg (f (cur_state env)) r) <> SCALAR_VALUE -> st_reg (f (cur_state env)) r = st_reg (g (other_state env)) r)) ->
  sim (if taken then g (other_state env) else f (cur_state env)) -> ok (upd_other g (upd_this f env)).
Proof using.
  intros (W & W' & (e & l & He & Ht) & Hp & T & S) Wf Wg T' S'; unfold other_state in *; rewrite He in *.
  unfold branches_ok, upd_other, twins, sel, other_reg, other_state; cbn; rewrite He; cbn.
  split; [exact Wf|]; split; [exact Wg|]; split; [eexists _, _; split; [reflexivity|exact Ht]|]; auto.
Qed.

Lemma put_branches_ok r t f env u env' : ok env -> regno_ok r -> type_ (get_reg env r) = SCALAR_VALUE ->
  reg_tag t = reg_tag (get_reg env r) -> reg_tag f = reg_tag (get_reg env r) ->
  (forall x, reg_get σ r = Some x -> reg_sim (st_reg (sel taken env) r) (β r) x -> reg_sim (if taken then t else f) (β r) x) ->
  put_branches r (t, f) env = (inr u, env') -> ok env'.
Proof using Js.
  intros H Hr Hty Et Ef Hs [= _ <-]; pose proof H as (W & W' & _ & _ & T & S).
  apply (branches_upd (upd_st_regs (fun rs => <[Z.to_nat r := f]> rs)) (upd_st_regs (fun rs => <[Z.to_nat r := t]> rs)));
    trivial; try (apply insert_wf; assumption).
  - intros j Hj; rewrite !insert_reg by (trivial; apply Hj); destruct (j =? r); [|apply T, Hj].
    split; [congruence|]; intros N; rewrite (type_tag _ _ Ef) in N; contradiction.
  - assert (G : forall st v, st = sel taken env -> v = (if taken then t else f) -> sim (upd_st_regs (fun rs => <[Z.to_nat r := v]> rs) st)).
    { intros st v -> ->; pose proof (js_state _ S) as (Ws & _); apply js_retag; [exact S|rewrite length_insert; apply Ws|].
      intros j Hj; cbn zeta; assert (E : forall v, <[Z.to_nat r := v]> (regs (st_func (sel taken env))) !!! Z.to_nat j = if j =? r then v else st_reg (sel taken env) j)
        by (intros v; rewrite <- (insert_reg _ r v j Ws Hr ltac:(apply Hj)), upd_st_regs_reg by exact Ws; reflexivity).
      rewrite E; destruct (Z.eqb_spec j r) as [->|]; [|auto]; split; [|exact Hs].
      unfold sel; destruct taken; [rewrite Et; apply T, Hr|exact Ef]. }
    destruct taken; apply G; reflexivity.
Qed.

Lemma equal_scalars_ok r env u env' : ok env -> regno_ok r -> type_ (get_reg env r) = SCALAR_VALUE ->
  equal_scalars r env = (inr u, env') -> ok env'.
Proof using Js.
  intros H Hr Ht [= _ <-]; pose proof H as (W & W' & _ & _ & T & S); destruct (T r Hr) as [Tr _].
  destruct (Z.eqb_spec (id (get_reg env r)) 0) as [|N]; cbn [negb andb]; [exact H|].
  destruct (Z.eqb_spec (id (get_reg env r)) (id (other_reg env r))) as [E|]; [|exact H].
  apply branches_upd; trivial; try (apply pass_wf; assumption).
  - intros j Hj; unfold find_equal_scalars; rewrite !pass_reg by assumption; fold (other_reg env j); destruct (T j Hj) as [Tj Ej].
    change (st_reg (cur_state env) j) with (get_reg env j); rewrite (type_tag _ _ Tj), (id_tag _ _ Tj), (id_tag _ _ Tr).
    destruct (_ && _); [|auto]; split; [exact Tr|contradiction].
  - destruct taken; apply (js_equal (JumpSim := Js)); trivial.
    + fold (other_reg env r); rewrite <- (type_tag _ _ Tr); exact Ht.
    + fold (other_reg env r); congruence.
Qed.
End Branches.

Lemma cur_upd_other g env : cur_state (upd_other g env) = cur_state env.
Proof. unfold upd_other; destruct (head env); reflexivity. Qed.

Lemma get_reg_upd f g env r : get_reg (upd_other g (upd_this f env)) r = st_reg (f (cur_state env)) r.
Proof. unfold get_reg, cur_regs, cur_func; rewrite cur_upd_other; reflexivity. Qed.

Definition keeps_tags (env env' : bpf_verifier_env) : Prop :=
  forall r, regno_ok r -> reg_tag (get_reg env' r) = reg_tag (get_reg env r).

Lemma put_branches_tags r t f env u env' : env_wf env -> regno_ok r -> reg_tag f = reg_tag (get_reg env r) ->
  put_branches r (t, f) env = (inr u, env') -> keeps_tags env env'.
Proof.
  intros W Hr Ef [= _ <-] j Hj; assert (E : get_reg (put_other r t (put_reg env r f)) j = get_reg (put_reg env r f) j)
    by (unfold get_reg, cur_regs, cur_func, put_other; rewrite cur_upd_other; reflexivity).
  cbn [fst snd]; rewrite E; destruct (Z.eq_dec j r) as [->|N]; [rewrite get_put_same by assumption; exact Ef|].
  rewrite get_put_other by (trivial; unfold regno_ok in *; lia); reflexivity.
Qed.

(** A constant operand, at the width of the comparison. *)
Lemma const_operand is_jmp32 reg x : reg_mem reg x -> tnum_is_const (var_off reg) || (is_jmp32 && tnum_is_const (tnum_subreg (var_off reg))) = true ->
  uwrap (jmp_width is_jmp32) x = if is_jmp32 then u32 (value (tnum_subreg (var_off reg))) else value (var_off reg).
Proof.
  intros (Hm & _) C; destruct is_jmp32; cbn [jmp_width andb] in *.
  - rewrite tnum_subreg_alt; cbn [value]; rewrite u32_u32; apply orb_true_iff in C; destruct C as [C|C].
    + rewrite (tnum_is_const_mem _ _ C Hm); reflexivity.
    + rewrite <- (u32_u32 x); pose proof (tnum_is_const_mem _ _ C (tnum_subreg_mem _ _ Hm)) as E.
      rewrite tnum_subreg_alt in E; cbn [value] in E; rewrite E, u32_u32; reflexivity.
  - rewrite orb_false_r in C; rewrite <- (tnum_is_const_mem _ _ C Hm); apply uwrap_id; eauto with kint.
Qed.

(** Two registers known to be equal share what is known about them. *)
Lemma combine_wf src dst st : st_wf st -> st_wf (upd_st_regs (fun _ => __reg_combine_min_max src dst (regs (st_func st))) st).
Proof. intros W; apply upd_st_regs_wf; [exact W|]; rewrite combine_min_max_length; apply W. Qed.

Lemma combined_sim mp σ β sim {Js : JumpSim mp σ β sim} src dst st x : sim st -> regno_ok src -> regno_ok dst ->
  type_ (st_reg st src) = SCALAR_VALUE -> type_ (st_reg st dst) = SCALAR_VALUE -> reg_get σ src = Some x -> reg_get σ dst = Some x ->
  sim (upd_st_regs (fun _ => __reg_combine_min_max src dst (regs (st_func st))) st).
Proof.
  intros S Hs Hd Ts Td Xs Xd; pose proof (js_state _ S) as (W & _ & R & _).
  assert (P : forall r, regno_ok r -> type_ (st_reg st r) = SCALAR_VALUE -> reg_get σ r = Some x -> reg_ok (st_reg st r) /\ reg_mem (st_reg st r) x).
  { intros r Hr Tr Xr; destruct (R r Hr) as (y & Hy & Hsy); replace x with y by congruence.
    destruct (sim_scalar _ _ _ Hsy Tr) as (? & ? & _); auto. }
  destruct (combine_min_max_inv src dst x 11) with (rs := regs (st_func st)) as (_ & I1 & I2); [unfold regno_ok in *; lia..| |].
  { split; [apply W|]; split; apply P; assumption. }
  apply js_retag; [exact S|rewrite combine_min_max_length; apply W|]; intros j Hj; cbn zeta.
  set (q := _ !!! Z.to_nat j); assert (Tq : reg_tag q = reg_tag (st_reg st j)) by apply tag_combine_min_max.
  split; [exact Tq|]; intros y Hy Hsy; subst q.
  destruct (Z.eq_dec j src) as [->|N1]; [assert (y = x) as -> by congruence; apply scalar_sim; [apply Hsy|exact I1|rewrite (type_tag _ _ Tq); exact Ts]|].
  destruct (Z.eq_dec j dst) as [->|N2]; [assert (y = x) as -> by congruence; apply scalar_sim; [apply Hsy|exact I2|rewrite (type_tag _ _ Tq); exact Td]|].
  rewrite combine_min_max_other by (unfold regno_ok in *; lia); exact Hsy.
Qed.

Lemma same_regs_state mp σ β sim {Js : JumpSim mp σ β sim} st : sim st -> sim (upd_st_regs (fun _ => regs (st_func st)) st).
Proof. intros S; pose proof (js_state _ S) as (W & _); apply js_retag; [exact S|apply W|]; intros j Hj; split; [reflexivity|auto]. Qed.

Section Refine.
Context (mp : gmap Z bpf_map) (σ : list Z) (β : Z -> Z) (sim : bpf_verifier_state -> Prop) {Js : JumpSim mp σ β sim}.
Context (insn : bpf_insn) (env : bpf_verifier_env) (op : jmp_op) (o : operand) (tgt pc : Z) (DST SRC : Z).
Local Abbreviation dst := (insn_dst insn).
Local Abbreviation src := (insn_src insn).
Local Abbreviation is_jmp32 := (BPF_CLASS (insn_code insn) =? BPF_JMP32).
Local Abbreviation w := (jmp_width is_jmp32).
Local Abbreviation taken := (cond_jmp w op DST SRC).
Local Abbreviation ok env := (branches_ok mp sim taken tgt pc env).
Hypothesis Hdst : regno_ok dst.
Hypothesis Hsrc : regno_ok src.
Hypothesis Hop : BPF_OP (insn_code insn) = jmp_code op.
Hypothesis Ho : BPF_SRC (insn_code insn) = src_code o.
Hypothesis HD : reg_get σ dst = Some DST.
Hypothesis HS : (match o with X => reg_get σ src | K => Some (insn_imm insn) end) = Some SRC.
Hypothesis Hok : ok env.
Hypothesis Hfresh : forall r, regno_ok r -> other_reg env r = get_reg env r.

Lemma sel_fresh r : regno_ok r -> st_reg (sel taken env) r = get_reg env r.
Proof using Hfresh. intros Hr; unfold sel; case taken; [apply Hfresh, Hr|reflexivity]. Qed.

Lemma fresh_inv r x : regno_ok r -> reg_get σ r = Some x -> type_ (get_reg env r) = SCALAR_VALUE -> reg_inv (get_reg env r) x.
Proof using Hok Hfresh Js.
  intros Hr Hx Ht; destruct Hok as (_ & _ & _ & _ & _ & S); destruct (js_state _ S) as (_ & _ & R & _); destruct (R r Hr) as (y & Hy & Hs).
  rewrite sel_fresh in Hs by exact Hr; replace x with y by congruence; apply (sim_scalar _ _ _ Hs Ht).
Qed.

(** One register is refined by the comparison with a constant. *)
Lemma refine_reg r rop x y val val32 u env' : regno_ok r -> reg_get σ r = Some x -> type_ (get_reg env r) = SCALAR_VALUE ->
  uin 32 val32 -> uwrap w y = (if is_jmp32 then val32 else val) -> cond_jmp w rop x y = taken ->
  put_branches r (reg_set_min_max (other_reg env r) (get_reg env r) val val32 (jmp_code rop) is_jmp32) env = (inr u, env') ->
  ok env' /\ keeps_tags env env'.
Proof using Hok Hfresh Js.
  intros Hr Hx Ht Hv E C H; rewrite reg_set_min_max_eq, Hfresh in H by assumption.
  pose proof Hok as (W & _); pose proof (fresh_inv r x Hr Hx Ht) as (R1 & R2 & _).
  split; [|eapply put_branches_tags; [exact W|exact Hr|apply tag_branch_reg|exact H]].
  eapply (put_branches_ok mp σ β sim); [exact Hok|exact Hr|exact Ht|apply tag_branch_reg|apply tag_branch_reg| |exact H].
  intros z Hz Hs; replace z with x by congruence.
  assert (I : reg_inv (branch_reg is_jmp32 taken rop val val32 (get_reg env r)) x) by (eapply branch_reg_inv; eassumption).
  assert (T : type_ (branch_reg is_jmp32 taken rop val val32 (get_reg env r)) = SCALAR_VALUE)
    by (rewrite (type_tag _ _ (tag_branch_reg _ _ _ _ _ _)); exact Ht).
  replace (if taken then _ else _) with (branch_reg is_jmp32 taken rop val val32 (get_reg env r)) by (case taken; reflexivity).
  apply scalar_sim; [eapply reg_mem_range, R2|exact I|exact T].
Qed.

Lemma combine_step u env' : o = X -> w = 64 -> op = JEQ \/ op = JNE ->
  type_ (get_reg env dst) = SCALAR_VALUE -> type_ (get_reg env src) = SCALAR_VALUE ->
  modify (fun env => let tf := reg_combine_min_max src dst (jmp_code op) (regs (st_func (other_state env))) (cur_regs env) in
    upd_other (upd_st_regs (fun _ => tf.1)) (upd_this (upd_st_regs (fun _ => tf.2)) env)) env = (inr u, env') ->
  ok env' /\ keeps_tags env env'.
Proof using Hok Hfresh Hdst Hsrc HD HS Hop Js.
  intros E Ew Hj Td Ts [= _ <-]; rewrite E in HS; pose proof Hok as (W & W' & _ & _ & T & S).
  set (tf := reg_combine_min_max _ _ _ _ _).
  assert (Tt : forall j, reg_tag (tf.1 !!! j) = reg_tag (regs (st_func (other_state env)) !!! j) /\ reg_tag (tf.2 !!! j) = reg_tag (cur_regs env !!! j)).
  { intros j; subst tf; destruct Hj as [-> | ->]; cbn; rewrite ?tag_combine_min_max; auto. }
  assert (To : forall j, regno_ok j -> j <> dst -> j <> src -> tf.1 !!! Z.to_nat j = regs (st_func (other_state env)) !!! Z.to_nat j /\ tf.2 !!! Z.to_nat j = cur_regs env !!! Z.to_nat j).
  { intros j Hj' N1 N2; subst tf; destruct Hj as [-> | ->]; cbn; rewrite ?combine_min_max_other by (unfold regno_ok in *; lia); auto. }
  assert (Tl : length tf.1 = 11%nat /\ length tf.2 = 11%nat).
  { subst tf; destruct Hj as [-> | ->]; cbn; rewrite ?combine_min_max_length; split; apply W || apply W'. }
  split; [|intros j Hj'; rewrite get_reg_upd, upd_st_regs_reg by exact W; apply Tt].
  apply branches_upd; trivial; try (apply upd_st_regs_wf; [assumption|apply Tl]).
  { intros j Hj'; rewrite !upd_st_regs_reg by assumption; rewrite (proj1 (Tt _)), (proj2 (Tt _)); split; [apply T, Hj'|]; rewrite (type_tag _ _ (proj2 (Tt _))); intros N.
    destruct (Z.eq_dec j dst) as [->|N1]; [contradiction|]; destruct (Z.eq_dec j src) as [->|N2]; [contradiction|].
    destruct (To j Hj' N1 N2) as [-> ->]; apply T; assumption. }
  pose proof (fresh_inv _ _ Hdst HD Td) as (_ & MD & _); pose proof (fresh_inv _ _ Hsrc HS Ts) as (_ & MS & _).
  apply reg_mem_range in MD, MS.
  assert (Q : (uwrap w DST =? uwrap w SRC) = true -> reg_get σ src = Some DST)
    by (rewrite HS, Ew, !uwrap_id by assumption; intros Eq; apply Z.eqb_eq in Eq; congruence).
  subst tf; destruct Hj as [Ej|Ej]; rewrite Ej in S |- *; cbn [cond_jmp jmp_code reg_combine_min_max] in *; cbn [fst snd Z.eqb Pos.eqb].
  all: revert S Q; case (uwrap w DST =? uwrap w SRC); intros S Q; cbn [negb sel] in S |- *; try specialize (Q eq_refl).
  - apply (combined_sim mp σ β sim src dst (other_state env) DST); trivial; fold (other_reg env src) (other_reg env dst); rewrite Hfresh; assumption.
  - exact (same_regs_state mp σ β sim (cur_state env) S).
  - apply (combined_sim mp σ β sim src dst (cur_state env) DST); trivial.
  - exact (same_regs_state mp σ β sim (other_state env) S).
Qed.

Lemma scalars_step u env' : o = X -> type_ (get_reg env dst) = SCALAR_VALUE -> type_ (get_reg env src) = SCALAR_VALUE ->
  cond_jmp_scalars insn (get_reg env dst) (get_reg env src) env = (inr u, env') -> ok env' /\ keeps_tags env env'.
Proof using Hok Hfresh Hdst Hsrc HD HS Hop Js.
  intros E Td Ts H; pose proof HS as HS'; rewrite E in HS'.
  pose proof (fresh_inv _ _ Hdst HD Td) as (_ & MD & _); pose proof (fresh_inv _ _ Hsrc HS' Ts) as (_ & MS & _).
  unfold cond_jmp_scalars in H; run H; injection R as <- <-; rewrite Hop in H.
  match type of H with (if ?c then _ else _) _ = _ => destruct c eqn:C end.
  { eapply refine_reg; [exact Hdst|exact HD|exact Td| |apply (const_operand _ _ _ MS C)|reflexivity|exact H]; apply uwrap_range; lia. }
  match type of H with (if ?c then _ else _) _ = _ => destruct c eqn:C' end.
  { rewrite reg_set_min_max_inv_eq in H.
    eapply refine_reg; [exact Hsrc|exact HS'|exact Ts| |apply (const_operand _ _ _ MD C')|apply cond_jmp_flip|exact H]; apply uwrap_range; lia. }
  unfold when in H; match type of H with (if ?c then _ else _) _ = _ => destruct c eqn:J end.
  - apply andb_true_iff in J; destruct J as [J1 J2]; apply negb_true_iff in J1.
    eapply combine_step; [exact E|rewrite J1; reflexivity| |exact Td|exact Ts|exact H].
    revert J2; clear; destruct op; cbn; auto; discriminate.
  - injection H as _ <-; split; [exact Hok|]; intros j _; reflexivity.
Qed.

Lemma refine_step u env' : cond_jmp_refine insn env = (inr u, env') -> ok env'.
Proof using Hok Hfresh Hdst Hsrc HD HS Hop Ho Js.
  intros H; unfold cond_jmp_refine in H; run H; injection R as <- <-; run H; injection R as <- <-; run H; injection R as <- <-.
  run H; run H; injection R0 as <- <-.
  assert (G : ok env0).
  { assert (Eo : o = X \/ o = K) by (clear; destruct o; auto); rewrite Ho in R; destruct Eo as [Eo|Eo]; rewrite Eo in R; cbn [src_code Z.eqb Pos.eqb] in R.
    - unfold when in R; destruct (type_eqb (type_ (get_reg env dst)) SCALAR_VALUE) eqn:Td, (type_eqb (type_ (get_reg env src)) SCALAR_VALUE) eqn:Ts;
        cbn [andb] in R; try (injection R as _ <-; exact Hok).
      apply type_eqb_true in Td, Ts; run R; destruct (scalars_step _ _ Eo Td Ts R0) as [B K].
      eapply (equal_scalars_ok mp σ β sim); [exact B|exact Hsrc| |exact R]; rewrite (type_tag _ _ (K _ Hsrc)); exact Ts.
    - unfold when in R; destruct (type_eqb (type_ (get_reg env dst)) SCALAR_VALUE) eqn:Td; [|injection R as _ <-; exact Hok].
      apply type_eqb_true in Td; pose proof HS as ES; rewrite Eo in ES; injection ES as ES; rewrite Hop in R.
      eapply (refine_reg dst op DST SRC); [exact Hdst|exact HD|exact Td| | |reflexivity|exact R]; [apply uwrap_range; lia|].
      rewrite <- ES; case is_jmp32; reflexivity. }
  unfold when in H; destruct (type_eqb (type_ (get_reg env0 dst)) SCALAR_VALUE) eqn:Td; [|injection H as _ <-; exact G].
  apply type_eqb_true in Td; eapply (equal_scalars_ok mp σ β sim); [exact G|exact Hdst|exact Td|exact H].
Qed.
End Refine.

(** ** Pointers *)

(** Where the jump ends: the pushed state is explored from [tgt], or the
    current one goes on after [pc]. *)
Definition lands (sim : bpf_verifier_state -> Prop) (taken : bool) (tgt pc : Z) (env : bpf_verifier_env) : Prop :=
  (exists e l, head env = e :: l /\ elem_insn_idx e = tgt) /\ insn_idx env = pc /\ sim (sel taken env).

(** In the branch [pkt_match] picks, the packet pointer is below (or at) the
    other operand, which is the end of what it points into. *)
Lemma pkt_match_pair insn op d s this reg ro DST SRC : BPF_OP (insn_code insn) = jmp_code op -> uin 64 DST -> uin 64 SRC ->
  pkt_match insn d s = Some (this, reg, ro) -> cond_jmp 64 op DST SRC = negb this ->
  (reg = d /\ pkt_pair d s /\ (if ro then DST < SRC else DST <= SRC)) \/ (reg = s /\ pkt_pair s d /\ (if ro then SRC < DST else SRC <= DST)).
Proof.
  intros Hop Hd Hs H C; unfold pkt_match in H; rewrite Hop in H.
  set (first := (_ && _) || (_ && _)) in H; set (second := (_ && _) || (_ && _)) in H.
  assert (F1 : first = true -> pkt_pair d s) by (unfold first, pkt_pair; rewrite orb_true_iff, !andb_true_iff, !type_eqb_true; tauto).
  assert (F2 : second = true -> pkt_pair s d) by (unfold second, pkt_pair; rewrite orb_true_iff, !andb_true_iff, !type_eqb_true; tauto).
  clearbody first second; destruct op; cbn [jmp_code Z.eqb Pos.eqb] in H; try discriminate H; cbn [cond_jmp] in C; rewrite !uwrap_id in C by assumption;
    destruct first; try (destruct second); try discriminate H; injection H as <- <- <-; cbn [negb] in C;
    (left; split; [reflexivity|split; [apply F1; reflexivity|lia]]) || (right; split; [reflexivity|split; [apply F2; reflexivity|lia]]).
Qed.

Lemma pkt_pair_types p q : pkt_pair p q -> type_ p <> SCALAR_VALUE /\ type_ q <> SCALAR_VALUE.
Proof.
  unfold pkt_pair, reg_is_init_pkt_pointer; intros [[-> ->]|[-> I]]; [split; discriminate|]; split; [discriminate|].
  repeat (apply andb_true_iff in I as [I ?]); apply type_eqb_true in I; rewrite I; discriminate.
Qed.

Section Pointers.
Context (mp : gmap Z bpf_map) (σ : list Z) (β : Z -> Z) (sim : bpf_verifier_state -> Prop) {Js : JumpSim mp σ β sim}.
Context (taken : bool) (tgt pc : Z) (env : bpf_verifier_env) (Hok : branches_ok mp sim taken tgt pc env).

Lemma lands_this f : (taken = false -> sim (f (cur_state env))) -> lands sim taken tgt pc (upd_this f env).
Proof using Hok.
  intros H; destruct Hok as (_ & _ & Hh & [Hp _] & _ & S); split; [exact Hh|]; split; [exact Hp|].
  unfold sel in *; destruct taken; [exact S|apply H; reflexivity].
Qed.

Lemma lands_other g : (taken = true -> sim (g (other_state env))) -> lands sim taken tgt pc (upd_other g env).
Proof using Hok.
  intros H; destruct Hok as (_ & _ & (e & l & Hh & Ht) & [Hp _] & _ & S); unfold lands, upd_other, sel, other_state in *; rewrite Hh in *; cbn.
  split; [eexists _, _; split; [reflexivity|exact Ht]|]; split; [exact Hp|]; destruct taken; [apply H; reflexivity|exact S].
Qed.

Lemma lands_both f g : sim (if taken then g (other_state env) else f (cur_state env)) ->
  lands sim taken tgt pc (upd_other g (upd_this f env)).
Proof using Hok.
  intros H; destruct Hok as (_ & _ & (e & l & Hh & Ht) & [Hp _] & _ & S); unfold lands, upd_other, sel, other_state in *; cbn; rewrite Hh in *; cbn.
  split; [eexists _, _; split; [reflexivity|exact Ht]|]; split; [exact Hp|]; destruct taken; exact H.
Qed.

(** A pointer is the same in the state the machine goes on in. *)
Lemma sel_pointer r : regno_ok r -> type_ (get_reg env r) <> SCALAR_VALUE -> st_reg (sel taken env) r = get_reg env r.
Proof using Hok. intros Hr N; destruct Hok as (_ & _ & _ & _ & T & _); unfold sel; destruct taken; [symmetry; apply T; assumption|reflexivity]. Qed.

Lemma pkt_sel a b ro xa xb : regno_ok a -> regno_ok b -> reg_get σ a = Some xa -> reg_get σ b = Some xb ->
  pkt_pair (get_reg env a) (get_reg env b) -> (if ro : bool then xa < xb else xa <= xb) ->
  sim (find_good_pkt_pointers (get_reg env a) (type_ (get_reg env a)) ro (sel taken env)).
Proof using Hok Js.
  intros Ha Hb Xa Xb P O; destruct (pkt_pair_types _ _ P) as [Na Nb]; rewrite <- (sel_pointer a Ha Na) in *; rewrite <- (sel_pointer b Hb Nb) in P.
  eapply js_pkt; try eassumption; apply Hok.
Qed.

Lemma match_pkt_lands insn op x y b env' : regno_ok (insn_dst insn) -> regno_ok (insn_src insn) -> BPF_OP (insn_code insn) = jmp_code op ->
  reg_get σ (insn_dst insn) = Some x -> reg_get σ (insn_src insn) = Some y ->
  (BPF_CLASS (insn_code insn) <> BPF_JMP32 -> BPF_SRC (insn_code insn) = BPF_X -> taken = cond_jmp 64 op x y) ->
  try_match_pkt_pointers insn env = (inr b, env') -> lands sim taken tgt pc env'.
Proof using Hok Js.
  intros Hd Hs Hop Hx Hy Ht H; assert (K : lands sim taken tgt pc env) by (destruct Hok as (_ & _ & Hh & [Hp _] & _ & S); split; [|split]; assumption).
  unfold try_match_pkt_pointers in H; run H; injection R as <- <-; run H; injection R as <- <-.
  destruct (Z.eqb_spec (BPF_SRC (insn_code insn)) BPF_X) as [Ex|]; cbn [negb] in H; [|injection H as _ <-; exact K].
  destruct (Z.eqb_spec (BPF_CLASS (insn_code insn)) BPF_JMP32) as [|Nj]; [injection H as _ <-; exact K|].
  destruct (pkt_match _ _ _) as [[[this reg] ro]|] eqn:Pm; [|injection H as _ <-; exact K]; specialize (Ht Nj Ex).
  assert (U : uin 64 x /\ uin 64 y).
  { destruct Hok as (_ & _ & _ & _ & _ & S); destruct (js_state _ S) as (_ & _ & R' & _).
    destruct (R' _ Hd) as (x' & Hx' & [Ux _]), (R' _ Hs) as (y' & Hy' & [Uy _]); split; congruence. }
  assert (Q : taken = negb this -> sim (find_good_pkt_pointers reg (type_ reg) ro (sel taken env))).
  { intros E; rewrite Ht in E; destruct U as [Ux Uy]; destruct (pkt_match_pair insn op _ _ _ _ _ x y Hop Ux Uy Pm E) as [(-> & P & O)|(-> & P & O)]; [eapply (pkt_sel _ (insn_src insn))|eapply (pkt_sel _ (insn_dst insn))]; eassumption. }
  run H; injection H as _ <-; destruct this; injection R as _ <-; [apply lands_this|apply lands_other]; intros E; rewrite E in Q; exact (Q eq_refl).
Qed.

Lemma pointers_lands insn op x y u env' : regno_ok (insn_dst insn) -> regno_ok (insn_src insn) -> BPF_OP (insn_code insn) = jmp_code op ->
  reg_get σ (insn_dst insn) = Some x -> reg_get σ (insn_src insn) = Some y ->
  (BPF_CLASS (insn_code insn) <> BPF_JMP32 -> BPF_SRC (insn_code insn) = BPF_K -> insn_imm insn = 0 -> taken = cond_jmp 64 op x 0) ->
  (BPF_CLASS (insn_code insn) <> BPF_JMP32 -> BPF_SRC (insn_code insn) = BPF_X -> taken = cond_jmp 64 op x y) ->
  cond_jmp_pointers insn env = (inr u, env') -> lands sim taken tgt pc env'.
Proof using Hok Js.
  intros Hd Hs Hop Hx Hy Ht Ht' H; unfold cond_jmp_pointers in H; run H; injection R as <- <-; rewrite Hop in H.
  match type of H with (if ?c then _ else _) _ = _ => destruct c eqn:C end.
  - run H; injection R as _ <-; injection H as _ <-; repeat (apply andb_true_iff in C as [C ?]).
    pose proof Hok as (_ & _ & _ & [_ Hm] & T & S); apply negb_true_iff, Z.eqb_neq in C; rewrite ?Z.eqb_eq in *.
    destruct (js_state _ S) as (_ & _ & R & _); destruct (R _ Hd) as (x' & Hx' & [Ux _]); rewrite Hx in Hx'; injection Hx' as <-.
    specialize (Ht ltac:(assumption) ltac:(assumption) ltac:(assumption)); destruct (T _ Hd) as [Tt _].
    assert (E : (jmp_code op =? (if taken then BPF_JEQ else BPF_JNE)) = (x =? 0)).
    { rewrite Ht; match goal with J : (_ =? BPF_JEQ) || (_ =? BPF_JNE) = true |- _ => revert J end; destruct op; cbn [jmp_code Z.eqb Pos.eqb orb]; intros J; try discriminate J;
        cbn [cond_jmp]; change (uwrap 64 0) with 0; rewrite uwrap_id by exact Ux; destruct (x =? 0); reflexivity. }
    apply lands_both; change (maps (upd_this _ env)) with (maps env); rewrite Hm; unfold sel in S; revert S E; clear Ht Ht'; destruct taken; intros S E; rewrite E; eapply js_null; trivial.
    fold (other_reg env (insn_dst insn)); rewrite <- (type_tag _ _ Tt); assumption.
  - run H; run H; injection R0 as _ <-; eapply match_pkt_lands in R; try eassumption.
    match type of H with (if ?c then _ else _) _ = _ => destruct c end; [discriminate|injection H as _ <-]; exact R.
Qed.
End Pointers.

(** ** Operands and prediction *)

Lemma same_idx e e' : e ≈ e' -> insn_idx e' = insn_idx e.
Proof. intros H; change (insn_idx (erase_env e') = insn_idx e); rewrite <- H; reflexivity. Qed.

Lemma operands_ok insn env u env' : insn_ok insn -> cond_jmp_operands insn env = (inr u, env') ->
  env' ≈ env /\ regno_ok (insn_dst insn) /\ regno_ok (insn_src insn).
Proof.
  intros (_ & Hd & Hs & _) H; unfold cond_jmp_operands in H; run H; apply src_op_ok in H; destruct H as (Ld & _ & E).
  assert (G : env0 ≈ env /\ insn_src insn < MAX_BPF_REG).
  { match type of R with (if ?c then _ else _) _ = _ => destruct c end.
    - match type of R with (if ?c then _ else _) _ = _ => destruct c; [discriminate|] end; run R; apply src_op_ok in R0; run R; injection R1 as _ <-.
      match type of R with (if ?c then _ else _) _ = _ => destruct c; [discriminate|] end; injection R as _ <-; split; apply R0.
    - match type of R with (if ?c then _ else _) _ = _ => destruct c eqn:C; [discriminate|] end; injection R as _ <-.
      apply negb_false_iff, Z.eqb_eq in C; split; [reflexivity|lia]. }
  destruct G as [E0 Ls]; split; [etransitivity; [exact E|exact E0]|]; unfold regno_ok, uin in *; lia.
Qed.

Lemma mark_precision_same r env u env' : mark_chain_precision r env = (inr u, env') -> env' ≈ env.
Proof. unfold mark_chain_precision; intros H; pose proof (mark_chain_same r (-1) env) as S; rewrite H in S; exact S. Qed.

Lemma push_true a b s env env' : push_stack a b s env = (inr true, env') ->
  cur_state env' = cur_state env /\ insn_idx env' = insn_idx env /\ maps env' = maps env /\
  exists l, head env' = mk_elem (set_speculative (cur_state env) (speculative (cur_state env) || s)) a b :: l.
Proof.
  unfold push_stack, kzalloc, modify, get, drop_states, mbind, verifier_bind, mret, verifier_ret.
  repeat first [progress cbn|case_match]; intros; simplify_eq; cbn; eauto.
Qed.

Lemma push_idx a b s env r env' : push_stack a b s env = (inr r, env') -> cur_state env' = cur_state env /\ insn_idx env' = insn_idx env.
Proof.
  unfold push_stack, kzalloc, modify, get, drop_states, mbind, verifier_bind, mret, verifier_ret.
  repeat first [progress cbn|case_match]; intros; simplify_eq; cbn; eauto.
Qed.

Lemma upd_branch_idx f env : cur_state (upd_branch_regs f env) = cur_state env /\ insn_idx (upd_branch_regs f env) = insn_idx env.
Proof. unfold upd_branch_regs; destruct (head env); auto. Qed.

Lemma spec_path_idx i a b env r env' : sanitize_speculative_path i a b env = (inr r, env') ->
  cur_state env' = cur_state env /\ insn_idx env' = insn_idx env.
Proof.
  intros H; unfold sanitize_speculative_path in H; run H; apply push_idx in R; run H; injection R0 as <- <-; destruct R as [<- <-].
  destruct i as [i|]; [|injection H as _ <-; auto].
  repeat match type of H with (if ?c then _ else _) _ = _ => destruct c end; repeat (run H; injection R as _ <-);
    injection H as _ <-; rewrite ?(proj1 (upd_branch_idx _ _)), ?(proj2 (upd_branch_idx _ _)); auto.
Qed.

(** The prediction against a constant, on a scalar or on a pointer that is not
    NULL. *)
Lemma predict dst_reg b DST SRC op j val : reg_sim dst_reg b DST -> (reg_type_not_null (type_ dst_reg) = true -> uwrap (jmp_width j) DST <> 0) ->
  uin 64 val -> uwrap (jmp_width j) SRC = uwrap (jmp_width j) val ->
  let p := is_branch_taken dst_reg val (jmp_code op) j in p >= 0 -> p = Z.b2z (cond_jmp (jmp_width j) op DST SRC).
Proof.
  intros HD Hnn Hv E; cbn zeta; destruct (type_eqb (type_ dst_reg) SCALAR_VALUE) eqn:T.
  - apply type_eqb_true in T; pose proof (sim_scalar _ _ _ HD T) as (_ & M & _).
    destruct (predict_scalar dst_reg DST val SRC op j T M Hv E) as [-> | ->]; [lia|reflexivity].
  - unfold is_branch_taken, __is_pointer_value; rewrite T; cbn [negb].
    destruct (reg_type_not_null (type_ dst_reg)); cbn [negb]; [|lia].
    destruct (Z.eqb_spec val 0) as [->|]; cbn [negb]; [|lia]; specialize (Hnn eq_refl).
    assert (Q : (uwrap (jmp_width j) DST =? uwrap (jmp_width j) SRC) = false)
      by (rewrite E; change (uwrap _ 0) with 0; apply Z.eqb_neq; exact Hnn).
    destruct op; cbn [jmp_code Z.eqb Pos.eqb cond_jmp]; try lia; rewrite Q; reflexivity.
Qed.

Lemma pred_sound insn op o dst_reg src_reg bd bs DST SRC :
  let j := BPF_CLASS (insn_code insn) =? BPF_JMP32 in
  BPF_OP (insn_code insn) = jmp_code op -> BPF_SRC (insn_code insn) = src_code o -> reg_sim dst_reg bd DST ->
  match o with X => reg_sim src_reg bs SRC | K => SRC = insn_imm insn end ->
  (reg_type_not_null (type_ dst_reg) = true -> uwrap (jmp_width j) DST <> 0) ->
  let p := cond_jmp_pred insn dst_reg src_reg in p >= 0 -> p = Z.b2z (cond_jmp (jmp_width j) op DST SRC).
Proof.
  cbn zeta; unfold cond_jmp_pred; intros -> -> HD HS Hnn; set (j := _ =? BPF_JMP32) in *; clearbody j.
  destruct o; cbn [src_code Z.eqb Pos.eqb].
  - destruct (type_eqb (type_ src_reg) SCALAR_VALUE) eqn:T; cbn [andb]; [|lia].
    apply type_eqb_true in T; pose proof (sim_scalar _ _ _ HS T) as ((Ht & _) & M & _); pose proof (reg_mem_range _ _ M) as U.
    pose proof (const_operand j src_reg SRC M) as C; destruct j; cbn [andb negb] in *.
    + destruct (tnum_is_const (tnum_subreg (var_off src_reg))) eqn:E; [|lia].
      apply (predict _ bd); trivial; [apply tnum_ok_value, tnum_subreg_ok, Ht|apply C, orb_true_r].
    + destruct (tnum_is_const (var_off src_reg)) eqn:E; [|lia].
      apply (predict _ bd); trivial; [apply tnum_ok_value, Ht|rewrite C by reflexivity; symmetry; apply uwrap_id, tnum_ok_value, Ht].
  - apply (predict _ bd); trivial; [apply uwrap_range; lia|]; rewrite HS; destruct j; cbn [jmp_width]; symmetry; apply uwrap_uwrap; lia.
Qed.

(** ** [check_cond_jmp_op] *)

Definition jmp_label (is_jmp32 : bool) (op : jmp_op) (o : operand) : label := if is_jmp32 then L_JMP32 op o else L_JMP op o.

Lemma jmp_label_code j op o code : uin 8 code -> jumptable code = jmp_label j op o ->
  (BPF_CLASS code =? BPF_JMP32) = j /\ BPF_OP code = jmp_code op /\ BPF_SRC code = src_code o.
Proof.
  intros Hc Hl; pose proof (jumptable_code code Hc) as H; rewrite Hl in H.
  destruct j; cbn in H; rewrite H; destruct op, o; repeat split.
Qed.

(** The machine's next instruction is explored in a state that simulates it. *)
Definition jump_to (sim : bpf_verifier_state -> Prop) (env : bpf_verifier_env) (pc' : Z) : Prop :=
  (pc' = insn_idx env + 1 /\ sim (cur_state env)) \/
  (exists e l, head env = e :: l /\ pc' = elem_insn_idx e /\ sim (elem_st e)).

Definition jump_sim (env : bpf_verifier_env) (pc' : Z) (σ : list Z) (β : Z -> Z) : Prop := jump_to (fun st => state_sim st σ β) env pc'.

Section CheckJump.
Context (mp : gmap Z bpf_map) (σ : list Z) (β : Z -> Z) (sim : bpf_verifier_state -> Prop) {Js : JumpSim mp σ β sim}.

Lemma known_sim insn pred env u env' c : sim (cur_state env) -> pred = Z.b2z c ->
  cond_jmp_known insn pred env = (inr u, env') ->
  jump_to sim env' (if c then insn_idx env + insn_off insn + 1 else insn_idx env + 1).
Proof using.
  intros S -> H; unfold cond_jmp_known in H; run H; injection R as <- <-; run H.
  assert (G : cur_state env0 = cur_state env /\ insn_idx env0 = insn_idx env).
  { destruct (bypass_spec_v1 env); [injection R as _ <-; auto|apply spec_path_idx in R; exact R]. }
  destruct G as [E1 E2]; match type of H with (if ?b then _ else _) _ = _ => destruct b; [discriminate|] end.
  left; destruct c; cbn [Z.b2z Z.eqb when] in H; injection H as _ <-; cbn; rewrite E2, E1; split; trivial; lia.
Qed.

Lemma branch_sim insn op o env u env' DST SRC : let j := BPF_CLASS (insn_code insn) =? BPF_JMP32 in
  regno_ok (insn_dst insn) -> regno_ok (insn_src insn) -> BPF_OP (insn_code insn) = jmp_code op -> BPF_SRC (insn_code insn) = src_code o ->
  reg_get σ (insn_dst insn) = Some DST -> (match o with X => reg_get σ (insn_src insn) | K => Some (insn_imm insn) end) = Some SRC ->
  sim (cur_state env) -> maps env = mp ->
  (other ← push_stack (insn_idx env + insn_off insn + 1) (insn_idx env) false;
   if negb other then fail (- EFAULT) else _ ← cond_jmp_refine insn; cond_jmp_pointers insn) env = (inr u, env') ->
  jump_to sim env' (if cond_jmp (jmp_width j) op DST SRC then insn_idx env + insn_off insn + 1 else insn_idx env + 1).
Proof using Js.
  cbn zeta; intros Hd Hs Hop Ho HD HS S Hm H; run H; destruct a; [cbn [negb] in H|discriminate].
  apply push_true in R; destruct R as (E1 & E2 & Em & l & Eh); run H.
  set (taken := cond_jmp _ op DST SRC); set (tgt := insn_idx env + insn_off insn + 1) in *.
  assert (Eo : other_state env0 = set_speculative (cur_state env) (speculative (cur_state env) || false)) by (unfold other_state; rewrite Eh; reflexivity).
  assert (F : forall r, other_reg env0 r = get_reg env0 r) by (intros r; unfold other_reg, get_reg, cur_regs, cur_func; rewrite Eo, E1; reflexivity).
  assert (Bo : branches_ok mp sim taken tgt (insn_idx env) env0).
  { unfold branches_ok, sel, env_wf, cur_regs, cur_func; rewrite Eo, E1, Em; destruct (js_state _ S) as (W & _); refine (conj W (conj W (conj _ (conj (conj E2 Hm) (conj _ _))))).
    - exists (mk_elem (set_speculative (cur_state env) (speculative (cur_state env) || false)) tgt (insn_idx env)), l; auto.
    - intros r _; rewrite F; auto.
    - destruct taken; [apply (js_spec (JumpSim := Js))|]; exact S. }
  assert (B1 : branches_ok mp sim taken tgt (insn_idx env) env1) by (eapply (refine_step mp σ β sim); eauto).
  assert (L : lands sim taken tgt (insn_idx env) env').
  { destruct (js_state _ S) as (_ & _ & R' & _); destruct (R' _ Hs) as (y & Hy & _).
    eapply (pointers_lands mp σ β sim); [exact B1|exact Hd|exact Hs|exact Hop|exact HD|exact Hy| | |exact H].
    - intros Hj Hk Hi; subst taken; apply Z.eqb_neq in Hj; rewrite Hj; destruct o; rewrite Ho in Hk; [discriminate|]; injection HS as <-; rewrite Hi; reflexivity.
    - intros Hj Hk; subst taken; apply Z.eqb_neq in Hj; rewrite Hj; destruct o; rewrite Ho in Hk; [|discriminate]; replace y with SRC by congruence; reflexivity. }
  destruct L as ((e & l' & Eh' & Et) & Ep & Sl); unfold sel, other_state in Sl; rewrite Eh' in Sl; unfold jump_to.
  destruct taken; [right; exists e, l'|left; split; [congruence|exact Sl]]; auto.
Qed.

Lemma check_cond_jmp_sound insn j op o env u env' pc' : insn_ok insn -> jumptable (insn_code insn) = jmp_label j op o ->
  sim (cur_state env) -> maps env = mp ->
  (forall x, reg_get σ (insn_dst insn) = Some x -> reg_type_not_null (type_ (get_reg env (insn_dst insn))) = true -> uwrap (jmp_width j) x <> 0) ->
  check_cond_jmp_op insn env = (inr u, env') -> step_jmp (jmp_width j) op o insn σ (insn_idx env) = Some pc' ->
  jump_to sim env' pc'.
Proof using Js.
  intros Hok Hl S Hm Hnn H Hst; destruct (jmp_label_code _ _ _ _ (proj1 Hok) Hl) as (Ej & Hop & Ho).
  unfold check_cond_jmp_op in H; match type of H with (if ?c then _ else _) _ = _ => destruct c; [discriminate|] end.
  run H; destruct (operands_ok _ _ _ _ Hok R) as (E0 & Hd & Hs); run H; injection R0 as <- <-; run H; injection R0 as <- <-.
  pose proof (js_same env env0 ltac:(symmetry; exact E0) S) as S0; pose proof (same_idx _ _ E0) as I0.
  destruct (js_state _ S0) as (_ & _ & G & _); destruct (G _ Hd) as (DST & HD & SD); destruct (G _ Hs) as (SR & HSR & SS).
  unfold step_jmp in Hst; rewrite HD in Hst; cbn [mbind option_bind] in Hst.
  assert (HS : exists SRC, (match o with X => reg_get σ (insn_src insn) | K => Some (insn_imm insn) end) = Some SRC /\
    match o with X => reg_sim (get_reg env0 (insn_src insn)) (β (insn_src insn)) SRC | K => SRC = insn_imm insn end) by (destruct o; eauto).
  destruct HS as (SRC & HS & SS'); rewrite HS in Hst; cbn [mbind option_bind] in Hst; injection Hst as <-; rewrite <- Ej, I0 in *.
  match type of H with (if ?c then _ else _) _ = _ => destruct c eqn:P end.
  - assert (Hp : cond_jmp_pred insn (get_reg env0 (insn_dst insn)) (get_reg env0 (insn_src insn)) >= 0) by (apply Z.geb_le in P; lia).
    apply (pred_sound insn op o _ _ (β (insn_dst insn)) (β (insn_src insn)) DST SRC Hop Ho SD SS') in Hp.
    2: { intros N; apply (Hnn DST HD); rewrite (same_reg_type env env0) by (symmetry; exact E0); exact N. }
    run H; run H.
    assert (E1 : env1 ≈ env0) by (unfold when in R0; destruct (negb _); [eapply mark_precision_same; exact R0|injection R0 as _ <-; reflexivity]).
    assert (E2 : env2 ≈ env0).
    { etransitivity; [|exact E1]; unfold when in R1; match type of R1 with (if ?c then _ else _) _ = _ => destruct c end;
        [eapply mark_precision_same; exact R1|injection R1 as _ <-; reflexivity]. }
    pose proof (js_same env0 env2 ltac:(symmetry; exact E2) S0) as S2.
    pose proof (known_sim _ _ _ _ _ _ S2 Hp H) as K; rewrite (same_idx env0 env2) in K by (symmetry; exact E2); exact K.
  - run H; injection R0 as <- <-; eapply branch_sim; try eassumption; rewrite <- Hm; exact (f_equal maps E0).
Qed.
End CheckJump.

(** ** Packet bounds *)

(** The range marked is safe to access: the register stands for
    [data + v + off], and the bytes below [data + v + range] are below [e]. *)
Lemma good_range_safe reg ro range data v e p : sin 32 (off reg) -> reg_ok reg -> reg_mem reg v -> 0 <= data -> data + MAX_PACKET_OFF < 2 ^ 64 ->
  good_pkt_range reg ro = Some range -> p = u64 (data + v + off reg) -> (if ro then p < e else p <= e) -> 0 <= range /\ data + v + range <= e.
Proof.
  intros Ho (_ & (_ & _ & _ & Hu) & _) (Hm & (_ & Hx) & _) H0 Hd H Hp He; cbn in Hu, Hx; unfold good_pkt_range in H.
  assert (Hv : uin 64 v) by apply Hm; rewrite uwrap_id in Hx by exact Hv.
  match type of H with (if ?c then _ else _) = _ => destruct c eqn:C1; [discriminate|] end.
  match type of H with (if ?c then _ else _) = _ => destruct c eqn:C2; [discriminate|] end.
  apply orb_false_iff in C1, C2; destruct C1 as [C1 _], C2 as [C2 C3]; unfold uin, sin in *.
  rewrite uwrap_id in C3 by kia; rewrite (uwrap_id 16 (off reg)) in H by kia; rewrite uwrap_id in Hp by kia.
  injection H as <-; destruct ro; [|lia].
  destruct (Z.eq_dec (off reg) 0xffff) as [E|N]; [rewrite E; change (u16 (0xffff + 1)) with 0; lia|].
  rewrite uwrap_id by kia; lia.
Qed.
