(* ===== verification/AluFrame.v ===== *)
(** What arithmetic leaves alone: the program, the stacks of all frames, and
    the states still to explore, to which the sanitation of pointer arithmetic
    may add a speculative one. *)
From Stdlib Require Import ZArith Lia Bool.
From stdpp Require Import base list gmap.
From S2P Require Import Prelude Lists Bits Tnum Bounds RegState ScalarOps Insn Interp Env MemAccess RegArg Precision Bookkeeping Alu AluSound Frame.

Local Open Scope Z_scope.
Local Open Scope kint_scope.

(** ** The stacks *)

Definition stacks (e : bpf_verifier_env) := (curframe (cur_state e), (fun f => erase_slot <$> stack f) <$> frame (cur_state e)).

Lemma stacks_upd_regs f e : stacks (upd_regs f e) = stacks e.
Proof.
  unfold stacks, upd_regs, upd_cur_func; cbn [cur_state set_cur_state curframe set_frame frame]; f_equal; apply list_eq; intros j.
  rewrite !list_lookup_fmap, list_lookup_alter; case_decide; subst; [|reflexivity]; destruct (_ !! _); reflexivity.
Qed.

Lemma stacks_cur e e' : cur_state e' = cur_state e -> stacks e' = stacks e.
Proof. unfold stacks; intros ->; reflexivity. Qed.

Lemma stacks_same e e' : e' ≈ e -> stacks e' = stacks e.
Proof.
  assert (P : forall q, stacks (erase_env q) = stacks q); [|intros H; rewrite <- (P e'), <- (P e), H; reflexivity].
  intros q; unfold stacks; cbn; f_equal; rewrite <- list_fmap_compose; apply list_fmap_ext; intros j f _; cbn.
  rewrite <- list_fmap_compose; reflexivity.
Qed.

Lemma stacks_reg r f : fixes stacks (upd_reg r f).
Proof. intros e; apply stacks_upd_regs. Qed.

Lemma stacks_unknown r : fixes stacks (mark_reg_unknown r).
Proof. intros e; unfold mark_reg_unknown; destruct (_ >=? _); apply stacks_upd_regs. Qed.

Lemma stacks_precision r : fixes stacks (mark_chain_precision r).
Proof. intros e; apply stacks_same, mark_chain_same. Qed.

Lemma stacks_reg_arg r t : fixes stacks (check_reg_arg r t).
Proof.
  unfold check_reg_arg; fixes_auto; try apply stacks_reg; try apply stacks_unknown.
  - intros e; unfold mark_insn_zext; destruct (_ =? _); [reflexivity|]; etrans; [apply stacks_upd_regs|reflexivity].
  - intros e; apply stacks_same, mark_reg_read_same.
Qed.

Lemma stacks_fresh r : fixes stacks (fresh_id r).
Proof. intros e; unfold fresh_id; etrans; [apply stacks_reg|reflexivity]. Qed.

Lemma stacks_kzalloc : fixes stacks kzalloc.
Proof. intros e; unfold kzalloc; destruct (alloc e); reflexivity. Qed.

#[export] Hint Resolve stacks_kzalloc stacks_reg stacks_unknown stacks_precision stacks_reg_arg stacks_fresh : fixes.

Lemma program_fresh r : fixes program (fresh_id r).
Proof. intros e; reflexivity. Qed.

#[export] Hint Resolve program_fresh : fixes.

(** ** Pushed states *)

Lemma push_stack_fixes a b s : fixes program (push_stack a b s) /\ fixes stacks (push_stack a b s).
Proof.
  split; intros e; unfold push_stack, kzalloc, modify, get, drop_states, mbind, verifier_bind, mret, verifier_ret;
    repeat first [progress cbn|case_match]; simplify_eq; reflexivity.
Qed.

Lemma branch_regs_fixes f e : program (upd_branch_regs f e) = program e /\ stacks (upd_branch_regs f e) = stacks e.
Proof. unfold upd_branch_regs; destruct (head e); split; reflexivity. Qed.

Lemma spec_path_fixes i a b : fixes program (sanitize_speculative_path i a b) /\ fixes stacks (sanitize_speculative_path i a b).
Proof.
  split; unfold sanitize_speculative_path; (apply fixes_bind; [apply push_stack_fixes|intros ?]); fixes_auto; apply fixes_modify; intros; apply branch_regs_fixes.
Qed.

Lemma cur_aux_program (f : bpf_insn_aux_data -> bpf_insn_aux_data) e : aux_fixed (f (cur_aux e)) = aux_fixed (cur_aux e) -> program (upd_cur_aux f e) = program e.
Proof.
  intros H; unfold program, upd_cur_aux; cbn; f_equal; f_equal; apply list_eq; intros j; rewrite !list_lookup_fmap, list_lookup_alter; case_decide; subst; [|reflexivity].
  unfold cur_aux in H; rewrite list_lookup_total_alt in H; destruct (insn_aux_data e !! _); cbn in *; [rewrite H|]; reflexivity.
Qed.

Lemma alu_state_prune a s l a' : update_alu_sanitation_state a s l = inr a' -> aux_fixed a' = aux_fixed a.
Proof. unfold update_alu_sanitation_state; destruct (_ && _); intros H; [discriminate|injection H as <-; reflexivity]. Qed.

Lemma sanitize_val_fixes insn : fixes program (sanitize_val_alu insn) /\ fixes stacks (sanitize_val_alu insn).
Proof.
  split; intros e; unfold sanitize_val_alu; destruct (can_skip_alu_sanitation _ _); try reflexivity;
    destruct (update_alu_sanitation_state _ _ _) eqn:E; try reflexivity; apply cur_aux_program, (alu_state_prune _ _ _ _ E).
Qed.

Lemma sanitize_limits_fixes insn p o d info c : fixes program (sanitize_ptr_limits insn p o d info c) /\ fixes stacks (sanitize_ptr_limits insn p o d info c).
Proof.
  split; intros e; unfold sanitize_ptr_limits; repeat case_match; simplify_eq; try reflexivity.
  apply cur_aux_program; eapply alu_state_prune; eassumption.
Qed.

Lemma sanitize_ptr_fixes insn p o d info c : fixes program (sanitize_ptr_alu insn p o d info c) /\ fixes stacks (sanitize_ptr_alu insn p o d info c).
Proof. split; unfold sanitize_ptr_alu; fixes_auto; first [apply sanitize_limits_fixes|apply spec_path_fixes]. Qed.

Lemma check_bounds_fixes {T} (F : bpf_verifier_env -> T) insn d : fixes F (sanitize_check_bounds insn d).
Proof.
  unfold sanitize_check_bounds, check_stack_access_for_ptr_arithmetic, check_map_access, check_mem_region_access, __check_mem_access; fixes_auto.
Qed.

(** ** The instruction *)

Lemma alu_fixes insn : fixes program (check_alu_op insn) /\ fixes stacks (check_alu_op insn).
Proof.
  split; unfold check_alu_op, check_alu_unary, check_alu_mov, check_alu_mov_reg, check_alu_binary, adjust_reg_min_max_vals, adjust_ptr_min_max_vals, ptr_op,
    adjust_scalar_min_max_vals, scalar_op; fixes_auto;
    first [apply check_bounds_fixes|apply fixes_or_err; first [apply sanitize_ptr_fixes|apply sanitize_val_fixes]|apply sanitize_ptr_fixes|apply sanitize_val_fixes].
Qed.

(** ** The states still to explore *)

#[export] Instance head_view : View head.
Proof. split; try reflexivity; intros e e' H; exact (f_equal head H). Qed.

(** A successful computation only adds states. *)
Definition grows {A} (m : verifier A) : Prop := forall e a e', m e = (inr a, e') -> head e `suffix_of` head e'.

Lemma grows_fixes {A} (m : verifier A) : fixes head m -> grows m.
Proof. intros H e a e' R; rewrite (fixes_run _ _ _ _ _ H R); reflexivity. Qed.

Lemma grows_bind {A B} (m : verifier A) (f : A -> verifier B) : grows m -> (forall a, grows (f a)) -> grows (m ≫= f).
Proof. intros Hm Hf e b e' H; run H; etrans; [exact (Hm _ _ _ R)|exact (Hf _ _ _ _ H)]. Qed.

Lemma grows_if {A} (b : bool) (m m' : verifier A) : grows m -> grows m' -> grows (if b then m else m').
Proof. destruct b; auto. Qed.

Lemma grows_or_err {A} (m : verifier A) : grows m -> grows (or_sanitize_err m).
Proof. intros H e a e' R; apply or_sanitize_ok in R; exact (H _ _ _ R). Qed.

Ltac grows_step :=
  first
    [ progress cbv zeta
    | match goal with
      | |- grows (_ ≫= _) => apply grows_bind; [|intros ?]
      | |- grows (if _ then _ else _) => apply grows_if
      | |- grows (or_sanitize_err _) => apply grows_or_err
      | |- grows (match ?x with _ => _ end) => destruct x
      end
    | apply grows_fixes; solve [fixes_auto; try apply check_bounds_fixes] ].
Ltac grows_auto := repeat grows_step.

Lemma push_head a b s e e' : push_stack a b s e = (inr true, e') -> exists st, head e' = mk_elem st a b :: head e.
Proof.
  unfold push_stack, kzalloc, modify, get, drop_states, mbind, verifier_bind, mret, verifier_ret.
  repeat first [progress cbn|case_match]; intros; simplify_eq; cbn; eauto.
Qed.

Lemma head_fresh r : fixes head (fresh_id r).
Proof. intros e; reflexivity. Qed.

Lemma head_sanitize_val insn : fixes head (sanitize_val_alu insn).
Proof. intros e; unfold sanitize_val_alu; destruct (can_skip_alu_sanitation _ _); [|destruct (update_alu_sanitation_state _ _ _)]; reflexivity. Qed.

Lemma head_limits insn p o d info c : fixes head (sanitize_ptr_limits insn p o d info c).
Proof. intros e; unfold sanitize_ptr_limits; repeat case_match; simplify_eq; reflexivity. Qed.

#[export] Hint Resolve head_fresh head_sanitize_val head_limits : fixes.

Lemma grows_spec_path a b e e' : sanitize_speculative_path None a b e = (inr true, e') -> head e `suffix_of` head e'.
Proof.
  unfold sanitize_speculative_path; intros H; run H; run H; injection R0 as <- <-; injection H as -> <-.
  destruct (push_head _ _ _ _ _ R) as (st & ->); eexists [_]; reflexivity.
Qed.

(** The speculative state is pushed, or the check fails. *)
Lemma grows_pushed {A} a b c d f (info : A) err :
  grows (ret ← sanitize_speculative_path None a b; _ ← when (c && ret) (upd_reg d f); if (ret : bool) then mret info else fail err).
Proof.
  intros e i e' H; run H; run H; destruct a0; [|discriminate]; injection H as _ <-; apply grows_spec_path in R; etrans; [exact R|].
  apply (grows_fixes _ (fixes_when head _ _ (fixes_upd_reg head _ _)) _ _ _ R0).
Qed.

Lemma grows_sanitize_ptr insn p o d info c : grows (sanitize_ptr_alu insn p o d info c).
Proof. unfold sanitize_ptr_alu; repeat first [apply grows_pushed|grows_step]. Qed.

Lemma alu_grows insn : grows (check_alu_op insn).
Proof.
  unfold check_alu_op, check_alu_unary, check_alu_mov, check_alu_mov_reg, check_alu_binary, adjust_reg_min_max_vals, adjust_ptr_min_max_vals, ptr_op,
    adjust_scalar_min_max_vals, scalar_op; grows_auto; apply grows_sanitize_ptr.
Qed.
