(* ===== verification/AluIds.v ===== *)
(** Register ids across arithmetic.

    [find_equal_scalars] and [mark_ptr_or_null_regs] copy knowledge between
    registers with the same id, so an instruction may give two registers the
    same id only if they hold the same value.  Arithmetic clears the id of a
    scalar destination, a copy takes a fresh one, and nothing else is tied; with
    the simulation of [AluStep] this makes [state_sim] an invariant of
    [check_alu_op]. *)
From Stdlib Require Import ZArith Lia Bool.
From stdpp Require Import base list gmap.
From S2P Require Import Prelude Bits Tnum Bounds RegState ScalarOps ScalarBits Insn Interp Env Branch MemAccess.
From S2P Require Import RegArg Precision Bookkeeping Alu AluSound PtrSound AluStep CondJmp CondJmpSound.

Local Open Scope Z_scope.
Local Open Scope kint_scope.

(** ** What a computation leaves alone *)

(** Every register but [dst] keeps its state up to bookkeeping, and at most [n]
    ids are drawn. *)
Definition others (dst n : Z) (env env' : bpf_verifier_env) : Prop :=
  env_wf env' /\ (forall j, 0 <= j -> j <> dst -> erase_reg (get_reg env' j) = erase_reg (get_reg env j)) /\
  (0 <= id_gen env -> id_gen env + n < 2 ^ 32 -> id_gen env <= id_gen env' <= id_gen env + n).

Definition keeps {A} (dst n : Z) (m : verifier A) : Prop :=
  forall env a env', env_wf env -> m env = (inr a, env') -> others dst n env env'.

Create HintDb keeps discriminated.
Create HintDb fresh discriminated.

Section Keeps.
Context {A B : Type} (dst : Z).

Lemma others_trans n p e1 e2 e3 : 0 <= n -> 0 <= p -> others dst n e1 e2 -> others dst p e2 e3 -> others dst (n + p) e1 e3.
Proof.
  intros Hn Hp (W1 & O1 & G1) (W2 & O2 & G2); split; [exact W2|]; split; [|lia].
  intros j H0 Hj; rewrite O2, O1 by assumption; reflexivity.
Qed.

Lemma others_id env : env_wf env -> others dst 0 env env.
Proof. intros W; split; [exact W|]; split; [reflexivity|lia]. Qed.

Lemma keeps_bind n p (m : verifier A) (f : A -> verifier B) : 0 <= n -> 0 <= p -> keeps dst n m -> (forall a, keeps dst p (f a)) -> keeps dst (n + p) (m ≫= f).
Proof. intros Hn Hp Hm Hf env b env' W H; run H; eapply others_trans; [exact Hn|exact Hp|apply (Hm _ _ _ W R)|eapply Hf; [apply (Hm _ _ _ W R)|exact H]]. Qed.

Lemma keeps_ret (a : A) : keeps dst 0 (mret a).
Proof. intros env b env' W [= _ <-]; apply others_id, W. Qed.

Lemma keeps_fail err : keeps dst 0 (fail err : verifier A).
Proof. intros env a env' _ H; discriminate H. Qed.

Lemma keeps_mono n p (m : verifier A) : keeps dst n m -> n <= p -> keeps dst p m.
Proof. intros Hm Hn env a env' W H; destruct (Hm env a env' W H) as (W' & O & G); split; [exact W'|]; split; [exact O|lia]. Qed.

Lemma keeps_if n (b : bool) (m m' : verifier A) : keeps dst n m -> keeps dst n m' -> keeps dst n (if b then m else m').
Proof. destruct b; auto. Qed.

Lemma keeps_or_err n (m : verifier A) : keeps dst n m -> keeps dst n (or_sanitize_err m).
Proof. intros Hm env a env' W H; apply or_sanitize_ok in H; exact (Hm _ _ _ W H). Qed.
End Keeps.

Lemma keeps_when dst n b (m : verifier unit) : 0 <= n -> keeps dst n m -> keeps dst n (when b m).
Proof. intros Hn H; apply keeps_if; [exact H|]; eapply keeps_mono; [apply keeps_ret|exact Hn]. Qed.

Lemma keeps_get dst : keeps dst 0 get.
Proof. intros env a env' W [= _ <-]; apply others_id, W. Qed.

Lemma keeps_reg_of dst r : keeps dst 0 (reg_of r).
Proof. intros env a env' W [= _ <-]; apply others_id, W. Qed.

Lemma keeps_load_ptr dst p : keeps dst 0 (load_ptr p).
Proof. destruct p; [apply keeps_reg_of|apply keeps_ret]. Qed.

Lemma keeps_upd dst f : 0 <= dst -> keeps dst 0 (upd_reg dst f).
Proof.
  intros Hd env a env' W [= _ <-]; split; [apply put_reg_wf, W|]; split; [|cbn; lia].
  intros j H0 Hj; rewrite get_put_other by (trivial; lia); reflexivity.
Qed.

Lemma keeps_unknown dst : regno_ok dst -> keeps dst 0 (mark_reg_unknown dst).
Proof. intros Hd env a env' W; rewrite mark_unknown_run by exact Hd; apply (keeps_upd dst (__mark_reg_unknown (flags env))); trivial; apply Hd. Qed.

Lemma keeps_fresh dst : 0 <= dst -> keeps dst 1 (fresh_id dst).
Proof.
  intros Hd env a env' W [= _ <-]; split; [apply put_reg_wf, W|]; split.
  - intros j H0 Hj; rewrite get_put_other by (trivial; lia); reflexivity.
  - cbn; intros G0 G1; rewrite uwrap_id by (unfold uin; lia); lia.
Qed.

#[export] Hint Resolve keeps_fresh : fresh.

(** Computations that touch no register. *)
Lemma same_others dst env env' : env_wf env -> env' ≈ env -> others dst 0 env env'.
Proof.
  intros W E; split; [rewrite E; exact W|]; split; [intros j _ _; apply same_reg, E|].
  change (id_gen env') with (id_gen (erase_env env')); rewrite E; cbn; lia.
Qed.

Lemma keeps_same {A} dst (m : verifier A) : (forall env a env', m env = (inr a, env') -> env' ≈ env) -> keeps dst 0 m.
Proof. intros Hm env a env' W H; apply same_others; [exact W|exact (Hm _ _ _ H)]. Qed.

Lemma keeps_cur {A} dst (m : verifier A) : (forall env a env', m env = (inr a, env') -> cur_state env' = cur_state env /\ id_gen env' = id_gen env) -> keeps dst 0 m.
Proof.
  intros Hm env a env' W H; destruct (Hm _ _ _ H) as [E G]; unfold others, env_wf, get_reg, cur_regs, cur_func; rewrite E; split; [exact W|]; split; [reflexivity|].
  rewrite G; lia.
Qed.

Lemma keeps_bind0 {A B} dst n (m : verifier A) (f : A -> verifier B) : 0 <= n -> keeps dst 0 m -> (forall a, keeps dst n (f a)) -> keeps dst n (m ≫= f).
Proof. intros Hn; apply (keeps_bind dst 0 n); lia. Qed.

Lemma keeps_opt {A B} dst n (m : verifier A) (x : option B) (f : B -> verifier A) : keeps dst n m -> (forall b, keeps dst n (f b)) ->
  keeps dst n (match x with Some b => f b | None => m end).
Proof. destruct x; auto. Qed.

#[export] Hint Resolve keeps_ret keeps_fail keeps_get keeps_reg_of keeps_load_ptr keeps_upd keeps_unknown keeps_or_err : keeps.

(** Walk through a computation that draws at most [n] ids. *)
Ltac keeps_tac :=
  repeat match goal with
  | |- keeps _ 1 (_ ≫= _) => apply (keeps_bind _ 1 0); [lia|lia|solve [eauto with fresh]|intros]
  | |- keeps _ _ (_ ≫= _) => apply keeps_bind0; [lia| |intros]
  | |- keeps _ _ (if _ then _ else _) => apply keeps_if
  | |- keeps _ _ (when _ _) => apply keeps_when; [lia|]
  | |- keeps _ _ (let _ := _ in _) => cbv zeta
  | |- keeps _ _ _ => solve [eapply keeps_mono; [auto with keeps|lia]]
  end.

Lemma push_gen a b s env r env' : push_stack a b s env = (inr r, env') -> id_gen env' = id_gen env.
Proof.
  unfold push_stack, kzalloc, modify, get, drop_states, mbind, verifier_bind, mret, verifier_ret.
  repeat first [progress cbn|case_match]; intros; simplify_eq; reflexivity.
Qed.

Lemma keeps_spec_path dst i a b : keeps dst 0 (sanitize_speculative_path i a b).
Proof.
  apply keeps_cur; intros env r env' H; split; [apply spec_path_idx in H; apply H|].
  unfold sanitize_speculative_path in H; run H; apply push_gen in R; run H; injection R0 as <- <-; rewrite <- R.
  assert (G : forall f e, id_gen (upd_branch_regs f e) = id_gen e) by (intros f e; unfold upd_branch_regs; destruct (head e); reflexivity).
  destruct i as [i|]; [|injection H as _ <-; reflexivity].
  repeat match type of H with (if ?c then _ else _) _ = _ => destruct c end; repeat (run H; injection R0 as _ <-);
    injection H as _ <-; rewrite ?G; reflexivity.
Qed.

Lemma keeps_limits dst insn p o d info c : keeps dst 0 (sanitize_ptr_limits insn p o d info c).
Proof.
  apply keeps_cur; intros env r env' H; split; [apply sanitize_limits_regs in H; apply H|]; revert H; unfold sanitize_ptr_limits.
  repeat case_match; intros; simplify_eq; reflexivity.
Qed.

#[export] Hint Resolve keeps_spec_path keeps_limits : keeps.

Lemma keeps_sanitize_ptr dst insn ptr off_ info c : 0 <= dst -> keeps dst 0 (sanitize_ptr_alu insn ptr off_ dst info c).
Proof. intros Hd; unfold sanitize_ptr_alu; keeps_tac. Qed.

Lemma keeps_sanitize_val dst insn : keeps dst 0 (sanitize_val_alu insn).
Proof.
  apply keeps_cur; intros env r env'; unfold sanitize_val_alu; destruct (can_skip_alu_sanitation env insn); [intros [= _ <-]; auto|].
  destruct (update_alu_sanitation_state _ _ _); [discriminate|intros [= _ <-]; auto].
Qed.

Lemma keeps_check_bounds dst insn d : keeps dst 0 (sanitize_check_bounds insn d).
Proof. apply keeps_cur; intros env r env' H; apply sanitize_check_env in H; subst; auto. Qed.

Lemma keeps_chain dst r : keeps dst 0 (mark_chain_precision r).
Proof. apply keeps_same; intros env a env'; apply mark_precision_same. Qed.

Lemma keeps_src_op dst r : keeps dst 0 (check_reg_arg r SRC_OP).
Proof. apply keeps_same; intros env a env' H; apply src_op_ok in H; apply H. Qed.

#[export] Hint Resolve keeps_sanitize_ptr keeps_sanitize_val keeps_check_bounds keeps_chain keeps_src_op : keeps.

Lemma keeps_dst_op dst : 0 <= dst -> keeps dst 0 (check_reg_arg dst DST_OP_NO_MARK).
Proof. intros Hd env a env' W H; apply same_others; [exact W|]; apply dst_op_ok in H; trivial; apply H. Qed.

Lemma keeps_ptr_op dst insn ptr off_ known a b c d : 0 <= dst -> keeps dst 1 (ptr_op insn ptr off_ dst known a b c d).
Proof. intros Hd; unfold ptr_op; keeps_tac. Qed.

#[export] Hint Resolve keeps_ptr_op : fresh.

Lemma keeps_adjust_ptr insn ptr off_ : 0 <= insn_dst insn -> keeps (insn_dst insn) 1 (adjust_ptr_min_max_vals insn ptr off_).
Proof. intros Hd; unfold adjust_ptr_min_max_vals; keeps_tac. Qed.

Lemma keeps_adjust_scalar insn src_reg : regno_ok (insn_dst insn) -> keeps (insn_dst insn) 0 (adjust_scalar_min_max_vals insn (insn_dst insn) src_reg).
Proof. intros Hr; assert (Hd : 0 <= insn_dst insn) by apply Hr; unfold adjust_scalar_min_max_vals, scalar_op; keeps_tac. Qed.

#[export] Hint Resolve keeps_adjust_ptr keeps_adjust_scalar : keeps.

Lemma keeps_adjust_reg insn : regno_ok (insn_dst insn) -> keeps (insn_dst insn) 1 (adjust_reg_min_max_vals insn).
Proof. intros Hr; assert (Hd : 0 <= insn_dst insn) by apply Hr; unfold adjust_reg_min_max_vals; keeps_tac. Qed.

(** ** The destination *)

(** The transfer functions keep the id or clear it. *)
Create HintDb reg_id discriminated.

Ltac id_solve := cbn; repeat (match goal with |- context [if ?c then _ else _] => destruct c end; cbn); auto.

Section Id.
Variables d s : bpf_reg_state.
Hypothesis Hd : id d = 0.

Lemma id_add : id (scalar_min_max_add d s) = 0.
Proof using Hd. unfold scalar_min_max_add; id_solve. Qed.
Lemma id_add32 : id (scalar32_min_max_add d s) = 0.
Proof using Hd. unfold scalar32_min_max_add; id_solve. Qed.
Lemma id_sub : id (scalar_min_max_sub d s) = 0.
Proof using Hd. unfold scalar_min_max_sub; id_solve. Qed.
Lemma id_sub32 : id (scalar32_min_max_sub d s) = 0.
Proof using Hd. unfold scalar32_min_max_sub; id_solve. Qed.
Lemma id_mul : id (scalar_min_max_mul d s) = 0.
Proof using Hd. unfold scalar_min_max_mul; id_solve. Qed.
Lemma id_mul32 : id (scalar32_min_max_mul d s) = 0.
Proof using Hd. unfold scalar32_min_max_mul; id_solve. Qed.
Lemma id_and : id (scalar_min_max_and d s) = 0.
Proof using Hd. unfold scalar_min_max_and; id_solve. Qed.
Lemma id_and32 : id (scalar32_min_max_and d s) = 0.
Proof using Hd. unfold scalar32_min_max_and; id_solve. Qed.
Lemma id_or : id (scalar_min_max_or d s) = 0.
Proof using Hd. unfold scalar_min_max_or; id_solve. Qed.
Lemma id_or32 : id (scalar32_min_max_or d s) = 0.
Proof using Hd. unfold scalar32_min_max_or; id_solve. Qed.
Lemma id_xor : id (scalar_min_max_xor d s) = 0.
Proof using Hd. unfold scalar_min_max_xor; id_solve. Qed.
Lemma id_xor32 : id (scalar32_min_max_xor d s) = 0.
Proof using Hd. unfold scalar32_min_max_xor; id_solve. Qed.
Lemma id_lsh : id (scalar_min_max_lsh d s) = 0.
Proof using Hd. unfold scalar_min_max_lsh, __scalar64_min_max_lsh, __scalar32_min_max_lsh; id_solve. Qed.
Lemma id_lsh32 : id (scalar32_min_max_lsh d s) = 0.
Proof using Hd. unfold scalar32_min_max_lsh, __scalar32_min_max_lsh; id_solve. Qed.
Lemma id_rsh : id (scalar_min_max_rsh d s) = 0.
Proof using Hd. unfold scalar_min_max_rsh; id_solve. Qed.
Lemma id_rsh32 : id (scalar32_min_max_rsh d s) = 0.
Proof using Hd. unfold scalar32_min_max_rsh; id_solve. Qed.
Lemma id_arsh : id (scalar_min_max_arsh d s) = 0.
Proof using Hd. unfold scalar_min_max_arsh; id_solve. Qed.
Lemma id_arsh32 : id (scalar32_min_max_arsh d s) = 0.
Proof using Hd. unfold scalar32_min_max_arsh; id_solve. Qed.
Lemma id_zext : id (zext_32_to_64 d) = 0.
Proof using Hd. unfold zext_32_to_64, __reg_assign_32_into_64; id_solve. Qed.
Lemma id_tail : id (__reg_bound_offset (__reg_deduce_bounds (__update_reg_bounds d))) = 0.
Proof using Hd. rewrite (id_tag _ d); [exact Hd|autorewrite with reg_tag; reflexivity]. Qed.
Lemma id_set_off t : id (set_var_off d t) = 0.
Proof using Hd. exact Hd. Qed.
End Id.

#[export] Hint Resolve id_add id_add32 id_sub id_sub32 id_mul id_mul32 id_and id_and32 id_or id_or32 id_xor id_xor32
  id_lsh id_lsh32 id_rsh id_rsh32 id_arsh id_arsh32 id_zext id_tail id_set_off : reg_id.

Lemma unknown_id fl r : id (__mark_reg_unknown fl r) = 0.
Proof. reflexivity. Qed.

Lemma scalar_op_id insn src env u env' : env_wf env -> regno_ok (insn_dst insn) -> id (get_reg env (insn_dst insn)) = 0 ->
  scalar_op insn (insn_dst insn) src env = (inr u, env') -> env_wf env' /\ id (get_reg env' (insn_dst insn)) = 0.
Proof.
  intros W Hd H0 H; unfold scalar_op in H; cbv zeta in H.
  repeat match type of H with (if ?c then _ else _) _ = _ => destruct c end;
    rewrite ?mark_unknown_run in H by exact Hd; injection H as _ <-; (split; [apply put_reg_wf, W|]);
    rewrite get_put_same by assumption; try match goal with |- context [if ?c then _ else _] => destruct c end; auto 6 with reg_id.
Qed.

Lemma adjust_scalar_id insn src env u env' : env_wf env -> regno_ok (insn_dst insn) -> id (get_reg env (insn_dst insn)) = 0 ->
  adjust_scalar_min_max_vals insn (insn_dst insn) src env = (inr u, env') -> id (get_reg env' (insn_dst insn)) = 0.
Proof.
  intros W Hd H0 H; unfold adjust_scalar_min_max_vals in H; run H; injection R as <- <-.
  match type of H with (if ?c then _ else _) _ = _ => destruct c; [injection H as _ <-; rewrite get_put_same by assumption; reflexivity|] end.
  match type of H with (if ?c then _ else _) _ = _ => destruct c; [injection H as _ <-; rewrite get_put_same by assumption; reflexivity|] end.
  run H; assert (S : env_wf env0 /\ get_reg env0 (insn_dst insn) = get_reg env (insn_dst insn)).
  { unfold when in R; destruct (sanitize_needed _); [|injection R as _ <-; auto].
    apply or_sanitize_ok, (sanitize_val_only _ (insn_dst insn)) in R; [|exact W]; destruct R as [(? & _) E]; auto. }
  destruct S as [W0 E0]; run H; rewrite <- E0 in H0; apply scalar_op_id in R0; trivial; destruct R0 as [W1 H1].
  run H; injection H as _ <-; unfold when in R0; match type of R0 with (if ?c then _ else _) _ = _ => destruct c end; injection R0 as _ <-;
    rewrite !get_put_same by auto with verifier; auto with reg_id.
Qed.

Lemma ptr_op_type insn ptr off_ dst known a b c d env u env' : env_wf env -> regno_ok dst ->
  ptr_op insn ptr off_ dst known a b c d env = (inr u, env') -> env_wf env' /\ type_ (get_reg env' dst) = type_ (get_reg env dst).
Proof.
  intros W Hd H; assert (D0 : 0 <= dst) by apply Hd.
  unfold ptr_op in H; cbv zeta in H; run H; rewrite load_ptr_run in R; injection R as <- <-; run H; rewrite load_ptr_run in R; injection R as <- <-.
  assert (V : forall f p o w x y z, f = ptr_add_var \/ f = ptr_sub_var -> forall r, type_ (f r p o w x y z) = type_ r).
  { intros f p o w x y z [-> | ->] r; unfold ptr_add_var, ptr_sub_var; cbn; repeat match goal with |- context [if ?c then _ else _] => destruct c end; reflexivity. }
  repeat match type of H with (if ?c then _ else _) _ = _ => destruct c end; try discriminate H; try (injection H as _ <-; rewrite get_put_same by assumption; split; [apply put_reg_wf, W|reflexivity]).
  all: run H; injection R as _ <-; unfold when in H; match type of H with (if ?c then _ else _) _ = _ => destruct c end;
    [|injection H as _ <-; rewrite get_put_same by assumption; split; [apply put_reg_wf, W|apply V; auto]].
  all: run H; injection R as _ <-; try match type of H with (if ?c then _ else _) _ = _ => destruct c end; injection H as _ <-.
  all: rewrite !get_put_same by (repeat apply put_reg_wf; assumption); split; [repeat apply put_reg_wf; assumption|]; cbn.
  all: change (get_reg (set_id_gen ?e ?n) dst) with (get_reg e dst); rewrite get_put_same by assumption; apply V; auto.
Qed.

Lemma prohibited_null t z : ptr_arith_prohibited t z = false -> reg_type_may_be_null t = false.
Proof. destruct t; cbn; congruence. Qed.

Lemma link_none reg : id reg = 0 \/ (type_ reg <> SCALAR_VALUE /\ reg_type_may_be_null (type_ reg) = false) -> link reg = None.
Proof.
  unfold link; intros [->|[T N]]; [reflexivity|]; destruct (id reg =? 0); [reflexivity|]; rewrite N.
  destruct (type_eqb _ _) eqn:E; [apply type_eqb_true in E; contradiction|reflexivity].
Qed.

Lemma adjust_ptr_link insn ptr off_ env u env' : env_wf env -> regno_ok (insn_dst insn) -> type_ (ptr_val env ptr) <> SCALAR_VALUE ->
  adjust_ptr_min_max_vals insn ptr off_ env = (inr u, env') -> link (get_reg env' (insn_dst insn)) = None.
Proof.
  intros W Hd T0 H; apply link_none; unfold adjust_ptr_min_max_vals in H; run H; injection R as <- <-.
  run H; rewrite load_ptr_run in R; injection R as <- <-; run H; rewrite load_ptr_run in R; injection R as <- <-.
  match type of H with (if ?c then _ else _) _ = _ => destruct c; [injection H as _ <-; rewrite get_put_same by assumption; auto|] end.
  destruct (negb _); [match type of H with (if ?c then _ else _) _ = _ => destruct c; [injection H as _ <-; rewrite get_put_same by assumption; auto|discriminate] end|].
  destruct (ptr_arith_prohibited _ _) eqn:P; [discriminate|]; apply prohibited_null in P; right.
  run H; run H; rewrite load_ptr_run in R0; injection R0 as <- <-; run H; rewrite load_ptr_run in R0; injection R0 as <- <-.
  match type of H with (if ?c then _ else _) _ = _ => destruct c; [discriminate|] end; run H; run H.
  destruct (ptr_prepared insn env ptr off_ W Hd _ _ _ _ _ _ _ _ R R0 R1) as (((W2 & _) & _) & Ty & _).
  run H; apply ptr_op_type in R2; trivial; destruct R2 as [W3 T3].
  run H; injection R2 as <- <-; match type of H with (if ?c then _ else _) _ = _ => destruct c; [discriminate|] end.
  run H; injection R2 as _ <-; run H; apply sanitize_check_env in R2; subst env4; run H; injection H as _ <-.
  set (t := __reg_bound_offset _) in *.
  assert (E : get_reg env4 (insn_dst insn) = t).
  { destruct (sanitize_needed _); [|injection R2 as _ <-; apply get_put_same; assumption].
    apply or_sanitize_ok, sanitize_ptr_regs in R2; auto with verifier; destruct R2 as [_ ->]; apply get_put_same; assumption. }
  assert (Tt : type_ t = type_ (ptr_val env ptr)).
  { rewrite <- Ty, <- T3; apply type_tag; unfold t; autorewrite with reg_tag; reflexivity. }
  rewrite E, Tt; auto.
Qed.

Lemma adjust_reg_link insn env u env' : env_wf env -> regno_ok (insn_dst insn) -> regno_ok (insn_src insn) ->
  adjust_reg_min_max_vals insn env = (inr u, env') -> link (get_reg env' (insn_dst insn)) = None.
Proof.
  intros W Hd Hs H; unfold adjust_reg_min_max_vals in H; run H; injection R as <- <-; run H; injection R as <- <-; run H.
  set (is_ptr := negb (type_eqb (type_ (get_reg env (insn_dst insn))) SCALAR_VALUE)) in *.
  assert (P : env_wf env0 /\ type_ (get_reg env0 (insn_dst insn)) = type_ (get_reg env (insn_dst insn)) /\
    (is_ptr = false -> id (get_reg env0 (insn_dst insn)) = 0)).
  { unfold when in R; destruct is_ptr; injection R as _ <-; [split; [exact W|split; [reflexivity|discriminate]]|].
    rewrite get_put_same by assumption; auto with verifier. }
  destruct P as (W0 & T0 & I0); assert (Tp : is_ptr = true -> type_ (get_reg env0 (insn_dst insn)) <> SCALAR_VALUE).
  { rewrite T0; unfold is_ptr; destruct (type_eqb_spec (type_ (get_reg env (insn_dst insn))) SCALAR_VALUE); [discriminate|auto]. }
  clearbody is_ptr; clear R T0; destruct (_ =? BPF_X).
  - run H; injection R as <- <-; destruct (type_eqb_spec (type_ (get_reg env0 (insn_src insn))) SCALAR_VALUE) as [Ts|Ts]; cbn [negb] in H; destruct is_ptr.
    + run H; pose proof (mark_precision_same _ _ _ _ R) as E; assert (W1 : env_wf env1) by (rewrite E; exact W0).
      eapply adjust_ptr_link; [exact W1|exact Hd| |exact H].
      cbn [ptr_val]; rewrite (same_reg_type env1 env0) by exact E; apply Tp; reflexivity.
    + apply link_none; left; eapply adjust_scalar_id; [exact W0|exact Hd|apply I0; reflexivity|exact H].
    + destruct (_ && _); [|discriminate]; rewrite mark_unknown_run in H by exact Hd; injection H as _ <-.
      apply link_none; left; rewrite get_put_same by assumption; reflexivity.
    + run H; pose proof (mark_precision_same _ _ _ _ R) as E; assert (W1 : env_wf env1) by (rewrite E; exact W0).
      eapply adjust_ptr_link; [exact W1|exact Hd| |exact H].
      cbn [ptr_val]; rewrite (same_reg_type env1 env0) by exact E; exact Ts.
  - destruct is_ptr; [eapply (adjust_ptr_link insn (PReg (insn_dst insn))); [exact W0|exact Hd|apply Tp; reflexivity|exact H]|].
    apply link_none; left; eapply adjust_scalar_id; [exact W0|exact Hd|apply I0; reflexivity|exact H].
Qed.

(** What an instruction other than a 64-bit copy does to the links. *)
Definition unlinks (dst : Z) (env env' : bpf_verifier_env) : Prop := others dst 1 env env' /\ link (get_reg env' dst) = None.

(** Its destination is a scalar, as after all of them but pointer arithmetic. *)
Definition unlinks_scalar (dst : Z) (env env' : bpf_verifier_env) : Prop := unlinks dst env env' /\ type_ (get_reg env' dst) = SCALAR_VALUE.

Lemma binary_links insn env u env' : insn_ok insn -> env_wf env ->
  BPF_SRC (insn_code insn) = BPF_X \/ BPF_SRC (insn_code insn) = BPF_K ->
  check_alu_binary insn env = (inr u, env') -> unlinks (insn_dst insn) env env'.
Proof.
  intros Hok W Hsc H; destruct (binary_regnos _ _ _ _ Hok H Hsc) as [Hd Hs]; assert (D0 : 0 <= insn_dst insn) by apply Hd.
  unfold check_alu_binary in H; cbv zeta in H; run H.
  assert (E0 : env0 ≈ env).
  { match type of R with (if ?c then _ else _) _ = _ => destruct c end; match type of R with (if ?c then _ else _) _ = _ => destruct c; [discriminate|] end;
      [apply src_op_ok in R; apply R|injection R as _ <-; reflexivity]. }
  run H; apply src_op_ok in R0; destruct R0 as (_ & _ & E1).
  match type of H with (if ?c then _ else _) _ = _ => destruct c; [discriminate|] end.
  match type of H with (if ?c then _ else _) _ = _ => destruct c; [discriminate|] end.
  run H; assert (E01 : env1 ≈ env) by (etransitivity; eassumption).
  apply dst_op_ok in R0; [|rewrite E01; exact W|exact D0]; destruct R0 as (_ & _ & E2); assert (E : env2 ≈ env) by (etransitivity; eassumption).
  assert (W2 : env_wf env2) by (rewrite E; exact W); split; [|eapply adjust_reg_link; eassumption].
  apply (others_trans _ 0 1 env env2); [lia|lia|apply same_others; assumption|]; eapply keeps_adjust_reg; eassumption.
Qed.

Lemma unary_links insn env u env' : insn_ok insn -> env_wf env -> check_alu_unary insn env = (inr u, env') -> unlinks_scalar (insn_dst insn) env env'.
Proof.
  intros Hok W H; pose proof (unary_regno _ _ _ _ Hok H) as Hd; assert (D0 : 0 <= insn_dst insn) by apply Hd.
  unfold check_alu_unary in H; cbv zeta in H; match type of H with (if ?c then _ else _) _ = _ => destruct c; [discriminate|] end.
  run H; apply src_op_ok in R; destruct R as (_ & _ & E1); run H; injection R as <- <-.
  match type of H with (if ?c then _ else _) _ = _ => destruct c; [discriminate|] end.
  assert (W0 : env_wf env0) by (rewrite E1; exact W).
  unfold check_reg_arg in H; run H; injection R as <- <-; match type of H with (if ?c then _ else _) _ = _ => destruct c; [discriminate|] end.
  run H; injection R as <- <-; change (bool_decide (DST_OP = SRC_OP)) with false in H; cbn iota in H.
  match type of H with (if ?c then _ else _) _ = _ => destruct c; [discriminate|] end.
  run H; injection R as _ <-; run H; injection R as _ <-; change (bool_decide (DST_OP = DST_OP)) with true in H; cbn [when] in H.
  rewrite mark_unknown_run in H by exact Hd; injection H as _ <-; split; [|rewrite get_put_same by auto with verifier; reflexivity].
  split; [|apply link_none; left; rewrite get_put_same by auto with verifier; reflexivity].
  apply (others_trans _ 0 1 env env0); [lia|lia|apply same_others; assumption|].
  split; [repeat apply put_reg_wf; exact W0|]; split; [intros j H0 Hj; rewrite !get_put_other by (auto with verifier; lia); reflexivity|].
  cbn; lia.
Qed.

(** A 64-bit copy: source and destination share an id, which is fresh if the
    source had none. *)
Definition copied (dst src : Z) (env env' : bpf_verifier_env) : Prop :=
  env_wf env' /\ erase_reg (get_reg env' dst) = erase_reg (get_reg env' src) /\
  (forall j, 0 <= j -> j <> dst -> j <> src -> erase_reg (get_reg env' j) = erase_reg (get_reg env j)) /\
  ((erase_reg (get_reg env' src) = erase_reg (get_reg env src) /\ id_gen env' = id_gen env) \/
   (type_ (get_reg env src) = SCALAR_VALUE /\ erase_reg (get_reg env' src) = set_id (erase_reg (get_reg env src)) (u32 (id_gen env + 1)) /\
    id_gen env' = u32 (id_gen env + 1))).

Lemma link_erase r q : erase_reg r = erase_reg q -> link r = link q.
Proof. intros H; change (link (erase_reg r) = link (erase_reg q)); rewrite H; reflexivity. Qed.

Lemma link_written r l n : link (set_subreg_def (set_live r l) n) = link r.
Proof. reflexivity. Qed.

Lemma copied_links dst src env env' : copied dst src env env' -> 0 <= id_gen env -> id_gen env + 1 < 2 ^ 32 ->
  link (get_reg env' dst) = link (get_reg env' src) /\
  ((link (get_reg env' src) = link (get_reg env src) /\ id_gen env' = id_gen env) \/
   (link (get_reg env' src) = Some (false, u32 (id_gen env + 1)) /\ id_gen env' = u32 (id_gen env + 1))).
Proof.
  intros (_ & E & _ & C) G0 G1; split; [apply link_erase, E|]; destruct C as [[C1 C2]|(T & C1 & C2)]; [left; split; [apply link_erase, C1|exact C2]|right].
  split; [|exact C2]; change (link (erase_reg (get_reg env' src)) = Some (false, u32 (id_gen env + 1))); rewrite C1.
  apply link_scalar; [exact T|reflexivity|rewrite uwrap_id by (unfold uin; lia); lia].
Qed.

Lemma mov64_links insn env u env' : env_wf env -> regno_ok (insn_dst insn) -> regno_ok (insn_src insn) ->
  BPF_CLASS (insn_code insn) = BPF_ALU64 -> check_alu_mov_reg insn env = (inr u, env') -> copied (insn_dst insn) (insn_src insn) env env'.
Proof.
  intros W Hd Hs C H; set (dst := insn_dst insn) in *; set (src := insn_src insn) in *.
  unfold check_alu_mov_reg in H; fold dst src in H; run H; injection R as <- <-; run H; injection R as <- <-; rewrite C in H; cbn [Z.eqb Pos.eqb] in H.
  run H; run H; injection R0 as <- <-; run H; injection R0 as _ <-; injection H as _ <-.
  set (s := get_reg env0 src) in *; assert (W0 : env_wf env0 /\ (forall j, 0 <= j -> j <> src -> get_reg env0 j = get_reg env j) /\
    ((s = get_reg env src /\ id_gen env0 = id_gen env) \/
     (type_ (get_reg env src) = SCALAR_VALUE /\ s = set_id (get_reg env src) (u32 (id_gen env + 1)) /\ id_gen env0 = u32 (id_gen env + 1)))).
  { unfold s; unfold when in R; destruct (type_eqb (type_ (get_reg env src)) SCALAR_VALUE) eqn:T; cbn [andb] in R; [|injection R as _ <-; auto].
    destruct (id (get_reg env src) =? 0); injection R as _ <-; [|auto].
    split; [apply put_reg_wf, W|]; split; [intros j H0 Hj; rewrite get_put_other by (trivial; unfold regno_ok in *; lia); reflexivity|].
    right; apply type_eqb_true in T; rewrite get_put_same by assumption; auto. }
  destruct W0 as (W0 & O0 & L0); assert (D0 : 0 <= dst) by apply Hd; assert (S0 : 0 <= src) by apply Hs.
  set (env1 := put_reg (put_reg env0 dst s) dst _); assert (Es : erase_reg (get_reg env1 src) = erase_reg s /\ erase_reg (get_reg env1 dst) = erase_reg s).
  { unfold env1; split; [|rewrite !get_put_same by auto with verifier; reflexivity].
    destruct (Z.eq_dec src dst) as [E|N]; [rewrite E, !get_put_same by auto with verifier; reflexivity|].
    rewrite !get_put_other by (auto with verifier); reflexivity. }
  destruct Es as [Es Ed]; split; [unfold env1; auto with verifier|]; split; [congruence|]; split.
  - intros j H0 N1 N2; unfold env1; rewrite !get_put_other by auto with verifier; rewrite O0 by assumption; reflexivity.
  - rewrite Es; change (id_gen env1) with (id_gen env0); destruct L0 as [[-> ->]|(T & -> & ->)]; [left|right]; auto.
Qed.

Lemma copied_same dst src env0 env env' : env0 ≈ env -> copied dst src env0 env' -> copied dst src env env'.
Proof.
  intros E (W & L & O & C); split; [exact W|]; split; [exact L|]; split.
  - intros j H0 N1 N2; rewrite O by assumption; apply same_reg, E.
  - pose proof (same_reg _ _ src E) as Er; pose proof (f_equal type_ Er) as Et; cbn in Et.
    change (id_gen env) with (id_gen (erase_env env)); rewrite <- Er, <- Et, <- E; exact C.
Qed.

Lemma mov32_links insn env u env' : env_wf env -> regno_ok (insn_dst insn) -> regno_ok (insn_src insn) ->
  BPF_CLASS (insn_code insn) <> BPF_ALU64 -> check_alu_mov_reg insn env = (inr u, env') -> unlinks_scalar (insn_dst insn) env env'.
Proof.
  intros W Hd Hs C H; assert (D0 : 0 <= insn_dst insn) by apply Hd; unfold check_alu_mov_reg in H; cbv zeta in H.
  run H; injection R as <- <-; run H; injection R as <- <-; apply Z.eqb_neq in C; rewrite C in H.
  run H; injection R as <- <-; match type of H with (if ?c then _ else _) _ = _ => destruct c; [discriminate|] end.
  assert (K : keeps (insn_dst insn) 1 (_ ← (if type_eqb (type_ (get_reg env (insn_src insn))) SCALAR_VALUE then
      _ ← upd_reg (insn_dst insn) (fun _ => get_reg env (insn_src insn));
      upd_reg (insn_dst insn) (fun d => set_subreg_def (set_live (set_id d 0) (live d .| REG_LIVE_WRITTEN)) (s32 (u32 (insn_idx env + 1))))
    else mark_reg_unknown (insn_dst insn));
    _ ← upd_reg (insn_dst insn) zext_32_to_64;
    upd_reg (insn_dst insn) (fun d => __reg_bound_offset (__reg_deduce_bounds (__update_reg_bounds d))))).
  { eapply keeps_mono; [|apply Z.le_0_1]; keeps_tac. }
  pose proof (K _ _ _ W H) as O; run H.
  assert (P : env_wf env0 /\ id (get_reg env0 (insn_dst insn)) = 0 /\ type_ (get_reg env0 (insn_dst insn)) = SCALAR_VALUE).
  { destruct (type_eqb (type_ (get_reg env (insn_src insn))) SCALAR_VALUE) eqn:T in R.
    - apply type_eqb_true in T; run R; injection R0 as _ <-; injection R as _ <-; split; [auto with verifier|].
      rewrite !get_put_same by auto with verifier; split; [reflexivity|exact T].
    - rewrite mark_unknown_run in R by exact Hd; injection R as _ <-; split; [auto with verifier|]; rewrite get_put_same by assumption; split; reflexivity. }
  destruct P as (W0 & I0 & T0); run H; injection R0 as _ <-; injection H as _ <-.
  split; [split; [exact O|apply link_none; left; rewrite !get_put_same by auto with verifier; auto with reg_id]|].
  rewrite !get_put_same by auto with verifier; etransitivity; [apply tail_frame|]; rewrite type_zext; exact T0.
Qed.

Lemma mov_imm_links insn env u env' : env_wf env -> regno_ok (insn_dst insn) ->
  (_ ← mark_reg_unknown (insn_dst insn); _ ← upd_reg (insn_dst insn) (fun d => set_type d SCALAR_VALUE);
   if BPF_CLASS (insn_code insn) =? BPF_ALU64
   then upd_reg (insn_dst insn) (fun d => __mark_reg_known d (u64 (insn_imm insn)))
   else upd_reg (insn_dst insn) (fun d => __mark_reg_known d (u32 (insn_imm insn)))) env = (inr u, env') -> unlinks_scalar (insn_dst insn) env env'.
Proof.
  intros W Hd H; assert (D0 : 0 <= insn_dst insn) by apply Hd; split; [split|].
  - revert H; apply (keeps_mono _ 0 1); [keeps_tac|lia|exact W].
  - apply link_none; left; run H; rewrite mark_unknown_run in R by exact Hd; injection R as _ <-; run H; injection R as _ <-.
    match type of H with (if ?c then _ else _) _ = _ => destruct c end; injection H as _ <-; rewrite get_put_same by auto with verifier; reflexivity.
  - run H; rewrite mark_unknown_run in R by exact Hd; injection R as _ <-; run H; injection R as _ <-.
    match type of H with (if ?c then _ else _) _ = _ => destruct c end; injection H as _ <-; rewrite !get_put_same by auto with verifier; reflexivity.
Qed.

Lemma unlinks_same dst env0 env env' : 0 <= dst -> env_wf env -> env0 ≈ env -> unlinks_scalar dst env0 env' -> unlinks_scalar dst env env'.
Proof.
  intros D0 W E [[O L] T]; split; [|exact T]; split; [|exact L]; apply (others_trans dst 0 1 env env0); [lia|lia|apply same_others; assumption|exact O].
Qed.

Lemma mov_links insn o env u env' : insn_ok insn -> env_wf env -> BPF_SRC (insn_code insn) = src_code o ->
  check_alu_mov insn env = (inr u, env') ->
  unlinks_scalar (insn_dst insn) env env' \/
  (BPF_CLASS (insn_code insn) = BPF_ALU64 /\ o = X /\ copied (insn_dst insn) (insn_src insn) env env').
Proof.
  intros Hok W Hsc H; assert (P : BPF_SRC (insn_code insn) = BPF_X \/ BPF_SRC (insn_code insn) = BPF_K) by (rewrite Hsc; apply src_code_cases).
  destruct (mov_regnos _ _ _ _ Hok W H P) as [Hd Hs]; assert (D0 : 0 <= insn_dst insn) by apply Hd; assert (S0 : 0 <= insn_src insn) by apply Hs.
  unfold check_alu_mov in H; rewrite Hsc in H; run H; apply src_part_ok in R; [|exact S0]; destruct R as (E1 & _ & _).
  run H; apply dst_op_ok in R; [|rewrite E1; exact W|exact D0]; destruct R as (_ & _ & E2).
  assert (E : env1 ≈ env) by (etransitivity; eassumption); assert (W1 : env_wf env1) by (rewrite E; exact W).
  destruct o; cbn [src_code Z.eqb Pos.eqb] in H.
  - destruct (Z.eq_dec (BPF_CLASS (insn_code insn)) BPF_ALU64) as [C|C].
    + right; split; [exact C|]; split; [reflexivity|]; eapply copied_same; [exact E|]; eapply mov64_links; eassumption.
    + left; eapply unlinks_same; [exact D0|exact W|exact E|]; eapply mov32_links; eassumption.
  - left; eapply unlinks_same; [exact D0|exact W|exact E|]; eapply mov_imm_links; eassumption.
Qed.

(** ** The invariant *)

(** Ids are handed out in order. *)
Definition ids_below (env : bpf_verifier_env) : Prop :=
  0 <= id_gen env /\ forall r b n, regno_ok r -> link (get_reg env r) = Some (b, n) -> n <= id_gen env.

Lemma unlinks_agree dst r env env' σ σ' : ids_below env -> id_gen env + 1 < 2 ^ 32 -> ids_agree (cur_state env) σ ->
  machine_upd σ dst r σ' -> unlinks dst env env' -> ids_below env' /\ ids_agree (cur_state env') σ'.
Proof.
  intros [G0 B] G1 A (_ & _ & M) [(W & O & G) L].
  assert (K : forall j k, regno_ok j -> link (get_reg env' j) = Some k -> j <> dst /\ link (get_reg env j) = Some k).
  { intros j k Hj Lj; destruct (Z.eq_dec j dst) as [->|N]; [congruence|]; split; [exact N|].
    rewrite <- Lj; symmetry; apply link_erase, O; [apply Hj|exact N]. }
  specialize (G G0 G1); split; [split; [lia|]|].
  - intros j b n Hj Lj; destruct (K j _ Hj Lj) as [_ Lj']; pose proof (B j b n Hj Lj'); lia.
  - intros r1 r2 k H1 H2 L1 L2; destruct (K r1 _ H1 L1) as [N1 L1']; destruct (K r2 _ H2 L2) as [N2 L2'].
    rewrite !M by assumption; exact (A r1 r2 k H1 H2 L1' L2').
Qed.

Lemma copied_agree dst src x env env' σ σ' : ids_below env -> id_gen env + 1 < 2 ^ 32 -> ids_agree (cur_state env) σ ->
  regno_ok src -> reg_get σ src = Some x -> machine_upd σ dst x σ' -> copied dst src env env' ->
  ids_below env' /\ ids_agree (cur_state env') σ'.
Proof.
  intros [G0 B] G1 A Hs Hx (_ & M1 & M) Cp; destruct (copied_links _ _ _ _ Cp G0 G1) as [L C]; destruct Cp as (W & _ & O & _); set (n := u32 (id_gen env + 1)) in *.
  assert (En : n = id_gen env + 1) by (apply uwrap_id; unfold uin; lia).
  (* every register stands for one that was there before *)
  set (f := fun j => if j =? dst then src else j).
  assert (F : forall j, regno_ok j -> regno_ok (f j) /\ reg_get σ' j = reg_get σ (f j) /\ link (get_reg env' j) = link (get_reg env' (f j))).
  { intros j Hj; unfold f; destruct (Z.eqb_spec j dst) as [->|N]; [rewrite M1, Hx; auto|rewrite M by assumption; auto]. }
  assert (K : forall j k, regno_ok j -> j = src \/ j <> dst -> link (get_reg env' j) = Some k ->
    link (get_reg env j) = Some k \/ (j = src /\ k = (false, n) /\ id_gen env' = n)).
  { intros j k Hj Hc Lj; destruct (Z.eq_dec j src) as [->|N].
    - destruct C as [[C _]|[C C']]; [left; congruence|right; split; [reflexivity|split; [congruence|exact C']]].
    - left; rewrite <- Lj; symmetry; apply link_erase, O; [apply Hj|destruct Hc; congruence|exact N]. }
  assert (D : forall j, f j = src \/ f j <> dst) by (intros j; unfold f; destruct (Z.eqb_spec j dst); auto).
  assert (G : id_gen env <= id_gen env') by (destruct C as [[_ C]|[_ C]]; lia).
  split; [split; [lia|]|].
  - intros j b m Hj Lj; destruct (F j Hj) as (Hf & _ & E); rewrite E in Lj.
    destruct (K _ _ Hf (D j) Lj) as [Lj'|(_ & [= _ ->] & C')]; [pose proof (B _ _ _ Hf Lj'); lia|lia].
  - intros r1 r2 k H1 H2 L1 L2; destruct (F r1 H1) as (Hf1 & -> & E1); destruct (F r2 H2) as (Hf2 & -> & E2).
    change (st_reg (cur_state env') ?j) with (get_reg env' j) in *; rewrite E1 in L1; rewrite E2 in L2.
    destruct (K _ _ Hf1 (D r1) L1) as [L1'|(S1 & K1 & _)], (K _ _ Hf2 (D r2) L2) as [L2'|(S2 & K2 & _)].
    + exact (A _ _ k Hf1 Hf2 L1' L2').
    + subst k; pose proof (B _ _ _ Hf1 L1'); lia.
    + subst k; pose proof (B _ _ _ Hf2 L2'); lia.
    + congruence.
Qed.

Lemma check_alu_state insn env u env' σ σ' β : insn_ok insn -> state_sim (cur_state env) σ β -> ids_below env -> id_gen env + 1 < 2 ^ 32 ->
  check_alu_op insn env = (inr u, env') -> step_alu_insn insn σ = Some σ' ->
  ids_below env' /\ exists β', state_sim (cur_state env') σ' β' /\ no_new_base β β'.
Proof.
  intros Hok (W & L & S & A) Bl G1 H Hst; assert (Sim : regs_sim env σ β) by (split; assumption).
  destruct (check_alu_sound _ _ _ _ _ _ _ Hok W Sim H Hst) as (W' & β' & [L' S'] & Nb).
  assert (Q : ids_below env' /\ ids_agree (cur_state env') σ'); [|destruct Q as [B' A']; split; [exact B'|]; exists β'; split; [|exact Nb];
    split; [exact W'|]; split; [exact L'|]; split; assumption].
  assert (Hc : uin 8 (insn_code insn)) by apply Hok; destruct (alu_insn_shape insn Hc) as [(l & Hl & Sh)|N]; [|rewrite not_alu_step in Hst by exact N; discriminate].
  destruct Sh as [w op o Hw Hm E1 E2 E3 E4|w o Hw E1 E3 E4|l Hin E4]; rewrite E4 in H.
  - assert (P : BPF_SRC (insn_code insn) = BPF_X \/ BPF_SRC (insn_code insn) = BPF_K) by (rewrite E3; apply src_code_cases).
    destruct (binary_regnos _ _ _ _ Hok H P) as [Hd Hs]; rewrite (step_alu_label _ _ _ _ _ Hw Hl) in Hst.
    destruct (label_step _ _ _ _ _ _ _ _ Sim Hd Hs Hw Hst) as (DST & SRC & r & _ & _ & _ & M).
    eapply unlinks_agree; try eassumption; eapply binary_links; eassumption.
  - assert (P : BPF_SRC (insn_code insn) = BPF_X \/ BPF_SRC (insn_code insn) = BPF_K) by (rewrite E3; apply src_code_cases).
    destruct (mov_regnos _ _ _ _ Hok W H P) as [Hd Hs]; rewrite (step_alu_label _ _ _ _ _ Hw Hl) in Hst.
    destruct (label_step _ _ _ _ _ _ _ _ Sim Hd Hs Hw Hst) as (DST & SRC & r & HD & HS & Hr & M).
    destruct (mov_links _ _ _ _ _ Hok W E3 H) as [[U _]|(C & -> & U)]; [eapply unlinks_agree; eassumption|].
    assert (w = 64) as -> by (rewrite <- E1; unfold insn_w; rewrite C; reflexivity).
    assert (r = SRC) as -> by (cbn in Hr; injection Hr as <-; apply uwrap_id; destruct (S _ Hs) as (x & Hx & Hu & _); cbn in HS; congruence).
    eapply copied_agree; eassumption.
  - pose proof (unary_regno _ _ _ _ Hok H) as Hd; destruct (unary_step _ _ _ _ _ _ Sim Hd Hl Hin Hst) as (r & _ & M).
    eapply unlinks_agree; try eassumption; eapply (unary_links insn); eassumption.
Qed.
