(* ===== verification/Samples.v ===== *)
(** A concrete verifier state and the machine registers it describes, on which
    the theorems about instructions are evaluated: known and unknown scalars,
    two copies of one scalar, a pointer into a map value, a pointer that may be
    NULL, and the frame pointer. *)
From Stdlib Require Import ZArith Lia Bool.
From stdpp Require Import base list gmap.
From S2P Require Import Prelude Bits Tnum Bounds RegState ScalarOps ScalarBits Insn Interp Env MemAccess RegArg.
From S2P Require Import Precision Bookkeeping Alu AluSound PtrSound AluStep CondJmp CondJmpSound AluIds.

Local Open Scope Z_scope.

Definition sample_scalar (x i : Z) : bpf_reg_state :=
  mk_reg SCALAR_VALUE 0 0 i 0 (tnum_const x) (s64 x) (s64 x) x x (s32 x) (s32 x) (u32 x) (u32 x) None 0 0 0 false.
Definition sample_unknown (i : Z) : bpf_reg_state :=
  mk_reg SCALAR_VALUE 0 0 i 0 tnum_unknown S64_MIN S64_MAX 0 U64_MAX S32_MIN S32_MAX 0 U32_MAX None 0 0 0 false.
Definition sample_ptr (t : bpf_reg_type) (map i : Z) : bpf_reg_state :=
  mk_reg t map 0 i 0 (tnum_const 0) 0 0 0 0 0 0 0 0 None 0 0 0 false.

Definition sample_regs : list bpf_reg_state :=
  [sample_scalar 5 0; sample_scalar 7 0; sample_unknown 0; sample_ptr PTR_TO_MAP_VALUE 1 0; sample_ptr PTR_TO_MAP_VALUE_OR_NULL 1 2;
   sample_unknown 1; sample_unknown 1; sample_scalar 3 0; sample_scalar 3 0; sample_scalar 3 0; sample_ptr PTR_TO_STACK 0 0].

Definition sample_values : list Z := [5; 7; 900; 4096; 0; 42; 42; 3; 3; 3; 65536; 0].

Definition sample_base (r : Z) : Z := if r =? 3 then 4096 else if r =? 10 then 65536 else 0.

Definition sample_state : bpf_verifier_state :=
  mk_state [mk_func sample_regs 0 0 0 [] []] 0 1 0%nat 0 false 0 0 [].

(** An array map with one 64-byte value and no lock. *)
Definition sample_map : bpf_map := mk_map 2 4 64 1 0 (-1) 0 false 0 false true.

(** A map the program may not write, frozen for user space. *)
Definition sample_rdonly_map : bpf_map := mk_map 2 4 8 1 128 (-1) 0 true 0 false true.

Definition sample_env (prog : list bpf_insn) : bpf_verifier_env :=
  mk_env 0 0 prog [] 0 false sample_state false ∅ {[ 1 := sample_map; 2 := sample_rdonly_map ]} 2 false true true true true (mk_flags 1 true)
    (replicate (length prog) inhabitant) 0 0 [] (mk_search false ∅ [] 0 0 0 0 0 0 0) (mk_prog_aux 1 None 0 0 0 0 0 0 false) false true [] (mk_attach 0 false 0 false None true true false false) [].

(** An accepted computation, by evaluation. *)
Lemma accepted {A} (m : verifier A) env a : (m env).1 = inr a -> m env = (inr a, (m env).2).
Proof. destruct (m env) as [r e]; cbn; intros ->; reflexivity. Qed.

(** Ranges of closed terms, by evaluation. *)
Ltac closed_range := repeat split; vm_compute; first [reflexivity|discriminate].

Lemma regno_cases r : regno_ok r -> In r [0; 1; 2; 3; 4; 5; 6; 7; 8; 9; 10].
Proof. unfold regno_ok; cbn; lia. Qed.

Lemma known_fields r x : let q := __mark_reg_known r x in
  var_off q = tnum_const x /\ b64 q = mk_bounds (s64 x) (s64 x) x x /\ b32 q = mk_bounds (s32 x) (s32 x) (u32 x) (u32 x).
Proof. repeat split. Qed.

Lemma unknown_fields fl r : let q := __mark_reg_unknown fl r in
  var_off q = tnum_unknown /\ b64 q = mk_bounds S64_MIN S64_MAX 0 U64_MAX /\ b32 q = mk_bounds S32_MIN S32_MAX 0 U32_MAX.
Proof. repeat split. Qed.

Lemma inv_ext r q x : var_off r = var_off q -> b64 r = b64 q -> b32 r = b32 q -> reg_inv q x -> reg_inv r x.
Proof. unfold reg_inv, reg_ok, reg_mem, reg_sync; intros -> -> ->; trivial. Qed.

Lemma sample_scalar_sim x i b : uin 64 x -> reg_sim (sample_scalar x i) b x.
Proof.
  intros H; apply scalar_sim; [exact H| |reflexivity]; pose proof (mark_known_inv inhabitant x H) as I.
  destruct (known_fields inhabitant x) as (E1 & E2 & E3); set (q := __mark_reg_known inhabitant x) in *; clearbody q.
  apply (inv_ext _ q); [rewrite E1|rewrite E2|rewrite E3|exact I]; reflexivity.
Qed.

Lemma sample_unknown_sim x i b : uin 64 x -> reg_sim (sample_unknown i) b x.
Proof.
  intros H; apply scalar_sim; [exact H| |reflexivity]; pose proof (mark_unknown_inv (mk_flags 1 true) inhabitant x H) as I.
  destruct (unknown_fields (mk_flags 1 true) inhabitant) as (E1 & E2 & E3); set (q := __mark_reg_unknown _ _) in *; clearbody q.
  apply (inv_ext _ q); [rewrite E1|rewrite E2|rewrite E3|exact I]; reflexivity.
Qed.

Lemma sample_ptr_sim t map i b : uin 64 b -> t <> SCALAR_VALUE -> reg_sim (sample_ptr t map i) b b.
Proof.
  intros Hb Ht; assert (Z0 : uin 64 0) by kia; pose proof (mark_known_inv inhabitant 0 Z0) as I.
  destruct (known_fields inhabitant 0) as (E1 & E2 & E3); set (q := __mark_reg_known inhabitant 0) in *; clearbody q.
  assert (J : reg_inv (sample_ptr t map i) 0) by (apply (inv_ext _ q); [rewrite E1|rewrite E2|rewrite E3|exact I]; reflexivity).
  set (reg := sample_ptr t map i) in *; assert (O : off reg = 0) by reflexivity; assert (T : type_ reg = t) by reflexivity; clearbody reg.
  replace b with (u64 (b + off reg + 0)) at 2 by (rewrite O, !Z.add_0_r; apply uwrap_id, Hb).
  apply ptr_sim; [rewrite O; kia|exact J|congruence].
Qed.

Lemma sample_sim prog : state_sim (cur_state (sample_env prog)) sample_values sample_base.
Proof.
  split; [split; cbn; lia|]; split; [reflexivity|]; split.
  - intros r Hr; apply regno_cases in Hr; cbn in Hr.
    destruct Hr as [<-|[<-|[<-|[<-|[<-|[<-|[<-|[<-|[<-|[<-|[<-|[]]]]]]]]]]]]; (eexists; split; [reflexivity|]).
    1: apply (sample_scalar_sim 5 0); kia.
    1: apply (sample_scalar_sim 7 0); kia.
    1: apply (sample_unknown_sim 900 0); kia.
    1: apply (sample_ptr_sim PTR_TO_MAP_VALUE 1 0 4096); [kia|discriminate].
    1: apply (sample_ptr_sim PTR_TO_MAP_VALUE_OR_NULL 1 2 0); [kia|discriminate].
    1, 2: apply (sample_unknown_sim 42 1); kia.
    1, 2, 3: apply (sample_scalar_sim 3 0); kia.
    apply (sample_ptr_sim PTR_TO_STACK 0 0 65536); [kia|discriminate].
  - intros r1 r2 k H1 H2 L1 L2; apply regno_cases in H1, H2; cbn in H1, H2.
    assert (C : forall r, In r [0; 1; 2; 3; 4; 5; 6; 7; 8; 9; 10] -> link (st_reg sample_state r) =
      (if r =? 4 then Some (true, 2) else if (r =? 5) || (r =? 6) then Some (false, 1) else None)).
    { cbn [In]; intros r Hr; destruct Hr as [<-|[<-|[<-|[<-|[<-|[<-|[<-|[<-|[<-|[<-|[<-|[]]]]]]]]]]]]; reflexivity. }
    change (cur_state (sample_env prog)) with sample_state in *; rewrite C in L1, L2 by assumption; clear C.
    destruct H1 as [<-|[<-|[<-|[<-|[<-|[<-|[<-|[<-|[<-|[<-|[<-|[]]]]]]]]]]]]; cbn in L1; try discriminate L1;
      destruct H2 as [<-|[<-|[<-|[<-|[<-|[<-|[<-|[<-|[<-|[<-|[<-|[]]]]]]]]]]]]; cbn in L2; congruence || reflexivity.
Qed.

Lemma sample_below prog : ids_below (sample_env prog).
Proof.
  split; [cbn; lia|]; intros r b n Hr; apply regno_cases in Hr; cbn [In] in Hr; change (id_gen (sample_env prog)) with 2.
  destruct Hr as [<-|[<-|[<-|[<-|[<-|[<-|[<-|[<-|[<-|[<-|[<-|[]]]]]]]]]]]]; cbn; intros E; try discriminate E; injection E as <- <-; lia.
Qed.
