(* ===== verification/VerifierTheorems.v ===== *)
(** What the verifier promises about one instruction, as theorems: accepted
    arithmetic is simulated by the state the verifier goes on with, and the
    building blocks of arithmetic and conditional jumps are sound on their own. *)
From Stdlib Require Import ZArith Lia Bool.
From stdpp Require Import base list gmap.
From S2P Require Import Prelude Bits Bitops Tnum Bounds RegState ScalarOps ScalarBits Insn Interp Env Branch.
From S2P Require Import MemAccess RegArg Precision Bookkeeping Alu AluSound PtrSound AluStep CondJmp CondJmpSound AluIds Samples.

Local Open Scope Z_scope.
Local Open Scope kint_scope.

(** C2: If [check_alu_op] accepts an instruction and the interpreter executes
    it, the registers of the new verifier state describe the new machine
    registers: scalars are within their known bits and bounds, pointers within
    their object, equal ids mean equal values, and no pointer base is invented. *)
Theorem check_alu_op_simulates insn env u env' σ σ' β : insn_ok insn -> state_sim (cur_state env) σ β -> ids_below env ->
  id_gen env + 1 < 2 ^ 32 -> check_alu_op insn env = (inr u, env') -> step_alu_insn insn σ = Some σ' ->
  ids_below env' /\ exists β', state_sim (cur_state env') σ' β' /\ no_new_base β β'.
Proof. apply check_alu_state. Qed.

(** [r3 += r1]: a pointer into a map value moves by a known scalar. *)
Definition sample_add : bpf_insn := mk_insn (BPF_ALU64 .| BPF_ADD .| BPF_X) 3 1 0 0.

Lemma check_alu_op_simulates_witness : exists env' σ' β',
  check_alu_op sample_add (sample_env [sample_add]) = (inr tt, env') /\ step_alu_insn sample_add sample_values = Some σ' /\
  state_sim (cur_state env') σ' β'.
Proof.
  assert (H : check_alu_op sample_add (sample_env [sample_add]) = (inr tt, (check_alu_op sample_add (sample_env [sample_add])).2))
    by (apply accepted; vm_compute; reflexivity).
  destruct (step_alu_insn sample_add sample_values) as [σ'|] eqn:S; [|vm_compute in S; discriminate S].
  destruct (check_alu_op_simulates sample_add (sample_env [sample_add]) tt
    (check_alu_op sample_add (sample_env [sample_add])).2 sample_values σ' sample_base) as (_ & β' & Hs & _).
  - closed_range.
  - apply sample_sim.
  - apply sample_below.
  - cbn; lia.
  - exact H.
  - exact S.
  - eexists _, σ', β'; split; [exact H|]; split; [reflexivity|exact Hs].
Defined.

(** [if (r4 == 0) goto +3] on a pointer that may be NULL, and is. *)
Definition sample_jeq : bpf_insn := mk_insn (BPF_JMP .| BPF_JEQ .| BPF_K) 4 0 3 0.

(** C12: An accepted arithmetic instruction has a defined result in the
    interpreter, unless it divides by a register that holds zero. *)
Theorem check_alu_op_defined insn env u env' σ β : insn_ok insn -> env_wf env -> regs_sim env σ β ->
  alu_class (insn_code insn) = true -> check_alu_op insn env = (inr u, env') ->
  (exists σ', step_alu_insn insn σ = Some σ') \/ div_by_zero insn σ.
Proof. apply check_alu_defined. Qed.

(** [w1 <<= 31]. *)
Definition sample_lsh : bpf_insn := mk_insn (BPF_ALU .| BPF_LSH .| BPF_K) 1 0 0 31.

Lemma check_alu_op_defined_witness : (exists σ', step_alu_insn sample_lsh sample_values = Some σ') \/ div_by_zero sample_lsh sample_values.
Proof.
  pose proof (sample_sim [sample_lsh]) as (W & L & S & _).
  apply (check_alu_op_defined sample_lsh (sample_env [sample_lsh]) tt (check_alu_op sample_lsh (sample_env [sample_lsh])).2 sample_values sample_base).
  - closed_range.
  - exact W.
  - split; [exact L|exact S].
  - reflexivity.
  - apply accepted; vm_compute; reflexivity.
Defined.

(** C13: A map value access that [check_map_access] accepts stays inside the
    value for every offset the register admits, and keeps off the spin lock. *)
Theorem check_map_access_safe regno off size z env u env' x :
  let reg := get_reg env regno in
  let map := map_of env (raw reg) in
  reg_ok reg -> reg_mem reg x -> sin 32 off -> sin 32 size -> uin 32 (value_size map) -> sin 32 (spin_lock_off map) ->
  check_map_access regno off size z env = (inr u, env') ->
  env' = env /\ 0 <= off + s64 x /\ off + s64 x + size <= value_size map /\
  (0 <= spin_lock_off map -> off + s64 x + size <= spin_lock_off map \/ spin_lock_off map + 4 <= off + s64 x).
Proof. apply map_access_ok. Qed.

Lemma check_map_access_safe_witness : check_map_access 3 60 4 false (sample_env []) = (inr tt, sample_env []) /\
  0 <= 60 + s64 0 /\ 60 + s64 0 + 4 <= value_size sample_map.
Proof.
  assert (H : check_map_access 3 60 4 false (sample_env []) = (inr tt, sample_env [])) by (vm_compute; reflexivity).
  split; [exact H|]; pose proof (sample_ptr_sim PTR_TO_MAP_VALUE 1 0 4096 ltac:(kia) ltac:(discriminate)) as S.
  destruct (sim_ptr _ _ _ S ltac:(discriminate) ltac:(discriminate)) as (_ & v & (Hok & Hm & _) & _).
  assert (v = 0) as -> by (apply (tnum_is_const_mem (tnum_const 0) v eq_refl), Hm).
  destruct (check_map_access_safe 3 60 4 false (sample_env []) tt (sample_env []) 0) as (_ & H1 & H2 & _).
  - exact Hok.
  - exact Hm.
  - closed_range.
  - closed_range.
  - closed_range.
  - closed_range.
  - exact H.
  - split; [exact H1|exact H2].
Defined.

(** Pointer arithmetic accepted by [adjust_ptr_min_max_vals] changes the
    destination register only, which becomes an arbitrary scalar or the same
    pointer moved by exactly the scalar operand, with consistent bounds on its
    variable offset. *)
Theorem adjust_ptr_min_max_vals_sound insn env ptr off_ v y u env' : env_wf env -> regno_ok (insn_dst insn) -> ptr_ok ptr -> ptr_ok off_ ->
  off_mem (ptr_val env ptr) v -> sin 32 (off (ptr_val env ptr)) -> off_mem (ptr_val env off_) y ->
  adjust_ptr_min_max_vals insn ptr off_ env = (inr u, env') ->
  only_reg (insn_dst insn) env env' /\ adjust_ptr_result insn env ptr off_ v y (get_reg env' (insn_dst insn)).
Proof. intros; eapply adjust_ptr_sound; eassumption. Qed.

Lemma adjust_ptr_min_max_vals_sound_witness : exists env',
  adjust_ptr_min_max_vals sample_add (PReg 3) (PReg 1) (sample_env [sample_add]) = (inr tt, env') /\
  adjust_ptr_result sample_add (sample_env [sample_add]) (PReg 3) (PReg 1) 0 7 (get_reg env' 3).
Proof.
  set (env := sample_env [sample_add]); pose proof (sample_sim [sample_add]) as (W & _ & _ & _).
  pose proof (sample_scalar_sim 7 0 0 ltac:(kia)) as S1.
  pose proof (sample_ptr_sim PTR_TO_MAP_VALUE 1 0 4096 ltac:(kia) ltac:(discriminate)) as S3.
  destruct (sim_ptr _ _ _ S3 ltac:(discriminate) ltac:(discriminate)) as (_ & v & Hv & _).
  assert (v = 0) as -> by (apply (tnum_is_const_mem (tnum_const 0) v eq_refl), Hv).
  exists (adjust_ptr_min_max_vals sample_add (PReg 3) (PReg 1) env).2.
  assert (H : adjust_ptr_min_max_vals sample_add (PReg 3) (PReg 1) env = (inr tt, (adjust_ptr_min_max_vals sample_add (PReg 3) (PReg 1) env).2))
    by (apply accepted; vm_compute; reflexivity).
  split; [exact H|].
  apply (adjust_ptr_min_max_vals_sound sample_add env (PReg 3) (PReg 1) 0 7 tt) in H; [apply H|exact W|closed_range| | | |closed_range|].
  - closed_range.
  - closed_range.
  - apply inv_off_mem, Hv.
  - apply inv_off_mem; exact (sim_scalar _ _ _ S1 eq_refl).
Defined.

(** [reg_set_min_max]: of the two registers it leaves behind, the one of
    the branch the comparison takes still admits the compared value, with its
    five views in agreement. *)
Theorem reg_set_min_max_sound true_reg false_reg x src val val32 op is_jmp32 : let w := jmp_width is_jmp32 in
  type_ false_reg = SCALAR_VALUE -> reg_inv true_reg x -> reg_inv false_reg x -> uin 32 val32 ->
  uwrap w src = (if is_jmp32 then val32 else val) ->
  let tf := reg_set_min_max true_reg false_reg val val32 (jmp_code op) is_jmp32 in
  reg_inv (if cond_jmp w op x src then fst tf else snd tf) x.
Proof.
  cbn zeta; intros Ht (T1 & T2 & _) (F1 & F2 & _) Hv E; rewrite reg_set_min_max_eq by assumption; cbn [fst snd].
  destruct (cond_jmp (jmp_width is_jmp32) op x src) eqn:C; eapply branch_reg_inv; eassumption.
Qed.

(** An unknown register compared with 100: [900 > 100]. *)
Lemma reg_set_min_max_sound_witness : cond_jmp 64 JGT 900 100 = true /\
  reg_inv (fst (reg_set_min_max (sample_unknown 0) (sample_unknown 0) 100 100 BPF_JGT false)) 900 /\
  umin_value (fst (reg_set_min_max (sample_unknown 0) (sample_unknown 0) 100 100 BPF_JGT false)) = 101.
Proof.
  pose proof (sim_scalar _ _ _ (sample_unknown_sim 900 0 0 ltac:(kia)) eq_refl) as I.
  split; [reflexivity|]; split; [|vm_compute; reflexivity].
  exact (reg_set_min_max_sound (sample_unknown 0) (sample_unknown 0) 900 100 100 100 JGT false eq_refl I I (conj (Pos2Z.is_nonneg 100) eq_refl) eq_refl).
Defined.

(** When [is_branch_taken] decides a comparison of a scalar register, it
    decides it as the interpreter will, at both widths. *)
Theorem is_branch_taken_sound reg x val src op is_jmp32 : type_ reg = SCALAR_VALUE -> reg_mem reg x -> uin 64 val ->
  uwrap (jmp_width is_jmp32) src = uwrap (jmp_width is_jmp32) val ->
  let p := is_branch_taken reg val (jmp_code op) is_jmp32 in
  p = -1 \/ p = Z.b2z (cond_jmp (jmp_width is_jmp32) op x src).
Proof. apply predict_scalar. Qed.

Lemma is_branch_taken_sound_witness : is_branch_taken (sample_scalar 7 0) 5 BPF_JGT true = Z.b2z (cond_jmp 32 JGT 7 5).
Proof.
  pose proof (sim_scalar _ _ _ (sample_scalar_sim 7 0 0 ltac:(kia)) eq_refl) as (_ & M & _).
  destruct (is_branch_taken_sound (sample_scalar 7 0) 7 5 5 JGT true eq_refl M ltac:(kia) eq_refl) as [E|E]; [vm_compute in E; discriminate E|exact E].
Defined.

(** C40: On a pointer the prediction ignores the width of the comparison: a
    32-bit test against zero of a valid pointer whose low half is zero is
    predicted to fail, and succeeds in the interpreter. *)
Theorem jmp32_pointer_prediction : exists reg x, type_ reg = PTR_TO_MAP_VALUE /\ reg_sim reg x x /\ x <> 0 /\
  is_branch_taken reg 0 BPF_JEQ true = 0 /\ cond_jmp 32 JEQ x 0 = true.
Proof.
  exists (sample_ptr PTR_TO_MAP_VALUE 1 0), (2 ^ 32); split; [reflexivity|]; split; [apply sample_ptr_sim; [kia|discriminate]|].
  split; [discriminate|split; reflexivity].
Qed.

(** Scalar arithmetic accepted by [adjust_scalar_min_max_vals] changes the
    destination register only, which then admits the result of the machine
    operation with its views in agreement. *)
Theorem adjust_scalar_min_max_vals_sound insn env src_reg x SRC op o r u env' : env_wf env -> regno_ok (insn_dst insn) ->
  BPF_OP (insn_code insn) = alu_code op -> op <> MOV -> type_ (get_reg env (insn_dst insn)) = SCALAR_VALUE ->
  reg_inv (get_reg env (insn_dst insn)) x -> reg_inv src_reg (operand_val o SRC (insn_imm insn)) ->
  alu_exec (insn_w insn) op o x SRC (insn_imm insn) = Some r ->
  adjust_scalar_min_max_vals insn (insn_dst insn) src_reg env = (inr u, env') ->
  only_reg (insn_dst insn) env env' /\ type_ (get_reg env' (insn_dst insn)) = SCALAR_VALUE /\ reg_inv (get_reg env' (insn_dst insn)) r.
Proof. intros; eapply adjust_scalar_sound; eassumption. Qed.

(** [r1 &= 12] with [r1 = 7]. *)
Definition sample_and : bpf_insn := mk_insn (BPF_ALU64 .| BPF_AND .| BPF_K) 1 0 0 12.

Lemma adjust_scalar_min_max_vals_sound_witness : exists env',
  adjust_scalar_min_max_vals sample_and 1 (sample_scalar 12 0) (sample_env []) = (inr tt, env') /\ reg_inv (get_reg env' 1) 4.
Proof.
  pose proof (sample_sim []) as (W & _); pose proof (sim_scalar _ _ _ (sample_scalar_sim 7 0 0 ltac:(kia)) eq_refl) as I7.
  pose proof (sim_scalar _ _ _ (sample_scalar_sim 12 0 0 ltac:(kia)) eq_refl) as I12.
  assert (H : adjust_scalar_min_max_vals sample_and 1 (sample_scalar 12 0) (sample_env []) =
    (inr tt, (adjust_scalar_min_max_vals sample_and 1 (sample_scalar 12 0) (sample_env [])).2)) by (apply accepted; vm_compute; reflexivity).
  eexists; split; [exact H|].
  apply (adjust_scalar_min_max_vals_sound sample_and (sample_env []) (sample_scalar 12 0) 7 0 AND K 4 tt) in H;
    [apply H|exact W|closed_range|reflexivity|discriminate|reflexivity|exact I7|exact I12|reflexivity].
Defined.

(** Whatever half of a register's bounds is trusted, recomputing the other
    half from it and the known bits admits every value the trusted half
    admits, and leaves the five views in agreement. *)
Theorem reg_combine_sound r x : tnum_ok (var_off r) -> tnum_mem (var_off r) x ->
  (bnd_ok 32 (b32 r) -> bnd_in 32 (b32 r) x -> reg_inv (__reg_combine_32_into_64 r) x) /\
  (bnd_ok 64 (b64 r) -> bnd_in 64 (b64 r) x -> reg_inv (__reg_combine_64_into_32 r) x).
Proof. intros Ho Hm; split; intros; [apply combine_32_into_64_inv|apply combine_64_into_32_inv]; assumption. Qed.

Lemma reg_combine_sound_witness : reg_inv (__reg_combine_32_into_64 (sample_unknown 0)) 5.
Proof.
  pose proof (sim_scalar _ _ _ (sample_unknown_sim 5 0 0 ltac:(kia)) eq_refl) as ((T & B64 & B32) & (M & I64 & I32) & _).
  exact (proj1 (reg_combine_sound (sample_unknown 0) 5 T M) B32 I32).
Defined.

(** A load of 1, 2 or 4 bytes truncates the abstract register as it
    truncates the value. *)
Theorem coerce_reg_to_size_sound r x size : size = 1 \/ size = 2 \/ size = 4 -> reg_inv r x ->
  reg_inv (coerce_reg_to_size r size) (uwrap (size * 8) x).
Proof. apply coerce_inv. Qed.

Lemma coerce_reg_to_size_sound_witness : reg_inv (coerce_reg_to_size (sample_scalar 0x12345 0) 2) 0x2345.
Proof.
  pose proof (sim_scalar _ _ _ (sample_scalar_sim 0x12345 0 0 ltac:(kia)) eq_refl) as I.
  exact (coerce_reg_to_size_sound (sample_scalar 0x12345 0) 0x12345 2 (or_intror (or_introl eq_refl)) I).
Defined.

(** Every opcode the loader admits is handled by the interpreter, except
    the packet loads the verifier rewrites, and an opcode's handler is the one
    its name says. *)
Theorem insntable_dispatch code : uin 8 code -> bpf_opcode_in_insntable code = true ->
  (jumptable code <> L_default \/ (BPF_CLASS code = BPF_LD /\ (BPF_MODE code = BPF_ABS \/ BPF_MODE code = BPF_IND))) /\
  match label_code (jumptable code) with Some c => code = c | None => True end.
Proof. intros H T; split; [apply insntable_handled|apply jumptable_code]; assumption. Qed.

Lemma insntable_dispatch_witness : jumptable 0x0f <> L_default \/
  (BPF_CLASS 0x0f = BPF_LD /\ (BPF_MODE 0x0f = BPF_ABS \/ BPF_MODE 0x0f = BPF_IND)).
Proof. refine (proj1 (insntable_dispatch 0x0f _ _)); closed_range. Defined.
