(* ===== verification/StackAccess.v ===== *)
(** Accesses to the stack of a program, kernel/bpf/verifier.c: spilling and
    filling registers, the types of stack bytes, and the checks of bounds and
    alignment.

    [int] values that stay within the stack limits once the bounds were checked
    are computed without their conversions; the sums that involve a register's
    64-bit bounds are converted where the code does. *)
From Stdlib Require Import ZArith Lia Bool.
From stdpp Require Import base list gmap.
From S2P Require Import Prelude Bits Tnum Bounds RegState Insn Env RegArg Precision Alu.

Local Open Scope Z_scope.
Local Open Scope kint_scope.

Abbreviation MAX_STACK := 512.

Inductive bpf_access_type := BPF_READ | BPF_WRITE.
Inductive stack_access_src := ACCESS_DIRECT | ACCESS_HELPER.

#[global] Instance access_type_eq_dec : EqDecision bpf_access_type.
Proof. solve_decision. Defined.
#[global] Instance access_src_eq_dec : EqDecision stack_access_src.
Proof. solve_decision. Defined.

(** ** Frames *)

(** [func(env, reg)] is the frame of this number. *)
Definition func (reg : bpf_reg_state) : nat := Z.to_nat (frameno reg).

Definition frame_of (env : bpf_verifier_env) (k : nat) : bpf_func_state := frame (cur_state env) !!! k.

Definition upd_frame (k : nat) (f : bpf_func_state -> bpf_func_state) : verifier unit :=
  modify (fun env => set_cur_state env (set_frame (cur_state env) (alter f k (frame (cur_state env))))).

Definition upd_slot (k spi : nat) (f : bpf_stack_state -> bpf_stack_state) : verifier unit :=
  upd_frame k (fun fn => set_stack fn (alter f spi (stack fn))).

Definition slot_of (env : bpf_verifier_env) (k spi : nat) : bpf_stack_state := stack (frame_of env k) !!! spi.
Definition type_at (s : bpf_stack_state) (j : nat) : bpf_stack_slot_type := default STACK_INVALID (slot_type s !! j).

Definition set_type_at (j : nat) (t : bpf_stack_slot_type) (s : bpf_stack_state) : bpf_stack_state :=
  set_slot_type s (<[j := t]> (slot_type s)).

(** [slot / BPF_REG_SIZE] and [slot % BPF_REG_SIZE]. *)
Definition slot_spi (slot : Z) : nat := Z.to_nat (Z.quot slot BPF_REG_SIZE).
Definition slot_pos (slot : Z) : nat := Z.to_nat (Z.rem slot BPF_REG_SIZE).

Definition round_up8 (x : Z) : Z := ((x - 1) .| 7) + 1.

(** [realloc_func_state] with [copy_old], which never shrinks the references. *)
Definition realloc_func_state (k : nat) (size : Z) : verifier unit :=
  env ← get;
  let old_size := 8 * Z.of_nat (length (stack (frame_of env k))) in
  if (size <=? old_size) || (size =? 0) then mret ()
  else
    ok ← kzalloc;
    if negb ok then fail (- ENOMEM)
    else upd_frame k (fun fn => set_stack fn (stack fn ++ replicate (Z.to_nat ((size - old_size) / 8)) inhabitant)).

(** ** Writing *)

Definition is_spillable_regtype (t : bpf_reg_type) : bool :=
  match t with
  | PTR_TO_MAP_VALUE | PTR_TO_MAP_VALUE_OR_NULL | PTR_TO_STACK | PTR_TO_CTX | PTR_TO_PACKET | PTR_TO_PACKET_META | PTR_TO_PACKET_END
  | PTR_TO_FLOW_KEYS | CONST_PTR_TO_MAP | PTR_TO_SOCKET | PTR_TO_SOCKET_OR_NULL | PTR_TO_SOCK_COMMON | PTR_TO_SOCK_COMMON_OR_NULL
  | PTR_TO_TCP_SOCK | PTR_TO_TCP_SOCK_OR_NULL | PTR_TO_XDP_SOCK | PTR_TO_BTF_ID | PTR_TO_BTF_ID_OR_NULL | PTR_TO_RDONLY_BUF
  | PTR_TO_RDONLY_BUF_OR_NULL | PTR_TO_RDWR_BUF | PTR_TO_RDWR_BUF_OR_NULL | PTR_TO_PERCPU_BTF_ID | PTR_TO_MEM | PTR_TO_MEM_OR_NULL => true
  | _ => false
  end.

Definition save_register_state (k spi : nat) (reg : bpf_reg_state) : verifier unit :=
  upd_slot k spi (fun _ => mk_slot (set_live reg (live reg .| REG_LIVE_WRITTEN)) (replicate 8 STACK_SPILL)).

(** A write of data: the slot after it. *)
Definition data_slot (slot size : Z) (t : bpf_stack_slot_type) (s : bpf_stack_state) : bpf_stack_state :=
  foldl (fun s i => set_type_at (slot_pos (slot - Z.of_nat i)) t s) s (seq 0 (Z.to_nat size)).

Definition check_stack_write_fixed_off (k : nat) (off size value_regno idx : Z) : verifier unit :=
  let slot := - off - 1 in
  let spi := slot_spi slot in
  env ← get;
  let dst_reg := insn_dst (prog env !!! Z.to_nat idx) in
  _ ← realloc_func_state k (round_up8 (slot + 1));
  env ← get;
  let s := slot_of env k spi in
  if negb (allow_ptr_leaks env) && bool_decide (type_at s 0 = STACK_SPILL) && negb (size =? BPF_REG_SIZE) then fail (- EACCES)
  else
    let reg := if value_regno >=? 0 then Some (get_reg env value_regno) else None in
    let spillable := match reg with Some r => is_spillable_regtype (type_ r) | None => false end in
    let sanitize := spillable || existsb (fun i => bool_decide (type_at s i = STACK_INVALID)) (seq 0 (Z.to_nat size)) in
    _ ← when (negb (bypass_spec_v4 env) && sanitize)
          (modify (fun env => set_insn_aux_data env (alter (fun a => set_sanitize_stack_spill a true) (Z.to_nat idx) (insn_aux_data env))));
    let bounded := match reg with Some r => register_is_bounded r && negb (register_is_null r) | None => false end in
    if (size =? BPF_REG_SIZE) && bounded && bpf_capable (flags env) then
      _ ← when (negb (dst_reg =? BPF_REG_FP)) (mark_chain_precision value_regno);
      reg ← reg_of value_regno;
      save_register_state k spi reg
    else if spillable then
      if negb (size =? BPF_REG_SIZE) then fail (- EACCES)
      else
        reg ← reg_of value_regno;
        if negb (k =? curframe (cur_state env))%nat && type_eqb (type_ reg) PTR_TO_STACK then fail (- EINVAL)
        else save_register_state k spi reg
    else
      _ ← upd_slot k spi (fun s => set_spilled_ptr s (set_type (spilled_ptr s) NOT_INIT));
      _ ← upd_slot k spi (fun s => if bool_decide (type_at s 0 = STACK_SPILL) then set_slot_type s (replicate 8 STACK_MISC) else s);
      _ ← when (size =? BPF_REG_SIZE) (upd_slot k spi (fun s => set_spilled_ptr s (set_live (spilled_ptr s) (live (spilled_ptr s) .| REG_LIVE_WRITTEN))));
      let null := match reg with Some r => register_is_null r | None => false end in
      _ ← when null (mark_chain_precision value_regno);
      upd_slot k spi (data_slot slot size (if null then STACK_ZERO else STACK_MISC)).

(** The number of a slot type, which the code compares with [NOT_INIT] and
    [SCALAR_VALUE], 0 and 1. *)
Definition slot_code (t : bpf_stack_slot_type) : Z :=
  match t with STACK_INVALID => 0 | STACK_SPILL => 1 | STACK_MISC => 2 | STACK_ZERO => 3 end.

(** The loop over the bytes a write with a variable offset may touch; the
    result is [zero_used]. *)
Fixpoint write_var_loop (n : nat) (k : nat) (i : Z) (writing_zero zero_used : bool) : verifier bool :=
  match n with
  | O => mret zero_used
  | S n =>
    env ← get;
    let slot := - i - 1 in
    let spi := slot_spi slot in
    let t := type_at (slot_of env k spi) (slot_pos slot) in
    if negb (allow_ptr_leaks env) && negb (slot_code t =? 0) && negb (slot_code t =? 1) then fail (- EINVAL)
    else
      _ ← upd_slot k spi (fun s => set_spilled_ptr s (set_type (spilled_ptr s) NOT_INIT));
      let keep := writing_zero && bool_decide (t = STACK_ZERO) in
      if bool_decide (t = STACK_INVALID) && negb (allow_uninit_stack env) then fail (- EINVAL)
      else
        _ ← upd_slot k spi (set_type_at (slot_pos slot) (if keep then STACK_ZERO else STACK_MISC));
        write_var_loop n k (i + 1) writing_zero (zero_used || keep)
  end.

Definition check_stack_write_var_off (k : nat) (ptr_regno off size value_regno : Z) : verifier unit :=
  ptr_reg ← reg_of ptr_regno;
  let min_off := s32 (smin_value ptr_reg + off) in
  let max_off := s32 (smax_value ptr_reg + off + size) in
  env ← get;
  let writing_zero := (value_regno >=? 0) && register_is_null (get_reg env value_regno) in
  _ ← realloc_func_state k (round_up8 (- min_off));
  zero_used ← write_var_loop (Z.to_nat (max_off - min_off)) k min_off writing_zero false;
  when zero_used (mark_chain_precision value_regno).

Definition check_stack_write (ptr_regno off size value_regno idx : Z) : verifier unit :=
  reg ← reg_of ptr_regno;
  if tnum_is_const (var_off reg)
  then check_stack_write_fixed_off (func reg) (s32 (off + value (var_off reg))) size value_regno idx
  else check_stack_write_var_off (func reg) ptr_regno off size value_regno.

(** ** Reading *)

Definition mark_reg_stack_read (k : nat) (min_off max_off dst_regno : Z) : verifier unit :=
  env ← get;
  let zero i := let slot := - (min_off + Z.of_nat i) - 1 in bool_decide (type_at (slot_of env k (slot_spi slot)) (slot_pos slot) = STACK_ZERO) in
  _ ← (if forallb zero (seq 0 (Z.to_nat (max_off - min_off)))
       then upd_reg dst_regno (fun r => set_precise (__mark_reg_const_zero r) true)
       else mark_reg_unknown dst_regno);
  upd_reg dst_regno (fun r => set_live r (live r .| REG_LIVE_WRITTEN)).

(** The result of [mark_reg_read] is not looked at. *)
Definition mark_slot_read (k spi : nat) : verifier unit :=
  env ← get;
  let reg := spilled_ptr (slot_of env k spi) in
  _ ← catch (mark_reg_read reg (parent reg) REG_LIVE_READ64);
  mret ().

Definition check_stack_read_fixed_off (k : nat) (off size dst_regno : Z) : verifier unit :=
  let slot := - off - 1 in
  let spi := slot_spi slot in
  env ← get;
  let s := slot_of env k spi in
  let reg := spilled_ptr s in
  let at_ i := type_at s (slot_pos (slot - Z.of_nat i)) in
  if bool_decide (type_at s 0 = STACK_SPILL) then
    if negb (size =? BPF_REG_SIZE) then
      if negb (type_eqb (type_ reg) SCALAR_VALUE) then fail (- EACCES)
      else
        _ ← when (dst_regno >=? 0) (_ ← mark_reg_unknown dst_regno; upd_reg dst_regno (fun r => set_live r (live r .| REG_LIVE_WRITTEN)));
        mark_slot_read k spi
    else if existsb (fun i => negb (bool_decide (at_ i = STACK_SPILL))) (seq 1 7) then fail (- EACCES)
    else
      _ ← (if dst_regno >=? 0 then upd_reg dst_regno (fun _ => set_live reg (live reg .| REG_LIVE_WRITTEN))
           else if __is_pointer_value (allow_ptr_leaks env) reg then fail (- EACCES) else mret ());
      mark_slot_read k spi
  else
    if existsb (fun i => negb (bool_decide (at_ i = STACK_MISC)) && negb (bool_decide (at_ i = STACK_ZERO))) (seq 0 (Z.to_nat size))
    then fail (- EACCES)
    else
      _ ← mark_slot_read k spi;
      when (dst_regno >=? 0) (mark_reg_stack_read k off (off + size) dst_regno).

(** ** Bounds *)

Definition check_stack_slot_within_bounds (off : Z) (state : bpf_func_state) (t : bpf_access_type) : verifier unit :=
  let min_valid_off := if bool_decide (t = BPF_WRITE) then - MAX_STACK else - (8 * Z.of_nat (length (stack state))) in
  if (off <? min_valid_off) || (off >? -1) then fail (- EACCES) else mret ().

Definition check_stack_access_within_bounds (regno off access_size : Z) (t : bpf_access_type) : verifier unit :=
  reg ← reg_of regno;
  env ← get;
  let state := frame_of env (func reg) in
  range ← (if tnum_is_const (var_off reg) then
             let min_off := s32 (value (var_off reg) + off) in
             mret (min_off, if access_size >? 0 then s32 (min_off + access_size - 1) else min_off)
           else if (smax_value reg >=? BPF_MAX_VAR_OFF) || (smin_value reg <=? - BPF_MAX_VAR_OFF) then fail (- EACCES)
           else
             let min_off := s32 (smin_value reg + off) in
             mret (min_off, if access_size >? 0 then s32 (smax_value reg + off + access_size - 1) else min_off));
  _ ← check_stack_slot_within_bounds range.1 state t;
  check_stack_slot_within_bounds range.2 state t.

Definition update_stack_depth (k : nat) (off : Z) : verifier unit :=
  env ← get;
  let n := Z.to_nat (subprogno (frame_of env k)) in
  let stack := match subprog_info env !! n with Some i => stack_depth i | None => 0 end in
  if stack >=? - off then mret ()
  else modify (fun env => set_subprog_info env (alter (fun i =>
         mk_subprog (start i) (linfo_idx i) (u16 (- off)) (has_tail_call i) (tail_call_reachable i) (has_ld_abs i)) n (subprog_info env))).

(** The loop of [check_stack_range_initialized] from the byte [i] on. *)
Fixpoint range_loop (n : nat) (k : nat) (i : Z) (clobber : bool) : verifier unit :=
  match n with
  | O => mret ()
  | S n =>
    env ← get;
    let slot := - i - 1 in
    let spi := slot_spi slot in
    let s := slot_of env k spi in
    let t := type_at s (slot_pos slot) in
    let spilled := bool_decide (type_at s 0 = STACK_SPILL) in
    let mark m := _ ← m; _ ← mark_slot_read k spi; range_loop n k (i + 1) clobber in
    if 8 * Z.of_nat (length (stack (frame_of env k))) <=? slot then fail (- EACCES)
    else if bool_decide (t = STACK_MISC) then mark (mret ())
    else if bool_decide (t = STACK_ZERO) then mark (when clobber (upd_slot k spi (set_type_at (slot_pos slot) STACK_MISC)))
    else if spilled && type_eqb (type_ (spilled_ptr s)) PTR_TO_BTF_ID then mark (mret ())
    else if spilled && (type_eqb (type_ (spilled_ptr s)) SCALAR_VALUE || allow_ptr_leaks env) then
      mark (when clobber (upd_slot k spi (fun s => mk_slot (__mark_reg_unknown (flags env) (spilled_ptr s)) (replicate 8 STACK_MISC))))
    else fail (- EACCES)
  end.

(** [raw_mode] stands for [meta && meta->raw_mode]; the result is what is
    recorded in [meta]: the size and the register. *)
Definition check_stack_range_initialized (regno off access_size : Z) (zero_size_allowed : bool) (src : stack_access_src) (raw_mode : bool)
    : verifier (option (Z * Z)) :=
  reg ← reg_of regno;
  let k := func reg in
  if (access_size =? 0) && negb zero_size_allowed then fail (- EACCES)
  else
    let helper := bool_decide (src = ACCESS_HELPER) in
    _ ← check_stack_access_within_bounds regno off access_size (if helper then BPF_WRITE else BPF_READ);
    env ← get;
    let const := tnum_is_const (var_off reg) in
    if negb const && negb (bypass_spec_v1 env) then fail (- EACCES)
    else
      let min_off := if const then s32 (value (var_off reg) + off) else s32 (smin_value reg + off) in
      let max_off := if const then min_off else s32 (smax_value reg + off) in
      if const && raw_mode then mret (Some (access_size, regno))
      else
        _ ← range_loop (Z.to_nat (max_off + access_size - min_off)) k min_off helper;
        _ ← update_stack_depth k min_off;
        mret None.

Definition check_stack_read_var_off (ptr_regno off size dst_regno : Z) : verifier unit :=
  reg ← reg_of ptr_regno;
  _ ← check_stack_range_initialized ptr_regno off size false ACCESS_DIRECT false;
  let min_off := s32 (smin_value reg + off) in
  let max_off := s32 (smax_value reg + off) in
  mark_reg_stack_read (func reg) min_off (max_off + size) dst_regno.

Definition check_stack_read (ptr_regno off size dst_regno : Z) : verifier unit :=
  reg ← reg_of ptr_regno;
  env ← get;
  let var := negb (tnum_is_const (var_off reg)) in
  if (dst_regno <? 0) && var then fail (- EACCES)
  else if negb (bypass_spec_v1 env) && var then fail (- EACCES)
  else if negb var then check_stack_read_fixed_off (func reg) (s32 (off + value (var_off reg))) size dst_regno
  else check_stack_read_var_off ptr_regno off size dst_regno.

(** ** Alignment *)

Definition check_pkt_ptr_alignment (reg : bpf_reg_state) (off_ size : Z) (strict : bool) : verifier unit :=
  if negb strict || (size =? 1) then mret ()
  else if negb (tnum_is_aligned (tnum_add (var_off reg) (tnum_const (u64 (s32 (2 + off reg + off_))))) size) then fail (- EACCES)
  else mret ().

Definition check_generic_ptr_alignment (reg : bpf_reg_state) (off_ size : Z) (strict : bool) : verifier unit :=
  if negb strict || (size =? 1) then mret ()
  else if negb (tnum_is_aligned (tnum_add (var_off reg) (tnum_const (u64 (s32 (off reg + off_))))) size) then fail (- EACCES)
  else mret ().

Definition check_ptr_alignment (reg : bpf_reg_state) (off size : Z) (strict_alignment_once : bool) : verifier unit :=
  env ← get;
  let strict := strict_alignment env || strict_alignment_once in
  match type_ reg with
  | PTR_TO_PACKET | PTR_TO_PACKET_META => check_pkt_ptr_alignment reg off size strict
  | PTR_TO_STACK => check_generic_ptr_alignment reg off size true
  | _ => check_generic_ptr_alignment reg off size strict
  end.

(** ** Sizes *)

Definition bpf_size_to_bytes (bpf_size : Z) : Z :=
  if bpf_size =? BPF_B then 1 else if bpf_size =? BPF_H then 2 else if bpf_size =? BPF_W then 4 else if bpf_size =? BPF_DW then 8 else - EINVAL.
