(* ===== verification/StackSound.v ===== *)
(** The meaning of a frame's stack slots in the memory of the machine, and that
    the checks of stack accesses keep it.

    The byte number [i] of the frame with frame pointer [fp] is at
    [fp - 1 - i], as the verifier counts slots. *)
From Stdlib Require Import ZArith Lia Bool.
From stdpp Require Import base list gmap.
From S2P Require Import Prelude Lists Bits Tnum Bounds RegState ScalarOps Insn Interp Env MemAccess RegArg Precision Bookkeeping Alu AluStep StackAccess.

Local Open Scope Z_scope.
Local Open Scope kint_scope.

(** ** Bytes *)

Definition mem_ok (m : memory) : Prop := forall a b, m !! a = Some b -> 0 <= b < 256.

Lemma u64_neq a i j : - 2 ^ 32 <= i < 2 ^ 32 -> - 2 ^ 32 <= j < 2 ^ 32 -> i <> j -> u64 (a + i) <> u64 (a + j).
Proof.
  unfold uwrap; intros Hi Hj N E; apply N; change (2 ^ 64) with 18446744073709551616 in *.
  pose proof (Z.div_mod (a + i) 18446744073709551616); pose proof (Z.div_mod (a + j) 18446744073709551616); nia.
Qed.

Lemma load_ext m m' n : forall a, (forall k, (k < n)%nat -> m !! u64 (a + Z.of_nat k) = m' !! u64 (a + Z.of_nat k)) -> load_bytes m a n = load_bytes m' a n.
Proof.
  induction n as [|n IH]; intros a H; [reflexivity|]; cbn [load_bytes].
  pose proof (H 0%nat ltac:(lia)) as H0; rewrite Z.add_0_r in H0; rewrite H0, (IH (a + 1)); [reflexivity|].
  intros k Hk; replace (a + 1 + Z.of_nat k) with (a + Z.of_nat (S k)) by lia; apply H; lia.
Qed.

Lemma store_out n : forall m a v m', store_bytes m a n v = Some m' -> forall b, (forall k, (k < n)%nat -> b <> u64 (a + Z.of_nat k)) -> m' !! b = m !! b.
Proof.
  induction n as [|n IH]; intros m a v m' H b N; cbn [store_bytes] in H; [congruence|].
  destruct (m !! u64 a); [|discriminate]; cbn in H; rewrite (IH _ _ _ _ H).
  - apply lookup_insert_ne; pose proof (N 0%nat ltac:(lia)) as N0; rewrite Z.add_0_r in N0; congruence.
  - intros k Hk; replace (a + 1 + Z.of_nat k) with (a + Z.of_nat (S k)) by lia; apply N; lia.
Qed.

Lemma store_in n : forall m a v m', store_bytes m a n v = Some m' -> Z.of_nat n < 2 ^ 32 ->
  forall k, (k < n)%nat -> m' !! u64 (a + Z.of_nat k) = Some ((v / 256 ^ Z.of_nat k) mod 256).
Proof.
  induction n as [|n IH]; intros m a v m' H L k Hk; [lia|]; cbn [store_bytes] in H.
  destruct (m !! u64 a); [|discriminate]; cbn in H; destruct k as [|k].
  - change (Z.of_nat 0) with 0; rewrite Z.add_0_r, (store_out n _ _ _ _ H), Z.div_1_r; [apply lookup_insert_eq|].
    intros j Hj; replace (a + 1 + Z.of_nat j) with (a + Z.of_nat (S j)) by lia.
    rewrite <- (Z.add_0_r a) at 1; apply u64_neq; lia.
  - replace (a + Z.of_nat (S k)) with (a + 1 + Z.of_nat k) by lia; rewrite (IH _ _ _ _ H) by lia.
    rewrite Z.div_div by lia; do 3 f_equal; replace (Z.of_nat (S k)) with (1 + Z.of_nat k) by lia; rewrite Z.pow_add_r by lia; reflexivity.
Qed.

Lemma load_of n : forall m a v, (forall k, (k < n)%nat -> m !! u64 (a + Z.of_nat k) = Some ((v / 256 ^ Z.of_nat k) mod 256)) ->
  load_bytes m a n = Some (v mod 256 ^ Z.of_nat n).
Proof.
  induction n as [|n IH]; intros m a v H; [cbn; rewrite Z.mod_1_r; reflexivity|]; cbn [load_bytes].
  pose proof (H 0%nat ltac:(lia)) as H0; rewrite Z.add_0_r, Z.div_1_r in H0; rewrite H0, (IH m (a + 1) (v / 256)).
  - cbn; f_equal; rewrite Nat2Z.inj_succ, Z.pow_succ_r by lia.
    rewrite (Z.rem_mul_r v 256 (256 ^ Z.of_nat n)) by lia; lia.
  - intros k Hk; replace (a + 1 + Z.of_nat k) with (a + Z.of_nat (S k)) by lia; rewrite H, Z.div_div by lia.
    do 3 f_equal; replace (Z.of_nat (S k)) with (1 + Z.of_nat k) by lia; rewrite Z.pow_add_r by lia; reflexivity.
Qed.

Lemma load_store m a n v m' : store_bytes m a n v = Some m' -> Z.of_nat n < 2 ^ 32 -> load_bytes m' a n = Some (v mod 256 ^ Z.of_nat n).
Proof. intros H L; apply load_of; intros k Hk; eapply store_in; eassumption. Qed.

Lemma load_range m n : mem_ok m -> forall a v, load_bytes m a n = Some v -> 0 <= v < 256 ^ Z.of_nat n.
Proof.
  intros M; induction n as [|n IH]; intros a v H; cbn [load_bytes] in H; [injection H as <-; cbn; lia|].
  destruct (m !! u64 a) as [b|] eqn:E; [|discriminate]; cbn in H; destruct (load_bytes m (a + 1) n) as [r|] eqn:L; [|discriminate]; cbn in H; injection H as <-.
  apply M in E; apply IH in L; rewrite Nat2Z.inj_succ, Z.pow_succ_r by lia; lia.
Qed.

Lemma load_zero m n : forall a v, load_bytes m a n = Some v -> (forall k, (k < n)%nat -> m !! u64 (a + Z.of_nat k) = Some 0) -> v = 0.
Proof.
  induction n as [|n IH]; intros a v H Z; cbn [load_bytes] in H; [congruence|].
  pose proof (Z 0%nat ltac:(lia)) as Z0; rewrite Z.add_0_r in Z0; rewrite Z0 in H; cbn in H.
  destruct (load_bytes m (a + 1) n) as [r|] eqn:L; [|discriminate]; cbn in H; injection H as <-.
  rewrite (IH _ _ L); [reflexivity|]; intros k Hk; replace (a + 1 + Z.of_nat k) with (a + Z.of_nat (S k)) by lia; apply Z; lia.
Qed.

Lemma load_is_some m n : forall a, is_Some (load_bytes m a n) <-> forall k, (k < n)%nat -> is_Some (m !! u64 (a + Z.of_nat k)).
Proof.
  induction n as [|n IH]; intros a; cbn [load_bytes]; [split; [lia|eauto]|]; split.
  - intros [v H] [|k] Hk.
    + rewrite Z.add_0_r; destruct (m !! u64 a); [eauto|discriminate].
    + replace (a + Z.of_nat (S k)) with (a + 1 + Z.of_nat k) by lia; apply IH; [|lia].
      destruct (m !! u64 a); [|discriminate]; cbn in H; destruct (load_bytes m (a + 1) n); [eauto|discriminate].
  - intros H; destruct (H 0%nat ltac:(lia)) as [b Hb]; rewrite Z.add_0_r in Hb; rewrite Hb; cbn.
    destruct (proj2 (IH (a + 1))) as [v ->]; [|cbn; eauto].
    intros k Hk; replace (a + 1 + Z.of_nat k) with (a + Z.of_nat (S k)) by lia; apply H; lia.
Qed.

Lemma insert_is_some (m : memory) a b c : is_Some (m !! b) -> is_Some ((<[a := c]> m : memory) !! b).
Proof. intros H; destruct (Z.eq_dec a b) as [->|N]; [exists c; apply lookup_insert_eq|destruct H as [x Hx]; exists x; etrans; [apply lookup_insert_ne, N|exact Hx]]. Qed.

Lemma store_is_some n : forall m a v, (forall k, (k < n)%nat -> is_Some (m !! u64 (a + Z.of_nat k))) -> is_Some (store_bytes m a n v).
Proof.
  induction n as [|n IH]; intros m a v H; cbn [store_bytes]; [eauto|].
  destruct (H 0%nat ltac:(lia)) as [b Hb]; rewrite Z.add_0_r in Hb; rewrite Hb; cbn; apply IH; intros k Hk.
  apply insert_is_some; replace (a + 1 + Z.of_nat k) with (a + Z.of_nat (S k)) by lia; apply H; lia.
Qed.

Lemma store_keeps n : forall m a v m', store_bytes m a n v = Some m' ->
  (forall b, is_Some (m !! b) -> is_Some (m' !! b)) /\ (mem_ok m -> mem_ok m').
Proof.
  induction n as [|n IH]; intros m a v m' H; cbn [store_bytes] in H; [injection H as <-; auto|].
  destruct (m !! u64 a); [|discriminate]; cbn in H; apply IH in H as [A B]; split; [intros c Hc; apply A, insert_is_some, Hc|].
  intros M; apply B; intros c w Hw; destruct (Z.eq_dec (u64 a) c) as [<-|N].
  - assert (E : Some (v mod 256) = Some w) by (etrans; [symmetry; apply (lookup_insert_eq m)|exact Hw]); injection E as <-; apply Z.mod_pos_bound; lia.
  - apply (M c); etrans; [symmetry; apply (lookup_insert_ne m (u64 a) c (v mod 256)), N|exact Hw].
Qed.

(** ** Frames *)

Definition byte_at (m : memory) (fp : Z) (i : Z) : option Z := m !! u64 (fp - 1 - i).

(** What the lemmas need of the relation between a register state, the base of
    its pointer and its value: it implies [reg_sim], does not depend on
    bookkeeping, holds of registers about which nothing is known and of scalars
    that are not linked to others. *)
Class CellSim (desc : bpf_reg_state -> Z -> Z -> Prop) : Prop := {
  cs_sim r b x : desc r b x -> reg_sim r b x;
  cs_erase r r' b x : erase_reg r = erase_reg r' -> desc r b x -> desc r' b x;
  cs_not_init r b x : type_ r = NOT_INIT -> uin 64 x -> desc r b x;
  cs_scalar r b x : type_ r = SCALAR_VALUE -> id r = 0 -> reg_inv r x -> uin 64 x -> desc r b x
}.

#[export] Instance reg_sim_cell : CellSim reg_sim.
Proof.
  split; [auto| | |].
  - intros r r' b x E; change (reg_sim (erase_reg r) b x -> reg_sim (erase_reg r') b x); rewrite E; exact (fun H => H).
  - intros r b x T U; split; [exact U|rewrite T; exact Logic.I].
  - intros r b x T _ I U; apply scalar_sim; assumption.
Qed.

Section Desc.
Context (desc : bpf_reg_state -> Z -> Z -> Prop) {Hdesc : CellSim desc}.

Lemma desc_live r v b x : desc r b x -> desc (set_live r v) b x.
Proof. apply cs_erase; reflexivity. Qed.

(** What a slot says: the bytes known to be zero are, and a spilled register
    describes the value of the slot. *)
Definition slot_sim (s : bpf_stack_state) (m : memory) (fp : Z) (spi : nat) (base : Z) : Prop :=
  (forall j, (j < 8)%nat -> slot_type s !! j = Some STACK_ZERO -> byte_at m fp (8 * Z.of_nat spi + Z.of_nat j) = Some 0) /\
  (slot_type s !! 0%nat = Some STACK_SPILL ->
   exists v, load_bytes m (fp - 8 * Z.of_nat (S spi)) 8 = Some v /\ desc (spilled_ptr s) base v).

Definition stack_sim (f : bpf_func_state) (m : memory) (fp : Z) (β : nat -> Z) : Prop :=
  forall spi s, stack f !! spi = Some s -> slot_sim s m fp spi (β spi).

(** ** Bookkeeping *)

Lemma frame_erase e k : frame_of (erase_env e) k = erase_func (frame_of e k).
Proof. unfold frame_of; cbn; apply lookup_total_fmap; reflexivity. Qed.

Lemma frame_same e e' k : e ≈ e' -> erase_func (frame_of e k) = erase_func (frame_of e' k).
Proof. intros H; rewrite <- !frame_erase, H; reflexivity. Qed.

Lemma erase_func_slots f f' spi : erase_func f = erase_func f' -> erase_slot <$> stack f !! spi = erase_slot <$> stack f' !! spi.
Proof. intros E; apply (f_equal stack) in E; cbn in E; rewrite <- !list_lookup_fmap, E; reflexivity. Qed.

Lemma slot_sim_erase s s' m fp spi b : erase_slot s' = erase_slot s -> slot_sim s m fp spi b -> slot_sim s' m fp spi b.
Proof.
  intros E [Z0 Sp]; assert (T : slot_type s' = slot_type s) by exact (f_equal slot_type E); split; rewrite T; [exact Z0|].
  intros H; destruct (Sp H) as (v & L & D); exists v; split; [exact L|]; eapply cs_erase; [symmetry; exact (f_equal spilled_ptr E)|exact D].
Qed.

Lemma stack_sim_erase f f' m fp β : erase_func f = erase_func f' -> stack_sim f m fp β -> stack_sim f' m fp β.
Proof.
  intros E H spi s Hs; pose proof (erase_func_slots f f' spi E) as L; rewrite Hs in L.
  destruct (stack f !! spi) as [s0|] eqn:Es; [|discriminate]; apply (inj Some) in L.
  eapply slot_sim_erase; [symmetry; exact L|exact (H spi s0 Es)].
Qed.

(** A change of the stack of frame [k], up to bookkeeping. *)
Record only_stack (k : nat) (e e' : bpf_verifier_env) : Prop := mk_only_stack {
  os_curframe : curframe (cur_state e') = curframe (cur_state e);
  os_length : length (frame (cur_state e')) = length (frame (cur_state e));
  os_others : forall j, j <> k -> erase_func (frame_of e' j) = erase_func (frame_of e j);
  os_regs : erase_reg <$> regs (frame_of e' k) = erase_reg <$> regs (frame_of e k);
  os_callsite : callsite (frame_of e' k) = callsite (frame_of e k)
}.

Lemma only_stack_trans k e1 e2 e3 : only_stack k e1 e2 -> only_stack k e2 e3 -> only_stack k e1 e3.
Proof.
  intros [A1 A2 A3 A4 A5] [B1 B2 B3 B4 B5]; split; [congruence|congruence| |congruence|congruence].
  intros j N; rewrite B3, A3 by exact N; reflexivity.
Qed.

Lemma same_only_stack k e e' : e' ≈ e -> only_stack k e e'.
Proof.
  intros H; pose proof (f_equal cur_state H) as C; split.
  - exact (f_equal curframe C).
  - apply (f_equal (fun st => length (frame st))) in C; cbn in C; rewrite !length_fmap in C; exact C.
  - intros j _; apply frame_same, H.
  - exact (f_equal regs (frame_same _ _ k H)).
  - exact (f_equal callsite (frame_same _ _ k H)).
Qed.

Lemma upd_frame_at k f e : (k < length (frame (cur_state e)))%nat ->
  frame_of (set_cur_state e (set_frame (cur_state e) (alter f k (frame (cur_state e))))) k = f (frame_of e k).
Proof.
  intros H; unfold frame_of; cbn; apply lookup_lt_is_Some_2 in H; destruct H as [x Hx].
  rewrite (list_lookup_total_correct _ _ x Hx); apply list_lookup_total_correct; rewrite list_lookup_alter_eq, Hx; reflexivity.
Qed.

Lemma upd_frame_other k f e j : j <> k ->
  frame_of (set_cur_state e (set_frame (cur_state e) (alter f k (frame (cur_state e))))) j = frame_of e j.
Proof. intros N; unfold frame_of; cbn; rewrite !list_lookup_total_alt, list_lookup_alter_ne by congruence; reflexivity. Qed.

Lemma upd_frame_only k f e u e' : (forall fn, regs (f fn) = regs fn /\ callsite (f fn) = callsite fn) ->
  (k < length (frame (cur_state e)))%nat -> upd_frame k f e = (inr u, e') ->
  only_stack k e e' /\ frame_of e' k = f (frame_of e k).
Proof.
  intros Hf Hk H; injection H as _ <-; split; [|apply upd_frame_at, Hk]; split; cbn [cur_state set_cur_state curframe set_frame frame].
  - reflexivity.
  - apply length_alter.
  - intros j N; rewrite upd_frame_other by exact N; reflexivity.
  - rewrite upd_frame_at by exact Hk; rewrite (proj1 (Hf _)); reflexivity.
  - rewrite upd_frame_at by exact Hk; apply Hf.
Qed.

(** ** Steps on one slot *)

Section Slots.
Context (k : nat) (fp : Z).

(** The frame exists and its slots describe the memory. *)
Definition good (e : bpf_verifier_env) (m : memory) (β : nat -> Z) : Prop :=
  (k < length (frame (cur_state e)))%nat /\ (length (stack (frame_of e k)) <= 64)%nat /\ stack_sim (frame_of e k) m fp β.

Lemma good_same e e' m β : e' ≈ e -> good e m β -> good e' m β.
Proof.
  intros H (L & B & S); pose proof (os_length k e e' (same_only_stack k e e' H)); split; [lia|].
  pose proof (frame_same e' e k H) as E; split; [|eapply stack_sim_erase; [symmetry; exact E|exact S]].
  apply (f_equal (fun f => length (stack f))) in E; cbn in E; rewrite !length_fmap in E; lia.
Qed.

Lemma good_upd spi f e u e' m m' β β' : good e m β -> upd_slot k spi f e = (inr u, e') ->
  (forall s, stack (frame_of e k) !! spi = Some s -> slot_sim s m fp spi (β spi) -> slot_sim (f s) m' fp spi (β' spi)) ->
  (forall spi' s, spi' <> spi -> (spi' < 64)%nat -> slot_sim s m fp spi' (β spi') -> slot_sim s m' fp spi' (β' spi')) ->
  good e' m' β' /\ only_stack k e e' /\ stack (frame_of e' k) = alter f spi (stack (frame_of e k)).
Proof.
  intros (L & B & S) H Hf Ho; apply upd_frame_only in H as [O E]; [|intros; split; reflexivity|exact L].
  split; [|split; [exact O|rewrite E; reflexivity]]; split; [rewrite (os_length k e e' O); exact L|].
  rewrite E; split; [cbn; rewrite length_alter; exact B|]; intros spi' s Hs; cbn in Hs; destruct (decide (spi' = spi)) as [->|N].
  - rewrite list_lookup_alter_eq in Hs; destruct (stack (frame_of e k) !! spi) as [s0|] eqn:E0; [|discriminate].
    injection Hs as <-; apply Hf; [reflexivity|apply S, E0].
  - rewrite list_lookup_alter_ne in Hs by congruence; pose proof (lookup_lt_Some _ _ _ Hs); apply Ho; [exact N|lia|apply S, Hs].
Qed.

Lemma good_upd_same spi f e u e' m β : good e m β -> upd_slot k spi f e = (inr u, e') ->
  (forall s, slot_sim s m fp spi (β spi) -> slot_sim (f s) m fp spi (β spi)) ->
  good e' m β /\ only_stack k e e' /\ stack (frame_of e' k) = alter f spi (stack (frame_of e k)).
Proof. intros G H Hf; eapply good_upd; [exact G|exact H|auto|auto]. Qed.

Lemma fresh_slot m spi b : slot_sim inhabitant m fp spi b.
Proof.
  split; [|discriminate]; intros j Hj H; exfalso; revert H.
  change (slot_type inhabitant) with (replicate 8 STACK_INVALID); rewrite lookup_replicate; intros [E _]; discriminate.
Qed.

Lemma realloc_good size e u e' m β : good e m β -> size <= MAX_STACK -> realloc_func_state k size e = (inr u, e') ->
  good e' m β /\ only_stack k e e' /\ (exists n, stack (frame_of e' k) = stack (frame_of e k) ++ replicate n inhabitant) /\
  (size mod 8 = 0 -> size <= 8 * Z.of_nat (length (stack (frame_of e' k)))) /\ (forall r, get_reg e' r = get_reg e r) /\ prog e' = prog e.
Proof.
  intros G Hs H; unfold realloc_func_state in H; run H; injection R as <- <-.
  destruct ((size <=? _) || (size =? 0)) eqn:C.
  - injection H as _ <-; split; [exact G|split; [apply same_only_stack; reflexivity|split; [exists 0%nat; rewrite app_nil_r; reflexivity|]]].
    split; [|auto]; intros _; apply orb_true_iff in C as [C|C]; [apply Z.leb_le in C; exact C|apply Z.eqb_eq in C; lia].
  - apply orb_false_iff in C as [C _]; apply Z.leb_gt in C; run H; unfold kzalloc in R.
    assert (Ea : (a = true \/ a = false) /\ cur_state env = cur_state e /\ prog env = prog e)
      by (destruct (alloc e); injection R as <- <-; split; auto; destruct b; auto); destruct Ea as (_ & Ec & Ep).
    destruct a; [|discriminate]; cbn [negb] in H.
    assert (G1 : good env m β) by (unfold good, frame_of in *; rewrite Ec; exact G).
    assert (Ef : frame_of env k = frame_of e k) by (unfold frame_of; rewrite Ec; reflexivity).
    pose proof H as H2; apply upd_frame_only in H2 as [O E]; [|intros; split; reflexivity|apply G1].
    assert (O1 : only_stack k e env) by (split; unfold frame_of; rewrite Ec; auto).
    split; [split; [rewrite (os_length _ _ _ O); apply G1|split]|split; [eapply only_stack_trans; eassumption|]].
    + rewrite E, Ef; cbn; rewrite length_app, length_replicate; set (l := length (stack (frame_of e k))) in *.
      pose proof (Z.div_mod (size - 8 * Z.of_nat l) 8 ltac:(lia)); pose proof (Z.mod_pos_bound (size - 8 * Z.of_nat l) 8 ltac:(lia)); lia.
    + rewrite E; intros spi s Hi; cbn in Hi; apply lookup_app_Some in Hi as [Hi|[_ Hi]]; [apply G1, Hi|].
      apply lookup_replicate in Hi as [-> _]; apply fresh_slot.
    + rewrite E, Ef; cbn [stack set_stack]; split; [eexists; reflexivity|split].
      * intros M; rewrite length_app, length_replicate; rewrite Nat2Z.inj_add, Z2Nat.id by (apply Z.div_pos; lia).
        apply Z.mod_divide in M as [q ->]; [|lia]; set (l := Z.of_nat (length (stack (frame_of e k)))) in *.
        replace (q * 8 - 8 * l) with ((q - l) * 8) by lia; rewrite Z.div_mul by lia; lia.
      * injection H as _ <-; split; [|cbn; exact Ep]; intros r; unfold get_reg, cur_regs, cur_func; cbn [cur_state set_cur_state frame set_frame curframe].
        rewrite Ec, !list_lookup_total_alt; destruct (decide (k = curframe (cur_state e))) as [<-|N];
          [rewrite list_lookup_alter_eq; destruct (frame (cur_state e) !! k); reflexivity|rewrite list_lookup_alter_ne by congruence; reflexivity].
Qed.
End Slots.

(** ** An aligned store to the stack *)

Definition size_ok (size : Z) : Prop := size = 1 \/ size = 2 \/ size = 4 \/ size = 8.

(** The access [off, off + size) is aligned and within the stack limits. *)
Definition access_ok (off size : Z) : Prop := size_ok size /\ - MAX_STACK <= off < 0 /\ off mod size = 0.

Section Access.
Context (off size : Z) (Ha : access_ok off size).

Lemma access_slot t : 0 <= t < size -> 0 <= - off - 1 - t /\ (- off - 1 - t) / 8 = (- off - 1) / 8.
Proof.
  destruct Ha as (S & B & M); intros Ht.
  destruct S as [->|[->|[->| ->]]]; Z.to_euclidean_division_equations; lia.
Qed.

Lemma access_spi t : 0 <= t < size -> slot_spi (- off - 1 - t) = slot_spi (- off - 1) /\
  Z.of_nat (slot_pos (- off - 1 - t)) = - off - 1 - t - 8 * Z.of_nat (slot_spi (- off - 1)) /\ (slot_pos (- off - 1 - t) < 8)%nat.
Proof.
  intros Ht; pose proof (access_slot t Ht) as [P E]; destruct Ha as (_ & B & _); unfold slot_spi, slot_pos.
  rewrite !Z.quot_div_nonneg, Z.rem_mod_nonneg, E by lia; split; [reflexivity|].
  assert (0 <= (- off - 1) / 8) by (apply Z.div_pos; lia); rewrite !Z2Nat.id by (try apply Z.mod_pos_bound; lia).
  pose proof (Z.mod_pos_bound (- off - 1 - t) 8 ltac:(lia)); pose proof (Z.div_mod (- off - 1 - t) 8 ltac:(lia)); split; lia.
Qed.

Lemma access_spi_bound : (slot_spi (- off - 1) < 64)%nat.
Proof.
  destruct Ha as (_ & B & _); unfold slot_spi; rewrite Z.quot_div_nonneg by lia.
  pose proof (Z.div_lt_upper_bound (- off - 1) 8 64 ltac:(lia) ltac:(lia)); pose proof (Z.div_pos (- off - 1) 8 ltac:(lia) ltac:(lia)); lia.
Qed.

Context (m m' : memory) (fp x : Z) (Hst : store_bytes m (fp + off) (Z.to_nat size) x = Some m').

Lemma size_pos : 0 < size <= 8.
Proof. destruct Ha as ([->|[->|[->| ->]]] & _); lia. Qed.

Lemma written t : 0 <= t < size -> byte_at m' fp (- off - 1 - t) = Some ((x / 256 ^ t) mod 256).
Proof.
  intros Ht; pose proof size_pos; unfold byte_at; replace (fp - 1 - (- off - 1 - t)) with (fp + off + Z.of_nat (Z.to_nat t)) by lia.
  rewrite (store_in _ _ _ _ _ Hst) by lia; rewrite Z2Nat.id by lia; reflexivity.
Qed.

Lemma unwritten i : 0 <= i < 2 ^ 31 -> (forall t, 0 <= t < size -> i <> - off - 1 - t) -> byte_at m' fp i = byte_at m fp i.
Proof.
  intros Hi N; pose proof size_pos; destruct Ha as (_ & B & _); unfold byte_at; apply (store_out _ _ _ _ _ Hst); intros k Hk E.
  replace (fp - 1 - i) with (fp + (- 1 - i)) in E by lia; replace (fp + off + Z.of_nat k) with (fp + (off + Z.of_nat k)) in E by lia.
  revert E; apply u64_neq; [lia|lia|]; intros E; apply (N (Z.of_nat k)); lia.
Qed.

(** The bytes of another slot. *)
Lemma other_byte spi j : (spi < 64)%nat -> (j < 8)%nat -> spi <> slot_spi (- off - 1) ->
  byte_at m' fp (8 * Z.of_nat spi + Z.of_nat j) = byte_at m fp (8 * Z.of_nat spi + Z.of_nat j).
Proof.
  intros Hs Hj N; apply unwritten; [lia|]; intros t Ht E; pose proof (access_spi t Ht) as (_ & P & L); lia.
Qed.

Lemma slot_load_ext spi : (forall j, (j < 8)%nat -> byte_at m' fp (8 * Z.of_nat spi + Z.of_nat j) = byte_at m fp (8 * Z.of_nat spi + Z.of_nat j)) ->
  load_bytes m' (fp - 8 * Z.of_nat (S spi)) 8 = load_bytes m (fp - 8 * Z.of_nat (S spi)) 8.
Proof.
  intros H; apply load_ext; intros k Hk; pose proof (H (7 - k)%nat ltac:(lia)) as E; unfold byte_at in E.
  replace (fp - 8 * Z.of_nat (S spi) + Z.of_nat k) with (fp - 1 - (8 * Z.of_nat spi + Z.of_nat (7 - k))) by lia; exact E.
Qed.

Lemma other_slot spi s b : spi <> slot_spi (- off - 1) -> (spi < 64)%nat -> slot_sim s m fp spi b -> slot_sim s m' fp spi b.
Proof.
  intros N L [Z0 Sp]; split.
  - intros j Hj T; rewrite other_byte by assumption; auto.
  - intros T; destruct (Sp T) as (v & Hv & Sv); exists v; split; [|exact Sv].
    rewrite slot_load_ext; [exact Hv|]; intros j Hj; apply other_byte; assumption.
Qed.

(** ** The slot that is written *)

(** A whole register: the slot holds its value. *)
Lemma saved_slot reg b : size = 8 -> uin 64 x -> desc reg b x ->
  slot_sim (mk_slot (set_live reg (live reg .| REG_LIVE_WRITTEN)) (replicate 8 STACK_SPILL)) m' fp (slot_spi (- off - 1)) b.
Proof.
  intros E8 Hx Sx; split.
  - intros j Hj H; exfalso; revert H; cbn [slot_type]; rewrite lookup_replicate; intros [E _]; discriminate.
  - intros _; exists x; split; [|exact (desc_live _ _ _ _ Sx)].
    destruct (access_spi 0 ltac:(pose proof size_pos; lia)) as (_ & P & _); rewrite Z.sub_0_r in P.
    assert (M8 : off mod 8 = 0) by (rewrite <- E8; apply Ha).
    assert (A : fp - 8 * Z.of_nat (S (slot_spi (- off - 1))) = fp + off).
    { destruct Ha as (_ & B & _); unfold slot_pos in P; rewrite Z.rem_mod_nonneg, Z2Nat.id in P by (try apply Z.mod_pos_bound; lia).
      revert P; Z.to_euclidean_division_equations; lia. }
    rewrite A; rewrite E8 in Hst; change 8%nat with (Z.to_nat 8); rewrite (load_store _ _ _ _ _ Hst) by lia.
    f_equal; change (256 ^ Z.of_nat (Z.to_nat 8)) with (2 ^ 64); apply Z.mod_small; exact Hx.
Qed.

Lemma touched (pos : nat -> nat) (l : list nat) j : (exists i, i ∈ l /\ pos i = j) \/ (forall i, i ∈ l -> pos i <> j).
Proof.
  destruct (decide (Exists (fun i => pos i = j) l)) as [E|N]; [left; apply Exists_exists in E; exact E|right].
  intros i Hi E; apply N, Exists_exists; eauto.
Qed.

(** Data: the written bytes get the new type, and the slot no longer holds a
    register. *)
Lemma foldl_types t (pos : nat -> nat) (l : list nat) : forall s j,
  let s' := foldl (fun s i => set_type_at (pos i) t s) s l in
  spilled_ptr s' = spilled_ptr s /\ length (slot_type s') = length (slot_type s) /\
  ((exists i, i ∈ l /\ pos i = j) -> slot_type s' !! j = Some t \/ slot_type s' !! j = None) /\
  ((forall i, i ∈ l -> pos i <> j) -> slot_type s' !! j = slot_type s !! j).
Proof.
  induction l as [|i l IH]; intros s j; cbn [foldl].
  - repeat split; trivial; intros (i & Hi & _); inversion Hi.
  - destruct (IH (set_type_at (pos i) t s) j) as (P & L & A & B); cbn [set_type_at set_slot_type spilled_ptr slot_type] in *; rewrite length_insert in L.
    split; [exact P|split; [exact L|split]].
    + intros (i' & Hi & E); destruct (touched pos l j) as [D|D]; [auto|].
      rewrite (B D); apply elem_of_cons in Hi as [->|Hi]; [|exfalso; exact (D i' Hi E)].
      destruct (decide (j < length (slot_type s))%nat) as [Lt|Ge]; [left; rewrite E; apply list_lookup_insert_eq, Lt|].
      right; apply lookup_ge_None; rewrite length_insert; lia.
    + intros N; rewrite B by (intros i0 Hi0; apply N, elem_of_cons; auto).
      apply list_lookup_insert_ne, N, elem_of_cons; auto.
Qed.

Lemma data_sim s t b : slot_sim s m fp (slot_spi (- off - 1)) b -> slot_type s !! 0%nat <> Some STACK_SPILL -> t <> STACK_SPILL ->
  (t = STACK_ZERO -> x = 0) -> slot_sim (data_slot (- off - 1) size t s) m' fp (slot_spi (- off - 1)) b.
Proof.
  intros [Z0 _] N0 Nt Tz; pose proof size_pos as P8; unfold data_slot.
  pose proof (foldl_types t (fun i => slot_pos (- off - 1 - Z.of_nat i)) (seq 0 (Z.to_nat size)) s) as F; cbn zeta in F; set (s' := foldl _ s _) in *.
  pose proof (touched (fun i => slot_pos (- off - 1 - Z.of_nat i)) (seq 0 (Z.to_nat size))) as W.
  split.
  - intros j Hj T; destruct (F j) as (_ & _ & A & B); destruct (W j) as [D|D].
    + destruct (A D) as [E|E]; [|congruence]; destruct D as (i & Hi & Ei); apply elem_of_seq in Hi.
      destruct (access_spi (Z.of_nat i) ltac:(lia)) as (_ & Ep & _); rewrite Ei in Ep.
      replace (8 * Z.of_nat (slot_spi (- off - 1)) + Z.of_nat j) with (- off - 1 - Z.of_nat i) by lia.
      rewrite written by lia; rewrite Tz by congruence; rewrite Z.div_0_l by lia; reflexivity.
    + rewrite (B D) in T; rewrite unwritten; [apply Z0; assumption|pose proof access_spi_bound; lia|].
      intros q Hq E; destruct (access_spi q Hq) as (_ & Ep & _); apply (D (Z.to_nat q)); [apply elem_of_seq; lia|].
      rewrite Z2Nat.id by lia; lia.
  - intros T; exfalso; destruct (F 0%nat) as (_ & _ & A & B); destruct (W 0%nat) as [D|D]; [destruct (A D); congruence|].
    rewrite (B D) in T; auto.
Qed.
End Access.

(** ** Writes with a fixed offset *)

Definition upd_slot_base (β : nat -> Z) (spi : nat) (b : Z) : nat -> Z := fun i => if (i =? spi)%nat then b else β i.

Lemma only_stack_reg k e e' r : only_stack k e e' -> erase_reg (get_reg e' r) = erase_reg (get_reg e r).
Proof.
  intros O; unfold get_reg, cur_regs, cur_func; rewrite (os_curframe k e e' O); set (c := curframe (cur_state e)).
  assert (E : erase_reg <$> regs (frame_of e' c) = erase_reg <$> regs (frame_of e c)).
  { destruct (decide (c = k)) as [->|N]; [exact (os_regs k e e' O)|exact (f_equal regs (os_others k e e' O c N))]. }
  unfold frame_of in E; rewrite <- !(lookup_total_fmap erase_reg) by reflexivity; rewrite E; reflexivity.
Qed.

Lemma only_stack_sim k e e' r b x : only_stack k e e' -> desc (get_reg e r) b x -> desc (get_reg e' r) b x.
Proof. intros O; apply cs_erase; symmetry; exact (only_stack_reg k e e' r O). Qed.

Lemma only_stack_type k e e' r : only_stack k e e' -> type_ (get_reg e' r) = type_ (get_reg e r).
Proof. intros O; exact (f_equal type_ (only_stack_reg k e e' r O)). Qed.

Section Write.
Context (k : nat) (off size : Z) (Ha : access_ok off size) (m m' : memory) (fp x : Z).
Context (Hst : store_bytes m (fp + off) (Z.to_nat size) x = Some m').

Abbreviation spi := (slot_spi (- off - 1)).

Lemma others_ok β b s i : i <> spi -> (i < 64)%nat -> slot_sim s m fp i (β i) -> slot_sim s m' fp i (upd_slot_base β spi b i).
Proof.
  intros N L S; unfold upd_slot_base; destruct (Nat.eqb_spec i spi) as [E|_]; [contradiction|].
  eapply other_slot; eassumption.
Qed.

Lemma base_here β b : upd_slot_base β spi b spi = b.
Proof. unfold upd_slot_base; rewrite Nat.eqb_refl; reflexivity. Qed.

Lemma save_good reg e u e' β b : good k fp e m β -> size = 8 -> desc reg b x -> save_register_state k spi reg e = (inr u, e') ->
  good k fp e' m' (upd_slot_base β spi b) /\ only_stack k e e'.
Proof.
  intros G E8 S H; destruct (good_upd k fp spi _ e u e' m m' β (upd_slot_base β spi b) G H) as (G' & O & _); [|intros; eapply others_ok; eassumption|auto].
  intros s _ _; rewrite base_here; eapply saved_slot; try eassumption; apply (cs_sim (desc := desc) _ _ _ S).
Qed.

Lemma slot_type_change s v b i : slot_sim s m fp i b -> slot_sim (set_spilled_ptr s (set_type (spilled_ptr s) NOT_INIT)) m fp i b /\
  slot_sim (set_spilled_ptr s (set_live (spilled_ptr s) v)) m fp i b /\
  slot_sim (if bool_decide (type_at s 0 = STACK_SPILL) then set_slot_type s (replicate 8 STACK_MISC) else s) m fp i b.
Proof.
  intros S; pose proof S as [Z0 Sp]; split; [|split].
  - split; [exact Z0|]; intros T; destruct (Sp T) as (w & L & D); pose proof (proj1 (cs_sim (desc := desc) _ _ _ D)) as U; exists w; split; [exact L|apply cs_not_init; [reflexivity|exact U]].
  - split; [exact Z0|]; intros T; destruct (Sp T) as (w & L & D); exists w; split; [exact L|exact (desc_live _ _ _ _ D)].
  - case_bool_decide; [|exact S]; split; [|discriminate].
    intros j _ H'; exfalso; revert H'; cbn [slot_type set_slot_type]; rewrite lookup_replicate; intros [E _]; discriminate.
Qed.

(** The slot after the first three updates holds no register. *)
Lemma data_good null value_regno e u e' β b : good k fp e m β -> (null = true -> x = 0) ->
  (_ ← upd_slot k spi (fun s => set_spilled_ptr s (set_type (spilled_ptr s) NOT_INIT));
   _ ← upd_slot k spi (fun s => if bool_decide (type_at s 0 = STACK_SPILL) then set_slot_type s (replicate 8 STACK_MISC) else s);
   _ ← when (size =? BPF_REG_SIZE) (upd_slot k spi (fun s => set_spilled_ptr s (set_live (spilled_ptr s) (live (spilled_ptr s) .| REG_LIVE_WRITTEN))));
   _ ← when null (mark_chain_precision value_regno);
   upd_slot k spi (data_slot (- off - 1) size (if null then STACK_ZERO else STACK_MISC))) e = (inr u, e') ->
  good k fp e' m' (upd_slot_base β spi b) /\ only_stack k e e'.
Proof.
  intros G Hn H; run H; destruct (good_upd_same k fp spi _ e a env m β G R) as (G1 & O1 & _); [intros s S; apply (slot_type_change s 0), S|].
  run H; destruct (good_upd_same k fp spi _ env a0 env0 m β G1 R0) as (G2 & O2 & E2); [intros s S; apply (slot_type_change s 0), S|].
  run H; assert (X : good k fp env1 m β /\ only_stack k env0 env1 /\
    forall s, stack (frame_of env1 k) !! spi = Some s -> exists s0, stack (frame_of env0 k) !! spi = Some s0 /\ slot_type s = slot_type s0).
  { unfold when in R1; destruct (size =? 8).
    - destruct (good_upd_same k fp spi _ env0 a1 env1 m β G2 R1) as (G3 & O3 & E3).
      { intros s S; eapply slot_type_change, S. }
      split; [exact G3|split; [exact O3|]]; intros s Hs; rewrite E3, list_lookup_alter_eq in Hs.
      destruct (stack (frame_of env0 k) !! spi) as [s0|]; [|discriminate]; injection Hs as <-; eauto.
    - injection R1 as _ <-; split; [exact G2|split; [apply same_only_stack; reflexivity|eauto]]. }
  destruct X as (G3 & O3 & E3); run H.
  assert (Y : env2 ≈ env1) by (unfold when in R2; destruct null; [apply mark_chain_ok in R2; exact R2|injection R2 as _ <-; reflexivity]).
  pose proof (good_same k fp env1 env2 m β Y G3) as G4; pose proof (same_only_stack k env1 env2 Y) as O4.
  destruct (good_upd k fp spi _ env2 u e' m m' β (upd_slot_base β spi b) G4 H) as (G5 & O5 & _); [|intros; eapply others_ok; eassumption|].
  - intros s Hs Ss; rewrite base_here; pose proof (erase_func_slots _ _ spi (frame_same _ _ k Y)) as L; rewrite Hs in L.
    destruct (stack (frame_of env1 k) !! spi) as [s1|] eqn:E1; [|discriminate]; apply (inj Some) in L.
    destruct (E3 s1 eq_refl) as (s0 & E0 & T0); rewrite E2, list_lookup_alter_eq in E0.
    destruct (stack (frame_of env k) !! spi) as [s00|]; [|discriminate]; injection E0 as <-.
    assert (T : slot_type s = slot_type s1) by exact (f_equal slot_type L); rewrite T0 in T.
    assert (N0 : slot_type s !! 0%nat <> Some STACK_SPILL).
    { rewrite T; case_bool_decide as D; [discriminate|]; intros E; apply D; unfold type_at; rewrite E; reflexivity. }
    assert (Z0 : slot_sim s m fp spi b) by (split; [apply Ss|intros; contradiction]).
    eapply data_sim; try eassumption; destruct null; try discriminate; auto.
  - split; [exact G5|]; eapply only_stack_trans; [exact O1|]; eapply only_stack_trans; [exact O2|].
    eapply only_stack_trans; [exact O3|]; eapply only_stack_trans; [exact O4|exact O5].
Qed.
End Write.

Lemma null_value r b x : reg_sim r b x -> register_is_null r = true -> x = 0.
Proof.
  unfold register_is_null; intros S H; apply andb_true_iff in H as [T C]; unfold type_eqb in T.
  destruct (bpf_reg_type_eq_dec (type_ r) SCALAR_VALUE) as [E|]; [|discriminate].
  destruct (sim_scalar r b x S E) as (_ & (M & _) & _); eapply tnum_equals_const_mem; eassumption.
Qed.

Lemma round_up8_eq x : round_up8 x = x + 7 - (x - 1) mod 8.
Proof. unfold round_up8; pose proof (Z.add_lor_land (x - 1) 7) as E; change 7 with (Z.ones 3) in E at 2; rewrite Z.land_ones in E by lia; change (2 ^ 3) with 8 in E; lia. Qed.

Lemma round_up8_le x n : x <= 8 * n -> round_up8 x <= 8 * n.
Proof. intros H; rewrite round_up8_eq; Z.to_euclidean_division_equations; lia. Qed.

Lemma round_up8_spec x : x <= round_up8 x /\ round_up8 x mod 8 = 0.
Proof. rewrite round_up8_eq; Z.to_euclidean_division_equations; lia. Qed.

(** A write the check accepts: the slots describe the memory after the store. *)
Lemma write_fixed_sound k off size value_regno idx e u e' m m' fp β b x : good k fp e m β -> access_ok off size ->
  (0 <= value_regno -> desc (get_reg e value_regno) b x) -> store_bytes m (fp + off) (Z.to_nat size) x = Some m' ->
  check_stack_write_fixed_off k off size value_regno idx e = (inr u, e') ->
  good k fp e' m' (upd_slot_base β (slot_spi (- off - 1)) b) /\ only_stack k e e'.
Proof.
  intros G Ha Hv Hst H.
  unfold check_stack_write_fixed_off in H; run H; injection R as <- <-; run H.
  apply (realloc_good k fp) with (m := m) (β := β) in R as (G1 & O1 & _ & _ & Eg & _);
    [|exact G|apply (round_up8_le _ 64); destruct Ha as (_ & B & _); lia].
  run H; injection R as <- <-; destruct (_ && negb (size =? 8)); [discriminate|].
  set (reg := if value_regno >=? 0 then Some (get_reg env value_regno) else None) in H.
  assert (Hr : forall r, reg = Some r -> 0 <= value_regno /\ r = get_reg e value_regno).
  { intros r; unfold reg; destruct (Z.geb_spec value_regno 0) as [L|_]; [|discriminate]; intros E; injection E as <-; rewrite Eg; auto. }
  run H; assert (S1 : env0 = env \/ exists l, env0 = set_insn_aux_data env l) by (unfold when in R; destruct (_ && _); injection R as _ <-; eauto).
  assert (G2 : good k fp env0 m β) by (destruct S1 as [->|(l & ->)]; exact G1).
  assert (O2 : only_stack k e env0) by (eapply only_stack_trans; [exact O1|]; destruct S1 as [->|(l & ->)]; split; reflexivity).
  clear R S1 Eg; destruct ((size =? 8) && _ && _) eqn:C1; [|destruct (match reg with Some r => is_spillable_regtype (type_ r) | None => false end) eqn:C2].
  - apply andb_true_iff in C1 as [C1 _]; apply andb_true_iff in C1 as [C8 Cr]; apply Z.eqb_eq in C8.
    destruct reg as [r|]; [|discriminate]; destruct (Hr r eq_refl) as [L _]; run H; run H; injection R0 as <- <-.
    assert (Y : env1 ≈ env0) by (unfold when in R; match type of R with (if ?c then _ else _) _ = _ => destruct c end; [apply mark_chain_ok in R; exact R|injection R as _ <-; reflexivity]).
    pose proof (same_only_stack k env0 env1 Y) as O3; pose proof (only_stack_trans _ _ _ _ O2 O3) as O4.
    destruct (save_good k off size Ha m m' fp x Hst (get_reg env1 value_regno) env1 u e' β b (good_same k fp env0 env1 m β Y G2) C8) as [G5 O5];
      [eapply only_stack_sim; [exact O4|auto]|exact H|split; [exact G5|eapply only_stack_trans; eassumption]].
  - destruct (size =? 8) eqn:C8; [apply Z.eqb_eq in C8|discriminate]; cbn [negb] in H; run H; injection R as <- <-.
    match type of H with (if ?c then _ else _) _ = _ => destruct c; [discriminate|] end.
    destruct reg as [r|]; [|discriminate]; destruct (Hr r eq_refl) as [L _].
    destruct (save_good k off size Ha m m' fp x Hst (get_reg env0 value_regno) env0 u e' β b G2 C8) as [G5 O5];
      [eapply only_stack_sim; [exact O2|auto]|exact H|split; [exact G5|eapply only_stack_trans; eassumption]].
  - assert (Hn : match reg with Some r => register_is_null r | None => false end = true -> x = 0).
    { destruct reg as [r|]; [|discriminate]; destruct (Hr r eq_refl) as [L ->]; intros Nu; exact (null_value _ _ _ (cs_sim (desc := desc) _ _ _ (Hv L)) Nu). }
    destruct (data_good k off size Ha m m' fp x Hst _ value_regno env0 u e' β b G2 Hn H) as [G5 O5].
    split; [exact G5|eapply only_stack_trans; eassumption].
Qed.

(** ** Reads with a fixed offset *)

(** Only the register [dst] changes, up to bookkeeping. *)
Record only_dst (dst : Z) (e e' : bpf_verifier_env) : Prop := mk_only_dst {
  od_wf : env_wf e';
  od_curframe : curframe (cur_state e') = curframe (cur_state e);
  od_length : length (frame (cur_state e')) = length (frame (cur_state e));
  od_regs : forall r, 0 <= r -> r <> dst -> erase_reg (get_reg e' r) = erase_reg (get_reg e r);
  od_stacks : forall j, erase_slot <$> stack (frame_of e' j) = erase_slot <$> stack (frame_of e j)
}.

Lemma only_dst_trans dst e1 e2 e3 : only_dst dst e1 e2 -> only_dst dst e2 e3 -> only_dst dst e1 e3.
Proof.
  intros [A1 A2 A3 A4 A5] [B1 B2 B3 B4 B5]; split; [exact B1|congruence|congruence| |].
  - intros r H N; rewrite B4, A4 by assumption; reflexivity.
  - intros j; rewrite B5, A5; reflexivity.
Qed.

Lemma same_only_dst dst e e' : env_wf e -> e' ≈ e -> only_dst dst e e'.
Proof.
  intros W H; pose proof (same_only_stack 0 e e' H) as O; split; [rewrite H; exact W|apply O|apply O|intros; apply same_reg, H|].
  intros j; exact (f_equal stack (frame_same _ _ j H)).
Qed.

Lemma put_only_dst dst e v : env_wf e -> 0 <= dst -> only_dst dst e (put_reg e dst v).
Proof.
  intros W H; split; [apply put_reg_wf, W|reflexivity|cbn; apply length_alter|intros r Hr N; rewrite get_put_other by auto; reflexivity|].
  intros j; unfold frame_of; cbn; destruct (decide (j = curframe (cur_state e))) as [->|N].
  - rewrite !list_lookup_total_alt, list_lookup_alter_eq; destruct (frame (cur_state e) !! _); reflexivity.
  - rewrite !list_lookup_total_alt, list_lookup_alter_ne by congruence; reflexivity.
Qed.

Lemma slot_read_same k i e u e' : mark_slot_read k i e = (inr u, e') -> e' ≈ e.
Proof.
  unfold mark_slot_read; intros H; run H; injection R as <- <-; run H; injection H as _ <-.
  unfold catch in R; set (r := spilled_ptr (slot_of e k i)) in R.
  pose proof (mark_reg_read_same r (parent r) REG_LIVE_READ64 e) as S; destruct (mark_reg_read _ _ _ e) as [[err|?] e1]; injection R as _ <-; exact S.
Qed.

(** The value a register gets. *)
Lemma dst_put dst e v b x : env_wf e -> regno_ok dst -> desc v b x -> only_dst dst e (put_reg e dst v) /\ desc (get_reg (put_reg e dst v) dst) b x.
Proof. intros W D S; split; [apply put_only_dst; [exact W|apply D]|rewrite get_put_same by assumption; exact S]. Qed.

Lemma dst_same dst e e1 e2 b x : e2 ≈ e1 -> only_dst dst e e1 /\ desc (get_reg e1 dst) b x -> only_dst dst e e2 /\ desc (get_reg e2 dst) b x.
Proof.
  intros E [O S]; split; [eapply only_dst_trans; [exact O|apply same_only_dst; [apply O|exact E]]|].
  eapply cs_erase; [symmetry; exact (same_reg e2 e1 dst E)|exact S].
Qed.

Lemma dst_step dst e e1 e2 b x : only_dst dst e e1 -> only_dst dst e1 e2 /\ desc (get_reg e2 dst) b x -> only_dst dst e e2 /\ desc (get_reg e2 dst) b x.
Proof. intros O [O' S]; split; [eapply only_dst_trans; eassumption|exact S]. Qed.

Lemma dst_live dst e u e' b x v : env_wf e -> regno_ok dst -> desc (get_reg e dst) b x ->
  upd_reg dst (fun r => set_live r (live r .| v)) e = (inr u, e') -> only_dst dst e e' /\ desc (get_reg e' dst) b x.
Proof. intros W D S H; injection H as _ <-; apply dst_put; [exact W|exact D|]; exact (desc_live _ _ _ _ S). Qed.

Lemma dst_unknown dst e u e' b x : env_wf e -> regno_ok dst -> uin 64 x -> mark_reg_unknown dst e = (inr u, e') ->
  only_dst dst e e' /\ desc (get_reg e' dst) b x.
Proof.
  intros W D U H; unfold mark_reg_unknown in H; destruct (Z.geb_spec dst 11) as [|_]; [unfold regno_ok in D; lia|].
  injection H as _ <-; apply dst_put; [exact W|exact D|]; apply cs_scalar; [reflexivity|reflexivity|apply mark_unknown_inv, U|exact U].
Qed.

Lemma reg_inv_ext r r' x : var_off r' = var_off r -> b64 r' = b64 r -> b32 r' = b32 r -> reg_inv r x -> reg_inv r' x.
Proof. unfold reg_inv, reg_ok, reg_mem, reg_sync; intros -> -> ->; exact (fun H => H). Qed.

Lemma retyped_inv q t x : reg_inv q x -> reg_inv (set_precise (set_type q t) true) x.
Proof. exact (reg_inv_ext q _ x eq_refl eq_refl eq_refl). Qed.

Lemma const_zero_eq r : __mark_reg_const_zero r = set_type (__mark_reg_known r 0) SCALAR_VALUE.
Proof. reflexivity. Qed.

Lemma const_zero_inv r : reg_inv (set_precise (__mark_reg_const_zero r) true) 0.
Proof. rewrite const_zero_eq; apply retyped_inv, mark_known_inv; kia. Qed.

Lemma stack_read_marks k lo hi dst e u e' b x : env_wf e -> regno_ok dst -> uin 64 x ->
  ((forall i, lo <= i < hi -> let slot := - i - 1 in type_at (slot_of e k (slot_spi slot)) (slot_pos slot) = STACK_ZERO) -> x = 0) ->
  mark_reg_stack_read k lo hi dst e = (inr u, e') -> only_dst dst e e' /\ desc (get_reg e' dst) b x.
Proof.
  intros W D U Hz H; unfold mark_reg_stack_read in H; run H; injection R as <- <-; run H.
  assert (X : only_dst dst e env /\ desc (get_reg env dst) b x).
  { match type of R with (if ?c then _ else _) _ = _ => destruct c eqn:C end; [|eapply dst_unknown; eassumption].
    assert (x = 0) as ->.
    { apply Hz; intros i Hi; apply forallb_forall with (x := Z.to_nat (i - lo)) in C; [|apply in_seq; lia].
      apply bool_decide_eq_true in C; rewrite Z2Nat.id in C by lia; replace (lo + (i - lo)) with i in C by lia; exact C. }
    injection R as _ <-; apply dst_put; [exact W|exact D|]; apply cs_scalar; [reflexivity|reflexivity|apply const_zero_inv|kia]. }
  destruct X as [O S]; eapply dst_step; [exact O|]; eapply dst_live; [apply O|exact D|exact S|exact H].
Qed.

Lemma slot_of_sim k fp e m β spi : good k fp e m β -> slot_sim (slot_of e k spi) m fp spi (β spi).
Proof.
  intros (_ & _ & S); unfold slot_of; rewrite list_lookup_total_alt; destruct (stack (frame_of e k) !! spi) as [s|] eqn:E; [apply S, E|apply fresh_slot].
Qed.

Lemma type_at_some s j t : type_at s j = t -> t <> STACK_INVALID -> slot_type s !! j = Some t.
Proof. unfold type_at; destruct (slot_type s !! j); cbn; congruence. Qed.

(** The byte number of a slot and a position in it. *)
Lemma slot_split i : 0 <= i -> (slot_pos i < 8)%nat /\ 8 * Z.of_nat (slot_spi i) + Z.of_nat (slot_pos i) = i.
Proof.
  intros H; unfold slot_pos, slot_spi; rewrite Z.rem_mod_nonneg, Z.quot_div_nonneg by lia.
  pose proof (Z.mod_pos_bound i 8 ltac:(lia)); pose proof (Z.div_pos i 8 ltac:(lia) ltac:(lia)); pose proof (Z.div_mod i 8 ltac:(lia)); lia.
Qed.

(** A slot that is read as a whole starts at its register. *)
Lemma access_whole off fp : access_ok off 8 -> fp - 8 * Z.of_nat (S (slot_spi (- off - 1))) = fp + off.
Proof.
  intros Ha; destruct (access_spi off 8 Ha 0 ltac:(lia)) as (_ & P & _); rewrite Z.sub_0_r in P; destruct Ha as (_ & B & M8).
  unfold slot_pos in P; rewrite Z.rem_mod_nonneg, Z2Nat.id in P by (try apply Z.mod_pos_bound; lia).
  revert P; Z.to_euclidean_division_equations; lia.
Qed.

(** The bytes an access reads are zero where their types say so. *)
Lemma zero_read k fp e m β lo hi o n v : good k fp e m β -> load_bytes m (fp + o) n = Some v -> lo <= o -> o + Z.of_nat n <= hi -> hi <= 0 ->
  (forall i, lo <= i < hi -> let slot := - i - 1 in type_at (slot_of e k (slot_spi slot)) (slot_pos slot) = STACK_ZERO) -> v = 0.
Proof.
  intros G L Lo Hi B H; eapply load_zero; [exact L|]; intros j Hj; set (i := o + Z.of_nat j); assert (Hin : lo <= i < hi) by (unfold i; lia).
  pose proof (H i Hin) as T; cbn zeta in T; apply type_at_some in T; [|discriminate].
  destruct (slot_split (- i - 1) ltac:(lia)) as [Hp E]; pose proof (proj1 (slot_of_sim k fp e m β _ G) _ Hp T) as Z0; rewrite E in Z0; unfold byte_at in Z0.
  replace (fp + o + Z.of_nat j) with (fp - 1 - (- i - 1)) by (unfold i; lia); exact Z0.
Qed.

Lemma loaded_range size m a v : mem_ok m -> size_ok size -> load_bytes m a (Z.to_nat size) = Some v -> uin 64 v /\ 0 <= v < 256 ^ size.
Proof.
  intros M S L; apply load_range in L; [|exact M]; destruct S as [->|[->|[->| ->]]]; (split; [|exact L]);
  match type of L with _ <= _ < ?p => let q := eval vm_compute in p in change p with q in L end; kia.
Qed.

(** A read the check accepts: the register describes the value read, and
    nothing else changes. *)
Lemma read_fixed_sound k off size dst e u e' m fp β v : good k fp e m β -> mem_ok m -> env_wf e -> access_ok off size -> regno_ok dst ->
  load_bytes m (fp + off) (Z.to_nat size) = Some v -> check_stack_read_fixed_off k off size dst e = (inr u, e') ->
  only_dst dst e e' /\ desc (get_reg e' dst) (β (slot_spi (- off - 1))) v.
Proof.
  intros G M W Ha D L H; destruct (loaded_range size m _ v M (proj1 Ha) L) as [U _]; unfold check_stack_read_fixed_off in H.
  run H; injection R as <- <-; set (s := slot_of e k _) in H; pose proof (slot_of_sim k fp e m β (slot_spi (- off - 1)) G) as S; fold s in S.
  replace (dst >=? 0) with true in H by (symmetry; apply Z.geb_le, D); cbn [when] in H; case_bool_decide as T0.
  - destruct (Z.eqb_spec size BPF_REG_SIZE) as [->|N8]; cbn [negb] in H.
    + match type of H with (if ?c then _ else _) _ = _ => destruct c; [discriminate|] end; run H.
      apply (dst_same dst e env e'); [exact (slot_read_same _ _ _ _ _ H)|]; injection R as _ <-; apply dst_put; [exact W|exact D|].
      apply type_at_some in T0; [|discriminate]; destruct (proj2 S T0) as (w & Lw & Sw).
      rewrite (access_whole off fp Ha) in Lw; change 8%nat with (Z.to_nat 8) in Lw; rewrite L in Lw; injection Lw as ->; exact (desc_live _ _ _ _ Sw).
    + destruct (negb (type_eqb _ _)); [discriminate|]; run H; apply (dst_same dst e env e'); [exact (slot_read_same _ _ _ _ _ H)|]; clear H.
      run R; destruct (dst_unknown dst e _ _ (β (slot_spi (- off - 1))) v W D U R0) as [O Sv].
      eapply dst_step; [exact O|]; eapply dst_live; [apply O|exact D|exact Sv|exact R].
  - match type of H with (if ?c then _ else _) _ = _ => destruct c; [discriminate|] end; run H; apply slot_read_same in R.
    eapply dst_step; [apply same_only_dst; [exact W|exact R]|].
    eapply stack_read_marks; [rewrite R; exact W|exact D|exact U| |exact H].
    eapply zero_read; [exact (good_same k fp e env m β R G)|exact L|lia|destruct Ha as (Sz & _); destruct Sz as [->|[->|[->| ->]]]; lia|].
    destruct Ha as (Sz & B & Mo); destruct Sz as [->|[->|[->| ->]]]; Z.to_euclidean_division_equations; lia.
Qed.
End Desc.
