(* ===== verification/StackVar.v ===== *)
(** Stack accesses whose offset is not a constant: [check_stack_write_var_off]
    and [check_stack_read_var_off] are sound for every offset the bounds of the
    pointer admit. *)
From Stdlib Require Import ZArith Lia Bool.
From stdpp Require Import base list gmap.
From S2P Require Import Prelude Lists Bits Tnum Bounds RegState ScalarOps Insn Interp Env MemAccess RegArg Precision Bookkeeping Alu AluStep StackAccess StackSound.

Local Open Scope Z_scope.
Local Open Scope kint_scope.

Section Desc.
Context (desc : bpf_reg_state -> Z -> Z -> Prop) {Hdesc : CellSim desc}.

Abbreviation good := (good desc).
Abbreviation slot_sim := (slot_sim desc).

(** ** Writes *)

(** The byte at offset [i] may have been overwritten: its slot holds no
    register, and it is known to be zero only if a zero was written. *)
Definition clobbered (wz : bool) (k : nat) (e : bpf_verifier_env) (i : Z) : Prop :=
  forall s, stack (frame_of e k) !! slot_spi (- i - 1) = Some s ->
  type_ (spilled_ptr s) = NOT_INIT /\ slot_type s !! slot_pos (- i - 1) <> Some STACK_SPILL /\
  (slot_type s !! slot_pos (- i - 1) = Some STACK_ZERO -> wz = true).

(** One byte of the loop. *)
Definition clobber (pos : nat) (t : bpf_stack_slot_type) (s : bpf_stack_state) : bpf_stack_state :=
  set_type_at pos t (set_spilled_ptr s (set_type (spilled_ptr s) NOT_INIT)).

Lemma clobber_sim pos keep s m fp i b : (keep = true -> type_at s pos = STACK_ZERO) -> slot_sim s m fp i b ->
  slot_sim (clobber pos (if keep then STACK_ZERO else STACK_MISC) s) m fp i b.
Proof.
  intros K [Z0 Sp]; assert (T : forall j, slot_type (clobber pos (if keep then STACK_ZERO else STACK_MISC) s) !! j = slot_type s !! j \/
    slot_type (clobber pos (if keep then STACK_ZERO else STACK_MISC) s) !! j = Some STACK_MISC).
  { intros j; unfold clobber; cbn [slot_type set_type_at set_slot_type set_spilled_ptr]; destruct (decide (pos = j)) as [->|N];
      [|left; apply list_lookup_insert_ne, N].
    destruct (decide (j < length (slot_type s))%nat) as [L|L]; [|left; rewrite list_insert_ge by lia; reflexivity].
    rewrite list_lookup_insert_eq by exact L; destruct keep; [left|right; reflexivity].
    symmetry; apply type_at_some; [auto|discriminate]. }
  split.
  - intros j Hj H; destruct (T j) as [E|E]; [apply Z0; [exact Hj|congruence]|congruence].
  - intros H; destruct (T 0%nat) as [E|E]; [|congruence]; destruct (Sp ltac:(congruence)) as (v & L & D).
    exists v; split; [exact L|apply cs_not_init; [reflexivity|apply (cs_sim (desc := desc) _ _ _ D)]].
Qed.

Lemma clobber_step k fp e u e1 u2 e2 m β i keep wz : good k fp e m β -> (keep = true -> wz = true) ->
  (keep = true -> type_at (slot_of e k (slot_spi (- i - 1))) (slot_pos (- i - 1)) = STACK_ZERO) ->
  upd_slot k (slot_spi (- i - 1)) (fun s => set_spilled_ptr s (set_type (spilled_ptr s) NOT_INIT)) e = (inr u, e1) ->
  upd_slot k (slot_spi (- i - 1)) (set_type_at (slot_pos (- i - 1)) (if keep then STACK_ZERO else STACK_MISC)) e1 = (inr u2, e2) ->
  good k fp e2 m β /\ only_stack k e e2 /\ clobbered wz k e2 i /\ (forall j, clobbered wz k e j -> clobbered wz k e2 j).
Proof.
  intros G Kw K H1 H2; set (spi := slot_spi _) in *; set (pos := slot_pos _) in *; set (t := if keep then STACK_ZERO else STACK_MISC) in *.
  assert (H : upd_slot k spi (clobber pos t) e = (inr u2, e2)).
  { destruct u2; injection H1 as _ <-; injection H2 as <-; unfold upd_slot, upd_frame, modify; do 3 f_equal; cbn.
    rewrite list_alter_alter_eq; apply list_alter_ext; [|reflexivity]; intros f _; unfold compose, set_stack; cbn; f_equal; symmetry; apply list_alter_alter_eq. }
  clear H1 H2 e1; destruct (good_upd desc k fp spi _ e u2 e2 m m β β G H) as (G2 & O & E); [|auto|].
  { intros s Hs S; apply clobber_sim; [|exact S]; intros Kt; rewrite <- (K Kt); unfold slot_of; rewrite list_lookup_total_alt, Hs; reflexivity. }
  split; [exact G2|split; [exact O|]].
  assert (X : forall j, (clobbered wz k e j \/ slot_spi (- j - 1) = spi /\ slot_pos (- j - 1) = pos) -> clobbered wz k e2 j).
  { intros j Hj s Hs; rewrite E in Hs; destruct (decide (slot_spi (- j - 1) = spi)) as [Es|Ns].
    - rewrite Es, list_lookup_alter_eq in Hs; destruct (stack (frame_of e k) !! spi) as [s0|] eqn:E0; [|discriminate]; injection Hs as <-.
      split; [reflexivity|]; unfold clobber; cbn [slot_type set_type_at set_slot_type set_spilled_ptr].
      destruct (decide (pos = slot_pos (- j - 1))) as [Ep|Np].
      + rewrite <- Ep; destruct (decide (pos < length (slot_type s0))%nat) as [L|L];
          [rewrite list_lookup_insert_eq by exact L|rewrite list_insert_ge, lookup_ge_None_2 by lia; split; discriminate].
        unfold t; destruct keep; split; try discriminate; auto.
      + rewrite list_lookup_insert_ne by exact Np; destruct Hj as [Hj|[_ Hp]]; [|congruence].
        apply (Hj s0); rewrite Es; exact E0.
    - rewrite list_lookup_alter_ne in Hs by congruence; destruct Hj as [Hj|[Hp _]]; [exact (Hj s Hs)|contradiction]. }
  split; [apply X; right; split; reflexivity|intros j Hj; apply X; left; exact Hj].
Qed.

Lemma write_var_loop_ok k fp m β wz n : forall i zu e z e', good k fp e m β -> write_var_loop n k i wz zu e = (inr z, e') ->
  good k fp e' m β /\ only_stack k e e' /\ (forall j, i <= j < i + Z.of_nat n -> clobbered wz k e' j) /\
  (forall j, clobbered wz k e j -> clobbered wz k e' j).
Proof.
  induction n as [|n IH]; intros i zu e z e' G H; cbn [write_var_loop] in H.
  - injection H as _ <-; split; [exact G|split; [apply same_only_stack; reflexivity|split; [lia|auto]]].
  - run H; injection R as <- <-; match type of H with (if ?c then _ else _) _ = _ => destruct c; [discriminate|] end; run H.
    match type of H with (if ?c then _ else _) _ = _ => destruct c; [discriminate|] end; run H.
    set (keep := wz && bool_decide _) in *.
    destruct (clobber_step k fp e a env a0 env0 m β i keep wz G) as (G1 & O1 & C1 & P1); [| |exact R|exact R0|].
    { unfold keep; destruct wz; auto. }
    { unfold keep; intros K; apply andb_true_iff in K as [_ K]; apply bool_decide_eq_true in K; exact K. }
    destruct (IH _ _ _ _ _ G1 H) as (G2 & O2 & C2 & P2); split; [exact G2|split; [eapply only_stack_trans; eassumption|split; [|auto]]].
    intros j Hj; destruct (Z.eq_dec j i) as [->|N]; [auto|apply C2; lia].
Qed.

(** Overwriting clobbered bytes. *)
Lemma clobbered_store k fp e m m' β wz lo hi o size x : good k fp e m β -> mem_ok m' ->
  (forall j, lo <= j < hi -> clobbered wz k e j) -> (wz = true -> x = 0) -> - MAX_STACK <= lo <= o -> o + size <= hi -> hi <= 0 -> 0 < size <= 8 ->
  store_bytes m (fp + o) (Z.to_nat size) x = Some m' -> good k fp e m' β.
Proof.
  intros (L & B & S) M' C Hx Lo Hi H0 Hs Hst; split; [exact L|split; [exact B|]]; intros spi s Es; destruct (S spi s Es) as [Z0 Sp].
  pose proof (lookup_lt_Some _ _ _ Es) as Lt.
  assert (W : forall i, 0 <= i < 512 -> (exists t, 0 <= t < size /\ i = - o - 1 - t) \/ byte_at m' fp i = byte_at m fp i).
  { intros i Hi'; destruct (decide (- o - size <= i < - o)) as [D|D]; [left; exists (- o - 1 - i); lia|right].
    unfold byte_at; apply (store_out _ _ _ _ _ Hst); intros j Hj.
    replace (fp - 1 - i) with (fp + (- 1 - i)) by lia; replace (fp + o + Z.of_nat j) with (fp + (o + Z.of_nat j)) by lia; apply u64_neq; lia. }
  assert (C' : forall j t, (j < 8)%nat -> 0 <= t < size -> 8 * Z.of_nat spi + Z.of_nat j = - o - 1 - t ->
    type_ (spilled_ptr s) = NOT_INIT /\ (slot_type s !! j = Some STACK_ZERO -> wz = true)).
  { intros j t Hj Ht E; pose proof (C (o + t) ltac:(lia)) as K; unfold clobbered in K.
    replace (- (o + t) - 1) with (8 * Z.of_nat spi + Z.of_nat j) in K by lia.
    destruct (slot_split (8 * Z.of_nat spi + Z.of_nat j) ltac:(lia)) as [Hp Ep].
    assert (slot_spi (8 * Z.of_nat spi + Z.of_nat j) = spi /\ slot_pos (8 * Z.of_nat spi + Z.of_nat j) = j) as [E1 E2] by lia.
    rewrite E1, E2 in K; destruct (K s Es) as (K1 & _ & K2); auto. }
  split.
  - intros j Hj T; destruct (W (8 * Z.of_nat spi + Z.of_nat j) ltac:(lia)) as [(t & Ht & E)|E]; [|rewrite E; auto].
    destruct (C' j t Hj Ht E) as [_ Cz]; rewrite E; unfold byte_at; replace (fp - 1 - (- o - 1 - t)) with (fp + o + Z.of_nat (Z.to_nat t)) by lia.
    rewrite (store_in _ _ _ _ _ Hst) by lia; rewrite (Hx (Cz T)), Z.div_0_l by lia; reflexivity.
  - intros T; destruct (Sp T) as (v & Lv & D).
    destruct (decide (8 * Z.of_nat spi < - o /\ - o - size < 8 * Z.of_nat spi + 8)) as [D8|N].
    + assert (is_Some (load_bytes m' (fp - 8 * Z.of_nat (Datatypes.S spi)) 8)) as [w Lw].
      { apply load_is_some; intros j Hj; apply (store_keeps _ _ _ _ _ Hst); revert j Hj; apply load_is_some; eauto. }
      exists w; split; [exact Lw|]; apply cs_not_init; [|exact (load_range m' 8 M' _ _ Lw)].
      destruct (Z.le_gt_cases (8 * Z.of_nat spi) (- o - size)).
      * apply (C' (Z.to_nat (- o - size - 8 * Z.of_nat spi)) (size - 1)); lia.
      * apply (C' 0%nat (- o - 1 - 8 * Z.of_nat spi)); lia.
    + exists v; split; [|exact D]; rewrite (slot_load_ext m m'); [exact Lv|].
      intros j Hj; destruct (W (8 * Z.of_nat spi + Z.of_nat j) ltac:(lia)) as [(t & Ht & E)|E]; [lia|exact E].
Qed.

(** A write with a variable offset: the slots describe the memory whichever
    of the admitted offsets the store uses. *)
Lemma write_var_sound k ptr_regno off size value_regno e u e' m m' fp β b x o : good k fp e m β -> mem_ok m -> 0 < size <= 8 ->
  let lo := s32 (smin_value (get_reg e ptr_regno) + off) in
  let hi := s32 (smax_value (get_reg e ptr_regno) + off + size) in
  - MAX_STACK <= lo -> lo <= o -> o + size <= hi -> hi <= 0 ->
  (0 <= value_regno -> desc (get_reg e value_regno) b x) -> store_bytes m (fp + o) (Z.to_nat size) x = Some m' ->
  check_stack_write_var_off k ptr_regno off size value_regno e = (inr u, e') -> good k fp e' m' β /\ only_stack k e e'.
Proof.
  cbn zeta; intros G M Hs B Lo Hi H0 Hv Hst H; unfold check_stack_write_var_off in H; run H; injection R as <- <-.
  run H; injection R as <- <-; run H; set (lo := s32 (smin_value _ + off)) in *; set (hi := s32 (smax_value _ + off + size)) in *.
  apply (realloc_good desc k fp) with (m := m) (β := β) in R as (G1 & O1 & _); [|exact G|apply (round_up8_le _ 64); lia].
  run H; apply (write_var_loop_ok k fp m β) in R as (G2 & O2 & C2 & _); [|exact G1].
  assert (Y : e' ≈ env0) by (unfold when in H; destruct a0; [apply mark_chain_ok in H; exact H|injection H as _ <-; reflexivity]).
  split; [|eapply only_stack_trans; [exact O1|]; eapply only_stack_trans; [exact O2|apply same_only_stack, Y]].
  apply (good_same desc k fp env0 e' m' β Y); eapply clobbered_store with (lo := lo) (hi := hi) (o := o); [exact G2|apply (store_keeps _ _ _ _ _ Hst), M| | |split; assumption|exact Hi|exact H0|exact Hs|exact Hst].
  - intros j Hj; apply C2; lia.
  - intros W; apply andb_true_iff in W as [V Nu]; apply Z.geb_le in V; exact (null_value _ _ _ (cs_sim (desc := desc) _ _ _ (Hv V)) Nu).
Qed.

(** ** Reads *)

Lemma range_loop_same k n : forall i e u e', range_loop n k i false e = (inr u, e') -> e' ≈ e.
Proof.
  induction n as [|n IH]; intros i e u e' H; cbn [range_loop] in H; [injection H as _ <-; reflexivity|].
  run H; injection R as <- <-; cbn [when] in H.
  match type of H with (if ?c then _ else _) _ = _ => destruct c; [discriminate|] end.
  assert (X : forall b, (_ ← mret (); _ ← mark_slot_read k (slot_spi (- i - 1)); range_loop n k (i + 1) b) e = (inr u, e') -> b = false -> e' ≈ e).
  { intros b X ->; run X; injection R as _ <-; run X; apply slot_read_same in R; rewrite <- R; exact (IH _ _ _ _ X). }
  repeat match type of H with (if ?c then _ else _) _ = _ => destruct c; [exact (X false H eq_refl)|] end; discriminate.
Qed.

Lemma depth_cur k off e u e' : update_stack_depth k off e = (inr u, e') -> cur_state e' = cur_state e.
Proof.
  intros H; unfold update_stack_depth in H; run H; injection R as <- <-.
  match type of H with (if ?c then _ else _) _ = _ => destruct c end; injection H as _ <-; reflexivity.
Qed.

Lemma good_cur k fp e e' m β : cur_state e' = cur_state e -> good k fp e m β -> good k fp e' m β.
Proof. intros E; unfold StackSound.good, frame_of; rewrite E; exact (fun H => H). Qed.

Lemma cur_only_dst dst e e' : env_wf e -> cur_state e' = cur_state e -> only_dst dst e e'.
Proof. intros W E; split; unfold env_wf, cur_regs, cur_func, get_reg, frame_of; unfold cur_regs, cur_func; rewrite E; auto. Qed.

Lemma within_bounds_env regno off size t e u e' : check_stack_access_within_bounds regno off size t e = (inr u, e') -> e' = e.
Proof.
  unfold check_stack_access_within_bounds, check_stack_slot_within_bounds; intros H; run H; injection R as <- <-; run H; injection R as <- <-; run H.
  assert (E : env = e).
  { destruct (tnum_is_const _); [injection R as _ <-; reflexivity|].
    match type of R with (if ?c then _ else _) _ = _ => destruct c; [discriminate|injection R as _ <-; reflexivity] end. }
  subst env; run H; match type of R0 with (if ?c then _ else _) _ = _ => destruct c; [discriminate|injection R0 as _ <-] end.
  match type of H with (if ?c then _ else _) _ = _ => destruct c; [discriminate|injection H as _ <-; reflexivity] end.
Qed.

(** A read with a variable offset, at any of the admitted offsets. *)
Lemma read_var_sound k ptr_regno off size dst e u e' m fp β v o b : good k fp e m β -> mem_ok m -> env_wf e -> regno_ok dst ->
  let reg := get_reg e ptr_regno in
  func reg = k -> tnum_is_const (var_off reg) = false -> size_ok size ->
  s32 (smin_value reg + off) <= o -> o <= s32 (smax_value reg + off) -> s32 (smax_value reg + off) + size <= 0 ->
  load_bytes m (fp + o) (Z.to_nat size) = Some v -> check_stack_read_var_off ptr_regno off size dst e = (inr u, e') ->
  only_dst dst e e' /\ desc (get_reg e' dst) b v.
Proof.
  cbn zeta; intros G M W D Hk Hc Hs Lo Hi H0 L H; destruct (loaded_range size m _ v M Hs L) as [U _].
  unfold check_stack_read_var_off in H; run H; injection R as <- <-; set (reg := get_reg e ptr_regno) in *; run H.
  assert (X : exists e1, e1 ≈ e /\ cur_state env = cur_state e1).
  { unfold check_stack_range_initialized in R; run R; injection R0 as <- <-; fold reg in R; rewrite Hc in R.
    match type of R with (if ?c then _ else _) _ = _ => destruct c; [discriminate|] end; run R; apply within_bounds_env in R0; subst env0.
    run R; injection R0 as <- <-; match type of R with (if ?c then _ else _) _ = _ => destruct c; [discriminate|] end; cbn [andb] in R.
    run R; apply range_loop_same in R0; run R; apply depth_cur in R1; injection R as _ <-; exists env0; auto. }
  destruct X as (e1 & Y & E); rewrite Hk in H.
  pose proof (same_only_dst dst e e1 W Y) as O1; pose proof (cur_only_dst dst e1 env (od_wf _ _ _ O1) E) as O2.
  eapply dst_step; [exact (only_dst_trans _ _ _ _ O1 O2)|].
  eapply (stack_read_marks desc); [apply O2|exact D|exact U| |exact H].
  eapply (zero_read desc) with (m := m) (fp := fp) (β := β) (o := o) (n := Z.to_nat size);
    [eapply good_cur; [exact E|eapply (good_same desc); [exact Y|exact G]]|exact L|exact Lo|destruct Hs as [->|[->|[->| ->]]]; lia|exact H0].
Qed.
End Desc.
