(* ===== verification/MemInsn.v ===== *)
(** The memory instructions (kernel/bpf/verifier.c): [check_mem_access] on every
    type of pointer, [check_xadd], and the branches of [do_check] for BPF_LDX,
    BPF_STX and BPF_ST.

    What is reached through function pointers, or through the type information
    of the kernel image, is the record [access_ops]. *)
From Stdlib Require Import ZArith Lia Bool.
From stdpp Require Import base list gmap.
From S2P Require Import Prelude Bits Tnum Bounds RegState ScalarOps Insn Interp Env MemAccess RegArg Precision Bookkeeping Alu StackAccess.

Local Open Scope Z_scope.
Local Open Scope kint_scope.

(** ** Socket fields (net/core/filter.c) *)

(** The offsets of struct bpf_sock. *)
Abbreviation sk_family := 4.
Abbreviation sk_type := 8.
Abbreviation sk_protocol := 12.
Abbreviation sk_priority := 20.
Abbreviation sk_src_ip4 := 24.
Abbreviation sk_src_ip6 := 28.
Abbreviation sk_src_port := 44.
Abbreviation sk_dst_port := 48.
Abbreviation sk_dst_ip4 := 52.
Abbreviation sk_dst_ip6 := 56.
Abbreviation sk_state := 72.
Abbreviation sk_rx_queue_mapping := 76.
Abbreviation sizeof_bpf_sock := 80.

(** [bpf_ctx_range_till]: the bytes from one member to the end of another. *)
Definition in_range (lo hi x : Z) : bool := (lo <=? x) && (x <? hi).

Definition bpf_ctx_narrow_access_ok (off size size_default : Z) : bool :=
  (size <=? size_default) && (size .& (size - 1) =? 0).

(** The result has [info->ctx_field_size] when the access is valid. *)
Definition bpf_sock_is_valid_access (off size : Z) : option Z :=
  if (off <? 0) || (off >=? sizeof_bpf_sock) then None
  else if negb (Z.rem off size =? 0) then None
  else if existsb (Z.eqb off) [sk_state; sk_family; sk_type; sk_protocol; sk_dst_port; sk_src_port; sk_rx_queue_mapping] ||
          in_range sk_src_ip4 (sk_src_ip4 + 4) off || in_range sk_src_ip6 (sk_src_ip6 + 16) off ||
          in_range sk_dst_ip4 (sk_dst_ip4 + 4) off || in_range sk_dst_ip6 (sk_dst_ip6 + 16) off
  then if bpf_ctx_narrow_access_ok off size 4 then Some 4 else None
  else if size =? 4 then Some 0 else None.

Definition bpf_sock_common_is_valid_access (off size : Z) : option Z :=
  if in_range sk_type (sk_priority + 4) off then None else bpf_sock_is_valid_access off size.

(** [bytes_received] is at 80, [bytes_acked] at 88, and [icsk_retransmits] ends
    at 112. *)
Definition bpf_tcp_sock_is_valid_access (off size : Z) : option Z :=
  if (off <? 0) || (off >=? 112) then None
  else if negb (Z.rem off size =? 0) then None
  else if (off =? 80) || (off =? 88) then (if size =? 8 then Some 0 else None)
  else if size =? 4 then Some 0 else None.

Definition bpf_xdp_sock_is_valid_access (off size : Z) : option Z :=
  if (off <? 0) || (off >=? 4) then None
  else if negb (Z.rem off size =? 0) then None
  else if size =? 4 then Some 0 else None.

(** ** Kinds of registers *)

Definition type_is_sk_pointer (t : bpf_reg_type) : bool :=
  match t with PTR_TO_SOCKET | PTR_TO_SOCK_COMMON | PTR_TO_TCP_SOCK | PTR_TO_XDP_SOCK => true | _ => false end.

Definition is_ctx_reg (regno : Z) : verifier bool := reg ← reg_of regno; mret (type_eqb (type_ reg) PTR_TO_CTX).
Definition is_sk_reg (regno : Z) : verifier bool := reg ← reg_of regno; mret (type_is_sk_pointer (type_ reg)).
Definition is_pkt_reg (regno : Z) : verifier bool := reg ← reg_of regno; mret (type_is_pkt_pointer (type_ reg)).
Definition is_flow_key_reg (regno : Z) : verifier bool := reg ← reg_of regno; mret (type_eqb (type_ reg) PTR_TO_FLOW_KEYS).

(** ** Map values *)

Abbreviation BPF_F_RDONLY_PROG := (2 ^ 7).
Abbreviation BPF_F_WRONLY_PROG := (2 ^ 8).
Abbreviation BPF_MAP_CAN_READ := 1.
Abbreviation BPF_MAP_CAN_WRITE := 2.

Definition bpf_map_flags_to_cap (map : bpf_map) : Z :=
  let access_flags := map_flags map .& (BPF_F_RDONLY_PROG .| BPF_F_WRONLY_PROG) in
  if negb (access_flags .& BPF_F_RDONLY_PROG =? 0) then BPF_MAP_CAN_READ
  else if negb (access_flags .& BPF_F_WRONLY_PROG =? 0) then BPF_MAP_CAN_WRITE
  else BPF_MAP_CAN_READ .| BPF_MAP_CAN_WRITE.

Definition check_map_access_type (regno : Z) (t : bpf_access_type) : verifier unit :=
  env ← get;
  reg ← reg_of regno;
  let cap := bpf_map_flags_to_cap (map_of env (raw reg)) in
  if bool_decide (t = BPF_WRITE) && (cap .& BPF_MAP_CAN_WRITE =? 0) then fail (- EACCES)
  else if bool_decide (t = BPF_READ) && (cap .& BPF_MAP_CAN_READ =? 0) then fail (- EACCES)
  else mret ().

Definition bpf_map_write_active (map : bpf_map) : bool := negb (writecnt map =? 0).

Definition bpf_map_is_rdonly (map : bpf_map) : bool :=
  negb (map_flags map .& BPF_F_RDONLY_PROG =? 0) && frozen map && negb (bpf_map_write_active map).

(** ** The context, packets and buffers *)

Definition check_ctx_reg (reg : bpf_reg_state) : verifier unit :=
  if negb (off reg =? 0) then fail (- EACCES)
  else if negb (tnum_is_const (var_off reg)) || negb (value (var_off reg) =? 0) then fail (- EACCES)
  else mret ().

Definition resolve_prog_type (a : bpf_prog_aux) : Z := match dst_prog_type a with Some t => t | None => prog_type a end.

(** [meta] is [meta->pkt_access] in a helper call.  The program types are
    numbered as in the enumeration bpf_prog_type. *)
Definition may_access_direct_pkt_data (meta : option bool) (t : bpf_access_type) : verifier bool :=
  env ← get;
  let ty := resolve_prog_type (aux env) in
  let write := bool_decide (t = BPF_WRITE) in
  let LWT_IN := 10 in let LWT_OUT := 11 in let LWT_SEG6LOCAL := 19 in let SK_REUSEPORT := 21 in let FLOW_DISSECTOR := 22 in let CGROUP_SKB := 8 in
  let SCHED_CLS := 3 in let SCHED_ACT := 4 in let XDP := 6 in let LWT_XMIT := 12 in let SK_SKB := 14 in let SK_MSG := 16 in let CGROUP_SOCKOPT := 25 in
  let read_only := existsb (Z.eqb ty) [LWT_IN; LWT_OUT; LWT_SEG6LOCAL; SK_REUSEPORT; FLOW_DISSECTOR; CGROUP_SKB] in
  let seen b := _ ← when b (modify (fun env => set_seen_direct_write env true)); mret true in
  if read_only && write then mret false
  else if read_only || existsb (Z.eqb ty) [SCHED_CLS; SCHED_ACT; XDP; LWT_XMIT; SK_SKB; SK_MSG] then
    match meta with Some pkt_access => mret pkt_access | None => seen true end
  else if ty =? CGROUP_SOCKOPT then seen write
  else mret false.

(** The union of a packet pointer is its [range], of a memory region its
    [mem_size], of a typed pointer its [btf_id]. *)
Definition range (reg : bpf_reg_state) : Z := u16 (raw reg).
Definition mem_size (reg : bpf_reg_state) : Z := u32 (raw reg).
Definition btf_id (reg : bpf_reg_state) : Z := u32 (raw reg).

Definition upd_aux (f : bpf_prog_aux -> bpf_prog_aux) : verifier unit := modify (fun env => set_aux env (f (aux env))).

Definition check_packet_access (regno off size : Z) (zero_size_allowed : bool) : verifier unit :=
  reg ← reg_of regno;
  if smin_value reg <? 0 then fail (- EACCES)
  else
    _ ← __check_mem_access off size (range reg) zero_size_allowed;
    upd_aux (fun a => mk_prog_aux (prog_type a) (dst_prog_type a) (Z.max (max_pkt_offset a) (u32 (off + umax_value reg + size - 1)))
      (max_ctx_offset a) (max_tp_access a) (max_rdonly_access a) (max_rdwr_access a) (prog_stack_depth a) (prog_tail_call_reachable a)).

Abbreviation sizeof_bpf_flow_keys := 56.

Definition check_flow_keys_access (off size : Z) : verifier unit :=
  if (size <? 0) || (off <? 0) || (u64 (u64 off + size) >? sizeof_bpf_flow_keys) then fail (- EACCES) else mret ().

Definition set_field_size (idx v : Z) : verifier unit :=
  modify (fun env => set_insn_aux_data env (alter (fun a => set_ctx_field_size a v) (Z.to_nat idx) (insn_aux_data env))).

Definition check_sock_access (idx regno off size : Z) : verifier unit :=
  reg ← reg_of regno;
  if smin_value reg <? 0 then fail (- EACCES)
  else
    let valid :=
      match type_ reg with
      | PTR_TO_SOCK_COMMON => bpf_sock_common_is_valid_access off size
      | PTR_TO_SOCKET => bpf_sock_is_valid_access off size
      | PTR_TO_TCP_SOCK => bpf_tcp_sock_is_valid_access off size
      | PTR_TO_XDP_SOCK => bpf_xdp_sock_is_valid_access off size
      | _ => None
      end in
    match valid with Some field_size => set_field_size idx field_size | None => fail (- EACCES) end.

Definition __check_buffer_access (reg : bpf_reg_state) (off : Z) : verifier unit :=
  if off <? 0 then fail (- EACCES)
  else if negb (tnum_is_const (var_off reg)) || negb (value (var_off reg) =? 0) then fail (- EACCES)
  else mret ().

Definition check_tp_buffer_access (reg : bpf_reg_state) (off size : Z) : verifier unit :=
  _ ← __check_buffer_access reg off;
  upd_aux (fun a => if u32 (off + size) >? max_tp_access a
    then mk_prog_aux (prog_type a) (dst_prog_type a) (max_pkt_offset a) (max_ctx_offset a) (u32 (off + size)) (max_rdonly_access a) (max_rdwr_access a) (prog_stack_depth a) (prog_tail_call_reachable a)
    else a).

(** [max_access] is the field for read-only or for writable buffers. *)
Definition check_buffer_access (reg : bpf_reg_state) (off size : Z) (rdonly : bool) : verifier unit :=
  _ ← __check_buffer_access reg off;
  upd_aux (fun a =>
    let v := u32 (off + size) in
    let up old := if v >? old then v else old in
    mk_prog_aux (prog_type a) (dst_prog_type a) (max_pkt_offset a) (max_ctx_offset a) (max_tp_access a)
      (if rdonly then up (max_rdonly_access a) else max_rdonly_access a) (if rdonly then max_rdwr_access a else up (max_rdwr_access a))
      (prog_stack_depth a) (prog_tail_call_reachable a)).

Definition mark_btf_ld_reg (regno : Z) (t : bpf_reg_type) (id : Z) : verifier unit :=
  if type_eqb t SCALAR_VALUE then mark_reg_unknown regno
  else
    _ ← mark_reg_known_zero regno;
    _ ← upd_reg regno (fun r => set_type r PTR_TO_BTF_ID);
    upd_reg regno (fun r => set_raw r id).

(** ** Accesses *)

(** The operations reached through pointers: those of the program type
    ([env->ops]), those of the map type ([map->ops]), and the type information
    of the kernel.  [is_valid_access] gives the type, the BTF id and the field
    size it stores in its [info]; [kernel_read] is the memory of the kernel. *)
Record access_ops := mk_access_ops {
  is_valid_access : option (Z -> Z -> bpf_access_type -> option (bpf_reg_type * Z * Z));
  ops_btf_struct_access : option (Z -> Z -> Z -> bpf_access_type -> Z + (bpf_reg_type * Z));
  btf_struct_access : Z -> Z -> Z -> bpf_access_type -> Z + (bpf_reg_type * Z);
  btf_vmlinux : bool;
  map_btf_id : Z -> option Z;
  map_direct_value_addr : Z -> option (bpf_map -> Z -> Z + Z);
  kernel_read : Z -> Z -> Z
}.

Section Ops.
Variable ops : access_ops.

Definition check_ctx_access (idx off size : Z) (t : bpf_access_type) : verifier (bpf_reg_type * Z) :=
  match (match is_valid_access ops with Some f => f off size t | None => None end) with
  | None => fail (- EACCES)
  | Some (reg_type, id, field_size) =>
    let btf := type_eqb reg_type PTR_TO_BTF_ID || type_eqb reg_type PTR_TO_BTF_ID_OR_NULL in
    _ ← when (negb btf) (set_field_size idx field_size);
    _ ← upd_aux (fun a => if max_ctx_offset a <? u32 (off + size)
          then mk_prog_aux (prog_type a) (dst_prog_type a) (max_pkt_offset a) (u32 (off + size)) (max_tp_access a) (max_rdonly_access a) (max_rdwr_access a) (prog_stack_depth a) (prog_tail_call_reachable a)
          else a);
    mret (reg_type, if btf then id else 0)
  end.

Definition bpf_map_direct_read (map : bpf_map) (off size : Z) : verifier Z :=
  match map_direct_value_addr ops (map_type map) with
  | None => fail (- EINVAL)
  | Some f =>
    match f map off with
    | inl err => fail err
    | inr addr => if existsb (Z.eqb size) [1; 2; 4; 8] then mret (kernel_read ops (addr + off) size) else fail (- EINVAL)
    end
  end.

Definition check_ptr_to_btf_access (regno off size : Z) (t : bpf_access_type) (value_regno : Z) : verifier unit :=
  reg ← reg_of regno;
  if off <? 0 then fail (- EACCES)
  else if negb (tnum_is_const (var_off reg)) || negb (value (var_off reg) =? 0) then fail (- EACCES)
  else
    ret ← (match ops_btf_struct_access ops with
           | Some f => mret (f (btf_id reg) off size t)
           | None => if bool_decide (t = BPF_READ) then mret (btf_struct_access ops (btf_id reg) off size t) else fail (- EACCES)
           end);
    match ret with
    | inl err => fail err
    | inr (ty, id) => when (bool_decide (t = BPF_READ) && (value_regno >=? 0)) (mark_btf_ld_reg value_regno ty id)
    end.

Definition check_ptr_to_map_access (regno off size : Z) (t : bpf_access_type) (value_regno : Z) : verifier unit :=
  env ← get;
  reg ← reg_of regno;
  let map := map_of env (raw reg) in
  if negb (btf_vmlinux ops) then fail (- ENOTSUPP)
  else match map_btf_id ops (map_type map) with
  | None => fail (- ENOTSUPP)
  | Some id =>
    if id =? 0 then fail (- ENOTSUPP)
    else if negb (allow_ptr_to_map_access env) then fail (- EPERM)
    else if off <? 0 then fail (- EACCES)
    else if negb (bool_decide (t = BPF_READ)) then fail (- EACCES)
    else match btf_struct_access ops id off size t with
    | inl err => fail err
    | inr (ty, id) => when (value_regno >=? 0) (mark_btf_ld_reg value_regno ty id)
    end
  end.

(** A pointer may not be stored where the program's user can read it. *)
Definition leaks (t : bpf_access_type) (value_regno : Z) : verifier bool :=
  if bool_decide (t = BPF_WRITE) && (value_regno >=? 0) then is_pointer_value value_regno else mret false.

(** What a load through the context puts in the register. *)
Definition mark_ctx_reg (value_regno : Z) (reg_type : bpf_reg_type) (id : Z) : verifier unit :=
  _ ← (if type_eqb reg_type SCALAR_VALUE then mark_reg_unknown value_regno
       else
         _ ← mark_reg_known_zero value_regno;
         _ ← when (reg_type_may_be_null reg_type)
               (_ ← modify (fun env => set_id_gen env (u32 (id_gen env + 1)));
                env ← get;
                upd_reg value_regno (fun r => set_id r (id_gen env)));
         _ ← upd_reg value_regno (fun r => set_subreg_def r DEF_NOT_SUBREG);
         when (type_eqb reg_type PTR_TO_BTF_ID || type_eqb reg_type PTR_TO_BTF_ID_OR_NULL) (upd_reg value_regno (fun r => set_raw r id)));
  upd_reg value_regno (fun r => set_type r reg_type).

(** The branches of [check_mem_access]; [off_] includes the offset of the
    register. *)
Definition access_map_value (reg : bpf_reg_state) (regno off_ size : Z) (t : bpf_access_type) (value_regno : Z) : verifier unit :=
  leak ← leaks t value_regno;
  if (leak : bool) then fail (- EACCES)
  else
    _ ← check_map_access_type regno t;
    _ ← check_map_access regno off_ size false;
    env ← get;
    let map := map_of env (raw reg) in
    when (bool_decide (t = BPF_READ) && (value_regno >=? 0))
      (if tnum_is_const (var_off reg) && bpf_map_is_rdonly map && match map_direct_value_addr ops (map_type map) with Some _ => true | None => false end then
         val ← bpf_map_direct_read map (s32 (off_ + value (var_off reg))) size;
         _ ← upd_reg value_regno (fun r => set_type r SCALAR_VALUE);
         upd_reg value_regno (fun r => __mark_reg_known r val)
       else mark_reg_unknown value_regno).

Definition access_ctx (idx : Z) (reg : bpf_reg_state) (off_ size : Z) (t : bpf_access_type) (value_regno : Z) : verifier unit :=
  leak ← leaks t value_regno;
  if (leak : bool) then fail (- EACCES)
  else
    _ ← check_ctx_reg reg;
    '(reg_type, id) ← check_ctx_access idx off_ size t;
    when (bool_decide (t = BPF_READ) && (value_regno >=? 0)) (mark_ctx_reg value_regno reg_type id).

Definition access_stack (idx : Z) (reg : bpf_reg_state) (regno off_ size : Z) (t : bpf_access_type) (value_regno : Z) : verifier unit :=
  _ ← check_stack_access_within_bounds regno off_ size t;
  _ ← update_stack_depth (func reg) off_;
  if bool_decide (t = BPF_READ) then check_stack_read regno off_ size value_regno
  else check_stack_write regno off_ size value_regno idx.

(** A region whose contents are unknown, after [m] has checked the access. *)
Definition read_unknown (t : bpf_access_type) (value_regno : Z) (m : verifier unit) : verifier unit :=
  _ ← m; when (bool_decide (t = BPF_READ) && (value_regno >=? 0)) (mark_reg_unknown value_regno).

Definition access_by_type (idx : Z) (reg : bpf_reg_state) (regno off_ size : Z) (t : bpf_access_type) (value_regno : Z) : verifier unit :=
  let no_leak m := (leak ← leaks t value_regno; if (leak : bool) then fail (- EACCES) else m) in
  let write := bool_decide (t = BPF_WRITE) in
  match type_ reg with
  | PTR_TO_MAP_VALUE => access_map_value reg regno off_ size t value_regno
  | PTR_TO_MEM => no_leak (read_unknown t value_regno (check_mem_region_access regno off_ size (mem_size reg) false))
  | PTR_TO_CTX => access_ctx idx reg off_ size t value_regno
  | PTR_TO_STACK => access_stack idx reg regno off_ size t value_regno
  | PTR_TO_PACKET | PTR_TO_PACKET_META =>
    may ← (if write then may_access_direct_pkt_data None t else mret true);
    if negb may then fail (- EACCES)
    else no_leak (read_unknown t value_regno (check_packet_access regno off_ size false))
  | PTR_TO_FLOW_KEYS => no_leak (read_unknown t value_regno (check_flow_keys_access off_ size))
  | PTR_TO_SOCKET | PTR_TO_SOCK_COMMON | PTR_TO_TCP_SOCK | PTR_TO_XDP_SOCK =>
    if write then fail (- EACCES)
    else _ ← check_sock_access idx regno off_ size; when (value_regno >=? 0) (mark_reg_unknown value_regno)
  | PTR_TO_TP_BUFFER => read_unknown t value_regno (check_tp_buffer_access reg off_ size)
  | PTR_TO_BTF_ID => check_ptr_to_btf_access regno off_ size t value_regno
  | CONST_PTR_TO_MAP => check_ptr_to_map_access regno off_ size t value_regno
  | PTR_TO_RDONLY_BUF =>
    if write then fail (- EACCES)
    else _ ← check_buffer_access reg off_ size true; when (value_regno >=? 0) (mark_reg_unknown value_regno)
  | PTR_TO_RDWR_BUF => read_unknown t value_regno (check_buffer_access reg off_ size false)
  | _ => fail (- EACCES)
  end.

Definition check_mem_access (idx regno off_ bpf_size : Z) (t : bpf_access_type) (value_regno : Z) (strict_alignment_once : bool) : verifier unit :=
  reg ← reg_of regno;
  let size := bpf_size_to_bytes bpf_size in
  if size <? 0 then fail size
  else
    _ ← check_ptr_alignment reg off_ size strict_alignment_once;
    _ ← access_by_type idx reg regno (s32 (off_ + off reg)) size t value_regno;
    env ← get;
    when ((size <? BPF_REG_SIZE) && (value_regno >=? 0) && bool_decide (t = BPF_READ) && type_eqb (type_ (get_reg env value_regno)) SCALAR_VALUE)
      (upd_reg value_regno (fun r => coerce_reg_to_size r size)).

Definition check_xadd (idx : Z) (insn : bpf_insn) : verifier unit :=
  let size := BPF_SIZE (insn_code insn) in
  if (negb (size =? BPF_W) && negb (size =? BPF_DW)) || negb (insn_imm insn =? 0) then fail (- EINVAL)
  else
    _ ← check_reg_arg (insn_src insn) SRC_OP;
    _ ← check_reg_arg (insn_dst insn) SRC_OP;
    leak ← is_pointer_value (insn_src insn);
    if (leak : bool) then fail (- EACCES)
    else
      ctx ← is_ctx_reg (insn_dst insn); pkt ← is_pkt_reg (insn_dst insn); flow ← is_flow_key_reg (insn_dst insn); sk ← is_sk_reg (insn_dst insn);
      if (ctx : bool) || (pkt : bool) || (flow : bool) || (sk : bool) then fail (- EACCES)
      else
        _ ← check_mem_access idx (insn_dst insn) (insn_off insn) size BPF_READ (-1) true;
        check_mem_access idx (insn_dst insn) (insn_off insn) size BPF_WRITE (-1) true.

(** ** The instructions, in [do_check] *)

Definition reg_type_mismatch_ok (t : bpf_reg_type) : bool :=
  match t with
  | PTR_TO_CTX | PTR_TO_SOCKET | PTR_TO_SOCKET_OR_NULL | PTR_TO_SOCK_COMMON | PTR_TO_SOCK_COMMON_OR_NULL
  | PTR_TO_TCP_SOCK | PTR_TO_TCP_SOCK_OR_NULL | PTR_TO_XDP_SOCK | PTR_TO_BTF_ID | PTR_TO_BTF_ID_OR_NULL => false
  | _ => true
  end.

Definition reg_type_mismatch (src prev : bpf_reg_type) : bool :=
  negb (type_eqb src prev) && (negb (reg_type_mismatch_ok src) || negb (reg_type_mismatch_ok prev)).

(** The pointer type an instruction was used with is recorded, and must not
    differ on another path in a way that matters for rewriting it. *)
Definition check_ptr_type (t : bpf_reg_type) : verifier unit :=
  env ← get;
  let prev := ptr_type (insn_aux_data env !!! Z.to_nat (insn_idx env)) in
  if type_eqb prev NOT_INIT
  then modify (fun env => set_insn_aux_data env (alter (fun a => set_ptr_type a t) (Z.to_nat (insn_idx env)) (insn_aux_data env)))
  else if reg_type_mismatch t prev then fail (- EINVAL)
  else mret ().

Definition check_ldx (insn : bpf_insn) : verifier unit :=
  _ ← check_reg_arg (insn_src insn) SRC_OP;
  _ ← check_reg_arg (insn_dst insn) DST_OP_NO_MARK;
  env ← get;
  let src_reg_type := type_ (get_reg env (insn_src insn)) in
  _ ← check_mem_access (insn_idx env) (insn_src insn) (insn_off insn) (BPF_SIZE (insn_code insn)) BPF_READ (insn_dst insn) false;
  check_ptr_type src_reg_type.

Definition check_stx (insn : bpf_insn) : verifier unit :=
  env ← get;
  if BPF_MODE (insn_code insn) =? BPF_XADD then check_xadd (insn_idx env) insn
  else
    _ ← check_reg_arg (insn_src insn) SRC_OP;
    _ ← check_reg_arg (insn_dst insn) SRC_OP;
    env ← get;
    let dst_reg_type := type_ (get_reg env (insn_dst insn)) in
    _ ← check_mem_access (insn_idx env) (insn_dst insn) (insn_off insn) (BPF_SIZE (insn_code insn)) BPF_WRITE (insn_src insn) false;
    check_ptr_type dst_reg_type.

Definition check_st (insn : bpf_insn) : verifier unit :=
  if negb (BPF_MODE (insn_code insn) =? BPF_MEM) || negb (insn_src insn =? BPF_REG_0) then fail (- EINVAL)
  else
    _ ← check_reg_arg (insn_dst insn) SRC_OP;
    ctx ← is_ctx_reg (insn_dst insn);
    if (ctx : bool) then fail (- EACCES)
    else
      env ← get;
      check_mem_access (insn_idx env) (insn_dst insn) (insn_off insn) (BPF_SIZE (insn_code insn)) BPF_WRITE (-1) false.
End Ops.
