(* ===== verification/MemFrame.v ===== *)
(** The checks of memory accesses leave the program and the states still to
    explore alone. *)
From Stdlib Require Import ZArith Lia Bool.
From stdpp Require Import base list gmap.
From S2P Require Import Prelude Lists Bits Tnum Bounds RegState ScalarOps Insn Interp Env MemAccess RegArg Precision Bookkeeping Alu Frame StackAccess MemInsn.

Local Open Scope Z_scope.
Local Open Scope kint_scope.

Section Frame.
Context {T : Type} (F : bpf_verifier_env -> T) {V : View F}.

Lemma fixes_upd_slot k i f : fixes F (upd_slot k i f).
Proof using V. intros e; apply vw_cur. Qed.

Lemma fixes_upd_frame k f : fixes F (upd_frame k f).
Proof using V. intros e; apply vw_cur. Qed.

Lemma fixes_upd_aux f : fixes F (upd_aux f).
Proof using V. intros e; apply vw_aux. Qed.

Lemma fixes_field_size i v : fixes F (set_field_size i v).
Proof using V. intros e; apply vw_insn_aux; reflexivity. Qed.

#[local] Hint Resolve fixes_upd_slot fixes_upd_frame fixes_upd_aux fixes_field_size : fixes.

Lemma fixes_slot_read k i : fixes F (mark_slot_read k i).
Proof using V. unfold mark_slot_read; fixes_auto. Qed.

Lemma fixes_stack_marks k lo hi r : fixes F (mark_reg_stack_read k lo hi r).
Proof using V. unfold mark_reg_stack_read; fixes_auto. Qed.

Lemma fixes_realloc k n : fixes F (realloc_func_state k n).
Proof using V. unfold realloc_func_state; fixes_auto. Qed.

Lemma fixes_save k i r : fixes F (save_register_state k i r).
Proof using V. apply fixes_upd_slot. Qed.

#[local] Hint Resolve fixes_slot_read fixes_stack_marks fixes_realloc fixes_save : fixes.

Lemma fixes_write_fixed k off size v idx : fixes F (check_stack_write_fixed_off k off size v idx).
Proof using V. unfold check_stack_write_fixed_off; fixes_auto. Qed.

Lemma fixes_write_loop k wz n : forall i z, fixes F (write_var_loop n k i wz z).
Proof using V. induction n as [|n IH]; intros i z; cbn [write_var_loop]; fixes_auto; apply IH. Qed.

Lemma fixes_range_loop k c n : forall i, fixes F (range_loop n k i c).
Proof using V. induction n as [|n IH]; intros i; cbn [range_loop]; fixes_auto; apply IH. Qed.

#[local] Hint Resolve fixes_write_fixed fixes_write_loop fixes_range_loop : fixes.

Lemma fixes_stack_write r off size v idx : fixes F (check_stack_write r off size v idx).
Proof using V. unfold check_stack_write, check_stack_write_var_off; fixes_auto. Qed.

Lemma fixes_depth k off : fixes F (update_stack_depth k off).
Proof using V. unfold update_stack_depth; fixes_auto. Qed.

Lemma fixes_within r off size t : fixes F (check_stack_access_within_bounds r off size t).
Proof using V. unfold check_stack_access_within_bounds, check_stack_slot_within_bounds; fixes_auto. Qed.

#[local] Hint Resolve fixes_stack_write fixes_depth fixes_within : fixes.

Lemma fixes_stack_range r off size z src raw : fixes F (check_stack_range_initialized r off size z src raw).
Proof using V. unfold check_stack_range_initialized; fixes_auto. Qed.

#[local] Hint Resolve fixes_stack_range : fixes.

Lemma fixes_stack_read r off size d : fixes F (check_stack_read r off size d).
Proof using V. unfold check_stack_read, check_stack_read_fixed_off, check_stack_read_var_off; fixes_auto. Qed.

Lemma fixes_alignment reg off size s : fixes F (check_ptr_alignment reg off size s).
Proof using V. unfold check_ptr_alignment, check_pkt_ptr_alignment, check_generic_ptr_alignment; fixes_auto. Qed.

Lemma fixes_region r off size n z : fixes F (check_mem_region_access r off size n z).
Proof using V. unfold check_mem_region_access, __check_mem_access; fixes_auto. Qed.

Lemma fixes_map_access r off size z : fixes F (check_map_access r off size z).
Proof using V. unfold check_map_access; fixes_auto; apply fixes_region. Qed.

#[local] Hint Resolve fixes_stack_read fixes_alignment fixes_region fixes_map_access : fixes.

Lemma fixes_leaks t v : fixes F (leaks t v).
Proof using V. unfold leaks, is_pointer_value; fixes_auto. Qed.

Lemma fixes_btf_reg r t i : fixes F (mark_btf_ld_reg r t i).
Proof using V. unfold mark_btf_ld_reg; fixes_auto. Qed.

Lemma fixes_pkt_data meta t : fixes F (may_access_direct_pkt_data meta t).
Proof using V. unfold may_access_direct_pkt_data; fixes_auto. Qed.

#[local] Hint Resolve fixes_leaks fixes_btf_reg fixes_pkt_data : fixes.

(** Only an access to the context may draw an id. *)
Lemma fixes_by_type ops idx reg r off size t v : (type_ reg = PTR_TO_CTX -> forall e n, F (set_id_gen e n) = F e) ->
  fixes F (access_by_type ops idx reg r off size t v).
Proof using V.
  intros G; unfold access_by_type; destruct (type_ reg) eqn:Ty; try specialize (G eq_refl);
  unfold access_map_value, access_ctx, access_stack, read_unknown, check_packet_access, check_flow_keys_access, check_sock_access,
    check_tp_buffer_access, check_buffer_access, __check_buffer_access, check_ptr_to_btf_access, check_ptr_to_map_access, check_ctx_access,
    check_ctx_reg, check_map_access_type, bpf_map_direct_read, mark_ctx_reg, __check_mem_access; fixes_auto;
  apply fixes_modify; intros; apply G.
Qed.

Lemma fixes_ptr_type t : fixes F (check_ptr_type t).
Proof using V. unfold check_ptr_type; fixes_auto. Qed.
End Frame.

Lemma program_mem_access ops idx r off bs t v s : fixes program (check_mem_access ops idx r off bs t v s).
Proof. unfold check_mem_access; fixes_auto; apply (fixes_by_type program); reflexivity. Qed.

Lemma explored_mem_access ops idx r off bs t v s e : type_ (get_reg e r) <> PTR_TO_CTX ->
  explored (check_mem_access ops idx r off bs t v s e).2 = explored e.
Proof.
  intros N; unfold check_mem_access; unfold mbind at 1, verifier_bind at 1, reg_of at 1; cbn iota beta.
  match goal with |- explored (?m e).2 = _ => enough (fixes explored m) as H by exact (H e) end.
  fixes_auto; apply (fixes_by_type explored); contradiction.
Qed.
