(* ===== verification/MemStep.v ===== *)
(** Loads and stores, in the verifier and in the interpreter.

    [machine_sim ops w ι e σ m β βs]: the registers and the stack slots of the
    verifier state [e] describe the registers [σ] and the memory [m] of the
    machine.  The world [w] fixes what does not change while a program runs: the
    frame pointers, the maps, where they and their values are, the context, the
    bytes that are constant, the other bytes that belong to the program, and the packet.  The
    links [ι] say what the ids mean that tie registers and spilled registers to
    each other. *)
From Stdlib Require Import ZArith Lia Bool.
From stdpp Require Import base list gmap.
From S2P Require Import Prelude Lists Bits Tnum Bounds RegState ScalarOps Insn Interp Env Branch MemAccess RegArg Precision Bookkeeping Alu AluSound AluStep CondJmp CondJmpSound Frame.
From S2P Require Import StackAccess StackSound StackVar MemInsn MemFrame.

Local Open Scope Z_scope.
Local Open Scope kint_scope.

(** ** The relation *)

Record world := mk_world {
  w_fps : list Z;
  w_maps : gmap Z bpf_map;
  w_value : Z -> Z -> Prop;
  w_map : Z -> Z -> Prop;
  w_ctx : Z;
  w_const : memory;
  w_region : Z -> Prop;
  w_meta : Z;
  w_data : Z;
  w_end : Z
}.

(** What the ids handed out so far stand for: the value of the scalars and of
    the unchecked pointers with the id, and the variable part of the packet
    pointers with the id. *)
Record links := mk_links {
  l_ids : bool * Z -> Z;
  l_var : Z -> Z;
  l_gen : Z
}.

(** The bytes from [a] on belong to the program. *)
Definition owned (w : world) (a n : Z) : Prop := forall i, 0 <= i < n -> w_region w (u64 (a + i)).

(** The pointers the machine can use as they are. *)
Definition plain_pointer (t : bpf_reg_type) : bool :=
  match t with PTR_TO_STACK | PTR_TO_MAP_VALUE | PTR_TO_MEM | PTR_TO_PACKET | PTR_TO_PACKET_META => true | _ => false end.

(** A register through which the machine may access memory.  The code checks
    the offsets of the result of pointer arithmetic before it refines the bounds
    of that result for the last time, so they are a condition of the access. *)
Definition usable (reg : bpf_reg_state) : bool := plain_pointer (type_ reg) && check_reg_sane_offset reg.

(** A pointer into [n] bytes of packet at [base]. *)
Definition pkt_points (ι : links) (reg : bpf_reg_state) (b x base n : Z) : Prop :=
  b = base /\ x = u64 (b + off reg + l_var ι (id reg)) /\ (0 < range reg -> l_var ι (id reg) + range reg <= n).

(** What a pointer with base [b] and value [x] points to. *)
Definition points_to (w : world) (ι : links) (reg : bpf_reg_state) (b x : Z) : Prop :=
  match type_ reg with
  | PTR_TO_STACK => w_fps w !! func reg = Some b
  | PTR_TO_MAP_VALUE => w_value w (raw reg) b
  | PTR_TO_MEM => owned w b (mem_size reg)
  | PTR_TO_PACKET => pkt_points ι reg b x (w_data w) (w_end w - w_data w)
  | PTR_TO_PACKET_META => pkt_points ι reg b x (w_meta w) (w_data w - w_meta w)
  | PTR_TO_PACKET_END => x = w_end w
  | CONST_PTR_TO_MAP => w_map w (raw reg) x
  | PTR_TO_CTX => b = w_ctx w
  | _ => True
  end.

(** The types of which the world knows what they point to. *)
Definition pointed (t : bpf_reg_type) : bool :=
  match t with PTR_TO_PACKET_END | CONST_PTR_TO_MAP | PTR_TO_CTX => true | _ => plain_pointer t end.

(** A pointer that may be NULL points to its object if it is not. *)
Definition points_ok (w : world) (ι : links) (reg : bpf_reg_state) (b x : Z) : Prop :=
  if reg_type_may_be_null (type_ reg) then x <> 0 -> points_to w ι (not_null_type (w_maps w) reg) b x else points_to w ι reg b x.

Record describes (w : world) (ι : links) (reg : bpf_reg_state) (b x : Z) : Prop := mk_describes {
  ds_sim : reg_sim reg b x;
  ds_points : points_ok w ι reg b x;
  ds_link : forall k, link reg = Some k -> x = l_ids ι k;
  ds_id : type_ reg <> NOT_INIT -> id reg = 0 \/ id reg <= l_gen ι
}.

Lemma points_plain w ι reg b x : plain_pointer (type_ reg) = true -> describes w ι reg b x -> points_to w ι reg b x.
Proof. intros P [_ H _ _]; unfold points_ok in H; destruct (type_ reg); discriminate P || exact H. Qed.

Lemma points_other w ι reg b x : pointed (type_ reg) = false -> reg_type_may_be_null (type_ reg) = false -> points_ok w ι reg b x.
Proof. unfold points_ok; intros P N; rewrite N; unfold points_to; destruct (type_ reg); discriminate P || exact Logic.I. Qed.

(** The fields a description looks at. *)
Lemma points_ok_ext w ι reg reg' b x : type_ reg' = type_ reg -> off reg' = off reg -> id reg' = id reg -> raw reg' = raw reg -> func reg' = func reg ->
  points_ok w ι reg b x -> points_ok w ι reg' b x.
Proof.
  intros T O I R F; unfold points_ok, points_to, pkt_points, not_null_type, mem_size, range; rewrite T, R, F, O, I.
  destruct (type_ reg) eqn:T0; cbn [reg_type_may_be_null]; trivial; intros H N; specialize (H N); revert H;
    repeat match goal with |- context [if ?c then _ else _] => destruct c end; cbn; rewrite ?T, ?T0, ?R, ?F; trivial.
Qed.

Lemma describes_ext w ι reg reg' b x : type_ reg' = type_ reg -> off reg' = off reg -> id reg' = id reg -> raw reg' = raw reg -> func reg' = func reg ->
  reg_sim reg' b x -> describes w ι reg b x -> describes w ι reg' b x.
Proof.
  intros T O I R F S [_ P L D]; split; [exact S|exact (points_ok_ext w ι reg reg' b x T O I R F P)| |rewrite T, I; exact D].
  intros k; unfold link; rewrite T, I; exact (L k).
Qed.

Lemma describes_tag w ι reg reg' b x : reg_tag reg' = reg_tag reg -> reg_sim reg' b x -> describes w ι reg b x -> describes w ι reg' b x.
Proof. unfold reg_tag; intros E; apply describes_ext; unfold func; congruence. Qed.

#[export] Instance describes_cell w ι : CellSim (describes w ι).
Proof.
  split.
  - intros r b x H; apply H.
  - intros r r' b x E H; apply (describes_ext w ι r); [exact (eq_sym (f_equal type_ E))|exact (eq_sym (f_equal off E))|exact (eq_sym (f_equal id E))|
      exact (eq_sym (f_equal raw E))|exact (eq_sym (f_equal func E))| |exact H].
    eapply (cs_erase (desc := reg_sim)); [exact E|apply H].
  - intros r b x T U; split; [apply (cs_not_init (desc := reg_sim)); assumption|apply points_other; rewrite T; reflexivity| |contradiction].
    intros k; unfold link; rewrite T; destruct (id r =? 0); discriminate.
  - intros r b x T I0 I U; split; [apply (cs_scalar (desc := reg_sim)); assumption|apply points_other; rewrite T; reflexivity| |auto].
    intros k; unfold link; rewrite I0; discriminate.
Qed.

(** What the world says about the memory [m], and about the direct access to
    the value of a map that nobody can change any more. *)
Record world_ok (ops : access_ops) (w : world) (m : memory) : Prop := mk_world_ok {
  wk_maps : forall i, uin 32 (value_size (w_maps w !!! i)) /\ sin 32 (spin_lock_off (w_maps w !!! i));
  wk_values : forall i b, w_value w i b -> let map := w_maps w !!! i in
    if bpf_map_is_rdonly map then forall j, 0 <= j < value_size map -> is_Some (w_const w !! u64 (b + j)) else owned w b (value_size map);
  wk_direct : forall i b f o addr size, w_value w i b -> let map := w_maps w !!! i in
    bpf_map_is_rdonly map = true -> map_direct_value_addr ops (map_type map) = Some f -> f map o = inr addr ->
    size_ok size -> 0 <= o -> o + size <= value_size map -> load_bytes (w_const w) (b + o) (Z.to_nat size) = Some (kernel_read ops (addr + o) size);
  wk_region : forall a, w_region w a -> is_Some (m !! a) /\ w_const w !! a = None;
  wk_const : forall a c, w_const w !! a = Some c -> m !! a = Some c;
  wk_mapped : forall k fp, w_fps w !! k = Some fp -> forall i, 0 <= i < MAX_STACK -> is_Some (byte_at m fp i) /\ w_const w !! u64 (fp - 1 - i) = None /\ ~ w_region w (u64 (fp - 1 - i));
  wk_disjoint : forall j k fj fk, w_fps w !! j = Some fj -> w_fps w !! k = Some fk -> j <> k ->
    forall i i', 0 <= i < MAX_STACK -> 0 <= i' < MAX_STACK -> u64 (fj - 1 - i) <> u64 (fk - 1 - i');
  wk_packet : 0 <= w_meta w <= w_data w /\ w_data w <= w_end w < 2 ^ 64 /\ w_data w + MAX_PACKET_OFF < 2 ^ 64 /\ owned w (w_meta w) (w_end w - w_meta w)
}.

Record links_ok (ι : links) : Prop := mk_links_ok {
  lk_zero : l_var ι 0 = 0;
  lk_var : forall k, sin 64 (l_var ι k)
}.

Record machine_sim (ops : access_ops) (w : world) (ι : links) (e : bpf_verifier_env) (σ : list Z) (m : memory) (β : Z -> Z) (βs : nat -> nat -> Z) : Prop := mk_machine_sim {
  ms_wf : env_wf e;
  ms_len : length σ = 12%nat;
  ms_regs : forall r, regno_ok r -> exists x, reg_get σ r = Some x /\ describes w ι (get_reg e r) (β r) x;
  ms_stacks : forall k fp, w_fps w !! k = Some fp -> good (describes w ι) k fp e m (βs k);
  ms_mem : mem_ok m;
  ms_maps : maps e = w_maps w;
  ms_world : world_ok ops w m;
  ms_links : links_ok ι
}.

Arguments ms_wf {ops w ι e σ m β βs}.
Arguments ms_regs {ops w ι e σ m β βs}.
Arguments ms_stacks {ops w ι e σ m β βs}.
Arguments ms_mem {ops w ι e σ m β βs}.
Arguments ms_maps {ops w ι e σ m β βs}.
Arguments ms_world {ops w ι e σ m β βs}.
Arguments ms_links {ops w ι e σ m β βs}.

(** It contains the simulation that arithmetic and jumps preserve. *)
Lemma machine_state_sim ops w ι e σ m β βs : machine_sim ops w ι e σ m β βs -> state_sim (cur_state e) σ β.
Proof.
  intros M; split; [exact (ms_wf M)|split; [apply M|split]].
  - intros r Hr; destruct (ms_regs M r Hr) as (x & Hx & D); exists x; split; [exact Hx|apply D].
  - intros r1 r2 k H1 H2 L1 L2; destruct (ms_regs M r1 H1) as (x1 & X1 & [_ _ D1 _]), (ms_regs M r2 H2) as (x2 & X2 & [_ _ D2 _]).
    rewrite X1, X2, (D1 k L1), (D2 k L2); reflexivity.
Qed.

(** Bookkeeping does not matter. *)
Lemma machine_same ops w ι e e' σ m β βs : e' ≈ e -> machine_sim ops w ι e σ m β βs -> machine_sim ops w ι e' σ m β βs.
Proof.
  intros E [Wf L Rg St Me Mp Wk Lk]; split; try assumption.
  - rewrite E; exact Wf.
  - intros r Hr; destruct (Rg r Hr) as (x & Hx & D); exists x; split; [exact Hx|]; eapply cs_erase; [symmetry; exact (same_reg _ _ r E)|exact D].
  - intros k fp Hk; eapply (good_same (describes w ι)); [exact E|exact (St k fp Hk)].
  - rewrite <- Mp; exact (f_equal maps E).
Qed.

Lemma machine_cur ops w ι e e' σ m β βs : cur_state e' = cur_state e -> maps e' = maps e -> machine_sim ops w ι e σ m β βs -> machine_sim ops w ι e' σ m β βs.
Proof.
  intros E Em [Wf L Rg St Me Mp Wk Lk]; split; try assumption; try congruence.
  - unfold env_wf, cur_regs, cur_func; rewrite E; exact Wf.
  - unfold get_reg, cur_regs, cur_func; rewrite E; exact Rg.
  - intros k fp Hk; eapply good_cur; [exact E|exact (St k fp Hk)].
Qed.

(** ** Addresses *)

Lemma load_mod m n : forall a a', u64 a = u64 a' -> load_bytes m a n = load_bytes m a' n.
Proof.
  induction n as [|n IH]; intros a a' E; [reflexivity|]; cbn [load_bytes]; rewrite E, (IH (a + 1) (a' + 1)); [reflexivity|].
  unfold uwrap in *; rewrite <- (Zplus_mod_idemp_l a), E, Zplus_mod_idemp_l; reflexivity.
Qed.

Lemma store_mod n : forall m a a' v, u64 a = u64 a' -> store_bytes m a n v = store_bytes m a' n v.
Proof.
  induction n as [|n IH]; intros m a a' v E; [reflexivity|]; cbn [store_bytes]; rewrite E; destruct (m !! u64 a'); [|reflexivity]; cbn; apply IH.
  unfold uwrap in *; rewrite <- (Zplus_mod_idemp_l a), E, Zplus_mod_idemp_l; reflexivity.
Qed.

(** ** The window of an accepted access *)

Lemma sane_bounds reg v : check_reg_sane_offset reg = true -> reg_inv reg v ->
  - 2 ^ 29 < off reg < 2 ^ 29 /\ - 2 ^ 29 < smin_value reg < 2 ^ 29 /\ smin_value reg <= s64 v <= smax_value reg /\
  (tnum_is_const (var_off reg) = true -> v = value (var_off reg) /\ - 2 ^ 29 < s64 v < 2 ^ 29).
Proof.
  unfold check_reg_sane_offset; cbn zeta; intros H (_ & (T & (Bs & _) & _) & _).
  destruct (tnum_is_const _ && _) eqn:C1; [discriminate|]; destruct ((off reg >=? _) || _) eqn:C2; [discriminate|].
  destruct (smin_value reg =? S64_MIN); [discriminate|]; destruct ((smin_value reg >=? _) || _) eqn:C3; [discriminate|].
  apply orb_false_iff in C2 as [A1 A2], C3 as [A3 A4]; rewrite Z.geb_leb in A1, A3; rewrite Z.leb_gt in A1, A2, A3, A4.
  split; [lia|split; [lia|split; [exact Bs|]]]; intros K; pose proof (tnum_is_const_mem _ _ K T) as E; split; [exact E|].
  rewrite K, <- E in C1; cbn [andb] in C1; apply orb_false_iff in C1 as [A5 A6]; rewrite Z.geb_leb in A5; rewrite Z.leb_gt in A5, A6; lia.
Qed.

(** The offset [o] from the frame pointer that the machine uses. *)
Lemma stack_window regno off size t e u e' v : let reg := get_reg e regno in let o := off + s64 v in
  check_reg_sane_offset reg = true -> reg_inv reg v -> - 2 ^ 30 <= off <= 2 ^ 30 -> size_ok size ->
  (length (stack (frame_of e (func reg))) <= 64)%nat -> check_stack_access_within_bounds regno off size t e = (inr u, e') ->
  - MAX_STACK <= o /\ o + size <= 0 /\
  (if tnum_is_const (var_off reg) then s32 (off + value (var_off reg)) = o
   else s32 (smin_value reg + off) = smin_value reg + off /\ s32 (smax_value reg + off) = smax_value reg + off /\
        s32 (smax_value reg + off + size) = smax_value reg + off + size /\
        - MAX_STACK <= smin_value reg + off /\ smin_value reg + off <= o <= smax_value reg + off /\ smax_value reg + off + size <= 0).
Proof.
  cbn zeta; intros Sn I Ho Hs Len H; destruct (sane_bounds _ v Sn I) as (B1 & B2 & B3 & B4); set (reg := get_reg e regno) in *.
  assert (P : 0 < size <= 8) by (destruct Hs as [->|[->|[->| ->]]]; lia).
  unfold check_stack_access_within_bounds in H; run H; injection R as <- <-; fold reg in H; run H; injection R as <- <-.
  assert (K : forall o1 t0 u0 e0 e1, check_stack_slot_within_bounds o1 (frame_of e (func reg)) t0 e0 = (inr u0, e1) -> - MAX_STACK <= o1 <= -1).
  { intros o1 t0 u0 e0 e1 X; unfold check_stack_slot_within_bounds in X; destruct ((o1 <? _) || (o1 >? -1)) eqn:C; [discriminate|].
    apply orb_false_iff in C as [C1 C2]; rewrite Z.gtb_ltb in C2; rewrite Z.ltb_ge in C1, C2; case_bool_decide; lia. }
  destruct (tnum_is_const (var_off reg)) eqn:Kc.
  - destruct (B4 eq_refl) as [-> B5]; set (val := value (var_off reg)) in *.
    assert (E : s32 (val + off) = off + s64 val).
    { rewrite <- (swrap_id 32 (off + s64 val)) by (try (unfold sin; lia); lia); apply swrap_weq; [lia|]; rewrite Z.add_comm.
      apply weq_add; [lia|reflexivity|symmetry; apply weq_swrap; lia]. }
    replace (off + val) with (val + off) by lia; rewrite E in *; run H; injection R as <- <-; cbn [fst snd] in H.
    destruct (Z.gtb_spec size 0) as [_|]; [|lia]; rewrite (swrap_id 32 (off + s64 val + size - 1)) in H by (try (unfold sin; lia); lia).
    run H; apply K in R; apply K in H; lia.
  - run H; destruct ((smax_value reg >=? _) || _) eqn:C; [discriminate|]; apply orb_false_iff in C as [C1 _]; rewrite Z.geb_leb in C1; rewrite Z.leb_gt in C1.
    injection R as <- <-; cbn [fst snd] in H; destruct (Z.gtb_spec size 0) as [_|]; [|lia].
    assert (E : forall z, - 2 ^ 31 <= z < 2 ^ 31 -> s32 z = z) by (intros z Hz; apply swrap_id; [lia|exact Hz]).
    rewrite !E in H by lia; rewrite !E by lia.
    run H; apply K in R; apply K in H; lia.
Qed.

Lemma size_pow size : size_ok size -> exists j, 0 <= j <= 3 /\ size = 2 ^ j.
Proof. intros [->|[->|[->| ->]]]; [exists 0|exists 1|exists 2|exists 3]; lia. Qed.

Lemma stack_aligned reg off_ size once e u e' v : type_ reg = PTR_TO_STACK -> reg_inv reg v -> size_ok size -> - 2 ^ 31 <= off reg + off_ < 2 ^ 31 ->
  check_ptr_alignment reg off_ size once e = (inr u, e') -> e' = e /\ (off_ + off reg + s64 v) mod size = 0.
Proof.
  intros T ((Ok & _) & (Tm & _) & _) Hs Ho H; unfold check_ptr_alignment in H; run H; injection R as <- <-; rewrite T in H.
  unfold check_generic_ptr_alignment in H; cbn [negb orb] in H; destruct (Z.eqb_spec size 1) as [->|_]; [injection H as _ <-; split; [reflexivity|apply Z.mod_1_r]|].
  destruct (tnum_is_aligned _ size) eqn:A; cbn [negb] in H; [|discriminate]; injection H as _ <-; split; [reflexivity|].
  destruct (size_pow size Hs) as (j & Hj & ->); rewrite (swrap_id 32) in A by (try lia; exact Ho).
  assert (U : uin 64 (u64 (off reg + off_))) by (apply uwrap_range; lia).
  apply tnum_is_aligned_spec with (x := u64 (v + u64 (off reg + off_))) in A;
    [|lia|apply tnum_add_ok; [exact Ok|apply tnum_const_ok, U]|apply tnum_add_mem; [exact Ok|apply tnum_const_ok, U|exact Tm|apply tnum_const_mem, U]].
  change (uwrap j (off_ + off reg + s64 v) = 0); change (uwrap j (u64 (v + u64 (off reg + off_))) = 0) in A.
  rewrite uwrap_uwrap in A by lia; rewrite <- A; replace (off_ + off reg + s64 v) with (s64 v + (off reg + off_)) by lia.
  destruct (Z.eq_dec j 0) as [->|N]; [unfold uwrap; rewrite !Z.mod_1_r; reflexivity|].
  apply weq_add; [lia|apply weq_swrap; lia|symmetry; apply weq_uwrap; lia].
Qed.

(** ** Register loads *)

Lemma tag_coerce r size : reg_tag (coerce_reg_to_size r size) = reg_tag r.
Proof. unfold coerce_reg_to_size; cbv zeta; destruct (_ =? _), (size >=? 4); rewrite ?tag_combine_64; reflexivity. Qed.

Lemma describes_coerce w ι r size b x : size = 1 \/ size = 2 \/ size = 4 -> 0 <= x < 256 ^ size -> type_ r = SCALAR_VALUE ->
  describes w ι r b x -> describes w ι (coerce_reg_to_size r size) b x.
Proof.
  intros Hs Hx T D; pose proof D as [S _ _ _]; apply (describes_tag w ι r); [apply tag_coerce| |exact D].
  pose proof (type_tag _ _ (tag_coerce r size)) as T'; rewrite T in T'; pose proof (sim_scalar _ _ _ S T) as I; apply (coerce_inv r x size Hs) in I.
  rewrite uwrap_id in I; [|unfold uin; replace (2 ^ (size * 8)) with (256 ^ size) by (destruct Hs as [->|[->| ->]]; reflexivity); exact Hx].
  apply scalar_sim; [apply S|exact I|exact T'].
Qed.

(** Only the register [dst] changes, to describe the value loaded. *)
Lemma machine_load ops w ι e σ m β βs dst e' b v : machine_sim ops w ι e σ m β βs -> regno_ok dst -> only_dst dst e e' -> maps e' = maps e ->
  describes w ι (get_reg e' dst) b v -> machine_sim ops w ι e' (<[Z.to_nat dst := v]> σ) m (upd_base β dst b) βs.
Proof.
  intros [Wf L Rg St Me Mp Wk Lk] D O Em Dv; split; try assumption; try congruence.
  - apply O.
  - rewrite length_insert; exact L.
  - intros r Hr; destruct (Z.eq_dec r dst) as [->|N].
    + exists v; split; [apply get_set_same; [exact L|unfold regno_ok in D; lia]|]; unfold upd_base; rewrite Z.eqb_refl; exact Dv.
    + destruct (Rg r Hr) as (x & Hx & Dx); exists x; split; [rewrite get_set_other by (unfold regno_ok in *; lia); exact Hx|].
      unfold upd_base; destruct (Z.eqb_spec r dst) as [|_]; [contradiction|].
      eapply cs_erase; [symmetry; apply (od_regs dst e e' O); [apply Hr|exact N]|exact Dx].
  - intros k fp Hk; destruct (St k fp Hk) as (A & B & C); split; [rewrite (od_length _ _ _ O); exact A|].
    pose proof (od_stacks dst e e' O k) as E; split; [apply (f_equal length) in E; rewrite !length_fmap in E; lia|].
    intros spi s Hs; apply (f_equal (fun l => l !! spi)) in E; rewrite !list_lookup_fmap, Hs in E.
    destruct (stack (frame_of e k) !! spi) as [s0|] eqn:E0; [|discriminate]; apply (inj Some) in E.
    eapply slot_sim_erase; [exact (describes_cell w ι)|exact E|exact (C spi s0 E0)].
Qed.

(** ** Stores *)

Lemma store_mapped n : forall m a v m', store_bytes m a n v = Some m' -> forall k, (k < n)%nat -> is_Some (m !! u64 (a + Z.of_nat k)).
Proof.
  induction n as [|n IH]; intros m a v m' H k Hk; [lia|]; cbn [store_bytes] in H; destruct (m !! u64 a) as [c|] eqn:Ec; [|discriminate].
  destruct k as [|k]; [rewrite Z.add_0_r, Ec; eauto|]; cbn in H; replace (a + Z.of_nat (S k)) with (a + 1 + Z.of_nat k) by lia.
  destruct (IH _ _ _ _ H k ltac:(lia)) as [d Hd]; destruct (Z.eq_dec (u64 a) (u64 (a + 1 + Z.of_nat k))) as [<-|N]; [eauto|].
  exists d; etrans; [symmetry; apply (lookup_insert_ne m _ _ (v mod 256) N)|exact Hd].
Qed.

Lemma stack_sim_mem desc f m m' fp β : (length (stack f) <= 64)%nat -> (forall i, 0 <= i < MAX_STACK -> byte_at m' fp i = byte_at m fp i) ->
  stack_sim desc f m fp β -> stack_sim desc f m' fp β.
Proof.
  intros L E S spi s Hs; pose proof (lookup_lt_Some _ _ _ Hs); destruct (S spi s Hs) as [Z0 Sp]; split.
  - intros j Hj Tj; rewrite E by lia; auto.
  - intros T0; destruct (Sp T0) as (v & Lv & D); exists v; split; [|exact D].
    rewrite (slot_load_ext m m'); [exact Lv|]; intros j Hj; apply E; lia.
Qed.

(** A store to bytes that are not constant keeps what the world says. *)
Lemma world_store ops w m a n y m' : world_ok ops w m -> store_bytes m a n y = Some m' ->
  (forall i, (i < n)%nat -> w_const w !! u64 (a + Z.of_nat i) = None) -> world_ok ops w m'.
Proof.
  intros [W1 W2 W3 W4 W5 W6 W7] Hst N; destruct (store_keeps _ _ _ _ _ Hst) as [Kd _]; split; try assumption.
  - intros c Hc; split; [apply Kd|]; apply W4, Hc.
  - intros c v Hc; rewrite (store_out _ _ _ _ _ Hst); [apply W5, Hc|]; intros i Hi ->; rewrite N in Hc by exact Hi; discriminate.
  - intros k fp Hk i Hi; destruct (W6 k fp Hk i Hi) as (A & B); split; [apply Kd, A|exact B].
Qed.

Lemma only_stack_wf k e e' : only_stack k e e' -> env_wf e -> env_wf e'.
Proof.
  intros O [A B]; split; [rewrite (os_curframe k e e' O), (os_length k e e' O); exact A|]; rewrite <- B; unfold cur_regs, cur_func.
  rewrite (os_curframe k e e' O); set (c := curframe (cur_state e)).
  assert (E : erase_reg <$> regs (frame_of e' c) = erase_reg <$> regs (frame_of e c)).
  { destruct (decide (c = k)) as [->|N]; [exact (os_regs k e e' O)|exact (f_equal regs (os_others k e e' O c N))]. }
  apply (f_equal length) in E; rewrite !length_fmap in E; exact E.
Qed.

Definition upd_frame_base (βs : nat -> nat -> Z) (k : nat) (β' : nat -> Z) : nat -> nat -> Z := fun j => if (j =? k)%nat then β' else βs j.

(** The store stays in frame [k] and only its slots change. *)
Lemma machine_store ops w ι e σ m β βs k fp o n y m' e' β' : machine_sim ops w ι e σ m β βs -> w_fps w !! k = Some fp ->
  - MAX_STACK <= o -> o + Z.of_nat n <= 0 -> store_bytes m (fp + o) n y = Some m' -> only_stack k e e' -> maps e' = maps e ->
  good (describes w ι) k fp e' m' β' -> machine_sim ops w ι e' σ m' β (upd_frame_base βs k β').
Proof.
  intros [Wf L Rg St Me Mp Wk Lk] Hk Lo Hi Hst O Em G.
  assert (Ea : forall q, (q < n)%nat -> fp + o + Z.of_nat q = fp - 1 - (- o - 1 - Z.of_nat q) /\ 0 <= - o - 1 - Z.of_nat q < MAX_STACK) by (intros; lia).
  split; [eapply only_stack_wf; eassumption|exact L| | |apply (store_keeps _ _ _ _ _ Hst), Me|congruence| |exact Lk].
  - intros r Hr; destruct (Rg r Hr) as (x & Hx & D); exists x; split; [exact Hx|].
    eapply (only_stack_sim (describes w ι)); [exact O|exact D].
  - intros j fj Hj; unfold upd_frame_base; destruct (Nat.eqb_spec j k) as [->|N]; [rewrite Hk in Hj; injection Hj as <-; exact G|].
    destruct (St j fj Hj) as (A & B & C); split; [rewrite (os_length _ _ _ O); exact A|].
    pose proof (os_others _ _ _ O j N) as E; split; [apply (f_equal (fun f => length (stack f))) in E; cbn in E; rewrite !length_fmap in E; lia|].
    eapply (stack_sim_erase (describes w ι)); [symmetry; exact E|]; eapply stack_sim_mem; [exact B| |exact C].
    intros i Hi'; unfold byte_at; apply (store_out _ _ _ _ _ Hst); intros q Hq; destruct (Ea q Hq) as [-> Hq'].
    apply (wk_disjoint _ _ _ Wk j k fj fp Hj Hk N); assumption.
  - eapply world_store; [exact Wk|exact Hst|]; intros q Hq; destruct (Ea q Hq) as [-> Hq']; apply (wk_mapped _ _ _ Wk k fp Hk _ Hq').
Qed.

(** The store goes to bytes that belong to the program, outside of its stack. *)
Lemma machine_store_owned ops w ι e σ m β βs a n y m' : machine_sim ops w ι e σ m β βs -> owned w a (Z.of_nat n) ->
  store_bytes m a n y = Some m' -> machine_sim ops w ι e σ m' β βs.
Proof.
  intros [Wf L Rg St Me Mp Wk Lk] Ow Hst; split; [exact Wf|exact L|exact Rg| |apply (store_keeps _ _ _ _ _ Hst), Me|exact Mp| |exact Lk].
  - intros k fp Hk; destruct (St k fp Hk) as (A & B & C); split; [exact A|split; [exact B|]]; eapply stack_sim_mem; [exact B| |exact C].
    intros i Hi; unfold byte_at; apply (store_out _ _ _ _ _ Hst); intros q Hq E.
    apply (wk_mapped _ _ _ Wk k fp Hk i Hi); rewrite E; apply Ow; lia.
  - eapply world_store; [exact Wk|exact Hst|]; intros i Hi; apply (wk_region _ _ _ Wk), Ow; lia.
Qed.

(** ** Accepted accesses *)

Definition msize_Z (sz : msize) : Z := Z.of_nat (msize_bytes sz).

Lemma msize_ok sz : size_ok (msize_Z sz) /\ bpf_size_to_bytes (size_code sz) = msize_Z sz /\ Z.to_nat (msize_Z sz) = msize_bytes sz.
Proof. unfold size_ok, msize_Z; destruct sz; cbn; lia. Qed.

Lemma alignment_env reg off_ size once e u e' : check_ptr_alignment reg off_ size once e = (inr u, e') -> e' = e.
Proof.
  unfold check_ptr_alignment, check_pkt_ptr_alignment, check_generic_ptr_alignment; intros H; run H; injection R as <- <-.
  destruct (type_ reg); repeat match type of H with (if ?c then _ else _) _ = _ => destruct c end; try discriminate; injection H as _ <-; reflexivity.
Qed.

Lemma load_mono (m m' : memory) n : (forall a c, m !! a = Some c -> m' !! a = Some c) -> forall a v, load_bytes m a n = Some v -> load_bytes m' a n = Some v.
Proof.
  intros S; induction n as [|n IH]; intros a v H; cbn [load_bytes] in *; [exact H|].
  destruct (m !! u64 a) as [c|] eqn:E; [|discriminate]; rewrite (S _ _ E); cbn in *.
  destruct (load_bytes m (a + 1) n) as [r|] eqn:L; [|discriminate]; rewrite (IH _ _ L); exact H.
Qed.

Section Access.
Context (ops : access_ops) (w : world) (ι : links) (e : bpf_verifier_env) (σ : list Z) (m : memory) (β : Z -> Z) (βs : nat -> nat -> Z).
Context (M : machine_sim ops w ι e σ m β βs) (regno off_ : Z) (sz : msize) (Hr : regno_ok regno) (Ho : - 2 ^ 15 <= off_ < 2 ^ 15).

Abbreviation reg := (get_reg e regno).
Abbreviation size := (msize_Z sz).

(** The pointer: its base [b], its value [x] and its variable part [v]. *)
Record pointer (b x v : Z) : Prop := mk_pointer {
  pt_get : reg_get σ regno = Some x;
  pt_inv : reg_inv reg v;
  pt_sane : check_reg_sane_offset reg = true;
  pt_to : points_to w ι reg b x;
  pt_addr : u64 (x + off_) = u64 (b + (off_ + off reg + s64 v));
  pt_off : s32 (off_ + off reg) = off_ + off reg /\ - 2 ^ 30 <= off_ + off reg <= 2 ^ 30 /\ sin 32 (off_ + off reg)
}.

Lemma plain_cases t : plain_pointer t = true -> t = PTR_TO_STACK \/ t = PTR_TO_MAP_VALUE \/ t = PTR_TO_MEM \/ t = PTR_TO_PACKET \/ t = PTR_TO_PACKET_META.
Proof using. destruct t; intros H; try discriminate H; auto. Qed.

Lemma plain_sim r b x : plain_pointer (type_ r) = true -> reg_sim r b x -> exists v, reg_inv r v /\ x = u64 (b + off r + v).
Proof using. intros P [_ S]; destruct (plain_cases _ P) as [T|[T|[T|[T|T]]]]; rewrite T in S; apply S. Qed.

Lemma pointer_of : plain_pointer (type_ reg) = true -> check_reg_sane_offset reg = true -> exists b x v, pointer b x v.
Proof using M Hr Ho.
  intros P Sn; destruct (ms_regs M regno Hr) as (x & Hx & D); pose proof (points_plain _ _ _ _ _ P D) as To; destruct (plain_sim _ _ _ P (ds_sim _ _ _ _ _ D)) as (v & I & Ex).
  exists (β regno), x, v; destruct (sane_bounds _ v Sn I) as (B & _); split; try assumption.
  - rewrite Ex; replace (β regno + (off_ + off reg + s64 v)) with ((β regno + off reg + s64 v) + off_) by lia.
    apply (weq_add 64); [lia| |reflexivity]; etrans; [apply weq_uwrap; lia|]; apply weq_add; [lia|reflexivity|symmetry; apply weq_swrap; lia].
  - split; [apply swrap_id; [lia|unfold sin; lia]|unfold sin; lia].
Qed.

(** The last step of [check_mem_access]. *)
Definition access_tail (t : bpf_access_type) (value_regno : Z) : verifier unit :=
  env ← get;
  when ((size <? BPF_REG_SIZE) && (value_regno >=? 0) && bool_decide (t = BPF_READ) && type_eqb (type_ (get_reg env value_regno)) SCALAR_VALUE)
    (upd_reg value_regno (fun r => coerce_reg_to_size r size)).

Lemma access_split idx t value_regno once u e' b x v : pointer b x v ->
  check_mem_access ops idx regno off_ (size_code sz) t value_regno once e = (inr u, e') ->
  exists u1 e1, access_by_type ops idx reg regno (off_ + off reg) size t value_regno e = (inr u1, e1) /\ access_tail t value_regno e1 = (inr u, e') /\
    (type_ reg = PTR_TO_STACK -> (off_ + off reg + s64 v) mod size = 0).
Proof using.
  intros P H; destruct (msize_ok sz) as (Hs & Es & _); unfold check_mem_access in H; run H; injection R as <- <-; rewrite Es in H.
  destruct (Z.ltb_spec size 0) as [N|_]; [destruct Hs as [E|[E|[E|E]]]; lia|]; destruct (pt_off _ _ _ P) as (Eo & Bo & _).
  run H; pose proof (alignment_env _ _ _ _ _ _ _ R) as ->; run H; rewrite Eo in R0; exists a0, env; split; [exact R0|split; [exact H|]].
  intros T; apply (stack_aligned _ _ _ _ _ _ _ v) in R as [_ Al]; [exact Al|exact T|apply P|exact Hs|lia].
Qed.

(** ** Regions *)

(** An access at [o] from the base, within [n] bytes. *)
Definition within (o n : Z) : Prop := 0 <= o /\ o + size <= n.

Lemma owned_sub a n o : owned w a n -> within o n -> owned w (a + o) size.
Proof using. intros O [A B] i Hi; rewrite <- Z.add_assoc; apply O; lia. Qed.

Lemma owned_load a : owned w a size -> is_Some (load_bytes m a (msize_bytes sz)).
Proof using M. intros O; apply load_is_some; intros i Hi; apply (wk_region _ _ _ (ms_world M)), O; unfold msize_Z; lia. Qed.

(** The size of the object, when the code checks it against a base. *)
Definition object_size (r : bpf_reg_state) : Z :=
  match type_ r with
  | PTR_TO_MAP_VALUE => value_size (w_maps w !!! raw r)
  | PTR_TO_MEM => mem_size r
  | _ => 0
  end.

Lemma get_reg_cur e1 r : cur_state e1 = cur_state e -> get_reg e1 r = get_reg e r.
Proof using. unfold get_reg, cur_regs, cur_func; intros ->; reflexivity. Qed.

(** ** Reads *)

(** After the access the register [dst] describes what the machine loads. *)
Definition loaded (dst x : Z) (e1 : bpf_verifier_env) : Prop :=
  exists y b, load_bytes m (x + off_) (msize_bytes sz) = Some y /\ only_dst dst e e1 /\ describes w ι (get_reg e1 dst) b y.

Lemma unknown_loaded dst x e0 u e1 : regno_ok dst -> cur_state e0 = cur_state e -> is_Some (load_bytes m (x + off_) (msize_bytes sz)) ->
  mark_reg_unknown dst e0 = (inr u, e1) -> loaded dst x e1.
Proof using M.
  intros D E [y Ly] H; exists y, 0; split; [exact Ly|]; destruct (msize_ok sz) as (Hs & _ & Ez); rewrite <- Ez in Ly.
  pose proof (cur_only_dst dst e e0 (ms_wf M) E) as O.
  eapply dst_step; [exact O|]; eapply (dst_unknown (describes w ι)); [apply O|exact D|apply (loaded_range size m (x + off_) y (ms_mem M) Hs Ly)|exact H].
Qed.

Lemma read_unknown_loaded dst x mm u e1 : regno_ok dst -> (forall u0 e0, mm e = (inr u0, e0) -> cur_state e0 = cur_state e /\ is_Some (load_bytes m (x + off_) (msize_bytes sz))) ->
  read_unknown BPF_READ dst mm e = (inr u, e1) -> loaded dst x e1.
Proof using M.
  intros D Hm H; unfold read_unknown in H; run H; destruct (Hm _ _ R) as [E L].
  rewrite bool_decide_eq_true_2 in H by reflexivity; replace (dst >=? 0) with true in H by (symmetry; apply Z.geb_le, D); cbn [andb when] in H.
  eapply unknown_loaded; eassumption.
Qed.

Lemma leaks_read value_regno u e1 : leaks BPF_READ value_regno e = (inr u, e1) -> u = false /\ e1 = e.
Proof using. unfold leaks; rewrite bool_decide_eq_false_2 by discriminate; intros H; injection H as <- <-; auto. Qed.

Lemma owned_loaded x a o n : u64 (x + off_) = u64 (a + o) -> owned w a n -> within o n -> is_Some (load_bytes m (x + off_) (msize_bytes sz)).
Proof using M. intros E O Wi; rewrite (load_mod _ _ _ _ E); apply owned_load; eapply owned_sub; eassumption. Qed.

(** What the bounds checks establish. *)
Lemma region_window b x v n z u e1 : pointer b x v -> uin 32 n ->
  check_mem_region_access regno (off_ + off reg) size n z e = (inr u, e1) -> e1 = e /\ within (off_ + off reg + s64 v) n.
Proof using.
  intros P Hn H; destruct (pt_inv _ _ _ P) as (Ok & Mm & _); destruct (pt_off _ _ _ P) as (_ & _ & So); destruct (msize_ok sz) as (Hs & _).
  apply (region_ok regno (off_ + off reg) size n z e u e1 v) in H as (-> & A & B & _ & _ & _ & Ev & Bv); trivial.
  - split; [reflexivity|]; rewrite Ev; unfold within; lia.
  - destruct Hs as [E|[E|[E|E]]]; rewrite E; unfold sin; lia.
Qed.

Lemma map_window b x v u e1 : pointer b x v -> type_ reg = PTR_TO_MAP_VALUE ->
  check_map_access regno (off_ + off reg) size false e = (inr u, e1) -> e1 = e /\ within (off_ + off reg + s64 v) (value_size (w_maps w !!! raw reg)).
Proof using M.
  intros P T H; destruct (pt_inv _ _ _ P) as (Ok & Mm & _); destruct (pt_off _ _ _ P) as (_ & _ & So); destruct (msize_ok sz) as (Hs & _).
  destruct (wk_maps _ _ _ (ms_world M) (raw reg)) as [V1 V2]; rewrite <- (ms_maps M) in V1, V2 |- *.
  apply (map_access_ok regno (off_ + off reg) size false e u e1 v) in H as (-> & A & B & _); trivial.
  - split; [reflexivity|split; [exact A|exact B]].
  - destruct Hs as [E|[E|[E|E]]]; rewrite E; unfold sin; lia.
Qed.

Lemma packet_window u e1 b x v : pointer b x v -> check_packet_access regno (off_ + off reg) size false e = (inr u, e1) ->
  cur_state e1 = cur_state e /\ 0 <= s64 v /\ within (off_ + off reg) (range reg).
Proof using.
  intros P H; destruct (pt_off _ _ _ P) as (_ & _ & So); destruct (msize_ok sz) as (Hs & _); unfold check_packet_access in H.
  run H; injection R as <- <-; match type of H with (if ?c then _ else _) _ = _ => destruct c eqn:Sm; [discriminate|] end; run H; apply Z.ltb_ge in Sm.
  pose proof (pt_inv _ _ _ P) as (_ & (_ & (Bs & _) & _) & _); cbn in Bs.
  apply check_mem_ok in R as (A & B & C & _ & ->); [injection H as _ <-; split; [reflexivity|split; [lia|split; assumption]]|exact So| |].
  - destruct Hs as [E|[E|[E|E]]]; rewrite E; unfold sin; lia.
  - unfold range; pose proof (uwrap_range 16 (raw reg) ltac:(lia)); unfold uin in *; lia.
Qed.

(** ** The stack *)

(** The offset [o] from the frame pointer [fp]: inside the frame and aligned. *)
Record stack_access (b v : Z) : Prop := mk_stack_access {
  sa_good : good (describes w ι) (func reg) b e m (βs (func reg));
  sa_fp : w_fps w !! func reg = Some b;
  sa_ok : access_ok (off_ + off reg + s64 v) size;
  sa_top : off_ + off reg + s64 v + size <= 0;
  sa_window : if tnum_is_const (var_off reg) then s32 (off_ + off reg + value (var_off reg)) = off_ + off reg + s64 v
    else s32 (smin_value reg + (off_ + off reg)) = smin_value reg + (off_ + off reg) /\
         s32 (smax_value reg + (off_ + off reg)) = smax_value reg + (off_ + off reg) /\
         s32 (smax_value reg + (off_ + off reg) + size) = smax_value reg + (off_ + off reg) + size /\
         - MAX_STACK <= smin_value reg + (off_ + off reg) /\ smin_value reg + (off_ + off reg) <= off_ + off reg + s64 v <= smax_value reg + (off_ + off reg) /\
         smax_value reg + (off_ + off reg) + size <= 0
}.

Lemma stack_checked b x v idx t value_regno u e1 : pointer b x v -> type_ reg = PTR_TO_STACK -> (off_ + off reg + s64 v) mod size = 0 ->
  access_stack idx reg regno (off_ + off reg) size t value_regno e = (inr u, e1) ->
  stack_access b v /\ exists e0, cur_state e0 = cur_state e /\
    (if bool_decide (t = BPF_READ) then check_stack_read regno (off_ + off reg) size value_regno
     else check_stack_write regno (off_ + off reg) size value_regno idx) e0 = (inr u, e1).
Proof using M.
  intros P T Al H; destruct (msize_ok sz) as (Hs & _); pose proof (pt_to _ _ _ P) as Fp; unfold points_to in Fp; rewrite T in Fp.
  pose proof (ms_stacks M _ _ Fp) as G; unfold access_stack in H; run H; pose proof (within_bounds_env _ _ _ _ _ _ _ R) as ->.
  destruct (pt_off _ _ _ P) as (_ & Bo & _); apply (stack_window _ _ _ _ _ _ _ v) in R as (W1 & W2 & W3); [|apply P|apply P|exact Bo|exact Hs|apply G].
  run H; apply depth_cur in R; split; [|exists env; split; [exact R|exact H]].
  split; [exact G|exact Fp|split; [exact Hs|split; [split; [exact W1|destruct Hs as [E|[E|[E|E]]]; lia]|exact Al]]|exact W2|exact W3].
Qed.

Lemma stack_mapped b v i : stack_access b v -> (i < msize_bytes sz)%nat -> is_Some (m !! u64 (b + (off_ + off reg + s64 v) + Z.of_nat i)).
Proof using M.
  intros A Hi; set (o := off_ + off reg + s64 v); destruct (sa_ok _ _ A) as (_ & B & _); pose proof (sa_top _ _ A) as Tp; unfold msize_Z in Tp; fold o in B, Tp.
  destruct (wk_mapped _ _ _ (ms_world M) _ _ (sa_fp _ _ A) (- o - 1 - Z.of_nat i) ltac:(lia)) as [X _]; unfold byte_at in X.
  replace (b + o + Z.of_nat i) with (b - 1 - (- o - 1 - Z.of_nat i)) by lia; exact X.
Qed.

Lemma read_stack b x v dst idx u e1 : pointer b x v -> type_ reg = PTR_TO_STACK -> (off_ + off reg + s64 v) mod size = 0 -> regno_ok dst ->
  access_stack idx reg regno (off_ + off reg) size BPF_READ dst e = (inr u, e1) -> loaded dst x e1.
Proof using M.
  intros P T Al D H; destruct (stack_checked b x v _ _ _ _ _ P T Al H) as (A & e0 & E0 & R); clear H.
  rewrite bool_decide_eq_true_2 in R by reflexivity; set (o := off_ + off reg + s64 v) in *.
  destruct (proj2 (load_is_some m (msize_bytes sz) (b + o)) (fun i => stack_mapped b v i A)) as [y Ly].
  pose proof (cur_only_dst dst e e0 (ms_wf M) E0) as O1; pose proof (good_cur _ _ _ e e0 m _ E0 (sa_good _ _ A)) as G1.
  destruct (msize_ok sz) as (Hs & _ & Ez); unfold loaded; rewrite (load_mod _ _ _ _ (pt_addr _ _ _ P)); fold o; rewrite <- Ez in *.
  unfold check_stack_read in R; run R; injection R0 as <- <-; run R; injection R0 as <- <-; rewrite (get_reg_cur e0 regno E0) in R.
  match type of R with (if ?c then _ else _) _ = _ => destruct c; [discriminate|] end.
  match type of R with (if ?c then _ else _) _ = _ => destruct c; [discriminate|] end.
  pose proof (sa_window _ _ A) as W; fold o in W; destruct (tnum_is_const (var_off reg)) eqn:K; cbn [negb] in R.
  - rewrite W in R; exists y, (βs (func reg) (slot_spi (- o - 1))); split; [exact Ly|]; eapply dst_step; [exact O1|].
    eapply (read_fixed_sound (describes w ι)); [exact G1|exact (ms_mem M)|apply O1|apply A|exact D|exact Ly|exact R].
  - destruct W as (W1 & W2 & _ & W4 & W5 & W6); exists y, 0; split; [exact Ly|]; eapply dst_step; [exact O1|].
    eapply (read_var_sound (describes w ι)); [exact G1|exact (ms_mem M)|apply O1|exact D|rewrite (get_reg_cur e0 regno E0); reflexivity| |exact Hs| | | |exact Ly|exact R];
      rewrite (get_reg_cur e0 regno E0); [exact K|rewrite W1; apply W5|rewrite W2; apply W5|rewrite W2; exact W6].
Qed.

(** ** Map values and other regions *)

Lemma value_load b o i : w_value w i b -> within o (value_size (w_maps w !!! i)) -> is_Some (load_bytes m (b + o) (msize_bytes sz)).
Proof using M.
  intros V Wi; pose proof (wk_values _ _ _ (ms_world M) i b V) as Hv; cbn zeta in Hv; destruct (bpf_map_is_rdonly _).
  - apply load_is_some; intros j Hj; destruct Wi as [A B]; unfold msize_Z in B.
    destruct (Hv (o + Z.of_nat j) ltac:(lia)) as [c Hc]; rewrite Z.add_assoc in Hc; exists c; apply (wk_const _ _ _ (ms_world M)), Hc.
  - apply owned_load; eapply owned_sub; eassumption.
Qed.

Lemma map_type_env t u e1 : check_map_access_type regno t e = (inr u, e1) ->
  e1 = e /\ (t = BPF_WRITE -> bpf_map_is_rdonly (map_of e (raw reg)) = false).
Proof using.
  unfold check_map_access_type; intros H; run H; injection R as <- <-; run H; injection R as <- <-.
  destruct (bool_decide (t = BPF_WRITE) && _) eqn:C; [discriminate|]; destruct (bool_decide (t = BPF_READ) && _); [discriminate|]; injection H as _ <-.
  split; [reflexivity|]; intros ->; rewrite bool_decide_eq_true_2 in C by reflexivity; cbn [andb] in C; revert C.
  unfold bpf_map_flags_to_cap, bpf_map_is_rdonly; set (fl := map_flags _).
  replace (fl .& (2 ^ 7 .| 2 ^ 8) .& 2 ^ 7) with (fl .& 2 ^ 7) by (rewrite <- Z.land_assoc; reflexivity).
  destruct (fl .& 2 ^ 7 =? 0); cbn [negb]; [reflexivity|discriminate].
Qed.

Lemma read_map_value b x v dst u e1 : pointer b x v -> type_ reg = PTR_TO_MAP_VALUE -> regno_ok dst ->
  access_map_value ops reg regno (off_ + off reg) size BPF_READ dst e = (inr u, e1) -> loaded dst x e1.
Proof using M.
  intros P T D H; unfold access_map_value in H; run H; apply leaks_read in R as [-> ->]; cbn iota in H; run H; apply map_type_env in R as [-> _]; run H.
  apply (map_window b x v) in R as [-> Wi]; [|exact P|exact T]; run H; injection R as <- <-; set (o := off_ + off reg + s64 v) in *.
  rewrite bool_decide_eq_true_2 in H by reflexivity; replace (dst >=? 0) with true in H by (symmetry; apply Z.geb_le, D); cbn [andb when] in H.
  pose proof (pt_to _ _ _ P) as V; unfold points_to in V; rewrite T in V; destruct (value_load b o _ V Wi) as [y Ly].
  assert (Ly' : load_bytes m (x + off_) (msize_bytes sz) = Some y) by (rewrite (load_mod _ _ _ _ (pt_addr _ _ _ P)); exact Ly).
  unfold map_of in H; rewrite (ms_maps M) in H; set (map := w_maps w !!! raw reg) in *.
  match type of H with (if ?c then _ else _) _ = _ => destruct c eqn:C end; [|eapply unknown_loaded; [exact D|reflexivity|eauto|exact H]].
  apply andb_true_iff in C as [C F]; apply andb_true_iff in C as [K Rd]; unfold bpf_map_direct_read in H; destruct (map_direct_value_addr ops _) as [f|] eqn:Ef; [|discriminate].
  destruct (sane_bounds _ v (pt_sane _ _ _ P) (pt_inv _ _ _ P)) as (_ & _ & _ & B4); destruct (B4 K) as [Ev Bv]; destruct (pt_off _ _ _ P) as (_ & Bo & _).
  assert (Eo : s32 (off_ + off reg + value (var_off reg)) = o).
  { rewrite <- Ev, <- (swrap_id 32 o) by (unfold o, sin; lia); apply swrap_weq; [lia|]; apply weq_add; [lia|reflexivity|symmetry; apply weq_swrap; lia]. }
  rewrite Eo in H; run H; destruct (f map o) as [err|addr] eqn:Fo; [discriminate|].
  match type of R with (if ?c then _ else _) _ = _ => destruct c; [|discriminate] end; injection R as <- <-; run H; injection R as _ <-; injection H as _ <-.
  destruct (msize_ok sz) as (Hs & _ & Ez); pose proof (wk_direct _ _ _ (ms_world M) _ b f o addr size V Rd Ef Fo Hs (proj1 Wi) (proj2 Wi)) as Ld.
  apply (load_mono _ m) in Ld; [|exact (wk_const _ _ _ (ms_world M))]; rewrite Ez, Ly in Ld; injection Ld as <-.
  exists y, 0; split; [exact Ly'|]; rewrite <- Ez in Ly; destruct (loaded_range size m _ y (ms_mem M) Hs Ly) as [U _].
  pose proof (put_only_dst dst e (set_type (get_reg e dst) SCALAR_VALUE) (ms_wf M) (proj1 D)) as O1; eapply dst_step; [exact O1|].
  apply (dst_put (describes w ι)); [apply O1|exact D|apply cs_scalar]; [rewrite get_put_same by (try apply (ms_wf M); exact D); reflexivity|reflexivity|apply mark_known_inv, U|exact U].
Qed.

Lemma read_mem b x v dst u e1 : pointer b x v -> type_ reg = PTR_TO_MEM -> regno_ok dst ->
  read_unknown BPF_READ dst (check_mem_region_access regno (off_ + off reg) size (mem_size reg) false) e = (inr u, e1) -> loaded dst x e1.
Proof using M.
  intros P T D H; eapply read_unknown_loaded; [exact D| |exact H]; intros u0 e0 R.
  apply (region_window b x v) in R as [-> Wi]; [|exact P|apply uwrap_range; lia]; split; [reflexivity|].
  pose proof (pt_to _ _ _ P) as V; unfold points_to in V; rewrite T in V; eapply owned_loaded; [exact (pt_addr _ _ _ P)|exact V|exact Wi].
Qed.

(** The part of the packet behind the pointer, as bytes from a base. *)
Lemma packet_room b x v : pointer b x v -> type_is_pkt_pointer (type_ reg) = true -> 0 < range reg -> exists n, owned w b n /\ s64 v + range reg <= n.
Proof using M.
  intros P T Rp; pose proof (pt_to _ _ _ P) as V; unfold points_to in V; destruct (wk_packet _ _ _ (ms_world M)) as (W1 & W2 & _ & W4).
  assert (K : exists base n, pkt_points ι reg b x base n /\ owned w base n).
  { destruct (type_ reg); try discriminate T; eexists _, _; (split; [exact V|]); intros i Hi.
    - apply W4; lia.
    - replace (w_data w + i) with (w_meta w + (w_data w - w_meta w + i)) by lia; apply W4; lia. }
  destruct K as (base & n & (-> & Ex & Hn) & Ow); exists n; split; [exact Ow|].
  assert (E : s64 v = l_var ι (id reg)).
  { pose proof (lk_var _ (ms_links M) (id reg)) as Lv; rewrite <- (swrap_id 64 _ ltac:(lia) Lv), <- (swrap_id 64 (s64 v)) by (try apply swrap_range; lia).
    apply swrap_weq; [lia|]; pose proof (pt_addr _ _ _ P) as Ea; rewrite Ex in Ea; change (weq 64 (u64 (base + off reg + l_var ι (id reg)) + off_) (base + (off_ + off reg + s64 v))) in Ea.
    replace (s64 v) with (base + (off_ + off reg + s64 v) - (base + off_ + off reg)) by lia.
    replace (l_var ι (id reg)) with (base + off reg + l_var ι (id reg) + off_ - (base + off_ + off reg)) by lia.
    apply weq_sub; [lia| |reflexivity]; etrans; [symmetry; exact Ea|]; apply weq_add; [lia|apply weq_uwrap; lia|reflexivity]. }
  rewrite E; exact (Hn Rp).
Qed.

Lemma packet_owned b x v : pointer b x v -> type_is_pkt_pointer (type_ reg) = true -> 0 <= s64 v -> within (off_ + off reg) (range reg) ->
  exists n, owned w b n /\ within (off_ + off reg + s64 v) n.
Proof using M.
  intros P T V0 [A B]; destruct (msize_ok sz) as (Hs & _); assert (Rp : 0 < range reg) by (destruct Hs as [X|[X|[X|X]]]; lia).
  destruct (packet_room b x v P T Rp) as (n & Ow & Hn); exists n; split; [exact Ow|split; lia].
Qed.

Lemma read_packet b x v dst u e1 : pointer b x v -> type_is_pkt_pointer (type_ reg) = true -> regno_ok dst ->
  read_unknown BPF_READ dst (check_packet_access regno (off_ + off reg) size false) e = (inr u, e1) -> loaded dst x e1.
Proof using M.
  intros P T D H; eapply read_unknown_loaded; [exact D| |exact H]; intros u0 e0 R.
  apply (packet_window _ _ b x v P) in R as (E & V0 & Wi); split; [exact E|]; destruct (packet_owned b x v P T V0 Wi) as (n & Ow & Wn).
  eapply owned_loaded; [exact (pt_addr _ _ _ P)|exact Ow|exact Wn].
Qed.

(** ** Loads *)

Lemma load_step dst idx once u e' : regno_ok dst -> usable reg = true ->
  check_mem_access ops idx regno off_ (size_code sz) BPF_READ dst once e = (inr u, e') ->
  exists x y β', reg_get σ regno = Some x /\ load_bytes m (x + off_) (msize_bytes sz) = Some y /\
    machine_sim ops w ι e' (<[Z.to_nat dst := y]> σ) m β' βs.
Proof using M Hr Ho.
  intros D Us H; apply andb_true_iff in Us as [Pl Sn]; pose proof (program_maps _ _ (fixes_run _ _ _ _ _ (program_mem_access ops idx regno off_ (size_code sz) BPF_READ dst once) H)) as Em.
  destruct (pointer_of Pl Sn) as (b & x & v & P); destruct (access_split _ _ _ _ _ _ b x v P H) as (u1 & e1 & R & Ht & Al); clear H.
  assert (X : loaded dst x e1).
  { unfold access_by_type in R; rewrite bool_decide_eq_false_2 in R by discriminate.
    assert (NL : forall mm, (leak ← leaks BPF_READ dst; if (leak : bool) then fail (- EACCES) else mm) e = (inr u1, e1) -> mm e = (inr u1, e1)).
    { intros mm Q; run Q; apply leaks_read in R0 as [-> ->]; exact Q. }
    destruct (plain_cases _ Pl) as [T|[T|[T|[T|T]]]]; rewrite T in R.
    - eapply read_stack; [exact P|exact T|exact (Al T)|exact D|exact R].
    - eapply read_map_value; [exact P|exact T|exact D|exact R].
    - eapply read_mem; [exact P|exact T|exact D|exact (NL _ R)].
    - run R; injection R0 as <- <-; cbn [negb] in R; eapply read_packet; [exact P|rewrite T; reflexivity|exact D|exact (NL _ R)].
    - run R; injection R0 as <- <-; cbn [negb] in R; eapply read_packet; [exact P|rewrite T; reflexivity|exact D|exact (NL _ R)]. }
  destruct X as (y & b' & Ly & O & Dy); exists x, y, (upd_base β dst b'); split; [apply P|split; [exact Ly|]].
  destruct (msize_ok sz) as (Hs & _ & Ez); rewrite <- Ez in Ly; destruct (loaded_range size m _ y (ms_mem M) Hs Ly) as [_ By].
  apply (machine_load ops w ι e σ m β βs dst e' _ y M D); [|exact Em|]; unfold access_tail in Ht; run Ht; injection R0 as <- <-.
  - unfold when in Ht; match type of Ht with (if ?c then _ else _) _ = _ => destruct c end; injection Ht as _ <-; [|exact O].
    eapply only_dst_trans; [exact O|apply put_only_dst; [apply O|apply D]].
  - unfold when in Ht; match type of Ht with (if ?c then _ else _) _ = _ => destruct c eqn:C end; injection Ht as _ <-; [|exact Dy].
    rewrite get_put_same by (try apply O; exact D); rewrite !andb_true_iff in C; destruct C as [[[C _] _] Cs]; apply Z.ltb_lt in C.
    apply describes_coerce; [destruct Hs as [E|[E|[E|E]]]; rewrite E in *; auto; lia|exact By| |exact Dy].
    unfold type_eqb in Cs; destruct (bpf_reg_type_eq_dec _ _); [assumption|discriminate].
Qed.

(** ** Stores *)

Section Write.
Context (value_regno y by_ : Z) (Hv : 0 <= value_regno -> describes w ι (get_reg e value_regno) by_ y).

(** After the access the verifier state describes the memory after the store. *)
Definition stored (x : Z) (e1 : bpf_verifier_env) : Prop :=
  exists m' βs', store_bytes m (x + off_) (msize_bytes sz) y = Some m' /\
    forall e', cur_state e' = cur_state e1 -> maps e' = maps e -> machine_sim ops w ι e' σ m' β βs'.

Lemma owned_stored x a o n e1 : u64 (x + off_) = u64 (a + o) -> owned w a n -> within o n -> cur_state e1 = cur_state e -> stored x e1.
Proof using M.
  intros E O Wi Ec; assert (O' : owned w (a + o) size) by (eapply owned_sub; eassumption).
  destruct (store_is_some (msize_bytes sz) m (a + o) y) as [m' Hst].
  { intros i Hi; apply (wk_region _ _ _ (ms_world M)), O'; unfold msize_Z; lia. }
  exists m', βs; split; [rewrite (store_mod _ _ _ _ _ E); exact Hst|]; intros e' Ec' Em.
  eapply machine_cur; [rewrite Ec', Ec; reflexivity|exact Em|]; eapply machine_store_owned; [exact M|exact O'|exact Hst].
Qed.

Lemma write_stack b x v idx u e1 : pointer b x v -> type_ reg = PTR_TO_STACK -> (off_ + off reg + s64 v) mod size = 0 ->
  access_stack idx reg regno (off_ + off reg) size BPF_WRITE value_regno e = (inr u, e1) -> stored x e1.
Proof using M Hv.
  intros P T Al H; destruct (stack_checked b x v _ _ _ _ _ P T Al H) as (A & e0 & E0 & R); clear H.
  rewrite bool_decide_eq_false_2 in R by discriminate; set (o := off_ + off reg + s64 v) in *.
  destruct (store_is_some (msize_bytes sz) m (b + o) y (fun i => stack_mapped b v i A)) as [m' Hst].
  pose proof (good_cur _ _ _ e e0 m _ E0 (sa_good _ _ A)) as G1; destruct (msize_ok sz) as (Hs & _ & Ez).
  assert (Hv1 : 0 <= value_regno -> describes w ι (get_reg e0 value_regno) by_ y) by (rewrite (get_reg_cur e0 value_regno E0); exact Hv).
  assert (X : exists β', good (describes w ι) (func reg) b e1 m' β' /\ only_stack (func reg) e0 e1).
  { unfold check_stack_write in R; run R; injection R0 as <- <-; rewrite (get_reg_cur e0 regno E0) in R; rewrite <- Ez in Hst.
    pose proof (sa_window _ _ A) as W; fold o in W; destruct (tnum_is_const (var_off reg)) eqn:K.
    - rewrite W in R; eexists; exact (write_fixed_sound (describes w ι) _ _ _ _ _ _ _ _ _ _ _ _ by_ y G1 (sa_ok _ _ A) Hv1 Hst R).
    - destruct W as (W1 & W2 & W3 & W4 & W5 & W6); exists (βs (func reg)).
      apply (write_var_sound (describes w ι) (func reg) regno (off_ + off reg) size value_regno e0 u e1 m m' b (βs (func reg)) by_ y o);
        rewrite ?(get_reg_cur e0 regno E0), ?W1, ?W3; auto; [exact (ms_mem M)|destruct Hs as [E|[E|[E|E]]]; lia|lia|lia]. }
  destruct X as (β' & G2 & O2); exists m', (upd_frame_base βs (func reg) β'); split; [rewrite (store_mod _ _ _ _ _ (pt_addr _ _ _ P)); exact Hst|].
  intros e' Ec Em; pose proof (sa_top _ _ A) as Top; destruct (sa_ok _ _ A) as (_ & Bo & _); fold o in Bo, Top.
  eapply machine_store; [exact M|apply A| | |exact Hst| |exact Em|eapply good_cur; [exact Ec|exact G2]]; [lia|exact Top|].
  eapply only_stack_trans; [|eapply only_stack_trans; [exact O2|]]; split; unfold frame_of; rewrite ?E0, ?Ec; reflexivity.
Qed.

Lemma leaks_env t u e1 : leaks t value_regno e = (inr u, e1) -> e1 = e.
Proof using.
  unfold leaks, is_pointer_value; destruct (_ && _); intros H; [|injection H as _ <-; reflexivity].
  run H; injection R as <- <-; run H; injection R as <- <-; injection H as _ <-; reflexivity.
Qed.

Lemma read_unknown_write mm u e1 : read_unknown BPF_WRITE value_regno mm e = (inr u, e1) -> exists u0, mm e = (inr u0, e1).
Proof using.
  unfold read_unknown; intros H; run H; rewrite bool_decide_eq_false_2 in H by discriminate; injection H as _ <-; eauto.
Qed.

Lemma pkt_data_cur t u e1 : may_access_direct_pkt_data None t e = (inr u, e1) -> cur_state e1 = cur_state e /\ maps e1 = maps e /\ prog e1 = prog e.
Proof using.
  unfold may_access_direct_pkt_data; intros H; run H; injection R as <- <-; cbv zeta in H; set (ro := existsb _ _) in H.
  assert (S : forall c, (_ ← when c (modify (fun env => set_seen_direct_write env true)); mret true) e = (inr u, e1) ->
    cur_state e1 = cur_state e /\ maps e1 = maps e /\ prog e1 = prog e).
  { intros c Q; run Q; injection Q as _ <-; unfold when in R; destruct c; injection R as _ <-; auto. }
  repeat match type of H with (if ?c then _ else _) _ = _ => destruct c end; first [exact (S _ H)|injection H as _ <-; auto].
Qed.

Lemma write_map_value b x v u e1 : pointer b x v -> type_ reg = PTR_TO_MAP_VALUE ->
  access_map_value ops reg regno (off_ + off reg) size BPF_WRITE value_regno e = (inr u, e1) -> stored x e1.
Proof using M.
  intros P T H; unfold access_map_value in H; run H; apply leaks_env in R as ->; destruct a; [discriminate|]; run H; apply map_type_env in R as [-> Rd]; run H.
  apply (map_window b x v) in R as [-> Wi]; [|exact P|exact T]; run H; injection R as <- <-.
  rewrite bool_decide_eq_false_2 in H by discriminate; injection H as _ <-.
  pose proof (pt_to _ _ _ P) as V; unfold points_to in V; rewrite T in V; specialize (Rd eq_refl); unfold map_of in Rd; rewrite (ms_maps M) in Rd.
  pose proof (wk_values _ _ _ (ms_world M) _ b V) as Ow; cbn zeta in Ow; rewrite Rd in Ow.
  eapply owned_stored; [exact (pt_addr _ _ _ P)|exact Ow|exact Wi|reflexivity].
Qed.

Lemma write_mem b x v u e1 : pointer b x v -> type_ reg = PTR_TO_MEM ->
  read_unknown BPF_WRITE value_regno (check_mem_region_access regno (off_ + off reg) size (mem_size reg) false) e = (inr u, e1) -> stored x e1.
Proof using M.
  intros P T H; destruct (read_unknown_write _ _ _ H) as (u0 & R); apply (region_window b x v) in R as [-> Wi]; [|exact P|apply uwrap_range; lia].
  pose proof (pt_to _ _ _ P) as V; unfold points_to in V; rewrite T in V; eapply owned_stored; [exact (pt_addr _ _ _ P)|exact V|exact Wi|reflexivity].
Qed.
End Write.
End Access.

Lemma pointer_cur w ι e e2 σ regno off_ b x v : cur_state e2 = cur_state e -> pointer w ι e σ regno off_ b x v -> pointer w ι e2 σ regno off_ b x v.
Proof. intros E [A1 A2 A3 A4 A5 A6]; split; rewrite ?(get_reg_cur e e2 regno E); assumption. Qed.

(** Packets: the write is recorded before the access is checked. *)
Lemma write_packet ops w ι e σ m β βs regno off_ sz value_regno y b x v u e1 : machine_sim ops w ι e σ m β βs ->
  let reg := get_reg e regno in pointer w ι e σ regno off_ b x v -> type_is_pkt_pointer (type_ reg) = true ->
  (may ← may_access_direct_pkt_data None BPF_WRITE;
   if negb may then fail (- EACCES)
   else leak ← leaks BPF_WRITE value_regno; if (leak : bool) then fail (- EACCES)
        else read_unknown BPF_WRITE value_regno (check_packet_access regno (off_ + off reg) (msize_Z sz) false)) e = (inr u, e1) ->
  stored ops w ι e σ m β off_ sz y x e1.
Proof.
  cbn zeta; intros M P T H; run H; apply pkt_data_cur in R as (Ec & Em & _); destruct a; [|discriminate]; cbn [negb] in H.
  pose proof (machine_cur ops w ι e env σ m β βs Ec Em M) as M2; pose proof (pointer_cur w ι e env σ regno off_ b x v Ec P) as P2.
  rewrite <- (get_reg_cur e env regno Ec) in *; run H; apply leaks_env in R as ->; destruct a; [discriminate|].
  destruct (read_unknown_write _ _ _ _ _ H) as (u0 & R); apply (packet_window w ι env σ regno off_ sz _ _ b x v P2) in R as (E & V0 & Wi).
  destruct (packet_owned ops w ι env σ m β βs M2 regno off_ sz b x v P2 T V0 Wi) as (n & Ow & Wn).
  destruct (owned_stored ops w ι env σ m β βs M2 off_ sz y x _ _ _ e1 (pt_addr _ _ _ _ _ _ _ _ _ P2) Ow Wn E) as (m' & βs' & Hst & K).
  exists m', βs'; split; [exact Hst|]; intros e' E1 E2; apply K; [exact E1|congruence].
Qed.

Lemma store_step ops w ι e σ m β βs regno off_ sz value_regno y by_ idx once u e' : machine_sim ops w ι e σ m β βs -> regno_ok regno ->
  - 2 ^ 15 <= off_ < 2 ^ 15 -> usable (get_reg e regno) = true -> (0 <= value_regno -> describes w ι (get_reg e value_regno) by_ y) ->
  check_mem_access ops idx regno off_ (size_code sz) BPF_WRITE value_regno once e = (inr u, e') ->
  exists x m' βs', reg_get σ regno = Some x /\ store_bytes m (x + off_) (msize_bytes sz) y = Some m' /\ machine_sim ops w ι e' σ m' β βs'.
Proof.
  intros M Hr Ho Us Hv H; apply andb_true_iff in Us as [Pl Sn]; pose proof (program_maps _ _ (fixes_run _ _ _ _ _ (program_mem_access ops idx regno off_ (size_code sz) BPF_WRITE value_regno once) H)) as Em.
  destruct (pointer_of ops w ι e σ m β βs M regno off_ Hr Ho Pl Sn) as (b & x & v & P).
  destruct (access_split ops w ι e σ regno off_ sz _ _ _ _ _ _ b x v P H) as (u1 & e1 & R & Ht & Al); clear H.
  assert (X : stored ops w ι e σ m β off_ sz y x e1).
  { unfold access_by_type in R; rewrite bool_decide_eq_true_2 in R by reflexivity.
    destruct (plain_cases _ Pl) as [T|[T|[T|[T|T]]]]; rewrite T in R.
    - eapply write_stack; [exact M|exact Hv|exact P|exact T|exact (Al T)|exact R].
    - eapply write_map_value; [exact M|exact P|exact T|exact R].
    - run R; apply leaks_env in R0 as ->; destruct a; [discriminate|]; eapply write_mem; [exact M|exact P|exact T|exact R].
    - eapply write_packet; [exact M|exact P|rewrite T; reflexivity|exact R].
    - eapply write_packet; [exact M|exact P|rewrite T; reflexivity|exact R]. }
  destruct X as (m' & βs' & Hst & K); exists x, m', βs'; split; [apply P|split; [exact Hst|]].
  unfold access_tail in Ht; run Ht; injection R0 as <- <-; rewrite bool_decide_eq_false_2, !andb_false_r in Ht by discriminate; injection Ht as _ <-.
  apply K; [reflexivity|exact Em].
Qed.

Lemma same_usable r r' : erase_reg r' = erase_reg r -> usable r' = usable r.
Proof. exact (f_equal usable (x := erase_reg r') (y := erase_reg r)). Qed.

(** A read whose value is not used changes only bookkeeping. *)
Lemma read_fixed_void k off size e u e' : check_stack_read_fixed_off k off size (-1) e = (inr u, e') -> e' ≈ e.
Proof.
  unfold check_stack_read_fixed_off; intros H; run H; injection R as <- <-; change (-1 >=? 0) with false in H; cbn [when] in H; case_bool_decide.
  - destruct (negb (size =? 8)).
    + destruct (negb _); [discriminate|]; run H; injection R as _ <-; exact (slot_read_same _ _ _ _ _ H).
    + match type of H with (if ?c then _ else _) _ = _ => destruct c; [discriminate|] end; run H.
      match type of R with (if ?c then _ else _) _ = _ => destruct c; [discriminate|] end; injection R as _ <-; exact (slot_read_same _ _ _ _ _ H).
  - match type of H with (if ?c then _ else _) _ = _ => destruct c; [discriminate|] end; run H; injection H as _ <-; exact (slot_read_same _ _ _ _ _ R).
Qed.

(** Split the conditionals of an accepted computation. *)
Ltac branches H := repeat match type of H with (if ?c then _ else _) _ = _ => destruct c; try discriminate H end.

Lemma region_env regno o size n z e u e' : check_mem_region_access regno o size n z e = (inr u, e') -> e' = e.
Proof.
  unfold check_mem_region_access, __check_mem_access; intros H; run H; injection R as <- <-.
  match type of H with (if ?c then _ else _) _ = _ => destruct c; [discriminate|] end; run H.
  branches R; injection R as _ <-; branches H; injection H as _ <-; reflexivity.
Qed.

Lemma map_access_env regno o size z e u e' : check_map_access regno o size z e = (inr u, e') -> e' = e.
Proof.
  unfold check_map_access; intros H; run H; injection R as <- <-; run H; injection R as <- <-; run H; apply region_env in R as ->.
  branches H; injection H as _ <-; reflexivity.
Qed.

Lemma packet_cur regno o size z e u e' : check_packet_access regno o size z e = (inr u, e') -> cur_state e' = cur_state e.
Proof.
  unfold check_packet_access, __check_mem_access; intros H; run H; injection R as <- <-; branches H; run H; branches R; injection R as _ <-; injection H as _ <-; reflexivity.
Qed.

Lemma read_unknown_void mm e u e' : (leak ← leaks BPF_READ (-1); if (leak : bool) then fail (- EACCES) else read_unknown BPF_READ (-1) mm) e = (inr u, e') ->
  exists u0, mm e = (inr u0, e').
Proof.
  intros H; run H; apply leaks_read in R as [-> ->]; unfold read_unknown in H; run H; change (-1 >=? 0) with false in H.
  rewrite andb_false_r in H; injection H as _ <-; eauto.
Qed.

Lemma stack_read_void ops w ι e σ m β βs idx regno o size u e' : machine_sim ops w ι e σ m β βs ->
  access_stack idx (get_reg e regno) regno o size BPF_READ (-1) e = (inr u, e') ->
  machine_sim ops w ι e' σ m β βs /\ forall r, erase_reg (get_reg e' r) = erase_reg (get_reg e r).
Proof.
  intros M R; unfold access_stack in R; run R; apply within_bounds_env in R0 as ->; run R; rewrite bool_decide_eq_true_2 in R by reflexivity.
  pose proof (program_maps _ _ (fixes_run _ _ _ _ _ (fixes_depth program (func (get_reg e regno)) o) R0)) as E1; apply depth_cur in R0; apply (machine_cur ops w ι e env) in M; [|exact R0|exact E1].
  unfold check_stack_read in R; run R; injection R1 as <- <-; run R; injection R1 as <- <-; change (-1 <? 0) with true in R; cbn [andb] in R.
  destruct (tnum_is_const _); cbn [negb] in R; [|discriminate]; rewrite andb_false_r in R; cbn iota in R.
  apply read_fixed_void in R; split; [eapply machine_same; [exact R|exact M]|].
  intros r; rewrite <- (get_reg_cur e env r R0); exact (same_reg _ _ r R).
Qed.

Lemma read_void_step ops w ι e σ m β βs regno off_ bs idx once u e' : machine_sim ops w ι e σ m β βs ->
  plain_pointer (type_ (get_reg e regno)) = true -> check_mem_access ops idx regno off_ bs BPF_READ (-1) once e = (inr u, e') ->
  machine_sim ops w ι e' σ m β βs /\ forall r, erase_reg (get_reg e' r) = erase_reg (get_reg e r).
Proof.
  intros M Pl H; pose proof (program_maps _ _ (fixes_run _ _ _ _ _ (program_mem_access ops idx regno off_ bs BPF_READ (-1) once) H)) as Em.
  unfold check_mem_access in H; run H; injection R as <- <-; match type of H with (if ?c then _ else _) _ = _ => destruct c; [discriminate|] end.
  run H; apply alignment_env in R as ->; run H; run H; injection R0 as <- <-; change (-1 >=? 0) with false in H.
  rewrite andb_false_r in H; injection H as _ <-; set (size := bpf_size_to_bytes bs) in *; set (o := s32 _) in R.
  unfold access_by_type in R; rewrite bool_decide_eq_false_2 in R by discriminate; destruct (plain_cases _ Pl) as [T|[T|[T|T]]]; try rewrite T in R.
  - eapply stack_read_void; eassumption.
  - unfold access_map_value in R; run R; apply leaks_read in R0 as [-> ->]; run R; apply map_type_env in R0 as [-> _]; run R; apply map_access_env in R0 as ->.
    run R; injection R0 as <- <-; change (-1 >=? 0) with false in R; rewrite andb_false_r in R; injection R as _ <-; auto.
  - destruct (read_unknown_void _ _ _ _ R) as (u0 & Q); apply region_env in Q as ->; auto.
  - assert (Q : exists u0, check_packet_access regno o size false e = (inr u0, env))
      by (destruct T as [T|T]; rewrite T in R; run R; injection R0 as <- <-; exact (read_unknown_void _ _ _ _ R)).
    destruct Q as (u0 & Q); apply packet_cur in Q; split; [eapply machine_cur; [exact Q|exact Em|exact M]|intros r; rewrite (get_reg_cur e env r Q); reflexivity].
Qed.

(** ** Instructions *)

Lemma mem_label_size code : uin 8 code ->
  match jumptable code with L_LDX_MEM s | L_STX_MEM s | L_ST_MEM s | L_STX_XADD s => BPF_SIZE code = size_code s | _ => True end.
Proof.
  intros H; pose proof (jumptable_code code H) as E; destruct (jumptable code) eqn:L; try exact Logic.I; cbn in E; rewrite E; destruct s; reflexivity.
Qed.

Lemma mem_label_mode code : uin 8 code ->
  match jumptable code with L_STX_MEM _ => (BPF_MODE code =? BPF_XADD) = false | L_STX_XADD _ => (BPF_MODE code =? BPF_XADD) = true | _ => True end.
Proof.
  intros H; pose proof (jumptable_code code H) as E; destruct (jumptable code) eqn:L; try exact Logic.I; cbn in E; rewrite E; destruct s; reflexivity.
Qed.

Lemma ptr_type_cur t e u e' : check_ptr_type t e = (inr u, e') -> cur_state e' = cur_state e /\ maps e' = maps e.
Proof. unfold check_ptr_type; intros H; run H; injection R as <- <-; branches H; injection H as _ <-; auto. Qed.

Lemma insn_fields insn : insn_ok insn -> uin 8 (insn_code insn) /\ 0 <= insn_dst insn /\ 0 <= insn_src insn /\ - 2 ^ 15 <= insn_off insn < 2 ^ 15.
Proof. intros (A & B & C & D & _); unfold uin, sin in *; change (2 ^ (16 - 1)) with (2 ^ 15) in D; lia. Qed.

Section Insn.
Context (ops : access_ops) (helper : Z -> list Z -> memory -> option (Z * memory)) (prog : list bpf_insn) (w : world) (ι : links) (s : bpf_machine).
Context (e : bpf_verifier_env) (β : Z -> Z) (βs : nat -> nat -> Z) (M : machine_sim ops w ι e (m_regs s) (m_mem s) β βs).
Context (insn : bpf_insn) (Hok : insn_ok insn) (Hpc : 0 <= m_pc s) (Hi : prog !! Z.to_nat (m_pc s) = Some insn).

(** The machine goes on at the next instruction and is still described. *)
Definition simulated (e' : bpf_verifier_env) : Prop :=
  exists σ' m' β' βs', step helper prog s = Some (Next (mk_machine σ' m' (m_pc s + 1))) /\ machine_sim ops w ι e' σ' m' β' βs'.

Lemma fetch : (if 0 <=? m_pc s then prog !! Z.to_nat (m_pc s) else None) = Some insn.
Proof using Hpc Hi. destruct (Z.leb_spec 0 (m_pc s)); [exact Hi|lia]. Qed.

Lemma ldx_sim sz u e' : jumptable (insn_code insn) = L_LDX_MEM sz -> usable (get_reg e (insn_src insn)) = true ->
  check_ldx ops insn e = (inr u, e') -> simulated e'.
Proof using M Hok Hpc Hi.
  intros L Pl H; destruct (insn_fields insn Hok) as (Hc & Hd & Hs & Ho); pose proof (mem_label_size _ Hc) as Es; rewrite L in Es.
  unfold check_ldx in H; run H; destruct (src_op_ok _ _ _ _ R) as (Ls & _ & E1); pose proof (machine_same _ _ _ _ _ _ _ _ _ E1 M) as M1.
  run H; destruct (dst_op_ok _ _ _ _ (ms_wf M1) Hd R0) as (Ld & _ & E2); pose proof (machine_same _ _ _ _ _ _ _ _ _ E2 M1) as M2.
  run H; injection R1 as <- <-; run H; rewrite Es in R1.
  assert (Pl2 : usable (get_reg env0 (insn_src insn)) = true) by (rewrite (same_usable _ _ (same_reg _ _ _ E2)), (same_usable _ _ (same_reg _ _ _ E1)); exact Pl).
  destruct (load_step ops w ι env0 _ _ β βs M2 (insn_src insn) (insn_off insn) sz ltac:(split; lia) Ho (insn_dst insn) _ _ _ _ ltac:(split; lia) Pl2 R1)
    as (x & y & β' & Hx & Ly & M3).
  apply ptr_type_cur in H as [Ec Em]; exists (<[Z.to_nat (insn_dst insn) := y]> (m_regs s)), (m_mem s), β', βs; split; [|eapply machine_cur; eassumption].
  unfold step; rewrite fetch; cbn [mbind option_bind]; rewrite L, Hx; cbn [mbind option_bind]; rewrite Ly; cbn [mbind option_bind].
  rewrite reg_set_upd by (first [apply (ms_len _ _ _ _ _ _ _ _ M)|lia]); reflexivity.
Qed.

Lemma store_machine sz v x m' : (jumptable (insn_code insn) = L_STX_MEM sz /\ reg_get (m_regs s) (insn_src insn) = Some v \/
    jumptable (insn_code insn) = L_ST_MEM sz /\ v = insn_imm insn) -> reg_get (m_regs s) (insn_dst insn) = Some x ->
  store_bytes (m_mem s) (x + insn_off insn) (msize_bytes sz) v = Some m' -> step helper prog s = Some (Next (mk_machine (m_regs s) m' (m_pc s + 1))).
Proof using Hpc Hi.
  intros L Hx Hst; unfold step; rewrite fetch; cbn [mbind option_bind]; destruct L as [[L Hv]|[L ->]]; rewrite L, ?Hv; cbn [mbind option_bind];
    rewrite Hx; cbn [mbind option_bind]; rewrite Hst; reflexivity.
Qed.

Lemma stx_sim sz u e' : jumptable (insn_code insn) = L_STX_MEM sz -> usable (get_reg e (insn_dst insn)) = true ->
  check_stx ops insn e = (inr u, e') -> simulated e'.
Proof using M Hok Hpc Hi.
  intros L Pl H; destruct (insn_fields insn Hok) as (Hc & Hd & Hs & Ho); pose proof (mem_label_size _ Hc) as Es; pose proof (mem_label_mode _ Hc) as Em; rewrite L in Es, Em.
  unfold check_stx in H; run H; injection R as <- <-; rewrite Em in H.
  run H; destruct (src_op_ok _ _ _ _ R) as (Ls & _ & E1); run H; destruct (src_op_ok _ _ _ _ R0) as (Ld & _ & E2).
  assert (E : env0 ≈ e) by (rewrite E2; exact E1); pose proof (machine_same _ _ _ _ _ _ _ _ _ E M) as M2; run H; injection R1 as <- <-; run H; rewrite Es in R1.
  destruct (ms_regs M2 (insn_src insn) ltac:(split; lia)) as (v & Hv & Dv).
  rewrite <- (same_usable _ _ (same_reg env0 e _ E)) in Pl.
  destruct (store_step ops w ι env0 _ _ β βs (insn_dst insn) (insn_off insn) sz (insn_src insn) v _ _ _ _ _ M2 ltac:(split; lia) Ho Pl (fun _ => Dv) R1)
    as (x & m' & βs' & Hx & Hst & M3).
  apply ptr_type_cur in H as [Ec Em']; exists (m_regs s), m', β, βs'; split; [eapply store_machine; eauto|eapply machine_cur; eassumption].
Qed.

Lemma st_sim sz u e' : jumptable (insn_code insn) = L_ST_MEM sz -> usable (get_reg e (insn_dst insn)) = true ->
  check_st ops insn e = (inr u, e') -> simulated e'.
Proof using M Hok Hpc Hi.
  intros L Pl H; destruct (insn_fields insn Hok) as (Hc & Hd & Hs & Ho); pose proof (mem_label_size _ Hc) as Es; rewrite L in Es.
  unfold check_st in H; match type of H with (if ?c then _ else _) _ = _ => destruct c; [discriminate|] end.
  run H; destruct (src_op_ok _ _ _ _ R) as (Ld & _ & E1); pose proof (machine_same _ _ _ _ _ _ _ _ _ E1 M) as M1.
  run H; unfold is_ctx_reg in R0; run R0; injection R1 as <- <-; injection R0 as <- <-; match type of H with (if ?c then _ else _) _ = _ => destruct c; [discriminate|] end.
  run H; injection R0 as <- <-; rewrite Es in H.
  rewrite <- (same_usable _ _ (same_reg env e _ E1)) in Pl.
  destruct (store_step ops w ι env _ _ β βs (insn_dst insn) (insn_off insn) sz (-1) (insn_imm insn) 0 _ _ _ _ M1 ltac:(split; lia) Ho Pl ltac:(lia) H)
    as (x & m' & βs' & Hx & Hst & M3).
  exists (m_regs s), m', β, βs'; split; [eapply store_machine; eauto|exact M3].
Qed.

Lemma xadd_sim sz u e' : jumptable (insn_code insn) = L_STX_XADD sz -> usable (get_reg e (insn_dst insn)) = true ->
  check_stx ops insn e = (inr u, e') -> simulated e'.
Proof using M Hok Hpc Hi.
  intros L Pl H; destruct (insn_fields insn Hok) as (Hc & Hd & Hs & Ho); pose proof (mem_label_size _ Hc) as Es; pose proof (mem_label_mode _ Hc) as Em; rewrite L in Es, Em.
  unfold check_stx in H; run H; injection R as <- <-; rewrite Em in H; unfold check_xadd in H; cbv zeta in H.
  match type of H with (if ?c then _ else _) _ = _ => destruct c; [discriminate|] end.
  run H; destruct (src_op_ok _ _ _ _ R) as (Ls & _ & E1); run H; destruct (src_op_ok _ _ _ _ R0) as (Ld & _ & E2).
  assert (E : env0 ≈ e) by (rewrite E2; exact E1); pose proof (machine_same _ _ _ _ _ _ _ _ _ E M) as M2; rewrite <- (same_usable _ _ (same_reg env0 e _ E)) in Pl.
  clear R R0 E1 E2; run H; unfold is_pointer_value in R; run R; injection R0 as <- <-; run R; injection R0 as <- <-; injection R as <- <-.
  match type of H with (if ?c then _ else _) _ = _ => destruct c; [discriminate|] end.
  do 4 (run H; injection R as <- <-); match type of H with (if ?c then _ else _) _ = _ => destruct c; [discriminate|] end.
  rewrite Es in H; run H; destruct (read_void_step _ _ _ _ _ _ _ _ _ _ _ _ _ _ _ M2 (proj1 (proj1 (andb_true_iff _ _) Pl)) R) as [M3 T3]; rewrite <- (same_usable _ _ (T3 _)) in Pl.
  assert (Hr : regno_ok (insn_dst insn)) by (split; lia); destruct (ms_regs M3 (insn_src insn) ltac:(split; lia)) as (v & Hv & _).
  pose proof (store_step ops w ι env1 (m_regs s) (m_mem s) β βs (insn_dst insn) (insn_off insn) sz (-1)) as St.
  destruct (St 0 0 _ _ _ _ M3 Hr Ho Pl ltac:(lia) H) as (x & m0 & _ & Hx & Hst0 & _).
  destruct (proj2 (load_is_some (m_mem s) (msize_bytes sz) (x + insn_off insn)) (store_mapped _ _ _ _ _ Hst0)) as [y Ly].
  destruct (St (y + v) 0 _ _ _ _ M3 Hr Ho Pl ltac:(lia) H) as (x' & m' & βs' & Hx' & Hst & M4); rewrite Hx in Hx'; injection Hx' as <-.
  exists (m_regs s), m', β, βs'; split; [|exact M4]; unfold step; rewrite fetch; cbn [mbind option_bind]; rewrite L, Hv; cbn [mbind option_bind].
  rewrite Hx; cbn [mbind option_bind]; rewrite Ly; cbn [mbind option_bind]; rewrite Hst; reflexivity.
Qed.
End Insn.
