(* ===== verification/AluMachine.v ===== *)
(** Arithmetic, in the verifier and on the machine.

    [AluIds] relates the registers of an accepted arithmetic instruction to the
    registers of the interpreter.  Here the relation is the one of [MemStep]:
    pointers keep pointing into their object, a packet pointer moved by an
    unknown amount gets a new id with a new variable part, a copied scalar gets
    an id with its value, and the stack is left alone. *)
From Stdlib Require Import ZArith Lia Bool.
From stdpp Require Import base list gmap.
From S2P Require Import Prelude Lists Bits Tnum Bounds RegState ScalarOps Insn Interp Env Branch MemAccess RegArg Precision Bookkeeping Alu Frame AluSound PtrSound AluStep.
From S2P Require Import CondJmp CondJmpSound AluFrame AluIds StackAccess StackSound StackVar MemInsn MemFrame MemStep.

Local Open Scope Z_scope.
Local Open Scope kint_scope.

(** ** The fields of a moved pointer *)

(** The amount [s] went into the fixed offset. *)
Definition shifted (insn : bpf_insn) (p s d' : bpf_reg_state) : Prop :=
  tnum_is_const (var_off s) = true /\
  ((BPF_OP (insn_code insn) = BPF_ADD /\ weq 64 (off d') (off p + smin_value s)) \/
   (BPF_OP (insn_code insn) = BPF_SUB /\ weq 64 (off d') (off p - smin_value s))).

(** The verified range of a packet pointer moved by an unknown amount survives
    only if it moves towards the start, and not past the smallest offset. *)
Definition range_kept (insn : bpf_insn) (p s d' : bpf_reg_state) : Prop :=
  BPF_OP (insn_code insn) = BPF_SUB /\ raw d' = raw p /\ 0 <= smin_value s /\
  (smin_value d' <> S64_MIN -> signed_sub_overflows (smin_value p) (smax_value s) = false).

(** What the operation [ptr_op] makes of [d], with the ids [g] and [g'] handed
    out before and after. *)
Definition moved_fields (insn : bpf_insn) (p s d d' : bpf_reg_state) (g g' : Z) : Prop :=
  type_ d' = type_ d /\ frameno d' = frameno d /\
  ((id d' = id d \/ id d' = id p) /\ raw d' = raw p /\ g' = g /\ (type_is_pkt_pointer (type_ p) = true -> shifted insn p s d') \/
   type_is_pkt_pointer (type_ p) = true /\ id d' = u32 (g + 1) /\ g' = u32 (g + 1) /\ off d' = off p /\
   (raw d' = 0 \/ range_kept insn p s d')).

Lemma add_var_tag d p s a b c e : let r := ptr_add_var d p s a b c e in
  type_ r = type_ d /\ frameno r = frameno d /\ id r = id d /\ raw r = raw p /\ off r = off p.
Proof. unfold ptr_add_var; cbn zeta; destruct (_ || _); destruct (_ || _); repeat split; reflexivity. Qed.

Lemma sub_var_tag d p s b c e : let r := ptr_sub_var d p s b (smax_value s) c e in
  type_ r = type_ d /\ frameno r = frameno d /\ id r = id d /\ raw r = raw p /\ off r = off p /\
  (smin_value r <> S64_MIN -> signed_sub_overflows (smin_value p) (smax_value s) = false).
Proof.
  unfold ptr_sub_var; cbn zeta; destruct (signed_sub_overflows (smin_value p) (smax_value s)); cbn [orb];
    repeat match goal with |- context [if ?c then _ else _] => destruct c end; repeat split; try reflexivity; intros H; contradiction H; reflexivity.
Qed.

Lemma ptr_op_fields insn ptr off_ dst env u env' : let p := ptr_val env ptr in let s := ptr_val env off_ in env_wf env -> regno_ok dst ->
  ptr_op insn ptr off_ dst (tnum_is_const (var_off s)) (smin_value s) (smax_value s) (umin_value s) (umax_value s) env = (inr u, env') ->
  moved_fields insn p s (get_reg env dst) (get_reg env' dst) (id_gen env) (id_gen env').
Proof.
  cbn zeta; intros W Hd H; unfold ptr_op in H; run H; rewrite load_ptr_run in R; injection R as <- <-; run H; rewrite load_ptr_run in R; injection R as <- <-.
  set (p := ptr_val env ptr) in *; set (s := ptr_val env off_) in *; set (d := get_reg env dst) in *.
  destruct (Z.eqb_spec (BPF_OP (insn_code insn)) BPF_ADD) as [EA|_].
  - destruct (tnum_is_const (var_off s) && _) eqn:C.
    + apply andb_true_iff in C as [C1 C2]; apply Z.eqb_eq in C2; injection H as _ <-; rewrite get_put_same by assumption; fold d.
      split; [reflexivity|split; [reflexivity|left]]; split; [left; reflexivity|split; [reflexivity|split; [reflexivity|]]].
      intros _; split; [exact C1|left; split; [exact EA|apply weq_exact, C2]].
    + run H; injection R as _ <-; fold d in H; destruct (add_var_tag d p s (smin_value s) (smax_value s) (umin_value s) (umax_value s)) as (T & F & I & Rw & O).
      unfold when in H; destruct (type_is_pkt_pointer (type_ p)) eqn:K.
      * run H; injection R as _ <-; injection H as _ <-; rewrite !get_put_same by (repeat apply put_reg_wf; assumption); change (get_reg (set_id_gen ?e ?n) dst) with (get_reg e dst).
        rewrite get_put_same by assumption; split; [exact T|split; [exact F|right]]; split; [exact K|split; [reflexivity|split; [reflexivity|split; [exact O|left; reflexivity]]]].
      * injection H as _ <-; rewrite get_put_same by assumption; split; [exact T|split; [exact F|left]].
        split; [left; exact I|split; [exact Rw|split; [reflexivity|congruence]]].
  - destruct (Z.eqb_spec (BPF_OP (insn_code insn)) BPF_SUB) as [ES|]; [|discriminate].
    destruct (ptr_is off_ dst); [discriminate|]; destruct (type_eqb _ _); [discriminate|]; destruct (tnum_is_const (var_off s) && _) eqn:C.
    + apply andb_true_iff in C as [C1 C2]; apply Z.eqb_eq in C2; injection H as _ <-; rewrite get_put_same by assumption; fold d.
      split; [reflexivity|split; [reflexivity|left]]; split; [right; reflexivity|split; [reflexivity|split; [reflexivity|]]].
      intros _; split; [exact C1|right; split; [exact ES|apply weq_exact, C2]].
    + run H; injection R as _ <-; fold d in H; destruct (sub_var_tag d p s (smin_value s) (umin_value s) (umax_value s)) as (T & F & I & Rw & O & V).
      unfold when in H; destruct (type_is_pkt_pointer (type_ p)) eqn:K.
      * run H; injection R as _ <-; destruct (Z.ltb_spec (smin_value s) 0); injection H as _ <-; rewrite !get_put_same by (repeat apply put_reg_wf; assumption);
          change (get_reg (set_id_gen ?e ?n) dst) with (get_reg e dst); rewrite get_put_same by assumption; (split; [exact T|split; [exact F|right]]);
          (split; [exact K|split; [reflexivity|split; [reflexivity|split; [exact O|]]]]); [left; reflexivity|right].
        split; [exact ES|split; [exact Rw|split; [assumption|exact V]]].
      * injection H as _ <-; rewrite get_put_same by assumption; split; [exact T|split; [exact F|left]].
        split; [left; exact I|split; [exact Rw|split; [reflexivity|congruence]]].
Qed.

(** The result of accepted pointer arithmetic. *)
Record pointer_moved (insn : bpf_insn) (p s d d' : bpf_reg_state) (g g' : Z) : Prop := mk_pointer_moved {
  pm_type : type_ d' = type_ p;
  pm_null : reg_type_may_be_null (type_ p) = false;
  pm_end : type_ p <> PTR_TO_PACKET_END;
  pm_map : type_ p = CONST_PTR_TO_MAP -> BPF_OP (insn_code insn) = BPF_ADD /\ smin_value s = 0 /\ smax_value s = 0;
  pm_frame : frameno d' = frameno d;
  pm_known : tnum_is_const (var_off s) = true -> smin_value s = smax_value s;
  pm_fields :
    id d' = id p /\ raw d' = raw p /\ g' = g /\ (type_is_pkt_pointer (type_ p) = true -> shifted insn p s d') \/
    type_is_pkt_pointer (type_ p) = true /\ id d' = u32 (g + 1) /\ g' = u32 (g + 1) /\ off d' = off p /\
    (raw d' = 0 \/ BPF_OP (insn_code insn) = BPF_SUB /\ raw d' = raw p /\ 0 <= smin_value s /\
                   signed_sub_overflows (smin_value p) (smax_value s) = false)
}.

Lemma prohibited_end t z : ptr_arith_prohibited t z = false -> t <> PTR_TO_PACKET_END.
Proof. destruct t; discriminate. Qed.

Lemma sane_smin reg : check_reg_sane_offset reg = true -> smin_value reg <> S64_MIN.
Proof. unfold check_reg_sane_offset; cbn zeta; repeat case_match; try discriminate; intros _; apply Z.eqb_neq; assumption. Qed.

Section PtrFields.
Context (insn : bpf_insn) (env : bpf_verifier_env) (ptr off_ : reg_ptr).
Local Abbreviation dst := (insn_dst insn).
Local Abbreviation p := (ptr_val env ptr).
Local Abbreviation s := (ptr_val env off_).
Context (W : env_wf env) (Hd : regno_ok dst) (Hp : ptr_ok ptr) (Hs : ptr_ok off_) (G0 : 0 <= id_gen env) (G1 : id_gen env + 1 < 2 ^ 32).

Lemma sanitized_gen (b : bool) i q info c e j e' : env_wf e -> 0 <= id_gen e < 2 ^ 32 ->
  (if b then or_sanitize_err (sanitize_ptr_alu insn q off_ dst info c) else mret i) e = (inr j, e') -> id_gen e' = id_gen e.
Proof using Hd.
  intros We E H; destruct b; [|injection H as _ <-; reflexivity]; apply or_sanitize_ok in H.
  destruct (keeps_sanitize_ptr dst insn q off_ info c ltac:(apply Hd) _ _ _ We H) as (_ & _ & G); lia.
Qed.

(** The destination before the operation, which has the type and id of the pointer. *)
Lemma prepared_tag env1 env2 u1 u2 u3 env3 info info' :
  upd_reg dst (fun d => set_id (set_type d (type_ p)) (id p)) env = (inr u1, env1) -> upd_reg dst __mark_reg32_unbounded env1 = (inr u2, env2) ->
  (if sanitize_needed (BPF_OP (insn_code insn)) then or_sanitize_err (sanitize_ptr_alu insn ptr off_ dst info false) else mret info') env2 = (inr u3, env3) ->
  frameno (get_reg env3 dst) = frameno (get_reg env dst) /\ id (get_reg env3 dst) = id p /\ id_gen env3 = id_gen env.
Proof using W Hd G0 G1.
  intros [= _ <-] [= _ <-] H; set (e1 := put_reg env dst _) in *; assert (W1 : env_wf e1) by (apply put_reg_wf, W).
  set (e2 := put_reg e1 dst _) in *; assert (W2 : env_wf e2) by (apply put_reg_wf, W1).
  assert (G : id_gen env3 = id_gen env) by (apply (sanitized_gen _ _ _ _ _ e2 _ _ W2) in H; [exact H|change (id_gen e2) with (id_gen env); lia]).
  assert (E : get_reg env3 dst = get_reg e2 dst).
  { destruct (sanitize_needed _); [apply or_sanitize_ok, sanitize_ptr_regs in H; [apply H|assumption..]|injection H as _ <-; reflexivity]. }
  rewrite E; unfold e2; rewrite get_put_same by assumption; cbn; unfold e1; rewrite get_put_same by assumption; auto.
Qed.

Lemma prepared_operand q env3 : dst_veq dst env env3 -> type_ (get_reg env3 dst) = type_ p -> id (get_reg env3 dst) = id p ->
  ptr_ok q -> q = ptr \/ q <> PReg dst -> type_ (ptr_val env3 q) = type_ (ptr_val env q) /\ id (ptr_val env3 q) = id (ptr_val env q).
Proof using.
  intros [(_ & _ & G) _] T I Hq C; destruct q as [r|reg]; [|auto]; cbn [ptr_val] in *; destruct (Z.eq_dec r dst) as [->|N].
  - destruct C as [C|C]; [|contradiction]; rewrite <- C in T, I; auto.
  - rewrite G by (trivial; apply Hq); auto.
Qed.

Lemma adjust_ptr_fields u env' : adjust_ptr_min_max_vals insn ptr off_ env = (inr u, env') ->
  type_ (get_reg env' dst) = SCALAR_VALUE \/ pointer_moved insn p s (get_reg env dst) (get_reg env' dst) (id_gen env) (id_gen env').
Proof using W Hd Hp Hs G0 G1.
  intros H; unfold adjust_ptr_min_max_vals in H; run H; injection R as <- <-.
  run H; rewrite load_ptr_run in R; injection R as <- <-; run H; rewrite load_ptr_run in R; injection R as <- <-.
  destruct ((tnum_is_const (var_off s) && _) || _ || _) eqn:T; [left; injection H as _ <-; rewrite get_put_same by assumption; reflexivity|].
  destruct (negb (BPF_CLASS _ =? _)); [match type of H with (if ?c then _ else _) _ = _ => destruct c; [left; injection H as _ <-; rewrite get_put_same by assumption; reflexivity|discriminate] end|].
  destruct (ptr_arith_prohibited _ _) eqn:P; [discriminate|]; right.
  run H; run H; rewrite load_ptr_run in R0; injection R0 as <- <-; run H; rewrite load_ptr_run in R0; injection R0 as <- <-.
  match type of H with (if ?c then _ else _) _ = _ => destruct c; [discriminate|] end; run H; run H.
  destruct (ptr_prepared insn env ptr off_ W Hd _ _ _ _ _ _ _ _ R R0 R1) as (V & Ty & _), (prepared_tag _ _ _ _ _ _ _ _ R R0 R1) as (F & I & G).
  assert (W2 : env_wf env2) by apply V; run H; pose proof (ptr_val_veq _ _ _ ptr V Hp) as (Vb & Vt & Vo & Vr); pose proof (ptr_val_veq _ _ _ off_ V Hs) as (Sb & St & So & Sr).
  destruct (prepared_operand ptr env2 V Ty I Hp (or_introl eq_refl)) as [Tp Ip].
  pose proof (f_equal bsmin Sb) as F1; pose proof (f_equal bsmax Sb) as F2; pose proof (f_equal bumin Sb) as F3; pose proof (f_equal bumax Sb) as F4; cbn in F1, F2, F3, F4.
  pose proof (f_equal bsmin Vb) as V1; cbn in V1; rewrite <- St, <- F1, <- F2, <- F3, <- F4 in R2; pose proof R2 as R2'; apply ptr_op_fields in R2; trivial; apply ptr_op_type in R2' as [W3 _]; trivial.
  destruct R2 as (Q1 & Q2 & Q3); unfold shifted, range_kept in Q3; rewrite ?Tp, ?Ip, ?Vo, ?Vr, ?F1, ?F2, ?V1, ?St, ?G, I in Q3.
  run H; injection R2 as <- <-; destruct (negb (check_reg_sane_offset _)) eqn:Sn; [discriminate|]; apply negb_false_iff, sane_smin in Sn.
  run H; injection R2 as _ <-; run H; apply sanitize_check_env in R2; subst env4; run H; injection H as _ <-; set (t := __reg_bound_offset _) in *.
  assert (Tt : reg_tag t = reg_tag (get_reg env3 dst)) by (unfold t; autorewrite with reg_tag; reflexivity); clearbody t.
  assert (Gt : id_gen env4 = id_gen env3).
  { apply sanitized_gen in R2; [exact R2|apply put_reg_wf, W3|]; change (id_gen (put_reg env3 dst t)) with (id_gen env3).
    destruct Q3 as [(_ & _ & -> & _)|(_ & _ & -> & _)]; [lia|apply uwrap_range; lia]. }
  assert (E : get_reg env4 dst = t).
  { destruct (sanitize_needed _); [|injection R2 as _ <-; apply get_put_same; assumption].
    apply or_sanitize_ok, sanitize_ptr_regs in R2; auto with verifier; destruct R2 as [_ ->]; apply get_put_same; assumption. }
  unfold reg_tag in Tt; injection Tt as T1 T2 T3 T4 _ _ T5 _ _ _.
  rewrite E, Gt; split; [congruence|exact (prohibited_null _ _ P)|exact (prohibited_end _ _ P)| |congruence| |].
  - intros Ct; rewrite Ct in P; cbn in P; apply negb_false_iff in P; rewrite !andb_true_iff, !Z.eqb_eq in P; destruct P as [[Kn Z0] Op]; split; [exact Op|]; rewrite Kn in T.
    destruct (Z.eqb_spec (smin_value s) (smax_value s)); [lia|discriminate T].
  - intros K; rewrite K in T; destruct (Z.eqb_spec (smin_value s) (smax_value s)); [assumption|discriminate].
  - unfold shifted; rewrite T2, T3, T4; destruct Q3 as [([Q|Q] & Q4 & Q5 & Q6)|(Q4 & Q5 & Q6 & Q7 & Q8)]; [left; auto..|right].
    split; [exact Q4|split; [exact Q5|split; [exact Q6|split; [exact Q7|]]]]; destruct Q8 as [Q8|(Q8 & Q9 & Q10 & Q11)]; [left; exact Q8|right; auto 6].
Qed.
End PtrFields.

(** ** New ids *)

(** [ι'] says the same as [ι] about the ids handed out before. *)
Record extends (ι ι' : links) : Prop := mk_extends {
  ex_gen : l_gen ι <= l_gen ι';
  ex_var : forall k, k = 0 \/ k <= l_gen ι -> l_var ι' k = l_var ι k;
  ex_ids : forall b k, k <= l_gen ι -> l_ids ι' (b, k) = l_ids ι (b, k)
}.

#[export] Instance extends_preorder : PreOrder extends.
Proof.
  split; [split; auto; lia|]; intros a b c [G1 V1 I1] [G2 V2 I2]; split; [lia| |].
  - intros k Hk; rewrite V2, V1; auto; destruct Hk; [auto|right; lia].
  - intros t k Hk; rewrite I2, I1; auto; lia.
Qed.

Lemma link_id reg b k : link reg = Some (b, k) -> k = id reg /\ id reg <> 0 /\ type_ reg <> NOT_INIT.
Proof.
  unfold link; destruct (Z.eqb_spec (id reg) 0); [discriminate|].
  destruct (type_eqb_spec (type_ reg) SCALAR_VALUE) as [T|T]; [intros [= <- <-]; rewrite T; auto|].
  destruct (reg_type_may_be_null (type_ reg)) eqn:N0; [|discriminate]; intros [= <- <-]; split; [reflexivity|split; [assumption|]]; intros T0; rewrite T0 in N0; discriminate.
Qed.

Lemma points_var w ι ι' reg b x : l_var ι' (id reg) = l_var ι (id reg) -> points_to w ι reg b x -> points_to w ι' reg b x.
Proof. intros E; unfold points_to, pkt_points; rewrite E; destruct (type_ reg); trivial. Qed.

Lemma not_null_id m reg : id (not_null_type m reg) = id reg.
Proof. unfold not_null_type; destruct (type_ reg); cbn zeta; repeat case_match; reflexivity. Qed.

Lemma describes_extends w ι ι' reg b x : extends ι ι' -> describes w ι reg b x -> describes w ι' reg b x.
Proof.
  intros [G V I] [S P L D]; split; [exact S| | |intros N; destruct (D N); [auto|right; lia]].
  - destruct (bpf_reg_type_eq_dec (type_ reg) NOT_INIT) as [T|T]; [apply points_other; rewrite T; reflexivity|].
    pose proof (V _ (D T)) as E; unfold points_ok in *; destruct (reg_type_may_be_null _); [intros N; specialize (P N)|]; revert P; apply points_var; rewrite ?not_null_id; exact E.
  - intros [t k] Hk; rewrite (L _ Hk); destruct (link_id _ _ _ Hk) as (-> & N & T); symmetry; apply I; destruct (D T); [contradiction|assumption].
Qed.

(** A state in which only registers and ids have changed. *)
Lemma machine_regs ops w ι ι' e e' σ σ' m β β' βs : machine_sim ops w ι e σ m β βs -> extends ι ι' -> links_ok ι' ->
  env_wf e' -> maps e' = maps e -> stacks e' = stacks e -> length σ' = 12%nat ->
  (forall r, regno_ok r -> exists x, reg_get σ' r = Some x /\ describes w ι' (get_reg e' r) (β' r) x) -> machine_sim ops w ι' e' σ' m β' βs.
Proof.
  intros [Wf L Rg St Me Mp Wk Lk] X Lk' Wf' Em Es L' Rg'; split; try assumption; [|congruence].
  intros k fp Hk; destruct (St k fp Hk) as (A & B & C); apply (f_equal snd) in Es; cbn in Es.
  pose proof (f_equal length Es) as El; rewrite !length_fmap in El; split; [lia|].
  assert (Ek : erase_slot <$> stack (frame_of e' k) = erase_slot <$> stack (frame_of e k)).
  { apply (f_equal (fun l => l !! k)) in Es; rewrite !list_lookup_fmap in Es; unfold frame_of.
    destruct (lookup_lt_is_Some_2 (frame (cur_state e)) k A) as [f Hf], (lookup_lt_is_Some_2 (frame (cur_state e')) k ltac:(lia)) as [f' Hf'].
    rewrite !list_lookup_total_alt, Hf, Hf' in *; cbn in *; injection Es as ->; reflexivity. }
  split; [apply (f_equal length) in Ek; rewrite !length_fmap in Ek; lia|]; intros spi s Hs.
  apply (f_equal (fun l => l !! spi)) in Ek; rewrite !list_lookup_fmap, Hs in Ek; destruct (stack (frame_of e k) !! spi) as [s0|] eqn:E0; [|discriminate].
  apply (inj Some) in Ek; eapply slot_sim_erase; [exact (describes_cell w ι')|exact Ek|]; destruct (C spi s0 E0) as [C1 C2]; split; [exact C1|].
  intros T; destruct (C2 T) as (v & Lv & D); exists v; split; [exact Lv|exact (describes_extends _ _ _ _ _ _ X D)].
Qed.

(** ** The destination *)

(** A scalar nothing is tied to. *)
Lemma describes_scalar w ι reg b x : type_ reg = SCALAR_VALUE -> link reg = None -> reg_sim reg b x -> describes w ι reg b x.
Proof.
  intros T L S; split; [exact S|apply points_other; rewrite T; reflexivity|congruence|].
  intros _; left; unfold link in L; rewrite T in L; destruct (Z.eqb_spec (id reg) 0); [assumption|discriminate].
Qed.

(** The links after the id [n] was given to a packet pointer with the variable
    part [z], and to a register with the value [x]. *)
Definition link_var (ι : links) (n z : Z) : links := mk_links (l_ids ι) (fun k => if k =? n then z else l_var ι k) n.
Definition link_value (ι : links) (n x : Z) : links := mk_links (fun k => if k.2 =? n then x else l_ids ι k) (l_var ι) n.

Lemma link_var_ok ι n z : links_ok ι -> l_gen ι < n -> 0 < n -> sin 64 z -> extends ι (link_var ι n z) /\ links_ok (link_var ι n z).
Proof.
  intros [Z0 V] G N Hz; unfold link_var; split; split; cbn [l_gen l_var l_ids]; [lia| |reflexivity| |].
  - intros k Hk; destruct (Z.eqb_spec k n); [lia|reflexivity].
  - destruct (Z.eqb_spec 0 n); [lia|exact Z0].
  - intros k; destruct (k =? n); auto.
Qed.

Lemma link_value_ok ι n x : links_ok ι -> l_gen ι < n -> extends ι (link_value ι n x) /\ links_ok (link_value ι n x).
Proof.
  intros [Z0 V] G; split; split; cbn; [lia|auto| |exact Z0|exact V].
  intros t k Hk; destruct (Z.eqb_spec k n); [lia|reflexivity].
Qed.

(** A pointer has the variable part its bounds admit. *)
Lemma packet_var b o l v : sin 64 l -> u64 (b + o + l) = u64 (b + o + v) -> l = s64 v.
Proof.
  intros Hl E; rewrite <- (swrap_id 64 l) by (trivial; lia); apply swrap_weq; [lia|].
  replace l with ((b + o + l) - (b + o)) by lia; replace v with ((b + o + v) - (b + o)) by lia; apply weq_sub; [lia|exact E|reflexivity].
Qed.

Lemma weq_s64 z : weq 64 (s64 z) z.
Proof. apply weq_swrap; lia. Qed.

Lemma u64_weq a b : weq 64 a b -> u64 a = u64 b.
Proof. trivial. Qed.

Section Moved.
Context (w : world) (ι : links) (insn : bpf_insn) (p s d d' : bpf_reg_state) (g g' b x y r v : Z).
Context (Mv : pointer_moved insn p s d d' g g') (K : links_ok ι) (Hg : l_gen ι <= g) (G0 : 0 <= g) (G1 : g + 1 < 2 ^ 32).
Context (Hv : reg_inv p v) (Hx : x = u64 (b + off p + v)) (Hy : off_mem s y).
Context (HA : BPF_OP (insn_code insn) = BPF_ADD -> r = u64 (x + y)) (HS : BPF_OP (insn_code insn) = BPF_SUB -> r = u64 (x - y)).
Context (Hop : BPF_OP (insn_code insn) = BPF_ADD \/ BPF_OP (insn_code insn) = BPF_SUB).

Lemma amount : smin_value s <= s64 y <= smax_value s.
Proof using Hy. destruct Hy as (_ & _ & _ & [I _]); exact I. Qed.

Lemma var_amount : smin_value p <= s64 v <= smax_value p.
Proof using Hv. destruct Hv as (_ & (_ & [I _] & _) & _); exact I. Qed.

Lemma shifted_value : shifted insn p s d' -> forall l, x = u64 (b + off p + l) -> r = u64 (b + off d' + l).
Proof using HA HS Hop Mv Hy.
  intros [C Sh] l E; pose proof (pm_known _ _ _ _ _ _ _ Mv C) as Kn; pose proof amount as Am.
  assert (Ey : smin_value s = s64 y) by lia; rewrite Ey in Sh; destruct Sh as [[O Sh]|[O Sh]]; [rewrite (HA O)|rewrite (HS O)]; rewrite E.
  - apply moved_add; replace (off p + l + y) with (off p + y + l) by lia; apply weq_add; [lia| |reflexivity].
    rewrite Sh; apply weq_add; [lia|reflexivity|apply weq_s64].
  - apply moved_sub; replace (off p + l - y) with (off p - y + l) by lia; apply weq_add; [lia| |reflexivity].
    rewrite Sh; apply weq_sub; [lia|reflexivity|apply weq_s64].
Qed.

(** The variable part of a packet pointer moved by an unknown amount. *)
Definition moved_var (l : Z) : Z := if BPF_OP (insn_code insn) =? BPF_ADD then s64 (l + y) else s64 (l - y).

Lemma moved_var_value l : off d' = off p -> x = u64 (b + off p + l) -> r = u64 (b + off d' + moved_var l).
Proof using HA HS Hop.
  intros O E; unfold moved_var; destruct Hop as [H|H]; rewrite H; cbn [Z.eqb Pos.eqb]; [rewrite (HA H)|rewrite (HS H)]; rewrite E, O.
  - apply moved_add; replace (off p + l + y) with (off p + (l + y)) by lia; apply weq_add; [lia|reflexivity|apply weq_s64].
  - apply moved_sub; replace (off p + l - y) with (off p + (l - y)) by lia; apply weq_add; [lia|reflexivity|apply weq_s64].
Qed.

Lemma moved_var_sub l : x = u64 (b + off p + l) -> sin 64 l -> BPF_OP (insn_code insn) = BPF_SUB -> 0 <= smin_value s ->
  signed_sub_overflows (smin_value p) (smax_value s) = false -> moved_var l <= l.
Proof using HA HS Hop Hv Hx Hy.
  intros E Hl H Hs Ov; unfold moved_var; rewrite H; cbn [Z.eqb Pos.eqb]; pose proof amount as Am; pose proof var_amount as Vm.
  rewrite E in Hx; apply packet_var in Hx; [|exact Hl]; rewrite <- Hx in Vm.
  assert (S1 : sin 64 (smin_value p - smax_value s)).
  { apply ssub_ov_sin in Ov; [exact Ov|lia|..]; [destruct Hv as ((_ & Ob & _) & _); apply Ob|destruct Hy as (_ & Ob & _); apply Ob]. }
  assert (Ey : s64 (l - y) = l - s64 y); [|lia].
  rewrite <- (swrap_id 64 (l - s64 y)); [|lia|unfold sin in *; lia]; apply swrap_weq; [lia|]; apply weq_sub; [lia|reflexivity|symmetry; apply weq_s64].
Qed.

Lemma packet_moved ι' base n : x = u64 (b + off p + l_var ι (id p)) /\ (0 < range p -> l_var ι (id p) + range p <= n) -> b = base ->
  off d' = off p -> l_var ι' (id d') = moved_var (l_var ι (id p)) ->
  raw d' = 0 \/ BPF_OP (insn_code insn) = BPF_SUB /\ raw d' = raw p /\ 0 <= smin_value s /\ signed_sub_overflows (smin_value p) (smax_value s) = false ->
  pkt_points ι' d' b r base n.
Proof using K HA HS Hop Hv Hx Hy.
  intros [E Rn] Eb O V C; split; [exact Eb|]; rewrite V; split; [apply moved_var_value; assumption|]; unfold range in *.
  destruct C as [->|(H & -> & H0 & Ov)]; [intros Q; discriminate Q|]; intros Q; specialize (Rn Q).
  pose proof (moved_var_sub _ E (lk_var _ K _) H H0 Ov); lia.
Qed.

(** What the moved pointer points to, with the links that account for its id. *)
Lemma moved_points : (type_ p = PTR_TO_STACK -> func d = func p) -> points_to w ι p b x -> id p = 0 \/ id p <= l_gen ι ->
  exists ι', extends ι ι' /\ links_ok ι' /\ l_gen ι' <= g' /\ points_ok w ι' d' b r /\ (id d' = 0 \/ id d' <= l_gen ι').
Proof using Mv K Hg G0 G1 Hv Hx Hy HA HS Hop.
  intros Hf P I; pose proof Mv as [T N E Cm F _ [(Fi & Fr & Fg & Fs)|(Fp & Fi & Fg & Fo & Fr)]].
  - exists ι; split; [reflexivity|split; [exact K|split; [lia|split; [|rewrite Fi; exact I]]]].
    unfold points_ok; rewrite T, N; unfold points_to, mem_size in *; rewrite T, Fr; destruct (type_ p) eqn:Tp; trivial; try contradiction.
    + destruct (Cm eq_refl) as (Op & S0 & S1); pose proof amount as Am; replace r with x; [exact P|]; rewrite (HA Op), Hx; symmetry; apply u64_weq.
      rewrite <- (Z.add_0_r (b + off p + v)) at 2; apply weq_add; [lia|apply weq_uwrap; lia|]; replace 0 with (s64 y) by lia; symmetry; apply weq_s64.
    + unfold func in *; rewrite F; rewrite Hf by reflexivity; exact P.
    + destruct P as (Eb & Ex & Rn); split; [exact Eb|]; rewrite Fi; unfold range in *; rewrite Fr; split; [|exact Rn]; apply shifted_value; [apply Fs; reflexivity|exact Ex].
    + destruct P as (Eb & Ex & Rn); split; [exact Eb|]; rewrite Fi; unfold range in *; rewrite Fr; split; [|exact Rn]; apply shifted_value; [apply Fs; reflexivity|exact Ex].
  - rewrite uwrap_id in Fi, Fg by (unfold uin; lia); exists (link_var ι (g + 1) (moved_var (l_var ι (id p)))).
    destruct (link_var_ok ι (g + 1) (moved_var (l_var ι (id p))) K) as [X Kv]; [lia|lia|unfold moved_var; destruct (_ =? _); apply swrap_range; lia|].
    split; [exact X|split; [exact Kv|split; [cbn; lia|split; [|right; cbn; lia]]]].
    assert (V : l_var (link_var ι (g + 1) (moved_var (l_var ι (id p)))) (id d') = moved_var (l_var ι (id p))) by (cbn -[Z.add]; rewrite Fi, Z.eqb_refl; reflexivity).
    unfold points_ok; rewrite T, N; unfold points_to in *; rewrite T; destruct (type_ p); try discriminate Fp;
      destruct P as (Eb & Ex & Rn); eapply packet_moved; try eassumption; auto.
Qed.
End Moved.

(** ** Pointer arithmetic *)

(** The destination of [scalar += pointer] inherits the type and the id of the
    pointer but not its frame, so a stack pointer has to come from the frame the
    destination is marked with. *)
Definition same_frame (insn : bpf_insn) (e : bpf_verifier_env) : bool :=
  negb (type_eqb (type_ (get_reg e (insn_dst insn))) SCALAR_VALUE && type_eqb (type_ (get_reg e (insn_src insn))) PTR_TO_STACK) ||
  (func (get_reg e (insn_dst insn)) =? func (get_reg e (insn_src insn)))%nat.

(** What the instruction leaves for the links: they account for the ids drawn. *)
Definition linked (w : world) (ι : links) (e' : bpf_verifier_env) (reg : bpf_reg_state) (b r : Z) : Prop :=
  exists ι', extends ι ι' /\ links_ok ι' /\ l_gen ι' <= id_gen e' /\ describes w ι' reg b r.

Section AdjustMachine.
Context (w : world) (ι : links) (insn : bpf_insn) (env : bpf_verifier_env) (r0 : Z) (off_ : reg_ptr) (b x y r : Z).
Local Abbreviation dst := (insn_dst insn).
Local Abbreviation p := (get_reg env r0).
Context (W : env_wf env) (Hd : regno_ok dst) (H0 : regno_ok r0) (Ho : ptr_ok off_) (G0 : 0 <= id_gen env) (G1 : id_gen env + 1 < 2 ^ 32).
Context (K : links_ok ι) (Hg : l_gen ι <= id_gen env) (D : describes w ι p b x) (N1 : type_ p <> SCALAR_VALUE) (N2 : type_ p <> NOT_INIT).
Context (Hy : off_mem (ptr_val env off_) y) (Hf : type_ p = PTR_TO_STACK -> func (get_reg env dst) = func p).
Context (RA : BPF_CLASS (insn_code insn) = BPF_ALU64 -> BPF_OP (insn_code insn) = BPF_ADD -> r = u64 (x + y)).
Context (RS : BPF_CLASS (insn_code insn) = BPF_ALU64 -> BPF_OP (insn_code insn) = BPF_SUB -> ptr_is off_ dst = false -> r = u64 (x - y)).

Lemma adjust_described u env' : adjust_ptr_min_max_vals insn (PReg r0) off_ env = (inr u, env') -> uin 64 r -> linked w ι env' (get_reg env' dst) b r.
Proof using W Hd H0 Ho G0 G1 K Hg D N1 N2 Hy Hf RA RS.
  intros H Hr; pose proof (keeps_adjust_ptr insn (PReg r0) off_ ltac:(apply Hd) _ _ _ W H) as (_ & _ & G); specialize (G G0 G1).
  destruct (sim_ptr _ _ _ (ds_sim _ _ _ _ _ D) N1 N2) as (So & v & Hv & Ex).
  pose proof (adjust_ptr_link insn (PReg r0) off_ env u env' W Hd N1 H) as Lk.
  destruct (adjust_ptr_sound insn env (PReg r0) off_ v y W Hd H0 Ho (inv_off_mem _ _ Hv) So Hy _ _ H) as (O & [[T1 T2]|(C & T & v' & I & S' & Mv)]).
  { exists ι; split; [reflexivity|split; [exact K|split; [lia|]]]; apply describes_scalar; [exact T1|exact Lk|]; apply scalar_sim; auto. }
  cbn [ptr_val] in T, Mv; destruct (adjust_ptr_fields insn env (PReg r0) off_ W Hd H0 Ho G0 G1 u env' H) as [F|F]; [congruence|]; cbn [ptr_val] in F.
  assert (HA : BPF_OP (insn_code insn) = BPF_ADD -> r = u64 (x + y)) by auto.
  assert (HS : BPF_OP (insn_code insn) = BPF_SUB -> r = u64 (x - y)).
  { intros E; apply RS; [exact C|exact E|]; destruct Mv as [[E' _]|(_ & Ei & _)]; [rewrite E in E'; discriminate E'|exact Ei]. }
  assert (Op : BPF_OP (insn_code insn) = BPF_ADD \/ BPF_OP (insn_code insn) = BPF_SUB) by (destruct Mv as [[E _]|(E & _)]; auto).
  assert (Hp : points_to w ι p b x) by (pose proof (ds_points _ _ _ _ _ D) as P; unfold points_ok in P; rewrite (pm_null _ _ _ _ _ _ _ F) in P; exact P).
  destruct (moved_points w ι insn _ _ _ _ _ _ b x y r v F K Hg G0 G1 Hv Ex Hy HA HS Op Hf Hp (ds_id _ _ _ _ _ D N2)) as (ι' & X & K' & Lg & P & I').
  exists ι'; split; [exact X|split; [exact K'|split; [exact Lg|]]]; split; [|exact P|congruence|intros _; exact I'].
  assert (E : r = u64 (b + off (get_reg env' dst) + v')); [|rewrite E; apply ptr_sim; congruence || assumption].
  destruct Mv as [[E M]|(E & _ & M)]; [rewrite (HA E)|rewrite (HS E)]; rewrite Ex; [apply moved_add, M|apply moved_sub, M].
Qed.
End AdjustMachine.

(** ** The instruction *)

Section AluMachine.
Context (ops : access_ops) (w : world) (ι : links) (insn : bpf_insn) (e : bpf_verifier_env) (σ : list Z) (m : memory) (β : Z -> Z) (βs : nat -> nat -> Z).
Context (M : machine_sim ops w ι e σ m β βs) (Hok : insn_ok insn) (Hg : l_gen ι <= id_gen e) (G0 : 0 <= id_gen e) (G1 : id_gen e + 1 < 2 ^ 32).
Local Abbreviation dst := (insn_dst insn).
Local Abbreviation src := (insn_src insn).

(** The machine after the instruction. *)
Definition machine_after (e' : bpf_verifier_env) (σ' : list Z) (m' : memory) : Prop :=
  exists ι' β' βs', machine_sim ops w ι' e' σ' m' β' βs' /\ extends ι ι' /\ l_gen ι' <= id_gen e' /\ 0 <= id_gen e'.

Lemma after_dst e' σ' b r : (maps e' = maps e /\ stacks e' = stacks e) -> others dst 1 e e' -> machine_upd σ dst r σ' -> regno_ok dst ->
  linked w ι e' (get_reg e' dst) b r -> machine_after e' σ' m.
Proof using M G0 G1.
  intros [Em Es] (W & O & G) (L & U1 & U2) Hd (ι' & X & K & Lg & D); exists ι', (upd_base β dst b), βs; split; [|split; [exact X|split; [exact Lg|specialize (G G0 G1); lia]]].
  eapply machine_regs; try eassumption; intros r1 H1; unfold upd_base; destruct (Z.eqb_spec r1 dst) as [->|N]; [eauto|].
  destruct (ms_regs M r1 H1) as (x & Hx & Dx); exists x; rewrite U2 by assumption; split; [exact Hx|].
  eapply cs_erase; [symmetry; apply O; [apply H1|exact N]|exact (describes_extends _ _ _ _ _ _ X Dx)].
Qed.

Lemma after_scalar e' σ' b r : (maps e' = maps e /\ stacks e' = stacks e) -> unlinks dst e e' -> machine_upd σ dst r σ' -> regno_ok dst ->
  type_ (get_reg e' dst) = SCALAR_VALUE -> reg_sim (get_reg e' dst) b r -> machine_after e' σ' m.
Proof using M Hg G0 G1.
  intros F [O L] U Hd T S; eapply (after_dst e' σ' b); [exact F|exact O|exact U|exact Hd|]; destruct O as (_ & _ & G); specialize (G G0 G1).
  exists ι; split; [reflexivity|split; [exact (ms_links M)|split; [lia|]]]; apply describes_scalar; assumption.
Qed.

Lemma describes_set_id n x b : type_ (get_reg e src) = SCALAR_VALUE -> l_gen ι < n -> describes w ι (get_reg e src) b x ->
  describes w (link_value ι n x) (set_id (erase_reg (get_reg e src)) n) b x.
Proof using.
  intros T G [S P L I]; split; [exact S|apply points_other; cbn; rewrite T; reflexivity| |intros _; right; cbn; lia].
  intros [t k] Hk; destruct (link_id _ _ _ Hk) as (-> & _ & _); cbn in Hk |- *; unfold link in Hk; cbn in Hk; rewrite T in Hk; cbn in Hk.
  destruct (n =? 0); [discriminate|]; injection Hk as <-; rewrite Z.eqb_refl; reflexivity.
Qed.

(** A copy: the id it may draw stands for the value copied. *)
Lemma after_copy e' σ' x : (maps e' = maps e /\ stacks e' = stacks e) -> copied dst src e e' -> regno_ok dst -> regno_ok src ->
  reg_get σ src = Some x -> machine_upd σ dst x σ' -> machine_after e' σ' m.
Proof using M Hg G0 G1.
  intros [Em Es] (W & Ed & O & C) Hd Hs Hx (L & U1 & U2); destruct (ms_regs M src Hs) as (x0 & Hx0 & Ds); rewrite Hx in Hx0; injection Hx0 as <-.
  assert (Q : exists ι', extends ι ι' /\ links_ok ι' /\ l_gen ι' <= id_gen e' /\ 0 <= id_gen e' /\ describes w ι' (get_reg e' src) (β src) x).
  { destruct C as [[C1 C2]|(T & C1 & C2)].
    - exists ι; split; [reflexivity|split; [exact (ms_links M)|split; [lia|split; [lia|]]]]; eapply cs_erase; [symmetry; exact C1|exact Ds].
    - rewrite uwrap_id in C1, C2 by (unfold uin; lia); destruct (link_value_ok ι (id_gen e + 1) x (ms_links M) ltac:(lia)) as [X K].
      exists (link_value ι (id_gen e + 1) x); split; [exact X|split; [exact K|split; [cbn; lia|split; [lia|]]]].
      eapply cs_erase; [|apply describes_set_id; [exact T|lia|exact Ds]]; rewrite C1; reflexivity. }
  destruct Q as (ι' & X & K & Lg & Gp & D); exists ι', (upd_base β dst (β src)), βs; split; [|auto].
  eapply machine_regs; try eassumption; intros r1 H1; unfold upd_base; destruct (Z.eqb_spec r1 dst) as [->|N].
  - exists x; split; [exact U1|]; eapply cs_erase; [symmetry; exact Ed|exact D].
  - rewrite U2 by assumption; destruct (Z.eq_dec r1 src) as [->|N']; [eauto|]; destruct (ms_regs M r1 H1) as (x1 & Hx1 & Dx); exists x1; split; [exact Hx1|].
    eapply cs_erase; [symmetry; apply O; [apply H1|exact N|exact N']|exact (describes_extends _ _ _ _ _ _ X Dx)].
Qed.

Lemma same_frame_func off_ r0 : same_frame insn e = true -> r0 = dst \/ r0 = src /\ type_ (get_reg e dst) = SCALAR_VALUE ->
  prepared dst r0 e off_ -> type_ (get_reg off_ r0) = PTR_TO_STACK -> func (get_reg off_ dst) = func (get_reg off_ r0).
Proof using.
  intros F C (_ & _ & P & Fr & _) T; destruct C as [->|[-> Td]]; [reflexivity|]; unfold same_frame in F.
  pose proof (f_equal type_ P) as Pt; pose proof (f_equal frameno P) as Pf; cbn in Pt, Pf; rewrite Td, <- Pt, T in F; cbn in F; apply Nat.eqb_eq in F.
  unfold func in *; congruence.
Qed.

Lemma binary_after op o u e' σ' wd : same_frame insn e = true -> wd = 32 \/ wd = 64 -> op <> MOV -> insn_w insn = wd -> BPF_OP (insn_code insn) = alu_code op ->
  BPF_SRC (insn_code insn) = src_code o -> (maps e' = maps e /\ stacks e' = stacks e) -> (exists b r, reg_get σ' dst = Some r /\ reg_sim (get_reg e' dst) b r) ->
  check_alu_binary insn e = (inr u, e') -> step_alu wd op o insn σ = Some σ' -> machine_after e' σ' m.
Proof using M Hok Hg G0 G1.
  intros SF Hw Hm E1 E2 E3 F (b & r' & Hr' & Sr) H Hst; pose proof (machine_state_sim _ _ _ _ _ _ _ _ M) as (W & L & S & _); assert (Sim : regs_sim e σ β) by (split; assumption).
  assert (P : BPF_SRC (insn_code insn) = BPF_X \/ BPF_SRC (insn_code insn) = BPF_K) by (rewrite E3; apply src_code_cases).
  destruct (binary_regnos _ _ _ _ Hok H P) as [Hd Hs]; destruct (label_step _ _ _ _ _ _ _ _ Sim Hd Hs Hw Hst) as (DST & SRC & r & HD & HS & Hr & U).
  pose proof (binary_links _ _ _ _ Hok W P H) as Lk; pose proof U as (_ & U1 & _); rewrite U1 in Hr'; injection Hr' as <-.
  destruct (binary_cases insn e σ β Hok W Sim wd op o DST SRC r u e' E1 E2 E3 Hm HD HS Hr H) as [e0 _ _ T _|e0 off_ r0 x y Pp S0 H0 Ho C Hx N1 N2 Hy RA RS Hrun].
  { eapply after_scalar; eassumption. }
  pose proof Pp as (W0 & G & Pe & _ & _); destruct (ms_regs M r0 H0) as (x0 & Hx0 & D); rewrite Hx in Hx0; injection Hx0 as <-.
  eapply (after_dst e' σ' (β r0)); [exact F|apply Lk|exact U|exact Hd|].
  assert (W64 : BPF_CLASS (insn_code insn) = BPF_ALU64 -> wd = 64) by (intros C64; rewrite <- E1; unfold insn_w; rewrite C64; reflexivity).
  eapply (adjust_described w ι insn e0 r0 off_ (β r0) x y r); try eassumption; try lia; rewrite ?G; try assumption.
  - exact (ms_links M).
  - eapply cs_erase; [symmetry; exact Pe|exact D].
  - intros T; eapply same_frame_func; eassumption.
  - intros C64 EO; apply RA; [auto|]; rewrite E2 in EO; destruct op; try discriminate EO; reflexivity.
  - intros C64 EO Ei; apply RS; [auto| |exact Ei]; rewrite E2 in EO; destruct op; try discriminate EO; reflexivity.
  - eapply alu_value_range; eassumption.
Qed.

(** An accepted arithmetic instruction, on the machine. *)
Lemma alu_machine u e' σ' : same_frame insn e = true -> check_alu_op insn e = (inr u, e') -> step_alu_insn insn σ = Some σ' -> machine_after e' σ' m.
Proof using M Hok Hg G0 G1.
  intros SF H Hst; pose proof (machine_state_sim _ _ _ _ _ _ _ _ M) as (W & L & S & _); assert (Sim : regs_sim e σ β) by (split; assumption).
  destruct (check_alu_sound _ _ _ _ _ _ _ Hok W Sim H Hst) as (W' & β' & [L' S'] & _).
  assert (F : maps e' = maps e /\ stacks e' = stacks e).
  { destruct (alu_fixes insn) as [F1 F2]; split; [exact (program_maps _ _ (fixes_run _ _ _ _ _ F1 H))|exact (fixes_run _ _ _ _ _ F2 H)]. }
  assert (Q : regno_ok dst -> exists b r, reg_get σ' dst = Some r /\ reg_sim (get_reg e' dst) b r) by (intros Hd; destruct (S' _ Hd) as (r & Hr & Sr); eauto).
  assert (Hc : uin 8 (insn_code insn)) by apply Hok; destruct (alu_insn_shape insn Hc) as [(l & Hl & Sh)|N]; [|rewrite not_alu_step in Hst by exact N; discriminate].
  destruct Sh as [wd op o Hw Hm E1 E2 E3 E4|wd o Hw E1 E3 E4|l Hin E4]; rewrite E4 in H.
  - assert (P : BPF_SRC (insn_code insn) = BPF_X \/ BPF_SRC (insn_code insn) = BPF_K) by (rewrite E3; apply src_code_cases).
    rewrite (step_alu_label _ _ _ _ _ Hw Hl) in Hst; eapply binary_after; try eassumption; apply Q, (binary_regnos _ _ _ _ Hok H P).
  - assert (P : BPF_SRC (insn_code insn) = BPF_X \/ BPF_SRC (insn_code insn) = BPF_K) by (rewrite E3; apply src_code_cases).
    destruct (mov_regnos _ _ _ _ Hok W H P) as [Hd Hs]; rewrite (step_alu_label _ _ _ _ _ Hw Hl) in Hst; destruct (Q Hd) as (b & r' & Hr' & Sr).
    destruct (label_step _ _ _ _ _ _ _ _ Sim Hd Hs Hw Hst) as (DST & SRC & r & HD & HS & Hr & U); pose proof U as (_ & U1 & _); rewrite U1 in Hr'; injection Hr' as <-.
    destruct (mov_links _ _ _ _ _ Hok W E3 H) as [[Un T]|(C & -> & Cp)]; [eapply after_scalar; eassumption|].
    assert (wd = 64) as -> by (rewrite <- E1; unfold insn_w; rewrite C; reflexivity).
    assert (r = SRC) as -> by (cbn in Hr; injection Hr as <-; apply uwrap_id; destruct (S _ Hs) as (x & Hx & Hu & _); cbn in HS; congruence).
    eapply after_copy; eassumption.
  - pose proof (unary_regno _ _ _ _ Hok H) as Hd; destruct (unary_step _ _ _ _ _ _ Sim Hd Hl Hin Hst) as (r & _ & U), (Q Hd) as (b & r' & Hr' & Sr).
    pose proof U as (_ & U1 & _); rewrite U1 in Hr'; injection Hr' as <-; destruct (unary_links insn e u e' Hok W H) as [Un T]; eapply after_scalar; eassumption.
Qed.
End AluMachine.
