(* ===== verification/JumpMachine.v ===== *)
(** Conditional jumps, in the verifier and on the machine.

    The relation of [MemStep] is closed under the passes a conditional jump runs
    over the registers and spilled registers of the two states it leaves behind:
    equal scalars share bounds, checked pointers lose or confirm their NULL, and
    packet pointers learn how much of the packet is there.  So [JumpSim] holds of
    it, and the state the machine goes on in describes the whole machine. *)
From Stdlib Require Import ZArith Lia Bool.
From stdpp Require Import base list gmap.
From S2P Require Import Prelude Lists Bits Tnum Bounds RegState ScalarOps Insn Interp Env Branch MemAccess RegArg Precision Bookkeeping Alu Frame AluSound PtrSound AluStep.
From S2P Require Import CondJmp CondJmpSound AluFrame AluIds StackAccess StackSound StackVar MemInsn MemFrame MemStep AluMachine.

Local Open Scope Z_scope.
Local Open Scope kint_scope.

(** ** Other states *)

Section States.
Context (ops : access_ops) (w : world) (ι : links) (e : bpf_verifier_env) (σ : list Z) (m : memory) (β : Z -> Z) (βs : nat -> nat -> Z).
Local Abbreviation sim st := (machine_sim ops w ι (set_cur_state e st) σ m β βs).

(** What a register or a spilled register becomes still describes its value. *)
Definition describes_on (r r' : bpf_reg_state) : Prop := forall b x, describes w ι r b x -> describes w ι r' b x.

Lemma machine_state st st' : sim st -> st_wf st' -> length (frame st') = length (frame st) ->
  (forall r x, regno_ok r -> reg_get σ r = Some x -> describes w ι (st_reg st r) (β r) x -> describes w ι (st_reg st' r) (β r) x) ->
  (forall k, (k < length (frame st))%nat -> Forall2 (fun s s' => slot_type s' = slot_type s /\ (slot_type s !! 0%nat = Some STACK_SPILL -> describes_on (spilled_ptr s) (spilled_ptr s')))
    (stack (frame st !!! k)) (stack (frame st' !!! k))) -> sim st'.
Proof using.
  intros [Wf L Rg St Me Mp Wk Lk] W' Lf Hr Hs; split; try assumption.
  - intros r H; destruct (Rg r H) as (x & Hx & D); exists x; split; [exact Hx|exact (Hr r x H Hx D)].
  - intros k fp Hk; destruct (St k fp Hk) as (A & B & C); cbn in A; specialize (Hs k A); split; [cbn; lia|].
    change (frame_of (set_cur_state e ?q) k) with (frame q !!! k) in *; split; [rewrite <- (Forall2_length _ _ _ Hs); exact B|].
    intros spi s' H'; destruct (Forall2_lookup_r _ _ _ _ _ Hs H') as (s & H & Et & Ed); destruct (C spi s H) as [C1 C2]; split; rewrite Et; [exact C1|].
    intros T; destruct (C2 T) as (v & Lv & D); exists v; split; [exact Lv|exact (Ed T _ _ D)].
Qed.

Lemma slots_same (l : list bpf_stack_state) : Forall2 (fun s s' => slot_type s' = slot_type s /\ (slot_type s !! 0%nat = Some STACK_SPILL -> describes_on (spilled_ptr s) (spilled_ptr s'))) l l.
Proof using. apply Forall_Forall2_diag, Forall_forall; intros s _; split; [reflexivity|]; intros _ b x D; exact D. Qed.

(** A change of the current frame that leaves its stack alone. *)
Lemma machine_cur_frame f st : sim st -> (forall fn, stack (f fn) = stack fn) -> length (regs (f (st_func st))) = 11%nat ->
  (forall r x, regno_ok r -> reg_get σ r = Some x -> describes w ι (st_reg st r) (β r) x -> describes w ι (regs (f (st_func st)) !!! Z.to_nat r) (β r) x) ->
  sim (set_frame st (alter f (curframe st) (frame st))).
Proof using.
  intros S Hf Hl Hr; assert (W : st_wf st) by apply S; destruct W as [Hc Hg]; apply (machine_state st); [exact S| |cbn; apply length_alter| |].
  - split; [cbn; rewrite length_alter; exact Hc|]; rewrite st_func_alter by exact Hc; exact Hl.
  - intros r x H Hx D; unfold st_reg; rewrite st_func_alter by exact Hc; exact (Hr r x H Hx D).
  - intros k Hk; cbn; destruct (lookup_lt_is_Some_2 _ k Hk) as [fn Hn]; rewrite (list_lookup_total_correct _ _ fn Hn).
    assert (E : alter f (curframe st) (frame st) !!! k = fn \/ alter f (curframe st) (frame st) !!! k = f fn).
    { rewrite list_lookup_total_alt, list_lookup_alter; destruct (decide _); subst; rewrite Hn; cbn; auto. }
    destruct E as [-> | ->]; rewrite ?Hf; apply slots_same.
Qed.

(** A pass over the registers and the spilled registers of the frames. *)
Lemma machine_pass f st : sim st -> (forall r, describes_on r (f r)) -> sim (upd_frames (upd_func_regs f) st).
Proof using.
  intros S Hf; assert (W : st_wf st) by apply S; apply (machine_state st); [exact S|apply pass_wf, W|cbn; apply length_imap| |].
  - intros r x Hr _ D; rewrite pass_reg by assumption; apply Hf, D.
  - intros k Hk; cbn; destruct (lookup_lt_is_Some_2 _ k Hk) as [fn Hn]; rewrite (list_lookup_total_correct _ _ fn Hn).
    rewrite list_lookup_total_alt, list_lookup_imap, Hn; cbn; destruct (decide _); [|apply slots_same]; cbn.
    apply Forall2_fmap_r, Forall_Forall2_diag, Forall_forall; intros s _; unfold upd_spilled.
    cbn beta delta [compose]; case_bool_decide; [split; [reflexivity|]; intros _; apply Hf|split; [reflexivity|contradiction]].
Qed.

(** ** The passes *)

(** A scalar stands for its value whatever the base. *)
Lemma describes_scalar_base r b b' x : type_ r = SCALAR_VALUE -> describes w ι r b x -> describes w ι r b' x.
Proof using.
  intros T [[U S] P L D]; split; [split; [exact U|rewrite T in *; exact S]|apply points_other; rewrite T; reflexivity|exact L|exact D].
Qed.

Lemma equal_on known b0 x0 reg : type_ known = SCALAR_VALUE -> id known <> 0 -> describes w ι known b0 x0 ->
  describes_on reg (if type_eqb (type_ reg) SCALAR_VALUE && (id reg =? id known) then known else reg).
Proof using.
  intros T N D0 b x D; destruct (type_eqb_spec (type_ reg) SCALAR_VALUE) as [Tr|], (Z.eqb_spec (id reg) (id known)) as [E|]; cbn [andb]; try exact D.
  rewrite (ds_link _ _ _ _ _ D _ (link_scalar _ _ Tr E N)), <- (ds_link _ _ _ _ _ D0 _ (link_scalar _ _ T eq_refl N)).
  eapply describes_scalar_base; eassumption.
Qed.

Lemma link_null reg : reg_type_may_be_null (type_ reg) = true -> id reg <> 0 -> link reg = Some (true, id reg).
Proof using.
  intros N I; unfold link; destruct (Z.eqb_spec (id reg) 0); [contradiction|]; destruct (type_eqb_spec (type_ reg) SCALAR_VALUE) as [T|]; [rewrite T in N; discriminate|].
  rewrite N; reflexivity.
Qed.

(** The object of a checked pointer, which has lost its id. *)
Lemma points_checked reg q b x : reg_type_may_be_null (type_ reg) = true -> type_ q = type_ (not_null_type (w_maps w) reg) -> raw q = raw (not_null_type (w_maps w) reg) ->
  func q = func reg -> points_to w ι (not_null_type (w_maps w) reg) b x -> points_ok w ι q b x.
Proof using.
  intros N T R F; assert (Fn : func (not_null_type (w_maps w) reg) = func reg) by (unfold not_null_type; destruct (type_ reg); cbn zeta; repeat case_match; reflexivity).
  destruct (not_null_type_spec (w_maps w) reg N) as (_ & _ & Nn & _); unfold points_ok; rewrite T, Nn; unfold points_to, mem_size; rewrite T, R, F, Fn.
  assert (Np : type_is_pkt_pointer (type_ (not_null_type (w_maps w) reg)) = false /\ type_ (not_null_type (w_maps w) reg) <> PTR_TO_PACKET_END).
  { unfold not_null_type; destruct (type_ reg) eqn:Tr; try discriminate N; cbn zeta; repeat case_match; cbn; rewrite ?Tr; split; (reflexivity || discriminate). }
  destruct Np as [Np Ne]; destruct (type_ (not_null_type (w_maps w) reg)); trivial; discriminate Np || contradiction.
Qed.

Lemma null_on reg k x0 : (link reg = Some (true, k) -> l_ids ι (true, k) = x0) -> describes_on reg (mark_ptr_or_null_reg (w_maps w) k (x0 =? 0) reg).
Proof using.
  intros Hx b x D; destruct (or_null_sim (w_maps w) k (x0 =? 0) reg b x (ds_sim _ _ _ _ _ D)) as [S L].
  { intros E Lk; apply Z.eqb_eq in E; rewrite (ds_link _ _ _ _ _ D _ Lk), (Hx Lk); exact E. }
  revert S L; unfold mark_ptr_or_null_reg; destruct (reg_type_may_be_null (type_ reg)) eqn:N; cbn [andb]; [|intros _ _; exact D].
  destruct (Z.eqb_spec (id reg) k) as [E|]; cbn [andb]; [|intros _ _; exact D]; destruct (Z.eqb_spec (id reg) 0) as [|Z0]; cbn [negb]; [intros _ _; exact D|].
  match goal with |- context [if ?c then reg else _] => destruct c end; [intros _ _; exact D|].
  pose proof (link_null reg N Z0) as Lk; rewrite E in Lk; pose proof (ds_link _ _ _ _ _ D _ Lk) as Ex; rewrite (Hx Lk) in Ex; subst x0.
  destruct (Z.eqb_spec x 0) as [X0|X0]; intros S L; [apply describes_scalar; [reflexivity|reflexivity|exact S]|].
  pose proof (ds_points _ _ _ _ _ D) as P; unfold points_ok in P; rewrite N in P; specialize (P X0).
  pose proof (ds_id _ _ _ _ _ D ltac:(intros T; rewrite T in N; discriminate)) as I.
  assert (Fn : func (not_null_type (w_maps w) reg) = func reg) by (unfold not_null_type; destruct (type_ reg); cbn zeta; repeat case_match; reflexivity).
  destruct (not_null_type_spec (w_maps w) reg N) as (T1 & _ & T3 & _).
  destruct (negb _); split; [exact S|apply (points_checked reg); trivial|intros k' Lk'; rewrite link_none in Lk' by auto; discriminate Lk'|auto|
    exact S|apply (points_checked reg); trivial|intros k' Lk'; rewrite link_none in Lk' by auto; discriminate Lk'|rewrite not_null_id; auto].
Qed.

(** The packet or its metadata: where it starts and how long it is. *)
Definition window (t : bpf_reg_type) : Z * Z :=
  if type_eqb t PTR_TO_PACKET then (w_data w, w_end w - w_data w) else (w_meta w, w_data w - w_meta w).

Lemma packet_points r b x : type_is_pkt_pointer (type_ r) = true ->
  points_ok w ι r b x <-> pkt_points ι r b x (window (type_ r)).1 (window (type_ r)).2.
Proof using. unfold points_ok, points_to, window; destruct (type_ r); intros H; try discriminate H; reflexivity. Qed.

Lemma pkt_end p q b x : world_ok ops w m -> links_ok ι -> pkt_pair p q -> describes w ι q b x ->
  type_is_pkt_pointer (type_ p) = true /\ x = (window (type_ p)).1 + (window (type_ p)).2 /\ 0 <= (window (type_ p)).1 /\ (window (type_ p)).1 + MAX_PACKET_OFF < 2 ^ 64.
Proof using.
  intros Wk K P D; destruct (wk_packet _ _ _ Wk) as (M0 & M1 & M2 & _); destruct P as [[Tp Tq]|[Tp I]]; rewrite Tp; cbn [window fst snd]; unfold window; cbn.
  - pose proof (ds_points _ _ _ _ _ D) as P; unfold points_ok, points_to in P; rewrite Tq in P; cbn in P; lia.
  - unfold reg_is_init_pkt_pointer in I; repeat (apply andb_true_iff in I as [I ?]); apply type_eqb_true in I; rewrite Z.eqb_eq in *.
    pose proof (ds_points _ _ _ _ _ D) as P; apply packet_points in P; [|rewrite I; reflexivity]; rewrite I in P; destruct P as (Eb & Ex & _); cbn in Eb.
    rewrite Eb in Ex; replace (off q) with 0 in Ex; replace (id q) with 0 in Ex; rewrite (lk_zero _ K), uwrap_id in Ex by (unfold uin; lia); lia.
Qed.

Lemma good_range_var reg ro n v : reg_mem reg v -> good_pkt_range reg ro = Some n -> 0 <= v <= MAX_PACKET_OFF /\ uin 16 n.
Proof using.
  intros (Hm & (_ & Hx) & _) H; cbn in Hx; unfold good_pkt_range in H; assert (Hv : uin 64 v) by apply Hm; rewrite uwrap_id in Hx by exact Hv.
  match type of H with (if ?c then _ else _) = _ => destruct c; [discriminate|] end.
  match type of H with (if ?c then _ else _) = _ => destruct c eqn:C; [discriminate|] end.
  apply orb_false_iff in C as [C _]; injection H as <-; split; [unfold uin in Hv; lia|destruct ro; apply uwrap_range; lia].
Qed.

(** The range marked covers bytes of the packet. *)
Lemma pkt_range p q bp bq xp xq ro n : world_ok ops w m -> links_ok ι -> describes w ι p bp xp -> describes w ι q bq xq -> pkt_pair p q ->
  (if ro : bool then xp < xq else xp <= xq) -> good_pkt_range p ro = Some n -> uin 16 n /\ l_var ι (id p) + n <= (window (type_ p)).2.
Proof using.
  intros Wk K Dp Dq P O G; destruct (pkt_end p q bq xq Wk K P Dq) as (Tp & Eq & B0 & B1).
  destruct (sim_ptr _ _ _ (ds_sim _ _ _ _ _ Dp)) as (So & v & Hv & Ex); [intros T; rewrite T in Tp; discriminate..|].
  pose proof (ds_points _ _ _ _ _ Dp) as Pp; apply packet_points in Pp; [|exact Tp]; destruct Pp as (Eb & Ex' & _).
  assert (Ev : l_var ι (id p) = s64 v) by (apply (packet_var bp (off p)); [apply K|congruence]); pose proof Hv as (Ok & Mem & _).
  destruct (good_range_var p ro n v Mem G) as [Hvr Hn]; split; [exact Hn|].
  assert (E : xp = u64 ((window (type_ p)).1 + v + off p)) by (rewrite Ex, Eb; f_equal; lia).
  destruct (good_range_safe p ro n (window (type_ p)).1 v xq xp So Ok Mem B0 B1 G E O) as [_ R].
  rewrite Ev, swrap_id; [lia|lia|unfold sin; lia].
Qed.

Lemma pkt_on p q bp bq xp xq ro n reg : world_ok ops w m -> links_ok ι -> describes w ι p bp xp -> describes w ι q bq xq -> pkt_pair p q ->
  (if ro : bool then xp < xq else xp <= xq) -> good_pkt_range p ro = Some n ->
  describes_on reg (if type_eqb (type_ reg) (type_ p) && (id reg =? id p) then set_raw reg (Z.max (u16 (raw reg)) n) else reg).
Proof using.
  intros Wk K Dp Dq P O G b x D; destruct (type_eqb_spec (type_ reg) (type_ p)) as [T|], (Z.eqb_spec (id reg) (id p)) as [E|]; cbn [andb]; try exact D.
  destruct (pkt_range p q bp bq xp xq ro n Wk K Dp Dq P O G) as [Hn R]; destruct (pkt_end p q bq xq Wk K P Dq) as (Tp & _).
  destruct D as [S Pt L I]; split; [eapply reg_sim_ext; [..|exact S]; reflexivity| |exact L|exact I].
  apply packet_points in Pt; [|rewrite T; exact Tp]; apply packet_points; [cbn; rewrite T; exact Tp|]; cbn [type_ set_raw]; rewrite T in *.
  destruct Pt as (Eb & Ex & Rn); split; [exact Eb|split; [exact Ex|]]; cbn [id set_raw]; unfold range in *; cbn [raw set_raw].
  pose proof (uwrap_range 16 (raw reg) ltac:(lia)) as U; rewrite uwrap_id by (unfold uin in *; lia); intros Q; rewrite E in *; lia.
Qed.
End States.

(** ** The relation is closed under jumps *)

Lemma state_same e e1 e2 : e1 ≈ e2 -> set_cur_state e (cur_state e1) ≈ set_cur_state e (cur_state e2).
Proof.
  intros H; pose proof (f_equal cur_state H) as E; unfold same_env, erase_env in *; cbn in E |- *; rewrite E; reflexivity.
Qed.

#[export] Instance machine_jump_sim ops w ι e σ m β βs : JumpSim (w_maps w) σ β (fun st => machine_sim ops w ι (set_cur_state e st) σ m β βs).
Proof.
  split.
  - intros st S; exact (machine_state_sim _ _ _ _ _ _ _ _ S).
  - intros st b [Wf L Rg St Me Mp Wk Lk]; split; assumption.
  - intros e1 e2 E S; eapply machine_same; [apply state_same; symmetry; exact E|exact S].
  - intros f st S L H; apply (machine_cur_frame ops w ι e σ m β βs (fun fn => set_regs fn (f (regs fn)))); [exact S|reflexivity|exact L|].
    intros r x Hr Hx D; destruct (H r Hr) as [T R]; apply (describes_tag w ι (st_reg st r)); [exact T|exact (R x Hx (ds_sim _ _ _ _ _ D))|exact D].
  - intros r st S Hr T N; apply machine_pass; [exact S|]; destruct (ms_regs S r Hr) as (x & Hx & D); intros reg; eapply equal_on; eassumption.
  - intros r st x S Hr N Hx; unfold mark_ptr_or_null_regs; cbv zeta; apply machine_pass.
    + destruct (_ && _); [|exact S]; destruct (release_reference_state _ _) as [rs|]; [|exact S].
      apply (machine_cur_frame ops w ι e σ m β βs (fun fn => set_refs fn rs)); [exact S|reflexivity| |auto].
      assert (W : st_wf st) by apply S; apply W.
    + intros reg; apply null_on; intros Lk; destruct (ms_regs S r Hr) as (x' & Hx' & D); rewrite Hx in Hx'; injection Hx' as <-.
      destruct (link_id _ _ _ Lk) as (E & I & _); rewrite <- E in I; symmetry; apply (ds_link _ _ _ _ _ D); apply link_null; assumption.
  - intros a b ro st xa xb S Ha Hb Xa Xb P O; unfold find_good_pkt_pointers; destruct (good_pkt_range _ ro) as [n|] eqn:G; [|exact S].
    destruct (ms_regs S a Ha) as (xa' & Xa' & Da), (ms_regs S b Hb) as (xb' & Xb' & Db); rewrite Xa in Xa'; rewrite Xb in Xb'; injection Xa' as <-; injection Xb' as <-.
    apply machine_pass; [exact S|]; intros reg; exact (pkt_on ops w ι m _ _ _ _ _ _ ro n reg (ms_world S) (ms_links S) Da Db P O G).
Qed.

(** ** The jump *)

(** The jump and the machine: the state the machine goes on in describes it, or
    the prediction took a pointer for not NULL whose compared bits are zero. *)
Lemma cond_jmp_cases ops w ι insn j op o e u e' σ m β βs pc' : insn_ok insn -> jumptable (insn_code insn) = jmp_label j op o ->
  machine_sim ops w ι e σ m β βs -> check_cond_jmp_op insn e = (inr u, e') -> step_jmp (jmp_width j) op o insn σ (insn_idx e) = Some pc' ->
  (exists x, reg_get σ (insn_dst insn) = Some x /\ reg_type_not_null (type_ (get_reg e (insn_dst insn))) = true /\ uwrap (jmp_width j) x = 0) \/
  jump_to (fun st => machine_sim ops w ι (set_cur_state e st) σ m β βs) e' pc'.
Proof.
  intros Ok L M H St.
  destruct (reg_get σ (insn_dst insn)) as [x|] eqn:Ex; [|unfold step_jmp in St; rewrite Ex in St; discriminate].
  destruct (decide (reg_type_not_null (type_ (get_reg e (insn_dst insn))) = true /\ uwrap (jmp_width j) x = 0)) as [X|X]; [left; exists x; auto|right].
  eapply (check_cond_jmp_sound (w_maps w) σ β _ insn j op o e); [exact Ok|exact L| |exact (ms_maps M)| |exact H|exact St].
  - revert M; apply machine_cur; reflexivity.
  - intros z Hz N E; rewrite Ex in Hz; injection Hz as <-; apply X; split; assumption.
Qed.

(** The range of a described packet pointer, from its variable part on. *)
Lemma packet_in_range w ι reg b x : links_ok ι -> describes w ι reg b x -> type_is_pkt_pointer (type_ reg) = true -> 0 < range reg ->
  s64 (x - (window w (type_ reg)).1 - off reg) + range reg <= (window w (type_ reg)).2.
Proof.
  intros K D T R; pose proof (ds_points _ _ _ _ _ D) as P; apply packet_points in P; [|exact T]; destruct P as (Eb & Ex & Rn); specialize (Rn R); subst b.
  replace (s64 _) with (l_var ι (id reg)); [exact Rn|]; apply (packet_var (window w (type_ reg)).1 (off reg)); [apply K|].
  rewrite <- Ex; replace (_ + off reg + (x - _ - off reg)) with x by lia; symmetry; apply uwrap_id, (proj1 (ds_sim _ _ _ _ _ D)).
Qed.
