(* ===== verification/MemTheorems.v ===== *)
(** Accepted loads, stores and conditional jumps on the machine, as theorems: the
    machine executes loads and stores inside the objects of the program, and the
    verifier state it goes on with describes the registers, the stack, the packet
    and the memory. *)
From Stdlib Require Import ZArith Lia Bool.
From stdpp Require Import base list gmap.
From S2P Require Import Prelude Bits Tnum Bounds RegState ScalarOps Insn Interp Env Branch MemAccess RegArg Precision Bookkeeping Alu AluSound AluStep CondJmp CondJmpSound AluIds Samples VerifierTheorems.
From S2P Require Import StackAccess StackSound StackVar MemInsn MemFrame MemStep AluMachine JumpMachine.

Local Open Scope Z_scope.
Local Open Scope kint_scope.

(** ** A concrete machine *)

(** A frame below 65536, a writable map value at 4096, a packet with 8 bytes of
    metadata at 4160 and a constant map value at 8192. *)
Definition sample_const : memory := gset_to_gmap 17 (list_to_set (seqZ 8192 8)).
Definition sample_memory : memory := sample_const ∪ gset_to_gmap 0 (list_to_set (seqZ 4096 128 ++ seqZ 65024 512)).

(** Where the two maps themselves are. *)
Definition sample_map_at (i : Z) : Z := if (i =? 1) || (i =? 2) then 131072 + 64 * i else 0.

Definition sample_world : world :=
  mk_world [65536] (maps (sample_env [])) (fun i b => i = 1 /\ b = 4096 \/ i = 2 /\ b = 8192) (fun i x => x = u64 (sample_map_at i)) 196608 sample_const (fun a => 4096 <= a < 4224) 4160 4168 4224.

Definition sample_links : links := mk_links (fun k => if snd k =? 1 then 42 else 0) (fun _ => 0) 2.

Definition sample_ops : access_ops :=
  mk_access_ops None None (fun _ _ _ _ => inl (- EACCES)) false (fun _ => None)
    (fun _ => Some (fun _ _ => inr 8192)) (fun a n => default 0 (load_bytes sample_const a (Z.to_nat n))).

Lemma const_lookup a c : sample_const !! a = Some c <-> 8192 <= a < 8200 /\ c = 17.
Proof.
  unfold sample_const; pose proof (lookup_gset_to_gmap_Some 17 (list_to_set (seqZ 8192 8) : gset Z) a c) as H.
  rewrite H, elem_of_list_to_set, elem_of_seqZ; clear H; split; intros [A B]; split; lia.
Qed.

Lemma const_none a : ~ 8192 <= a < 8200 -> sample_const !! a = None.
Proof. intros N; destruct (sample_const !! a) as [c|] eqn:E; [apply const_lookup in E; lia|reflexivity]. Qed.

Lemma memory_lookup a c : sample_memory !! a = Some c <-> (8192 <= a < 8200 /\ c = 17) \/ ((4096 <= a < 4224 \/ 65024 <= a < 65536) /\ c = 0).
Proof.
  unfold sample_memory; pose proof (lookup_union_Some_raw sample_const (gset_to_gmap 0 (list_to_set (seqZ 4096 128 ++ seqZ 65024 512) : gset Z)) a c) as H.
  pose proof (lookup_gset_to_gmap_Some 0 (list_to_set (seqZ 4096 128 ++ seqZ 65024 512) : gset Z) a c) as G.
  rewrite H, G, elem_of_list_to_set, elem_of_app, !elem_of_seqZ, const_lookup; split.
  - intros [C|(_ & C & <-)]; [left; exact C|right; split; [lia|reflexivity]].
  - clear H G; intros [C|[C ->]]; [left; exact C|right; split; [apply const_none; lia|split; [lia|reflexivity]]].
Qed.

Lemma sample_world_ok : world_ok sample_ops sample_world sample_memory.
Proof.
  assert (Mp : forall i, let map := w_maps sample_world !!! i in (i = 1 /\ map = sample_map) \/ (i = 2 /\ map = sample_rdonly_map) \/ map = inhabitant).
  { intros i; cbn zeta; destruct (Z.eq_dec i 1) as [->|N1]; [left; split; reflexivity|]; destruct (Z.eq_dec i 2) as [->|N2]; [right; left; split; reflexivity|].
    right; right; unfold lookup_total, map_lookup_total; assert (E : (maps (sample_env []) : gmap Z bpf_map) !! i = None) by
      (cbn [maps sample_env]; rewrite lookup_insert_ne, lookup_singleton_ne by congruence; reflexivity).
    change (default inhabitant ((maps (sample_env []) : gmap Z bpf_map) !! i) = inhabitant); rewrite E; reflexivity. }
  assert (U : forall z, 0 <= z < 2 ^ 17 -> u64 z = z) by (intros; apply uwrap_id; unfold uin; lia).
  split.
  - intros i; destruct (Mp i) as [[_ E]|[[_ E]|E]]; cbn zeta in E; rewrite E; split; closed_range.
  - intros i b [[-> ->]|[-> ->]]; cbn zeta; [change (w_maps sample_world !!! 1) with sample_map|change (w_maps sample_world !!! 2) with sample_rdonly_map].
    + intros j Hj; cbn [value_size sample_map] in Hj; cbn; rewrite U by lia; lia.
    + cbn [bpf_map_is_rdonly]; intros j Hj; cbn [value_size sample_rdonly_map] in Hj; exists 17; apply const_lookup; rewrite U by lia; lia.
  - intros i b f o addr size [[-> ->]|[-> ->]]; cbn zeta; [discriminate|]; change (w_maps sample_world !!! 2) with sample_rdonly_map.
    intros _ Ef Fo Hs H0 H1; injection Ef as <-; injection Fo as <-; cbn [kernel_read sample_ops].
    destruct (proj2 (load_is_some sample_const (Z.to_nat size) (8192 + o))) as [v Hv]; [|change (w_const sample_world) with sample_const; rewrite Hv; reflexivity].
    intros k Hk; exists 17; apply const_lookup; cbn [value_size sample_rdonly_map] in H1; rewrite U by lia; lia.
  - intros a Ha; cbn in Ha; split; [exists 0; apply memory_lookup; lia|apply const_none; lia].
  - intros a c Hc; apply memory_lookup; apply const_lookup in Hc; lia.
  - intros [|k] fp Hk i Hi; [injection Hk as <-|destruct k; discriminate]; rewrite U by lia; split; [|split; [apply const_none; lia|cbn; lia]].
    exists 0; unfold byte_at; apply memory_lookup; rewrite U by lia; lia.
  - intros [|j] [|k] fj fk Hj Hk N; try contradiction; try (destruct j; discriminate); destruct k; discriminate.
  - cbn; split; [lia|split; [lia|split; [lia|intros j Hj; rewrite U by lia; cbn; lia]]].
Qed.

Lemma sample_machine prog : machine_sim sample_ops sample_world sample_links (sample_env prog) sample_values sample_memory sample_base (fun _ _ => 0).
Proof.
  destruct (sample_sim prog) as (Wf & L & Rg & _); split; [exact Wf|exact L| | |intros a c Hc; apply memory_lookup in Hc; lia|reflexivity|exact sample_world_ok|split; [reflexivity|intros; cbn; kia]].
  - intros r Hr; destruct (Rg r Hr) as (x & Hx & S); exists x; split; [exact Hx|]; destruct (regno_cases r Hr) as [<-|[<-|[<-|[<-|[<-|[<-|[<-|[<-|[<-|[<-|[<-|[]]]]]]]]]]]];
      vm_compute in Hx; injection Hx as <-; (split; [exact S| |intros k K; first [discriminate K|injection K as <-; reflexivity]|intros _; vm_compute; intuition congruence]); clear S.
    all: try exact Logic.I.
    + left; split; reflexivity.
    + intros N; contradiction N; reflexivity.
    + reflexivity.
  - intros [|k] fp Hk; [|destruct k; discriminate]; injection Hk as <-; split; [cbn; lia|split; [cbn; lia|]]; intros [|spi] s Hs; discriminate Hs.
Qed.

(** ** Loads and stores *)

(** C4: An accepted load through a pointer to the stack, a map value, a memory
    region or a packet is executed by the machine: the bytes it reads belong to
    the object.  The verifier state after it describes the registers and memory
    after it; that includes registers filled from the stack, the bounds of
    narrow loads, and the known contents of read-only maps. *)
Theorem load_simulates ops helper prog w ι s e β βs insn sz u e' : machine_sim ops w ι e (m_regs s) (m_mem s) β βs -> insn_ok insn ->
  0 <= m_pc s -> prog !! Z.to_nat (m_pc s) = Some insn -> jumptable (insn_code insn) = L_LDX_MEM sz ->
  usable (get_reg e (insn_src insn)) = true -> check_ldx ops insn e = (inr u, e') ->
  exists σ' m' β' βs', step helper prog s = Some (Next (mk_machine σ' m' (m_pc s + 1))) /\ machine_sim ops w ι e' σ' m' β' βs'.
Proof. intros M Ok P0 Hi L Pl H; eapply ldx_sim; eassumption. Qed.

Definition ldx_insn : bpf_insn := mk_insn 0x79 0 3 8 0.

Lemma load_simulates_witness : exists σ' m' β' βs',
  step (fun _ _ _ => None) [ldx_insn] (mk_machine sample_values sample_memory 0) = Some (Next (mk_machine σ' m' 1)) /\
  machine_sim sample_ops sample_world sample_links (check_ldx sample_ops ldx_insn (sample_env [ldx_insn])).2 σ' m' β' βs'.
Proof.
  assert (A : (check_ldx sample_ops ldx_insn (sample_env [ldx_insn])).1 = inr ()) by (vm_compute; reflexivity).
  assert (Ok : insn_ok ldx_insn) by closed_range.
  exact (load_simulates sample_ops (fun _ _ _ => None) [ldx_insn] sample_world sample_links (mk_machine sample_values sample_memory 0) (sample_env [ldx_insn]) sample_base _
    ldx_insn DW () _ (sample_machine _) Ok (Z.le_refl 0) eq_refl eq_refl eq_refl (accepted _ _ _ A)).
Defined.

(** C5: An accepted store (of a register, of a constant, or an atomic addition)
    through such a pointer is executed by the machine: the bytes it writes
    belong to the object, no constant byte changes, and no other stack frame.
    The verifier state after it describes the registers and memory after it;
    that includes spilled registers, known zero bytes, and every offset a
    pointer with a variable offset may have. *)
Theorem store_simulates ops helper prog w ι s e β βs insn u e' : machine_sim ops w ι e (m_regs s) (m_mem s) β βs -> insn_ok insn ->
  0 <= m_pc s -> prog !! Z.to_nat (m_pc s) = Some insn -> usable (get_reg e (insn_dst insn)) = true ->
  (match jumptable (insn_code insn) with L_STX_MEM _ | L_STX_XADD _ => check_stx ops insn e | L_ST_MEM _ => check_st ops insn e | _ => (inl 0, e) end) = (inr u, e') ->
  exists σ' m' β' βs', step helper prog s = Some (Next (mk_machine σ' m' (m_pc s + 1))) /\ machine_sim ops w ι e' σ' m' β' βs'.
Proof.
  intros M Ok P0 Hi Pl H; destruct (jumptable (insn_code insn)) eqn:L; try discriminate H;
    [eapply stx_sim|eapply xadd_sim|eapply st_sim]; eassumption.
Qed.

Definition stx_insn : bpf_insn := mk_insn 0x7b 10 5 (-8) 0.

Lemma store_simulates_witness : exists σ' m' β' βs',
  step (fun _ _ _ => None) [stx_insn] (mk_machine sample_values sample_memory 0) = Some (Next (mk_machine σ' m' 1)) /\
  machine_sim sample_ops sample_world sample_links (check_stx sample_ops stx_insn (sample_env [stx_insn])).2 σ' m' β' βs'.
Proof.
  assert (A : (check_stx sample_ops stx_insn (sample_env [stx_insn])).1 = inr ()) by (vm_compute; reflexivity).
  assert (Ok : insn_ok stx_insn) by closed_range.
  exact (store_simulates sample_ops (fun _ _ _ => None) [stx_insn] sample_world sample_links (mk_machine sample_values sample_memory 0) (sample_env [stx_insn]) sample_base _
    stx_insn () _ (sample_machine _) Ok (Z.le_refl 0) eq_refl eq_refl (accepted _ _ _ A)).
Defined.

(** ** Conditional jumps *)

(** C3: If [check_cond_jmp_op] accepts a conditional jump, the instruction the
    interpreter goes to is the next one of the current state or the start of
    the state just pushed, and that state describes the whole machine: the
    bounds of the registers, which of the checked pointers are NULL, the map
    values the others point to, how much of the packet is there, and the stack.
    The one exception: the destination is of a pointer type that cannot be
    NULL, and the bits compared are zero all the same. *)
Theorem check_cond_jmp_op_simulates ops w ι insn j op o e u e' σ m β βs pc' : insn_ok insn -> jumptable (insn_code insn) = jmp_label j op o ->
  machine_sim ops w ι e σ m β βs -> check_cond_jmp_op insn e = (inr u, e') -> step_jmp (jmp_width j) op o insn σ (insn_idx e) = Some pc' ->
  (exists x, reg_get σ (insn_dst insn) = Some x /\ reg_type_not_null (type_ (get_reg e (insn_dst insn))) = true /\ uwrap (jmp_width j) x = 0) \/
  (pc' = insn_idx e' + 1 /\ machine_sim ops w ι (set_cur_state e (cur_state e')) σ m β βs) \/
  (exists el l, head e' = el :: l /\ pc' = elem_insn_idx el /\ machine_sim ops w ι (set_cur_state e (elem_st el)) σ m β βs).
Proof. apply cond_jmp_cases. Qed.

Lemma check_cond_jmp_op_simulates_witness : exists el l, head (check_cond_jmp_op sample_jeq (sample_env [sample_jeq])).2 = el :: l /\ elem_insn_idx el = 4 /\
  machine_sim sample_ops sample_world sample_links (set_cur_state (sample_env [sample_jeq]) (elem_st el)) sample_values sample_memory sample_base (fun _ _ => 0).
Proof.
  assert (A : (check_cond_jmp_op sample_jeq (sample_env [sample_jeq])).1 = inr ()) by (vm_compute; reflexivity).
  assert (Ok : insn_ok sample_jeq) by closed_range.
  destruct (check_cond_jmp_op_simulates sample_ops sample_world sample_links sample_jeq false JEQ K (sample_env [sample_jeq]) () _ sample_values sample_memory sample_base _ 4
    Ok eq_refl (sample_machine _) (accepted _ _ _ A) eq_refl) as [(x & _ & N & _)|[(E & _)|(el & l & E & Ei & M)]].
  - vm_compute in N; discriminate N.
  - vm_compute in E; discriminate E.
  - exists el, l; auto.
Defined.

(** The variable part of a packet pointer with value [x]: what it is away from
    the start [b] of what it points into, less its fixed offset. *)
Definition pkt_var (reg : bpf_reg_state) (b x : Z) : Z := s64 (x - b - off reg).

(** C14: After an accepted conditional jump whose destination is not of a
    pointer type that cannot be NULL (a comparison of packet pointers, say), in
    the state the machine goes on in, the range of every packet pointer covers
    only bytes of the packet, and the range of every metadata pointer only
    bytes of the metadata: the bytes from its variable part on, as many as the
    range says, end at the end of the packet (the start of the data) at the
    latest. *)
Theorem packet_range_safe ops w ι insn j op o e u e' σ m β βs pc' : insn_ok insn -> jumptable (insn_code insn) = jmp_label j op o ->
  machine_sim ops w ι e σ m β βs -> reg_type_not_null (type_ (get_reg e (insn_dst insn))) = false ->
  check_cond_jmp_op insn e = (inr u, e') -> step_jmp (jmp_width j) op o insn σ (insn_idx e) = Some pc' ->
  exists st, (pc' = insn_idx e' + 1 /\ st = cur_state e' \/ exists el l, head e' = el :: l /\ pc' = elem_insn_idx el /\ st = elem_st el) /\
    forall r x, regno_ok r -> reg_get σ r = Some x -> let reg := st_reg st r in 0 < range reg ->
      (type_ reg = PTR_TO_PACKET -> w_data w + pkt_var reg (w_data w) x + range reg <= w_end w) /\
      (type_ reg = PTR_TO_PACKET_META -> w_meta w + pkt_var reg (w_meta w) x + range reg <= w_data w).
Proof.
  intros Ok L M N H St; destruct (cond_jmp_cases ops w ι insn j op o e u e' σ m β βs pc' Ok L M H St) as [(x & _ & X & _)|J]; [congruence|].
  assert (R : forall st, machine_sim ops w ι (set_cur_state e st) σ m β βs -> forall r x, regno_ok r -> reg_get σ r = Some x -> let reg := st_reg st r in 0 < range reg ->
    (type_ reg = PTR_TO_PACKET -> w_data w + pkt_var reg (w_data w) x + range reg <= w_end w) /\
    (type_ reg = PTR_TO_PACKET_META -> w_meta w + pkt_var reg (w_meta w) x + range reg <= w_data w)).
  { intros st S r x Hr Hx reg Rg; destruct (ms_regs S r Hr) as (x' & Hx' & D); rewrite Hx in Hx'; injection Hx' as <-.
    change (get_reg _ r) with reg in D; pose proof (packet_in_range w ι reg (β r) x (ms_links S) D) as P; split; intros T; rewrite T in P; specialize (P eq_refl Rg); unfold window in P; cbn in P; unfold pkt_var; lia. }
  destruct J as [[E S]|(el & l & Eh & E & S)]; [exists (cur_state e'); split; [left; auto|]|exists (elem_st el); split; [right; eauto|]]; exact (R _ S).
Qed.

(** [if (r1 > r2) goto +3] with r1 the packet plus 8 and r2 its end: the
    fall-through may access 8 bytes. *)
Definition jgt_pkt : bpf_insn := mk_insn (BPF_JMP .| BPF_JGT .| BPF_X) 1 2 3 0.
Definition sample_pkt : bpf_reg_state := mk_reg PTR_TO_PACKET 0 8 0 0 (tnum_const 0) 0 0 0 0 0 0 0 0 None 0 0 0 false.

Definition pkt_env : bpf_verifier_env :=
  set_cur_state (sample_env [jgt_pkt]) (mk_state [mk_func (<[1%nat := sample_pkt]> (<[2%nat := sample_ptr PTR_TO_PACKET_END 0 0]> sample_regs)) 0 0 0 [] []] 0 1 0%nat 0 false 0 0 []).

Definition pkt_values : list Z := <[1%nat := 4176]> (<[2%nat := 4224]> sample_values).

Definition pkt_base (r : Z) : Z := if r =? 1 then 4168 else if r =? 2 then 4224 else sample_base r.

Lemma sample_pkt_sim : reg_sim sample_pkt 4168 4176.
Proof.
  split; [kia|]; split; [closed_range|exists 0; split; [|reflexivity]].
  apply (inv_ext _ (__mark_reg_known (sample_ptr PTR_TO_PACKET 0 0) 0)); [vm_compute; reflexivity..|apply mark_known_inv; kia].
Qed.

Lemma pkt_sim : machine_sim sample_ops sample_world sample_links pkt_env pkt_values sample_memory pkt_base (fun _ _ => 0).
Proof.
  pose proof (sample_machine [jgt_pkt]) as M; destruct M as [_ _ Rg _ _ _ _ Lk].
  refine (machine_regs _ _ _ sample_links _ pkt_env _ pkt_values _ _ pkt_base _ (sample_machine [jgt_pkt]) (reflexivity _) Lk _ eq_refl eq_refl eq_refl _); [split; cbn; lia|].
  intros r Hr; destruct (Z.eq_dec r 1) as [->|N1]; [|destruct (Z.eq_dec r 2) as [->|N2]].
  - exists 4176; split; [reflexivity|]; split; [exact sample_pkt_sim|split; [reflexivity|split; [reflexivity|intros N; vm_compute in N; discriminate N]]|discriminate|intros _; left; reflexivity].
  - exists 4224; split; [reflexivity|]; split; [apply (sample_ptr_sim PTR_TO_PACKET_END 0 0); [kia|discriminate]|reflexivity|discriminate|intros _; left; reflexivity].
  - destruct (Rg r Hr) as (x & Hx & D); exists x; split; [|revert D]; destruct (regno_cases r Hr) as [<-|[<-|[<-|[<-|[<-|[<-|[<-|[<-|[<-|[<-|[<-|[]]]]]]]]]]]]; try contradiction; auto.
Qed.

Lemma packet_range_safe_witness : let reg := get_reg (check_cond_jmp_op jgt_pkt pkt_env).2 1 in range reg = 8 /\ 4168 + pkt_var reg 4168 4176 + range reg <= 4224.
Proof.
  assert (A : (check_cond_jmp_op jgt_pkt pkt_env).1 = inr ()) by (vm_compute; reflexivity).
  assert (Ok : insn_ok jgt_pkt) by closed_range.
  destruct (packet_range_safe sample_ops sample_world sample_links jgt_pkt false JGT X pkt_env () _ pkt_values sample_memory pkt_base _ 1
    Ok eq_refl pkt_sim eq_refl (accepted _ _ _ A) eq_refl) as (st & [[_ ->]|(el & l & E & Ei & _)] & H); cycle 1.
  - vm_compute in E; injection E as <- _; discriminate Ei.
  - assert (R : range (get_reg (check_cond_jmp_op jgt_pkt pkt_env).2 1) = 8) by (vm_compute; reflexivity); split; [exact R|].
    apply (H 1 4176); [unfold regno_ok; lia|reflexivity|change (0 < range (get_reg (check_cond_jmp_op jgt_pkt pkt_env).2 1)); rewrite R; reflexivity|vm_compute; reflexivity].
Defined.

(** ** Where the code differs from its intent *)

(** A stack pointer at one of the offsets [lo], [lo + 8], ..., -8, with
    [-8 - lo] the bits that vary. *)
Definition sample_var_ptr (lo : Z) : bpf_reg_state :=
  mk_reg PTR_TO_STACK 0 0 0 0 (TNUM (u64 lo) (- 8 - lo)) lo (-8) (u64 lo) (u64 (-8)) lo (-8) (u32 lo) (u32 (-8)) None 0 0 0 false.

Definition with_regs (rs : list (nat * bpf_reg_state)) (e : bpf_verifier_env) : bpf_verifier_env :=
  upd_regs (fun old => foldl (fun l p => <[p.1 := p.2]> l) old rs) e.

(** The main program, whose stack is not used yet. *)
Definition depth_env (prog : list bpf_insn) : bpf_verifier_env :=
  set_subprog_info (with_regs [(2%nat, sample_var_ptr (-512))] (sample_env prog)) [mk_subprog 0 0 0 false false false].

Definition var_stx_insn : bpf_insn := mk_insn 0x7b 2 1 0 0.

(** Stores with a variable offset are not counted in the stack depth of the
    function.  [check_mem_access] passes [update_stack_depth] the fixed part of
    the offset only: a store through a pointer that may be 512 bytes below the
    frame pointer is accepted with a recorded depth of 0, the size from which
    the stack of the program is allocated. *)
Theorem var_off_store_depth : exists e',
  check_stx sample_ops var_stx_insn (depth_env [var_stx_insn]) = (inr (), e') /\
  stack_depth <$> subprog_info e' = [0] /\
  reg_inv (get_reg (depth_env [var_stx_insn]) 2) (u64 (-512)) /\ off (get_reg (depth_env [var_stx_insn]) 2) + s64 (u64 (-512)) = - MAX_STACK.
Proof.
  exists (check_stx sample_ops var_stx_insn (depth_env [var_stx_insn])).2.
  split; [apply accepted; vm_compute; reflexivity|]; split; [vm_compute; reflexivity|]; split; [|vm_compute; reflexivity].
  split; [|split]; [repeat split; vm_compute; first [reflexivity|discriminate]..|split; intros B; vm_compute in B; contradiction (B eq_refl)].
Qed.

(** Two slots of a frame of an unprivileged program that hold pointers, or
    data. *)
Definition two_slots (t : bpf_stack_slot_type) : list bpf_stack_state :=
  replicate 2 (mk_slot (sample_ptr PTR_TO_MAP_VALUE 1 0) (replicate 8 t)).

Definition unpriv_env (t : bpf_stack_slot_type) : bpf_verifier_env :=
  let e := set_allow_uninit_stack (set_allow_ptr_leaks (with_regs [(2%nat, sample_var_ptr (-16))] (sample_env [var_stx_insn])) false) false in
  set_cur_state e (set_frame (cur_state e) (alter (fun f => set_stack f (two_slots t)) 0%nat (frame (cur_state e)))).

(** Without the right to leak pointers, [check_stack_write_var_off] should
    reject a write whose range contains spilled pointers.  It compares the type
    of the slot with NOT_INIT and SCALAR_VALUE, which are register types: the
    write over two spilled pointers is accepted and both are then treated as
    data, while the same write over data is rejected. *)
Theorem var_off_write_type_check :
  (exists e', check_stack_write_var_off 0 2 0 8 1 (unpriv_env STACK_SPILL) = (inr (), e') /\
    slot_type <$> stack (frame_of e' 0) = replicate 2 (replicate 8 STACK_MISC)) /\
  (check_stack_write_var_off 0 2 0 8 1 (unpriv_env STACK_MISC)).1 = inl (- EINVAL).
Proof.
  split; [|vm_compute; reflexivity].
  exists (check_stack_write_var_off 0 2 0 8 1 (unpriv_env STACK_SPILL)).2; split; [apply accepted; vm_compute; reflexivity|].
  vm_compute; reflexivity.
Qed.
