(* ===== verification/Pruning.v ===== *)
(** Comparing a verifier state with one that was explored before, the pruning
    of kernel/bpf/verifier.c: [range_within], [check_ids], [regsafe],
    [stacksafe], [refsafe], [states_equal], and the cleaning of explored
    states. *)
From Stdlib Require Import ZArith Lia Bool.
From stdpp Require Import base list gmap.
From S2P Require Import Prelude Bits Tnum Bounds RegState Insn Env.

Local Open Scope Z_scope.
Local Open Scope kint_scope.

Abbreviation MAX_BPF_STACK := 512.
Abbreviation BPF_ID_MAP_SIZE := 75%nat.

(** ** Ids *)

Record bpf_id_pair := mk_id_pair { id_old : Z; id_cur : Z }.

(** The scratch map, and whether the warning about a full map was given. *)
Record idmap := mk_idmap { slots : list bpf_id_pair; warned : bool }.

Definition idmap_clear : idmap := mk_idmap (replicate BPF_ID_MAP_SIZE (mk_id_pair 0 0)) false.

Fixpoint check_ids_loop (old_id cur_id : Z) (m : list bpf_id_pair) : option bool * list bpf_id_pair :=
  match m with
  | [] => (None, [])
  | p :: m =>
    if id_old p =? 0 then (Some true, mk_id_pair old_id cur_id :: m)
    else if id_old p =? old_id then (Some (id_cur p =? cur_id), p :: m)
    else let '(r, m) := check_ids_loop old_id cur_id m in (r, p :: m)
  end.

Definition check_ids (old_id cur_id : Z) (m : idmap) : bool * idmap :=
  match check_ids_loop old_id cur_id (slots m) with
  | (Some b, l) => (b, mk_idmap l (warned m))
  | (None, l) => (false, mk_idmap l true)
  end.

(** ** Registers *)

Definition range_within (old cur : bpf_reg_state) : bool :=
  (umin_value old <=? umin_value cur) && (umax_value old >=? umax_value cur) &&
  (smin_value old <=? smin_value cur) && (smax_value old >=? smax_value cur) &&
  (u32_min_value old <=? u32_min_value cur) && (u32_max_value old >=? u32_max_value cur) &&
  (s32_min_value old <=? s32_min_value cur) && (s32_max_value old >=? s32_max_value cur).

(** [memcmp] up to the field [id]. *)
Definition same_to_id (a b : bpf_reg_state) : bool :=
  type_eqb (type_ a) (type_ b) && (raw a =? raw b) && (off a =? off b).

(** [memcmp] up to the field [parent]. *)
Definition same_to_parent (a b : bpf_reg_state) : bool :=
  same_to_id a b && (id a =? id b) && (ref_obj_id a =? ref_obj_id b) &&
  (value (var_off a) =? value (var_off b)) && (mask (var_off a) =? mask (var_off b)) &&
  (smin_value a =? smin_value b) && (smax_value a =? smax_value b) &&
  (umin_value a =? umin_value b) && (umax_value a =? umax_value b) &&
  (s32_min_value a =? s32_min_value b) && (s32_max_value a =? s32_max_value b) &&
  (u32_min_value a =? u32_min_value b) && (u32_max_value a =? u32_max_value b).

Definition regsafe (env : bpf_verifier_env) (rold rcur : bpf_reg_state) (m : idmap) : bool * idmap :=
  if live rold .& REG_LIVE_READ =? 0 then (true, m)
  else
    let equal := same_to_parent rold rcur in
    if type_eqb (type_ rold) PTR_TO_STACK then (equal && (frameno rold =? frameno rcur), m)
    else if equal then (true, m)
    else if type_eqb (type_ rold) NOT_INIT then (true, m)
    else if type_eqb (type_ rcur) NOT_INIT then (false, m)
    else
      let within := range_within rold rcur && tnum_in (var_off rold) (var_off rcur) in
      match type_ rold with
      | SCALAR_VALUE =>
        if explore_alu_limits env then (false, m)
        else if type_eqb (type_ rcur) SCALAR_VALUE then
          if negb (precise rold) && negb (precise rcur) then (true, m) else (within, m)
        else (false, m)
      | PTR_TO_MAP_VALUE => (same_to_id rold rcur && within, m)
      | PTR_TO_MAP_VALUE_OR_NULL =>
        if negb (type_eqb (type_ rcur) PTR_TO_MAP_VALUE_OR_NULL) then (false, m)
        else if negb (same_to_id rold rcur) then (false, m)
        else check_ids (id rold) (id rcur) m
      | PTR_TO_PACKET_META | PTR_TO_PACKET =>
        if negb (type_eqb (type_ rcur) (type_ rold)) then (false, m)
        else if u16 (raw rold) >? u16 (raw rcur) then (false, m)
        else if negb (off rold =? off rcur) then (false, m)
        else
          let '(b, m) := if negb (id rold =? 0) then check_ids (id rold) (id rcur) m else (true, m) in
          if negb b then (false, m) else (within, m)
      | _ => (false, m)
      end.

(** ** Stack *)

Abbreviation slot0 := (mk_slot inhabitant []).

(** The loop over the bytes of the explored stack from [i] on. *)
Fixpoint stacksafe_loop (fuel : nat) (env : bpf_verifier_env) (old cur : bpf_func_state) (i : nat) (m : idmap) : bool * idmap :=
  match fuel with
  | O => (true, m)
  | S fuel =>
    if (i <? 8 * length (stack old))%nat then
      let spi := (i / 8)%nat in
      let so := default slot0 (stack old !! spi) in
      let sc := default slot0 (stack cur !! spi) in
      let next m := stacksafe_loop fuel env old cur (S i) m in
      if live (spilled_ptr so) .& REG_LIVE_READ =? 0 then stacksafe_loop fuel env old cur (S (i + 7)) m
      else
        let to := default STACK_INVALID (slot_type so !! (i mod 8)%nat) in
        let tc := default STACK_INVALID (slot_type sc !! (i mod 8)%nat) in
        if bool_decide (to = STACK_INVALID) then next m
        else if (8 * length (stack cur) <=? i)%nat then (false, m)
        else if bool_decide (to = STACK_MISC) && bool_decide (tc = STACK_ZERO) then next m
        else if negb (bool_decide (to = tc)) then (false, m)
        else if negb (i mod 8 =? 0)%nat then next m
        else if negb (bool_decide (slot_type so !! 0%nat = Some STACK_SPILL)) then next m
        else
          let '(b, m) := regsafe env (spilled_ptr so) (spilled_ptr sc) m in
          if negb b then (false, m) else next m
    else (true, m)
  end.

Definition stacksafe (env : bpf_verifier_env) (old cur : bpf_func_state) (m : idmap) : bool * idmap :=
  stacksafe_loop (8 * length (stack old)) env old cur 0 m.

Definition refsafe (old cur : bpf_func_state) : bool :=
  (length (refs old) =? length (refs cur))%nat &&
  forallb (fun '(a, b) => (ref_id a =? ref_id b) && (ref_insn_idx a =? ref_insn_idx b)) (zip (refs old) (refs cur)).

(** ** States *)

Fixpoint regs_safe (env : bpf_verifier_env) (old cur : list bpf_reg_state) (m : idmap) : bool * idmap :=
  match old, cur with
  | ro :: old, rc :: cur =>
    let '(b, m) := regsafe env ro rc m in
    if negb b then (false, m) else regs_safe env old cur m
  | _, _ => (true, m)
  end.

(** The result and the scratch map it leaves. *)
Definition func_states_equal (env : bpf_verifier_env) (old cur : bpf_func_state) : bool * idmap :=
  let '(b, m) := regs_safe env (regs old) (regs cur) idmap_clear in
  if negb b then (false, m)
  else
    let '(b, m) := stacksafe env old cur m in
    if negb b then (false, m) else if negb (refsafe old cur) then (false, m) else (true, m).

Fixpoint frames_equal (env : bpf_verifier_env) (old cur : list bpf_func_state) : bool :=
  match old, cur with
  | fo :: old, fc :: cur =>
    if negb (callsite fo =? callsite fc) then false
    else if negb (func_states_equal env fo fc).1 then false
    else frames_equal env old cur
  | _, _ => true
  end.

Definition states_equal (env : bpf_verifier_env) (old cur : bpf_verifier_state) : bool :=
  if negb (curframe old =? curframe cur)%nat then false
  else if speculative old && negb (speculative cur) then false
  else if negb (active_spin_lock old =? active_spin_lock cur) then false
  else frames_equal env (take (S (curframe old)) (frame old)) (take (S (curframe old)) (frame cur)).

Definition states_maybe_looping (old cur : bpf_verifier_state) : bool :=
  let fr := curframe cur in
  if negb (curframe old =? fr)%nat then false
  else forallb (fun '(a, b) => same_to_parent a b) (zip (regs (frame old !!! fr)) (regs (frame cur !!! fr))).

(** ** Cleaning *)

Definition clean_reg (fl : env_flags) (r : bpf_reg_state) : bpf_reg_state :=
  let l := live r in
  let r := set_live r (l .| REG_LIVE_DONE) in
  if l .& REG_LIVE_READ =? 0 then __mark_reg_not_init fl r else r.

Definition clean_slot (fl : env_flags) (s : bpf_stack_state) : bpf_stack_state :=
  let l := live (spilled_ptr s) in
  let s := set_spilled_ptr s (set_live (spilled_ptr s) (l .| REG_LIVE_DONE)) in
  if l .& REG_LIVE_READ =? 0 then mk_slot (__mark_reg_not_init fl (spilled_ptr s)) (replicate 8 STACK_INVALID) else s.

Definition clean_func_state (env : bpf_verifier_env) (st : bpf_func_state) : bpf_func_state :=
  let st := set_regs st (imap (fun i r => if (i <? 10)%nat then clean_reg (flags env) r else r) (regs st)) in
  set_stack st (clean_slot (flags env) <$> stack st).

Definition clean_verifier_state (env : bpf_verifier_env) (st : bpf_verifier_state) : bpf_verifier_state :=
  if negb (live (regs (frame st !!! 0%nat) !!! 0%nat) .& REG_LIVE_DONE =? 0) then st
  else set_frame st (imap (fun i f => if (i <=? curframe st)%nat then clean_func_state env f else f) (frame st)).
