(* ===== verification/Explore.v ===== *)
(** The exploration of a program: the stack of states still to check
    ([update_branch_counts], [pop_stack]), the jump history, and the search for
    an explored state that covers the current one ([is_state_visited] with
    [clean_live_states], [propagate_liveness] and [propagate_precision]) of
    kernel/bpf/verifier.c.

    An explored state is a key of the store [states].  A state that is dropped
    from its list stays in the store, where only parent pointers may still reach
    it. *)
From Stdlib Require Import ZArith Lia Bool.
From stdpp Require Import base list gmap.
From S2P Require Import Prelude Bits Tnum Bounds RegState Insn Env MemAccess RegArg Precision Bookkeeping Alu CondJmp Pruning.

Local Open Scope Z_scope.
Local Open Scope kint_scope.

Abbreviation BPF_COMPLEXITY_LIMIT_STATES := 64.

(** A loop over [l] in which every round may fail. *)
Fixpoint for_each {A} (l : list A) (f : A -> verifier unit) : verifier unit :=
  match l with
  | [] => mret ()
  | x :: l => _ ← f x; for_each l f
  end.

(** [ret = f(); if (!ret) return -ENOMEM]. *)
Definition kalloc : verifier unit := ok ← kzalloc; if (ok : bool) then mret () else fail (- ENOMEM).

Lemma kalloc_run e u e' : kalloc e = (inr u, e') -> exists l, e' = set_alloc e l.
Proof.
  intros K; unfold kalloc, kzalloc in K; run K; destruct (alloc e) as [|b l] eqn:Al; injection R as <- <-.
  - injection K as _ <-; exists []; rewrite <- Al; destruct e; reflexivity.
  - destruct b; [injection K as _ <-; exists l; reflexivity|discriminate K].
Qed.

Definition upd_cur_state (f : bpf_verifier_state -> bpf_verifier_state) : verifier unit :=
  modify (fun env => set_cur_state env (f (cur_state env))).

Definition upd_search (f : bpf_search -> bpf_search) : verifier unit := modify (fun env => set_search env (f (search env))).

(** ** The stack of states *)

(** The states above a state that has no branch left to explore. *)
Fixpoint dec_branches (fuel : nat) (k : Z) (m : gmap Z bpf_verifier_state) : gmap Z bpf_verifier_state :=
  match fuel, m !! k with
  | S fuel, Some st =>
    let br := u32 (branches st - 1) in
    let m := <[k := set_branches st br]> m in
    if br =? 0 then dec_branches fuel (vs_parent st) m else m
  | _, _ => m
  end.

Definition update_branch_counts : verifier unit := modify (fun env =>
  let st := cur_state env in
  let br := u32 (branches st - 1) in
  let env := set_cur_state env (set_branches st br) in
  if br =? 0 then set_states env (dec_branches (size (states env)) (vs_parent st) (states env)) else env).

(** The result is the [prev_insn_idx] of the state popped.  All the allocations
    of the copy are one; a copy that failed leaves the run without a result. *)
Definition pop_stack : verifier (option Z) :=
  env ← get;
  match head env with
  | [] => mret None
  | e :: l =>
    _ ← kalloc;
    _ ← modify (fun env => set_stack_size (set_head (set_insn_idx (set_cur_state env (elem_st e)) (elem_insn_idx e)) l) (stack_size env - 1));
    mret (Some (elem_prev_insn_idx e))
  end.

Definition push_jmp_history : verifier unit :=
  _ ← kalloc;
  env ← get;
  upd_cur_state (fun cur => set_jmp_history cur (jmp_history cur ++ [mk_idx_pair (prev_insn_idx env) (insn_idx env)])).

(** ** Explored states *)

Definition explored_key (env : bpf_verifier_env) (i : Z) : Z :=
  u32 (Z.lxor i (callsite (cur_func env))) mod Z.of_nat (length (prog env)).

Definition explored_state (env : bpf_verifier_env) (i : Z) : list bpf_verifier_state_list :=
  default [] (explored_states (search env) !! explored_key env i).

Definition callsites (st : bpf_verifier_state) (n : nat) : list Z := callsite <$> take (S n) (frame st).

Definition clean_live_state (env : bpf_verifier_env) (insn : Z) (m : gmap Z bpf_verifier_state) (sl : bpf_verifier_state_list) : gmap Z bpf_verifier_state :=
  let cur := cur_state env in
  match m !! sl_state sl with
  | None => m
  | Some st =>
    if negb (branches st =? 0) then m
    else if negb (sl_insn_idx sl =? insn) || negb (curframe st =? curframe cur)%nat then m
    else if bool_decide (callsites st (curframe cur) = callsites cur (curframe cur)) then <[sl_state sl := clean_verifier_state env st]> m
    else m
  end.

Definition clean_live_states (insn : Z) : verifier unit := modify (fun env =>
  set_states env (fold_left (clean_live_state env insn) (explored_state env insn) (states env))).

(** How the search ends: in a loop, at a state that covers the current one, or
    at the end of the list.  The list is what is left of it, [v_free] what went
    to the free list and [v_freed] the number of states freed. *)
Inductive visit_end := VLoop | VHit (k : Z) | VDone.

Record visit := mk_visit {
  v_end : visit_end;
  v_list : list bpf_verifier_state_list;
  v_free : list bpf_verifier_state_list;
  v_freed : Z;
  v_add : bool;
  v_cnt : Z
}.

Definition keep_sl (sl : bpf_verifier_state_list) (v : visit) : visit :=
  mk_visit (v_end v) (sl :: v_list v) (v_free v) (v_freed v) (v_add v) (v_cnt v + 1).

Definition drop_sl (st : bpf_verifier_state) (sl : bpf_verifier_state_list) (v : visit) : visit :=
  if negb (live (regs (frame st !!! 0%nat) !!! 0%nat) .& REG_LIVE_DONE =? 0)
  then mk_visit (v_end v) (v_list v) (v_free v) (v_freed v + 1) (v_add v) (v_cnt v + 1)
  else mk_visit (v_end v) (v_list v) (v_free v ++ [sl]) (v_freed v) (v_add v) (v_cnt v + 1).

Fixpoint visit_states (env : bpf_verifier_env) (i : Z) (sls : list bpf_verifier_state_list) (add_new_state : bool) : visit :=
  let cur := cur_state env in
  match sls with
  | [] => mk_visit VDone [] [] 0 add_new_state 0
  | sl :: rest =>
    let st := states env !!! sl_state sl in
    let miss (add_new_state : bool) :=
      let sl := if add_new_state then mk_sl (sl_state sl) (sl_insn_idx sl) (miss_cnt sl + 1) (hit_cnt sl) else sl in
      let v := visit_states env i rest add_new_state in
      if miss_cnt sl >? hit_cnt sl * 3 + 3 then drop_sl st sl v else keep_sl sl v in
    if negb (sl_insn_idx sl =? i) then keep_sl sl (visit_states env i rest add_new_state)
    else if negb (branches st =? 0) then
      if states_maybe_looping st cur && states_equal env st cur then mk_visit VLoop (sl :: rest) [] 0 add_new_state 1
      else
        let s := search env in
        miss (if (u32 (jmps_processed s - prev_jmps_processed s) <? 20) && (u32 (insn_processed s - prev_insn_processed s) <? 100)
              then false else add_new_state)
    else if states_equal env st cur then
      mk_visit (VHit (sl_state sl)) (mk_sl (sl_state sl) (sl_insn_idx sl) (miss_cnt sl) (hit_cnt sl + 1) :: rest) [] 0 add_new_state 1
    else miss add_new_state
  end.

(** ** Reads and precision of the covering state *)

(** [mark_reg_read(env, state, parent, flag)] where [parent] is the register [p]
    of the current state: no explored register has it as its parent, so the
    first round does not observe write marks; the walk goes on in the store. *)
Definition mark_cur_read (p : reg_ref) (flag : Z) : verifier unit := fun env =>
  match ref_in_state (cur_state env) p with
  | None => (inr (), env)
  | Some preg =>
    if negb (live preg .& REG_LIVE_DONE =? 0) then (inl (- EFAULT), env)
    else if (live preg .& REG_LIVE_READ =? flag) || negb (live preg .& REG_LIVE_READ64 =? 0) then (inr (), env)
    else
      let env := set_cur_state env (upd_in_state (mark_live flag) p (cur_state env)) in
      match mark_reg_read_loop (S (size (states env))) (states env) (mark_live flag preg) (parent preg) flag true 1 with
      | (inl err, m) => (inl err, set_states env m)
      | (inr cnt, m) =>
        let env := set_states env m in
        (inr (), if longest_mark_read_walk env <? cnt then set_longest_mark_read_walk env cnt else env)
      end
  end.

(** [p] names a register of the explored state and, with the same frame and
    index, the one of the current state. *)
Definition propagate_liveness_reg (p : reg_ref) : verifier Z :=
  env ← get;
  match deref (states env) p, ref_in_state (cur_state env) p with
  | Some reg, Some parent_reg =>
    let parent_flag := live parent_reg .& REG_LIVE_READ in
    let flag := live reg .& REG_LIVE_READ in
    if (parent_flag =? REG_LIVE_READ64) || (flag =? 0) || (parent_flag =? flag) then mret 0
    else _ ← mark_cur_read p flag; mret flag
  | _, _ => mret 0
  end.

(** [mark_insn_zext] on the register [p] of the current state. *)
Definition mark_insn_zext_at (p : reg_ref) : verifier unit := modify (fun env =>
  match ref_in_state (cur_state env) p with
  | None => env
  | Some reg =>
    let def_idx := subreg_def reg in
    if def_idx =? DEF_NOT_SUBREG then env
    else
      let env := set_insn_aux_data env (alter (fun a => set_zext_dst a true) (Z.to_nat (def_idx - 1)) (insn_aux_data env)) in
      set_cur_state env (upd_in_state (fun reg => set_subreg_def reg DEF_NOT_SUBREG) p (cur_state env))
  end).

Definition propagate_liveness (k : Z) : verifier unit :=
  env ← get;
  let vstate := states env !!! k in
  if negb (curframe (cur_state env) =? curframe vstate)%nat then fail (- EFAULT)
  else
    for_each (seq 0 (S (curframe vstate))) (fun fr =>
      let first := if (fr <? curframe vstate)%nat then 6%nat else 0%nat in
      _ ← for_each (seq first (10 - first)) (fun i =>
            flag ← propagate_liveness_reg (RegRef k fr i);
            when (flag =? REG_LIVE_READ64) (mark_insn_zext_at (RegRef k fr i)));
      env ← get;
      let slots := Nat.min (length (stack (frame vstate !!! fr))) (length (stack (frame (cur_state env) !!! fr))) in
      for_each (seq 0 slots) (fun i => _ ← propagate_liveness_reg (SlotRef k fr i); mret ())).

Definition propagate_precision (k : Z) : verifier unit :=
  let precise_scalar (reg : bpf_reg_state) := type_eqb (type_ reg) SCALAR_VALUE && precise reg in
  env ← get;
  let fr := curframe (states env !!! k) in
  _ ← for_each (seq 0 10) (fun i =>
        env ← get;
        match deref (states env) (RegRef k fr i) with
        | Some reg => when (precise_scalar reg) (mark_chain_precision (Z.of_nat i))
        | None => mret ()
        end);
  for_each (seq 0 (length (stack (frame (states env !!! k) !!! fr)))) (fun i =>
    env ← get;
    match stack (frame (states env !!! k) !!! fr) !! i with
    | Some s => when (is_spill s && precise_scalar (spilled_ptr s)) (mark_chain_precision_stack (Z.of_nat i))
    | None => mret ()
    end).

(** ** [is_state_visited] *)

(** A key above all keys in use. *)
Definition new_key (m : gmap Z bpf_verifier_state) : Z := 1 + map_fold (fun k _ top => Z.max k top) 0 m.

(** Connect frame [j] of the current state to its copy [k]. *)
Definition connect_reg (k : Z) (j first i : nat) (reg : bpf_reg_state) : bpf_reg_state :=
  if (i <? 10)%nat then
    let reg := if (first <=? i)%nat then set_parent reg (Some (RegRef k j i)) else reg in
    set_live reg REG_LIVE_NONE
  else reg.

Definition connect_slot (k : Z) (j i : nat) (s : bpf_stack_state) : bpf_stack_state :=
  set_spilled_ptr s (set_parent (set_live (spilled_ptr s) REG_LIVE_NONE) (Some (SlotRef k j i))).

Definition connect_frame (k : Z) (top j : nat) (fn : bpf_func_state) : bpf_func_state :=
  if (j <=? top)%nat then
    let first := if (j <? top)%nat then 6%nat else 0%nat in
    set_stack (set_regs fn (imap (connect_reg k j first) (regs fn))) (imap (connect_slot k j) (stack fn))
  else fn.

Definition connect_state (k i : Z) (cur : bpf_verifier_state) : bpf_verifier_state :=
  let cur := set_jmp_history (set_first_insn_idx (set_vs_parent cur k) i) [] in
  set_frame cur (imap (connect_frame k (curframe cur)) (frame cur)).

(** The current state is remembered. *)
Definition add_state (i : Z) : verifier unit :=
  _ ← kalloc;
  _ ← upd_search (fun s => mk_search (test_state_freq s) (explored_states s) (free_list s) (jmps_processed s) (jmps_processed s)
        (insn_processed s) (insn_processed s) (max_states_per_insn s) (total_states s + 1) (peak_states s + 1));
  _ ← kalloc;
  modify (fun env =>
    let k := new_key (states env) in
    let cur := cur_state env in
    let env := set_states env (<[k := cur]> (states env)) in
    let s := search env in
    let table := <[explored_key env i := mk_sl k i 0 0 :: explored_state env i]> (explored_states s) in
    let env := set_search env (mk_search (test_state_freq s) table (free_list s) (jmps_processed s) (prev_jmps_processed s)
        (insn_processed s) (prev_insn_processed s) (max_states_per_insn s) (total_states s) (peak_states s)) in
    set_cur_state env (connect_state k i cur)).

(** The list after the search. *)
Definition store_visit (i : Z) (v : visit) : verifier unit := modify (fun env =>
  let s := search env in
  set_search env (mk_search (test_state_freq s) (<[explored_key env i := v_list v]> (explored_states s)) (v_free v ++ free_list s)
    (jmps_processed s) (prev_jmps_processed s) (insn_processed s) (prev_insn_processed s) (max_states_per_insn s) (total_states s)
    (peak_states s - v_freed v))).

(** [true] is 1: an explored state covers the current one. *)
Definition is_state_visited (i : Z) : verifier bool :=
  _ ← modify (fun env => set_cur_state env (set_last_insn_idx (cur_state env) (prev_insn_idx env)));
  env ← get;
  if negb (prune_point (insn_aux_data env !!! Z.to_nat i)) then mret false
  else
    let s := search env in
    let add_new_state := test_state_freq s ||
      ((u32 (jmps_processed s - prev_jmps_processed s) >=? 2) && (u32 (insn_processed s - prev_insn_processed s) >=? 8)) in
    _ ← clean_live_states i;
    env ← get;
    let v := visit_states env i (explored_state env i) add_new_state in
    _ ← store_visit i v;
    match v_end v with
    | VLoop => fail (- EINVAL)
    | VHit k =>
      _ ← propagate_liveness k;
      _ ← push_jmp_history;
      _ ← propagate_precision k;
      mret true
    | VDone =>
      _ ← upd_search (fun s => mk_search (test_state_freq s) (explored_states s) (free_list s) (jmps_processed s) (prev_jmps_processed s)
            (insn_processed s) (prev_insn_processed s) (Z.max (max_states_per_insn s) (v_cnt v)) (total_states s) (peak_states s));
      if (negb (bpf_capable (flags env)) && (v_cnt v >? BPF_COMPLEXITY_LIMIT_STATES)) || negb (v_add v)
      then _ ← push_jmp_history; mret false
      else _ ← add_state i; mret false
    end.

(** ** Parents *)

(** The loops over the parents of a state end at a state without one.  They are
    bounded by the size of the store, which is enough when every parent in the
    store is older than the state it is a parent of: more fuel gives the same
    result. *)

(** The parents a state and its registers point to. *)
Definition lineage (st : bpf_verifier_state) : Z * list (list (option reg_ref) * list (option reg_ref)) :=
  (vs_parent st, (fun fn => (parent <$> regs fn, (fun s => parent (spilled_ptr s)) <$> stack fn)) <$> frame st).

Definition ref_below (k : Z) (p : option reg_ref) : Prop := match p with Some p => ref_state p < k | None => True end.

Definition below (k : Z) (l : Z * list (list (option reg_ref) * list (option reg_ref))) : Prop :=
  l.1 < k /\ Forall (fun f => Forall (ref_below k) f.1 /\ Forall (ref_below k) f.2) l.2.

Definition older (m : gmap Z bpf_verifier_state) : Prop := map_Forall below (lineage <$> m).

Lemma older_lookup (m : gmap Z bpf_verifier_state) k st : older m -> m !! k = Some st -> below k (lineage st).
Proof. intros H E; apply (H k); rewrite lookup_fmap, E; reflexivity. Qed.

Lemma older_ext (m m' : gmap Z bpf_verifier_state) : lineage <$> m' = lineage <$> m -> older m -> older m'.
Proof. unfold older; intros ->; trivial. Qed.

Lemma older_dom (m m' : gmap Z bpf_verifier_state) : lineage <$> m' = lineage <$> m -> dom m' =@{gset Z} dom m.
Proof. intros E; apply (f_equal (dom (D := gset Z))) in E; rewrite !dom_fmap_L in E; exact E. Qed.

Lemma lineage_erase st : lineage (erase_state st) = lineage st.
Proof.
  unfold lineage, erase_state; cbn; f_equal; rewrite <- list_fmap_compose; apply list_fmap_ext; intros i fn _; cbn.
  rewrite <- !list_fmap_compose; reflexivity.
Qed.

Lemma same_lineage (m m' : gmap Z bpf_verifier_state) : erase_state <$> m = erase_state <$> m' -> lineage <$> m = lineage <$> m'.
Proof.
  intros E; apply map_eq; intros k; apply (f_equal (fun m => m !! k)) in E; rewrite !lookup_fmap in *.
  destruct (m !! k) as [s|], (m' !! k) as [s'|]; try discriminate E; [|reflexivity]; cbn; f_equal.
  rewrite <- (lineage_erase s), <- (lineage_erase s'); f_equal; exact (f_equal (default s) E).
Qed.

Lemma same_env_lineage e e' : e ≈ e' -> lineage <$> states e = lineage <$> states e'.
Proof. intros E; apply same_lineage; exact (f_equal states E). Qed.

(** How many states are at most as young as [k]. *)
Definition age (m : gmap Z bpf_verifier_state) (k : Z) : nat := size (filter (fun j => j <= k) (dom m : gset Z)).

Lemma age_ext (m m' : gmap Z bpf_verifier_state) k : lineage <$> m' = lineage <$> m -> age m' k = age m k.
Proof. intros E; unfold age; rewrite (older_dom m m' E); reflexivity. Qed.

Lemma age_size (m : gmap Z bpf_verifier_state) k : (age m k <= size m)%nat.
Proof. unfold age; rewrite <- size_dom; apply subseteq_size; intros j Hj; apply elem_of_filter in Hj as [_ Hj]; exact Hj. Qed.

Lemma age_lt (m : gmap Z bpf_verifier_state) k j st : m !! k = Some st -> j < k -> (age m j < age m k)%nat.
Proof.
  intros E L; unfold age; apply subset_size; split.
  - intros i Hi; apply elem_of_filter in Hi as [Hi Hd]; apply elem_of_filter; split; [lia|exact Hd].
  - intros S; assert (Hk : k ∈ filter (fun i => i <= j) (dom m : gset Z)) by (apply S, elem_of_filter; split; [lia|apply elem_of_dom; eauto]).
    apply elem_of_filter in Hk as [Hk _]; lia.
Qed.

Lemma age_pos (m : gmap Z bpf_verifier_state) k st : m !! k = Some st -> (0 < age m k)%nat.
Proof. intros E; pose proof (age_lt m k (k - 1) st E ltac:(lia)); lia. Qed.

Lemma branches_lineage (m : gmap Z bpf_verifier_state) k st br : m !! k = Some st -> lineage <$> <[k := set_branches st br]> m = lineage <$> m.
Proof. intros E; rewrite fmap_insert; apply insert_id; rewrite lookup_fmap, E; reflexivity. Qed.

(** [update_branch_counts] *)
Lemma dec_branches_enough : forall f f' k m, older m -> (age m k <= f)%nat -> (age m k <= f')%nat -> dec_branches f k m = dec_branches f' k m.
Proof.
  induction f as [|f IH]; intros f' k m O F F'; destruct (m !! k) as [st|] eqn:E.
  - pose proof (age_pos m k st E); lia.
  - destruct f'; cbn; rewrite ?E; reflexivity.
  - pose proof (age_pos m k st E); destruct f' as [|f']; [lia|]; cbn; rewrite E; destruct (_ =? 0); [|reflexivity].
    pose proof (branches_lineage m k st (u32 (branches st - 1)) E) as L; pose proof (age_lt m k (vs_parent st) st E (proj1 (older_lookup m k st O E))).
    apply IH; [exact (older_ext _ _ L O)|rewrite (age_ext _ _ _ L); lia..].
  - destruct f'; cbn; rewrite ?E; reflexivity.
Qed.

(** [mark_reg_read] *)
Definition ref_rank (m : gmap Z bpf_verifier_state) (p : option reg_ref) : nat := match p with Some p => age m (ref_state p) | None => 0 end.

Lemma deref_below m p reg : older m -> deref m p = Some reg -> exists st, m !! ref_state p = Some st /\ ref_below (ref_state p) (parent reg).
Proof.
  intros O D; unfold deref in D; destruct (m !! ref_state p) as [st|] eqn:E; [|discriminate]; exists st; split; [reflexivity|].
  destruct (older_lookup m _ st O E) as [_ B]; unfold lineage in B; cbn [snd] in B; rewrite Forall_fmap, Forall_lookup in B; cbn in D; destruct p as [k fr r|k fr r]; cbn in *.
  - destruct (frame st !! fr) as [fn|] eqn:Ef; [|discriminate]; cbn in D; destruct (B fr fn Ef) as [B1 _]; cbn in B1; rewrite Forall_fmap, Forall_lookup in B1; exact (B1 r reg D).
  - destruct (frame st !! fr) as [fn|] eqn:Ef; [|discriminate]; cbn in D; destruct (stack fn !! r) as [s|] eqn:Es; [|discriminate]; injection D as <-.
    destruct (B fr fn Ef) as [_ B1]; cbn in B1; rewrite Forall_fmap, Forall_lookup in B1; exact (B1 r s Es).
Qed.

Lemma read_loop_enough : forall f f' m state p flag w cnt, older m -> (ref_rank m p <= f)%nat -> (ref_rank m p <= f')%nat ->
  mark_reg_read_loop f m state p flag w cnt = mark_reg_read_loop f' m state p flag w cnt.
Proof.
  assert (No : forall f m state p flag w cnt, match p with Some p => deref m p | None => None end = None -> mark_reg_read_loop f m state p flag w cnt = (inr cnt, m)).
  { intros [|f] m state [p|] flag w cnt E; cbn; rewrite ?E; reflexivity. }
  induction f as [|f IH]; intros f' m state p flag w cnt O F F'.
  - rewrite !No; trivial; destruct p as [p|]; trivial; destruct (deref m p) eqn:D; trivial; cbn in F; destruct (deref_below m p _ O D) as (st & E & _); pose proof (age_pos m _ st E); lia.
  - destruct p as [p|]; [|rewrite !No by reflexivity; reflexivity]; destruct (deref m p) as [preg|] eqn:D; [|rewrite !No by exact D; reflexivity].
    destruct (deref_below m p preg O D) as (st & E & B); cbn in F, F'; pose proof (age_pos m _ st E); destruct f' as [|f']; [lia|]; cbn; rewrite D.
    destruct (_ && _); [reflexivity|]; destruct (negb _); [reflexivity|]; destruct (_ || _); [reflexivity|].
    pose proof (same_lineage _ _ (upd_ref_same (mark_live flag) p m (erase_mark_live flag))) as L.
    assert (R : (ref_rank m (parent preg) < age m (ref_state p))%nat) by (destruct (parent preg) as [q|]; cbn in *; [exact (age_lt m _ _ st E B)|lia]).
    apply IH; [exact (older_ext _ _ L O)|..]; replace (ref_rank (upd_ref _ p m) (parent preg)) with (ref_rank m (parent preg)); try lia;
      destruct (parent preg); cbn; [symmetry; apply age_ext, L|reflexivity|symmetry; apply age_ext, L|reflexivity].
Qed.

(** [mark_all_scalars_precise] and [__mark_chain_precision] *)
Definition st_rank (e : bpf_verifier_env) (r : st_ref) : nat := match r with StCur => S (size (states e)) | StKey k => age (states e) k end.

Lemma st_rank_lt e r st : older (states e) -> st_get e r = Some st -> (st_rank e (StKey (vs_parent st)) < st_rank e r)%nat.
Proof.
  intros O G; destruct r as [|k]; cbn in *; [pose proof (age_size (states e) (vs_parent st)); lia|].
  apply (age_lt (states e) k (vs_parent st) st G); exact (proj1 (older_lookup _ _ _ O G)).
Qed.

Lemma st_rank_ext e e' k : e' ≈ e -> st_rank e' (StKey k) = st_rank e (StKey k).
Proof. intros E; apply age_ext, same_env_lineage, E. Qed.

Lemma same_env_older e e' : e' ≈ e -> older (states e) -> older (states e').
Proof. intros E; apply older_ext, same_env_lineage, E. Qed.

Lemma mark_all_enough : forall f f' r e, older (states e) -> (st_rank e r <= f)%nat -> (st_rank e r <= f')%nat ->
  mark_all_scalars_precise f r e = mark_all_scalars_precise f' r e.
Proof.
  induction f as [|f IH]; intros f' r e O F F'; destruct (st_get e r) as [st|] eqn:G.
  - pose proof (st_rank_lt e r st O G); lia.
  - destruct f'; cbn; rewrite ?G; reflexivity.
  - pose proof (st_rank_lt e r st O G); destruct f' as [|f']; [lia|]; cbn; rewrite G.
    assert (S : st_upd mark_state_precise r e ≈ e) by (apply st_upd_same; intros s _; apply erase_mark_state).
    apply IH; [exact (same_env_older _ _ S O)|rewrite (st_rank_ext _ _ _ S); lia..].
  - destruct f'; cbn; rewrite ?G; reflexivity.
Qed.

Lemma marks_same e k st rm sm fn rm' nm fn' sm' nm' stop : st_get e (StKey k) = Some st -> mark_mask_regs (frame st !!! curframe st) rm = (fn, rm', nm) ->
  mark_mask_slots fn sm nm = (fn', sm', nm', stop) -> st_upd (fun st => set_frame st (<[curframe st := fn']> (frame st))) (StKey k) e ≈ e.
Proof.
  intros G E1 E2; pose proof (mark_regs_same (frame st !!! curframe st) rm) as H1; rewrite E1 in H1; pose proof (mark_slots_same fn sm nm) as H2; rewrite E2 in H2; cbn in H1, H2.
  apply st_upd_same; intros s Es; rewrite G in Es; injection Es as <-; apply erase_state_frame, fmap_insert_id; congruence.
Qed.

Lemma precision_loop_enough : forall f f' r last first skip rm sm e, older (states e) -> (st_rank e r <= f)%nat -> (st_rank e r <= f')%nat ->
  precision_loop f r last first skip rm sm e = precision_loop f' r last first skip rm sm e.
Proof.
  induction f as [|f IH]; intros f' r last first skip rm sm e O F F'; destruct (st_get e r) as [st|] eqn:G.
  - pose proof (st_rank_lt e r st O G); lia.
  - destruct f'; cbn [precision_loop]; rewrite ?G; reflexivity.
  - pose proof (st_rank_lt e r st O G); destruct f' as [|f']; [lia|]; cbn [precision_loop]; rewrite G.
    destruct (backtrack_state _ _ _ _ _ _ _ _ _) as [[err| |rm1 sm1]|]; try reflexivity.
    destruct (st_get e (StKey (vs_parent st))) as [st1|] eqn:G1; [|reflexivity].
    destruct (mark_mask_regs _ rm1) as [[fn rm2] nm] eqn:E1; destruct (mark_mask_slots fn sm1 nm) as [[[fn2 sm2] nm2] stop] eqn:E2.
    pose proof (marks_same e _ st1 rm1 sm1 fn rm2 nm fn2 sm2 nm2 stop G1 E1 E2) as S.
    destruct stop; [reflexivity|]; destruct (_ && _); [reflexivity|]; destruct (negb nm2); [reflexivity|].
    apply IH; [exact (same_env_older _ _ S O)|rewrite (st_rank_ext _ _ _ S); lia..].
  - destruct f'; cbn [precision_loop]; rewrite ?G; reflexivity.
Qed.

(** The fuel the code of the model gives the four walks is enough. *)
Lemma parent_walks_end e f : older (states e) -> (S (S (size (states e))) <= f)%nat ->
  (forall k, dec_branches f k (states e) = dec_branches (size (states e)) k (states e)) /\
  (forall state p flag w cnt, mark_reg_read_loop f (states e) state p flag w cnt = mark_reg_read_loop (S (size (states e))) (states e) state p flag w cnt) /\
  (forall r, mark_all_scalars_precise f r e = mark_all_scalars_precise (S (size (states e))) r e) /\
  (forall r last first skip rm sm, precision_loop f r last first skip rm sm e = precision_loop (S (S (size (states e)))) r last first skip rm sm e).
Proof.
  intros O F; pose proof (age_size (states e)) as Rk; split; [|split; [|split]].
  - intros k; apply dec_branches_enough; [exact O|specialize (Rk k); lia..].
  - intros state p flag w cnt; apply read_loop_enough; [exact O|..]; (destruct p as [p|]; cbn; [specialize (Rk (ref_state p))|]; lia).
  - intros r; assert (st_rank e r <= S (size (states e)))%nat by (destruct r as [|k]; cbn; [|specialize (Rk k)]; lia); apply mark_all_enough; [exact O|lia..].
  - intros r *; assert (st_rank e r <= S (size (states e)))%nat by (destruct r as [|k]; cbn; [|specialize (Rk k)]; lia); apply precision_loop_enough; [exact O|lia..].
Qed.

(** ** Parents are older *)

Lemma new_key_above (m : gmap Z bpf_verifier_state) k st : m !! k = Some st -> k < new_key m.
Proof.
  unfold new_key; revert k st; induction m as [|j s m E IH] using map_ind; intros k st H; [discriminate|].
  rewrite map_fold_insert_L by (trivial; intros; lia).
  apply lookup_insert_Some in H as [[<- _]|[_ H]]; [lia|]; pose proof (IH k st H); lia.
Qed.

Lemma below_mono k k' l : k <= k' -> below k l -> below k' l.
Proof.
  assert (Mono : forall ps, k <= k' -> Forall (ref_below k) ps -> Forall (ref_below k') ps).
  { intros ps L F; apply (Forall_impl _ _ _ F); intros [p|] H; cbn in *; [lia|exact I]. }
  intros L [P F]; split; [lia|]; apply (Forall_impl _ _ _ F); intros f [A B]; auto.
Qed.

Lemma connect_below k k' i cur : k < k' -> below k' (lineage cur) -> below k' (lineage (connect_state k i cur)).
Proof.
  intros L [_ F]; split; [exact L|]; unfold lineage in *; cbn in *; rewrite Forall_fmap, Forall_lookup in *; intros j fn E; cbn.
  rewrite list_lookup_imap in E; destruct (frame cur !! j) as [fn0|] eqn:E0; [|discriminate]; injection E as <-; destruct (F j fn0 E0) as [A B]; cbn in A, B.
  unfold connect_frame; destruct (_ <=? _)%nat; [|auto]; cbn; rewrite !Forall_fmap, !Forall_lookup in *; split; intros r x Ex; cbn.
  - rewrite list_lookup_imap in Ex; destruct (regs fn0 !! r) as [reg|] eqn:Er; [|discriminate]; injection Ex as <-; specialize (A r reg Er); unfold connect_reg.
    destruct (r <? 10)%nat; [|exact A]; destruct (_ <=? r)%nat; cbn; [exact L|exact A].
  - rewrite list_lookup_imap in Ex; destruct (stack fn0 !! r) as [s|]; [|discriminate]; injection Ex as <-; exact L.
Qed.

(** Remembering a state keeps parents older than their children. *)
Lemma add_state_older i e u e' : older (states e) -> below (new_key (states e)) (lineage (cur_state e)) -> add_state i e = (inr u, e') ->
  older (states e') /\ below (new_key (states e')) (lineage (cur_state e')).
Proof.
  intros O B H; unfold add_state in H; run H; apply kalloc_run in R as [l ->]; run H; injection R as _ <-; run H; apply kalloc_run in R as [l' ->].
  injection H as _ <-; cbn; set (k := new_key (states e)) in *; set (m := <[k := cur_state e]> (states e)).
  assert (K : k < new_key m) by (apply (new_key_above m k (cur_state e)), lookup_insert_eq); split.
  - unfold older, m; rewrite fmap_insert; apply map_Forall_insert_2; [exact B|exact O].
  - apply connect_below; [exact K|]; apply (below_mono k); [lia|exact B].
Qed.

Lemma clean_parent fl r : parent (clean_reg fl r) = parent r.
Proof. unfold clean_reg; destruct (_ =? 0); reflexivity. Qed.

Lemma clean_lineage env st : lineage (clean_verifier_state env st) = lineage st.
Proof.
  unfold clean_verifier_state; destruct (negb _); [reflexivity|]; unfold lineage; cbn; f_equal; apply fmap_imap_id; intros i fn; destruct (_ <=? _)%nat; [|reflexivity].
  unfold clean_func_state; cbn; f_equal.
  - apply fmap_imap_id; intros j r; destruct (_ <=? _)%nat; [apply clean_parent|reflexivity].
  - rewrite <- list_fmap_compose; apply list_fmap_ext; intros j s _; cbn; unfold clean_slot; destruct (_ =? 0); reflexivity.
Qed.

(** Cleaning, pushing and popping leave the parents alone. *)
Lemma clean_live_older insn e : lineage <$> states (clean_live_states insn e).2 = lineage <$> states e.
Proof.
  cbn; generalize (explored_state e insn) as l, (states e) as m; induction l as [|sl l IH]; intros m; cbn [fold_left]; [reflexivity|].
  rewrite IH; unfold clean_live_state; destruct (m !! sl_state sl) as [st|] eqn:E; [|reflexivity].
  destruct (negb _); [reflexivity|]; destruct (_ || _); [reflexivity|]; case_bool_decide; [|reflexivity].
  rewrite fmap_insert; apply insert_id; rewrite lookup_fmap, E; cbn; rewrite clean_lineage; reflexivity.
Qed.

Lemma dec_branches_lineage : forall f k m, lineage <$> dec_branches f k m = lineage <$> m.
Proof.
  induction f as [|f IH]; intros k m; cbn; [reflexivity|]; destruct (m !! k) as [st|] eqn:E; [|reflexivity].
  destruct (_ =? 0); [rewrite IH|]; apply branches_lineage, E.
Qed.
