(* ===== verification/HelperCall.v ===== *)
(** Calls of helper functions: [check_helper_call] of kernel/bpf/verifier.c, the
    checks of the arguments against the prototype of the helper
    ([check_func_arg]), the memory a helper may access
    ([check_helper_mem_access]), the compatibility of maps and helpers, and the
    references a helper acquires or releases. *)
From Stdlib Require Import ZArith Lia Bool.
From stdpp Require Import base list gmap.
From S2P Require Import Prelude Bits Tnum Bounds RegState Insn Env MemAccess RegArg Precision Alu CondJmp StackAccess MemInsn Pruning Explore.

Local Open Scope Z_scope.
Local Open Scope kint_scope.

(** ** Prototypes *)

Inductive bpf_arg_type :=
  | ARG_DONTCARE
  | ARG_CONST_MAP_PTR | ARG_PTR_TO_MAP_KEY | ARG_PTR_TO_MAP_VALUE | ARG_PTR_TO_UNINIT_MAP_VALUE | ARG_PTR_TO_MAP_VALUE_OR_NULL
  | ARG_PTR_TO_MEM | ARG_PTR_TO_MEM_OR_NULL | ARG_PTR_TO_UNINIT_MEM
  | ARG_CONST_SIZE | ARG_CONST_SIZE_OR_ZERO
  | ARG_PTR_TO_CTX | ARG_PTR_TO_CTX_OR_NULL | ARG_ANYTHING | ARG_PTR_TO_SPIN_LOCK | ARG_PTR_TO_SOCK_COMMON
  | ARG_PTR_TO_INT | ARG_PTR_TO_LONG | ARG_PTR_TO_SOCKET | ARG_PTR_TO_SOCKET_OR_NULL | ARG_PTR_TO_BTF_ID
  | ARG_PTR_TO_ALLOC_MEM | ARG_PTR_TO_ALLOC_MEM_OR_NULL | ARG_CONST_ALLOC_SIZE_OR_ZERO
  | ARG_PTR_TO_BTF_ID_SOCK_COMMON | ARG_PTR_TO_PERCPU_BTF_ID.

#[global] Instance arg_type_eq_dec : EqDecision bpf_arg_type.
Proof. solve_decision. Defined.

#[global] Instance arg_type_inhabited : Inhabited bpf_arg_type := populate ARG_DONTCARE.

Inductive bpf_return_type :=
  | RET_INTEGER | RET_VOID | RET_PTR_TO_MAP_VALUE | RET_PTR_TO_MAP_VALUE_OR_NULL | RET_PTR_TO_SOCKET_OR_NULL | RET_PTR_TO_TCP_SOCK_OR_NULL
  | RET_PTR_TO_SOCK_COMMON_OR_NULL | RET_PTR_TO_ALLOC_MEM_OR_NULL | RET_PTR_TO_BTF_ID_OR_NULL | RET_PTR_TO_MEM_OR_BTF_ID_OR_NULL
  | RET_PTR_TO_MEM_OR_BTF_ID.

(** [allowed] is the outcome of the function of that name for the program, true
    without one; [changes_pkt_data] is [bpf_helper_changes_pkt_data(func)].  The
    lists have five elements. *)
Record bpf_func_proto := mk_proto {
  gpl_only : bool;
  pkt_access : bool;
  ret_type : bpf_return_type;
  arg_type : list bpf_arg_type;
  arg_btf_id : list (option Z);
  ret_btf_id : Z;
  allowed : bool;
  changes_pkt_data : bool
}.

(** The type of a kernel variable, without its modifiers: a structure, a type of
    some size, or one whose size cannot be told. *)
Inductive btf_kind := BtfStruct | BtfSized (tsize : Z) | BtfUnsized.

(** What helper calls reach outside of the model: the prototypes of the program
    type, the type information of the kernel, and the buffers for call chains. *)
Record helper_ops := mk_helper_ops {
  get_func_proto : Z -> option bpf_func_proto;
  btf_struct_ids_match : Z -> Z -> Z -> bool;
  btf_sock_common_id : Z;
  btf_vmlinux_kind : Z -> btf_kind;
  get_callchain_buffers : Z
}.

(** [meta_map_ptr] is a key of the map store, 0 for NULL. *)
Record bpf_call_arg_meta := mk_meta {
  meta_map_ptr : Z;
  raw_mode : bool;
  meta_pkt_access : bool;
  meta_regno : Z;
  meta_access_size : Z;
  meta_mem_size : Z;
  msize_max_value : Z;
  meta_ref_obj_id : Z;
  meta_ret_btf_id : Z
}.

Definition set_meta_map_ptr (m : bpf_call_arg_meta) (v : Z) : bpf_call_arg_meta :=
  mk_meta v (raw_mode m) (meta_pkt_access m) (meta_regno m) (meta_access_size m) (meta_mem_size m) (msize_max_value m) (meta_ref_obj_id m) (meta_ret_btf_id m).
Definition set_raw_mode (m : bpf_call_arg_meta) (v : bool) : bpf_call_arg_meta :=
  mk_meta (meta_map_ptr m) v (meta_pkt_access m) (meta_regno m) (meta_access_size m) (meta_mem_size m) (msize_max_value m) (meta_ref_obj_id m) (meta_ret_btf_id m).
Definition set_meta_access (m : bpf_call_arg_meta) (size regno : Z) : bpf_call_arg_meta :=
  mk_meta (meta_map_ptr m) (raw_mode m) (meta_pkt_access m) regno size (meta_mem_size m) (msize_max_value m) (meta_ref_obj_id m) (meta_ret_btf_id m).
Definition set_meta_mem_size (m : bpf_call_arg_meta) (v : Z) : bpf_call_arg_meta :=
  mk_meta (meta_map_ptr m) (raw_mode m) (meta_pkt_access m) (meta_regno m) (meta_access_size m) v (msize_max_value m) (meta_ref_obj_id m) (meta_ret_btf_id m).
Definition set_msize_max_value (m : bpf_call_arg_meta) (v : Z) : bpf_call_arg_meta :=
  mk_meta (meta_map_ptr m) (raw_mode m) (meta_pkt_access m) (meta_regno m) (meta_access_size m) (meta_mem_size m) v (meta_ref_obj_id m) (meta_ret_btf_id m).
Definition set_meta_ref_obj_id (m : bpf_call_arg_meta) (v : Z) : bpf_call_arg_meta :=
  mk_meta (meta_map_ptr m) (raw_mode m) (meta_pkt_access m) (meta_regno m) (meta_access_size m) (meta_mem_size m) (msize_max_value m) v (meta_ret_btf_id m).
Definition set_meta_ret_btf_id (m : bpf_call_arg_meta) (v : Z) : bpf_call_arg_meta :=
  mk_meta (meta_map_ptr m) (raw_mode m) (meta_pkt_access m) (meta_regno m) (meta_access_size m) (meta_mem_size m) (msize_max_value m) (meta_ref_obj_id m) v.

(** The helpers the verifier knows by number (__BPF_FUNC_MAPPER). *)
Abbreviation __BPF_FUNC_MAX_ID := 156.
Abbreviation BPF_FUNC_map_lookup_elem := 1.
Abbreviation BPF_FUNC_map_update_elem := 2.
Abbreviation BPF_FUNC_map_delete_elem := 3.
Abbreviation BPF_FUNC_tail_call := 12.
Abbreviation BPF_FUNC_perf_event_read := 22.
Abbreviation BPF_FUNC_perf_event_output := 25.
Abbreviation BPF_FUNC_get_stackid := 27.
Abbreviation BPF_FUNC_skb_under_cgroup := 33.
Abbreviation BPF_FUNC_current_task_under_cgroup := 37.
Abbreviation BPF_FUNC_probe_read_str := 45.
Abbreviation BPF_FUNC_redirect_map := 51.
Abbreviation BPF_FUNC_sk_redirect_map := 52.
Abbreviation BPF_FUNC_sock_map_update := 53.
Abbreviation BPF_FUNC_perf_event_read_value := 55.
Abbreviation BPF_FUNC_msg_redirect_map := 60.
Abbreviation BPF_FUNC_get_stack := 67.
Abbreviation BPF_FUNC_sock_hash_update := 70.
Abbreviation BPF_FUNC_msg_redirect_hash := 71.
Abbreviation BPF_FUNC_sk_redirect_hash := 72.
Abbreviation BPF_FUNC_get_local_storage := 81.
Abbreviation BPF_FUNC_sk_select_reuseport := 82.
Abbreviation BPF_FUNC_sk_lookup_tcp := 84.
Abbreviation BPF_FUNC_sk_lookup_udp := 85.
Abbreviation BPF_FUNC_sk_release := 86.
Abbreviation BPF_FUNC_map_push_elem := 87.
Abbreviation BPF_FUNC_map_pop_elem := 88.
Abbreviation BPF_FUNC_map_peek_elem := 89.
Abbreviation BPF_FUNC_spin_lock := 93.
Abbreviation BPF_FUNC_spin_unlock := 94.
Abbreviation BPF_FUNC_sk_fullsock := 95.
Abbreviation BPF_FUNC_tcp_sock := 96.
Abbreviation BPF_FUNC_skc_lookup_tcp := 99.
Abbreviation BPF_FUNC_sk_storage_get := 107.
Abbreviation BPF_FUNC_sk_storage_delete := 108.
Abbreviation BPF_FUNC_skb_output := 111.
Abbreviation BPF_FUNC_probe_read_user_str := 114.
Abbreviation BPF_FUNC_probe_read_kernel_str := 115.
Abbreviation BPF_FUNC_xdp_output := 121.
Abbreviation BPF_FUNC_ringbuf_output := 130.
Abbreviation BPF_FUNC_ringbuf_reserve := 131.
Abbreviation BPF_FUNC_ringbuf_submit := 132.
Abbreviation BPF_FUNC_ringbuf_discard := 133.
Abbreviation BPF_FUNC_ringbuf_query := 134.
Abbreviation BPF_FUNC_skc_to_tcp6_sock := 136.
Abbreviation BPF_FUNC_skc_to_tcp_sock := 137.
Abbreviation BPF_FUNC_skc_to_tcp_timewait_sock := 138.
Abbreviation BPF_FUNC_skc_to_tcp_request_sock := 139.
Abbreviation BPF_FUNC_skc_to_udp6_sock := 140.
Abbreviation BPF_FUNC_get_task_stack := 141.
Abbreviation BPF_FUNC_inode_storage_get := 145.
Abbreviation BPF_FUNC_inode_storage_delete := 146.

Abbreviation BPF_MAP_TYPE_UNSPEC := 0.
Abbreviation BPF_MAP_TYPE_PROG_ARRAY := 3.
Abbreviation BPF_MAP_TYPE_PERF_EVENT_ARRAY := 4.
Abbreviation BPF_MAP_TYPE_STACK_TRACE := 7.
Abbreviation BPF_MAP_TYPE_CGROUP_ARRAY := 8.
Abbreviation BPF_MAP_TYPE_ARRAY_OF_MAPS := 12.
Abbreviation BPF_MAP_TYPE_HASH_OF_MAPS := 13.
Abbreviation BPF_MAP_TYPE_DEVMAP := 14.
Abbreviation BPF_MAP_TYPE_CPUMAP := 16.
Abbreviation BPF_MAP_TYPE_CGROUP_STORAGE := 19.
Abbreviation BPF_MAP_TYPE_REUSEPORT_SOCKARRAY := 20.
Abbreviation BPF_MAP_TYPE_PERCPU_CGROUP_STORAGE := 21.
Abbreviation BPF_MAP_TYPE_QUEUE := 22.
Abbreviation BPF_MAP_TYPE_STACK := 23.
Abbreviation BPF_MAP_TYPE_SK_STORAGE := 24.
Abbreviation BPF_MAP_TYPE_DEVMAP_HASH := 25.
Abbreviation BPF_MAP_TYPE_RINGBUF := 27.
Abbreviation BPF_MAP_TYPE_INODE_STORAGE := 28.

Abbreviation BPF_MAX_VAR_SIZ := (2 ^ 29).
Abbreviation MAX_ERRNO := 4095.
Abbreviation BPF_REG_2 := 2.
Abbreviation BPF_REG_3 := 3.

(** ** What a helper accesses *)

(** [raw_mode] stands for [meta && meta->raw_mode]; the result is what is recorded
    in [meta]: the size and the register of an access that initializes. *)
Definition check_helper_mem_access (regno access_size : Z) (zero_size_allowed raw_mode : bool) : verifier (option (Z * Z)) :=
  reg ← reg_of regno;
  match type_ reg with
  | PTR_TO_PACKET | PTR_TO_PACKET_META => _ ← check_packet_access regno (off reg) access_size zero_size_allowed; mret None
  | PTR_TO_MAP_VALUE =>
    _ ← check_map_access_type regno (if raw_mode then BPF_WRITE else BPF_READ);
    _ ← check_map_access regno (off reg) access_size zero_size_allowed;
    mret None
  | PTR_TO_MEM => _ ← check_mem_region_access regno (off reg) access_size (mem_size reg) zero_size_allowed; mret None
  | PTR_TO_RDONLY_BUF =>
    if raw_mode then fail (- EACCES) else _ ← check_buffer_access reg (off reg) access_size true; mret None
  | PTR_TO_RDWR_BUF => _ ← check_buffer_access reg (off reg) access_size false; mret None
  | PTR_TO_STACK => check_stack_range_initialized regno (off reg) access_size zero_size_allowed ACCESS_HELPER raw_mode
  | _ => if zero_size_allowed && (access_size =? 0) && register_is_null reg then mret None else fail (- EACCES)
  end.

Definition record_access (m : bpf_call_arg_meta) (a : option (Z * Z)) : bpf_call_arg_meta :=
  match a with Some (size, regno) => set_meta_access m size regno | None => m end.

(** ** Spin locks *)

Definition process_spin_lock (regno : Z) (is_lock : bool) : verifier unit :=
  env ← get;
  let reg := get_reg env regno in
  let map := map_of env (raw reg) in
  let lock := active_spin_lock (cur_state env) in
  if negb (tnum_is_const (var_off reg)) then fail (- EINVAL)
  else if negb (map_btf map) then fail (- EINVAL)
  else if negb (map_value_has_spin_lock map) then fail (- EINVAL)
  else if negb (u64 (spin_lock_off map) =? u64 (value (var_off reg) + off reg)) then fail (- EINVAL)
  else if is_lock then
    if negb (lock =? 0) then fail (- EINVAL)
    else upd_cur_state (fun cur => set_active_spin_lock cur (id reg))
  else if lock =? 0 then fail (- EINVAL)
  else if negb (lock =? id reg) then fail (- EINVAL)
  else upd_cur_state (fun cur => set_active_spin_lock cur 0).

(** ** Types of arguments *)

Definition arg_type_is_mem_ptr (t : bpf_arg_type) : bool :=
  match t with ARG_PTR_TO_MEM | ARG_PTR_TO_MEM_OR_NULL | ARG_PTR_TO_UNINIT_MEM => true | _ => false end.

Definition arg_type_is_mem_size (t : bpf_arg_type) : bool :=
  match t with ARG_CONST_SIZE | ARG_CONST_SIZE_OR_ZERO => true | _ => false end.

Definition arg_type_may_be_refcounted (t : bpf_arg_type) : bool := bool_decide (t = ARG_PTR_TO_SOCK_COMMON).

Definition arg_type_may_be_null (t : bpf_arg_type) : bool :=
  match t with
  | ARG_PTR_TO_MAP_VALUE_OR_NULL | ARG_PTR_TO_MEM_OR_NULL | ARG_PTR_TO_CTX_OR_NULL | ARG_PTR_TO_SOCKET_OR_NULL | ARG_PTR_TO_ALLOC_MEM_OR_NULL => true
  | _ => false
  end.

Definition resolve_map_arg_type (m : bpf_call_arg_meta) (t : bpf_arg_type) : verifier bpf_arg_type :=
  env ← get;
  if meta_map_ptr m =? 0 then fail (- EACCES)
  else
    let ty := map_type (map_of env (meta_map_ptr m)) in
    if (ty =? BPF_MAP_TYPE_SOCKMAP) || (ty =? BPF_MAP_TYPE_SOCKHASH) then
      match t with ARG_PTR_TO_MAP_VALUE => mret ARG_PTR_TO_BTF_ID_SOCK_COMMON | _ => fail (- EINVAL) end
    else mret t.

(** The types of registers an argument type takes, and the type of structure a
    pointer to one has if the prototype names none (CONFIG_NET is set). *)
Definition compatible_reg_types (ops : helper_ops) (t : bpf_arg_type) : option (list bpf_reg_type * option Z) :=
  let memory := [PTR_TO_STACK; PTR_TO_PACKET; PTR_TO_PACKET_META; PTR_TO_MAP_VALUE] in
  let sockets := [PTR_TO_SOCK_COMMON; PTR_TO_SOCKET; PTR_TO_TCP_SOCK; PTR_TO_XDP_SOCK] in
  match t with
  | ARG_PTR_TO_MAP_KEY | ARG_PTR_TO_MAP_VALUE | ARG_PTR_TO_UNINIT_MAP_VALUE | ARG_PTR_TO_MAP_VALUE_OR_NULL => Some (memory, None)
  | ARG_CONST_SIZE | ARG_CONST_SIZE_OR_ZERO | ARG_CONST_ALLOC_SIZE_OR_ZERO => Some ([SCALAR_VALUE], None)
  | ARG_CONST_MAP_PTR => Some ([CONST_PTR_TO_MAP], None)
  | ARG_PTR_TO_CTX | ARG_PTR_TO_CTX_OR_NULL => Some ([PTR_TO_CTX], None)
  | ARG_PTR_TO_SOCK_COMMON => Some (sockets, None)
  | ARG_PTR_TO_BTF_ID_SOCK_COMMON => Some (sockets ++ [PTR_TO_BTF_ID], Some (btf_sock_common_id ops))
  | ARG_PTR_TO_SOCKET | ARG_PTR_TO_SOCKET_OR_NULL => Some ([PTR_TO_SOCKET], None)
  | ARG_PTR_TO_BTF_ID => Some ([PTR_TO_BTF_ID], None)
  | ARG_PTR_TO_SPIN_LOCK => Some ([PTR_TO_MAP_VALUE], None)
  | ARG_PTR_TO_MEM | ARG_PTR_TO_MEM_OR_NULL | ARG_PTR_TO_UNINIT_MEM => Some (memory ++ [PTR_TO_MEM; PTR_TO_RDONLY_BUF; PTR_TO_RDWR_BUF], None)
  | ARG_PTR_TO_ALLOC_MEM | ARG_PTR_TO_ALLOC_MEM_OR_NULL => Some ([PTR_TO_MEM], None)
  | ARG_PTR_TO_INT | ARG_PTR_TO_LONG => Some (memory, None)
  | ARG_PTR_TO_PERCPU_BTF_ID => Some ([PTR_TO_PERCPU_BTF_ID], None)
  | ARG_DONTCARE | ARG_ANYTHING => None
  end.

Definition check_reg_type (ops : helper_ops) (regno : Z) (t : bpf_arg_type) (arg_id : option Z) : verifier unit :=
  reg ← reg_of regno;
  match compatible_reg_types ops t with
  | None => fail (- EFAULT)
  | Some (types, compatible_id) =>
    if negb (existsb (type_eqb (type_ reg)) types) then fail (- EACCES)
    else if type_eqb (type_ reg) PTR_TO_BTF_ID then
      match (match arg_id with Some i => Some i | None => compatible_id end) with
      | None => fail (- EFAULT)
      | Some i =>
        if negb (btf_struct_ids_match ops (off reg) (btf_id reg) i) then fail (- EACCES)
        else if negb (tnum_is_const (var_off reg)) || negb (value (var_off reg) =? 0) then fail (- EACCES)
        else mret ()
      end
    else mret ()
  end.

(** ** [check_func_arg] *)

(** The bytes in front of a size argument: all of them for the largest size, and
    that none may be passed for the size 0.  Raw mode is off for a variable
    size. *)
Definition check_mem_size_arg (regno : Z) (t : bpf_arg_type) (m : bpf_call_arg_meta) : verifier bpf_call_arg_meta :=
  reg ← reg_of regno;
  let zero_size_allowed := bool_decide (t = ARG_CONST_SIZE_OR_ZERO) in
  let m := set_msize_max_value m (umax_value reg) in
  let raw := tnum_is_const (var_off reg) && raw_mode m in
  if smin_value reg <? 0 then fail (- EACCES)
  else
    a ← (if umin_value reg =? 0 then check_helper_mem_access (regno - 1) 0 zero_size_allowed raw else mret None);
    let m := record_access m a in
    if umax_value reg >=? BPF_MAX_VAR_SIZ then fail (- EACCES)
    else
      a ← check_helper_mem_access (regno - 1) (umax_value reg) zero_size_allowed raw;
      _ ← mark_chain_precision regno;
      mret (record_access m a).

Definition check_arg_by_type (func_id regno : Z) (t : bpf_arg_type) (m : bpf_call_arg_meta) : verifier bpf_call_arg_meta :=
  env ← get;
  let reg := get_reg env regno in
  let map := map_of env (meta_map_ptr m) in
  let map_value raw :=
    if meta_map_ptr m =? 0 then fail (- EACCES)
    else
      let m := set_raw_mode m raw in
      a ← check_helper_mem_access regno (s32 (value_size map)) false raw;
      mret (record_access m a) in
  let int_ptr size :=
    a ← check_helper_mem_access regno size false (raw_mode m);
    _ ← check_ptr_alignment reg 0 size true;
    mret (record_access m a) in
  match t with
  | ARG_CONST_MAP_PTR => mret (set_meta_map_ptr m (raw reg))
  | ARG_PTR_TO_MAP_KEY =>
    if meta_map_ptr m =? 0 then fail (- EACCES)
    else _ ← check_helper_mem_access regno (s32 (key_size map)) false false; mret m
  | ARG_PTR_TO_MAP_VALUE => map_value false
  | ARG_PTR_TO_MAP_VALUE_OR_NULL => if register_is_null reg then mret m else map_value false
  | ARG_PTR_TO_UNINIT_MAP_VALUE => map_value true
  | ARG_PTR_TO_PERCPU_BTF_ID => if btf_id reg =? 0 then fail (- EACCES) else mret (set_meta_ret_btf_id m (btf_id reg))
  | ARG_PTR_TO_SPIN_LOCK =>
    if (func_id =? BPF_FUNC_spin_lock) || (func_id =? BPF_FUNC_spin_unlock) then
      err ← catch (process_spin_lock regno (func_id =? BPF_FUNC_spin_lock));
      if negb (err =? 0) then fail (- EACCES) else mret m
    else fail (- EFAULT)
  | ARG_PTR_TO_MEM | ARG_PTR_TO_MEM_OR_NULL => mret (set_raw_mode m false)
  | ARG_PTR_TO_UNINIT_MEM => mret (set_raw_mode m true)
  | ARG_CONST_SIZE | ARG_CONST_SIZE_OR_ZERO => check_mem_size_arg regno t m
  | ARG_CONST_ALLOC_SIZE_OR_ZERO =>
    if negb (tnum_is_const (var_off reg)) then fail (- EACCES) else mret (set_meta_mem_size m (s32 (value (var_off reg))))
  | ARG_PTR_TO_INT => int_ptr 4
  | ARG_PTR_TO_LONG => int_ptr 8
  | _ => mret m
  end.

(** An argument that is neither unused nor arbitrary. *)
Definition check_typed_arg (ops : helper_ops) (func_id regno : Z) (t : bpf_arg_type) (arg_id : option Z) (m : bpf_call_arg_meta) : verifier bpf_call_arg_meta :=
  reg ← reg_of regno;
  pkt ← (if type_is_pkt_pointer (type_ reg) then may_access_direct_pkt_data (Some (meta_pkt_access m)) BPF_READ else mret true);
  if negb pkt then fail (- EACCES)
  else
    t ← match t with
        | ARG_PTR_TO_MAP_VALUE | ARG_PTR_TO_UNINIT_MAP_VALUE | ARG_PTR_TO_MAP_VALUE_OR_NULL => resolve_map_arg_type m t
        | _ => mret t
        end;
    _ ← (if register_is_null reg && arg_type_may_be_null t then mret ()
         else
           _ ← check_reg_type ops regno t arg_id;
           when (type_eqb (type_ reg) PTR_TO_CTX) (check_ctx_reg reg));
    if negb (ref_obj_id reg =? 0) && negb (meta_ref_obj_id m =? 0) then fail (- EFAULT)
    else check_arg_by_type func_id regno t (if negb (ref_obj_id reg =? 0) then set_meta_ref_obj_id m (s32 (ref_obj_id reg)) else m).

Definition check_func_arg (ops : helper_ops) (fn : bpf_func_proto) (func_id : Z) (m : bpf_call_arg_meta) (arg : nat) : verifier bpf_call_arg_meta :=
  let regno := 1 + Z.of_nat arg in
  let t := arg_type fn !!! arg in
  if bool_decide (t = ARG_DONTCARE) then mret m
  else
    _ ← check_reg_arg regno SRC_OP;
    if bool_decide (t = ARG_ANYTHING) then
      ptr ← is_pointer_value regno;
      if (ptr : bool) then fail (- EACCES) else mret m
    else check_typed_arg ops func_id regno t (arg_btf_id fn !!! arg) m.

Fixpoint check_func_args (ops : helper_ops) (fn : bpf_func_proto) (func_id : Z) (args : list nat) (m : bpf_call_arg_meta) : verifier bpf_call_arg_meta :=
  match args with
  | [] => mret m
  | arg :: args => m ← check_func_arg ops fn func_id m arg; check_func_args ops fn func_id args m
  end.

(** ** Prototypes that make sense *)

Definition count_args (p : bpf_arg_type -> bool) (fn : bpf_func_proto) : nat := length (filter (fun t => p t = true) (arg_type fn)).

Definition check_raw_mode_ok (fn : bpf_func_proto) : bool := (count_args (fun t => bool_decide (t = ARG_PTR_TO_UNINIT_MEM)) fn <=? 1)%nat.

Definition check_args_pair_invalid (arg_curr arg_next : bpf_arg_type) : bool :=
  (arg_type_is_mem_ptr arg_curr && negb (arg_type_is_mem_size arg_next)) || (negb (arg_type_is_mem_ptr arg_curr) && arg_type_is_mem_size arg_next).

Definition check_arg_pair_ok (fn : bpf_func_proto) : bool :=
  let arg := fun i => arg_type fn !!! i in
  negb (arg_type_is_mem_size (arg 0%nat) || arg_type_is_mem_ptr (arg 4%nat) ||
    check_args_pair_invalid (arg 0%nat) (arg 1%nat) || check_args_pair_invalid (arg 1%nat) (arg 2%nat) ||
    check_args_pair_invalid (arg 2%nat) (arg 3%nat) || check_args_pair_invalid (arg 3%nat) (arg 4%nat)).

Definition is_release_function (func_id : Z) : bool :=
  existsb (Z.eqb func_id) [BPF_FUNC_sk_release; BPF_FUNC_ringbuf_submit; BPF_FUNC_ringbuf_discard].

Definition may_be_acquire_function (func_id : Z) : bool :=
  existsb (Z.eqb func_id) [BPF_FUNC_sk_lookup_tcp; BPF_FUNC_sk_lookup_udp; BPF_FUNC_skc_lookup_tcp; BPF_FUNC_map_lookup_elem; BPF_FUNC_ringbuf_reserve].

Definition is_acquire_function (func_id map_type : Z) : bool :=
  existsb (Z.eqb func_id) [BPF_FUNC_sk_lookup_tcp; BPF_FUNC_sk_lookup_udp; BPF_FUNC_skc_lookup_tcp; BPF_FUNC_ringbuf_reserve] ||
  (func_id =? BPF_FUNC_map_lookup_elem) && ((map_type =? BPF_MAP_TYPE_SOCKMAP) || (map_type =? BPF_MAP_TYPE_SOCKHASH)).

Definition is_ptr_cast_function (func_id : Z) : bool :=
  existsb (Z.eqb func_id) [BPF_FUNC_tcp_sock; BPF_FUNC_sk_fullsock; BPF_FUNC_skc_to_tcp_sock; BPF_FUNC_skc_to_tcp6_sock; BPF_FUNC_skc_to_udp6_sock;
    BPF_FUNC_skc_to_tcp_timewait_sock; BPF_FUNC_skc_to_tcp_request_sock].

Definition check_refcount_ok (fn : bpf_func_proto) (func_id : Z) : bool :=
  let count := count_args arg_type_may_be_refcounted fn in
  if may_be_acquire_function func_id && negb (count =? 0)%nat then false else (count <=? 1)%nat.

Definition check_btf_id_ok (fn : bpf_func_proto) : bool :=
  forallb (fun i => Bool.eqb (bool_decide (arg_type fn !!! i = ARG_PTR_TO_BTF_ID)) (match arg_btf_id fn !!! i with Some _ => true | None => false end))
    (seq 0 5).

Definition check_func_proto (fn : bpf_func_proto) (func_id : Z) : bool :=
  check_raw_mode_ok fn && check_arg_pair_ok fn && check_btf_id_ok fn && check_refcount_ok fn func_id.

(** ** Maps and helpers *)

Definition may_update_sockmap (env : bpf_verifier_env) (func_id : Z) : bool :=
  let ty := resolve_prog_type (aux env) in
  let SOCKET_FILTER := 1 in let SCHED_CLS := 3 in let SCHED_ACT := 4 in let XDP := 6 in let SK_REUSEPORT := 21 in let FLOW_DISSECTOR := 22 in
  let TRACING := 26 in let SK_LOOKUP := 30 in let TRACE_ITER := 28 in
  (func_id =? BPF_FUNC_map_update_elem) &&
  ((ty =? TRACING) && (expected_attach_type (attach env) =? TRACE_ITER) ||
   existsb (Z.eqb ty) [SOCKET_FILTER; SCHED_CLS; SCHED_ACT; XDP; SK_REUSEPORT; FLOW_DISSECTOR; SK_LOOKUP]).

(** The helpers a map of type [ty] can be passed to; [None] is any. *)
Definition map_type_funcs (ty : Z) : option (list Z) :=
  if ty =? BPF_MAP_TYPE_PROG_ARRAY then Some [BPF_FUNC_tail_call]
  else if ty =? BPF_MAP_TYPE_PERF_EVENT_ARRAY then
    Some [BPF_FUNC_perf_event_read; BPF_FUNC_perf_event_output; BPF_FUNC_skb_output; BPF_FUNC_perf_event_read_value; BPF_FUNC_xdp_output]
  else if ty =? BPF_MAP_TYPE_RINGBUF then Some [BPF_FUNC_ringbuf_output; BPF_FUNC_ringbuf_reserve; BPF_FUNC_ringbuf_query]
  else if ty =? BPF_MAP_TYPE_STACK_TRACE then Some [BPF_FUNC_get_stackid]
  else if ty =? BPF_MAP_TYPE_CGROUP_ARRAY then Some [BPF_FUNC_skb_under_cgroup; BPF_FUNC_current_task_under_cgroup]
  else if (ty =? BPF_MAP_TYPE_CGROUP_STORAGE) || (ty =? BPF_MAP_TYPE_PERCPU_CGROUP_STORAGE) then Some [BPF_FUNC_get_local_storage]
  else if (ty =? BPF_MAP_TYPE_DEVMAP) || (ty =? BPF_MAP_TYPE_DEVMAP_HASH) then Some [BPF_FUNC_redirect_map; BPF_FUNC_map_lookup_elem]
  else if ty =? BPF_MAP_TYPE_CPUMAP then Some [BPF_FUNC_redirect_map]
  else if ty =? BPF_MAP_TYPE_XSKMAP then Some [BPF_FUNC_redirect_map; BPF_FUNC_map_lookup_elem]
  else if (ty =? BPF_MAP_TYPE_ARRAY_OF_MAPS) || (ty =? BPF_MAP_TYPE_HASH_OF_MAPS) then Some [BPF_FUNC_map_lookup_elem]
  else if ty =? BPF_MAP_TYPE_SOCKMAP then
    Some [BPF_FUNC_sk_redirect_map; BPF_FUNC_sock_map_update; BPF_FUNC_map_delete_elem; BPF_FUNC_msg_redirect_map; BPF_FUNC_sk_select_reuseport;
      BPF_FUNC_map_lookup_elem]
  else if ty =? BPF_MAP_TYPE_SOCKHASH then
    Some [BPF_FUNC_sk_redirect_hash; BPF_FUNC_sock_hash_update; BPF_FUNC_map_delete_elem; BPF_FUNC_msg_redirect_hash; BPF_FUNC_sk_select_reuseport;
      BPF_FUNC_map_lookup_elem]
  else if ty =? BPF_MAP_TYPE_REUSEPORT_SOCKARRAY then Some [BPF_FUNC_sk_select_reuseport]
  else if (ty =? BPF_MAP_TYPE_QUEUE) || (ty =? BPF_MAP_TYPE_STACK) then Some [BPF_FUNC_map_peek_elem; BPF_FUNC_map_pop_elem; BPF_FUNC_map_push_elem]
  else if ty =? BPF_MAP_TYPE_SK_STORAGE then Some [BPF_FUNC_sk_storage_get; BPF_FUNC_sk_storage_delete]
  else if ty =? BPF_MAP_TYPE_INODE_STORAGE then Some [BPF_FUNC_inode_storage_get; BPF_FUNC_inode_storage_delete]
  else None.

(** The types of maps the helper [func_id] takes; [None] is any. *)
Definition func_map_types (func_id : Z) : option (list Z) :=
  let one_of fs := existsb (Z.eqb func_id) fs in
  if func_id =? BPF_FUNC_tail_call then Some [BPF_MAP_TYPE_PROG_ARRAY]
  else if one_of [BPF_FUNC_perf_event_read; BPF_FUNC_perf_event_output; BPF_FUNC_perf_event_read_value; BPF_FUNC_skb_output; BPF_FUNC_xdp_output] then
    Some [BPF_MAP_TYPE_PERF_EVENT_ARRAY]
  else if one_of [BPF_FUNC_ringbuf_output; BPF_FUNC_ringbuf_reserve; BPF_FUNC_ringbuf_query] then Some [BPF_MAP_TYPE_RINGBUF]
  else if func_id =? BPF_FUNC_get_stackid then Some [BPF_MAP_TYPE_STACK_TRACE]
  else if one_of [BPF_FUNC_current_task_under_cgroup; BPF_FUNC_skb_under_cgroup] then Some [BPF_MAP_TYPE_CGROUP_ARRAY]
  else if func_id =? BPF_FUNC_redirect_map then Some [BPF_MAP_TYPE_DEVMAP; BPF_MAP_TYPE_DEVMAP_HASH; BPF_MAP_TYPE_CPUMAP; BPF_MAP_TYPE_XSKMAP]
  else if one_of [BPF_FUNC_sk_redirect_map; BPF_FUNC_msg_redirect_map; BPF_FUNC_sock_map_update] then Some [BPF_MAP_TYPE_SOCKMAP]
  else if one_of [BPF_FUNC_sk_redirect_hash; BPF_FUNC_msg_redirect_hash; BPF_FUNC_sock_hash_update] then Some [BPF_MAP_TYPE_SOCKHASH]
  else if func_id =? BPF_FUNC_get_local_storage then Some [BPF_MAP_TYPE_CGROUP_STORAGE; BPF_MAP_TYPE_PERCPU_CGROUP_STORAGE]
  else if func_id =? BPF_FUNC_sk_select_reuseport then Some [BPF_MAP_TYPE_REUSEPORT_SOCKARRAY; BPF_MAP_TYPE_SOCKMAP; BPF_MAP_TYPE_SOCKHASH]
  else if one_of [BPF_FUNC_map_peek_elem; BPF_FUNC_map_pop_elem; BPF_FUNC_map_push_elem] then Some [BPF_MAP_TYPE_QUEUE; BPF_MAP_TYPE_STACK]
  else if one_of [BPF_FUNC_sk_storage_get; BPF_FUNC_sk_storage_delete] then Some [BPF_MAP_TYPE_SK_STORAGE]
  else if one_of [BPF_FUNC_inode_storage_get; BPF_FUNC_inode_storage_delete] then Some [BPF_MAP_TYPE_INODE_STORAGE]
  else None.

Definition listed (x : Z) (l : option (list Z)) : bool := match l with Some l => existsb (Z.eqb x) l | None => true end.

(** Tail calls are allowed beside functions of the program when it is compiled
    (CONFIG_X86_64 is set). *)
Definition check_map_func_compatibility (map func_id : Z) : verifier unit :=
  env ← get;
  if map =? 0 then mret ()
  else
    let ty := map_type (map_of env map) in
    let sock := (ty =? BPF_MAP_TYPE_SOCKMAP) || (ty =? BPF_MAP_TYPE_SOCKHASH) in
    if negb (listed func_id (map_type_funcs ty) || (sock && may_update_sockmap env func_id)) then fail (- EINVAL)
    else if negb (listed ty (func_map_types func_id)) then fail (- EINVAL)
    else if (func_id =? BPF_FUNC_tail_call) && (1 <? length (subprog_info env))%nat && negb (jit_requested (attach env)) then fail (- EINVAL)
    else mret ().

(** ** What is recorded about the call *)

Abbreviation BPF_MAP_PTR_UNPRIV := 1.
Abbreviation BPF_MAP_PTR_POISON := (0xeB9F * 2 + 0xdead000000000000).
Abbreviation BPF_MAP_KEY_POISON := (2 ^ 63).
Abbreviation BPF_MAP_KEY_SEEN := (2 ^ 62).

(** [BPF_MAP_PTR(X)]: pointers to maps are even. *)
Definition BPF_MAP_PTR (x : Z) : Z := Z.ldiff x BPF_MAP_PTR_UNPRIV.

Definition upd_aux_at (i : Z) (f : bpf_insn_aux_data -> bpf_insn_aux_data) : verifier unit :=
  modify (fun env => set_insn_aux_data env (alter f (Z.to_nat i) (insn_aux_data env))).

Definition bpf_map_ptr_unpriv (a : bpf_insn_aux_data) : bool := negb (map_ptr_state a .& BPF_MAP_PTR_UNPRIV =? 0).

Definition bpf_map_ptr_store (map : Z) (unpriv : bool) (a : bpf_insn_aux_data) : bpf_insn_aux_data :=
  set_map_ptr_state a (map .| (if unpriv || bpf_map_ptr_unpriv a then BPF_MAP_PTR_UNPRIV else 0)).

Definition record_func_map (m : bpf_call_arg_meta) (func_id idx : Z) : verifier unit :=
  env ← get;
  let map := meta_map_ptr m in
  let a := insn_aux_data env !!! Z.to_nat idx in
  let one_of fs := existsb (Z.eqb func_id) fs in
  if negb (one_of [BPF_FUNC_tail_call; BPF_FUNC_map_lookup_elem; BPF_FUNC_map_update_elem; BPF_FUNC_map_delete_elem; BPF_FUNC_map_push_elem;
       BPF_FUNC_map_pop_elem; BPF_FUNC_map_peek_elem]) then mret ()
  else if map =? 0 then fail (- EINVAL)
  else if negb (map_flags (map_of env map) .& BPF_F_RDONLY_PROG =? 0) &&
          one_of [BPF_FUNC_map_delete_elem; BPF_FUNC_map_update_elem; BPF_FUNC_map_push_elem; BPF_FUNC_map_pop_elem] then fail (- EACCES)
  else
    let unpriv := negb (map_bypass_spec_v1 (map_of env map)) in
    if BPF_MAP_PTR (map_ptr_state a) =? 0 then upd_aux_at idx (bpf_map_ptr_store map unpriv)
    else when (negb (BPF_MAP_PTR (map_ptr_state a) =? map)) (upd_aux_at idx (bpf_map_ptr_store BPF_MAP_PTR_POISON unpriv)).

Definition bpf_map_key_poisoned (a : bpf_insn_aux_data) : bool := negb (map_key_state a .& BPF_MAP_KEY_POISON =? 0).
Definition bpf_map_key_unseen (a : bpf_insn_aux_data) : bool := map_key_state a .& BPF_MAP_KEY_SEEN =? 0.
Definition bpf_map_key_immediate (a : bpf_insn_aux_data) : Z := Z.ldiff (map_key_state a) (BPF_MAP_KEY_SEEN .| BPF_MAP_KEY_POISON).

Definition bpf_map_key_store (state : Z) (a : bpf_insn_aux_data) : bpf_insn_aux_data :=
  set_map_key_state a (state .| BPF_MAP_KEY_SEEN .| (if bpf_map_key_poisoned a then BPF_MAP_KEY_POISON else 0)).

Definition record_func_key (m : bpf_call_arg_meta) (func_id idx : Z) : verifier unit :=
  env ← get;
  let map := map_of env (meta_map_ptr m) in
  if negb (func_id =? BPF_FUNC_tail_call) then mret ()
  else if (meta_map_ptr m =? 0) || negb (map_type map =? BPF_MAP_TYPE_PROG_ARRAY) then fail (- EINVAL)
  else
    let reg := get_reg env BPF_REG_3 in
    if negb (register_is_const reg) || negb (tnum_in (tnum_range 0 (u32 (max_entries map - 1))) (var_off reg)) then
      upd_aux_at idx (bpf_map_key_store BPF_MAP_KEY_POISON)
    else
      _ ← mark_chain_precision BPF_REG_3;
      let val := value (var_off reg) in
      upd_aux_at idx (fun a =>
        if bpf_map_key_unseen a then bpf_map_key_store val a
        else if negb (bpf_map_key_poisoned a) && negb (bpf_map_key_immediate a =? val) then bpf_map_key_store BPF_MAP_KEY_POISON a
        else a).

(** ** References *)

Definition check_reference_leak : verifier unit :=
  env ← get; match refs (cur_func env) with [] => mret () | _ => fail (- EINVAL) end.

Definition acquire_reference_state (idx : Z) : verifier Z :=
  _ ← kalloc;
  _ ← modify (fun env => set_id_gen env (u32 (id_gen env + 1)));
  env ← get;
  _ ← upd_frame (curframe (cur_state env)) (fun fn => set_refs fn (refs fn ++ [mk_ref (s32 (id_gen env)) idx]));
  mret (s32 (id_gen env)).

Definition release_reg_references (fl : env_flags) (ref_id : Z) (fn : bpf_func_state) : bpf_func_state :=
  upd_func_regs (fun reg => if ref_obj_id reg =? u32 ref_id then __mark_reg_unknown fl reg else reg) fn.

Definition release_reference (ref_id : Z) : verifier unit :=
  env ← get;
  match release_reference_state ref_id (refs (cur_func env)) with
  | None => fail (- EINVAL)
  | Some rs =>
    _ ← upd_frame (curframe (cur_state env)) (fun fn => set_refs fn rs);
    upd_cur_state (upd_frames (release_reg_references (flags env) ref_id))
  end.

(** ** What a call leaves behind *)

Definition reg_is_pkt_pointer_any (reg : bpf_reg_state) : bool := type_is_pkt_pointer (type_ reg) || type_eqb (type_ reg) PTR_TO_PACKET_END.

Definition __clear_all_pkt_pointers (fl : env_flags) (fn : bpf_func_state) : bpf_func_state :=
  upd_func_regs (fun reg => if reg_is_pkt_pointer_any reg then __mark_reg_unknown fl reg else reg) fn.

Definition clear_all_pkt_pointers : verifier unit :=
  env ← get; upd_cur_state (upd_frames (__clear_all_pkt_pointers (flags env))).

(** The result of [check_reg_arg] is not looked at. *)
Definition clear_caller_saved_regs : verifier unit :=
  for_each [0; 1; 2; 3; 4; 5] (fun i => _ ← mark_reg_not_init i; _ ← catch (check_reg_arg i DST_OP_NO_MARK); mret ()).

(** The bounds of the return value of helpers that return at most the size they
    were given, or an error. *)
Definition refine_retval (msize : Z) (reg : bpf_reg_state) : bpf_reg_state :=
  let reg := set_s32_max_value (set_smax_value reg (s64 msize)) (s32 msize) in
  let reg := set_s32_min_value (set_smin_value reg (- MAX_ERRNO)) (- MAX_ERRNO) in
  __update_reg_bounds (__reg_bound_offset (__reg_deduce_bounds reg)).

Definition do_refine_retval_range (ret : bpf_return_type) (func_id : Z) (m : bpf_call_arg_meta) : verifier unit :=
  match ret with
  | RET_INTEGER =>
    when (existsb (Z.eqb func_id) [BPF_FUNC_get_stack; BPF_FUNC_probe_read_str; BPF_FUNC_probe_read_kernel_str; BPF_FUNC_probe_read_user_str])
      (upd_reg BPF_REG_0 (refine_retval (msize_max_value m)))
  | _ => mret ()
  end.

(** The type of the return value. *)
Definition mark_return (ops : helper_ops) (fn : bpf_func_proto) (m : bpf_call_arg_meta) : verifier unit :=
  let as_type t := _ ← mark_reg_known_zero BPF_REG_0; upd_reg BPF_REG_0 (fun reg => set_type reg t) in
  let with_raw v := upd_reg BPF_REG_0 (fun reg => set_raw reg v) in
  let map_value t :=
    _ ← mark_reg_known_zero BPF_REG_0;
    if meta_map_ptr m =? 0 then fail (- EINVAL)
    else _ ← with_raw (meta_map_ptr m); upd_reg BPF_REG_0 (fun reg => set_type reg t) in
  let mem_or_btf mem btf :=
    _ ← mark_reg_known_zero BPF_REG_0;
    match btf_vmlinux_kind ops (meta_ret_btf_id m) with
    | BtfUnsized => fail (- EINVAL)
    | BtfSized tsize => _ ← upd_reg BPF_REG_0 (fun reg => set_type reg mem); with_raw tsize
    | BtfStruct => _ ← upd_reg BPF_REG_0 (fun reg => set_type reg btf); with_raw (meta_ret_btf_id m)
    end in
  match ret_type fn with
  | RET_INTEGER => mark_reg_unknown BPF_REG_0
  | RET_VOID => upd_reg BPF_REG_0 (fun reg => set_type reg NOT_INIT)
  | RET_PTR_TO_MAP_VALUE =>
    _ ← map_value PTR_TO_MAP_VALUE;
    env ← get;
    when (map_value_has_spin_lock (map_of env (meta_map_ptr m))) (fresh_id BPF_REG_0)
  | RET_PTR_TO_MAP_VALUE_OR_NULL => map_value PTR_TO_MAP_VALUE_OR_NULL
  | RET_PTR_TO_SOCKET_OR_NULL => as_type PTR_TO_SOCKET_OR_NULL
  | RET_PTR_TO_SOCK_COMMON_OR_NULL => as_type PTR_TO_SOCK_COMMON_OR_NULL
  | RET_PTR_TO_TCP_SOCK_OR_NULL => as_type PTR_TO_TCP_SOCK_OR_NULL
  | RET_PTR_TO_ALLOC_MEM_OR_NULL => _ ← as_type PTR_TO_MEM_OR_NULL; with_raw (u32 (meta_mem_size m))
  | RET_PTR_TO_MEM_OR_BTF_ID_OR_NULL => mem_or_btf PTR_TO_MEM_OR_NULL PTR_TO_BTF_ID_OR_NULL
  | RET_PTR_TO_MEM_OR_BTF_ID => mem_or_btf PTR_TO_MEM PTR_TO_BTF_ID
  | RET_PTR_TO_BTF_ID_OR_NULL =>
    _ ← as_type PTR_TO_BTF_ID_OR_NULL;
    if ret_btf_id fn =? 0 then fail (- EINVAL) else with_raw (ret_btf_id fn)
  end.

(** The ids of the return value. *)
Definition mark_return_ids (func_id idx : Z) (m : bpf_call_arg_meta) : verifier unit :=
  reg ← reg_of BPF_REG_0;
  _ ← when (reg_type_may_be_null (type_ reg)) (fresh_id BPF_REG_0);
  env ← get;
  let ty := if meta_map_ptr m =? 0 then BPF_MAP_TYPE_UNSPEC else map_type (map_of env (meta_map_ptr m)) in
  if is_ptr_cast_function func_id then upd_reg BPF_REG_0 (fun reg => set_ref_obj_id reg (u32 (meta_ref_obj_id m)))
  else if is_acquire_function func_id ty then
    id ← acquire_reference_state idx;
    if id <? 0 then fail id
    else upd_reg BPF_REG_0 (fun reg => set_ref_obj_id (set_id reg id) id)
  else mret ().

(** The stack or the references, as the helper leaves them. *)
Definition helper_references (func_id : Z) (m : bpf_call_arg_meta) : verifier unit :=
  if func_id =? BPF_FUNC_tail_call then check_reference_leak
  else when (is_release_function func_id) (release_reference (meta_ref_obj_id m)).

(** The buffers of helpers that walk the call chain (CONFIG_PERF_EVENTS is
    set). *)
Definition helper_callchain (ops : helper_ops) (func_id : Z) : verifier unit :=
  env ← get;
  _ ← when (((func_id =? BPF_FUNC_get_stack) || (func_id =? BPF_FUNC_get_task_stack)) && negb (has_callchain_buf (attach env)))
        (if negb (get_callchain_buffers ops =? 0) then fail (get_callchain_buffers ops)
         else modify (fun env => set_attach env (set_has_callchain_buf (attach env) true)));
  when ((func_id =? BPF_FUNC_get_stackid) || (func_id =? BPF_FUNC_get_stack))
    (modify (fun env => set_attach env (set_call_get_stack (attach env) true))).

(** ** [check_helper_call] *)

Definition check_helper_call (ops : helper_ops) (acc : access_ops) (func_id idx : Z) : verifier unit :=
  env ← get;
  if (func_id <? 0) || (func_id >=? __BPF_FUNC_MAX_ID) then fail (- EINVAL)
  else
    match get_func_proto ops func_id with
    | None => fail (- EINVAL)
    | Some fn =>
      if negb (gpl_compatible (attach env)) && gpl_only fn then fail (- EINVAL)
      else if negb (allowed fn) then fail (- EINVAL)
      else if changes_pkt_data fn && negb (bool_decide (arg_type fn !!! 0%nat = ARG_PTR_TO_CTX)) then fail (- EINVAL)
      else if negb (check_func_proto fn func_id) then fail (- EINVAL)
      else
        m ← check_func_args ops fn func_id (seq 0 5) (mk_meta 0 false (pkt_access fn) 0 0 0 0 0 0);
        _ ← record_func_map m func_id idx;
        _ ← record_func_key m func_id idx;
        _ ← for_each (seq 0 (Z.to_nat (meta_access_size m)))
              (fun i => check_mem_access acc idx (meta_regno m) (Z.of_nat i) BPF_B BPF_WRITE (-1) false);
        _ ← helper_references func_id m;
        reg ← reg_of BPF_REG_2;
        if (func_id =? BPF_FUNC_get_local_storage) && negb (register_is_null reg) then fail (- EINVAL)
        else
          _ ← clear_caller_saved_regs;
          _ ← upd_reg BPF_REG_0 (fun reg => set_subreg_def reg DEF_NOT_SUBREG);
          _ ← mark_return ops fn m;
          _ ← mark_return_ids func_id idx m;
          _ ← do_refine_retval_range (ret_type fn) func_id m;
          _ ← check_map_func_compatibility (meta_map_ptr m) func_id;
          _ ← helper_callchain ops func_id;
          when (changes_pkt_data fn) clear_all_pkt_pointers
    end.
