(* ===== verification/Sort.v ===== *)
(** The heap sort of lib/sort.c and the binary search of lib/bsearch.c, on
    arrays of elements at byte offsets. *)
From Stdlib Require Import ZArith Lia Bool.
From stdpp Require Import base list.
From S2P Require Import Prelude.

Local Open Scope Z_scope.
Local Open Scope kint_scope.

(** ** Swapping elements *)

(** [w] bytes at offset [n] of two elements change places. *)
Definition swap_at {B} (w n : nat) (e : list B * list B) : list B * list B :=
  let '(a, b) := e in
  (take n a ++ take w (drop n b) ++ drop (n + w) a, take n b ++ take w (drop n a) ++ drop (n + w) b).

(** The loop over [k] chunks of [w] bytes, from the last one. *)
Fixpoint swap_chunks {B} (w k : nat) (e : list B * list B) : list B * list B :=
  match k with
  | O => e
  | S k => swap_chunks w k (swap_at w (k * w) e)
  end.

Definition swap_words_64 {B} (a b : list B) (n : Z) : list B * list B := swap_chunks 8 (Z.to_nat (n / 8)) (a, b).
Definition swap_words_32 {B} (a b : list B) (n : Z) : list B * list B := swap_chunks 4 (Z.to_nat (n / 4)) (a, b).
Definition swap_bytes {B} (a b : list B) (n : Z) : list B * list B := swap_chunks 1 (Z.to_nat n) (a, b).

(** With CONFIG_HAVE_EFFICIENT_UNALIGNED_ACCESS only the size counts. *)
Definition is_aligned (efficient : bool) (base size align : Z) : bool :=
  ((if efficient then u8 size else u8 size .| u8 base) .& (align - 1)) =? 0.

(** What [sort_r] picks when it is given no function of its own. *)
Definition do_swap {B} (efficient : bool) (base : Z) (a b : list B) (size : Z) : list B * list B :=
  if is_aligned efficient base size 8 then swap_words_64 a b size
  else if is_aligned efficient base size 4 then swap_words_32 a b size
  else swap_bytes a b size.

(** ** Heap sort *)

(** [lsbit] has the width of an unsigned int. *)
Definition parent (i lsbit size : Z) : Z :=
  let i := u64 (i - size) in
  let i := u64 (i - (size .& u64 (- (i .& lsbit)))) in
  i / 2.

Section Sort.
Context {A : Type} `{Inhabited A} (cmp : A -> A -> Z) (size : Z).

Definition lsbit : Z := u32 (size .& u64 (- size)).

(** The array is a list of elements, [at_ l i] the one at the byte offset [i]. *)
Definition at_ (l : list A) (i : Z) : A := l !!! Z.to_nat (i / size).

(** The swap, of whole elements. *)
Definition swap (l : list A) (i j : Z) : list A :=
  let x := at_ l i in let y := at_ l j in
  <[Z.to_nat (j / size) := x]> (<[Z.to_nat (i / size) := y]> l).

(** Down to a leaf, always to the larger child. *)
Fixpoint descend (fuel : nat) (l : list A) (n b : Z) : option Z :=
  match fuel with
  | O => None
  | S fuel =>
    let c := u64 (2 * b + size) in
    let d := u64 (c + size) in
    if d <? n then descend fuel l n (if cmp (at_ l c) (at_ l d) >=? 0 then c else d)
    else Some (if d =? n then c else b)
  end.

(** Up again to the place of the element at [a]. *)
Fixpoint backtrack (fuel : nat) (l : list A) (a b : Z) : option Z :=
  match fuel with
  | O => None
  | S fuel => if negb (b =? a) && (cmp (at_ l a) (at_ l b) >=? 0) then backtrack fuel l a (parent b lsbit size) else Some b
  end.

(** The elements on the path move up, the one at [a] to [c]. *)
Fixpoint shift (fuel : nat) (l : list A) (a b c : Z) : option (list A) :=
  match fuel with
  | O => None
  | S fuel => if b =? a then Some l else let b := parent b lsbit size in shift fuel (swap l b c) a b c
  end.

Definition sift (l : list A) (n a : Z) : option (list A) :=
  b ← descend (S (length l)) l n a;
  b ← backtrack (S (length l)) l a b;
  shift (S (length l)) l a b b.

(** [a] is above 0 while the heap is built. *)
Fixpoint sort_loop (fuel : nat) (l : list A) (n a : Z) : option (list A) :=
  match fuel with
  | O => None
  | S fuel =>
    if negb (a =? 0) then
      let a := u64 (a - size) in
      l ← sift l n a; sort_loop fuel l n a
    else
      let n := u64 (n - size) in
      if negb (n =? 0) then l ← sift (swap l 0 n) n a; sort_loop fuel l n a
      else Some l
  end.

Definition sort_r (l : list A) : option (list A) :=
  let num := Z.of_nat (length l) in
  let n := u64 (num * size) in
  let a := u64 (num / 2 * size) in
  if a =? 0 then Some l else sort_loop (2 * length l) l n a.
End Sort.

(** ** Binary search *)

(** From the element at [base] on, [num] elements; the result is the offset of
    the one found. *)
Fixpoint __inline_bsearch {K A} `{Inhabited A} (fuel : nat) (cmp : K -> A -> Z) (key : K) (l : list A) (base num size : Z) : option (option Z) :=
  match fuel with
  | O => None
  | S fuel =>
    if num >? 0 then
      let pivot := base + Z.shiftr num 1 * size in
      let result := cmp key (at_ size l pivot) in
      if result =? 0 then Some (Some pivot)
      else if result >? 0 then __inline_bsearch fuel cmp key l (pivot + size) (Z.shiftr (num - 1) 1) size
      else __inline_bsearch fuel cmp key l base (Z.shiftr num 1) size
    else Some None
  end.

Definition bsearch {K A} `{Inhabited A} (cmp : K -> A -> Z) (key : K) (l : list A) (size : Z) : option (option Z) :=
  __inline_bsearch (S (length l)) cmp key l 0 (Z.of_nat (length l)) size.
