(* ===== verification/SortSound.v ===== *)
(** The heap sort sorts: the byte offsets of lib/sort.c as indices, one sift, and
    the two phases of the loop; the binary search finds what there is. *)
From Stdlib Require Import ZArith Lia Bool.
From stdpp Require Import base list sorting.
From S2P Require Import Prelude Bits Sort.

Local Open Scope Z_scope.
Local Open Scope kint_scope.

(** ** Swapping *)

Lemma swap_chunks_prefix {B} (w k : nat) : forall a b : list B, (k * w <= length a)%nat -> (k * w <= length b)%nat ->
  swap_chunks w k (a, b) = (take (k * w) b ++ drop (k * w) a, take (k * w) a ++ drop (k * w) b).
Proof.
  induction k as [|k IH]; intros a b Ha Hb; [rewrite !drop_0; reflexivity|]; cbn [swap_chunks swap_at].
  assert (L : forall x y : list B, (S k * w <= length x)%nat -> (S k * w <= length y)%nat ->
    take (k * w) (take (k * w) x ++ take w (drop (k * w) y) ++ drop (k * w + w) x) = take (k * w) x /\
    drop (k * w) (take (k * w) x ++ take w (drop (k * w) y) ++ drop (k * w + w) x) = take w (drop (k * w) y) ++ drop (k * w + w) x).
  { intros x y Hx Hy; assert (E : length (take (k * w) x) = (k * w)%nat) by (rewrite length_take; lia).
    rewrite take_app_le, take_ge, drop_app_length' by lia; auto. }
  destruct (L a b Ha Hb) as [L1 L2]; destruct (L b a Hb Ha) as [L3 L4].
  rewrite IH by (rewrite length_app, length_take; lia); rewrite L1, L2, L3, L4, !app_assoc.
  assert (J : forall x : list B, take (k * w) x ++ take w (drop (k * w) x) = take (S k * w) x).
  { intros x; rewrite take_take_drop; f_equal; lia. }
  rewrite !J; replace (k * w + w)%nat with (S k * w)%nat by lia; reflexivity.
Qed.

Lemma swap_chunks_all {B} (w k : nat) (a b : list B) : length a = (k * w)%nat -> length b = (k * w)%nat -> swap_chunks w k (a, b) = (b, a).
Proof. intros Ha Hb; rewrite swap_chunks_prefix by lia; rewrite !take_ge, !drop_ge, !app_nil_r by lia; reflexivity. Qed.

Lemma aligned_mult efficient base size k : 0 <= k <= 8 -> is_aligned efficient base size (2 ^ k) = true -> size mod 2 ^ k = 0.
Proof.
  intros Hk H; unfold is_aligned in H; apply Z.eqb_eq in H.
  assert (E : u8 size .& Z.ones k = 0).
  { rewrite Z.ones_equiv, <- Z.sub_1_r; destruct efficient; [exact H|]; apply Z.bits_inj'; intros i Hi; apply (f_equal (fun x => Z.testbit x i)) in H.
    rewrite Z.land_spec, Z.lor_spec, Z.bits_0 in H; rewrite Z.land_spec, Z.bits_0; apply andb_false_iff in H as [H|H]; [apply orb_false_iff in H as [-> _]; reflexivity|rewrite H; apply andb_false_r]. }
  rewrite Z.land_ones in E by lia; unfold uwrap in E; rewrite <- E; symmetry; apply Z.mod_mod_divide; exists (2 ^ (8 - k)); rewrite <- Z.pow_add_r by lia; f_equal; lia.
Qed.

(** The function picked exchanges the elements. *)
Lemma do_swap_swaps {B} efficient base (a b : list B) size : 0 <= size -> Z.of_nat (length a) = size -> Z.of_nat (length b) = size -> do_swap efficient base a b size = (b, a).
Proof.
  intros H0 Ha Hb; unfold do_swap, swap_words_64, swap_words_32, swap_bytes.
  assert (D : forall k, 0 <= k <= 8 -> is_aligned efficient base size (2 ^ k) = true -> Z.to_nat size = (Z.to_nat (size / 2 ^ k) * Z.to_nat (2 ^ k))%nat).
  { intros k Hk E; apply aligned_mult in E; [|exact Hk]; pose proof (Z.div_mod size (2 ^ k) ltac:(lia)); rewrite <- Z2Nat.inj_mul by lia || (apply Z.div_pos; lia); f_equal; lia. }
  destruct (is_aligned efficient base size 8) eqn:E8; [specialize (D 3 ltac:(lia) E8)|destruct (is_aligned efficient base size 4) eqn:E4; [specialize (D 2 ltac:(lia) E4)|clear D]].
  1, 2: apply swap_chunks_all; rewrite <- (Nat2Z.id (length _)); first [rewrite Ha|rewrite Hb]; exact D.
  apply swap_chunks_all; lia.
Qed.

(** ** Parents *)

Lemma odd_part s : 0 < s -> exists k m, 0 <= k /\ 0 <= m /\ s = 2 ^ k * (2 * m + 1).
Proof.
  intros Hs; destruct s as [|p|]; try lia; clear Hs; induction p as [p IH|p IH|].
  - exists 0, (Z.pos p); lia.
  - destruct IH as (k & m & Hk & Hm & E); exists (k + 1), m; rewrite Z.pow_add_r by lia; lia.
  - exists 0, 0; lia.
Qed.

Lemma low_bit_odd m : 0 <= m -> (2 * m + 1) .& - (2 * m + 1) = 1.
Proof.
  intros Hm; replace (- (2 * m + 1)) with (Z.lnot (2 * m)) by (unfold Z.lnot; lia); apply Z.bits_inj'; intros i Hi; rewrite Z.land_spec, Z.lnot_spec by exact Hi.
  destruct (Z.eq_dec i 0) as [->|N]; [rewrite Z.testbit_odd_0, Z.testbit_even_0; reflexivity|].
  replace i with (Z.succ (i - 1)) by lia; rewrite Z.testbit_odd_succ, Z.testbit_even_succ by lia; replace 1 with (2 * 0 + 1) at 3 by lia; rewrite Z.testbit_odd_succ, Z.bits_0 by lia.
  apply andb_negb_r.
Qed.

Lemma lsbit_pow s k m : 0 <= k -> 0 <= m -> s = 2 ^ k * (2 * m + 1) -> uin 32 s -> lsbit s = 2 ^ k.
Proof.
  intros Hk Hm E U; unfold lsbit; assert (L : s .& - s = 2 ^ k).
  { rewrite E, <- Z.mul_opp_r, !(Z.mul_comm (2 ^ k)), <- !Z.shiftl_mul_pow2, <- Z.shiftl_land, low_bit_odd, Z.shiftl_1_l by lia; reflexivity. }
  assert (P : 2 ^ k < 2 ^ 32) by (assert (2 ^ k * 1 <= s) by (rewrite E; apply Z.mul_le_mono_nonneg_l; lia); unfold uin in U; lia).
  replace (s .& u64 (- s)) with (s .& - s); [rewrite L; apply uwrap_id; unfold uin; lia|].
  apply Z.bits_inj'; intros i Hi; rewrite !Z.land_spec; destruct (Z.lt_ge_cases i 64); [unfold uwrap; rewrite Z.mod_pow2_bits_low by lia; reflexivity|].
  replace (Z.testbit s i) with false; [reflexivity|]; symmetry; apply (uin_high 32); [lia|exact U].
Qed.

Lemma parent_index s j : 0 < s < 2 ^ 32 -> 0 < j -> j * s < 2 ^ 64 -> parent (j * s) (lsbit s) s = (j - 1) / 2 * s.
Proof.
  intros Hs Hj Hb; destruct (odd_part s ltac:(lia)) as (k & m & Hk & Hm & E); rewrite (lsbit_pow s k m) by (trivial; unfold uin; lia); unfold parent; cbv zeta.
  assert (K : k < 32) by (apply (Z.pow_lt_mono_r_iff 2); [lia|lia|]; assert (2 ^ k * 1 <= s) by (rewrite E; apply Z.mul_le_mono_nonneg_l; lia); lia).
  rewrite (uwrap_id 64 (j * s - s)) by (unfold uin; nia); set (q := (j - 1) mod 2).
  assert (B : (j * s - s) .& 2 ^ k = 2 ^ k * q).
  { replace (j * s - s) with ((j - 1) * (2 * m + 1) * 2 ^ k) by (rewrite E; ring); replace (2 ^ k) with (1 * 2 ^ k) at 2 by ring.
    rewrite <- !Z.shiftl_mul_pow2, <- Z.shiftl_land by lia; replace (_ .& 1) with ((j - 1) * (2 * m + 1) .& Z.ones 1) by reflexivity; rewrite Z.land_ones, Z.shiftl_mul_pow2, Z.mul_comm by lia; f_equal.
    change (2 ^ 1) with 2; rewrite Z.mul_mod by lia; replace ((2 * m + 1) mod 2) with 1 by (rewrite Z.add_comm, Z.mul_comm, Z.mod_add by lia; reflexivity).
    rewrite Z.mul_1_r, Z.mod_mod by lia; reflexivity. }
  rewrite B; pose proof (Z.div_mod (j - 1) 2 ltac:(lia)) as D; fold q in D; set (t := (j - 1) / 2) in *; assert (Q : q = 0 \/ q = 1) by (pose proof (Z.mod_pos_bound (j - 1) 2); subst q; lia).
  clearbody q; destruct Q as [-> | ->].
  - rewrite Z.mul_0_r, Z.land_0_r; replace (j * s - s - 0) with (t * s * 2) by nia; rewrite uwrap_id by (unfold uin; nia); apply Z.div_mul; lia.
  - assert (L : s .& u64 (- (2 ^ k * 1)) = s).
    { replace (u64 (- (2 ^ k * 1))) with (Z.ones (64 - k) * 2 ^ k).
      - assert (P : 2 * m + 1 < 2 ^ (64 - k)) by (apply (Z.mul_lt_mono_pos_l (2 ^ k)); [lia|]; rewrite <- E, <- Z.pow_add_r by lia; replace (k + (64 - k)) with 64 by lia; lia).
        rewrite E at 1; rewrite (Z.mul_comm (2 ^ k)), <- !Z.shiftl_mul_pow2, <- Z.shiftl_land, Z.land_ones, Z.mod_small, Z.shiftl_mul_pow2, E by lia; ring.
      - unfold uwrap; rewrite Z.ones_equiv, <- Z.sub_1_r, Z.mul_sub_distr_r, <- Z.pow_add_r by lia; replace (64 - k + k) with 64 by lia.
        apply (Z.mod_unique_pos _ _ (-1)); [pose proof (Z.pow_pos_nonneg 2 k); assert (2 ^ k < 2 ^ 64) by (apply Z.pow_lt_mono_r; lia); lia|lia]. }
    rewrite L; clearbody t; assert (J : j * s - s - s = t * s * 2) by (replace j with (2 * t + 2) by lia; ring); rewrite J.
    assert (0 <= t * s) by (apply Z.mul_nonneg_nonneg; lia); rewrite uwrap_id by (unfold uin; lia); apply Z.div_mul; lia.
Qed.

(** ** One sift *)

Section Heap.
Context {A : Type} `{Inhabited A} (cmp : A -> A -> Z) (size : Z).
Context (Hs : 0 < size < 2 ^ 32).
Context (total : forall x y, 0 <= cmp x y \/ 0 <= cmp y x) (trans : forall x y z, 0 <= cmp x y -> 0 <= cmp y z -> 0 <= cmp x z).

(** The byte offset of an index. *)
Definition ix (i : nat) : Z := Z.of_nat i * size.

(** Offsets do not wrap around. *)
Definition fits (l : list A) : Prop := 2 * (Z.of_nat (length l) + 1) * size < 2 ^ 64.

Definition ge (l : list A) (i j : nat) : Prop := 0 <= cmp (l !!! i) (l !!! j).

Definition par (i : nat) : nat := Nat.div2 (i - 1).
Definition up (e i : nat) : nat := Nat.iter e par i.

Lemma ix_div i : Z.to_nat (ix i / size) = i.
Proof using Hs. unfold ix; rewrite Z.div_mul by lia; apply Nat2Z.id. Qed.

Lemma at_ix (l : list A) i : at_ size l (ix i) = l !!! i.
Proof using Hs. unfold at_; rewrite ix_div; reflexivity. Qed.

Lemma swap_ix (l : list A) i j : swap size l (ix i) (ix j) = <[j := l !!! i]> (<[i := l !!! j]> l).
Proof using Hs. unfold swap; rewrite !at_ix, !ix_div; reflexivity. Qed.

Lemma ix_eqb i j : (ix i =? ix j) = (i =? j)%nat.
Proof using Hs. unfold ix; destruct (Nat.eqb_spec i j) as [->|N]; [apply Z.eqb_refl|apply Z.eqb_neq; nia]. Qed.

Lemma ix_ltb i j : (ix i <? ix j) = (i <? j)%nat.
Proof using Hs. unfold ix; destruct (Nat.ltb_spec i j); [apply Z.ltb_lt|apply Z.ltb_ge]; nia. Qed.

Lemma ix_fits l i : fits l -> (i < 2 * length l + 2)%nat -> u64 (ix i) = ix i.
Proof using Hs. intros F Hi; apply uwrap_id; unfold uin, fits, ix in *; nia. Qed.

Lemma par_lt i : (0 < i)%nat -> (par i < i)%nat.
Proof using. intros Hi; unfold par; pose proof (Nat.div2_decr (i - 1) (i - 1)); lia. Qed.

Lemma par_children i x : (0 < x)%nat -> par x = i <-> x = (2 * i + 1)%nat \/ x = (2 * i + 2)%nat.
Proof using.
  intros Hx; unfold par; rewrite Nat.div2_div; pose proof (Nat.div_mod (x - 1) 2 ltac:(lia)); pose proof (Nat.mod_upper_bound (x - 1) 2 ltac:(lia)); lia.
Qed.

Lemma parent_ix l i : fits l -> (0 < i < length l)%nat -> parent (ix i) (lsbit size) size = ix (par i).
Proof using Hs.
  intros F Hi; unfold ix; rewrite parent_index by (unfold fits in F; nia); f_equal; unfold par; rewrite Nat.div2_div, Nat2Z.inj_div, Nat2Z.inj_sub by lia; reflexivity.
Qed.

Lemma up_lt e : forall i, (0 < e)%nat -> (forall k, (k < e)%nat -> (0 < up k i)%nat) -> (up e i < i)%nat.
Proof using.
  induction e as [|e IH]; intros i He Hp; [lia|]; pose proof (par_lt (up e i) (Hp e ltac:(lia))) as Q; change (par (up e i) < i)%nat.
  destruct e as [|e]; [exact Q|]; specialize (IH i ltac:(lia) ltac:(intros; apply Hp; lia)); lia.
Qed.

Lemma up_S e i : up (S e) i = up e (par i).
Proof using. unfold up; apply Nat.iter_succ_r. Qed.

(** [i] is not smaller than its sibling. *)
Definition larger (l : list A) (n i : nat) : Prop := forall x, (0 < x < n)%nat -> par x = par i -> ge l i x.

(** A path of larger children, [d] levels from [a] down to [i]. *)
Record path (l : list A) (n a d i : nat) : Prop := mk_path {
  pt_top : up d i = a;
  pt_in : forall e, (e < d)%nat -> (a < up e i < n)%nat /\ larger l n (up e i)
}.

Lemma path_up l n a d i : path l n a (S d) i -> path l n a d (par i).
Proof using. intros [T P]; split; [rewrite <- up_S; exact T|intros e He; rewrite <- up_S; apply P; lia]. Qed.

Lemma path_down l n a d i x : path l n a d i -> (a <= i)%nat -> (0 < x < n)%nat -> par x = i -> larger l n x -> path l n a (S d) x.
Proof using.
  intros [T P] Ha Hx E L; split; [rewrite up_S, E; exact T|]; intros [|e] He; [split; [|exact L]; cbn; pose proof (par_lt x); lia|rewrite up_S, E; apply P; lia].
Qed.

Lemma path_zero l n a i : path l n a 0 i -> i = a.
Proof using. intros [T _]; exact T. Qed.

Lemma path_ge l n a d i : path l n a d i -> (a <= i)%nat.
Proof using. intros [T P]; destruct d; [cbn in T; lia|destruct (P 0%nat ltac:(lia)) as [? _]; cbn in *; lia]. Qed.

Lemma path_lt l n a d i : (a < n)%nat -> path l n a d i -> (i < n)%nat.
Proof using. intros Ha [T P]; destruct d; [cbn in T; lia|destruct (P 0%nat ltac:(lia)) as [? _]; cbn in *; lia]. Qed.

(** Every child of [i] is at most the element at [a]. *)
Definition above_children (l : list A) (n a i : nat) : Prop := forall x, (0 < x < n)%nat -> par x = i -> ge l a x.

Lemma ge_total (l : list A) i j : ge l i j \/ ge l j i.
Proof using total. apply total. Qed.

Lemma ge_refl (l : list A) i : ge l i i.
Proof using total. destruct (ge_total l i i); assumption. Qed.

Lemma ge_trans (l : list A) i j k : ge l i j -> ge l j k -> ge l i k.
Proof using trans. apply trans. Qed.

Lemma larger_pair l n b : (2 * b + 2 < n)%nat -> let c := (if cmp (l !!! (2 * b + 1)%nat) (l !!! (2 * b + 2)%nat) >=? 0 then 2 * b + 1 else 2 * b + 2)%nat in
  larger l n c /\ (0 < c < n)%nat /\ par c = b.
Proof using total.
  intros Hn; cbn zeta; assert (P1 : par (2 * b + 1) = b) by (apply par_children; lia); assert (P2 : par (2 * b + 2) = b) by (apply par_children; lia).
  rewrite Z.geb_leb; destruct (Z.leb_spec 0 (cmp (l !!! (2 * b + 1)%nat) (l !!! (2 * b + 2)%nat))) as [C|C]; (split; [|split; [lia|assumption]]); intros x Hx Px; rewrite ?P1, ?P2 in Px;
    apply par_children in Px as [-> | ->]; try lia; try apply ge_refl; [exact C|]; destruct (ge_total l (2 * b + 1) (2 * b + 2)) as [G|G]; [unfold ge in G; lia|exact G].
Qed.

Lemma descend_spec l n a : fits l -> (n <= length l)%nat -> forall fuel d b, path l n a d b -> (b < n)%nat -> (n < fuel + b)%nat ->
  exists d' b', descend cmp size fuel l (ix n) (ix b) = Some (ix b') /\ path l n a d' b' /\ (b' < n)%nat /\ (n <= 2 * b' + 1)%nat.
Proof using Hs total.
  intros F Hn; induction fuel as [|fuel IH]; intros d b P Hb Hf; [lia|]; cbn [descend].
  replace (2 * ix b + size) with (ix (2 * b + 1)) by (unfold ix; lia); rewrite (ix_fits l) by (trivial; lia).
  replace (ix (2 * b + 1) + size) with (ix (2 * b + 2)) by (unfold ix; lia); rewrite (ix_fits l), ix_ltb, ix_eqb, !at_ix by (trivial; lia).
  pose proof (path_ge _ _ _ _ _ P) as Ga; destruct (Nat.ltb_spec (2 * b + 2) n) as [L|L].
  - destruct (larger_pair l n b L) as (Lg & Rg & Pc); set (c := if _ >=? 0 then _ else _) in *.
    replace (if _ >=? 0 then _ else _) with (ix c) by (unfold c; destruct (_ >=? 0); reflexivity).
    apply (IH (S d)); [exact (path_down _ _ _ _ _ _ P Ga Rg Pc Lg)|lia|]; assert (b < c)%nat by (rewrite <- Pc; apply par_lt; lia); lia.
  - destruct (Nat.eqb_spec (2 * b + 2) n) as [E|N]; [|exists d, b; split; [reflexivity|split; [exact P|lia]]].
    assert (Pc : par (2 * b + 1) = b) by (apply par_children; lia); exists (S d), (2 * b + 1)%nat; split; [reflexivity|split; [|lia]].
    apply (path_down _ _ _ _ _ _ P Ga); [lia|exact Pc|]; intros x Hx Px; rewrite Pc in Px; apply par_children in Px as [-> | ->]; [apply ge_refl|lia|lia].
Qed.

Lemma backtrack_spec l n a : fits l -> (n <= length l)%nat -> (a < n)%nat -> forall fuel d b, path l n a d b -> (b < fuel)%nat -> above_children l n a b ->
  exists d' c, backtrack cmp size fuel l (ix a) (ix b) = Some (ix c) /\ path l n a d' c /\ (c = a \/ ge l c a) /\ above_children l n a c.
Proof using Hs total trans.
  intros F Hn Ha; induction fuel as [|fuel IH]; intros d b P Hf Ab; [lia|]; cbn [backtrack]; rewrite ix_eqb, !at_ix.
  destruct (Nat.eqb_spec b a) as [->|N]; cbn [negb andb]; [exists d, a; auto|]; rewrite Z.geb_leb; destruct (Z.leb_spec 0 (cmp (l !!! a) (l !!! b))) as [C|C].
  - destruct d as [|d]; [apply path_zero in P; contradiction|]; destruct (pt_in _ _ _ _ _ P 0%nat ltac:(lia)) as [Rb Lb]; cbn in Rb, Lb.
    rewrite (parent_ix l) by (trivial; lia); apply (IH d); [exact (path_up _ _ _ _ _ P)|pose proof (par_lt b); lia|].
    intros x Hx Px; apply (ge_trans l a b x C), Lb; [exact Hx|exact Px].
  - exists d, b; split; [reflexivity|split; [exact P|split; [right|exact Ab]]]; destruct (ge_total l b a) as [G|G]; [exact G|unfold ge in G; lia].
Qed.

Lemma swap_total (l : list A) i j x : (i < length l)%nat -> (j < length l)%nat -> i <> j ->
  <[j := l !!! i]> (<[i := l !!! j]> l) !!! x = (if (x =? i)%nat then l !!! j else if (x =? j)%nat then l !!! i else l !!! x).
Proof using.
  intros Hi Hj N; destruct (Nat.eqb_spec x i) as [->|Ni]; [rewrite list_lookup_total_insert_ne, list_lookup_total_insert_eq by (trivial; congruence); reflexivity|].
  destruct (Nat.eqb_spec x j) as [->|Nj]; [rewrite list_lookup_total_insert_eq by (rewrite length_insert; exact Hj); reflexivity|rewrite !list_lookup_total_insert_ne by congruence; reflexivity].
Qed.

Lemma swap_perm (l : list A) i j : (i < length l)%nat -> (j < length l)%nat -> <[j := l !!! i]> (<[i := l !!! j]> l) ≡ₚ l.
Proof using.
  intros Hi Hj; destruct (lookup_lt_is_Some_2 l i Hi) as [x Ex]; destruct (lookup_lt_is_Some_2 l j Hj) as [y Ey].
  rewrite !list_lookup_total_alt, Ex, Ey; cbn; apply Permutation_insert_swap; assumption.
Qed.

(** What the shift leaves: the path moves up by one level, the element at its
    top goes to [c]. *)
Record shifted (l : list A) (d b c : nat) (l' : list A) : Prop := mk_shifted {
  sh_perm : l' ≡ₚ l;
  sh_none : d = 0%nat -> l' = l;
  sh_low : (0 < d)%nat -> l' !!! c = l !!! up d b;
  sh_first : (0 < d)%nat -> l' !!! up 1 b = l !!! c;
  sh_path : forall e, (0 < e < d)%nat -> l' !!! up (S e) b = l !!! up e b;
  sh_rest : forall x, x <> c -> (forall e, (0 < e <= d)%nat -> x <> up e b) -> l' !!! x = l !!! x
}.

Lemma shift_spec a c d : forall fuel l b, fits l -> (forall e, (e < d)%nat -> (a < up e b)%nat) -> up d b = a -> (b <= c < length l)%nat -> (d < fuel)%nat ->
  exists l', shift size fuel l (ix a) (ix b) (ix c) = Some l' /\ shifted l d b c l'.
Proof using Hs.
  induction d as [|d IH]; intros fuel l b F P T Hc Hf; (destruct fuel as [|fuel]; [lia|]); cbn [shift]; rewrite ix_eqb.
  { cbn in T; subst b; rewrite Nat.eqb_refl; exists l; split; [reflexivity|split; trivial; lia]. }
  pose proof (P 0%nat ltac:(lia)) as P0; cbn in P0; destruct (Nat.eqb_spec b a); [lia|]; set (b1 := par b); pose proof (par_lt b ltac:(lia)) as L1; fold b1 in L1.
  rewrite (parent_ix l), swap_ix by (trivial; lia); fold b1; set (l1 := <[c := _]> _); assert (Ln : length l1 = length l) by (unfold l1; rewrite !length_insert; reflexivity).
  assert (S1 : forall x, l1 !!! x = (if (x =? b1)%nat then l !!! c else if (x =? c)%nat then l !!! b1 else l !!! x)) by (intros x; apply swap_total; lia).
  assert (P1 : forall e, (e < d)%nat -> (a < up e b1)%nat) by (intros e He; specialize (P (S e) ltac:(lia)); rewrite up_S in P; exact P).
  assert (U : forall e, (0 < e <= d)%nat -> (up e b1 < b1)%nat) by (intros e He; apply up_lt; [lia|intros k Hk; specialize (P1 k ltac:(lia)); lia]).
  assert (V : forall e, (0 < e <= d)%nat -> l1 !!! up e b1 = l !!! up e b1).
  { intros e He; specialize (U e He); rewrite S1; destruct (Nat.eqb_spec (up e b1) b1); [lia|]; destruct (Nat.eqb_spec (up e b1) c); [lia|reflexivity]. }
  destruct (IH fuel l1 b1) as (l' & R & Sh); [unfold fits; rewrite Ln; exact F|exact P1|rewrite <- T; symmetry; apply up_S|lia|lia|].
  exists l'; split; [exact R|]; destruct Sh as [Sp Sn Sl Sf Sp' Sr]; rewrite up_S in T; fold b1 in T.
  assert (Cc : l1 !!! c = l !!! b1) by (rewrite S1, Nat.eqb_refl; destruct (Nat.eqb_spec c b1); [lia|reflexivity]).
  assert (Cb : l1 !!! b1 = l !!! c) by (rewrite S1, Nat.eqb_refl; reflexivity).
  split.
  - rewrite Sp; apply swap_perm; lia.
  - discriminate.
  - intros _; rewrite up_S; fold b1; destruct d as [|d]; [rewrite (Sn eq_refl); exact Cc|rewrite Sl, V by lia; reflexivity].
  - intros _; change (up 1 b) with b1; rewrite Sr; [exact Cb|lia|intros e He; specialize (U e He); lia].
  - intros [|e] He; [lia|]; rewrite !(up_S _ b); fold b1; destruct e as [|e]; [rewrite Sf by lia; exact Cc|rewrite Sp', V by lia; reflexivity].
  - intros x Nc Nu; pose proof (Nu 1%nat ltac:(lia)) as N1; change (up 1 b) with b1 in N1; rewrite Sr; [|exact Nc|intros e He; specialize (Nu (S e) ltac:(lia)); rewrite up_S in Nu; exact Nu].
    rewrite S1; destruct (Nat.eqb_spec x b1); [contradiction|]; destruct (Nat.eqb_spec x c); [contradiction|reflexivity].
Qed.

(** Every child in [a, n) with its parent there is at most its parent. *)
Definition heap (l : list A) (a n : nat) : Prop := forall x, (0 < x < n)%nat -> (a <= par x)%nat -> ge l (par x) x.

Lemma on_path d c x : {e | (e <= d)%nat /\ x = up e c} + {forall e, (e <= d)%nat -> x <> up e c}.
Proof using.
  induction d as [|d [(e & He & E)|N]].
  - destruct (Nat.eq_dec x c) as [E|N]; [left; exists 0%nat; split; [lia|exact E]|right; intros e He; replace e with 0%nat by lia; exact N].
  - left; exists e; split; [lia|exact E].
  - destruct (Nat.eq_dec x (up (S d) c)) as [E|N']; [left; exists (S d); split; [lia|exact E]|right; intros e He; destruct (Nat.eq_dec e (S d)) as [->|]; [exact N'|apply N; lia]].
Qed.

Lemma path_below l n a d c e k : path l n a d c -> (e < k <= d)%nat -> (up k c < up e c)%nat.
Proof using.
  intros [_ P] Hk; induction k as [|k IH]; [lia|]; destruct (P k ltac:(lia)) as [Q _]; change (up (S k) c) with (par (up k c)); pose proof (par_lt (up k c) ltac:(lia)).
  destruct (Nat.eq_dec e k) as [->|]; [assumption|specialize (IH ltac:(lia)); lia].
Qed.

Lemma path_inj l n a d c j k : path l n a d c -> (j <= d)%nat -> (k <= d)%nat -> up j c = up k c -> j = k.
Proof using.
  intros P Hj Hk E; destruct (Nat.lt_trichotomy j k) as [L|[L|L]]; [|exact L|].
  - pose proof (path_below _ _ _ _ _ j k P ltac:(lia)); lia.
  - pose proof (path_below _ _ _ _ _ k j P ltac:(lia)); lia.
Qed.

Lemma shifted_heap l n a d c l' : path l n a d c -> (c = a \/ ge l c a) -> above_children l n a c -> heap l (S a) n -> shifted l d c c l' -> heap l' a n.
Proof using total trans.
  intros P Ca Ab Hp [_ Sn Sl Sf Sp Sr] x Hx Hpx; pose proof (pt_top _ _ _ _ _ P) as T; pose proof (pt_in _ _ _ _ _ P) as In; pose proof (path_below _ _ _ _ _ 0 d P) as B0.
  assert (Off : forall y, (0 < y)%nat -> (forall e, (e <= d)%nat -> par y <> up e c) -> (a < y)%nat -> l' !!! y = l !!! y).
  { intros y Hy N Ly; apply Sr; [intros ->; destruct d as [|d]; [cbn in T; lia|apply (N 1%nat ltac:(lia)); reflexivity]|intros e He ->].
    destruct (Nat.eq_dec e d) as [->|]; [lia|apply (N (S e) ltac:(lia)); reflexivity]. }
  pose proof (par_lt x ltac:(lia)) as Lx; unfold ge; destruct (on_path d c (par x)) as [([|e] & He & E)|N].
  - cbn in E; assert (l' !!! x = l !!! x) as -> by (apply Sr; [lia|intros k Hk ->; pose proof (path_below _ _ _ _ _ 0 k P ltac:(lia)) as Q; cbn in Q; lia]).
    assert (l' !!! par x = l !!! a) as -> by (rewrite E; destruct d as [|d]; [rewrite (Sn eq_refl); cbn in T; congruence|rewrite Sl, T by lia; reflexivity]); apply Ab; assumption.
  - assert (l' !!! par x = l !!! up e c) as -> by (rewrite E; destruct e as [|e]; [apply Sf; lia|apply Sp; lia]); destruct (In e ltac:(lia)) as [Re Le].
    assert (Px : par x = par (up e c)) by (rewrite E; reflexivity); destruct (Nat.eq_dec x (up e c)) as [->|Nx].
    + destruct e as [|e].
      * change (up 0 c) with c in *; rewrite Sl, T by lia; destruct Ca as [->|G]; [lia|exact G].
      * assert (l' !!! up (S e) c = l !!! up e c) as -> by (destruct e as [|e]; [apply Sf; lia|apply Sp; lia]); exact (Hp (up e c) ltac:(destruct (In e ltac:(lia)); lia) ltac:(change (par (up e c)) with (up (S e) c); lia)).
    + assert (Nk : forall k, (k <= d)%nat -> x <> up k c).
      { intros k Hk Ek; destruct (Nat.eq_dec k d) as [->|]; [lia|]; apply Nx; rewrite Ek; f_equal.
        enough (S k = S e) by lia; apply (path_inj l n a d c); [exact P|lia|lia|]; rewrite <- E, Ek; reflexivity. }
      rewrite Sr; [apply Le; [lia|exact Px]|exact (Nk 0%nat ltac:(lia))|intros k Hk; apply Nk; lia].
  - assert (Na : par x <> a) by (intros Ea; apply (N d ltac:(lia)); congruence); rewrite (Sr (par x)), (Off x); [apply Hp; lia|lia|exact N|lia|exact (N 0%nat ltac:(lia))|intros e He; apply N; lia].
Qed.

Lemma sift_spec l n a : fits l -> (n <= length l)%nat -> (a < n)%nat -> heap l (S a) n ->
  exists l', sift cmp size l (ix n) (ix a) = Some l' /\ l' ≡ₚ l /\ heap l' a n /\ forall x, (x < a \/ n <= x)%nat -> l' !!! x = l !!! x.
Proof using Hs total trans.
  intros F Hn Ha Hp; unfold sift; assert (P0 : path l n a 0 a) by (split; [reflexivity|lia]).
  destruct (descend_spec l n a F Hn (S (length l)) 0 a P0 Ha ltac:(lia)) as (d1 & b & -> & P1 & Hb & Lf); cbn [mbind option_bind].
  assert (Ab : above_children l n a b) by (intros x Hx Px; apply par_children in Px; lia).
  destruct (backtrack_spec l n a F Hn Ha (S (length l)) d1 b P1 ltac:(lia) Ab) as (d & c & -> & P & Ca & Ac); cbn [mbind option_bind].
  pose proof (path_lt _ _ _ _ _ Ha P) as Lc; assert (Ld : (d <= c)%nat).
  { clear - P; destruct P as [_ P]; revert c P; induction d as [|d IH]; intros c P; [lia|]; pose proof (P 0%nat ltac:(lia)) as [Q _]; cbn in Q; pose proof (par_lt c ltac:(lia)).
    specialize (IH (par c) ltac:(intros e He; rewrite <- up_S; apply P; lia)); lia. }
  destruct (shift_spec a c d (S (length l)) l c F) as (l' & R & Sh); [intros e He; apply (pt_in _ _ _ _ _ P e He)|apply P|lia|lia|].
  exists l'; split; [exact R|split; [apply Sh|split; [eapply shifted_heap; eassumption|]]]; intros x Hx; pose proof (path_ge _ _ _ _ _ P).
  apply (sh_rest _ _ _ _ _ Sh); [lia|]; intros e He ->; pose proof (path_below _ _ _ _ _ 0 e P ltac:(lia)) as Q; cbn in Q.
  destruct (Nat.eq_dec e d) as [->|]; [rewrite (pt_top _ _ _ _ _ P) in *; lia|destruct (pt_in _ _ _ _ _ P e ltac:(lia)); lia].
Qed.

(** ** The two phases *)

Lemma heap_top l n : heap l 0 n -> forall x, (x < n)%nat -> ge l 0 x.
Proof using total trans.
  intros Hp x; induction x as [x IH] using lt_wf_ind; intros Hx; destruct x as [|x]; [apply ge_refl|]; pose proof (par_lt (S x) ltac:(lia)).
  apply (ge_trans l 0 (par (S x))); [apply IH; lia|apply Hp; lia].
Qed.

(** From [n] on, every element is where it belongs. *)
Definition placed (l : list A) (n : nat) : Prop := forall i j, (i < j)%nat -> (n <= j < length l)%nat -> ge l j i.

Lemma prefix_from (l l' : list A) n : l' ≡ₚ l -> (n <= length l)%nat -> (forall x, (n <= x)%nat -> l' !!! x = l !!! x) ->
  forall i, (i < n)%nat -> exists k, (k < n)%nat /\ l' !!! i = l !!! k.
Proof using.
  intros Pm Hn E i Hi; pose proof (Permutation_length Pm) as Ln; assert (D : drop n l' = drop n l).
  { apply list_eq; intros x; rewrite !lookup_drop; destruct (Nat.lt_ge_cases (n + x) (length l)); [|rewrite !lookup_ge_None_2 by lia; reflexivity].
    destruct (lookup_lt_is_Some_2 l (n + x)) as [u U]; [lia|]; destruct (lookup_lt_is_Some_2 l' (n + x)) as [v V]; [lia|]; specialize (E (n + x)%nat ltac:(lia)).
    rewrite !list_lookup_total_alt, U, V in E; cbn in E; congruence. }
  assert (Pt : take n l' ≡ₚ take n l) by (apply (Permutation_app_inv_r (drop n l)); rewrite <- D at 1; rewrite !take_drop; exact Pm).
  assert (In : l' !!! i ∈ take n l) by (rewrite <- Pt; apply list_elem_of_lookup; exists i; rewrite lookup_take_lt by exact Hi; apply list_lookup_lookup_total_lt; lia).
  apply list_elem_of_lookup in In as [k Hk]; apply lookup_take_Some in Hk as [Hk Lk]; exists k; split; [exact Lk|]; rewrite (list_lookup_total_alt l), Hk; reflexivity.
Qed.

Lemma extract_spec l n : fits l -> (1 < n <= length l)%nat -> heap l 0 n -> placed l n ->
  exists l', sift cmp size (swap size l 0 (ix (n - 1))) (ix (n - 1)) 0 = Some l' /\ l' ≡ₚ l /\ heap l' 0 (n - 1) /\ placed l' (n - 1).
Proof using Hs total trans.
  intros F Hn Hp Pl; change 0 with (ix 0); rewrite swap_ix; set (l1 := <[(n - 1)%nat := _]> _); assert (L1 : length l1 = length l) by (unfold l1; rewrite !length_insert; reflexivity).
  assert (S1 : forall x, l1 !!! x = (if (x =? 0)%nat then l !!! (n - 1)%nat else if (x =? n - 1)%nat then l !!! 0%nat else l !!! x)) by (intros x; apply swap_total; lia).
  assert (P1 : placed l1 (n - 1)).
  { intros i j Hij Hj; unfold ge; rewrite !S1; destruct (Nat.eqb_spec j 0); [lia|]; rewrite L1 in Hj; destruct (Nat.eqb_spec j (n - 1)) as [->|Nj].
    - destruct (Nat.eqb_spec i 0); [apply (heap_top l n); [exact Hp|lia]|destruct (Nat.eqb_spec i (n - 1)); [lia|apply (heap_top l n); [exact Hp|lia]]].
    - destruct (Nat.eqb_spec i 0); [apply Pl; lia|destruct (Nat.eqb_spec i (n - 1)); apply Pl; lia]. }
  destruct (sift_spec l1 (n - 1) 0) as (l2 & R & Pm & Hp2 & E); [unfold fits; rewrite L1; exact F|lia|lia| |].
  { intros x Hx Hpx; pose proof (par_lt x ltac:(lia)); unfold ge; rewrite !S1; destruct (Nat.eqb_spec x 0); [lia|]; destruct (Nat.eqb_spec (par x) 0); [lia|].
    destruct (Nat.eqb_spec x (n - 1)); [lia|]; destruct (Nat.eqb_spec (par x) (n - 1)); [lia|]; apply Hp; lia. }
  exists l2; split; [exact R|split; [rewrite Pm; apply swap_perm; lia|split; [exact Hp2|]]]; intros i j Hij Hj; rewrite (Permutation_length Pm) in Hj.
  destruct (Nat.lt_ge_cases i (n - 1)) as [Li|Li].
  - destruct (prefix_from l1 l2 (n - 1) Pm ltac:(lia) ltac:(intros; apply E; lia) i Li) as (k & Hk & Ek); unfold ge; rewrite Ek, (E j) by lia; apply P1; lia.
  - unfold ge; rewrite (E i), (E j) by lia; apply P1; lia.
Qed.

Lemma sort_phase n : forall fuel l, fits l -> (0 < n <= length l)%nat -> heap l 0 n -> placed l n -> (n <= fuel)%nat ->
  exists l', sort_loop cmp size fuel l (ix n) 0 = Some l' /\ l' ≡ₚ l /\ placed l' 1.
Proof using Hs total trans.
  induction n as [|n IH]; intros fuel l F Hn Hp Pl Hf; [lia|]; destruct fuel as [|fuel]; [lia|]; cbn [sort_loop Z.eqb negb].
  replace (ix (S n) - size) with (ix n) by (unfold ix; lia); rewrite (ix_fits l) by (trivial; lia); replace (ix n =? 0) with (n =? 0)%nat by (rewrite <- ix_eqb; f_equal).
  destruct (Nat.eqb_spec n 0) as [->|N]; cbn [negb]; [exists l; auto|].
  destruct (extract_spec l (S n) F ltac:(lia) Hp Pl) as (l1 & R & P1 & Hp1 & Pl1); replace (S n - 1)%nat with n in * by lia; rewrite R; cbn [mbind option_bind].
  pose proof (Permutation_length P1) as L1; destruct (IH fuel l1) as (l2 & R2 & P2 & Pl2); [unfold fits; rewrite L1; exact F|lia|exact Hp1|exact Pl1|lia|].
  exists l2; split; [exact R2|split; [rewrite P2; exact P1|exact Pl2]].
Qed.

Lemma build_phase a : forall fuel l, fits l -> (0 < length l)%nat -> (a <= length l)%nat -> heap l a (length l) -> (a + length l <= fuel)%nat ->
  exists l', sort_loop cmp size fuel l (ix (length l)) (ix a) = Some l' /\ l' ≡ₚ l /\ placed l' 1.
Proof using Hs total trans.
  induction a as [|a IH]; intros fuel l F Hl Ha Hp Hf; [apply sort_phase; [exact F|lia|exact Hp|intros i j ? ?; lia|lia]|].
  destruct fuel as [|fuel]; [lia|]; cbn [sort_loop]; replace (ix (S a) =? 0) with false by (symmetry; apply Z.eqb_neq; unfold ix; lia); cbn [negb].
  replace (ix (S a) - size) with (ix a) by (unfold ix; lia); rewrite (ix_fits l) by (trivial; lia).
  destruct (sift_spec l (length l) a F ltac:(lia) ltac:(lia) Hp) as (l1 & -> & P1 & Hp1 & _); cbn [mbind option_bind]; rewrite <- (Permutation_length P1) in *.
  destruct (IH fuel l1) as (l2 & R2 & P2 & Pl2); [unfold fits; rewrite (Permutation_length P1); exact F|lia|lia|exact Hp1|lia|].
  exists l2; split; [exact R2|split; [rewrite P2; exact P1|exact Pl2]].
Qed.

Lemma placed_sorted l : placed l 1 -> StronglySorted (fun x y => 0 <= cmp y x) l.
Proof using.
  induction l as [|x l IH]; intros Pl; constructor.
  - apply IH; intros i j Hij Hj; exact (Pl (S i) (S j) ltac:(lia) ltac:(cbn; lia)).
  - apply Forall_lookup; intros i y Hi; pose proof (lookup_lt_Some _ _ _ Hi) as Li; specialize (Pl 0%nat (S i) ltac:(lia) ltac:(cbn; lia)); unfold ge in Pl.
    change (0 <= cmp (l !!! i) x) in Pl; rewrite list_lookup_total_alt, Hi in Pl; exact Pl.
Qed.

Lemma sort_r_spec l : fits l -> exists l', sort_r cmp size l = Some l' /\ l' ≡ₚ l /\ StronglySorted (fun x y => 0 <= cmp y x) l'.
Proof using Hs total trans.
  intros F; unfold sort_r; set (a := Nat.div2 (length l)); assert (Ha : (2 * a <= length l <= 2 * a + 1)%nat) by (unfold a; pose proof (Nat.div2_odd (length l)); destruct (Nat.odd _); cbn in *; lia).
  replace (Z.of_nat (length l) / 2 * size) with (ix a) by (unfold ix, a; rewrite Nat.div2_div, Nat2Z.inj_div; reflexivity); rewrite (ix_fits l) by (trivial; lia).
  replace (ix a =? 0) with (a =? 0)%nat by (rewrite <- ix_eqb; f_equal); destruct (Nat.eqb_spec a 0) as [E|N].
  - exists l; split; [reflexivity|split; [reflexivity|]]; apply placed_sorted; intros i j ? ?; lia.
  - change (Z.of_nat (length l) * size) with (ix (length l)); rewrite (ix_fits l) by (trivial; lia).
    destruct (build_phase a (2 * length l) l F ltac:(lia) ltac:(lia)) as (l' & R & P & Pl); [|lia|].
    + intros x Hx Hpx; pose proof (proj1 (par_children (par x) x ltac:(lia)) eq_refl); lia.
    + exists l'; split; [exact R|split; [exact P|apply placed_sorted, Pl]].
Qed.
End Heap.

(** ** Binary search *)

Section Search.
Context {K A : Type} `{Inhabited A} (cmp : K -> A -> Z) (key : K) (size : Z) (Hs : 0 < size).

(** The elements are in ascending order around the key. *)
Definition ordered (l : list A) : Prop := forall i j, (i < j < length l)%nat ->
  (cmp key (l !!! i) < 0 -> cmp key (l !!! j) < 0) /\ (0 < cmp key (l !!! j) -> 0 < cmp key (l !!! i)).

Lemma bsearch_loop l : ordered l -> forall fuel base num, (base + num <= length l)%nat -> (num < fuel)%nat ->
  (forall i, (i < length l)%nat -> (i < base \/ base + num <= i)%nat -> cmp key (l !!! i) <> 0) ->
  exists r, __inline_bsearch fuel cmp key l (Z.of_nat base * size) (Z.of_nat num) size = Some r /\
    match r with
    | Some p => exists i, p = Z.of_nat i * size /\ (i < length l)%nat /\ cmp key (l !!! i) = 0
    | None => forall i, (i < length l)%nat -> cmp key (l !!! i) <> 0
    end.
Proof using Hs.
  intros O; induction fuel as [|fuel IH]; intros base num Hb Hf Out; [lia|]; cbn [__inline_bsearch].
  destruct (Z.gtb_spec (Z.of_nat num) 0) as [Hn|Hn]; [|exists None; split; [reflexivity|intros i Hi; apply Out; [exact Hi|lia]]].
  assert (Hh : Z.shiftr (Z.of_nat num) 1 = Z.of_nat (num / 2)) by (rewrite Z.shiftr_div_pow2, Nat2Z.inj_div by lia; reflexivity).
  pose proof (Nat.div_mod num 2 ltac:(lia)) as Dm; pose proof (Nat.mod_upper_bound num 2 ltac:(lia)) as Mb; set (h := (num / 2)%nat) in *.
  rewrite Hh; replace (Z.of_nat base * size + Z.of_nat h * size) with (Z.of_nat (base + h) * size) by lia; set (p := (base + h)%nat).
  assert (Ea : at_ size l (Z.of_nat p * size) = l !!! p) by (unfold at_; rewrite Z.div_mul, Nat2Z.id by lia; reflexivity); rewrite Ea.
  destruct (Z.eqb_spec (cmp key (l !!! p)) 0) as [E|N]; [exists (Some (Z.of_nat p * size)); split; [reflexivity|exists p; split; [reflexivity|split; [lia|exact E]]]|].
  destruct (Z.gtb_spec (cmp key (l !!! p)) 0) as [G|G].
  - replace (Z.of_nat p * size + size) with (Z.of_nat (p + 1) * size) by lia.
    assert (Hq : Z.shiftr (Z.of_nat num - 1) 1 = Z.of_nat ((num - 1) / 2)) by (rewrite Z.shiftr_div_pow2, Nat2Z.inj_div, Nat2Z.inj_sub by lia; reflexivity); rewrite Hq.
    pose proof (Nat.div_mod (num - 1) 2 ltac:(lia)) as Dm'; pose proof (Nat.mod_upper_bound (num - 1) 2 ltac:(lia)) as Mb'; set (q := ((num - 1) / 2)%nat) in *.
    apply IH; [lia|lia|]; intros i Hi [Li|Li]; [|apply Out; lia]; destruct (Nat.eq_dec i p) as [->|]; [exact N|].
    pose proof (proj2 (O i p ltac:(lia)) ltac:(lia)); lia.
  - apply IH; [lia|lia|]; intros i Hi [Li|Li]; [apply Out; lia|]; destruct (Nat.eq_dec i p) as [->|]; [exact N|].
    pose proof (proj1 (O p i ltac:(lia)) ltac:(lia)); lia.
Qed.

Lemma bsearch_spec l : ordered l -> exists r, bsearch cmp key l size = Some r /\
  match r with
  | Some p => exists i, p = Z.of_nat i * size /\ (i < length l)%nat /\ cmp key (l !!! i) = 0
  | None => forall i, (i < length l)%nat -> cmp key (l !!! i) <> 0
  end.
Proof using Hs. intros O; apply (bsearch_loop l O (S (length l)) 0 (length l)); [lia|lia|intros; lia]. Qed.
End Search.

(** ** Comparisons that agree on the elements *)

Section Agree.
Context {A : Type} `{Inhabited A} (cmp cmp' : A -> A -> Z) (size : Z) (P : A -> Prop).
Context (P0 : P inhabitant) (agree : forall x y, P x -> P y -> cmp x y = cmp' x y).

Lemma at_all l i : Forall P l -> P (at_ size l i).
Proof using P0.
  intros F; unfold at_; rewrite list_lookup_total_alt; destruct (l !! _) eqn:E; [exact (Forall_lookup_1 _ _ _ _ F E)|exact P0].
Qed.

Lemma swap_all l i j : Forall P l -> Forall P (swap size l i j).
Proof using P0. intros F; unfold swap; apply Forall_insert; [apply Forall_insert; [exact F|]|]; apply at_all, F. Qed.

Lemma descend_agree l n : Forall P l -> forall fuel b, descend cmp size fuel l n b = descend cmp' size fuel l n b.
Proof using P0 agree. intros F; induction fuel as [|fuel IH]; intros b; [reflexivity|]; cbn [descend]; rewrite agree by (apply at_all, F); rewrite IH; reflexivity. Qed.

Lemma backtrack_agree l a : Forall P l -> forall fuel b, backtrack cmp size fuel l a b = backtrack cmp' size fuel l a b.
Proof using P0 agree. intros F; induction fuel as [|fuel IH]; intros b; [reflexivity|]; cbn [backtrack]; rewrite agree by (apply at_all, F); rewrite IH; reflexivity. Qed.

Lemma shift_all a c fuel : forall l b l', Forall P l -> shift size fuel l a b c = Some l' -> Forall P l'.
Proof using P0.
  induction fuel as [|fuel IH]; intros l b l' F E; [discriminate|]; cbn [shift] in E; destruct (b =? a); [injection E as <-; exact F|exact (IH _ _ _ (swap_all _ _ _ F) E)].
Qed.

Lemma sift_agree l n a : Forall P l -> sift cmp size l n a = sift cmp' size l n a.
Proof using P0 agree.
  intros F; unfold sift; rewrite descend_agree by exact F; destruct (descend cmp' _ _ _ _ _) as [b|]; [|reflexivity]; cbn [mbind option_bind]; rewrite backtrack_agree by exact F; reflexivity.
Qed.

Lemma sift_all l n a l' : Forall P l -> sift cmp' size l n a = Some l' -> Forall P l'.
Proof using P0.
  intros F E; unfold sift in E; destruct (descend _ _ _ _ _ _); [|discriminate]; cbn [mbind option_bind] in E; destruct (backtrack _ _ _ _ _ _); [|discriminate]; exact (shift_all _ _ _ _ _ _ F E).
Qed.

Lemma loop_agree fuel : forall l n a, Forall P l -> sort_loop cmp size fuel l n a = sort_loop cmp' size fuel l n a.
Proof using P0 agree.
  induction fuel as [|fuel IH]; intros l n a F; [reflexivity|]; cbn [sort_loop]; destruct (negb (a =? 0)).
  - rewrite sift_agree by exact F; destruct (sift cmp' _ _ _ _) as [l'|] eqn:E; [|reflexivity]; apply IH, (sift_all _ _ _ _ F E).
  - destruct (negb _); [|reflexivity]; pose proof (swap_all l 0 (u64 (n - size)) F) as F1; rewrite sift_agree by exact F1.
    destruct (sift cmp' _ _ _ _) as [l'|] eqn:E; [|reflexivity]; apply IH, (sift_all _ _ _ _ F1 E).
Qed.

Lemma sort_r_agree l : Forall P l -> sort_r cmp size l = sort_r cmp' size l.
Proof using P0 agree. intros F; unfold sort_r; rewrite loop_agree by exact F; reflexivity. Qed.
End Agree.

(** ** Theorems *)


(** C26: [sort_r] terminates and sorts: for a comparison that is total and
    transitive and an array whose offsets fit a machine word, the array holds
    the same elements afterwards and no element is larger than a later one. *)
Theorem sort_r_sorts (cmp : Z -> Z -> Z) size l : 0 < size < 2 ^ 32 -> (forall x y, 0 <= cmp x y \/ 0 <= cmp y x) ->
  (forall x y z, 0 <= cmp x y -> 0 <= cmp y z -> 0 <= cmp x z) -> fits size l ->
  exists l', sort_r cmp size l = Some l' /\ l' ≡ₚ l /\ StronglySorted (fun x y => 0 <= cmp y x) l'.
Proof. intros Hs To Tr F; exact (sort_r_spec cmp size Hs To Tr l F). Qed.

Lemma sort_r_sorts_witness : exists l', sort_r Z.sub 8 [5; 3; 9; 3; 1; 7] = Some l' /\ l' ≡ₚ [5; 3; 9; 3; 1; 7] /\ StronglySorted (fun x y => 0 <= y - x) l'.
Proof. apply sort_r_sorts; [lia..|vm_compute; reflexivity]. Defined.

(** The swap that [sort_r] picks for the alignment and the size of the
    elements, by words of eight or four bytes or byte by byte, exchanges the two
    elements in full. *)
Theorem do_swap_exchanges efficient base (a b : list Z) size : Z.of_nat (length a) = size -> Z.of_nat (length b) = size -> do_swap efficient base a b size = (b, a).
Proof. intros Ha Hb; apply do_swap_swaps; lia. Qed.

Lemma do_swap_exchanges_witness : do_swap true 3 [1; 2; 3; 4] [5; 6; 7; 8] 4 = ([5; 6; 7; 8], [1; 2; 3; 4]).
Proof. apply do_swap_exchanges; reflexivity. Defined.

(** C27: [bsearch] terminates and decides whether the key is there: on an array
    that is in order around the key it returns the offset of an element that
    compares equal, and NULL only when there is none. *)
Theorem bsearch_decides (cmp : Z -> Z -> Z) key size l : 0 < size -> ordered cmp key l ->
  exists r, bsearch cmp key l size = Some r /\
    match r with
    | Some p => exists i, p = Z.of_nat i * size /\ (i < length l)%nat /\ cmp key (l !!! i) = 0
    | None => forall i, (i < length l)%nat -> cmp key (l !!! i) <> 0
    end.
Proof. intros Hs; exact (bsearch_spec cmp key size Hs l). Qed.

Lemma bsearch_decides_witness : exists r, bsearch Z.sub 7 [1; 3; 5; 7; 9] 16 = Some r /\
  match r with
  | Some p => exists i, p = Z.of_nat i * 16 /\ (i < 5)%nat /\ 7 - [1; 3; 5; 7; 9] !!! i = 0
  | None => forall i, (i < 5)%nat -> 7 - [1; 3; 5; 7; 9] !!! i <> 0
  end.
Proof.
  refine (bsearch_decides Z.sub 7 16 [1; 3; 5; 7; 9] _ _); [lia|]; intros i j L; cbn in L; do 5 (destruct i as [|i]; [do 5 (destruct j as [|j]; [cbn; lia|]); lia|]); lia.
Defined.
