(* ===== verification/Subprogs.v ===== *)
(** The functions of a program: [check_subprogs], which finds them and checks
    that jumps stay inside them, and [check_max_stack_depth], which walks the
    calls between them, both of kernel/bpf/verifier.c. *)
From Stdlib Require Import ZArith Lia Bool.
From stdpp Require Import base list gmap.
From S2P Require Import Prelude Sort.
From S2P Require Import RegState Insn Env RegArg HelperCall.

Local Open Scope Z_scope.
Local Open Scope kint_scope.

Abbreviation BPF_MAX_SUBPROGS := 256.
Abbreviation sizeof_subprog_info := 16.
Abbreviation MAX_CALL_FRAMES := 8%nat.
Abbreviation BPF_JMP_CALL := (BPF_JMP .| BPF_CALL).
Abbreviation BPF_JMP_EXIT := (BPF_JMP .| BPF_EXIT).
Abbreviation BPF_JMP_JA := (BPF_JMP .| BPF_JA).

(** ** Finding functions *)

(** [start] is a [u32]; the difference of two is returned as an [int]. *)
Definition cmp_subprogs (a b : Z) : Z := s32 (u32 (a - b)).

(** [subprog_info env] holds the first [subprog_cnt] entries of the array.  The
    search ends (see [find_subprog_spec]). *)
Definition find_subprog (env : bpf_verifier_env) (off : Z) : option nat :=
  match bsearch (fun off info => cmp_subprogs off (start info)) (u32 off) (subprog_info env) sizeof_subprog_info with
  | Some (Some p) => Some (Z.to_nat (p / sizeof_subprog_info))
  | _ => None
  end.

(** The sort ends (see [add_subprog_ok]). *)
Definition sort_subprogs (l : list bpf_subprog_info) : list bpf_subprog_info :=
  default l (sort_r (fun a b => cmp_subprogs (start a) (start b)) sizeof_subprog_info l).

Definition add_subprog (off : Z) : verifier unit :=
  env ← get;
  if (off >=? Z.of_nat (length (prog env))) || (off <? 0) then fail (- EINVAL)
  else
    match find_subprog env off with
    | Some _ => mret ()
    | None =>
      if Z.of_nat (length (subprog_info env)) >=? BPF_MAX_SUBPROGS then fail (- E2BIG)
      else
        modify (fun env =>
          let env := set_subprog_info env (sort_subprogs (subprog_info env ++ [mk_subprog off 0 0 false false false])) in
          set_flags env (mk_flags (Z.of_nat (length (subprog_info env))) (bpf_capable (flags env))))
    end.

Definition is_pseudo_call (insn : bpf_insn) : bool := (insn_code insn =? BPF_JMP_CALL) && (insn_src insn =? BPF_PSEUDO_CALL).

(** The destination of a call in instruction [i]. *)
Definition call_dest (i : Z) (insn : bpf_insn) : Z := s32 (i + insn_imm insn + 1).

(** The first loop, from instruction [i] on. *)
Fixpoint add_subprogs (i : Z) (insns : list bpf_insn) : verifier unit :=
  match insns with
  | [] => mret ()
  | insn :: insns =>
    _ ← when (is_pseudo_call insn)
          (env ← get; if negb (bpf_capable (flags env)) then fail (- EPERM) else add_subprog (call_dest i insn));
    add_subprogs (i + 1) insns
  end.

(** ** Jumps inside functions *)

(** [subprog[i].start], with the entry behind the last function, which starts at
    the end of the program. *)
Definition subprog_start (env : bpf_verifier_env) (i : nat) : Z :=
  match subprog_info env !! i with Some info => start info | None => Z.of_nat (length (prog env)) end.

Definition mark_subprog (i : nat) (insn : bpf_insn) : verifier unit := modify (fun env =>
  let code := insn_code insn in
  let tail := (code =? BPF_JMP_CALL) && (insn_imm insn =? BPF_FUNC_tail_call) && negb (insn_src insn =? BPF_PSEUDO_CALL) in
  let abs := (BPF_CLASS code =? BPF_LD) && ((BPF_MODE code =? BPF_ABS) || (BPF_MODE code =? BPF_IND)) in
  set_subprog_info env (alter (fun s => mk_subprog (start s) (linfo_idx s) (stack_depth s) (has_tail_call s || tail) (tail_call_reachable s) (has_ld_abs s || abs)) i
    (subprog_info env))).

(** Conditional and unconditional jumps, with neither exits nor calls. *)
Definition is_jump (insn : bpf_insn) : bool :=
  let code := insn_code insn in
  ((BPF_CLASS code =? BPF_JMP) || (BPF_CLASS code =? BPF_JMP32)) && negb ((BPF_OP code =? BPF_EXIT) || (BPF_OP code =? BPF_CALL)).

(** The second loop, from instruction [i] on, in the function [cur] between
    [first] and [last]. *)
Fixpoint check_jumps (i : Z) (insns : list bpf_insn) (cur : nat) (first last : Z) : verifier unit :=
  match insns with
  | [] => mret ()
  | insn :: insns =>
    let code := insn_code insn in
    _ ← mark_subprog cur insn;
    let off := i + insn_off insn + 1 in
    if is_jump insn && ((off <? first) || (off >=? last)) then fail (- EINVAL)
    else if i =? last - 1 then
      if negb (code =? BPF_JMP_EXIT) && negb (code =? BPF_JMP_JA) then fail (- EINVAL)
      else
        env ← get;
        let cur := S cur in
        check_jumps (i + 1) insns cur last (if (cur <? length (subprog_info env))%nat then subprog_start env (S cur) else last)
    else check_jumps (i + 1) insns cur first last
  end.

Definition check_subprogs : verifier unit :=
  _ ← add_subprog 0;
  env ← get;
  _ ← add_subprogs 0 (prog env);
  env ← get;
  check_jumps 0 (prog env) 0 (subprog_start env 0) (subprog_start env 1).

(** ** The stack of a chain of calls *)

Definition round_up (x y : Z) : Z := ((x - 1) .| (y - 1)) + 1.

(** What a function takes of the stack. *)
Definition frame_depth (s : bpf_subprog_info) : Z := round_up (Z.max (stack_depth s) 1) 32.

Definition mark_reachable (callers : list nat) (reachable : bool) : verifier unit :=
  _ ← when reachable (modify (fun env => set_subprog_info env (foldr (fun j =>
        alter (fun s => mk_subprog (start s) (linfo_idx s) (stack_depth s) (has_tail_call s) true (has_ld_abs s)) j) (subprog_info env) callers)));
  modify (fun env =>
    if tail_call_reachable (subprog_info env !!! 0%nat)
    then
      let a := aux env in
      set_aux env (mk_prog_aux (prog_type a) (dst_prog_type a) (max_pkt_offset a) (max_ctx_offset a) (max_tp_access a) (max_rdonly_access a)
        (max_rdwr_access a) (prog_stack_depth a) true)
    else env).

(** The instructions of function [idx], with their positions. *)
Definition func_insns (env : bpf_verifier_env) (idx : nat) : list (Z * bpf_insn) :=
  let first := subprog_start env idx in
  let last := subprog_start env (S idx) in
  imap (fun k insn => (first + Z.of_nat k, insn)) (take (Z.to_nat (last - first)) (drop (Z.to_nat first) (prog env))).

(** The loop over the instructions of a function; [call] walks a callee.  The
    flag [tail_call_reachable] goes in and comes out. *)
Fixpoint continue_func (call : nat -> bool -> verifier bool) (insns : list (Z * bpf_insn)) (reachable : bool) : verifier bool :=
  match insns with
  | [] => mret reachable
  | (i, insn) :: insns =>
    if negb (is_pseudo_call insn) then continue_func call insns reachable
    else
      env ← get;
      match find_subprog env (call_dest i insn) with
      | None => fail (- EFAULT)
      | Some callee =>
        reachable ← call callee (reachable || has_tail_call (subprog_info env !!! callee));
        continue_func call insns reachable
      end
  end.

(** The walk over function [idx].  The arrays [ret_insn] and [ret_prog] are the
    calls of this definition; [callers] is the part of [ret_prog] in use, and
    [frames] the number of entries that are free. *)
Fixpoint process_func (frames idx : nat) (depth : Z) (callers : list nat) (reachable : bool) : verifier bool :=
  env ← get;
  let s := subprog_info env !!! idx in
  if negb (idx =? 0)%nat && has_tail_call s && (depth >=? 256) then fail (- EACCES)
  else
    let depth := depth + frame_depth s in
    if depth >? MAX_BPF_STACK then fail (- EACCES)
    else
      let call callee reachable :=
        match frames with
        | O => fail (- E2BIG)
        | S frames => process_func frames callee depth (idx :: callers) reachable
        end in
      reachable ← continue_func call (func_insns env idx) reachable;
      _ ← mark_reachable callers reachable;
      mret reachable.

Definition check_max_stack_depth : verifier unit :=
  _ ← process_func (MAX_CALL_FRAMES - 1) 0 0 [] false;
  mret ().
