(* ===== verification/SubprogsSound.v ===== *)
(** What the checks of the functions of a program establish: sorted and distinct
    starts, calls that lead to them, jumps that stay between them, and stacks
    that fit along every chain of calls. *)
From Stdlib Require Import ZArith Lia Bool.
From stdpp Require Import base list gmap sorting.
From S2P Require Import Prelude Lists Sort SortSound.
From S2P Require Import Bits RegState Insn Env MemAccess RegArg HelperCall Subprogs.

Local Open Scope Z_scope.
Local Open Scope kint_scope.

(** ** Starts *)

Definition starts (e : bpf_verifier_env) : list Z := start <$> subprog_info e.

Record funcs_ok (e : bpf_verifier_env) : Prop := mk_funcs_ok {
  fo_len : Z.of_nat (length (prog e)) < 2 ^ 31;
  fo_sorted : StronglySorted Z.lt (starts e);
  fo_range : Forall (fun x => 0 <= x < Z.of_nat (length (prog e))) (starts e);
  fo_count : (length (subprog_info e) <= 256)%nat
}.

Lemma cmp_small a b : 0 <= a < 2 ^ 31 -> 0 <= b < 2 ^ 31 -> cmp_subprogs a b = a - b.
Proof. intros Ha Hb; unfold cmp_subprogs; rewrite swrap_uwrap by lia; apply swrap_id; [lia|unfold sin; lia]. Qed.

Lemma start_at e k x : starts e !! k = Some x <-> exists s, subprog_info e !! k = Some s /\ start s = x.
Proof. unfold starts; rewrite list_lookup_fmap_Some; split; intros (s & A & B); exists s; split; congruence. Qed.

Lemma sorted_lookup (l : list Z) i j x y : StronglySorted Z.lt l -> (i < j)%nat -> l !! i = Some x -> l !! j = Some y -> x < y.
Proof.
  intros S; revert i j; induction S as [|z l S IH F]; intros i j Hij Hi Hj; [discriminate|].
  destruct j as [|j]; [lia|]; destruct i as [|i]; [injection Hi as <-; exact (Forall_lookup_1 _ _ _ _ F Hj)|apply (IH i j); [lia|exact Hi|exact Hj]].
Qed.

Lemma start_range e k s : funcs_ok e -> subprog_info e !! k = Some s -> 0 <= start s < Z.of_nat (length (prog e)).
Proof. intros O H; apply (Forall_lookup_1 _ _ k _ (fo_range e O)), start_at; eauto. Qed.

Lemma find_subprog_spec e off : funcs_ok e -> 0 <= off < 2 ^ 31 ->
  match find_subprog e off with Some k => starts e !! k = Some off | None => off ∉ starts e end.
Proof.
  intros O Ho; unfold find_subprog; rewrite (uwrap_id 32 off) by (unfold uin; lia).
  set (cmp := fun (o : Z) info => cmp_subprogs o (start info)).
  assert (C : forall i s, subprog_info e !! i = Some s -> cmp off (subprog_info e !!! i) = off - start s).
  { intros i s Hi; unfold cmp; rewrite list_lookup_total_alt, Hi; cbn; pose proof (start_range _ _ _ O Hi); pose proof (fo_len e O); apply cmp_small; lia. }
  assert (Or : ordered cmp off (subprog_info e)).
  { intros i j Hij; destruct (lookup_lt_is_Some_2 (subprog_info e) i) as [s Hi]; [lia|]; destruct (lookup_lt_is_Some_2 (subprog_info e) j) as [t Hj]; [lia|].
    rewrite (C _ _ Hi), (C _ _ Hj); assert (start s < start t) by (apply (sorted_lookup (starts e) i j); [apply O|lia|apply start_at; eauto..]); lia. }
  destruct (bsearch_spec cmp off sizeof_subprog_info ltac:(lia) (subprog_info e) Or) as ([p|] & -> & R).
  - destruct R as (i & -> & Hi & Z0); rewrite Z.div_mul, Nat2Z.id by lia; apply start_at; destruct (lookup_lt_is_Some_2 _ _ Hi) as [s Hs]; rewrite (C _ _ Hs) in Z0; exists s; split; [exact Hs|lia].
  - intros In; apply list_elem_of_lookup in In as [i Hi]; apply start_at in Hi as (s & Hs & Es); apply (R i (lookup_lt_Some _ _ _ Hs)); rewrite (C _ _ Hs); lia.
Qed.

Lemma find_start e off : funcs_ok e -> 0 <= off < 2 ^ 31 -> off ∈ starts e -> exists k, find_subprog e off = Some k /\ starts e !! k = Some off.
Proof. intros O Ho In; pose proof (find_subprog_spec e off O Ho) as F; destruct (find_subprog e off) as [k|]; [eauto|contradiction]. Qed.

(** ** Adding one *)

Lemma sort_subprogs_spec l : Forall (fun s => 0 <= start s < 2 ^ 31) l -> (length l <= 257)%nat ->
  sort_subprogs l ≡ₚ l /\ StronglySorted (fun s t => 0 <= start t - start s) (sort_subprogs l).
Proof.
  intros F Hl; unfold sort_subprogs; rewrite (sort_r_agree _ (fun a b => start a - start b) _ (fun s => 0 <= start s < 2 ^ 31)); [|cbn; lia|intros; apply cmp_small; assumption|exact F].
  destruct (sort_r_spec (fun a b => start a - start b) sizeof_subprog_info ltac:(lia)) with (l := l) as (l' & -> & P & S); [intros; lia|intros; lia|unfold fits; lia|split; assumption].
Qed.

Lemma strictly (l : list bpf_subprog_info) : StronglySorted (fun s t => 0 <= start t - start s) l -> NoDup (start <$> l) -> StronglySorted Z.lt (start <$> l).
Proof.
  induction 1 as [|s l S IH F]; cbn; intros N; [constructor|]; apply NoDup_cons in N as [Ni N]; constructor; [exact (IH N)|].
  apply Forall_fmap, Forall_forall; intros t Ht; rewrite Forall_forall in F; specialize (F t Ht); cbn in *; assert (start s <> start t) by (intros E; apply Ni; rewrite E; apply list_elem_of_fmap_2, Ht); lia.
Qed.

Lemma sorted_NoDup l : StronglySorted Z.lt l -> NoDup l.
Proof. induction 1 as [|x l S IH F]; constructor; [|exact IH]; intros In; rewrite Forall_forall in F; specialize (F x In); lia. Qed.

(** What the check of one destination keeps and adds. *)
Record added (off : Z) (e e' : bpf_verifier_env) : Prop := mk_added {
  ad_ok : funcs_ok e';
  ad_prog : prog e' = prog e;
  ad_capable : bpf_capable (flags e') = bpf_capable (flags e);
  ad_range : 0 <= off < Z.of_nat (length (prog e));
  ad_starts : forall x, x ∈ starts e' <-> x = off \/ x ∈ starts e
}.

Lemma add_subprog_ok off e u e' : funcs_ok e -> add_subprog off e = (inr u, e') -> added off e e'.
Proof.
  intros O H; unfold add_subprog in H; run H; injection R as <- <-; destruct (Z.geb_spec off (Z.of_nat (length (prog e)))); [discriminate|]; destruct (Z.ltb_spec off 0); [discriminate|].
  cbn [orb] in H; pose proof (fo_len e O) as Len; pose proof (find_subprog_spec e off O ltac:(lia)) as F; destruct (find_subprog e off) as [k|].
  { injection H as _ <-; split; trivial; [lia|]; intros x; split; [auto|]; intros [->|In]; [eapply list_elem_of_lookup_2, F|exact In]. }
  match type of H with (if ?c then _ else _) _ = _ => destruct c eqn:C; [discriminate|] end; rewrite Z.geb_leb, Z.leb_gt in C; injection H as _ <-.
  set (l := subprog_info e ++ [mk_subprog off 0 0 false false false]).
  assert (Fl : Forall (fun s => 0 <= start s < Z.of_nat (length (prog e))) l).
  { unfold l; apply Forall_app; split; [|constructor; [cbn; lia|constructor]]; apply Forall_lookup; intros i s Hi; exact (start_range _ _ _ O Hi). }
  destruct (sort_subprogs_spec l) as [P S]; [eapply Forall_impl; [exact Fl|cbn; lia]|unfold l; rewrite length_app; cbn; lia|].
  assert (Ps : start <$> sort_subprogs l ≡ₚ starts e ++ [off]) by (rewrite P; unfold l; rewrite fmap_app; reflexivity).
  split; [split|..]; cbn [prog flags subprog_info set_flags set_subprog_info bpf_capable]; trivial; try lia.
  - apply strictly; [exact S|]; rewrite Ps; apply NoDup_app; split; [apply sorted_NoDup, O|split; [|apply NoDup_singleton]]; intros x In E; apply list_elem_of_singleton in E as ->; contradiction.
  - apply Forall_fmap; rewrite Forall_forall in Fl |- *; intros s Hs; apply Fl; rewrite <- P; exact Hs.
  - rewrite (Permutation_length P); unfold l; rewrite length_app; cbn; lia.
  - intros x; change (starts (set_flags _ _)) with (start <$> sort_subprogs l); rewrite Ps, elem_of_app, list_elem_of_singleton; tauto.
Qed.

Lemma add_subprogs_ok insns : forall i e u e', funcs_ok e -> add_subprogs i insns e = (inr u, e') ->
  funcs_ok e' /\ prog e' = prog e /\ (forall x, x ∈ starts e -> x ∈ starts e') /\
  forall k insn, insns !! k = Some insn -> is_pseudo_call insn = true -> call_dest (i + Z.of_nat k) insn ∈ starts e'.
Proof.
  induction insns as [|insn insns IH]; intros i e u e' O H; cbn [add_subprogs] in H; [injection H as _ <-; split; [exact O|split; [reflexivity|split; [auto|discriminate]]]|].
  run H; assert (A : (is_pseudo_call insn = false /\ env = e) \/ added (call_dest i insn) e env).
  { unfold when in R; destruct (is_pseudo_call insn); [right|left; injection R as _ <-; auto]; run R; injection R0 as <- <-; destruct (negb _); [discriminate|]; exact (add_subprog_ok _ _ _ _ O R). }
  assert (B : funcs_ok env /\ prog env = prog e /\ (forall x, x ∈ starts e -> x ∈ starts env) /\ (is_pseudo_call insn = true -> call_dest i insn ∈ starts env)).
  { destruct A as [[C ->]|[A1 A2 _ _ A5]]; [split; [exact O|split; [reflexivity|split; [auto|congruence]]]|]; split; [exact A1|split; [exact A2|split; [intros x Hx; apply A5; auto|intros _; apply A5; auto]]]. }
  destruct B as (B1 & B2 & B3 & B4); destruct (IH _ _ _ _ B1 H) as (C1 & C2 & C3 & C4); split; [exact C1|split; [congruence|split; [auto|]]].
  intros [|k] insn' Hk Pc; [injection Hk as <-; rewrite Z.add_0_r; apply C3, B4, Pc|]; specialize (C4 k insn' Hk Pc); replace (i + Z.of_nat (S k)) with (i + 1 + Z.of_nat k) by lia; exact C4.
Qed.

(** ** Jumps *)

(** Instruction [i] belongs to function [k]. *)
Definition func_of (e : bpf_verifier_env) (i : Z) (k : nat) : Prop :=
  (k < length (subprog_info e))%nat /\ subprog_start e k <= i < subprog_start e (S k).

Lemma start_same e e' k : starts e' = starts e -> prog e' = prog e -> subprog_start e' k = subprog_start e k.
Proof.
  intros Es Ep; unfold subprog_start; rewrite Ep; assert (E : start <$> (subprog_info e' !! k) = start <$> (subprog_info e !! k)) by (rewrite <- !list_lookup_fmap; exact (f_equal (fun l => l !! k) Es)).
  destruct (subprog_info e' !! k), (subprog_info e !! k); try discriminate E; [injection E as E; exact E|reflexivity].
Qed.

Lemma func_of_same e e' i k : starts e' = starts e -> prog e' = prog e -> func_of e' i k <-> func_of e i k.
Proof.
  intros Es Ep; unfold func_of; rewrite !(start_same e e') by assumption; assert (length (subprog_info e') = length (subprog_info e)) as -> by (apply (f_equal length) in Es; unfold starts in Es; rewrite !length_fmap in Es; exact Es).
  reflexivity.
Qed.

Lemma subprog_start_lt e i j : funcs_ok e -> (i < j)%nat -> (i < length (subprog_info e))%nat -> subprog_start e i < subprog_start e j.
Proof.
  intros O Hij Hi; unfold subprog_start; destruct (lookup_lt_is_Some_2 _ _ Hi) as [s Hs]; rewrite Hs; destruct (subprog_info e !! j) as [t|] eqn:Ht.
  - apply (sorted_lookup (starts e) i j); [apply O|exact Hij|apply start_at; eauto..].
  - apply (start_range e i s O Hs).
Qed.

Lemma func_of_unique e i j k : funcs_ok e -> func_of e i j -> func_of e i k -> j = k.
Proof.
  intros O [Lj Rj] [Lk Rk]; destruct (Nat.lt_trichotomy j k) as [L|[L|L]]; [|exact L|]; exfalso.
  - destruct (Nat.eq_dec (S j) k) as [<-|]; [lia|]; pose proof (subprog_start_lt e (S j) k O ltac:(lia) ltac:(lia)); lia.
  - destruct (Nat.eq_dec (S k) j) as [<-|]; [lia|]; pose proof (subprog_start_lt e (S k) j O ltac:(lia) ltac:(lia)); lia.
Qed.

(** Instruction [i] of function [k] keeps inside of it. *)
Definition inside (e : bpf_verifier_env) (i : Z) (insn : bpf_insn) (k : nat) : Prop :=
  (is_jump insn = true -> func_of e (i + insn_off insn + 1) k) /\
  (i = subprog_start e (S k) - 1 -> insn_code insn = BPF_JMP_EXIT \/ insn_code insn = BPF_JMP_JA).

Lemma mark_subprog_starts i insn e u e' : mark_subprog i insn e = (inr u, e') -> starts e' = starts e /\ prog e' = prog e /\ length (subprog_info e') = length (subprog_info e).
Proof.
  intros H; injection H as _ <-; cbn [prog set_subprog_info subprog_info]; split; [|split; [reflexivity|apply length_alter]].
  unfold starts; cbn [subprog_info set_subprog_info]; apply list_eq; intros j; rewrite !list_lookup_fmap; destruct (Nat.eq_dec i j) as [<-|N]; [rewrite list_lookup_alter_eq; destruct (_ !! i); reflexivity|rewrite list_lookup_alter_ne by exact N; reflexivity].
Qed.

Lemma funcs_same e e' : starts e' = starts e -> prog e' = prog e -> funcs_ok e -> funcs_ok e'.
Proof.
  intros Es Ep [A B C D]; split; rewrite ?Es, ?Ep; trivial; apply (f_equal length) in Es; unfold starts in Es; rewrite !length_fmap in Es; lia.
Qed.

Lemma check_jumps_ok insns : forall i cur e u e', funcs_ok e -> (insns <> [] -> func_of e i cur) -> i + Z.of_nat (length insns) = Z.of_nat (length (prog e)) ->
  check_jumps i insns cur (subprog_start e cur) (subprog_start e (S cur)) e = (inr u, e') ->
  starts e' = starts e /\ prog e' = prog e /\ forall k insn f, insns !! k = Some insn -> func_of e (i + Z.of_nat k) f -> inside e (i + Z.of_nat k) insn f.
Proof.
  induction insns as [|insn insns IH]; intros i cur e u e' O Fo Ln H; cbn [check_jumps] in H; [injection H as _ <-; repeat split; discriminate|].
  specialize (Fo ltac:(discriminate)); cbn [length] in Ln; run H; destruct (mark_subprog_starts _ _ _ _ _ R) as (Es & Ep & El); clear R; pose proof (funcs_same _ _ Es Ep O) as O1.
  match type of H with (if ?c then _ else _) _ = _ => destruct c eqn:C; [discriminate|] end.
  assert (Jp : is_jump insn = true -> func_of e (i + insn_off insn + 1) cur).
  { intros J; rewrite J in C; cbn [andb] in C; apply orb_false_iff in C as [C1 C2]; rewrite Z.geb_leb in C2; split; [apply Fo|lia]. }
  assert (Nx : starts e' = starts env /\ prog e' = prog env /\ forall k insn0 f, insns !! k = Some insn0 -> func_of env (i + 1 + Z.of_nat k) f -> inside env (i + 1 + Z.of_nat k) insn0 f).
  { destruct Fo as [Lc Rc]; destruct (Z.eqb_spec i (subprog_start e (S cur) - 1)) as [E|N].
    - match type of H with (if ?c then _ else _) _ = _ => destruct c; [discriminate|] end; run H; injection R as <- <-; destruct (Nat.ltb_spec (S cur) (length (subprog_info env))) as [L|L].
      + rewrite <- (start_same e env (S cur) Es Ep) in H; apply (IH (i + 1) (S cur) env u e' O1); [intros _|rewrite Ep; lia|exact H]; split; [exact L|].
        rewrite !(start_same e env) by assumption; pose proof (subprog_start_lt e (S cur) (S (S cur)) O ltac:(lia) ltac:(lia)); lia.
      + assert (insns = []) as ->.
        { destruct insns; [reflexivity|]; exfalso; cbn [length] in Ln; unfold subprog_start at 1 in E; rewrite lookup_ge_None_2 in E by lia; lia. }
        injection H as _ <-; repeat split; discriminate.
    - rewrite <- !(start_same e env) in H by assumption; apply (IH (i + 1) cur env u e' O1); [intros _|rewrite Ep; lia|exact H]; apply (func_of_same e env); [exact Es|exact Ep|split; [exact Lc|lia]]. }
  destruct Nx as (N1 & N2 & N3); split; [congruence|split; [congruence|]]; intros [|k] insn0 f Hk Hf.
  - injection Hk as <-; rewrite Z.add_0_r in *; assert (f = cur) as -> by (apply (func_of_unique e i); assumption); split; [exact Jp|]; intros E; rewrite <- E, Z.eqb_refl in H.
    match type of H with (if ?c then _ else _) _ = _ => destruct c eqn:C2; [discriminate|] end; apply andb_false_iff in C2 as [C2|C2]; apply negb_false_iff, Z.eqb_eq in C2; auto.
  - replace (i + Z.of_nat (S k)) with (i + 1 + Z.of_nat k) in * by lia; pose proof (proj2 (func_of_same e env _ _ Es Ep) Hf) as Hf1; destruct (N3 k insn0 f Hk Hf1) as [A B]; split.
    + intros J; apply (func_of_same e env); auto.
    + rewrite <- (start_same e env) by assumption; exact B.
Qed.

(** ** The whole check *)

(** Every instruction is in one function; calls go to the start of one, jumps
    stay in their own, and the last instruction of one does not fall through. *)
Record functions (e : bpf_verifier_env) : Prop := mk_functions {
  fn_ok : funcs_ok e;
  fn_main : starts e !! 0%nat = Some 0;
  fn_calls : forall i insn, prog e !! i = Some insn -> is_pseudo_call insn = true -> call_dest (Z.of_nat i) insn ∈ starts e;
  fn_inside : forall i insn f, prog e !! i = Some insn -> func_of e (Z.of_nat i) f -> inside e (Z.of_nat i) insn f
}.

Lemma first_start e : funcs_ok e -> 0 ∈ starts e -> starts e !! 0%nat = Some 0.
Proof.
  intros O In; apply list_elem_of_lookup in In as [k Hk]; destruct k as [|k]; [exact Hk|].
  destruct (lookup_lt_is_Some_2 (starts e) 0) as [x Hx]; [apply lookup_lt_Some in Hk; lia|].
  pose proof (sorted_lookup _ _ _ _ _ (fo_sorted e O) (Nat.lt_0_succ k) Hx Hk); pose proof (Forall_lookup_1 _ _ _ _ (fo_range e O) Hx); cbn in *; lia.
Qed.

Lemma func_exists e i : funcs_ok e -> starts e !! 0%nat = Some 0 -> 0 <= i < Z.of_nat (length (prog e)) -> exists k, func_of e i k.
Proof.
  intros O M Hi; apply start_at in M as (s & Hs & Es).
  assert (G : forall n, (n < length (subprog_info e))%nat -> i < subprog_start e (S n) -> exists k, func_of e i k).
  { induction n as [|n IH]; intros Hn L; [exists 0%nat; split; [exact Hn|]; split; [|exact L]; unfold subprog_start; rewrite Hs; lia|].
    destruct (Z.lt_ge_cases i (subprog_start e (S n))) as [L1|L1]; [apply IH; [lia|exact L1]|exists (S n); split; [exact Hn|lia]]. }
  pose proof (lookup_lt_Some _ _ _ Hs) as Ls; apply (G (length (subprog_info e) - 1)%nat); [lia|]; unfold subprog_start; rewrite lookup_ge_None_2 by lia; lia.
Qed.

Lemma check_subprogs_ok e u e' : subprog_info e = [] -> Z.of_nat (length (prog e)) < 2 ^ 31 -> check_subprogs e = (inr u, e') -> functions e' /\ prog e' = prog e.
Proof.
  intros E0 Ln H; unfold check_subprogs in H; assert (O : funcs_ok e) by (split; unfold starts; rewrite ?E0; [exact Ln|constructor|constructor|cbn; lia]).
  run H; destruct (add_subprog_ok _ _ _ _ O R) as [O1 P1 _ _ S1]; clear R; run H; injection R as <- <-; run H; destruct (add_subprogs_ok _ _ _ _ _ O1 R) as (O2 & P2 & S2 & C2); clear R.
  run H; injection R as <- <-; assert (M : starts env0 !! 0%nat = Some 0) by (apply first_start; [exact O2|apply S2, S1; auto]).
  assert (F0 : func_of env0 0 0).
  { apply start_at in M as (s & Hs & Es); pose proof (lookup_lt_Some _ _ _ Hs) as Ls; pose proof (subprog_start_lt env0 0 1 O2 ltac:(lia) Ls) as L.
    assert (subprog_start env0 0 = 0) as Z0 by (unfold subprog_start; rewrite Hs; exact Es); split; [exact Ls|lia]. }
  destruct (check_jumps_ok _ _ _ _ _ _ O2 (fun _ => F0) (Z.add_0_l _) H) as (Es & Ep & In).
  split; [|congruence]; split; [exact (funcs_same _ _ Es Ep O2)|rewrite Es; exact M| |].
  - intros i insn Hi Pc; rewrite Ep, P2 in Hi; rewrite Es; exact (C2 i insn Hi Pc).
  - intros i insn f Hi Hf; rewrite Ep in Hi; apply (func_of_same env0 e') in Hf; [|exact Es|exact Ep]; destruct (In i insn f Hi Hf) as [A B]; split.
    + intros J; apply (func_of_same env0 e'); auto.
    + rewrite (start_same env0 e') by assumption; exact B.
Qed.

(** ** Stacks *)

(** What the walk looks at, and does not change. *)
Definition layout (e : bpf_verifier_env) := (prog e, (fun s => (start s, stack_depth s, has_tail_call s)) <$> subprog_info e).

Lemma layout_starts e e' : layout e' = layout e -> starts e' = starts e /\ prog e' = prog e.
Proof.
  intros E; injection E as E1 E2; split; [|exact E1]; apply (f_equal (fmap (fun x => fst (fst x)))) in E2; rewrite <- !list_fmap_compose in E2; exact E2.
Qed.

Lemma layout_at e e' k : layout e' = layout e -> let s := subprog_info e !!! k in let s' := subprog_info e' !!! k in stack_depth s' = stack_depth s /\ has_tail_call s' = has_tail_call s.
Proof.
  intros E; injection E as _ E2; apply (f_equal (fun l => l !! k)) in E2; rewrite !list_lookup_fmap in E2; cbn zeta; rewrite !list_lookup_total_alt.
  destruct (subprog_info e' !! k), (subprog_info e !! k); try discriminate E2; [injection E2 as _ E3 E4; auto|auto].
Qed.

Lemma find_same e e' off : starts e' = starts e -> find_subprog e' off = find_subprog e off.
Proof.
  intros E; unfold find_subprog, bsearch; assert (L : length (subprog_info e') = length (subprog_info e)) by (apply (f_equal length) in E; unfold starts in E; rewrite !length_fmap in E; exact E).
  rewrite L; set (cmp := fun o info => _); assert (C : forall key p, cmp key (at_ sizeof_subprog_info (subprog_info e') p) = cmp key (at_ sizeof_subprog_info (subprog_info e) p)).
  { intros key p; unfold cmp, at_; f_equal; set (k := Z.to_nat _); apply (f_equal (fun l => l !! k)) in E; unfold starts in E; rewrite !list_lookup_fmap in E; rewrite !list_lookup_total_alt.
    destruct (subprog_info e' !! k), (subprog_info e !! k); try discriminate E; [injection E as E; exact E|reflexivity]. }
  assert (B : forall fuel base num, __inline_bsearch fuel cmp (u32 off) (subprog_info e') base num sizeof_subprog_info = __inline_bsearch fuel cmp (u32 off) (subprog_info e) base num sizeof_subprog_info).
  { induction fuel as [|fuel IH]; intros base num; [reflexivity|]; cbn [__inline_bsearch]; rewrite C, !IH; reflexivity. }
  rewrite B; reflexivity.
Qed.

(** Function [f] calls function [g]. *)
Definition calls (e : bpf_verifier_env) (f g : nat) : Prop :=
  exists i insn, (i, insn) ∈ func_insns e f /\ is_pseudo_call insn = true /\ find_subprog e (call_dest i insn) = Some g.

(** A chain of calls from [f] on. *)
Fixpoint chain (e : bpf_verifier_env) (f : nat) (p : list nat) : Prop :=
  match p with
  | [] => True
  | g :: p => calls e f g /\ chain e g p
  end.

Definition depth_of (e : bpf_verifier_env) (p : list nat) : Z := foldr (fun f d => frame_depth (subprog_info e !!! f) + d) 0 p.

(** The stack of the frames below and of the chain [p] fits; functions that make
    tail calls have less than 256 bytes below them. *)
Definition stack_fits (e : bpf_verifier_env) (depth : Z) (p : list nat) : Prop :=
  forall p1 g p2, p = p1 ++ g :: p2 ->
    depth + depth_of e (p1 ++ [g]) <= MAX_BPF_STACK /\ (g <> 0%nat -> has_tail_call (subprog_info e !!! g) = true -> depth + depth_of e p1 < 256).

Lemma layout_same e e' : layout e' = layout e -> (forall f, func_insns e' f = func_insns e f) /\ (forall f g, calls e' f g <-> calls e f g) /\
  (forall p, depth_of e' p = depth_of e p) /\ (forall d p, stack_fits e' d p <-> stack_fits e d p).
Proof.
  intros E; destruct (layout_starts _ _ E) as [Es Ep]; assert (F : forall f, func_insns e' f = func_insns e f) by (intros f; unfold func_insns; rewrite !(start_same e e'), Ep by assumption; reflexivity).
  assert (D : forall p, depth_of e' p = depth_of e p).
  { induction p as [|f p IH]; [reflexivity|]; unfold depth_of in *; cbn [foldr]; rewrite IH; unfold frame_depth; destruct (layout_at e e' f E) as [-> _]; reflexivity. }
  split; [exact F|split; [|split; [exact D|]]].
  - intros f g; unfold calls; split; intros (i & insn & A & B & C); exists i, insn; (rewrite F in * || rewrite <- F in A); rewrite ?(find_same e e') in * by exact Es; auto.
  - intros d p; unfold stack_fits; split; intros S p1 g p2 Eq; specialize (S p1 g p2 Eq); rewrite !D in *; destruct (layout_at e e' g E) as [_ Ht]; rewrite ?Ht in *; auto.
Qed.

Lemma chain_same e e' p : layout e' = layout e -> forall f, chain e' f p <-> chain e f p.
Proof.
  intros E; destruct (layout_same _ _ E) as (_ & C & _); induction p as [|g p IH]; intros f; [reflexivity|]; cbn; rewrite C, IH; reflexivity.
Qed.

Lemma layout_reachable callers r e u e' : mark_reachable callers r e = (inr u, e') -> layout e' = layout e.
Proof.
  intros H; unfold mark_reachable in H; run H; injection H as _ <-; transitivity (layout env); [destruct (tail_call_reachable _); reflexivity|].
  unfold when in R; destruct r; injection R as _ <-; [|reflexivity]; unfold layout; cbn [prog subprog_info set_subprog_info]; f_equal.
  induction callers as [|j l IH]; [reflexivity|]; cbn [foldr]; rewrite <- IH; apply list_eq; intros k; rewrite !list_lookup_fmap.
  destruct (Nat.eq_dec j k) as [<-|N]; [rewrite list_lookup_alter_eq; destruct (_ !! j); reflexivity|rewrite list_lookup_alter_ne by exact N; reflexivity].
Qed.

Lemma continue_ok call e0 (Q : nat -> Prop) :
  (forall callee r e u e', layout e = layout e0 -> call callee r e = (inr u, e') -> layout e' = layout e0 /\ Q callee) ->
  forall insns r e u e', layout e = layout e0 -> continue_func call insns r e = (inr u, e') ->
  layout e' = layout e0 /\ forall i insn g, (i, insn) ∈ insns -> is_pseudo_call insn = true -> find_subprog e0 (call_dest i insn) = Some g -> Q g.
Proof.
  intros Hc; induction insns as [|[i insn] insns IH]; intros r e u e' L H; cbn [continue_func] in H; [injection H as _ <-; split; [exact L|intros ? ? ? In; inversion In]|].
  destruct (is_pseudo_call insn) eqn:Pc; cbn [negb] in H.
  - run H; injection R as <- <-; rewrite (find_same e0 e) in H by (apply layout_starts, L); destruct (find_subprog e0 (call_dest i insn)) as [g|] eqn:Fg; [|discriminate]; run H.
    destruct (Hc _ _ _ _ _ L R) as [L1 Qg]; destruct (IH _ _ _ _ L1 H) as [L2 Qs]; split; [exact L2|]; intros j insn' g' In Pc' Fg'.
    apply elem_of_cons in In as [E|In]; [injection E as -> ->; congruence|eauto].
  - destruct (IH _ _ _ _ L H) as [L2 Qs]; split; [exact L2|]; intros j insn' g' In Pc' Fg'; apply elem_of_cons in In as [E|In]; [injection E as -> ->; congruence|eauto].
Qed.

Lemma fits_cons e depth f p : depth + frame_depth (subprog_info e !!! f) <= MAX_BPF_STACK -> (f <> 0%nat -> has_tail_call (subprog_info e !!! f) = true -> depth < 256) ->
  (p = [] \/ stack_fits e (depth + frame_depth (subprog_info e !!! f)) p) -> stack_fits e depth (f :: p).
Proof.
  intros Hd Ht Hp [|f' p1] g p2 E; injection E as -> E; cbn [app depth_of foldr]; [rewrite !Z.add_0_r; auto|].
  destruct Hp as [->|Hp]; [destruct p1; discriminate E|]; destruct (Hp p1 g p2 E) as [A B]; fold (depth_of e (p1 ++ [g])) (depth_of e p1); rewrite !Z.add_assoc; auto.
Qed.

Lemma process_ok frames : forall f depth callers r e u e', process_func frames f depth callers r e = (inr u, e') ->
  layout e' = layout e /\ forall p, chain e f p -> (length p <= frames)%nat /\ stack_fits e depth (f :: p).
Proof.
  induction frames as [|frames IH]; intros f depth callers r e u e' H; cbn [process_func] in H; run H; injection R as <- <-; cbv zeta in H.
  all: match type of H with (if ?c then _ else _) _ = _ => destruct c eqn:C1; [discriminate|] end; match type of H with (if ?c then _ else _) _ = _ => destruct c eqn:C2; [discriminate|] end.
  all: assert (T : f <> 0%nat -> has_tail_call (subprog_info e !!! f) = true -> depth < 256) by
    (intros N Ht; rewrite Ht in C1; destruct (Nat.eqb_spec f 0); [contradiction|]; cbn in C1; rewrite Z.geb_leb in C1; lia).
  all: assert (Dp : depth + frame_depth (subprog_info e !!! f) <= MAX_BPF_STACK) by (rewrite Z.gtb_ltb in C2; lia); clear C1 C2; run H; run H; injection H as _ <-; apply layout_reachable in R0.
  - eapply (continue_ok _ e (fun _ => False)) in R as [L Q]; [|intros ? ? ? ? ? _ D; discriminate D|reflexivity]; split; [congruence|].
    intros [|g p] Ch; [split; [cbn; lia|apply fits_cons; auto]|]; exfalso; destruct Ch as [(i & insn & In & Pc & Fg) _]; exact (Q i insn g In Pc Fg).
  - eapply (continue_ok _ e (fun g => forall p, chain e g p -> (length p <= frames)%nat /\ stack_fits e (depth + frame_depth (subprog_info e !!! f)) (g :: p))) in R as [L Q]; [| |reflexivity].
    2: { intros g r1 e1 u1 e2 L1 H1; destruct (IH _ _ _ _ _ _ _ H1) as [L2 S2]; split; [congruence|]; intros p Ch; apply (chain_same e e1) in Ch; [|exact L1]; destruct (S2 p Ch) as [A B]; split; [exact A|].
      apply (layout_same _ _ L1); exact B. }
    split; [congruence|]; intros [|g p] Ch; [split; [cbn; lia|apply fits_cons; auto]|]; destruct Ch as [(i & insn & In & Pc & Fg) Ch]; destruct (Q i insn g In Pc Fg p Ch) as [A B].
    split; [cbn; lia|apply fits_cons; auto].
Qed.

Lemma max_stack_depth_ok e u e' : check_max_stack_depth e = (inr u, e') -> forall p, chain e 0 p -> (length p < MAX_CALL_FRAMES)%nat /\ stack_fits e 0 (0%nat :: p).
Proof. intros H p Ch; unfold check_max_stack_depth in H; run H; destruct (process_ok _ _ _ _ _ _ _ _ R) as [_ Q]; destruct (Q p Ch); split; [lia|assumption]. Qed.
