(* ===== verification/Cfg.v ===== *)
(** The control flow graph: [check_cfg] of kernel/bpf/verifier.c, a depth first
    search without recursion that looks for unreachable instructions, jumps out
    of the program and back edges. *)
From Stdlib Require Import ZArith Lia Bool.
From stdpp Require Import base list gmap.
From S2P Require Import Prelude RegState Insn Env RegArg Alu Explore HelperCall Subprogs.

Local Open Scope Z_scope.
Local Open Scope kint_scope.

Abbreviation DISCOVERED := 0x10.
Abbreviation EXPLORED := 0x20.
Abbreviation FALLTHROUGH := 1.
Abbreviation BRANCH := 2.

(** [env->cfg] with the marks of the instructions.  The stack is a list with its
    top first; [cur_stack] is its length. *)
Record cfg := mk_cfg {
  insn_state : list Z;
  insn_stack : list Z;
  cfg_aux : list bpf_insn_aux_data
}.

Definition state_of (c : cfg) (t : Z) : Z := insn_state c !!! Z.to_nat t.
Definition set_state (t v : Z) (c : cfg) : cfg := mk_cfg (<[Z.to_nat t := v]> (insn_state c)) (insn_stack c) (cfg_aux c).
Definition push (t : Z) (c : cfg) : cfg := mk_cfg (insn_state c) (t :: insn_stack c) (cfg_aux c).

Definition init_explored_state (idx : Z) (c : cfg) : cfg :=
  mk_cfg (insn_state c) (insn_stack c) (alter (fun a => set_prune_point a true) (Z.to_nat idx) (cfg_aux c)).

(** Where an iteration goes on: at [peek_stack] with a new instruction on the
    stack, at [err_free], or with the next statement. *)
Inductive visit_result := Peek (c : cfg) | Err (ret : Z) (c : cfg) | Done (c : cfg).

Definition and_then (r : visit_result) (k : cfg -> visit_result) : visit_result :=
  match r with Done c => k c | _ => r end.

Section Cfg.
Context (insns : list bpf_insn) (capable : bool).
Local Abbreviation insn_cnt := (Z.of_nat (length insns)).

(** The result 1 is [Peek], 0 is [Done]. *)
Definition push_insn (t w e : Z) (loop_ok : bool) (c : cfg) : visit_result :=
  if (e =? FALLTHROUGH) && (state_of c t >=? (DISCOVERED .| FALLTHROUGH)) then Done c
  else if (e =? BRANCH) && (state_of c t >=? (DISCOVERED .| BRANCH)) then Done c
  else if (w <? 0) || (w >=? insn_cnt) then Err (- EINVAL) c
  else
    let c := if e =? BRANCH then init_explored_state w c else c in
    if state_of c w =? 0 then
      let c := set_state w DISCOVERED (set_state t (DISCOVERED .| e) c) in
      if Z.of_nat (length (insn_stack c)) >=? insn_cnt then Err (- E2BIG) c else Peek (push w c)
    else if (state_of c w .& 0xF0) =? DISCOVERED then
      if loop_ok && capable then Done c else Err (- EINVAL) c
    else if state_of c w =? EXPLORED then Done (set_state t (DISCOVERED .| e) c)
    else Err (- EFAULT) c.

(** The edges of instruction [t]. *)
Definition visit_insn (t : Z) (c : cfg) : visit_result :=
  let insn := insns !!! Z.to_nat t in
  let code := insn_code insn in
  if (BPF_CLASS code =? BPF_JMP) || (BPF_CLASS code =? BPF_JMP32) then
    let opcode := BPF_OP code in
    if opcode =? BPF_EXIT then Done c
    else if opcode =? BPF_CALL then
      and_then (push_insn t (t + 1) FALLTHROUGH false c) (fun c =>
        let c := if t + 1 <? insn_cnt then init_explored_state (t + 1) c else c in
        if insn_src insn =? BPF_PSEUDO_CALL then push_insn t (call_dest t insn) BRANCH false (init_explored_state t c) else Done c)
    else if opcode =? BPF_JA then
      if negb (BPF_SRC code =? BPF_K) then Err (- EINVAL) c
      else
        and_then (push_insn t (t + insn_off insn + 1) FALLTHROUGH true c) (fun c =>
          let c := init_explored_state (t + insn_off insn + 1) c in
          Done (if t + 1 <? insn_cnt then init_explored_state (t + 1) c else c))
    else
      and_then (push_insn t (t + 1) FALLTHROUGH true (init_explored_state t c)) (fun c =>
        push_insn t (t + insn_off insn + 1) BRANCH true c)
  else push_insn t (t + 1) FALLTHROUGH false c.

(** The loop from [peek_stack] on; [None] when the fuel runs out. *)
Fixpoint cfg_loop (fuel : nat) (c : cfg) : option (Z * cfg) :=
  match fuel with
  | O => None
  | S fuel =>
    match insn_stack c with
    | [] => Some (if forallb (fun s => s =? EXPLORED) (insn_state c) then 0 else - EINVAL, c)
    | t :: _ =>
      match visit_insn t c with
      | Peek c => cfg_loop fuel c
      | Err ret c => Some (ret, c)
      | Done c => cfg_loop fuel (mk_cfg (<[Z.to_nat t := EXPLORED]> (insn_state c)) (tail (insn_stack c)) (cfg_aux c))
      end
    end
  end.

(** The first instruction is discovered and on the stack. *)
Definition cfg_start (aux : list bpf_insn_aux_data) : cfg :=
  mk_cfg (<[0%nat := DISCOVERED]> (replicate (length insns) 0)) [0] aux.

(** Every instruction is pushed once and popped once. *)
Definition cfg_fuel : nat := (2 * length insns + 2)%nat.
End Cfg.

(** [false] when the search runs out of fuel. *)
Definition check_cfg : verifier bool :=
  _ ← kalloc;
  _ ← kalloc;
  env ← get;
  match cfg_loop (prog env) (bpf_capable (flags env)) (cfg_fuel (prog env)) (cfg_start (prog env) (insn_aux_data env)) with
  | None => mret false
  | Some (ret, c) =>
    _ ← modify (fun env => set_insn_aux_data env (cfg_aux c));
    if ret <? 0 then fail ret else mret true
  end.
