(* ===== verification/CfgSound.v ===== *)
(** The depth first search of [check_cfg]: its invariant, that it ends, and what
    an accepted program looks like. *)
From Stdlib Require Import ZArith Lia Bool.
From stdpp Require Import base list gmap relations.
From S2P Require Import Prelude Lists Bits RegState Insn Env MemAccess RegArg HelperCall Subprogs Cfg.

Local Open Scope Z_scope.
Local Open Scope kint_scope.

Section Search.
Context (insns : list bpf_insn) (capable : bool).
Local Abbreviation n := (Z.of_nat (length insns)).

(** The edges of instruction [t]: which one, where it leads, and whether it may
    close a loop. *)
Definition edges (t : Z) : list (Z * Z * bool) :=
  let insn := insns !!! Z.to_nat t in
  let code := insn_code insn in
  if (BPF_CLASS code =? BPF_JMP) || (BPF_CLASS code =? BPF_JMP32) then
    if BPF_OP code =? BPF_EXIT then []
    else if BPF_OP code =? BPF_CALL then
      (FALLTHROUGH, t + 1, false) :: if insn_src insn =? BPF_PSEUDO_CALL then [(BRANCH, call_dest t insn, false)] else []
    else if BPF_OP code =? BPF_JA then [(FALLTHROUGH, t + insn_off insn + 1, true)]
    else [(FALLTHROUGH, t + 1, true); (BRANCH, t + insn_off insn + 1, true)]
  else [(FALLTHROUGH, t + 1, false)].

Definition in_prog (t : Z) : Prop := 0 <= t < n.
Definition edge (t w : Z) : Prop := in_prog t /\ exists e b, (e, w, b) ∈ edges t.
Definition reachable : Z -> Prop := rtc edge 0.

(** The entry of the function of an instruction. *)
Context (root : Z -> Z) (root0 : root 0 = 0).
Context (root_edge : forall t w e b, in_prog t -> (e, w, b) ∈ edges t -> in_prog w -> root w = root t \/ root w = w).

(** [w] is settled for the instruction with [above] above it on the stack. *)
Definition settled (c : cfg) (fin above : list Z) (w : Z) (b : bool) : Prop :=
  in_prog w /\ (w ∈ fin \/ w ∈ above \/ b = true /\ capable = true /\ w ∈ insn_stack c).

(** [fin] are the explored instructions, the last one first. *)
Record inv (c : cfg) (fin : list Z) : Prop := mk_inv {
  iv_len : length (insn_state c) = length insns;
  iv_range : Forall in_prog (insn_stack c ++ fin);
  iv_nodup : NoDup (insn_stack c ++ fin);
  iv_new : forall t, in_prog t -> t ∉ insn_stack c -> t ∉ fin -> state_of c t = 0;
  iv_open : forall t, t ∈ insn_stack c -> DISCOVERED <= state_of c t <= DISCOVERED .| BRANCH;
  iv_done : forall t, t ∈ fin -> state_of c t = EXPLORED;
  iv_reach : Forall reachable (insn_stack c ++ fin);
  iv_settled : forall above t below, insn_stack c = above ++ t :: below -> forall e w b, (e, w, b) ∈ edges t -> DISCOVERED + e <= state_of c t -> settled c fin above w b;
  iv_order : forall later t before, fin = later ++ t :: before -> forall e w b, (e, w, b) ∈ edges t ->
    in_prog w /\ (w ∈ before \/ b = true /\ capable = true /\ (w ∈ insn_stack c \/ w ∈ fin));
  iv_root : forall above t below, insn_stack c = above ++ t :: below -> root t ∈ t :: below;
  iv_root_done : forall later t before, fin = later ++ t :: before -> root t = t \/ root t ∈ later \/ root t ∈ insn_stack c
}.

Lemma edge_kind t e w b : (e, w, b) ∈ edges t -> e = FALLTHROUGH \/ e = BRANCH.
Proof using.
  unfold edges; intros H; repeat match type of H with context [if ?c then _ else _] => destruct c end;
    rewrite ?elem_of_cons, ?elem_of_nil in H; destruct_or?; simplify_eq; auto; contradiction.
Qed.

Lemma edge_unique t e w b w' b' : (e, w, b) ∈ edges t -> (e, w', b') ∈ edges t -> w = w' /\ b = b'.
Proof using.
  unfold edges; intros H H'; repeat match type of H with context [if ?c then _ else _] => destruct c end;
    rewrite ?elem_of_cons, ?elem_of_nil in H, H'; destruct_or?; simplify_eq; auto; contradiction.
Qed.

Lemma state_cases c fin t : inv c fin -> in_prog t -> (state_of c t = 0 /\ (t ∉ insn_stack c) /\ (t ∉ fin)) \/ (t ∈ insn_stack c /\ (t ∉ fin) /\ 16 <= state_of c t <= 18) \/ (t ∈ fin /\ (t ∉ insn_stack c) /\ state_of c t = 32).
Proof using.
  intros I T; pose proof (iv_nodup _ _ I) as N; apply NoDup_app in N as (_ & N & _).
  destruct (decide (t ∈ insn_stack c)) as [S|S]; [right; left; split; [exact S|split; [exact (N t S)|exact (iv_open _ _ I t S)]]|].
  destruct (decide (t ∈ fin)) as [F|F]; [right; right; split; [exact F|split; [exact S|exact (iv_done _ _ I t F)]]|left; split; [exact (iv_new _ _ I t T S F)|auto]].
Qed.

(** The marks do not matter. *)
Lemma inv_aux c c' fin : insn_state c' = insn_state c -> insn_stack c' = insn_stack c -> inv c fin -> inv c' fin.
Proof using.
  intros Es Ek [A1 A2 A3 A4 A5 A6 A7 A8 A9 A10 A11]; assert (S : forall t, state_of c' t = state_of c t) by (intros t; unfold state_of; rewrite Es; reflexivity).
  split; rewrite ?Es, ?Ek; trivial; try (intros; rewrite S; auto).
  - intros above t below E e w b He Hs; rewrite S in Hs; specialize (A8 above t below E e w b He Hs); unfold settled in *; rewrite Ek; exact A8.
Qed.

(** What is left to do for an instruction on top of the stack. *)
Definition top (c : cfg) (t : Z) (below : list Z) : Prop := insn_stack c = t :: below.

(** All the edges of [t] before the one of kind [e] are settled. *)
Definition settled_below (c : cfg) (fin : list Z) (t e : Z) : Prop := forall e' w b, (e', w, b) ∈ edges t -> e' < e -> settled c fin [] w b.

Lemma state_set c t v u : in_prog t -> in_prog u -> length (insn_state c) = length insns -> state_of (set_state t v c) u = (if u =? t then v else state_of c u).
Proof using.
  intros Ht Hu L; unfold state_of, set_state, in_prog in *; cbn; destruct (Z.eqb_spec u t) as [->|N]; [apply list_lookup_total_insert_eq; lia|apply list_lookup_total_insert_ne; lia].
Qed.

Lemma top_settled c fin t below w b above : inv c fin -> top c t below -> insn_stack c = above ++ t :: below -> settled c fin [] w b -> settled c fin above w b.
Proof using. intros _ _ _ [R [F|[A|L]]]; (split; [exact R|]); [left; exact F|inversion A|right; right; exact L]. Qed.

(** The state of the top goes up to [DISCOVERED + e]. *)
Lemma inv_mark c fin t below e : inv c fin -> top c t below -> 0 <= e <= 2 -> settled_below c fin t (e + 1) -> inv (set_state t (DISCOVERED + e) c) fin.
Proof using.
  intros I T He Sb; pose proof (iv_len _ _ I) as Ln; pose proof (iv_nodup _ _ I) as Nd; pose proof (iv_range _ _ I) as Rg; assert (Tp : in_prog t) by (unfold top in T; rewrite T in Rg; inversion Rg; assumption).
  assert (Nt : t ∉ fin) by (apply NoDup_app in Nd as (_ & Nd & _); apply Nd; rewrite T; left).
  assert (St : forall u, in_prog u -> state_of (set_state t (DISCOVERED + e) c) u = (if u =? t then DISCOVERED + e else state_of c u)) by (intros u Hu; apply state_set; assumption).
  assert (Pr : forall u, u ∈ insn_stack c ++ fin -> in_prog u) by (apply Forall_forall; exact Rg).
  destruct I as [A1 A2 A3 A4 A5 A6 A7 A8 A9 A10 A11]; split; trivial; cbn [insn_state insn_stack set_state].
  - rewrite length_insert; exact A1.
  - intros u Hu Ns Nf; rewrite St by exact Hu; destruct (Z.eqb_spec u t) as [->|]; [exfalso; apply Ns; rewrite T; left|auto].
  - intros u Hu; rewrite St by (apply Pr, elem_of_app; auto); destruct (u =? t); [change (DISCOVERED .| BRANCH) with 18; lia|auto].
  - intros u Hu; rewrite St by (apply Pr, elem_of_app; auto); destruct (Z.eqb_spec u t) as [->|]; [contradiction|auto].
  - intros above u bl E e' w b Hw Hs; rewrite St in Hs by (apply Pr, elem_of_app; left; rewrite E; apply elem_of_app; right; left); destruct (Z.eqb_spec u t) as [->|N].
    + destruct (Sb e' w b Hw ltac:(lia)) as [R [F|[A|L]]]; [split; [exact R|left; exact F]|inversion A|split; [exact R|right; right; exact L]].
    + exact (A8 above u bl E e' w b Hw Hs).
Qed.

Lemma inv_push c fin t below e w b : inv c fin -> top c t below -> (e, w, b) ∈ edges t -> in_prog w -> state_of c w = 0 ->
  settled_below c fin t e -> inv (push w (set_state w DISCOVERED (set_state t (DISCOVERED + e) c))) fin.
Proof using root_edge.
  intros I T Ed Wp W0 Sb; pose proof (iv_len _ _ I) as Ln; pose proof (iv_nodup _ _ I) as Nd; pose proof (iv_range _ _ I) as Rg.
  assert (Tp : in_prog t) by (unfold top in T; rewrite T in Rg; inversion Rg; assumption); assert (Ts : t ∈ insn_stack c) by (rewrite T; left).
  assert (Pr : forall u, u ∈ insn_stack c ++ fin -> in_prog u) by (apply Forall_forall; exact Rg).
  assert (Wn : w ∉ insn_stack c ++ fin).
  { intros In; apply elem_of_app in In as [In|In]; [pose proof (iv_open _ _ I w In)|pose proof (iv_done _ _ I w In)]; lia. }
  assert (Wt : w <> t) by (intros ->; apply Wn, elem_of_app; auto); set (c1 := push _ _).
  assert (St : forall u, in_prog u -> state_of c1 u = (if u =? w then DISCOVERED else if u =? t then DISCOVERED + e else state_of c u)).
  { intros u Hu; change (state_of c1 u) with (state_of (set_state w DISCOVERED (set_state t (DISCOVERED + e) c)) u).
    rewrite state_set by (trivial; cbn; rewrite length_insert; exact Ln); rewrite state_set by assumption; reflexivity. }
  assert (Nt : t ∉ fin) by (apply NoDup_app in Nd as (_ & Nd & _); exact (Nd t Ts)); pose proof (edge_kind _ _ _ _ Ed) as Ke.
  assert (Ek : insn_stack c1 = w :: insn_stack c) by reflexivity; unfold top in T; destruct I as [A1 A2 A3 A4 A5 A6 A7 A8 A9 A10 A11]; split; rewrite ?Ek.
  - unfold c1; cbn; rewrite !length_insert; exact A1.
  - constructor; assumption.
  - constructor; assumption.
  - intros u Hu Ns Nf; rewrite not_elem_of_cons in Ns; destruct Ns as [N1 N2]; rewrite St by exact Hu; destruct (Z.eqb_spec u w); [contradiction|]; destruct (Z.eqb_spec u t) as [->|]; [contradiction|auto].
  - intros u Hu; change (DISCOVERED .| BRANCH) with 18; apply elem_of_cons in Hu as [->|Hu]; [rewrite St, Z.eqb_refl by exact Wp; lia|rewrite St by (apply Pr, elem_of_app; auto)].
    destruct (u =? w); [lia|]; destruct (u =? t); [lia|exact (A5 u Hu)].
  - intros u Hu; rewrite St by (apply Pr, elem_of_app; auto); destruct (Z.eqb_spec u w) as [->|]; [exfalso; apply Wn, elem_of_app; auto|]; destruct (Z.eqb_spec u t) as [->|]; [contradiction|auto].
  - constructor; [|assumption]; rewrite T in A7; inversion A7 as [|? ? Rt _]; eapply rtc_r; [exact Rt|split; [exact Tp|eauto]].
  - intros above u bl E e' w' b' Hw Hs; destruct above as [|x above]; injection E as Ex E.
    { subst u; rewrite St, Z.eqb_refl in Hs by exact Wp; pose proof (edge_kind _ _ _ _ Hw); lia. }
    assert (Us : u ∈ insn_stack c) by (rewrite E; apply elem_of_app; right; left); rewrite St in Hs by (apply Pr, elem_of_app; auto).
    assert (Up : forall c2 ab, settled c fin ab w' b' -> insn_stack c2 = w :: insn_stack c -> settled c2 fin (x :: ab) w' b').
    { intros c2 ab [R [F|[A|(L1 & L2 & L3)]]] E2; (split; [exact R|]); [left; exact F|right; left; right; exact A|right; right; rewrite E2; split; [exact L1|split; [exact L2|right; exact L3]]]. }
    destruct (Z.eqb_spec u w) as [->|]; [exfalso; apply Wn, elem_of_app; auto|]; destruct (Z.eqb_spec u t) as [->|N].
    + assert (above = []) as ->.
      { destruct above as [|y above]; [reflexivity|]; exfalso; rewrite T in E; injection E as <- E; rewrite T in A3; inversion A3 as [|? ? Nin _]; apply Nin, elem_of_app; left; rewrite E; apply elem_of_app; right; left. }
      destruct (Z.eq_dec e' e) as [->|Ne]; [|apply Up; [apply (Sb e' w' b' Hw); lia|exact Ek]].
      destruct (edge_unique _ _ _ _ _ _ Ed Hw) as [<- _]; rewrite <- Ex; split; [exact Wp|right; left; left].
    + apply Up; [exact (A8 above u bl E e' w' b' Hw Hs)|exact Ek].
  - intros later u before E e' w' b' Hw; destruct (A9 later u before E e' w' b' Hw) as [R [B|(L1 & L2 & [L3|L3])]]; (split; [exact R|]); [left; exact B|right..]; (split; [exact L1|split; [exact L2|]]); [left; right; exact L3|right; exact L3].
  - intros [|x above] u bl E; injection E as Ex E; [|exact (A10 above u bl E)]; subst u bl.
    destruct (root_edge t w e b Tp Ed Wp) as [Er|Er]; rewrite Er; [right; rewrite T; apply (A10 [] t below), T|left].
  - intros later u before E; destruct (A11 later u before E) as [R|[R|R]]; [auto|auto|right; right; right; exact R].
Qed.

Lemma settled_stack c c' fin above w b : insn_stack c' = insn_stack c -> settled c fin above w b -> settled c' fin above w b.
Proof using. intros E; unfold settled; rewrite E; trivial. Qed.

Lemma settled_next c fin t e w b : (e, w, b) ∈ edges t -> settled_below c fin t e -> settled c fin [] w b -> settled_below c fin t (e + 1).
Proof using.
  intros Ed Sb Sw e' w' b' Hw Hl; destruct (Z.eq_dec e' e) as [->|]; [destruct (edge_unique _ _ _ _ _ _ Ed Hw) as [<- <-]; exact Sw|apply (Sb e'); [exact Hw|lia]].
Qed.

(** What a statement of the visit of [t] leaves, with [Q] where it goes on. *)
Definition leaves (c : cfg) (fin : list Z) (t : Z) (Q : cfg -> Prop) (r : visit_result) : Prop :=
  match r with
  | Peek c' => inv c' fin /\ length (insn_stack c') = S (length (insn_stack c))
  | Err ret _ => ret < 0
  | Done c' => inv c' fin /\ insn_stack c' = insn_stack c /\ Q c'
  end.

Lemma push_insn_spec c fin t below e w b : inv c fin -> top c t below -> (e, w, b) ∈ edges t -> settled_below c fin t e ->
  leaves c fin t (fun c' => settled_below c' fin t (e + 1)) (push_insn insns capable t w e b c).
Proof using root_edge.
  intros I T Ed Sb; unfold push_insn; pose proof (edge_kind _ _ _ _ Ed) as Ke; assert (Eo : DISCOVERED .| e = DISCOVERED + e) by (destruct Ke as [-> | ->]; reflexivity).
  assert (Skip : DISCOVERED + e <= state_of c t -> leaves c fin t (fun c' => settled_below c' fin t (e + 1)) (Done c)).
  { intros L; split; [exact I|split; [reflexivity|]]; apply (settled_next c fin t e w b Ed Sb), (iv_settled _ _ I [] t below T e w b Ed L). }
  destruct (_ && _) eqn:C1; [apply andb_true_iff in C1 as [C1 C2]; apply Skip; rewrite Z.eqb_eq in C1; rewrite Z.geb_leb, Z.leb_le in C2; subst e; exact C2|clear C1].
  destruct (_ && _) eqn:C1; [apply andb_true_iff in C1 as [C1 C2]; apply Skip; rewrite Z.eqb_eq in C1; rewrite Z.geb_leb, Z.leb_le in C2; subst e; exact C2|clear C1 Skip].
  destruct (Z.ltb_spec w 0); [reflexivity|]; destruct (Z.geb_spec w n); [reflexivity|]; cbn [orb]; assert (Wp : in_prog w) by (unfold in_prog; lia).
  set (c1 := if e =? BRANCH then _ else _); assert (E1 : insn_state c1 = insn_state c /\ insn_stack c1 = insn_stack c) by (unfold c1; destruct (_ =? _); auto); clearbody c1.
  destruct E1 as [Es Ek]; pose proof (inv_aux _ _ _ Es Ek I) as I1; assert (T1 : top c1 t below) by (unfold top; rewrite Ek; exact T).
  assert (Sb1 : settled_below c1 fin t e) by (intros e' w' b' Hw Hl; apply (settled_stack c); [exact Ek|exact (Sb e' w' b' Hw Hl)]); rewrite Eo.
  destruct (state_cases c1 fin w I1 Wp) as [(S0 & _)|[(Sk & _ & S1)|(Sf & _ & S2)]].
  - rewrite S0; cbn [Z.eqb]; destruct (_ >=? _); [reflexivity|]; split; [apply (inv_push c1 fin t below e w b); assumption|cbn; rewrite Ek; reflexivity].
  - destruct (Z.eqb_spec (state_of c1 w) 0); [lia|]; assert (L : state_of c1 w .& 0xF0 = DISCOVERED).
    { assert (state_of c1 w = 16 \/ state_of c1 w = 17 \/ state_of c1 w = 18) as [-> |[-> | ->]] by lia; reflexivity. }
    rewrite L; cbn [Z.eqb Pos.eqb]; destruct b; [|reflexivity]; destruct capable eqn:Cp; [|reflexivity]; split; [exact I1|split; [exact Ek|]].
    apply (settled_next c1 fin t e w true Ed Sb1); split; [exact Wp|right; right; auto].
  - rewrite S2; cbn [Z.eqb Z.land Pos.land Pos.eqb]; assert (Sw : settled c1 fin [] w b) by (split; [exact Wp|left; exact Sf]); pose proof (settled_next c1 fin t e w b Ed Sb1 Sw) as Sn.
    split; [apply (inv_mark c1 fin t below e I1 T1); [lia|exact Sn]|split; [exact Ek|]]; intros e' w' b' Hw Hl; apply (settled_stack c1); [reflexivity|exact (Sn e' w' b' Hw Hl)].
Qed.

Lemma leaves_then c fin t (Q Q' : cfg -> Prop) r k : leaves c fin t Q r -> (forall c1, inv c1 fin -> insn_stack c1 = insn_stack c -> Q c1 -> leaves c1 fin t Q' (k c1)) ->
  leaves c fin t Q' (and_then r k).
Proof using.
  intros H Hk; destruct r as [c'|ret c'|c']; [exact H|exact H|]; destruct H as (I & E & Hq); specialize (Hk c' I E Hq); cbn [and_then]; unfold leaves in *.
  destruct (k c') as [c2|ret c2|c2]; rewrite ?E in Hk; exact Hk.
Qed.

Lemma leaves_all c fin t e r : (forall e' w b, (e', w, b) ∈ edges t -> e' < e) -> leaves c fin t (fun c' => settled_below c' fin t e) r ->
  leaves c fin t (fun c' => forall e' w b, (e', w, b) ∈ edges t -> settled c' fin [] w b) r.
Proof using.
  intros L; destruct r as [c'|ret c'|c']; trivial; intros (I & E & S); split; [exact I|split; [exact E|]]; intros e' w b Hw; exact (S e' w b Hw (L _ _ _ Hw)).
Qed.

Lemma leaves_from c c1 fin t (Q : cfg -> Prop) r : insn_stack c1 = insn_stack c -> leaves c1 fin t Q r -> leaves c fin t Q r.
Proof using. intros E H; unfold leaves in *; rewrite <- E; exact H. Qed.

Lemma visit_insn_spec c fin t below : inv c fin -> top c t below ->
  leaves c fin t (fun c' => forall e w b, (e, w, b) ∈ edges t -> settled c' fin [] w b) (visit_insn insns capable t c).
Proof using root_edge.
  intros I T; assert (S1 : forall c', settled_below c' fin t FALLTHROUGH) by (intros c' e w b Hw Hl; pose proof (edge_kind _ _ _ _ Hw); lia).
  assert (In : forall c1 i, inv c1 fin -> inv (init_explored_state i c1) fin) by (intros c1 i; apply inv_aux; reflexivity).
  assert (Ki : forall e w b, (e, w, b) ∈ edges t -> e < 3) by (intros e w b Hw; pose proof (edge_kind _ _ _ _ Hw); lia).
  assert (Sk : forall c1 c2 e, insn_stack c2 = insn_stack c1 -> settled_below c1 fin t e -> settled_below c2 fin t e) by (intros c1 c2 e E S e' w b Hw Hl; apply (settled_stack c1); [exact E|exact (S e' w b Hw Hl)]).
  unfold visit_insn; set (insn := insns !!! Z.to_nat t); set (code := insn_code insn).
  assert (Ed : edges t = edges t) by reflexivity; unfold edges at 2 in Ed; fold insn in Ed; fold code in Ed.
  destruct ((BPF_CLASS code =? BPF_JMP) || (BPF_CLASS code =? BPF_JMP32)).
  - destruct (BPF_OP code =? BPF_EXIT); [split; [exact I|split; [reflexivity|]]; intros e w b Hw; rewrite Ed in Hw; inversion Hw|].
    destruct (BPF_OP code =? BPF_CALL); [|destruct (BPF_OP code =? BPF_JA)].
    + eapply leaves_then; [apply (push_insn_spec c fin t below FALLTHROUGH _ _ I T); [rewrite Ed; left|apply S1]|]; intros c1 I1 E1 Q1; cbn beta in Q1.
      set (c2 := if t + 1 <? n then _ else _); assert (E2 : inv c2 fin /\ insn_stack c2 = insn_stack c1) by (unfold c2; destruct (_ <? _); auto); clearbody c2; destruct E2 as [I2 E2].
      destruct (insn_src insn =? BPF_PSEUDO_CALL).
      * apply (leaves_from _ (init_explored_state t c2)); [exact E2|]; apply (leaves_all _ _ _ (BRANCH + 1) _ Ki), (push_insn_spec _ fin t below); [apply In, I2|unfold top; cbn; rewrite E2, E1; exact T|rewrite Ed; right; left|].
        apply (Sk c1); [exact E2|exact Q1].
      * split; [exact I2|split; [exact E2|]]; intros e w b Hw; apply (settled_stack c1); [exact E2|]; apply (Q1 e w b Hw); rewrite Ed in Hw; apply elem_of_cons in Hw as [Hw|Hw]; [injection Hw as -> _ _; lia|inversion Hw].
    + destruct (negb _); [reflexivity|]; eapply leaves_then; [apply (push_insn_spec c fin t below FALLTHROUGH _ _ I T); [rewrite Ed; left|apply S1]|]; intros c1 I1 E1 Q1; cbn beta in Q1.
      set (c2 := if t + 1 <? n then _ else _); assert (E2 : inv c2 fin /\ insn_stack c2 = insn_stack c1) by (unfold c2; destruct (_ <? _); split; auto); clearbody c2; destruct E2 as [I2 E2].
      split; [exact I2|split; [exact E2|]]; intros e w b Hw; apply (settled_stack c1); [exact E2|]; apply (Q1 e w b Hw); rewrite Ed in Hw; apply elem_of_cons in Hw as [Hw|Hw]; [injection Hw as -> _ _; lia|inversion Hw].
    + apply (leaves_from _ (init_explored_state t c)); [reflexivity|]; eapply leaves_then; [apply (push_insn_spec _ fin t below FALLTHROUGH _ _ (In c t I) T); [rewrite Ed; left|apply S1]|]; intros c1 I1 E1 Q1; cbn beta in Q1.
      apply (leaves_all _ _ _ (BRANCH + 1) _ Ki), (push_insn_spec _ fin t below); [exact I1|unfold top; rewrite E1; exact T|rewrite Ed; right; left|exact Q1].
  - apply (leaves_all _ _ _ (FALLTHROUGH + 1)); [|apply (push_insn_spec c fin t below FALLTHROUGH _ _ I T); [rewrite Ed; left|apply S1]].
    intros e w b Hw; rewrite Ed in Hw; apply elem_of_cons in Hw as [Hw|Hw]; [injection Hw as -> _ _; lia|inversion Hw].
Qed.

(** The top is explored. *)
Lemma inv_explore c fin t below : inv c fin -> top c t below -> (forall e w b, (e, w, b) ∈ edges t -> settled c fin [] w b) ->
  inv (mk_cfg (<[Z.to_nat t := EXPLORED]> (insn_state c)) (tail (insn_stack c)) (cfg_aux c)) (t :: fin).
Proof using.
  intros I T Sa; pose proof (iv_len _ _ I) as Ln; pose proof (iv_range _ _ I) as Rg; unfold top in T; set (c1 := mk_cfg _ _ _).
  assert (Pr : forall u, u ∈ insn_stack c ++ fin -> in_prog u) by (apply Forall_forall; exact Rg); assert (Ts : t ∈ insn_stack c) by (rewrite T; left).
  assert (Tp : in_prog t) by (apply Pr, elem_of_app; auto); assert (Ek : insn_stack c1 = below) by (unfold c1; cbn; rewrite T; reflexivity).
  assert (St : forall u, in_prog u -> state_of c1 u = (if u =? t then EXPLORED else state_of c u)) by (intros u Hu; apply (state_set c); assumption).
  assert (Pm : below ++ t :: fin ≡ₚ insn_stack c ++ fin) by (rewrite T; cbn; symmetry; apply Permutation_middle).
  assert (Nd : NoDup (below ++ t :: fin)) by (rewrite Pm; apply I).
  assert (Mv : forall u, u ∈ insn_stack c \/ u ∈ fin -> u ∈ below \/ u ∈ t :: fin) by (intros u; rewrite T, !elem_of_cons; tauto).
  destruct I as [A1 A2 A3 A4 A5 A6 A7 A8 A9 A10 A11]; split; rewrite ?Ek.
  - unfold c1; cbn; rewrite length_insert; exact A1.
  - rewrite Pm; exact A2.
  - exact Nd.
  - intros u Hu Ns Nf; rewrite not_elem_of_cons in Nf; destruct Nf as [N1 N2]; rewrite St by exact Hu; destruct (Z.eqb_spec u t); [contradiction|]; apply A4; [exact Hu| |exact N2].
    rewrite T, not_elem_of_cons; auto.
  - intros u Hu; assert (u ∈ insn_stack c) by (rewrite T; right; exact Hu); rewrite St by (apply Pr, elem_of_app; auto); destruct (Z.eqb_spec u t) as [->|]; [|auto].
    exfalso; apply NoDup_app in Nd as (_ & Nd & _); apply (Nd t Hu); left.
  - intros u Hu; apply elem_of_cons in Hu as [->|Hu]; [rewrite St, Z.eqb_refl by exact Tp; reflexivity|rewrite St by (apply Pr, elem_of_app; auto)]; destruct (u =? t); auto.
  - rewrite Pm; exact A7.
  - intros above u bl E e w b Hw Hs; assert (Us : u ∈ insn_stack c) by (rewrite T, E; right; apply elem_of_app; right; left); rewrite St in Hs by (apply Pr, elem_of_app; auto).
    destruct (Z.eqb_spec u t) as [->|N]; [exfalso; apply NoDup_app in Nd as (_ & Nd & _); apply (Nd t); [rewrite E; apply elem_of_app; right; left|left]|].
    destruct (A8 (t :: above) u bl ltac:(rewrite T, E; reflexivity) e w b Hw Hs) as [R [F|[A|(L1 & L2 & L3)]]]; (split; [exact R|]).
    + left; right; exact F.
    + apply elem_of_cons in A as [->|A]; [left; left|right; left; exact A].
    + rewrite T in L3; apply elem_of_cons in L3 as [->|L3]; [left; left|right; right; rewrite Ek; auto].
  - intros later u before E e w b Hw; destruct later as [|x later]; injection E as -> E.
    + subst before; destruct (Sa e w b Hw) as [R [F|[A|(L1 & L2 & L3)]]]; (split; [exact R|]); [left; exact F|inversion A|right; split; [exact L1|split; [exact L2|apply Mv; auto]]].
    + destruct (A9 later u before E e w b Hw) as [R [B|(L1 & L2 & L3)]]; (split; [exact R|]); [left; exact B|right; split; [exact L1|split; [exact L2|apply Mv; exact L3]]].
  - intros above u bl E; apply (A10 (t :: above) u bl); rewrite T, E; reflexivity.
  - intros later u before E; destruct later as [|x later]; injection E as -> E.
    + subst before; pose proof (A10 [] u below T) as R; apply elem_of_cons in R as [R|R]; [left; exact R|right; right; exact R].
    + destruct (A11 later u before E) as [R|[R|R]]; [left; exact R|right; left; right; exact R|rewrite T in R; apply elem_of_cons in R as [->|R]; [right; left; left|right; right; exact R]].
Qed.

Lemma inv_count c fin : inv c fin -> (length (insn_stack c) + length fin <= length insns)%nat.
Proof using.
  intros I; rewrite <- length_app, <- (Nat2Z.id (length insns)), <- (length_seqZ 0 n); apply submseteq_length, NoDup_submseteq; [apply I|].
  intros t Ht; pose proof (iv_range _ _ I) as R; rewrite Forall_forall in R; specialize (R t Ht); apply elem_of_seqZ; unfold in_prog in R; lia.
Qed.

Lemma inv_start aux : (0 < length insns)%nat -> inv (cfg_start insns aux) [].
Proof using root0.
  intros Hl; assert (P0 : in_prog 0) by (unfold in_prog; lia); split; cbn [insn_state insn_stack cfg_start app].
  - rewrite length_insert, length_replicate; reflexivity.
  - repeat constructor; apply P0.
  - apply NoDup_singleton.
  - intros t Ht Ns _; unfold state_of, cfg_start; cbn; unfold in_prog in *; rewrite list_lookup_total_insert_ne by (intros E; apply Ns; replace t with 0 by lia; left).
    apply lookup_total_replicate_2; lia.
  - intros t Ht; apply list_elem_of_singleton in Ht as ->; unfold state_of, cfg_start; cbn; rewrite list_lookup_total_insert_eq by (rewrite length_replicate; lia); change (DISCOVERED .| BRANCH) with 18; lia.
  - intros t Ht; inversion Ht.
  - repeat constructor.
  - intros above t below E e w b Hw Hs; destruct above as [|x above]; [injection E as <- <-|destruct above; discriminate E]; exfalso; unfold state_of, cfg_start in Hs; cbn in Hs.
    rewrite list_lookup_total_insert_eq in Hs by (rewrite length_replicate; lia); pose proof (edge_kind _ _ _ _ Hw); lia.
  - intros later t before E; destruct later; discriminate E.
  - intros above t below E; destruct above as [|x above]; [injection E as <- <-; rewrite root0; left|destruct above; discriminate E].
  - intros later t before E; destruct later; discriminate E.
Qed.

(** The search ends; if it accepts, every instruction is explored. *)
Lemma cfg_loop_spec fuel : forall c fin, inv c fin -> (2 * length insns < fuel + length (insn_stack c) + 2 * length fin)%nat ->
  exists ret c', cfg_loop insns capable fuel c = Some (ret, c') /\ ret <= 0 /\
    (ret = 0 -> exists fin', inv c' fin' /\ insn_stack c' = [] /\ forall t, in_prog t -> t ∈ fin').
Proof using root_edge.
  induction fuel as [|fuel IH]; intros c fin I Hf; [pose proof (inv_count c fin I); lia|]; cbn [cfg_loop]; destruct (insn_stack c) as [|t below] eqn:T.
  - exists (if forallb (fun s => s =? EXPLORED) (insn_state c) then 0 else - EINVAL), c; split; [reflexivity|]; destruct (forallb _ _) eqn:F; [|split; [lia|discriminate]].
    split; [lia|intros _]; exists fin; split; [exact I|split; [exact T|]]; intros t Ht; destruct (state_cases c fin t I Ht) as [(S & _)|[(S & _)|(S & _)]]; [|rewrite T in S; inversion S|exact S].
    exfalso; rewrite forallb_forall in F; assert (L : (Z.to_nat t < length (insn_state c))%nat) by (rewrite (iv_len _ _ I); unfold in_prog in Ht; lia).
    specialize (F (state_of c t)); rewrite S in F; assert (E : (0 =? EXPLORED) = true); [apply F|discriminate E]; rewrite <- S; apply list_elem_of_In; unfold state_of.
    destruct (lookup_lt_is_Some_2 _ _ L) as [v Hv]; rewrite list_lookup_total_alt, Hv; exact (list_elem_of_lookup_2 _ _ _ Hv).
  - pose proof (visit_insn_spec c fin t below I T) as V; destruct (visit_insn insns capable t c) as [c1|ret c1|c1]; cbn [leaves] in V.
    + destruct V as [I1 E1]; apply (IH c1 fin I1); rewrite T in E1; cbn in *; lia.
    + exists ret, c1; split; [reflexivity|split; [lia|intros ->; lia]].
    + destruct V as (I1 & E1 & S1); assert (T1 : top c1 t below) by (unfold top; rewrite E1; exact T); apply (IH _ (t :: fin) (inv_explore c1 fin t below I1 T1 S1)).
      cbn [insn_stack]; rewrite T1; cbn in *; lia.
Qed.
End Search.

(** ** Accepted programs *)

(** The number of instructions explored before [t]. *)
Fixpoint rank (fin : list Z) (t : Z) : nat :=
  match fin with
  | [] => 0
  | x :: l => if x =? t then length l else rank l t
  end.

Lemma rank_split later t before : NoDup (later ++ t :: before) -> rank (later ++ t :: before) t = length before.
Proof.
  induction later as [|x l IH]; cbn; [rewrite Z.eqb_refl; reflexivity|]; intros N; apply NoDup_cons in N as [Ni N]; destruct (Z.eqb_spec x t) as [->|]; [exfalso; apply Ni, elem_of_app; right; left|exact (IH N)].
Qed.

Lemma rank_lt fin t : t ∈ fin -> (rank fin t < length fin)%nat.
Proof.
  induction fin as [|x l IH]; cbn; intros In; [inversion In|]; destruct (Z.eqb_spec x t); [lia|]; apply elem_of_cons in In as [->|In]; [contradiction|specialize (IH In); lia].
Qed.

Lemma rank_before later t before w : NoDup (later ++ t :: before) -> w ∈ before -> (rank (later ++ t :: before) w < rank (later ++ t :: before) t)%nat.
Proof.
  intros N Hw; rewrite (rank_split _ _ _ N); apply list_elem_of_split in Hw as (l1 & l2 & ->).
  replace (later ++ t :: l1 ++ w :: l2) with ((later ++ t :: l1) ++ w :: l2) in * by (rewrite <- app_assoc; reflexivity); rewrite (rank_split _ _ _ N), length_app; cbn; lia.
Qed.

(** What the search establishes: every instruction can be reached, every edge
    stays in the program, an edge that may not close a loop goes down in [rk],
    and no instruction is above the entry of its function. *)
Record flow_ok (insns : list bpf_insn) (capable : bool) (root : Z -> Z) (rk : Z -> nat) : Prop := mk_flow_ok {
  fk_reach : forall t, in_prog insns t -> reachable insns t;
  fk_edge : forall t e w b, in_prog insns t -> (e, w, b) ∈ edges insns t -> in_prog insns w /\ (b && capable = false -> (rk w < rk t)%nat);
  fk_bound : forall t, in_prog insns t -> (rk t < length insns)%nat;
  fk_root : forall t, in_prog insns t -> (rk t <= rk (root t))%nat
}.

Lemma done_flow insns capable root c fin : inv insns capable root c fin -> insn_stack c = [] -> (forall t, in_prog insns t -> t ∈ fin) -> flow_ok insns capable root (rank fin).
Proof.
  intros I E All; pose proof (iv_nodup _ _ _ _ _ I) as N; pose proof (iv_reach _ _ _ _ _ I) as R; rewrite E in N, R; cbn [app] in N, R; rewrite Forall_forall in R; split.
  - intros t Ht; apply R, All, Ht.
  - intros t e w b Ht Hw; destruct (list_elem_of_split _ _ (All t Ht)) as (later & before & Ef); destruct (iv_order _ _ _ _ _ I later t before Ef e w b Hw) as [Wp [B|(L1 & L2 & _)]]; (split; [exact Wp|]).
    + intros _; rewrite Ef in N |- *; apply rank_before; assumption.
    + intros C; rewrite L1, L2 in C; discriminate C.
  - intros t Ht; pose proof (rank_lt fin t (All t Ht)); pose proof (inv_count _ _ _ _ _ I) as Cn; rewrite E in Cn; cbn in Cn; lia.
  - intros t Ht; destruct (list_elem_of_split _ _ (All t Ht)) as (later & before & Ef); destruct (iv_root_done _ _ _ _ _ I later t before Ef) as [->|[L|S]]; [lia| |rewrite E in S; inversion S].
    apply list_elem_of_split in L as (l1 & l2 & El); rewrite Ef, El in N |- *; rewrite <- app_assoc in N |- *; cbn [app] in *.
    apply Nat.lt_le_incl, rank_before; [exact N|apply elem_of_app; right; left].
Qed.

Lemma cfg_flow insns capable root aux : (0 < length insns)%nat -> root 0 = 0 ->
  (forall t w e b, in_prog insns t -> (e, w, b) ∈ edges insns t -> in_prog insns w -> root w = root t \/ root w = w) ->
  exists ret c', cfg_loop insns capable (cfg_fuel insns) (cfg_start insns aux) = Some (ret, c') /\ ret <= 0 /\ (ret = 0 -> exists rk, flow_ok insns capable root rk).
Proof.
  intros Hl R0 Re; destruct (cfg_loop_spec insns capable root Re (cfg_fuel insns) _ [] (inv_start insns capable root R0 aux Hl)) as (ret & c' & E & Hr & Hz); [unfold cfg_fuel; cbn; lia|].
  exists ret, c'; split; [exact E|split; [exact Hr|]]; intros Z0; destruct (Hz Z0) as (fin & I & Es & All); exists (rank fin); exact (done_flow _ _ _ _ _ I Es All).
Qed.
