(* ===== verification/ProgFlow.v ===== *)
(** The flow of a program that passed the checks of its functions and of its
    control flow graph: calls do not recurse, and without loops every run is
    shorter than the program. *)
From Stdlib Require Import ZArith Lia Bool.
From stdpp Require Import base list gmap relations sorting.
From S2P Require Import Prelude Lists Bits RegState Insn Interp Env MemAccess RegArg Alu Explore HelperCall Subprogs SubprogsSound Cfg CfgSound.

Local Open Scope Z_scope.
Local Open Scope kint_scope.

(** ** The check in its environment *)

Lemma check_cfg_flow root e b e' : (0 < length (prog e))%nat -> root 0 = 0 ->
  (forall t w k l, in_prog (prog e) t -> (k, w, l) ∈ edges (prog e) t -> in_prog (prog e) w -> root w = root t \/ root w = w) ->
  check_cfg e = (inr b, e') -> b = true /\ (exists l aux, e' = set_insn_aux_data (set_alloc e l) aux) /\ exists rk, flow_ok (prog e) (bpf_capable (flags e)) root rk.
Proof.
  intros Hl R0 Re H; unfold check_cfg in H; run H; destruct (kalloc_run _ _ _ R) as [l1 ->]; clear R; run H; destruct (kalloc_run _ _ _ R) as [l2 ->]; clear R; run H; injection R as <- <-.
  cbn [prog flags insn_aux_data set_alloc] in H; destruct (cfg_flow (prog e) (bpf_capable (flags e)) root (insn_aux_data e) Hl R0 Re) as (ret & c & E & Hr & Hz); rewrite E in H; run H; injection R as _ <-.
  destruct (Z.ltb_spec ret 0); [discriminate|]; injection H as <- <-; split; [reflexivity|split; [eexists _, _; reflexivity|apply Hz; lia]].
Qed.

(** ** Entries *)

(** The last of the sorted starts that is not after [t]. *)
Fixpoint entry_in (l : list Z) (t cur : Z) : Z :=
  match l with
  | [] => cur
  | x :: l => if x <=? t then entry_in l t x else cur
  end.

Definition entry (e : bpf_verifier_env) (t : Z) : Z := entry_in (starts e) t 0.

Lemma entry_at l k t : forall cur x, StronglySorted Z.lt l -> l !! k = Some x -> x <= t -> (forall y, l !! S k = Some y -> t < y) -> entry_in l t cur = x.
Proof.
  revert l; induction k as [|k IH]; intros [|y l] cur x So Hk Hx Hn; try discriminate Hk; cbn [entry_in].
  - injection Hk as ->; destruct (Z.leb_spec x t); [|lia]; destruct l as [|z l]; [reflexivity|]; cbn [entry_in]; specialize (Hn z eq_refl); destruct (Z.leb_spec z t); [lia|reflexivity].
  - pose proof (sorted_lookup (y :: l) 0 (S k) y x So ltac:(lia) eq_refl Hk); destruct (Z.leb_spec y t); [|lia]; inversion So; subst; apply IH; [assumption|exact Hk|exact Hx|exact Hn].
Qed.

Lemma entry_func e t k : funcs_ok e -> func_of e t k -> entry e t = subprog_start e k.
Proof.
  intros O [Lk Rk]; destruct (lookup_lt_is_Some_2 _ _ Lk) as [s Hs]; assert (Es : subprog_start e k = start s) by (unfold subprog_start; rewrite Hs; reflexivity); rewrite Es in *.
  apply (entry_at (starts e) k); [apply O|apply start_at; eauto|lia|]; intros y Hy; apply start_at in Hy as (s' & Hs' & <-); unfold subprog_start in Rk; rewrite Hs' in Rk; lia.
Qed.

Lemma entry_start e x : funcs_ok e -> x ∈ starts e -> entry e x = x.
Proof.
  intros O In; apply list_elem_of_lookup in In as [k Hk]; apply (entry_at (starts e) k); [apply O|exact Hk|lia|]; intros y Hy; exact (sorted_lookup _ k (S k) x y (fo_sorted e O) ltac:(lia) Hk Hy).
Qed.

(** Calls have the one code that the first check looks for. *)
Definition known_calls (insns : list bpf_insn) : Prop :=
  Forall (fun insn => let code := insn_code insn in (BPF_CLASS code = BPF_JMP \/ BPF_CLASS code = BPF_JMP32) -> BPF_OP code = BPF_CALL -> code = BPF_JMP_CALL) insns.

Lemma fetch_insn (insns : list bpf_insn) t : in_prog insns t -> insns !! Z.to_nat t = Some (insns !!! Z.to_nat t).
Proof. intros T; apply list_lookup_lookup_total_lt; unfold in_prog in T; lia. Qed.

(** An edge is a fall through, a jump or a call. *)
Lemma edge_cases insns t k w b : (k, w, b) ∈ edges insns t -> let insn := insns !!! Z.to_nat t in
  (w = t + 1 /\ insn_code insn <> BPF_JMP_EXIT /\ insn_code insn <> BPF_JMP_JA) \/ (is_jump insn = true /\ w = t + insn_off insn + 1) \/
  ((BPF_CLASS (insn_code insn) = BPF_JMP \/ BPF_CLASS (insn_code insn) = BPF_JMP32) /\ BPF_OP (insn_code insn) = BPF_CALL /\ insn_src insn = BPF_PSEUDO_CALL /\ w = call_dest t insn).
Proof.
  cbn zeta; unfold edges; cbv zeta; set (insn := insns !!! Z.to_nat t); set (code := insn_code insn); intros H.
  destruct ((BPF_CLASS code =? BPF_JMP) || (BPF_CLASS code =? BPF_JMP32)) eqn:Cj.
  - destruct (BPF_OP code =? BPF_EXIT) eqn:Ce; [inversion H|]; assert (Ne : code <> BPF_JMP_EXIT) by (intros E; rewrite E in Ce; discriminate Ce).
    assert (J : (BPF_OP code =? BPF_CALL) = false -> is_jump insn = true) by (intros C; unfold is_jump; cbv zeta; fold code; rewrite Cj, Ce, C; reflexivity).
    destruct (BPF_OP code =? BPF_CALL) eqn:Cc; [|specialize (J eq_refl); destruct (BPF_OP code =? BPF_JA) eqn:Ca].
    + apply elem_of_cons in H as [H|H]; [left; injection H as _ -> _; split; [reflexivity|split; [exact Ne|intros E; rewrite E in Cc; discriminate Cc]]|].
      destruct (insn_src insn =? BPF_PSEUDO_CALL) eqn:Cs; [|inversion H]; apply elem_of_cons in H as [H|H]; [|inversion H]; injection H as _ -> _; right; right.
      apply orb_true_iff in Cj; rewrite !Z.eqb_eq in Cj; rewrite Z.eqb_eq in Cc, Cs; auto.
    + apply elem_of_cons in H as [H|H]; [injection H as _ -> _; auto|inversion H].
    + apply elem_of_cons in H as [H|H]; [left; injection H as _ -> _; split; [reflexivity|split; [exact Ne|intros E; rewrite E in Ca; discriminate Ca]]|].
      apply elem_of_cons in H as [H|H]; [injection H as _ -> _; auto|inversion H].
  - apply elem_of_cons in H as [H|H]; [|inversion H]; injection H as _ -> _; left; split; [reflexivity|split; intros E; rewrite E in Cj; discriminate Cj].
Qed.

Lemma entry_edge e : functions e -> known_calls (prog e) -> forall t w k b, in_prog (prog e) t -> (k, w, b) ∈ edges (prog e) t -> in_prog (prog e) w ->
  entry e w = entry e t \/ entry e w = w.
Proof.
  intros Fn Kc t w k b Tp Ed Wp; pose proof (fn_ok e Fn) as O; destruct (func_exists e t O (fn_main e Fn) Tp) as [f Ff]; pose proof (fetch_insn _ _ Tp) as Hi; set (insn := prog e !!! Z.to_nat t) in *.
  pose proof (fn_inside e Fn (Z.to_nat t) insn f Hi) as In; rewrite Z2Nat.id in In by (unfold in_prog in Tp; lia); destruct (In Ff) as [Ij Il]; clear In.
  pose proof (edge_cases _ _ _ _ _ Ed) as Ec; cbv zeta in Ec; fold insn in Ec; destruct Ec as [(-> & N1 & N2)|[(J & ->)|(Cl & Op & Sr & ->)]].
  - left; rewrite !(entry_func e _ f); trivial; destruct Ff as [Lf Rf]; split; [exact Lf|]; assert (t <> subprog_start e (S f) - 1) by (intros E; destruct (Il E); contradiction); lia.
  - left; rewrite !(entry_func e _ f); trivial; exact (Ij J).
  - right; apply entry_start; [exact O|]; pose proof (Forall_lookup_1 _ _ _ _ Kc Hi Cl Op) as Ec.
    pose proof (fn_calls e Fn (Z.to_nat t) insn Hi) as C; rewrite Z2Nat.id in C by (unfold in_prog in Tp; lia); apply C; unfold is_pseudo_call; rewrite Ec, Sr; reflexivity.
Qed.

(** ** No recursion *)

Lemma func_insns_at e f i insn : funcs_ok e -> (f < length (subprog_info e))%nat -> (i, insn) ∈ func_insns e f -> func_of e i f /\ 0 <= i /\ prog e !! Z.to_nat i = Some insn.
Proof.
  intros O Lf In; destruct (lookup_lt_is_Some_2 _ _ Lf) as [s Hs]; pose proof (start_range e f s O Hs) as Rs; apply list_elem_of_lookup in In as [k Hk]; unfold func_insns in Hk; rewrite list_lookup_imap in Hk.
  assert (E0 : subprog_start e f = start s) by (unfold subprog_start; rewrite Hs; reflexivity); rewrite E0 in Hk.
  destruct (take _ _ !! k) as [x|] eqn:Ht; [|discriminate]; injection Hk as <- ->; apply lookup_take_Some in Ht as [Ht Lk]; rewrite lookup_drop in Ht.
  pose proof (lookup_lt_Some _ _ _ Ht); split; [split; [exact Lf|rewrite E0; lia]|split; [lia|]]; rewrite <- Ht; f_equal; lia.
Qed.

Lemma call_edge insns t : in_prog insns t -> is_pseudo_call (insns !!! Z.to_nat t) = true -> (BRANCH, call_dest t (insns !!! Z.to_nat t), false) ∈ edges insns t.
Proof.
  intros T P; unfold is_pseudo_call in P; apply andb_true_iff in P as [P1 P2]; apply Z.eqb_eq in P1; unfold edges; cbv zeta; rewrite P1, P2; right; left.
Qed.

(** A callee is explored before its caller. *)
Lemma calls_down e rk : functions e -> flow_ok (prog e) (bpf_capable (flags e)) (entry e) rk -> forall f g, (f < length (subprog_info e))%nat -> calls e f g ->
  (g < length (subprog_info e))%nat /\ (rk (subprog_start e g) < rk (subprog_start e f))%nat.
Proof.
  intros Fn Fk f g Lf (i & insn & In & Pc & Fg); pose proof (fn_ok e Fn) as O; destruct (func_insns_at e f i insn O Lf In) as (Ff & I0 & Hi).
  assert (Ip : in_prog (prog e) i) by (apply lookup_lt_Some in Hi; unfold in_prog; lia); pose proof (fetch_insn _ _ Ip) as Hf; rewrite Hi in Hf; injection Hf as Hf.
  pose proof (fn_calls e Fn (Z.to_nat i) insn Hi Pc) as Cs; rewrite Z2Nat.id in Cs by exact I0.
  assert (Rd : 0 <= call_dest i insn < 2 ^ 31) by (pose proof (fo_range e O) as R; rewrite Forall_forall in R; specialize (R _ Cs); pose proof (fo_len e O); cbn in R; lia).
  pose proof (find_subprog_spec e _ O Rd) as S; rewrite Fg in S; apply start_at in S as (s & Hs & Es); split; [exact (lookup_lt_Some _ _ _ Hs)|].
  assert (subprog_start e g = call_dest i insn) as -> by (unfold subprog_start; rewrite Hs; exact Es); rewrite <- (entry_func e i f O Ff).
  pose proof (call_edge (prog e) i Ip) as Ed; rewrite <- Hf in Ed; destruct (fk_edge _ _ _ _ Fk _ _ _ _ Ip (Ed Pc)) as [_ L]; pose proof (fk_root _ _ _ _ Fk i Ip); specialize (L eq_refl); lia.
Qed.

Lemma no_recursion e rk : functions e -> flow_ok (prog e) (bpf_capable (flags e)) (entry e) rk -> forall f, (f < length (subprog_info e))%nat -> ~ tc (calls e) f f.
Proof.
  intros Fn Fk; assert (D : forall f g, tc (calls e) f g -> (f < length (subprog_info e))%nat -> (rk (subprog_start e g) < rk (subprog_start e f))%nat).
  { induction 1 as [f g C|f g h C Tc IH]; intros Lf; destruct (calls_down e rk Fn Fk f g Lf C) as [Lg L]; [exact L|specialize (IH Lg); lia]. }
  intros f Lf Tc; specialize (D f f Tc Lf); lia.
Qed.

(** ** Runs of programs without loops *)

(** The second half of a 64-bit load looks like an instruction that falls
    through. *)
Definition halves_ok (insns : list bpf_insn) : Prop :=
  forall i insn insn1, insns !! i = Some insn -> jumptable (insn_code insn) = L_LD_IMM_DW -> insns !! S i = Some insn1 -> insn_code insn1 = 0.

Definition label_ok (code : Z) : bool :=
  let class := BPF_CLASS code in
  let op := BPF_OP code in
  let jmp := (class =? BPF_JMP) || (class =? BPF_JMP32) in
  match jumptable code with
  | L_JMP_EXIT => true
  | L_JMP_CALL => jmp && negb (op =? BPF_EXIT) && (op =? BPF_CALL)
  | L_JMP_JA => jmp && negb (op =? BPF_EXIT) && negb (op =? BPF_CALL) && (op =? BPF_JA)
  | L_JMP _ _ | L_JMP32 _ _ => jmp && negb (op =? BPF_EXIT) && negb (op =? BPF_CALL) && negb (op =? BPF_JA)
  | L_JMP_CALL_ARGS | L_JMP_TAIL_CALL | L_LDX_PROBE_MEM _ | L_default => true
  | _ => negb jmp
  end.

Lemma labels code : uin 8 code -> label_ok code = true.
Proof. revert code; apply all_codes; vm_compute; reflexivity. Qed.

Lemma cond_edges insns s insn w op o x : insns !!! Z.to_nat (m_pc s) = insn ->
  ((BPF_CLASS (insn_code insn) =? BPF_JMP) || (BPF_CLASS (insn_code insn) =? BPF_JMP32)) && negb (BPF_OP (insn_code insn) =? BPF_EXIT) &&
    negb (BPF_OP (insn_code insn) =? BPF_CALL) && negb (BPF_OP (insn_code insn) =? BPF_JA) = true ->
  step_jmp w op o insn (m_regs s) (m_pc s) = Some x -> exists k b, (k, x, b) ∈ edges insns (m_pc s).
Proof.
  intros Et Lb H; apply andb_true_iff in Lb as [Lb L3]; apply andb_true_iff in Lb as [Lb L2]; apply andb_true_iff in Lb as [L0 L1]; apply negb_true_iff in L1, L2, L3.
  unfold step_jmp in H; apply bind_Some in H as (? & _ & H); apply bind_Some in H as (? & _ & H); injection H as <-.
  unfold edges; cbv zeta; rewrite Et, L0, L1, L2, L3; destruct (cond_jmp _ _ _ _); eexists _, _; [right; left|left].
Qed.

(** The next instruction is one or, after a 64-bit load, two edges further. *)
Lemma step_edges helper insns s s' : Forall insn_ok insns -> halves_ok insns -> step helper insns s = Some (Next s') ->
  in_prog insns (m_pc s) /\ ((exists k b, (k, m_pc s', b) ∈ edges insns (m_pc s)) \/
    exists k b k' b', (k, m_pc s + 1, b) ∈ edges insns (m_pc s) /\ in_prog insns (m_pc s + 1) /\ (k', m_pc s', b') ∈ edges insns (m_pc s + 1)).
Proof.
  intros Ok Hv H; unfold step in H; destruct (Z.leb_spec 0 (m_pc s)) as [P0|]; [|discriminate]; destruct (insns !! Z.to_nat (m_pc s)) as [insn|] eqn:Hi; [|discriminate]; cbn [mbind option_bind] in H.
  assert (Tp : in_prog insns (m_pc s)) by (apply lookup_lt_Some in Hi; unfold in_prog; lia); split; [exact Tp|]; assert (Et : insns !!! Z.to_nat (m_pc s) = insn) by (rewrite list_lookup_total_alt, Hi; reflexivity).
  assert (Oi : insn_ok insn) by exact (Forall_lookup_1 _ _ _ _ Ok Hi); pose proof (labels (insn_code insn) ltac:(apply Oi)) as Lb; unfold label_ok in Lb; cbv zeta in Lb.
  set (jmp := (BPF_CLASS (insn_code insn) =? BPF_JMP) || (BPF_CLASS (insn_code insn) =? BPF_JMP32)) in *.
  assert (Fall : negb jmp = true -> edges insns (m_pc s) = [(FALLTHROUGH, m_pc s + 1, false)]) by (intros C; unfold edges; cbv zeta; rewrite Et; fold jmp; destruct jmp; [discriminate|reflexivity]).
  assert (Next1 : negb jmp = true -> m_pc s' = m_pc s + 1 -> exists k b, (k, m_pc s', b) ∈ edges insns (m_pc s)) by (intros C ->; rewrite (Fall C); eexists _, _; left).
  destruct (jumptable (insn_code insn)) eqn:L; try discriminate H; repeat match type of H with
    | (_ ≫= _) = _ => apply bind_Some in H as (? & ? & H)
    | (let '(_, _) := ?p in _) = _ => destruct p
    end; try (injection H as <-; cbn [m_pc] in *; left; apply (Next1 Lb); reflexivity).
  - injection H as <-; apply andb_true_iff in Lb as [Lb L2]; apply andb_true_iff in Lb as [L0 L1]; apply negb_true_iff in L1.
    left; exists FALLTHROUGH, false; unfold edges; cbv zeta; rewrite Et; fold jmp; rewrite L0, L1, L2; left.
  - discriminate H.
  - injection H as <-; left; eapply cond_edges; [exact Et|exact Lb|eassumption].
  - injection H as <-; left; eapply cond_edges; [exact Et|exact Lb|eassumption].
  - injection H as <-; apply andb_true_iff in Lb as [Lb L3]; apply andb_true_iff in Lb as [Lb L2]; apply andb_true_iff in Lb as [L0 L1]; apply negb_true_iff in L1, L2.
    left; exists FALLTHROUGH, true; unfold edges; cbv zeta; rewrite Et; fold jmp; rewrite L0, L1, L2, L3; left.
  - injection H as <-; right; cbn [m_pc]; match goal with H1 : insns !! Z.to_nat (m_pc s + 1) = Some ?i1 |- _ => rename H1 into Hi1; set (insn1 := i1) in * end.
    assert (Tp1 : in_prog insns (m_pc s + 1)) by (apply lookup_lt_Some in Hi1; unfold in_prog in *; lia); exists FALLTHROUGH, false, FALLTHROUGH, false; rewrite (Fall Lb); split; [left|split; [exact Tp1|]].
    assert (C1 : insn_code insn1 = 0) by (apply (Hv _ _ insn1 Hi L); rewrite <- Hi1; f_equal; lia); assert (Et1 : insns !!! Z.to_nat (m_pc s + 1) = insn1) by (rewrite list_lookup_total_alt, Hi1; reflexivity).
    unfold edges; cbv zeta; rewrite Et1, C1; replace (m_pc s + 1 + 1) with (m_pc s + 2) by lia; left.
Qed.

Lemma runs_down helper insns capable root rk s s' : capable = false -> Forall insn_ok insns -> halves_ok insns -> flow_ok insns capable root rk ->
  step helper insns s = Some (Next s') -> in_prog insns (m_pc s) /\ in_prog insns (m_pc s') /\ (rk (m_pc s') < rk (m_pc s))%nat.
Proof.
  intros Cp Ok Hv Fk H; destruct (step_edges helper insns s s' Ok Hv H) as [Tp [(k & b & Ed)|(k & b & k' & b' & Ed & Tp1 & Ed1)]]; split; trivial.
  - destruct (fk_edge _ _ _ _ Fk _ _ _ _ Tp Ed) as [Wp L]; split; [exact Wp|apply L; rewrite Cp; apply andb_false_r].
  - destruct (fk_edge _ _ _ _ Fk _ _ _ _ Tp Ed) as [_ L]; destruct (fk_edge _ _ _ _ Fk _ _ _ _ Tp1 Ed1) as [Wp L1]; rewrite Cp, andb_false_r in L, L1; specialize (L eq_refl); specialize (L1 eq_refl); split; [exact Wp|lia].
Qed.

(** Without loops, no run has as many steps as the program has instructions. *)
Lemma runs_short helper insns root rk k : forall s s', Forall insn_ok insns -> halves_ok insns -> flow_ok insns false root rk ->
  nsteps (fun s s' => step helper insns s = Some (Next s')) k s s' -> (0 < k)%nat -> (k + rk (m_pc s') <= rk (m_pc s))%nat /\ in_prog insns (m_pc s).
Proof.
  induction k as [|k IH]; intros s s' Ok Hv Fk H Hk; [lia|]; inversion H as [|? x y z H1 H2]; subst; destruct (runs_down helper insns false root rk s y eq_refl Ok Hv Fk H1) as (T & _ & L); split; [|exact T].
  destruct k as [|k]; [inversion H2; subst; lia|destruct (IH y s' Ok Hv Fk H2 ltac:(lia)); lia].
Qed.
