(* ===== verification/Resolve.v ===== *)
(** Maps and kernel variables of a program: [resolve_pseudo_ldimm64] of
    kernel/bpf/verifier.c, which replaces the file descriptors in 64-bit loads by
    addresses and records the maps in use. *)
From Stdlib Require Import ZArith Lia Bool.
From stdpp Require Import base list gmap.
From S2P Require Import Prelude RegState Insn Env MemAccess RegArg CondJmp MemInsn HelperCall.

Local Open Scope Z_scope.
Local Open Scope kint_scope.

Abbreviation BPF_PSEUDO_MAP_FD := 1.
Abbreviation BPF_PSEUDO_MAP_VALUE := 2.
Abbreviation BPF_PSEUDO_BTF_ID := 3.
Abbreviation BPF_LD_IMM_DW := (BPF_LD .| BPF_IMM .| BPF_DW).
Abbreviation BPF_F_NO_PREALLOC := 1.
Abbreviation MAX_USED_MAPS := 64%nat.
Abbreviation EBUSY := 16.
Abbreviation BPF_MAP_TYPE_HASH := 1.
Abbreviation BPF_MAP_TYPE_ARRAY := 2.
Abbreviation BPF_MAP_TYPE_PERCPU_HASH := 5.
Abbreviation BPF_MAP_TYPE_LRU_HASH := 9.
Abbreviation BPF_MAP_TYPE_STRUCT_OPS := 26.
Abbreviation BPF_PROG_TYPE_SOCKET_FILTER := 1.
Abbreviation BPF_PROG_TYPE_KPROBE := 2.
Abbreviation BPF_PROG_TYPE_TRACEPOINT := 5.
Abbreviation BPF_PROG_TYPE_PERF_EVENT := 7.
Abbreviation BPF_PROG_TYPE_RAW_TRACEPOINT := 17.

(** What the pass reaches outside of the model: the tag of the program, the maps
    behind file descriptors (keys of the map store) and their addresses, the
    kernel variables of a type id with address, type and size or id, whether a
    map belongs to another device than the program, whether the program may
    sleep, and a kernel configuration. *)
Record resolve_ops := mk_resolve_ops {
  prog_calc_tag : Z;
  map_get : Z -> Z + Z;
  map_address : Z -> Z;
  ksym_var : Z -> Z + (Z * bpf_reg_type * Z);
  offload_mismatch : Z -> bool;
  sleepable : bool;
  preempt_rt : bool
}.

(** ** Maps and program types *)

Definition check_map_prealloc (map : bpf_map) : bool :=
  let t := map_type map in
  (negb (t =? BPF_MAP_TYPE_HASH) && negb (t =? BPF_MAP_TYPE_PERCPU_HASH) && negb (t =? BPF_MAP_TYPE_HASH_OF_MAPS)) || ((map_flags map .& BPF_F_NO_PREALLOC) =? 0).

Definition is_tracing_prog_type (t : Z) : bool :=
  existsb (Z.eqb t) [BPF_PROG_TYPE_KPROBE; BPF_PROG_TYPE_TRACEPOINT; BPF_PROG_TYPE_PERF_EVENT; BPF_PROG_TYPE_RAW_TRACEPOINT].

Definition is_preallocated_map (maps : gmap Z bpf_map) (map : bpf_map) : bool :=
  if negb (check_map_prealloc map) then false
  else if negb (inner_map_meta map =? 0) && negb (check_map_prealloc (maps !!! inner_map_meta map)) then false
  else true.

Definition check_map_prog_compatibility (ops : resolve_ops) (map : Z) : verifier unit :=
  env ← get;
  let m := maps env !!! map in
  let t := resolve_prog_type (aux env) in
  if is_tracing_prog_type t && negb (is_preallocated_map (maps env) m) && ((t =? BPF_PROG_TYPE_PERF_EVENT) || preempt_rt ops) then fail (- EINVAL)
  else if (is_tracing_prog_type t || (t =? BPF_PROG_TYPE_SOCKET_FILTER)) && map_value_has_spin_lock m then fail (- EINVAL)
  else if offload_mismatch ops map then fail (- EINVAL)
  else if map_type m =? BPF_MAP_TYPE_STRUCT_OPS then fail (- EINVAL)
  else if sleepable ops &&
    (negb (existsb (Z.eqb (map_type m)) [BPF_MAP_TYPE_HASH; BPF_MAP_TYPE_LRU_HASH; BPF_MAP_TYPE_ARRAY]) || negb (is_preallocated_map (maps env) m)) then fail (- EINVAL)
  else mret ().

Definition bpf_map_is_cgroup_storage (map : bpf_map) : bool :=
  (map_type map =? BPF_MAP_TYPE_CGROUP_STORAGE) || (map_type map =? BPF_MAP_TYPE_PERCPU_CGROUP_STORAGE).

(** Only maps not in use so far are assigned, so that a map of the same type was
    assigned before if one is in use. *)
Definition bpf_cgroup_storage_assign (maps : gmap Z bpf_map) (used : list Z) (map : Z) : Z :=
  if existsb (fun m => map_type (maps !!! m) =? map_type (maps !!! map)) used then - EBUSY else 0.

(** ** Loads *)

Definition set_imm (insn : bpf_insn) (v : Z) : bpf_insn := mk_insn (insn_code insn) (insn_dst insn) (insn_src insn) (insn_off insn) v.

(** The address goes into the immediates of the load at [i]. *)
Definition store_addr (i : nat) (addr : Z) : verifier unit := modify (fun env =>
  set_prog env (alter (fun insn => set_imm insn (s32 (Z.shiftr addr 32))) (S i) (alter (fun insn => set_imm insn (s32 (u32 addr))) i (prog env)))).

Definition upd_aux_of (i : nat) (f : bpf_insn_aux_data -> bpf_insn_aux_data) : verifier unit :=
  modify (fun env => set_insn_aux_data env (alter f i (insn_aux_data env))).

Definition set_btf_var (a : bpf_insn_aux_data) (t : bpf_reg_type) (v : Z) : bpf_insn_aux_data :=
  mk_aux (ptr_type a) (map_ptr_state a) (map_index a) (map_off a) t v (alu_limit a) (map_key_state a) (ctx_field_size a) (seen a) (sanitize_stack_spill a) (zext_dst a)
    (alu_state a) (prune_point a).

Definition check_pseudo_btf_id (acc : access_ops) (ops : resolve_ops) (i : nat) (insn insn1 : bpf_insn) : verifier unit :=
  if negb (btf_vmlinux acc) then fail (- EINVAL)
  else if negb (insn_imm insn1 =? 0) then fail (- EINVAL)
  else
    match ksym_var ops (u32 (insn_imm insn)) with
    | inl err => fail err
    | inr (addr, t, v) => _ ← store_addr i addr; upd_aux_of i (fun a => set_btf_var a t v)
    end.

(** The address behind a load of a map or of a value of it. *)
Definition map_load_addr (acc : access_ops) (ops : resolve_ops) (i : nat) (insn insn1 : bpf_insn) (map : Z) : verifier Z :=
  if insn_src insn =? BPF_PSEUDO_MAP_FD then mret (u64 (map_address ops map))
  else
    env ← get;
    let off := u32 (insn_imm insn1) in
    if off >=? BPF_MAX_VAR_OFF then fail (- EINVAL)
    else
      match map_direct_value_addr acc (map_type (maps env !!! map)) with
      | None => fail (- EINVAL)
      | Some f =>
        match f (maps env !!! map) off with
        | inl err => fail err
        | inr addr => _ ← upd_aux_of i (fun a => set_map_off a off); mret (u64 (addr + off))
        end
      end.

(** The index of the map among those in use, where it is added if it is new. *)
Definition record_map (i : nat) (map : Z) : verifier unit :=
  env ← get;
  match list_find (fun m => m = map) (used_maps env) with
  | Some (j, _) => upd_aux_of i (fun a => set_map_index a (Z.of_nat j))
  | None =>
    if (MAX_USED_MAPS <=? length (used_maps env))%nat then fail (- E2BIG)
    else
      _ ← upd_aux_of i (fun a => set_map_index a (Z.of_nat (length (used_maps env))));
      _ ← modify (fun env => set_used_maps env (used_maps env ++ [map]));
      if bpf_map_is_cgroup_storage (maps env !!! map) && negb (bpf_cgroup_storage_assign (maps env) (used_maps env) map =? 0) then fail (- EBUSY) else mret ()
  end.

Definition resolve_load (acc : access_ops) (ops : resolve_ops) (i : nat) (insn insn1 : bpf_insn) : verifier unit :=
  if insn_src insn =? 0 then mret ()
  else if insn_src insn =? BPF_PSEUDO_BTF_ID then check_pseudo_btf_id acc ops i insn insn1
  else if (negb (insn_src insn =? BPF_PSEUDO_MAP_FD) && negb (insn_src insn =? BPF_PSEUDO_MAP_VALUE)) ||
    ((insn_src insn =? BPF_PSEUDO_MAP_FD) && negb (insn_imm insn1 =? 0)) then fail (- EINVAL)
  else
    match map_get ops (insn_imm insn) with
    | inl err => fail err
    | inr map =>
      _ ← check_map_prog_compatibility ops map;
      addr ← map_load_addr acc ops i insn insn1 map;
      _ ← store_addr i addr;
      record_map i map
    end.

(** ** The pass *)

Definition reserved_fields (insn : bpf_insn) : bool :=
  let code := insn_code insn in
  ((BPF_CLASS code =? BPF_LDX) && (negb (BPF_MODE code =? BPF_MEM) || negb (insn_imm insn =? 0))) ||
  ((BPF_CLASS code =? BPF_STX) && ((negb (BPF_MODE code =? BPF_MEM) && negb (BPF_MODE code =? BPF_XADD)) || negb (insn_imm insn =? 0))).

Definition half_ok (insn1 : bpf_insn) : bool := (insn_code insn1 =? 0) && (insn_dst insn1 =? 0) && (insn_src insn1 =? 0) && (insn_off insn1 =? 0).

(** From instruction [i] on, at most [fuel] iterations; every one of them goes at
    least one instruction further. *)
Fixpoint resolve_insns (acc : access_ops) (ops : resolve_ops) (fuel i : nat) : verifier unit :=
  match fuel with
  | O => mret ()
  | S fuel =>
    env ← get;
    match prog env !! i with
    | None => mret ()
    | Some insn =>
      if reserved_fields insn then fail (- EINVAL)
      else if insn_code insn =? BPF_LD_IMM_DW then
        match prog env !! S i with
        | None => fail (- EINVAL)
        | Some insn1 =>
          if negb (half_ok insn1) then fail (- EINVAL)
          else _ ← resolve_load acc ops i insn insn1; resolve_insns acc ops fuel (S (S i))
        end
      else if negb (bpf_opcode_in_insntable (insn_code insn)) then fail (- EINVAL)
      else resolve_insns acc ops fuel (S i)
    end
  end.

Definition resolve_pseudo_ldimm64 (acc : access_ops) (ops : resolve_ops) : verifier unit :=
  if negb (prog_calc_tag ops =? 0) then fail (prog_calc_tag ops)
  else env ← get; resolve_insns acc ops (length (prog env)) 0.
