(* ===== verification/DoCheck.v ===== *)
(** The loop of the verifier: [do_check] of kernel/bpf/verifier.c with the
    instructions that are neither arithmetic, memory accesses nor conditional
    jumps ([check_ld_imm], [check_ld_abs], calls of and returns from functions
    of the program, exits), one instruction of one path at a time. *)
From Stdlib Require Import ZArith Lia Bool.
From stdpp Require Import base list gmap.
From S2P Require Import Prelude Bits Tnum Bounds RegState Insn Env MemAccess RegArg Precision Alu CondJmp StackAccess MemInsn Pruning Explore HelperCall Subprogs.

Local Open Scope Z_scope.
Local Open Scope kint_scope.

Abbreviation BPF_COMPLEXITY_LIMIT_INSNS := 1000000.
Abbreviation BPF_PSEUDO_MAP_FD := 1.
Abbreviation BPF_PSEUDO_MAP_VALUE := 2.
Abbreviation BPF_PSEUDO_BTF_ID := 3.
Abbreviation EAGAIN := 11.

(** What the loop reaches outside of the model: the accesses of the program
    type, a signal that interrupts the run, the checks of the device a program
    is bound to, the type information of global functions, whether the program
    type expands packet loads, and what helper calls reach. *)
Record check_ops := mk_check_ops {
  ck_access : access_ops;
  signal_pending : bpf_verifier_env -> bool;
  offload_verify_insn : option (Z -> Z -> Z);
  btf_check_func_arg_match : Z -> list bpf_reg_state -> Z;
  btf_prepare_func_args : Z -> list bpf_reg_state -> Z + list bpf_reg_state;
  gen_ld_abs : bool;
  ck_helper : helper_ops
}.

(** ** Loads of 64-bit immediates *)

Definition next_insn (env : bpf_verifier_env) : bpf_insn := prog env !!! Z.to_nat (insn_idx env + 1).

Definition imm64 (insn insn1 : bpf_insn) : Z := ushl 64 (u64 (insn_imm insn1)) 32 .| u32 (insn_imm insn).

Definition check_ld_imm (insn : bpf_insn) : verifier unit :=
  env ← get;
  let aux := insn_aux_data env !!! Z.to_nat (insn_idx env) in
  let dst := insn_dst insn in
  if negb (BPF_SIZE (insn_code insn) =? BPF_DW) then fail (- EINVAL)
  else if negb (insn_off insn =? 0) then fail (- EINVAL)
  else
    _ ← check_reg_arg dst DST_OP;
    if insn_src insn =? 0 then
      _ ← upd_reg dst (fun reg => set_type reg SCALAR_VALUE);
      upd_reg dst (fun reg => __mark_reg_known reg (imm64 insn (next_insn env)))
    else if insn_src insn =? BPF_PSEUDO_BTF_ID then
      _ ← mark_reg_known_zero dst;
      _ ← upd_reg dst (fun reg => set_type reg (btf_var_type aux));
      match btf_var_type aux with
      | PTR_TO_MEM | PTR_TO_BTF_ID | PTR_TO_PERCPU_BTF_ID => upd_reg dst (fun reg => set_raw reg (btf_var_arg aux))
      | _ => fail (- EFAULT)
      end
    else
      let map := used_maps env !!! Z.to_nat (map_index aux) in
      _ ← mark_reg_known_zero dst;
      _ ← upd_reg dst (fun reg => set_raw reg map);
      if insn_src insn =? BPF_PSEUDO_MAP_VALUE then
        _ ← upd_reg dst (fun reg => set_type reg PTR_TO_MAP_VALUE);
        _ ← upd_reg dst (fun reg => set_off reg (s32 (map_off aux)));
        when (map_value_has_spin_lock (maps env !!! map)) (fresh_id dst)
      else if insn_src insn =? BPF_PSEUDO_MAP_FD then upd_reg dst (fun reg => set_type reg CONST_PTR_TO_MAP)
      else fail (- EINVAL).

(** ** Packet loads *)

(** BPF_PROG_TYPE_SOCKET_FILTER, SCHED_CLS and SCHED_ACT. *)
Definition may_access_skb (t : Z) : bool := (t =? 1) || (t =? 3) || (t =? 4).

Definition check_ld_abs (ops : check_ops) (insn : bpf_insn) : verifier unit :=
  let ctx_reg := BPF_REG_6 in
  let mode := BPF_MODE (insn_code insn) in
  env ← get;
  if negb (may_access_skb (resolve_prog_type (aux env))) then fail (- EINVAL)
  else if negb (gen_ld_abs ops) then fail (- EINVAL)
  else if negb (insn_dst insn =? BPF_REG_0) || negb (insn_off insn =? 0) || (BPF_SIZE (insn_code insn) =? BPF_DW) ||
          ((mode =? BPF_ABS) && negb (insn_src insn =? BPF_REG_0)) then fail (- EINVAL)
  else
    _ ← check_reg_arg ctx_reg SRC_OP;
    _ ← check_reference_leak;
    env ← get;
    if negb (active_spin_lock (cur_state env) =? 0) then fail (- EINVAL)
    else if negb (type_eqb (type_ (get_reg env ctx_reg)) PTR_TO_CTX) then fail (- EINVAL)
    else
      _ ← when (mode =? BPF_IND) (check_reg_arg (insn_src insn) SRC_OP);
      reg ← reg_of ctx_reg;
      _ ← check_ctx_reg reg;
      _ ← clear_caller_saved_regs;
      _ ← mark_reg_unknown BPF_REG_0;
      env ← get;
      upd_reg BPF_REG_0 (fun reg => set_subreg_def reg (s32 (u32 (insn_idx env + 1)))).

(** ** Functions of the program *)

Definition init_reg_state (fl : env_flags) (frameno : Z) : list bpf_reg_state :=
  imap (fun i (reg : bpf_reg_state) =>
    let reg := set_subreg_def (set_parent (set_live (__mark_reg_not_init fl reg) REG_LIVE_NONE) None) DEF_NOT_SUBREG in
    if (i =? 10)%nat then set_frameno (__mark_reg_known_zero (set_type reg PTR_TO_STACK)) frameno else reg)
    (replicate 11 inhabitant).

Definition init_func_state (fl : env_flags) (callsite frameno subprogno : Z) : bpf_func_state :=
  mk_func (init_reg_state fl frameno) callsite frameno subprogno [] [].

(** The references of [src] replace those of [dst], which only grows by an
    allocation. *)
Definition transfer_reference_state (dst src : list bpf_reference_state) : verifier (list bpf_reference_state) :=
  _ ← (if (length dst <? length src)%nat then kalloc else mret ()); mret src.

Definition check_func_call (ops : check_ops) (insn : bpf_insn) : verifier unit :=
  env ← get;
  let cur := curframe (cur_state env) in
  if (MAX_CALL_FRAMES <=? cur + 1)%nat then fail (- E2BIG)
  else
    let target_insn := insn_idx env + insn_imm insn in
    match find_subprog env (target_insn + 1) with
    | None => fail (- EFAULT)
    | Some subprog =>
      if (S cur <? length (frame (cur_state env)))%nat then fail (- EFAULT)
      else
        let is_global := match func_info_global (attach env) with Some l => l !!! subprog | None => false end in
        let err := btf_check_func_arg_match ops (Z.of_nat subprog) (cur_regs env) in
        if err =? - EFAULT then fail err
        else if is_global && negb (err =? 0) then fail err
        else if is_global then
          _ ← clear_caller_saved_regs;
          _ ← mark_reg_unknown BPF_REG_0;
          upd_reg BPF_REG_0 (fun reg => set_subreg_def reg DEF_NOT_SUBREG)
        else
          _ ← kalloc;
          _ ← upd_cur_state (fun st => set_frame st (frame st ++ [init_func_state (flags env) (insn_idx env) (Z.of_nat (S cur)) (Z.of_nat subprog)]));
          rs ← transfer_reference_state [] (refs (cur_func env));
          _ ← upd_frame (S cur) (fun callee => set_refs callee rs);
          _ ← upd_frame (S cur) (fun callee =>
                set_regs callee (imap (fun i reg => if (1 <=? i)%nat && (i <=? 5)%nat then cur_regs env !!! i else reg) (regs callee)));
          _ ← clear_caller_saved_regs;
          _ ← upd_cur_state (fun st => set_curframe st (S cur));
          modify (fun env => set_insn_idx env target_insn)
    end.

Definition prepare_func_exit : verifier unit :=
  env ← get;
  let cur := curframe (cur_state env) in
  let callee := cur_func env in
  let r0 := get_reg env BPF_REG_0 in
  if type_eqb (type_ r0) PTR_TO_STACK then fail (- EINVAL)
  else
    _ ← upd_cur_state (fun st => set_curframe st (pred cur));
    _ ← upd_reg BPF_REG_0 (fun _ => r0);
    env ← get;
    rs ← transfer_reference_state (refs (cur_func env)) (refs callee);
    _ ← upd_frame (pred cur) (fun caller => set_refs caller rs);
    _ ← modify (fun env => set_insn_idx env (callsite callee + 1));
    upd_cur_state (fun st => set_frame st (take cur (frame st))).

(** ** The return value *)

(** The range of the return value by program type (bpf_prog_type) and attach
    type (bpf_attach_type), with the part of it that the attach type has to be
    enforced for.  [inr None]: any value. *)
Definition return_range (ty attach_type btf_id : Z) : Z + option (tnum * tnum) :=
  let ok r := inr (Some (r, tnum_unknown)) in
  let CGROUP_SKB := 8 in let CGROUP_SOCK := 9 in let SOCK_OPS := 13 in let CGROUP_DEVICE := 15 in let RAW_TRACEPOINT := 17 in
  let CGROUP_SOCK_ADDR := 18 in let CGROUP_SYSCTL := 23 in let CGROUP_SOCKOPT := 25 in let TRACING := 26 in let SK_LOOKUP := 30 in
  let INET_EGRESS := 1 in let UDP4_RECVMSG := 19 in let UDP6_RECVMSG := 20 in let TRACE_RAW_TP := 23 in let TRACE_FENTRY := 24 in
  let TRACE_FEXIT := 25 in let MODIFY_RETURN := 26 in let TRACE_ITER := 28 in let INET4_GETPEERNAME := 29 in let INET6_GETPEERNAME := 30 in
  let INET4_GETSOCKNAME := 31 in let INET6_GETSOCKNAME := 32 in
  if ty =? CGROUP_SOCK_ADDR then
    ok (if existsb (Z.eqb attach_type) [UDP4_RECVMSG; UDP6_RECVMSG; INET4_GETPEERNAME; INET6_GETPEERNAME; INET4_GETSOCKNAME; INET6_GETSOCKNAME]
        then tnum_range 1 1 else tnum_range 0 1)
  else if ty =? CGROUP_SKB then
    if attach_type =? INET_EGRESS then inr (Some (tnum_range 0 3, tnum_range 2 3)) else ok (tnum_range 0 1)
  else if existsb (Z.eqb ty) [CGROUP_SOCK; SOCK_OPS; CGROUP_DEVICE; CGROUP_SYSCTL; CGROUP_SOCKOPT] then ok (tnum_range 0 1)
  else if ty =? RAW_TRACEPOINT then if btf_id =? 0 then inr None else ok (tnum_const 0)
  else if ty =? TRACING then
    if (attach_type =? TRACE_FENTRY) || (attach_type =? TRACE_FEXIT) then ok (tnum_const 0)
    else if (attach_type =? TRACE_RAW_TP) || (attach_type =? MODIFY_RETURN) then inr None
    else if attach_type =? TRACE_ITER then ok (tnum_range 0 1)
    else inl (- ENOTSUPP)
  else if ty =? SK_LOOKUP then ok (tnum_range 0 1)
  else inr None.

Definition check_return_code : verifier unit :=
  env ← get;
  let ty := resolve_prog_type (aux env) in
  let STRUCT_OPS := 27 in let LSM := 29 in
  let is_subprog := negb (subprogno (frame (cur_state env) !!! 0%nat) =? 0) in
  if negb is_subprog && ((ty =? STRUCT_OPS) || (ty =? LSM)) && attach_func_void (attach env) then mret ()
  else
    _ ← check_reg_arg BPF_REG_0 SRC_OP;
    ptr ← is_pointer_value BPF_REG_0;
    if (ptr : bool) then fail (- EACCES)
    else
      reg ← reg_of BPF_REG_0;
      if is_subprog then if type_eqb (type_ reg) SCALAR_VALUE then mret () else fail (- EINVAL)
      else
        match return_range ty (expected_attach_type (attach env)) (attach_btf_id (attach env)) with
        | inl err => fail err
        | inr None => mret ()
        | inr (Some (range, enforced)) =>
          if negb (type_eqb (type_ reg) SCALAR_VALUE) then fail (- EINVAL)
          else if negb (tnum_in range (var_off reg)) then fail (- EINVAL)
          else when (negb (tnum_is_unknown enforced) && tnum_in enforced (var_off reg))
            (modify (fun env => set_attach env (set_enforce_expected_attach_type (attach env) true)))
        end.

(** ** [do_check] *)

Definition sanitize_mark_insn_seen : verifier unit := modify (fun env =>
  if speculative (cur_state env) then env
  else set_insn_aux_data env (alter (fun a => set_seen a (pass_cnt env)) (Z.to_nat (insn_idx env)) (insn_aux_data env))).

(** How an instruction ends: the next one follows, [insn_idx] is already set, or
    the path is at its end. *)
Inductive flow := FNext | FJump | FExit.

(** The fields that calls, jumps and exits reserve. *)
Definition reserved (insn : bpf_insn) : bool :=
  negb (BPF_SRC (insn_code insn) =? BPF_K) || negb (insn_imm insn =? 0) || negb (insn_src insn =? BPF_REG_0) ||
  negb (insn_dst insn =? BPF_REG_0) || (BPF_CLASS (insn_code insn) =? BPF_JMP32).

Definition check_call (ops : check_ops) (insn : bpf_insn) : verifier unit :=
  env ← get;
  if negb (BPF_SRC (insn_code insn) =? BPF_K) || negb (insn_off insn =? 0) ||
     (negb (insn_src insn =? BPF_REG_0) && negb (insn_src insn =? BPF_PSEUDO_CALL)) ||
     negb (insn_dst insn =? BPF_REG_0) || (BPF_CLASS (insn_code insn) =? BPF_JMP32) then fail (- EINVAL)
  else if negb (active_spin_lock (cur_state env) =? 0) &&
          ((insn_src insn =? BPF_PSEUDO_CALL) || negb (insn_imm insn =? BPF_FUNC_spin_unlock)) then fail (- EINVAL)
  else if insn_src insn =? BPF_PSEUDO_CALL then check_func_call ops insn
  else check_helper_call (ck_helper ops) (ck_access ops) (insn_imm insn) (insn_idx env).

Definition check_exit (insn : bpf_insn) : verifier flow :=
  env ← get;
  if reserved insn then fail (- EINVAL)
  else if negb (active_spin_lock (cur_state env) =? 0) then fail (- EINVAL)
  else if (0 <? curframe (cur_state env))%nat then _ ← prepare_func_exit; mret FJump
  else
    _ ← check_reference_leak;
    _ ← check_return_code;
    mret FExit.

Definition check_jump (ops : check_ops) (insn : bpf_insn) : verifier flow :=
  let opcode := BPF_OP (insn_code insn) in
  _ ← upd_search (fun s => mk_search (test_state_freq s) (explored_states s) (free_list s) (u32 (jmps_processed s + 1)) (prev_jmps_processed s)
        (insn_processed s) (prev_insn_processed s) (max_states_per_insn s) (total_states s) (peak_states s));
  if opcode =? BPF_CALL then _ ← check_call ops insn; mret FNext
  else if opcode =? BPF_JA then
    if reserved insn then fail (- EINVAL)
    else _ ← modify (fun env => set_insn_idx env (insn_idx env + insn_off insn + 1)); mret FJump
  else if opcode =? BPF_EXIT then check_exit insn
  else _ ← check_cond_jmp_op insn; mret FNext.

Definition check_ld (ops : check_ops) (insn : bpf_insn) : verifier flow :=
  let mode := BPF_MODE (insn_code insn) in
  if (mode =? BPF_ABS) || (mode =? BPF_IND) then _ ← check_ld_abs ops insn; mret FNext
  else if mode =? BPF_IMM then
    _ ← check_ld_imm insn;
    _ ← modify (fun env => set_insn_idx env (insn_idx env + 1));
    _ ← sanitize_mark_insn_seen;
    mret FNext
  else fail (- EINVAL).

Definition check_insn (ops : check_ops) (insn : bpf_insn) : verifier flow :=
  let class := BPF_CLASS (insn_code insn) in
  if (class =? BPF_ALU) || (class =? BPF_ALU64) then _ ← check_alu_op insn; mret FNext
  else if class =? BPF_LDX then _ ← check_ldx (ck_access ops) insn; mret FNext
  else if class =? BPF_STX then _ ← check_stx (ck_access ops) insn; mret FNext
  else if class =? BPF_ST then _ ← check_st (ck_access ops) insn; mret FNext
  else if (class =? BPF_JMP) || (class =? BPF_JMP32) then check_jump ops insn
  else if class =? BPF_LD then check_ld ops insn
  else fail (- EINVAL).

(** The end of a path: the next state is popped. *)
Definition process_bpf_exit : verifier (option Z) := _ ← update_branch_counts; pop_stack.

(** What comes before the instruction itself; [true] if the path ends because an
    explored state covers it. *)
Definition enter_insn (ops : check_ops) (prev : Z) : verifier bool :=
  _ ← modify (fun env => set_prev_insn_idx env prev);
  env ← get;
  if insn_idx env >=? Z.of_nat (length (prog env)) then fail (- EFAULT)
  else
    _ ← upd_search (fun s => mk_search (test_state_freq s) (explored_states s) (free_list s) (jmps_processed s) (prev_jmps_processed s)
          (u32 (insn_processed s + 1)) (prev_insn_processed s) (max_states_per_insn s) (total_states s) (peak_states s));
    env ← get;
    if insn_processed (search env) >? BPF_COMPLEXITY_LIMIT_INSNS then fail (- E2BIG)
    else
      covered ← is_state_visited (insn_idx env);
      if (covered : bool) then mret true
      else
        env ← get;
        if signal_pending ops env then fail (- EAGAIN)
        else
          let err := match offload_verify_insn ops with Some f => f (insn_idx env) (prev_insn_idx env) | None => 0 end in
          if negb (err =? 0) then fail err
          else _ ← sanitize_mark_insn_seen; mret false.

(** One round of the loop, from the local variable [prev_insn_idx] to its new
    value; [None] at the end of the last path. *)
Definition do_check_round (ops : check_ops) (prev : Z) : verifier (option Z) :=
  covered ← enter_insn ops prev;
  if (covered : bool) then process_bpf_exit
  else
    env ← get;
    let prev := insn_idx env in
    f ← check_insn ops (prog env !!! Z.to_nat prev);
    match f with
    | FNext => _ ← modify (fun env => set_insn_idx env (insn_idx env + 1)); mret (Some prev)
    | FJump => mret (Some prev)
    | FExit => process_bpf_exit
    end.

(** [false] when the rounds run out. *)
Fixpoint do_check_loop (ops : check_ops) (fuel : nat) (prev : Z) : verifier bool :=
  match fuel with
  | O => mret false
  | S fuel =>
    r ← do_check_round ops prev;
    match r with
    | Some prev => do_check_loop ops fuel prev
    | None => mret true
    end
  end.

(** Every round counts an instruction, and the count is limited. *)
Definition do_check (ops : check_ops) : verifier bool := do_check_loop ops (Z.to_nat (BPF_COMPLEXITY_LIMIT_INSNS + 1)) (-1).

(** ** Functions one by one *)

Abbreviation BPF_MAIN_FUNC := (-1).
Abbreviation BPF_REG_1 := 1.
Abbreviation BPF_REG_4 := 4.
Abbreviation BPF_REG_5 := 5.
Abbreviation BPF_PROG_TYPE_EXT := 28.

(** Only the two lists are emptied; the states themselves go with them. *)
Definition free_states (env : bpf_verifier_env) : bpf_verifier_env :=
  let s := search env in
  set_search (set_states env ∅) (mk_search (test_state_freq s) ∅ [] (jmps_processed s) (prev_jmps_processed s) (insn_processed s)
    (prev_insn_processed s) (max_states_per_insn s) (total_states s) (peak_states s)).

(** What is left of the run goes: the current state, the stack, the explored
    states. *)
Definition release_run (env : bpf_verifier_env) : bpf_verifier_env :=
  free_states (set_cur_freed (set_stack_size (set_head env []) (stack_size env - Z.of_nat (length (head env)))) true).

Definition finally {A} (m : verifier A) (f : bpf_verifier_env -> bpf_verifier_env) : verifier A :=
  fun env => let '(r, env) := m env in (r, f env).

(** The arguments of a global function are those of its type. *)
Definition prepare_args (ops : check_ops) (subprog : Z) : verifier unit :=
  env ← get;
  match btf_prepare_func_args ops subprog (cur_regs env) with
  | inl err => fail err
  | inr rs =>
    _ ← upd_frame 0 (fun fn => set_regs fn rs);
    for_each [BPF_REG_1; BPF_REG_2; BPF_REG_3; BPF_REG_4; BPF_REG_5] (fun i =>
      env ← get;
      if type_eqb (type_ (get_reg env i)) PTR_TO_CTX then mark_reg_known_zero i
      else if type_eqb (type_ (get_reg env i)) SCALAR_VALUE then mark_reg_unknown i
      else mret ())
  end.

Definition main_args (ops : check_ops) (subprog : Z) : verifier unit :=
  _ ← upd_reg BPF_REG_1 (fun reg => set_type reg PTR_TO_CTX);
  _ ← mark_reg_known_zero BPF_REG_1;
  env ← get;
  if btf_check_func_arg_match ops subprog (cur_regs env) =? - EFAULT then fail (- EFAULT) else mret ().

Definition initial_state (env : bpf_verifier_env) (subprog : Z) : bpf_verifier_state :=
  mk_state [init_func_state (flags env) BPF_MAIN_FUNC 0 subprog] 0 1 0%nat 0 false 0 0 [].

(** The state before a function. *)
Definition new_run (subprog : Z) : verifier unit :=
  _ ← modify (fun env => set_pass_cnt env (u32 (pass_cnt env + 1)));
  _ ← kalloc;
  _ ← kalloc;
  modify (fun env => set_cur_freed (set_cur_state env (initial_state env subprog)) false).

(** Its arguments. *)
Definition func_args (ops : check_ops) (subprog : Z) : verifier unit :=
  env ← get;
  if negb (subprog =? 0) || (prog_type (aux env) =? BPF_PROG_TYPE_EXT) then prepare_args ops subprog else main_args ops subprog.

Definition do_check_common (ops : check_ops) (subprog : Z) : verifier bool :=
  _ ← new_run subprog;
  finally (_ ← func_args ops subprog; do_check ops) release_run.

(** The global functions from the [i]th on; [false] when the rounds run out.
    [check_btf_func] makes sure that there are as many entries as functions. *)
Fixpoint check_globals (ops : check_ops) (i : nat) (globals : list bool) : verifier bool :=
  match globals with
  | [] => mret true
  | global :: globals =>
    ok ← (if (global : bool)
          then
            _ ← modify (fun env => set_insn_idx env (start (subprog_info env !!! i)));
            do_check_common ops (Z.of_nat i)
          else mret true);
    if (ok : bool) then check_globals ops (S i) globals else mret false
  end.

Definition do_check_subprogs (ops : check_ops) : verifier bool :=
  env ← get;
  match func_info_global (attach env) with
  | None => mret true
  | Some globals => check_globals ops 1 (drop 1 (take (length (subprog_info env)) globals))
  end.

Definition do_check_main (ops : check_ops) : verifier bool :=
  _ ← modify (fun env => set_insn_idx env 0);
  ok ← do_check_common ops 0;
  if (ok : bool) then
    _ ← modify (fun env =>
          let a := aux env in
          set_aux env (mk_prog_aux (prog_type a) (dst_prog_type a) (max_pkt_offset a) (max_ctx_offset a) (max_tp_access a) (max_rdonly_access a)
            (max_rdwr_access a) (stack_depth (subprog_info env !!! 0%nat)) (prog_tail_call_reachable a)));
    mret true
  else mret false.

(** All of them, the main function last, as [bpf_check] does it. *)
Definition check_functions (ops : check_ops) : verifier bool :=
  ok ← do_check_subprogs ops;
  if (ok : bool) then do_check_main ops else mret false.
