(* ===== verification/DoCheckFrame.v ===== *)
(** What the loop leaves alone, and its end.

    No round changes the program, its maps and its pruning points, and every
    round counts one instruction ([fixed_part], [round_counts]); so the limit on
    the count ends the loop. *)
From Stdlib Require Import ZArith Lia Bool.
From stdpp Require Import base list gmap.
From S2P Require Import Prelude Lists Bits Tnum Bounds RegState ScalarOps Insn Interp Env MemAccess RegArg Precision Bookkeeping Alu Frame AluFrame CondJmp StackAccess MemInsn MemFrame Pruning Explore HelperCall DoCheck.

Local Open Scope Z_scope.
Local Open Scope kint_scope.

Definition rounds (e : bpf_verifier_env) : Z := insn_processed (search e).

Definition fixed_part (e : bpf_verifier_env) := (maps e, prog e, aux_fixed <$> insn_aux_data e, used_maps e, rounds e).

#[export] Instance fixed_view : View fixed_part.
Proof.
  split; try reflexivity.
  - intros e e' H; assert (P : forall q, fixed_part (erase_env q) = fixed_part q); [|rewrite <- (P e'), <- (P e), H; reflexivity].
    intros q; unfold fixed_part; cbn; rewrite <- list_fmap_compose; reflexivity.
  - intros e f i H; unfold fixed_part; cbn; rewrite prune_alter by exact H; reflexivity.
Qed.

(** ** Jumps *)

(** Parts that are also blind to the states still to explore and to where the
    check is. *)
Class JumpView {T} (F : bpf_verifier_env -> T) : Prop := {
  jv_view :: View F;
  jv_head e l : F (set_head e l) = F e;
  jv_size e n : F (set_stack_size e n) = F e;
  jv_freed e b : F (set_cur_freed e b) = F e;
  jv_states e m : F (set_states e m) = F e;
  jv_idx e i : F (set_insn_idx e i) = F e
}.

#[export] Instance fixed_jump_view : JumpView fixed_part.
Proof. split; [exact fixed_view|reflexivity..]. Qed.

#[export] Instance id_gen_view : JumpView id_gen.
Proof. split; [split; try reflexivity; intros e e' H; exact (f_equal id_gen H)|reflexivity..]. Qed.

(** Parts that are blind to the state on top of those still to explore. *)
Class TopView {T} (F : bpf_verifier_env -> T) : Prop := {
  tv_view :: View F;
  tv_other e f : F (upd_other f e) = F e
}.

#[export] Instance jump_top_view {T} (F : bpf_verifier_env -> T) : JumpView F -> TopView F.
Proof. intros V; split; [apply V|]; intros e f; unfold upd_other; destruct (head e); [reflexivity|apply jv_head]. Qed.

#[export] Hint Extern 1 (JumpView _) => typeclasses eauto : fixes.
#[export] Hint Extern 1 (TopView _) => typeclasses eauto : fixes.

Section Top.
Context {T : Type} (F : bpf_verifier_env -> T) {V : TopView F}.

Lemma fixes_this f e : F (upd_this f e) = F e.
Proof using V. apply vw_cur. Qed.

Lemma fixes_branch_regs f e : F (upd_branch_regs f e) = F e.
Proof using V. exact (tv_other e (upd_st_regs f)). Qed.

Lemma fixes_branches r tf : fixes F (put_branches r tf).
Proof using V. intros e; unfold put_branches, modify, put_other; cbn [snd]; rewrite tv_other; apply vw_cur. Qed.

Lemma fixes_equal r : fixes F (equal_scalars r).
Proof using V. intros e; unfold equal_scalars, modify; cbn [snd]; destruct (_ && _); [rewrite tv_other; apply vw_cur|reflexivity]. Qed.

Lemma fixes_match_pkt insn : fixes F (try_match_pkt_pointers insn).
Proof using V.
  unfold try_match_pkt_pointers; fixes_auto; apply fixes_modify; intros e; match goal with |- context [if ?b then upd_this else _] => destruct b end;
    [apply fixes_this|apply tv_other].
Qed.

#[local] Hint Resolve fixes_branches fixes_equal fixes_match_pkt : fixes.

Lemma fixes_refine insn : fixes F (cond_jmp_refine insn).
Proof using V. unfold cond_jmp_refine, cond_jmp_scalars; fixes_auto; apply fixes_modify; intros e; rewrite tv_other; apply fixes_this. Qed.

Lemma fixes_pointers insn : fixes F (cond_jmp_pointers insn).
Proof using V. unfold cond_jmp_pointers; fixes_auto; apply fixes_modify; intros e; first [apply fixes_this|apply tv_other]. Qed.
End Top.

Lemma fixes_operands {T} (F : bpf_verifier_env -> T) {V : View F} insn : fixes F (cond_jmp_operands insn).
Proof. unfold cond_jmp_operands; fixes_auto. Qed.

#[export] Hint Resolve fixes_refine fixes_pointers fixes_operands : fixes.

Section Jumps.
Context {T : Type} (F : bpf_verifier_env -> T) {V : JumpView F}.

Lemma fixes_drop e : F (drop_states e) = F e.
Proof using V. unfold drop_states; rewrite jv_freed, jv_size, jv_head; reflexivity. Qed.

Lemma fixes_push a b s : fixes F (push_stack a b s).
Proof using V.
  unfold push_stack; fixes_auto; apply fixes_modify; intros e; [apply fixes_drop|rewrite jv_size, jv_head; reflexivity|apply fixes_drop|apply fixes_drop|apply jv_states].
Qed.

Lemma fixes_spec_path i a b : fixes F (sanitize_speculative_path i a b).
Proof using V.
  unfold sanitize_speculative_path; apply fixes_bind; [apply fixes_push|intros ?]; fixes_auto; apply fixes_modify; intros; apply (fixes_branch_regs F).
Qed.

#[local] Hint Resolve fixes_push fixes_spec_path : fixes.

Lemma fixes_cond_jmp insn : fixes F (check_cond_jmp_op insn).
Proof using V. unfold check_cond_jmp_op, cond_jmp_known; fixes_auto; apply fixes_modify; intros e; apply jv_idx. Qed.
End Jumps.

(** ** The other instructions *)

Lemma fixes_for_each {T A} (F : bpf_verifier_env -> T) (l : list A) f : (forall x, fixes F (f x)) -> fixes F (for_each l f).
Proof. intros H; induction l as [|x l IH]; cbn [for_each]; [apply fixes_ret|apply fixes_bind; [apply H|intros _; exact IH]]. Qed.

Section Blind.
Context {T : Type} (F : bpf_verifier_env -> T) {V : View F}.

Lemma fixes_not_init r : fixes F (mark_reg_not_init r).
Proof using V. intros e; unfold mark_reg_not_init; destruct (_ >=? _); apply vw_cur. Qed.

Lemma fixes_kalloc : fixes F kalloc.
Proof using V. unfold kalloc; fixes_auto. Qed.

Lemma fixes_cur_state f : fixes F (upd_cur_state f).
Proof using V. intros e; apply vw_cur. Qed.

Lemma fixes_leak : fixes F check_reference_leak.
Proof using V. unfold check_reference_leak; fixes_auto. Qed.

Lemma fixes_caller_saved : fixes F clear_caller_saved_regs.
Proof using V. apply fixes_for_each; intros i; apply fixes_bind; [apply fixes_not_init|intros _]; apply fixes_bind; [apply fixes_catch, fixes_reg_arg, V|intros _; apply fixes_ret]. Qed.

Lemma fixes_transfer d s : fixes F (transfer_reference_state d s).
Proof using V. unfold transfer_reference_state; fixes_auto; apply fixes_kalloc. Qed.

Lemma fixes_seen : fixes F sanitize_mark_insn_seen.
Proof using V. intros e; unfold sanitize_mark_insn_seen, modify; cbn [snd]; destruct (speculative _); [reflexivity|apply vw_insn_aux; reflexivity]. Qed.
End Blind.

#[export] Hint Resolve fixes_not_init fixes_kalloc fixes_cur_state fixes_leak fixes_caller_saved fixes_transfer fixes_seen : fixes.

Lemma fixed_fresh r : fixes fixed_part (fresh_id r).
Proof. intros e; reflexivity. Qed.

#[local] Hint Resolve fixed_fresh : fixes.

Ltac fixed_modify := apply fixes_modify; intros; reflexivity.

Lemma fixed_ld_imm insn : fixes fixed_part (check_ld_imm insn).
Proof. unfold check_ld_imm; fixes_auto. Qed.

Lemma fixed_ld_abs ops insn : fixes fixed_part (check_ld_abs ops insn).
Proof. unfold check_ld_abs, check_ctx_reg; fixes_auto. Qed.

Lemma fixed_func_call ops insn : fixes fixed_part (check_func_call ops insn).
Proof. unfold check_func_call; fixes_auto; try apply (fixes_upd_frame fixed_part); fixed_modify. Qed.

Lemma fixed_func_exit : fixes fixed_part prepare_func_exit.
Proof. unfold prepare_func_exit; fixes_auto; try apply (fixes_upd_frame fixed_part); fixed_modify. Qed.

Lemma fixed_return_code : fixes fixed_part check_return_code.
Proof. unfold check_return_code; fixes_auto. Qed.

Lemma fixed_program {A} (m : verifier A) : fixes program m -> fixes fixed_part m.
Proof. intros H e; specialize (H e); unfold fixed_part, rounds, program in *; congruence. Qed.

Section Memory.
Context (ops : access_ops).

Lemma fixed_mem i r o bs t v s : fixes fixed_part (check_mem_access ops i r o bs t v s).
Proof. apply fixed_program, program_mem_access. Qed.

#[local] Hint Resolve fixed_mem : fixes.

Lemma fixed_ldx insn : fixes fixed_part (check_ldx ops insn).
Proof. unfold check_ldx; fixes_auto; apply (fixes_ptr_type fixed_part). Qed.

Lemma fixed_stx insn : fixes fixed_part (check_stx ops insn).
Proof. unfold check_stx, check_xadd, is_ctx_reg, is_pkt_reg, is_flow_key_reg, is_sk_reg; fixes_auto; apply (fixes_ptr_type fixed_part). Qed.

Lemma fixed_st insn : fixes fixed_part (check_st ops insn).
Proof. unfold check_st, is_ctx_reg; fixes_auto. Qed.
End Memory.

(** ** Helper calls *)

(** Parts that are also blind to the ids handed out and to what is recorded for
    the attachment of the program. *)
Class CallView {T} (F : bpf_verifier_env -> T) : Prop := {
  cv_view :: View F;
  cv_gen e n : F (set_id_gen e n) = F e;
  cv_attach e a : F (set_attach e a) = F e
}.

#[export] Instance fixed_call_view : CallView fixed_part.
Proof. split; [exact fixed_view|reflexivity..]. Qed.

#[export] Hint Extern 1 (CallView _) => typeclasses eauto : fixes.

Section Helpers.
Context {T : Type} (F : bpf_verifier_env -> T) {V : View F} (ops : helper_ops).

#[local] Hint Resolve fixes_stack_range fixes_map_access fixes_region fixes_upd_aux fixes_alignment fixes_pkt_data : fixes.

Lemma fixes_helper_mem r n z raw : fixes F (check_helper_mem_access r n z raw).
Proof using V.
  unfold check_helper_mem_access, check_packet_access, check_map_access_type, check_buffer_access, __check_buffer_access, __check_mem_access; fixes_auto.
Qed.

Lemma fixes_spin_lock r b : fixes F (process_spin_lock r b).
Proof using V. unfold process_spin_lock; fixes_auto. Qed.

#[local] Hint Resolve fixes_helper_mem fixes_spin_lock : fixes.

Lemma fixes_size_arg r t m : fixes F (check_mem_size_arg r t m).
Proof using V. unfold check_mem_size_arg; fixes_auto. Qed.

Lemma fixes_arg_type f r t m : fixes F (check_arg_by_type f r t m).
Proof using V.
  unfold check_arg_by_type; apply fixes_bind; [apply fixes_get|intros e]; cbv zeta; destruct t; try apply fixes_ret; try apply fixes_size_arg; fixes_auto.
Qed.

#[local] Hint Resolve fixes_arg_type : fixes.

Lemma fixes_typed_arg f r t a m : fixes F (check_typed_arg ops f r t a m).
Proof using V.
  unfold check_typed_arg, resolve_map_arg_type, check_reg_type, check_ctx_reg; fixes_auto.
Qed.

Lemma fixes_args fn f l : forall m, fixes F (check_func_args ops fn f l m).
Proof using V.
  induction l as [|i l IH]; intros m; cbn [check_func_args]; [apply fixes_ret|]; apply fixes_bind; [|intros; apply IH].
  unfold check_func_arg, is_pointer_value; fixes_auto; apply fixes_typed_arg.
Qed.

Lemma fixes_record_map m f i : fixes F (record_func_map m f i).
Proof using V. unfold record_func_map; fixes_auto; intros e; apply vw_insn_aux; reflexivity. Qed.

Lemma fixes_record_key m f i : fixes F (record_func_key m f i).
Proof using V.
  unfold record_func_key; fixes_auto; intros e; apply vw_insn_aux; intros ?; repeat case_match; reflexivity.
Qed.

Lemma fixes_references f m : fixes F (helper_references f m).
Proof using V. unfold helper_references, release_reference; fixes_auto; apply (fixes_upd_frame F). Qed.

Lemma fixes_compatible map f : fixes F (check_map_func_compatibility map f).
Proof using V. unfold check_map_func_compatibility; fixes_auto. Qed.

Lemma fixes_pkt_pointers : fixes F clear_all_pkt_pointers.
Proof using V. unfold clear_all_pkt_pointers; fixes_auto. Qed.
End Helpers.

#[export] Hint Resolve fixes_args fixes_record_map fixes_record_key fixes_references fixes_compatible fixes_pkt_pointers : fixes.

Section Calls.
Context {T : Type} (F : bpf_verifier_env -> T) {V : CallView F} (ops : helper_ops).

Lemma fixes_fresh r : fixes F (fresh_id r).
Proof using V. intros e; etrans; [apply (fixes_upd_reg F)|apply cv_gen]. Qed.

Lemma fixes_mem acc i r o bs t v s : fixes F (check_mem_access acc i r o bs t v s).
Proof using V. unfold check_mem_access; fixes_auto; try apply (fixes_alignment F); apply (fixes_by_type F); intros _; apply cv_gen. Qed.

#[local] Hint Resolve fixes_fresh fixes_mem : fixes.

Lemma fixes_return fn m : fixes F (mark_return ops fn m).
Proof using V. unfold mark_return; cbv zeta; destruct (ret_type fn); fixes_auto. Qed.

Lemma fixes_return_ids f i m : fixes F (mark_return_ids f i m).
Proof using V.
  unfold mark_return_ids, acquire_reference_state; fixes_auto; try apply (fixes_upd_frame F); apply fixes_modify; intros e; apply cv_gen.
Qed.

Lemma fixes_callchain f : fixes F (helper_callchain ops f).
Proof using V. unfold helper_callchain; fixes_auto; apply fixes_modify; intros e; apply cv_attach. Qed.

#[local] Hint Resolve fixes_return fixes_return_ids fixes_callchain : fixes.

Lemma fixes_helper acc f i : fixes F (check_helper_call ops acc f i).
Proof using V.
  unfold check_helper_call, do_refine_retval_range; fixes_auto; apply fixes_for_each; intros; apply fixes_mem.
Qed.
End Calls.

(** ** The search *)

(** Parts that are also blind to the explored states and to how the search
    counts them. *)
Class SearchView {T} (F : bpf_verifier_env -> T) : Prop := {
  sv_view :: View F;
  sv_states e m : F (set_states e m) = F e;
  sv_walk e n : F (set_longest_mark_read_walk e n) = F e;
  sv_search e s : insn_processed s = insn_processed (search e) -> F (set_search e s) = F e
}.

#[export] Instance fixed_search : SearchView fixed_part.
Proof. split; [exact fixed_view|reflexivity..|]; intros e s H; unfold fixed_part, rounds; cbn; rewrite H; reflexivity. Qed.

(** Where the check is, what it still has to explore, and the ids handed out. *)
Definition position (e : bpf_verifier_env) := (insn_idx e, explored e).

#[export] Instance position_search : SearchView position.
Proof. split; [split; try reflexivity|reflexivity..]; intros e e' H; exact (f_equal position H). Qed.

Section Search.
Context {T : Type} (F : bpf_verifier_env -> T) {V : SearchView F}.

Lemma search_cur_read p f : fixes F (mark_cur_read p f).
Proof using V. intros e; unfold mark_cur_read; repeat case_match; simplify_eq; cbn [snd]; rewrite ?sv_walk, ?sv_states, ?vw_cur; reflexivity. Qed.

#[local] Hint Resolve search_cur_read : fixes.

Lemma search_liveness_reg p : fixes F (propagate_liveness_reg p).
Proof using V. unfold propagate_liveness_reg; fixes_auto. Qed.

Lemma search_zext_at p : fixes F (mark_insn_zext_at p).
Proof using V.
  apply fixes_modify; intros e; destruct (ref_in_state _ _); [|reflexivity]; cbv zeta; destruct (_ =? _); [reflexivity|].
  rewrite vw_cur; apply vw_insn_aux; reflexivity.
Qed.

#[local] Hint Resolve search_liveness_reg search_zext_at : fixes.

Lemma search_liveness k : fixes F (propagate_liveness k).
Proof using V.
  unfold propagate_liveness; apply fixes_bind; [apply fixes_get|intros e]; cbv zeta; apply fixes_if; [apply fixes_fail|]; apply fixes_for_each; intros fr.
  apply fixes_bind; [apply fixes_for_each; intros i; fixes_auto|intros _]; apply fixes_bind; [apply fixes_get|intros e']; apply fixes_for_each; intros i; fixes_auto.
Qed.

Lemma search_precision k : fixes F (propagate_precision k).
Proof using V.
  unfold propagate_precision; cbv zeta; apply fixes_bind; [apply fixes_get|intros e]; apply fixes_bind; [|intros _]; apply fixes_for_each; intros i;
    (apply fixes_bind; [apply fixes_get|intros e']); [destruct (deref _ _)|destruct (_ !! _)]; try apply fixes_ret; apply fixes_when; apply (fixes_same F); intros q; apply mark_chain_same.
Qed.

Lemma search_history : fixes F push_jmp_history.
Proof using V. unfold push_jmp_history; fixes_auto. Qed.

Lemma search_upd f : (forall s, insn_processed (f s) = insn_processed s) -> fixes F (upd_search f).
Proof using V. intros H e; apply sv_search, H. Qed.

Lemma search_clean i : fixes F (clean_live_states i).
Proof using V. intros e; apply sv_states. Qed.

Lemma search_store i v : fixes F (store_visit i v).
Proof using V. intros e; apply sv_search; reflexivity. Qed.

#[local] Hint Resolve search_liveness search_precision search_history search_clean search_store : fixes.

Lemma search_add i : fixes F (add_state i).
Proof using V.
  unfold add_state; apply fixes_bind; [apply (fixes_kalloc F)|intros _]; apply fixes_bind; [apply search_upd; reflexivity|intros _].
  apply fixes_bind; [apply (fixes_kalloc F)|intros _]; apply fixes_modify; intros e; rewrite vw_cur; etrans; [apply sv_search; reflexivity|apply sv_states].
Qed.

#[local] Hint Resolve search_add : fixes.

Lemma search_visited i : fixes F (is_state_visited i).
Proof using V. unfold is_state_visited; fixes_auto; apply search_upd; reflexivity. Qed.
End Search.

Lemma fixed_pop : fixes fixed_part pop_stack.
Proof. unfold pop_stack; fixes_auto; fixed_modify. Qed.

Lemma fixed_bpf_exit : fixes fixed_part process_bpf_exit.
Proof.
  apply fixes_bind; [|intros _; exact fixed_pop]; apply fixes_modify; intros e; cbv zeta; destruct (_ =? 0); reflexivity.
Qed.

(** ** Rounds *)

Section Rounds.
Context (ops : check_ops).

#[local] Hint Resolve fixed_ldx fixed_stx fixed_st fixes_cond_jmp fixed_ld_imm fixed_ld_abs fixed_func_call fixed_func_exit fixed_return_code fixes_helper : fixes.

Lemma fixed_exit insn : fixes fixed_part (check_exit insn).
Proof. unfold check_exit; fixes_auto. Qed.

#[local] Hint Resolve fixed_exit : fixes.

Lemma fixed_jump insn : fixes fixed_part (check_jump ops insn).
Proof. unfold check_jump, check_call; fixes_auto; fixed_modify. Qed.

Lemma fixed_ld insn : fixes fixed_part (check_ld ops insn).
Proof. unfold check_ld; fixes_auto; fixed_modify. Qed.

Lemma fixed_alu insn : fixes fixed_part (check_alu_op insn).
Proof. apply fixed_program, alu_fixes. Qed.

#[local] Hint Resolve fixed_jump fixed_ld fixed_alu : fixes.

Lemma fixed_insn insn : fixes fixed_part (check_insn ops insn).
Proof. unfold check_insn; fixes_auto. Qed.

(** A round that does not fail counts one instruction, within the limit. *)
Definition counted (e e' : bpf_verifier_env) : Prop :=
  maps e' = maps e /\ prog e' = prog e /\ aux_fixed <$> insn_aux_data e' = aux_fixed <$> insn_aux_data e /\ used_maps e' = used_maps e /\
  rounds e' = u32 (rounds e + 1) /\ rounds e' <= BPF_COMPLEXITY_LIMIT_INSNS.

Lemma counted_fixed e1 e2 e3 : counted e1 e2 -> fixed_part e3 = fixed_part e2 -> counted e1 e3.
Proof. unfold counted, fixed_part; intros (? & ? & ? & ? & ? & ?) E; injection E as E1 E2 E3 E4 E5; repeat split; congruence || lia. Qed.

Lemma enter_counts prev e b e' : enter_insn ops prev e = (inr b, e') -> counted e e'.
Proof.
  intros H; unfold enter_insn in H; run H; injection R as _ <-; run H; injection R as <- <-.
  match type of H with (if ?c then _ else _) _ = _ => destruct c; [discriminate|] end; run H; injection R as _ <-; run H; injection R as <- <-.
  match type of H with (if ?c then _ else _) _ = _ => destruct c eqn:C; [discriminate|] end; rewrite Z.gtb_ltb, Z.ltb_ge in C.
  run H; pose proof (fixes_run _ _ _ _ _ (search_visited fixed_part _) R) as F.
  match type of R with is_state_visited _ ?e2 = _ => apply (counted_fixed e e2); [repeat split; exact C|] end.
  etrans; [|exact F]; match type of H with (if ?c then _ else _) _ = _ => destruct c end; [injection H as _ <-; reflexivity|]; run H; injection R0 as <- <-.
  match type of H with (if ?c then _ else _) _ = _ => destruct c; [discriminate|] end; match type of H with (if ?c then _ else _) _ = _ => destruct c; [discriminate|] end.
  run H; injection H as _ <-; exact (fixes_run _ _ _ _ _ (fixes_seen fixed_part) R0).
Qed.

Lemma round_counts prev e r e' : do_check_round ops prev e = (inr r, e') -> counted e e'.
Proof.
  intros H; unfold do_check_round in H; run H; eapply counted_fixed; [exact (enter_counts _ _ _ _ R)|].
  destruct a; cbn iota in H; [exact (fixes_run _ _ _ _ _ fixed_bpf_exit H)|]; run H; injection R0 as <- <-; run H.
  pose proof (fixes_run _ _ _ _ _ (fixed_insn _) R0) as F; etrans; [|exact F].
  destruct a; cbn iota in H; [run H; injection R1 as _ <-; injection H as _ <-; reflexivity|injection H as _ <-; reflexivity|exact (fixes_run _ _ _ _ _ fixed_bpf_exit H)].
Qed.

(** The count is within the limit. *)
Definition bounded (e : bpf_verifier_env) : Prop := 0 <= rounds e <= BPF_COMPLEXITY_LIMIT_INSNS.

(** The limit ends the loop. *)
Lemma loop_ends fuel : forall prev e b e', bounded e -> BPF_COMPLEXITY_LIMIT_INSNS - rounds e < Z.of_nat fuel -> do_check_loop ops fuel prev e = (inr b, e') ->
  b = true /\ bounded e'.
Proof.
  unfold bounded; induction fuel as [|fuel IH]; intros prev e b e' Hb Hf H; [lia|]; cbn [do_check_loop] in H; run H.
  destruct (round_counts _ _ _ _ R) as (_ & _ & _ & _ & E & L); rewrite uwrap_id in E by (unfold uin; lia).
  destruct a as [prev'|]; [eapply IH; [| |exact H]; lia|injection H as <- <-; split; [reflexivity|lia]].
Qed.

Lemma bounded_fixed e e' : fixed_part e' = fixed_part e -> bounded e -> bounded e'.
Proof. unfold fixed_part, bounded; intros E; injection E as _ _ _ _ E; rewrite E; trivial. Qed.

Lemma fixed_new_run i : fixes fixed_part (new_run i).
Proof. unfold new_run; fixes_auto; fixed_modify. Qed.

Lemma fixed_func_args i : fixes fixed_part (func_args ops i).
Proof.
  unfold func_args, prepare_args, main_args; fixes_auto; try (apply fixes_for_each; intros; fixes_auto).
Qed.

Lemma common_ends i e b e' : bounded e -> do_check_common ops i e = (inr b, e') -> b = true /\ bounded e'.
Proof.
  intros B H; unfold do_check_common in H; run H; apply (bounded_fixed _ _ (fixes_run _ _ _ _ _ (fixed_new_run _) R)) in B; clear R; unfold finally in H.
  match type of H with (let '(_, _) := ?m in _) = _ => destruct m as [[err|b0] e1] eqn:D end; [discriminate H|]; injection H as <- <-.
  run D; apply (bounded_fixed _ _ (fixes_run _ _ _ _ _ (fixed_func_args _) R)) in B; clear R; unfold do_check in D.
  destruct (loop_ends (Z.to_nat (BPF_COMPLEXITY_LIMIT_INSNS + 1)) _ _ _ _ B ltac:(unfold bounded in B; lia) D) as [E B1]; split; [exact E|exact B1].
Qed.

Lemma globals_end l : forall i e b e', bounded e -> check_globals ops i l e = (inr b, e') -> b = true /\ bounded e'.
Proof.
  induction l as [|g l IH]; intros i e b e' B H; cbn [check_globals] in H; [injection H as <- <-; auto|]; run H.
  assert (C : a = true /\ bounded env).
  { destruct g; [|injection R as <- <-; auto]; run R; injection R0 as _ <-; eapply common_ends; [|exact R]; exact B. }
  destruct C as [-> B1]; exact (IH _ _ _ _ B1 H).
Qed.

(** What no check of a function changes. *)
Definition same_program (e e' : bpf_verifier_env) : Prop :=
  maps e' = maps e /\ prog e' = prog e /\ aux_fixed <$> insn_aux_data e' = aux_fixed <$> insn_aux_data e /\ used_maps e' = used_maps e.

Lemma same_trans e1 e2 e3 : same_program e1 e2 -> same_program e2 e3 -> same_program e1 e3.
Proof. unfold same_program; intros (? & ? & ? & ?) (? & ? & ? & ?); repeat split; congruence. Qed.

Lemma same_fixed e e' : fixed_part e' = fixed_part e -> same_program e e'.
Proof. unfold fixed_part, same_program; intros E; injection E as ? ? ? ? ?; auto. Qed.

Lemma loop_same fuel : forall prev e b e', do_check_loop ops fuel prev e = (inr b, e') -> same_program e e'.
Proof.
  induction fuel as [|fuel IH]; intros prev e b e' H; cbn [do_check_loop] in H; [injection H as _ <-; repeat split|]; run H.
  destruct (round_counts _ _ _ _ R) as (E1 & E2 & E3 & E4 & _); assert (S : same_program e env) by (repeat split; assumption).
  destruct a as [prev'|]; [exact (same_trans _ _ _ S (IH _ _ _ _ H))|injection H as _ <-; exact S].
Qed.

Lemma common_same i e b e' : do_check_common ops i e = (inr b, e') -> same_program e e'.
Proof.
  intros H; unfold do_check_common in H; run H; pose proof (same_fixed _ _ (fixes_run _ _ _ _ _ (fixed_new_run _) R)) as S1; unfold finally in H.
  match type of H with (let '(_, _) := ?m in _) = _ => destruct m as [[err|b0] e1] eqn:D end; [discriminate H|]; injection H as _ <-.
  run D; pose proof (same_fixed _ _ (fixes_run _ _ _ _ _ (fixed_func_args _) R0)) as S2; exact (same_trans _ _ _ (same_trans _ _ _ S1 S2) (loop_same _ _ _ _ _ D)).
Qed.

Lemma globals_same l : forall i e b e', check_globals ops i l e = (inr b, e') -> same_program e e'.
Proof.
  induction l as [|g l IH]; intros i e b e' H; cbn [check_globals] in H; [injection H as _ <-; repeat split|]; run H.
  assert (S : same_program e env).
  { destruct g; [|injection R as _ <-; repeat split]; run R; injection R0 as _ <-; exact (same_trans e _ _ ltac:(repeat split) (common_same _ _ _ _ R)). }
  destruct a; [exact (same_trans _ _ _ S (IH _ _ _ _ H))|injection H as _ <-; exact S].
Qed.

Lemma subprogs_end e b e' : bounded e -> do_check_subprogs ops e = (inr b, e') -> b = true /\ bounded e'.
Proof.
  intros B R; unfold do_check_subprogs in R; run R; injection R0 as <- <-; destruct (func_info_global _); [exact (globals_end _ _ _ _ _ B R)|injection R as <- <-; auto].
Qed.

Lemma subprogs_same e b e' : do_check_subprogs ops e = (inr b, e') -> same_program e e'.
Proof.
  intros R; unfold do_check_subprogs in R; run R; injection R0 as <- <-; destruct (func_info_global _); [exact (globals_same _ _ _ _ _ R)|injection R as _ <-; repeat split].
Qed.

Lemma main_ends e b e' : bounded e -> do_check_main ops e = (inr b, e') -> b = true.
Proof.
  intros B H; unfold do_check_main in H; run H; injection R as _ <-; run H; apply common_ends in R as [-> _]; [|exact B]; run H; injection H as <- _; reflexivity.
Qed.

Lemma functions_end e b e' : bounded e -> check_functions ops e = (inr b, e') -> b = true.
Proof.
  intros B H; unfold check_functions in H; run H; destruct (subprogs_end _ _ _ B R) as [-> B1]; exact (main_ends _ _ _ B1 H).
Qed.
End Rounds.
