(* ===== verification/DoCheckMachine.v ===== *)
(** The loop of the verifier and the machine.

    A machine is [pending] in a run of the verifier when the current state, or a
    state that waits on the stack, describes it at the instruction the state
    stands at.  A round of the loop takes the machine one instruction further or
    leaves it pending; so a run that ends with acceptance has followed every
    machine that its first state describes ([loop_safe]).

    The rounds have to be [covered]: the instruction is arithmetic, an access
    through a pointer the machine can use as it is, a jump, a load of a constant
    or of the address of a map value, the call of a helper, or the exit of the
    main function, and no path is cut off because an explored state covers it. *)
From Stdlib Require Import ZArith Lia Bool.
From stdpp Require Import base list gmap.
From S2P Require Import Prelude Lists Bits Tnum Bounds RegState ScalarOps Insn Interp Env Branch MemAccess RegArg Precision Bookkeeping Alu Frame AluSound PtrSound AluStep.
From S2P Require Import CondJmp CondJmpSound AluFrame AluIds StackAccess StackSound StackVar MemInsn MemFrame MemStep AluMachine JumpMachine.
From S2P Require Import Pruning Explore HelperCall DoCheck DoCheckFrame.

Local Open Scope Z_scope.
Local Open Scope kint_scope.

(** ** Machines a state describes *)

Definition described (ops : access_ops) (w : world) (e : bpf_verifier_env) (st : bpf_verifier_state) (pc : Z) (s : bpf_machine) : Prop :=
  m_pc s = pc /\ 0 <= id_gen e /\
  exists ι β βs, machine_sim ops w ι (set_cur_state e st) (m_regs s) (m_mem s) β βs /\ l_gen ι <= id_gen e.

(** What a description says about a state, without the marks of the search. *)
Definition bare (r : bpf_reg_state) : bpf_reg_state := set_parent (erase_reg r) None.
Definition bare_func (fn : bpf_func_state) := (bare <$> regs fn, (fun s => (slot_type s, bare (spilled_ptr s))) <$> stack fn).
Definition bare_state (st : bpf_verifier_state) := (curframe st, bare_func <$> frame st).

Lemma describes_bare w ι r r' b x : bare r' = bare r -> describes w ι r b x -> describes w ι r' b x.
Proof.
  intros E D; apply (describes_ext w ι r); [exact (f_equal type_ E)|exact (f_equal off E)|exact (f_equal id E)|exact (f_equal raw E)|exact (f_equal func E)| |exact D].
  change (reg_sim (bare r') b x); rewrite E; exact (ds_sim _ _ _ _ _ D).
Qed.

Lemma fmap_total {A B} `{Inhabited A} (g : A -> B) (l l' : list A) i : g <$> l' = g <$> l -> g (l' !!! i) = g (l !!! i).
Proof.
  intros E; apply (f_equal (fun q => q !! i)) in E; rewrite !list_lookup_fmap in E; rewrite !list_lookup_total_alt.
  destruct (l' !! i), (l !! i); try discriminate E; [exact (inj Some _ _ E)|reflexivity].
Qed.

Lemma bare_frames st st' k : bare_state st' = bare_state st -> bare_func (frame st' !!! k) = bare_func (frame st !!! k).
Proof. intros H; injection H as _ H; apply fmap_total, H. Qed.

Lemma bare_regs st st' k r : bare_state st' = bare_state st -> bare (regs (frame st' !!! k) !!! r) = bare (regs (frame st !!! k) !!! r).
Proof. intros H; apply (bare_frames _ _ k) in H; injection H as H _; apply fmap_total, H. Qed.

Lemma machine_bare ops w ι e σ m β βs st st' : bare_state st' = bare_state st ->
  machine_sim ops w ι (set_cur_state e st) σ m β βs -> machine_sim ops w ι (set_cur_state e st') σ m β βs.
Proof.
  intros E S; assert (Lf : length (frame st') = length (frame st)) by (injection E as _ E; apply (f_equal length) in E; rewrite !length_fmap in E; exact E).
  assert (C : curframe st' = curframe st) by (injection E as E _; exact E); assert (W : st_wf st) by apply S; destruct W as [W1 W2].
  apply (machine_state ops w ι e σ m β βs st); [exact S| |exact Lf| |].
  - split; [cbn; lia|]; rewrite <- W2; unfold st_func; rewrite C; pose proof (bare_frames _ _ (curframe st) E) as F; injection F as F _.
    apply (f_equal length) in F; rewrite !length_fmap in F; exact F.
  - intros r x _ _ D; eapply describes_bare; [|exact D]; unfold st_reg, st_func; rewrite C; apply bare_regs, E.
  - intros k _; pose proof (f_equal snd (bare_frames _ _ k E)) as F; cbn [snd bare_func] in F; apply list_eq_Forall2, Forall2_fmap_1 in F.
    eapply Forall2_impl; [apply Forall2_flip; exact F|]; intros s s' Q; split; [exact (f_equal fst Q)|].
    intros _ b x D; eapply describes_bare; [exact (f_equal snd Q)|exact D].
Qed.

Lemma described_bare ops w e e' st st' pc s : bare_state st' = bare_state st -> maps e' = maps e -> id_gen e <= id_gen e' ->
  described ops w e st pc s -> described ops w e' st' pc s.
Proof.
  intros E Em G (P & G0 & ι & β & βs & M & Lg); split; [exact P|split; [lia|]]; exists ι, β, βs; split; [|lia].
  apply (machine_cur ops w ι (set_cur_state e st')); [reflexivity|exact Em|eapply machine_bare; eassumption].
Qed.

(** ** The entry of a round *)

Lemma bare_connect k i st : bare_state (connect_state k i st) = bare_state st.
Proof.
  unfold bare_state, connect_state; cbn; f_equal; apply fmap_imap_id; intros j fn; unfold connect_frame; destruct (_ <=? _)%nat; [|reflexivity].
  unfold bare_func; cbn; f_equal; apply fmap_imap_id; intros n r; [|reflexivity]; unfold connect_reg; destruct (n <? 10)%nat; [|reflexivity]; destruct (_ <=? _)%nat; reflexivity.
Qed.

Lemma visited_bare i e e' : is_state_visited i e = (inr false, e') -> bare_state (cur_state e') = bare_state (cur_state e).
Proof.
  unfold is_state_visited; intros H; run H; injection R as _ <-; run H; injection R as <- <-; destruct (negb _); [injection H as <-; reflexivity|].
  run H; injection R as _ <-; run H; injection R as <- <-; run H; injection R as _ <-; destruct (v_end _); [discriminate|run H; run H; run H; discriminate|].
  run H; injection R as _ <-; assert (K : forall q v q', kalloc q = (inr v, q') -> cur_state q' = cur_state q).
  { intros q v q' R; unfold kalloc, kzalloc in R; run R; destruct a3; [|discriminate]; injection R as _ <-; destruct (alloc q); simplify_eq; reflexivity. }
  match type of H with (if ?c then _ else _) _ = _ => destruct c end; run H; injection H as <-.
  - unfold push_jmp_history in R; run R; apply K in R0; run R; injection R1 as <- <-; injection R as _ <-; cbn; unfold bare_state; cbn; rewrite R0; reflexivity.
  - unfold add_state in R; run R; apply K in R0; run R; injection R1 as _ <-; run R; apply K in R1; injection R as _ <-.
    cbn; rewrite bare_connect, R1; unfold bare_state; cbn; rewrite R0; reflexivity.
Qed.

(** What a round checks first leaves every machine where it is. *)
Lemma enter_bare ops prev e e' : enter_insn ops prev e = (inr false, e') ->
  bare_state (cur_state e') = bare_state (cur_state e) /\ position e' = position e /\ insn_idx e < Z.of_nat (length (prog e)).
Proof.
  intros H; unfold enter_insn in H; run H; injection R as _ <-; run H; injection R as <- <-.
  match type of H with (if ?c then _ else _) _ = _ => destruct c eqn:C; [discriminate|] end; rewrite Z.geb_leb, Z.leb_gt in C; cbn in C.
  run H; injection R as _ <-; run H; injection R as <- <-; match type of H with (if ?c then _ else _) _ = _ => destruct c; [discriminate|] end.
  run H; pose proof (fixes_run _ _ _ _ _ (search_visited position _) R) as P; match type of H with (if ?c then _ else _) _ = _ => destruct c; [discriminate|] end.
  apply visited_bare in R; run H; injection R0 as <- <-; do 2 match type of H with (if ?c then _ else _) _ = _ => destruct c; [discriminate|] end.
  run H; injection H as <-; assert (Ec : cur_state env0 = cur_state env /\ position env0 = position env).
  { unfold sanitize_mark_insn_seen, modify in R0; destruct (speculative _); injection R0 as _ <-; split; reflexivity. }
  destruct Ec as [-> ->]; split; [exact R|split; [exact P|exact C]].
Qed.

(** ** Ids *)

(** A successful computation hands out at most [k] ids. *)
Definition gens {A} (k : Z) (m : verifier A) : Prop :=
  forall e a e', m e = (inr a, e') -> 0 <= id_gen e -> id_gen e + k < 2 ^ 32 -> id_gen e <= id_gen e' <= id_gen e + k.

Lemma gens_fixes {A} k (m : verifier A) : 0 <= k -> fixes id_gen m -> gens k m.
Proof. intros K H e a e' R _ _; rewrite (fixes_run _ _ _ _ _ H R); lia. Qed.

Lemma gens_bind {A B} j k (m : verifier A) (f : A -> verifier B) : gens j m -> (forall a, gens k (f a)) -> 0 <= j -> 0 <= k -> gens (j + k) (m ≫= f).
Proof. intros Hm Hf J K e b e' H G0 G1; run H; specialize (Hm _ _ _ R G0 ltac:(lia)); specialize (Hf _ _ _ _ H ltac:(lia) ltac:(lia)); lia. Qed.

Lemma gens_then {A B} k (m : verifier A) (f : A -> verifier B) : 0 <= k -> fixes id_gen m -> (forall a, gens k (f a)) -> gens k (m ≫= f).
Proof. intros K Hm Hf; change k with (0 + k); apply gens_bind; [apply gens_fixes; [lia|exact Hm]|exact Hf|lia|lia]. Qed.

Lemma gens_first {A B} k (m : verifier A) (f : A -> verifier B) : 0 <= k -> gens k m -> (forall a, fixes id_gen (f a)) -> gens k (m ≫= f).
Proof. intros K Hm Hf; rewrite <- (Z.add_0_r k); apply gens_bind; [exact Hm|intros a; apply gens_fixes; [lia|apply Hf]|lia|lia]. Qed.

Lemma gens_if {A} k (b : bool) (m m' : verifier A) : gens k m -> gens k m' -> gens k (if b then m else m').
Proof. destruct b; auto. Qed.

Lemma gens_fresh r : gens 1 (fresh_id r).
Proof. intros e a e' H G0 G1; injection H as _ <-; cbn; rewrite uwrap_id by (unfold uin; lia); lia. Qed.

Lemma gens_when k b m : 0 <= k -> gens k m -> gens k (when b m).
Proof. intros K H; destruct b; [exact H|apply gens_fixes; [exact K|apply fixes_ret]]. Qed.

Lemma gens_or_err {A} k (m : verifier A) : gens k m -> gens k (or_sanitize_err m).
Proof. intros H e a e' R; apply or_sanitize_ok in R; exact (H _ _ _ R). Qed.

Lemma ids_sanitize_val insn : fixes id_gen (sanitize_val_alu insn).
Proof. intros e; unfold sanitize_val_alu; destruct (can_skip_alu_sanitation _ _); [|destruct (update_alu_sanitation_state _ _ _)]; reflexivity. Qed.

Lemma ids_limits insn p o d info c : fixes id_gen (sanitize_ptr_limits insn p o d info c).
Proof. intros e; unfold sanitize_ptr_limits; repeat case_match; simplify_eq; reflexivity. Qed.

#[local] Hint Resolve ids_sanitize_val ids_limits fixes_spec_path check_bounds_fixes fixes_cond_jmp : fixes.

Lemma ids_sanitize_ptr insn p o d info c : fixes id_gen (sanitize_ptr_alu insn p o d info c).
Proof. unfold sanitize_ptr_alu; fixes_auto. Qed.

#[local] Hint Resolve ids_sanitize_ptr : fixes.

Ltac gens_step :=
  first
    [ progress cbv zeta
    | match goal with
      | |- gens _ (fresh_id _) => apply gens_fresh
      | |- gens _ (when _ _) => apply gens_when; [lia|]
      | |- gens _ (if _ then _ else _) => apply gens_if
      | |- gens _ (match ?x with _ => _ end) => destruct x
      | |- gens _ (_ ≫= _) => first [apply gens_then; [lia|solve [fixes_auto]|intros ?]|apply gens_first; [lia| |intros ?; solve [fixes_auto]]]
      end
    | apply gens_fixes; [lia|solve [fixes_auto]] ].
Ltac gens_auto := repeat gens_step.

Lemma gens_ptr_op insn p o d k a b c f : gens 1 (ptr_op insn p o d k a b c f).
Proof. unfold ptr_op; gens_auto. Qed.

Lemma gens_adjust_ptr insn p o : gens 1 (adjust_ptr_min_max_vals insn p o).
Proof. unfold adjust_ptr_min_max_vals; repeat first [apply gens_ptr_op|gens_step]. Qed.

Lemma gens_alu insn : gens 1 (check_alu_op insn).
Proof.
  unfold check_alu_op, check_alu_unary, check_alu_mov, check_alu_mov_reg, check_alu_binary, adjust_reg_min_max_vals, adjust_scalar_min_max_vals, scalar_op;
    repeat first [apply gens_adjust_ptr|gens_step].
Qed.

#[local] Hint Resolve fixes_alignment fixes_leaks fixes_ptr_type fixes_field_size fixes_upd_aux : fixes.

Lemma gens_next : gens 1 (modify (fun env => set_id_gen env (u32 (id_gen env + 1)))).
Proof. intros e a e' H G0 G1; injection H as _ <-; cbn; rewrite uwrap_id by (unfold uin; lia); lia. Qed.

Lemma gens_access ops i reg r o n t v : gens 1 (access_by_type ops i reg r o n t v).
Proof.
  destruct (bpf_reg_type_eq_dec (type_ reg) PTR_TO_CTX) as [E|N]; [|apply gens_fixes; [lia|apply (fixes_by_type id_gen); contradiction]].
  unfold access_by_type; rewrite E; unfold access_ctx, check_ctx_access, check_ctx_reg, mark_ctx_reg; repeat first [apply gens_next|gens_step].
Qed.

Lemma gens_mem ops i r o bs t v s : gens 1 (check_mem_access ops i r o bs t v s).
Proof. unfold check_mem_access; repeat first [apply gens_access|gens_step]. Qed.

Lemma gens_weaken {A} j k (m : verifier A) : j <= k -> gens j m -> gens k m.
Proof. intros J H e a e' R G0 G1; specialize (H _ _ _ R G0 ltac:(lia)); lia. Qed.

Ltac gens_mem_step :=
  lazymatch goal with
  | |- gens _ (check_mem_access _ _ _ _ _ _ _ _) => apply (gens_weaken 1); [lia|apply gens_mem]
  | |- gens 2 (check_mem_access _ _ _ _ _ _ _ _ ≫= fun _ => check_mem_access _ _ _ _ _ _ _ _) => apply (gens_bind 1 1); [| |lia|lia]; [|intros ?]
  | |- gens _ (check_mem_access _ _ _ _ _ _ _ _ ≫= _) => apply gens_first; [lia| |intros ?; solve [fixes_auto]]
  | _ => gens_step
  end.

Lemma gens_ldx ops insn : gens 1 (check_ldx ops insn).
Proof. unfold check_ldx; repeat gens_mem_step. Qed.

Lemma gens_st ops insn : gens 1 (check_st ops insn).
Proof. unfold check_st, is_ctx_reg; repeat gens_mem_step. Qed.

Lemma gens_xadd ops i insn : gens 2 (check_xadd ops i insn).
Proof. unfold check_xadd, is_ctx_reg, is_pkt_reg, is_flow_key_reg, is_sk_reg; repeat gens_mem_step. Qed.

Lemma gens_stx ops insn : gens 2 (check_stx ops insn).
Proof.
  unfold check_stx; apply gens_then; [lia|apply fixes_get|intros e]; apply gens_if; [apply gens_xadd|]; repeat gens_mem_step.
Qed.

Lemma gens_ld_imm insn : gens 1 (check_ld_imm insn).
Proof. unfold check_ld_imm; gens_auto. Qed.

(** ** States on the stack *)

Lemma head_ld_imm insn : fixes head (check_ld_imm insn).
Proof. unfold check_ld_imm; fixes_auto. Qed.

Lemma head_mem ops i r o bs t v s : fixes head (check_mem_access ops i r o bs t v s).
Proof. unfold check_mem_access; fixes_auto; apply (fixes_by_type head); reflexivity. Qed.

#[local] Hint Resolve head_mem : fixes.

Lemma head_ldx ops insn : fixes head (check_ldx ops insn).
Proof. unfold check_ldx; fixes_auto. Qed.

Lemma head_stx ops insn : fixes head (check_stx ops insn).
Proof. unfold check_stx, check_xadd, is_ctx_reg, is_pkt_reg, is_flow_key_reg, is_sk_reg; fixes_auto. Qed.

Lemma head_st ops insn : fixes head (check_st ops insn).
Proof. unfold check_st, is_ctx_reg; fixes_auto. Qed.

Definition below (e : bpf_verifier_env) : list bpf_verifier_stack_elem := tail (head e).

#[export] Instance below_view : TopView below.
Proof. split; [split; try reflexivity; intros e e' H; exact (f_equal below H)|]; intros e f; unfold below, upd_other; destruct (head e) eqn:E; [rewrite E|]; reflexivity. Qed.

Lemma below_grows e e' : below e' = head e -> head e `suffix_of` head e'.
Proof. unfold below; intros <-; destruct (head e') as [|x l]; [reflexivity|exists [x]; reflexivity]. Qed.

Lemma push_below a b s e e' : push_stack a b s e = (inr true, e') -> below e' = head e.
Proof. intros H; destruct (push_head _ _ _ _ _ H) as (st & E); unfold below; rewrite E; reflexivity. Qed.

Lemma spec_path_below i a b e e' : sanitize_speculative_path i a b e = (inr true, e') -> below e' = head e.
Proof.
  intros H; unfold sanitize_speculative_path in H; run H; run H; injection R0 as <- <-; destruct i as [insn|].
  - destruct a0; [|discriminate]; cbn iota in H; rewrite <- (push_below _ _ _ _ _ R); revert H; cbn [negb].
    repeat match goal with |- context [if ?c then _ else _] => destruct c end; intros H; try (injection H as <-; reflexivity); run H;
      injection R0 as _ <-; try (run H; injection R0 as _ <-); injection H as <-; rewrite ?(fixes_branch_regs below); reflexivity.
  - injection H as -> <-; exact (push_below _ _ _ _ _ R).
Qed.

Lemma cond_jmp_grows insn : grows (check_cond_jmp_op insn).
Proof.
  intros e u e' H; unfold check_cond_jmp_op in H; match type of H with (if ?c then _ else _) _ = _ => destruct c; [discriminate|] end.
  run H; rewrite <- (fixes_run _ _ _ _ _ (fixes_operands head insn) R); clear R; run H; injection R as <- <-; run H; injection R as <- <-.
  match type of H with (if ?c then _ else _) _ = _ => destruct c end.
  - run H; rewrite <- (fixes_run _ _ _ _ _ (fixes_when head _ _ (fixes_precision head _)) R); clear R.
    run H; rewrite <- (fixes_run _ _ _ _ _ (fixes_when head _ _ (fixes_precision head _)) R); clear R.
    unfold cond_jmp_known in H; run H; injection R as <- <-; run H; match type of H with (if negb ?c then _ else _) _ = _ => destruct c; [|discriminate] end.
    cbn [negb] in H; etrans; [|assert (head e' = head env2) as ->; [unfold when in H; destruct (_ =? 1); injection H as _ <-; reflexivity|reflexivity]].
    destruct (bypass_spec_v1 env1); [injection R as <-; reflexivity|apply below_grows, (spec_path_below _ _ _ _ _ R)].
  - run H; injection R as <- <-; run H; match type of H with (if negb ?c then _ else _) _ = _ => destruct c; [|discriminate] end; cbn [negb] in H; apply below_grows; rewrite <- (push_below _ _ _ _ _ R).
    run H; rewrite <- (fixes_run _ _ _ _ _ (fixes_refine below insn) R0); exact (fixes_run _ _ _ _ _ (fixes_pointers below insn) H).
Qed.

(** ** Loads of constants *)

Lemma keeps_dst_mark insn : 0 <= insn_dst insn -> keeps (insn_dst insn) 0 (check_reg_arg (insn_dst insn) DST_OP).
Proof.
  intros D e u e' W H; pose proof (fixes_run _ _ _ _ _ (fixes_reg_arg id_gen (insn_dst insn) DST_OP) H) as G; destruct (dst_mark_ok _ _ _ _ W D H) as (_ & O & _).
  destruct O as (W' & _ & O); split; [exact W'|split; [|lia]]; intros j J N; f_equal; apply O; assumption.
Qed.

Lemma keeps_zero dst : regno_ok dst -> keeps dst 0 (mark_reg_known_zero dst).
Proof.
  intros D e u e' W H; unfold mark_reg_known_zero in H; destruct (Z.geb_spec dst MAX_BPF_REG); [unfold regno_ok in D; lia|].
  exact (keeps_upd dst _ ltac:(apply D) _ _ _ W H).
Qed.

#[local] Hint Resolve keeps_dst_mark keeps_zero : keeps.

Lemma keeps_ld_imm insn : regno_ok (insn_dst insn) -> keeps (insn_dst insn) 1 (check_ld_imm insn).
Proof.
  intros D; assert (D0 : 0 <= insn_dst insn) by apply D; unfold check_ld_imm; keeps_tac; try (destruct (btf_var_type _); keeps_tac).
  apply keeps_fresh, D0.
Qed.

Lemma stacks_zero r : fixes stacks (mark_reg_known_zero r).
Proof. intros e; unfold mark_reg_known_zero; destruct (_ >=? _); apply stacks_upd_regs. Qed.

#[local] Hint Resolve stacks_zero : fixes.

Lemma ld_imm_stacks insn : fixes stacks (check_ld_imm insn).
Proof. unfold check_ld_imm; fixes_auto. Qed.

Lemma ld_imm_program insn : fixes program (check_ld_imm insn).
Proof. unfold check_ld_imm; fixes_auto. Qed.

(** What the machine loads. *)
Lemma imm64_value i j : u32 (insn_imm i) .| ushl 64 (u32 (insn_imm j)) 32 = imm64 i j.
Proof.
  unfold imm64; apply Z.bits_inj'; intros n Hn; rewrite !Z.lor_spec, !testbit_ushl by lia; rewrite orb_comm; f_equal.
  destruct (Z.ltb_spec n 64), (Z.leb_spec 32 n); cbn [andb]; trivial; rewrite !testbit_uwrap by lia.
  replace (n - 32 <? 32) with true by (symmetry; apply Z.ltb_lt; lia); replace (n - 32 <? 64) with true by (symmetry; apply Z.ltb_lt; lia); reflexivity.
Qed.

Lemma imm64_range i j : uin 64 (imm64 i j).
Proof. unfold imm64; apply uin_lor; [lia|apply uin_ushl; lia|apply (uin_le 32); [lia|apply uwrap_range; lia]]. Qed.

(** The address of the map an instruction names, or of a value of it. *)
Definition reloc_ok (w : world) (e : bpf_verifier_env) (i src x : Z) : Prop :=
  let a := insn_aux_data e !!! Z.to_nat i in
  let map := used_maps e !!! Z.to_nat (map_index a) in
  (src = BPF_PSEUDO_MAP_VALUE -> exists b, w_value w map b /\ x = u64 (b + s32 (map_off a))) /\ (src = BPF_PSEUDO_MAP_FD -> w_map w map x).

Section LdImm.
Context (ops : access_ops) (w : world) (ι : links) (insn : bpf_insn) (e : bpf_verifier_env) (σ : list Z) (m : memory) (β : Z -> Z) (βs : nat -> nat -> Z).
Context (M : machine_sim ops w ι e σ m β βs) (Hok : insn_ok insn) (Hg : l_gen ι <= id_gen e) (G0 : 0 <= id_gen e) (G1 : id_gen e + 1 < 2 ^ 32).
Local Abbreviation dst := (insn_dst insn).
Local Abbreviation x := (imm64 insn (next_insn e)).

(** A register that points to [o] bytes after the base [b] and is tied to no
    other. *)
Lemma pointer_linked e' reg b o : type_ reg <> NOT_INIT -> type_ reg <> SCALAR_VALUE -> reg_type_may_be_null (type_ reg) = false -> reg_inv reg 0 -> sin 32 o -> off reg = o ->
  x = u64 (b + o) -> (forall ι', points_ok w ι' reg b x) -> id_gen e <= id_gen e' -> id reg = 0 \/ id reg <= id_gen e' -> linked w ι e' reg b x.
Proof using M Hg.
  intros T1 T2 N I Ho Eo Ex P Gn Hi; exists (mk_links (l_ids ι) (l_var ι) (id_gen e')); split; [|split; [|split; [reflexivity|split]]].
  - split; cbn; [lia|auto|auto].
  - split; cbn; apply (ms_links M).
  - split; [apply imm64_range|]; assert (S : sin 32 (off reg) /\ exists v, reg_inv reg v /\ x = u64 (b + off reg + v)).
    { rewrite Eo; split; [exact Ho|exists 0; split; [exact I|rewrite Z.add_0_r; exact Ex]]. }
    destruct (type_ reg); trivial; contradiction.
  - apply P.
  - intros k L; rewrite link_none in L by auto; discriminate.
  - intros _; exact Hi.
Qed.

Lemma upd_run f q u q' : env_wf q -> regno_ok dst -> upd_reg dst f q = (inr u, q') -> env_wf q' /\ get_reg q' dst = f (get_reg q dst).
Proof using. intros W D H; injection H as _ <-; split; [apply put_reg_wf, W|rewrite get_put_same by assumption; reflexivity]. Qed.

Lemma fresh_run q u q' : env_wf q -> regno_ok dst -> fresh_id dst q = (inr u, q') -> get_reg q' dst = set_id (get_reg q dst) (id_gen q').
Proof using. intros W D H; injection H as _ <-; rewrite get_put_same by assumption; reflexivity. Qed.

Lemma zero_run q u q' : env_wf q -> regno_ok dst -> mark_reg_known_zero dst q = (inr u, q') ->
  env_wf q' /\ id (get_reg q' dst) = 0 /\ off (get_reg q' dst) = 0 /\ reg_inv (get_reg q' dst) 0.
Proof using.
  intros W D H; unfold mark_reg_known_zero in H; destruct (Z.geb_spec dst MAX_BPF_REG); [unfold regno_ok in D; lia|].
  destruct (upd_run _ _ _ _ W D H) as [W' ->]; split; [exact W'|split; [reflexivity|split; [reflexivity|]]]; apply (mark_known_inv _ 0); split; lia.
Qed.

(** The register after the load. *)
Lemma ld_imm_linked u e' : insn_src insn <> BPF_PSEUDO_BTF_ID -> reloc_ok w e (insn_idx e) (insn_src insn) x ->
  check_ld_imm insn e = (inr u, e') -> regno_ok dst /\ exists b, linked w ι e' (get_reg e' dst) b x.
Proof using M Hok Hg G0 G1.
  intros Nb Hr H; pose proof (insn_fields insn Hok) as (_ & D0 & _); pose proof (gens_ld_imm _ _ _ _ H G0 G1) as Gn; unfold check_ld_imm in H; run H; injection R as <- <-.
  do 2 match type of H with (if ?c then _ else _) _ = _ => destruct c; [discriminate|] end.
  run H; destruct (dst_mark_ok _ _ _ _ (ms_wf M) D0 R) as (D & O & _); split; [exact D|]; assert (W : env_wf env) by apply O; clear R O.
  destruct (Z.eqb_spec (insn_src insn) 0).
  { run H; destruct (upd_run _ _ _ _ W D R) as [W1 E1]; destruct (upd_run _ _ _ _ W1 D H) as [_ E2]; exists 0, ι; split; [reflexivity|split; [apply (ms_links M)|]].
    split; [lia|]; rewrite E2, E1; apply describes_scalar; [reflexivity|reflexivity|]; apply scalar_sim; [apply imm64_range|apply mark_known_inv, imm64_range|reflexivity]. }
  destruct (Z.eqb_spec (insn_src insn) BPF_PSEUDO_BTF_ID); [contradiction|].
  run H; destruct (zero_run _ _ _ W D R) as (W1 & I1 & O1 & V1); run H; destruct (upd_run _ _ _ _ W1 D R0) as [W2 E2].
  set (r1 := get_reg env0 dst) in *; clearbody r1; destruct (Z.eqb_spec (insn_src insn) BPF_PSEUDO_MAP_VALUE) as [Em|_].
  - destruct (proj1 Hr Em) as (b & Wv & Ex); exists b; run H; destruct (upd_run _ _ _ _ W2 D R1) as [W3 E3]; run H; destruct (upd_run _ _ _ _ W3 D R2) as [W4 E4].
    set (au := insn_aux_data e !!! Z.to_nat (insn_idx e)) in *.
    assert (Q : id (get_reg e' dst) = 0 \/ id (get_reg e' dst) <= id_gen e').
    { unfold when in H; destruct (map_value_has_spin_lock _); [rewrite (fresh_run _ _ _ W4 D H); right; reflexivity|injection H as _ <-; left; rewrite E4, E3, E2; exact I1]. }
    assert (P : exists i, get_reg e' dst = set_id (get_reg env3 dst) i).
    { unfold when in H; destruct (map_value_has_spin_lock _); [rewrite (fresh_run _ _ _ W4 D H); eauto|injection H as _ <-; exists (id (get_reg env3 dst)); destruct (get_reg env3 dst); reflexivity]. }
    destruct P as (i & P); rewrite E4, E3, E2 in P; clear E4 E3 E2; apply (pointer_linked e' _ b (s32 (map_off au))); try (rewrite P; discriminate); try assumption.
    + rewrite P; reflexivity.
    + rewrite P; exact V1.
    + apply swrap_range; lia.
    + rewrite P; reflexivity.
    + intros ι'; unfold points_ok, points_to; rewrite P; exact Wv.
    + lia.
  - destruct (Z.eqb_spec (insn_src insn) BPF_PSEUDO_MAP_FD) as [Ef|]; [|discriminate]; destruct (upd_run _ _ _ _ W2 D H) as [_ E3]; rewrite E2 in E3; rewrite E3.
    exists x; apply (pointer_linked _ _ x 0); try discriminate; try reflexivity; try assumption.
    + split; lia.
    + rewrite Z.add_0_r, uwrap_id by apply imm64_range; reflexivity.
    + intros ι'; exact (proj2 Hr Ef).
    + lia.
    + left; exact I1.
Qed.

Lemma ld_imm_after u e' : insn_src insn <> BPF_PSEUDO_BTF_ID -> reloc_ok w e (insn_idx e) (insn_src insn) x ->
  check_ld_imm insn e = (inr u, e') -> regno_ok dst /\ machine_after ops w ι e' (<[Z.to_nat dst := x]> σ) m.
Proof using M Hok Hg G0 G1.
  intros Nb Hr H; destruct (ld_imm_linked u e' Nb Hr H) as (D & b & L); split; [exact D|]; apply (after_dst ops w ι insn e σ m β βs M G0 G1 e' _ b x); trivial.
  - split; [exact (program_maps _ _ (fixes_run _ _ _ _ _ (ld_imm_program insn) H))|exact (fixes_run _ _ _ _ _ (ld_imm_stacks insn) H)].
  - exact (keeps_ld_imm insn D _ _ _ (ms_wf M) H).
  - pose proof (ms_len _ _ _ _ _ _ _ _ M) as Ln; split; [rewrite length_insert; exact Ln|split]; [apply get_set_same; [exact Ln|unfold regno_ok in D; lia]|].
    intros i Hi N; rewrite get_set_other by (unfold regno_ok in *; lia); reflexivity.
Qed.
End LdImm.
