(* ===== verification/HelperMachine.v ===== *)
(** Calls of helper functions, in the verifier and on the machine.

    The verifier checks the arguments of a call against the prototype of the
    helper; what it establishes about their values is [args_hold].  A helper that
    keeps to [helper_fits] then returns, changes only memory it was given, and
    returns what the prototype says; and the verifier state after the call
    describes the machine after it ([call_after]). *)
From Stdlib Require Import ZArith Lia Bool.
From stdpp Require Import base list gmap.
From S2P Require Import Prelude Lists Bits Tnum Bounds RegState ScalarOps Insn Interp Env Branch MemAccess RegArg Precision Bookkeeping Alu Frame AluSound PtrSound AluStep.
From S2P Require Import CondJmp CondJmpSound AluFrame AluIds StackAccess StackSound StackVar MemInsn MemFrame MemStep AluMachine JumpMachine.
From S2P Require Import Pruning Explore HelperCall DoCheck DoCheckFrame DoCheckMachine.

Local Open Scope Z_scope.
Local Open Scope kint_scope.

(** ** Memory that may change *)

(** [m'] differs from [m] at most in the bytes [S]. *)
Record changed (S : Z -> Prop) (m m' : memory) : Prop := mk_changed {
  ch_ok : mem_ok m';
  ch_kept : forall a, is_Some (m !! a) -> is_Some (m' !! a);
  ch_out : forall a, ~ S a -> m' !! a = m !! a
}.

(** The bytes [S] may change and the verifier state still describes the machine. *)
Definition frees (ops : access_ops) (w : world) (ι : links) (S : Z -> Prop) (e : bpf_verifier_env) (σ : list Z) (m : memory) (β : Z -> Z) : Prop :=
  forall m', changed S m m' -> exists βs', machine_sim ops w ι e σ m' β βs'.

(** What a description looks at, beside the number of ids. *)
Definition outline (e : bpf_verifier_env) := (erase_state (cur_state e), maps e, id_gen e).

Lemma same_outline e e' : e' ≈ e -> outline e' = outline e.
Proof.
  intros H; apply pair_eq; split; [apply pair_eq; split|]; [exact (f_equal cur_state H)|exact (f_equal maps H)|exact (f_equal id_gen H)].
Qed.

Lemma outline_fields e e' : outline e' = outline e -> erase_state (cur_state e') = erase_state (cur_state e) /\ maps e' = maps e /\ id_gen e' = id_gen e.
Proof. intros H; apply pair_eq in H as [H H3]; apply pair_eq in H as [H1 H2]; auto. Qed.

Lemma outline_cur e e' : cur_state e' = cur_state e -> maps e' = maps e -> id_gen e' = id_gen e -> outline e' = outline e.
Proof. unfold outline; congruence. Qed.

Lemma outline_reg e e' r : outline e' = outline e -> erase_reg (get_reg e' r) = erase_reg (get_reg e r).
Proof.
  intros H; apply outline_fields in H as (H & _ & _); assert (E : set_cur_state e (cur_state e') ≈ e) by (apply same_cur_state; exact H).
  exact (same_reg _ _ r E).
Qed.

Section Frees.
Context (ops : access_ops) (w : world) (ι : links) (σ : list Z) (m : memory) (β : Z -> Z).
Local Abbreviation sim e m βs := (machine_sim ops w ι e σ m β βs).
Local Abbreviation frees S e := (frees ops w ι S e σ m β).

Lemma sim_outline e e' m1 βs : outline e' = outline e -> sim e m1 βs -> sim e' m1 βs.
Proof.
  intros H M; apply outline_fields in H as (H & Em & _); apply (machine_cur ops w ι (set_cur_state e (cur_state e'))); [reflexivity|exact Em|].
  apply (machine_same ops w ι e); [apply same_cur_state; exact H|exact M].
Qed.

Lemma frees_outline S e e' : outline e' = outline e -> frees S e -> frees S e'.
Proof. intros H F m' C; destruct (F m' C) as [βs M]; exists βs; exact (sim_outline _ _ _ _ H M). Qed.

Lemma frees_mono (S S' : Z -> Prop) e : (forall a, S' a -> S a) -> frees S e -> frees S' e.
Proof. intros H F m' [A B C]; apply F; split; [exact A|exact B|]; intros a N; apply C; intros Sa; apply N, H, Sa. Qed.

Lemma frees_sim S e : mem_ok m -> frees S e -> exists βs, sim e m βs.
Proof. intros Mo F; apply F; split; auto. Qed.

(** The bytes that belong to the program outside of its stack. *)
Lemma frees_region e βs : sim e m βs -> frees (w_region w) e.
Proof.
  intros [Wf L Rg St Me Mp Wk Lk] m' [Mo Kp Out]; exists βs; split; trivial.
  - intros k fp Hk; destruct (St k fp Hk) as (A & B & C); split; [exact A|split; [exact B|]]; eapply stack_sim_mem; [exact B| |exact C].
    intros i Hi; unfold byte_at; apply Out, (wk_mapped _ _ _ Wk k fp Hk i Hi).
  - destruct Wk as [W1 W2 W3 W4 W5 W6 W7 W8]; split; trivial.
    + intros a Ha; split; [apply Kp|]; apply W4, Ha.
    + intros a c Hc; rewrite Out; [apply W5, Hc|]; intros Ha; destruct (W4 a Ha) as [_ N]; congruence.
    + intros k fp Hk i Hi; destruct (W6 k fp Hk i Hi) as [A B]; split; [apply Kp, A|exact B].
Qed.

(** A step after which one more byte may change. *)
Lemma frees_store S e e' a : is_Some (m !! u64 a) -> mem_ok m ->
  (forall m1 m2 βs y, sim e m1 βs -> store_bytes m1 a 1 y = Some m2 -> exists βs', sim e' m2 βs') ->
  frees S e -> frees (fun b => S b \/ b = u64 a) e'.
Proof.
  intros [c Hc] Mo St F m' [A B C]; destruct (B (u64 a) ltac:(eauto)) as [y Hy]; set (m1 := <[u64 a := c]> m' : memory).
  assert (H1 : changed S m m1).
  { split.
    - intros b v Hv; unfold m1 in Hv; destruct (Z.eq_dec (u64 a) b) as [<-|N].
      + rewrite (lookup_insert_eq m') in Hv; injection Hv as <-; exact (Mo _ _ Hc).
      + rewrite (lookup_insert_ne m') in Hv by exact N; exact (A _ _ Hv).
    - intros b Hb; unfold m1; apply insert_is_some, B, Hb.
    - intros b Nb; unfold m1; destruct (Z.eq_dec (u64 a) b) as [<-|N]; [rewrite (lookup_insert_eq m'); congruence|].
      rewrite (lookup_insert_ne m') by exact N; apply C; intros [Sb|E]; [exact (Nb Sb)|congruence]. }
  destruct (F m1 H1) as [βs M1]; refine (St m1 m' βs y M1 _); cbn [store_bytes].
  assert (E1 : m1 !! u64 a = Some c) by apply (lookup_insert_eq m'); rewrite E1; cbn; f_equal; rewrite (Z.mod_small y 256) by exact (A _ _ Hy).
  unfold m1; etrans; [apply (insert_insert_eq m')|apply (insert_id m'), Hy].
Qed.
End Frees.

(** ** Stack bytes a helper may write *)

(** A slot that holds a spilled register holds it whole, unless nothing is known
    about the register any more. *)
Definition whole_slot (s : bpf_stack_state) : bool :=
  negb (bool_decide (slot_type s !! 0%nat = Some STACK_SPILL)) || forallb (fun t => bool_decide (t = STACK_SPILL)) (slot_type s) || type_eqb (type_ (spilled_ptr s)) NOT_INIT.

Definition whole (e : bpf_verifier_env) : Prop := forall k spi s, stack (frame_of e k) !! spi = Some s -> whole_slot s = true.

(** The state says nothing about the byte [pos] of the slot.  The spilled pointer
    to a kernel structure is one the range check leaves in place. *)
Definition free_at (pos : nat) (s : bpf_stack_state) : Prop :=
  slot_type s !! pos <> Some STACK_ZERO /\
  (slot_type s !! 0%nat = Some STACK_SPILL -> type_ (spilled_ptr s) = NOT_INIT \/ type_ (spilled_ptr s) = PTR_TO_BTF_ID).

Lemma whole_spill pos s t : whole_slot s = true -> slot_type s !! pos = Some t -> t <> STACK_SPILL -> slot_type s !! 0%nat = Some STACK_SPILL -> type_ (spilled_ptr s) = NOT_INIT.
Proof.
  intros W T N S; unfold whole_slot in W; rewrite bool_decide_eq_true_2 in W by exact S; cbn [negb orb] in W.
  apply orb_true_iff in W as [W|W]; [|unfold type_eqb in W; destruct (bpf_reg_type_eq_dec _ _); [assumption|discriminate]].
  rewrite forallb_forall in W; pose proof (W t) as Q; rewrite bool_decide_eq_true in Q; contradiction N; apply Q, list_elem_of_In, (list_elem_of_lookup_2 _ pos), T.
Qed.

Lemma whole_intro s : (slot_type s !! 0%nat = Some STACK_SPILL -> type_ (spilled_ptr s) = NOT_INIT) -> whole_slot s = true.
Proof.
  intros H; unfold whole_slot; destruct (bool_decide_reflect (slot_type s !! 0%nat = Some STACK_SPILL)) as [T|]; [|reflexivity].
  apply orb_true_iff; right; unfold type_eqb; destruct (bpf_reg_type_eq_dec _ _) as [|N]; [reflexivity|exact (False_ind _ (N (H T)))].
Qed.

Lemma describes_btf w ι reg b x y : type_ reg = PTR_TO_BTF_ID -> describes w ι reg b x -> uin 64 y -> exists b', describes w ι reg b' y.
Proof.
  intros T [[_ S] _ _ I] U; rewrite T in S; destruct S as (So & v & Iv & _); exists (y - off reg - v); split; [|apply points_other; rewrite T; reflexivity| |exact I].
  - split; [exact U|]; rewrite T; split; [exact So|]; exists v; split; [exact Iv|]; rewrite <- (uwrap_id 64 y) at 1 by exact U; f_equal; lia.
  - intros k L; rewrite link_none in L by (right; rewrite T; split; [discriminate|reflexivity]); discriminate.
Qed.

Section Byte.
Context (w : world) (ι : links) (k : nat) (fp i : Z) (Hi : - MAX_STACK <= i < 0).
Local Abbreviation spi := (slot_spi (- i - 1)).
Local Abbreviation pos := (slot_pos (- i - 1)).

Lemma byte_ok : access_ok i 1.
Proof using Hi. split; [left; reflexivity|split; [exact Hi|apply Z.mod_1_r]]. Qed.

(** The byte is written. *)
Lemma free_slot s m y m' b : mem_ok m -> store_bytes m (fp + i) 1 y = Some m' -> free_at pos s -> slot_sim (describes w ι) s m fp spi b ->
  exists b', slot_sim (describes w ι) s m' fp spi b'.
Proof using Hi.
  intros Mo St [F1 F2] [Z0 Sp]; destruct (slot_split (- i - 1) ltac:(lia)) as [Hp Ep].
  assert (Zs : forall j, (j < 8)%nat -> slot_type s !! j = Some STACK_ZERO -> byte_at m' fp (8 * Z.of_nat spi + Z.of_nat j) = Some 0).
  { intros j Hj T; rewrite (unwritten i 1 byte_ok m m' fp y St); [exact (Z0 j Hj T)|lia|]; intros t Ht E; assert (j = pos) by lia; congruence. }
  destruct (decide (slot_type s !! 0%nat = Some STACK_SPILL)) as [T|N]; [|exists b; split; [exact Zs|contradiction]].
  destruct (Sp T) as (v & Lv & D); destruct (store_keeps _ _ _ _ _ St) as [Kp Mk]; specialize (Mk Mo).
  destruct (proj2 (load_is_some m' 8 (fp - 8 * Z.of_nat (S spi)))) as [v' Lv'].
  { intros j Hj; apply Kp; revert j Hj; apply load_is_some; eauto. }
  destruct (loaded_range 8 m' _ v' Mk ltac:(unfold size_ok; auto) Lv') as [U _].
  assert (Q : exists b', describes w ι (spilled_ptr s) b' v').
  { destruct (F2 T) as [Tn|Tb]; [exists b; apply cs_not_init; assumption|exact (describes_btf _ _ _ _ _ _ Tb D U)]. }
  destruct Q as [b' D']; exists b'; split; [exact Zs|intros _; exists v'; split; [exact Lv'|exact D']].
Qed.

Lemma free_good e m y m' β : good (describes w ι) k fp e m β -> mem_ok m -> store_bytes m (fp + i) 1 y = Some m' ->
  (forall s, stack (frame_of e k) !! spi = Some s -> free_at pos s) -> exists β', good (describes w ι) k fp e m' β'.
Proof using Hi.
  intros (A & B & C) Mo St Fr; assert (Q : exists b', forall s, stack (frame_of e k) !! spi = Some s -> slot_sim (describes w ι) s m' fp spi b').
  { destruct (stack (frame_of e k) !! spi) as [s|] eqn:Es; [|exists 0; intros s Q; discriminate Q].
    destruct (free_slot s m y m' _ Mo St (Fr s eq_refl) (C spi s Es)) as [b' S']; exists b'; intros s0 Q; injection Q as <-; exact S'. }
  destruct Q as [b' Q]; exists (fun j => if (j =? spi)%nat then b' else β j); split; [exact A|split; [exact B|]]; intros j s Hs.
  destruct (Nat.eqb_spec j spi) as [->|N]; [exact (Q s Hs)|]; pose proof (lookup_lt_Some _ _ _ Hs).
  exact (other_slot (describes w ι) i 1 byte_ok m m' fp y St j s _ N ltac:(lia) (C j s Hs)).
Qed.
End Byte.

Section Range.
Context (ops : access_ops) (w : world) (ι : links) (σ : list Z) (m : memory) (β : Z -> Z) (k : nat) (fp : Z) (Hk : w_fps w !! k = Some fp).
Local Abbreviation sim e m βs := (machine_sim ops w ι e σ m β βs).

Lemma sim_slot spi f e u e1 m1 βs : sim e m1 βs -> upd_slot k spi f e = (inr u, e1) ->
  (forall s b, slot_sim (describes w ι) s m1 fp spi b -> slot_sim (describes w ι) (f s) m1 fp spi b) -> exists βs', sim e1 m1 βs'.
Proof using Hk.
  intros M H Hf; pose proof (ms_stacks M k fp Hk) as G; destruct (good_upd_same (describes w ι) k fp spi f e u e1 m1 _ G H) as (G1 & O & _); [intros s; apply Hf|].
  eexists; apply (machine_store ops w ι e σ m1 β βs k fp 0 0 0 m1 e1 (βs k) M Hk ltac:(lia) ltac:(lia) eq_refl O); [|exact G1].
  injection H as _ <-; reflexivity.
Qed.

Lemma sim_byte e m1 y m2 βs i : - MAX_STACK <= i < 0 -> sim e m1 βs -> store_bytes m1 (fp + i) 1 y = Some m2 ->
  (forall s, stack (frame_of e k) !! slot_spi (- i - 1) = Some s -> free_at (slot_pos (- i - 1)) s) -> exists βs', sim e m2 βs'.
Proof using Hk.
  intros Hi M St Fr; destruct (free_good w ι k fp i Hi e m1 y m2 _ (ms_stacks M k fp Hk) (ms_mem M) St Fr) as [β' G].
  eexists; apply (machine_store ops w ι e σ m1 β βs k fp i 1 y m2 e β' M Hk ltac:(lia) ltac:(lia) St); [apply same_only_stack; reflexivity|reflexivity|exact G].
Qed.

(** What the check of one byte does to its slot. *)
Inductive clobbers (pos : nat) : (bpf_stack_state -> bpf_stack_state) -> Prop :=
  | clobber_zero : clobbers pos (set_type_at pos STACK_MISC)
  | clobber_spill fl : clobbers pos (fun s => mk_slot (__mark_reg_unknown fl (spilled_ptr s)) (replicate 8 STACK_MISC)).

Lemma misc_at pos s j t : slot_type (set_type_at pos STACK_MISC s) !! j = Some t -> t <> STACK_MISC -> slot_type s !! j = Some t /\ j <> pos.
Proof using.
  cbn; intros H N; destruct (decide (j = pos)) as [->|Nj]; [|rewrite list_lookup_insert_ne in H by congruence; auto].
  destruct (decide (pos < length (slot_type s))%nat) as [L|L]; [rewrite list_lookup_insert_eq in H by exact L; congruence|].
  apply lookup_lt_Some in H; rewrite length_insert in H; lia.
Qed.

Lemma misc_slot fl r j t : slot_type (mk_slot (__mark_reg_unknown fl r) (replicate 8 STACK_MISC)) !! j = Some t -> t = STACK_MISC.
Proof using. cbn [slot_type]; intros H; apply lookup_replicate in H as [-> _]; reflexivity. Qed.

Lemma clobbers_sim pos f s m1 spi b : clobbers pos f -> slot_sim (describes w ι) s m1 fp spi b -> slot_sim (describes w ι) (f s) m1 fp spi b.
Proof using.
  intros C [Z0 Sp]; destruct C as [|fl].
  - split; [intros j Hj H|intros H]; apply misc_at in H as [H _]; [exact (Z0 j Hj H)|discriminate|exact (Sp H)|discriminate].
  - split; [intros j Hj H|intros H]; apply misc_slot in H; discriminate.
Qed.

Lemma zero_free pos s : whole_slot s = true -> slot_type s !! pos = Some STACK_ZERO ->
  free_at pos (set_type_at pos STACK_MISC s) /\ whole_slot (set_type_at pos STACK_MISC s) = true.
Proof using.
  intros W T; assert (Q : slot_type (set_type_at pos STACK_MISC s) !! 0%nat = Some STACK_SPILL -> type_ (spilled_ptr s) = NOT_INIT).
  { intros H; apply misc_at in H as [H _]; [|discriminate]; exact (whole_spill pos s _ W T ltac:(discriminate) H). }
  split; [split; [intros H; apply misc_at in H as [_ H]; [contradiction|discriminate]|intros H; left; exact (Q H)]|apply whole_intro, Q].
Qed.

Lemma spill_free fl pos s : let s' := mk_slot (__mark_reg_unknown fl (spilled_ptr s)) (replicate 8 STACK_MISC) in free_at pos s' /\ whole_slot s' = true.
Proof using. split; [split; intros H; apply misc_slot in H; discriminate|]; apply whole_intro; intros H; apply misc_slot in H; discriminate. Qed.

(** One byte of the loop. *)
Definition byte_checked (i : Z) (e e1 : bpf_verifier_env) : Prop :=
  exists s, stack (frame_of e k) !! slot_spi (- i - 1) = Some s /\
    (e1 = e /\ free_at (slot_pos (- i - 1)) s \/
     exists f, upd_slot k (slot_spi (- i - 1)) f e = (inr tt, e1) /\ clobbers (slot_pos (- i - 1)) f /\ free_at (slot_pos (- i - 1)) (f s) /\ whole_slot (f s) = true).

Lemma range_byte n i e u e' : - MAX_STACK <= i < 0 -> whole e -> range_loop (S n) k i true e = (inr u, e') ->
  exists e1 e2, byte_checked i e e1 /\ e2 ≈ e1 /\ range_loop n k (i + 1) true e2 = (inr u, e').
Proof using.
  intros Hi W H; cbn [range_loop] in H; run H; injection R as <- <-; cbn [when] in H.
  match type of H with (if ?c then _ else _) _ = _ => destruct c eqn:C; [discriminate|] end; apply Z.leb_gt in C.
  destruct (slot_split (- i - 1) ltac:(lia)) as [Hp Ep]; destruct (lookup_lt_is_Some_2 (stack (frame_of e k)) (slot_spi (- i - 1)) ltac:(lia)) as [s Es].
  assert (So : slot_of e k (slot_spi (- i - 1)) = s) by (unfold slot_of; rewrite list_lookup_total_alt, Es; reflexivity); rewrite So in H.
  pose proof (W _ _ _ Es) as Ws; set (spi := slot_spi (- i - 1)) in *; set (pos := slot_pos (- i - 1)) in *.
  assert (X : forall mm : verifier unit, (_ ← mm; _ ← mark_slot_read k spi; range_loop n k (i + 1) true) e = (inr u, e') ->
    (forall v q, mm e = (inr v, q) -> byte_checked i e q) -> exists e1 e2, byte_checked i e e1 /\ e2 ≈ e1 /\ range_loop n k (i + 1) true e2 = (inr u, e')).
  { intros mm Q K; run Q; specialize (K _ _ R); run Q; apply slot_read_same in R0; eexists _, _; eauto. }
  assert (F0 : free_at pos s -> forall v q, (mret () : verifier unit) e = (inr v, q) -> byte_checked i e q) by (intros F v q Q; injection Q as _ <-; exists s; auto).
  destruct (bool_decide_reflect (type_at s pos = STACK_MISC)) as [T1|_].
  { apply (X _ H), F0; apply type_at_some in T1; [|discriminate]; clear X F0 H; split; [congruence|]; intros S; left; exact (whole_spill pos s _ Ws T1 ltac:(discriminate) S). }
  destruct (bool_decide_reflect (type_at s pos = STACK_ZERO)) as [T2|T2].
  { apply (X _ H); intros v q Q; exists s; split; [exact Es|right]; eexists; split; [destruct v; exact Q|split; [exact (clobber_zero pos)|]].
    apply type_at_some in T2; [|discriminate]; exact (zero_free pos s Ws T2). }
  assert (Nz : slot_type s !! pos <> Some STACK_ZERO) by (unfold type_at in T2; intros E; rewrite E in T2; contradiction T2; reflexivity).
  match type of H with (if ?c then _ else _) _ = _ => destruct c eqn:C1 end.
  { apply (X _ H), F0; split; [exact Nz|]; intros _; right; apply andb_true_iff in C1 as [_ C1]; unfold type_eqb in C1; destruct (bpf_reg_type_eq_dec _ _); [assumption|discriminate]. }
  match type of H with (if ?c then _ else _) _ = _ => destruct c; [|discriminate] end; apply (X _ H); intros v q Q.
  exists s; split; [exact Es|right]; eexists; split; [destruct v; exact Q|split; [exact (clobber_spill pos _)|apply spill_free]].
Qed.
Lemma whole_upd spi f e u e1 s : whole e -> upd_slot k spi f e = (inr u, e1) -> stack (frame_of e k) !! spi = Some s -> whole_slot (f s) = true -> whole e1.
Proof using.
  intros W H Es Ws j spi' s' Hs; injection H as _ <-; destruct (decide (j = k)) as [->|N]; [|rewrite upd_frame_other in Hs by exact N; exact (W _ _ _ Hs)].
  destruct (decide (k < length (frame (cur_state e)))%nat) as [L|L].
  - rewrite upd_frame_at in Hs by exact L; cbn in Hs; destruct (decide (spi' = spi)) as [->|Ns].
    + rewrite list_lookup_alter_eq, Es in Hs; injection Hs as <-; exact Ws.
    + rewrite list_lookup_alter_ne in Hs by congruence; exact (W _ _ _ Hs).
  - unfold frame_of in Hs; cbn in Hs; rewrite list_lookup_total_alt, list_lookup_alter_eq, (lookup_ge_None_2 (frame (cur_state e)) k) in Hs by lia; discriminate Hs.
Qed.

Lemma whole_outline e e' : outline e' = outline e -> whole e -> whole e'.
Proof using.
  intros H W j spi s Hs; apply outline_fields in H as (H & _); apply (f_equal (fun st => frame st)) in H; cbn in H.
  pose proof (fmap_total erase_func _ _ j H) as E; apply (f_equal (fun f => stack f !! spi)) in E; cbn in E; rewrite !list_lookup_fmap in E.
  unfold frame_of in Hs; rewrite Hs in E; cbn in E; destruct (stack (frame (cur_state e) !!! j) !! spi) as [s0|] eqn:E0; [|discriminate]; apply (inj Some) in E.
  change (whole_slot (erase_slot s) = true); rewrite E; exact (W j spi s0 E0).
Qed.

(** The loop: all its bytes may change afterwards. *)
Lemma range_frees n : forall i S e u e', - MAX_STACK <= i -> i + Z.of_nat n <= 0 -> mem_ok m -> frees ops w ι S e σ m β -> whole e -> range_loop n k i true e = (inr u, e') ->
  frees ops w ι (fun b => S b \/ exists j, i <= j < i + Z.of_nat n /\ b = u64 (fp + j)) e' σ m β /\ whole e' /\ only_stack k e e'.
Proof using Hk.
  induction n as [|n IH]; intros i S e u e' Lo Hi Mo F W H.
  - injection H as _ <-; split; [|split; [exact W|apply same_only_stack; reflexivity]]; revert F; apply frees_mono; intros a [Sa|(j & Hj & _)]; [exact Sa|lia].
  - destruct (range_byte n i e u e' ltac:(lia) W H) as (e1 & e2 & (s & Es & Bc) & E2 & H2); clear H.
    destruct (frees_sim ops w ι σ m β S e Mo F) as [βs M]; destruct (wk_mapped _ _ _ (ms_world M) k fp Hk (- i - 1) ltac:(lia)) as [Mp _]; pose proof (ms_stacks M k fp Hk) as (Lk & _).
    assert (Q : frees ops w ι (fun b => S b \/ b = u64 (fp + i)) e2 σ m β /\ whole e2 /\ only_stack k e e2).
    { assert (Q1 : frees ops w ι (fun b => S b \/ b = u64 (fp + i)) e1 σ m β /\ whole e1 /\ only_stack k e e1).
      { unfold byte_at in Mp; replace (fp - 1 - (- i - 1)) with (fp + i) in Mp by lia; destruct Bc as [[-> Fr]|(f & Hf & C & Fr & Ws)].
        - split; [|split; [exact W|apply same_only_stack; reflexivity]]; apply (frees_store ops w ι σ m β S e e (fp + i) Mp Mo); [|exact F].
          intros m1 m2 βs1 y M1 St; apply (sim_byte e m1 y m2 βs1 i ltac:(lia) M1 St); intros s0 E0; rewrite Es in E0; injection E0 as <-; exact Fr.
        - assert (O : only_stack k e e1 /\ frame_of e1 k = set_stack (frame_of e k) (alter f (slot_spi (- i - 1)) (stack (frame_of e k)))) by (refine (upd_frame_only k _ e tt e1 _ Lk Hf); intros; split; reflexivity).
          destruct O as [O Ef]; split; [|split; [exact (whole_upd _ f e _ e1 s W Hf Es Ws)|exact O]]; apply (frees_store ops w ι σ m β S e e1 (fp + i) Mp Mo); [|exact F].
          intros m1 m2 βs1 y M1 St; destruct (sim_slot _ f e _ e1 m1 βs1 M1 Hf) as [βs2 M2]; [intros; apply (clobbers_sim _ f _ _ _ _ C); assumption|].
          apply (sim_byte e1 m1 y m2 βs2 i ltac:(lia) M2 St); intros s0 E0; rewrite Ef in E0; cbn in E0; rewrite list_lookup_alter_eq, Es in E0; injection E0 as <-; exact Fr. }
      destruct Q1 as (F1 & W1 & O1); split; [exact (frees_outline _ _ _ _ _ _ _ _ _ (same_outline _ _ E2) F1)|].
      split; [exact (whole_outline _ _ (same_outline _ _ E2) W1)|exact (only_stack_trans _ _ _ _ O1 (same_only_stack _ _ _ E2))]. }
    destruct Q as (F2 & W2 & O2); destruct (IH (i + 1) _ e2 u e' ltac:(lia) ltac:(lia) Mo F2 W2 H2) as (F3 & W3 & O3).
    split; [|split; [exact W3|exact (only_stack_trans _ _ _ _ O2 O3)]]; revert F3; apply frees_mono; intros a [Sa|(j & Hj & Ea)]; [auto|].
    destruct (Z.eq_dec j i) as [->|N]; [auto|right; exists j; split; [lia|exact Ea]].
Qed.
End Range.

(** ** The memory of an argument *)

(** The checks so far: [A] may change, and the registers are those of [e0]. *)
Record passed (ops : access_ops) (w : world) (ι : links) (σ : list Z) (m : memory) (β : Z -> Z) (e0 : bpf_verifier_env) (A : Z -> Prop) (e : bpf_verifier_env) : Prop := mk_passed {
  ps_frees : frees ops w ι A e σ m β;
  ps_whole : whole e;
  ps_region : forall a, w_region w a -> A a;
  ps_regs : forall r, erase_reg (get_reg e r) = erase_reg (get_reg e0 r);
  ps_maps : maps e = maps e0;
  ps_const : forall a, A a -> w_const w !! a = None
}.

(** The bytes from [x] on are there, and may change unless they are constant
    ([ro]) or are written later ([raw]). *)
Definition span (w : world) (m : memory) (A : Z -> Prop) (raw ro : bool) (x n : Z) : Prop :=
  forall j, 0 <= j < n -> let a := u64 (x + j) in is_Some (m !! a) /\ (A a \/ raw = true /\ w_const w !! a = None \/ ro = true /\ is_Some (w_const w !! a)).

(** The value of a map the program does not write. *)
Definition rdonly_value (e : bpf_verifier_env) (reg : bpf_reg_state) : bool := type_eqb (type_ reg) PTR_TO_MAP_VALUE && bpf_map_is_rdonly (map_of e (raw reg)).

(** A register with the memory of an argument: NULL, or a pointer the machine can
    use; the offset of a stack pointer may be variable only if some bytes are
    accessed ([strict]), because the bounds of an access to none are not checked. *)
Definition mem_arg (strict : bool) (reg : bpf_reg_state) : bool :=
  register_is_null reg || usable reg && (negb (type_eqb (type_ reg) PTR_TO_STACK) || tnum_is_const (var_off reg) || strict).

Lemma same_mem_arg strict r r' : erase_reg r' = erase_reg r -> mem_arg strict r' = mem_arg strict r.
Proof. exact (f_equal (mem_arg strict) (x := erase_reg r') (y := erase_reg r)). Qed.

(** The bytes of an accepted access to the stack. *)
Lemma stack_span regno off_ n t e u e' v : let reg := get_reg e regno in let o := off_ + s64 v in
  check_reg_sane_offset reg = true -> reg_inv reg v -> - 2 ^ 29 < off_ < 2 ^ 29 -> 0 < n < 2 ^ 31 -> (length (stack (frame_of e (func reg))) <= 64)%nat ->
  check_stack_access_within_bounds regno off_ n t e = (inr u, e') ->
  if tnum_is_const (var_off reg) then s32 (value (var_off reg) + off_) = o /\ - MAX_STACK <= o /\ o + n <= 0
  else s32 (smin_value reg + off_) = smin_value reg + off_ /\ s32 (smax_value reg + off_) = smax_value reg + off_ /\
       - MAX_STACK <= smin_value reg + off_ <= o /\ o <= smax_value reg + off_ /\ smax_value reg + off_ + n <= 0.
Proof.
  cbn zeta; intros Sn I Ho Hn Len H; destruct (sane_bounds _ v Sn I) as (B1 & B2 & B3 & B4); set (reg := get_reg e regno) in *.
  unfold check_stack_access_within_bounds in H; run H; injection R as <- <-; fold reg in H; run H; injection R as <- <-.
  assert (K : forall o1 t0 u0 e0 e1, check_stack_slot_within_bounds o1 (frame_of e (func reg)) t0 e0 = (inr u0, e1) -> - MAX_STACK <= o1 <= -1).
  { intros o1 t0 u0 e0 e1 X; unfold check_stack_slot_within_bounds in X; destruct ((o1 <? _) || (o1 >? -1)) eqn:C; [discriminate|].
    apply orb_false_iff in C as [C1 C2]; rewrite Z.gtb_ltb in C2; rewrite Z.ltb_ge in C1, C2; case_bool_decide; lia. }
  assert (Ew : forall z, - 2 ^ 31 <= z < 2 ^ 31 -> s32 z = z) by (intros z Hz; apply swrap_id; [lia|exact Hz]).
  assert (Eh : forall z, - 2 ^ 31 <= z < 3 * 2 ^ 30 -> - MAX_STACK <= s32 z <= -1 -> s32 z = z).
  { intros z Hz Hb; destruct (Z_lt_le_dec z (2 ^ 31)) as [|Hg]; [apply Ew; lia|]; exfalso.
    assert (E : s32 z = z - 2 ^ 32); [|lia]; rewrite <- (Ew (z - 2 ^ 32)) by lia; apply swrap_weq; [lia|].
    unfold weq, uwrap; replace z with (z - 2 ^ 32 + 1 * 2 ^ 32) at 1 by lia; apply Z_mod_plus_full. }
  destruct (tnum_is_const (var_off reg)) eqn:Kc.
  - destruct (B4 eq_refl) as [-> B5]; set (val := value (var_off reg)) in *.
    assert (E : s32 (val + off_) = off_ + s64 val).
    { rewrite <- (Ew (off_ + s64 val)) by lia; apply swrap_weq; [lia|]; rewrite Z.add_comm; apply weq_add; [lia|reflexivity|symmetry; apply weq_swrap; lia]. }
    rewrite E in *; run H; injection R as <- <-; cbn [fst snd] in H; destruct (Z.gtb_spec n 0) as [_|]; [|lia].
    run H; apply K in R; apply K in H; rewrite Eh in H by lia; lia.
  - run H; destruct ((smax_value reg >=? _) || _) eqn:C; [discriminate|]; apply orb_false_iff in C as [C1 _]; rewrite Z.geb_leb in C1; rewrite Z.leb_gt in C1.
    injection R as <- <-; cbn [fst snd] in H; destruct (Z.gtb_spec n 0) as [_|]; [|lia]; rewrite (Ew (smin_value reg + off_)) in * by lia; rewrite (Ew (smax_value reg + off_)) by lia.
    run H; apply K in R; apply K in H; rewrite Eh in H by lia; lia.
Qed.

Section Memory.
Context (ops : access_ops) (w : world) (ι : links) (σ : list Z) (m : memory) (β : Z -> Z) (e0 : bpf_verifier_env) (Mo : mem_ok m).
Local Abbreviation passed := (passed ops w ι σ m β e0).

Lemma passed_outline A e e' : outline e' = outline e -> passed A e -> passed A e'.
Proof using.
  intros H [F W R Rg Mp Cn]; split; [exact (frees_outline _ _ _ _ _ _ _ _ _ H F)|exact (whole_outline _ _ H W)|exact R| | |exact Cn].
  - intros r; rewrite <- Rg; apply outline_reg, H.
  - rewrite <- Mp; apply outline_fields, H.
Qed.

Lemma passed_sim A e : passed A e -> exists βs, machine_sim ops w ι e σ m β βs.
Proof using Mo. intros P; exact (frees_sim _ _ _ _ _ _ _ _ Mo (ps_frees _ _ _ _ _ _ _ _ _ P)). Qed.

Lemma passed_rdonly A e r : passed A e -> rdonly_value e (get_reg e r) = rdonly_value e0 (get_reg e0 r).
Proof using.
  intros P; pose proof (ps_regs _ _ _ _ _ _ _ _ _ P r) as E; unfold rdonly_value, map_of; rewrite (ps_maps _ _ _ _ _ _ _ _ _ P).
  exact (f_equal (fun q => type_eqb (type_ q) PTR_TO_MAP_VALUE && bpf_map_is_rdonly (maps e0 !!! raw q)) E).
Qed.

(** What an accepted access establishes. *)
Definition accessed (A : Z -> Prop) (e' : bpf_verifier_env) (regno x n : Z) (z raw : bool) (a : option (Z * Z)) : Prop :=
  exists A', passed A' e' /\ (forall b, A b -> A' b) /\ (z = false -> n <> 0) /\
    (a = None /\ span w m A' false (rdonly_value e0 (get_reg e0 regno)) x n \/
     a = Some (n, regno) /\ raw = true /\ type_ (get_reg e0 regno) = PTR_TO_STACK /\ n <= MAX_STACK /\ span w m A' true false x n).

Lemma accessed_same A e regno x n z raw : passed A e -> (z = false -> n <> 0) -> span w m A false (rdonly_value e0 (get_reg e0 regno)) x n -> accessed A e regno x n z raw None.
Proof using. intros P Z0 S; exists A; split; [exact P|split; [auto|split; [exact Z0|left; auto]]]. Qed.

Lemma owned_span A ro b x o n k : (forall a, w_region w a -> A a) -> (forall a, w_region w a -> is_Some (m !! a)) -> owned w b k -> u64 x = u64 (b + o) -> 0 <= o -> o + n <= k -> span w m A false ro x n.
Proof using.
  intros R Mp Ow E Ho Hk j Hj; assert (Ea : u64 (x + j) = u64 (b + (o + j))) by (rewrite Z.add_assoc; apply (weq_add 64); [lia|exact E|reflexivity]).
  rewrite Ea; assert (Q : w_region w (u64 (b + (o + j)))) by (apply Ow; lia); split; [apply Mp, Q|left; apply R, Q].
Qed.

Section Access.
Context (A : Z -> Prop) (e : bpf_verifier_env) (P : passed A e) (regno n b x v : Z) (βs : nat -> nat -> Z).
Context (M : machine_sim ops w ι e σ m β βs) (Pt : pointer w ι e σ regno 0 b x v) (Hn : sin 32 n).
Local Abbreviation reg := (get_reg e regno).

Lemma region_mapped a : w_region w a -> is_Some (m !! a).
Proof using M. apply (wk_region _ _ _ (ms_world M)). Qed.

Lemma pointer_at : u64 x = u64 (b + (off reg + s64 v)) /\ sin 32 (off reg) /\ - 2 ^ 29 < off reg < 2 ^ 29.
Proof using Pt.
  pose proof (pt_addr _ _ _ _ _ _ _ _ _ Pt) as E; rewrite Z.add_0_r in E; destruct (pt_off _ _ _ _ _ _ _ _ _ Pt) as (_ & _ & S); rewrite Z.add_0_l in *.
  destruct (sane_bounds _ v (pt_sane _ _ _ _ _ _ _ _ _ Pt) (pt_inv _ _ _ _ _ _ _ _ _ Pt)) as (B & _); auto.
Qed.

Lemma mem_region ro z u e' : type_ reg = PTR_TO_MEM -> check_mem_region_access regno (off reg) n (mem_size reg) z e = (inr u, e') -> e' = e /\ (z = false -> n <> 0) /\ span w m A false ro x n.
Proof using P M Pt Hn.
  intros T H; destruct pointer_at as (Ex & So & _); destruct (pt_inv _ _ _ _ _ _ _ _ _ Pt) as (Ok & Mm & _).
  apply (region_ok regno (off reg) n (mem_size reg) z e u e' v) in H as (-> & A1 & A2 & A3 & A4 & A5 & A6 & A7); trivial; [|apply uwrap_range; lia].
  split; [reflexivity|split; [intros Z0; specialize (A4 Z0); lia|]]; pose proof (pt_to _ _ _ _ _ _ _ _ _ Pt) as V; unfold points_to in V; rewrite T in V.
  eapply owned_span; [apply P|exact region_mapped|exact V|exact Ex|lia|lia].
Qed.

Lemma mem_value z u e' : type_ reg = PTR_TO_MAP_VALUE -> check_map_access regno (off reg) n z e = (inr u, e') -> e' = e /\ (z = false -> n <> 0) /\ span w m A false (rdonly_value e reg) x n.
Proof using P M Pt Hn.
  intros T H; destruct pointer_at as (Ex & So & _); destruct (pt_inv _ _ _ _ _ _ _ _ _ Pt) as (Ok & Mm & _).
  destruct (wk_maps _ _ _ (ms_world M) (raw reg)) as [V1 V2]; rewrite <- (ms_maps M) in V1, V2.
  assert (Nz : z = false -> n <> 0).
  { intros Z0; unfold check_map_access in H; run H; injection R as <- <-; run H; injection R as <- <-; run H.
    apply (region_ok regno (off reg) n _ z e _ _ v) in R as (_ & _ & _ & _ & Q & _); trivial; specialize (Q Z0); lia. }
  apply (map_access_ok regno (off reg) n z e u e' v) in H as (-> & A1 & A2 & _); trivial; split; [reflexivity|split; [exact Nz|]].
  pose proof (pt_to _ _ _ _ _ _ _ _ _ Pt) as V; unfold points_to in V; rewrite T in V; pose proof (wk_values _ _ _ (ms_world M) _ b V) as Hv; cbn zeta in Hv.
  unfold rdonly_value; rewrite T; cbn [type_eqb andb]; unfold map_of in A2 |- *; rewrite (ms_maps M) in A2 |- *; destruct (bpf_map_is_rdonly _); [|eapply owned_span; [apply P|exact region_mapped|exact Hv|exact Ex|lia|lia]].
  intros j Hj; assert (Ea : u64 (x + j) = u64 (b + (off reg + s64 v + j))) by (rewrite Z.add_assoc; apply (weq_add 64); [lia|exact Ex|reflexivity]).
  destruct (Hv (off reg + s64 v + j) ltac:(lia)) as [c Hc]; rewrite Ea; split; [exists c; exact (wk_const _ _ _ (ms_world M) _ _ Hc)|right; right; eauto].
Qed.

Lemma mem_packet ro z u e' : type_is_pkt_pointer (type_ reg) = true -> check_packet_access regno (off reg) n z e = (inr u, e') ->
  outline e' = outline e /\ (z = false -> n <> 0) /\ span w m A false ro x n.
Proof using P M Pt Hn.
  intros T H; destruct pointer_at as (Ex & So & _); unfold check_packet_access in H; run H; injection R as <- <-.
  match type of H with (if ?c then _ else _) _ = _ => destruct c eqn:Sm; [discriminate|] end; run H; apply Z.ltb_ge in Sm; injection H as _ <-.
  pose proof (pt_inv _ _ _ _ _ _ _ _ _ Pt) as (_ & (_ & (Bs & _) & _) & _); cbn in Bs; apply check_mem_ok in R as (A1 & A2 & A3 & A4 & ->); trivial.
  - split; [reflexivity|split; [intros Z0; specialize (A4 Z0); lia|]]; intros j Hj; assert (Rp : 0 < range reg) by lia.
    destruct (packet_room ops w ι e σ m β βs M regno 0 b x v Pt T Rp) as (k & Ow & Hk); revert j Hj.
    eapply owned_span; [apply P|exact region_mapped|exact Ow|exact Ex|lia|lia].
  - unfold range; pose proof (uwrap_range 16 (raw reg) ltac:(lia)); unfold uin in *; lia.
Qed.
(** The stack. *)
Lemma stack_mapped_at fp k o j : w_fps w !! k = Some fp -> - MAX_STACK <= o -> o + n <= 0 -> 0 <= j < n -> is_Some (m !! u64 (fp + (o + j))) /\ w_const w !! u64 (fp + (o + j)) = None.
Proof using M.
  intros Fp Lo Hi Hj; destruct (wk_mapped _ _ _ (ms_world M) k fp Fp (- (o + j) - 1) ltac:(lia)) as (X & Y & _); unfold byte_at in X.
  replace (fp - 1 - (- (o + j) - 1)) with (fp + (o + j)) in X, Y by lia; auto.
Qed.

Lemma depth_outline k o e1 u e2 : update_stack_depth k o e1 = (inr u, e2) -> outline e2 = outline e1.
Proof using.
  intros H; pose proof (fixes_run _ _ _ _ _ (fixes_depth id_gen k o) H); pose proof (program_maps _ _ (fixes_run _ _ _ _ _ (fixes_depth program k o) H)).
  apply outline_cur; [exact (depth_cur _ _ _ _ _ H)|assumption..].
Qed.

Lemma mem_range ro lo hi u e1 u2 e2 : type_ reg = PTR_TO_STACK -> 0 < n -> lo <= off reg + s64 v <= hi -> - MAX_STACK <= lo -> hi + n <= 0 ->
  range_loop (Z.to_nat (hi + n - lo)) (func reg) lo true e = (inr u, e1) -> update_stack_depth (func reg) lo e1 = (inr u2, e2) ->
  exists A', passed A' e2 /\ (forall c, A c -> A' c) /\ span w m A' false ro x n.
Proof using P M Pt Mo.
  intros T N0 Ho Lo Hi R D; pose proof (pt_to _ _ _ _ _ _ _ _ _ Pt) as Fp; unfold points_to in Fp; rewrite T in Fp; destruct pointer_at as (Ex & _ & _).
  destruct (range_frees ops w ι σ m β (func reg) b Fp (Z.to_nat (hi + n - lo)) lo A e u e1 Lo ltac:(lia) Mo (ps_frees _ _ _ _ _ _ _ _ _ P) (ps_whole _ _ _ _ _ _ _ _ _ P) R) as (F & W & O).
  pose proof (program_maps _ _ (fixes_run _ _ _ _ _ (fixes_range_loop program (func reg) true _ lo) R)) as Em.
  eexists; split; [apply (passed_outline _ e1); [exact (depth_outline _ _ _ _ _ D)|split; [exact F|exact W| | | |]]|split; [intros c Hc; left; exact Hc|]].
  - intros a Ha; left; apply P, Ha.
  - intros r; rewrite (only_stack_reg _ _ _ r O); apply P.
  - rewrite Em; apply P.
  - intros a [Aa|(i & Hi' & ->)]; [apply P, Aa|]; destruct (wk_mapped _ _ _ (ms_world M) _ b Fp (- i - 1) ltac:(lia)) as (_ & Y & _); replace (b - 1 - (- i - 1)) with (b + i) in Y by lia; exact Y.
  - intros j Hj; assert (Ea : u64 (x + j) = u64 (b + (off reg + s64 v + j))) by (rewrite Z.add_assoc; apply (weq_add 64); [lia|exact Ex|reflexivity]).
    rewrite Ea; split; [apply (stack_mapped_at _ (func reg)); [exact Fp|lia..]|left; right; exists (off reg + s64 v + j); split; [lia|reflexivity]].
Qed.

Lemma mem_stack z raw a e' : type_ reg = PTR_TO_STACK -> tnum_is_const (var_off reg) = true \/ 0 <= n /\ z = false ->
  check_stack_range_initialized regno (off reg) n z ACCESS_HELPER raw e = (inr a, e') -> accessed A e' regno x n z raw a.
Proof using P M Pt Hn Mo.
  intros T Cn H; pose proof (pt_to _ _ _ _ _ _ _ _ _ Pt) as Fp; unfold points_to in Fp; rewrite T in Fp; destruct pointer_at as (Ex & So & Bo).
  assert (Ty : type_ (get_reg e0 regno) = PTR_TO_STACK) by (rewrite <- T; exact (eq_sym (f_equal type_ (ps_regs _ _ _ _ _ _ _ _ _ P regno)))).
  unfold check_stack_range_initialized in H; run H; injection R as <- <-; destruct ((n =? 0) && negb z) eqn:Cz; [discriminate|].
  assert (Nz : z = false -> n <> 0) by (intros -> ->; discriminate Cz); rewrite bool_decide_eq_true_2 in H by reflexivity.
  run H; pose proof (within_bounds_env _ _ _ _ _ _ _ R) as ->; run H; injection R0 as <- <-.
  match type of H with (if ?c then _ else _) _ = _ => destruct c; [discriminate|] end.
  assert (Sp : n <= 0 -> forall A' r ro, span w m A' r ro x n) by (intros N A' r ro j Hj; lia).
  assert (W : 0 < n -> _) by (intros N; exact (stack_span regno (off reg) n _ e _ _ v (pt_sane _ _ _ _ _ _ _ _ _ Pt) (pt_inv _ _ _ _ _ _ _ _ _ Pt) Bo
    ltac:(unfold sin in Hn; lia) ltac:(apply (ms_stacks M _ _ Fp)) R)); clear R; destruct (tnum_is_const (var_off reg)) eqn:K; cbn [andb negb] in H.
  - destruct raw.
    + injection H as <- <-; exists A; split; [exact P|split; [auto|split; [exact Nz|right]]]; split; [reflexivity|split; [reflexivity|split; [exact Ty|]]].
      destruct (Z_le_gt_dec n 0) as [N|N]; [split; [lia|apply Sp, N]|]; destruct (W ltac:(lia)) as (_ & W1 & W2); split; [lia|]; intros j Hj; cbn zeta.
      assert (Ea : u64 (x + j) = u64 (b + (off reg + s64 v + j))) by (rewrite Z.add_assoc; apply (weq_add 64); [lia|exact Ex|reflexivity]).
      rewrite Ea; destruct (stack_mapped_at b (func reg) (off reg + s64 v) j Fp W1 W2 Hj) as [X Y]; split; [exact X|auto].
    + run H; run H; injection H as <- <-; destruct (Z_le_gt_dec n 0) as [N|N].
      * replace (Z.to_nat _) with 0%nat in R by lia; injection R as _ <-; apply accessed_same; [|exact Nz|apply Sp, N].
        apply (passed_outline A e); [exact (depth_outline _ _ _ _ _ R0)|exact P].
      * destruct (W ltac:(lia)) as (E & W1 & W2); rewrite E in *.
        destruct (mem_range (rdonly_value e0 (get_reg e0 regno)) (off reg + s64 v) (off reg + s64 v) _ _ _ _ T ltac:(lia) ltac:(lia) W1 W2 R R0) as (A' & P' & Mn & S'); exists A'; split; [exact P'|split; [exact Mn|split; [exact Nz|auto]]].
  - destruct Cn as [Cn|[N0 Z0]]; [discriminate|]; specialize (Nz Z0); destruct (W ltac:(lia)) as (E1 & E2 & W1 & W2 & W3); rewrite E1, E2 in H.
    run H; run H; injection H as <- <-.
    destruct (mem_range (rdonly_value e0 (get_reg e0 regno)) (smin_value reg + off reg) (smax_value reg + off reg) _ _ _ _ T ltac:(lia) ltac:(lia) ltac:(lia) W3 R R0) as (A' & P' & Mn & S'); exists A'; split; [exact P'|split; [exact Mn|split; [intros _; lia|auto]]].
Qed.
End Access.

Lemma null_type reg : register_is_null reg = true -> type_ reg = SCALAR_VALUE.
Proof using. unfold register_is_null, type_eqb; destruct (bpf_reg_type_eq_dec _ _); [auto|discriminate]. Qed.

Lemma helper_mem A e regno n z raw a e' x strict : passed A e -> regno_ok regno -> reg_get σ regno = Some x -> mem_arg strict (get_reg e regno) = true ->
  (strict = true -> 0 <= n /\ z = false) -> sin 32 n -> check_helper_mem_access regno n z raw e = (inr a, e') -> accessed A e' regno x n z raw a.
Proof using Mo.
  intros P Hr Hx Ma Hs Hn H; unfold check_helper_mem_access in H; run H; injection R as <- <-; unfold mem_arg in Ma; apply orb_true_iff in Ma as [Nl|Ma].
  { rewrite (null_type _ Nl) in H; match type of H with (if ?c then _ else _) _ = _ => destruct c eqn:C; [|discriminate] end; injection H as <- <-.
    rewrite !andb_true_iff in C; destruct C as [[-> C] _]; apply Z.eqb_eq in C as ->; apply accessed_same; [exact P|discriminate|intros j Hj; lia]. }
  apply andb_true_iff in Ma as [Us St]; apply andb_true_iff in Us as [Pl Sn]; destruct (passed_sim A e P) as [βs M].
  destruct (pointer_of ops w ι e σ m β βs M regno 0 Hr ltac:(lia) Pl Sn) as (b & x0 & v & Pt); pose proof (pt_get _ _ _ _ _ _ _ _ _ Pt) as Hx0; rewrite Hx in Hx0; injection Hx0 as <-.
  destruct (plain_cases _ Pl) as [T|[T|[T|[T|T]]]]; rewrite T in H.
  - apply (mem_stack A e P regno n b x v βs M Pt Hn); [exact T| |exact H]; rewrite T in St; cbn [negb type_eqb] in St; apply orb_true_iff in St as [St|St]; auto.
  - run H; apply map_type_env in R as [-> _]; run H; injection H as <- <-; destruct (mem_value A e P regno n b x v βs M Pt Hn _ _ _ T R) as (-> & Nz & S); rewrite (passed_rdonly A e regno P) in S; apply accessed_same; assumption.
  - run H; injection H as <- <-; destruct (mem_region A e P regno n b x v βs M Pt Hn (rdonly_value e0 (get_reg e0 regno)) _ _ _ T R) as (-> & Nz & S); apply accessed_same; assumption.
  - run H; injection H as <- <-; destruct (mem_packet A e P regno n b x v βs M Pt Hn (rdonly_value e0 (get_reg e0 regno)) z _ _ ltac:(rewrite T; reflexivity) R) as (E & Nz & S).
    apply accessed_same; [exact (passed_outline _ _ _ E P)|assumption..].
  - run H; injection H as <- <-; destruct (mem_packet A e P regno n b x v βs M Pt Hn (rdonly_value e0 (get_reg e0 regno)) z _ _ ltac:(rewrite T; reflexivity) R) as (E & Nz & S).
    apply accessed_same; [exact (passed_outline _ _ _ E P)|assumption..].
Qed.
End Memory.

(** ** What the arguments of a call are *)

Section Proto.
Context (fn : bpf_func_proto).

Definition arg_at (i : nat) : bpf_arg_type := arg_type fn !!! i.

(** The types of arguments the machine is followed through.  Kernel objects other
    than the context are not. *)
Definition arg_modelled (t : bpf_arg_type) : bool :=
  match t with
  | ARG_DONTCARE | ARG_ANYTHING | ARG_CONST_MAP_PTR | ARG_PTR_TO_MAP_KEY | ARG_PTR_TO_MAP_VALUE | ARG_PTR_TO_UNINIT_MAP_VALUE
  | ARG_PTR_TO_MEM | ARG_PTR_TO_MEM_OR_NULL | ARG_PTR_TO_UNINIT_MEM | ARG_CONST_SIZE | ARG_CONST_SIZE_OR_ZERO | ARG_PTR_TO_CTX => true
  | _ => false
  end.

Definition is_map (i : nat) : bool := bool_decide (arg_at i = ARG_CONST_MAP_PTR).
Definition uses_map (i : nat) : bool := match arg_at i with ARG_PTR_TO_MAP_KEY | ARG_PTR_TO_MAP_VALUE | ARG_PTR_TO_UNINIT_MAP_VALUE => true | _ => false end.

(** The helper writes this argument without reading it. *)
Definition writes (i : nat) : bool :=
  match arg_at i, i with
  | ARG_PTR_TO_UNINIT_MAP_VALUE, _ => true
  | (ARG_CONST_SIZE | ARG_CONST_SIZE_OR_ZERO), S j => bool_decide (arg_at j = ARG_PTR_TO_UNINIT_MEM)
  | _, _ => false
  end.

(** No argument with [q] comes before one with [p]. *)
Definition none_before (p q : nat -> bool) : bool := forallb (fun i => negb (p i) || forallb (fun j => negb (q j)) (seq 0 i)) (seq 0 5).

Lemma none_before_at p q i j : none_before p q = true -> (i < 5)%nat -> p i = true -> (j < i)%nat -> q j = false.
Proof.
  unfold none_before; intros H Hi Pi Hj; rewrite forallb_forall in H; specialize (H i ltac:(apply in_seq; lia)); rewrite Pi in H; cbn [negb orb] in H.
  rewrite forallb_forall in H; specialize (H j ltac:(apply in_seq; lia)); apply negb_true_iff, H.
Qed.

(** One map at most, in front of its keys and values; one argument at most that
    is written without being read. *)
Definition args_modelled : bool :=
  forallb (fun i => arg_modelled (arg_at i)) (seq 0 5) && none_before is_map (fun j => is_map j || uses_map j) && none_before writes writes.

Lemma pair_size i : check_arg_pair_ok fn = true -> (i < 5)%nat -> arg_type_is_mem_size (arg_at i) = true -> exists j, i = S j /\ arg_type_is_mem_ptr (arg_at j) = true.
Proof.
  intros H Hi S; unfold check_arg_pair_ok in H; cbv zeta in H; apply negb_true_iff in H; rewrite !orb_false_iff in H; destruct H as [[[[[H0 _] H1] H2] H3] H4].
  assert (P : forall j, check_args_pair_invalid (arg_at j) (arg_at (Datatypes.S j)) = false -> arg_type_is_mem_size (arg_at (Datatypes.S j)) = true -> arg_type_is_mem_ptr (arg_at j) = true).
  { intros j C Sj; unfold check_args_pair_invalid in C; rewrite Sj in C; destruct (arg_type_is_mem_ptr _); [reflexivity|discriminate C]. }
  unfold arg_at in *; destruct i as [|[|[|[|[|i]]]]]; [congruence| | | | |lia]; eexists; (split; [reflexivity|]); apply P; assumption.
Qed.

(** The bytes that argument [i] passes to the helper, of a call with the values
    [xs] and the map [map]. *)
Definition arg_bytes (w : world) (map : Z) (xs : list Z) (i : nat) : option (Z * Z) :=
  match arg_at i with
  | ARG_PTR_TO_MAP_KEY => Some (xs !!! i, s32 (key_size (w_maps w !!! map)))
  | ARG_PTR_TO_MAP_VALUE | ARG_PTR_TO_UNINIT_MAP_VALUE => Some (xs !!! i, s32 (value_size (w_maps w !!! map)))
  | ARG_CONST_SIZE | ARG_CONST_SIZE_OR_ZERO => Some (xs !!! pred i, xs !!! i)
  | _ => None
  end.

(** What the value of argument [i] is. *)
Definition arg_holds (w : world) (map : Z) (xs : list Z) (i : nat) : Prop :=
  match arg_at i with
  | ARG_CONST_MAP_PTR => w_map w map (xs !!! i)
  | ARG_PTR_TO_CTX => xs !!! i = u64 (w_ctx w)
  | ARG_CONST_SIZE => xs !!! i <> 0
  | _ => True
  end.

(** The arguments the verifier lets through. *)
Definition args_hold (w : world) (m : memory) (map : Z) (xs : list Z) : Prop :=
  forall i, (i < 5)%nat -> arg_holds w map xs i /\
    match arg_bytes w map xs i with
    | Some (x, n) => forall j, 0 <= j < n -> is_Some (m !! u64 (x + j)) /\ (writes i = true -> w_const w !! u64 (x + j) = None)
    | None => True
    end.

(** The bytes the helper may write: those that belong to the program outside of
    its stack, and the ones it is passed, if they are not constant. *)
Definition may_write (w : world) (map : Z) (xs : list Z) (a : Z) : Prop :=
  w_region w a \/ w_const w !! a = None /\ exists i x n j, (i < 5)%nat /\ arg_bytes w map xs i = Some (x, n) /\ 0 <= j < n /\ a = u64 (x + j).
End Proto.

(** The argument [i] of a call in the state [e].  What the helper writes is not
    the value of a read-only map: with a variable size the verifier lets that
    through. *)
Definition arg_covered (fn : bpf_func_proto) (e : bpf_verifier_env) (i : nat) : bool :=
  let reg := get_reg e (1 + Z.of_nat i) in
  match arg_at fn i with
  | ARG_PTR_TO_MAP_KEY | ARG_PTR_TO_MAP_VALUE | ARG_PTR_TO_UNINIT_MAP_VALUE => mem_arg false reg
  | ARG_PTR_TO_MEM | ARG_PTR_TO_MEM_OR_NULL | ARG_PTR_TO_UNINIT_MEM => mem_arg (bool_decide (arg_at fn (S i) = ARG_CONST_SIZE)) reg
  | _ => true
  end &&
  match arg_at fn i with ARG_PTR_TO_UNINIT_MAP_VALUE | ARG_PTR_TO_UNINIT_MEM => negb (rdonly_value e reg) | _ => true end.

Lemma covered_mem fn e i : arg_covered fn e i = true -> arg_type_is_mem_ptr (arg_at fn i) = true ->
  mem_arg (bool_decide (arg_at fn (S i) = ARG_CONST_SIZE)) (get_reg e (1 + Z.of_nat i)) = true /\
  rdonly_value e (get_reg e (1 + Z.of_nat i)) && bool_decide (arg_at fn i = ARG_PTR_TO_UNINIT_MEM) = false.
Proof.
  unfold arg_covered; intros C Mp; apply andb_true_iff in C as [C W]; destruct (arg_at fn i); try discriminate Mp; (split; [exact C|]); rewrite ?andb_false_r; trivial.
  apply negb_true_iff in W; rewrite W; reflexivity.
Qed.

Lemma covered_value fn e i : arg_covered fn e i = true -> uses_map fn i = true ->
  mem_arg false (get_reg e (1 + Z.of_nat i)) = true /\ rdonly_value e (get_reg e (1 + Z.of_nat i)) && writes fn i = false.
Proof.
  unfold arg_covered, uses_map, writes; intros C Um; apply andb_true_iff in C as [C W]; destruct (arg_at fn i); try discriminate Um; (split; [exact C|]); rewrite ?andb_false_r; trivial.
  apply negb_true_iff in W; rewrite W; reflexivity.
Qed.

Section Args.
Context (hops : helper_ops) (ops : access_ops) (w : world) (ι : links) (σ : list Z) (m : memory) (β : Z -> Z) (e0 : bpf_verifier_env) (Mo : mem_ok m).
Context (fn : bpf_func_proto) (func_id : Z) (xs : list Z) (Hxs : forall i, (i < 5)%nat -> reg_get σ (1 + Z.of_nat i) = Some (xs !!! i)).
Context (Md : args_modelled fn = true) (Pr : check_arg_pair_ok fn = true) (Cv : forall i, (i < 5)%nat -> arg_covered fn e0 i = true).
Local Abbreviation passed := (passed ops w ι σ m β e0).
Local Abbreviation accessed := (accessed ops w ι σ m β e0).

(** The bytes that are still to be written, from [x] on. *)
Definition opened (A : Z -> Prop) (d : bpf_call_arg_meta) (x : Z) : Prop :=
  regno_ok (meta_regno d) /\ reg_get σ (meta_regno d) = Some x /\ usable (get_reg e0 (meta_regno d)) = true /\ type_ (get_reg e0 (meta_regno d)) = PTR_TO_STACK /\
  meta_access_size d <= MAX_STACK /\ span w m A true false x (meta_access_size d).

Definition bytes_ok (A : Z -> Prop) (d : bpf_call_arg_meta) (i : nat) : Prop :=
  match arg_bytes fn w (meta_map_ptr d) xs i with
  | Some (x, n) => span w m A false (negb (writes fn i)) x n \/ writes fn i = true /\ n <= meta_access_size d /\ opened A d x
  | None => True
  end.

(** The arguments before [i] are checked. *)
Record args_passed (i : nat) (d : bpf_call_arg_meta) (A : Z -> Prop) (e : bpf_verifier_env) : Prop := mk_args_passed {
  ap_passed : passed A e;
  ap_args : forall j, (j < i)%nat -> arg_holds fn w (meta_map_ptr d) xs j /\ bytes_ok A d j;
  ap_raw : forall j, i = S j -> arg_type_is_mem_ptr (arg_at fn j) = true -> raw_mode d = bool_decide (arg_at fn j = ARG_PTR_TO_UNINIT_MEM);
  ap_open : meta_access_size d = 0 \/ exists x, opened A d x
}.

Lemma span_mono A A' r ro x n n' : (forall b, A b -> A' b) -> n' <= n -> span w m A r ro x n -> span w m A' r ro x n'.
Proof using. intros H N S j Hj; destruct (S j ltac:(lia)) as [Mp [Q|Q]]; split; auto. Qed.

Lemma span_writes A r ro wr x n : ro && wr = false -> span w m A r ro x n -> span w m A r (negb wr) x n.
Proof using. intros H S j Hj; destruct (S j Hj) as [Mp [Q|[Q|[-> Q]]]]; (split; [exact Mp|auto]); destruct wr; [discriminate H|auto]. Qed.

Lemma opened_mono A A' d d' x : (forall b, A b -> A' b) -> meta_access_size d' = meta_access_size d -> meta_regno d' = meta_regno d -> opened A d x -> opened A' d' x.
Proof using. unfold opened; intros H -> -> (? & ? & ? & ? & ? & S); repeat (split; [assumption|]); exact (span_mono _ _ _ _ _ _ _ H (Z.le_refl _) S). Qed.

(** One argument more. *)
Lemma next_arg i d A e d' A' e' : (i < 5)%nat -> args_passed i d A e -> passed A' e' -> (forall b, A b -> A' b) ->
  meta_map_ptr d' = meta_map_ptr d \/ is_map fn i = true ->
  meta_access_size d' = meta_access_size d /\ meta_regno d' = meta_regno d \/ writes fn i = true /\ (meta_access_size d' = 0 \/ exists x, opened A' d' x) ->
  arg_holds fn w (meta_map_ptr d') xs i -> bytes_ok A' d' i ->
  (arg_type_is_mem_ptr (arg_at fn i) = true -> raw_mode d' = bool_decide (arg_at fn i = ARG_PTR_TO_UNINIT_MEM)) -> args_passed (S i) d' A' e'.
Proof using Md.
  intros Hi [P Ar Rw Op] P' Mn Hm Ho Ha Hb Hr; unfold args_modelled in Md; rewrite !andb_true_iff in Md; destruct Md as [[_ U1] U2].
  split; [exact P'| |intros j E; injection E as <-; exact Hr|].
  - intros j Hj; destruct (decide (j = i)) as [->|N]; [auto|]; assert (Lj : (j < i)%nat) by lia; destruct (Ar j Lj) as [Aj Bj].
    assert (Q : arg_holds fn w (meta_map_ptr d') xs j /\ arg_bytes fn w (meta_map_ptr d') xs j = arg_bytes fn w (meta_map_ptr d) xs j).
    { destruct Hm as [->|Im]; [auto|]; pose proof (none_before_at _ _ i j U1 Hi Im Lj) as Q; cbv beta in Q; apply orb_false_iff in Q as [Q1 Q2].
      unfold is_map, uses_map, arg_holds, arg_bytes in *; apply bool_decide_eq_false in Q1; destruct (arg_at fn j); try discriminate Q2; try contradiction; auto. }
    destruct Q as [Q1 Q2]; split; [exact Q1|]; unfold bytes_ok in *; rewrite Q2; destruct (arg_bytes fn w (meta_map_ptr d) xs j) as [[x n]|]; [|exact Logic.I].
    destruct Bj as [S|(Wj & Nn & O)]; [left; exact (span_mono _ _ _ _ _ _ _ Mn (Z.le_refl _) S)|right].
    destruct Ho as [[E1 E2]|[Wi _]]; [|rewrite (none_before_at _ _ i j U2 Hi Wi Lj) in Wj; discriminate].
    split; [exact Wj|split; [lia|exact (opened_mono _ _ _ _ _ Mn E1 E2 O)]].
  - destruct Ho as [[E1 E2]|[_ O]]; [|exact O]; destruct Op as [Op|[x O]]; [left; congruence|right; exists x; exact (opened_mono _ _ _ _ _ Mn E1 E2 O)].
Qed.

(** ** One argument *)

(** What the types of the registers say, before the argument is used. *)
Definition typed (t : bpf_arg_type) (reg : bpf_reg_state) : Prop :=
  (register_is_null reg && arg_type_may_be_null t = true \/ exists types c, compatible_reg_types hops t = Some (types, c) /\ existsb (type_eqb (type_ reg)) types = true) /\
  (register_is_null reg && arg_type_may_be_null t = false -> type_ reg = PTR_TO_CTX -> off reg = 0 /\ tnum_equals_const (var_off reg) 0 = true).

Lemma reg_type_typed regno t aid e u e1 : check_reg_type hops regno t aid e = (inr u, e1) ->
  e1 = e /\ exists types c, compatible_reg_types hops t = Some (types, c) /\ existsb (type_eqb (type_ (get_reg e regno))) types = true.
Proof using.
  unfold check_reg_type; intros H; run H; injection R as <- <-; destruct (compatible_reg_types hops t) as [[types c]|]; [|discriminate].
  destruct (existsb (type_eqb (type_ (get_reg e regno))) types) eqn:Ex; [|discriminate]; cbn [negb] in H; split; [|eauto].
  repeat (case_match; try discriminate); injection H as _ <-; reflexivity.
Qed.

Lemma ctx_reg_zero reg e u e1 : check_ctx_reg reg e = (inr u, e1) -> e1 = e /\ off reg = 0 /\ tnum_equals_const (var_off reg) 0 = true.
Proof using.
  unfold check_ctx_reg, tnum_equals_const; destruct (Z.eqb_spec (off reg) 0); [|discriminate]; cbn [negb].
  destruct (tnum_is_const _), (value _ =? 0); cbn [negb orb]; intros H; try discriminate H; injection H as _ <-; auto.
Qed.

Definition same_meta (d d' : bpf_call_arg_meta) : Prop :=
  meta_map_ptr d' = meta_map_ptr d /\ raw_mode d' = raw_mode d /\ meta_access_size d' = meta_access_size d /\ meta_regno d' = meta_regno d.

Lemma typed_arg regno t aid d e d' e' : check_typed_arg hops func_id regno t aid d e = (inr d', e') ->
  exists e1 t1 d1, outline e1 = outline e /\ check_arg_by_type func_id regno t1 d1 e1 = (inr d', e') /\ same_meta d d1 /\ typed t1 (get_reg e regno) /\
    (t1 = t \/ t = ARG_PTR_TO_MAP_VALUE /\ t1 = ARG_PTR_TO_BTF_ID_SOCK_COMMON).
Proof using.
  unfold check_typed_arg; intros H; run H; injection R as <- <-; run H; assert (E : outline env = outline e).
  { refine (fixes_run outline _ _ _ _ _ R); unfold may_access_direct_pkt_data; fixes_auto. }
  destruct a; [|discriminate]; cbn [negb] in H; clear R; run H.
  assert (Q : env0 = env /\ (a = t \/ t = ARG_PTR_TO_MAP_VALUE /\ a = ARG_PTR_TO_BTF_ID_SOCK_COMMON)).
  { assert (Rs : forall q, resolve_map_arg_type d t env = (inr q, env0) -> env0 = env /\ (q = t \/ t = ARG_PTR_TO_MAP_VALUE /\ q = ARG_PTR_TO_BTF_ID_SOCK_COMMON)).
    { unfold resolve_map_arg_type; intros q Q; run Q; injection R0 as <- <-; match type of Q with (if ?c then _ else _) _ = _ => destruct c; [discriminate|] end.
      match type of Q with (if ?c then _ else _) _ = _ => destruct c end; [destruct t; try discriminate Q|]; injection Q as <- <-; auto. }
    destruct t; try exact (Rs _ R); injection R as <- <-; auto. }
  destruct Q as [-> Ht]; clear R; run H.
  assert (Q : env0 = env /\ typed a (get_reg e regno)).
  { pose proof (outline_reg _ _ regno E) as Er; destruct (register_is_null (get_reg e regno) && arg_type_may_be_null a) eqn:Nl; [injection R as _ <-; split; [reflexivity|split; [auto|congruence]]|].
    run R; apply reg_type_typed in R0 as (-> & types & c & C1 & C2); pose proof (f_equal type_ Er) as Et; cbn in Et; rewrite Et in C2.
    unfold when in R; destruct (type_eqb (type_ (get_reg e regno)) PTR_TO_CTX) eqn:Tc.
    - apply ctx_reg_zero in R as (-> & C3 & C4); split; [reflexivity|split; [eauto|auto]].
    - injection R as _ <-; split; [reflexivity|split; [eauto|]]; intros _ T; rewrite T in Tc; discriminate Tc. }
  destruct Q as [-> Ty]; match type of H with (if ?c then _ else _) _ = _ => destruct c; [discriminate|] end.
  eexists env, a, _; split; [exact E|split; [exact H|split; [|split; [exact Ty|exact Ht]]]]; destruct (negb _); repeat split; reflexivity.
Qed.

Lemma arg_regno i : (i < 5)%nat -> regno_ok (1 + Z.of_nat i).
Proof using. intros H; split; lia. Qed.

Lemma arg_reg A e i : passed A e -> (i < 5)%nat -> describes w ι (get_reg e (1 + Z.of_nat i)) (β (1 + Z.of_nat i)) (xs !!! i).
Proof using Mo Hxs.
  intros P Hi; destruct (passed_sim _ _ _ _ _ _ _ Mo A e P) as [βs M]; destruct (ms_regs M _ (arg_regno i Hi)) as (x & Hx & D); rewrite (Hxs i Hi) in Hx; injection Hx as <-; exact D.
Qed.

Lemma typed_as t reg ts c : typed t reg -> arg_type_may_be_null t = false -> compatible_reg_types hops t = Some (ts, c) -> existsb (type_eqb (type_ reg)) ts = true.
Proof using. intros [[N|(ts' & c' & C & E)] _] Nn Cn; [rewrite Nn, andb_false_r in N; discriminate|rewrite Cn in C; injection C as <- <-; exact E]. Qed.

Lemma one_type reg t : existsb (type_eqb (type_ reg)) [t] = true -> type_ reg = t.
Proof using. cbn; rewrite orb_false_r; unfold type_eqb; destruct (bpf_reg_type_eq_dec _ _); [auto|discriminate]. Qed.

Lemma map_arg A e i c : passed A e -> (i < 5)%nat -> typed ARG_CONST_MAP_PTR (get_reg e c) -> c = 1 + Z.of_nat i -> w_map w (raw (get_reg e c)) (xs !!! i).
Proof using Mo Hxs.
  intros P Hi Ty ->; pose proof (one_type _ _ (typed_as _ _ _ _ Ty eq_refl eq_refl)) as T; pose proof (ds_points _ _ _ _ _ (arg_reg A e i P Hi)) as Pt.
  unfold points_ok, points_to in Pt; rewrite T in Pt; exact Pt.
Qed.

Lemma ctx_arg A e i : passed A e -> (i < 5)%nat -> typed ARG_PTR_TO_CTX (get_reg e (1 + Z.of_nat i)) -> xs !!! i = u64 (w_ctx w).
Proof using Mo Hxs.
  intros P Hi Ty; pose proof (one_type _ _ (typed_as _ _ _ _ Ty eq_refl eq_refl)) as T; destruct (proj2 Ty ltac:(apply andb_false_r) T) as [O V].
  destruct (arg_reg A e i P Hi) as [[_ S] Pt _ _]; unfold points_ok, points_to in Pt; rewrite T in S, Pt; cbn in Pt; destruct S as (_ & v & (_ & (Tm & _) & _) & ->).
  unfold tnum_equals_const in V; apply andb_true_iff in V as [K V]; apply Z.eqb_eq in V; rewrite (tnum_is_const_mem _ _ K Tm), V, O, Pt; f_equal; lia.
Qed.

(** A plain pointer or NULL is not a socket. *)
Lemma mem_arg_sock reg b : mem_arg b reg = true -> ~ typed ARG_PTR_TO_BTF_ID_SOCK_COMMON reg.
Proof using.
  intros Ma Ty; pose proof (typed_as _ _ _ _ Ty eq_refl eq_refl) as E; unfold mem_arg in Ma; apply orb_true_iff in Ma as [Nl|Us].
  - rewrite (null_type _ Nl) in E; discriminate E.
  - apply andb_true_iff in Us as [Us _]; apply andb_true_iff in Us as [Pl _]; destruct (type_ reg); try discriminate Pl; discriminate E.
Qed.

Lemma arg_mem A e i b : passed A e -> mem_arg b (get_reg e0 (1 + Z.of_nat i)) = true -> mem_arg b (get_reg e (1 + Z.of_nat i)) = true.
Proof using. intros P; rewrite (same_mem_arg b (get_reg e0 (1 + Z.of_nat i)) (get_reg e _)); [trivial|apply P]. Qed.

(** The access to the memory of argument [i], and what is recorded about it. *)
Lemma arg_access A e i d n z raw a e' strict : passed A e -> (i < 5)%nat -> mem_arg strict (get_reg e0 (1 + Z.of_nat i)) = true -> (strict = true -> 0 <= n /\ z = false) -> sin 32 n ->
  check_helper_mem_access (1 + Z.of_nat i) n z raw e = (inr a, e') ->
  exists A', passed A' e' /\ (forall b, A b -> A' b) /\ (z = false -> n <> 0) /\
    (a = None /\ span w m A' false (rdonly_value e0 (get_reg e0 (1 + Z.of_nat i))) (xs !!! i) n \/ a <> None /\ raw = true /\ opened A' (record_access d a) (xs !!! i) /\ meta_access_size (record_access d a) = n).
Proof using Mo Hxs.
  intros P Hi Ma St Hn H; destruct (helper_mem ops w ι σ m β e0 Mo A e (1 + Z.of_nat i) n z raw a e' (xs !!! i) strict P (arg_regno i Hi) (Hxs i Hi) (arg_mem A e i strict P Ma) St Hn H)
    as (A' & P' & Mn & Nz & C); exists A'; split; [exact P'|split; [exact Mn|split; [exact Nz|]]]; destruct C as [C|(-> & Rw & T & Le & S)]; [left; exact C|right].
  split; [discriminate|split; [exact Rw|split; [|reflexivity]]]; cbn [record_access]; unfold opened; cbn [meta_regno set_meta_access meta_access_size].
  split; [apply arg_regno, Hi|split; [apply Hxs, Hi|split; [|auto]]]; unfold mem_arg in Ma; apply orb_true_iff in Ma as [Nl|Us]; [rewrite (null_type _ Nl) in T; discriminate|].
  apply andb_true_iff in Us as [Us _]; exact Us.
Qed.

(** An argument without memory of its own. *)
Lemma plain_arg i d A e d' e' : (i < 5)%nat -> args_passed i d A e -> outline e' = outline e -> meta_map_ptr d' = meta_map_ptr d \/ is_map fn i = true ->
  meta_access_size d' = meta_access_size d -> meta_regno d' = meta_regno d -> arg_holds fn w (meta_map_ptr d') xs i -> arg_bytes fn w (meta_map_ptr d') xs i = None ->
  (arg_type_is_mem_ptr (arg_at fn i) = true -> raw_mode d' = bool_decide (arg_at fn i = ARG_PTR_TO_UNINIT_MEM)) -> exists A', args_passed (S i) d' A' e'.
Proof using Md.
  intros Hi Ap E Hm E1 E2 Ha Hb Hr; exists A; apply (next_arg i d A e d' A e' Hi Ap); [exact (passed_outline _ _ _ _ _ _ _ _ _ _ E (ap_passed _ _ _ _ Ap))|auto|exact Hm|auto|exact Ha| |exact Hr].
  unfold bytes_ok; rewrite Hb; exact Logic.I.
Qed.

(** The recorded access fits the argument. *)
Definition recorded (i : nat) (d d' : bpf_call_arg_meta) (A : Z -> Prop) (x n : Z) : Prop :=
  meta_map_ptr d' = meta_map_ptr d /\
  (meta_access_size d' = meta_access_size d /\ meta_regno d' = meta_regno d \/ writes fn i = true /\ (meta_access_size d' = 0 \/ exists y, opened A d' y)) /\
  (span w m A false (negb (writes fn i)) x n \/ writes fn i = true /\ n <= meta_access_size d' /\ opened A d' x).

Lemma bytes_arg i d A e d' A' e' x n : (i < 5)%nat -> args_passed i d A e -> passed A' e' -> (forall b, A b -> A' b) -> recorded i d d' A' x n ->
  arg_bytes fn w (meta_map_ptr d') xs i = Some (x, n) -> arg_holds fn w (meta_map_ptr d') xs i -> arg_type_is_mem_ptr (arg_at fn i) = false -> exists A', args_passed (S i) d' A' e'.
Proof using Md.
  intros Hi Ap P' Mn (Em & Ho & Hb) Eb Ha Np; exists A'; apply (next_arg i d A e d' A' e' Hi Ap P' Mn); [auto|exact Ho|exact Ha| |congruence].
  unfold bytes_ok; rewrite Eb; exact Hb.
Qed.

Lemma record_map d a : meta_map_ptr (record_access d a) = meta_map_ptr d.
Proof using. destruct a as [[? ?]|]; reflexivity. Qed.

(** A key or a value of the map. *)
Definition same_access (d d' : bpf_call_arg_meta) : Prop :=
  meta_map_ptr d' = meta_map_ptr d /\ meta_access_size d' = meta_access_size d /\ meta_regno d' = meta_regno d.

Lemma value_arg i d d1 d' A e e1 raw n a e' : (i < 5)%nat -> args_passed i d A e -> outline e1 = outline e -> same_meta d d1 -> arg_covered fn e0 i = true ->
  uses_map fn i = true -> raw = writes fn i -> arg_bytes fn w (meta_map_ptr d) xs i = Some (xs !!! i, s32 n) ->
  check_helper_mem_access (1 + Z.of_nat i) (s32 n) false raw e1 = (inr a, e') ->
  same_access (record_access d1 a) d' -> exists A', args_passed (S i) d' A' e'.
Proof using Mo Hxs Md.
  intros Hi Ap E (M1 & M2 & M3 & M4) C Um -> Eb H (D1 & D2 & D3); pose proof (passed_outline _ _ _ _ _ _ _ _ _ _ E (ap_passed _ _ _ _ Ap)) as P1.
  destruct (covered_value fn e0 i C Um) as [Ma Wc].
  destruct (arg_access A e1 i d1 (s32 n) false (writes fn i) a e' false P1 Hi Ma ltac:(discriminate) ltac:(apply swrap_range; lia) H) as (A' & P' & Mn & Nz & Cs).
  rewrite record_map, M1 in D1; apply (bytes_arg i d A e _ A' e' (xs !!! i) (s32 n) Hi Ap P' Mn).
  - split; [exact D1|]; destruct Cs as [[-> S]|(Na & Wr & O & Es)]; [split; [left; cbn in *; split; congruence|left; exact (span_writes _ _ _ _ _ _ Wc S)]|].
    apply (opened_mono A' A' _ d') in O; [|auto|exact D2|exact D3]; split; [right; split; [exact Wr|right; eauto]|right; split; [exact Wr|split; [lia|exact O]]].
  - rewrite D1; exact Eb.
  - unfold arg_holds, uses_map in *; destruct (arg_at fn i); try discriminate Um; exact Logic.I.
  - unfold uses_map in Um; destruct (arg_at fn i); try discriminate Um; reflexivity.
Qed.

(** The size of the memory in front of it. *)
Lemma size_value A e i t : passed A e -> (i < 5)%nat -> typed t (get_reg e (1 + Z.of_nat i)) -> arg_type_is_mem_size t = true ->
  let reg := get_reg e (1 + Z.of_nat i) in uin 64 (umin_value reg) /\ umin_value reg <= xs !!! i <= umax_value reg /\ 0 <= umax_value reg.
Proof using Mo Hxs.
  cbn zeta; intros P Hi Ty Ms; assert (T : type_ (get_reg e (1 + Z.of_nat i)) = SCALAR_VALUE) by (destruct t; try discriminate Ms; exact (one_type _ _ (typed_as _ _ _ _ Ty eq_refl eq_refl))).
  destruct (arg_reg A e i P Hi) as [[U S] _ _ _]; rewrite T in S; destruct S as ((_ & (_ & _ & B3 & B4) & _) & (_ & (_ & Iu) & _) & _); cbn in *.
  rewrite uwrap_id in Iu by exact U; unfold uin in *; lia.
Qed.

Lemma size_arg i t d d1 A e e1 d' e' : (i < 5)%nat -> args_passed i d A e -> outline e1 = outline e -> same_meta d d1 -> t = arg_at fn i -> arg_type_is_mem_size t = true ->
  typed t (get_reg e1 (1 + Z.of_nat i)) -> check_mem_size_arg (1 + Z.of_nat i) t d1 e1 = (inr d', e') -> exists A', args_passed (S i) d' A' e'.
Proof using Mo Hxs Md Pr Cv.
  intros Hi Ap E (M1 & M2 & M3 & M4) -> Ms Ty H; pose proof (passed_outline _ _ _ _ _ _ _ _ _ _ E (ap_passed _ _ _ _ Ap)) as P1.
  destruct (pair_size fn i Pr Hi Ms) as (j & -> & Mp); pose proof (ap_raw _ _ _ _ Ap j eq_refl Mp) as Rw; rewrite <- M2 in Rw.
  destruct (size_value A e1 (S j) _ P1 Hi Ty Ms) as (U1 & Bx & U2); set (x := xs !!! S j) in *; unfold check_mem_size_arg in H; cbv zeta in H.
  replace (1 + Z.of_nat (S j) - 1) with (1 + Z.of_nat j) in H by lia; run H; injection R as <- <-; set (reg := get_reg e1 (1 + Z.of_nat (S j))) in *; set (z := bool_decide _) in H.
  destruct (smin_value reg <? 0); [discriminate|]; set (d2 := set_msize_max_value d1 (umax_value reg)) in H; set (raw := tnum_is_const (var_off reg) && raw_mode d2) in H.
  set (strict := bool_decide (arg_at fn (S j) = ARG_CONST_SIZE)); assert (Sz : strict = true -> z = false).
  { unfold strict, z; intros Q; apply bool_decide_eq_true in Q; apply bool_decide_eq_false; rewrite Q; discriminate. }
  destruct (covered_mem fn e0 j (Cv j ltac:(lia)) Mp) as [Ma Wc]; fold strict in Ma.
  replace (bool_decide (arg_at fn j = ARG_PTR_TO_UNINIT_MEM)) with (writes fn (S j)) in Wc by (unfold writes; destruct (arg_at fn (S j)); try discriminate Ms; reflexivity).
  assert (Wr : raw = true -> writes fn (S j) = true).
  { unfold raw, d2; cbn; intros Q; apply andb_true_iff in Q as [_ Q]; rewrite Rw in Q; unfold writes; destruct (arg_at fn (S j)); try discriminate Ms; exact Q. }
  run H; assert (Q1 : exists A1, passed A1 env /\ (forall b, A b -> A1 b) /\ (z = false -> x <> 0) /\
    (a = None \/ raw = true /\ opened A1 (record_access d2 a) (xs !!! j))).
  { destruct (Z.eqb_spec (umin_value reg) 0) as [Eu|Nu].
    - destruct (arg_access A e1 j d2 0 z raw a env strict P1 ltac:(lia) Ma ltac:(intros Q; split; [lia|auto]) ltac:(split; lia) R) as (A1 & P2 & Mn & Nz & C).
      exists A1; split; [exact P2|split; [exact Mn|split; [intros Z0; contradiction (Nz Z0 eq_refl)|]]]; destruct C as [[-> _]|(_ & Q & O & _)]; auto.
    - injection R as <- <-; exists A; split; [exact P1|split; [auto|split; [intros _; unfold uin in U1; lia|auto]]]. }
  clear R; destruct Q1 as (A1 & P2 & Mn1 & Nx & C1); destruct (umax_value reg >=? BPF_MAX_VAR_SIZ) eqn:Lm; [discriminate|]; rewrite Z.geb_leb in Lm; apply Z.leb_gt in Lm.
  run H; run H; injection H as <- <-; set (d3 := record_access d2 a) in *.
  destruct (arg_access A1 env j d3 (umax_value reg) z raw a0 env0 strict P2 ltac:(lia) Ma ltac:(auto) ltac:(split; lia) R) as (A2 & P3 & Mn2 & _ & C2).
  pose proof (mark_chain_same (1 + Z.of_nat (S j)) (-1) env0) as Sm; fold (mark_chain_precision (1 + Z.of_nat (S j))) in Sm; rewrite R0 in Sm; cbn [snd] in Sm.
  pose proof (passed_outline _ _ _ _ _ _ _ _ _ _ (same_outline _ _ Sm) P3) as P4; clear R R0 Sm.
  apply (bytes_arg (S j) d A e _ A2 env1 (xs !!! j) x Hi Ap P4 ltac:(auto)).
  - split; [unfold d3; rewrite !record_map; exact M1|]; destruct C2 as [[-> S2]|(_ & Q & O & Es)].
    + split; [|left; apply (span_mono A2 A2 false _ _ (umax_value reg)); [auto|lia|exact (span_writes _ _ _ _ _ _ Wc S2)]]; cbn [record_access]; unfold d3; destruct C1 as [->|[Q O]]; [left; split; assumption|right].
      split; [exact (Wr Q)|right; exists (xs !!! j); exact (opened_mono _ _ _ _ _ Mn2 eq_refl eq_refl O)].
    + split; [right; split; [exact (Wr Q)|right; eauto]|right; split; [exact (Wr Q)|split; [lia|exact O]]].
  - unfold arg_bytes; destruct (arg_at fn (S j)); try discriminate Ms; reflexivity.
  - unfold arg_holds; destruct (arg_at fn (S j)); try discriminate Ms; [|exact Logic.I]; apply Nx, Sz; reflexivity.
  - destruct (arg_at fn (S j)); try discriminate Ms; reflexivity.
Qed.

Lemma modelled_at i : (i < 5)%nat -> arg_modelled (arg_at fn i) = true.
Proof using Md.
  intros Hi; unfold args_modelled in Md; rewrite !andb_true_iff in Md; destruct Md as [[M0 _] _]; rewrite forallb_forall in M0; apply M0, in_seq; lia.
Qed.

Lemma map_size A e d : passed A e -> map_of e (meta_map_ptr d) = w_maps w !!! meta_map_ptr d.
Proof using Mo. intros P; destruct (passed_sim _ _ _ _ _ _ _ Mo A e P) as [βs M]; unfold map_of; rewrite (ms_maps M); reflexivity. Qed.

Ltac mem_ptr_arg H Et :=
  injection H as <- <-; eapply plain_arg; [eassumption|eassumption|eassumption|left; assumption|assumption|assumption|unfold arg_holds|unfold arg_bytes|]; rewrite <- Et; [exact Logic.I|reflexivity|reflexivity].

(** An argument that is neither unused nor arbitrary. *)
Lemma typed_step i t d A e d' e' : (i < 5)%nat -> args_passed i d A e -> t = arg_at fn i -> t <> ARG_DONTCARE -> t <> ARG_ANYTHING ->
  check_typed_arg hops func_id (1 + Z.of_nat i) t (arg_btf_id fn !!! i) d e = (inr d', e') -> exists A', args_passed (S i) d' A' e'.
Proof using Mo Hxs Md Pr Cv.
  intros Hi Ap Et N1 N2 H; destruct (typed_arg _ _ _ _ _ _ _ H) as (e1 & t1 & d1 & E & H1 & Sm & Ty & Ht); clear H; pose proof Sm as (M1 & M2 & M3 & M4).
  pose proof (ap_passed _ _ _ _ Ap) as P; pose proof (passed_outline _ _ _ _ _ _ _ _ _ _ E P) as P1; pose proof (Cv i Hi) as C; pose proof (modelled_at i Hi) as Am; rewrite <- Et in Am.
  destruct Ht as [->|[Tv ->]].
  2: { unfold arg_covered in C; rewrite <- Et, Tv in C; apply andb_true_iff in C as [C _]; contradiction (mem_arg_sock _ _ (arg_mem A e i _ P C) Ty). }
  assert (Ty1 : typed t (get_reg e1 (1 + Z.of_nat i))).
  { pose proof (outline_reg _ _ (1 + Z.of_nat i) E) as Er; change (typed t (erase_reg (get_reg e1 (1 + Z.of_nat i)))); rewrite Er; exact Ty. }
  unfold check_arg_by_type in H1; run H1; injection R as <- <-; cbv zeta in H1; rewrite (map_size A e1 d1 P1), M1 in H1.
  assert (Vl : forall raw n (g : option (Z * Z) -> bpf_call_arg_meta), uses_map fn i = true -> raw = writes fn i -> arg_bytes fn w (meta_map_ptr d) xs i = Some (xs !!! i, s32 n) ->
    (forall a, same_access (record_access d1 a) (g a) \/ a <> None /\ raw = false) -> (a ← check_helper_mem_access (1 + Z.of_nat i) (s32 n) false raw; mret (g a)) e1 = (inr d', e') -> exists A', args_passed (S i) d' A' e').
  { intros raw n g Um Wr Eb Sa Q; run Q; injection Q as <- <-; destruct (Sa a) as [Sa'|[Na Rf]]; [exact (value_arg i d d1 (g a) A e e1 raw n a env Hi Ap E Sm C Um Wr Eb R Sa')|].
    destruct (arg_access A e1 i d1 (s32 n) false raw a env false P1 Hi) as (_ & _ & _ & _ & [[-> _]|(_ & Q & _)]); [|discriminate|apply swrap_range; lia|exact R|contradiction|congruence].
    apply (covered_value fn e0 i C Um). }
  assert (Wn : writes fn i = match t with ARG_PTR_TO_UNINIT_MAP_VALUE => true | _ => writes fn i end) by (unfold writes; rewrite <- Et; destruct t; reflexivity).
  destruct t; try discriminate Am; try contradiction; cbn iota in H1.
  - injection H1 as <- <-; apply (plain_arg i d A e _ e1 Hi Ap E); [right; unfold is_map; rewrite <- Et; reflexivity|exact M3|exact M4| | |rewrite <- Et; discriminate].
    + unfold arg_holds; rewrite <- Et; exact (map_arg A e1 i _ P1 Hi Ty1 eq_refl).
    + unfold arg_bytes; rewrite <- Et; reflexivity.
  - destruct (_ =? 0) in H1; [discriminate|]; revert H1; apply (Vl false _ (fun _ => d1)); unfold uses_map, writes, arg_bytes; rewrite <- ?Et; try reflexivity.
    intros [[? ?]|]; [right; split; [discriminate|reflexivity]|left; repeat split].
  - destruct (_ =? 0) in H1; [discriminate|]; revert H1; apply (Vl false _ (fun a => record_access (set_raw_mode d1 false) a)); unfold uses_map, writes, arg_bytes; rewrite <- ?Et; try reflexivity.
    intros [[? ?]|]; left; repeat split.
  - destruct (_ =? 0) in H1; [discriminate|]; revert H1; apply (Vl true _ (fun a => record_access (set_raw_mode d1 true) a)); unfold uses_map, writes, arg_bytes; rewrite <- ?Et; try reflexivity.
    intros [[? ?]|]; left; repeat split.
  - mem_ptr_arg H1 Et.
  - mem_ptr_arg H1 Et.
  - mem_ptr_arg H1 Et.
  - exact (size_arg i _ d d1 A e e1 d' e' Hi Ap E Sm Et eq_refl Ty1 H1).
  - exact (size_arg i _ d d1 A e e1 d' e' Hi Ap E Sm Et eq_refl Ty1 H1).
  - injection H1 as <- <-; apply (plain_arg i d A e _ e1 Hi Ap E); [auto|exact M3|exact M4| | |rewrite <- Et; discriminate].
    + unfold arg_holds; rewrite <- Et; exact (ctx_arg A e i P Hi Ty).
    + unfold arg_bytes; rewrite <- Et; reflexivity.
Qed.

Lemma arg_step i d A e d' e' : (i < 5)%nat -> args_passed i d A e -> check_func_arg hops fn func_id d i e = (inr d', e') -> exists A', args_passed (S i) d' A' e'.
Proof using Mo Hxs Md Pr Cv.
  intros Hi Ap H; unfold check_func_arg in H; cbv zeta in H; fold (arg_at fn i) in H; destruct (bool_decide_reflect (arg_at fn i = ARG_DONTCARE)) as [T|N1].
  { injection H as <- <-; apply (plain_arg i d A e d e Hi Ap); auto; unfold arg_holds, arg_bytes; rewrite T; auto; discriminate. }
  run H; destruct (src_op_ok _ _ _ _ R) as (_ & _ & E); apply same_outline in E; destruct (bool_decide_reflect (arg_at fn i = ARG_ANYTHING)) as [T|N2].
  { run H; unfold is_pointer_value in R0; run R0; injection R1 as <- <-; run R0; injection R1 as <- <-; injection R0 as <- <-.
    match type of H with (if ?c then _ else _) _ = _ => destruct c; [discriminate|] end; injection H as <- <-.
    apply (plain_arg i d A e d env Hi Ap E); auto; unfold arg_holds, arg_bytes; rewrite T; auto; discriminate. }
  assert (Ap1 : args_passed i d A env) by (destruct Ap as [P0 P2 P3 P4]; split; [exact (passed_outline _ _ _ _ _ _ _ _ _ _ E P0)|assumption..]).
  exact (typed_step i _ d A env d' e' Hi Ap1 eq_refl N1 N2 H).
Qed.

Lemma args_checked d A e e' pkt : passed A e -> check_func_args hops fn func_id (seq 0 5) (mk_meta 0 false pkt 0 0 0 0 0 0) e = (inr d, e') -> exists A', args_passed 5 d A' e'.
Proof using Mo Hxs Md Pr Cv.
  intros P H; assert (Ap : args_passed 0 (mk_meta 0 false pkt 0 0 0 0 0 0) A e) by (split; [exact P|lia|discriminate|left; reflexivity]).
  cbn [seq check_func_args] in H; let step i := (run H; destruct (arg_step i _ _ _ _ _ ltac:(lia) Ap R) as [? Ap']; clear Ap R; rename Ap' into Ap) in
    (step 0%nat; step 1%nat; step 2%nat; step 3%nat; step 4%nat).
  injection H as <- <-; eauto.
Qed.
End Args.

(** ** Bytes that are written before they are read *)

(** The registers of the current function. *)
Definition kept_regs (e : bpf_verifier_env) := erase_reg <$> cur_regs e.

Lemma kept_reg e e' r : kept_regs e' = kept_regs e -> erase_reg (get_reg e' r) = erase_reg (get_reg e r).
Proof. intros H; unfold get_reg; apply fmap_total, H. Qed.

Lemma kept_same e e' : e' ≈ e -> kept_regs e' = kept_regs e.
Proof. intros H; pose proof (f_equal (fun q => cur_regs q) H) as E; unfold kept_regs; etrans; [|etrans; [exact E|]]; unfold cur_regs, cur_func; cbn; rewrite !list_lookup_total_alt, !list_lookup_fmap; destruct (_ !! _); reflexivity. Qed.

Lemma frame_regs k f e : (forall fn, regs (f fn) = regs fn) -> cur_regs (upd_frame k f e).2 = cur_regs e.
Proof.
  intros H; set (c := curframe (cur_state e)); set (l := frame (cur_state e)); change (regs (alter f k l !!! c) = regs (l !!! c)); rewrite !list_lookup_total_alt.
  destruct (decide (k = c)) as [->|N]; [|rewrite list_lookup_alter_ne by exact N; reflexivity]; rewrite list_lookup_alter_eq; destruct (l !! c); [apply H|reflexivity].
Qed.

Lemma kept_frame k f : (forall fn, regs (f fn) = regs fn) -> fixes kept_regs (upd_frame k f).
Proof. intros H e; unfold kept_regs; rewrite frame_regs by exact H; reflexivity. Qed.

Lemma kept_slot k i f : fixes kept_regs (upd_slot k i f).
Proof. apply kept_frame; reflexivity. Qed.

Lemma kept_chain r : fixes kept_regs (mark_chain_precision r).
Proof. intros e; apply kept_same, mark_chain_same. Qed.

#[local] Hint Resolve kept_slot kept_chain : fixes.

Lemma kept_realloc k n : fixes kept_regs (realloc_func_state k n).
Proof. unfold realloc_func_state; fixes_auto; [intros e; unfold kzalloc; destruct (alloc e); reflexivity|apply kept_frame; reflexivity]. Qed.

#[local] Hint Resolve kept_realloc : fixes.

Lemma kept_write_loop k wz n : forall i z, fixes kept_regs (write_var_loop n k i wz z).
Proof. induction n as [|n IH]; intros i z; cbn [write_var_loop]; fixes_auto; apply IH. Qed.

#[local] Hint Resolve kept_write_loop : fixes.

Lemma kept_stack_write r off size v idx : fixes kept_regs (check_stack_write r off size v idx).
Proof. unfold check_stack_write, check_stack_write_fixed_off, check_stack_write_var_off, save_register_state; fixes_auto. Qed.

Lemma kept_mem acc idx regno off_ bs e u e' : type_ (get_reg e regno) = PTR_TO_STACK -> check_mem_access acc idx regno off_ bs BPF_WRITE (-1) false e = (inr u, e') ->
  kept_regs e' = kept_regs e.
Proof.
  intros T H; unfold check_mem_access in H; run H; injection R as <- <-; match type of H with (if ?c then _ else _) _ = _ => destruct c; [discriminate|] end.
  run H; apply alignment_env in R as ->; run H; unfold access_by_type in R; rewrite T in R; unfold access_stack in R; run R; apply within_bounds_env in R0 as ->.
  run R; apply depth_cur in R0; rewrite bool_decide_eq_false_2 in R by discriminate; apply (fixes_run _ _ _ _ _ (kept_stack_write _ _ _ _ _)) in R.
  run H; injection R1 as <- <-; rewrite bool_decide_eq_false_2, !andb_false_r in H by discriminate; injection H as _ <-.
  rewrite R; unfold kept_regs, cur_regs, cur_func; rewrite R0; reflexivity.
Qed.

(** ** The registers after a call *)

Section After.
Context (ops : access_ops) (w : world) (ι : links) (σ : list Z) (β : Z -> Z).

(** The loop that writes the bytes of an argument. *)
Lemma write_bytes m idx regno x l : forall A e u e', mem_ok m -> frees ops w ι A e σ m β -> regno_ok regno -> reg_get σ regno = Some x ->
  usable (get_reg e regno) = true -> type_ (get_reg e regno) = PTR_TO_STACK -> (forall i, i ∈ l -> Z.of_nat i < 2 ^ 15 /\ is_Some (m !! u64 (x + Z.of_nat i))) ->
  for_each l (fun i => check_mem_access ops idx regno (Z.of_nat i) BPF_B BPF_WRITE (-1) false) e = (inr u, e') ->
  frees ops w ι (fun b => A b \/ exists i, i ∈ l /\ b = u64 (x + Z.of_nat i)) e' σ m β /\ kept_regs e' = kept_regs e.
Proof using.
  induction l as [|i l IH]; intros A e u e' Mo F Hr Hx Us T Hl H; cbn [for_each] in H.
  - injection H as _ <-; split; [|reflexivity]; revert F; apply frees_mono; intros c [Sa|(i & Hi & _)]; [exact Sa|inversion Hi].
  - run H; pose proof (kept_mem _ _ _ _ _ _ _ _ T R) as K; destruct (Hl i ltac:(left)) as [Li Mi].
    assert (F1 : frees ops w ι (fun b => A b \/ b = u64 (x + Z.of_nat i)) env σ m β).
    { apply (frees_store ops w ι σ m β A e env (x + Z.of_nat i) Mi Mo); [|exact F]; intros m1 m2 βs y M1 St.
      destruct (store_step ops w ι e σ m1 β βs regno (Z.of_nat i) B (-1) y 0 idx false _ env M1 Hr ltac:(lia) Us ltac:(lia) R) as (x0 & m3 & βs3 & Hx0 & St3 & M3).
      rewrite Hx in Hx0; injection Hx0 as <-; cbn [msize_bytes] in St3; rewrite St in St3; injection St3 as <-; eauto. }
    pose proof (kept_reg _ _ regno K) as Kr; destruct (IH _ env u e' Mo F1 Hr Hx) as [F2 K2]; [rewrite (same_usable _ _ Kr); exact Us|rewrite <- T; exact (f_equal type_ Kr)| |exact H|].
    { intros j Hj; apply Hl; right; exact Hj. }
    split; [|congruence]; revert F2; apply frees_mono; intros c [Sa|(j & Hj & Ea)]; [auto|]; apply elem_of_cons in Hj as [->|Hj]; [auto|right; exists j; auto].
Qed.

(** A register about which nothing is known any more. *)
Lemma sim_not_init m βs r e u e' : 0 <= r <= 5 -> machine_sim ops w ι e σ m β βs ->
  (_ ← mark_reg_not_init r; _ ← catch (check_reg_arg r DST_OP_NO_MARK); mret ()) e = (inr u, e') -> machine_sim ops w ι e' σ m β βs.
Proof using.
  intros Hr M H; run H; assert (W1 : env_wf env /\ type_ (get_reg env r) = NOT_INIT /\ (forall j, 0 <= j -> j <> r -> get_reg env j = get_reg e j) /\ maps env = maps e /\ stacks env = stacks e).
  { unfold mark_reg_not_init in R; destruct (Z.geb_spec r MAX_BPF_REG); [lia|]; injection R as _ <-; assert (Rk : regno_ok r) by (split; lia).
    split; [apply put_reg_wf, M|split; [rewrite get_put_same by (try apply M; exact Rk); reflexivity|split; [|split; [reflexivity|apply stacks_upd_regs]]]].
    intros j J N; apply get_put_other; [apply M|lia|exact J|congruence]. }
  destruct W1 as (W & T & O & Em & Es); clear R; run H; injection H as _ <-.
  assert (E : env0 ≈ env).
  { unfold catch in R; destruct (check_reg_arg r DST_OP_NO_MARK env) as [[err|v] q] eqn:C; injection R as _ <-; [|apply (dst_op_ok r env v q W ltac:(lia) C)].
    unfold check_reg_arg in C; cbn [mbind verifier_bind get reg_of] in C; destruct (Z.geb_spec r MAX_BPF_REG); [lia|].
    change (bool_decide (DST_OP_NO_MARK = SRC_OP)) with false in C; destruct (Z.eqb_spec r BPF_REG_FP); [lia|]; discriminate C. }
  eapply (machine_regs ops w ι ι e env0 σ σ m β β βs M); [reflexivity|apply M|rewrite E; exact W|rewrite <- Em; exact (f_equal maps E)|rewrite <- Es; exact (stacks_same _ _ E)|apply M|].
  intros j Hj; destruct (ms_regs M j Hj) as (x & Hx & D); exists x; split; [exact Hx|]; pose proof (same_reg env0 env j E) as Er; destruct (Z.eq_dec j r) as [->|N].
  - apply cs_not_init; [rewrite <- T; exact (f_equal type_ Er)|apply D].
  - eapply cs_erase; [symmetry; exact Er|rewrite O by (try apply Hj; exact N); exact D].
Qed.

Lemma sim_caller_saved m βs e u e' : machine_sim ops w ι e σ m β βs -> clear_caller_saved_regs e = (inr u, e') -> machine_sim ops w ι e' σ m β βs.
Proof using.
  unfold clear_caller_saved_regs; assert (Hl : Forall (fun r => 0 <= r <= 5) [0; 1; 2; 3; 4; 5]) by (repeat constructor; lia); revert Hl; generalize [0; 1; 2; 3; 4; 5].
  intros l Hl; revert e; induction Hl as [|r l Hr _ IH]; intros e M H; cbn [for_each] in H; [injection H as _ <-; exact M|].
  apply bind_ok in H; destruct H as (v & e1 & R & H); exact (IH e1 (sim_not_init _ _ _ _ _ _ Hr M R) H).
Qed.
End After.

(** ** What the call returns *)

Lemma upd_r0 f e u e' : env_wf e -> upd_reg BPF_REG_0 f e = (inr u, e') -> env_wf e' /\ get_reg e' BPF_REG_0 = f (get_reg e BPF_REG_0).
Proof. intros W H; injection H as _ <-; split; [apply put_reg_wf, W|rewrite get_put_same by (try exact W; split; lia); reflexivity]. Qed.

Lemma stacks_refs k f : (forall fn, stack (f fn) = stack fn) -> fixes stacks (upd_frame k f).
Proof.
  intros H e; unfold stacks, upd_frame, modify; cbn; f_equal; apply list_eq; intros j; rewrite !list_lookup_fmap.
  destruct (decide (k = j)) as [->|N]; [|rewrite list_lookup_alter_ne by exact N; reflexivity].
  rewrite list_lookup_alter_eq; destruct (_ !! _); cbn; [rewrite H|]; reflexivity.
Qed.

Lemma stacks_kalloc : fixes stacks kalloc.
Proof. unfold kalloc; fixes_auto. Qed.

Lemma keeps_kalloc dst : keeps dst 0 kalloc.
Proof. apply keeps_cur; intros e a e' H; destruct (kalloc_run _ _ _ H) as [l ->]; split; reflexivity. Qed.

Lemma keeps_refs dst k f : (forall fn, regs (f fn) = regs fn) -> keeps dst 0 (upd_frame k f).
Proof.
  intros Hf e u e' W H; assert (E : kept_regs e' = kept_regs e) by exact (fixes_run _ _ _ _ _ (kept_frame k f Hf) H); injection H as _ <-; destruct W as [W1 W2].
  split; [split; [cbn; rewrite length_alter; exact W1|apply (f_equal length) in E; unfold kept_regs in E; rewrite !length_fmap in E; cbn in *; lia]|].
  split; [intros j _ _; exact (kept_reg _ _ j E)|cbn; lia].
Qed.

Lemma keeps_gen dst : keeps dst 1 (modify (fun env => set_id_gen env (u32 (id_gen env + 1)))).
Proof. intros e u e' W H; injection H as _ <-; split; [exact W|split; [reflexivity|]]; cbn; intros G0 G1; rewrite uwrap_id by (unfold uin; lia); lia. Qed.

#[local] Hint Resolve stacks_kalloc : fixes.

Lemma stacks_return_ids f i d : fixes stacks (mark_return_ids f i d).
Proof. unfold mark_return_ids, acquire_reference_state; fixes_auto; apply stacks_refs; reflexivity. Qed.

Lemma keeps_acquire i : keeps 0 1 (acquire_reference_state i).
Proof.
  unfold acquire_reference_state; apply keeps_bind0; [lia|apply keeps_kalloc|intros _]; apply (keeps_bind 0 1 0); [lia|lia|apply keeps_gen|intros _].
  apply keeps_bind0; [lia|apply keeps_get|intros e]; apply keeps_bind0; [lia|apply keeps_refs; reflexivity|intros _; apply keeps_ret].
Qed.

Lemma keeps_return_ids f i d : keeps 0 2 (mark_return_ids f i d).
Proof.
  unfold mark_return_ids; apply keeps_bind0; [lia|apply keeps_reg_of|intros q]; apply (keeps_bind 0 1 1); [lia|lia|apply keeps_when; [lia|apply keeps_fresh; lia]|intros _].
  apply keeps_bind0; [lia|apply keeps_get|intros e]; cbv zeta; apply keeps_if; [eapply keeps_mono; [apply keeps_upd; lia|lia]|]; apply keeps_if; [|eapply keeps_mono; [apply keeps_ret|lia]].
  apply (keeps_bind 0 1 0); [lia|lia|apply keeps_acquire|intros n]; apply keeps_if; [apply keeps_fail|apply keeps_upd; lia].
Qed.

Lemma set_ref_same q : set_ref_obj_id q (ref_obj_id q) = q.
Proof. destruct q; reflexivity. Qed.

Lemma acquire_may f t : is_acquire_function f t = true -> may_be_acquire_function f = true.
Proof.
  unfold is_acquire_function, may_be_acquire_function; cbn [existsb]; destruct (f =? BPF_FUNC_sk_lookup_tcp), (f =? BPF_FUNC_sk_lookup_udp), (f =? BPF_FUNC_skc_lookup_tcp),
    (f =? BPF_FUNC_ringbuf_reserve), (f =? BPF_FUNC_map_lookup_elem); cbn; trivial.
Qed.

Lemma acquire_run i e n e' : acquire_reference_state i e = (inr n, e') ->
  n = s32 (id_gen e') /\ id_gen e' = u32 (id_gen e + 1) /\ get_reg e' BPF_REG_0 = get_reg e BPF_REG_0 /\ (env_wf e -> env_wf e').
Proof.
  intros H; pose proof (fun W => proj1 (keeps_acquire i e n e' W H)) as Wf; unfold acquire_reference_state in H; run H; destruct (kalloc_run _ _ _ R) as [l ->]; clear R; run H; injection R as _ <-.
  run H; injection R as <- <-; run H; injection H as <- <-; pose proof (f_equal snd R) as E; cbn [snd] in E; subst env.
  split; [reflexivity|split; [reflexivity|split; [|exact Wf]]]; unfold get_reg; f_equal; rewrite frame_regs by reflexivity; reflexivity.
Qed.

(** The return register with its ids: the last id handed out if it may be NULL. *)
Lemma return_ids f i d e u e' : env_wf e -> 0 <= id_gen e -> id_gen e + 2 < 2 ^ 32 -> mark_return_ids f i d e = (inr u, e') ->
  let q := get_reg e BPF_REG_0 in let q' := get_reg e' BPF_REG_0 in
  (reg_type_may_be_null (type_ q) = false -> may_be_acquire_function f = false -> exists z, q' = set_ref_obj_id q z) /\
  (reg_type_may_be_null (type_ q) = true -> exists n z, id_gen e < n <= id_gen e' /\ q' = set_ref_obj_id (set_id q n) z).
Proof.
  cbn zeta; intros W G0 G2 H; unfold mark_return_ids in H; run H; injection R as <- <-; set (q := get_reg e BPF_REG_0) in *; run H.
  assert (F : env_wf env /\ id_gen e <= id_gen env <= id_gen e + 1 /\ get_reg env BPF_REG_0 = if reg_type_may_be_null (type_ q) then set_id q (id_gen env) else q).
  { unfold when in R; destruct (reg_type_may_be_null (type_ q)); [|injection R as _ <-; split; [exact W|split; [lia|reflexivity]]].
    injection R as _ <-; split; [apply put_reg_wf, W|split; [cbn; rewrite uwrap_id by (unfold uin; lia); lia|rewrite get_put_same by (try exact W; split; lia); reflexivity]]. }
  assert (Fn : reg_type_may_be_null (type_ q) = true -> id_gen env = id_gen e + 1).
  { intros N; unfold when in R; rewrite N in R; injection R as _ <-; cbn; rewrite uwrap_id by (unfold uin; lia); lia. }
  destruct F as (W1 & G1 & E1); clear R; run H; injection R as <- <-; destruct (is_ptr_cast_function f).
  { destruct (upd_r0 _ _ _ _ W1 H) as [_ ->]; injection H as _ <-; cbn; rewrite E1; split; intros N; rewrite N; [eauto|]; specialize (Fn N); exists (id_gen env), (u32 (meta_ref_obj_id d)); split; [lia|reflexivity]. }
  match type of H with (if ?c then _ else _) _ = _ => destruct c eqn:Ac end.
  - run H; destruct (acquire_run _ _ _ _ R) as (Ea & G3 & E3 & W3); specialize (W3 W1); destruct (Z.ltb_spec a0 0) as [|A0]; [discriminate|]; destruct (upd_r0 _ _ _ _ W3 H) as [_ ->]; injection H as _ <-.
    rewrite uwrap_id in G3 by (unfold uin; lia); rewrite G3 in Ea; assert (Es : a0 = id_gen env + 1).
    { rewrite Ea in A0 |- *; destruct (swrap_near 32 ltac:(lia) (id_gen env + 1) ltac:(lia)) as [Q0 Q]; unfold sin in Q0; lia. }
    cbn [id_gen put_reg upd_regs upd_cur_func set_cur_state]; rewrite E3, E1; split; intros N; [intros Nq; rewrite (acquire_may _ _ Ac) in Nq; discriminate|]; rewrite N; exists a0, a0; split; [cbn; lia|reflexivity].
  - injection H as _ <-; rewrite E1; split; intros N; rewrite N; [intros _; exists (ref_obj_id q); symmetry; apply set_ref_same|]; specialize (Fn N).
    exists (id_gen env), (ref_obj_id q); split; [lia|destruct q; reflexivity].
Qed.

(** What a look-up in a map returns if it is not NULL. *)
Definition looked_up (w : world) (map x : Z) : Prop :=
  let mp := w_maps w !!! map in
  if negb (inner_map_meta mp =? 0) then w_map w (inner_map_meta mp) x
  else if (map_type mp =? BPF_MAP_TYPE_XSKMAP) || (map_type mp =? BPF_MAP_TYPE_SOCKMAP) || (map_type mp =? BPF_MAP_TYPE_SOCKHASH) then True
  else w_value w map x.

(** What the prototype says about the result [x]. *)
Definition returns (fn : bpf_func_proto) (w : world) (map x : Z) : Prop :=
  match ret_type fn with
  | RET_PTR_TO_MAP_VALUE => w_value w map x
  | RET_PTR_TO_MAP_VALUE_OR_NULL => x <> 0 -> looked_up w map x
  | _ => True
  end.

Definition ret_modelled (func_id : Z) (fn : bpf_func_proto) : bool :=
  match ret_type fn with
  | RET_INTEGER | RET_VOID | RET_PTR_TO_MAP_VALUE => negb (may_be_acquire_function func_id)
  | RET_PTR_TO_MAP_VALUE_OR_NULL => true
  | _ => false
  end.

(** The return register before its ids. *)
Definition returned (fn : bpf_func_proto) (map g : Z) (q : bpf_reg_state) : Prop :=
  match ret_type fn with
  | RET_INTEGER => type_ q = SCALAR_VALUE /\ id q = 0 /\ forall x, uin 64 x -> reg_inv q x
  | RET_VOID => type_ q = NOT_INIT
  | RET_PTR_TO_MAP_VALUE => type_ q = PTR_TO_MAP_VALUE /\ raw q = map /\ off q = 0 /\ reg_inv q 0 /\ (id q = 0 \/ id q <= g)
  | RET_PTR_TO_MAP_VALUE_OR_NULL => type_ q = PTR_TO_MAP_VALUE_OR_NULL /\ raw q = map /\ off q = 0 /\ reg_inv q 0
  | _ => False
  end.

Lemma zero_r0 e u e' : env_wf e -> mark_reg_known_zero BPF_REG_0 e = (inr u, e') ->
  env_wf e' /\ id (get_reg e' BPF_REG_0) = 0 /\ off (get_reg e' BPF_REG_0) = 0 /\ reg_inv (get_reg e' BPF_REG_0) 0.
Proof.
  intros W H; unfold mark_reg_known_zero in H; change (BPF_REG_0 >=? MAX_BPF_REG) with false in H; cbn iota in H.
  destruct (upd_r0 _ _ _ _ W H) as [W' ->]; split; [exact W'|split; [reflexivity|split; [reflexivity|]]]; apply (mark_known_inv _ 0); split; lia.
Qed.

Lemma mark_returned hops fn func_id d e u e' : ret_modelled func_id fn = true -> env_wf e -> mark_return hops fn d e = (inr u, e') ->
  env_wf e' /\ returned fn (meta_map_ptr d) (id_gen e') (get_reg e' BPF_REG_0).
Proof.
  intros Rm W H; unfold ret_modelled, mark_return, returned in *; destruct (ret_type fn); try discriminate Rm; cbv zeta in H.
  - rewrite mark_unknown_run in H by (split; lia); injection H as _ <-; split; [apply put_reg_wf, W|]; rewrite get_put_same by (try exact W; split; lia).
    split; [reflexivity|split; [apply unknown_id|intros x; apply mark_unknown_inv]].
  - destruct (upd_r0 _ _ _ _ W H) as [W' ->]; auto.
  - run H; run R; destruct (zero_r0 _ _ _ W R0) as (W1 & I1 & O1 & V1); match type of R with (if ?c then _ else _) _ = _ => destruct c; [discriminate|] end.
    run R; destruct (upd_r0 _ _ _ _ W1 R1) as [W2 E2]; destruct (upd_r0 _ _ _ _ W2 R) as [W3 E3]; run H; injection R2 as <- <-.
    rewrite E2 in E3; assert (Q : env_wf e' /\ exists i, get_reg e' BPF_REG_0 = set_id (get_reg env BPF_REG_0) i /\ (i = 0 \/ i <= id_gen e')).
    { unfold when in H; destruct (map_value_has_spin_lock _).
      - injection H as _ <-; split; [apply put_reg_wf, W3|]; eexists; rewrite get_put_same by (try exact W3; split; lia); split; [reflexivity|right; reflexivity].
      - injection H as _ <-; split; [exact W3|]; exists 0; split; [|auto]; rewrite E3; destruct (get_reg env0 BPF_REG_0); cbn in *; subst; reflexivity. }
    destruct Q as (W4 & i & E4 & Hi); split; [exact W4|]; rewrite E4, E3; split; [reflexivity|split; [reflexivity|split; [exact O1|split; [exact V1|exact Hi]]]].
  - run H; destruct (zero_r0 _ _ _ W R) as (W1 & I1 & O1 & V1); match type of H with (if ?c then _ else _) _ = _ => destruct c; [discriminate|] end.
    run H; destruct (upd_r0 _ _ _ _ W1 R0) as [W2 E2]; destruct (upd_r0 _ _ _ _ W2 H) as [W3 E3]; rewrite E2 in E3; split; [exact W3|]; rewrite E3; split; [reflexivity|split; [reflexivity|split; [exact O1|exact V1]]].
Qed.

Lemma keeps_return hops fn func_id d : ret_modelled func_id fn = true -> keeps 0 1 (mark_return hops fn d).
Proof.
  intros Rm; assert (Z0 : keeps 0 0 (mark_reg_known_zero BPF_REG_0)) by (apply keeps_zero; split; lia); unfold ret_modelled, mark_return in *; destruct (ret_type fn); try discriminate Rm; cbv zeta.
  - eapply keeps_mono; [apply keeps_unknown; split; lia|lia].
  - eapply keeps_mono; [apply keeps_upd; lia|lia].
  - apply keeps_bind0; [lia| |intros _; apply keeps_bind0; [lia|apply keeps_get|intros e; apply keeps_when; [lia|apply keeps_fresh; lia]]].
    apply keeps_bind0; [lia|exact Z0|intros _]; apply keeps_if; [apply keeps_fail|apply keeps_bind0; [lia|apply keeps_upd; lia|intros _; apply keeps_upd; lia]].
  - apply keeps_bind0; [lia|exact Z0|intros _]; eapply keeps_mono; [apply keeps_if; [apply keeps_fail|apply keeps_bind0; [lia|apply keeps_upd; lia|intros _; apply keeps_upd; lia]]|lia].
Qed.

#[local] Hint Resolve stacks_zero : fixes.

Lemma stacks_return hops fn d : fixes stacks (mark_return hops fn d).
Proof. unfold mark_return; cbv zeta; destruct (ret_type fn); fixes_auto. Qed.

(** The return register describes what the helper returned. *)
Lemma looked_up_points w ι q x : type_ q = PTR_TO_MAP_VALUE_OR_NULL -> looked_up w (raw q) x -> points_to w ι (not_null_type (w_maps w) q) x x.
Proof.
  intros T L; unfold not_null_type, looked_up in *; rewrite T; cbv zeta in *; destruct (negb _); [exact L|]; destruct (_ =? BPF_MAP_TYPE_XSKMAP); cbn [orb] in L; [exact Logic.I|].
  destruct (_ || _); [exact Logic.I|exact L].
Qed.

Lemma points_at_zero q x : type_ q <> NOT_INIT -> type_ q <> SCALAR_VALUE -> off q = 0 -> reg_inv q 0 -> uin 64 x -> reg_sim q x x.
Proof.
  intros T1 T2 O V U; split; [exact U|]; assert (Q : sin 32 (off q) /\ exists v, reg_inv q v /\ x = u64 (x + off q + v)).
  { rewrite O; split; [split; lia|]; exists 0; split; [exact V|]; rewrite !Z.add_0_r, uwrap_id by exact U; reflexivity. }
  destruct (type_ q); trivial; contradiction.
Qed.

Lemma return_linked w ι fn func_id i d e u e' map x : ret_modelled func_id fn = true -> env_wf e -> returned fn map (id_gen e) (get_reg e BPF_REG_0) ->
  links_ok ι -> l_gen ι <= id_gen e -> 0 <= id_gen e -> id_gen e + 2 < 2 ^ 32 -> mark_return_ids func_id i d e = (inr u, e') -> uin 64 x -> returns fn w map x ->
  linked w ι e' (get_reg e' BPF_REG_0) x x.
Proof.
  intros Rm W Rt K Lg G0 G2 H U Rx; destruct (return_ids _ _ _ _ _ _ W G0 G2 H) as [Q1 Q2]; pose proof (proj2 (proj2 (keeps_return_ids _ _ _ _ _ _ W H)) G0 G2) as G; clear H.
  set (q := get_reg e BPF_REG_0) in *; set (q' := get_reg e' BPF_REG_0) in *; clearbody q q'; unfold ret_modelled, returned, returns in *.
  destruct (ret_type fn); try contradiction.
  - destruct Rt as (T & I & V); destruct (Q1 ltac:(rewrite T; reflexivity) ltac:(apply negb_true_iff, Rm)) as [z ->]; exists ι; split; [reflexivity|split; [exact K|split; [lia|]]].
    apply cs_scalar; [exact T|exact I|exact (V x U)|exact U].
  - destruct (Q1 ltac:(rewrite Rt; reflexivity) ltac:(apply negb_true_iff, Rm)) as [z ->]; exists ι; split; [reflexivity|split; [exact K|split; [lia|]]]; apply cs_not_init; [exact Rt|exact U].
  - destruct Rt as (T & Rw & O & V & I); destruct (Q1 ltac:(rewrite T; reflexivity) ltac:(apply negb_true_iff, Rm)) as [z ->].
    exists (mk_links (l_ids ι) (l_var ι) (id_gen e')); split; [split; cbn; [lia|auto..]|split; [split; cbn; apply K|split; [cbn; lia|]]]; split.
    + apply points_at_zero; cbn; rewrite ?T; try discriminate; assumption.
    + unfold points_ok, points_to; cbn; rewrite T; cbn; rewrite Rw; exact Rx.
    + intros k L; rewrite link_none in L by (right; cbn; rewrite T; split; [discriminate|reflexivity]); discriminate.
    + intros _; cbn; destruct I; [auto|right; lia].
  - destruct Rt as (T & Rw & O & V); destruct (Q2 ltac:(rewrite T; reflexivity)) as (n & z & Hn & ->); destruct (link_value_ok ι n x K ltac:(lia)) as [X Kv].
    exists (link_value ι n x); split; [exact X|split; [exact Kv|split; [cbn; lia|]]]; split.
    + apply points_at_zero; cbn; rewrite ?T; try discriminate; assumption.
    + unfold points_ok; cbn [type_ set_ref_obj_id set_id]; rewrite T; intros N; apply looked_up_points; [exact T|cbn; rewrite Rw; exact (Rx N)].
    + intros [t k] L; destruct (link_id _ _ _ L) as (-> & _); cbn; rewrite Z.eqb_refl; reflexivity.
    + intros _; right; cbn; lia.
Qed.

(** ** Calls *)

(** The helpers the machine is followed through.  Not among them are those that
    move the packet, release a reference or never return, and those whose result
    is bounded by the size of their memory. *)
Definition call_modelled (func_id : Z) (fn : bpf_func_proto) : bool :=
  args_modelled fn && ret_modelled func_id fn && negb (changes_pkt_data fn) && negb (is_release_function func_id) && negb (func_id =? BPF_FUNC_tail_call) &&
  negb (existsb (Z.eqb func_id) [BPF_FUNC_get_stack; BPF_FUNC_probe_read_str; BPF_FUNC_probe_read_kernel_str; BPF_FUNC_probe_read_user_str]).

Definition whole_stacks (e : bpf_verifier_env) : bool := forallb (fun fn => forallb whole_slot (stack fn)) (frame (cur_state e)).

Lemma whole_stacks_whole e : whole_stacks e = true -> whole e.
Proof.
  unfold whole_stacks; intros H k spi s Hs; rewrite forallb_forall in H; unfold frame_of in Hs; rewrite list_lookup_total_alt in Hs.
  destruct (frame (cur_state e) !! k) as [fn|] eqn:Ek; [|discriminate Hs]; specialize (H fn ltac:(apply list_elem_of_In, (list_elem_of_lookup_2 _ k), Ek)); rewrite forallb_forall in H.
  apply H, list_elem_of_In, (list_elem_of_lookup_2 _ spi), Hs.
Qed.

(** The calls the machine is followed through. *)
Definition call_covered (hops : helper_ops) (func_id : Z) (e : bpf_verifier_env) : bool :=
  match get_func_proto hops func_id with
  | Some fn => call_modelled func_id fn && whole_stacks e && (id_gen e <? 2 ^ 31) && forallb (arg_covered fn e) (seq 0 5)
  | None => false
  end.

(** What a helper of the kernel promises: on arguments the verifier lets through
    it returns, has changed only memory it may write, and returns what its
    prototype says. *)
Definition helper_fits (hops : helper_ops) (acc : access_ops) (w : world) (helper : Z -> list Z -> memory -> option (Z * memory)) : Prop :=
  forall func_id fn map xs m, get_func_proto hops func_id = Some fn -> call_modelled func_id fn = true -> length xs = 5%nat -> Forall (uin 64) xs ->
    mem_ok m -> world_ok acc w m -> args_hold fn w m map xs ->
    exists r m', helper func_id xs m = Some (r, m') /\ changed (may_write fn w map xs) m m' /\ returns fn w map (u64 r).

Section Call.
Context (hops : helper_ops) (ops : access_ops) (w : world) (ι : links) (e : bpf_verifier_env) (σ : list Z) (m : memory) (β : Z -> Z) (βs : nat -> nat -> Z).
Context (M : machine_sim ops w ι e σ m β βs) (Hg : l_gen ι <= id_gen e) (G0 : 0 <= id_gen e) (func_id idx : Z) (fn : bpf_func_proto) (Md : call_modelled func_id fn = true).

(** The values of the argument registers. *)
Lemma call_args : exists xs, mapM (reg_get σ) [1; 2; 3; 4; 5] = Some xs /\ length xs = 5%nat /\ Forall (uin 64) xs /\
  forall i, (i < 5)%nat -> reg_get σ (1 + Z.of_nat i) = Some (xs !!! i).
Proof using M.
  destruct (ms_regs M 1 ltac:(split; lia)) as (x1 & E1 & D1), (ms_regs M 2 ltac:(split; lia)) as (x2 & E2 & D2), (ms_regs M 3 ltac:(split; lia)) as (x3 & E3 & D3),
    (ms_regs M 4 ltac:(split; lia)) as (x4 & E4 & D4), (ms_regs M 5 ltac:(split; lia)) as (x5 & E5 & D5).
  exists [x1; x2; x3; x4; x5]; cbn [mapM mbind option_bind]; rewrite E1, E2, E3, E4, E5; split; [reflexivity|split; [reflexivity|split]].
  - repeat constructor; first [apply D1|apply D2|apply D3|apply D4|apply D5].
  - intros i Hi; destruct i as [|[|[|[|[|i]]]]]; [exact E1|exact E2|exact E3|exact E4|exact E5|lia].
Qed.

Lemma start_passed : whole_stacks e = true -> passed ops w ι σ m β e (w_region w) e.
Proof using M.
  intros W; split; [exact (frees_region ops w ι σ m β e βs M)|exact (whole_stacks_whole e W)|auto|reflexivity|reflexivity|intros a Ra; apply (wk_region _ _ _ (ms_world M) a Ra)].
Qed.

Lemma call_written xs d A e1 e2 u e3 : args_passed ops w ι σ m β e fn xs 5 d A e1 -> outline e2 = outline e1 ->
  for_each (seq 0 (Z.to_nat (meta_access_size d))) (fun i => check_mem_access ops idx (meta_regno d) (Z.of_nat i) BPF_B BPF_WRITE (-1) false) e2 = (inr u, e3) ->
  frees ops w ι (may_write fn w (meta_map_ptr d) xs) e3 σ m β /\ args_hold fn w m (meta_map_ptr d) xs.
Proof using M.
  intros Ap E H; pose proof (passed_outline _ _ _ _ _ _ _ _ _ _ E (ap_passed _ _ _ _ _ _ _ _ _ _ _ _ _ Ap)) as P; pose proof (ap_args _ _ _ _ _ _ _ _ _ _ _ _ _ Ap) as Ar.
  split.
  - assert (Q : frees ops w ι (fun a => A a \/ exists x j, opened w σ m e A d x /\ 0 <= j < meta_access_size d /\ a = u64 (x + j)) e3 σ m β).
    { destruct (ap_open _ _ _ _ _ _ _ _ _ _ _ _ _ Ap) as [Z0|[x Op]].
      - rewrite Z0 in H; injection H as _ <-; refine (frees_mono _ _ _ _ _ _ _ _ _ _ (ps_frees _ _ _ _ _ _ _ _ _ P)); intros a [Aa|(x & j & _ & Hj & _)]; [exact Aa|lia].
      - pose proof Op as (Hr & Hx & Us & T & Le & Sp); pose proof (ps_regs _ _ _ _ _ _ _ _ _ P (meta_regno d)) as Er.
        destruct (write_bytes ops w ι σ β m idx (meta_regno d) x (seq 0 (Z.to_nat (meta_access_size d))) A e2 u e3 (ms_mem M) (ps_frees _ _ _ _ _ _ _ _ _ P) Hr Hx) as [F _]; [rewrite (same_usable _ _ Er); exact Us|rewrite <- T; exact (f_equal type_ Er)| |exact H|].
        + intros i Hi; apply elem_of_seq in Hi; split; [lia|apply (Sp (Z.of_nat i)); lia].
        + refine (frees_mono _ _ _ _ _ _ _ _ _ _ F); intros a [Aa|(y & j & Oy & Hj & ->)]; [left; exact Aa|right]; destruct Oy as (_ & Hy & _); rewrite Hx in Hy; injection Hy as <-.
          exists (Z.to_nat j); split; [apply elem_of_seq; lia|rewrite Z2Nat.id by lia; reflexivity]. }
    revert Q; apply frees_mono; intros a [Ra|(Nc & i & x & n & j & Hi & Eb & Hj & ->)]; [left; apply (ps_region _ _ _ _ _ _ _ _ _ P), Ra|].
    destruct (Ar i Hi) as [_ B]; unfold bytes_ok in B; rewrite Eb in B; destruct B as [Sp|(_ & Nn & Op)]; [|right; exists x, j; split; [exact Op|split; [lia|reflexivity]]].
    destruct (Sp j Hj) as [_ [Aa|[[Rr _]|[_ [c Hc]]]]]; [left; exact Aa|discriminate|congruence].
  - intros i Hi; destruct (Ar i Hi) as [Ah B]; split; [exact Ah|]; unfold bytes_ok in B; destruct (arg_bytes fn w (meta_map_ptr d) xs i) as [[x n]|]; [|exact Logic.I].
    intros j Hj; destruct B as [Sp|(_ & Nn & (_ & _ & _ & _ & _ & Sp))]; destruct (Sp j ltac:(lia)) as [X Y]; (split; [exact X|intros Wr]).
    + destruct Y as [Aa|[[Rr _]|[Rr _]]]; [exact (ps_const _ _ _ _ _ _ _ _ _ P _ Aa)|discriminate|rewrite Wr in Rr; discriminate].
    + destruct Y as [Aa|[[_ Nc]|[Rr _]]]; [exact (ps_const _ _ _ _ _ _ _ _ _ P _ Aa)|exact Nc|discriminate].
Qed.

(** The end of a call. *)
Definition finish_call (d : bpf_call_arg_meta) : verifier unit :=
  _ ← upd_reg BPF_REG_0 (fun reg => set_subreg_def reg DEF_NOT_SUBREG);
  _ ← mark_return hops fn d;
  _ ← mark_return_ids func_id idx d;
  _ ← do_refine_retval_range (ret_type fn) func_id d;
  _ ← check_map_func_compatibility (meta_map_ptr d) func_id;
  _ ← helper_callchain hops func_id;
  when (changes_pkt_data fn) clear_all_pkt_pointers.

Lemma model_fields : args_modelled fn = true /\ ret_modelled func_id fn = true /\ changes_pkt_data fn = false /\ is_release_function func_id = false /\ (func_id =? BPF_FUNC_tail_call) = false /\
  existsb (Z.eqb func_id) [BPF_FUNC_get_stack; BPF_FUNC_probe_read_str; BPF_FUNC_probe_read_kernel_str; BPF_FUNC_probe_read_user_str] = false.
Proof using Md. unfold call_modelled in Md; rewrite !andb_true_iff, !negb_true_iff in Md; tauto. Qed.

Lemma compatible_env map e1 u e2 : check_map_func_compatibility map func_id e1 = (inr u, e2) -> e2 = e1.
Proof using.
  unfold check_map_func_compatibility; intros H; run H; injection R as <- <-; repeat match type of H with (if ?c then _ else _) _ = _ => destruct c; try discriminate H end; injection H as _ <-; reflexivity.
Qed.

Lemma callchain_cur e1 u e2 : helper_callchain hops func_id e1 = (inr u, e2) -> cur_state e2 = cur_state e1 /\ id_gen e2 = id_gen e1.
Proof using.
  unfold helper_callchain; intros H; run H; injection R as <- <-; run H; assert (E : cur_state env = cur_state e1 /\ id_gen env = id_gen e1).
  { unfold when in R; destruct (_ && _); [destruct (negb _); [discriminate|]|]; injection R as _ <-; auto. }
  clear R; unfold when in H; destruct (_ || _); injection H as _ <-; exact E.
Qed.

Lemma finished d e1 u e2 : env_wf e1 -> finish_call d e1 = (inr u, e2) -> l_gen ι <= id_gen e1 -> 0 <= id_gen e1 -> id_gen e1 + 3 < 2 ^ 32 -> links_ok ι ->
  others 0 3 e1 e2 /\ stacks e2 = stacks e1 /\ forall x, uin 64 x -> returns fn w (meta_map_ptr d) x -> linked w ι e2 (get_reg e2 BPF_REG_0) x x.
Proof using Md.
  intros W H Lg G1 G3 K; destruct model_fields as (_ & Rm & Cp & _ & _ & Rf); unfold finish_call in H.
  run H; pose proof (keeps_upd 0 _ ltac:(lia) _ _ _ W R) as O1; pose proof (fixes_run _ _ _ _ _ (stacks_reg _ _) R) as S1; pose proof (proj1 O1) as W1; pose proof (proj2 (proj2 O1) G1 ltac:(lia)) as B1; clear R.
  run H; pose proof (keeps_return _ _ _ _ Rm _ _ _ W1 R) as O2; pose proof (fixes_run _ _ _ _ _ (stacks_return _ _ _) R) as S2; pose proof (mark_returned _ _ _ _ _ _ _ Rm W1 R) as [W2 Rt].
  pose proof (proj2 (proj2 O2) ltac:(lia) ltac:(lia)) as B2; clear R.
  run H; pose proof (keeps_return_ids _ _ _ _ _ _ W2 R) as O3; pose proof (fixes_run _ _ _ _ _ (stacks_return_ids _ _ _) R) as S3.
  pose proof (fun x => return_linked w ι fn func_id idx d env0 _ env1 (meta_map_ptr d) x Rm W2 Rt K ltac:(lia) ltac:(lia) ltac:(lia) R) as Ln; clear R.
  assert (Q : others 0 3 e1 env1) by (refine (others_trans 0 1 2 _ env0 _ ltac:(lia) ltac:(lia) (others_trans 0 0 1 _ env _ ltac:(lia) ltac:(lia) O1 O2) O3)).
  run H; unfold do_refine_retval_range in R; rewrite Rf in R; assert (env2 = env1) as -> by (destruct (ret_type fn); injection R as _ <-; reflexivity); clear R.
  run H; apply compatible_env in R as ->; run H; apply callchain_cur in R as [Ec Eg]; rewrite Cp in H; injection H as _ <-.
  destruct Q as (Qw & Qr & Qg); split; [|split].
  - unfold others, env_wf, get_reg, cur_regs, cur_func; rewrite Ec, Eg; split; [exact Qw|split; [exact Qr|exact Qg]].
  - rewrite (stacks_cur _ _ Ec); congruence.
  - intros x U Rx; destruct (Ln x U Rx) as (ι' & X & K' & L' & D); exists ι'; split; [exact X|split; [exact K'|split; [lia|]]].
    unfold get_reg, cur_regs, cur_func; rewrite Ec; exact D.
Qed.

Lemma recorded_map d e1 u e2 : record_func_map d func_id idx e1 = (inr u, e2) -> outline e2 = outline e1.
Proof using. refine (fixes_run outline _ _ _ _ _); unfold record_func_map, upd_aux_at; fixes_auto. Qed.

Lemma recorded_key d e1 u e2 : record_func_key d func_id idx e1 = (inr u, e2) -> outline e2 = outline e1.
Proof using Md.
  destruct model_fields as (_ & _ & _ & _ & T & _); unfold record_func_key; intros H; run H; injection R as <- <-; rewrite T in H; injection H as _ <-; reflexivity.
Qed.

Lemma gens_bytes r l : gens (Z.of_nat (length l)) (for_each l (fun i => check_mem_access ops idx r (Z.of_nat i) BPF_B BPF_WRITE (-1) false)).
Proof using.
  induction l as [|i l IH]; cbn [for_each length]; [apply gens_fixes; [lia|apply fixes_ret]|].
  replace (Z.of_nat (S (length l))) with (1 + Z.of_nat (length l)) by lia; apply gens_bind; [apply gens_mem|intros _; exact IH|lia|lia].
Qed.

(** The machine after a call, from the state in which the scratched registers are
    forgotten. *)
Lemma call_finished d e1 u e2 m' βs' r : machine_sim ops w ι e1 σ m' β βs' -> maps e2 = maps e1 -> finish_call d e1 = (inr u, e2) ->
  l_gen ι <= id_gen e1 -> 0 <= id_gen e1 -> id_gen e1 + 3 < 2 ^ 32 -> returns fn w (meta_map_ptr d) (u64 r) ->
  machine_after ops w ι e2 (<[0%nat := u64 r]> σ) m'.
Proof using Md.
  intros M1 Em H L1 G1 G3 Rt; pose proof (ms_links M1) as K; pose proof (ms_len _ _ _ _ _ _ _ _ M1) as Ln; assert (U : uin 64 (u64 r)) by (apply uwrap_range; lia).
  destruct (finished d e1 u e2 (ms_wf M1) H L1 G1 G3 K) as ((W & O & G) & Es & Q); destruct (Q _ U Rt) as (ι' & X & K' & Lg & D); specialize (G G1 G3).
  exists ι', (upd_base β 0 (u64 r)), βs'; split; [|split; [exact X|split; [exact Lg|lia]]].
  eapply machine_regs; try eassumption; [rewrite length_insert; exact Ln|]; intros r1 H1; unfold upd_base; destruct (Z.eqb_spec r1 0) as [->|N].
  - exists (u64 r); split; [exact (get_set_same σ 0 _ Ln ltac:(lia))|exact D].
  - destruct (ms_regs M1 r1 H1) as (x & Hx & Dx); exists x; split; [etrans; [apply (get_set_other σ 0 r1)|exact Hx]; unfold regno_ok in *; lia|].
    eapply cs_erase; [symmetry; apply O; [apply H1|exact N]|exact (describes_extends _ _ _ _ _ _ X Dx)].
Qed.
End Call.

#[export] Instance program_call_view : CallView program.
Proof. split; [exact program_view|reflexivity..]. Qed.

#[export] Instance head_call_view : CallView head.
Proof. split; [exact head_view|reflexivity..]. Qed.

(** A call the verifier accepts returns on the machine, and the machine is
    described after it. *)
Theorem call_after hops ops w helper ι e σ m β βs func_id idx u e' : machine_sim ops w ι e σ m β βs -> l_gen ι <= id_gen e -> 0 <= id_gen e ->
  helper_fits hops ops w helper -> call_covered hops func_id e = true -> check_helper_call hops ops func_id idx e = (inr u, e') ->
  exists xs r m', mapM (reg_get σ) [1; 2; 3; 4; 5] = Some xs /\ helper func_id xs m = Some (r, m') /\ machine_after ops w ι e' (<[0%nat := u64 r]> σ) m'.
Proof.
  intros M Hg G0 Fit Cv H; unfold call_covered in Cv; pose proof (fixes_run _ _ _ _ _ (fixes_helper program hops ops func_id idx) H) as Ep; apply program_maps in Ep.
  unfold check_helper_call in H; run H; injection R as <- <-; match type of H with (if ?c then _ else _) _ = _ => destruct c; [discriminate|] end.
  destruct (get_func_proto hops func_id) as [fn|] eqn:Ef; [|discriminate]; rewrite !andb_true_iff in Cv; destruct Cv as (((Md & Wh) & G31) & Ca); apply Z.ltb_lt in G31.
  do 4 match type of H with (if ?c then _ else _) _ = _ => destruct c eqn:?Pr; [discriminate|] end; apply negb_false_iff in Pr2; unfold check_func_proto in Pr2; rewrite !andb_true_iff in Pr2.
  destruct Pr2 as (((_ & Pr2) & _) & _); clear Pr Pr0 Pr1; rewrite forallb_forall in Ca; destruct (call_args _ _ _ _ _ _ _ _ M) as (xs & Ex & Ln & Ux & Hx).
  pose proof (model_fields _ _ Md) as (Am & _ & _ & Rl & Tc & _).
  assert (Cv : forall i, (i < 5)%nat -> arg_covered fn e i = true) by (intros i Hi; apply Ca, in_seq; lia); clear Ca.
  run H; destruct (args_checked hops ops w ι σ m β e (ms_mem M) fn func_id xs Hx Am Pr2 Cv _ _ _ _ _ (start_passed _ _ _ _ _ _ _ _ M Wh) R) as [A Ap].
  pose proof (fixes_run _ _ _ _ _ (fixes_args id_gen hops fn func_id _ _) R) as I1; clear R.
  run H; apply recorded_map in R; run H; apply (recorded_key _ idx fn Md) in R0; pose proof (eq_trans R0 R) as Eo; clear R R0; apply outline_fields in Eo as Ei; destruct Ei as (_ & _ & Ei).
  run H; destruct (call_written _ _ _ _ _ _ _ _ M idx fn xs _ _ _ _ _ _ Ap Eo R) as [F Ah].
  pose proof (gens_bytes ops idx _ _ _ _ _ R) as I2; rewrite length_seq in I2; clear R.
  assert (N : meta_access_size a <= MAX_STACK) by (destruct (ap_open _ _ _ _ _ _ _ _ _ _ _ _ _ Ap) as [->|(x & Op)]; [lia|apply Op]).
  specialize (I2 ltac:(lia) ltac:(lia)); run H; unfold helper_references in R; rewrite Tc, Rl in R; injection R as _ <-.
  run H; injection R as <- <-; match type of H with (if ?c then _ else _) _ = _ => destruct c; [discriminate|] end; run H.
  destruct (Fit func_id fn _ xs m Ef Md Ln Ux (ms_mem M) (ms_world M) Ah) as (r & m' & Eh & Ch & Rt); destruct (F m' Ch) as [βs' M2].
  pose proof (sim_caller_saved _ _ _ _ _ _ _ _ _ _ M2 R) as M3; pose proof (fixes_run _ _ _ _ _ (fixes_caller_saved id_gen) R) as I3.
  exists xs, r, m'; split; [exact Ex|split; [exact Eh|]]; refine (call_finished _ _ _ _ _ _ _ _ fn Md _ _ _ _ _ _ _ M3 _ H _ _ _ Rt); [|lia..].
  rewrite Ep, (ms_maps M); symmetry; exact (ms_maps M3).
Qed.
