(* ===== verification/DoCheckSafe.v ===== *)
(** Programs the loop accepts, on the machine: an accepted run has followed every
    machine its first state describes ([loop_safe]). *)
From Stdlib Require Import ZArith Lia Bool.
From stdpp Require Import base list gmap.
From S2P Require Import Prelude Lists Bits Tnum Bounds RegState ScalarOps Insn Interp Env Branch MemAccess RegArg Precision Bookkeeping Alu Frame AluSound PtrSound AluStep.
From S2P Require Import CondJmp CondJmpSound AluFrame AluIds StackAccess StackSound StackVar MemInsn MemFrame MemStep AluMachine JumpMachine.
From S2P Require Import Pruning Explore HelperCall DoCheck DoCheckFrame DoCheckMachine HelperMachine.

Local Open Scope Z_scope.
Local Open Scope kint_scope.

(** ** Runs that are covered *)

(** The instructions the machine can be followed through, in the state before
    them.  Calls of other functions of the program, packet loads through LD_ABS
    and accesses through pointers that are rewritten later are not; neither is
    the addition of a stack pointer of another frame to a scalar, nor a jump whose
    direction is predicted from the type of a pointer.  Calls of helpers are those
    of [call_covered] that leave the counter of ids below its width. *)
Definition covered (ops : check_ops) (insn : bpf_insn) (e : bpf_verifier_env) : bool :=
  (0 <=? insn_idx e) && (id_gen e + 2 <? 2 ^ 32) &&
  match jumptable (insn_code insn) with
  | L_ALU _ _ | L_ALU64 _ _ | L_ALU_NEG | L_ALU64_NEG | L_ALU_END_TO_BE | L_ALU_END_TO_LE => same_frame insn e
  | L_LDX_MEM _ => usable (get_reg e (insn_src insn))
  | L_STX_MEM _ | L_STX_XADD _ | L_ST_MEM _ => usable (get_reg e (insn_dst insn))
  | L_JMP _ _ | L_JMP32 _ _ => negb (reg_type_not_null (type_ (get_reg e (insn_dst insn))))
  | L_JMP_JA => true
  | L_JMP_CALL =>
    negb (insn_src insn =? BPF_PSEUDO_CALL) && call_covered (ck_helper ops) (insn_imm insn) e &&
    match check_insn ops insn e with (inr _, e') => id_gen e <=? id_gen e' | _ => true end
  | L_JMP_EXIT => (curframe (cur_state e) =? 0)%nat
  | L_LD_IMM_DW => (insn_idx e + 1 <? Z.of_nat (length (prog e))) && negb (insn_src insn =? BPF_PSEUDO_BTF_ID)
  | _ => false
  end.

Definition covered_round (ops : check_ops) (prev : Z) (e : bpf_verifier_env) : bool :=
  match enter_insn ops prev e with
  | (inr false, e) => covered ops (prog e !!! Z.to_nat (insn_idx e)) e
  | _ => false
  end.

Fixpoint covered_loop (ops : check_ops) (fuel : nat) (prev : Z) (e : bpf_verifier_env) : bool :=
  match fuel with
  | O => true
  | S fuel =>
    covered_round ops prev e &&
    match do_check_round ops prev e with
    | (inr (Some prev), e) => covered_loop ops fuel prev e
    | _ => true
    end
  end.

(** ** Instructions and labels *)

(** The dispatch of [check_insn] follows the labels of the machine. *)
Definition dispatch_ok (code : Z) : bool :=
  let class := BPF_CLASS code in
  let jmp := (class =? BPF_JMP) || (class =? BPF_JMP32) in
  match jumptable code with
  | L_ALU _ _ | L_ALU64 _ _ | L_ALU_NEG | L_ALU64_NEG | L_ALU_END_TO_BE | L_ALU_END_TO_LE => alu_class code
  | L_LDX_MEM _ => class =? BPF_LDX
  | L_STX_MEM _ | L_STX_XADD _ => class =? BPF_STX
  | L_ST_MEM _ => class =? BPF_ST
  | L_JMP _ _ => (class =? BPF_JMP) && negb (existsb (Z.eqb (BPF_OP code)) [BPF_CALL; BPF_JA; BPF_EXIT])
  | L_JMP32 _ _ => (class =? BPF_JMP32) && negb (existsb (Z.eqb (BPF_OP code)) [BPF_CALL; BPF_JA; BPF_EXIT])
  | L_JMP_JA => (class =? BPF_JMP) && (BPF_OP code =? BPF_JA)
  | L_JMP_CALL => (class =? BPF_JMP) && (BPF_OP code =? BPF_CALL)
  | L_JMP_EXIT => (class =? BPF_JMP) && (BPF_OP code =? BPF_EXIT)
  | L_LD_IMM_DW => (class =? BPF_LD) && (BPF_MODE code =? BPF_IMM)
  | _ => true
  end.

Lemma dispatch code : uin 8 code -> dispatch_ok code = true.
Proof. revert code; apply all_codes; vm_compute; reflexivity. Qed.

Section Memory.
Context (ops : access_ops).

#[local] Hint Resolve program_mem_access fixes_ptr_type : fixes.

Lemma program_ldx insn : fixes program (check_ldx ops insn).
Proof. unfold check_ldx; fixes_auto. Qed.

Lemma program_stx insn : fixes program (check_stx ops insn).
Proof. unfold check_stx, check_xadd, is_ctx_reg, is_pkt_reg, is_flow_key_reg, is_sk_reg; fixes_auto. Qed.

Lemma program_st insn : fixes program (check_st ops insn).
Proof. unfold check_st, is_ctx_reg; fixes_auto. Qed.
End Memory.

(** ** Pending machines *)

(** [s] is described at [pc] by the current state, or by one on the stack at its
    instruction. *)
Definition arrives (ops : access_ops) (w : world) (e : bpf_verifier_env) (pc : Z) (s : bpf_machine) : Prop :=
  described ops w e (cur_state e) pc s \/ exists el, el ∈ head e /\ described ops w e (elem_st el) (elem_insn_idx el) s.

Lemma described_sim ops w e pc s : described ops w e (cur_state e) pc s ->
  m_pc s = pc /\ 0 <= id_gen e /\ exists ι β βs, machine_sim ops w ι e (m_regs s) (m_mem s) β βs /\ l_gen ι <= id_gen e.
Proof.
  intros (P & G & ι & β & βs & M & L); split; [exact P|split; [exact G|]]; exists ι, β, βs; split; [|exact L].
  apply (machine_cur ops w ι (set_cur_state e (cur_state e))); [reflexivity..|exact M].
Qed.

Lemma sim_described ops w e ι s β βs : machine_sim ops w ι e (m_regs s) (m_mem s) β βs -> l_gen ι <= id_gen e -> 0 <= id_gen e -> described ops w e (cur_state e) (m_pc s) s.
Proof.
  intros M L G; split; [reflexivity|split; [exact G|]]; exists ι, β, βs; split; [|exact L]; apply (machine_cur ops w ι e); [reflexivity..|exact M].
Qed.

(** The loads of map values are those the world knows. *)
Definition relocated (w : world) (e : bpf_verifier_env) : Prop :=
  forall i insn insn1, prog e !! i = Some insn -> prog e !! S i = Some insn1 -> jumptable (insn_code insn) = L_LD_IMM_DW ->
    reloc_ok w e (Z.of_nat i) (insn_src insn) (imm64 insn insn1).

(** The machine is at a division by a register that is zero; the program is
    rewritten there before it runs. *)
Definition division (prog : list bpf_insn) (s : bpf_machine) : Prop :=
  exists insn, prog !! Z.to_nat (m_pc s) = Some insn /\ div_by_zero insn (m_regs s).

Section Step.
Context (ops : check_ops) (helper : Z -> list Z -> memory -> option (Z * memory)) (w : world) (e : bpf_verifier_env) (insn : bpf_insn) (s : bpf_machine).
Context (D : described (ck_access ops) w e (cur_state e) (insn_idx e) s) (Hok : insn_ok insn) (Hpc : 0 <= insn_idx e) (G2 : id_gen e + 2 < 2 ^ 32).
Context (Hi : prog e !! Z.to_nat (insn_idx e) = Some insn).

(** The machine goes on where the check does. *)
Definition follows (f : flow) (e' : bpf_verifier_env) : Prop :=
  match step helper (prog e) s with
  | Some (Next s') => match f with FNext => arrives (ck_access ops) w e' (insn_idx e' + 1) s' | FJump => arrives (ck_access ops) w e' (insn_idx e') s' | FExit => False end
  | Some (Return _) => True
  | None => division (prog e) s
  end.

Lemma here : m_pc s = insn_idx e.
Proof using D. apply D. Qed.

Lemma fetched : (if 0 <=? m_pc s then prog e !! Z.to_nat (m_pc s) else None) = Some insn.
Proof using D Hpc Hi. rewrite here; destruct (Z.leb_spec 0 (insn_idx e)); [exact Hi|lia]. Qed.

Lemma alu_follows f e' : match jumptable (insn_code insn) with
    | L_ALU _ _ | L_ALU64 _ _ | L_ALU_NEG | L_ALU64_NEG | L_ALU_END_TO_BE | L_ALU_END_TO_LE => True | _ => False end ->
  same_frame insn e = true -> check_insn ops insn e = (inr f, e') -> follows f e'.
Proof using D Hok Hpc G2 Hi.
  intros L SF H; assert (C : alu_class (insn_code insn) = true) by (pose proof (dispatch (insn_code insn) ltac:(apply Hok)) as Q; unfold dispatch_ok in Q; destruct (jumptable _); trivial; contradiction).
  unfold check_insn in H; fold (alu_class (insn_code insn)) in H; rewrite C in H; run H; injection H as <- <-.
  destruct (described_sim _ _ _ _ _ D) as (P & G0 & ι & β & βs & M & Lg); pose proof (machine_state_sim _ _ _ _ _ _ _ _ M) as (W & Ln & S & _).
  assert (E : step helper (prog e) s = (regs ← step_alu_insn insn (m_regs s); Some (Next (mk_machine regs (m_mem s) (m_pc s + 1))))).
  { unfold step; rewrite fetched; cbn [mbind option_bind]; destruct (jumptable (insn_code insn)); try contradiction; reflexivity. }
  unfold follows; rewrite E; destruct (step_alu_insn insn (m_regs s)) as [σ'|] eqn:St; cbn [mbind option_bind].
  - destruct (alu_machine _ w ι insn e (m_regs s) (m_mem s) β βs M Hok Lg G0 ltac:(lia) _ _ _ SF R St) as (ι' & β' & βs' & M' & _ & L' & G').
    left; destruct (program_fields _ _ (fixes_run _ _ _ _ _ (proj1 (alu_fixes insn)) R)) as (_ & _ & -> & _); rewrite <- here.
    exact (sim_described _ _ _ ι' (mk_machine σ' (m_mem s) (m_pc s + 1)) β' βs' M' L' G').
  - destruct (check_alu_defined insn e _ _ (m_regs s) β Hok W (conj Ln S) C R) as [(σ' & St')|Dz]; [congruence|]; exists insn; rewrite here; auto.
Qed.

(** An access that leaves the machine described with the same links. *)
Lemma access_follows (m : verifier unit) f e' : gens 2 m -> fixes program m ->
  (forall ι β βs u e1, machine_sim (ck_access ops) w ι e (m_regs s) (m_mem s) β βs -> m e = (inr u, e1) -> simulated (ck_access ops) helper (prog e) w ι s e1) ->
  (_ ← m; mret FNext) e = (inr f, e') -> follows f e'.
Proof using D G2.
  intros Hg Hp Hs H; run H; injection H as <- <-; destruct (described_sim _ _ _ _ _ D) as (P & G0 & ι & β & βs & M & Lg).
  destruct (Hs _ _ _ _ _ M R) as (σ' & m' & β' & βs' & St & M'); pose proof (Hg _ _ _ R G0 G2) as Gn.
  unfold follows; rewrite St; left; destruct (program_fields _ _ (fixes_run _ _ _ _ _ Hp R)) as (_ & _ & -> & _); rewrite <- here.
  apply (sim_described _ _ _ ι (mk_machine σ' m' (m_pc s + 1)) β' βs' M'); lia.
Qed.

Lemma mem_follows f e' : match jumptable (insn_code insn) with
    | L_LDX_MEM _ => usable (get_reg e (insn_src insn)) = true
    | L_STX_MEM _ | L_STX_XADD _ | L_ST_MEM _ => usable (get_reg e (insn_dst insn)) = true
    | _ => False end ->
  check_insn ops insn e = (inr f, e') -> follows f e'.
Proof using D Hok Hpc G2 Hi.
  intros L H; pose proof (dispatch (insn_code insn) ltac:(apply Hok)) as C; unfold dispatch_ok in C; unfold check_insn in H.
  assert (P0 : 0 <= m_pc s) by (rewrite here; exact Hpc); assert (F : prog e !! Z.to_nat (m_pc s) = Some insn) by (rewrite here; exact Hi).
  destruct (jumptable (insn_code insn)) eqn:Lb; try contradiction; apply Z.eqb_eq in C; rewrite C in H; cbn in H; revert H; apply access_follows;
    first [lazymatch goal with |- gens _ _ => idtac | |- fixes _ _ => idtac end|intros ι β βs u e1 M H].
  all: lazymatch goal with
    | |- gens _ (check_ldx _ _) => apply (gens_weaken 1); [lia|apply gens_ldx]
    | |- gens _ (check_st _ _) => apply (gens_weaken 1); [lia|apply gens_st]
    | |- gens _ _ => apply gens_stx
    | |- fixes _ (check_ldx _ _) => apply program_ldx
    | |- fixes _ (check_stx _ _) => apply program_stx
    | |- fixes _ _ => apply program_st
    | _ => lazymatch type of Lb with
      | _ = L_LDX_MEM _ => eapply ldx_sim; eassumption
      | _ = L_STX_MEM _ => eapply stx_sim; eassumption
      | _ = L_STX_XADD _ => eapply xadd_sim; eassumption
      | _ => eapply st_sim; eassumption
      end
    end.
Qed.

(** The counter of jumps. *)
Lemma jumps_search f u e1 : upd_search f e = (inr u, e1) -> exists q, e1 = set_search e q.
Proof using. intros H; injection H as _ <-; eauto. Qed.

Lemma cond_jmp_follows (j : bool) op o q u e' : jumptable (insn_code insn) = jmp_label j op o -> reg_type_not_null (type_ (get_reg e (insn_dst insn))) = false ->
  check_cond_jmp_op insn (set_search e q) = (inr u, e') -> follows FNext e'.
Proof using D Hok Hpc Hi.
  intros L Nn H; destruct (described_sim _ _ _ _ _ D) as (P & G0 & ι & β & βs & M & Lg).
  assert (Rg : regno_ok (insn_dst insn) /\ regno_ok (insn_src insn)).
  { pose proof H as H1; unfold check_cond_jmp_op in H1; match type of H1 with (if ?c then _ else _) _ = _ => destruct c; [discriminate|] end.
    run H1; destruct (operands_ok _ _ _ _ Hok R) as (_ & Q); exact Q. }
  destruct Rg as [Rd Rs]; destruct (ms_regs M _ Rd) as (x & Hx & _), (ms_regs M _ Rs) as (y & Hy & _).
  assert (St : exists pc', step_jmp (jmp_width j) op o insn (m_regs s) (insn_idx e) = Some pc').
  { unfold step_jmp; rewrite Hx; cbn [mbind option_bind]; destruct o; [rewrite Hy|]; cbn [mbind option_bind]; eauto. }
  destruct St as (pc' & St); set (sim st := machine_sim (ck_access ops) w ι (set_cur_state e st) (m_regs s) (m_mem s) β βs).
  assert (J : jump_to sim e' pc').
  { eapply (check_cond_jmp_sound (w_maps w) (m_regs s) β sim insn j op o (set_search e q)); [exact Hok|exact L| |exact (ms_maps M)| |exact H|exact St].
    - apply (machine_cur _ w ι e); [reflexivity..|exact M].
    - intros z _ N; change (get_reg (set_search e q) ?r) with (get_reg e r) in N; congruence. }
  assert (E : step helper (prog e) s = Some (Next (mk_machine (m_regs s) (m_mem s) pc'))).
  { unfold step; rewrite fetched; cbn [mbind option_bind]; rewrite L, here; destruct j; cbn [jmp_label jmp_width] in *; rewrite St; reflexivity. }
  assert (Em : maps e' = maps e /\ id_gen e' = id_gen e).
  { split; [exact (f_equal (fun t => fst (fst (fst (fst t)))) (fixes_run _ _ _ _ _ (fixes_cond_jmp fixed_part insn) H))|exact (fixes_run _ _ _ _ _ (fixes_cond_jmp id_gen insn) H)]. }
  destruct Em as [Em Ei]; assert (K : forall st, sim st -> described (ck_access ops) w e' st pc' (mk_machine (m_regs s) (m_mem s) pc')).
  { intros st S; split; [reflexivity|split; [lia|]]; exists ι, β, βs; split; [|lia]; apply (machine_cur _ w ι (set_cur_state e st)); [reflexivity|exact Em|exact S]. }
  unfold follows; rewrite E; destruct J as [[-> S]|(el & l & Eh & -> & S)]; [left; apply K, S|right; exists el; rewrite Eh; split; [left|apply K, S]].
Qed.

Lemma jump_follows f e' : match jumptable (insn_code insn) with
    | L_JMP _ _ | L_JMP32 _ _ => reg_type_not_null (type_ (get_reg e (insn_dst insn))) = false
    | L_JMP_JA => True
    | L_JMP_EXIT => curframe (cur_state e) = 0%nat
    | _ => False end -> check_insn ops insn e = (inr f, e') -> follows f e'.
Proof using D Hok Hpc Hi.
  intros L H; pose proof (dispatch (insn_code insn) ltac:(apply Hok)) as C; unfold dispatch_ok in C; unfold check_insn in H.
  destruct (described_sim _ _ _ _ _ D) as (P & G0 & ι & β & βs & M & Lg).
  destruct (jumptable (insn_code insn)) eqn:Lb; try contradiction; apply andb_true_iff in C as [C O]; apply Z.eqb_eq in C; rewrite C in H; cbn [orb Z.eqb Pos.eqb] in H;
    unfold check_jump in H; run H; destruct (jumps_search _ _ _ R) as (q & ->); clear R.
  all: lazymatch type of Lb with
    | _ = L_JMP_EXIT =>
      unfold follows; assert (Rt : exists r, step helper (prog e) s = Some (Return r)); [|destruct Rt as (r & ->); exact Logic.I];
      unfold step; rewrite fetched; cbn [mbind option_bind]; rewrite Lb; destruct (ms_regs M 0 ltac:(split; lia)) as (x & Hx & _); rewrite Hx; eauto
    | _ = L_JMP_JA => idtac
    | _ => cbn [existsb] in O; do 3 destruct (_ =? _); try discriminate O; cbn iota in H; run H; injection H as <- <-;
      first [exact (cond_jmp_follows false op o q _ _ Lb L R)|exact (cond_jmp_follows true op o q _ _ Lb L R)]
    end.
  - apply Z.eqb_eq in O; rewrite O in H; cbn [Z.eqb Pos.eqb] in H; destruct (reserved insn); [discriminate|]; run H; injection R as _ <-; injection H as <- <-.
    assert (E : step helper (prog e) s = Some (Next (mk_machine (m_regs s) (m_mem s) (m_pc s + insn_off insn + 1)))) by (unfold step; rewrite fetched; cbn [mbind option_bind]; rewrite Lb; reflexivity).
    unfold follows; rewrite E; left; cbn [insn_idx set_insn_idx set_search]; rewrite <- here.
    apply (sim_described _ _ _ ι (mk_machine (m_regs s) (m_mem s) (m_pc s + insn_off insn + 1)) β βs); [|exact Lg|exact G0].
    apply (machine_cur _ w ι e); [reflexivity..|exact M].
Qed.

Lemma ld_imm_follows f e' : relocated w e -> jumptable (insn_code insn) = L_LD_IMM_DW -> insn_idx e + 1 < Z.of_nat (length (prog e)) ->
  insn_src insn <> BPF_PSEUDO_BTF_ID -> check_insn ops insn e = (inr f, e') -> follows f e'.
Proof using D Hok Hpc G2 Hi.
  intros Rl L Ln Nb H; pose proof (dispatch (insn_code insn) ltac:(apply Hok)) as C; unfold dispatch_ok in C; rewrite L in C; apply andb_true_iff in C as [C O].
  apply Z.eqb_eq in C, O; unfold check_insn in H; rewrite C in H; cbn [orb Z.eqb Pos.eqb] in H; unfold check_ld in H; rewrite O in H; cbn [orb Z.eqb Pos.eqb] in H.
  destruct (described_sim _ _ _ _ _ D) as (P & G0 & ι & β & βs & M & Lg); destruct (lookup_lt_is_Some_2 (prog e) (Z.to_nat (insn_idx e + 1)) ltac:(lia)) as [insn1 H1].
  assert (En : next_insn e = insn1) by (unfold next_insn; rewrite list_lookup_total_alt, H1; reflexivity).
  assert (Rc : reloc_ok w e (insn_idx e) (insn_src insn) (imm64 insn (next_insn e))).
  { pose proof (Rl (Z.to_nat (insn_idx e)) insn insn1 Hi) as Q; rewrite Z2Nat.id in Q by exact Hpc; rewrite En; apply Q; trivial.
    replace (S (Z.to_nat (insn_idx e))) with (Z.to_nat (insn_idx e + 1)) by lia; exact H1. }
  run H; destruct (ld_imm_after _ w ι insn e (m_regs s) (m_mem s) β βs M Hok Lg G0 ltac:(lia) _ _ Nb Rc R) as [Rd (ι' & β' & βs' & M' & _ & L' & G')].
  assert (E : step helper (prog e) s = Some (Next (mk_machine (<[Z.to_nat (insn_dst insn) := imm64 insn (next_insn e)]> (m_regs s)) (m_mem s) (m_pc s + 2)))).
  { unfold step; rewrite fetched; cbn [mbind option_bind]; rewrite L, here, H1; cbn [mbind option_bind]; rewrite imm64_value, En, reg_set_upd by (first [apply (ms_len _ _ _ _ _ _ _ _ M)|unfold regno_ok in Rd; lia]); reflexivity. }
  destruct (program_fields _ _ (fixes_run _ _ _ _ _ (ld_imm_program insn) R)) as (_ & _ & Ei & _).
  run H; injection R0 as _ <-; run H; injection H as <- <-; unfold follows; rewrite E.
  assert (Q : cur_state env0 = cur_state env /\ maps env0 = maps env /\ insn_idx env0 = insn_idx env + 1 /\ id_gen env0 = id_gen env).
  { unfold sanitize_mark_insn_seen, modify in R0; destruct (speculative _); injection R0 as _ <-; repeat split; reflexivity. }
  destruct Q as (Q1 & Q2 & Q3 & Q4); left; rewrite Q3, Ei, <- here; replace (m_pc s + 1 + 1) with (m_pc s + 2) by lia.
  refine (sim_described _ _ _ ι' (mk_machine _ (m_mem s) (m_pc s + 2)) β' βs' _ _ _); [|lia|lia]; apply (machine_cur _ w ι' env); assumption.
Qed.

(** The search does not matter to a call. *)
Lemma call_checked f e' : jumptable (insn_code insn) = L_JMP_CALL -> insn_src insn <> BPF_PSEUDO_CALL -> check_insn ops insn e = (inr f, e') ->
  f = FNext /\ exists q u, check_helper_call (ck_helper ops) (ck_access ops) (insn_imm insn) (insn_idx e) (set_search e q) = (inr u, e').
Proof using Hok.
  intros L N H; pose proof (dispatch (insn_code insn) ltac:(apply Hok)) as C; unfold dispatch_ok in C; rewrite L in C; apply andb_true_iff in C as [C O].
  apply Z.eqb_eq in C, O; unfold check_insn in H; rewrite C in H; cbn [orb Z.eqb Pos.eqb] in H; unfold check_jump in H; run H; destruct (jumps_search _ _ _ R) as (q & ->); clear R.
  rewrite O in H; cbn [Z.eqb Pos.eqb] in H; run H; injection H as <- <-; split; [reflexivity|]; exists q; eexists; unfold check_call in R; run R; injection R0 as <- <-.
  apply Z.eqb_neq in N; rewrite N in R; do 2 match type of R with (if ?c then _ else _) _ = _ => destruct c; [discriminate|] end; exact R.
Qed.

Lemma call_follows f e' : helper_fits (ck_helper ops) (ck_access ops) w helper -> jumptable (insn_code insn) = L_JMP_CALL -> insn_src insn <> BPF_PSEUDO_CALL ->
  call_covered (ck_helper ops) (insn_imm insn) e = true -> check_insn ops insn e = (inr f, e') -> follows f e'.
Proof using D Hok Hpc Hi.
  intros Fit L N Cv H; destruct (call_checked f e' L N H) as (-> & q & u & R); clear H; destruct (described_sim _ _ _ _ _ D) as (P & G0 & ι & β & βs & M & Lg).
  apply (machine_cur _ w ι e (set_search e q)) in M; [|reflexivity..].
  destruct (call_after _ _ w helper ι _ _ _ β βs _ _ _ _ M Lg G0 Fit Cv R) as (xs & r & m' & Ex & Eh & ι' & β' & βs' & M' & _ & L' & G').
  assert (E : step helper (prog e) s = Some (Next (mk_machine (<[0%nat := u64 r]> (m_regs s)) m' (m_pc s + 1)))).
  { unfold step; rewrite fetched; cbn [mbind option_bind]; rewrite L, Ex; cbn [mbind option_bind]; rewrite Eh; cbn [mbind option_bind].
    rewrite (reg_set_upd _ BPF_REG_0) by (first [exact (ms_len _ _ _ _ _ _ _ _ M)|lia]); reflexivity. }
  unfold follows; rewrite E; left; destruct (program_fields _ _ (fixes_run _ _ _ _ _ (fixes_helper program _ _ _ _) R)) as (_ & _ & -> & _); cbn [insn_idx set_search]; rewrite <- here.
  exact (sim_described _ _ _ ι' (mk_machine _ m' (m_pc s + 1)) β' βs' M' L' G').
Qed.

Lemma insn_follows f e' : helper_fits (ck_helper ops) (ck_access ops) w helper -> relocated w e -> covered ops insn e = true -> check_insn ops insn e = (inr f, e') -> follows f e'.
Proof using D Hok Hpc G2 Hi.
  intros Fit Rl Cv; unfold covered in Cv; apply andb_true_iff in Cv as [_ Cv]; destruct (jumptable (insn_code insn)) eqn:L; try discriminate Cv.
  all: first [apply alu_follows; [rewrite L; exact Logic.I|exact Cv]|apply mem_follows; rewrite L; exact Cv|
    apply jump_follows; rewrite L; first [exact Logic.I|apply Nat.eqb_eq; exact Cv|apply negb_true_iff; exact Cv]|idtac].
  1: apply andb_true_iff in Cv as [Cv _]; apply andb_true_iff in Cv as [N Cv]; apply negb_true_iff, Z.eqb_neq in N; apply call_follows; assumption.
  apply andb_true_iff in Cv as [C1 C2]; apply ld_imm_follows; [exact Rl|exact L|apply Z.ltb_lt; exact C1|]; apply negb_true_iff, Z.eqb_neq in C2; exact C2.
Qed.

End Step.

(** ** Rounds *)

Definition moves {A} (m : verifier A) : Prop := grows m /\ gens 2 m.

Lemma moves_next (m : verifier unit) : moves m -> moves (_ ← m; mret FNext).
Proof.
  intros [A B]; split; [intros e f e' H; run H; injection H as _ <-; exact (A _ _ _ R)|apply gens_first; [lia|exact B|intros _; apply fixes_ret]].
Qed.

Lemma moves_explored {A} (m : verifier A) : fixes explored m -> moves m.
Proof.
  intros H; split; [|apply gens_fixes; [lia|]]; [apply grows_fixes|]; intros e; specialize (H e); unfold explored in H; congruence.
Qed.

Lemma explored_return_code : fixes explored check_return_code.
Proof. unfold check_return_code; fixes_auto. Qed.

Lemma explored_exit insn e f e' : curframe (cur_state e) = 0%nat -> check_exit insn e = (inr f, e') -> explored e' = explored e.
Proof.
  intros C H; unfold check_exit in H; run H; injection R as <- <-; do 2 match type of H with (if ?c then _ else _) _ = _ => destruct c; [discriminate|] end.
  rewrite C in H; cbn [Nat.ltb Nat.leb] in H; run H; rewrite <- (fixes_run _ _ _ _ _ (fixes_leak explored) R); run H; injection H as _ <-.
  exact (fixes_run _ _ _ _ _ explored_return_code R0).
Qed.

Lemma moves_cond_jmp insn : moves (check_cond_jmp_op insn).
Proof. split; [apply cond_jmp_grows|apply gens_fixes; [lia|apply (fixes_cond_jmp id_gen)]]. Qed.

Lemma moves_ld_imm insn : moves (check_ld_imm insn).
Proof. split; [apply grows_fixes, head_ld_imm|apply (gens_weaken 1); [lia|apply gens_ld_imm]]. Qed.

Lemma moves_mem ops insn : moves (check_ldx ops insn) /\ moves (check_stx ops insn) /\ moves (check_st ops insn).
Proof.
  split; [|split]; (split; [apply grows_fixes|]); [apply head_ldx|apply (gens_weaken 1); [lia|apply gens_ldx]|apply head_stx|apply gens_stx|apply head_st|].
  apply (gens_weaken 1); [lia|apply gens_st].
Qed.

Lemma moves_alu insn : moves (check_alu_op insn).
Proof. split; [apply alu_grows|apply (gens_weaken 1); [lia|apply gens_alu]]. Qed.

Section Moves.
Context (ops : check_ops) (insn : bpf_insn) (e : bpf_verifier_env) (G0 : 0 <= id_gen e) (G2 : id_gen e + 2 < 2 ^ 32).

Definition moved (e' : bpf_verifier_env) : Prop := head e `suffix_of` head e' /\ id_gen e <= id_gen e'.

Lemma moves_run {A} (m : verifier A) a e' : moves m -> m e = (inr a, e') -> moved e'.
Proof using G0 G2. intros [A0 B] R; split; [exact (A0 _ _ _ R)|apply (B _ _ _ R G0 G2)]. Qed.

Lemma jump_moves f e' : match jumptable (insn_code insn) with
    | L_JMP _ _ | L_JMP32 _ _ | L_JMP_JA => True | L_JMP_EXIT => curframe (cur_state e) = 0%nat | _ => False end ->
  dispatch_ok (insn_code insn) = true -> check_jump ops insn e = (inr f, e') -> moved e'.
Proof using G0 G2.
  intros L C H; unfold check_jump in H; run H; injection R as _ <-; set (e1 := set_search e _) in H.
  assert (K : head e1 `suffix_of` head e' /\ id_gen e1 <= id_gen e' -> moved e') by (intros Q; exact Q); apply K; clear K.
  unfold dispatch_ok in C; destruct (jumptable (insn_code insn)); try contradiction; apply andb_true_iff in C as [_ O].
  all: try (cbn [existsb] in O; do 3 destruct (_ =? _); try discriminate O; cbn iota in H; run H; injection H as _ <-; destruct (moves_cond_jmp insn) as [A B];
    split; [exact (A _ _ _ R)|apply (B _ _ _ R G0 G2)]).
  all: apply Z.eqb_eq in O; rewrite O in H; cbn [Z.eqb Pos.eqb] in H.
  - pose proof (explored_exit _ _ _ _ (L : curframe (cur_state e1) = 0%nat) H) as E; unfold explored in E; injection E as E1 _ E2; rewrite E1, E2; split; [reflexivity|apply Z.le_refl].
  - destruct (reserved insn); [discriminate|]; run H; injection R as _ <-; injection H as _ <-; split; [reflexivity|cbn; lia].
Qed.

Lemma call_moves f e' : insn_ok insn -> jumptable (insn_code insn) = L_JMP_CALL -> insn_src insn <> BPF_PSEUDO_CALL -> check_insn ops insn e = (inr f, e') ->
  id_gen e <= id_gen e' -> moved e'.
Proof using.
  intros Hok L N H G; destruct (call_checked ops e insn Hok f e' L N H) as (_ & q & u & R); split; [|exact G]; change (head e) with (head (set_search e q)).
  rewrite (fixes_run _ _ _ _ _ (fixes_helper head _ _ _ _) R); reflexivity.
Qed.

Lemma insn_moves f e' : insn_ok insn -> covered ops insn e = true -> check_insn ops insn e = (inr f, e') -> moved e'.
Proof using G0 G2.
  intros Hok Cv H; pose proof (dispatch (insn_code insn) ltac:(apply Hok)) as C; pose proof C as C0; unfold dispatch_ok in C; unfold covered in Cv; apply andb_true_iff in Cv as [_ Cv].
  destruct (moves_mem (ck_access ops) insn) as (M1 & M2 & M3); destruct (jumptable (insn_code insn)) eqn:L; try discriminate Cv.
  all: lazymatch type of L with
    | _ = L_JMP_CALL => rewrite H in Cv; rewrite !andb_true_iff, negb_true_iff, Z.eqb_neq, Z.leb_le in Cv; destruct Cv as [[N _] G]; exact (call_moves f e' Hok L N H G)
    | _ => unfold check_insn in H
    end.
  all: try (fold (alu_class (insn_code insn)) in H; rewrite C in H; exact (moves_run _ _ _ (moves_next _ (moves_alu insn)) H)).
  all: try (apply Z.eqb_eq in C; rewrite C in H; cbn [orb Z.eqb Pos.eqb] in H; revert H; apply moves_run, moves_next; assumption).
  all: apply andb_true_iff in C as [C O]; apply Z.eqb_eq in C; rewrite C in H; cbn [orb Z.eqb Pos.eqb] in H.
  all: try (apply (jump_moves f); [rewrite L; first [exact Logic.I|apply Nat.eqb_eq; exact Cv]|exact C0|exact H]).
  unfold check_ld in H; apply Z.eqb_eq in O; rewrite O in H; cbn [orb Z.eqb Pos.eqb] in H; run H; run H; injection R0 as _ <-; run H; injection H as _ <-.
  pose proof (moves_run _ _ _ (moves_ld_imm insn) R) as Mv; pose proof (fixes_run _ _ _ _ _ (fixes_seen explored) R0) as E; unfold explored in E; injection E as E1 _ E2.
  unfold moved in *; rewrite E1, E2; exact Mv.
Qed.
End Moves.

(** The end of a path makes the state on top of the stack the current one. *)
Lemma exit_pops e r e' : process_bpf_exit e = (inr r, e') ->
  maps e' = maps e /\ id_gen e' = id_gen e /\
  match r with
  | None => head e = []
  | Some _ => exists el l, head e = el :: l /\ cur_state e' = elem_st el /\ insn_idx e' = elem_insn_idx el /\ head e' = l
  end.
Proof.
  intros H; unfold process_bpf_exit in H; run H; assert (U : maps env = maps e /\ id_gen env = id_gen e /\ head env = head e).
  { unfold update_branch_counts, modify in R; cbv zeta in R; destruct (_ =? 0); injection R as _ <-; repeat split; reflexivity. }
  destruct U as (U1 & U2 & U3); rewrite <- U1, <- U2, <- U3; clear R U1 U2 U3; unfold pop_stack in H; run H; injection R as <- <-.
  destruct (head env) as [|el l] eqn:Eh; [injection H as <- <-; repeat split; exact Eh|].
  run H; assert (V : maps env0 = maps env /\ id_gen env0 = id_gen env).
  { unfold kalloc, kzalloc in R; run R; match type of R with (if ?c then _ else _) _ = _ => destruct c; [|discriminate] end; injection R as _ <-.
    destruct (alloc env); simplify_eq; split; reflexivity. }
  destruct V as (V1 & V2); run H; injection R0 as _ <-; injection H as <- <-; split; [exact V1|split; [exact V2|]]; exists el, l; repeat split; reflexivity.
Qed.

Lemma described_maps ops w e e' st pc s : maps e' = maps e -> id_gen e <= id_gen e' -> described ops w e st pc s -> described ops w e' st pc s.
Proof. intros Em G; apply described_bare; [reflexivity|exact Em|exact G]. Qed.

Definition waits (ops : access_ops) (w : world) (e : bpf_verifier_env) (s : bpf_machine) : Prop :=
  exists el, el ∈ head e /\ described ops w e (elem_st el) (elem_insn_idx el) s.

Lemma waits_moved ops w e e' s : maps e' = maps e -> moved e e' -> waits ops w e s -> waits ops w e' s.
Proof.
  intros Em [[l E] G] (el & He & De); exists el; split; [rewrite E; apply elem_of_app; right; exact He|exact (described_maps _ _ _ _ _ _ _ Em G De)].
Qed.

(** [s] is pending after a round with the result [r]. *)
Definition continues (ops : access_ops) (w : world) (r : option Z) (e : bpf_verifier_env) (s : bpf_machine) : Prop :=
  match r with Some _ => arrives ops w e (insn_idx e) s | None => False end.

Lemma waits_pop ops w e r e' s : process_bpf_exit e = (inr r, e') -> waits ops w e s -> continues ops w r e' s.
Proof.
  intros H (el & He & De); destruct (exit_pops _ _ _ H) as (Em & G & Q); apply (described_maps _ _ _ e') in De; [|exact Em|lia].
  destruct r as [p|]; [|rewrite Q in He; inversion He]; destruct Q as (el0 & l & Eh & Ec & Ei & El); rewrite Eh in He; apply elem_of_cons in He as [->|He].
  - left; rewrite Ec, Ei; exact De.
  - right; exists el; rewrite El; auto.
Qed.

Section Loop.
Context (ops : check_ops) (helper : Z -> list Z -> memory -> option (Z * memory)) (w : world).

Lemma relocated_fixed e e' : maps e' = maps e -> prog e' = prog e -> aux_fixed <$> insn_aux_data e' = aux_fixed <$> insn_aux_data e -> used_maps e' = used_maps e ->
  relocated w e -> relocated w e'.
Proof using.
  intros _ Ep Ea Eu Rl i insn insn1; rewrite Ep; intros H H1 L; pose proof (Rl i insn insn1 H H1 L) as Rk; unfold reloc_ok in *; rewrite Eu.
  pose proof (fmap_total aux_fixed _ _ (Z.to_nat (Z.of_nat i)) Ea) as E; unfold aux_fixed in E; injection E as _ E1 E2; rewrite E1, E2; exact Rk.
Qed.

(** What the first part of a round leaves. *)
Lemma round_enter prev e : covered_round ops prev e = true -> Forall insn_ok (prog e) ->
  exists e0 insn, enter_insn ops prev e = (inr false, e0) /\ maps e0 = maps e /\ prog e0 = prog e /\ aux_fixed <$> insn_aux_data e0 = aux_fixed <$> insn_aux_data e /\
    used_maps e0 = used_maps e /\ position e0 = position e /\ bare_state (cur_state e0) = bare_state (cur_state e) /\
    prog e0 !! Z.to_nat (insn_idx e0) = Some insn /\ prog e0 !!! Z.to_nat (insn_idx e0) = insn /\ insn_ok insn /\ covered ops insn e0 = true.
Proof using.
  intros Cv Ok; unfold covered_round in Cv; destruct (enter_insn ops prev e) as [[err|[|]] e0] eqn:En; try discriminate Cv.
  destruct (enter_bare _ _ _ _ En) as (Eb & Ep & Lt); destruct (enter_counts _ _ _ _ _ En) as (Em & Epr & Ea & Eu & _).
  assert (I0 : 0 <= insn_idx e0) by (unfold covered in Cv; apply andb_true_iff in Cv as [Cv _]; apply andb_true_iff in Cv as [Cv _]; apply Z.leb_le in Cv; exact Cv).
  assert (Ei : insn_idx e0 = insn_idx e) by (unfold position in Ep; congruence).
  destruct (lookup_lt_is_Some_2 (prog e0) (Z.to_nat (insn_idx e0)) ltac:(rewrite Epr, Ei; lia)) as [insn Hi].
  assert (Ht : prog e0 !!! Z.to_nat (insn_idx e0) = insn) by (rewrite list_lookup_total_alt, Hi; reflexivity).
  exists e0, insn; rewrite Ht in Cv; repeat (split; [assumption || reflexivity|]); split; [|exact Cv].
  rewrite Forall_forall in Ok; apply Ok; rewrite <- Epr; eapply list_elem_of_lookup_2; exact Hi.
Qed.
Lemma described_idx o e i st pc s : described o w e st pc s -> described o w (set_insn_idx e i) st pc s.
Proof using. apply described_maps; [reflexivity|apply Z.le_refl]. Qed.

Lemma waits_idx o e i s : waits o w e s -> waits o w (set_insn_idx e i) s.
Proof using. intros (el & He & De); exists el; split; [exact He|apply described_idx, De]. Qed.

(** The last part of a round. *)
Lemma round_tail f prev e r e' s :
  match f with
  | FNext => _ ← modify (fun env => set_insn_idx env (insn_idx env + 1)); mret (Some prev)
  | FJump => mret (Some prev)
  | FExit => process_bpf_exit
  end e = (inr r, e') ->
  waits (ck_access ops) w e s \/
  match f with FNext => arrives (ck_access ops) w e (insn_idx e + 1) s | FJump => arrives (ck_access ops) w e (insn_idx e) s | FExit => False end ->
  continues (ck_access ops) w r e' s.
Proof using.
  intros H [Wt|Ar]; destruct f; cbn iota in H.
  - run H; injection R as _ <-; injection H as <- <-; right; exact (waits_idx _ _ _ _ Wt).
  - injection H as <- <-; right; exact Wt.
  - exact (waits_pop _ _ _ _ _ _ H Wt).
  - run H; injection R as _ <-; injection H as <- <-; destruct Ar as [De|Wt]; [left; exact (described_idx _ _ _ _ _ _ De)|right; exact (waits_idx _ _ _ _ Wt)].
  - injection H as <- <-; exact Ar.
  - contradiction.
Qed.

(** A round keeps the machines that wait and takes a machine of the current
    state one step further. *)
Lemma round_keeps prev e r e' s : helper_fits (ck_helper ops) (ck_access ops) w helper -> covered_round ops prev e = true -> Forall insn_ok (prog e) -> relocated w e -> do_check_round ops prev e = (inr r, e') ->
  (waits (ck_access ops) w e s -> continues (ck_access ops) w r e' s) /\
  (described (ck_access ops) w e (cur_state e) (insn_idx e) s ->
   match step helper (prog e) s with
   | Some (Next s') => continues (ck_access ops) w r e' s'
   | Some (Return _) => True
   | None => division (prog e) s
   end).
Proof using.
  intros Fit Cv Ok Rl H; destruct (round_enter _ _ Cv Ok) as (e0 & insn & En & Em & Ep & Ea & Eu & Po & Eb & Hi & Ht & Io & Ci).
  unfold do_check_round in H; run H; rewrite En in R; injection R as <- <-; cbn iota in H; run H; injection R as <- <-; rewrite Ht in H; run H.
  apply (relocated_fixed _ _ Em Ep Ea Eu) in Rl; pose proof Ci as Cb; unfold covered in Cb; apply andb_true_iff in Cb as [Cb _]; apply andb_true_iff in Cb as [I0 G2].
  apply Z.leb_le in I0; apply Z.ltb_lt in G2; pose proof (fixes_run _ _ _ _ _ (fixed_insn ops _) R) as F; unfold fixed_part in F; injection F as Fm _ _ _ _.
  unfold position, explored in Po; injection Po as P1 P2 P3 P4; split.
  - intros (el & He & De); apply (round_tail _ _ _ _ _ _ H); left; eapply waits_moved; [exact Fm|eapply insn_moves; [rewrite P4; apply De|exact G2|exact Io|exact Ci|exact R]|].
    exists el; split; [rewrite P2; exact He|]; apply (described_maps _ _ e); [exact Em|lia|exact De].
  - intros De; assert (De0 : described (ck_access ops) w e0 (cur_state e0) (insn_idx e0) s) by (rewrite P1; apply (described_bare _ _ e _ (cur_state e)); [exact Eb|exact Em|lia|exact De]).
    pose proof (insn_follows ops helper w e0 insn s De0 Io I0 G2 Hi _ _ Fit Rl Ci R) as Fo; unfold follows in Fo; rewrite Ep in Fo.
    destruct (step helper (prog e) s) as [[s'|]|]; [|exact Fo|exact Fo]; apply (round_tail _ _ _ _ _ _ H); right; exact Fo.
Qed.

(** [s'] is one instruction after [s]. *)
Definition next (prog : list bpf_insn) (s s' : bpf_machine) : Prop := step helper prog s = Some (Next s').

(** The program returns within [n] instructions, or stops at a division by zero. *)
Definition ends (prog : list bpf_insn) (n : nat) (s : bpf_machine) : Prop :=
  is_Some (___bpf_prog_run helper prog n s) \/ exists s', rtc (next prog) s s' /\ step helper prog s' = None /\ division prog s'.

Lemma run_longer pr n s : is_Some (___bpf_prog_run helper pr n s) -> is_Some (___bpf_prog_run helper pr (S n) s).
Proof using.
  revert s; induction n as [|n IH]; intros s [v H]; [discriminate|]; cbn [___bpf_prog_run] in H |- *.
  destruct (step helper pr s) as [[s'|v']|]; cbn [mbind option_bind] in *; [|eauto|discriminate]; apply (IH s'); exists v; exact H.
Qed.

Lemma ends_longer pr n s : ends pr n s -> ends pr (S n) s.
Proof using. intros [H|H]; [left; apply run_longer, H|right; exact H]. Qed.

Lemma ends_step pr n s : match step helper pr s with Some (Next s') => ends pr n s' | Some (Return _) => True | None => division pr s end -> ends pr (S n) s.
Proof using.
  unfold ends; cbn [___bpf_prog_run]; destruct (step helper pr s) as [[s'|v]|] eqn:St; cbn [mbind option_bind]; intros H.
  - destruct H as [H|(s2 & P & Q)]; [left; exact H|right; exists s2; split; [econstructor; [exact St|exact P]|exact Q]].
  - left; eauto.
  - right; exists s; split; [constructor|split; [exact St|exact H]].
Qed.

(** An accepted run has taken every machine its first state describes to its
    end. *)
Lemma loop_safe fuel prev e e' s : helper_fits (ck_helper ops) (ck_access ops) w helper -> covered_loop ops fuel prev e = true -> Forall insn_ok (prog e) -> relocated w e ->
  do_check_loop ops fuel prev e = (inr true, e') -> arrives (ck_access ops) w e (insn_idx e) s -> ends (prog e) fuel s.
Proof using.
  intros Fit; revert prev e s; induction fuel as [|fuel IH]; intros prev e s Cv Ok Rl H Ar; [discriminate|]; cbn [covered_loop do_check_loop] in Cv, H.
  apply andb_true_iff in Cv as [C1 C2]; run H; rewrite R in C2; destruct (round_counts ops _ _ _ _ R) as (Em & Ep & Ea & Eu & _).
  assert (K : forall s, continues (ck_access ops) w a env s -> ends (prog e) fuel s).
  { intros s0 K; destruct a as [prev'|]; [|contradiction]; rewrite <- Ep; apply (IH prev' env); [exact C2|rewrite Ep; exact Ok|exact (relocated_fixed _ _ Em Ep Ea Eu Rl)|exact H|exact K]. }
  destruct (round_keeps _ _ _ _ s Fit C1 Ok Rl R) as [A B]; destruct Ar as [De|Wt].
  - apply ends_step; specialize (B De); destruct (step helper (prog e) s) as [[s'|]|]; auto.
  - apply ends_longer, K, A, Wt.
Qed.
End Loop.

(** ** The program from its first instruction *)

(** A machine about to run the program: R1 is the context, R10 is the end of the
    only frame, the other registers hold anything. *)
Record enters (ops : access_ops) (w : world) (s : bpf_machine) : Prop := mk_enters {
  en_pc : m_pc s = 0;
  en_len : length (m_regs s) = 12%nat;
  en_regs : Forall (uin 64) (m_regs s);
  en_fp : w_fps w = [m_regs s !!! 10%nat];
  en_ctx : m_regs s !!! 1%nat = w_ctx w;
  en_mem : mem_ok (m_mem s);
  en_world : world_ok ops w (m_mem s)
}.

(** The environment in which the loop starts on the main function. *)
Definition main_start (ops : check_ops) : verifier unit :=
  _ ← modify (fun env => set_insn_idx env 0);
  _ ← new_run 0;
  func_args ops 0.

(** The loop covers every instruction it goes through. *)
Definition covered_main (ops : check_ops) (e : bpf_verifier_env) : bool :=
  match main_start ops e with
  | (inr _, e) => covered_loop ops (Z.to_nat (BPF_COMPLEXITY_LIMIT_INSNS + 1)) (-1) e
  | _ => false
  end.

(** The registers of the state before the first instruction. *)
Definition start_regs (fl : env_flags) : list bpf_reg_state :=
  alter (fun reg => __mark_reg_known_zero (set_type reg PTR_TO_CTX)) 1%nat (init_reg_state fl 0).

(** A register known to be zero. *)
Lemma zero_inv reg : var_off reg = tnum_const 0 -> b64 reg = mk_bounds 0 0 0 0 -> b32 reg = mk_bounds 0 0 0 0 -> reg_inv reg 0.
Proof.
  intros V B1 B2; assert (Z0 : uin 64 0) by kia; pose proof (mark_known_inv inhabitant 0 Z0) as I.
  assert (E : var_off (__mark_reg_known inhabitant 0) = tnum_const 0 /\ b64 (__mark_reg_known inhabitant 0) = mk_bounds 0 0 0 0 /\ b32 (__mark_reg_known inhabitant 0) = mk_bounds 0 0 0 0)
    by (repeat split; reflexivity).
  destruct E as (E1 & E2 & E3); set (q := __mark_reg_known _ _) in *; clearbody q; apply (reg_inv_ext q); congruence.
Qed.

Lemma start_reg fl r : regno_ok r -> let reg := start_regs fl !!! Z.to_nat r in
  type_ reg = (if r =? 10 then PTR_TO_STACK else if r =? 1 then PTR_TO_CTX else NOT_INIT) /\
  off reg = 0 /\ id reg = 0 /\ (r = 10 -> func reg = 0%nat) /\ (r = 10 \/ r = 1 -> reg_inv reg 0).
Proof.
  intros Hr; assert (C : r = 0 \/ r = 1 \/ r = 2 \/ r = 3 \/ r = 4 \/ r = 5 \/ r = 6 \/ r = 7 \/ r = 8 \/ r = 9 \/ r = 10) by (unfold regno_ok in Hr; lia).
  destruct C as [->|[->|[->|[->|[->|[->|[->|[->|[->|[->| ->]]]]]]]]]]; cbn zeta; (split; [reflexivity|split; [reflexivity|split; [reflexivity|split; [first [reflexivity|discriminate]|]]]]).
  all: intros [E|E]; try discriminate E; apply zero_inv; reflexivity.
Qed.

Lemma new_run_run i e u e1 : new_run i e = (inr u, e1) ->
  exists n l, e1 = set_cur_freed (set_cur_state (set_alloc (set_pass_cnt e n) l) (initial_state e i)) false.
Proof.
  intros H; unfold new_run in H; run H; injection R as _ <-; run H; destruct (kalloc_run _ _ _ R) as [l1 ->]; clear R; run H; destruct (kalloc_run _ _ _ R) as [l2 ->]; clear R.
  injection H as _ <-; eexists _, l2; reflexivity.
Qed.

Lemma main_args_run ops i e u e1 : main_args ops i e = (inr u, e1) ->
  exists f, e1 = put_reg (put_reg e BPF_REG_1 f) BPF_REG_1 (__mark_reg_known_zero (get_reg (put_reg e BPF_REG_1 f) BPF_REG_1)) /\ f = set_type (get_reg e BPF_REG_1) PTR_TO_CTX.
Proof.
  intros H; unfold main_args in H; run H; injection R as _ <-; run H; injection R as _ <-; run H; injection R as <- <-.
  match type of H with (if ?c then _ else _) _ = _ => destruct c; [discriminate H|] end; injection H as _ <-; eexists; split; reflexivity.
Qed.

Lemma main_started ops e u e1 : prog_type (aux e) <> BPF_PROG_TYPE_EXT -> main_start ops e = (inr u, e1) ->
  insn_idx e1 = 0 /\ maps e1 = maps e /\ prog e1 = prog e /\ insn_aux_data e1 = insn_aux_data e /\ used_maps e1 = used_maps e /\ id_gen e1 = id_gen e /\ search e1 = search e /\
  curframe (cur_state e1) = 0%nat /\ frame (cur_state e1) = [mk_func (start_regs (flags e)) BPF_MAIN_FUNC 0 0 [] []].
Proof.
  intros Np H; unfold main_start in H; run H; injection R as _ <-; run H; destruct (new_run_run _ _ _ _ R) as (n & l & ->); clear R.
  unfold func_args in H; run H; injection R as <- <-; apply Z.eqb_neq in Np.
  match type of H with (if ?c then _ else _) _ = _ => replace c with false in H by (symmetry; exact Np) end.
  destruct (main_args_run _ _ _ _ _ H) as (f & -> & ->); repeat split; reflexivity.
Qed.

Lemma enters_described ops w e s : w_maps w = maps e -> 0 <= id_gen e -> insn_idx e = 0 -> curframe (cur_state e) = 0%nat ->
  (exists fl, frame (cur_state e) = [mk_func (start_regs fl) BPF_MAIN_FUNC 0 0 [] []]) -> enters ops w s -> described ops w e (cur_state e) (insn_idx e) s.
Proof.
  intros Wm G0 Ei Ec [fl Ef] [Pc Ln Rg Fp Cx Mo Wo]; split; [congruence|split; [exact G0|]].
  set (x r := m_regs s !!! Z.to_nat r); exists (mk_links (fun _ => 0) (fun _ => 0) 0), x, (fun _ _ => 0); split; [|exact G0].
  assert (Gr : forall r, get_reg (set_cur_state e (cur_state e)) r = start_regs fl !!! Z.to_nat r) by (intros r; unfold get_reg, cur_regs, cur_func; cbn [cur_state set_cur_state]; rewrite Ec, Ef; reflexivity).
  split; [| exact Ln| | |exact Mo|cbn; congruence|exact Wo|split; [reflexivity|intros; cbn; kia]].
  - unfold env_wf, cur_regs, cur_func; cbn [cur_state set_cur_state]; rewrite Ec, Ef; split; [cbn; lia|reflexivity].
  - intros r Hr; exists (x r); assert (Hl : (Z.to_nat r < length (m_regs s))%nat) by (unfold regno_ok in Hr; lia).
    destruct (lookup_lt_is_Some_2 _ _ Hl) as [v Hv]; assert (Ev : x r = v) by (unfold x; rewrite list_lookup_total_alt, Hv; reflexivity).
    split; [unfold reg_get; congruence|]; rewrite Gr; pose proof (Forall_lookup_1 _ _ _ _ Rg Hv) as U; rewrite Ev.
    destruct (start_reg fl r Hr) as (T & O & I & Fn & Iv); set (reg := start_regs fl !!! Z.to_nat r) in *; clearbody reg.
    assert (Sm : r = 10 \/ r = 1 -> sin 32 (off reg) /\ exists y, reg_inv reg y /\ v = u64 (v + off reg + y)).
    { intros C; rewrite O; split; [kia|]; exists 0; split; [exact (Iv C)|]; rewrite !Z.add_0_r; symmetry; apply uwrap_id, U. }
    split.
    + split; [exact U|]; rewrite T; destruct (Z.eqb_spec r 10) as [->|]; [apply Sm; auto|]; destruct (Z.eqb_spec r 1) as [->|]; [apply Sm; auto|exact Logic.I].
    + unfold points_ok, points_to; rewrite T; destruct (Z.eqb_spec r 10) as [->|]; cbn [reg_type_may_be_null]; [rewrite Fn, Fp by reflexivity; cbn; rewrite <- Ev; reflexivity|].
      destruct (Z.eqb_spec r 1) as [->|]; [rewrite <- Ev; exact Cx|exact Logic.I].
    + unfold link; rewrite I; discriminate.
    + left; exact I.
  - intros k fp Hk; rewrite Fp in Hk; destruct k as [|[|k]]; [|discriminate Hk..]; unfold good, frame_of; cbn [cur_state set_cur_state]; rewrite Ef.
    split; [cbn; lia|split; [cbn; lia|intros spi sl Hs; discriminate Hs]].
Qed.

(** A main function the loop accepts, on every machine that enters it. *)
Lemma main_safe ops helper w e e' s : helper_fits (ck_helper ops) (ck_access ops) w helper -> Forall insn_ok (prog e) -> relocated w e -> w_maps w = maps e -> 0 <= id_gen e -> prog_type (aux e) <> BPF_PROG_TYPE_EXT ->
  covered_main ops e = true -> do_check_main ops e = (inr true, e') -> enters (ck_access ops) w s -> ends helper (prog e) (Z.to_nat (BPF_COMPLEXITY_LIMIT_INSNS + 1)) s.
Proof.
  intros Fit Ok Rl Wm G0 Np Cv H En; unfold covered_main in Cv; destruct (main_start ops e) as [[err|u] e1] eqn:Ms; [discriminate Cv|].
  destruct (main_started _ _ _ _ Np Ms) as (Ei & Em & Ep & Ea & Eu & Eg & _ & Ec & Ef).
  assert (D : exists e2, do_check ops e1 = (inr true, e2)).
  { unfold main_start in Ms; unfold do_check_main in H; run H; run Ms; rewrite R in R0; injection R0 as _ <-; run H; destruct a1; [|discriminate H]; clear H.
    unfold do_check_common in R0; run R0; run Ms; rewrite R2 in R1; injection R1 as _ <-; unfold finally in R0.
    match type of R0 with (let '(_, _) := ?m in _) = _ => destruct m as [[err|b] e3] eqn:D end; [discriminate R0|].
    run D; rewrite Ms in R1; injection R1 as _ <-; injection R0 as -> _; eauto. }
  destruct D as [e2 D]; unfold do_check in D; rewrite <- Ep; refine (loop_safe ops helper w _ (-1) e1 e2 s Fit Cv _ _ D _); [rewrite Ep; exact Ok| |].
  - apply (relocated_fixed w e); [exact Em|exact Ep|rewrite Ea; reflexivity|exact Eu|exact Rl].
  - left; apply enters_described; [congruence|lia|exact Ei|exact Ec|eauto|exact En].
Qed.
