(* ===== verification/ResolveSound.v ===== *)
(** After [resolve_pseudo_ldimm64], the 64-bit loads of a program load what the
    verifier takes them to load, and every code is one it knows. *)
From Stdlib Require Import ZArith Lia Bool.
From stdpp Require Import base list gmap.
From S2P Require Import Prelude Lists Bits RegState Insn Interp Env MemAccess RegArg CondJmp MemInsn MemStep HelperCall Subprogs.
From S2P Require Import SubprogsSound Cfg CfgSound ProgFlow Resolve DoCheck DoCheckMachine DoCheckSafe.

Local Open Scope Z_scope.
Local Open Scope kint_scope.

(** The two immediates hold the address. *)
Lemma imm64_addr insn insn1 a : uin 64 a -> imm64 (set_imm insn (s32 (u32 a))) (set_imm insn1 (s32 (Z.shiftr a 32))) = a.
Proof.
  intros U; unfold imm64, set_imm; cbn [insn_imm]; rewrite swrap_uwrap by lia; apply Z.bits_inj'; intros i Hi; rewrite Z.lor_spec, testbit_ushl by lia.
  assert (S : forall x j, 0 <= j < 32 -> Z.testbit (s32 x) j = Z.testbit x j).
  { intros x j Hj; rewrite <- (Z.mod_pow2_bits_low (s32 x) 32 j), <- (Z.mod_pow2_bits_low x 32 j) by lia; f_equal; change (u32 (s32 x) = u32 x); apply uwrap_swrap; lia. }
  destruct (Z.leb_spec 32 i) as [L|L]; cbn [andb]; rewrite ?andb_false_r, ?andb_true_r; cbn [orb].
  - replace (Z.testbit (u32 _) i) with false by (symmetry; apply (uin_high 32); [lia|apply uwrap_range; lia]); rewrite orb_false_r; destruct (Z.ltb_spec i 64) as [L1|L1]; cbn [andb].
    + rewrite (testbit_uwrap_low 64), S, Z.shiftr_spec by lia; f_equal; lia.
    + symmetry; apply (uin_high 64); [lia|exact U].
  - rewrite (testbit_uwrap_low 32), S by lia; reflexivity.
Qed.

Section Resolve.
Context (acc : access_ops) (ops : resolve_ops) (w : world).

(** The addresses of maps and of their values are those of the world. *)
Definition values_at (ms : gmap Z bpf_map) : Prop :=
  (forall m f o a, map_direct_value_addr acc (map_type (ms !!! m)) = Some f -> f (ms !!! m) o = inr a -> w_value w m a) /\
  forall m, w_map w m (u64 (map_address ops m)).

Definition known_code (insn : bpf_insn) : Prop :=
  insn_code insn = BPF_LD_IMM_DW \/ insn_code insn = 0 \/ bpf_opcode_in_insntable (insn_code insn) = true.

Definition map_load (insn : bpf_insn) : Prop := insn_src insn = BPF_PSEUDO_MAP_VALUE \/ insn_src insn = BPF_PSEUDO_MAP_FD.

(** A load of which both halves are in place. *)
Definition load_ok (e : bpf_verifier_env) (j : nat) (insn : bpf_insn) : Prop :=
  exists insn1, prog e !! S j = Some insn1 /\ insn_code insn1 = 0 /\
    (map_load insn -> (Z.to_nat (map_index (insn_aux_data e !!! j)) < length (used_maps e))%nat /\ reloc_ok w e (Z.of_nat j) (insn_src insn) (imm64 insn insn1)).

(** The first [i] instructions are resolved. *)
Record resolved (e : bpf_verifier_env) (i : nat) : Prop := mk_resolved {
  rs_len : length (insn_aux_data e) = length (prog e);
  rs_code : forall j insn, (j < i)%nat -> prog e !! j = Some insn -> known_code insn;
  rs_load : forall j insn, (j < i)%nat -> prog e !! j = Some insn -> insn_code insn = BPF_LD_IMM_DW -> (S j < i)%nat /\ load_ok e j insn
}.

(** What the resolution of the load at [i] leaves alone. *)
Record only_load (i : nat) (e e' : bpf_verifier_env) : Prop := mk_only_load {
  ol_maps : maps e' = maps e;
  ol_size : length (prog e') = length (prog e) /\ length (insn_aux_data e') = length (insn_aux_data e);
  ol_prog : forall j, j <> i -> j <> S i -> prog e' !! j = prog e !! j;
  ol_aux : forall j, j <> i -> insn_aux_data e' !!! j = insn_aux_data e !!! j;
  ol_used : exists l, used_maps e' = used_maps e ++ l;
  ol_same : subprog_info e' = subprog_info e /\ flags e' = flags e /\ aux e' = aux e /\ search e' = search e /\ id_gen e' = id_gen e /\ attach e' = attach e;
  ol_shape : forall j insn, prog e !! j = Some insn -> exists v, prog e' !! j = Some (set_imm insn v) /\ (v = insn_imm insn \/ sin 32 v)
}.

Lemma set_imm_same insn : set_imm insn (insn_imm insn) = insn.
Proof using. destruct insn; reflexivity. Qed.

Lemma only_refl i e : only_load i e e.
Proof using. split; auto; [exists []; rewrite app_nil_r; reflexivity|repeat split|intros j insn Hj; exists (insn_imm insn); rewrite set_imm_same; auto]. Qed.

Lemma only_trans i e1 e2 e3 : only_load i e1 e2 -> only_load i e2 e3 -> only_load i e1 e3.
Proof using.
  intros [A1 [A2 A2'] A3 A4 [l1 A5] (A6 & A7 & A8 & A9 & A10 & A11) A12] [B1 [B2 B2'] B3 B4 [l2 B5] (B6 & B7 & B8 & B9 & B10 & B11) B12]; split.
  - congruence.
  - split; congruence.
  - intros j N1 N2; rewrite B3, A3 by assumption; reflexivity.
  - intros j N; rewrite B4, A4 by assumption; reflexivity.
  - exists (l1 ++ l2); rewrite B5, A5, app_assoc; reflexivity.
  - repeat split; congruence.
  - intros j insn Hj; destruct (A12 j insn Hj) as (v & Hv & Sv); destruct (B12 j _ Hv) as (v' & Hv' & Sv'); exists v'; split; [exact Hv'|]; destruct Sv' as [->|]; auto.
Qed.

Lemma only_aux i f e u e' : upd_aux_of i f e = (inr u, e') -> only_load i e e' /\ e' = set_insn_aux_data e (alter f i (insn_aux_data e)).
Proof using.
  intros H; injection H as _ <-; split; [|reflexivity]; split; auto; cbn.
  - split; [reflexivity|apply length_alter].
  - intros j N; apply alter_other; congruence.
  - exists []; rewrite app_nil_r; reflexivity.
  - repeat split.
  - intros j insn Hj; exists (insn_imm insn); rewrite set_imm_same; auto.
Qed.

Lemma only_store i a e u e' : store_addr i a e = (inr u, e') ->
  only_load i e e' /\ (exists p, e' = set_prog e p) /\ forall insn insn1, prog e !! i = Some insn -> prog e !! S i = Some insn1 ->
    prog e' !! i = Some (set_imm insn (s32 (u32 a))) /\ prog e' !! S i = Some (set_imm insn1 (s32 (Z.shiftr a 32))).
Proof using.
  intros H; injection H as _ <-; split; [|split; [eexists; reflexivity|]].
  - split; auto; cbn.
    + rewrite !length_alter; auto.
    + intros j N1 N2; rewrite !list_lookup_alter_ne by congruence; reflexivity.
    + exists []; rewrite app_nil_r; reflexivity.
    + repeat split.
    + intros j insn Hj; destruct (Nat.eq_dec j (S i)) as [->|N1]; [rewrite list_lookup_alter_eq, list_lookup_alter_ne, Hj by lia; eexists; split; [reflexivity|right; apply swrap_range; lia]|rewrite list_lookup_alter_ne by congruence].
      destruct (Nat.eq_dec j i) as [->|N2]; [rewrite list_lookup_alter_eq, Hj; eexists; split; [reflexivity|right; apply swrap_range; lia]|rewrite list_lookup_alter_ne, Hj by congruence; exists (insn_imm insn); rewrite set_imm_same; auto].
  - intros insn insn1 H0 H1; cbn; rewrite (list_lookup_alter_ne _ _ (S i) i) by lia; rewrite !list_lookup_alter_eq, H0, list_lookup_alter_ne, H1 by lia; split; reflexivity.
Qed.

Lemma only_used i l e : only_load i e (set_used_maps e (used_maps e ++ l)).
Proof using.
  split; auto; cbn; [exists l; reflexivity|repeat split|]; intros j insn Hj; exists (insn_imm insn); rewrite set_imm_same; auto.
Qed.

(** The compatibility of the map changes nothing. *)
Lemma compatibility_same m e u e' : check_map_prog_compatibility ops m e = (inr u, e') -> e' = e.
Proof using.
  intros H; unfold check_map_prog_compatibility in H; run H; injection R as <- <-.
  repeat match type of H with (if ?c then _ else _) _ = _ => destruct c; [discriminate|] end; injection H as _ <-; reflexivity.
Qed.

(** The map at [i] is in use, and named by the index there. *)
Lemma record_map_ok i m e u e' : (i < length (insn_aux_data e))%nat -> record_map i m e = (inr u, e') ->
  only_load i e e' /\ prog e' = prog e /\ map_off (insn_aux_data e' !!! i) = map_off (insn_aux_data e !!! i) /\
  used_maps e' !! Z.to_nat (map_index (insn_aux_data e' !!! i)) = Some m.
Proof using.
  intros Hi H; unfold record_map in H; run H; injection R as <- <-; destruct (list_find _ _) as [[j m']|] eqn:F.
  - apply list_find_Some in F as (Hj & -> & _); destruct (only_aux _ _ _ _ _ H) as [O ->]; split; [exact O|split; [reflexivity|]].
    cbn [insn_aux_data set_insn_aux_data used_maps]; rewrite total_alter by exact Hi; destruct (decide (i = i)); [|contradiction]; split; [reflexivity|]; cbn; rewrite Nat2Z.id; exact Hj.
  - destruct (_ <=? _)%nat; [discriminate|]; run H; destruct (only_aux _ _ _ _ _ R) as [O ->]; clear R; run H; injection R as _ <-; destruct (_ && _); [discriminate|]; injection H as _ <-.
    split; [exact (only_trans _ _ _ _ O (only_used _ _ _))|split; [reflexivity|]]; cbn [insn_aux_data set_insn_aux_data used_maps set_used_maps].
    rewrite total_alter by exact Hi; destruct (decide (i = i)); [|contradiction]; split; [reflexivity|]; cbn; rewrite Nat2Z.id, lookup_app_r, Nat.sub_diag by lia; reflexivity.
Qed.

(** Where the address of a load comes from. *)
Lemma load_addr_ok i insn insn1 m a e e' : (i < length (insn_aux_data e))%nat -> values_at (maps e) -> map_load_addr acc ops i insn insn1 m e = (inr a, e') ->
  only_load i e e' /\ prog e' = prog e /\
  uin 64 a /\ (insn_src insn = BPF_PSEUDO_MAP_VALUE -> exists b, w_value w m b /\ a = u64 (b + s32 (map_off (insn_aux_data e' !!! i)))) /\ (insn_src insn = BPF_PSEUDO_MAP_FD -> w_map w m a).
Proof using.
  intros Hi [Va Vm] H; unfold map_load_addr in H; destruct (Z.eqb_spec (insn_src insn) BPF_PSEUDO_MAP_FD) as [E|N].
  { injection H as <- <-; split; [apply only_refl|split; [reflexivity|split; [apply uwrap_range; lia|split; [rewrite E; discriminate|intros _; apply Vm]]]]. }
  run H; injection R as <- <-; destruct (Z.geb_spec (u32 (insn_imm insn1)) BPF_MAX_VAR_OFF) as [|L]; [discriminate|].
  destruct (map_direct_value_addr acc _) as [f|] eqn:Df; [|discriminate]; destruct (f _ _) as [err|b] eqn:Fb; [discriminate|]; run H; destruct (only_aux _ _ _ _ _ R) as [O ->]; injection H as <- <-.
  split; [exact O|split; [reflexivity|split; [apply uwrap_range; lia|split; [intros _|intros E; contradiction]]]]; exists b; split; [exact (Va _ _ _ _ Df Fb)|]; cbn [insn_aux_data set_insn_aux_data]; rewrite total_alter by exact Hi; destruct (decide (i = i)); [|contradiction].
  cbn; pose proof (uwrap_range 32 (insn_imm insn1) ltac:(lia)); rewrite (swrap_id 32) by (unfold uin, sin in *; lia); reflexivity.
Qed.

Lemma resolve_load_ok i insn insn1 e u e' : length (insn_aux_data e) = length (prog e) -> values_at (maps e) -> prog e !! i = Some insn -> prog e !! S i = Some insn1 ->
  insn_code insn1 = 0 -> resolve_load acc ops i insn insn1 e = (inr u, e') ->
  only_load i e e' /\ exists insn', prog e' !! i = Some insn' /\ insn_code insn' = insn_code insn /\ load_ok e' i insn'.
Proof using.
  intros Ln Va H0 H1 C1 H; unfold resolve_load in H; assert (Hi : (i < length (insn_aux_data e))%nat) by (rewrite Ln; exact (lookup_lt_Some _ _ _ H0)).
  assert (Plain : ~ map_load insn -> forall e1, only_load i e e1 -> only_load i e e1 /\ exists insn', prog e1 !! i = Some insn' /\ insn_code insn' = insn_code insn /\ load_ok e1 i insn').
  { intros N e1 O; split; [exact O|]; destruct (ol_shape _ _ _ O _ _ H0) as (v & Hv & _); destruct (ol_shape _ _ _ O _ _ H1) as (v1 & Hv1 & _); exists (set_imm insn v); split; [exact Hv|split; [reflexivity|]].
    exists (set_imm insn1 v1); split; [exact Hv1|split; [exact C1|intros E; contradiction]]. }
  destruct (Z.eqb_spec (insn_src insn) 0) as [E|N0]; [injection H as _ <-; apply Plain; [unfold map_load; rewrite E; intros [Q|Q]; discriminate|apply only_refl]|].
  destruct (Z.eqb_spec (insn_src insn) BPF_PSEUDO_BTF_ID) as [E|N1].
  { apply Plain; [unfold map_load; rewrite E; intros [Q|Q]; discriminate|]; unfold check_pseudo_btf_id in H; do 2 match type of H with (if ?c then _ else _) _ = _ => destruct c; [discriminate|] end.
    destruct (ksym_var _ _) as [|[[a t] v]]; [discriminate|]; run H; destruct (only_store _ _ _ _ _ R) as [O1 _]; destruct (only_aux _ _ _ _ _ H) as [O2 _]; exact (only_trans _ _ _ _ O1 O2). }
  match type of H with (if ?c then _ else _) _ = _ => destruct c; [discriminate|] end; destruct (map_get ops _) as [|m]; [discriminate|]; run H; apply compatibility_same in R as ->; run H.
  destruct (load_addr_ok _ _ _ _ _ _ _ Hi Va R) as (O1 & P1 & Ua & V1 & V2); clear R; run H; destruct (only_store _ _ _ _ _ R) as (O2 & [p E2] & S2); clear R; rewrite P1 in S2; destruct (S2 _ _ H0 H1) as [Q0 Q1].
  assert (Hi0 : (i < length (insn_aux_data env0))%nat) by (rewrite E2; cbn; rewrite (proj2 (ol_size _ _ _ O1)); exact Hi).
  destruct (record_map_ok i m _ _ _ Hi0 H) as (O3 & P3 & M3 & U3); pose proof (only_trans _ _ _ _ (only_trans _ _ _ _ O1 O2) O3) as O.
  split; [exact O|]; exists (set_imm insn (s32 (u32 a0))); rewrite P3; split; [exact Q0|split; [reflexivity|]]; exists (set_imm insn1 (s32 (Z.shiftr a0 32))); rewrite P3; split; [exact Q1|split; [exact C1|]].
  intros _; split; [exact (lookup_lt_Some _ _ _ U3)|]; unfold reloc_ok; cbn [insn_src set_imm]; rewrite Nat2Z.id, list_lookup_total_alt, U3, imm64_addr, M3, E2 by exact Ua; split; [exact V1|exact V2].
Qed.

(** What was resolved before stays so. *)
Lemma resolved_keeps i e e' j insn : resolved e i -> only_load i e e' -> (j < i)%nat -> prog e' !! j = Some insn -> known_code insn /\ (insn_code insn = BPF_LD_IMM_DW -> (S j < i)%nat /\ load_ok e' j insn).
Proof using.
  intros R O Hj Hp; rewrite (ol_prog _ _ _ O) in Hp by lia; split; [exact (rs_code _ _ R j insn Hj Hp)|]; intros C; destruct (rs_load _ _ R j insn Hj Hp C) as [L (insn1 & H1 & C1 & Rl)]; split; [exact L|].
  exists insn1; rewrite (ol_prog _ _ _ O) by lia; split; [exact H1|split; [exact C1|]]; intros Sv; destruct (Rl Sv) as [Lu Rk]; destruct (ol_used _ _ _ O) as [l El]; unfold reloc_ok in *; rewrite Nat2Z.id in *.
  rewrite (ol_aux _ _ _ O) by lia; split; [rewrite El, length_app; lia|]; rewrite El, lookup_total_app_l by exact Lu; exact Rk.
Qed.

(** What the pass leaves alone: everything but the immediates of loads, the
    annotations and the maps in use. *)
Record kept (e e' : bpf_verifier_env) : Prop := mk_kept {
  kp_maps : maps e' = maps e;
  kp_size : length (prog e') = length (prog e) /\ length (insn_aux_data e') = length (insn_aux_data e);
  kp_same : subprog_info e' = subprog_info e /\ flags e' = flags e /\ aux e' = aux e /\ search e' = search e /\ id_gen e' = id_gen e /\ attach e' = attach e;
  kp_shape : forall j insn, prog e !! j = Some insn -> exists v, prog e' !! j = Some (set_imm insn v) /\ (v = insn_imm insn \/ sin 32 v);
  kp_other : forall j insn, prog e !! j = Some insn -> insn_code insn <> BPF_LD_IMM_DW -> insn_code insn <> 0 -> prog e' !! j = Some insn
}.

Lemma kept_refl e : kept e e.
Proof using. split; auto; [repeat split|intros j insn Hj; exists (insn_imm insn); rewrite set_imm_same; auto]. Qed.

Lemma kept_trans e1 e2 e3 : kept e1 e2 -> kept e2 e3 -> kept e1 e3.
Proof using.
  intros [A1 [A2 A3] (A4 & A5 & A6 & A7 & A8 & A9) A10 A11] [B1 [B2 B3] (B4 & B5 & B6 & B7 & B8 & B9) B10 B11]; split; try congruence; [split; congruence|repeat split; congruence| |].
  - intros j insn Hj; destruct (A10 j insn Hj) as (v & Hv & Sv); destruct (B10 j _ Hv) as (v' & Hv' & Sv'); exists v'; split; [exact Hv'|]; destruct Sv' as [->|]; auto.
  - intros j insn Hj N1 N2; apply B11; [exact (A11 j insn Hj N1 N2)|exact N1|exact N2].
Qed.

Lemma kept_load i e e' insn insn1 : prog e !! i = Some insn -> insn_code insn = BPF_LD_IMM_DW -> prog e !! S i = Some insn1 -> insn_code insn1 = 0 -> only_load i e e' -> kept e e'.
Proof using.
  intros H0 C0 H1 C1 [A1 A2 A3 _ _ A6 A7]; split; trivial; intros j x Hj N1 N2; rewrite A3; [exact Hj|intros ->; congruence|intros ->; congruence].
Qed.

Lemma resolve_insns_ok fuel : forall i e u e', resolved e i -> values_at (maps e) -> (length (prog e) <= fuel + i)%nat -> resolve_insns acc ops fuel i e = (inr u, e') ->
  kept e e' /\ resolved e' (length (prog e')).
Proof using.
  induction fuel as [|fuel IH]; intros i e u e' Rs Va Hf H; cbn [resolve_insns] in H.
  { injection H as _ <-; split; [apply kept_refl|]; destruct Rs as [A B C]; split; [exact A|intros j insn Hj; apply B; lia|intros j insn Hj Hp Hc]; destruct (C j insn ltac:(lia) Hp Hc) as [_ L]; split; [|exact L].
    destruct L as (insn1 & H1 & _); exact (lookup_lt_Some _ _ _ H1). }
  run H; injection R as <- <-; destruct (prog e !! i) as [insn|] eqn:Hi.
  2: { injection H as _ <-; apply lookup_ge_None in Hi; split; [apply kept_refl|]; destruct Rs as [A B C]; split; [exact A|intros j insn Hj; apply B; lia|intros j insn Hj Hp Hc].
       destruct (C j insn ltac:(lia) Hp Hc) as [_ L]; split; [|exact L]; destruct L as (insn1 & H1 & _); exact (lookup_lt_Some _ _ _ H1). }
  match type of H with (if ?c then _ else _) _ = _ => destruct c; [discriminate|] end; destruct (Z.eqb_spec (insn_code insn) BPF_LD_IMM_DW) as [C0|N0].
  - destruct (prog e !! S i) as [insn1|] eqn:H1; [|discriminate]; destruct (half_ok insn1) eqn:Hh; cbn [negb] in H; [|discriminate]; unfold half_ok in Hh; rewrite !andb_true_iff, !Z.eqb_eq in Hh; destruct Hh as [[[C1 _] _] _].
    run H; destruct (resolve_load_ok _ _ _ _ _ _ (rs_len _ _ Rs) Va Hi H1 C1 R) as (O & insn' & Hi' & Cd & Ld); pose proof (kept_load _ _ _ _ _ Hi C0 H1 C1 O) as K.
    destruct (IH (S (S i)) env u e') as [K2 R2]; [|rewrite (ol_maps _ _ _ O); exact Va|rewrite (proj1 (ol_size _ _ _ O)); lia|exact H|split; [exact (kept_trans _ _ _ K K2)|exact R2]].
    assert (Q : forall j x, (j < S (S i))%nat -> prog env !! j = Some x -> known_code x /\ (insn_code x = BPF_LD_IMM_DW -> (S j < S (S i))%nat /\ load_ok env j x)).
    { intros j x Hj Hp; destruct (Nat.lt_ge_cases j i) as [L|L]; [destruct (resolved_keeps i e env j x Rs O L Hp) as [A B]; split; [exact A|intros C; destruct (B C); split; [lia|assumption]]|].
      destruct (Nat.eq_dec j i) as [->|]; [rewrite Hi' in Hp; injection Hp as <-; split; [left; congruence|intros _; split; [lia|exact Ld]]|].
      replace j with (S i) in * by lia; destruct (ol_shape _ _ _ O _ _ H1) as (v & Hv & _); rewrite Hv in Hp; injection Hp as <-; split; [right; left; exact C1|intros C; cbn in C; rewrite C1 in C; discriminate C]. }
    split; [rewrite (proj2 (ol_size _ _ _ O)), (proj1 (ol_size _ _ _ O)); apply Rs|intros j x Hj Hp; apply (Q j x Hj Hp)|intros j x Hj Hp; apply (Q j x Hj Hp)].
  - destruct (bpf_opcode_in_insntable (insn_code insn)) eqn:Ck; cbn [negb] in H; [|discriminate]; apply (IH (S i) e u e'); [|exact Va|lia|exact H]; destruct Rs as [A B C]; split; [exact A| |].
    + intros j x Hj Hp; destruct (Nat.eq_dec j i) as [->|]; [rewrite Hi in Hp; injection Hp as <-; right; right; exact Ck|apply (B j); [lia|exact Hp]].
    + intros j x Hj Hp Hc; destruct (Nat.eq_dec j i) as [->|]; [rewrite Hi in Hp; injection Hp as <-; contradiction|]; destruct (C j x ltac:(lia) Hp Hc); split; [lia|assumption].
Qed.

Lemma resolve_ok e u e' : length (insn_aux_data e) = length (prog e) -> values_at (maps e) -> resolve_pseudo_ldimm64 acc ops e = (inr u, e') -> kept e e' /\ resolved e' (length (prog e')).
Proof using.
  intros Ln Va H; unfold resolve_pseudo_ldimm64 in H; match type of H with (if ?c then _ else _) _ = _ => destruct c; [discriminate|] end; run H; injection R as <- <-.
  apply (resolve_insns_ok _ _ _ _ _) in H; [exact H|split; [exact Ln|lia|lia]|exact Va|lia].
Qed.
End Resolve.

(** ** What the later checks rely on *)

Definition code_ok (code : Z) : bool :=
  let class := BPF_CLASS code in
  (match jumptable code with L_LD_IMM_DW => code =? BPF_LD_IMM_DW | _ => true end) &&
  (negb ((code =? BPF_LD_IMM_DW) || (code =? 0) || bpf_opcode_in_insntable code) || negb ((class =? BPF_JMP) || (class =? BPF_JMP32)) || negb (BPF_OP code =? BPF_CALL) || (code =? BPF_JMP_CALL)).

Lemma codes_ok code : uin 8 code -> code_ok code = true.
Proof. revert code; apply all_codes; vm_compute; reflexivity. Qed.

Lemma load_code code : uin 8 code -> jumptable code = L_LD_IMM_DW -> code = BPF_LD_IMM_DW.
Proof. intros U L; pose proof (codes_ok code U) as C; unfold code_ok in C; apply andb_true_iff in C as [C _]; rewrite L in C; apply Z.eqb_eq, C. Qed.

Section After.
Context (w : world) (e : bpf_verifier_env) (Rs : resolved w e (length (prog e))) (Ok : Forall insn_ok (prog e)).

Lemma code_range i insn : prog e !! i = Some insn -> uin 8 (insn_code insn).
Proof using Ok. intros H; apply (Forall_lookup_1 _ _ _ _ Ok H). Qed.

Lemma resolved_relocated : relocated w e.
Proof using Rs Ok.
  intros i insn insn1 H0 H1 L; destruct (rs_load _ _ _ Rs i insn (lookup_lt_Some _ _ _ H0) H0 (load_code _ (code_range _ _ H0) L)) as [_ (x & Hx & _ & R)].
  rewrite H1 in Hx; injection Hx as <-; split; intros Sv; exact (ltac:(first [apply (proj2 (R (or_introl Sv))); exact Sv|apply (proj2 (R (or_intror Sv))); exact Sv])).
Qed.

Lemma resolved_halves : halves_ok (prog e).
Proof using Rs Ok.
  intros i insn insn1 H0 L H1; destruct (rs_load _ _ _ Rs i insn (lookup_lt_Some _ _ _ H0) H0 (load_code _ (code_range _ _ H0) L)) as [_ (x & Hx & C & _)]; rewrite H1 in Hx; injection Hx as <-; exact C.
Qed.

Lemma resolved_calls : known_calls (prog e).
Proof using Rs Ok.
  apply Forall_lookup; intros i insn Hi; cbv zeta; intros Cl Op; pose proof (rs_code _ _ _ Rs i insn (lookup_lt_Some _ _ _ Hi) Hi) as K; pose proof (codes_ok _ (code_range _ _ Hi)) as C; unfold code_ok in C; cbv zeta in C.
  apply andb_true_iff in C as [_ C]; rewrite Op in C; replace ((_ =? BPF_JMP) || _) with true in C by (symmetry; apply orb_true_iff; rewrite !Z.eqb_eq; exact Cl).
  replace ((_ =? BPF_LD_IMM_DW) || _ || _) with true in C; [apply Z.eqb_eq; exact C|]; symmetry; destruct K as [->|[->| ->]]; rewrite ?orb_true_r; reflexivity.
Qed.
End After.

Lemma kept_insn_ok e e' : kept e e' -> Forall insn_ok (prog e) -> Forall insn_ok (prog e').
Proof.
  intros K Ok; apply Forall_lookup; intros i x Hi; destruct (lookup_lt_is_Some_2 (prog e) i) as [insn H0]; [rewrite <- (proj1 (kp_size _ _ K)); exact (lookup_lt_Some _ _ _ Hi)|].
  destruct (kp_shape _ _ K i insn H0) as (v & Hv & Sv); rewrite Hv in Hi; injection Hi as <-; pose proof (Forall_lookup_1 _ _ _ _ Ok H0) as I; destruct Sv as [->|Sv]; [rewrite set_imm_same; exact I|].
  unfold insn_ok in *; cbn; tauto.
Qed.

Lemma kept_functions e e' : kept e e' -> functions e -> functions e'.
Proof.
  intros K [O M C I]; destruct (kp_same _ _ K) as (Es & _); assert (Se : starts e' = starts e) by (unfold starts; rewrite Es; reflexivity); pose proof (proj1 (kp_size _ _ K)) as Ln.
  assert (St : forall k, subprog_start e' k = subprog_start e k) by (intros k; unfold subprog_start; rewrite Es, Ln; reflexivity).
  assert (Fo : forall i k, func_of e' i k <-> func_of e i k) by (intros i k; unfold func_of; rewrite !St, Es; reflexivity).
  assert (Back : forall i x, prog e' !! i = Some x -> exists insn v, prog e !! i = Some insn /\ x = set_imm insn v /\ (insn_code insn = BPF_LD_IMM_DW \/ insn_code insn = 0 \/ x = insn)).
  { intros i x Hi; destruct (lookup_lt_is_Some_2 (prog e) i) as [insn H0]; [rewrite <- Ln; exact (lookup_lt_Some _ _ _ Hi)|]; destruct (kp_shape _ _ K i insn H0) as (v & Hv & _); rewrite Hi in Hv; injection Hv as ->.
    exists insn, v; split; [exact H0|split; [reflexivity|]]; destruct (Z.eq_dec (insn_code insn) BPF_LD_IMM_DW); [auto|]; destruct (Z.eq_dec (insn_code insn) 0); [auto|]; right; right.
    pose proof (kp_other _ _ K i insn H0 ltac:(assumption) ltac:(assumption)) as H1; rewrite Hi in H1; injection H1 as H1; exact H1. }
  split.
  - destruct O as [A B D E]; split; rewrite ?Se, ?Es, ?Ln; assumption.
  - rewrite Se; exact M.
  - intros i x Hi Pc; rewrite Se; destruct (Back i x Hi) as (insn & v & H0 & -> & [Cd|[Cd|Cd]]); [unfold is_pseudo_call in Pc; cbn [insn_code set_imm] in Pc; rewrite Cd in Pc; discriminate Pc..|rewrite Cd in *; exact (C i insn H0 Pc)].
  - intros i x f Hi Hf; apply Fo in Hf; destruct (Back i x Hi) as (insn & v & H0 & -> & _); destruct (I i insn f H0 Hf) as [J E]; split; [intros Hj; apply Fo, J; exact Hj|rewrite St; exact E].
Qed.
