(* ===== verification/BpfCheck.v ===== *)
(** The checks of a program in their order: [bpf_check] of
    kernel/bpf/verifier.c up to the point where instructions are rewritten. *)
From Stdlib Require Import ZArith Lia Bool.
From stdpp Require Import base list gmap.
From S2P Require Import Prelude RegState Insn Env MemInsn Explore HelperCall Subprogs Cfg Resolve DoCheck.

Local Open Scope Z_scope.
Local Open Scope kint_scope.

Abbreviation BPF_F_STRICT_ALIGNMENT := 1.
Abbreviation BPF_F_ANY_ALIGNMENT := 2.
Abbreviation BPF_F_TEST_STATE_FREQ := 8.

(** The log the caller asks for. *)
Record bpf_log := mk_log { log_level : Z; log_ubuf : Z; len_total : Z }.

Abbreviation BPF_LOG_MASK := 7.
Abbreviation UINT_MAX := 0xffffffff.

Definition bpf_verifier_log_attr_valid (log : bpf_log) : bool :=
  (len_total log >=? 128) && (len_total log <=? Z.shiftr UINT_MAX 2) && negb (log_level log =? 0) && negb (log_ubuf log =? 0) &&
  (Z.ldiff (log_level log) BPF_LOG_MASK =? 0).

(** What is loaded, and by whom: the program with its type and the type of the
    program it extends, the flags of the system call, CAP_BPF, CAP_PERFMON, the
    configuration of the kernel, the log, and the maps there are. *)
Record bpf_load := mk_load {
  ld_insns : list bpf_insn;
  ld_type : Z;
  ld_dst_type : option Z;
  ld_flags : Z;
  ld_capable : bool;
  ld_perfmon : bool;
  ld_efficient_unaligned : bool;
  ld_log : bpf_log;
  ld_attach : bpf_prog_attach;
  ld_maps : gmap Z bpf_map;
  ld_alloc : list bool
}.

(** The environment of a program about to be checked. *)
Definition new_env (l : bpf_load) : bpf_verifier_env :=
  let strict := negb ((ld_flags l .& BPF_F_STRICT_ALIGNMENT) =? 0) || negb (ld_efficient_unaligned l) in
  let strict := if negb ((ld_flags l .& BPF_F_ANY_ALIGNMENT) =? 0) then false else strict in
  let freq := ld_capable l && negb ((ld_flags l .& BPF_F_TEST_STATE_FREQ) =? 0) in
  mk_env 0 0 (ld_insns l) [] 0 strict (mk_state [] 0 0 0%nat 0 false 0 0 []) true ∅ (ld_maps l) 0 false (ld_perfmon l) (ld_perfmon l) (ld_perfmon l) (ld_perfmon l)
    (mk_flags 0 (ld_capable l)) (replicate (length (ld_insns l)) inhabitant) 0 0 [] (mk_search freq ∅ [] 0 0 0 0 0 0 0)
    (mk_prog_aux (ld_type l) (ld_dst_type l) 0 0 0 0 0 0 false) false (ld_perfmon l) [] (ld_attach l) (ld_alloc l).

(** What the checks reach outside of the model besides: the types of the kernel
    (an error number when they are malformed), the type and line records of the
    program if it has any, the function it is attached to, and the device it is
    bound to. *)
Record load_ops := mk_load_ops {
  lo_check : check_ops;
  lo_resolve : resolve_ops;
  btf_vmlinux_err : Z;
  btf_records : option (bpf_verifier_env -> Z + bpf_prog_attach);
  check_attach_btf_id : bpf_verifier_env -> Z + bpf_prog_attach;
  offload_verifier_prep : Z;
  offload_finalize : Z
}.

Definition check_abnormal_return : verifier unit :=
  env ← get;
  if existsb (fun s => has_ld_abs s || has_tail_call s) (drop 1 (subprog_info env)) then fail (- EINVAL) else mret ().

Definition put_attach (r : Z + bpf_prog_attach) : verifier unit :=
  match r with
  | inl err => fail err
  | inr a => modify (fun env => set_attach env a)
  end.

Definition check_btf_info (ops : load_ops) : verifier unit :=
  match btf_records ops with
  | None => check_abnormal_return
  | Some f => env ← get; put_attach (f env)
  end.

Definition failing (err : Z) : verifier unit := if negb (err =? 0) then fail err else mret ().

(** Everything before the functions; [false] when a search runs out. *)
Definition check_structure (ops : load_ops) (log : bpf_log) : verifier bool :=
  _ ← kalloc;
  _ ← kalloc;
  _ ← (if (negb (log_level log =? 0) || negb (log_ubuf log =? 0) || negb (len_total log =? 0)) && negb (bpf_verifier_log_attr_valid log)
       then fail (- EINVAL) else mret ());
  _ ← failing (btf_vmlinux_err ops);
  _ ← kalloc;
  _ ← check_subprogs;
  _ ← check_btf_info ops;
  _ ← (env ← get; put_attach (check_attach_btf_id ops env));
  _ ← resolve_pseudo_ldimm64 (ck_access (lo_check ops)) (lo_resolve ops);
  _ ← failing (offload_verifier_prep ops);
  check_cfg.

Definition check_program (ops : load_ops) (log : bpf_log) : verifier bool :=
  ok ← check_structure ops log;
  if negb ok then mret false
  else
    ok ← check_functions (lo_check ops);
    if negb ok then mret false
    else
      _ ← failing (offload_finalize ops);
      _ ← check_max_stack_depth;
      mret true.

Definition bpf_check (ops : load_ops) (l : bpf_load) : (Z + bool) * bpf_verifier_env :=
  check_program ops (ld_log l) (new_env l).
