(* ===== verification/BpfCheckSound.v ===== *)
(** What [bpf_check] has established when it accepts a program: the phases of
    BpfCheck put together. *)
From Stdlib Require Import ZArith Lia Bool.
From stdpp Require Import base list gmap relations.
From S2P Require Import Prelude Lists Bits RegState Insn Interp Env MemAccess RegArg Alu Frame AluSound MemInsn MemStep Explore HelperCall.
From S2P Require Import Subprogs SubprogsSound Cfg CfgSound ProgFlow Resolve DoCheck DoCheckFrame DoCheckMachine HelperMachine DoCheckSafe ResolveSound BpfCheck.

Local Open Scope Z_scope.
Local Open Scope kint_scope.

(** ** Frames of the phases *)

(** What the search of the graph leaves alone in the auxiliary data. *)
Definition aux_reloc (a : bpf_insn_aux_data) := (map_index a, map_off a).

Section CfgAux.
Context (insns : list bpf_insn) (capable : bool) (X : list (Z * Z)).

Definition keeps (c : cfg) : Prop := aux_reloc <$> cfg_aux c = X.

Definition keeps_in (r : visit_result) : Prop := match r with Peek c | Err _ c | Done c => keeps c end.

Lemma keeps_init idx c : keeps c -> keeps (init_explored_state idx c).
Proof using.
  unfold keeps, init_explored_state; cbn [cfg_aux]; intros <-; apply list_eq; intros i; rewrite !list_lookup_fmap.
  destruct (Nat.eq_dec i (Z.to_nat idx)) as [->|N]; [rewrite list_lookup_alter_eq; destruct (cfg_aux c !! Z.to_nat idx); reflexivity|rewrite list_lookup_alter_ne by congruence; reflexivity].
Qed.

Lemma keeps_push t w e b c : keeps c -> keeps_in (push_insn insns capable t w e b c).
Proof using.
  intros K; unfold push_insn; cbv zeta; pose proof (keeps_init w c K).
  repeat match goal with |- context [if ?b then _ else _] => destruct b end; assumption.
Qed.

Lemma keeps_then r f : keeps_in r -> (forall c, keeps c -> keeps_in (f c)) -> keeps_in (and_then r f).
Proof using. intros K F; destruct r; cbn; auto. Qed.

Lemma keeps_visit t c : keeps c -> keeps_in (visit_insn insns capable t c).
Proof using.
  intros K; unfold visit_insn; cbv zeta.
  repeat first [apply keeps_then; [|intros ? ?]|apply keeps_push|apply keeps_init|match goal with |- context [if ?b then _ else _] => destruct b end|assumption].
Qed.

Lemma keeps_loop fuel : forall c ret c', keeps c -> cfg_loop insns capable fuel c = Some (ret, c') -> keeps c'.
Proof using.
  induction fuel as [|fuel IH]; intros c ret c' K H; cbn [cfg_loop] in H; [discriminate H|]; destruct (insn_stack c) as [|t st]; [injection H as _ <-; exact K|].
  pose proof (keeps_visit t c K) as V; destruct (visit_insn insns capable t c) as [c1|r c1|c1]; cbn in V; [exact (IH _ _ _ V H)|injection H as _ <-; exact V|refine (IH _ _ _ _ H); exact V].
Qed.
End CfgAux.

Lemma check_cfg_reloc e b e' : check_cfg e = (inr b, e') -> aux_reloc <$> insn_aux_data e' = aux_reloc <$> insn_aux_data e.
Proof.
  intros H; unfold check_cfg in H; run H; destruct (kalloc_run _ _ _ R) as [l1 ->]; clear R; run H; destruct (kalloc_run _ _ _ R) as [l2 ->]; clear R; run H; injection R as <- <-.
  destruct (cfg_loop _ _ _ _) as [[ret c]|] eqn:E; [|injection H as _ <-; reflexivity]; run H; injection R as _ <-; destruct (ret <? 0); [discriminate|]; injection H as _ <-.
  exact (keeps_loop _ _ _ _ _ _ _ eq_refl E).
Qed.

(** What the first phases leave alone. *)
Definition loaded (e : bpf_verifier_env) := (maps e, insn_aux_data e, used_maps e, search e, id_gen e, aux e, bpf_capable (flags e)).

Lemma loaded_add off : fixes loaded (add_subprog off).
Proof. unfold add_subprog; fixes_auto; fixed_modify. Qed.

Lemma loaded_subprogs : fixes loaded check_subprogs.
Proof.
  assert (A : forall insns i, fixes loaded (add_subprogs i insns)) by (induction insns; intros i; cbn [add_subprogs]; fixes_auto; auto using loaded_add).
  assert (J : forall insns i cur f l, fixes loaded (check_jumps i insns cur f l)).
  { induction insns as [|insn insns IH]; intros i cur f l; cbn [check_jumps]; [fixes_auto|]; apply fixes_bind; [unfold mark_subprog; fixed_modify|intros _]; fixes_auto; apply IH. }
  unfold check_subprogs; fixes_auto; auto using loaded_add.
Qed.

Lemma put_attach_run r e u e' : put_attach r e = (inr u, e') -> exists a, e' = set_attach e a.
Proof. destruct r as [err|a]; intros H; [discriminate|injection H as _ <-; eauto]. Qed.

Lemma btf_info_run ops e u e' : check_btf_info ops e = (inr u, e') -> exists a, e' = set_attach e a.
Proof.
  intros H; unfold check_btf_info in H; destruct (btf_records ops).
  - run H; injection R as <- <-; exact (put_attach_run _ _ _ _ H).
  - unfold check_abnormal_return in H; run H; injection R as <- <-; destruct (existsb _ _); [discriminate|]; injection H as _ <-; exists (attach e); destruct e; reflexivity.
Qed.

Lemma failing_run err e u e' : failing err e = (inr u, e') -> e' = e.
Proof. unfold failing; intros H; destruct (negb _); [discriminate|injection H as _ <-; reflexivity]. Qed.

Lemma functions_same e e' : prog e' = prog e -> subprog_info e' = subprog_info e -> functions e -> functions e'.
Proof.
  intros Ep Es [[A B C D] M Ca I]; destruct e, e'; cbn in Ep, Es; subst; split; [split; assumption|exact M|exact Ca|exact I].
Qed.

Lemma relocated_reloc w e e' : prog e' = prog e -> aux_reloc <$> insn_aux_data e' = aux_reloc <$> insn_aux_data e -> used_maps e' = used_maps e -> relocated w e -> relocated w e'.
Proof.
  intros Ep Ea Eu Rl i insn insn1; rewrite Ep; intros H H1 L; pose proof (Rl i insn insn1 H H1 L) as Rk; unfold reloc_ok in *; rewrite Eu.
  pose proof (fmap_total aux_reloc _ _ (Z.to_nat (Z.of_nat i)) Ea) as E; unfold aux_reloc in E; injection E as E1 E2; rewrite E1, E2; exact Rk.
Qed.

(** ** The program before its functions are followed *)

Record structured (l : bpf_load) (w : world) (e : bpf_verifier_env) : Prop := mk_structured {
  st_functions : functions e;
  st_insns : Forall insn_ok (prog e);
  st_halves : halves_ok (prog e);
  st_reloc : relocated w e;
  st_flow : exists rk, flow_ok (prog e) (ld_capable l) (entry e) rk;
  st_size : length (prog e) = length (ld_insns l);
  st_maps : maps e = ld_maps l;
  st_gen : id_gen e = 0;
  st_type : prog_type (aux e) = ld_type l;
  st_bounded : bounded e;
  st_capable : bpf_capable (flags e) = ld_capable l
}.

Section Structure.
Context (ops : load_ops) (l : bpf_load) (w : world).
Context (Size : 0 < Z.of_nat (length (ld_insns l)) < 2 ^ 31) (Ok : Forall insn_ok (ld_insns l)).

(** The functions are known when the loads are resolved. *)
Lemma subprogs_known e u e' : prog e = ld_insns l -> subprog_info e = [] -> loaded e = loaded (new_env l) -> check_subprogs e = (inr u, e') ->
  functions e' /\ prog e' = ld_insns l /\ loaded e' = loaded (new_env l).
Proof using Size.
  intros Ep Es El H; destruct (check_subprogs_ok e _ _ Es ltac:(rewrite Ep; lia) H) as [Fn Ep']; split; [exact Fn|split; [congruence|]].
  rewrite (fixes_run _ _ _ _ _ loaded_subprogs H); exact El.
Qed.

(** The loads are resolved when the graph is searched. *)
Lemma loads_known e u e' : functions e -> prog e = ld_insns l -> loaded e = loaded (new_env l) -> values_at (ck_access (lo_check ops)) (lo_resolve ops) w (ld_maps l) ->
  resolve_pseudo_ldimm64 (ck_access (lo_check ops)) (lo_resolve ops) e = (inr u, e') ->
  kept e e' /\ resolved w e' (length (prog e')) /\ functions e' /\ Forall insn_ok (prog e').
Proof using Ok.
  intros Fn Ep El Va H; unfold loaded in El; injection El as Em Ea _ _ _ _ _; assert (Ln : length (insn_aux_data e) = length (prog e)) by (rewrite Ea, Ep; apply length_replicate).
  rewrite <- Em in Va; destruct (resolve_ok _ _ w e u e' Ln Va H) as [K Rs]; split; [exact K|split; [exact Rs|split; [exact (kept_functions _ _ K Fn)|]]]; apply (kept_insn_ok _ _ K); rewrite Ep; exact Ok.
Qed.

Lemma structure_ok b e' : values_at (ck_access (lo_check ops)) (lo_resolve ops) w (ld_maps l) -> check_structure ops (ld_log l) (new_env l) = (inr b, e') -> b = true /\ structured l w e'.
Proof using Size Ok.
  intros Va H; unfold check_structure in H; run H; destruct (kalloc_run _ _ _ R) as [l1 ->]; clear R; run H; destruct (kalloc_run _ _ _ R) as [l2 ->]; clear R.
  run H; match type of R with (if ?c then _ else _) _ = _ => destruct c; [discriminate R|]; injection R as _ <- end.
  run H; apply failing_run in R as ->; run H; destruct (kalloc_run _ _ _ R) as [l3 ->]; clear R; set (e0 := set_alloc _ l3) in *.
  run H; destruct (subprogs_known e0 _ _ eq_refl eq_refl eq_refl R) as (Fn & Ep & El); clear R; clearbody e0; run H; destruct (btf_info_run _ _ _ _ R) as [at1 ->]; clear R.
  run H; run R; injection R0 as <- <-; destruct (put_attach_run _ _ _ _ R) as [at2 ->]; clear R; set (e1 := set_attach _ at2) in *.
  assert (Fn1 : functions e1) by (revert Fn; apply functions_same; reflexivity); assert (El1 : loaded e1 = loaded (new_env l)) by exact El; assert (Ep1 : prog e1 = ld_insns l) by exact Ep; clearbody e1.
  run H; destruct (loads_known _ _ _ Fn1 Ep1 El1 Va R) as (K & Rs & Fn2 & Ok2); clear R; run H; apply failing_run in R as ->.
  destruct (kp_same _ _ K) as (_ & Ef & Ea & Eh & Eg & _); pose proof (resolved_calls w _ Rs Ok2) as Kc; pose proof (check_cfg_reloc _ _ _ H) as Er; rename env0 into e2.
  pose proof (proj1 (kp_size _ _ K)) as Sz; rewrite Ep1 in Sz; unfold loaded in El1; injection El1 as Em _ _ Es Eid Eax Ec.
  apply (check_cfg_flow (entry e2)) in H as (-> & (al & ax & ->) & rk & Fk); [|lia|apply (entry_start e2); [apply Fn2|apply list_elem_of_lookup; eexists; apply (fn_main _ Fn2)]|exact (entry_edge e2 Fn2 Kc)].
  split; [reflexivity|]; split; cbn -[Z.of_nat]; trivial.
  - revert Fn2; apply functions_same; reflexivity.
  - exact (resolved_halves w _ Rs Ok2).
  - apply (relocated_reloc w e2); [reflexivity|exact Er|reflexivity|exact (resolved_relocated w _ Rs Ok2)].
  - exists rk; rewrite Ef, Ec in Fk; exact Fk.
  - rewrite (kp_maps _ _ K); exact Em.
  - rewrite Eg; exact Eid.
  - rewrite Ea, Eax; reflexivity.
  - unfold bounded, rounds; cbn; rewrite Eh, Es; cbn; lia.
  - rewrite Ef, Ec; reflexivity.
Qed.
End Structure.

(** ** The whole check *)

Section Check.
Context (ops : load_ops) (l : bpf_load).
Context (Size : 0 < Z.of_nat (length (ld_insns l)) < 2 ^ 31) (Ok : Forall insn_ok (ld_insns l)).

(** A world in which every address is one of a map and of a map value. *)
Definition any_world : world := mk_world [] ∅ (fun _ _ => True) (fun _ _ => True) 0 ∅ (fun _ => True) 0 0 0.

Lemma any_values : values_at (ck_access (lo_check ops)) (lo_resolve ops) any_world (ld_maps l).
Proof using. split; intros; exact I. Qed.

(** The phases of an accepted program. *)
Lemma accepted_phases b e' : bpf_check ops l = (inr b, e') ->
  exists e1, check_structure ops (ld_log l) (new_env l) = (inr true, e1) /\ exists b2 e2, check_functions (lo_check ops) e1 = (inr b2, e2) /\ b2 = b /\
    (b = true -> exists u, check_max_stack_depth e2 = (inr u, e')).
Proof using Size Ok.
  intros H; unfold bpf_check, check_program in H; run H; destruct (structure_ok ops l any_world Size Ok a env) as [-> _]; [exact any_values|exact R|]; exists env; split; [exact R|]; cbn [negb] in H.
  run H; destruct a; cbn [negb] in H; [|injection H as <- <-; exists false, env0; split; [exact R0|split; [reflexivity|discriminate]]].
  run H; apply failing_run in R1 as ->; run H; injection H as <- <-; exists true, env0; split; [exact R0|split; [reflexivity|eauto]].
Qed.

Lemma check_ends b e' : bpf_check ops l = (inr b, e') -> b = true.
Proof using Size Ok.
  intros H; destruct (accepted_phases _ _ H) as (e1 & S & b2 & e2 & F & -> & _); destruct (structure_ok ops l any_world Size Ok true e1) as [_ St]; [exact any_values|exact S|].
  exact (functions_end _ _ _ _ (st_bounded _ _ _ St) F).
Qed.

(** The checks of the functions leave the program alone. *)
Lemma functions_same_program e b e' : check_functions (lo_check ops) e = (inr b, e') -> same_program e e'.
Proof using.
  intros H; unfold check_functions in H; run H; pose proof (subprogs_same _ _ _ _ R) as S; destruct a; [|injection H as _ <-; exact S]; apply (same_trans _ _ _ S).
  unfold do_check_main in H; run H; injection R0 as _ <-; run H; apply common_same in R0.
  assert (same_program env env0) by exact R0; clear R0; destruct a0; [run H; injection R0 as _ <-|]; injection H as _ <-; assumption.
Qed.

Lemma accepted_prog e1 e' : check_structure ops (ld_log l) (new_env l) = (inr true, e1) -> bpf_check ops l = (inr true, e') -> prog e' = prog e1.
Proof using Size Ok.
  intros S H; destruct (accepted_phases _ _ H) as (e1' & S' & b2 & e2 & F & -> & D); rewrite S in S'; injection S' as <-; destruct (D eq_refl) as [u M].
  unfold check_max_stack_depth in M; run M; destruct (process_ok _ _ _ _ _ _ _ _ R) as [L _]; injection M as _ <-; destruct (layout_starts _ _ L) as [_ Ep]; destruct (functions_same_program _ _ _ F) as (_ & Eq & _); congruence.
Qed.

(** The stack of every chain of calls. *)
Lemma accepted_stack e' p : bpf_check ops l = (inr true, e') -> chain e' 0 p -> (length p < MAX_CALL_FRAMES)%nat /\ stack_fits e' 0 (0%nat :: p).
Proof using Size Ok.
  intros H Ch; destruct (accepted_phases _ _ H) as (_ & _ & b2 & e2 & _ & -> & D); destruct (D eq_refl) as [u M]; pose proof M as M'.
  unfold check_max_stack_depth in M'; run M'; destruct (process_ok _ _ _ _ _ _ _ _ R) as [L _]; injection M' as _ <-; apply (chain_same _ _ p L) in Ch.
  destruct (max_stack_depth_ok _ _ _ M p Ch) as [A B]; split; [exact A|apply (layout_same _ _ L); exact B].
Qed.

(** Without the right to loop, runs are shorter than the program. *)
Lemma accepted_short helper k e' s s' : ld_capable l = false -> bpf_check ops l = (inr true, e') ->
  nsteps (fun s s' => step helper (prog e') s = Some (Next s')) k s s' -> (k < length (ld_insns l))%nat.
Proof using Size Ok.
  intros Nc H N; destruct (accepted_phases _ _ H) as (e1 & S & _); rewrite (accepted_prog _ _ S H) in N; destruct (structure_ok ops l any_world Size Ok true e1) as [_ St]; [exact any_values|exact S|].
  destruct (st_flow _ _ _ St) as [rk Fk]; rewrite Nc in Fk; destruct k as [|k]; [lia|].
  destruct (runs_short helper _ _ rk (Datatypes.S k) s s' (st_insns _ _ _ St) (st_halves _ _ _ St) Fk N ltac:(lia)) as [L T]; pose proof (fk_bound _ _ _ _ Fk _ T); rewrite <- (st_size _ _ _ St); lia.
Qed.

(** No function of an accepted program calls itself, directly or not. *)
Lemma structure_acyclic b e f : check_structure ops (ld_log l) (new_env l) = (inr b, e) -> (f < length (subprog_info e))%nat -> ~ tc (calls e) f f.
Proof using Size Ok.
  intros S; destruct (structure_ok ops l any_world Size Ok b e) as [_ St]; [exact any_values|exact S|].
  destruct (st_flow _ _ _ St) as [rk Fk]; rewrite <- (st_capable _ _ _ St) in Fk; exact (no_recursion e rk (st_functions _ _ _ St) Fk f).
Qed.

(** The environment in which the main function is followed, and whether the loop
    covers everything it goes through there. *)
Definition covered_check : bool :=
  match check_structure ops (ld_log l) (new_env l) with
  | (inr true, e) =>
    match do_check_subprogs (lo_check ops) e with
    | (inr true, e) => (0 <=? id_gen e) && negb (prog_type (aux e) =? BPF_PROG_TYPE_EXT) && covered_main (lo_check ops) e
    | _ => false
    end
  | _ => false
  end.

Lemma accepted_ends helper w e' s : helper_fits (ck_helper (lo_check ops)) (ck_access (lo_check ops)) w helper -> values_at (ck_access (lo_check ops)) (lo_resolve ops) w (ld_maps l) -> w_maps w = ld_maps l -> covered_check = true -> bpf_check ops l = (inr true, e') ->
  enters (ck_access (lo_check ops)) w s -> ends helper (prog e') (Z.to_nat (BPF_COMPLEXITY_LIMIT_INSNS + 1)) s.
Proof using Size Ok.
  intros Fit Va Wm Cv H En; destruct (accepted_phases _ _ H) as (e1 & S & b2 & e2 & F & -> & _); rewrite (accepted_prog _ _ S H); destruct (structure_ok ops l w Size Ok true e1 Va S) as [_ St].
  unfold covered_check in Cv; rewrite S in Cv; unfold check_functions in F; run F; rewrite R in Cv; destruct a; [|discriminate Cv]; rewrite !andb_true_iff, negb_true_iff, Z.leb_le, Z.eqb_neq in Cv; destruct Cv as [[G0 Np] Cv].
  destruct (subprogs_same _ _ _ _ R) as (Em & Ep & Ea & Eu); rewrite <- Ep; refine (main_safe (lo_check ops) helper w env e2 s Fit _ _ _ G0 Np Cv F En).
  - rewrite Ep; apply St.
  - exact (relocated_fixed w e1 env Em Ep Ea Eu (st_reloc _ _ _ St)).
  - rewrite Em, (st_maps _ _ _ St); exact Wm.
Qed.
End Check.
