(* ===== verification/BpfCheckTheorems.v ===== *)
(** The verifier as a whole, as theorems: the checks end, and what a program
    that passed them does. *)
From Stdlib Require Import ZArith Lia Bool.
From stdpp Require Import base list gmap relations sorting.
From S2P Require Import Prelude Lists Bits Tnum Bounds RegState ScalarOps Insn Interp Env MemAccess RegArg Precision Bookkeeping Alu Frame AluSound AluStep.
From S2P Require Import CondJmp CondJmpSound AluIds Samples StackAccess StackSound MemInsn MemStep MemTheorems.
From S2P Require Import Explore HelperCall Sort SortSound Subprogs SubprogsSound Cfg CfgSound ProgFlow Resolve DoCheck DoCheckFrame DoCheckMachine HelperMachine DoCheckSafe ResolveSound BpfCheck BpfCheckSound.

Local Open Scope Z_scope.
Local Open Scope kint_scope.

(** ** Programs *)

(** Loads from a map value, branches on what it read, and stores into the value
    at a variable offset and to the stack. *)
Definition sample_prog : list bpf_insn :=
  [mk_insn 0x18 3 2 0 7; mk_insn 0 0 0 0 0;
   mk_insn 0x79 4 3 8 0;
   mk_insn 0x25 4 0 5 40;
   mk_insn 0x0f 3 4 0 0;
   mk_insn 0x72 3 0 16 1;
   mk_insn 0x7b 10 4 (-8) 0;
   mk_insn 0xb7 0 0 0 1;
   mk_insn 0x95 0 0 0 0;
   mk_insn 0xb7 0 0 0 0;
   mk_insn 0x95 0 0 0 0].

(** Looks up an element of a map, changes its value if it is there, and reads
    from a buffer that another helper has filled. *)
Definition sample_helper_prog : list bpf_insn :=
  [mk_insn 0x18 1 1 0 7; mk_insn 0 0 0 0 0;
   mk_insn 0x62 10 0 (-4) 0;
   mk_insn 0xbf 2 10 0 0;
   mk_insn 0x07 2 0 0 (-4);
   mk_insn 0x85 0 0 0 1;
   mk_insn 0x15 0 0 7 0;
   mk_insn 0x79 6 0 8 0;
   mk_insn 0x7b 0 6 0 0;
   mk_insn 0xbf 1 10 0 0;
   mk_insn 0x07 1 0 0 (-24);
   mk_insn 0xb7 2 0 0 16;
   mk_insn 0x85 0 0 0 16;
   mk_insn 0x71 0 10 (-24) 0;
   mk_insn 0x95 0 0 0 0].

(** A function that stores to its stack and calls another one that does. *)
Definition sample_call_prog : list bpf_insn :=
  [mk_insn 0x7a 10 0 (-8) 5;
   mk_insn 0x85 0 1 0 1;
   mk_insn 0x95 0 0 0 0;
   mk_insn 0x7a 10 0 (-64) 5;
   mk_insn 0xb7 0 0 0 0;
   mk_insn 0x95 0 0 0 0].

(** The values of arrays are at the addresses of [sample_world]. *)
Definition sample_access_ops : access_ops :=
  mk_access_ops None None (fun _ _ _ _ => inl (- EACCES)) false (fun _ => None)
    (fun t => if t =? 2 then Some (fun map _ => inr (if bpf_map_is_rdonly map then 8192 else 4096)) else None)
    (fun a n => default 0 (load_bytes sample_const a (Z.to_nat n))).

(** The prototypes of [bpf_map_lookup_elem] and [bpf_get_current_comm]. *)
Definition lookup_proto : bpf_func_proto :=
  mk_proto false true RET_PTR_TO_MAP_VALUE_OR_NULL [ARG_CONST_MAP_PTR; ARG_PTR_TO_MAP_KEY; ARG_DONTCARE; ARG_DONTCARE; ARG_DONTCARE] (replicate 5 None) 0 true false.
Definition comm_proto : bpf_func_proto :=
  mk_proto false false RET_INTEGER [ARG_PTR_TO_UNINIT_MEM; ARG_CONST_SIZE; ARG_DONTCARE; ARG_DONTCARE; ARG_DONTCARE] (replicate 5 None) 0 true false.

Definition sample_helper_ops : helper_ops :=
  mk_helper_ops (fun f => if f =? 1 then Some lookup_proto else if f =? 16 then Some comm_proto else None) (fun _ _ _ => false) 0 (fun _ => BtfUnsized) 0.

Definition sample_check_ops : check_ops :=
  mk_check_ops sample_access_ops (fun _ => false) None (fun _ _ => - EINVAL) (fun _ _ => inl (- EINVAL)) false sample_helper_ops.

(** File descriptor 7 is the first map; there are neither type records nor a
    device. *)
Definition sample_load_ops : load_ops :=
  mk_load_ops sample_check_ops (mk_resolve_ops 0 (fun fd => if fd =? 7 then inr 1 else inl (- EINVAL)) sample_map_at (fun _ => inl (- EINVAL)) (fun _ => false) false false)
    0 None (fun env => inr (attach env)) 0 0.

Definition sample_load (insns : list bpf_insn) (privileged : bool) : bpf_load :=
  mk_load insns 1 None 0 privileged privileged true (mk_log 0 0 0) (mk_attach 0 false 0 false None true true false false) (maps (sample_env [])) [].

Ltac insns_ok := repeat constructor; closed_range.

(** The machine about to run them. *)
Definition start_machine : bpf_machine := mk_machine (<[1%nat := 196608]> (<[10%nat := 65536]> (replicate 12 7))) sample_memory 0.

Lemma access_world_ok : world_ok sample_access_ops sample_world sample_memory.
Proof.
  destruct sample_world_ok as [A B C D E F G H]; split; trivial; intros i b f o addr size Wv; cbv zeta; intros Rd Md Ff; refine (C i b (fun _ _ => inr 8192) o addr size Wv Rd eq_refl _).
  destruct Wv as [[-> _]|[-> _]]; [discriminate Rd|]; injection Md as <-; injection Ff as <-; reflexivity.
Qed.

Lemma sample_maps_at (i : Z) : i <> 1 -> i <> 2 -> (maps (sample_env []) : gmap Z bpf_map) !!! i = inhabitant.
Proof. intros N1 N2; rewrite lookup_total_alt; cbn [maps sample_env]; rewrite lookup_insert_ne, lookup_singleton_ne by congruence; reflexivity. Qed.

Lemma value_places : values_at sample_access_ops (lo_resolve sample_load_ops) sample_world (maps (sample_env [])).
Proof.
  split; [intros m f o a Hf Ha|intros m; reflexivity]; destruct (Z.eq_dec m 1) as [->|N1]; [left|destruct (Z.eq_dec m 2) as [->|N2]; [right|rewrite (sample_maps_at m N1 N2) in Hf; discriminate Hf]].
  all: injection Hf as <-; injection Ha as <-; split; reflexivity.
Qed.

Lemma sample_enters : enters sample_access_ops sample_world start_machine.
Proof. 
  split; [reflexivity|reflexivity|insns_ok|reflexivity|reflexivity| |exact access_world_ok].
  intros a b H; apply memory_lookup in H; lia.
Qed.

(** The helpers of the sample programs: the element at [4096] is the one of the
    first map, and the name of the task is empty. *)
Definition fill (x : Z) (l : list Z) (m : memory) : memory := foldr (fun j (m : gmap Z Z) => <[u64 (x + j) := 0]> m) m l.

Definition sample_helper (func_id : Z) (xs : list Z) (m : memory) : option (Z * memory) :=
  if func_id =? 1 then Some (if xs !!! 0%nat =? sample_map_at 1 then 4096 else 0, m)
  else if func_id =? 16 then Some (0, fill (xs !!! 0%nat) (seqZ 0 (xs !!! 1%nat)) m) else None.

Lemma fill_lookup x l m a : fill x l m !! a = Some 0 /\ (exists j, j ∈ l /\ a = u64 (x + j)) \/ fill x l m !! a = m !! a.
Proof.
  induction l as [|j l IH]; cbn [fill foldr]; [auto|]; fold (fill x l m); destruct (Z.eq_dec (u64 (x + j)) a) as [<-|N].
  - left; split; [exact (lookup_insert_eq (M := gmap Z) _ _ _)|exists j; split; [left|reflexivity]].
  - pose proof (lookup_insert_ne (M := gmap Z) (fill x l m) (u64 (x + j)) a 0 N) as En.
    destruct IH as [[E (k & Hk & Ek)]|E]; [left; split; [exact (eq_trans En E)|exists k; split; [right; exact Hk|exact Ek]]|right; exact (eq_trans En E)].
Qed.

Lemma sample_fits : helper_fits sample_helper_ops sample_access_ops sample_world sample_helper.
Proof.
  intros f fn map xs m Ef Md Ln Ux Mo _ Ar; cbn [get_func_proto sample_helper_ops] in Ef; unfold sample_helper; destruct (f =? 1).
  - injection Ef as <-; eexists _, m; split; [reflexivity|split; [split; auto|]]; destruct (Ar 0%nat ltac:(lia)) as [Wm _]; cbn in Wm.
    destruct (Z.eqb_spec (xs !!! 0%nat) (sample_map_at 1)) as [E|_]; [|intros N; contradiction N; reflexivity].
    intros _; rewrite E in Wm; unfold sample_map_at in Wm; destruct (Z.eqb_spec map 1) as [->|N1]; [left; split; reflexivity|exfalso; revert Wm].
    destruct (Z.eqb_spec map 2) as [->|N2]; discriminate.
  - destruct (f =? 16); [|discriminate]; injection Ef as <-; eexists _, _; split; [reflexivity|split; [|exact I]].
    destruct (Ar 1%nat ltac:(lia)) as [_ By]; cbn in By; split.
    + intros a b H; destruct (fill_lookup (xs !!! 0%nat) (seqZ 0 (xs !!! 1%nat)) m a) as [[E _]|E]; rewrite E in H; [injection H as <-; lia|exact (Mo a b H)].
    + intros a H; destruct (fill_lookup (xs !!! 0%nat) (seqZ 0 (xs !!! 1%nat)) m a) as [[E _]|E]; rewrite E; [eauto|exact H].
    + intros a N; destruct (fill_lookup (xs !!! 0%nat) (seqZ 0 (xs !!! 1%nat)) m a) as [[_ (j & Hj & ->)]|E]; [contradiction N; right|exact E].
      apply elem_of_seqZ in Hj; split; [apply (By j ltac:(lia)); reflexivity|]; exists 1%nat, (xs !!! 0%nat), (xs !!! 1%nat), j; split; [lia|split; [reflexivity|split; [lia|reflexivity]]].
Qed.

(** ** Theorems *)

(** C7: The checks of [bpf_check] end: on every program the result is an error
    or acceptance, never the exhaustion of a search, because every instruction
    is pushed once on the stack of the graph search, call chains are cut at
    [MAX_CALL_FRAMES], and the limit on processed instructions ends the loop of
    [do_check]. *)
Theorem bpf_check_ends ops l : 0 < Z.of_nat (length (ld_insns l)) < 2 ^ 31 -> Forall insn_ok (ld_insns l) ->
  (exists err, fst (bpf_check ops l) = inl err) \/ fst (bpf_check ops l) = inr true.
Proof.
  intros Size Ok; destruct (bpf_check ops l) as [[err|b] e] eqn:H; [left; eauto|right]; rewrite (check_ends ops l Size Ok b e H); reflexivity.
Qed.

Lemma bpf_check_ends_witness : let l := sample_load sample_prog true in
  (exists err, fst (bpf_check sample_load_ops l) = inl err) \/ fst (bpf_check sample_load_ops l) = inr true.
Proof. apply bpf_check_ends; [cbn; lia|insns_ok]. Defined.

(** C1: A program that [bpf_check] accepts runs to its exit, within the limit of
    the loop and with every access inside memory it owns, on every machine that
    enters it with any values in its registers and in its memory; the only other
    end is a division by a register that is zero, where the program is patched
    before it runs.  Helpers are assumed to do what their prototypes say
    ([helper_fits]): called with the arguments the verifier checks for, they
    return a value of the declared type and have changed only memory they may
    write.  The hypothesis [covered_check] says that the loop followed every path
    of the program itself and what it met there:
    - the program is not of type EXT, and no path was pruned;
    - no calls between functions, no LD_ABS and LD_IND, no loads of BTF ids;
    - calls of helpers are those of [call_covered]: on numbers, maps, the context
      and memory of the program, with a number or a map value (or NULL) as result;
      no locks, references, sockets and other kernel objects, tail calls, helpers
      that move the packet or whose result is bounded by a size, and no writes to
      read-only maps;
    - loads and stores go through pointers to the stack, map values, memory
      regions or packets whose offset passes [check_reg_sane_offset], and not
      through the context, sockets, buffers and other pointers of the kernel;
    - no stack pointer is added to a scalar marked with another frame;
    - no conditional jump tests a register of a pointer type that cannot be
      NULL;
    - the counter of ids stays below its width. *)
Theorem bpf_check_safe ops helper w l e' s : 0 < Z.of_nat (length (ld_insns l)) < 2 ^ 31 -> Forall insn_ok (ld_insns l) ->
  helper_fits (ck_helper (lo_check ops)) (ck_access (lo_check ops)) w helper ->
  values_at (ck_access (lo_check ops)) (lo_resolve ops) w (ld_maps l) -> w_maps w = ld_maps l -> covered_check ops l = true -> bpf_check ops l = (inr true, e') ->
  enters (ck_access (lo_check ops)) w s -> ends helper (prog e') (Z.to_nat (BPF_COMPLEXITY_LIMIT_INSNS + 1)) s.
Proof. intros Size Ok; exact (accepted_ends ops l Size Ok helper w e' s). Qed.

Lemma bpf_check_safe_witness :
  (let e' := snd (bpf_check sample_load_ops (sample_load sample_prog true)) in ends sample_helper (prog e') (Z.to_nat (BPF_COMPLEXITY_LIMIT_INSNS + 1)) start_machine) /\
  (let e' := snd (bpf_check sample_load_ops (sample_load sample_helper_prog true)) in ends sample_helper (prog e') (Z.to_nat (BPF_COMPLEXITY_LIMIT_INSNS + 1)) start_machine).
Proof.
  split; [refine (bpf_check_safe sample_load_ops _ sample_world (sample_load sample_prog true) _ _ _ _ sample_fits value_places eq_refl _ _ sample_enters)|
    refine (bpf_check_safe sample_load_ops _ sample_world (sample_load sample_helper_prog true) _ _ _ _ sample_fits value_places eq_refl _ _ sample_enters)].
  1, 5: cbn; lia.
  1, 4: insns_ok.
  1, 3: vm_compute; reflexivity.
  all: apply (accepted (check_program sample_load_ops (mk_log 0 0 0))); vm_compute; reflexivity.
Defined.

(** C8: Without CAP_BPF no accepted program loops: a run has fewer steps than
    the program has instructions, whatever the helpers and the memory are. *)
Theorem bpf_check_unprivileged_runs ops helper l e' k s s' : 0 < Z.of_nat (length (ld_insns l)) < 2 ^ 31 -> Forall insn_ok (ld_insns l) -> ld_capable l = false ->
  bpf_check ops l = (inr true, e') -> nsteps (fun s s' => step helper (prog e') s = Some (Next s')) k s s' -> (k < length (ld_insns l))%nat.
Proof. intros Size Ok; exact (accepted_short ops l Size Ok helper k e' s s'). Qed.

Lemma bpf_check_unprivileged_runs_witness : let e' := snd (bpf_check sample_load_ops (sample_load sample_prog false)) in
  (exists s', nsteps (fun s s' => step (fun _ _ _ => None) (prog e') s = Some (Next s')) 1 (mk_machine (replicate 12 0) ∅ 0) s') /\ (1 < length (ld_insns (sample_load sample_prog false)))%nat.
Proof.
  intros e'; assert (E : exists s', step (fun _ _ _ => None) (prog e') (mk_machine (replicate 12 0) ∅ 0) = Some (Next s')) by (eexists; vm_compute; reflexivity).
  destruct E as [s' E]; assert (N : nsteps (fun s s' => step (fun _ _ _ => None) (prog e') s = Some (Next s')) 1 (mk_machine (replicate 12 0) ∅ 0) s') by (apply nsteps_once, E).
  split; [exists s'; exact N|]; refine (bpf_check_unprivileged_runs sample_load_ops _ (sample_load sample_prog false) e' 1 _ _ _ _ eq_refl _ N); [cbn; lia|insns_ok|].
  apply (accepted (check_program sample_load_ops (mk_log 0 0 0))); vm_compute; reflexivity.
Defined.

(** C9: No function of a program that passed the checks of its structure calls
    itself, neither directly nor through others: the rule that calls do not go
    to functions on the path of the graph search excludes every cycle. *)
Theorem check_structure_no_recursion ops l b e f : 0 < Z.of_nat (length (ld_insns l)) < 2 ^ 31 -> Forall insn_ok (ld_insns l) ->
  check_structure ops (ld_log l) (new_env l) = (inr b, e) -> (f < length (subprog_info e))%nat -> ~ tc (calls e) f f.
Proof. intros Size Ok; exact (structure_acyclic ops l Size Ok b e f). Qed.

Lemma check_structure_no_recursion_witness : let e := snd (check_structure sample_load_ops (mk_log 0 0 0) (new_env (sample_load sample_call_prog true))) in ~ tc (calls e) 1%nat 1%nat.
Proof.
  refine (check_structure_no_recursion sample_load_ops (sample_load sample_call_prog true) true _ 1 _ _ _ _); [cbn; lia|insns_ok| |vm_compute; lia].
  apply (accepted (check_structure sample_load_ops (mk_log 0 0 0))); vm_compute; reflexivity.
Defined.

(** C10: In an accepted program every chain of calls from the main function is
    shorter than [MAX_CALL_FRAMES], and the rounded stacks of its functions take
    at most [MAX_BPF_STACK] bytes together, less than 256 of them below a
    function that makes tail calls. *)
Theorem bpf_check_stack_fits ops l e' p : 0 < Z.of_nat (length (ld_insns l)) < 2 ^ 31 -> Forall insn_ok (ld_insns l) -> bpf_check ops l = (inr true, e') -> chain e' 0 p ->
  (length p < MAX_CALL_FRAMES)%nat /\ stack_fits e' 0 (0%nat :: p).
Proof. intros Size Ok; exact (accepted_stack ops l Size Ok e' p). Qed.

Lemma bpf_check_stack_fits_witness : let e' := snd (bpf_check sample_load_ops (sample_load sample_call_prog true)) in chain e' 0 [1%nat] /\ stack_fits e' 0 [0%nat; 1%nat].
Proof.
  intros e'; assert (Ch : chain e' 0 [1%nat]).
  { assert (F : func_insns e' 0 = [(0, mk_insn 0x7a 10 0 (-8) 5); (1, mk_insn 0x85 0 1 0 1); (2, mk_insn 0x95 0 0 0 0)]) by (vm_compute; reflexivity).
    split; [|exact I]; exists 1, (mk_insn 0x85 0 1 0 1); split; [rewrite F; right; left|split; [reflexivity|vm_compute; reflexivity]]. }
  split; [exact Ch|]; refine (proj2 (bpf_check_stack_fits sample_load_ops (sample_load sample_call_prog true) e' [1%nat] _ _ _ Ch)); [cbn; lia|insns_ok|].
  apply (accepted (check_program sample_load_ops (mk_log 0 0 0))); vm_compute; reflexivity.
Defined.

(** C11: [check_subprogs] divides the program into functions: they start at
    increasing positions of which the first is 0, every call goes to the start
    of one, no jump leaves the function it is in, and every function ends with
    an exit or an unconditional jump. *)
Theorem check_subprogs_functions e u e' : subprog_info e = [] -> Z.of_nat (length (prog e)) < 2 ^ 31 -> check_subprogs e = (inr u, e') -> functions e' /\ prog e' = prog e.
Proof. exact (check_subprogs_ok e u e'). Qed.

Lemma check_subprogs_functions_witness : let e := new_env (sample_load sample_call_prog true) in functions (snd (check_subprogs e)) /\ prog (snd (check_subprogs e)) = prog e.
Proof.
  intros e; refine (check_subprogs_functions e () _ eq_refl _ _); [vm_compute; reflexivity|apply (accepted check_subprogs); vm_compute; reflexivity].
Defined.
