(* ===== verification/HelperTheorems.v ===== *)
(** Helper calls, as theorems: calls on the machine, what is left of a reference
    that is released, the bounds of return values, and what is let through by
    three checks that the kernel means to be stricter. *)
From Stdlib Require Import ZArith Lia Bool.
From stdpp Require Import base list gmap.
From S2P Require Import Prelude Lists Bits Bitops Tnum Bounds RegState Insn Interp Env MemAccess RegArg Precision Bookkeeping Alu AluSound PtrSound AluStep CondJmp Samples StackAccess StackSound MemInsn MemStep MemTheorems.
From S2P Require Import AluMachine Explore HelperCall HelperMachine DoCheck Resolve BpfCheck BpfCheckTheorems.

Local Open Scope Z_scope.
Local Open Scope kint_scope.

(** ** Calls on the machine *)

(** A call of [bpf_get_current_comm] that fills the first 16 bytes of a map
    value. *)
Definition comm_insn : bpf_insn := mk_insn 0x85 0 0 0 16.

Definition comm_env : bpf_verifier_env :=
  set_cur_state (sample_env [comm_insn])
    (mk_state [mk_func (<[1%nat := sample_ptr PTR_TO_MAP_VALUE 1 0]> (<[2%nat := sample_scalar 16 0]> sample_regs)) 0 0 0 [] []] 0 1 0%nat 0 false 0 0 []).

Definition comm_machine : bpf_machine := mk_machine (<[1%nat := 4096]> (<[2%nat := 16]> sample_values)) sample_memory 0.

Definition comm_base (r : Z) : Z := if r =? 1 then 4096 else sample_base r.

Lemma comm_sim : machine_sim sample_access_ops sample_world sample_links comm_env (m_regs comm_machine) (m_mem comm_machine) comm_base (fun _ _ => 0).
Proof.
  destruct (sample_machine [comm_insn]) as [Wf L Rg St Me Mp _ Lk]; assert (M : machine_sim sample_access_ops sample_world sample_links (sample_env [comm_insn]) sample_values sample_memory sample_base (fun _ _ => 0))
    by (split; try assumption; exact access_world_ok).
  refine (machine_regs _ _ _ sample_links _ comm_env _ (m_regs comm_machine) _ _ comm_base _ M (reflexivity _) Lk _ eq_refl eq_refl eq_refl _); [split; cbn; lia|].
  intros r Hr; destruct (Z.eq_dec r 1) as [->|N1]; [|destruct (Z.eq_dec r 2) as [->|N2]].
  - exists 4096; split; [reflexivity|]; split; [apply (sample_ptr_sim PTR_TO_MAP_VALUE 1 0); [kia|discriminate]|left; split; reflexivity|discriminate|intros _; left; reflexivity].
  - exists 16; split; [reflexivity|]; apply describes_scalar; [reflexivity|reflexivity|apply (sample_scalar_sim 16 0); kia].
  - destruct (Rg r Hr) as (x & Hx & D); exists x; split; [|revert D]; destruct (regno_cases r Hr) as [<-|[<-|[<-|[<-|[<-|[<-|[<-|[<-|[<-|[<-|[<-|[]]]]]]]]]]]]; try contradiction; auto.
Qed.

(** C6: An accepted call of a helper that does what its prototype says
    ([helper_fits]) returns on the machine, and the verifier state after the call
    describes the machine after it: the argument registers are forgotten, the
    stack bytes the helper may have written are no longer taken for what they
    were, and the result is the number, the map value or the map value or NULL
    the state says.  The calls are those of [call_covered]:
    - the arguments are numbers, one map, keys and values of it, memory of the
      program with its size, and the context; at most one of them is written
      without being read.  Locks, sockets, BTF and allocated objects, pointers to
      int and long, and map values and contexts that may be missing are not among
      them;
    - the result is a number, nothing, or a map value (or NULL); the helper
      neither acquires nor releases a reference, is not the tail call, does not
      move the packet, and its result is not bounded by a size
      (bpf_get_stack, bpf_probe_read_str and its variants);
    - stack slots are spilled wholly or not at all; memory arguments are NULL or
      pointers to the stack, map values, memory regions or packets whose offset
      passes [check_reg_sane_offset], on the stack with a variable offset only if
      the size is not zero;
    - nothing is written to the value of a map that is read-only;
    - fewer than 2^31 ids were handed out. *)
Theorem helper_call_simulates hops acc helper prog w ι s e β βs insn idx u e' : helper_fits hops acc w helper -> machine_sim acc w ι e (m_regs s) (m_mem s) β βs ->
  l_gen ι <= id_gen e -> 0 <= id_gen e -> 0 <= m_pc s -> prog !! Z.to_nat (m_pc s) = Some insn -> jumptable (insn_code insn) = L_JMP_CALL ->
  call_covered hops (insn_imm insn) e = true -> check_helper_call hops acc (insn_imm insn) idx e = (inr u, e') ->
  exists σ' m' ι' β' βs', step helper prog s = Some (Next (mk_machine σ' m' (m_pc s + 1))) /\ machine_sim acc w ι' e' σ' m' β' βs' /\ extends ι ι' /\ l_gen ι' <= id_gen e'.
Proof.
  intros Fit M Lg G0 P0 Hi L Cv H; destruct (call_after _ _ w helper ι _ _ _ β βs _ _ _ _ M Lg G0 Fit Cv H) as (xs & r & m' & Ex & Eh & ι' & β' & βs' & M' & X & L' & _).
  exists (<[0%nat := u64 r]> (m_regs s)), m', ι', β', βs'; split; [|auto]; apply Z.leb_le in P0; unfold step; rewrite P0, Hi; cbn [mbind option_bind]; rewrite L, Ex; cbn [mbind option_bind].
  rewrite Eh; cbn [mbind option_bind]; rewrite (reg_set_upd _ BPF_REG_0) by (first [exact (ms_len _ _ _ _ _ _ _ _ M)|lia]); reflexivity.
Qed.

Lemma helper_call_simulates_witness : let e' := snd (check_helper_call sample_helper_ops sample_access_ops 16 0 comm_env) in
  exists σ' m' ι' β' βs', step sample_helper [comm_insn] comm_machine = Some (Next (mk_machine σ' m' 1)) /\ machine_sim sample_access_ops sample_world ι' e' σ' m' β' βs' /\
    extends sample_links ι' /\ l_gen ι' <= id_gen e'.
Proof.
  refine (helper_call_simulates sample_helper_ops sample_access_ops sample_helper [comm_insn] sample_world sample_links comm_machine comm_env comm_base _ comm_insn 0 () _
    sample_fits comm_sim _ _ _ eq_refl eq_refl _ _); [cbn; lia..|vm_compute; reflexivity|].
  apply (accepted (check_helper_call sample_helper_ops sample_access_ops 16 0)); vm_compute; reflexivity.
Defined.

(** ** Facts about references *)

Lemma ref_index_at ptr_id rs i : ref_index ptr_id rs = Some i -> exists r, rs !! i = Some r /\ ref_id r = ptr_id.
Proof.
  revert i; induction rs as [|r rs IH]; intros i H; [discriminate|]; cbn in H; destruct (Z.eqb_spec (ref_id r) ptr_id) as [E|N]; [injection H as <-; exists r; auto|].
  destruct (ref_index ptr_id rs) as [j|]; [|discriminate]; injection H as <-; exact (IH j eq_refl).
Qed.

Lemma ref_index_found ptr_id rs : ptr_id ∈ ref_id <$> rs -> exists i, ref_index ptr_id rs = Some i.
Proof.
  induction rs as [|r rs IH]; intros H; [inversion H|]; cbn in *; destruct (Z.eqb_spec (ref_id r) ptr_id) as [E|N]; [eauto|].
  apply elem_of_cons in H as [H|H]; [congruence|]; destruct (IH H) as [i ->]; eauto.
Qed.

(** One entry with the id is gone, the others are still there. *)
Lemma release_state_perm ptr_id rs rs' : release_reference_state ptr_id rs = Some rs' -> exists r, ref_id r = ptr_id /\ r :: rs' ≡ₚ rs.
Proof.
  unfold release_reference_state; destruct (ref_index ptr_id rs) as [i|] eqn:I; [|discriminate]; apply ref_index_at in I as (r & Hi & E); destruct rs as [|x rs0] using rev_ind; [discriminate|clear IHrs0]; cbn.
  assert (Ln : (length (rs0 ++ [x]) - 1)%nat = length rs0) by (rewrite length_app; cbn; lia); rewrite Ln, list_lookup_middle by reflexivity; cbn; intros H; injection H as <-; exists r; split; [exact E|].
  destruct (Nat.eq_dec i (length rs0)) as [->|N].
  - rewrite list_lookup_middle in Hi by reflexivity; injection Hi as ->; rewrite list_insert_id, take_app_length by (apply list_lookup_middle; reflexivity); apply Permutation_cons_append.
  - pose proof (lookup_lt_Some _ _ _ Hi) as L; rewrite length_app in L; cbn in L; rewrite lookup_app_l in Hi by lia; rewrite insert_app_l, take_app_length' by (rewrite ?length_insert; lia).
    destruct (list_elem_of_split_length _ _ _ Hi) as (a & b & -> & ->); rewrite <- (Nat.add_0_r (length a)), insert_app_r; cbn; solve_Permutation.
Qed.

Lemma release_state_some ptr_id rs : ptr_id ∈ ref_id <$> rs -> exists rs', release_reference_state ptr_id rs = Some rs'.
Proof.
  intros H; unfold release_reference_state; destruct (ref_index_found _ _ H) as [i ->]; cbn; destruct (lookup_lt_is_Some_2 rs (length rs - 1)) as [x ->]; [|cbn; eauto].
  destruct rs; [inversion H|cbn; lia].
Qed.

(** The registers of a state, and those it has spilled. *)
Definition held_by (st : bpf_verifier_state) (reg : bpf_reg_state) : Prop :=
  exists k fn, (k <= curframe st)%nat /\ frame st !! k = Some fn /\
    (reg ∈ regs fn \/ exists s, s ∈ stack fn /\ slot_type s !! 0%nat = Some STACK_SPILL /\ reg = spilled_ptr s).

Lemma held_passed g st reg : held_by (upd_frames (upd_func_regs g) st) reg -> exists reg0, held_by st reg0 /\ reg = g reg0.
Proof.
  intros (k & fn & Lk & Hk & Hr); cbn in Lk, Hk; rewrite list_lookup_imap in Hk; destruct (frame st !! k) as [fn0|] eqn:Hf; [|discriminate]; cbn in Hk; injection Hk as <-.
  destruct (decide (k <= curframe st)%nat) as [_|N]; [|lia]; destruct Hr as [Hr|(s & Hs & Sp & ->)]; cbn in *.
  - apply list_elem_of_fmap in Hr as (r0 & -> & Hr); exists r0; split; [exists k, fn0; auto|reflexivity].
  - apply list_elem_of_fmap in Hs as (s0 & -> & Hs); unfold upd_spilled in *; destruct (bool_decide _) eqn:B; cbn in *; [|apply bool_decide_eq_false in B; contradiction].
    exists (spilled_ptr s0); split; [exists k, fn0; split; [exact Lk|split; [exact Hf|right; exists s0; auto]]|reflexivity].
Qed.

Section Release.
Context (id_ : Z) (e : bpf_verifier_env) (Cur : (curframe (cur_state e) < length (frame (cur_state e)))%nat).

Lemma ref_released e' : release_reference id_ e = (inr (), e') -> exists rs, release_reference_state id_ (refs (cur_func e)) = Some rs /\ refs (cur_func e') = rs /\
  id_gen e' = id_gen e /\ exists st, cur_state e' = upd_frames (release_reg_references (flags e) id_) st.
Proof using Cur.
  intros H; unfold release_reference in H; run H; injection R as <- <-; destruct (release_reference_state _ _) as [rs|]; [|discriminate]; run H; injection R as _ <-; injection H as <-.
  exists rs; split; [reflexivity|split; [|split; [reflexivity|eexists; reflexivity]]]; unfold cur_func; cbn; rewrite list_lookup_total_alt, list_lookup_imap, list_lookup_alter_eq.
  destruct (lookup_lt_is_Some_2 _ _ Cur) as [fn ->]; cbn; destruct (decide _) as [_|N]; [reflexivity|lia].
Qed.

(** Nothing refers to the object any more. *)
Lemma ref_unheld e' reg : u32 id_ <> 0 -> release_reference id_ e = (inr (), e') -> held_by (cur_state e') reg -> ref_obj_id reg <> u32 id_.
Proof using Cur.
  intros N H Hb; destruct (ref_released e' H) as (_ & _ & _ & _ & st & Es); rewrite Es in Hb; apply held_passed in Hb as (r0 & _ & ->).
  destruct (Z.eqb_spec (ref_obj_id r0) (u32 id_)) as [E|]; [cbn; lia|assumption].
Qed.
End Release.

(** The references of the current function have distinct ids that were handed
    out. *)
Record refs_ok (e : bpf_verifier_env) : Prop := mk_refs_ok {
  ro_cur : (curframe (cur_state e) < length (frame (cur_state e)))%nat;
  ro_nodup : NoDup (ref_id <$> refs (cur_func e));
  ro_ids : Forall (fun r => 0 < ref_id r <= id_gen e) (refs (cur_func e))
}.

Lemma acquire_ok idx e i e1 : refs_ok e -> 0 <= id_gen e < 2 ^ 31 - 1 -> acquire_reference_state idx e = (inr i, e1) ->
  i = id_gen e + 1 /\ id_gen e1 = i /\ refs (cur_func e1) = refs (cur_func e) ++ [mk_ref i idx] /\ (i ∉ (ref_id <$> refs (cur_func e))) /\ refs_ok e1.
Proof.
  intros [C N F] G H; unfold acquire_reference_state in H; run H; destruct (kalloc_run _ _ _ R) as [l ->]; clear R; run H; injection R as _ <-; run H; injection R as <- <-; run H; injection R as _ <-; injection H as <- <-.
  cbn [id_gen set_id_gen set_alloc set_cur_state]; assert (u32 (id_gen e + 1) = id_gen e + 1) as -> by (apply uwrap_id; unfold uin; lia).
  assert (s32 (id_gen e + 1) = id_gen e + 1) as -> by (apply swrap_id; unfold sin; lia).
  assert (Er : refs (cur_func (set_cur_state (set_id_gen (set_alloc e l) (id_gen e + 1)) (set_frame (cur_state e) (alter (fun fn => set_refs fn (refs fn ++ [mk_ref (id_gen e + 1) idx]))
    (curframe (cur_state e)) (frame (cur_state e)))))) = refs (cur_func e) ++ [mk_ref (id_gen e + 1) idx]).
  { unfold cur_func; cbn; rewrite !list_lookup_total_alt, list_lookup_alter_eq; destruct (lookup_lt_is_Some_2 _ _ C) as [fn ->]; reflexivity. }
  assert (Nw : id_gen e + 1 ∉ ref_id <$> refs (cur_func e)) by (intros In; apply list_elem_of_fmap in In as (r & E & In); rewrite Forall_forall in F; specialize (F r In); lia).
  split; [reflexivity|split; [reflexivity|split; [exact Er|split; [exact Nw|]]]]; split; cbn [cur_state set_cur_state set_frame curframe frame id_gen set_id_gen].
  - rewrite length_alter; exact C.
  - rewrite Er, fmap_app; apply NoDup_app; split; [exact N|split; [|apply NoDup_singleton]]; intros x Hx E; apply list_elem_of_singleton in E as ->; contradiction.
  - rewrite Er; apply Forall_app; split; [apply (Forall_impl _ _ _ F); cbn; lia|repeat constructor; cbn; lia].
Qed.

(** ** Bounds of return values *)

Lemma refine_retval_inv msize reg x : reg_inv reg x -> 0 <= msize < 2 ^ 31 -> - MAX_ERRNO <= s64 x <= msize -> reg_inv (refine_retval msize reg) x.
Proof.
  intros ((T & B64 & B32) & (Mt & M64 & M32) & _) Hm Hx; assert (E : s32 x = s64 x) by (rewrite <- (swrap_swrap 32 64 x) by lia; apply swrap_id; unfold sin; lia).
  unfold refine_retval; assert (s64 msize = msize) as -> by (apply swrap_id; unfold sin; lia); assert (s32 msize = msize) as -> by (apply swrap_id; unfold sin; lia).
  apply update_inv, deduce_bound_inv.
  - split; [exact T|]; unfold bnd_ok, b64, b32, sin in *; cbn [bsmin bsmax bumin bumax] in *; cbn; repeat split; try lia; apply B64 || apply B32.
  - split; [exact Mt|]; unfold bnd_in in *; cbn in *; rewrite E; repeat split; try lia; apply M64 || apply M32.
Qed.


(** ** References *)

(** C16: A reference that [release_reference] releases is gone: one entry with
    its id left the list of the function, the others stayed, and no register of
    any frame, spilled ones included, refers to the object any more. *)
Theorem release_reference_clears id_ e e' : (curframe (cur_state e) < length (frame (cur_state e)))%nat -> u32 id_ <> 0 -> release_reference id_ e = (inr (), e') ->
  (exists r, ref_id r = id_ /\ r :: refs (cur_func e') ≡ₚ refs (cur_func e)) /\ forall reg, held_by (cur_state e') reg -> ref_obj_id reg <> u32 id_.
Proof.
  intros C N H; split; [|intros reg; exact (ref_unheld id_ e C e' reg N H)].
  destruct (ref_released id_ e C e' H) as (rs & Hr & -> & _); exact (release_state_perm _ _ _ Hr).
Qed.

(** A function that holds two references and a socket for one of them. *)
Definition ref_env : bpf_verifier_env :=
  let socket := set_ref_obj_id (sample_ptr PTR_TO_SOCKET 0 2) 2 in
  set_cur_state (sample_env []) (mk_state [mk_func (<[6%nat := socket]> sample_regs) 0 0 0 [mk_ref 2 3; mk_ref 1 4] []] 0 1 0%nat 0 false 0 0 []).

Lemma release_reference_clears_witness : let e' := snd (release_reference 2 ref_env) in
  (exists r, ref_id r = 2 /\ r :: refs (cur_func e') ≡ₚ refs (cur_func ref_env)) /\ forall reg, held_by (cur_state e') reg -> ref_obj_id reg <> u32 2.
Proof. refine (release_reference_clears 2 ref_env _ _ _ _); [cbn; lia|discriminate|apply accepted; vm_compute; reflexivity]. Defined.

(** C17: References that are acquired can be released: the id that
    [acquire_reference_state] hands out is not in use, the ids stay distinct, and
    releasing it at once succeeds and leaves the references there were. *)
Theorem acquire_release idx e i e1 : refs_ok e -> 0 <= id_gen e < 2 ^ 31 - 1 -> acquire_reference_state idx e = (inr i, e1) ->
  (i ∉ (ref_id <$> refs (cur_func e))) /\ refs_ok e1 /\ exists e2, release_reference i e1 = (inr (), e2) /\ refs (cur_func e2) ≡ₚ refs (cur_func e).
Proof.
  intros O G H; destruct (acquire_ok idx e i e1 O G H) as (_ & _ & Er & Nw & O1); split; [exact Nw|split; [exact O1|]].
  destruct (release_state_some i (refs (cur_func e1))) as [rs Hr]; [rewrite Er, fmap_app, elem_of_app; right; left|].
  assert (R : exists e2, release_reference i e1 = (inr (), e2)) by (unfold release_reference; cbv [mbind verifier_bind get]; rewrite Hr; eexists; reflexivity).
  destruct R as [e2 R]; exists e2; split; [exact R|]; destruct (ref_released i e1 (ro_cur e1 O1) e2 R) as (rs' & Hr' & -> & _); rewrite Hr in Hr'; injection Hr' as <-.
  destruct (release_state_perm _ _ _ Hr) as (r & Ei & P); rewrite Er in P; rewrite <- Permutation_cons_append in P.
  assert (E : r = mk_ref i idx); [|rewrite E in P; exact (Permutation_cons_inv P)].
  assert (In : r ∈ mk_ref i idx :: refs (cur_func e)) by (rewrite <- P; left); apply elem_of_cons in In as [In|In]; [exact In|].
  destruct Nw; rewrite <- Ei; apply list_elem_of_fmap_2, In.
Qed.

Lemma ref_env_ok : refs_ok ref_env.
Proof. split; [cbn; lia|apply NoDup_ListNoDup; vm_compute; repeat constructor; cbn; lia|repeat constructor; cbn; lia]. Qed.

Lemma acquire_release_witness : let e1 := snd (acquire_reference_state 5 ref_env) in exists e2, release_reference 3 e1 = (inr (), e2) /\ refs (cur_func e2) ≡ₚ refs (cur_func ref_env).
Proof. refine (proj2 (proj2 (acquire_release 5 ref_env 3 _ ref_env_ok _ _))); [cbn; lia|apply accepted; vm_compute; reflexivity]. Defined.

(** ** Return values *)

(** C33: The bounds [do_refine_retval_range] gives the return value of a helper
    that returns at most the size it was given or an error number hold for every
    such value, at 32 and at 64 bits and for the tristate number. *)
Theorem refine_retval_sound msize reg x : reg_inv reg x -> 0 <= msize < 2 ^ 31 -> - MAX_ERRNO <= s64 x <= msize -> reg_inv (refine_retval msize reg) x.
Proof. exact (refine_retval_inv msize reg x). Qed.

Lemma refine_retval_sound_witness : reg_inv (refine_retval 64 (__mark_reg_unknown (mk_flags 1 true) inhabitant)) 12.
Proof. apply refine_retval_sound; [apply mark_unknown_inv; unfold uin; lia|lia|vm_compute; split; discriminate]. Defined.

(** ** Calls that should be refused *)

(** A size from 1 to 8. *)
Definition variable_size : bpf_reg_state :=
  mk_reg SCALAR_VALUE 0 0 0 0 (TNUM 0 15) 1 8 1 8 1 8 1 8 None 0 0 0 false.

(** R1 points to a value of the map the program may not write, R2 is a size. *)
Definition rdonly_env (size : bpf_reg_state) : bpf_verifier_env :=
  let rdonly := sample_ptr PTR_TO_MAP_VALUE 2 0 in
  set_cur_state (sample_env [inhabitant])
    (mk_state [mk_func (<[1%nat := rdonly]> (<[2%nat := size]> (<[3%nat := sample_scalar 0 0]> (<[4%nat := rdonly]> sample_regs)))) 0 0 0 [] []] 0 1 0%nat 0 false 0 0 []).

(** The prototypes of [bpf_probe_read_kernel] and of [bpf_strtol]. *)
Definition write_ops : helper_ops :=
  mk_helper_ops (fun f =>
    if f =? 113 then Some (mk_proto true false RET_INTEGER [ARG_PTR_TO_UNINIT_MEM; ARG_CONST_SIZE_OR_ZERO; ARG_ANYTHING; ARG_DONTCARE; ARG_DONTCARE] (replicate 5 None) 0 true false)
    else if f =? 105 then Some (mk_proto false false RET_INTEGER [ARG_PTR_TO_MEM; ARG_CONST_SIZE; ARG_ANYTHING; ARG_PTR_TO_LONG; ARG_DONTCARE] (replicate 5 None) 0 true false)
    else None) (fun _ _ _ => false) 0 (fun _ => BtfUnsized) 0.

(** An access to a value of a map the program may not write. *)
Lemma rdonly_write_refused e regno n zero : type_ (get_reg e regno) = PTR_TO_MAP_VALUE -> bpf_map_flags_to_cap (map_of e (raw (get_reg e regno))) .& BPF_MAP_CAN_WRITE = 0 ->
  check_helper_mem_access regno n zero true e = (inl (- EACCES), e).
Proof.
  intros T C; unfold check_helper_mem_access, check_map_access_type; cbv beta iota delta [mbind verifier_bind reg_of get]; rewrite T.
  cbv beta iota delta [mbind verifier_bind reg_of get]; rewrite C; reflexivity.
Qed.

(** C36: A helper that fills memory is refused the values of a map that is
    read-only for programs, with whatever constant size; with a size that is
    not constant the call is checked exactly as that of a helper that only
    reads, so the map can be written.  [regno] is the size and the register
    before it the memory. *)
Theorem helper_writes_rdonly_map e regno t m : type_ (get_reg e (regno - 1)) = PTR_TO_MAP_VALUE ->
  bpf_map_flags_to_cap (map_of e (raw (get_reg e (regno - 1)))) .& BPF_MAP_CAN_WRITE = 0 ->
  let writes := check_mem_size_arg regno t (set_raw_mode m true) e in
  let reads := check_mem_size_arg regno t (set_raw_mode m false) e in
  if tnum_is_const (var_off (get_reg e regno)) then fst writes = inl (- EACCES)
  else snd writes = snd reads /\ match fst reads with inl err => fst writes = inl err | inr m' => fst writes = inr (set_raw_mode m' true) end.
Proof.
  intros T C; cbn zeta; unfold check_mem_size_arg; cbv beta iota zeta delta [mbind verifier_bind reg_of]; destruct (tnum_is_const (var_off (get_reg e regno))); cbn [andb raw_mode set_raw_mode].
  - destruct (_ <? 0); [reflexivity|]; destruct (umin_value _ =? 0); [rewrite rdonly_write_refused by assumption; reflexivity|].
    cbn [mret verifier_ret]; destruct (_ >=? _); [reflexivity|]; rewrite rdonly_write_refused by assumption; reflexivity.
  - destruct (_ <? 0); [split; reflexivity|].
    match goal with |- context [(if ?c then ?p else ?q) e] => destruct ((if c then p else q) e) as [[err|a1] e1] end; [split; reflexivity|]; destruct (_ >=? _); [split; reflexivity|].
    destruct (check_helper_mem_access _ _ _ _ e1) as [[err|a2] e2]; [split; reflexivity|]; destruct (mark_chain_precision regno e2) as [[err|u] e3]; [split; reflexivity|].
    split; [reflexivity|]; destruct a1 as [[]|], a2 as [[]|]; reflexivity.
Qed.

(** With a size from 1 to 8 the write is accepted. *)
Lemma helper_writes_rdonly_map_witness : bpf_map_is_rdonly (map_of (rdonly_env variable_size) 2) = true /\
  exists m', fst (check_mem_size_arg 2 ARG_CONST_SIZE_OR_ZERO (mk_meta 0 true false 0 0 0 0 0 0) (rdonly_env variable_size)) = inr m'.
Proof.
  split; [reflexivity|]; pose proof (helper_writes_rdonly_map (rdonly_env variable_size) 2 ARG_CONST_SIZE_OR_ZERO (mk_meta 0 true false 0 0 0 0 0 0) eq_refl eq_refl) as [_ H].
  destruct (fst (check_mem_size_arg 2 ARG_CONST_SIZE_OR_ZERO (set_raw_mode _ false) (rdonly_env variable_size))) as [err|m'] eqn:E; [vm_compute in E; discriminate E|exists (set_raw_mode m' true); exact H].
Defined.

(** Calls that are accepted with such a map: of a helper that fills memory of a
    variable size, and of one that stores to a pointer to a long. *)
Example rdonly_calls :
  fst (check_helper_call write_ops sample_access_ops 113 0 (rdonly_env (sample_scalar 8 0))) = inl (- EACCES) /\
  fst (check_helper_call write_ops sample_access_ops 113 0 (rdonly_env variable_size)) = inr () /\
  fst (check_helper_call write_ops sample_access_ops 105 0 (rdonly_env (sample_scalar 8 0))) = inr ().
Proof. vm_compute; auto. Qed.







(** C35: Adding a stack pointer to a scalar loses the frame.  An accepted
    [dst += src] with a scalar [dst] and a pointer [src] into the stack leaves a
    scalar or a stack pointer marked with the frame of the scalar, whatever
    frame [src] points into; the verifier then takes it for a pointer from the
    base of that frame. *)
Theorem scalar_plus_frame_pointer insn e σ β u e' : insn_ok insn -> env_wf e -> regs_sim e σ β -> 0 <= id_gen e -> id_gen e + 1 < 2 ^ 32 ->
  insn_code insn = BPF_ALU64 .| BPF_ADD .| BPF_X -> type_ (get_reg e (insn_dst insn)) = SCALAR_VALUE -> type_ (get_reg e (insn_src insn)) = PTR_TO_STACK ->
  check_alu_op insn e = (inr u, e') ->
  type_ (get_reg e' (insn_dst insn)) = SCALAR_VALUE \/
  type_ (get_reg e' (insn_dst insn)) = PTR_TO_STACK /\ frameno (get_reg e' (insn_dst insn)) = frameno (get_reg e (insn_dst insn)) /\
  forall w ι b x, describes w ι (get_reg e' (insn_dst insn)) b x -> w_fps w !! func (get_reg e (insn_dst insn)) = Some b.
Proof.
  intros Ok W Sim G0 G1 Ec Td Ts H; unfold check_alu_op in H; rewrite Ec in H; cbn [Z.eqb orb] in H.
  change (check_alu_binary insn e = (inr u, e')) in H.
  assert (E3 : BPF_SRC (insn_code insn) = src_code X) by (rewrite Ec; reflexivity).
  destruct (binary_regnos _ _ _ _ Ok H (or_introl E3)) as [Hd Hs]; destruct Sim as [L S]; destruct (S _ Hd) as (x & Hx & _), (S _ Hs) as (y & Hy & _).
  assert (E1 : insn_w insn = 64) by (unfold insn_w; rewrite Ec; reflexivity); assert (E2 : BPF_OP (insn_code insn) = alu_code ADD) by (rewrite Ec; reflexivity).
  destruct (alu_exec 64 ADD X x y (insn_imm insn)) as [r|] eqn:E4; [|discriminate E4].
  destruct (binary_cases insn e σ β Ok W (conj L S) 64 ADD X x y r u e' E1 E2 E3 ltac:(discriminate) Hx Hy E4 H)
    as [e0 _ _ T _|e0 off_ r0 x0 y0 P _ H0 Ho C _ N1 _ _ _ _ Run]; [left; exact T|].
  destruct P as (W0 & G & Pe & Pf & _); pose proof (f_equal type_ Pe) as Pt; cbn in Pt; destruct C as [->|[-> _]]; [congruence|].
  destruct (adjust_ptr_fields insn e0 (PReg (insn_src insn)) off_ W0 Hd H0 Ho ltac:(lia) ltac:(lia) u e' Run) as [T|F]; [left; exact T|right].
  pose proof (pm_type _ _ _ _ _ _ _ F) as T; pose proof (pm_frame _ _ _ _ _ _ _ F) as Fr; cbn [ptr_val] in T; rewrite Pt, Ts in T; rewrite Pf in Fr.
  split; [exact T|split; [exact Fr|]]; intros w ι b z D; pose proof (points_plain w ι _ b z ltac:(rewrite T; reflexivity) D) as Q; unfold points_to in Q; rewrite T in Q.
  unfold func in *; rewrite <- Fr; exact Q.
Qed.

(** A function that reads a slot of its stack it never wrote, through [base]. *)
Definition frame_prog (base : Z) : list bpf_insn :=
  [mk_insn 0x7a 10 0 (-8) 0;
   mk_insn 0x85 0 1 0 1;
   mk_insn 0x95 0 0 0 0;
   mk_insn 0xb7 1 0 0 0;
   mk_insn 0x0f 1 10 0 0;
   mk_insn 0x79 0 base (-8) 0;
   mk_insn 0x95 0 0 0 0].

(** The sample program after a call: r0 is a number of frame 0, r10 points to
    the stack of frame 1. *)
Definition add_fp : bpf_insn := mk_insn 0x0f 0 10 0 0.
Definition fp_env : bpf_verifier_env := put_reg (sample_env [add_fp]) 10 (set_frameno (get_reg (sample_env [add_fp]) 10) 1).

Lemma scalar_plus_frame_pointer_witness : let e' := snd (check_alu_op add_fp fp_env) in
  frameno (get_reg fp_env 10) = 1 /\ type_ (get_reg e' 0) = PTR_TO_STACK /\ frameno (get_reg e' 0) = 0.
Proof.
  intros e'; assert (A : fst (check_alu_op add_fp fp_env) = inr ()) by (vm_compute; reflexivity); split; [vm_compute; reflexivity|].
  destruct (scalar_plus_frame_pointer add_fp fp_env sample_values sample_base () e') as [T|(T & F & _)].
  - closed_range.
  - split; vm_compute; lia.
  - pose proof (sample_sim [add_fp]) as (_ & L & S & _); split; [exact L|]; intros r Hr; destruct (S r Hr) as (x & Hx & D); exists x; split; [exact Hx|].
    revert D; destruct (regno_cases r Hr) as [<-|[<-|[<-|[<-|[<-|[<-|[<-|[<-|[<-|[<-|[<-|[]]]]]]]]]]]]; exact (fun D => D).
  - vm_compute; discriminate.
  - vm_compute; reflexivity.
  - reflexivity.
  - reflexivity.
  - reflexivity.
  - exact (accepted _ _ _ A).
  - vm_compute in T; discriminate T.
  - split; [exact T|exact F].
Defined.

(** In a called function [r1 = 0; r1 += r10] is taken for a pointer into the
    stack of the main function: the read of an uninitialized slot that is refused
    through [r10] is accepted through [r1], because the main function wrote its
    slot there. *)
Example frame_pointer_read :
  fst (bpf_check sample_load_ops (sample_load (frame_prog 10) true)) = inl (- EACCES) /\
  fst (bpf_check sample_load_ops (sample_load (frame_prog 1) true)) = inr true.
Proof. vm_compute; auto. Qed.
