(* ===== verification/PruningSound.v ===== *)
(** Pruning: what an explored state says of its registers and stack slots, of
    their values and of their kinds, holds of every machine state the current one
    describes. *)
From Stdlib Require Import ZArith Lia Bool.
From stdpp Require Import base list gmap.
From S2P Require Import Prelude Bits Tnum Bounds RegState Insn Interp Env AluStep CondJmp CondJmpSound StackSound Pruning.

Local Open Scope Z_scope.
Local Open Scope kint_scope.

(** ** Registers *)

(** The continuation of the explored state looked at the register, and at its
    value when it is a scalar. *)
Definition is_read (r : bpf_reg_state) : Prop := live r .& REG_LIVE_READ <> 0.
Definition needed (ro rc : bpf_reg_state) : Prop :=
  is_read ro /\ (type_ ro = SCALAR_VALUE -> precise ro = true \/ precise rc = true).

(** What the verifier keeps of a register: the views have their C types and
    agree about the sign, and a pointer that may be NULL has no variable
    offset. *)
Definition reg_wf (r : bpf_reg_state) : Prop :=
  type_ r <> NOT_INIT -> reg_ok r /\ reg_sync r /\
  (type_ r = PTR_TO_MAP_VALUE_OR_NULL -> var_off r = tnum_const 0 /\ b64 r = mk_bounds 0 0 0 0 /\ b32 r = mk_bounds 0 0 0 0).

Lemma same_to_id_spec a b : same_to_id a b = true -> type_ a = type_ b /\ raw a = raw b /\ off a = off b.
Proof. unfold same_to_id; rewrite !andb_true_iff, type_eqb_true, !Z.eqb_eq; tauto. Qed.

Lemma tnum_eta a b : value a = value b -> mask a = mask b -> a = b.
Proof. destruct a, b; cbn; congruence. Qed.

Lemma same_to_parent_spec a b : same_to_parent a b = true ->
  type_ a = type_ b /\ off a = off b /\ var_off a = var_off b /\ b64 a = b64 b /\ b32 a = b32 b /\ id a = id b /\ raw a = raw b.
Proof.
  unfold same_to_parent, b64, b32; rewrite !andb_true_iff, !Z.eqb_eq; intros H.
  assert (S : same_to_id a b = true) by tauto; apply same_to_id_spec in S as (T & R & O).
  repeat split; try tauto; [apply tnum_eta; tauto| |]; f_equal; tauto.
Qed.

Lemma within_mem ro rc v : range_within ro rc && tnum_in (var_off ro) (var_off rc) = true -> reg_ok ro -> reg_ok rc -> reg_mem rc v -> reg_mem ro v.
Proof.
  unfold range_within; rewrite !andb_true_iff, !Z.geb_leb, !Z.leb_le; intros [W T] (To & _) (Tc & _) (M & B & B').
  unfold reg_mem, bnd_in, b64, b32 in *; cbn in *; split; [|lia].
  revert M; apply tnum_in_spec; assumption.
Qed.

Lemma within_inv ro rc v : range_within ro rc && tnum_in (var_off ro) (var_off rc) = true -> reg_wf ro -> type_ ro <> NOT_INIT -> reg_inv rc v -> reg_inv ro v.
Proof.
  intros H W N (O & M & _); destruct (W N) as (Oo & So & _); split; [exact Oo|split; [|exact So]].
  eapply within_mem; eassumption.
Qed.

(** The same kind of register with wider bounds. *)
Lemma within_sim ro rc b x : range_within ro rc && tnum_in (var_off ro) (var_off rc) = true -> reg_wf ro -> type_ ro <> NOT_INIT ->
  type_ rc = type_ ro -> (type_ ro <> SCALAR_VALUE -> off rc = off ro) -> reg_sim rc b x -> reg_sim ro b x.
Proof.
  intros H W N T O [U S]; split; [exact U|]; rewrite T in S.
  pose proof (fun v => within_inv ro rc v H W N) as I.
  destruct (type_ ro); trivial; try (apply I; exact S);
    (rewrite <- O by discriminate; destruct S as (Ho & v & Hv & E); split; [exact Ho|exists v; split; [apply I; exact Hv|exact E]]).
Qed.

(** The case of packet pointers. *)
Definition regsafe_pkt (ro rc : bpf_reg_state) (m : idmap) : bool * idmap :=
  if negb (type_eqb (type_ rc) (type_ ro)) then (false, m)
  else if u16 (raw ro) >? u16 (raw rc) then (false, m)
  else if negb (off ro =? off rc) then (false, m)
  else
    let '(b, m) := if negb (id ro =? 0) then check_ids (id ro) (id rc) m else (true, m) in
    if negb b then (false, m) else (range_within ro rc && tnum_in (var_off ro) (var_off rc), m).

Lemma regsafe_pkt_spec ro rc m m' : regsafe_pkt ro rc m = (true, m') ->
  type_ rc = type_ ro /\ u16 (raw ro) <= u16 (raw rc) /\ off ro = off rc /\ range_within ro rc && tnum_in (var_off ro) (var_off rc) = true /\
  (if negb (id ro =? 0) then check_ids (id ro) (id rc) m else (true, m)) = (true, m').
Proof.
  unfold regsafe_pkt; intros R; destruct (type_eqb (type_ rc) (type_ ro)) eqn:T; [|discriminate]; apply type_eqb_true in T; cbn [negb] in R.
  destruct (Z.gtb_spec (u16 (raw ro)) (u16 (raw rc))) as [|Q]; [discriminate|]; destruct (Z.eqb_spec (off ro) (off rc)) as [O|]; [|discriminate]; cbn [negb] in R.
  destruct (if negb (id ro =? 0) then _ else _) as [[|] m1]; cbn [negb] in R; [|discriminate].
  injection R as -> ->; auto.
Qed.

Lemma pkt_safe ro rc (m m' : idmap) b x : regsafe_pkt ro rc m = (true, m') -> reg_wf ro -> type_ ro <> NOT_INIT -> reg_sim rc b x -> reg_sim ro b x.
Proof. intros R W N S; apply regsafe_pkt_spec in R as (T & _ & O & R & _); apply (within_sim ro rc); trivial; congruence. Qed.

(** [regsafe] accepts only registers that are described by the explored one. *)
Lemma regsafe_sound env ro rc m m' b x : regsafe env ro rc m = (true, m') -> needed ro rc -> reg_wf ro -> reg_wf rc ->
  reg_sim rc b x -> reg_sim ro b x.
Proof.
  intros R [L P] Wo Wc S; unfold regsafe in R; rewrite (proj2 (Z.eqb_neq _ _) L) in R.
  assert (EQ : same_to_parent ro rc = true -> reg_sim ro b x).
  { intros E; apply same_to_parent_spec in E as (T & O & V & B & B' & _ & _); eapply reg_sim_ext; [..|exact S]; assumption. }
  destruct (type_eqb (type_ ro) PTR_TO_STACK) eqn:TS.
  { apply (f_equal fst) in R; cbn [fst] in R; apply andb_prop in R; exact (EQ (proj1 R)). }
  destruct (same_to_parent ro rc); [exact (EQ eq_refl)|].
  destruct (type_eqb (type_ ro) NOT_INIT) eqn:TN.
  { apply type_eqb_true in TN; split; [apply S|rewrite TN; trivial]. }
  destruct (type_eqb (type_ rc) NOT_INIT) eqn:TC; [discriminate|].
  assert (No : type_ ro <> NOT_INIT) by (intros E; rewrite E in TN; discriminate).
  assert (Nc : type_ rc <> NOT_INIT) by (intros E; rewrite E in TC; discriminate).
  destruct (type_ ro) eqn:To; try discriminate.
  - destruct (explore_alu_limits env); [discriminate|]; destruct (type_eqb (type_ rc) SCALAR_VALUE) eqn:Tc; [|discriminate].
    apply type_eqb_true in Tc; destruct (negb (precise ro) && negb (precise rc)) eqn:Q.
    { destruct (P eq_refl) as [E|E]; rewrite E in Q; [|rewrite andb_false_r in Q]; discriminate. }
    injection R as R _; apply (within_sim ro rc); trivial; congruence.
  - injection R as R _; apply andb_true_iff in R as [E R]; apply same_to_id_spec in E as (T & _ & O).
    apply (within_sim ro rc); trivial; congruence.
  - destruct (type_eqb (type_ rc) PTR_TO_MAP_VALUE_OR_NULL) eqn:Tc; [|discriminate]; apply type_eqb_true in Tc.
    destruct (same_to_id ro rc) eqn:E; [|discriminate]; apply same_to_id_spec in E as (T & _ & O).
    destruct (Wo ltac:(congruence)) as (_ & _ & Zo); destruct (Wc Nc) as (_ & _ & Zc).
    destruct (Zo To) as (V1 & B1 & C1); destruct (Zc Tc) as (V2 & B2 & C2).
    eapply reg_sim_ext; [..|exact S]; congruence.
  - rewrite <- To in R; eapply pkt_safe; [exact R|trivial; congruence..].
  - rewrite <- To in R; eapply pkt_safe; [exact R|trivial; congruence..].
Qed.

(** ** Kinds *)

(** What a pointer refers to besides its address: the frame of a stack pointer,
    and otherwise the field behind the type (the map, the size of the memory,
    the BTF id).  For packet pointers that field is the range. *)
Definition object (r : bpf_reg_state) : Z :=
  match type_ r with
  | PTR_TO_STACK => frameno r
  | SCALAR_VALUE | PTR_TO_PACKET | PTR_TO_PACKET_META => 0
  | _ => raw r
  end.

Definition is_pkt (t : bpf_reg_type) : bool := type_eqb t PTR_TO_PACKET || type_eqb t PTR_TO_PACKET_META.

(** The kind of a register under any reading of the types: [obj t k b] says that
    at [b] there is an object of type [t] and identity [k] ([obj SCALAR_VALUE]
    says that the register is a number), [room t] is how many bytes a pointer
    of type [t] may reach from its base. *)
Record reg_kind (obj : bpf_reg_type -> Z -> Z -> Prop) (room : bpf_reg_type -> Z) (r : bpf_reg_state) (b x : Z) : Prop := mk_kind {
  rk_object : type_ r <> NOT_INIT -> obj (type_ r) (object r) b;
  rk_range : is_pkt (type_ r) = true -> 0 < u16 (raw r) -> u64 (x - b - off r) + u16 (raw r) <= room (type_ r)
}.

Lemma kind_same obj room ro rc b x : type_ rc = type_ ro -> object rc = object ro -> (is_pkt (type_ ro) = true -> off rc = off ro /\ u16 (raw ro) <= u16 (raw rc)) ->
  reg_kind obj room rc b x -> reg_kind obj room ro b x.
Proof.
  intros T O P [K R]; rewrite T in *; split; [rewrite <- O; exact K|].
  intros Q L; destruct (P Q) as [Eo Lr]; specialize (R Q ltac:(lia)); rewrite Eo in R; lia.
Qed.

Lemma pkt_kind obj room ro rc m m' b x : regsafe_pkt ro rc m = (true, m') -> is_pkt (type_ ro) = true -> reg_kind obj room rc b x -> reg_kind obj room ro b x.
Proof.
  intros R P; apply regsafe_pkt_spec in R as (T & Q & O & _); apply kind_same; trivial; [|auto].
  unfold object; rewrite T; destruct (type_ ro); try discriminate; reflexivity.
Qed.

(** [regsafe] accepts only registers of the same kind, whether or not their
    values matter. *)
Lemma regsafe_kind env ro rc m m' obj room b x : regsafe env ro rc m = (true, m') -> is_read ro -> reg_kind obj room rc b x -> reg_kind obj room ro b x.
Proof.
  intros R L K; unfold regsafe in R; rewrite (proj2 (Z.eqb_neq _ _) L) in R.
  destruct (type_eqb (type_ ro) PTR_TO_STACK) eqn:TS.
  { apply type_eqb_true in TS; apply (f_equal fst) in R; cbn [fst] in R; apply andb_prop in R as [E F]; apply Z.eqb_eq in F.
    apply same_to_parent_spec in E as (T & _); apply (kind_same obj room ro rc); [congruence|unfold object; rewrite <- T, TS; congruence|rewrite TS; discriminate|exact K]. }
  destruct (same_to_parent ro rc) eqn:E.
  { apply same_to_parent_spec in E as (T & O & _ & _ & _ & _ & E); apply (kind_same obj room ro rc); [congruence| |intros _; split; [congruence|rewrite E; lia]|exact K].
    unfold object; rewrite <- T, E; destruct (type_ ro); try reflexivity; discriminate. }
  destruct (type_eqb (type_ ro) NOT_INIT) eqn:TN; [apply type_eqb_true in TN; split; rewrite TN; [contradiction|discriminate]|].
  destruct (type_eqb (type_ rc) NOT_INIT); [discriminate|].
  destruct (type_ ro) eqn:To; try discriminate.
  - destruct (explore_alu_limits env); [discriminate|]; destruct (type_eqb (type_ rc) SCALAR_VALUE) eqn:Tc; [|discriminate].
    apply type_eqb_true in Tc; apply (kind_same obj room ro rc); [congruence|unfold object; rewrite To, Tc; reflexivity|rewrite To; discriminate|exact K].
  - injection R as R _; apply andb_true_iff in R as [E' R]; apply same_to_id_spec in E' as (T & Q & O).
    apply (kind_same obj room ro rc); [congruence|unfold object; rewrite <- T, To; congruence|rewrite To; discriminate|exact K].
  - destruct (type_eqb (type_ rc) _); [|discriminate]; destruct (same_to_id ro rc) eqn:E'; [|discriminate]; apply same_to_id_spec in E' as (T & Q & O).
    apply (kind_same obj room ro rc); [congruence|unfold object; rewrite <- T, To; congruence|rewrite To; discriminate|exact K].
  - rewrite <- To in R; apply (pkt_kind obj room ro rc m m' b x R); [rewrite To; reflexivity|exact K].
  - rewrite <- To in R; apply (pkt_kind obj room ro rc m m' b x R); [rewrite To; reflexivity|exact K].
Qed.

(** ** Ids *)

(** The entry of the scratch map for an id. *)
Fixpoint paired (l : list bpf_id_pair) (o : Z) : option Z :=
  match l with
  | [] => None
  | p :: l => if id_old p =? 0 then None else if id_old p =? o then Some (id_cur p) else paired l o
  end.

Definition grows (m m' : idmap) : Prop := forall o c, paired (slots m) o = Some c -> paired (slots m') o = Some c.

#[global] Instance grows_preorder : PreOrder grows.
Proof. split; [intros m o c H; exact H|intros m1 m2 m3 A B o c H; exact (B o c (A o c H))]. Qed.

Lemma loop_paired o c : forall l l', check_ids_loop o c l = (Some true, l') ->
  (o <> 0 -> paired l' o = Some c) /\ forall o' c', paired l o' = Some c' -> paired l' o' = Some c'.
Proof.
  induction l as [|p l IH]; intros l' R; cbn [check_ids_loop] in R; [discriminate|]; destruct (id_old p =? 0) eqn:Ep.
  - injection R as <-; split; [intros N; cbn; rewrite (proj2 (Z.eqb_neq o 0) N), Z.eqb_refl; reflexivity|].
    intros o' c' H; cbn in H; rewrite Ep in H; discriminate.
  - destruct (id_old p =? o) eqn:Eo.
    + injection R as Ec <-; split; [intros _; cbn; rewrite Ep, Eo; f_equal; apply Z.eqb_eq, Ec|trivial].
    + destruct (check_ids_loop o c l) as [r l1] eqn:E; injection R as -> <-; destruct (IH l1 eq_refl) as [A B]; split.
      * intros N; cbn; rewrite Ep, Eo; exact (A N).
      * intros o' c'; cbn; rewrite Ep; destruct (_ =? o'); [trivial|apply B].
Qed.

Lemma check_ids_paired o c m m' : check_ids o c m = (true, m') -> (o <> 0 -> paired (slots m') o = Some c) /\ grows m m'.
Proof.
  unfold check_ids; destruct (check_ids_loop o c (slots m)) as [[r|] l] eqn:E; [|discriminate]; intros R; injection R as -> <-.
  exact (loop_paired o c _ _ E).
Qed.

(** The registers whose ids [regsafe] compares. *)
Definition tied (ro rc : bpf_reg_state) : Prop :=
  id ro <> 0 /\ (type_ ro = PTR_TO_MAP_VALUE_OR_NULL \/ is_pkt (type_ ro) = true) /\ same_to_parent ro rc = false.

Lemma pkt_paired ro rc (m m' : idmap) : regsafe_pkt ro rc m = (true, m') -> (id ro <> 0 -> paired (slots m') (id ro) = Some (id rc)) /\ grows m m'.
Proof.
  intros R; apply regsafe_pkt_spec in R as (_ & _ & _ & _ & R); destruct (Z.eqb_spec (id ro) 0) as [E|N]; cbn [negb] in R; [|exact (check_ids_paired _ _ _ _ R)].
  injection R as <-; split; [contradiction|reflexivity].
Qed.

Lemma regsafe_paired env ro rc m m' : regsafe env ro rc m = (true, m') -> grows m m' /\ (is_read ro -> tied ro rc -> paired (slots m') (id ro) = Some (id rc)).
Proof.
  unfold regsafe; destruct (Z.eqb_spec (live ro .& REG_LIVE_READ) 0) as [L|L].
  { intros R; injection R as <-; split; [reflexivity|intros N; contradiction]. }
  assert (No : (m = m' /\ (type_ ro <> PTR_TO_MAP_VALUE_OR_NULL /\ is_pkt (type_ ro) = false \/ same_to_parent ro rc = true)) ->
    grows m m' /\ (is_read ro -> tied ro rc -> paired (slots m') (id ro) = Some (id rc))).
  { intros [<- H]; split; [reflexivity|]; intros _ (_ & T & E); destruct H as [[H1 H2]|H]; [destruct T; [contradiction|congruence]|congruence]. }
  destruct (type_eqb (type_ ro) PTR_TO_STACK) eqn:TS.
  { apply type_eqb_true in TS; intros R; apply (f_equal snd) in R; apply No; split; [exact R|left; rewrite TS; split; [discriminate|reflexivity]]. }
  destruct (same_to_parent ro rc) eqn:E; [intros R; injection R as <-; apply No; auto|].
  destruct (type_eqb (type_ ro) NOT_INIT) eqn:TN.
  { apply type_eqb_true in TN; intros R; injection R as <-; apply No; split; [reflexivity|left; rewrite TN; split; [discriminate|reflexivity]]. }
  destruct (type_eqb (type_ rc) NOT_INIT); [discriminate|]; destruct (type_ ro) eqn:To; try discriminate; intros R.
  - apply No; split; [|left; split; [discriminate|reflexivity]].
    repeat match type of R with (if ?c then _ else _) = _ => destruct c; try discriminate end; apply (f_equal snd) in R; exact R.
  - apply No; split; [apply (f_equal snd) in R; exact R|left; split; [discriminate|reflexivity]].
  - destruct (negb _); [discriminate|]; destruct (negb _); [discriminate|]; apply check_ids_paired in R as [A B].
    split; [exact B|]; intros _ (N & _); exact (A N).
  - rewrite <- To in R; destruct (pkt_paired ro rc m m' R) as [A B]; split; [exact B|]; intros _ (N & _); exact (A N).
  - rewrite <- To in R; destruct (pkt_paired ro rc m m' R) as [A B]; split; [exact B|]; intros _ (N & _); exact (A N).
Qed.

(** ** Stack *)

(** The bytes of the slot [so] that hold something were compared with [sc]. *)
Record byte_safe (env : bpf_verifier_env) (so : bpf_stack_state) (cur : bpf_func_state) (mf : idmap) (spi j : nat) : Prop := mk_byte_safe {
  by_slot : slot_type so !! j <> Some STACK_INVALID -> slot_type so !! j <> None ->
    exists sc, stack cur !! spi = Some sc /\
      (slot_type sc !! j = slot_type so !! j \/ (slot_type so !! j = Some STACK_MISC /\ slot_type sc !! j = Some STACK_ZERO)) /\
      (j = 0%nat -> slot_type so !! 0%nat = Some STACK_SPILL -> exists m m', regsafe env (spilled_ptr so) (spilled_ptr sc) m = (true, m') /\ grows m' mf)
}.

Definition pos_ok (old : bpf_func_state) (i : nat) : Prop :=
  (i mod 8 = 0)%nat \/ exists so, stack old !! (i / 8)%nat = Some so /\ is_read (spilled_ptr so).

Lemma default_type (l : list bpf_stack_slot_type) j : default STACK_INVALID (l !! j) <> STACK_INVALID -> l !! j = Some (default STACK_INVALID (l !! j)).
Proof. destruct (l !! j); cbn; congruence. Qed.

Lemma pos_next old i so : stack old !! (i / 8)%nat = Some so -> is_read (spilled_ptr so) -> pos_ok old (S i).
Proof.
  intros H R; pose proof (Nat.div_mod_eq i 8); pose proof (Nat.mod_upper_bound i 8); pose proof (Nat.div_mod_eq (S i) 8); pose proof (Nat.mod_upper_bound (S i) 8).
  destruct (decide (S i mod 8 = 0)%nat) as [E|N]; [left; exact E|right; exists so; split; [|exact R]].
  rewrite <- H; f_equal; nia.
Qed.

Lemma stack_grows env old cur : forall fuel i m m', stacksafe_loop fuel env old cur i m = (true, m') -> grows m m'.
Proof.
  induction fuel as [|fuel IH]; intros i m m' R; cbn [stacksafe_loop] in R; [injection R as <-; reflexivity|].
  destruct (_ <? _)%nat; [|injection R as <-; reflexivity].
  set (so := default slot0 _) in R; set (sc := default slot0 _) in R.
  repeat match type of R with
  | (false, _) = _ => discriminate
  | stacksafe_loop _ _ _ _ _ _ = _ => exact (IH _ _ _ R)
  | (if ?c then _ else _) = _ => destruct c
  end.
  destruct (regsafe env (spilled_ptr so) (spilled_ptr sc) m) as [[|] m1] eqn:E; [|discriminate]; apply regsafe_paired in E as [E _].
  etrans; [exact E|exact (IH _ _ _ R)].
Qed.

(** One byte of a slot that was read. *)
Lemma byte_step fuel env old cur i m m' so : stacksafe_loop (S fuel) env old cur i m = (true, m') -> (i < 8 * length (stack old))%nat ->
  stack old !! (i / 8)%nat = Some so -> is_read (spilled_ptr so) ->
  byte_safe env so cur m' (i / 8) (i mod 8) /\ exists m1, stacksafe_loop fuel env old cur (S i) m1 = (true, m').
Proof.
  intros R Hi H Rd; cbn [stacksafe_loop] in R; rewrite (proj2 (Nat.ltb_lt _ _) Hi), H in R; cbn [from_option Datatypes.id] in R.
  rewrite (proj2 (Z.eqb_neq _ _) Rd) in R; set (j := (i mod 8)%nat) in *; set (spi := (i / 8)%nat) in *.
  case_bool_decide as Inv; [split; [split|eauto]; destruct (slot_type so !! j); cbn in *; congruence|].
  apply default_type in Inv as Ej; set (to := default STACK_INVALID (slot_type so !! j)) in *.
  destruct (8 * length (stack cur) <=? i)%nat eqn:Lc; [discriminate|]; apply Nat.leb_gt in Lc.
  destruct (stack cur !! spi) as [sc|] eqn:Ec.
  2: { apply lookup_ge_None in Ec; pose proof (Nat.div_mod_eq i 8); pose proof (Nat.mod_upper_bound i 8); unfold spi in *; lia. }
  cbn [from_option Datatypes.id] in R; destruct (bool_decide (to = STACK_MISC) && _) eqn:MZ.
  { apply andb_true_iff in MZ as [M Zr]; apply bool_decide_eq_true in M, Zr.
    assert (Ez : slot_type sc !! j = Some STACK_ZERO) by (destruct (slot_type sc !! j); cbn in Zr; congruence).
    split; [split; intros _ _; exists sc; split; [exact Ec|split; [right; split; congruence|]]|eauto].
    intros -> E0; congruence. }
  case_bool_decide as T; cbn [negb] in R; [|discriminate].
  assert (Et : slot_type sc !! j = slot_type so !! j) by (rewrite Ej, T; apply default_type; congruence).
  destruct (Nat.eqb_spec j 0) as [J0|J0]; cbn [negb] in R.
  2: { split; [split; intros _ _; exists sc; split; [exact Ec|split; [auto|intros; contradiction]]|eauto]. }
  case_bool_decide as Sp; cbn [negb] in R.
  2: { split; [split; intros _ _; exists sc; split; [exact Ec|split; [auto|]]; intros; contradiction|eauto]. }
  destruct (regsafe env (spilled_ptr so) (spilled_ptr sc) m) as [[|] m1] eqn:RS; [|discriminate]; cbn [negb] in R.
  split; [split; intros _ _; exists sc; split; [exact Ec|split; [auto|]]|eauto].
  intros _ _; exists m, m1; split; [exact RS|exact (stack_grows _ _ _ _ _ _ _ R)].
Qed.

Lemma stack_bytes env old cur : forall fuel i m m', stacksafe_loop fuel env old cur i m = (true, m') ->
  (8 * length (stack old) <= i + fuel)%nat -> pos_ok old i ->
  forall spi j so, (j < 8)%nat -> stack old !! spi = Some so -> is_read (spilled_ptr so) -> (i <= 8 * spi + j)%nat -> byte_safe env so cur m' spi j.
Proof.
  induction fuel as [|fuel IH]; intros i m m' R F P spi j so Hj Hso Rd Hi; pose proof (lookup_lt_Some _ _ _ Hso) as Ls; [lia|].
  pose proof (Nat.div_mod_eq i 8) as D; pose proof (Nat.mod_upper_bound i 8 ltac:(lia)) as U.
  assert (Hl : (i < 8 * length (stack old))%nat) by lia.
  destruct (lookup_lt_is_Some_2 (stack old) (i / 8)%nat ltac:(lia)) as [s0 E0].
  destruct (Z.eq_dec (live (spilled_ptr s0) .& REG_LIVE_READ) 0) as [NR|Rd0].
  - cbn [stacksafe_loop] in R; rewrite (proj2 (Nat.ltb_lt _ _) Hl), E0 in R; cbn [from_option Datatypes.id] in R; rewrite NR in R; cbn [Z.eqb] in R.
    assert (A : (i mod 8 = 0)%nat) by (destruct P as [A|(s & Es & Rs)]; [exact A|]; unfold is_read in Rs; congruence).
    assert (spi <> (i / 8)%nat) by (intros ->; unfold is_read in Rd; congruence).
    apply (IH _ _ _ R); trivial; [lia| |lia].
    left; replace (S (i + 7)) with (i + 1 * 8)%nat by lia; rewrite Nat.Div0.mod_add; exact A.
  - destruct (byte_step _ _ _ _ _ _ _ _ R Hl E0 Rd0) as [B (m1 & R1)].
    destruct (decide (i = 8 * spi + j)%nat) as [E|N].
    + assert (spi = (i / 8)%nat /\ j = (i mod 8)%nat) as [-> ->] by lia; congruence.
    + apply (IH _ _ _ R1); trivial; [lia|eapply pos_next; eassumption|lia].
Qed.

Lemma stacksafe_bytes env old cur m m' spi j so : stacksafe env old cur m = (true, m') -> (j < 8)%nat -> stack old !! spi = Some so ->
  is_read (spilled_ptr so) -> byte_safe env so cur m' spi j.
Proof. intros R Hj Hso Rd; eapply stack_bytes; try eassumption; [|left; reflexivity|]; lia. Qed.

Definition slot_wf (s : bpf_stack_state) : Prop := reg_wf (spilled_ptr s).

(** The part of [stack_sim] the explored state depends on. *)
Definition slot_needed (so : bpf_stack_state) (cur : bpf_func_state) (spi : nat) : Prop :=
  forall sc, stack cur !! spi = Some sc -> needed (spilled_ptr so) (spilled_ptr sc).

Lemma stacksafe_sound env old cur m m' mem fp β : stacksafe env old cur m = (true, m') ->
  Forall slot_wf (stack old) -> Forall slot_wf (stack cur) -> stack_sim reg_sim cur mem fp β ->
  forall spi so, stack old !! spi = Some so -> is_read (spilled_ptr so) ->
  (forall j, (j < 8)%nat -> slot_type so !! j = Some STACK_ZERO -> byte_at mem fp (8 * Z.of_nat spi + Z.of_nat j) = Some 0) /\
  (slot_type so !! 0%nat = Some STACK_SPILL -> slot_needed so cur spi ->
     exists v, load_bytes mem (fp - 8 * Z.of_nat (S spi)) 8 = Some v /\ reg_sim (spilled_ptr so) (β spi) v).
Proof.
  intros R Wo Wc S spi so Hso Rd.
  pose proof (fun j Hj => stacksafe_bytes env old cur m m' spi j so R Hj Hso Rd) as B; split.
  - intros j Hj Z; destruct (B j Hj) as [H]; destruct H as (sc & Ec & [T|[T _]] & _); [congruence..| |congruence].
    apply (S spi sc Ec); congruence.
  - intros Sp Nd; destruct (B 0%nat ltac:(lia)) as [H]; destruct H as (sc & Ec & T & RS); [congruence..|].
    destruct (RS eq_refl Sp) as (m1 & m2 & RS' & _).
    destruct (proj2 (S spi sc Ec)) as (v & L & Sv); [destruct T as [T|[T _]]; congruence|]; exists v; split; [exact L|].
    apply (regsafe_sound env (spilled_ptr so) (spilled_ptr sc) m1 m2); auto.
    + exact (Forall_lookup_1 _ _ _ _ Wo Hso).
    + exact (Forall_lookup_1 _ _ _ _ Wc Ec).
Qed.

(** The kinds of the bytes of a slot and of the register spilled there: [data]
    and [spill] are the bytes that hold data and those of a spilled register. *)
Record slot_kind (obj : bpf_reg_type -> Z -> Z -> Prop) (room : bpf_reg_type -> Z) (data spill : nat -> nat -> Prop) (mem : memory) (fp : Z) (β : nat -> Z)
    (spi : nat) (s : bpf_stack_state) : Prop := mk_slot_kind {
  sk_bytes : forall j t, (j < 8)%nat -> slot_type s !! j = Some t ->
    match t with STACK_INVALID => True | STACK_SPILL => spill spi j | STACK_MISC | STACK_ZERO => data spi j end;
  sk_spill : slot_type s !! 0%nat = Some STACK_SPILL -> exists v, load_bytes mem (fp - 8 * Z.of_nat (S spi)) 8 = Some v /\ reg_kind obj room (spilled_ptr s) (β spi) v
}.

Lemma stacksafe_kind env old cur m m' obj room data spill mem fp β : stacksafe env old cur m = (true, m') ->
  (forall spi sc, stack cur !! spi = Some sc -> slot_kind obj room data spill mem fp β spi sc) ->
  forall spi so, stack old !! spi = Some so -> is_read (spilled_ptr so) -> slot_kind obj room data spill mem fp β spi so.
Proof.
  intros R S spi so Hso Rd; pose proof (fun j Hj => stacksafe_bytes env old cur m m' spi j so R Hj Hso Rd) as B; split.
  - intros j t Hj T; destruct (decide (t = STACK_INVALID)) as [->|N]; [exact I|].
    destruct (B j Hj) as [H]; destruct H as (sc & Ec & [E|[E1 E2]] & _); [congruence..| |].
    + apply (sk_bytes _ _ _ _ _ _ _ _ _ (S spi sc Ec) j t Hj); congruence.
    + pose proof (sk_bytes _ _ _ _ _ _ _ _ _ (S spi sc Ec) j STACK_ZERO Hj E2) as D; rewrite E1 in T; injection T as <-; exact D.
  - intros Sp; destruct (B 0%nat ltac:(lia)) as [H]; destruct H as (sc & Ec & T & RS); [congruence..|].
    destruct (RS eq_refl Sp) as (m1 & m2 & RS' & _).
    destruct (sk_spill _ _ _ _ _ _ _ _ _ (S spi sc Ec)) as (v & L & K); [destruct T as [T|[T _]]; congruence|].
    exists v; split; [exact L|exact (regsafe_kind _ _ _ _ _ _ _ _ _ RS' Rd K)].
Qed.

(** ** States *)

Definition func_wf (f : bpf_func_state) : Prop :=
  length (regs f) = 11%nat /\ Forall reg_wf (regs f) /\ Forall slot_wf (stack f).

(** Whatever the current frame says of registers and stack, the explored one
    says truly of what its continuation needs: the values of registers and
    spilled registers, their kinds, the kinds of the stack bytes and the
    references; and one map takes the ids of the explored registers that were
    compared by id to those of the current ones. *)
Record func_covers (old cur : bpf_func_state) : Prop := mk_covers {
  fc_regs : forall r ro rc b x, regs old !! r = Some ro -> regs cur !! r = Some rc -> needed ro rc -> reg_sim rc b x -> reg_sim ro b x;
  fc_stack : forall mem fp β, stack_sim reg_sim cur mem fp β -> forall spi so, stack old !! spi = Some so -> is_read (spilled_ptr so) ->
    (forall j, (j < 8)%nat -> slot_type so !! j = Some STACK_ZERO -> byte_at mem fp (8 * Z.of_nat spi + Z.of_nat j) = Some 0) /\
    (slot_type so !! 0%nat = Some STACK_SPILL -> slot_needed so cur spi ->
     exists v, load_bytes mem (fp - 8 * Z.of_nat (S spi)) 8 = Some v /\ reg_sim (spilled_ptr so) (β spi) v);
  fc_kinds : forall obj room r ro rc b x, regs old !! r = Some ro -> regs cur !! r = Some rc -> is_read ro -> reg_kind obj room rc b x -> reg_kind obj room ro b x;
  fc_bytes : forall obj room data spill mem fp β,
    (forall spi sc, stack cur !! spi = Some sc -> slot_kind obj room data spill mem fp β spi sc) ->
    forall spi so, stack old !! spi = Some so -> is_read (spilled_ptr so) -> slot_kind obj room data spill mem fp β spi so;
  fc_ids : exists tie : Z -> Z,
    (forall r ro rc, regs old !! r = Some ro -> regs cur !! r = Some rc -> is_read ro -> tied ro rc -> tie (id ro) = id rc) /\
    (forall spi so sc, stack old !! spi = Some so -> stack cur !! spi = Some sc -> slot_type so !! 0%nat = Some STACK_SPILL ->
       is_read (spilled_ptr so) -> tied (spilled_ptr so) (spilled_ptr sc) -> tie (id (spilled_ptr so)) = id (spilled_ptr sc));
  fc_refs : refs old = refs cur
}.

Lemma regs_safe_grows env : forall lo lc m m', regs_safe env lo lc m = (true, m') -> grows m m'.
Proof.
  induction lo as [|o lo IH]; intros [|c lc] m m' R; try (injection R as <-; reflexivity); cbn [regs_safe] in R.
  destruct (regsafe env o c m) as [[|] m1] eqn:E; [|discriminate]; apply regsafe_paired in E as [E _]; etrans; [exact E|exact (IH _ _ _ R)].
Qed.

Lemma regs_safe_each env : forall lo lc m m', regs_safe env lo lc m = (true, m') ->
  forall r ro rc, lo !! r = Some ro -> lc !! r = Some rc -> exists m1 m2, regsafe env ro rc m1 = (true, m2) /\ grows m2 m'.
Proof.
  induction lo as [|o lo IH]; intros [|c lc] m m' R r ro rc Ho Hc; try discriminate.
  cbn [regs_safe] in R; destruct (regsafe env o c m) as [[|] m1] eqn:E; [|discriminate]; cbn [negb] in R.
  destruct r as [|r]; cbn in Ho, Hc; [|eapply IH; eassumption].
  injection Ho as <-; injection Hc as <-; exists m, m1; split; [exact E|exact (regs_safe_grows _ _ _ _ _ R)].
Qed.

Lemma refsafe_eq old cur : refsafe old cur = true -> refs old = refs cur.
Proof.
  unfold refsafe; rewrite andb_true_iff, Nat.eqb_eq; intros [L F]; revert L F.
  generalize (refs old) (refs cur); induction l as [|[a1 a2] l IH]; intros [|[b1 b2] l'] L F; try discriminate; [reflexivity|].
  cbn in F; rewrite !andb_true_iff, !Z.eqb_eq in F; destruct F as [[-> ->] F]; f_equal; apply IH; [cbn in L; lia|exact F].
Qed.

(** The scratch map at the end takes the ids of the explored registers to those
    of the current ones. *)
Lemma ids_tied env old cur m m' : regs_safe env (regs old) (regs cur) idmap_clear = (true, m) -> stacksafe env old cur m = (true, m') ->
  exists tie : Z -> Z,
    (forall r ro rc, regs old !! r = Some ro -> regs cur !! r = Some rc -> is_read ro -> tied ro rc -> tie (id ro) = id rc) /\
    (forall spi so sc, stack old !! spi = Some so -> stack cur !! spi = Some sc -> slot_type so !! 0%nat = Some STACK_SPILL ->
       is_read (spilled_ptr so) -> tied (spilled_ptr so) (spilled_ptr sc) -> tie (id (spilled_ptr so)) = id (spilled_ptr sc)).
Proof.
  intros E1 E2; exists (fun o => default 0 (paired (slots m') o)); split.
  - intros r ro rc Ho Hc N T; destruct (regs_safe_each env _ _ _ _ E1 r ro rc Ho Hc) as (m1 & m2 & RS & G); apply regsafe_paired in RS as [_ RS].
    rewrite (stack_grows _ _ _ _ _ _ _ E2 _ _ (G _ _ (RS N T))); reflexivity.
  - intros spi so sc Ho Hc Sp N T; destruct (stacksafe_bytes env old cur m m' spi 0 so E2 ltac:(lia) Ho N) as [H].
    destruct H as (sc' & Ec & _ & RS); [congruence..|]; rewrite Hc in Ec; injection Ec as <-; destruct (RS eq_refl Sp) as (m1 & m2 & RS' & G).
    apply regsafe_paired in RS' as [_ RS']; rewrite (G _ _ (RS' N T)); reflexivity.
Qed.

Lemma func_equal_covers env old cur : (func_states_equal env old cur).1 = true -> func_wf old -> func_wf cur -> func_covers old cur.
Proof.
  unfold func_states_equal; intros R (Lo & Ro & So) (Lc & Rc & Sc).
  destruct (regs_safe env (regs old) (regs cur) idmap_clear) as [[|] m] eqn:E1; [|discriminate]; cbn [negb] in R.
  destruct (stacksafe env old cur m) as [[|] m'] eqn:E2; [|discriminate]; cbn [negb] in R.
  destruct (refsafe old cur) eqn:E3; [|discriminate]; split.
  - intros r ro rc b x Ho Hc N S; destruct (regs_safe_each env _ _ _ _ E1 r ro rc Ho Hc) as (m1 & m2 & RS & _).
    eapply regsafe_sound; [exact RS|exact N| | |exact S]; [exact (Forall_lookup_1 _ _ _ _ Ro Ho)|exact (Forall_lookup_1 _ _ _ _ Rc Hc)].
  - intros; eapply stacksafe_sound; eassumption.
  - intros obj room r ro rc b x Ho Hc N K; destruct (regs_safe_each env _ _ _ _ E1 r ro rc Ho Hc) as (m1 & m2 & RS & _).
    exact (regsafe_kind _ _ _ _ _ _ _ _ _ RS N K).
  - intros obj room data spill mem fp β; exact (stacksafe_kind _ _ _ _ _ _ _ _ _ _ _ _ E2).
  - exact (ids_tied env old cur m m' E1 E2).
  - apply refsafe_eq, E3.
Qed.

Lemma frames_equal_each env : forall lo lc, frames_equal env lo lc = true ->
  forall k fo fc, lo !! k = Some fo -> lc !! k = Some fc -> callsite fo = callsite fc /\ (func_states_equal env fo fc).1 = true.
Proof.
  induction lo as [|o lo IH]; intros [|c lc] R k fo fc Ho Hc; try discriminate; cbn [frames_equal] in R.
  destruct (Z.eqb_spec (callsite o) (callsite c)) as [E|]; [|discriminate]; cbn [negb] in R.
  destruct (func_states_equal env o c).1 eqn:F; [|discriminate]; cbn [negb] in R.
  destruct k as [|k]; cbn in Ho, Hc; [injection Ho as <-; injection Hc as <-; auto|eapply IH; eassumption].
Qed.

Lemma states_equal_spec env old cur : states_equal env old cur = true ->
  curframe old = curframe cur /\ (speculative old = true -> speculative cur = true) /\ active_spin_lock old = active_spin_lock cur /\
  forall k fo fc, (k <= curframe old)%nat -> frame old !! k = Some fo -> frame cur !! k = Some fc ->
  callsite fo = callsite fc /\ (func_states_equal env fo fc).1 = true.
Proof.
  unfold states_equal; destruct (Nat.eqb_spec (curframe old) (curframe cur)) as [C|]; [|discriminate]; cbn [negb].
  destruct (speculative old && negb (speculative cur)) eqn:SP; [discriminate|].
  destruct (Z.eqb_spec (active_spin_lock old) (active_spin_lock cur)) as [A|]; [|discriminate]; cbn [negb]; intros F.
  split; [exact C|split; [|split; [exact A|]]].
  - intros E; rewrite E in SP; destruct (speculative cur); [reflexivity|discriminate].
  - intros k fo fc Hk Ho Hc; apply (frames_equal_each env _ _ F k); rewrite lookup_take_lt by lia; assumption.
Qed.

(** ** The scratch map *)

Definition unused (m : idmap) : nat := length (filter (fun p => id_old p = 0) (slots m)).

(** At most [n] slots of [m] were taken in [m'], and no warning was given when
    there were as many. *)
Definition takes (n : nat) (m m' : idmap) : Prop := (unused m <= n + unused m')%nat /\ ((n <= unused m)%nat -> warned m' = warned m).

Lemma takes_trans n1 n2 m1 m2 m3 : takes n1 m1 m2 -> takes n2 m2 m3 -> takes (n1 + n2) m1 m3.
Proof. intros [A B] [C D]; split; [lia|]; intros H; rewrite D, B by lia; reflexivity. Qed.

Lemma takes_more n n' m m' : (n <= n')%nat -> takes n m m' -> takes n' m m'.
Proof. intros L [A B]; split; [lia|]; intros H; apply B; lia. Qed.

Lemma takes_none n m : takes n m m.
Proof. split; [lia|reflexivity]. Qed.

Lemma check_loop_takes o c : forall l r l', check_ids_loop o c l = (r, l') ->
  (length (filter (fun p => id_old p = 0%Z) l) <= 1 + length (filter (fun p => id_old p = 0%Z) l'))%nat /\
  (r = None -> filter (fun p => id_old p = 0%Z) l = []).
Proof.
  induction l as [|p l IH]; intros r l' R; cbn [check_ids_loop] in R; [injection R as <- <-; cbn; split; [lia|reflexivity]|].
  destruct (Z.eqb_spec (id_old p) 0) as [E|N].
  - injection R as <- <-; rewrite filter_cons_True by exact E; rewrite filter_cons; split; [case_decide; cbn; lia|discriminate].
  - destruct (Z.eqb_spec (id_old p) o) as [_|_]; [injection R as <- <-; split; [lia|discriminate]|].
    destruct (check_ids_loop o c l) as [r1 l1] eqn:E; injection R as <- <-; rewrite !filter_cons_False by exact N; apply (IH _ _ eq_refl).
Qed.

Lemma check_ids_takes o c m b m' : check_ids o c m = (b, m') -> takes 1 m m'.
Proof.
  unfold check_ids, takes, unused; destruct (check_ids_loop o c (slots m)) as [r l] eqn:E; pose proof (check_loop_takes o c _ _ _ E) as [L F].
  destruct r as [b'|]; intros R; injection R as <- <-; cbn [slots warned]; split; trivial; rewrite (F eq_refl); cbn; lia.
Qed.

Lemma maybe_ids_takes (c : bool) o c' m b m' : (if c then check_ids o c' m else (true, m)) = (b, m') -> takes 1 m m'.
Proof. destruct c; [apply check_ids_takes|]; intros R; injection R as _ <-; apply takes_none. Qed.

Lemma regsafe_takes env ro rc m b m' : regsafe env ro rc m = (b, m') -> takes 1 m m'.
Proof.
  unfold regsafe; destruct (_ =? 0); [intros R; apply (f_equal snd) in R; cbn [snd] in R; subst; apply takes_none|].
  repeat match goal with
  | |- (?x, _) = (_, _) -> _ => let R := fresh in intros R; apply (f_equal snd) in R; cbn [snd] in R; subst; first [apply takes_none|assumption]
  | |- check_ids _ _ _ = _ -> _ => apply check_ids_takes
  | |- context [if ?c then check_ids ?a ?b' ?m else (true, ?m)] =>
    let E := fresh in destruct (if c then check_ids a b' m else (true, m)) eqn:E; apply maybe_ids_takes in E
  | |- (if ?c then _ else _) = _ -> _ => destruct c
  | |- (match ?t with _ => _ end) = _ -> _ => destruct t
  end.
Qed.

Lemma regs_safe_takes env : forall lo lc m b m', regs_safe env lo lc m = (b, m') -> takes (length lo) m m'.
Proof.
  induction lo as [|o lo IH]; intros [|c lc] m b m' R; cbn [regs_safe] in R; try (injection R as _ <-; apply takes_none).
  destruct (regsafe env o c m) as [b1 m1] eqn:E; apply regsafe_takes in E; cbn [length]; apply (takes_trans 1 (length lo) m m1).
  - exact E.
  - destruct b1; cbn [negb] in R; [eapply IH; exact R|injection R as _ <-; apply takes_none].
Qed.

(** One slot is taken per eight bytes at most. *)
Lemma stack_takes env old cur : forall fuel i m b m', stacksafe_loop fuel env old cur i m = (b, m') ->
  takes ((8 * length (stack old) - i) / 8) m m'.
Proof.
  induction fuel as [|fuel IH]; intros i m b m' R; cbn [stacksafe_loop] in R; [apply (f_equal snd) in R; cbn in R; subst; apply takes_none|].
  destruct (Nat.ltb_spec i (8 * length (stack old))) as [Hi|_]; [|apply (f_equal snd) in R; cbn in R; subst; apply takes_none].
  set (so := default slot0 _) in R; set (sc := default slot0 _) in R.
  assert (Mono : forall k m1 b1, (i <= k)%nat -> stacksafe_loop fuel env old cur k m1 = (b1, m') -> takes ((8 * length (stack old) - i) / 8) m1 m').
  { intros k m1 b1 Hk R1; apply IH in R1; eapply takes_more; [|exact R1]; apply Nat.Div0.div_le_mono; lia. }
  repeat match type of R with
  | (false, _) = _ => apply (f_equal snd) in R; cbn in R; subst; apply takes_none
  | stacksafe_loop _ _ _ _ _ _ = _ => eapply Mono; [|exact R]; lia
  | (if (negb (i mod 8 =? 0)%nat) then _ else _) = _ => destruct (Nat.eqb_spec (i mod 8) 0) as [A|A]; cbn [negb] in R
  | (if ?c then _ else _) = _ => destruct c
  end.
  destruct (regsafe env (spilled_ptr so) (spilled_ptr sc) m) as [b1 m1] eqn:E; apply regsafe_takes in E.
  assert (C : ((8 * length (stack old) - i) / 8 = 1 + (8 * length (stack old) - S i) / 8)%nat).
  { pose proof (Nat.div_mod_eq i 8); set (k := (i / 8)%nat) in *; replace (8 * length (stack old) - i)%nat with ((length (stack old) - k) * 8)%nat by lia.
    replace (8 * length (stack old) - S i)%nat with (7 + (length (stack old) - k - 1) * 8)%nat by lia.
    rewrite Nat.div_mul, Nat.div_add by lia; change (7 / 8)%nat with 0%nat; lia. }
  rewrite C; apply (takes_trans 1 _ m m1); [exact E|].
  destruct b1; cbn [negb] in R; [eapply IH; exact R|apply (f_equal snd) in R; cbn in R; subst; apply takes_none].
Qed.

(** There is a slot for every register and every stack slot of a frame. *)
Lemma idmap_suffices env old cur : length (regs old) = 11%nat -> (length (stack old) <= 64)%nat ->
  warned (func_states_equal env old cur).2 = false.
Proof.
  intros L S; unfold func_states_equal.
  assert (U : unused idmap_clear = 75%nat) by reflexivity.
  destruct (regs_safe env (regs old) (regs cur) idmap_clear) as [b1 m1] eqn:E1; apply regs_safe_takes in E1 as [A1 B1].
  rewrite L, U in *; specialize (B1 ltac:(lia)); cbn in B1; destruct b1; cbn [negb]; [|exact B1].
  destruct (stacksafe env old cur m1) as [b2 m2] eqn:E2; apply stack_takes in E2 as [A2 B2].
  rewrite Nat.sub_0_r, Nat.mul_comm, Nat.div_mul in B2 by lia; specialize (B2 ltac:(lia)).
  destruct b2; cbn [negb]; [destruct (refsafe old cur); cbn|cbn]; congruence.
Qed.

(** ** Cleaning *)

Lemma land_done l : (l .| REG_LIVE_DONE) .& REG_LIVE_READ = l .& REG_LIVE_READ.
Proof. rewrite Z.land_lor_distr_l; change (REG_LIVE_DONE .& REG_LIVE_READ) with 0; apply Z.lor_0_r. Qed.

Lemma mark_not_init_live fl r : live (__mark_reg_not_init fl r) = live r.
Proof. reflexivity. Qed.

Lemma regsafe_unread env ro rc m : live ro .& REG_LIVE_READ = 0 -> regsafe env ro rc m = (true, m).
Proof. intros E; unfold regsafe; rewrite E; reflexivity. Qed.

Lemma regsafe_done env ro rc m : regsafe env (set_live ro (live ro .| REG_LIVE_DONE)) rc m = regsafe env ro rc m.
Proof. unfold regsafe; cbn [live set_live]; rewrite land_done; reflexivity. Qed.

Lemma clean_reg_safe env fl ro rc m : regsafe env (clean_reg fl ro) rc m = regsafe env ro rc m.
Proof.
  unfold clean_reg; destruct (Z.eqb_spec (live ro .& REG_LIVE_READ) 0) as [E|N]; [|apply regsafe_done].
  rewrite !regsafe_unread; [reflexivity|exact E|]; rewrite mark_not_init_live; cbn [live set_live]; rewrite land_done; exact E.
Qed.

Lemma clean_regs_safe env (g : nat -> bpf_reg_state -> bpf_reg_state) :
  (forall i ro rc m, regsafe env (g i ro) rc m = regsafe env ro rc m) ->
  forall lo lc m, regs_safe env (imap g lo) lc m = regs_safe env lo lc m.
Proof.
  intros H lo; revert g H; induction lo as [|o lo IH]; intros g H [|c lc] m; try reflexivity.
  cbn [imap regs_safe]; rewrite H; destruct (regsafe env o c m) as [[|] m1]; cbn [negb]; [|reflexivity].
  apply (IH (g ∘ S)); intros i; apply (H (S i)).
Qed.

Lemma clean_slot_live fl s : live (spilled_ptr (clean_slot fl s)) .& REG_LIVE_READ = live (spilled_ptr s) .& REG_LIVE_READ.
Proof.
  unfold clean_slot; destruct (_ =? 0); cbn [spilled_ptr set_spilled_ptr]; rewrite ?mark_not_init_live; cbn [live set_live]; apply land_done.
Qed.

Lemma clean_slot_read fl s : live (spilled_ptr s) .& REG_LIVE_READ <> 0 ->
  clean_slot fl s = set_spilled_ptr s (set_live (spilled_ptr s) (live (spilled_ptr s) .| REG_LIVE_DONE)).
Proof. intros N; unfold clean_slot; rewrite (proj2 (Z.eqb_neq _ _) N); reflexivity. Qed.

Lemma clean_stack_safe env fl old old' cur : stack old' = clean_slot fl <$> stack old ->
  forall fuel i m, stacksafe_loop fuel env old' cur i m = stacksafe_loop fuel env old cur i m.
Proof.
  intros E; induction fuel as [|fuel IH]; intros i m; [reflexivity|]; cbn [stacksafe_loop].
  rewrite E, length_fmap; destruct (Nat.ltb_spec i (8 * length (stack old))) as [Hi|_]; [|reflexivity].
  rewrite list_lookup_fmap; destruct (lookup_lt_is_Some_2 (stack old) (i / 8)%nat) as [so Hs].
  { pose proof (Nat.div_mod_eq i 8); lia. }
  rewrite Hs; cbn [fmap option_fmap option_map from_option Datatypes.id]; rewrite clean_slot_live.
  destruct (Z.eqb_spec (live (spilled_ptr so) .& REG_LIVE_READ) 0) as [_|N]; [apply IH|].
  rewrite clean_slot_read by exact N; cbn [slot_type spilled_ptr set_spilled_ptr]; rewrite regsafe_done.
  repeat (case_match; try reflexivity); apply IH.
Qed.

Lemma clean_func_equal env env' old cur : func_states_equal env (clean_func_state env' old) cur = func_states_equal env old cur.
Proof.
  unfold func_states_equal, clean_func_state; cbn [regs set_stack set_regs stack].
  rewrite clean_regs_safe; [|intros i ro rc m; destruct (i <? 10)%nat; [apply clean_reg_safe|reflexivity]].
  destruct (regs_safe env (regs old) (regs cur) idmap_clear) as [[|] m]; cbn [negb]; [|reflexivity].
  unfold stacksafe; rewrite (clean_stack_safe env (flags env') old) by reflexivity.
  cbn [stack set_stack]; rewrite length_fmap; reflexivity.
Qed.

Lemma clean_frames_equal env (g : nat -> bpf_func_state -> bpf_func_state) :
  (forall i f c, callsite (g i f) = callsite f /\ func_states_equal env (g i f) c = func_states_equal env f c) ->
  forall lo lc, frames_equal env (imap g lo) lc = frames_equal env lo lc.
Proof.
  intros H lo; revert g H; induction lo as [|o lo IH]; intros g H [|c lc]; try reflexivity.
  cbn [imap frames_equal]; destruct (H 0%nat o c) as [-> ->]; case_match; [reflexivity|]; case_match; [reflexivity|].
  apply (IH (g ∘ S)); intros i; apply (H (S i)).
Qed.

Lemma take_imap {A B} (l : list A) : forall (f : nat -> A -> B) n, take n (imap f l) = imap f (take n l).
Proof. induction l as [|x l IH]; intros f [|n]; cbn; [reflexivity..|]; f_equal; apply IH. Qed.

Lemma clean_states_equal env env' old cur : states_equal env (clean_verifier_state env' old) cur = states_equal env old cur.
Proof.
  unfold clean_verifier_state; destruct (negb _); [reflexivity|].
  unfold states_equal; cbn [curframe speculative active_spin_lock frame set_frame].
  case_match; [reflexivity|]; case_match; [reflexivity|]; case_match; [reflexivity|]; rewrite take_imap.
  apply clean_frames_equal; intros i f c; destruct (i <=? curframe old)%nat; [split; [reflexivity|apply clean_func_equal]|auto].
Qed.
