(* ===== verification/PruningTheorems.v ===== *)
(** The properties of pruning, with witnesses, and two ways in which it loses
    the ties between registers. *)
From Stdlib Require Import ZArith Lia Bool.
From stdpp Require Import base list gmap.
From S2P Require Import Prelude Bits Tnum Bounds RegState Insn Interp Env Alu AluStep CondJmp CondJmpSound Samples Pruning PruningSound.

Local Open Scope Z_scope.
Local Open Scope kint_scope.

(** ** Sample states *)

(** A register that was read, and whose value mattered. *)
Definition seen_reg (r : bpf_reg_state) : bpf_reg_state := set_precise (set_live r REG_LIVE_READ64) true.

(** A frame in which only r6 and r7 were read. *)
Definition pair_regs (r6 r7 : bpf_reg_state) : list bpf_reg_state :=
  replicate 6 (sample_scalar 3 0) ++ [seen_reg r6; seen_reg r7] ++ replicate 2 (sample_scalar 3 0) ++ [sample_ptr PTR_TO_STACK 0 0].
Definition pair_state (r6 r7 : bpf_reg_state) : bpf_verifier_state :=
  mk_state [mk_func (pair_regs r6 r7) 0 0 0 [] []] 0 1 0%nat 0 false 0 0 [].
Definition pair_values (x6 x7 : Z) : list Z := [3; 3; 3; 3; 3; 3; x6; x7; 3; 3; 65536; 0].
Definition pair_base (b6 b7 : Z) (r : Z) : Z := if r =? 6 then b6 else if r =? 7 then b7 else if r =? 10 then 65536 else 0.

Lemma seen_sim r b x : reg_sim r b x -> reg_sim (seen_reg r) b x.
Proof. apply reg_sim_ext; reflexivity. Qed.

Lemma pair_sim r6 r7 b6 b7 x6 x7 : reg_sim r6 b6 x6 -> reg_sim r7 b7 x7 -> (link r6 <> None -> link r6 = link r7 -> x6 = x7) ->
  state_sim (pair_state r6 r7) (pair_values x6 x7) (pair_base b6 b7).
Proof.
  intros S6 S7 Lk; split; [split; cbn; lia|]; split; [reflexivity|]; split.
  - intros r Hr; apply regno_cases in Hr; cbn [In] in Hr.
    destruct Hr as [<-|[<-|[<-|[<-|[<-|[<-|[<-|[<-|[<-|[<-|[<-|[]]]]]]]]]]]]; (eexists; split; [reflexivity|]).
    1-6, 9-10: apply (sample_scalar_sim 3 0); kia.
    1: exact (seen_sim _ _ _ S6).
    1: exact (seen_sim _ _ _ S7).
    apply (sample_ptr_sim PTR_TO_STACK 0 0 65536); [kia|discriminate].
  - intros r1 r2 k H1 H2 L1 L2; apply regno_cases in H1, H2; cbn [In] in H1, H2.
    assert (C : forall r, In r [0; 1; 2; 3; 4; 5; 6; 7; 8; 9; 10] -> link (st_reg (pair_state r6 r7) r) =
      (if r =? 6 then link r6 else if r =? 7 then link r7 else None)).
    { cbn [In]; intros r Hr; destruct Hr as [<-|[<-|[<-|[<-|[<-|[<-|[<-|[<-|[<-|[<-|[<-|[]]]]]]]]]]]]; reflexivity. }
    rewrite C in L1, L2 by assumption; clear C.
    destruct H1 as [<-|[<-|[<-|[<-|[<-|[<-|[<-|[<-|[<-|[<-|[<-|[]]]]]]]]]]]]; cbn in L1; try discriminate L1;
      destruct H2 as [<-|[<-|[<-|[<-|[<-|[<-|[<-|[<-|[<-|[<-|[<-|[]]]]]]]]]]]]; cbn in L2; try discriminate L2; trivial;
      first [change (Some x6 = Some x7)|change (Some x7 = Some x6); symmetry]; f_equal; apply Lk; congruence.
Qed.

Definition map_or_null (i : Z) : bpf_reg_state := sample_ptr PTR_TO_MAP_VALUE_OR_NULL 1 i.

Lemma scalar_wf r : reg_sim r 0 3 -> type_ r = SCALAR_VALUE -> reg_wf r.
Proof. intros S T _; destruct (sim_scalar r 0 3 S T) as (O & _ & Sy); split; [exact O|split; [exact Sy|congruence]]. Qed.

Lemma pair_wf r6 r7 : reg_wf (seen_reg r6) -> reg_wf (seen_reg r7) -> func_wf (mk_func (pair_regs r6 r7) 0 0 0 [] []).
Proof.
  intros W6 W7; split; [reflexivity|split; [|constructor]].
  assert (S : reg_wf (sample_scalar 3 0)) by (apply scalar_wf; [apply sample_scalar_sim; kia|reflexivity]).
  assert (P : reg_wf (sample_ptr PTR_TO_STACK 0 0)).
  { intros _; destruct (sim_ptr _ _ _ (sample_ptr_sim PTR_TO_STACK 0 0 0 ltac:(kia) ltac:(discriminate))) as (_ & v & (O & _ & Sy) & _); [discriminate..|].
    split; [exact O|split; [exact Sy|discriminate]]. }
  repeat (apply Forall_cons; split; [assumption|]); constructor.
Qed.

Lemma known_zero_fields map i : var_off (sample_ptr PTR_TO_MAP_VALUE_OR_NULL map i) = tnum_const 0 /\
  b64 (sample_ptr PTR_TO_MAP_VALUE_OR_NULL map i) = mk_bounds 0 0 0 0 /\ b32 (sample_ptr PTR_TO_MAP_VALUE_OR_NULL map i) = mk_bounds 0 0 0 0.
Proof. repeat split. Qed.

Lemma or_null_wf i : reg_wf (seen_reg (map_or_null i)).
Proof.
  intros _; destruct (sim_ptr _ _ _ (sample_ptr_sim PTR_TO_MAP_VALUE_OR_NULL 1 i 0 ltac:(kia) ltac:(discriminate))) as (_ & v & (O & _ & Sy) & _); [discriminate..|].
  split; [exact O|split; [exact Sy|intros _; apply known_zero_fields]].
Qed.

(** ** Soundness *)

(** C15: when [states_equal] lets a path end because of an explored state, the
    explored state describes what its continuation depends on, in every frame
    and all machine states the current one describes.  The value of each read
    register or spilled register (for a scalar, when one of the two is marked
    precise) is in the explored bounds.  Its kind is the explored one, precise
    or not: initialised, number or pointer type, frame, map, memory size or
    BTF id, and a packet range no longer than the current one.  Every byte of a
    read slot that the explored state takes for data, for zero or for part of a
    spilled register is that.  Held references, call sites and spin lock are
    the same, and a speculative path never ends a real one.  One map takes the
    ids of the explored registers to those of the current ones where
    [check_ids] compares them; registers that are equal to the explored ones
    and scalars are not among these. *)
Theorem states_equal_covers env old cur : states_equal env old cur = true ->
  Forall func_wf (frame old) -> Forall func_wf (frame cur) ->
  curframe old = curframe cur /\ (speculative old = true -> speculative cur = true) /\ active_spin_lock old = active_spin_lock cur /\
  forall k fo fc, (k <= curframe old)%nat -> frame old !! k = Some fo -> frame cur !! k = Some fc ->
  callsite fo = callsite fc /\ func_covers fo fc.
Proof.
  intros E Wo Wc; destruct (states_equal_spec env old cur E) as (C & S & L & F); repeat (split; [assumption|]).
  intros k fo fc Hk Ho Hc; destruct (F k fo fc Hk Ho Hc) as [Cs FE]; split; [exact Cs|].
  eapply func_equal_covers; [exact FE|exact (Forall_lookup_1 _ _ _ _ Wo Ho)|exact (Forall_lookup_1 _ _ _ _ Wc Hc)].
Qed.

Lemma states_equal_covers_witness :
  let old := pair_state (map_or_null 1) (map_or_null 2) in let cur := pair_state (map_or_null 3) (map_or_null 4) in
  states_equal (sample_env []) old cur = true /\
  func_covers (mk_func (pair_regs (map_or_null 1) (map_or_null 2)) 0 0 0 [] []) (mk_func (pair_regs (map_or_null 3) (map_or_null 4)) 0 0 0 [] []).
Proof.
  intros old cur; assert (E : states_equal (sample_env []) old cur = true) by (vm_compute; reflexivity); split; [exact E|].
  apply (states_equal_covers (sample_env []) old cur E) with (k := 0%nat); try reflexivity;
    (apply Forall_cons; split; [apply pair_wf; apply or_null_wf|constructor]).
Defined.

(** C34: cleaning the states that are explored completely does not change what
    they prune: [states_equal] gives the same answer before and after
    [clean_verifier_state]. *)
Theorem clean_verifier_state_transparent env old cur :
  states_equal env (clean_verifier_state env old) cur = states_equal env old cur.
Proof. apply clean_states_equal. Qed.

(** the scratch map of [check_ids] has room for every register and stack
    slot of a frame: the comparison of two frames never warns that it is
    full. *)
Theorem check_ids_never_full env old cur : length (regs old) = 11%nat -> 8 * Z.of_nat (length (stack old)) <= MAX_BPF_STACK ->
  warned (func_states_equal env old cur).2 = false.
Proof. intros L S; apply idmap_suffices; [exact L|lia]. Qed.

Lemma check_ids_never_full_witness :
  warned (func_states_equal (sample_env []) (mk_func (pair_regs (map_or_null 1) (map_or_null 2)) 0 0 0 [] []) (mk_func (pair_regs (map_or_null 3) (map_or_null 4)) 0 0 0 [] [])).2 = false.
Proof. apply check_ids_never_full; [reflexivity|cbn; lia]. Defined.

(** ** Lost ties *)

(** [if (r6 != 0) goto +3] and [if (r6 == 0) goto +3]. *)
Definition jne_null : bpf_insn := mk_insn (BPF_JMP .| BPF_JNE .| BPF_K) 6 0 3 0.
Definition jeq_null : bpf_insn := mk_insn (BPF_JMP .| BPF_JEQ .| BPF_K) 6 0 3 0.

(** The explored state: r7 is a copy of r6.  The current one: r7 comes from
    another lookup, or is another number. *)
Definition null_old : bpf_verifier_state := pair_state (map_or_null 1) (map_or_null 1).
Definition null_cur : bpf_verifier_state := pair_state (map_or_null 1) (map_or_null 2).
Definition num_old : bpf_verifier_state := pair_state (sample_unknown 1) (sample_unknown 1).
Definition num_cur : bpf_verifier_state := pair_state (sample_unknown 1) (sample_unknown 2).

(** C38: [regsafe] accepts equal registers without recording their ids, so a
    state in which r6 and r7 come from two lookups is pruned by one in which
    r7 is a copy of r6.  In the explored continuation the test of r6 makes r7
    a valid pointer; the machine gets there with r7 NULL. *)
Theorem regsafe_skips_check_ids : states_equal (sample_env [jne_null]) null_old null_cur = true /\
  state_sim null_old (pair_values 4096 4096) (pair_base 4096 4096) /\ state_sim null_cur (pair_values 4096 0) (pair_base 4096 0) /\
  step_jmp 64 JNE K jne_null (pair_values 4096 0) 0 = Some 4 /\
  exists env' e l, check_cond_jmp_op jne_null (set_cur_state (sample_env [jne_null]) null_old) = (inr tt, env') /\
    head env' = e :: l /\ elem_insn_idx e = 4 /\ type_ (st_reg (elem_st e) 7) = PTR_TO_MAP_VALUE.
Proof.
  split; [vm_compute; reflexivity|split; [|split; [|split; [reflexivity|]]]].
  - apply pair_sim; [apply sample_ptr_sim; [kia|discriminate]..|reflexivity].
  - apply pair_sim; [apply sample_ptr_sim; [kia|discriminate]..|intros _ E; vm_compute in E; discriminate].
  - set (r := check_cond_jmp_op jne_null (set_cur_state (sample_env [jne_null]) null_old)).
    exists r.2; eexists _, _; split; [vm_compute; reflexivity|split; [vm_compute; reflexivity|split; vm_compute; reflexivity]].
Qed.

(** C39: [regsafe] does not compare the ids of scalars.  A state in which r6 and
    r7 are unrelated numbers is pruned by one in which they are equal; in the
    explored continuation the test of r6 also fixes r7, and no state of it
    describes the machine. *)
Theorem regsafe_ignores_scalar_ids : states_equal (sample_env [jeq_null]) num_old num_cur = true /\
  state_sim num_old (pair_values 0 0) (pair_base 0 0) /\ state_sim num_cur (pair_values 0 5) (pair_base 0 0) /\
  step_jmp 64 JEQ K jeq_null (pair_values 0 5) 0 = Some 4 /\
  exists env', check_cond_jmp_op jeq_null (set_cur_state (sample_env [jeq_null]) num_old) = (inr tt, env') /\
    forall β, ~ jump_sim env' 4 (pair_values 0 5) β.
Proof.
  split; [vm_compute; reflexivity|split; [|split; [|split; [reflexivity|]]]].
  - apply pair_sim; [apply sample_unknown_sim; kia..|reflexivity].
  - apply pair_sim; [apply sample_unknown_sim; kia..|intros _ E; vm_compute in E; discriminate].
  - set (r := check_cond_jmp_op jeq_null (set_cur_state (sample_env [jeq_null]) num_old)).
    exists r.2; split; [vm_compute; reflexivity|]; intros β [[H _]|(e & l & H & _ & (_ & _ & S & _))]; [vm_compute in H; discriminate|].
    destruct (S 7 ltac:(unfold regno_ok; lia)) as (x & Hx & Sx); injection Hx as <-.
    assert (T : type_ (st_reg (elem_st e) 7) = SCALAR_VALUE /\ umax_value (st_reg (elem_st e) 7) = 0)
      by (vm_compute in H; injection H as <- _; split; vm_compute; reflexivity).
    destruct T as [T U]; apply sim_scalar in Sx as (_ & (_ & [_ B] & _) & _); [|exact T].
    unfold b64 in B; cbn [bumin bumax] in B; rewrite U in B; vm_compute in B; destruct B as [_ B]; apply B; reflexivity.
Qed.
