(* ===== verification/Buddy.v ===== *)
(** The buddy allocator of mm/page_alloc.c, in one zone and under its lock:
    splitting and merging of free blocks, the free lists per order and
    migrate type, guard pages, the fallback between migrate types, and taking
    single pages off the allocator.

    Pages are identified by their frame number.  The memory map is a finite
    map from frame numbers to the fields of struct page the allocator uses; a
    free list is the list of the first frames of its blocks.  CONFIG_CMA,
    CONFIG_MEMORY_ISOLATION and CONFIG_DEBUG_PAGEALLOC are taken as set;
    [config] holds what is fixed after boot. *)
From Stdlib Require Import ZArith Lia Bool.
From stdpp Require Import base list gmap.
From S2P Require Import Prelude.

Local Open Scope Z_scope.

Abbreviation MAX_ORDER := 11%nat.

(** ** Migrate types *)

Abbreviation MIGRATE_UNMOVABLE := 0%nat.
Abbreviation MIGRATE_MOVABLE := 1%nat.
Abbreviation MIGRATE_RECLAIMABLE := 2%nat.
Abbreviation MIGRATE_PCPTYPES := 3%nat.
Abbreviation MIGRATE_HIGHATOMIC := 3%nat.
Abbreviation MIGRATE_CMA := 4%nat.
Abbreviation MIGRATE_ISOLATE := 5%nat.
Abbreviation MIGRATE_TYPES := 6%nat.

Abbreviation ALLOC_CMA := 0x80.
Abbreviation ALLOC_NOFRAGMENT := 0x100.
Abbreviation ALLOC_KSWAPD := 0x800.

Definition is_migrate_cma (mt : nat) : bool := (mt =? MIGRATE_CMA)%nat.
Definition is_migrate_isolate (mt : nat) : bool := (mt =? MIGRATE_ISOLATE)%nat.
Definition is_migrate_highatomic (mt : nat) : bool := (mt =? MIGRATE_HIGHATOMIC)%nat.

(** ** Data *)

(** [buddy_flag] and [guard_flag] are the page types PG_buddy and PG_guard,
    [private] holds the order of a free block, [index] the migrate type an
    allocated page came from, [movable] stands for
    [PageLRU(page) || __PageMovable(page)] and [bad] for a page that is not in
    the state [page_expected_state] asks of a new page. *)
Record page := mk_page {
  buddy_flag : bool;
  guard_flag : bool;
  private : Z;
  zone_id : Z;
  page_count : Z;
  reported : bool;
  movable : bool;
  bad : bool;
  index : nat
}.

#[global] Instance page_inhabited : Inhabited page := populate (mk_page false false 0 (-1) 0 false false false 0).

Record free_area := mk_area {
  free_list : list (list Z);
  nr_free : Z
}.

#[global] Instance area_inhabited : Inhabited free_area := populate (mk_area [] 0).

(** The capture control of the running task: the order it waits for and the
    page it was given. *)
Record capture_control := mk_capc { cc_order : nat; capc_page : option Z }.

(** [pageblock_mt] is the migrate type of a pageblock by its number. *)
Record zone := mk_zone {
  areas : list free_area;
  mem_map : gmap Z page;
  pageblock_mt : gmap Z nat;
  zone_start_pfn : Z;
  spanned_pages : Z;
  managed_pages : Z;
  nr_isolate_pageblock : Z;
  nr_free_pages : Z;
  nr_free_cma_pages : Z;
  watermark_high : Z;
  watermark_boost : Z;
  boosted_watermark : bool;
  capc : option capture_control
}.

Record config := mk_config {
  pageblock_order : nat;
  holes_in_zone : bool;
  guardpage_minorder : nat;
  shuffle : bool;
  page_group_by_mobility_disabled : bool;
  watermark_boost_factor : Z
}.

Definition set_areas (z : zone) (v : list free_area) : zone :=
  mk_zone v (mem_map z) (pageblock_mt z) (zone_start_pfn z) (spanned_pages z) (managed_pages z) (nr_isolate_pageblock z) (nr_free_pages z) (nr_free_cma_pages z) (watermark_high z) (watermark_boost z) (boosted_watermark z) (capc z).
Definition set_mem_map (z : zone) (v : gmap Z page) : zone :=
  mk_zone (areas z) v (pageblock_mt z) (zone_start_pfn z) (spanned_pages z) (managed_pages z) (nr_isolate_pageblock z) (nr_free_pages z) (nr_free_cma_pages z) (watermark_high z) (watermark_boost z) (boosted_watermark z) (capc z).
Definition set_pageblock_mt (z : zone) (v : gmap Z nat) : zone :=
  mk_zone (areas z) (mem_map z) v (zone_start_pfn z) (spanned_pages z) (managed_pages z) (nr_isolate_pageblock z) (nr_free_pages z) (nr_free_cma_pages z) (watermark_high z) (watermark_boost z) (boosted_watermark z) (capc z).
Definition set_nr_free_pages (z : zone) (v : Z) : zone :=
  mk_zone (areas z) (mem_map z) (pageblock_mt z) (zone_start_pfn z) (spanned_pages z) (managed_pages z) (nr_isolate_pageblock z) v (nr_free_cma_pages z) (watermark_high z) (watermark_boost z) (boosted_watermark z) (capc z).
Definition set_nr_free_cma_pages (z : zone) (v : Z) : zone :=
  mk_zone (areas z) (mem_map z) (pageblock_mt z) (zone_start_pfn z) (spanned_pages z) (managed_pages z) (nr_isolate_pageblock z) (nr_free_pages z) v (watermark_high z) (watermark_boost z) (boosted_watermark z) (capc z).
Definition set_watermark_boost (z : zone) (v : Z) : zone :=
  mk_zone (areas z) (mem_map z) (pageblock_mt z) (zone_start_pfn z) (spanned_pages z) (managed_pages z) (nr_isolate_pageblock z) (nr_free_pages z) (nr_free_cma_pages z) (watermark_high z) v (boosted_watermark z) (capc z).
Definition set_boosted_watermark (z : zone) (v : bool) : zone :=
  mk_zone (areas z) (mem_map z) (pageblock_mt z) (zone_start_pfn z) (spanned_pages z) (managed_pages z) (nr_isolate_pageblock z) (nr_free_pages z) (nr_free_cma_pages z) (watermark_high z) (watermark_boost z) v (capc z).
Definition set_capc (z : zone) (v : option capture_control) : zone :=
  mk_zone (areas z) (mem_map z) (pageblock_mt z) (zone_start_pfn z) (spanned_pages z) (managed_pages z) (nr_isolate_pageblock z) (nr_free_pages z) (nr_free_cma_pages z) (watermark_high z) (watermark_boost z) (boosted_watermark z) v.

Definition set_buddy_flag (p : page) (v : bool) : page :=
  mk_page v (guard_flag p) (private p) (zone_id p) (page_count p) (reported p) (movable p) (bad p) (index p).
Definition set_guard_flag (p : page) (v : bool) : page :=
  mk_page (buddy_flag p) v (private p) (zone_id p) (page_count p) (reported p) (movable p) (bad p) (index p).
Definition set_private (p : page) (v : Z) : page :=
  mk_page (buddy_flag p) (guard_flag p) v (zone_id p) (page_count p) (reported p) (movable p) (bad p) (index p).
Definition set_reported (p : page) (v : bool) : page :=
  mk_page (buddy_flag p) (guard_flag p) (private p) (zone_id p) (page_count p) v (movable p) (bad p) (index p).
Definition set_index (p : page) (v : nat) : page :=
  mk_page (buddy_flag p) (guard_flag p) (private p) (zone_id p) (page_count p) (reported p) (movable p) (bad p) v.

(** [1 << order]. *)
Definition bsize (order : nat) : Z := Z.shiftl 1 (Z.of_nat order).

Definition pg (z : zone) (pfn : Z) : page := mem_map z !!! pfn.

Definition upd_page (f : page -> page) (pfn : Z) (z : zone) : zone := set_mem_map z (alter f pfn (mem_map z)).

(** [free_area[order].free_list[migratetype]]. *)
Definition fl (z : zone) (order mt : nat) : list Z := free_list (areas z !!! order) !!! mt.

Definition upd_area (f : free_area -> free_area) (order : nat) (z : zone) : zone := set_areas z (alter f order (areas z)).

Definition __mod_zone_freepage_state (z : zone) (nr_pages : Z) (mt : nat) : zone :=
  let z := set_nr_free_pages z (nr_free_pages z + nr_pages) in
  if is_migrate_cma mt then set_nr_free_cma_pages z (nr_free_cma_pages z + nr_pages) else z.

Section Ops.
Context (cfg : config).

Definition pfn_valid_within (z : zone) (pfn : Z) : bool :=
  if holes_in_zone cfg then bool_decide (is_Some (mem_map z !! pfn)) else true.

Definition debug_guardpage_enabled : bool := (0 <? guardpage_minorder cfg)%nat.

Definition page_is_guard (p : page) : bool := debug_guardpage_enabled && guard_flag p.

Definition pageblock_nr_pages : Z := bsize (pageblock_order cfg).

Definition get_pageblock_migratetype (z : zone) (pfn : Z) : nat :=
  pageblock_mt z !!! Z.shiftr pfn (Z.of_nat (pageblock_order cfg)).

Definition set_pageblock_migratetype (pfn : Z) (mt : nat) (z : zone) : zone :=
  let mt := if page_group_by_mobility_disabled cfg && (mt <? MIGRATE_PCPTYPES)%nat then MIGRATE_UNMOVABLE else mt in
  set_pageblock_mt z (<[Z.shiftr pfn (Z.of_nat (pageblock_order cfg)) := mt]> (pageblock_mt z)).

(** ** Free lists *)

Definition add_to_free_list (pfn : Z) (order mt : nat) (z : zone) : zone :=
  upd_area (fun a => mk_area (alter (fun l => pfn :: l) mt (free_list a)) (nr_free a + 1)) order z.

Definition add_to_free_list_tail (pfn : Z) (order mt : nat) (z : zone) : zone :=
  upd_area (fun a => mk_area (alter (fun l => l ++ [pfn]) mt (free_list a)) (nr_free a + 1)) order z.

(** Unlinks the page from the list it is on. *)
Definition list_del (pfn : Z) (z : zone) : zone :=
  set_areas z ((fun a => mk_area (filter (fun q => q <> pfn) <$> free_list a) (nr_free a)) <$> areas z).

Definition move_to_free_list (pfn : Z) (order mt : nat) (z : zone) : zone :=
  upd_area (fun a => mk_area (alter (fun l => l ++ [pfn]) mt (free_list a)) (nr_free a)) order (list_del pfn z).

Definition del_page_from_free_list (pfn : Z) (order : nat) (z : zone) : zone :=
  let z := if reported (pg z pfn) then upd_page (fun p => set_reported p false) pfn z else z in
  let z := list_del pfn z in
  let z := upd_page (fun p => set_buddy_flag p false) pfn z in
  let z := upd_page (fun p => set_private p 0) pfn z in
  upd_area (fun a => mk_area (free_list a) (nr_free a - 1)) order z.

Definition set_buddy_order (pfn : Z) (order : nat) (z : zone) : zone :=
  let z := upd_page (fun p => set_private p (Z.of_nat order)) pfn z in
  upd_page (fun p => set_buddy_flag p true) pfn z.

(** [None]: the block is not turned into a guard. *)
Definition set_page_guard (pfn : Z) (order mt : nat) (z : zone) : option zone :=
  if negb debug_guardpage_enabled then None
  else if (guardpage_minorder cfg <=? order)%nat then None
  else
    let z := upd_page (fun p => set_guard_flag p true) pfn z in
    let z := upd_page (fun p => set_private p (Z.of_nat order)) pfn z in
    Some (__mod_zone_freepage_state z (- bsize order) mt).

Definition clear_page_guard (pfn : Z) (order mt : nat) (z : zone) : zone :=
  if negb debug_guardpage_enabled then z
  else
    let z := upd_page (fun p => set_guard_flag p false) pfn z in
    let z := upd_page (fun p => set_private p 0) pfn z in
    if negb (is_migrate_isolate mt) then __mod_zone_freepage_state z (bsize order) mt else z.

(** ** Merging *)

Definition __find_buddy_pfn (pfn : Z) (order : nat) : Z := Z.lxor pfn (bsize order).

Definition page_is_buddy (p buddy : page) (order : nat) : bool :=
  if negb (page_is_guard buddy) && negb (buddy_flag buddy) then false
  else if negb (private buddy =? Z.of_nat order) then false
  else if negb (zone_id p =? zone_id buddy) then false
  else true.

(** [Some z]: the page went to the waiting compaction. *)
Definition compaction_capture (pfn : Z) (order mt : nat) (z : zone) : option zone :=
  match capc z with
  | Some (mk_capc o None) =>
    if negb (order =? o)%nat then None
    else if is_migrate_cma mt || is_migrate_isolate mt then None
    else if (order <? pageblock_order cfg)%nat && (mt =? MIGRATE_MOVABLE)%nat then None
    else Some (set_capc z (Some (mk_capc o (Some pfn))))
  | _ => None
  end.

Definition buddy_merge_likely (z : zone) (pfn buddy_pfn : Z) (order : nat) : bool :=
  if (MAX_ORDER - 2 <=? order)%nat then false
  else if negb (pfn_valid_within z buddy_pfn) then false
  else
    let combined_pfn := Z.land buddy_pfn pfn in
    let higher_buddy := __find_buddy_pfn combined_pfn (order + 1) in
    pfn_valid_within z higher_buddy && page_is_buddy (pg z combined_pfn) (pg z higher_buddy) (order + 1).

(** How merging ends: with the page captured, or with the block to be put on
    a free list and the last buddy looked at. *)
Inductive merge_end :=
| Captured (z : zone)
| Merged (z : zone) (pfn : Z) (order : nat) (buddy_pfn : Z).

(** The loop [continue_merging]; [None] when the fuel is used up. *)
Fixpoint merge_loop (fuel : nat) (z : zone) (pfn : Z) (order max_order : nat) (buddy_pfn : Z) (mt : nat) : option merge_end :=
  match fuel with
  | O => None
  | S fuel =>
    if (order <? max_order)%nat then
      match compaction_capture pfn order mt z with
      | Some z => Some (Captured (__mod_zone_freepage_state z (- bsize order) mt))
      | None =>
        let buddy_pfn := __find_buddy_pfn pfn order in
        if negb (pfn_valid_within z buddy_pfn) then Some (Merged z pfn order buddy_pfn)
        else if negb (page_is_buddy (pg z pfn) (pg z buddy_pfn) order) then Some (Merged z pfn order buddy_pfn)
        else
          let z := if page_is_guard (pg z buddy_pfn) then clear_page_guard buddy_pfn order mt z
                   else del_page_from_free_list buddy_pfn order z in
          merge_loop fuel z (Z.land buddy_pfn pfn) (S order) max_order buddy_pfn mt
      end
    else if (order <? MAX_ORDER - 1)%nat then
      let isolated := negb (nr_isolate_pageblock z =? 0) in
      let buddy := __find_buddy_pfn pfn order in
      let buddy_mt := get_pageblock_migratetype z buddy in
      if isolated && negb (mt =? buddy_mt)%nat && (is_migrate_isolate mt || is_migrate_isolate buddy_mt)
      then Some (Merged z pfn order buddy)
      else merge_loop fuel z pfn order (S order) (if isolated then buddy else buddy_pfn) mt
    else Some (Merged z pfn order buddy_pfn)
  end.

(** Every round either raises the order or widens the bound. *)
Definition merge_fuel : nat := 2 * MAX_ORDER + 1.

(** [to_tail] is the flag FPI_TO_TAIL and [pick_tail] the random bit of
    [shuffle_pick_tail].  Page reporting is not part of the model. *)
Definition __free_one_page (pfn : Z) (order mt : nat) (to_tail pick_tail : bool) (z : zone) : option zone :=
  let max_order := Nat.min (MAX_ORDER - 1) (pageblock_order cfg) in
  let z := if negb (is_migrate_isolate mt) then __mod_zone_freepage_state z (bsize order) mt else z in
  match merge_loop merge_fuel z pfn order max_order 0 mt with
  | None => None
  | Some (Captured z) => Some z
  | Some (Merged z pfn order buddy_pfn) =>
    let z := set_buddy_order pfn order z in
    let tail :=
      if to_tail then true
      else if shuffle cfg && (MAX_ORDER - 1 <=? order)%nat then pick_tail
      else buddy_merge_likely z pfn buddy_pfn order in
    Some (if tail then add_to_free_list_tail pfn order mt z else add_to_free_list pfn order mt z)
  end.

(** ** Splitting *)

(** The loop of [expand] from [high] down to [low]. *)
Fixpoint expand_loop (n : nat) (pfn : Z) (high mt : nat) (z : zone) : zone :=
  match n with
  | O => z
  | S n =>
    let high := (high - 1)%nat in
    let size := bsize high in
    match set_page_guard (pfn + size) high mt z with
    | Some z => expand_loop n pfn high mt z
    | None => expand_loop n pfn high mt (set_buddy_order (pfn + size) high (add_to_free_list (pfn + size) high mt z))
    end
  end.

Definition expand (pfn : Z) (low high mt : nat) (z : zone) : zone := expand_loop (high - low) pfn high mt z.

(** The loop over the orders from [order] on; [n] orders are left. *)
Fixpoint rmqueue_orders (n : nat) (order current_order mt : nat) (z : zone) : option (Z * zone) :=
  match n with
  | O => None
  | S n =>
    match fl z current_order mt with
    | [] => rmqueue_orders n order (S current_order) mt z
    | pfn :: _ =>
      let z := del_page_from_free_list pfn current_order z in
      let z := expand pfn order current_order mt z in
      Some (pfn, upd_page (fun p => set_index p mt) pfn z)
    end
  end.

Definition __rmqueue_smallest (order mt : nat) (z : zone) : option (Z * zone) :=
  rmqueue_orders (MAX_ORDER - order) order order mt z.

(** ** Fallback to other migrate types *)


Definition alloc_flag (flags f : Z) : bool := negb (Z.land flags f =? 0).

(** A row ends at MIGRATE_TYPES; the row of MIGRATE_HIGHATOMIC is not given in
    the table and never used. *)
Definition fallbacks (mt : nat) : list nat :=
  match mt with
  | MIGRATE_UNMOVABLE => [MIGRATE_RECLAIMABLE; MIGRATE_MOVABLE]
  | MIGRATE_MOVABLE => [MIGRATE_RECLAIMABLE; MIGRATE_UNMOVABLE]
  | MIGRATE_RECLAIMABLE => [MIGRATE_UNMOVABLE; MIGRATE_MOVABLE]
  | _ => []
  end.

Definition zone_spans_pfn (z : zone) (pfn : Z) : bool :=
  (zone_start_pfn z <=? pfn) && (pfn <? zone_start_pfn z + spanned_pages z).

(** The loop from [pfn] to [end_pfn]: the pages moved, the movable pages seen
    and the zone. *)
Fixpoint move_freepages (fuel : nat) (pfn end_pfn : Z) (mt : nat) (moved num_movable : Z) (z : zone) : Z * Z * zone :=
  match fuel with
  | O => (moved, num_movable, z)
  | S fuel =>
    if negb (pfn <=? end_pfn) then (moved, num_movable, z)
    else if negb (pfn_valid_within z pfn) then move_freepages fuel (pfn + 1) end_pfn mt moved num_movable z
    else if negb (buddy_flag (pg z pfn)) then
      move_freepages fuel (pfn + 1) end_pfn mt moved (if movable (pg z pfn) then num_movable + 1 else num_movable) z
    else
      let order := Z.to_nat (private (pg z pfn)) in
      move_freepages fuel (pfn + bsize order) end_pfn mt (moved + bsize order) num_movable (move_to_free_list pfn order mt z)
  end.

Definition move_freepages_block (pfn : Z) (mt : nat) (z : zone) : Z * Z * zone :=
  let start_pfn := Z.ldiff pfn (pageblock_nr_pages - 1) in
  let end_pfn := start_pfn + pageblock_nr_pages - 1 in
  let start := if negb (zone_spans_pfn z start_pfn) then pfn else start_pfn in
  if negb (zone_spans_pfn z end_pfn) then (0, 0, z)
  else move_freepages (Z.to_nat pageblock_nr_pages) start end_pfn mt 0 0 z.

Fixpoint change_pageblock_range (n : nat) (pfn : Z) (mt : nat) (z : zone) : zone :=
  match n with
  | O => z
  | S n => change_pageblock_range n (pfn + pageblock_nr_pages) mt (set_pageblock_migratetype pfn mt z)
  end.

Definition can_steal_fallback (order start_mt : nat) : bool :=
  if (pageblock_order cfg <=? order)%nat then true
  else (Nat.div2 (pageblock_order cfg) <=? order)%nat || (start_mt =? MIGRATE_RECLAIMABLE)%nat ||
       (start_mt =? MIGRATE_UNMOVABLE)%nat || page_group_by_mobility_disabled cfg.

Definition mult_frac (x numer denom : Z) : Z := u64 (u64 (x / denom * numer) + u64 (x mod denom * numer) / denom).

Definition boost_watermark (z : zone) : bool * zone :=
  if watermark_boost_factor cfg =? 0 then (false, z)
  else if u64 (pageblock_nr_pages * 4) >? managed_pages z then (false, z)
  else
    let max_boost := mult_frac (watermark_high z) (watermark_boost_factor cfg) 10000 in
    if max_boost =? 0 then (false, z)
    else
      let max_boost := Z.max pageblock_nr_pages max_boost in
      (true, set_watermark_boost z (Z.min (u64 (watermark_boost z + pageblock_nr_pages)) max_boost)).

Definition steal_suitable_fallback (pfn : Z) (alloc_flags : Z) (start_type : nat) (whole_block : bool) (z : zone) : zone :=
  let current_order := Z.to_nat (private (pg z pfn)) in
  let old_block_type := get_pageblock_migratetype z pfn in
  let single_page z := move_to_free_list pfn current_order start_type z in
  if is_migrate_highatomic old_block_type then single_page z
  else if (pageblock_order cfg <=? current_order)%nat then
    single_page (change_pageblock_range (Z.to_nat (bsize (current_order - pageblock_order cfg))) pfn start_type z)
  else
    let '(boosted, z) := boost_watermark z in
    let z := if boosted && alloc_flag alloc_flags ALLOC_KSWAPD then set_boosted_watermark z true else z in
    if negb whole_block then single_page z
    else
      let '(free_pages, movable_pages, z) := move_freepages_block pfn start_type z in
      let alike_pages :=
        if (start_type =? MIGRATE_MOVABLE)%nat then movable_pages
        else if (old_block_type =? MIGRATE_MOVABLE)%nat then pageblock_nr_pages - (free_pages + movable_pages)
        else 0 in
      if free_pages =? 0 then single_page z
      else if (bsize (pageblock_order cfg - 1) <=? free_pages + alike_pages) || page_group_by_mobility_disabled cfg
      then set_pageblock_migratetype pfn start_type z
      else z.

(** The first fallback type with a block, if any, and whether whole blocks may
    be stolen. *)
Definition find_suitable_fallback (z : zone) (area order mt : nat) (only_stealable : bool) : option (nat * bool) :=
  if nr_free (areas z !!! area) =? 0 then None
  else
    let can_steal := can_steal_fallback order mt in
    match find (fun fb => negb (bool_decide (fl z area fb = [])) && (negb only_stealable || can_steal)) (fallbacks mt) with
    | Some fb => Some (fb, can_steal)
    | None => None
    end.

(** The two searches of [__rmqueue_fallback], with [n] orders left. *)
Fixpoint find_largest (n : nat) (current_order mt : nat) (z : zone) : option (nat * (nat * bool)) :=
  match n with
  | O => None
  | S n =>
    match find_suitable_fallback z current_order current_order mt false with
    | Some r => Some (current_order, r)
    | None => find_largest n (current_order - 1) mt z
    end
  end.

Fixpoint find_smallest (n : nat) (current_order mt : nat) (z : zone) : option (nat * (nat * bool)) :=
  match n with
  | O => None
  | S n =>
    match find_suitable_fallback z current_order current_order mt false with
    | Some r => Some (current_order, r)
    | None => find_smallest n (S current_order) mt z
    end
  end.

(** [None]: false is returned. *)
Definition __rmqueue_fallback (order start_mt : nat) (alloc_flags : Z) (z : zone) : option zone :=
  let min_order := if alloc_flag alloc_flags ALLOC_NOFRAGMENT then pageblock_order cfg else order in
  let do_steal (pick : option (nat * (nat * bool))) :=
    '(current_order, (fallback_mt, can_steal)) ← pick;
    pfn ← head (fl z current_order fallback_mt);
    Some (steal_suitable_fallback pfn alloc_flags start_mt can_steal z) in
  match find_largest (MAX_ORDER - min_order) (MAX_ORDER - 1) start_mt z with
  | None => None
  | Some (current_order, (fallback_mt, can_steal)) =>
    if negb can_steal && (start_mt =? MIGRATE_MOVABLE)%nat && (order <? current_order)%nat
    then do_steal (find_smallest (MAX_ORDER - order) order start_mt z)
    else do_steal (Some (current_order, (fallback_mt, can_steal)))
  end.

(** [retry]: the outer option is the fuel, the inner one the page. *)
Fixpoint rmqueue_retry (fuel : nat) (order mt : nat) (alloc_flags : Z) (z : zone) : option (option Z * zone) :=
  match fuel with
  | O => None
  | S fuel =>
    match __rmqueue_smallest order mt z with
    | Some (pfn, z) => Some (Some pfn, z)
    | None =>
      match (if alloc_flag alloc_flags ALLOC_CMA then __rmqueue_smallest order MIGRATE_CMA z else None) with
      | Some (pfn, z) => Some (Some pfn, z)
      | None =>
        match __rmqueue_fallback order mt alloc_flags z with
        | Some z => rmqueue_retry fuel order mt alloc_flags z
        | None => Some (None, z)
        end
      end
    end
  end.

(** Each retry follows a fallback that moved a block to the wanted type. *)
Definition __rmqueue (order mt : nat) (alloc_flags : Z) (z : zone) : option (option Z * zone) :=
  let cma :=
    if alloc_flag alloc_flags ALLOC_CMA && (Z.max 0 (nr_free_cma_pages z) >? Z.max 0 (nr_free_pages z) / 2)
    then __rmqueue_smallest order MIGRATE_CMA z else None in
  match cma with
  | Some (pfn, z) => Some (Some pfn, z)
  | None => rmqueue_retry (S (S (size (mem_map z)))) order mt alloc_flags z
  end.

(** ** Single pages *)

(** [page - (pfn & ((1 << order) - 1))]. *)
Definition page_head (pfn : Z) (order : nat) : Z := pfn - Z.land pfn (bsize order - 1).

(** The first order from [order] on whose head frame starts a block of at
    least that order. *)
Fixpoint is_free_from (n order : nat) (pfn : Z) (z : zone) : bool :=
  match n with
  | O => false
  | S n =>
    let head := pg z (page_head pfn order) in
    if buddy_flag head && (Z.of_nat order <=? private head) then true else is_free_from n (S order) pfn z
  end.

Definition is_free_buddy_page (pfn : Z) (z : zone) : bool := is_free_from MAX_ORDER 0 pfn z.

(** The loop of [break_down_buddy_pages]; [n] is [high - low]. *)
Fixpoint break_down_loop (n : nat) (pfn target : Z) (high mt : nat) (z : zone) : zone :=
  match n with
  | O => z
  | S n =>
    let high := (high - 1)%nat in
    let size := bsize high in
    let '(next_page, current_buddy) := if pfn + size <=? target then (pfn + size, pfn) else (pfn, pfn + size) in
    match set_page_guard current_buddy high mt z with
    | Some z => break_down_loop n pfn target high mt z
    | None =>
      if negb (current_buddy =? target) then
        break_down_loop n next_page target high mt (set_buddy_order current_buddy high (add_to_free_list current_buddy high mt z))
      else break_down_loop n pfn target high mt z
    end
  end.

Definition break_down_buddy_pages (pfn target : Z) (low high mt : nat) (z : zone) : zone :=
  break_down_loop (high - low) pfn target high mt z.

Fixpoint take_off_from (n order : nat) (pfn : Z) (z : zone) : bool * zone :=
  match n with
  | O => (false, z)
  | S n =>
    let pfn_head := page_head pfn order in
    let head := pg z pfn_head in
    if buddy_flag head && (Z.of_nat order <=? private head) then
      let page_order := Z.to_nat (private head) in
      let mt := get_pageblock_migratetype z pfn_head in
      let z := del_page_from_free_list pfn_head page_order z in
      let z := break_down_buddy_pages pfn_head pfn 0 page_order mt z in
      (true, if negb (is_migrate_isolate mt) then __mod_zone_freepage_state z (-1) mt else z)
    else if page_count head >? 0 then (false, z)
    else take_off_from n (S order) pfn z
  end.

Definition take_page_off_buddy (pfn : Z) (z : zone) : bool * zone := take_off_from MAX_ORDER 0 pfn z.
End Ops.
