(* ===== verification/BuddyBlocks.v ===== *)
(** Aligned power-of-two blocks and finite sets of them: the abstract state of
    the buddy allocator.  A block map takes the first frame of a block to its
    order and to the migrate type of the list it is on ([None] for a guard
    block).  In a well-formed map blocks are aligned and disjoint; in a
    coalesced one no two buddies are both present.  Such a map is determined
    by the set of frames it covers. *)
From Stdlib Require Import ZArith Lia Bool.
From stdpp Require Import base list gmap.
From S2P Require Import Prelude Buddy.

Local Open Scope Z_scope.

(** ** Aligned blocks *)

Definition aligned (p : Z) (o : nat) : Prop := (bsize o | p).

(** Frame [q] is in the block of order [o] at [p]. *)
Definition in_block (p : Z) (o : nat) (q : Z) : Prop := p <= q < p + bsize o.

Lemma bsize_pow o : bsize o = 2 ^ Z.of_nat o.
Proof. unfold bsize; rewrite Z.shiftl_1_l; reflexivity. Qed.

Lemma bsize_pos o : 0 < bsize o.
Proof. rewrite bsize_pow; apply Z.pow_pos_nonneg; lia. Qed.

Lemma bsize_S o : bsize (S o) = 2 * bsize o.
Proof. rewrite !bsize_pow, Nat2Z.inj_succ, Z.pow_succ_r by lia; reflexivity. Qed.

Lemma bsize_add a b : bsize (a + b) = bsize a * bsize b.
Proof. rewrite !bsize_pow, Nat2Z.inj_add, Z.pow_add_r by lia; reflexivity. Qed.

Lemma bsize_mono a b : (a <= b)%nat -> bsize a <= bsize b.
Proof. intros; rewrite !bsize_pow; apply Z.pow_le_mono_r; lia. Qed.

Lemma aligned_le p a b : (a <= b)%nat -> aligned p b -> aligned p a.
Proof.
  intros H; unfold aligned; replace b with (a + (b - a))%nat by lia; rewrite bsize_add.
  intros Hd; apply (Z.divide_trans _ (bsize a * bsize (b - a))); [apply Z.divide_factor_l|exact Hd].
Qed.

(** The first frame of the buddy, and of the two together. *)
Lemma buddy_cases p o : aligned p o ->
  (aligned p (S o) /\ __find_buddy_pfn p o = p + bsize o /\ Z.land (__find_buddy_pfn p o) p = p) \/
  (aligned (p - bsize o) (S o) /\ __find_buddy_pfn p o = p - bsize o /\ Z.land (__find_buddy_pfn p o) p = p - bsize o).
Proof.
  intros [m Hm]; unfold __find_buddy_pfn, aligned; rewrite bsize_S; subst p.
  assert (Hs : forall x, x * bsize o = Z.shiftl x (Z.of_nat o)) by (intros; rewrite bsize_pow, Z.shiftl_mul_pow2; lia).
  assert (E : Z.lxor (m * bsize o) (bsize o) = Z.lxor m 1 * bsize o).
  { rewrite !Hs, Z.shiftl_lxor; f_equal. }
  assert (L : Z.land (Z.lxor m 1 * bsize o) (m * bsize o) = Z.land (Z.lxor m 1) m * bsize o) by (rewrite !Hs, Z.shiftl_land; reflexivity).
  rewrite E, L; clear Hs E L; pose proof (Z.div_mod m 2 ltac:(lia)) as D; pose proof (Z.mod_pos_bound m 2 ltac:(lia)).
  assert (B : forall a, Z.lxor (2 * a) 1 = 2 * a + 1 /\ Z.lxor (2 * a + 1) 1 = 2 * a /\ Z.land (2 * a + 1) (2 * a) = 2 * a /\ Z.land (2 * a) (2 * a + 1) = 2 * a).
  { intros a; repeat split; apply Z.bits_inj'; intros i Hi; rewrite ?Z.lxor_spec, ?Z.land_spec;
      destruct (Z.eq_dec i 0) as [->|]; rewrite ?Z.testbit_odd_0, ?Z.testbit_even_0; trivial;
      replace i with (Z.succ (i - 1)) by lia; change 1 with (2 * 0 + 1) at 1 2 3;
      rewrite ?Z.testbit_odd_succ, ?Z.testbit_even_succ, ?Z.testbit_0_l by lia; destruct (Z.testbit a _); reflexivity. }
  destruct (Z.eq_dec (m mod 2) 0) as [E|E]; [left|right].
  - replace m with (2 * (m / 2)) by lia; destruct (B (m / 2)) as (B1 & _ & B3 & _); rewrite B1, B3.
    split; [exists (m / 2); lia|split; lia].
  - replace m with (2 * (m / 2) + 1) by lia; destruct (B (m / 2)) as (_ & B2 & _ & B4); rewrite B2, B4.
    split; [exists (m / 2); lia|split; lia].
Qed.

(** The parent block is the block and its buddy. *)
Definition parent_pfn (p : Z) (o : nat) : Z := Z.land (__find_buddy_pfn p o) p.

Lemma buddy_aligned p o : aligned p o -> aligned (__find_buddy_pfn p o) o.
Proof.
  intros H; destruct (buddy_cases p o H) as [(_ & -> & _)|(_ & -> & _)];
    [apply Z.divide_add_r|apply Z.divide_sub_r]; trivial; apply Z.divide_refl.
Qed.

Lemma buddy_buddy p o : __find_buddy_pfn (__find_buddy_pfn p o) o = p.
Proof. unfold __find_buddy_pfn; rewrite Z.lxor_assoc, Z.lxor_nilpotent, Z.lxor_0_r; reflexivity. Qed.

Lemma buddy_neq p o : aligned p o -> __find_buddy_pfn p o <> p.
Proof. intros H; pose proof (bsize_pos o); destruct (buddy_cases p o H) as [(_ & -> & _)|(_ & -> & _)]; lia. Qed.

Lemma buddy_nonneg p o : 0 <= p -> 0 <= __find_buddy_pfn p o.
Proof. intros H; apply Z.lxor_nonneg; pose proof (bsize_pos o); lia. Qed.

Lemma parent_nonneg p o : 0 <= p -> 0 <= parent_pfn p o.
Proof. intros H; apply Z.land_nonneg; right; exact H. Qed.

Lemma parent_aligned p o : aligned p o -> aligned (parent_pfn p o) (S o).
Proof. intros H; unfold parent_pfn; destruct (buddy_cases p o H) as [(A & _ & ->)|(A & _ & ->)]; exact A. Qed.

Lemma parent_block p o q : aligned p o ->
  in_block (parent_pfn p o) (S o) q <-> in_block p o q \/ in_block (__find_buddy_pfn p o) o q.
Proof.
  intros H; unfold parent_pfn, in_block; rewrite bsize_S.
  destruct (buddy_cases p o H) as [(_ & -> & ->)|(_ & -> & ->)]; lia.
Qed.

(** The two halves of a block are buddies. *)
Lemma upper_half p o : aligned p (S o) -> aligned (p + bsize o) o /\ __find_buddy_pfn (p + bsize o) o = p.
Proof.
  intros H; assert (A : aligned p o) by (apply (aligned_le _ _ (S o)); [lia|exact H]).
  split; [apply Z.divide_add_r; [exact A|apply Z.divide_refl]|].
  rewrite <- (buddy_buddy p o) at 2; f_equal; destruct (buddy_cases p o A) as [(_ & E & _)|(C & _)]; [symmetry; exact E|].
  exfalso; destruct H as [a Ha], C as [b Hb]; rewrite bsize_S in *; pose proof (bsize_pos o).
  rewrite Ha in Hb; assert (E : bsize o * (2 * a - 2 * b - 1) = 0) by nia; apply Z.mul_eq_0 in E; lia.
Qed.

Lemma half_block p o q : in_block p (S o) q <-> in_block p o q \/ in_block (p + bsize o) o q.
Proof. unfold in_block; rewrite bsize_S; pose proof (bsize_pos o); lia. Qed.

(** Aligned blocks are nested or disjoint. *)
Lemma block_nested p o q o' x : aligned p o -> aligned q o' -> (o <= o')%nat ->
  in_block p o x -> in_block q o' x -> forall y, in_block p o y -> in_block q o' y.
Proof.
  intros [a ->] [b ->] L; replace o' with (o + (o' - o))%nat by lia; rewrite bsize_add; unfold in_block; intros H1 H2 y H3.
  pose proof (bsize_pos o); set (d := bsize (o' - o)) in *; assert (0 < d) by apply bsize_pos; rewrite bsize_add in *; fold d in H2 |- *.
  assert (b * d <= a) by nia; assert (a < (b + 1) * d) by nia; nia.
Qed.

Lemma in_block_head p o : in_block p o p.
Proof. unfold in_block; pose proof (bsize_pos o); lia. Qed.
Create HintDb buddy.
#[export] Hint Resolve in_block_head bsize_pos : buddy.

(** ** Block maps *)

Abbreviation blocks := (gmap Z (nat * option nat)).

(** Frame [q] is in a block of the map. *)
Definition covers (B : blocks) (q : Z) : Prop := exists p o k, B !! p = Some (o, k) /\ in_block p o q.

(** [In] delimits the frames of the zone. *)
Definition block_ok (In : Z -> Prop) (p : Z) (o : nat) : Prop :=
  (o < MAX_ORDER)%nat /\ 0 <= p /\ aligned p o /\ forall q, in_block p o q -> In q.

Record blocks_ok (In : Z -> Prop) (B : blocks) : Prop := {
  bs_block p o k : B !! p = Some (o, k) -> block_ok In p o;
  bs_type p o mt : B !! p = Some (o, Some mt) -> (mt < MIGRATE_TYPES)%nat;
  bs_disjoint p o k p' o' k' q : B !! p = Some (o, k) -> B !! p' = Some (o', k') -> in_block p o q -> in_block p' o' q -> p = p'
}.

Definition coalesced_below (m : nat) (B : blocks) : Prop :=
  forall p o k k', (o < m)%nat -> B !! p = Some (o, k) -> B !! __find_buddy_pfn p o = Some (o, k') -> False.

Definition coalesced (B : blocks) : Prop := coalesced_below (MAX_ORDER - 1) B.

(** No frame of the block is covered. *)
Definition fresh (B : blocks) (p : Z) (o : nat) : Prop := forall q, in_block p o q -> ~ covers B q.

Lemma fresh_none B p o : fresh B p o -> B !! p = None.
Proof.
  intros F; destruct (B !! p) as [[o' k]|] eqn:E; [|reflexivity]; exfalso; apply (F p); auto with buddy.
  exists p, o', k; auto with buddy.
Qed.

Lemma covers_insert B p o k q : B !! p = None -> covers (<[p := (o, k)]> B) q <-> covers B q \/ in_block p o q.
Proof.
  intros N; split.
  - intros (p' & o' & k' & H & Hq); apply lookup_insert_Some in H as [[<- [= <- <-]]|[_ H]]; [right; exact Hq|left; exists p', o', k'; auto].
  - intros [(p' & o' & k' & H & Hq)|Hq]; [|exists p, o, k; rewrite lookup_insert_eq; auto].
    exists p', o', k'; split; [|exact Hq]; rewrite lookup_insert_ne by (intros <-; congruence); exact H.
Qed.

Lemma insert_ok In B p o k : blocks_ok In B -> block_ok In p o -> match k with Some mt => (mt < MIGRATE_TYPES)%nat | None => True end ->
  fresh B p o -> blocks_ok In (<[p := (o, k)]> B).
Proof.
  intros [H1 H2 H3] Hp Hk F; split.
  - intros p' o' k' H; apply lookup_insert_Some in H as [[<- [= <- <-]]|[_ H]]; eauto.
  - intros p' o' mt H; apply lookup_insert_Some in H as [[<- [= <- ->]]|[_ H]]; eauto.
  - intros p' o' k' q' r' l' q H H' Hq Hq'.
    apply lookup_insert_Some in H as [[<- [= <- <-]]|[_ H]]; apply lookup_insert_Some in H' as [[<- [= <- <-]]|[_ H']]; trivial; [| |eauto].
    + exfalso; apply (F q Hq); exists q', r', l'; auto.
    + exfalso; apply (F q Hq'); exists p', o', k'; auto.
Qed.

Lemma delete_ok In B p : blocks_ok In B -> blocks_ok In (delete p B).
Proof.
  intros [H1 H2 H3]; split.
  - intros p' o' k' H; apply lookup_delete_Some in H as [_ H]; eauto.
  - intros p' o' mt H; apply lookup_delete_Some in H as [_ H]; eauto.
  - intros p' o' k' q' r' l' q H H'; apply lookup_delete_Some in H as [_ H]; apply lookup_delete_Some in H' as [_ H']; eauto.
Qed.

Lemma covers_delete In B p o k q : blocks_ok In B -> B !! p = Some (o, k) -> covers (delete p B) q <-> covers B q /\ ~ in_block p o q.
Proof.
  intros W H; split.
  - intros (p' & o' & k' & H' & Hq); apply lookup_delete_Some in H' as [N H']; split; [exists p', o', k'; auto|].
    intros Hq'; apply N; exact (bs_disjoint _ _ W _ _ _ _ _ _ _ H H' Hq' Hq).
  - intros [(p' & o' & k' & H' & Hq) N]; exists p', o', k'; split; [|exact Hq]; rewrite lookup_delete_ne; [exact H'|].
    intros <-; rewrite H in H'; injection H' as <- <-; exact (N Hq).
Qed.

Lemma fresh_delete In B p o k : blocks_ok In B -> B !! p = Some (o, k) -> fresh (delete p B) p o.
Proof. intros W H q Hq C; apply (covers_delete _ _ _ _ _ _ W H) in C as [_ N]; exact (N Hq). Qed.

Lemma coalesced_delete B p : coalesced B -> coalesced (delete p B).
Proof. intros C q o k k' Ho H H'; apply lookup_delete_Some in H as [_ H]; apply lookup_delete_Some in H' as [_ H']; eauto. Qed.

(** A new block keeps the map coalesced unless its buddy is there. *)
Lemma coalesced_insert m B p o k : coalesced_below m B -> aligned p o ->
  ((o < m)%nat -> forall k', B !! __find_buddy_pfn p o <> Some (o, k')) -> coalesced_below m (<[p := (o, k)]> B).
Proof.
  intros C A N q r l l' Hr H H'.
  apply lookup_insert_Some in H as [[<- [= <- <-]]|[N1 H]]; apply lookup_insert_Some in H' as [[E F]|[N2 H']].
  - exact (buddy_neq p o A (eq_sym E)).
  - exact (N Hr _ H').
  - injection F as -> ->; apply (N Hr l); rewrite E, buddy_buddy; exact H.
  - exact (C _ _ _ _ Hr H H').
Qed.

(** ** Uniqueness of the decomposition *)

Lemma same_order_block p p' o x : aligned p o -> aligned p' o -> in_block p o x -> in_block p' o x -> p = p'.
Proof.
  intros A A' H H'; pose proof (block_nested _ _ _ _ _ A A' (le_n o) H H' p (in_block_head p o)).
  pose proof (block_nested _ _ _ _ _ A' A (le_n o) H' H p' (in_block_head p' o)); unfold in_block in *; lia.
Qed.

Lemma in_one_block In B : blocks_ok In B -> coalesced B -> forall o p, (o < MAX_ORDER)%nat -> 0 <= p -> aligned p o ->
  (forall q, in_block p o q -> covers B q) -> exists p' o' k, B !! p' = Some (o', k) /\ (o <= o')%nat /\ in_block p' o' p.
Proof.
  intros W C; induction o as [|o IH]; intros p Ho Hp A H.
  - destruct (H p (in_block_head p 0)) as (p' & o' & k & E & I); exists p', o', k; split; [exact E|split; [lia|exact I]].
  - destruct (upper_half p o A) as [A2 E2]; pose proof (bsize_pos o).
    assert (A1 : aligned p o) by (apply (aligned_le _ _ (S o)); [lia|exact A]).
    pose proof (half_block p o) as S1.
    destruct (IH p ltac:(lia) Hp A1) as (p1 & o1 & k1 & B1 & L1 & I1); [intros q Hq; apply H, S1; auto|].
    destruct (IH (p + bsize o) ltac:(lia) ltac:(lia) A2) as (p2 & o2 & k2 & B2 & L2 & I2); [intros q Hq; apply H, S1; auto|].
    destruct (le_lt_dec (S o) o1) as [|G1]; [exists p1, o1, k1; auto|].
    destruct (le_lt_dec (S o) o2) as [G2|G2].
    + exists p2, o2, k2; split; [exact B2|split; [exact G2|]]; destruct (bs_block _ _ W _ _ _ B2) as (_ & _ & A2' & _).
      apply (block_nested p (S o) p2 o2 (p + bsize o)); trivial; [apply S1; right; apply in_block_head|apply in_block_head].
    + replace o1 with o in * by lia; replace o2 with o in * by lia; exfalso.
      destruct (bs_block _ _ W _ _ _ B1) as (_ & _ & A1' & _); destruct (bs_block _ _ W _ _ _ B2) as (_ & _ & A2' & _).
      pose proof (same_order_block _ _ _ _ A1' A1 I1 (in_block_head p o)); subst p1.
      pose proof (same_order_block _ _ _ _ A2' A2 I2 (in_block_head _ o)); subst p2.
      apply (C (p + bsize o) o k2 k1); [lia|exact B2|rewrite E2; exact B1].
Qed.

Lemma blocks_unique In B B' : blocks_ok In B -> coalesced B -> blocks_ok In B' -> coalesced B' ->
  (forall q, covers B q <-> covers B' q) -> forall p o k, B !! p = Some (o, k) -> exists k', B' !! p = Some (o, k').
Proof.
  intros W C W' C' Hq p o k H; destruct (bs_block _ _ W _ _ _ H) as (Ho & Hp & A & _).
  destruct (in_one_block In B' W' C' o p Ho Hp A) as (p' & o' & k' & H' & L & I); [intros q I; apply Hq; exists p, o, k; auto|].
  destruct (bs_block _ _ W' _ _ _ H') as (Ho' & Hp' & A' & _).
  destruct (in_one_block In B W C o' p' Ho' Hp' A') as (p2 & o2 & k2 & H2 & L2 & I2); [intros q J; apply Hq; exists p', o', k'; auto|].
  destruct (bs_block _ _ W _ _ _ H2) as (_ & _ & A2 & _).
  assert (J : in_block p2 o2 p) by (apply (block_nested p' o' p2 o2 p'); auto with buddy).
  assert (p = p2) by (exact (bs_disjoint _ _ W _ _ _ _ _ _ _ H H2 (in_block_head p o) J)); subst p2.
  rewrite H in H2; injection H2 as <- <-; assert (o' = o) by lia; subst o'.
  exists k'; rewrite (same_order_block p p' o p A A' (in_block_head p o) I); exact H'.
Qed.

(** ** Merging and splitting of block maps *)

Lemma merge_fresh In B p o k : blocks_ok In B -> aligned p o -> fresh B p o -> B !! __find_buddy_pfn p o = Some (o, k) ->
  fresh (delete (__find_buddy_pfn p o) B) (parent_pfn p o) (S o) /\
  forall q, covers (delete (__find_buddy_pfn p o) B) q \/ in_block (parent_pfn p o) (S o) q <-> covers B q \/ in_block p o q.
Proof.
  intros W A F H; pose proof (fun q => covers_delete _ _ _ _ _ q W H) as D; split.
  - intros q Hq Cq; apply D in Cq as [Cq N]; apply parent_block in Hq as [Hq|Hq]; trivial; [exact (F q Hq Cq)|exact (N Hq)].
  - intros q; rewrite D, (parent_block p o q A); split; [intros [[]|[|I]]; auto; left; eexists; eauto|].
    intros [Cq|]; auto; destruct (decide (__find_buddy_pfn p o <= q < __find_buddy_pfn p o + bsize o)) as [I|I]; [right; right; exact I|left; split; [exact Cq|exact I]].
Qed.
