(* ===== verification/BuddyRepr.v ===== *)
(** A zone of the buddy allocator represents a block map: the page flags and
    orders, the free lists and their counters all describe the same blocks.
    Each primitive of the allocator is shown to implement one update of the
    block map. *)
From Stdlib Require Import ZArith Lia Bool.
From stdpp Require Import base list gmap.
From S2P Require Import Prelude Lists Buddy BuddyBlocks.

Local Open Scope Z_scope.

Section Repr.
Context (cfg : config) (In : Z -> Prop) (zid : Z).

(** ** Pages *)

Definition page_state (p : page) (b : option (nat * option nat)) : Prop :=
  match b with
  | None => buddy_flag p = false /\ guard_flag p = false
  | Some (o, Some _) => buddy_flag p = true /\ guard_flag p = false /\ private p = Z.of_nat o
  | Some (o, None) => buddy_flag p = false /\ guard_flag p = true /\ private p = Z.of_nat o
  end.

Record pages_repr (m : gmap Z page) (B : blocks) : Prop := {
  pr_zone q : In q -> is_Some (m !! q) /\ zone_id (m !!! q) = zid;
  pr_all q : zone_id (m !!! q) = zid -> page_state (m !!! q) (B !! q)
}.

Lemma pr_state m B q : pages_repr m B -> In q -> page_state (m !!! q) (B !! q).
Proof. intros [HZ HS] Hq; apply HS, HZ, Hq. Qed.


Lemma total_alter_eq (f : page -> page) p m : is_Some (m !! p) -> alter f p m !!! p = f ((m : gmap Z page) !!! p).
Proof. intros [x H]; rewrite !lookup_total_alt, lookup_alter_eq, H; reflexivity. Qed.

Lemma total_alter_ne (f : page -> page) p q m : p <> q -> alter f p m !!! q = (m : gmap Z page) !!! q.
Proof. intros H; rewrite !lookup_total_alt, lookup_alter_ne by exact H; reflexivity. Qed.

(** An update of the page at [p] that leaves its zone alone. *)
Lemma pages_upd f p m B b : pages_repr m B -> In p -> (forall x, zone_id (f x) = zone_id x) ->
  page_state (f (m !!! p)) b -> pages_repr (alter f p m) (match b with Some v => <[p := v]> B | None => delete p B end).
Proof.
  intros [Hz Hs] Hp Hf Hb; destruct (Hz p Hp) as [Sp _]; split; intros q.
  - intros Hq; destruct (Hz q Hq) as [Sq Eq]; destruct (decide (p = q)) as [<-|N].
    + rewrite total_alter_eq by exact Sp; rewrite lookup_alter_eq; destruct Sp as [x ->]; split; [eexists; reflexivity|rewrite Hf; exact Eq].
    + rewrite total_alter_ne, lookup_alter_ne by exact N; split; assumption.
  - destruct (decide (p = q)) as [<-|N].
    + intros _; rewrite total_alter_eq by exact Sp; destruct b; [rewrite lookup_insert_eq|rewrite lookup_delete_eq]; exact Hb.
    + rewrite total_alter_ne by exact N; destruct b; [rewrite lookup_insert_ne by exact N|rewrite lookup_delete_ne by exact N]; apply Hs.
Qed.

Lemma pages_keep f p m B : pages_repr m B -> In p -> (forall x, zone_id (f x) = zone_id x) ->
  (forall b, page_state (m !!! p) b -> page_state (f (m !!! p)) b) -> pages_repr (alter f p m) B.
Proof.
  intros H Hp Hf Hb; pose proof (pages_upd f p m B (B !! p) H Hp Hf (Hb _ (pr_state _ _ _ H Hp))) as H'.
  destruct (B !! p) as [v|] eqn:E; [rewrite insert_id in H' by exact E|rewrite delete_id in H' by exact E]; exact H'.
Qed.

(** ** What the operations leave alone *)

(** The part of a page the allocator does not write. *)
Definition ident (p : page) : Z * Z * bool := (zone_id p, page_count p, bad p).

(** The pages of other zones, the bounds of the zone, its isolated pageblocks
    and the waiting compaction are as they were; pageblocks keep having a
    migrate type. *)
Record same_frame (z z' : zone) : Prop := {
  sf_page q : ident (pg z' q) = ident (pg z q);
  sf_out q : zone_id (pg z q) <> zid -> pg z' q = pg z q;
  sf_isolate : nr_isolate_pageblock z' = nr_isolate_pageblock z;
  sf_start : zone_start_pfn z' = zone_start_pfn z;
  sf_span : spanned_pages z' = spanned_pages z;
  sf_capc : capc z' = capc z;
  sf_types : (forall b, pageblock_mt z !!! b < MIGRATE_TYPES)%nat -> (forall b, pageblock_mt z' !!! b < MIGRATE_TYPES)%nat
}.

Lemma sf_zone z z' q : same_frame z z' -> zone_id (pg z' q) = zone_id (pg z q).
Proof. intros H; pose proof (sf_page _ _ H q) as E; unfold ident in E; congruence. Qed.

#[global] Instance same_frame_pre : PreOrder same_frame.
Proof.
  split; [intros z; split; trivial; reflexivity|].
  intros z1 z2 z3 H1 H2; destruct H1 as [P1 O1], H2 as [P2 O2]; split; try congruence; auto.
  intros q N; rewrite O2; [apply O1, N|]; pose proof (P1 q) as E; unfold ident in E; congruence.
Qed.

(** Counters and lists are not part of the frame. *)
Lemma frame_ext z z' : mem_map z' = mem_map z -> nr_isolate_pageblock z' = nr_isolate_pageblock z -> zone_start_pfn z' = zone_start_pfn z ->
  spanned_pages z' = spanned_pages z -> capc z' = capc z -> pageblock_mt z' = pageblock_mt z -> same_frame z z'.
Proof. intros E1 E2 E3 E4 E5 E6; split; unfold pg; rewrite ?E1, ?E6; auto. Qed.

Lemma frame_mod z z1 n mt : same_frame z z1 -> same_frame z (__mod_zone_freepage_state z1 n mt).
Proof. intros H; etrans; [exact H|]; unfold __mod_zone_freepage_state; destruct (is_migrate_cma mt); apply frame_ext; reflexivity. Qed.

Lemma frame_area z z1 f o : same_frame z z1 -> same_frame z (upd_area f o z1).
Proof. intros H; etrans; [exact H|]; apply frame_ext; reflexivity. Qed.

Lemma frame_upd z z1 f p : zone_id (pg z p) = zid -> (forall x, ident (f x) = ident x) -> same_frame z z1 -> same_frame z (upd_page f p z1).
Proof.
  intros E H S; rewrite <- (sf_zone _ _ p S) in E; etrans; [exact S|]; clear S; split; trivial; intros q; unfold upd_page, pg; cbn;
    (destruct (decide (p = q)) as [<-|N]; [|rewrite total_alter_ne by exact N; reflexivity]).
  - rewrite lookup_total_alt, lookup_alter_eq; unfold pg in E; rewrite !lookup_total_alt in *; destruct (mem_map z1 !! p); [apply H|reflexivity].
  - intros N; contradiction.
Qed.

Lemma frame_del z p o : zone_id (pg z p) = zid -> same_frame z (del_page_from_free_list p o z).
Proof.
  intros E; unfold del_page_from_free_list; set (z1 := if reported _ then _ else z).
  assert (S : same_frame z z1) by (unfold z1; destruct (reported _); [apply frame_upd|]; trivial; reflexivity).
  apply frame_area, frame_upd, frame_upd; trivial; etrans; [exact S|apply frame_ext; reflexivity].
Qed.

Lemma frame_order z z1 p o : zone_id (pg z p) = zid -> same_frame z z1 -> same_frame z (set_buddy_order p o z1).
Proof. intros E S; apply frame_upd, frame_upd; trivial. Qed.

Lemma frame_guard z z' p o mt : zone_id (pg z p) = zid -> set_page_guard cfg p o mt z = Some z' -> same_frame z z'.
Proof.
  intros E; unfold set_page_guard; destruct (negb _); [discriminate|]; destruct (_ <=? _)%nat; [discriminate|]; intros [= <-].
  apply frame_mod, frame_upd, frame_upd; trivial; reflexivity.
Qed.

Lemma frame_unguard z p o mt : zone_id (pg z p) = zid -> same_frame z (clear_page_guard cfg p o mt z).
Proof.
  intros E; unfold clear_page_guard; destruct (negb _); [reflexivity|].
  destruct (negb _); [apply frame_mod|]; apply frame_upd, frame_upd; trivial; reflexivity.
Qed.

(** ** Lists *)

Record lists_repr (A : list free_area) (B : blocks) : Prop := {
  lr_orders : length A = MAX_ORDER;
  lr_types o : (o < MAX_ORDER)%nat -> length (free_list (A !!! o)) = MIGRATE_TYPES;
  lr_elem o mt p : (o < MAX_ORDER)%nat -> (mt < MIGRATE_TYPES)%nat -> p ∈ free_list (A !!! o) !!! mt <-> B !! p = Some (o, Some mt);
  lr_nodup o : (o < MAX_ORDER)%nat -> NoDup (mjoin (free_list (A !!! o)));
  lr_count o : (o < MAX_ORDER)%nat -> nr_free (A !!! o) = Z.of_nat (length (mjoin (free_list (A !!! o))))
}.

Lemma lr_join A B o p : lists_repr A B -> (o < MAX_ORDER)%nat ->
  p ∈ mjoin (free_list (A !!! o)) <-> exists mt, (mt < MIGRATE_TYPES)%nat /\ B !! p = Some (o, Some mt).
Proof.
  intros L Ho; rewrite list_elem_of_join; split.
  - intros (l & Hp & Hl); apply list_elem_of_lookup in Hl as [mt Hl]; exists mt.
    assert (Hmt : (mt < MIGRATE_TYPES)%nat) by (rewrite <- (lr_types _ _ L o Ho); exact (lookup_lt_Some _ _ _ Hl)).
    split; [exact Hmt|]; apply (lr_elem _ _ L o mt p Ho Hmt); rewrite list_lookup_total_alt, Hl; exact Hp.
  - intros (mt & Hmt & H); apply (lr_elem _ _ L o mt p Ho Hmt) in H; exists (free_list (A !!! o) !!! mt); split; [exact H|].
    apply list_elem_of_lookup_total_2; rewrite (lr_types _ _ L o Ho); exact Hmt.
Qed.

Lemma insert_fresh_Some (B : blocks) p v q w : B !! p = None -> <[p := v]> B !! q = Some w <-> (q = p /\ v = w) \/ B !! q = Some w.
Proof.
  intros N; rewrite lookup_insert_Some; split; [intros [[<- E]|[_ E]]; auto|].
  intros [[-> ->]|E]; [auto|right; split; [intros <-; congruence|exact E]].
Qed.

(** Putting [p] on a list: [g] adds it to one list of the array. *)
Lemma lists_add g c A B p o mt : lists_repr A B -> B !! p = None -> (o < MAX_ORDER)%nat -> (mt < MIGRATE_TYPES)%nat ->
  (forall l q, q ∈ g l <-> q = p \/ q ∈ l) -> (forall L, (mt < length L)%nat -> mjoin (alter g mt L) ≡ₚ p :: mjoin L) ->
  c = 1 -> lists_repr (alter (fun a => mk_area (alter g mt (free_list a)) (nr_free a + c)) o A) (<[p := (o, Some mt)]> B).
Proof.
  intros L N Ho Hmt Hg Hj ->; pose proof (lr_orders _ _ L) as LO; split.
  - rewrite length_alter; exact LO.
  - intros o' Ho'; rewrite total_alter by lia; destruct (decide (o = o')) as [<-|]; cbn; rewrite ?length_alter; apply (lr_types _ _ L); assumption.
  - intros o' mt' q Ho' Hmt'; rewrite total_alter by lia; pose proof (lr_elem _ _ L o' mt' q Ho' Hmt') as E.
    destruct (decide (o = o')) as [<-|No]; cbn; [rewrite total_alter by (rewrite (lr_types _ _ L); assumption); destruct (decide (mt = mt')) as [<-|Nm]|].
    + rewrite Hg, E, (insert_fresh_Some _ _ _ _ _ N); intuition congruence.
    + rewrite E, (insert_fresh_Some _ _ _ _ _ N); intuition congruence.
    + rewrite E, (insert_fresh_Some _ _ _ _ _ N); intuition congruence.
  - intros o' Ho'; rewrite total_alter by lia; destruct (decide (o = o')) as [<-|]; [cbn|apply (lr_nodup _ _ L); assumption].
    rewrite Hj by (rewrite (lr_types _ _ L); assumption); apply NoDup_cons; split; [|apply (lr_nodup _ _ L); assumption].
    rewrite (lr_join _ _ _ _ L Ho); intros (? & _ & H); congruence.
  - intros o' Ho'; rewrite total_alter by lia; destruct (decide (o = o')) as [<-|]; [cbn|apply (lr_count _ _ L); assumption].
    rewrite Hj by (rewrite (lr_types _ _ L); assumption); cbn [length]; rewrite (lr_count _ _ L o Ho); lia.
Qed.

(** Unlinking [p]: its area loses one element, the counter is left alone. *)
Definition unlinked (p : Z) (A : list free_area) : list free_area :=
  (fun a => mk_area (filter (fun q => q <> p) <$> free_list a) (nr_free a)) <$> A.

Lemma unlinked_at p A o : unlinked p A !!! o = mk_area (filter (fun q => q <> p) <$> free_list (A !!! o)) (nr_free (A !!! o)).
Proof. unfold unlinked; rewrite lookup_total_fmap; reflexivity. Qed.

Lemma unlinked_list p (L : list (list Z)) mt : (filter (fun q : Z => q <> p) <$> L) !!! mt = filter (fun q => q <> p) (L !!! mt).
Proof. apply lookup_total_fmap; reflexivity. Qed.

Lemma lists_del A B p o mt : lists_repr A B -> B !! p = Some (o, Some mt) -> (o < MAX_ORDER)%nat -> (mt < MIGRATE_TYPES)%nat ->
  lists_repr (alter (fun a => mk_area (free_list a) (nr_free a - 1)) o (unlinked p A)) (delete p B).
Proof.
  intros L H Ho Hmt; pose proof (lr_orders _ _ L) as LO; assert (LU : (o < length (unlinked p A))%nat) by (unfold unlinked; rewrite length_fmap; lia).
  assert (F : forall o', (o' < MAX_ORDER)%nat -> free_list (alter (fun a => mk_area (free_list a) (nr_free a - 1)) o (unlinked p A) !!! o') =
      (filter (fun q => q <> p) <$> free_list (A !!! o'))).
  { intros o' _; rewrite total_alter by exact LU; rewrite unlinked_at; case_decide; reflexivity. }
  split.
  - rewrite length_alter; unfold unlinked; rewrite length_fmap; exact LO.
  - intros o' Ho'; rewrite F, length_fmap by exact Ho'; apply (lr_types _ _ L); assumption.
  - intros o' mt' q Ho' Hmt'; rewrite F, unlinked_list, list_elem_of_filter, (lr_elem _ _ L o' mt' q Ho' Hmt'), lookup_delete_Some by exact Ho'; intuition.
  - intros o' Ho'; rewrite F, filter_join by exact Ho'; apply NoDup_filter, (lr_nodup _ _ L); assumption.
  - intros o' Ho'; pose proof (lr_nodup _ _ L o' Ho') as N; pose proof (lr_count _ _ L o' Ho') as C; pose proof (lr_join _ _ o' p L Ho') as J.
    rewrite F, filter_join, total_alter, unlinked_at by assumption; destruct (decide (o = o')) as [<-|No]; cbn [nr_free]; rewrite C.
    + rewrite <- (length_filter_ne p _ N); [lia|apply J; exists mt; auto].
    + rewrite filter_ne_id; [reflexivity|]; rewrite J; intros (? & _ & H'); congruence.
Qed.

(** ** Zones *)

Record repr (z : zone) (B : blocks) : Prop := {
  rp_pages : pages_repr (mem_map z) B;
  rp_lists : lists_repr (areas z) B;
  rp_guard p o : B !! p = Some (o, None) -> debug_guardpage_enabled cfg = true
}.

Lemma repr_zone z B q : repr z B -> In q -> zone_id (pg z q) = zid.
Proof. intros R I; apply (pr_zone _ _ (rp_pages _ _ R) q I). Qed.

Lemma repr_ext z z' B : areas z = areas z' -> mem_map z = mem_map z' -> repr z B -> repr z' B.
Proof. intros E1 E2 [H1 H2 H3]; split; [rewrite <- E2|rewrite <- E1|]; assumption. Qed.

Lemma mod_state_areas z n mt : areas (__mod_zone_freepage_state z n mt) = areas z.
Proof. unfold __mod_zone_freepage_state; destruct (is_migrate_cma mt); reflexivity. Qed.

Lemma mod_state_map z n mt : mem_map (__mod_zone_freepage_state z n mt) = mem_map z.
Proof. unfold __mod_zone_freepage_state; destruct (is_migrate_cma mt); reflexivity. Qed.

Lemma repr_mod z n mt B : repr z B -> repr (__mod_zone_freepage_state z n mt) B.
Proof. apply repr_ext; symmetry; [apply mod_state_areas|apply mod_state_map]. Qed.

Lemma repr_del z B p o mt : blocks_ok In B -> repr z B -> B !! p = Some (o, Some mt) -> repr (del_page_from_free_list p o z) (delete p B).
Proof.
  intros W [HP HL HG] H; destruct (bs_block _ _ W _ _ _ H) as (Ho & _ & _ & Hin); pose proof (bs_type _ _ W _ _ _ H) as Hmt.
  pose proof (Hin p (in_block_head p o)) as Ip.
  assert (HP' : pages_repr (if reported (mem_map z !!! p) then alter (fun p => set_reported p false) p (mem_map z) else mem_map z) B).
  { destruct (reported _); [|exact HP]; apply pages_keep; trivial; intros b Hb; destruct b as [[? []]|]; exact Hb. }
  split.
  - unfold del_page_from_free_list, pg; set (z1 := if reported _ then _ else _).
    replace (mem_map _) with (alter ((fun p => set_private p 0) ∘ (fun p => set_buddy_flag p false)) p (mem_map z1)) by
      (rewrite <- alter_alter_eq; reflexivity).
    replace (mem_map z1) with (if reported (mem_map z !!! p) then alter (fun p => set_reported p false) p (mem_map z) else mem_map z)
      by (unfold z1; destruct (reported _); reflexivity).
    apply (pages_upd _ _ _ _ None HP' Ip); [reflexivity|].
    pose proof (pr_state _ _ _ HP' Ip) as S'; rewrite H in S'; split; [reflexivity|apply S'].
  - unfold del_page_from_free_list; set (z1 := if reported _ then _ else _).
    replace (areas z) with (areas z1) in HL by (unfold z1; destruct (reported _); reflexivity).
    exact (lists_del _ _ _ _ _ HL H Ho Hmt).
  - intros q o' Hq; apply lookup_delete_Some in Hq as [_ Hq]; eauto.
Qed.

(** The block at [p] becomes free. *)
Lemma repr_add_gen g z B p o mt : repr z B -> B !! p = None -> In p -> (o < MAX_ORDER)%nat -> (mt < MIGRATE_TYPES)%nat ->
  (forall l q, q ∈ g l <-> q = p \/ q ∈ l) -> (forall L, (mt < length L)%nat -> mjoin (alter g mt L) ≡ₚ p :: mjoin L) ->
  repr (set_buddy_order p o (upd_area (fun a => mk_area (alter g mt (free_list a)) (nr_free a + 1)) o z)) (<[p := (o, Some mt)]> B).
Proof.
  intros [HP HL HG] N Ip Ho Hmt Hg Hj; split.
  - replace (mem_map _) with (alter ((fun p => set_buddy_flag p true) ∘ (fun p => set_private p (Z.of_nat o))) p (mem_map z)) by
      (rewrite <- alter_alter_eq; reflexivity).
    apply (pages_upd _ _ _ _ (Some (o, Some mt)) HP Ip); [reflexivity|]; pose proof (pr_state _ _ _ HP Ip) as S; rewrite N in S.
    split; [reflexivity|split; [apply S|reflexivity]].
  - exact (lists_add g 1 _ _ p o mt HL N Ho Hmt Hg Hj eq_refl).
  - intros q o' Hq; apply lookup_insert_Some in Hq as [[_ [=]]|[_ Hq]]; eauto.
Qed.

Lemma repr_add z B p o mt : repr z B -> B !! p = None -> In p -> (o < MAX_ORDER)%nat -> (mt < MIGRATE_TYPES)%nat ->
  repr (set_buddy_order p o (add_to_free_list p o mt z)) (<[p := (o, Some mt)]> B).
Proof.
  intros R N Ip Ho Hmt; apply repr_add_gen; trivial; [intros l q; apply elem_of_cons|intros L; apply join_cons].
Qed.

Lemma repr_add_tail z B p o mt : repr z B -> B !! p = None -> In p -> (o < MAX_ORDER)%nat -> (mt < MIGRATE_TYPES)%nat ->
  repr (set_buddy_order p o (add_to_free_list_tail p o mt z)) (<[p := (o, Some mt)]> B).
Proof.
  intros R N Ip Ho Hmt; apply repr_add_gen; trivial; [|intros L; apply join_snoc].
  intros l q; rewrite elem_of_app, list_elem_of_singleton; tauto.
Qed.

Lemma repr_guard z z' B p o mt : repr z B -> B !! p = None -> In p -> set_page_guard cfg p o mt z = Some z' -> repr z' (<[p := (o, None)]> B).
Proof.
  intros [HP HL HG] N Ip H; unfold set_page_guard in H; destruct (debug_guardpage_enabled cfg) eqn:E; [|discriminate].
  cbn [negb] in H; destruct (_ <=? _)%nat; [discriminate|]; injection H as <-; apply repr_mod; split.
  - replace (mem_map _) with (alter ((fun p => set_private p (Z.of_nat o)) ∘ (fun p => set_guard_flag p true)) p (mem_map z)) by
      (rewrite <- alter_alter_eq; reflexivity).
    apply (pages_upd _ _ _ _ (Some (o, None)) HP Ip); [reflexivity|]; pose proof (pr_state _ _ _ HP Ip) as S; rewrite N in S.
    split; [apply S|split; reflexivity].
  - destruct HL as [L1 L2 L3 L4 L5]; split; trivial; intros o' mt' q Ho' Hmt'; cbn; rewrite (L3 o' mt' q Ho' Hmt').
    rewrite (insert_fresh_Some _ _ _ _ _ N); intuition congruence.
  - trivial.
Qed.

Lemma repr_unguard z B p o mt : blocks_ok In B -> repr z B -> B !! p = Some (o, None) -> repr (clear_page_guard cfg p o mt z) (delete p B).
Proof.
  intros W [HP HL HG] H; destruct (bs_block _ _ W _ _ _ H) as (_ & _ & _ & Hin); pose proof (Hin p (in_block_head p o)) as Ip.
  unfold clear_page_guard; rewrite (HG _ _ H); cbn [negb].
  assert (R : repr (upd_page (fun p => set_private p 0) p (upd_page (fun p => set_guard_flag p false) p z)) (delete p B)).
  { split.
    - replace (mem_map _) with (alter ((fun p => set_private p 0) ∘ (fun p => set_guard_flag p false)) p (mem_map z)) by
        (rewrite <- alter_alter_eq; reflexivity).
      apply (pages_upd _ _ _ _ None HP Ip); [reflexivity|]; pose proof (pr_state _ _ _ HP Ip) as S; rewrite H in S.
      split; [apply S|reflexivity].
    - destruct HL as [L1 L2 L3 L4 L5]; split; trivial; intros o' mt' q Ho' Hmt'; cbn; rewrite (L3 o' mt' q Ho' Hmt'), lookup_delete_Some.
      split; [intros Hq; split; [intros <-; congruence|exact Hq]|tauto].
    - intros q o' Hq; apply lookup_delete_Some in Hq as [_ Hq]; eauto. }
  destruct (negb _); [apply repr_mod|]; exact R.
Qed.

Lemma repr_move z B p o mt mt' : blocks_ok In B -> repr z B -> B !! p = Some (o, Some mt) -> (mt' < MIGRATE_TYPES)%nat ->
  repr (move_to_free_list p o mt' z) (<[p := (o, Some mt')]> B).
Proof.
  intros W [HP HL HG] H Hmt'; destruct (bs_block _ _ W _ _ _ H) as (Ho & _); pose proof (bs_type _ _ W _ _ _ H) as Hmt.
  rewrite <- insert_delete_eq; split.
  - destruct HP as [HZ HS]; split; [exact HZ|]; intros q Hq; specialize (HS q Hq); destruct (decide (p = q)) as [<-|N].
    + rewrite H in HS; rewrite lookup_insert_eq; exact HS.
    + rewrite lookup_insert_ne, lookup_delete_ne by exact N; exact HS.
  - pose proof (lists_add (fun l => l ++ [p]) 1 _ _ p o mt' (lists_del _ _ _ _ _ HL H Ho Hmt) (lookup_delete_eq B p) Ho Hmt') as L.
    rewrite list_alter_alter_eq in L; unfold compose in L; cbn [free_list nr_free] in L.
    replace (areas (move_to_free_list p o mt' z)) with
      (alter (fun a => mk_area (alter (fun l => l ++ [p]) mt' (free_list a)) (nr_free a - 1 + 1)) o (unlinked p (areas z))).
    + apply L; [intros l q; rewrite elem_of_app, list_elem_of_singleton; tauto|intros; apply join_snoc; assumption|reflexivity].
    + unfold move_to_free_list, upd_area, list_del; cbn; fold (unlinked p (areas z)); apply list_alter_ext; trivial.
      intros a _; f_equal; lia.
  - intros q o' Hq; apply lookup_insert_Some in Hq as [[_ [=]]|[_ Hq]]; apply lookup_delete_Some in Hq as [_ Hq]; eauto.
Qed.

Lemma repr_index z B p mt : repr z B -> In p -> repr (upd_page (fun x => set_index x mt) p z) B.
Proof.
  intros [HP HL HG] Ip; split; trivial; apply pages_keep; trivial; intros b Hb; destruct b as [[? []]|]; exact Hb.
Qed.

(** What the page tests say about the block map. *)
Lemma repr_buddy z B p q o : repr z B -> blocks_ok In B -> In p ->
  page_is_buddy cfg (pg z p) (pg z q) o = true <-> exists k, B !! q = Some (o, k).
Proof.
  intros [HP _ HG] W Ip; unfold page_is_buddy, page_is_guard, pg; rewrite (proj2 (pr_zone _ _ HP p Ip)).
  pose proof (pr_all _ _ HP q) as S; destruct (Z.eqb_spec zid (zone_id (mem_map z !!! q))) as [Ez|Ez]; cycle 1.
  { cbn [negb]; split; [repeat match goal with |- (if ?c then _ else _) = _ -> _ => destruct c end; discriminate|intros [k H]; exfalso; apply Ez; symmetry].
    destruct (bs_block _ _ W _ _ _ H) as (_ & _ & _ & Hin); apply (pr_zone _ _ HP), Hin, in_block_head. }
  specialize (S (eq_sym Ez)); cbn [negb].
  assert (F : forall o' k, (if negb (Z.of_nat o' =? Z.of_nat o) then false else true) = true <-> exists k', Some (o', k) = Some (o, k' : option nat)).
  { intros o' k; destruct (Z.eqb_spec (Z.of_nat o') (Z.of_nat o)) as [E|E]; cbn; [replace o' with o by lia; split; eauto|].
    split; [discriminate|intros [k' [= -> _]]; contradiction]. }
  destruct (B !! q) as [[o' [mt|]]|] eqn:E; [| |destruct S as [-> ->]; rewrite andb_false_r; split; [discriminate|intros [? [=]]]].
  - destruct S as (-> & _ & ->); rewrite andb_false_r; apply F.
  - destruct S as (-> & -> & ->); rewrite (HG _ _ E); cbn [andb negb]; apply F.
Qed.

Lemma repr_is_guard z B q o k : repr z B -> In q -> B !! q = Some (o, k) -> page_is_guard cfg (pg z q) = match k with None => true | Some _ => false end.
Proof.
  intros [HP _ HG] Iq H; unfold page_is_guard, pg; pose proof (pr_state _ _ _ HP Iq) as S; rewrite H in S.
  destruct k; [destruct S as (_ & -> & _); apply andb_false_r|destruct S as (_ & -> & _); rewrite (HG _ _ H); reflexivity].
Qed.

Lemma repr_valid z B q : repr z B -> In q -> pfn_valid_within cfg z q = true.
Proof.
  intros [HP _ _] Iq; unfold pfn_valid_within; destruct (holes_in_zone cfg); trivial.
  apply bool_decide_eq_true_2, (pr_zone _ _ HP q Iq).
Qed.
End Repr.

(** ** The pages on the free lists *)

Fixpoint total_from (o : nat) (A : list free_area) : Z :=
  match A with [] => 0 | a :: A => bsize o * nr_free a + total_from (S o) A end.

Definition free_total (z : zone) : Z := total_from 0 (areas z).

Lemma total_ext_from : forall A A' k, length A = length A' -> (forall o, (o < length A)%nat -> nr_free (A !!! o) = nr_free (A' !!! o)) -> total_from k A = total_from k A'.
Proof.
  induction A as [|a A IH]; intros [|a' A'] k L H; try discriminate; cbn; [reflexivity|].
  pose proof (H 0%nat ltac:(cbn; lia)) as H0; cbn in H0; rewrite H0, (IH A' (S k)); [reflexivity|cbn in L; lia|].
  intros o Ho; exact (H (S o) ltac:(cbn; lia)).
Qed.

Lemma total_ext z z' : length (areas z) = length (areas z') -> (forall o, (o < length (areas z))%nat -> nr_free (areas z !!! o) = nr_free (areas z' !!! o)) ->
  free_total z = free_total z'.
Proof. apply total_ext_from. Qed.

Lemma total_alter_from f o o' A : (o < length A)%nat ->
  total_from o' (alter f o A) = total_from o' A + bsize (o' + o) * (nr_free (f (A !!! o)) - nr_free (A !!! o)).
Proof.
  intros H; revert o o' H; induction A as [|a A IH]; intros [|o] o' H; cbn in H; [lia|lia|cbn; rewrite Nat.add_0_r; lia|].
  cbn [alter list_alter total_from lookup_total list_lookup_total]; rewrite (IH o (S o')) by lia.
  replace (S o' + o)%nat with (o' + S o)%nat by lia; rewrite <- Z.add_assoc; reflexivity.
Qed.

Lemma total_unlinked p o A : total_from o (unlinked p A) = total_from o A.
Proof. unfold unlinked; revert o; induction A as [|a A IH]; intros o; cbn; [reflexivity|]; rewrite IH; reflexivity. Qed.
