(* ===== verification/BuddyFree.v ===== *)
(** Freeing a block: the merge loop of [__free_one_page] implements the
    insertion of a block into the block map, with all buddies coalesced. *)
From Stdlib Require Import ZArith Lia Bool.
From stdpp Require Import base list gmap.
From S2P Require Import Prelude Lists Buddy BuddyBlocks BuddyRepr.

Local Open Scope Z_scope.

Section Free.
Context (cfg : config) (In : Z -> Prop) (zid : Z).
Abbreviation same_frame := (same_frame zid).
Abbreviation repr := (repr cfg In zid).
Abbreviation blocks_ok := (blocks_ok In).
Abbreviation block_ok := (block_ok In).

(** The free-page counter less the pages on the lists. *)
Definition unlisted (z : zone) : Z := nr_free_pages z - free_total z.

Lemma mod_state_count z n mt : unlisted (__mod_zone_freepage_state z n mt) = unlisted z + n.
Proof. unfold unlisted, free_total, __mod_zone_freepage_state; destruct (is_migrate_cma mt); cbn; lia. Qed.

Lemma del_total z B p o mt : blocks_ok B -> repr z B -> B !! p = Some (o, Some mt) -> free_total (del_page_from_free_list p o z) = free_total z - bsize o.
Proof.
  intros W R H; destruct (bs_block _ _ W _ _ _ H) as (Ho & _); pose proof (lr_orders _ _ (rp_lists _ _ _ _ _ R)) as L.
  unfold del_page_from_free_list; set (z1 := if reported _ then _ else _).
  unfold free_total; cbn [areas upd_area upd_page set_areas set_mem_map list_del]; fold (unlinked p (areas z1)).
  replace (areas z1) with (areas z) by (unfold z1; destruct (reported _); reflexivity).
  rewrite total_alter_from by (unfold unlinked; rewrite length_fmap; lia); rewrite total_unlinked; cbn; lia.
Qed.

Lemma del_count z B p o mt : blocks_ok B -> repr z B -> B !! p = Some (o, Some mt) -> unlisted (del_page_from_free_list p o z) = unlisted z + bsize o.
Proof.
  intros W R H; unfold unlisted; rewrite (del_total _ _ _ _ _ W R H).
  replace (nr_free_pages _) with (nr_free_pages z) by (unfold del_page_from_free_list; destruct (reported _); reflexivity); lia.
Qed.

(** One round of the loop: the buddy leaves the map. *)
Lemma merge_step z B p o k mt : blocks_ok B -> repr z B -> B !! p = Some (o, k) ->
  let z' := if page_is_guard cfg (pg z p) then clear_page_guard cfg p o mt z else del_page_from_free_list p o z in
  repr z' (delete p B) /\ same_frame z z' /\
  (is_migrate_isolate mt = false -> unlisted z' = unlisted z + bsize o).
Proof.
  intros W R H; destruct (bs_block _ _ W _ _ _ H) as (Ho & _ & _ & Hin).
  pose proof (repr_zone _ _ _ _ _ p R (Hin p (in_block_head p o))) as E.
  rewrite (repr_is_guard _ _ _ _ _ _ _ _ R (Hin p (in_block_head p o)) H); destruct k as [mt'|].
  - split; [exact (repr_del _ _ _ _ _ _ _ _ W R H)|split; [exact (frame_del _ _ _ _ E)|intros _; exact (del_count _ _ _ _ _ W R H)]].
  - split; [exact (repr_unguard _ _ _ _ _ _ _ _ W R H)|]; split; [exact (frame_unguard _ _ _ _ _ _ E)|intros Ei].
    unfold clear_page_guard; rewrite (rp_guard _ _ _ _ _ R _ _ H), Ei; cbn [negb].
    rewrite mod_state_count; reflexivity.
Qed.

(** The block [(p', o')] is what [(p, o)] and some blocks of [B] merge to; [B']
    is left. *)
Record merges (B : blocks) (p : Z) (o : nat) (B' : blocks) (p' : Z) (o' : nat) : Prop := {
  mg_ok : blocks_ok B';
  mg_sub : B' ⊆ B;
  mg_block : block_ok p' o';
  mg_fresh : fresh B' p' o';
  mg_order : (o <= o')%nat;
  mg_covers q : covers B' q \/ in_block p' o' q <-> covers B q \/ in_block p o q
}.

Lemma merges_refl B p o : blocks_ok B -> block_ok p o -> fresh B p o -> merges B p o B p o.
Proof. intros; split; trivial; tauto. Qed.

Lemma merges_buddy B p o k : blocks_ok B -> block_ok p o -> fresh B p o -> (o < MAX_ORDER - 1)%nat ->
  B !! __find_buddy_pfn p o = Some (o, k) -> merges B p o (delete (__find_buddy_pfn p o) B) (parent_pfn p o) (S o).
Proof.
  intros W (_ & Hp & A & Hin) F Ho H; destruct (merge_fresh _ _ _ _ _ W A F H) as [F' C].
  destruct (bs_block _ _ W _ _ _ H) as (_ & _ & _ & Hin').
  split; trivial; [apply delete_ok; exact W|apply delete_subseteq| |lia].
  split; [lia|split; [apply parent_nonneg; exact Hp|split; [apply parent_aligned; exact A|]]].
  intros q Hq; apply parent_block in Hq as [|]; auto.
Qed.

Lemma merges_trans B p o B1 p1 o1 B2 p2 o2 : merges B p o B1 p1 o1 -> merges B1 p1 o1 B2 p2 o2 -> merges B p o B2 p2 o2.
Proof.
  intros [] []; split; trivial; [etrans; eassumption|lia|]; intros q; rewrite mg_covers1; apply mg_covers0.
Qed.

(** The block is given to the compaction that waits for it. *)
Definition captures (z z' : zone) (p : Z) (o : nat) : Prop :=
  capc z = Some (mk_capc o None) /\ same_frame (set_capc z (Some (mk_capc o (Some p)))) z'.

Lemma captures_frame z z1 z' p o : same_frame z z1 -> captures z1 z' p o -> captures z z' p o.
Proof.
  intros S [C F]; split; [rewrite <- (sf_capc _ _ _ S); exact C|]; etrans; [|exact F]; destruct S; split; auto.
Qed.

(** The outcome of the loop. *)
Definition merge_result (z : zone) (B : blocks) (p : Z) (o mx mt : nat) (r : merge_end) : Prop :=
  match r with
  | Captured z' => exists B' p' o', merges B p o B' p' o' /\ repr z' B' /\ captures z z' p' o' /\
      (is_migrate_isolate mt = false -> unlisted z' = unlisted z - bsize o)
  | Merged z' p' o' _ => exists B', merges B p o B' p' o' /\ repr z' B' /\ same_frame z z' /\
      (is_migrate_isolate mt = false -> unlisted z' = unlisted z - bsize o + bsize o') /\
      ((o' < mx)%nat \/ nr_isolate_pageblock z = 0 /\ (o' < MAX_ORDER - 1)%nat -> forall k, B' !! __find_buddy_pfn p' o' <> Some (o', k))
  end.

Lemma result_wider z B p o mx mx' mt r : (mx <= mx')%nat -> merge_result z B p o mx' mt r -> merge_result z B p o mx mt r.
Proof.
  intros L; destruct r as [z'|z' p' o' b]; [trivial|]; intros (B' & M & R & I & U & N); exists B'; split; [exact M|split; [exact R|split; [exact I|split; [exact U|]]]].
  intros H; apply N; destruct H; [left; lia|right; assumption].
Qed.

Lemma capture_spec z p o mt z' : compaction_capture cfg p o mt z = Some z' ->
  areas z' = areas z /\ mem_map z' = mem_map z /\ nr_free_pages z' = nr_free_pages z /\ captures z z' p o.
Proof.
  unfold compaction_capture, captures; destruct (capc z) as [[o' []]|]; try discriminate.
  destruct (Nat.eqb_spec o o') as [<-|]; [|discriminate]; cbn [negb]; repeat (destruct (_ || _) || destruct (_ && _)); try discriminate.
  intros [= <-]; repeat split; auto.
Qed.

Lemma merge_loop_ok mt : forall fuel z B p o max_order bp, blocks_ok B -> repr z B -> block_ok p o -> fresh B p o ->
  (max_order <= MAX_ORDER - 1)%nat -> (2 * (MAX_ORDER - 1 - o) + (if (o <? max_order)%nat then 0 else 1) < fuel)%nat ->
  exists r, merge_loop cfg fuel z p o max_order bp mt = Some r /\ merge_result z B p o max_order mt r.
Proof.
  induction fuel as [|fuel IH]; intros z B p o mx bp W R Hp F Hm Hf; [lia|]; cbn [merge_loop].
  pose proof Hp as (Ho & Hp0 & A & Hin); pose proof (Hin p (in_block_head p o)) as Ip.
  destruct (Nat.ltb_spec o mx) as [L|L].
  - destruct (compaction_capture cfg p o mt z) as [z'|] eqn:EC.
    { apply capture_spec in EC as (E1 & E2 & E3 & E4); eexists; split; [reflexivity|]; exists B, p, o.
      split; [apply merges_refl; assumption|split; [apply repr_mod, (repr_ext _ _ _ z); auto|split]].
      - destruct E4 as [C4 F4]; split; [exact C4|apply frame_mod; exact F4].
      - intros _; rewrite mod_state_count; unfold unlisted, free_total; rewrite E1, E3; lia. }
    assert (Stop : (forall k, B !! __find_buddy_pfn p o <> Some (o, k)) -> merge_result z B p o mx mt (Merged z p o (__find_buddy_pfn p o))).
    { intros N; exists B; split; [apply merges_refl; assumption|split; [exact R|split; [reflexivity|split; [lia|auto]]]]. }
    destruct (pfn_valid_within cfg z (__find_buddy_pfn p o)) eqn:EV; cbn [negb]; cycle 1.
    { eexists; split; [reflexivity|]; apply Stop; intros k H; destruct (bs_block _ _ W _ _ _ H) as (_ & _ & _ & Hin').
      rewrite (repr_valid _ _ _ _ _ _ R (Hin' _ (in_block_head _ o))) in EV; discriminate. }
    pose proof (repr_buddy _ _ _ _ _ p (__find_buddy_pfn p o) o R W Ip) as HB.
    destruct (page_is_buddy cfg (pg z p) (pg z (__find_buddy_pfn p o)) o); cbn [negb]; cycle 1.
    { eexists; split; [reflexivity|]; apply Stop; intros k H; assert (false = true) by (apply HB; eauto); discriminate. }
    destruct (proj1 HB eq_refl) as [k H]; destruct (merge_step z B _ o k mt W R H) as (R' & I' & U').
    assert (M : merges B p o (delete (__find_buddy_pfn p o) B) (parent_pfn p o) (S o)) by (apply (merges_buddy _ _ _ k); trivial; lia).
    destruct (IH _ _ (parent_pfn p o) (S o) mx (__find_buddy_pfn p o) (mg_ok _ _ _ _ _ _ M) R' (mg_block _ _ _ _ _ _ M) (mg_fresh _ _ _ _ _ _ M) Hm) as (r & E & Hr).
    { destruct (Nat.ltb_spec (S o) mx); lia. }
    exists r; split; [exact E|]; pose proof (bsize_S o); destruct r as [z'|z' p' o' b].
    + destruct Hr as (B' & p' & o' & M' & R2 & C & U); exists B', p', o'.
      split; [eapply merges_trans; eassumption|split; [exact R2|split; [exact (captures_frame _ _ _ _ _ I' C)|intros N; rewrite U, U' by exact N; lia]]].
    + destruct Hr as (B' & M' & R2 & I & U & N); exists B'.
      split; [eapply merges_trans; eassumption|split; [exact R2|split; [etrans; eassumption|split; [|rewrite (sf_isolate _ _ _ I') in N; exact N]]]].
      intros Ni; rewrite U, U' by exact Ni; lia.
  - destruct (Nat.ltb_spec o (MAX_ORDER - 1)) as [L2|L2].
    + assert (Wider : exists r, merge_loop cfg fuel z p o (S o) (if negb (nr_isolate_pageblock z =? 0) then __find_buddy_pfn p o else bp) mt = Some r /\ merge_result z B p o mx mt r).
      { destruct (IH z B p o (S o) (if negb (nr_isolate_pageblock z =? 0) then __find_buddy_pfn p o else bp) W R Hp F) as (r & E & Hr); [lia|destruct (Nat.ltb_spec o (S o)); lia|].
        exists r; split; [exact E|apply (result_wider _ _ _ _ _ (S o)); [lia|exact Hr]]. }
      destruct (Z.eqb_spec (nr_isolate_pageblock z) 0) as [|NI]; cbn [negb andb] in *; [exact Wider|].
      destruct (negb _ && _); [|exact Wider]; eexists; split; [reflexivity|]; exists B.
      split; [apply merges_refl; assumption|split; [exact R|split; [reflexivity|split; [lia|]]]]; intros [|[]]; [lia|contradiction].
    + eexists; split; [reflexivity|]; exists B; split; [apply merges_refl; assumption|split; [exact R|split; [reflexivity|split; [lia|lia]]]].
Qed.

(** Freeing to an isolated pageblock leaves the counter alone. *)
Lemma isolate_del z p o : nr_free_pages (del_page_from_free_list p o z) = nr_free_pages z.
Proof. unfold del_page_from_free_list; destruct (reported _); reflexivity. Qed.

Lemma isolate_unguard z p o mt : is_migrate_isolate mt = true -> nr_free_pages (clear_page_guard cfg p o mt z) = nr_free_pages z.
Proof. intros E; unfold clear_page_guard; rewrite E; destruct (negb _); reflexivity. Qed.

Lemma isolate_merge mt : is_migrate_isolate mt = true -> forall fuel z p o mx bp r, merge_loop cfg fuel z p o mx bp mt = Some r ->
  exists z' p' o' b, r = Merged z' p' o' b /\ nr_free_pages z' = nr_free_pages z.
Proof.
  intros EI; induction fuel as [|fuel IH]; intros z p o mx bp r; cbn [merge_loop]; [discriminate|].
  assert (EC : forall q c, compaction_capture cfg q c mt z = None).
  { intros q c; unfold compaction_capture; rewrite EI, orb_true_r; destruct (capc z) as [[? []]|]; try reflexivity; destruct (negb _); reflexivity. }
  rewrite EC; destruct (_ <? _)%nat.
  - destruct (negb _); [intros [= <-]; eauto 8|]; destruct (negb _); [intros [= <-]; eauto 8|].
    destruct (page_is_guard _ _); intros H; destruct (IH _ _ _ _ _ _ H) as (z' & p' & o' & b & -> & E); exists z', p', o', b; split; [reflexivity| |reflexivity|]; rewrite E.
    + apply isolate_unguard, EI.
    + apply isolate_del.
  - destruct (_ <? _)%nat; [|intros [= <-]; eauto 8].
    destruct (_ && _); [intros [= <-]; eauto 8|apply IH].
Qed.

Lemma isolate_free z p o mt tail pick z' : is_migrate_isolate mt = true -> __free_one_page cfg p o mt tail pick z = Some z' -> nr_free_pages z' = nr_free_pages z.
Proof.
  intros EI; unfold __free_one_page; rewrite EI; cbn [negb]; destruct (merge_loop _ _ _ _ _ _ _ _) as [r|] eqn:E; [|discriminate].
  apply isolate_merge in E as (z1 & p' & o' & b & -> & <-); [|exact EI]; intros [= <-]; destruct (if tail then _ else _); reflexivity.
Qed.

(** The orders below which a free leaves no buddies unmerged. *)
Definition merge_limit (z : zone) : nat := if nr_isolate_pageblock z =? 0 then MAX_ORDER - 1 else Nat.min (MAX_ORDER - 1) (pageblock_order cfg).

Lemma add_total_gen g z B p o mt : repr z B -> (o < MAX_ORDER)%nat ->
  free_total (set_buddy_order p o (upd_area (fun a => mk_area (alter g mt (free_list a)) (nr_free a + 1)) o z)) = free_total z + bsize o.
Proof.
  intros R Ho; pose proof (lr_orders _ _ (rp_lists _ _ _ _ _ R)) as L; unfold free_total; cbn.
  rewrite total_alter_from by lia; cbn; lia.
Qed.

Lemma add_count_gen g z B p o mt : repr z B -> (o < MAX_ORDER)%nat ->
  unlisted (set_buddy_order p o (upd_area (fun a => mk_area (alter g mt (free_list a)) (nr_free a + 1)) o z)) = unlisted z - bsize o.
Proof. intros R Ho; unfold unlisted; rewrite (add_total_gen _ _ _ _ _ _ R Ho), Z.sub_add_distr; reflexivity. Qed.

(** The whole operation: either the page is captured by a waiting compaction,
    or the freed frames join the block map. *)
Lemma free_one_page_ok z B p o mt tail pick : blocks_ok B -> repr z B -> block_ok p o -> fresh B p o -> (mt < MIGRATE_TYPES)%nat ->
  exists z' B', __free_one_page cfg p o mt tail pick z = Some z' /\ repr z' B' /\ blocks_ok B' /\
    (is_migrate_isolate mt = false -> unlisted z' = unlisted z) /\ (forall m, coalesced_below m B -> (m <= merge_limit z)%nat -> coalesced_below m B') /\
    (same_frame z z' /\ (forall q, covers B' q <-> covers B q \/ in_block p o q) \/
     (exists p' o', captures z z' p' o' /\ merges B p o B' p' o')).
Proof.
  intros W R Hp F Hmt; unfold __free_one_page; set (z0 := if negb _ then _ else z).
  assert (R0 : repr z0 B) by (unfold z0; destruct (negb _); [apply repr_mod|]; exact R).
  assert (U0 : is_migrate_isolate mt = false -> unlisted z0 = unlisted z + bsize o) by (intros E; unfold z0; rewrite E; apply mod_state_count).
  assert (I0 : same_frame z z0) by (unfold z0; destruct (negb _); [apply frame_mod|]; reflexivity).
  destruct (merge_loop_ok mt merge_fuel z0 B p o (Nat.min (MAX_ORDER - 1) (pageblock_order cfg)) 0 W R0 Hp F) as (r & -> & Hr).
  { apply Nat.le_min_l. }
  { unfold merge_fuel; destruct (_ <? _)%nat; lia. }
  destruct r as [z'|z' p' o' b].
  - destruct Hr as (B' & p' & o' & M & R' & C & U); exists z', B'.
    split; [reflexivity|split; [exact R'|split; [apply (mg_ok _ _ _ _ _ _ M)|split; [intros E; rewrite U, U0 by exact E; lia|split; [|right; exists p', o'; split; [exact (captures_frame _ _ _ _ _ I0 C)|exact M]]]]]].
    intros m CB _ q o1 k k' Ho H H'; pose proof (mg_sub _ _ _ _ _ _ M); eapply (CB q o1 k k'); eauto using lookup_weaken.
  - destruct Hr as (B' & M & R' & I & U & N); set (tl := if tail then true else _); destruct (mg_block _ _ _ _ _ _ M) as (Ho' & _ & A' & Hin').
    pose proof (Hin' _ (in_block_head p' o')) as Ip; pose proof (mg_fresh _ _ _ _ _ _ M) as F'; pose proof (fresh_none _ _ _ F') as FN.
    eexists _, (<[p' := (o', Some mt)]> B'); split; [reflexivity|]; split; [|split; [|split; [|split; [|left; split]]]].
    + destruct tl; [apply (repr_add_tail _ _ _ _ _ p' o' mt R' FN Ip Ho' Hmt)|apply (repr_add _ _ _ _ _ p' o' mt R' FN Ip Ho' Hmt)].
    + apply insert_ok; [apply (mg_ok _ _ _ _ _ _ M)|apply (mg_block _ _ _ _ _ _ M)|exact Hmt|exact F'].
    + intros E; transitivity (unlisted z' - bsize o'); [|rewrite U, U0 by exact E; lia].
      destruct tl; [apply (add_count_gen (fun l => l ++ [p']) _ _ _ _ mt R' Ho')|apply (add_count_gen (cons p') _ _ _ _ mt R' Ho')].
    + intros m CB Ez; apply coalesced_insert; trivial; [|intros Hl; apply N; unfold merge_limit in Ez].
      2:{ rewrite (sf_isolate _ _ _ I0); destruct (Z.eqb_spec (nr_isolate_pageblock z) 0); [right; split; [assumption|lia]|left; lia]. }
      intros q o1 k k' Hl H H'; pose proof (mg_sub _ _ _ _ _ _ M); eapply (CB q o1 k k'); eauto using lookup_weaken.
    + etrans; [exact I0|etrans; [exact I|]]; pose proof (repr_zone _ _ _ _ _ p' R' Ip) as Ez.
      destruct tl; apply frame_area, frame_order; trivial; reflexivity.
    + intros q; rewrite covers_insert by exact FN; apply (mg_covers _ _ _ _ _ _ M).
Qed.
End Free.
