(* ===== verification/BuddyAlloc.v ===== *)
(** Allocating a block: [expand] splits a block and keeps its upper halves,
    [__rmqueue_smallest] takes the first block of the smallest sufficient
    order. *)
From Stdlib Require Import ZArith Lia Bool.
From stdpp Require Import base list gmap.
From S2P Require Import Prelude Lists Buddy BuddyBlocks BuddyRepr BuddyFree.

Local Open Scope Z_scope.

Section Alloc.
Context (cfg : config) (In : Z -> Prop) (zid : Z).
Abbreviation same_frame := (same_frame zid).
Abbreviation repr := (repr cfg In zid).
Abbreviation blocks_ok := (blocks_ok In).
Abbreviation block_ok := (block_ok In).

(** The block [(p, hi)] is split down to its part [(p', lo)], the other parts
    join the map. *)
Record splits (z : zone) (B : blocks) (p : Z) (hi : nat) (p' : Z) (lo : nat) (z' : zone) (B' : blocks) : Prop := {
  sp_repr : repr z' B';
  sp_ok : blocks_ok B';
  sp_fresh : fresh B' p' lo;
  sp_covers q : covers B' q \/ in_block p' lo q <-> covers B q \/ in_block p hi q;
  sp_coalesced : coalesced B -> coalesced B';
  sp_count : unlisted z' = unlisted z - (bsize hi - bsize lo);
  sp_total : free_total z' <= free_total z + (bsize hi - bsize lo);
  sp_frame : same_frame z z'
}.

Lemma splits_trans z B p hi z1 B1 p1 h1 z' B' p' lo : splits z B p hi p1 h1 z1 B1 -> splits z1 B1 p1 h1 p' lo z' B' -> splits z B p hi p' lo z' B'.
Proof.
  intros [] []; split; trivial; [intros q; rewrite sp_covers1; apply sp_covers0|auto|lia|lia|etrans; eassumption].
Qed.

Lemma half_ok p h : block_ok p (S h) -> block_ok p h /\ block_ok (p + bsize h) h.
Proof.
  intros (Ho & Hp & A & Hin); destruct (upper_half p h A) as [A' _]; pose proof (bsize_pos h); split.
  - split; [lia|split; [exact Hp|split; [apply (aligned_le _ _ (S h)); [lia|exact A]|intros q Hq; apply Hin, half_block; auto]]].
  - split; [lia|split; [lia|split; [exact A'|intros q Hq; apply Hin, half_block; auto]]].
Qed.

(** The block kept [n] and the half [c] put into the map. *)
Definition halves (p : Z) (h : nat) (n c : Z) : Prop := (n = p /\ c = p + bsize h) \/ (n = p + bsize h /\ c = p).

Lemma halves_ok p h n c : block_ok p (S h) -> halves p h n c -> block_ok n h /\ block_ok c h /\ __find_buddy_pfn c h = n /\
  (forall q, in_block n h q -> ~ in_block c h q) /\ (forall q, in_block p (S h) q <-> in_block n h q \/ in_block c h q).
Proof.
  intros Hp H; destruct (half_ok _ _ Hp) as [Hl Hu]; destruct Hp as (_ & _ & A & _); destruct (upper_half p h A) as [_ E].
  destruct H as [[-> ->]|[-> ->]]; (split; [assumption|split; [assumption|split; [|split]]]).
  - exact E.
  - unfold in_block; lia.
  - apply half_block.
  - rewrite <- E at 1; apply buddy_buddy.
  - unfold in_block; lia.
  - intros q; rewrite half_block; apply or_comm.
Qed.

Lemma half_insert B p h n c k : blocks_ok B -> block_ok p (S h) -> fresh B p (S h) -> halves p h n c ->
  match k with Some mt => (mt < MIGRATE_TYPES)%nat | None => True end ->
  let B' := <[c := (h, k)]> B in B !! c = None /\ blocks_ok B' /\ fresh B' n h /\
  (forall q, covers B' q \/ in_block n h q <-> covers B q \/ in_block p (S h) q) /\ (coalesced B -> coalesced B').
Proof.
  intros W Hp F Hh Hk B'; destruct (halves_ok _ _ _ _ Hp Hh) as (Hn & Hc & E & D & S).
  assert (FU : fresh B c h) by (intros q Hq; apply F, S; auto).
  assert (FL : fresh B n h) by (intros q Hq; apply F, S; auto).
  pose proof (fresh_none _ _ _ FU) as N; split; [exact N|split; [apply insert_ok; assumption|split; [|split]]].
  - intros q Hq C; apply covers_insert in C as [C|C]; trivial; [exact (FL q Hq C)|exact (D q Hq C)].
  - intros q; unfold B'; rewrite covers_insert, S by exact N; tauto.
  - intros C; apply coalesced_insert; trivial; [apply Hc|]; intros _ k'; rewrite E, (fresh_none _ _ _ FL); discriminate.
Qed.

Lemma guard_count z z' p o mt : set_page_guard cfg p o mt z = Some z' -> unlisted z' = unlisted z - bsize o /\ free_total z' = free_total z.
Proof.
  unfold set_page_guard; destruct (negb _); [discriminate|]; destruct (_ <=? _)%nat; [discriminate|]; intros [= <-].
  rewrite mod_state_count; unfold unlisted, free_total; rewrite mod_state_areas; split; [cbn; lia|reflexivity].
Qed.

(** One half becomes a guard block, or a free one. *)
Lemma split_guard z z1 B p h n c mt : blocks_ok B -> repr z B -> block_ok p (S h) -> fresh B p (S h) -> halves p h n c ->
  set_page_guard cfg c h mt z = Some z1 -> exists B', splits z B p (S h) n h z1 B'.
Proof.
  intros W R Hp F Hh E; destruct (half_insert B p h n c None W Hp F Hh I) as (N & W1 & F1 & C1 & K1); destruct (guard_count _ _ _ _ _ E) as [U1 I1].
  destruct (halves_ok _ _ _ _ Hp Hh) as (_ & (_ & _ & _ & Hin) & _); pose proof (bsize_S h).
  exists (<[c := (h, None)]> B); split; trivial; [exact (repr_guard _ _ _ _ _ _ _ _ _ R N (Hin _ (in_block_head _ h)) E)|lia|pose proof (bsize_pos h); lia|].
  exact (frame_guard _ _ _ _ _ _ _ (repr_zone _ _ _ _ _ c R (Hin _ (in_block_head _ h))) E).
Qed.

Lemma split_free z B p h n c mt : blocks_ok B -> repr z B -> block_ok p (S h) -> fresh B p (S h) -> halves p h n c -> (mt < MIGRATE_TYPES)%nat ->
  exists B', splits z B p (S h) n h (set_buddy_order c h (add_to_free_list c h mt z)) B'.
Proof.
  intros W R Hp F Hh Hmt; destruct (half_insert B p h n c (Some mt) W Hp F Hh Hmt) as (N & W1 & F1 & C1 & K1).
  destruct (halves_ok _ _ _ _ Hp Hh) as (_ & (Ho & _ & _ & Hin) & _); pose proof (bsize_S h).
  exists (<[c := (h, Some mt)]> B); split; trivial; [exact (repr_add _ _ _ _ _ _ h mt R N (Hin _ (in_block_head _ h)) Ho Hmt)| | |].
  - unfold add_to_free_list; rewrite (add_count_gen cfg In zid (cons c) z B _ h mt R Ho); lia.
  - unfold add_to_free_list; rewrite (add_total_gen cfg In zid (cons c) z B _ h mt R Ho); lia.
  - apply frame_order, frame_area; [exact (repr_zone _ _ _ _ _ c R (Hin _ (in_block_head _ h)))|reflexivity].
Qed.

Lemma expand_loop_ok mt : (mt < MIGRATE_TYPES)%nat -> forall n hi z B p, (n <= hi)%nat -> blocks_ok B -> repr z B -> block_ok p hi -> fresh B p hi ->
  exists B', splits z B p hi p (hi - n) (expand_loop cfg n p hi mt z) B'.
Proof.
  intros Hmt; induction n as [|n IH]; intros hi z B p Hn W R Hp F; cbn [expand_loop].
  { rewrite Nat.sub_0_r; exists B; split; trivial; (lia || reflexivity). }
  destruct hi as [|h]; [lia|]; replace (S h - 1)%nat with h by lia; replace (S h - S n)%nat with (h - n)%nat by lia.
  assert (Hh : halves p h p (p + bsize h)) by (left; auto); pose proof (proj1 (half_ok _ _ Hp)) as Hl.
  destruct (set_page_guard cfg (p + bsize h) h mt z) as [z1|] eqn:E;
    [destruct (split_guard z z1 B p h p (p + bsize h) mt W R Hp F Hh E) as [B1 S1]|destruct (split_free z B p h p (p + bsize h) mt W R Hp F Hh Hmt) as [B1 S1]];
    (destruct (IH h _ B1 p ltac:(lia) (sp_ok _ _ _ _ _ _ _ _ S1) (sp_repr _ _ _ _ _ _ _ _ S1) Hl (sp_fresh _ _ _ _ _ _ _ _ S1)) as [B' S];
     exists B'; exact (splits_trans _ _ _ _ _ _ _ _ _ _ _ _ S1 S)).
Qed.

(** A block of order [o] leaves the map. *)
Record allocates (z : zone) (B : blocks) (p : Z) (o mt : nat) (z' : zone) (B' : blocks) : Prop := {
  al_repr : repr z' B';
  al_ok : blocks_ok B';
  al_block : block_ok p o;
  al_fresh : fresh B' p o;
  al_covers q : covers B' q \/ in_block p o q <-> covers B q;
  al_coalesced : coalesced B -> coalesced B';
  al_count : unlisted z' = unlisted z + bsize o;
  al_total : free_total z' + bsize o <= free_total z;
  al_frame : same_frame z z'
}.

Lemma block_le p o o' : (o <= o')%nat -> block_ok p o' -> block_ok p o.
Proof.
  intros L (Ho & Hp & A & Hin); split; [lia|split; [exact Hp|split; [exact (aligned_le _ _ _ L A)|]]].
  intros q Hq; apply Hin; unfold in_block in *; pose proof (bsize_mono _ _ L); lia.
Qed.

Lemma take_block z B p c o mt : blocks_ok B -> repr z B -> B !! p = Some (c, Some mt) -> (o <= c)%nat ->
  exists B', allocates z B p o mt (upd_page (fun x => set_index x mt) p (expand cfg p o c mt (del_page_from_free_list p c z))) B'.
Proof.
  intros W R H L; pose proof (bs_block _ _ W _ _ _ H) as Hp; pose proof (bs_type _ _ W _ _ _ H) as Hmt.
  destruct (expand_loop_ok mt Hmt (c - o) c _ (delete p B) p ltac:(lia) (delete_ok _ _ _ W) (repr_del _ _ _ _ _ _ _ _ W R H) Hp (fresh_delete _ _ _ _ _ W H)) as [B' S].
  replace (c - (c - o))%nat with o in S by lia; exists B'; destruct S; destruct (block_le _ _ _ L Hp) as (Q1 & Q2 & Q3 & Q4).
  split; trivial; [apply repr_index; [exact sp_repr0|apply Q4, in_block_head]|split; auto| |intros C; apply sp_coalesced0, coalesced_delete, C| | |].
  - intros q; rewrite sp_covers0, (covers_delete _ _ _ _ _ q W H); split; [intros [[]|I]; auto; exists p, c, (Some mt); auto|].
    intros C; destruct (decide (p <= q < p + bsize c)) as [J|J]; [right; exact J|left; split; [exact C|exact J]].
  - change (unlisted (upd_page _ _ _)) with (unlisted (expand cfg p o c mt (del_page_from_free_list p c z))); unfold expand.
    rewrite sp_count0, (del_count _ _ _ _ _ _ _ _ W R H); lia.
  - change (free_total (upd_page _ _ _)) with (free_total (expand cfg p o c mt (del_page_from_free_list p c z))); unfold expand.
    pose proof (del_total _ _ _ _ _ _ _ _ W R H); lia.
  - pose proof (repr_zone _ _ _ _ _ p R (Q4 _ (in_block_head _ _))) as E; apply frame_upd; [exact E|reflexivity|].
    etrans; [exact (frame_del _ _ _ c E)|exact sp_frame0].
Qed.

Lemma rmqueue_orders_ok mt : (mt < MIGRATE_TYPES)%nat -> forall n o c z B, (o <= c)%nat -> (c + n <= MAX_ORDER)%nat -> blocks_ok B -> repr z B ->
  match rmqueue_orders cfg n o c mt z with
  | None => forall c', (c <= c' < c + n)%nat -> fl z c' mt = []
  | Some (p, z') => (exists B', allocates z B p o mt z' B') /\
      exists c', (c <= c' < c + n)%nat /\ head (fl z c' mt) = Some p /\ forall d, (c <= d < c')%nat -> fl z d mt = []
  end.
Proof.
  intros Hmt; induction n as [|n IH]; intros o c z B L Hn W R; cbn [rmqueue_orders]; [lia|].
  destruct (fl z c mt) as [|p l] eqn:E.
  - specialize (IH o (S c) z B ltac:(lia) ltac:(lia) W R); destruct (rmqueue_orders cfg n o (S c) mt z) as [[p z']|].
    + destruct IH as (A & c' & Hc & Hh & Hd); split; [exact A|]; exists c'; split; [lia|split; [exact Hh|]].
      intros d Hd'; destruct (decide (d = c)) as [->|]; [exact E|apply Hd; lia].
    + intros c' Hc; destruct (decide (c' = c)) as [->|]; [exact E|apply IH; lia].
  - assert (H : B !! p = Some (c, Some mt)) by (apply (lr_elem _ _ (rp_lists _ _ _ _ _ R)); [lia|exact Hmt|]; unfold fl in E; rewrite E; apply elem_of_cons; auto).
    split; [exact (take_block z B p c o mt W R H L)|]; exists c; rewrite E; split; [lia|split; [reflexivity|lia]].
Qed.
End Alloc.
