(* ===== verification/BuddyFallback.v ===== *)
(** Falling back to other migrate types: blocks are moved between lists, never
    split or lost, and the retry loop of [__rmqueue] ends. *)
From Stdlib Require Import ZArith Lia Bool.
From stdpp Require Import base list gmap.
From S2P Require Import Prelude Lists Buddy BuddyBlocks BuddyRepr BuddyFree BuddyAlloc.

Local Open Scope Z_scope.

(** Some free blocks of [B] are given the migrate type [mt]. *)
Definition retyped (mt : nat) (B B' : blocks) : Prop :=
  forall p, B' !! p = B !! p \/ exists o k, B !! p = Some (o, Some k) /\ B' !! p = Some (o, Some mt).

Lemma retyped_refl mt B : retyped mt B B.
Proof. intros p; auto. Qed.

Lemma retyped_trans mt B1 B2 B3 : retyped mt B1 B2 -> retyped mt B2 B3 -> retyped mt B1 B3.
Proof.
  intros H1 H2 p; destruct (H2 p) as [->|(o & k & E & ->)]; [apply H1|].
  destruct (H1 p) as [E'|(o' & k' & E' & E2)]; [right; exists o, k; split; congruence|].
  rewrite E in E2; injection E2 as -> ->; right; exists o', k'; auto.
Qed.

Lemma retyped_insert mt B p o k : B !! p = Some (o, Some k) -> retyped mt B (<[p := (o, Some mt)]> B).
Proof.
  intros H q; destruct (decide (p = q)) as [<-|N]; [rewrite lookup_insert_eq; right; exists o, k; auto|].
  rewrite lookup_insert_ne by exact N; auto.
Qed.

Lemma retyped_order mt B B' p o : retyped mt B B' -> (exists k, B' !! p = Some (o, k)) <-> (exists k, B !! p = Some (o, k)).
Proof.
  intros H; destruct (H p) as [->|(o' & k & E & ->)]; [reflexivity|].
  rewrite E; split; intros [? [= <- _]]; eauto.
Qed.

Lemma retyped_covers mt B B' q : retyped mt B B' -> covers B' q <-> covers B q.
Proof.
  intros H; split; intros (p & o & k & E & I).
  - destruct (proj1 (retyped_order mt B B' p o H) (ex_intro _ k E)) as [k' E']; exists p, o, k'; auto.
  - destruct (proj2 (retyped_order mt B B' p o H) (ex_intro _ k E)) as [k' E']; exists p, o, k'; auto.
Qed.

Lemma retyped_ok In mt B B' : (mt < MIGRATE_TYPES)%nat -> retyped mt B B' -> blocks_ok In B -> blocks_ok In B'.
Proof.
  intros Hmt H [W1 W2 W3]; pose proof (fun p o => proj1 (retyped_order mt B B' p o H)) as O; split.
  - intros p o k E; destruct (O p o (ex_intro _ k E)) as [k' E']; eauto.
  - intros p o t E; destruct (H p) as [E'|(o' & k & _ & E')]; rewrite E' in E; [eauto|injection E as _ <-; exact Hmt].
  - intros p o k p' o' k' q E E'; destruct (O p o (ex_intro _ k E)) as [? ?], (O p' o' (ex_intro _ k' E')) as [? ?]; eauto.
Qed.

Lemma retyped_coalesced mt B B' : retyped mt B B' -> coalesced B -> coalesced B'.
Proof.
  intros H C p o k k' Ho E E'; pose proof (fun p o => proj1 (retyped_order mt B B' p o H)) as O.
  destruct (O _ _ (ex_intro _ k E)) as [? ?], (O _ _ (ex_intro _ k' E')) as [? ?]; eauto.
Qed.

(** The blocks of other types. *)
Definition others (mt : nat) (B : blocks) : blocks :=
  filter (fun b => match b.2.2 with Some t => negb (t =? mt)%nat | None => false end = true) B.

Lemma others_lookup mt B p o k : others mt B !! p = Some (o, k) <-> B !! p = Some (o, k) /\ exists t, k = Some t /\ t <> mt.
Proof.
  unfold others; rewrite map_lookup_filter_Some; cbn; destruct k as [t|]; [|split; [intros [_ [=]]|intros (_ & t & [=] & _)]].
  rewrite negb_true_iff, Nat.eqb_neq; split; intros [E N]; split; trivial; [eauto|destruct N as (t' & [= <-] & N); exact N].
Qed.

Lemma others_decrease mt B B' p o k : retyped mt B B' -> B !! p = Some (o, Some k) -> k <> mt -> B' !! p = Some (o, Some mt) ->
  (size (others mt B') < size (others mt B))%nat.
Proof.
  intros H E N E'; apply map_subset_size, map_subset_alt; split.
  - apply map_subseteq_spec; intros q [o' k'] Hq; apply others_lookup in Hq as [Hq (t & -> & Nt)]; apply others_lookup.
    split; [|eauto]; destruct (H q) as [<-|(o2 & k2 & _ & E2)]; [exact Hq|congruence].
  - exists p; split; [|exists (o, Some k); apply others_lookup; eauto].
    destruct (others mt B' !! p) as [[o' k']|] eqn:F; [|reflexivity].
    apply others_lookup in F as [F (t & -> & Nt)]; congruence.
Qed.

Section Fallback.
Context (cfg : config) (In : Z -> Prop) (zid : Z).
Abbreviation repr := (repr cfg In zid).
Abbreviation blocks_ok := (blocks_ok In).
Abbreviation block_ok := (block_ok In).

(** What moving blocks between lists leaves alone. *)
Record same_zone (z z' : zone) : Prop := {
  sz_map : mem_map z' = mem_map z;
  sz_count : unlisted z' = unlisted z;
  sz_total : free_total z' = free_total z;
  sz_frame : same_frame zid z z'
}.

#[local] Instance same_zone_pre : PreOrder same_zone.
Proof.
  split; [intros z; split; reflexivity|].
  intros z1 z2 z3 [] []; split; (congruence || etrans; eassumption).
Qed.

(** A step that moves free blocks to the lists of type [mt]. *)
Definition moves (mt : nat) (z : zone) (B : blocks) (z' : zone) (B' : blocks) : Prop :=
  repr z' B' /\ retyped mt B B' /\ same_zone z z'.

Lemma moves_refl mt z B : repr z B -> moves mt z B z B.
Proof. intros R; split; [exact R|split; [apply retyped_refl|reflexivity]]. Qed.

Lemma moves_trans mt z1 B1 z2 B2 z3 B3 : moves mt z1 B1 z2 B2 -> moves mt z2 B2 z3 B3 -> moves mt z1 B1 z3 B3.
Proof.
  intros (_ & T1 & S1) (R & T2 & S2); split; [exact R|split; [exact (retyped_trans _ _ _ _ T1 T2)|etrans; eassumption]].
Qed.

Lemma moves_one z B p o k mt : blocks_ok B -> repr z B -> B !! p = Some (o, Some k) -> (mt < MIGRATE_TYPES)%nat ->
  moves mt z B (move_to_free_list p o mt z) (<[p := (o, Some mt)]> B).
Proof.
  intros W R H Hmt; destruct (bs_block _ _ W _ _ _ H) as (Ho & _); split; [exact (repr_move _ _ _ _ _ _ _ _ _ W R H Hmt)|].
  split; [exact (retyped_insert _ _ _ _ _ H)|].
  assert (T : free_total (move_to_free_list p o mt z) = free_total z).
  { unfold free_total, move_to_free_list, upd_area, list_del; cbn; fold (unlinked p (areas z)).
    rewrite total_alter_from by (unfold unlinked; rewrite length_fmap, (lr_orders _ _ (rp_lists _ _ _ _ _ R)); exact Ho).
    rewrite total_unlinked; cbn; lia. }
  split; trivial; [unfold unlisted; rewrite T; reflexivity|apply frame_ext; reflexivity].
Qed.

(** A page of the zone that is marked free starts a block. *)
Lemma buddy_block z B q : repr z B -> buddy_flag (pg z q) = true -> zone_id (pg z q) = zid ->
  exists o k, B !! q = Some (o, Some k) /\ private (pg z q) = Z.of_nat o.
Proof.
  intros [HP _ _] F E; pose proof (pr_all _ _ _ _ HP q E) as S; unfold pg in *.
  destruct (B !! q) as [[o [k|]]|]; [destruct S as (_ & _ & S); eauto|destruct S as [S _]; congruence..].
Qed.

Lemma move_freepages_ok mt : (mt < MIGRATE_TYPES)%nat -> forall fuel pfn e moved nm z B, blocks_ok B -> repr z B ->
  (forall q, pfn <= q <= e -> buddy_flag (pg z q) = true -> zone_id (pg z q) = zid) ->
  exists B', moves mt z B (move_freepages cfg fuel pfn e mt moved nm z).2 B' /\
    forall p o k, B !! p = Some (o, Some k) -> pfn <= p <= e -> p - pfn < Z.of_nat fuel -> B' !! p = Some (o, Some mt).
Proof.
  intros Hmt; induction fuel as [|fuel IH]; intros pfn e moved nm z B W R HZ; cbn [move_freepages].
  { exists B; split; [apply moves_refl; exact R|lia]. }
  destruct (Z.leb_spec pfn e) as [L|L]; cbn [negb]; [|exists B; split; [apply moves_refl; exact R|lia]].
  assert (Skip : forall m n, (forall o k, B !! pfn <> Some (o, Some k)) -> exists B', moves mt z B (move_freepages cfg fuel (pfn + 1) e mt m n z).2 B' /\
    forall p o k, B !! p = Some (o, Some k) -> pfn <= p <= e -> p - pfn < Z.of_nat (S fuel) -> B' !! p = Some (o, Some mt)).
  { intros m n N; destruct (IH (pfn + 1) e m n z B W R) as (B' & M & H); [intros q Hq; apply HZ; lia|].
    exists B'; split; [exact M|]; intros p o k E Hp Hf; apply (H p o k E); [|lia].
    destruct (Z.eq_dec p pfn) as [->|]; [exfalso; exact (N _ _ E)|lia]. }
  assert (State : forall o k, B !! pfn = Some (o, Some k) -> pfn_valid_within cfg z pfn = true /\ buddy_flag (pg z pfn) = true).
  { intros o k E; destruct (bs_block _ _ W _ _ _ E) as (_ & _ & _ & Hin); pose proof (Hin _ (in_block_head pfn o)) as Ip.
    split; [exact (repr_valid _ _ _ _ _ _ R Ip)|]; pose proof (pr_state _ _ _ _ _ (rp_pages _ _ _ _ _ R) Ip) as S; rewrite E in S; apply S. }
  destruct (pfn_valid_within cfg z pfn) eqn:EV; cbn [negb]; [|apply Skip; intros o k E; destruct (State _ _ E); discriminate].
  destruct (buddy_flag (pg z pfn)) eqn:EB; cbn [negb]; [|apply Skip; intros o k E; destruct (State _ _ E); discriminate].
  destruct (buddy_block z B pfn R EB (HZ pfn ltac:(lia) EB)) as (o & k & E & ->); rewrite Nat2Z.id.
  pose proof (moves_one z B pfn o k mt W R E Hmt) as M1; pose proof M1 as (R1 & T1 & _).
  destruct (IH (pfn + bsize o) e (moved + bsize o) nm _ _ (retyped_ok _ _ _ _ Hmt T1 W) R1) as (B' & M & H).
  { intros q Hq; apply HZ; pose proof (bsize_pos o); lia. }
  exists B'; split; [exact (moves_trans _ _ _ _ _ _ _ M1 M)|]; intros p o' k' E' Hp Hf; pose proof (bsize_pos o).
  destruct (decide (p = pfn)) as [->|N].
  - rewrite E in E'; injection E' as <- <-; destruct M as (_ & T & _); destruct (T pfn) as [->|(o2 & k2 & E2 & ->)];
      [apply lookup_insert_eq|rewrite lookup_insert_eq in E2; congruence].
  - apply (H p o' k'); [rewrite lookup_insert_ne by congruence; exact E'| |].
    + split; [|lia]; destruct (Z.lt_ge_cases p (pfn + bsize o)); [exfalso; apply N; symmetry|lia].
      apply (bs_disjoint _ _ W _ _ _ _ _ _ p E E'); [unfold in_block; lia|apply in_block_head].
    + lia.
Qed.

(** The span of the zone holds its frames, and no free block of another
    zone. *)
Definition span_ok (z : zone) : Prop :=
  (forall q, In q -> zone_spans_pfn z q = true) /\
  (forall q, zone_spans_pfn z q = true -> buddy_flag (pg z q) = true -> zone_id (pg z q) = zid).

Lemma span_frame z z' : same_frame zid z z' -> span_ok z -> span_ok z'.
Proof.
  intros S [I O]; unfold span_ok, zone_spans_pfn in *; rewrite (sf_start _ _ _ S), (sf_span _ _ _ S); split; [exact I|].
  intros q Hq F; rewrite (sf_zone _ _ _ q S); destruct (decide (zone_id (pg z q) = zid)) as [E|N]; [exact E|].
  rewrite (sf_out _ _ _ S q N) in F; auto.
Qed.

Lemma span_same z z' : same_zone z z' -> span_ok z -> span_ok z'.
Proof. intros S; apply span_frame, (sz_frame _ _ S). Qed.

Lemma block_start p k : 0 <= k -> let s := Z.ldiff p (2 ^ k - 1) in s <= p <= s + 2 ^ k - 1.
Proof.
  intros Hk; rewrite Z.sub_1_r, <- Z.ones_equiv, Z.ldiff_ones_r, Z.shiftl_mul_pow2, Z.shiftr_div_pow2 by exact Hk; cbv zeta.
  pose proof (Z.div_mod p (2 ^ k) ltac:(lia)); pose proof (Z.mod_pos_bound p (2 ^ k) ltac:(lia)); lia.
Qed.

Lemma move_block_ok mt z B p o k : (mt < MIGRATE_TYPES)%nat -> blocks_ok B -> repr z B -> span_ok z -> B !! p = Some (o, Some k) ->
  exists B', moves mt z B (move_freepages_block cfg p mt z).2 B' /\
    ((move_freepages_block cfg p mt z).1.1 = 0 \/ B' !! p = Some (o, Some mt)).
Proof.
  intros Hmt W R [SI SB] E; unfold move_freepages_block, pageblock_nr_pages; rewrite bsize_pow.
  pose proof (block_start p (Z.of_nat (pageblock_order cfg)) ltac:(lia)) as Hs; cbv zeta in Hs.
  set (nr := 2 ^ Z.of_nat (pageblock_order cfg)) in *; set (st := Z.ldiff p (nr - 1)) in *.
  destruct (zone_spans_pfn z (st + nr - 1)) eqn:Ee; cbn [negb]; [|exists B; split; [apply moves_refl; exact R|left; reflexivity]].
  destruct (bs_block _ _ W _ _ _ E) as (_ & _ & _ & Hin); pose proof (SI p (Hin p (in_block_head p o))) as Sp.
  set (s1 := if negb _ then p else st); assert (Hs1 : zone_spans_pfn z s1 = true /\ st <= s1 <= p).
  { unfold s1; destruct (zone_spans_pfn z st) eqn:Es; cbn [negb]; split; trivial; lia. }
  destruct (move_freepages_ok mt Hmt (Z.to_nat nr) s1 (st + nr - 1) 0 0 z B W R) as (B' & M & H).
  { intros q Hq; apply SB; unfold zone_spans_pfn in *; lia. }
  exists B'; split; [exact M|right; apply (H p o k E); lia].
Qed.

Lemma moves_ext mt z0 z B z' B' : same_zone z0 z -> moves mt z B z' B' -> moves mt z0 B z' B'.
Proof. intros S (R & T & S'); split; [exact R|split; [exact T|etrans; eassumption]]. Qed.

Lemma set_type_same p mt z : (mt < MIGRATE_TYPES)%nat -> same_zone z (set_pageblock_migratetype cfg p mt z).
Proof.
  intros Hmt; split; trivial; split; trivial; intros H b; unfold set_pageblock_migratetype; cbn [pageblock_mt set_pageblock_mt].
  destruct (decide (Z.shiftr p (Z.of_nat (pageblock_order cfg)) = b)) as [<-|N]; [|rewrite lookup_total_insert_ne by exact N; apply H].
  rewrite lookup_total_insert_eq; destruct (_ && _); [lia|exact Hmt].
Qed.

Lemma change_range_same n p mt z : (mt < MIGRATE_TYPES)%nat ->
  same_zone z (change_pageblock_range cfg n p mt z) /\ areas (change_pageblock_range cfg n p mt z) = areas z.
Proof.
  intros Hmt; revert p z; induction n as [|n IH]; intros p z; cbn [change_pageblock_range]; [split; reflexivity|].
  destruct (IH (p + pageblock_nr_pages cfg) (set_pageblock_migratetype cfg p mt z)) as [S A]; rewrite A; split; [|reflexivity].
  etrans; [apply set_type_same, Hmt|exact S].
Qed.

Lemma boost_same z : same_zone z (boost_watermark cfg z).2 /\ areas (boost_watermark cfg z).2 = areas z.
Proof. unfold boost_watermark; repeat (destruct (_ =? 0) || destruct (_ >? _)); split; try reflexivity; split; trivial; apply frame_ext; reflexivity. Qed.

(** Stealing gives the chosen block, and maybe others, the wanted type. *)
Lemma steal_ok z B p o k flags mt whole : (mt < MIGRATE_TYPES)%nat -> blocks_ok B -> repr z B -> span_ok z -> B !! p = Some (o, Some k) ->
  exists B', moves mt z B (steal_suitable_fallback cfg p flags mt whole z) B' /\ B' !! p = Some (o, Some mt).
Proof.
  intros Hmt W R SP E; unfold steal_suitable_fallback.
  assert (Ep : Z.to_nat (private (pg z p)) = o).
  { destruct (bs_block _ _ W _ _ _ E) as (_ & _ & _ & Hin).
    pose proof (pr_state _ _ _ _ _ (rp_pages _ _ _ _ _ R) (Hin _ (in_block_head p o))) as S; rewrite E in S.
    destruct S as (_ & _ & S); unfold pg; rewrite S; apply Nat2Z.id. }
  rewrite Ep; assert (One : forall z1, same_zone z z1 -> areas z1 = areas z -> exists B', moves mt z B (move_to_free_list p o mt z1) B' /\ B' !! p = Some (o, Some mt)).
  { intros z1 S A; exists (<[p := (o, Some mt)]> B); split; [|apply lookup_insert_eq].
    apply (moves_ext mt z z1); [exact S|apply (moves_one z1 B p o k mt W); trivial].
    apply (repr_ext _ _ _ z); [congruence|symmetry; apply (sz_map _ _ S)|exact R]. }
  destruct (is_migrate_highatomic _); [apply One; reflexivity|].
  destruct (_ <=? _)%nat; [destruct (change_range_same (Z.to_nat (bsize (o - pageblock_order cfg))) p mt z Hmt); apply One; assumption|].
  pose proof (boost_same z) as [S1 A1]; destruct (boost_watermark cfg z) as [boosted z1]; cbn [snd] in S1, A1.
  set (z2 := if boosted && _ then _ else z1).
  assert (S2 : same_zone z z2 /\ areas z2 = areas z) by (unfold z2; destruct (_ && _); split; trivial; etrans; [exact S1|split; trivial; apply frame_ext; reflexivity]).
  destruct S2 as [S2 A2]; clearbody z2; clear S1 A1 z1.
  destruct whole; cbn [negb]; [|apply One; assumption].
  assert (R2 : repr z2 B) by (apply (repr_ext _ _ _ z); [congruence|symmetry; apply (sz_map _ _ S2)|exact R]).
  destruct (move_block_ok mt z2 B p o k Hmt W R2 (span_same _ _ S2 SP) E) as (B' & M & H).
  destruct (move_freepages_block cfg p mt z2) as [[free movable] z3]; cbn [fst snd] in M, H.
  pose proof (moves_ext mt z z2 B z3 B' S2 M) as M3; pose proof M3 as (R3 & T3 & S3).
  destruct (Z.eqb_spec free 0) as [F|F].
  - assert (E3 : exists k', B' !! p = Some (o, Some k')) by (destruct (T3 p) as [->|(o' & k' & E' & ->)]; [eauto|rewrite E in E'; injection E' as <- <-; eauto]).
    destruct E3 as [k' E3]; exists (<[p := (o, Some mt)]> B'); split; [|apply lookup_insert_eq].
    eapply moves_trans; [exact M3|apply (moves_one z3 B' p o k' mt (retyped_ok _ _ _ _ Hmt T3 W) R3 E3 Hmt)].
  - destruct H as [H|H]; [contradiction|]; exists B'; split; [|exact H].
    set (c := _ || _); destruct c; [|exact M3]; split; [|split; [exact T3|etrans; [exact S3|apply set_type_same, Hmt]]].
    apply (repr_ext _ _ _ z3); [reflexivity|reflexivity|exact R3].
Qed.

(** ** The search for a fallback *)

Lemma fallbacks_ok mt fb : fb ∈ fallbacks mt -> fb <> mt /\ (fb < MIGRATE_TYPES)%nat.
Proof.
  destruct mt as [|[|[|]]]; cbn; rewrite ?elem_of_cons, ?elem_of_nil; intros H; repeat (destruct H as [->|H]; [lia|]); destruct H.
Qed.

Lemma find_fallback_some z a o mt fb cs : find_suitable_fallback cfg z a o mt false = Some (fb, cs) -> fb ∈ fallbacks mt /\ fl z a fb <> [].
Proof.
  unfold find_suitable_fallback; destruct (_ =? 0); [discriminate|].
  destruct (find _ _) as [fb'|] eqn:F; [|discriminate]; intros [= <- <-]; apply find_some in F as [I P].
  split; [apply list_elem_of_In; exact I|]; apply andb_true_iff in P as [P _]; apply negb_true_iff, bool_decide_eq_false in P; exact P.
Qed.

Lemma find_fallback_none z B a o mt : repr z B -> (a < MAX_ORDER)%nat -> find_suitable_fallback cfg z a o mt false = None ->
  forall fb, fb ∈ fallbacks mt -> fl z a fb = [].
Proof.
  intros R Ha H fb Hfb; unfold find_suitable_fallback in H; destruct (Z.eqb_spec (nr_free (areas z !!! a)) 0) as [E|_].
  - rewrite (lr_count _ _ (rp_lists _ _ _ _ _ R) a Ha) in E; destruct (fl z a fb) as [|p l] eqn:F; [reflexivity|exfalso].
    assert (J : p ∈ mjoin (free_list (areas z !!! a))) by (apply (elem_of_join_at p fb); unfold fl in F; rewrite F; apply elem_of_cons; auto).
    destruct (mjoin _) as [|x L]; [apply elem_of_nil in J as []|cbn in E; lia].
  - destruct (find _ _) eqn:F; [discriminate|]; pose proof (find_none _ _ F fb (proj1 (list_elem_of_In _ _) Hfb)) as N; cbn beta in N.
    cbn [negb orb] in N; rewrite andb_true_r in N; apply negb_false_iff, bool_decide_eq_true in N; exact N.
Qed.

Lemma find_largest_spec mt z : forall n c, (n <= S c)%nat ->
  match find_largest cfg n c mt z with
  | Some (d, r) => (c < d + n)%nat /\ (d <= c)%nat /\ find_suitable_fallback cfg z d d mt false = Some r
  | None => forall d, (c < d + n)%nat -> (d <= c)%nat -> find_suitable_fallback cfg z d d mt false = None
  end.
Proof.
  induction n as [|n IH]; intros c H; cbn [find_largest]; [lia|].
  destruct (find_suitable_fallback cfg z c c mt false) eqn:E; [split; [lia|split; [lia|exact E]]|].
  destruct c as [|c]; [destruct n; [intros d H1 H2; replace d with 0%nat by lia; exact E|lia]|].
  replace (S c - 1)%nat with c by lia; specialize (IH c ltac:(lia)); destruct (find_largest cfg n c mt z) as [[d r]|].
  - destruct IH as (A1 & A2 & A3); split; [lia|split; [lia|exact A3]].
  - intros d H1 H2; destruct (decide (d = S c)) as [->|]; [exact E|apply IH; lia].
Qed.

Lemma find_smallest_spec mt z : forall n c,
  match find_smallest cfg n c mt z with
  | Some (d, r) => (c <= d < c + n)%nat /\ find_suitable_fallback cfg z d d mt false = Some r
  | None => forall d, (c <= d < c + n)%nat -> find_suitable_fallback cfg z d d mt false = None
  end.
Proof.
  induction n as [|n IH]; intros c; cbn [find_smallest]; [lia|].
  destruct (find_suitable_fallback cfg z c c mt false) eqn:E; [split; [lia|exact E]|].
  specialize (IH (S c)); destruct (find_smallest cfg n (S c) mt z) as [[d r]|].
  - destruct IH as (A1 & A2); split; [lia|exact A2].
  - intros d H; destruct (decide (d = c)) as [->|]; [exact E|apply IH; lia].
Qed.

(** The order a fallback block has at least. *)
Definition min_order (order : nat) (flags : Z) : nat := if alloc_flag flags ALLOC_NOFRAGMENT then pageblock_order cfg else order.

Lemma fallback_ok order mt flags z B : (mt < MIGRATE_TYPES)%nat -> blocks_ok B -> repr z B -> span_ok z ->
  match __rmqueue_fallback cfg order mt flags z with
  | Some z' => exists B' p o k, moves mt z B z' B' /\ B !! p = Some (o, Some k) /\ k <> mt /\ B' !! p = Some (o, Some mt) /\
      (Nat.min order (min_order order flags) <= o)%nat
  | None => forall c fb, (min_order order flags <= c < MAX_ORDER)%nat -> fb ∈ fallbacks mt -> fl z c fb = []
  end.
Proof.
  intros Hmt W R SP; unfold __rmqueue_fallback; fold (min_order order flags); set (mo := min_order order flags).
  assert (Steal : forall d fb cs, (d < MAX_ORDER)%nat -> (Nat.min order mo <= d)%nat -> find_suitable_fallback cfg z d d mt false = Some (fb, cs) ->
    exists q z', head (fl z d fb) = Some q /\ steal_suitable_fallback cfg q flags mt cs z = z' /\ exists B' p o k, moves mt z B z' B' /\
      B !! p = Some (o, Some k) /\ k <> mt /\ B' !! p = Some (o, Some mt) /\ (Nat.min order mo <= o)%nat).
  { intros d fb cs Hd Ho F; apply find_fallback_some in F as [I N]; destruct (fallbacks_ok _ _ I) as [Nf Hf].
    destruct (fl z d fb) as [|q l] eqn:E; [contradiction|]; exists q; eexists; split; [reflexivity|split; [reflexivity|]].
    assert (H : B !! q = Some (d, Some fb)) by (apply (lr_elem _ _ (rp_lists _ _ _ _ _ R)); trivial; unfold fl in E; rewrite E; apply elem_of_cons; auto).
    destruct (steal_ok z B q d fb flags mt cs Hmt W R SP H) as (B' & M & H'); exists B', q, d, fb; auto. }
  destruct (le_lt_dec MAX_ORDER mo) as [G|G].
  { replace (MAX_ORDER - mo)%nat with 0%nat by lia; cbn [find_largest]; lia. }
  pose proof (find_largest_spec mt z (MAX_ORDER - mo) (MAX_ORDER - 1) ltac:(lia)) as L.
  destruct (find_largest cfg _ _ mt z) as [[d [fb cs]]|].
  - destruct L as (L1 & L2 & F); destruct (negb cs && _ && _) eqn:C.
    + apply andb_true_iff in C as [_ C]; apply Nat.ltb_lt in C; pose proof (find_smallest_spec mt z (MAX_ORDER - order) order) as Sm.
      destruct (find_smallest cfg _ _ mt z) as [[d' [fb' cs']]|]; [|rewrite Sm in F by lia; discriminate].
      destruct Sm as [Hd F']; destruct (Steal d' fb' cs' ltac:(lia) ltac:(lia) F') as (q & z' & Eq & Ez & H).
      cbn [mbind option_bind]; rewrite Eq; cbn [mbind option_bind]; rewrite Ez; exact H.
    + destruct (Steal d fb cs ltac:(lia) ltac:(lia) F) as (q & z' & Eq & Ez & H).
      cbn [mbind option_bind]; rewrite Eq; cbn [mbind option_bind]; rewrite Ez; exact H.
  - intros c fb Hc Hfb; apply (find_fallback_none z B c c mt R ltac:(lia)); [apply L; lia|exact Hfb].
Qed.

(** ** The retry loop *)

(** The lists a failed allocation has looked at are empty. *)
Definition exhausted (order mt : nat) (flags : Z) (z : zone) : Prop := (forall c, (order <= c < MAX_ORDER)%nat -> fl z c mt = []) /\
  (alloc_flag flags ALLOC_CMA = true -> forall c, (order <= c < MAX_ORDER)%nat -> fl z c MIGRATE_CMA = []) /\
  (forall c fb, (min_order order flags <= c < MAX_ORDER)%nat -> fb ∈ fallbacks mt -> fl z c fb = []).

Definition rmqueue_result (order mt : nat) (flags : Z) (z : zone) (B : blocks) (r : option Z) (z' : zone) : Prop :=
  match r with
  | Some p => exists z1 B1 mt' B', moves mt z B z1 B1 /\ allocates cfg In zid z1 B1 p order mt' z' B'
  | None => exists B1, moves mt z B z' B1 /\ exhausted order mt flags z'
  end.

Lemma retry_ok order mt flags : (order < MAX_ORDER)%nat -> (mt < MIGRATE_TYPES)%nat -> forall fuel z B, blocks_ok B -> repr z B -> span_ok z ->
  (size (others mt B) < fuel)%nat -> exists r z', rmqueue_retry cfg fuel order mt flags z = Some (r, z') /\ rmqueue_result order mt flags z B r z'.
Proof.
  intros Ho Hmt; induction fuel as [|fuel IH]; intros z B W R SP Hf; [lia|]; cbn [rmqueue_retry].
  pose proof (rmqueue_orders_ok cfg In zid mt Hmt (MAX_ORDER - order) order order z B (le_n _) ltac:(lia) W R) as Q.
  unfold __rmqueue_smallest; destruct (rmqueue_orders cfg _ order order mt z) as [[p z']|].
  { destruct Q as [[B' A] _]; exists (Some p), z'; split; [reflexivity|]; exists z, B, mt, B'; split; [apply moves_refl; exact R|exact A]. }
  set (cma := if alloc_flag flags ALLOC_CMA then _ else None).
  assert (QC : match cma with Some (p, z') => exists B', allocates cfg In zid z B p order MIGRATE_CMA z' B'
    | None => alloc_flag flags ALLOC_CMA = true -> forall c, (order <= c < MAX_ORDER)%nat -> fl z c MIGRATE_CMA = [] end).
  { unfold cma; destruct (alloc_flag flags ALLOC_CMA); [|discriminate].
    pose proof (rmqueue_orders_ok cfg In zid MIGRATE_CMA ltac:(lia) (MAX_ORDER - order) order order z B (le_n _) ltac:(lia) W R) as Q'.
    destruct (rmqueue_orders cfg _ order order MIGRATE_CMA z) as [[p z']|]; [apply Q'|intros _ c Hc; apply Q'; lia]. }
  destruct cma as [[p z']|].
  { destruct QC as [B' A]; exists (Some p), z'; split; [reflexivity|]; exists z, B, MIGRATE_CMA, B'; split; [apply moves_refl; exact R|exact A]. }
  pose proof (fallback_ok order mt flags z B Hmt W R SP) as F; destruct (__rmqueue_fallback cfg order mt flags z) as [z'|].
  - destruct F as (B' & p & o & k & M & E & N & E' & _); pose proof M as (R' & T & S).
    destruct (IH z' B' (retyped_ok _ _ _ _ Hmt T W) R' (span_same _ _ S SP)) as (r & z2 & Er & H).
    { pose proof (others_decrease mt B B' p o k T E N E'); lia. }
    exists r, z2; split; [exact Er|]; destruct r as [q|].
    + destruct H as (z3 & B3 & mt' & B4 & M' & A); exists z3, B3, mt', B4; split; [exact (moves_trans _ _ _ _ _ _ _ M M')|exact A].
    + destruct H as (B3 & M' & H); exists B3; split; [exact (moves_trans _ _ _ _ _ _ _ M M')|exact H].
  - exists None, z; split; [reflexivity|]; exists B; split; [apply moves_refl; exact R|split; [intros c Hc; apply Q; lia|split; [exact QC|exact F]]].
Qed.

Lemma others_bound z B mt : blocks_ok B -> repr z B -> (size (others mt B) <= size (mem_map z))%nat.
Proof.
  intros W R; rewrite <- !size_dom; apply subseteq_size; intros p Hp; apply elem_of_dom in Hp as [[o k] Hp].
  apply others_lookup in Hp as [Hp _]; destruct (bs_block _ _ W _ _ _ Hp) as (_ & _ & _ & Hin).
  apply elem_of_dom, (pr_zone _ _ _ _ (rp_pages _ _ _ _ _ R)), Hin, in_block_head.
Qed.

Lemma rmqueue_ok order mt flags z B : (order < MAX_ORDER)%nat -> (mt < MIGRATE_TYPES)%nat -> blocks_ok B -> repr z B -> span_ok z ->
  exists r z', __rmqueue cfg order mt flags z = Some (r, z') /\ rmqueue_result order mt flags z B r z'.
Proof.
  intros Ho Hmt W R SP; unfold __rmqueue; set (cma := if _ && _ then _ else None).
  assert (QC : match cma with Some (p, z') => exists B', allocates cfg In zid z B p order MIGRATE_CMA z' B' | None => True end).
  { unfold cma; destruct (_ && _); [|exact I].
    pose proof (rmqueue_orders_ok cfg In zid MIGRATE_CMA ltac:(lia) (MAX_ORDER - order) order order z B (le_n _) ltac:(lia) W R) as Q'.
    unfold __rmqueue_smallest; destruct (rmqueue_orders cfg _ order order MIGRATE_CMA z) as [[p z']|]; [apply Q'|exact I]. }
  destruct cma as [[p z']|].
  - destruct QC as [B' A]; exists (Some p), z'; split; [reflexivity|]; exists z, B, MIGRATE_CMA, B'; split; [apply moves_refl; exact R|exact A].
  - apply retry_ok; trivial; pose proof (others_bound z B mt W R); lia.
Qed.
End Fallback.
