(* ===== verification/BuddySingle.v ===== *)
(** Operations on one frame of the buddy allocator: the test whether it is free
    and taking it off the free lists. *)
From Stdlib Require Import ZArith Lia Bool.
From stdpp Require Import base list gmap.
From S2P Require Import Prelude Lists Buddy BuddyBlocks BuddyRepr BuddyFree BuddyAlloc.

Local Open Scope Z_scope.

Lemma page_head_aligned q o : aligned (page_head q o) o /\ in_block (page_head q o) o q.
Proof.
  unfold page_head, aligned, in_block; rewrite bsize_pow; replace (2 ^ Z.of_nat o - 1) with (Z.ones (Z.of_nat o)) by (rewrite Z.ones_equiv; lia).
  rewrite Z.land_ones by lia; pose proof (Z.pow_pos_nonneg 2 (Z.of_nat o) ltac:(lia) ltac:(lia)) as P.
  pose proof (Z.div_mod q (2 ^ Z.of_nat o) ltac:(lia)); pose proof (Z.mod_pos_bound q _ P); split; [exists (q / 2 ^ Z.of_nat o)|]; lia.
Qed.

Section Single.
Context (cfg : config) (In : Z -> Prop) (zid : Z).
Abbreviation repr := (repr cfg In zid).
Abbreviation blocks_ok := (blocks_ok In).
Abbreviation block_ok := (block_ok In).

(** Free blocks of other zones hold no frame of this one. *)
Definition foreign_ok (z : zone) : Prop := forall h q, In q -> zone_id (pg z h) <> zid -> buddy_flag (pg z h) = true ->
  ~ in_block h (Z.to_nat (private (pg z h))) q.

(** Frame [q] is in a block on a free list. *)
Definition free_in (B : blocks) (q : Z) : Prop := exists p o mt, B !! p = Some (o, Some mt) /\ in_block p o q.

(** The test made at every order. *)
Definition head_test (z : zone) (q : Z) (o : nat) : bool :=
  let h := pg z (page_head q o) in buddy_flag h && (Z.of_nat o <=? private h).

Lemma head_test_block z B q o : repr z B -> foreign_ok z -> In q -> head_test z q o = true ->
  exists o' mt, B !! page_head q o = Some (o', Some mt) /\ (o <= o')%nat /\ in_block (page_head q o) o' q /\ private (pg z (page_head q o)) = Z.of_nat o'.
Proof.
  intros R FO Iq T; unfold head_test in T; apply andb_true_iff in T as [T1 T2]; apply Z.leb_le in T2; destruct (page_head_aligned q o) as [_ I].
  pose proof (bsize_mono o (Z.to_nat (private (pg z (page_head q o)))) ltac:(lia)) as M.
  destruct (decide (zone_id (pg z (page_head q o)) = zid)) as [E|N].
  - pose proof (pr_all _ _ _ _ (rp_pages _ _ _ _ _ R) _ E) as S; unfold pg in *; unfold page_state in S.
    destruct (B !! page_head q o) as [[o' [mt|]]|]; [|intuition congruence|intuition congruence].
    destruct S as (_ & _ & P); rewrite P in *; exists o', mt; rewrite Nat2Z.id in M; unfold in_block in *; repeat split; lia.
  - exfalso; apply (FO _ q Iq N T1); unfold in_block in *; lia.
Qed.

Lemma block_head_test z B q p o mt : blocks_ok B -> repr z B -> B !! p = Some (o, Some mt) -> in_block p o q ->
  page_head q o = p /\ head_test z q o = true.
Proof.
  intros W R H I; destruct (bs_block _ _ W _ _ _ H) as (_ & _ & A & Hin); destruct (page_head_aligned q o) as [A' I'].
  pose proof (same_order_block _ _ _ _ A' A I' I) as E; split; [exact E|]; unfold head_test; rewrite E.
  pose proof (pr_state _ _ _ _ _ (rp_pages _ _ _ _ _ R) (Hin _ (in_block_head p o))) as S; rewrite H in S; destruct S as (S1 & _ & S2).
  unfold pg; rewrite S1, S2; apply Z.leb_refl.
Qed.

Lemma is_free_from_spec z q : forall n o, is_free_from n o q z = true <-> exists c, (o <= c < o + n)%nat /\ head_test z q c = true.
Proof.
  induction n as [|n IH]; intros o; cbn [is_free_from]; [split; [discriminate|intros (c & ? & _); lia]|].
  fold (head_test z q o); destruct (head_test z q o) eqn:T; [split; [intros _; exists o; split; [lia|exact T]|reflexivity]|].
  rewrite IH; split; intros (c & Hc & T'); exists c; (split; [|exact T']); [lia|destruct (decide (c = o)) as [->|]; [congruence|lia]].
Qed.

Lemma is_free_ok z B q : blocks_ok B -> repr z B -> foreign_ok z -> In q -> is_free_buddy_page q z = true <-> free_in B q.
Proof.
  intros W R FO Iq; unfold is_free_buddy_page; rewrite is_free_from_spec; split.
  - intros (c & _ & T); destruct (head_test_block z B q c R FO Iq T) as (o & mt & H & _ & I & _); exists (page_head q c), o, mt; auto.
  - intros (p & o & mt & H & I); exists o; destruct (bs_block _ _ W _ _ _ H) as (Ho & _); split; [lia|exact (proj2 (block_head_test z B q p o mt W R H I))].
Qed.

(** ** Taking a frame off *)

(** No guard blocks are made. *)
Lemma break_down_ok mt target : debug_guardpage_enabled cfg = false -> (mt < MIGRATE_TYPES)%nat -> forall n hi z B p, (n <= hi)%nat -> blocks_ok B -> repr z B ->
  block_ok p hi -> fresh B p hi -> in_block p hi target ->
  exists p' B', splits cfg In zid z B p hi p' (hi - n) (break_down_loop cfg n p target hi mt z) B' /\ in_block p' (hi - n) target.
Proof.
  intros G Hmt; induction n as [|n IH]; intros hi z B p Hn W R Hp F It; cbn [break_down_loop].
  { rewrite Nat.sub_0_r; exists p, B; split; [split; trivial; (lia || reflexivity)|exact It]. }
  destruct hi as [|h]; [lia|]; replace (S h - 1)%nat with h by lia; replace (S h - S n)%nat with (h - n)%nat by lia.
  assert (NG : forall c, set_page_guard cfg c h mt z = None) by (intros c; unfold set_page_guard; rewrite G; reflexivity).
  assert (exists x c, (if p + bsize h <=? target then (p + bsize h, p) else (p, p + bsize h)) = (x, c) /\ halves p h x c /\ in_block x h target) as (x & c & -> & Hh & Ix).
  { destruct (Z.leb_spec (p + bsize h) target); eexists _, _; (split; [reflexivity|]); unfold halves, in_block in *; rewrite bsize_S in It; intuition lia. }
  destruct (halves_ok In p h x c Hp Hh) as (Hx & _ & _ & D & _).
  rewrite NG; destruct (Z.eqb_spec c target) as [->|_]; [destruct (D target Ix (in_block_head _ _))|cbn [negb]].
  destruct (split_free cfg In zid z B p h x c mt W R Hp F Hh Hmt) as [B1 S1].
  destruct (IH h _ B1 x ltac:(lia) (sp_ok _ _ _ _ _ _ _ _ _ _ _ S1) (sp_repr _ _ _ _ _ _ _ _ _ _ _ S1) Hx (sp_fresh _ _ _ _ _ _ _ _ _ _ _ S1) Ix) as (p' & B' & S & I').
  exists p', B'; split; [exact (splits_trans _ _ _ _ _ _ _ _ _ _ _ _ _ _ _ S1 S)|exact I'].
Qed.

(** The frames of free blocks are not referenced, and every pageblock has a
    migrate type. *)
Definition counts_ok (z : zone) (B : blocks) : Prop := forall q, free_in B q -> page_count (pg z q) <= 0.
Definition types_ok (z : zone) : Prop := forall q, (get_pageblock_migratetype cfg z q < MIGRATE_TYPES)%nat.

(** What taking frame [q] off does. *)
Definition takes (z : zone) (B : blocks) (q : Z) (z' : zone) : Prop :=
  exists B', repr z' B' /\ blocks_ok B' /\ (forall x, covers B' x <-> covers B x /\ x <> q) /\ (coalesced B -> coalesced B') /\
    exists p o mt, B !! p = Some (o, Some mt) /\ in_block p o q /\ (is_migrate_isolate (get_pageblock_migratetype cfg z p) = false -> unlisted z' = unlisted z).

Lemma take_block_off z B p o mt q : debug_guardpage_enabled cfg = false -> blocks_ok B -> repr z B -> types_ok z -> B !! p = Some (o, Some mt) -> in_block p o q ->
  takes z B q (let mt := get_pageblock_migratetype cfg z p in
    let z := break_down_buddy_pages cfg p q 0 o mt (del_page_from_free_list p o z) in
    if negb (is_migrate_isolate mt) then __mod_zone_freepage_state z (-1) mt else z).
Proof.
  intros G W R TO H I; set (m := get_pageblock_migratetype cfg z p); cbv zeta; pose proof (TO p) as Hm; fold m in Hm.
  pose proof (bs_block _ _ W _ _ _ H) as Hp.
  destruct (break_down_ok m q G Hm o o _ (delete p B) p (le_n _) (delete_ok _ _ _ W) (repr_del _ _ _ _ _ _ _ _ W R H) Hp (fresh_delete _ _ _ _ _ W H) I) as (p' & B' & S & I').
  rewrite Nat.sub_diag in S, I'; assert (p' = q) as -> by (unfold in_block in I'; change (bsize 0) with 1 in I'; lia).
  unfold break_down_buddy_pages; rewrite Nat.sub_0_r; exists B'; destruct S as [sp_repr0 sp_ok0 sp_fresh0 sp_covers0 sp_coalesced0 sp_count0 _ _]; split; [destruct (negb _); [apply repr_mod|]; exact sp_repr0|].
  split; [exact sp_ok0|split; [|split; [intros C; apply sp_coalesced0, coalesced_delete, C|]]].
  - intros x; pose proof (sp_covers0 x) as E; rewrite (covers_delete _ _ _ _ _ x W H) in E; unfold in_block in E at 1; change (bsize 0) with 1 in E.
    assert (NQ : covers B' x -> x <> q) by (intros C ->; exact (sp_fresh0 q (in_block_head q 0) C)).
    assert (CP : in_block p o x -> covers B x) by (intros J; exists p, o, (Some mt); auto).
    destruct (decide (p <= x < p + bsize o)) as [J|J]; [|fold (in_block p o x) in J]; split.
    + intros C; split; [apply CP; exact J|apply NQ; exact C].
    + intros [_ N]; destruct (proj2 E (or_intror J)) as [C|C]; [exact C|lia].
    + intros C; split; [|apply NQ; exact C]; destruct (proj1 E (or_introl C)) as [[D _]|D]; [exact D|apply CP; exact D].
    + intros [C N]; destruct (proj2 E (or_introl (conj C J))) as [D|D]; [exact D|lia].
  - exists p, o, mt; split; [exact H|split; [exact I|]]; fold m; intros E; rewrite E; cbn [negb]; rewrite mod_state_count, sp_count0, (del_count _ _ _ _ _ _ _ _ W R H); change (bsize 0) with 1; lia.
Qed.

Lemma take_off_from_ok z B q p o mt : debug_guardpage_enabled cfg = false -> blocks_ok B -> repr z B -> foreign_ok z -> types_ok z -> counts_ok z B ->
  B !! p = Some (o, Some mt) -> in_block p o q -> forall n c, (c <= o < c + n)%nat -> exists z', take_off_from cfg n c q z = (true, z') /\ takes z B q z'.
Proof.
  intros G W R FO TO CO H I; destruct (bs_block _ _ W _ _ _ H) as (Ho & _ & A & Hin); pose proof (Hin q I) as Iq.
  induction n as [|n IH]; intros c Hc; [lia|]; cbn [take_off_from]; fold (head_test z q c).
  destruct (head_test z q c) eqn:T.
  - destruct (head_test_block z B q c R FO Iq T) as (o' & mt' & H' & _ & I' & P); unfold pg in *; rewrite P, Nat2Z.id.
    eexists; split; [reflexivity|]; exact (take_block_off z B _ o' mt' q G W R TO H' I').
  - destruct (decide (c = o)) as [->|N]; [rewrite (proj2 (block_head_test z B q p o mt W R H I)) in T; discriminate|].
    destruct (page_head_aligned q c) as [A' I']; assert (J : in_block p o (page_head q c)).
    { apply (block_nested _ _ _ _ q A' A ltac:(lia) I' I), in_block_head. }
    pose proof (CO _ ltac:(exists p, o, mt; split; [exact H|exact J])); rewrite Z.gtb_ltb, (proj2 (Z.ltb_ge 0 _)) by lia; apply IH; lia.
Qed.

Lemma take_off_none z q : forall n o, is_free_from n o q z = false -> take_off_from cfg n o q z = (false, z).
Proof.
  induction n as [|n IH]; intros o E; cbn [is_free_from take_off_from] in *; [reflexivity|].
  destruct (_ && _); [discriminate|]; destruct (_ >? 0); [reflexivity|apply IH, E].
Qed.
End Single.
