(* ===== verification/BuddyZone.v ===== *)
(** A zone under allocation and freeing: [rmqueue], [rmqueue_bulk],
    [free_one_page] and the draining of a per-CPU list, as steps of a system
    that also tracks who holds which block.  In every reachable state the
    blocks handed out are disjoint from each other and from the free ones. *)
From Stdlib Require Import ZArith Lia Bool.
From stdpp Require Import base list gmap.
From S2P Require Import Prelude Lists Buddy BuddyBlocks BuddyRepr BuddyFree BuddyAlloc BuddyFallback.

Local Open Scope Z_scope.

(** ** Operations under the zone lock *)

Abbreviation ALLOC_HARDER := 0x10.

Definition get_pcppage_migratetype (p : page) : nat := index p.

Definition has_isolate_pageblock (z : zone) : bool := negb (nr_isolate_pageblock z =? 0).

Definition check_new_page (p : page) : bool := bad p.

Definition check_new_pages (z : zone) (pfn : Z) (order : nat) : bool :=
  existsb (fun i => check_new_page (pg z (pfn + i))) (seqZ 0 (bsize order)).

Section Ops.
Context (cfg : config).

(** The loop of [rmqueue] under the lock: blocks with a bad page are dropped.
    The outer option is the fuel, the inner one the page. *)
Fixpoint rmqueue_loop (fuel : nat) (order mt : nat) (alloc_flags : Z) (z : zone) : option (option Z * zone) :=
  match fuel with
  | O => None
  | S fuel =>
    let first := if (0 <? order)%nat && alloc_flag alloc_flags ALLOC_HARDER then __rmqueue_smallest cfg order MIGRATE_HIGHATOMIC z else None in
    r ← match first with
        | Some (pfn, z) => Some (Some pfn, z)
        | None => __rmqueue cfg order mt alloc_flags z
        end;
    match r with
    | (Some pfn, z) => if check_new_pages z pfn order then rmqueue_loop fuel order mt alloc_flags z else Some (Some pfn, z)
    | (None, z) => Some (None, z)
    end
  end.

(** The path of [rmqueue] that does not go through the per-CPU lists.  Every
    round of the loop takes pages off the lists. *)
Definition rmqueue (order mt : nat) (alloc_flags : Z) (z : zone) : option (option Z * zone) :=
  r ← rmqueue_loop (S (Z.to_nat (free_total z))) order mt alloc_flags z;
  match r with
  | (Some pfn, z) =>
    let z := __mod_zone_freepage_state z (- bsize order) (get_pcppage_migratetype (pg z pfn)) in
    Some (Some pfn, if boosted_watermark z then set_boosted_watermark z false else z)
  | (None, z) => Some (None, z)
  end.

(** The loop of [rmqueue_bulk]: [i] blocks were removed so far and [l] are on
    the caller's list.  [refill_checked] is whether [check_pcp_refill] looks
    at the page. *)
Fixpoint rmqueue_bulk_loop (refill_checked : bool) (count : nat) (i : Z) (l : list Z) (order mt : nat) (alloc_flags : Z) (z : zone) : option (Z * list Z * zone) :=
  match count with
  | O => Some (i, l, z)
  | S count =>
    r ← __rmqueue cfg order mt alloc_flags z;
    match r with
    | (None, z) => Some (i, l, z)
    | (Some pfn, z) =>
      if refill_checked && check_new_page (pg z pfn) then rmqueue_bulk_loop refill_checked count (i + 1) l order mt alloc_flags z
      else
        let z := if is_migrate_cma (get_pcppage_migratetype (pg z pfn)) then set_nr_free_cma_pages z (nr_free_cma_pages z - bsize order) else z in
        rmqueue_bulk_loop refill_checked count (i + 1) (l ++ [pfn]) order mt alloc_flags z
    end
  end.

Definition rmqueue_bulk (refill_checked : bool) (order count mt : nat) (alloc_flags : Z) (l : list Z) (z : zone) : option (list Z * zone) :=
  r ← rmqueue_bulk_loop refill_checked count 0 l order mt alloc_flags z;
  let '(i, l, z) := r in Some (l, set_nr_free_pages z (nr_free_pages z - Z.shiftl i (Z.of_nat order))).

Definition free_one_page (pfn : Z) (order mt : nat) (to_tail pick_tail : bool) (z : zone) : option zone :=
  let mt := if has_isolate_pageblock z || is_migrate_isolate mt then get_pageblock_migratetype cfg z pfn else mt in
  __free_one_page cfg pfn order mt to_tail pick_tail z.

(** The last loop of [free_pcppages_bulk], over the pages taken off the
    per-CPU lists, each with its random bit. *)
Fixpoint free_pcppages (isolated_pageblocks : bool) (pages : list (Z * bool)) (z : zone) : option zone :=
  match pages with
  | [] => Some z
  | (pfn, pick_tail) :: pages =>
    let mt := get_pcppage_migratetype (pg z pfn) in
    let mt := if isolated_pageblocks then get_pageblock_migratetype cfg z pfn else mt in
    z ← __free_one_page cfg pfn 0 mt false pick_tail z;
    free_pcppages isolated_pageblocks pages z
  end.
End Ops.

Section Zone.
Context (cfg : config) (In : Z -> Prop) (zid : Z).
Abbreviation repr := (repr cfg In zid).
Abbreviation blocks_ok := (blocks_ok In).
Abbreviation block_ok := (block_ok In).
Abbreviation same_frame := (same_frame zid).

(** ** Taking frames *)

(** The [n] frames in [P] leave the free and guard blocks, and [u] more pages
    than before are counted as free but on no list. *)
Record shrinks (z : zone) (B : blocks) (P : Z -> Prop) (n u : Z) (z' : zone) (B' : blocks) : Prop := {
  sh_repr : repr z' B';
  sh_ok : blocks_ok B';
  sh_frame : same_frame z z';
  sh_covers q : covers B q <-> covers B' q \/ P q;
  sh_disjoint q : P q -> ~ covers B' q;
  sh_coalesced : coalesced B -> coalesced B';
  sh_count : unlisted z' = unlisted z + u;
  sh_total : free_total z' + n <= free_total z
}.

Lemma shrinks_trans z B P n u z1 B1 P1 n1 u1 z' B' : shrinks z B P n u z1 B1 -> shrinks z1 B1 P1 n1 u1 z' B' ->
  shrinks z B (fun q => P1 q \/ P q) (n + n1) (u + u1) z' B' /\ forall q, P1 q -> ~ P q.
Proof.
  intros [] []; split; [split; trivial|]; try lia.
  - etrans; eassumption.
  - intros q; rewrite sh_covers0, sh_covers1; tauto.
  - intros q [H|H]; [auto|]; intros C; apply (sh_disjoint0 q H), sh_covers1; auto.
  - auto.
  - intros q H H'; apply (sh_disjoint0 q H'), sh_covers1; auto.
Qed.

Lemma shrinks_moves mt z B z1 B1 P n u z' B' : moves cfg In zid mt z B z1 B1 -> shrinks z1 B1 P n u z' B' -> shrinks z B P n u z' B'.
Proof.
  intros (_ & T & S) []; split; trivial.
  - etrans; [exact (sz_frame _ _ _ S)|exact sh_frame0].
  - intros q; rewrite <- sh_covers0; symmetry; exact (retyped_covers _ _ _ q T).
  - intros C; apply sh_coalesced0, (retyped_coalesced _ _ _ T C).
  - rewrite sh_count0, (sz_count _ _ _ S); reflexivity.
  - rewrite <- (sz_total _ _ _ S); exact sh_total0.
Qed.

Lemma shrinks_alloc z B p o mt z' B' : allocates cfg In zid z B p o mt z' B' -> block_ok p o /\ shrinks z B (in_block p o) (bsize o) (bsize o) z' B'.
Proof. intros [R W Hp F C K U T S]; split; [exact Hp|split; trivial; intros q; symmetry; apply C]. Qed.

Lemma shrinks_none z B z' B' mt : (mt < MIGRATE_TYPES)%nat -> blocks_ok B -> moves cfg In zid mt z B z' B' -> shrinks z B (fun _ => False) 0 0 z' B'.
Proof.
  intros Hmt W M; apply (shrinks_moves mt z B z' B'); [exact M|]; destruct M as (R & T & _); split; trivial; try lia; try tauto.
  - exact (retyped_ok _ _ _ _ Hmt T W).
  - reflexivity.
Qed.

(** ** Allocation *)

Section Alloc.
Context (order mt : nat) (flags : Z).
Context (Hord : (order < MAX_ORDER)%nat) (Hmt : (mt < MIGRATE_TYPES)%nat).

Lemma rmqueue_shrinks z B : blocks_ok B -> repr z B -> span_ok In zid z -> exists r z' B', __rmqueue cfg order mt flags z = Some (r, z') /\
  match r with
  | Some p => block_ok p order /\ shrinks z B (in_block p order) (bsize order) (bsize order) z' B'
  | None => shrinks z B (fun _ => False) 0 0 z' B' /\ exhausted cfg order mt flags z'
  end.
Proof.
  intros W R SP; destruct (rmqueue_ok cfg In zid order mt flags z B Hord Hmt W R SP) as (r & z' & E & H); destruct r as [p|].
  - destruct H as (z1 & B1 & mt' & B' & M & A); destruct (shrinks_alloc _ _ _ _ _ _ _ A) as [Hp S].
    exists (Some p), z', B'; split; [exact E|split; [exact Hp|exact (shrinks_moves _ _ _ _ _ _ _ _ _ _ M S)]].
  - destruct H as (B1 & M & H); exists None, z', B1; split; [exact E|split; [exact (shrinks_none _ _ _ _ _ Hmt W M)|exact H]].
Qed.

Lemma free_total_nonneg z B : repr z B -> 0 <= free_total z.
Proof.
  intros R; unfold free_total; pose proof (rp_lists _ _ _ _ _ R) as L.
  assert (N : forall o, (o < length (areas z))%nat -> 0 <= nr_free (areas z !!! o)).
  { intros o Ho; rewrite (lr_count _ _ L) by (rewrite <- (lr_orders _ _ L); exact Ho); lia. }
  revert N; generalize (areas z) as A, 0%nat as k; induction A as [|a A IH]; intros k N; cbn; [lia|].
  pose proof (N 0%nat ltac:(cbn; lia)) as N0; cbn in N0; pose proof (IH (S k) (fun o Ho => N (S o) ltac:(cbn; lia))); pose proof (bsize_pos k); nia.
Qed.

(** Frames of blocks that were dropped for a bad page are in [D]; [c] pages are
    already subtracted from the counter. *)
Definition rmqueue_outcome (c : Z) (z : zone) (B : blocks) (r : option Z) (z' : zone) : Prop :=
  exists B' D d, 0 <= d /\ ((forall q, bad (pg z q) = false) -> d = 0 /\ forall q, ~ D q) /\
    match r with
    | Some p => block_ok p order /\ check_new_pages z' p order = false /\ (forall q, in_block p order q -> ~ D q) /\
        shrinks z B (fun q => in_block p order q \/ D q) (bsize order + d) (bsize order + d - c) z' B'
    | None => shrinks z B D d d z' B' /\ exhausted cfg order mt flags z'
    end.

Lemma check_bad z p : check_new_pages z p order = true -> ~ forall q, bad (pg z q) = false.
Proof.
  intros H N; unfold check_new_pages, check_new_page in H; apply existsb_exists in H as (i & _ & H); rewrite N in H; discriminate.
Qed.

Lemma frame_bad z z' : same_frame z z' -> (forall q, bad (pg z q) = false) -> forall q, bad (pg z' q) = false.
Proof. intros S N q; pose proof (sf_page _ _ _ S q) as E; unfold ident in E; injection E as _ _ ->; apply N. Qed.

Lemma outcome_step z B p z1 B1 r z' : shrinks z B (in_block p order) (bsize order) (bsize order) z1 B1 -> check_new_pages z1 p order = true ->
  rmqueue_outcome 0 z1 B1 r z' -> rmqueue_outcome 0 z B r z'.
Proof.
  intros S Bad (B' & D & d & Hd & _ & H); exists B', (fun q => D q \/ in_block p order q), (bsize order + d); pose proof (bsize_pos order).
  split; [lia|split].
  { intros N; destruct (check_bad _ _ Bad); apply (frame_bad z); [apply (sh_frame _ _ _ _ _ _ _ S)|exact N]. }
  destruct r as [p'|].
  - destruct H as (Hp & Ck & Dj & S'); split; [exact Hp|split; [exact Ck|]]; destruct (shrinks_trans _ _ _ _ _ _ _ _ _ _ _ _ S S') as [S2 D2]; split.
    + intros q I [J|J]; [exact (Dj q I J)|exact (D2 q (or_introl I) J)].
    + destruct S2; split; trivial; try lia; [intros q; rewrite sh_covers0; tauto|intros q Hq; apply sh_disjoint0; tauto].
  - destruct H as [S' Ex]; split; [|exact Ex]; exact (proj1 (shrinks_trans _ _ _ _ _ _ _ _ _ _ _ _ S S')).
Qed.

Lemma rmqueue_loop_ok : forall fuel z B, blocks_ok B -> repr z B -> span_ok In zid z -> free_total z < Z.of_nat fuel ->
  exists r z', rmqueue_loop cfg fuel order mt flags z = Some (r, z') /\ rmqueue_outcome 0 z B r z'.
Proof.
  induction fuel as [|fuel IH]; intros z B W R SP Hf; [pose proof (free_total_nonneg _ _ R); lia|]; cbn [rmqueue_loop].
  assert (Next : forall p z1 B1, block_ok p order -> shrinks z B (in_block p order) (bsize order) (bsize order) z1 B1 -> exists r z',
    (if check_new_pages z1 p order then rmqueue_loop cfg fuel order mt flags z1 else Some (Some p, z1)) = Some (r, z') /\ rmqueue_outcome 0 z B r z').
  { intros p z1 B1 Hp S; destruct (check_new_pages z1 p order) eqn:Ck.
    - destruct (IH z1 B1 (sh_ok _ _ _ _ _ _ _ S) (sh_repr _ _ _ _ _ _ _ S)) as (r & z' & E & O).
      { exact (span_frame _ _ _ _ (sh_frame _ _ _ _ _ _ _ S) SP). }
      { pose proof (sh_total _ _ _ _ _ _ _ S); pose proof (bsize_pos order); lia. }
      exists r, z'; split; [exact E|exact (outcome_step _ _ _ _ _ _ _ S Ck O)].
    - exists (Some p), z1; split; [reflexivity|]; exists B1, (fun _ => False), 0; split; [lia|split; [intros _; split; [reflexivity|tauto]|]].
      split; [exact Hp|split; [exact Ck|split; [tauto|]]]; destruct S; split; trivial; try lia; [intros q; rewrite sh_covers0; tauto|intros q [I|[]]; auto]. }
  set (first := if _ && _ then _ else None).
  assert (QF : match first with Some (p, z') => exists B', allocates cfg In zid z B p order MIGRATE_HIGHATOMIC z' B' | None => True end).
  { unfold first; destruct (_ && _); [|exact I].
    pose proof (rmqueue_orders_ok cfg In zid MIGRATE_HIGHATOMIC ltac:(lia) (MAX_ORDER - order) order order z B (le_n _) ltac:(lia) W R) as Q'.
    unfold __rmqueue_smallest; destruct (rmqueue_orders cfg _ order order MIGRATE_HIGHATOMIC z) as [[p z']|]; [apply Q'|exact I]. }
  destruct first as [[p z1]|]; cbn [mbind option_bind].
  - destruct QF as [B1 A]; destruct (shrinks_alloc _ _ _ _ _ _ _ A) as [Hp S]; exact (Next p z1 B1 Hp S).
  - destruct (rmqueue_shrinks z B W R SP) as (r & z1 & B1 & -> & H); cbn [mbind option_bind]; destruct r as [p|]; [exact (Next p z1 B1 (proj1 H) (proj2 H))|].
    exists None, z1; split; [reflexivity|]; exists B1, (fun _ => False), 0; split; [lia|split; [intros _; split; [reflexivity|tauto]|exact H]].
Qed.

Lemma rmqueue_zone_ok z B : blocks_ok B -> repr z B -> span_ok In zid z ->
  exists r z', rmqueue cfg order mt flags z = Some (r, z') /\ rmqueue_outcome (bsize order) z B r z'.
Proof.
  intros W R SP; unfold rmqueue; destruct (rmqueue_loop_ok (S (Z.to_nat (free_total z))) z B W R SP) as (r & z1 & -> & B' & D & d & Hd & N & H).
  { pose proof (free_total_nonneg _ _ R); lia. }
  cbn [mbind option_bind]; destruct r as [p|]; [|exists None, z1; split; [reflexivity|]; exists B', D, d; auto].
  set (z2 := __mod_zone_freepage_state z1 _ _); exists (Some p); eexists; split; [reflexivity|]; exists B', D, d; split; [exact Hd|split; [exact N|]].
  set (z3 := if boosted_watermark z2 then set_boosted_watermark z2 false else z2); destruct H as (Hp & Ck & Dj & [R1 W1 F1 C1 D1 K1 U1 T1]).
  assert (E : areas z3 = areas z1 /\ mem_map z3 = mem_map z1 /\ unlisted z3 = unlisted z1 - bsize order /\ same_frame z1 z3).
  { assert (E2 : areas z2 = areas z1 /\ mem_map z2 = mem_map z1 /\ unlisted z2 = unlisted z1 - bsize order /\ same_frame z1 z2).
    { unfold z2; rewrite mod_state_areas, mod_state_map, mod_state_count; split; [reflexivity|split; [reflexivity|split; [lia|apply frame_mod; reflexivity]]]. }
    unfold z3; destruct (boosted_watermark z2); [|exact E2]; destruct E2 as (E1 & E2 & E3 & E4); split; [exact E1|split; [exact E2|split; [exact E3|]]].
    etrans; [exact E4|apply frame_ext; reflexivity]. }
  destruct E as (E1 & E2 & E3 & E4); clearbody z3; split; [exact Hp|split; [|split; [exact Dj|]]].
  { unfold check_new_pages, pg in *; rewrite E2; exact Ck. }
  split; trivial; [exact (repr_ext _ _ _ z1 z3 B' (eq_sym E1) (eq_sym E2) R1)|etrans; eassumption|lia|unfold free_total in *; rewrite E1; lia].
Qed.
End Alloc.

(** ** Who holds what *)

(** A block map of allocated blocks, and that it shares no frame with the free
    ones. *)
Definition apart (B A : blocks) : Prop := forall q, covers B q -> ~ covers A q.

Definition hold (order : nat) (l : list Z) (A : blocks) : blocks := foldl (fun A p => <[p := (order, None)]> A) A l.

Lemma hold_one z B P n u z' B' A p o : shrinks z B P n u z' B' -> (forall q, in_block p o q -> P q) -> block_ok p o -> blocks_ok A -> apart B A ->
  blocks_ok (<[p := (o, None)]> A) /\ apart B' (<[p := (o, None)]> A) /\ A !! p = None.
Proof.
  intros S HP Hp W X.
  assert (F : fresh A p o) by (intros q Hq C; refine (X q _ C); apply (sh_covers _ _ _ _ _ _ _ S); right; auto).
  pose proof (fresh_none _ _ _ F) as N; split; [apply insert_ok; trivial|split; [|exact N]].
  intros q C C'; apply covers_insert in C' as [C'|C']; trivial; [|exact (sh_disjoint _ _ _ _ _ _ _ S q (HP q C') C)].
  refine (X q _ C'); apply (sh_covers _ _ _ _ _ _ _ S); left; exact C.
Qed.

Lemma hold_none z B P n u z' B' A : shrinks z B P n u z' B' -> apart B A -> apart B' A.
Proof. intros S X q C; apply X, (sh_covers _ _ _ _ _ _ _ S); left; exact C. Qed.

Lemma hold_lookup order l : forall A p, is_Some (A !! p) -> is_Some (hold order l A !! p).
Proof.
  induction l as [|p' l IH]; intros A p H; cbn; [exact H|]; apply IH; destruct (decide (p' = p)) as [<-|N].
  - rewrite lookup_insert_eq; eauto.
  - rewrite lookup_insert_ne by exact N; exact H.
Qed.

Section Bulk.
Context (order mt : nat) (flags : Z) (checked : bool).
Context (Hord : (order < MAX_ORDER)%nat) (Hmt : (mt < MIGRATE_TYPES)%nat).

Record bulk_result (z : zone) (A : blocks) (count : nat) (u : Z) (new : list Z) (z' : zone) (B' : blocks) : Prop := {
  bk_repr : repr z' B';
  bk_ok : blocks_ok B';
  bk_frame : same_frame z z';
  bk_held : blocks_ok (hold order new A);
  bk_apart : apart B' (hold order new A);
  bk_nodup : NoDup new;
  bk_new p : p ∈ new -> A !! p = None;
  bk_length : (length new <= count)%nat;
  bk_count : unlisted z' = unlisted z + u
}.

Lemma bulk_loop_ok : forall count i l z B A, blocks_ok B -> repr z B -> span_ok In zid z -> blocks_ok A -> apart B A ->
  exists i' new z' B', rmqueue_bulk_loop cfg checked count i l order mt flags z = Some (i', l ++ new, z') /\
    bulk_result z A count ((i' - i) * bsize order) new z' B'.
Proof.
  induction count as [|count IH]; intros i l z B A W R SP WA X; cbn [rmqueue_bulk_loop].
  { exists i, [], z, B; rewrite app_nil_r; split; [reflexivity|split; trivial; [reflexivity|constructor|intros p Hp; apply elem_of_nil in Hp as []|lia]]. }
  destruct (rmqueue_shrinks order mt flags Hord Hmt z B W R SP) as (r & z1 & B1 & -> & H); cbn [mbind option_bind]; destruct r as [p|]; cycle 1.
  { destruct H as [S _]; exists i, [], z1, B1; rewrite app_nil_r; split; [reflexivity|]; pose proof (hold_none _ _ _ _ _ _ _ _ S X); destruct S.
    split; trivial; [constructor|intros p Hp; apply elem_of_nil in Hp as []|cbn; lia|lia]. }
  destruct H as [Hp S]; destruct (hold_one _ _ _ _ _ _ _ A p order S (fun q Hq => Hq) Hp WA X) as (WA1 & X1 & N1); pose proof (hold_none _ _ _ _ _ _ _ _ S X) as X0.
  pose proof (span_frame _ _ _ _ (sh_frame _ _ _ _ _ _ _ S) SP) as SP1; destruct S as [R1 W1 F1 _ _ _ U1 _].
  destruct (checked && check_new_page (pg z1 p)).
  { destruct (IH (i + 1) l z1 B1 A W1 R1 SP1 WA X0) as (i' & new & z' & B' & E & []); exists i', new, z', B'; split; [exact E|].
    split; trivial; [etrans; eassumption|lia|lia]. }
  set (z2 := if is_migrate_cma _ then _ else z1).
  assert (E2 : areas z2 = areas z1 /\ mem_map z2 = mem_map z1 /\ unlisted z2 = unlisted z1 /\ same_frame z1 z2).
  { unfold z2; destruct (is_migrate_cma _); (split; [reflexivity|split; [reflexivity|split; [reflexivity|apply frame_ext; reflexivity]]]). }
  destruct E2 as (E1 & E2 & E3 & E4); clearbody z2.
  destruct (IH (i + 1) (l ++ [p]) z2 B1 _ W1 (repr_ext _ _ _ z1 z2 B1 (eq_sym E1) (eq_sym E2) R1) (span_frame _ _ _ _ E4 SP1) WA1 X1) as (i' & new & z' & B' & E & []).
  exists i', (p :: new), z', B'; rewrite <- app_assoc in E; split; [exact E|split; trivial].
  - etrans; [exact F1|etrans; eassumption].
  - constructor; trivial; intros Hin; specialize (bk_new0 p Hin); rewrite lookup_insert_eq in bk_new0; discriminate.
  - intros q Hq; apply elem_of_cons in Hq as [->|Hq]; [exact N1|]; specialize (bk_new0 q Hq); apply lookup_insert_None in bk_new0; tauto.
  - cbn; lia.
  - lia.
Qed.

Lemma bulk_ok count l z B A : blocks_ok B -> repr z B -> span_ok In zid z -> blocks_ok A -> apart B A ->
  exists new z' B', rmqueue_bulk cfg checked order count mt flags l z = Some (l ++ new, z') /\ bulk_result z A count 0 new z' B'.
Proof.
  intros W R SP WA X; unfold rmqueue_bulk; destruct (bulk_loop_ok count 0 l z B A W R SP WA X) as (i & new & z1 & B1 & -> & []); cbn [mbind option_bind].
  exists new; eexists _, B1; split; [reflexivity|split; trivial].
  - apply (repr_ext _ _ _ z1); trivial.
  - etrans; [exact bk_frame0|apply frame_ext; reflexivity].
  - rewrite Z.shiftl_mul_pow2 by lia; rewrite <- bsize_pow; revert bk_count0; unfold unlisted, free_total; cbn; lia.
Qed.
End Bulk.

(** ** Freeing *)

Definition zone_types (z : zone) : Prop := forall b, (pageblock_mt z !!! b < MIGRATE_TYPES)%nat.

(** The blocks held once a compaction was given one. *)
Definition captured (z z' : zone) (A : blocks) : blocks :=
  match capc z, capc z' with
  | Some (mk_capc o None), Some (mk_capc _ (Some p)) => <[p := (o, None)]> A
  | _, _ => A
  end.

(** The state of the zone and of the holders. *)
Record zone_inv (z : zone) (A : blocks) : Prop := {
  zi_blocks : exists B, repr z B /\ blocks_ok B /\ apart B A;
  zi_held : blocks_ok A;
  zi_span : span_ok In zid z;
  zi_types : zone_types z
}.

Lemma inv_frame z z' A B' : span_ok In zid z -> zone_types z -> same_frame z z' -> repr z' B' -> blocks_ok B' -> blocks_ok A -> apart B' A -> zone_inv z' A.
Proof. intros SP T F R W WA X; split; [eauto|exact WA|exact (span_frame _ _ _ _ F SP)|exact (sf_types _ _ _ F T)]. Qed.

Lemma free_core p o mt tail pick z A : zone_inv z A -> A !! p = Some (o, None) -> (mt < MIGRATE_TYPES)%nat ->
  exists z', __free_one_page cfg p o mt tail pick z = Some z' /\ zone_inv z' (captured z z' (delete p A)).
Proof.
  intros [(B & R & W & X) WA SP T] Hp Hmt; pose proof (bs_block _ _ WA _ _ _ Hp) as Ok.
  assert (F : fresh B p o) by (intros q Hq C; apply (X q C); exists p, o, None; auto).
  destruct (free_one_page_ok cfg In zid z B p o mt tail pick W R Ok F Hmt) as (z' & B' & E & R' & W' & _ & _ & H).
  assert (XD : forall q, covers B q \/ in_block p o q -> ~ covers (delete p A) q).
  { intros q H' C; apply (covers_delete _ _ _ _ _ q WA Hp) in C as [C N]; destruct H' as [H'|H']; [exact (X q H' C)|exact (N H')]. }
  exists z'; split; [exact E|]; destruct H as [[S C]|(p' & o' & [C S] & M)].
  - assert (captured z z' (delete p A) = delete p A) as -> by (unfold captured; rewrite (sf_capc _ _ _ S); destruct (capc z) as [[? []]|]; reflexivity).
    apply (inv_frame z z' _ B'); trivial; [apply delete_ok; exact WA|]; intros q Hq; apply XD, C, Hq.
  - assert (captured z z' (delete p A) = <[p' := (o', None)]> (delete p A)) as -> by (unfold captured; rewrite C, (sf_capc _ _ _ S); reflexivity).
    assert (F' : fresh (delete p A) p' o') by (intros q Hq; apply XD, (mg_covers _ _ _ _ _ _ _ M); right; exact Hq).
    apply (inv_frame (set_capc z (Some (mk_capc o' (Some p')))) z' _ B'); trivial.
    + apply insert_ok; trivial; [apply delete_ok; exact WA|exact (mg_block _ _ _ _ _ _ _ M)].
    + intros q Hq Hq'; apply covers_insert in Hq' as [Hq'|Hq']; [|exact (mg_fresh _ _ _ _ _ _ _ M q Hq' Hq)|exact (fresh_none _ _ _ F')].
      refine (XD q _ Hq'); apply (mg_covers _ _ _ _ _ _ _ M); left; exact Hq.
Qed.

Lemma free_zone_ok p o mt tail pick z A : zone_inv z A -> A !! p = Some (o, None) -> (mt < MIGRATE_TYPES)%nat ->
  exists z', free_one_page cfg p o mt tail pick z = Some z' /\ zone_inv z' (captured z z' (delete p A)).
Proof.
  intros I Hp Hmt; unfold free_one_page; apply free_core; trivial; destruct (_ || _); [apply (zi_types _ _ I)|exact Hmt].
Qed.

(** ** The system *)

Inductive zone_step : zone * blocks -> zone * blocks -> Prop :=
| st_alloc z A order mt flags p z' : (order < MAX_ORDER)%nat -> (mt < MIGRATE_TYPES)%nat ->
    rmqueue cfg order mt flags z = Some (Some p, z') -> zone_step (z, A) (z', <[p := (order, None)]> A)
| st_alloc_fail z A order mt flags z' : (order < MAX_ORDER)%nat -> (mt < MIGRATE_TYPES)%nat ->
    rmqueue cfg order mt flags z = Some (None, z') -> zone_step (z, A) (z', A)
| st_bulk z A checked order count mt flags l z' : (order < MAX_ORDER)%nat -> (mt < MIGRATE_TYPES)%nat ->
    rmqueue_bulk cfg checked order count mt flags [] z = Some (l, z') -> zone_step (z, A) (z', hold order l A)
| st_free z A p order mt tail pick z' : A !! p = Some (order, None) -> (mt < MIGRATE_TYPES)%nat ->
    free_one_page cfg p order mt tail pick z = Some z' -> zone_step (z, A) (z', captured z z' (delete p A))
| st_drain z A p isolated pick z' : A !! p = Some (0%nat, None) -> (index (pg z p) < MIGRATE_TYPES)%nat ->
    free_pcppages cfg isolated [(p, pick)] z = Some z' -> zone_step (z, A) (z', captured z z' (delete p A))
| st_capture z A c : zone_step (z, A) (set_capc z c, A).

Lemma set_capc_inv z A c : zone_inv z A -> zone_inv (set_capc z c) A.
Proof. intros [(B & R & W & X) WA SP T]; split; trivial; exists B; split; [apply (repr_ext _ _ _ z); trivial|auto]. Qed.

Lemma alloc_inv z A order mt flags : (order < MAX_ORDER)%nat -> (mt < MIGRATE_TYPES)%nat -> zone_inv z A -> exists r z', rmqueue cfg order mt flags z = Some (r, z') /\
  match r with
  | Some p => zone_inv z' (<[p := (order, None)]> A) /\ A !! p = None /\ block_ok p order /\ check_new_pages z' p order = false
  | None => zone_inv z' A /\ exhausted cfg order mt flags z'
  end.
Proof.
  intros Ho Hmt [(B & R & W & X) WA SP T]; destruct (rmqueue_zone_ok order mt flags Ho Hmt z B W R SP) as (r & z' & E & B' & D & d & _ & _ & H).
  exists r, z'; split; [exact E|]; destruct r as [p|].
  - destruct H as (Hp & Ck & Dj & S); destruct (hold_one _ _ _ _ _ _ _ A p order S (fun q Hq => or_introl Hq) Hp WA X) as (WA1 & X1 & N1).
    split; [|auto]; exact (inv_frame z z' _ B' SP T (sh_frame _ _ _ _ _ _ _ S) (sh_repr _ _ _ _ _ _ _ S) (sh_ok _ _ _ _ _ _ _ S) WA1 X1).
  - destruct H as [S Ex]; split; [|exact Ex].
    exact (inv_frame z z' _ B' SP T (sh_frame _ _ _ _ _ _ _ S) (sh_repr _ _ _ _ _ _ _ S) (sh_ok _ _ _ _ _ _ _ S) WA (hold_none _ _ _ _ _ _ _ _ S X)).
Qed.

Lemma free_one_pcppage isolated p pick z : free_pcppages cfg isolated [(p, pick)] z =
  __free_one_page cfg p 0 (if isolated then get_pageblock_migratetype cfg z p else get_pcppage_migratetype (pg z p)) false pick z.
Proof. unfold free_pcppages; destruct (__free_one_page _ _ _ _ _ _ _); reflexivity. Qed.

Lemma step_inv s s' : zone_step s s' -> zone_inv s.1 s.2 -> zone_inv s'.1 s'.2.
Proof.
  destruct 1 as [z A order mt flags p z' Ho Hmt E|z A order mt flags z' Ho Hmt E|z A checked order count mt flags l z' Ho Hmt E
    |z A p order mt tail pick z' Hp Hmt E|z A p isolated pick z' Hp Hi E|z A c]; cbn [fst snd]; intros I.
  - destruct (alloc_inv z A order mt flags Ho Hmt I) as (r & z2 & E2 & H); rewrite E in E2; injection E2 as <- <-; apply H.
  - destruct (alloc_inv z A order mt flags Ho Hmt I) as (r & z2 & E2 & H); rewrite E in E2; injection E2 as <- <-; apply H.
  - destruct I as [(B & R & W & X) WA SP T]; destruct (bulk_ok order mt flags checked Ho Hmt count [] z B A W R SP WA X) as (new & z2 & B' & E2 & []).
    rewrite E in E2; injection E2 as -> <-; apply (inv_frame z z' _ B'); trivial.
  - destruct (free_zone_ok p order mt tail pick z A I Hp Hmt) as (z2 & E2 & H); rewrite E in E2; injection E2 as <-; exact H.
  - rewrite free_one_pcppage in E; set (mt := if isolated then _ else _) in E.
    assert (Hmt : (mt < MIGRATE_TYPES)%nat) by (unfold mt; destruct isolated; [apply (zi_types _ _ I)|exact Hi]).
    destruct (free_core p 0 mt false pick z A I Hp Hmt) as (z2 & E2 & H); rewrite E2 in E; injection E as <-; exact H.
  - apply set_capc_inv, I.
Qed.

(** Boot: no frame is free, all are held. *)
Definition initial (s : zone * blocks) : Prop := repr s.1 ∅ /\ blocks_ok s.2 /\ span_ok In zid s.1 /\ zone_types s.1.

Definition reachable (s : zone * blocks) : Prop := exists s0, initial s0 /\ rtc zone_step s0 s.

Lemma covers_empty q : ~ covers ∅ q.
Proof. intros (p & o & k & H & _); rewrite lookup_empty in H; discriminate. Qed.

Lemma empty_ok : blocks_ok ∅.
Proof. split; intros *; rewrite lookup_empty; discriminate. Qed.

Lemma reachable_inv s : reachable s -> zone_inv s.1 s.2.
Proof.
  intros (s0 & (R & WA & SP & T) & H); assert (I : zone_inv s0.1 s0.2).
  { split; trivial; exists ∅; split; [exact R|split; [apply empty_ok|intros q C; destruct (covers_empty q C)]]. }
  clear R WA SP T; induction H as [|s1 s2 s3 H _ IH]; [exact I|]; apply IH, (step_inv _ _ H), I.
Qed.
End Zone.
