(* ===== verification/BuddySamples.v ===== *)
(** Concrete zones of the buddy allocator, with checkers that decide whether a
    zone represents a block map. *)
From Stdlib Require Import ZArith Lia Bool.
From stdpp Require Import base list gmap fin_maps.
From S2P Require Import Prelude Lists Buddy BuddyBlocks BuddyRepr BuddyFallback BuddySingle BuddyZone.

Local Open Scope Z_scope.

Section Check.
Context (cfg : config) (lo hi zid : Z).

(** The frames from [lo] up to [hi]. *)
Definition frames (q : Z) : Prop := lo <= q < hi.

#[global] Instance page_state_dec p b : Decision (page_state p b).
Proof. destruct b as [[o [mt|]]|]; cbn; apply _. Defined.

Definition pages_check (m : gmap Z page) (B : blocks) : Prop :=
  Forall (fun q => is_Some (m !! q) /\ zone_id (m !!! q) = zid) (seqZ lo (hi - lo)) /\ zid <> -1 /\
  map_Forall (fun q p => zone_id p = zid -> page_state p (B !! q)) m.

#[global] Instance pages_check_dec m B : Decision (pages_check m B).
Proof. unfold pages_check; apply _. Defined.

Definition area_check (A : list free_area) (B : blocks) (o : nat) : Prop :=
  length (free_list (A !!! o)) = MIGRATE_TYPES /\ NoDup (mjoin (free_list (A !!! o))) /\
  nr_free (A !!! o) = Z.of_nat (length (mjoin (free_list (A !!! o)))) /\
  Forall (fun mt => Forall (fun p => B !! p = Some (o, Some mt)) (free_list (A !!! o) !!! mt)) (seq 0 MIGRATE_TYPES).

#[global] Instance area_check_dec A B o : Decision (area_check A B o).
Proof. unfold area_check; apply _. Defined.

Definition listed (A : list free_area) (p : Z) (b : nat * option nat) : Prop :=
  match b with (o, Some mt) => p ∈ free_list (A !!! o) !!! mt | (_, None) => debug_guardpage_enabled cfg = true end.

#[global] Instance listed_dec A p b : Decision (listed A p b).
Proof. destruct b as [o [mt|]]; cbn; apply _. Defined.

Definition lists_check (A : list free_area) (B : blocks) : Prop :=
  length A = MAX_ORDER /\ Forall (area_check A B) (seq 0 MAX_ORDER) /\ map_Forall (listed A) B.

#[global] Instance lists_check_dec A B : Decision (lists_check A B).
Proof. unfold lists_check; apply _. Defined.

Lemma Forall_seq (P : nat -> Prop) n k : Forall P (seq 0 n) -> (k < n)%nat -> P k.
Proof. intros H Hk; rewrite Forall_forall in H; apply H, elem_of_seq; lia. Qed.

Lemma repr_check z B : pages_check (mem_map z) B -> lists_check (areas z) B -> repr cfg frames zid z B.
Proof.
  intros (H1 & HZ & H2) (L1 & L2 & L3); split; [split| |].
  - intros q Hq; rewrite Forall_forall in H1; apply H1, elem_of_seqZ; unfold frames in Hq; lia.
  - intros q E; rewrite lookup_total_alt in *; destruct (mem_map z !! q) as [p|] eqn:Eq; [apply (H2 q p Eq E)|cbn in E; congruence].
  - split; trivial; intros o.
    + intros Ho; apply (Forall_seq _ _ _ L2 Ho).
    + intros mt p Ho Hmt; destruct (Forall_seq _ _ _ L2 Ho) as (_ & _ & _ & F); split.
      * intros Hp; pose proof (Forall_seq _ _ _ F Hmt) as G; rewrite Forall_forall in G; apply G, Hp.
      * intros Hp; exact (L3 p (o, Some mt) Hp).
    + intros Ho; apply (Forall_seq _ _ _ L2 Ho).
    + intros Ho; apply (Forall_seq _ _ _ L2 Ho).
  - intros p o Hp; exact (L3 p (o, None) Hp).
Qed.

Definition block_check (p : Z) (b : nat * option nat) : Prop :=
  (b.1 < MAX_ORDER)%nat /\ 0 <= p /\ p mod bsize b.1 = 0 /\ lo <= p /\ p + bsize b.1 <= hi /\ match b.2 with Some mt => (mt < MIGRATE_TYPES)%nat | None => True end.

#[global] Instance block_check_dec p b : Decision (block_check p b).
Proof. unfold block_check; destruct b as [o [mt|]]; cbn; apply _. Defined.

Definition blocks_check (B : blocks) : Prop := map_Forall block_check B /\
  map_Forall (fun p b => map_Forall (fun p' b' => p = p' \/ p + bsize b.1 <= p' \/ p' + bsize b'.1 <= p) B) B.

#[global] Instance blocks_check_dec B : Decision (blocks_check B).
Proof. unfold blocks_check; apply _. Defined.

Lemma blocks_ok_check B : blocks_check B -> blocks_ok frames B.
Proof.
  intros [H1 H2]; split.
  - intros p o k H; destruct (H1 p _ H) as (Ho & Hp & M & L1 & L2 & _); cbn [fst snd] in *; split; [exact Ho|split; [exact Hp|split]].
    + apply Z.mod_divide; [pose proof (bsize_pos o); lia|exact M].
    + intros q Hq; unfold frames, in_block in *; lia.
  - intros p o mt H; apply (H1 p _ H).
  - intros p o k p' o' k' q H H' I I'; specialize (H2 p _ H p' _ H'); cbn in H2; unfold in_block in *; destruct H2 as [|[|]]; [assumption|lia|lia].
Qed.
End Check.

(** ** Zones *)

Definition blank : page := mk_page false false 0 0 0 false false false 0.

(** Sixteen frames in two pageblocks, none of them free. *)
Definition zone0 : zone :=
  mk_zone (replicate MAX_ORDER (mk_area (replicate MIGRATE_TYPES []) 0)) (list_to_map ((fun q => (q, blank)) <$> seqZ 0 16))
    {[ 0 := MIGRATE_MOVABLE; 1 := MIGRATE_UNMOVABLE ]} 0 16 16 0 0 0 8 0 false None.

Definition cfg0 : config := mk_config 3 false 0 false false 15000.

(** With debug_guardpage_minorder=2. *)
Definition cfg_guard : config := mk_config 3 false 2 false false 15000.

Definition run (z : zone) (l : list (zone -> option zone)) : zone := default z (foldl (fun z f => z ≫= f) (Some z) l).

(** The first eight frames are free and movable, the last four free and
    unmovable. *)
Definition zone1 : zone := run zone0 [free_one_page cfg0 0 3 MIGRATE_MOVABLE false false; free_one_page cfg0 12 2 MIGRATE_UNMOVABLE false false].

Definition blocks1 : blocks := {[ 0 := (3%nat, Some MIGRATE_MOVABLE); 12 := (2%nat, Some MIGRATE_UNMOVABLE) ]}.

Definition held1 : blocks := {[ 8 := (2%nat, None) ]}.

Lemma zone1_repr : repr cfg0 (frames 0 16) 0 zone1 blocks1.
Proof. apply repr_check; [checked|checked]. Qed.

Lemma blocks1_ok : blocks_ok (frames 0 16) blocks1.
Proof. apply blocks_ok_check; checked. Qed.
