(* ===== verification/BuddyTheorems.v ===== *)
(** The properties of the buddy allocator, with witnesses on the sample zones. *)
From Stdlib Require Import ZArith Lia Bool.
From stdpp Require Import base list gmap relations.
From S2P Require Import Prelude Lists Buddy BuddyBlocks BuddyRepr BuddyFree BuddyAlloc BuddyFallback BuddySingle BuddyZone BuddySamples.

Local Open Scope Z_scope.

(** ** Sample facts *)

Lemma block_of lo hi p o : block_check lo hi p (o, None) -> block_ok (frames lo hi) p o.
Proof.
  intros (Ho & Hp & M & L1 & L2 & _); cbn [fst] in *; split; [exact Ho|split; [exact Hp|split]].
  - apply Z.mod_divide; [pose proof (bsize_pos o); lia|exact M].
  - intros q Hq; unfold frames, in_block in *; lia.
Qed.

Lemma fresh_of B p o : map_Forall (fun p' b => p + bsize o <= p' \/ p' + bsize b.1 <= p) B -> fresh B p o.
Proof. intros H q Hq (p' & o' & k & E & I); specialize (H p' _ E); cbn in H; unfold in_block in *; lia. Qed.

Lemma coalesced_of (B : blocks) :
  map_Forall (fun p b => (b.1 < MAX_ORDER - 1)%nat -> match B !! __find_buddy_pfn p b.1 with Some (o, _) => o <> b.1 | None => True end) B -> coalesced B.
Proof. intros H p o k k' Ho E E'; specialize (H p _ E Ho); cbn in H; rewrite E' in H; contradiction. Qed.

Lemma span_of lo hi z : zone_start_pfn z = lo -> spanned_pages z = hi - lo -> map_Forall (fun _ p => zone_id p = 0) (mem_map z) -> span_ok (frames lo hi) 0 z.
Proof.
  intros E1 E2 H; unfold span_ok, zone_spans_pfn, pg; rewrite E1, E2; split; [intros q Hq; unfold frames in Hq; lia|].
  intros q _ F; rewrite lookup_total_alt in *; destruct (mem_map z !! q) as [p|] eqn:E; [exact (H q p E)|discriminate].
Qed.

Lemma types_of z : map_Forall (fun _ t => t < MIGRATE_TYPES)%nat (pageblock_mt z) -> zone_types z.
Proof. intros H b; rewrite lookup_total_alt; destruct (pageblock_mt z !! b) as [t|] eqn:E; [exact (H b t E)|cbn; lia]. Qed.

Lemma foreign_of lo hi z : map_Forall (fun _ p => zone_id p = 0) (mem_map z) -> foreign_ok (frames lo hi) 0 z.
Proof.
  intros H h q _ N F; unfold pg in *; rewrite lookup_total_alt in *; destruct (mem_map z !! h) as [p|] eqn:E; [elim N; exact (H h p E)|discriminate].
Qed.

Lemma zone1_coalesced : coalesced blocks1.
Proof.
  apply coalesced_of; intros p b E; unfold blocks1 in *; apply lookup_insert_Some in E as [[<- <-]|[_ E]]; [vm_compute; auto|].
  apply lookup_singleton_Some in E as [<- <-]; vm_compute; auto.
Qed.

Lemma zone1_span : span_ok (frames 0 16) 0 zone1.
Proof. apply span_of; [vm_compute; reflexivity|vm_compute; reflexivity|checked]. Qed.

Lemma zone1_foreign : foreign_ok (frames 0 16) 0 zone1.
Proof. apply foreign_of; checked. Qed.

Definition held0 : blocks := {[ 0 := (3%nat, None); 8 := (2%nat, None); 12 := (2%nat, None) ]}.

Lemma zone0_initial : initial cfg0 (frames 0 16) 0 (zone0, held0).
Proof.
  split; [apply repr_check; [checked|checked]|split; [apply blocks_ok_check; checked|split]].
  - apply span_of; [reflexivity|reflexivity|checked].
  - apply types_of; checked.
Qed.

(** Releasing the first eight frames. *)
Lemma zone1_reachable : reachable cfg0 (frames 0 16) 0 (run zone0 [free_one_page cfg0 0 3 MIGRATE_MOVABLE false false], delete 0 held0).
Proof.
  exists (zone0, held0); split; [exact zone0_initial|apply rtc_once].
  apply (st_free cfg0 zone0 held0 0 3 MIGRATE_MOVABLE false false); [reflexivity|lia|vm_compute; reflexivity].
Qed.

(** ** Freeing *)

(** C19: freeing a block always returns, and merges it with its buddies.  The
    new zone represents a block map of aligned and disjoint blocks; either the
    map covers exactly the old free frames and the freed ones, or a waiting
    compaction of the order reached gets the merged block and the map covers
    the rest.  No buddies of a smaller order than [merge_limit] stay unmerged:
    this is MAX_ORDER - 1 without isolated pageblocks, and otherwise at most
    the order of a pageblock.  NR_FREE_PAGES keeps agreeing with the lists, and
    does not change when the block is freed as MIGRATE_ISOLATE. *)
Theorem free_one_page_merges cfg In zid z B p o mt to_tail pick_tail : blocks_ok In B -> repr cfg In zid z B -> block_ok In p o -> fresh B p o ->
  (mt < MIGRATE_TYPES)%nat ->
  exists z' B', __free_one_page cfg p o mt to_tail pick_tail z = Some z' /\ repr cfg In zid z' B' /\ blocks_ok In B' /\
    ((forall q, covers B' q <-> covers B q \/ in_block p o q) \/
     (exists p' o', capc z = Some (mk_capc o' None) /\ capc z' = Some (mk_capc o' (Some p')) /\ (o <= o')%nat /\ block_ok In p' o' /\ fresh B' p' o' /\
        forall q, covers B' q \/ in_block p' o' q <-> covers B q \/ in_block p o q)) /\
    (forall m, (m <= merge_limit cfg z)%nat -> coalesced_below m B -> coalesced_below m B') /\
    if is_migrate_isolate mt then nr_free_pages z' = nr_free_pages z else nr_free_pages z' - free_total z' = nr_free_pages z - free_total z.
Proof.
  intros W R Ok F Hmt; destruct (free_one_page_ok cfg In zid z B p o mt to_tail pick_tail W R Ok F Hmt) as (z' & B' & E & R' & W' & U & K & H).
  exists z', B'; split; [exact E|split; [exact R'|split; [exact W'|split; [|split; [auto|]]]]].
  - destruct H as [[_ H]|(p' & o' & [C F'] & [])]; [left; exact H|right; exists p', o'].
    split; [exact C|split; [exact (sf_capc _ _ _ F')|auto]].
  - destruct (is_migrate_isolate mt) eqn:EI; [exact (isolate_free cfg z p o mt to_tail pick_tail z' EI E)|exact (U eq_refl)].
Qed.

Lemma free_one_page_merges_witness : exists z' B', __free_one_page cfg0 8 2 MIGRATE_MOVABLE false false zone1 = Some z' /\ repr cfg0 (frames 0 16) 0 z' B' /\
  (forall q, covers B' q <-> covers blocks1 q \/ in_block 8 2 q) /\ coalesced B'.
Proof.
  destruct (free_one_page_merges cfg0 (frames 0 16) 0 zone1 blocks1 8 2 MIGRATE_MOVABLE false false blocks1_ok zone1_repr) as (z' & B' & E & R & _ & C & K & _).
  - apply block_of; checked.
  - apply fresh_of; checked.
  - lia.
  - exists z', B'; split; [exact E|split; [exact R|split]].
    + destruct C as [C|(p' & o' & C & _)]; [exact C|vm_compute in C; discriminate].
    + apply K; [vm_compute; lia|exact zone1_coalesced].
Defined.

(** ** Allocation *)

(** C22: [__rmqueue_smallest] fails only when all lists of the type from the
    order on are empty; otherwise it takes the first block of the smallest
    order that has one, returns its first frames as an aligned block of the
    asked order, and all other frames stay free, on lists or as guards. *)
Theorem rmqueue_smallest_takes cfg In zid order mt z B : (order < MAX_ORDER)%nat -> (mt < MIGRATE_TYPES)%nat -> blocks_ok In B -> repr cfg In zid z B ->
  match __rmqueue_smallest cfg order mt z with
  | Some (p, z') => exists c B', (order <= c < MAX_ORDER)%nat /\ B !! p = Some (c, Some mt) /\ head (fl z c mt) = Some p /\
      (forall d, (order <= d < c)%nat -> fl z d mt = []) /\ block_ok In p order /\
      repr cfg In zid z' B' /\ blocks_ok In B' /\ (coalesced B -> coalesced B') /\ fresh B' p order /\
      (forall q, covers B q <-> covers B' q \/ in_block p order q)
  | None => forall c, (order <= c < MAX_ORDER)%nat -> fl z c mt = []
  end.
Proof.
  intros Ho Hmt W R; unfold __rmqueue_smallest; pose proof (rmqueue_orders_ok cfg In zid mt Hmt (MAX_ORDER - order) order order z B (le_n _) ltac:(lia) W R) as H.
  destruct (rmqueue_orders _ _ _ _ _ _) as [[p z']|]; [|intros c Hc; apply H; lia].
  destruct H as ([B' []] & c & Hc & Hh & Hd); exists c, B'; split; [lia|split; [|split; [exact Hh|split; [exact Hd|]]]].
  - apply (lr_elem _ _ (rp_lists _ _ _ _ _ R)); [lia|exact Hmt|]; unfold fl in Hh; destruct (free_list (areas z !!! c) !!! mt) as [|x l]; [discriminate|].
    injection Hh as ->; apply elem_of_cons; auto.
  - do 5 (split; [assumption|]); intros q; symmetry; trivial.
Qed.

Lemma rmqueue_smallest_takes_witness : exists p z' c, __rmqueue_smallest cfg0 1 MIGRATE_MOVABLE zone1 = Some (p, z') /\ blocks1 !! p = Some (c, Some MIGRATE_MOVABLE) /\ block_ok (frames 0 16) p 1.
Proof.
  pose proof (rmqueue_smallest_takes cfg0 (frames 0 16) 0 1 MIGRATE_MOVABLE zone1 blocks1 ltac:(lia) ltac:(lia) blocks1_ok zone1_repr) as H.
  destruct (__rmqueue_smallest cfg0 1 MIGRATE_MOVABLE zone1) as [[p z']|] eqn:E; [|vm_compute in E; discriminate].
  destruct H as (c & B' & _ & H & _ & _ & Ok & _); exists p, z', c; auto.
Defined.

(** C20: [__rmqueue] always returns: every retry follows a fallback that gave at
    least one block the wanted type, so there are no more retries than blocks.
    A page is returned as an aligned block taken out of the free frames; NULL
    is returned only when the lists of the type from the order on are empty,
    with ALLOC_CMA those of MIGRATE_CMA too, and so are, from the lowest order
    the fallback looks at (the order of a pageblock with ALLOC_NOFRAGMENT),
    those of the fallback types. *)
Theorem rmqueue_returns cfg In zid order mt flags z B : (order < MAX_ORDER)%nat -> (mt < MIGRATE_TYPES)%nat -> blocks_ok In B -> repr cfg In zid z B -> span_ok In zid z ->
  exists r z' B', __rmqueue cfg order mt flags z = Some (r, z') /\ repr cfg In zid z' B' /\ blocks_ok In B' /\ (coalesced B -> coalesced B') /\
    match r with
    | Some p => block_ok In p order /\ fresh B' p order /\ forall q, covers B q <-> covers B' q \/ in_block p order q
    | None => (forall q, covers B q <-> covers B' q) /\ (forall c, (order <= c < MAX_ORDER)%nat -> fl z' c mt = []) /\
        (alloc_flag flags ALLOC_CMA = true -> forall c, (order <= c < MAX_ORDER)%nat -> fl z' c MIGRATE_CMA = []) /\
        (forall c fb, ((if alloc_flag flags ALLOC_NOFRAGMENT then pageblock_order cfg else order) <= c < MAX_ORDER)%nat -> fb ∈ fallbacks mt -> fl z' c fb = [])
    end.
Proof.
  intros Ho Hmt W R SP; destruct (rmqueue_shrinks cfg In zid order mt flags Ho Hmt z B W R SP) as (r & z' & B' & E & H); exists r, z', B'.
  destruct r as [p|]; [destruct H as [Hp [R' W' F' C' D' K' _ _]]|destruct H as [[R' W' F' C' D' K' _ _] Ex]]; do 4 (split; [assumption|]).
  - split; [exact Hp|split; [exact D'|exact C']].
  - split; [intros q; rewrite C'; tauto|exact Ex].
Qed.

Lemma rmqueue_returns_witness : exists p z', __rmqueue cfg0 3 MIGRATE_RECLAIMABLE 0 zone1 = Some (Some p, z') /\ block_ok (frames 0 16) p 3.
Proof.
  destruct (rmqueue_returns cfg0 (frames 0 16) 0 3 MIGRATE_RECLAIMABLE 0 zone1 blocks1 ltac:(lia) ltac:(lia) blocks1_ok zone1_repr zone1_span)
    as (r & z' & B' & E & _ & _ & _ & H).
  destruct r as [p|]; [exists p, z'; split; [exact E|apply H]|vm_compute in E; discriminate].
Defined.

(** ** Allocating and freeing *)

Lemma same_blocks In B B' : blocks_ok In B -> coalesced B -> blocks_ok In B' -> coalesced B' -> (forall q, covers B q <-> covers B' q) ->
  forall p o, (exists k, B !! p = Some (o, k)) <-> (exists k, B' !! p = Some (o, k)).
Proof.
  intros W C W' C' H p o; split; intros [k E]; [exact (blocks_unique In B B' W C W' C' H p o k E)|].
  apply (blocks_unique In B' B W' C' W C) with k; [intros q; symmetry; apply H|exact E].
Qed.

(** The counter and the lists of two zones with the same blocks. *)
Lemma same_total cfg In zid z B z' B' : debug_guardpage_enabled cfg = false -> blocks_ok In B -> blocks_ok In B' -> repr cfg In zid z B -> repr cfg In zid z' B' ->
  (forall p o, (exists k, B !! p = Some (o, k)) <-> (exists k, B' !! p = Some (o, k))) -> free_total z = free_total z'.
Proof.
  intros G W W' R R' H; apply total_ext; [rewrite (lr_orders _ _ (rp_lists _ _ _ _ _ R)), (lr_orders _ _ (rp_lists _ _ _ _ _ R')); reflexivity|].
  intros o Ho; rewrite (lr_orders _ _ (rp_lists _ _ _ _ _ R)) in Ho.
  assert (Listed : forall z B p, blocks_ok In B -> repr cfg In zid z B -> p ∈ mjoin (free_list (areas z !!! o)) <-> exists k, B !! p = Some (o, k)).
  { clear -G Ho; intros z B p W R; rewrite (lr_join _ _ o p (rp_lists _ _ _ _ _ R) Ho); split; [intros (mt & _ & E); eauto|intros [[mt|] E]].
    - exists mt; split; [exact (bs_type _ _ W _ _ _ E)|exact E].
    - rewrite (rp_guard _ _ _ _ _ R _ _ E) in G; discriminate. }
  rewrite (lr_count _ _ (rp_lists _ _ _ _ _ R) o Ho), (lr_count _ _ (rp_lists _ _ _ _ _ R') o Ho); f_equal; apply Permutation_length, NoDup_Permutation.
  - exact (lr_nodup _ _ (rp_lists _ _ _ _ _ R) o Ho).
  - exact (lr_nodup _ _ (rp_lists _ _ _ _ _ R') o Ho).
  - intros p; rewrite (Listed z B p W R), (Listed z' B' p W' R'); apply H.
Qed.

(** C21: in a coalesced zone without bad pages, isolated pageblocks and a
    waiting compaction, freeing a block that [rmqueue] just returned, as any
    type but MIGRATE_ISOLATE, restores the division of the free memory into
    blocks, whatever fallback and splitting the allocation did.  NR_FREE_PAGES
    agrees with the lists as before, and without guard pages it is exactly
    what it was. *)
Theorem rmqueue_free_roundtrip cfg In zid order mt flags z B p z1 mt' to_tail pick_tail :
  (order < MAX_ORDER)%nat -> (mt < MIGRATE_TYPES)%nat -> blocks_ok In B -> repr cfg In zid z B -> span_ok In zid z -> coalesced B ->
  (forall q, bad (pg z q) = false) -> nr_isolate_pageblock z = 0 -> capc z = None -> (mt' < MIGRATE_ISOLATE)%nat ->
  rmqueue cfg order mt flags z = Some (Some p, z1) ->
  exists z2 B2, free_one_page cfg p order mt' to_tail pick_tail z1 = Some z2 /\ repr cfg In zid z2 B2 /\ blocks_ok In B2 /\ coalesced B2 /\
    (forall q o, (exists k, B2 !! q = Some (o, k)) <-> (exists k, B !! q = Some (o, k))) /\
    nr_free_pages z2 - free_total z2 = nr_free_pages z - free_total z /\ (debug_guardpage_enabled cfg = false -> nr_free_pages z2 = nr_free_pages z).
Proof.
  intros Ho Hmt W R SP K NB NI NC Hmt' E; destruct (rmqueue_zone_ok cfg In zid order mt flags Ho Hmt z B W R SP) as (r & z1' & E' & B1 & D & d & _ & Hd & H).
  rewrite E in E'; injection E' as <- <-; destruct (Hd NB) as [-> ND]; destruct H as (Hp & _ & _ & [R1 W1 F1 C1 D1 K1 U1 _]).
  pose proof (sf_isolate _ _ _ F1) as I1; pose proof (sf_capc _ _ _ F1) as P1; rewrite NI in I1; rewrite NC in P1.
  unfold free_one_page, has_isolate_pageblock; rewrite I1; replace (is_migrate_isolate mt') with false by (symmetry; apply Nat.eqb_neq; lia); cbn [Z.eqb negb orb].
  assert (F : fresh B1 p order) by (intros q Hq; apply D1; auto).
  destruct (free_one_page_ok cfg In zid z1 B1 p order mt' to_tail pick_tail W1 R1 Hp F ltac:(lia)) as (z2 & B2 & E2 & R2 & W2 & U2 & K2 & H2).
  destruct H2 as [[_ H2]|(p' & o' & [C' _] & _)]; [|congruence].
  assert (KB : coalesced B2) by (apply K2; [exact (K1 K)|unfold merge_limit; rewrite I1; cbn; lia]); exists z2, B2; do 4 (split; [assumption|]).
  assert (Same : forall q o, (exists k, B2 !! q = Some (o, k)) <-> (exists k, B !! q = Some (o, k))).
  { apply (same_blocks In); trivial; intros q; rewrite H2, C1; split; [tauto|]; intros [?|[?|N]]; [auto|auto|destruct (ND q N)]. }
  assert (U : unlisted z2 = unlisted z) by (rewrite U2 by (apply Nat.eqb_neq; lia); lia); unfold unlisted in U.
  split; [exact Same|split; [exact U|]]; intros G; pose proof (same_total cfg In zid z2 B2 z B G W2 W R2 R Same); lia.
Qed.

Lemma zone1_good q : bad (pg zone1 q) = false.
Proof.
  unfold pg; rewrite lookup_total_alt; destruct (mem_map zone1 !! q) as [p|] eqn:E; [|reflexivity].
  assert (H : map_Forall (fun _ p => bad p = false) (mem_map zone1)) by checked; exact (H q p E).
Qed.

Lemma rmqueue_free_roundtrip_witness : exists p z1 z2 B2, rmqueue cfg0 1 MIGRATE_RECLAIMABLE 0 zone1 = Some (Some p, z1) /\
  free_one_page cfg0 p 1 MIGRATE_RECLAIMABLE false false z1 = Some z2 /\ repr cfg0 (frames 0 16) 0 z2 B2 /\
  (forall q o, (exists k, B2 !! q = Some (o, k)) <-> (exists k, blocks1 !! q = Some (o, k))) /\ nr_free_pages z2 = nr_free_pages zone1.
Proof.
  destruct (rmqueue cfg0 1 MIGRATE_RECLAIMABLE 0 zone1) as [[[p|] z1]|] eqn:E; [|vm_compute in E; discriminate|vm_compute in E; discriminate].
  destruct (rmqueue_free_roundtrip cfg0 (frames 0 16) 0 1 MIGRATE_RECLAIMABLE 0 zone1 blocks1 p z1 MIGRATE_RECLAIMABLE false false ltac:(lia) ltac:(lia)
    blocks1_ok zone1_repr zone1_span zone1_coalesced zone1_good) as (z2 & B2 & E2 & R2 & _ & _ & H & _ & N); [vm_compute; reflexivity|vm_compute; reflexivity|lia|exact E|].
  exists p, z1, z2, B2; auto 8.
Defined.

(** C18: in every state the zone reaches from boot by allocating, bulk
    allocating, freeing, draining per-CPU pages and capturing for compaction,
    two held blocks never share a frame and no held frame is free. *)
Theorem held_blocks_apart cfg In zid z A : reachable cfg In zid (z, A) -> foreign_ok In zid z ->
  (forall p o k p' o' k' q, A !! p = Some (o, k) -> A !! p' = Some (o', k') -> in_block p o q -> in_block p' o' q -> p = p') /\
  (forall q, covers A q -> is_free_buddy_page q z = false).
Proof.
  intros H FO; apply reachable_inv in H as [(B & R & W & X) WA SP T]; cbn [fst snd] in *; split; [exact (bs_disjoint _ _ WA)|].
  intros q C; destruct (is_free_buddy_page q z) eqn:E; [exfalso|reflexivity].
  assert (I : In q) by (destruct C as (p & o & k & Hp & J); destruct (bs_block _ _ WA _ _ _ Hp) as (_ & _ & _ & Hin); exact (Hin q J)).
  apply (is_free_ok cfg In zid z B q W R FO I) in E as (p & o & mt & Hp & J); refine (X q _ C); exists p, o, (Some mt); auto.
Qed.

Lemma held_blocks_apart_witness : is_free_buddy_page 9 (run zone0 [free_one_page cfg0 0 3 MIGRATE_MOVABLE false false]) = false.
Proof.
  apply (held_blocks_apart cfg0 (frames 0 16) 0 _ (delete 0 held0)); [exact zone1_reachable|apply foreign_of; checked|].
  exists 8, 2%nat, None; split; [reflexivity|vm_compute; split; [discriminate|reflexivity]].
Defined.

(** C23: in every reachable state [rmqueue] returns.  A returned block is
    aligned, lies in the zone, passed the check of new pages and shares no
    frame with any held block; NULL means that the lists of the type from the
    order on are empty. *)
Theorem rmqueue_progress cfg In zid z A order mt flags : reachable cfg In zid (z, A) -> (order < MAX_ORDER)%nat -> (mt < MIGRATE_TYPES)%nat ->
  exists r z', rmqueue cfg order mt flags z = Some (r, z') /\
    match r with
    | Some p => block_ok In p order /\ check_new_pages z' p order = false /\ fresh A p order
    | None => forall c, (order <= c < MAX_ORDER)%nat -> fl z' c mt = []
    end.
Proof.
  intros H Ho Hmt; apply reachable_inv in H; destruct (alloc_inv cfg In zid z A order mt flags Ho Hmt H) as (r & z' & E & H').
  exists r, z'; split; [exact E|]; destruct r as [p|]; [|apply H'].
  destruct H' as ([_ WA' _ _] & N & Ok & Ck); split; [exact Ok|split; [exact Ck|]]; intros q Hq (p' & o' & k' & E' & I'); cbn [snd] in *.
  assert (p = p') as <-; [|congruence]; eapply (bs_disjoint _ _ WA' p order None p' o' k' q); [apply lookup_insert_eq| |exact Hq|exact I'].
  rewrite lookup_insert_ne; [exact E'|congruence].
Qed.

Lemma rmqueue_progress_witness : exists p z', rmqueue cfg0 2 MIGRATE_UNMOVABLE 0 (run zone0 [free_one_page cfg0 0 3 MIGRATE_MOVABLE false false]) = Some (Some p, z') /\
  fresh (delete 0 held0) p 2.
Proof.
  destruct (rmqueue_progress cfg0 (frames 0 16) 0 _ _ 2 MIGRATE_UNMOVABLE 0 zone1_reachable ltac:(lia) ltac:(lia)) as (r & z' & E & H).
  destruct r as [p|]; [exists p, z'; split; [exact E|apply H]|vm_compute in E; discriminate].
Defined.

(** C24: [rmqueue_bulk] appends to the caller's list different blocks that share
    no frame with each other, with the blocks held before or with the free
    ones, at most as many as asked, and keeps NR_FREE_PAGES exact also when
    bad pages are dropped. *)
Theorem rmqueue_bulk_exact cfg In zid checked order count mt flags l z B A : (order < MAX_ORDER)%nat -> (mt < MIGRATE_TYPES)%nat ->
  blocks_ok In B -> repr cfg In zid z B -> span_ok In zid z -> blocks_ok In A -> apart B A ->
  exists new z' B', rmqueue_bulk cfg checked order count mt flags l z = Some (l ++ new, z') /\ (length new <= count)%nat /\ NoDup new /\
    (forall p, p ∈ new -> A !! p = None) /\ blocks_ok In (hold order new A) /\ repr cfg In zid z' B' /\ blocks_ok In B' /\ apart B' (hold order new A) /\
    nr_free_pages z' - free_total z' = nr_free_pages z - free_total z.
Proof.
  intros Ho Hmt W R SP WA X; destruct (bulk_ok cfg In zid order mt flags checked Ho Hmt count l z B A W R SP WA X) as (new & z' & B' & E & []).
  exists new, z', B'; do 8 (split; [assumption|]); unfold unlisted in *; lia.
Qed.

Lemma rmqueue_bulk_exact_witness : exists new z' B', rmqueue_bulk cfg0 true 0 3 MIGRATE_MOVABLE 0 [] zone1 = Some (new, z') /\ NoDup new /\ apart B' (hold 0 new held1).
Proof.
  destruct (rmqueue_bulk_exact cfg0 (frames 0 16) 0 true 0 3 MIGRATE_MOVABLE 0 [] zone1 blocks1 held1 ltac:(lia) ltac:(lia) blocks1_ok zone1_repr zone1_span)
    as (new & z' & B' & E & _ & N & _ & _ & _ & _ & X & _); [apply blocks_ok_check; checked| |exists new, z', B'; auto].
  intros q (p & o & k & E & I) (p' & o' & k' & E' & I'); unfold held1, blocks1 in *; apply lookup_singleton_Some in E' as [<- [= <- <-]].
  apply lookup_insert_Some in E as [[<- [= <- <-]]|[_ E]]; [|apply lookup_singleton_Some in E as [<- [= <- <-]]];
    unfold in_block in *; change (bsize 2) with 4 in *; change (bsize 3) with 8 in *; lia.
Defined.

(** ** Single frames *)

(** [is_free_buddy_page] holds exactly of the frames in a block on a free
    list, wherever in the block they are. *)
Theorem is_free_buddy_page_exact cfg In zid z B q : blocks_ok In B -> repr cfg In zid z B -> foreign_ok In zid z -> In q ->
  is_free_buddy_page q z = true <-> exists p o mt, B !! p = Some (o, Some mt) /\ in_block p o q.
Proof. apply is_free_ok. Qed.

Lemma is_free_buddy_page_exact_witness : is_free_buddy_page 13 zone1 = true <-> exists p o mt, blocks1 !! p = Some (o, Some mt) /\ in_block p o 13.
Proof. apply (is_free_buddy_page_exact cfg0 (frames 0 16) 0); [exact blocks1_ok|exact zone1_repr|exact zone1_foreign|unfold frames; lia]. Defined.

(** without guard pages [take_page_off_buddy] takes exactly the given frame
    out of the free memory: it returns true when the frame is free, and then
    every other free frame stays free and coalesced; when the frame is not
    free it returns false and changes nothing. *)
Theorem take_page_off_buddy_exact cfg In zid z B q : debug_guardpage_enabled cfg = false -> blocks_ok In B -> repr cfg In zid z B -> foreign_ok In zid z ->
  types_ok cfg z -> counts_ok z B -> In q ->
  (free_in B q /\ exists z', take_page_off_buddy cfg q z = (true, z') /\ exists B', repr cfg In zid z' B' /\ blocks_ok In B' /\
     (forall x, covers B' x <-> covers B x /\ x <> q) /\ (coalesced B -> coalesced B')) \/
  (~ free_in B q /\ take_page_off_buddy cfg q z = (false, z)).
Proof.
  intros G W R FO TO CO I; pose proof (is_free_ok cfg In zid z B q W R FO I) as D; destruct (is_free_buddy_page q z) eqn:E; [left|right].
  - pose proof (proj1 D eq_refl) as F; split; [exact F|]; destruct F as (p & o & mt & H & J).
    destruct (bs_block _ _ W _ _ _ H) as (Ho & _); destruct (take_off_from_ok cfg In zid z B q p o mt G W R FO TO CO H J MAX_ORDER 0 ltac:(lia)) as (z' & E' & B' & T).
    exists z'; split; [exact E'|]; exists B'; destruct T as (T1 & T2 & T3 & T4 & _); auto.
  - assert (N : ~ free_in B q) by (intros F; assert (false = true) by (apply D, F); discriminate); split; [exact N|].
    apply take_off_none, E.
Qed.

Lemma take_page_off_buddy_exact_witness : exists z' B', take_page_off_buddy cfg0 5 zone1 = (true, z') /\ repr cfg0 (frames 0 16) 0 z' B' /\
  forall x, covers B' x <-> covers blocks1 x /\ x <> 5.
Proof.
  destruct (take_page_off_buddy_exact cfg0 (frames 0 16) 0 zone1 blocks1 5 eq_refl blocks1_ok zone1_repr zone1_foreign) as [(F & z' & E & B' & R & _ & C & _)|(N & _)].
  - intros q; apply (types_of zone1); checked.
  - intros q _; unfold pg; rewrite lookup_total_alt; destruct (mem_map zone1 !! q) as [p|] eqn:E; [|cbn; lia].
    assert (H : map_Forall (fun _ p => page_count p <= 0) (mem_map zone1)) by checked; exact (H q p E).
  - unfold frames; lia.
  - exists z', B'; auto.
  - exfalso; apply N; exists 0, 3%nat, MIGRATE_MOVABLE; split; [reflexivity|vm_compute; split; [discriminate|reflexivity]].
Defined.

(** ** Defects *)

(** Four free frames, the first four of the zone. *)
Definition zone_g : zone := run zone0 [free_one_page cfg_guard 0 2 MIGRATE_MOVABLE false false].

(** with guard pages enabled [take_page_off_buddy] loses frames: after a
    guard is set [break_down_buddy_pages] goes on splitting the same half.
    Taking frame 3 off a free block of frames 0 to 3 leaves frames 1 and 2
    neither free nor part of a guard block. *)
Theorem take_page_off_buddy_guard_loses : exists z', take_page_off_buddy cfg_guard 3 zone_g = (true, z') /\ is_free_buddy_page 2 zone_g = true /\
  forall B', blocks_ok (frames 0 16) B' -> repr cfg_guard (frames 0 16) 0 z' B' -> ~ covers B' 1 /\ ~ covers B' 2.
Proof.
  eexists; split; [vm_compute; reflexivity|split; [vm_compute; reflexivity|]]; intros B' W R.
  assert (K : forall q, 1 <= q <= 2 -> ~ covers B' q); [|split; apply K; lia].
  intros q Hq (p & o & k & H & I); destruct (bs_block _ _ W _ _ _ H) as (_ & Hp & _ & Hin); pose proof (bsize_pos o); unfold in_block in I.
  pose proof (pr_state _ _ _ _ _ (rp_pages _ _ _ _ _ R) (Hin p (in_block_head p o))) as S; rewrite H in S.
  assert (p = 0 \/ p = 1 \/ p = 2) as [->|[->| ->]] by lia; destruct k; cbn in S; try (destruct S as (S & S' & _); discriminate).
  destruct S as (_ & _ & S); change (0 = Z.of_nat o) in S; assert (o = 0%nat) as -> by lia; change (bsize 0) with 1 in I; lia.
Qed.

(** The zone [zone1] with a bad page in its first frame. *)
Definition zone_bad : zone := upd_page (fun p => mk_page (buddy_flag p) (guard_flag p) (private p) (zone_id p) (page_count p) (reported p) (movable p) true (index p)) 0 zone1.

(** [rmqueue] lets NR_FREE_PAGES drift: a block dropped because of a bad
    page leaves the lists but stays counted as free, while [rmqueue_bulk]
    counts every block it removed. *)
Theorem rmqueue_bad_page_drift :
  nr_free_pages zone_bad = 12 /\ free_total zone_bad = 12 /\
  (exists z', rmqueue cfg0 1 MIGRATE_MOVABLE 0 zone_bad = Some (Some 2, z') /\ nr_free_pages z' = 10 /\ free_total z' = 8) /\
  (exists z', rmqueue_bulk cfg0 true 1 2 MIGRATE_MOVABLE 0 [] zone_bad = Some ([2], z') /\ nr_free_pages z' = 8 /\ free_total z' = 8).
Proof.
  split; [vm_compute; reflexivity|split; [vm_compute; reflexivity|]].
  split; (eexists; split; [vm_compute; reflexivity|split; vm_compute; reflexivity]).
Qed.

(** with ALLOC_NOFRAGMENT and an order above pageblock_order
    [__rmqueue_fallback] reports success for a block that is too small: it
    steals a block of one pageblock for a request of two, and
    [__rmqueue_smallest] still finds nothing. *)
Theorem rmqueue_fallback_nofragment_small : exists z', __rmqueue_fallback cfg0 4 MIGRATE_UNMOVABLE ALLOC_NOFRAGMENT zone1 = Some z' /\
  __rmqueue_smallest cfg0 4 MIGRATE_UNMOVABLE z' = None /\ __rmqueue_fallback cfg0 4 MIGRATE_UNMOVABLE 0 zone1 = None.
Proof. eexists; split; [vm_compute; reflexivity|split; vm_compute; reflexivity]. Qed.
