(* ===== verification/ListSort.v ===== *)
(** The merge sort of linked lists, lib/list_sort.c, on a memory of nodes.

    The input is a circular doubly linked list; while it runs, the sort keeps
    sorted runs as singly linked lists, chains the runs through the [prev]
    field of their first nodes, and rebuilds the circular list in the last
    merge.  Nodes are addresses, NULL is 0, and [**tail] pointers are places
    that can be stored to. *)
From Stdlib Require Import ZArith Lia Bool.
From stdpp Require Import base list sorting.
From S2P Require Import Prelude.

Local Open Scope Z_scope.

(** ** Memory *)

(** The [next] and [prev] fields of every node. *)
Record list_mem := mk_mem { next : Z -> Z; prev : Z -> Z }.

Definition upd (f : Z -> Z) (a v : Z) : Z -> Z := fun x => if x =? a then v else f x.

Definition set_next (a v : Z) (h : list_mem) : list_mem := mk_mem (upd (next h) a v) (prev h).
Definition set_prev (a v : Z) (h : list_mem) : list_mem := mk_mem (next h) (upd (prev h) a v).

(** [&head], the address of a local variable, or [&a->next]. *)
Inductive next_place := Local | Next (a : Z).

Definition store_next (t : next_place) (v head : Z) (h : list_mem) : Z * list_mem :=
  match t with Local => (v, h) | Next a => (head, set_next a v h) end.

(** [&pending] or [&a->prev]. *)
Inductive prev_place := Pending | Prev (a : Z).

Definition load_prev (t : prev_place) (pending : Z) (h : list_mem) : Z :=
  match t with Pending => pending | Prev a => prev h a end.

Definition store_prev (t : prev_place) (v pending : Z) (h : list_mem) : Z * list_mem :=
  match t with Pending => (v, h) | Prev a => (pending, set_prev a v h) end.

Section ListSort.
Context (cmp : Z -> Z -> Z).

(** ** The code *)

(** The loop of [merge]: the head of the result so far and where to link the
    next node. *)
Fixpoint merge_walk (fuel : nat) (a b head : Z) (tail : next_place) (h : list_mem) : option (Z * list_mem) :=
  match fuel with
  | O => None
  | S fuel =>
    if cmp a b <=? 0 then
      let '(head, h) := store_next tail a head h in
      let tail := Next a in
      let a := next h a in
      if a =? 0 then Some (store_next tail b head h) else merge_walk fuel a b head tail h
    else
      let '(head, h) := store_next tail b head h in
      let tail := Next b in
      let b := next h b in
      if b =? 0 then Some (store_next tail a head h) else merge_walk fuel a b head tail h
  end.

Definition merge (fuel : nat) (a b : Z) (h : list_mem) : option (Z * list_mem) := merge_walk fuel a b 0 Local h.

(** The merging loop of [merge_final]: what is left of the other list, the last
    node and the memory. *)
Fixpoint merge_final_loop (fuel : nat) (a b tail : Z) (h : list_mem) : option (Z * Z * list_mem) :=
  match fuel with
  | O => None
  | S fuel =>
    if cmp a b <=? 0 then
      let h := set_prev a tail (set_next tail a h) in
      let tail := a in
      let a := next h a in
      if a =? 0 then Some (b, tail, h) else merge_final_loop fuel a b tail h
    else
      let h := set_prev b tail (set_next tail b h) in
      let tail := b in
      let b := next h b in
      if b =? 0 then Some (a, tail, h) else merge_final_loop fuel a b tail h
  end.

(** The loop over the remainder.  The extra calls of [cmp] that give the client
    a chance to reschedule have no effect on the lists. *)
Fixpoint link_rest (fuel : nat) (b tail : Z) (h : list_mem) : option (Z * list_mem) :=
  match fuel with
  | O => None
  | S fuel =>
    let h := set_prev b tail h in
    let tail := b in
    let b := next h b in
    if b =? 0 then Some (tail, h) else link_rest fuel b tail h
  end.

Definition merge_final (fuel : nat) (head a b : Z) (h : list_mem) : option list_mem :=
  r ← merge_final_loop fuel a b head h;
  let '(b, tail, h) := r in
  let h := set_next tail b h in
  r ← link_rest fuel b tail h;
  let '(tail, h) := r in
  Some (set_prev head tail (set_next tail head h)).

(** The least-significant clear bit of [count]; one pending list is passed for
    every set bit below it.  [bits] has 64 bits. *)
Fixpoint clear_bit (fuel : nat) (bits : Z) (tail : prev_place) (pending : Z) (h : list_mem) : option (Z * prev_place) :=
  match fuel with
  | O => None
  | S fuel =>
    if Z.land bits 1 =? 0 then Some (bits, tail)
    else clear_bit fuel (Z.shiftr bits 1) (Prev (load_prev tail pending h)) pending h
  end.

(** The merge of one round, from the given place on. *)
Definition merge_round (fuel bfuel : nat) (count : Z) (tail : prev_place) (pending : Z) (h : list_mem) : option (Z * list_mem) :=
  r ← clear_bit bfuel count tail pending h;
  let '(bits, tail) := r in
  if bits =? 0 then Some (pending, h)
  else
    let a := load_prev tail pending h in
    let b := prev h a in
    r ← merge fuel b a h;
    let '(a, h) := r in
    let h := set_prev a (prev h b) h in
    Some (store_prev tail a pending h).

(** The first loop of [list_sort]; [mfuel] is for the merges. *)
Fixpoint sort_loop (mfuel fuel : nat) (list pending count : Z) (h : list_mem) : option (Z * list_mem) :=
  match fuel with
  | O => None
  | S fuel =>
    r ← merge_round mfuel 65 count Pending pending h;
    let '(pending, h) := r in
    let h := set_prev list pending h in
    let pending := list in
    let list := next h list in
    let h := set_next pending 0 h in
    let count := u64 (count + 1) in
    if list =? 0 then Some (pending, h) else sort_loop mfuel fuel list pending count h
  end.

(** The second one: the pending lists are merged from the smallest on. *)
Fixpoint collect_loop (mfuel fuel : nat) (list pending : Z) (h : list_mem) : option (Z * Z * list_mem) :=
  match fuel with
  | O => None
  | S fuel =>
    let next := prev h pending in
    if next =? 0 then Some (list, pending, h)
    else
      r ← merge mfuel pending list h;
      let '(list, h) := r in
      collect_loop mfuel fuel list next h
  end.

Definition list_sort (fuel : nat) (head : Z) (h : list_mem) : option list_mem :=
  let list := next h head in
  if list =? prev h head then Some h
  else
    let h := set_next (prev h head) 0 h in
    r ← sort_loop fuel fuel list 0 0 h;
    let '(pending, h) := r in
    r ← collect_loop fuel fuel pending (prev h pending) h;
    let '(list, pending, h) := r in
    merge_final fuel head pending list h.
End ListSort.
