(* ===== verification/ListSortSound.v ===== *)
(** [list_sort] is a stable sort that rebuilds the circular list.

    The pending runs are a list of sorted lists whose lengths are determined by
    the binary digits of the element count ([profile]); memory that satisfies
    the chain predicates holds exactly those lists. *)
From Stdlib Require Import ZArith Lia Bool.
From stdpp Require Import base list sorting.
From S2P Require Import Prelude ListSort.

Local Open Scope Z_scope.

(** ** Memory predicates *)

Lemma upd_eq f a v : upd f a v a = v.
Proof. unfold upd; rewrite Z.eqb_refl; reflexivity. Qed.

Lemma upd_ne f a v x : x <> a -> upd f a v x = f x.
Proof. intros H; unfold upd; rewrite (proj2 (Z.eqb_neq _ _) H); reflexivity. Qed.

(** A null-terminated singly linked list. *)
Fixpoint chain (h : list_mem) (p : Z) (xs : list Z) : Prop :=
  match xs with
  | [] => p = 0
  | x :: xs => p = x /\ x <> 0 /\ chain h (next h x) xs
  end.

Lemma chain_ext h h' p xs : (forall x, x ∈ xs -> next h' x = next h x) -> chain h p xs -> chain h' p xs.
Proof.
  revert p; induction xs as [|x xs IH]; intros p H; cbn; [trivial|]; intros (-> & N & C); split; [reflexivity|split; [exact N|]].
  rewrite H by (apply elem_of_cons; auto); apply IH; [intros y Hy; apply H, elem_of_cons; auto|exact C].
Qed.

Lemma chain_null h p xs : chain h p xs -> (p =? 0) = match xs with [] => true | _ => false end.
Proof. destruct xs; cbn; [intros ->; reflexivity|intros (-> & N & _); apply Z.eqb_neq, N]. Qed.

(** The runs, chained through the [prev] fields of their first nodes. *)
Fixpoint pending_runs (h : list_mem) (p : Z) (P : list (list Z)) : Prop :=
  match P with
  | [] => p = 0
  | xs :: P => xs <> [] /\ chain h p xs /\ pending_runs h (prev h p) P
  end.

Lemma run_head h p xs P : pending_runs h p (xs :: P) -> p ∈ xs.
Proof. destruct xs; intros (N & C & _); [contradiction|]; destruct C as [-> _]; apply elem_of_cons; auto. Qed.

Lemma runs_ext h h' P : forall p, (forall x, x ∈ concat P -> next h' x = next h x /\ prev h' x = prev h x) -> pending_runs h p P -> pending_runs h' p P.
Proof.
  induction P as [|xs P IH]; intros p H; cbn [pending_runs]; [trivial|]; intros R; pose proof (run_head _ _ _ _ R) as Hp; destruct R as (N & C & R).
  cbn [concat] in H; split; [exact N|split; [apply (chain_ext h); [intros x Hx; apply H, elem_of_app; auto|exact C]|]].
  rewrite (proj2 (H p ltac:(apply elem_of_app; auto))); apply IH; [intros x Hx; apply H, elem_of_app; auto|exact R].
Qed.

(** The links of a doubly linked list segment. *)
Fixpoint links (h : list_mem) (xs : list Z) : Prop :=
  match xs with
  | a :: (b :: _) as xs' => next h a = b /\ prev h b = a /\ links h xs'
  | _ => True
  end.

Section Sound.
Context (cmp : Z -> Z -> Z).

(** [a] may stay before [b]. *)
Definition le (a b : Z) : Prop := cmp a b <= 0.

#[local] Instance le_dec a b : Decision (le a b).
Proof. unfold le; apply _. Defined.

Abbreviation lmerge := (list_merge le).

(** ** Merging *)

Definition place_out (t : next_place) (xs : list Z) : Prop := match t with Local => True | Next a => a ∉ xs end.

(** The list at [r] is linked to the place. *)
Definition linked (t : next_place) (r head0 head : Z) (h : list_mem) : Prop :=
  match t with Local => head = r | Next a => head = head0 /\ next h a = r end.

Record merged (h : list_mem) (t : next_place) (head0 : Z) (nodes res : list Z) (head : Z) (h' : list_mem) : Prop := {
  md_list : exists r, chain h' r res /\ linked t r head0 head h';
  md_next z : z ∉ nodes -> t <> Next z -> next h' z = next h z;
  md_prev z : prev h' z = prev h z
}.

Lemma store_other t v head h z : t <> Next z -> next (store_next t v head h).2 z = next h z.
Proof. destruct t as [|a]; intros N; cbn; [reflexivity|apply upd_ne; congruence]. Qed.

Lemma store_prev_same t v head h z : prev (store_next t v head h).2 z = prev h z.
Proof. destruct t; reflexivity. Qed.

Lemma linked_store t v head h : linked t v head (store_next t v head h).1 (store_next t v head h).2.
Proof. destruct t; cbn; [reflexivity|split; [reflexivity|apply upd_eq]]. Qed.

(** One node [x] is linked in and the rest of the work is done at its [next]. *)
Lemma merged_step h t head0 x nodes rest h1 head1 head h' : store_next t x head0 h = (head1, h1) -> x <> 0 -> place_out t (x :: nodes) -> x ∉ nodes ->
  merged h1 (Next x) head1 nodes rest head h' -> merged h t head0 (x :: nodes) (x :: rest) head h'.
Proof.
  intros E Nx Po Nn [(r & C & [-> L]) Hn Hp]; pose proof (linked_store t x head0 h) as Ls; rewrite E in Ls; cbn [fst snd] in Ls.
  pose proof (fun z => store_other t x head0 h z) as So; pose proof (store_prev_same t x head0 h) as Sp; rewrite E in So, Sp; cbn [snd] in So, Sp.
  split.
  - exists x; split; [split; [reflexivity|split; [exact Nx|rewrite L; exact C]]|].
    destruct t as [|a]; [exact Ls|]; destruct Ls as [-> Ls]; split; [reflexivity|]; cbn in Po; apply not_elem_of_cons in Po as [Na Na'].
    rewrite Hn; [exact Ls|exact Na'|congruence].
  - intros z Hz Nt; apply not_elem_of_cons in Hz as [Hz Hz']; rewrite Hn; [apply So, Nt|exact Hz'|congruence].
  - intros z; rewrite Hp; apply Sp.
Qed.

(** The last node [x] of one list is linked to the other list. *)
Lemma merged_last h t head0 x ys p h1 head1 nodes : store_next t x head0 h = (head1, h1) -> x <> 0 -> place_out t (x :: nodes) -> x ∉ ys ->
  (forall y, y ∈ ys -> y ∈ nodes) -> chain h p ys -> merged h t head0 (x :: nodes) (x :: ys) head1 (set_next x p h1).
Proof.
  intros E Nx Po Ny Sub C; pose proof (linked_store t x head0 h) as Ls; rewrite E in Ls; cbn [fst snd] in Ls.
  pose proof (fun z => store_other t x head0 h z) as So; pose proof (store_prev_same t x head0 h) as Sp; rewrite E in So, Sp; cbn [snd] in So, Sp.
  assert (Out : forall y, y ∈ nodes -> t <> Next y) by (intros y Hy ->; cbn in Po; apply Po, elem_of_cons; auto).
  split.
  - exists x; split.
    + split; [reflexivity|split; [exact Nx|]]; cbn [next set_next]; rewrite upd_eq; apply (chain_ext h); [|exact C].
      intros y Hy; cbn; rewrite upd_ne by (intros ->; contradiction); apply So, Out, Sub, Hy.
    + destruct t as [|a]; [exact Ls|]; destruct Ls as [-> Ls]; split; [reflexivity|]; cbn in *; apply not_elem_of_cons in Po as [Na _].
      rewrite upd_ne by exact Na; exact Ls.
  - intros z Hz Nt; apply not_elem_of_cons in Hz as [Hz _]; cbn; rewrite upd_ne by exact Hz; apply So, Nt.
  - intros z; apply Sp.
Qed.

Lemma merged_nodes h t head0 n1 n2 res head h' : (forall z, z ∈ n1 -> z ∈ n2) -> merged h t head0 n1 res head h' -> merged h t head0 n2 res head h'.
Proof. intros H [L N P]; split; trivial; intros z Hz; apply N; intros Hz'; apply Hz, H, Hz'. Qed.

Lemma chain_store h t v head p xs : place_out t xs -> chain h p xs -> chain (store_next t v head h).2 p xs.
Proof. intros Po; apply chain_ext; intros x Hx; apply store_other; intros ->; exact (Po Hx). Qed.

Lemma place_sub t l l' : (forall z, z ∈ l' -> z ∈ l) -> place_out t l -> place_out t l'.
Proof. destruct t; cbn; auto. Qed.

(** One round of the loop: the first node [x] of [x :: xs] is taken, [ys] is the
    other list. *)
Lemma merge_round_ok h t head0 x xs ys q rest (next_call : Z -> Z -> list_mem -> option (Z * list_mem)) : NoDup (x :: xs ++ ys) -> ys <> [] ->
  chain h x (x :: xs) -> chain h q ys -> place_out t (x :: xs ++ ys) ->
  (forall head1 h1, place_out (Next x) (xs ++ ys) -> xs <> [] -> chain h1 (next h x) xs -> chain h1 q ys ->
     exists head' h', next_call (next h x) head1 h1 = Some (head', h') /\ merged h1 (Next x) head1 (xs ++ ys) rest head' h') ->
  (xs = [] -> rest = ys) ->
  exists head' h', (let '(head1, h1) := store_next t x head0 h in
     let a := next h1 x in if a =? 0 then Some (store_next (Next x) q head1 h1) else next_call a head1 h1) = Some (head', h') /\
   merged h t head0 (x :: xs ++ ys) (x :: rest) head' h'.
Proof.
  intros ND NY (_ & Nx & Cx) Cy Po Next Last; apply NoDup_cons in ND as [Nin ND].
  destruct (store_next t x head0 h) as [head1 h1] eqn:E.
  assert (En : next h1 x = next h x).
  { pose proof (store_other t x head0 h x) as So; rewrite E in So; apply So; intros ->; cbn in Po; apply Po, elem_of_cons; auto. }
  assert (K : forall p l, (forall z, z ∈ l -> z ∈ xs ++ ys) -> chain h p l -> chain h1 p l).
  { intros p l Hl C; pose proof (chain_store h t x head0 p l) as S; rewrite E in S; apply S; [|exact C].
    apply (place_sub t (x :: xs ++ ys)); [intros z Hz; apply elem_of_cons; auto|exact Po]. }
  cbv zeta; rewrite En, (chain_null _ _ _ Cx); destruct xs as [|x' xs'].
  - exists head1, (set_next x q h1); split; [reflexivity|]; rewrite Last by reflexivity.
    apply (merged_last h t head0 x ys q h1 head1); trivial.
  - destruct (Next head1 h1) as (head' & h' & Ec & M); [exact Nin|discriminate|apply K; [intros z Hz; apply elem_of_app; auto|exact Cx]|apply K; [intros z Hz; apply elem_of_app; auto|exact Cy]|].
    exists head', h'; split; [exact Ec|]; exact (merged_step _ _ _ _ _ _ _ _ _ _ E Nx Po Nin M).
Qed.

Lemma merge_walk_ok : forall fuel xs ys x y head t h, NoDup ((x :: xs) ++ y :: ys) -> chain h x (x :: xs) -> chain h y (y :: ys) ->
  place_out t ((x :: xs) ++ y :: ys) -> (length xs + length ys < fuel)%nat ->
  exists head' h', merge_walk cmp fuel x y head t h = Some (head', h') /\ merged h t head ((x :: xs) ++ y :: ys) (lmerge (x :: xs) (y :: ys)) head' h'.
Proof.
  induction fuel as [|fuel IH]; intros xs ys x y head t h ND Cx Cy Po Hf; [lia|]; cbn [merge_walk]; rewrite list_merge_cons.
  destruct (Z.leb_spec (cmp x y) 0) as [L|L]; (destruct (decide (le x y)) as [D|D]; [|unfold le in D; try lia]); [|unfold le in D; lia|].
  - refine (merge_round_ok h t head x xs (y :: ys) y (lmerge xs (y :: ys)) (fun a hd hh => merge_walk cmp fuel a y hd (Next x) hh) ND _ Cx Cy Po _ _).
    + discriminate.
    + intros hd h1 Pn Nn C1 C2; destruct xs as [|x' xs']; [contradiction|]; pose proof C1 as [Ex _]; rewrite Ex in C1 |- *; cbn [length] in Hf.
      apply (IH xs' ys x' y hd (Next x) h1); trivial; [apply (NoDup_cons_1_2 x), ND|lia].
    + intros ->; reflexivity.
  - assert (Pm : (x :: xs) ++ y :: ys ≡ₚ y :: ys ++ x :: xs) by (rewrite (Permutation_app_comm (x :: xs)); reflexivity).
    assert (Sub : forall z, z ∈ y :: ys ++ x :: xs -> z ∈ (x :: xs) ++ y :: ys) by (intros z Hz; rewrite Pm; exact Hz).
    destruct (merge_round_ok h t head y ys (x :: xs) x (lmerge (x :: xs) ys) (fun b hd hh => merge_walk cmp fuel x b hd (Next y) hh)) as (head' & h' & E & M); trivial.
    + rewrite <- Pm; exact ND.
    + discriminate.
    + apply (place_sub t _ _ Sub Po).
    + intros hd h1 Pn Nn C1 C2; destruct ys as [|y' ys']; [contradiction|]; pose proof C1 as [Ex _]; rewrite Ex in C1 |- *; cbn [length] in Hf.
      destruct (IH xs ys' x y' hd (Next y) h1) as (head' & h' & E & M); trivial; [| |lia|].
      * rewrite Pm in ND; apply NoDup_cons in ND as [_ ND]; rewrite (Permutation_app_comm (x :: xs)); exact ND.
      * apply (place_sub _ ((y' :: ys') ++ x :: xs)); [intros z; rewrite !elem_of_app; tauto|exact Pn].
      * exists head', h'; split; [exact E|]; apply (merged_nodes _ _ _ ((x :: xs) ++ y' :: ys')); [intros z; rewrite !elem_of_app; tauto|exact M].
    + intros ->; apply list_merge_nil_r.
    + exists head', h'; split; [exact E|]; exact (merged_nodes _ _ _ _ _ _ _ _ Sub M).
Qed.

(** Two null-terminated lists are merged into one; no other node changes. *)
Lemma merge_ok fuel a b h xs ys : xs <> [] -> ys <> [] -> NoDup (xs ++ ys) -> chain h a xs -> chain h b ys -> (length xs + length ys <= fuel)%nat ->
  exists r h', merge cmp fuel a b h = Some (r, h') /\ chain h' r (lmerge xs ys) /\ (forall z, z ∉ xs ++ ys -> next h' z = next h z) /\ (forall z, prev h' z = prev h z).
Proof.
  intros Nx Ny ND Ca Cb Hf; destruct xs as [|x xs]; [contradiction|]; destruct ys as [|y ys]; [contradiction|]; pose proof Ca as [-> _]; pose proof Cb as [-> _].
  cbn [length] in Hf; destruct (merge_walk_ok fuel xs ys x y 0 Local h ND Ca Cb I ltac:(lia)) as (r & h' & E & [(r' & C & L) Hn Hp]); cbn in L; subst r'.
  exists r, h'; split; [exact E|split; [exact C|split; [|exact Hp]]]; intros z Hz; apply Hn; [exact Hz|discriminate].
Qed.

(** ** The pending runs *)

(** The exponents of the sizes of the pending runs, from the smallest on, by
    the binary digits of the count; [pb] is the digit below. *)
Fixpoint profile (c : positive) (pb : bool) (k : nat) : list nat :=
  match c with
  | xI c => (if pb then [k] else []) ++ profile c true (S k)
  | xO c => (if pb then [k; k] else [k]) ++ profile c false (S k)
  | xH => if pb then [k] else []
  end.

Lemma profile_below c k : profile c true k = k :: profile c false k.
Proof. destruct c; reflexivity. Qed.

Definition sizes (count : Z) : list nat := match count with Zpos c => profile c true 0 | _ => [] end.

(** The run lengths are the powers of two of the profile. *)
Definition sized (P : list (list Z)) (ks : list nat) : Prop := Forall2 (fun xs k => length xs = Nat.pow 2 k) P ks.

(** The merge of one round. *)
Fixpoint absorb (c : positive) (P : list (list Z)) : list (list Z) :=
  match c, P with
  | xO _, a :: b :: P => lmerge b a :: P
  | xI c, xs :: P => xs :: absorb c P
  | _, _ => P
  end.

Definition absorb_count (count : Z) (P : list (list Z)) : list (list Z) := match count with Zpos c => absorb c P | _ => P end.

Lemma absorb_sized c : forall k P, sized P (profile c true k) -> sized (absorb c P) (profile (Pos.succ c) false k).
Proof.
  induction c as [c IH|c IH|]; intros k P H; cbn [profile Pos.succ app] in *.
  - inversion H as [|xs ? P' ? E H']; subst; cbn [absorb]; constructor; [exact E|]; apply IH, H'.
  - inversion H as [|a ? P' ? Ea H']; subst; inversion H' as [|b ? P'' ? Eb H'']; subst; cbn [absorb].
    change (profile (Pos.succ c~0) false k) with (profile c true (S k)); rewrite profile_below; constructor; [|exact H''].
    rewrite merge_Permutation, length_app, Ea, Eb; cbn; lia.
  - exact H.
Qed.

Lemma round_sized count P x : 0 <= count -> sized P (sizes count) -> sized ([x] :: absorb_count count P) (sizes (count + 1)).
Proof.
  intros Hc H; destruct count as [|c|c]; [inversion H; repeat constructor| |lia]; cbn [absorb_count].
  replace (Z.pos c + 1) with (Z.pos (Pos.succ c)) by lia; cbn [sizes]; rewrite profile_below; constructor; [reflexivity|].
  apply absorb_sized, H.
Qed.

Lemma absorb_perm c : forall P, concat (absorb c P) ≡ₚ concat P.
Proof.
  induction c as [c IH|c IH|]; intros P; cbn [absorb]; [|destruct P as [|a [|b P]]; try reflexivity|destruct P; reflexivity].
  - destruct P as [|xs P]; [reflexivity|]; cbn; rewrite IH; reflexivity.
  - cbn [concat]; rewrite merge_Permutation, (Permutation_app_comm b a), <- app_assoc; reflexivity.
Qed.

Lemma absorb_count_perm c P : concat (absorb_count c P) ≡ₚ concat P.
Proof. destruct c; [reflexivity|apply absorb_perm|reflexivity]. Qed.

(** ** One round in memory *)

Definition pplace_out (t : prev_place) (xs : list Z) : Prop := match t with Pending => True | Prev a => a ∉ xs end.

Record round_done (tail : prev_place) (pending : Z) (h : list_mem) (nodes : list Z) (P' : list (list Z)) (pending' : Z) (h' : list_mem) : Prop := {
  rd_runs : pending_runs h' (load_prev tail pending' h') P';
  rd_pending : tail <> Pending -> pending' = pending;
  rd_next z : z ∉ nodes -> next h' z = next h z;
  rd_prev z : z ∉ nodes -> tail <> Prev z -> prev h' z = prev h z
}.

Lemma head_chain h p xs : chain h p xs -> xs <> [] -> p ∈ xs.
Proof. destruct xs; [contradiction|]; intros [-> _] _; apply elem_of_cons; auto. Qed.

(** The merge at the place, once the bit is found. *)
Lemma merge_place fuel tail pending h a b P : NoDup (concat (a :: b :: P)) -> pending_runs h (load_prev tail pending h) (a :: b :: P) ->
  pplace_out tail (concat (a :: b :: P)) -> (length (concat (a :: b :: P)) <= fuel)%nat -> exists r h1,
  merge cmp fuel (prev h (load_prev tail pending h)) (load_prev tail pending h) h = Some (r, h1) /\
  let h2 := set_prev r (prev h1 (prev h (load_prev tail pending h))) h1 in
  round_done tail pending h (concat (a :: b :: P)) (lmerge b a :: P) (store_prev tail r pending h2).1 (store_prev tail r pending h2).2.
Proof.
  set (p := load_prev tail pending h); intros ND (Na & Ca & Nb & Cb & R) Po Hf; cbn [concat] in *; set (q := prev h p) in *.
  rewrite app_assoc in ND, Po |- *; apply NoDup_app in ND as (NDab & Dab & NDP).
  assert (Pm : b ++ a ≡ₚ a ++ b) by apply Permutation_app_comm; rewrite !length_app in Hf.
  destruct (merge_ok fuel q p h b a Nb Na ltac:(rewrite Pm; exact NDab) Cb Ca ltac:(lia)) as (r & h1 & E & C1 & Hn & Hp); exists r, h1; split; [exact E|cbv zeta].
  assert (Nm : lmerge b a <> []).
  { intros Em; pose proof (merge_Permutation le b a) as Pe; rewrite Em in Pe; apply Permutation_nil_l in Pe; destruct b; [contradiction|discriminate]. }
  assert (Hr : r ∈ a ++ b) by (rewrite <- Pm, <- (merge_Permutation le b a); exact (head_chain _ _ _ C1 Nm)).
  assert (Hq : q ∈ a ++ b) by (apply elem_of_app; right; exact (head_chain _ _ _ Cb Nb)).
  set (h2 := set_prev r (prev h1 q) h1); set (h' := (store_prev tail r pending h2).2).
  assert (Out : forall z, z ∈ a ++ b \/ z ∈ concat P -> tail <> Prev z) by (intros z Hz ->; cbn in Po; apply Po, elem_of_app; exact Hz).
  assert (Pv : forall z, tail <> Prev z -> prev h' z = prev h2 z) by (intros z Nz; unfold h'; destruct tail; cbn; [reflexivity|apply upd_ne; congruence]).
  assert (Nx : forall z, next h' z = next h1 z) by (intros z; unfold h'; destruct tail; reflexivity).
  assert (Ld : load_prev tail (store_prev tail r pending h2).1 h' = r) by (unfold h'; destruct tail; cbn; [reflexivity|apply upd_eq]).
  assert (P2 : forall z, z <> r -> prev h2 z = prev h z) by (intros z Nz; unfold h2; cbn; rewrite upd_ne by exact Nz; apply Hp).
  split.
  - rewrite Ld; split; [exact Nm|split; [apply (chain_ext h1); [intros; apply Nx|exact C1]|]].
    rewrite Pv by (apply Out; auto); unfold h2 at 1; cbn [prev set_prev]; rewrite upd_eq, Hp; apply (runs_ext h); [|exact R].
    intros x Hx; rewrite Nx, Pv by (apply Out; auto); split.
    + apply Hn; rewrite Pm; intros Hx'; exact (Dab x Hx' Hx).
    + apply P2; intros ->; exact (Dab r Hr Hx).
  - destruct tail; [contradiction|reflexivity].
  - intros z Hz; rewrite Nx; apply Hn; rewrite Pm; intros Hz'; apply Hz, elem_of_app; auto.
  - intros z Hz Nt; rewrite Pv by exact Nt; apply P2; intros ->; apply Hz, elem_of_app; auto.
Qed.

Lemma round_ok fuel : forall c k bfuel tail pending h P, sized P (profile c true k) -> NoDup (concat P) -> pending_runs h (load_prev tail pending h) P ->
  pplace_out tail (concat P) -> (Pos.size_nat c < bfuel)%nat -> (length (concat P) <= fuel)%nat ->
  exists pending' h', merge_round cmp fuel bfuel (Z.pos c) tail pending h = Some (pending', h') /\ round_done tail pending h (concat P) (absorb c P) pending' h'.
Proof.
  induction c as [c IH|c IH|]; intros k bfuel tail pending h P Sz ND R Po Hb Hf; destruct bfuel as [|bfuel]; try (cbn in Hb; lia); cbn [profile app] in Sz.
  - inversion Sz as [|xs ? P' ? E Sz']; subst; pose proof (run_head _ _ _ _ R) as Hp; destruct R as (Nx & Cx & R).
    set (p := load_prev tail pending h) in *; cbn [concat] in ND, Po, Hf |- *; apply NoDup_app in ND as (_ & Dx & ND); rewrite length_app in Hf.
    destruct (IH (S k) bfuel (Prev p) pending h P' Sz' ND R) as (pending' & h' & Em & [Rr Rp Rn Rv]); [exact (Dx p Hp)|cbn in Hb; lia|lia|].
    rewrite (Rp ltac:(discriminate)) in *; exists pending, h'; split; [exact Em|].
    assert (Lp : load_prev tail pending h' = p).
    { unfold p; destruct tail as [|t]; [reflexivity|]; cbn in *; apply Rv; [intros Ht; apply Po, elem_of_app; auto|].
      intros [= E']; apply Po, elem_of_app; left; rewrite <- E'; exact Hp. }
    split; trivial.
    + rewrite Lp; cbn [absorb]; split; [exact Nx|split; [apply (chain_ext h); [intros x Hx; apply Rn, Dx, Hx|exact Cx]|exact Rr]].
    + intros z Hz; apply Rn; intros Hz'; apply Hz, elem_of_app; auto.
    + intros z Hz Nt; apply Rv; [intros Hz'; apply Hz, elem_of_app; auto|]; intros [= E']; rewrite <- E' in Hz; apply Hz, elem_of_app; auto.
  - inversion Sz as [|a ? P' ? Ea Sz']; subst; inversion Sz' as [|b ? P'' ? Eb _]; subst; cbn [absorb].
    destruct (merge_place fuel tail pending h a b P'' ND R Po Hf) as (r & h1 & E & D).
    assert (Ec : clear_bit (S bfuel) (Z.pos c~0) tail pending h = Some (Z.pos c~0, tail)) by reflexivity.
    unfold merge_round; rewrite Ec; cbn [mbind option_bind Z.eqb]; rewrite E; cbn [mbind option_bind]; eexists _, _; split; [|exact D]; destruct (store_prev _ _ _ _); reflexivity.
  - destruct bfuel as [|bfuel]; [cbn in Hb; lia|]; exists pending, h; split; [reflexivity|]; split; auto; destruct P; exact R.
Qed.

(** ** The first loop *)

(** The runs once [L] is taken in. *)
Fixpoint runs (count : Z) (P : list (list Z)) (L : list Z) : list (list Z) :=
  match L with
  | [] => P
  | x :: L => runs (count + 1) ([x] :: absorb_count count P) L
  end.

Lemma size_bound c : forall n, Z.pos c < 2 ^ Z.of_nat n -> (Pos.size_nat c <= n)%nat.
Proof.
  induction c as [c IH|c IH|]; intros [|n] H; cbn [Pos.size_nat]; try (cbn in H; lia);
    rewrite Nat2Z.inj_succ, Z.pow_succ_r in H by lia; specialize (IH n); lia.
Qed.

Lemma round_count_ok fuel count pending h P : 0 <= count < 2 ^ 64 -> sized P (sizes count) -> NoDup (concat P) -> pending_runs h pending P ->
  (length (concat P) <= fuel)%nat ->
  exists pending' h', merge_round cmp fuel 65 count Pending pending h = Some (pending', h') /\ round_done Pending pending h (concat P) (absorb_count count P) pending' h'.
Proof.
  intros Hc Sz ND R Hf; destruct count as [|c|c]; [|apply (round_ok fuel c 0); trivial; [exact I|]|lia].
  - exists pending, h; split; [reflexivity|]; split; auto.
  - pose proof (size_bound c 64 (proj2 Hc)); lia.
Qed.

Lemma sort_loop_ok mfuel : forall fuel L list pending count h P, L <> [] -> chain h list L -> NoDup (concat P ++ L) -> pending_runs h pending P ->
  0 <= count -> sized P (sizes count) -> count + Z.of_nat (length L) < 2 ^ 64 -> (length L <= fuel)%nat -> (length (concat P ++ L) <= mfuel)%nat ->
  exists pending' h', sort_loop cmp mfuel fuel list pending count h = Some (pending', h') /\ pending_runs h' pending' (runs count P L) /\
    (forall z, z ∉ concat P ++ L -> next h' z = next h z /\ prev h' z = prev h z).
Proof.
  induction fuel as [|fuel IH]; intros L list pending count h P NL C ND R Hc Sz Hcl Hf Hm; destruct L as [|x L]; try contradiction; [cbn in Hf; lia|].
  cbn [sort_loop]; destruct C as (-> & Nx & C); pose proof ND as ND0; apply NoDup_app in ND0 as (NDP & Dx & NDL); apply NoDup_cons in NDL as [Nxl NDL].
  rewrite length_app in Hm; cbn [length] in *.
  destruct (round_count_ok mfuel count pending h P ltac:(lia) Sz NDP R ltac:(lia)) as (p1 & h1 & -> & [R1 _ Hn1 Hp1]); cbn [mbind option_bind].
  set (P1 := absorb_count count P) in *; assert (Pm : concat ([x] :: P1) ++ L ≡ₚ concat P ++ x :: L).
  { cbn [concat app]; unfold P1; rewrite absorb_count_perm, Permutation_middle; reflexivity. }
  assert (Out : forall z, z ∈ x :: L -> z ∉ concat P) by (intros z Hz Hz'; exact (Dx z Hz' Hz)).
  assert (Out1 : forall z, z ∈ concat P1 -> z <> x) by (intros z Hz ->; unfold P1 in Hz; rewrite absorb_count_perm in Hz; exact (Out x ltac:(apply elem_of_cons; auto) Hz)).
  cbn [next set_prev]; rewrite (Hn1 x) by (apply Out, elem_of_cons; auto).
  set (h2 := set_next x 0 (set_prev x p1 h1)).
  assert (N2 : forall z, z <> x -> next h2 z = next h1 z /\ prev h2 z = prev h1 z) by (intros z Nz; unfold h2; cbn; rewrite !upd_ne by exact Nz; auto).
  assert (R2 : pending_runs h2 x ([x] :: P1)).
  { split; [discriminate|split; [split; [reflexivity|split; [exact Nx|cbn; apply upd_eq]]|]].
    replace (prev h2 x) with p1 by (symmetry; cbn; apply upd_eq); apply (runs_ext h1); [intros z Hz; apply N2, Out1, Hz|exact R1]. }
  assert (Fr : forall z, z ∉ concat P ++ x :: L -> next h2 z = next h z /\ prev h2 z = prev h z).
  { intros z Hz; apply not_elem_of_app in Hz as [Hz Hz']; apply not_elem_of_cons in Hz' as [Nz _]; destruct (N2 z Nz) as [-> ->].
    split; [apply Hn1, Hz|apply Hp1; [exact Hz|discriminate]]. }
  rewrite (chain_null _ _ _ C); destruct L as [|y L]; [exists x, h2; auto|].
  replace (u64 (count + 1)) with (count + 1) by (symmetry; apply uwrap_id; unfold uin; cbn [length] in *; lia).
  destruct (IH (y :: L) (next h x) x (count + 1) h2 ([x] :: P1)) as (p' & h' & E & R' & Fr'); trivial; try (cbn [length] in *; lia).
  - discriminate.
  - apply (chain_ext h); [|exact C]; intros z Hz; rewrite (proj1 (N2 z ltac:(intros ->; contradiction))); apply Hn1, Out, elem_of_cons; auto.
  - rewrite Pm; exact ND.
  - apply round_sized; assumption.
  - rewrite Pm, length_app; cbn [length] in *; lia.
  - exists p', h'; split; [exact E|split; [exact R'|]]; intros z Hz; destruct (Fr' z) as [-> ->]; [rewrite Pm; exact Hz|apply Fr, Hz].
Qed.

(** ** Collecting the runs *)

Definition collect (acc : list Z) (P : list (list Z)) : list Z := foldl (fun acc xs => lmerge xs acc) acc P.

Lemma lmerge_nil xs ys : xs <> [] -> lmerge xs ys <> [].
Proof. intros N E; pose proof (merge_Permutation le xs ys) as Pe; rewrite E in Pe; apply Permutation_nil_l in Pe; destruct xs; [contradiction|discriminate]. Qed.

Lemma collect_loop_ok mfuel : forall fuel list pending h acc xs P, acc <> [] -> chain h list acc -> pending_runs h pending (xs :: P) ->
  NoDup (acc ++ concat (xs :: P)) -> (length P < fuel)%nat -> (length (acc ++ concat (xs :: P)) <= mfuel)%nat ->
  exists list' pending' h' acc' xs', collect_loop cmp mfuel fuel list pending h = Some (list', pending', h') /\ chain h' list' acc' /\ chain h' pending' xs' /\
    acc' <> [] /\ xs' <> [] /\ xs' ++ acc' ≡ₚ acc ++ concat (xs :: P) /\ lmerge xs' acc' = collect acc (xs :: P) /\
    (forall z, z ∉ acc ++ concat (xs :: P) -> next h' z = next h z) /\ (forall z, prev h' z = prev h z).
Proof.
  induction fuel as [|fuel IH]; intros list pending h acc xs P Na Ca R ND Hf Hm; [lia|]; cbn [collect_loop].
  pose proof R as (Nx & Cx & R'); destruct P as [|ys P].
  - cbn in R'; rewrite R'; cbn [Z.eqb]; exists list, pending, h, acc, xs; cbn [concat] in *; rewrite app_nil_r in *.
    split; [reflexivity|]; do 4 (split; [assumption|]); split; [apply Permutation_app_comm|auto].
  - pose proof R' as (Ny & Cy & R''); rewrite (chain_null _ _ _ Cy); destruct ys as [|y ys]; [contradiction|]; set (ys' := y :: ys) in *.
    assert (Pm : acc ++ concat (xs :: ys' :: P) ≡ₚ (xs ++ acc) ++ concat (ys' :: P)) by (cbn [concat]; rewrite app_assoc, (Permutation_app_comm acc xs); reflexivity).
    rewrite Pm in ND; rewrite Pm, length_app in Hm; apply NoDup_app in ND as (ND1 & D & ND2); rewrite length_app in Hm.
    destruct (merge_ok mfuel pending list h xs acc Nx Na ND1 Cx Ca ltac:(lia)) as (r & h1 & -> & C1 & Hn & Hp); cbn [mbind option_bind].
    pose proof (merge_Permutation le xs acc) as Pa.
    destruct (IH r (prev h pending) h1 (lmerge xs acc) ys' P) as (l' & p' & h' & acc' & xs' & E & H1 & H2 & H3 & H4 & H5 & H6 & H7 & H8); trivial.
    + apply lmerge_nil, Nx.
    + apply (runs_ext h); [|exact R']; intros z Hz; split; [apply Hn; intros Hz'; exact (D z Hz' Hz)|apply Hp].
    + rewrite Pa; apply NoDup_app; auto.
    + cbn [length] in Hf; lia.
    + rewrite Pa, !length_app; lia.
    + exists l', p', h', acc', xs'; split; [exact E|]; do 4 (split; [assumption|]); split; [rewrite H5, Pm, Pa; reflexivity|split; [exact H6|split]].
      * intros z Hz; rewrite Pm in Hz; rewrite H7 by (rewrite Pa; exact Hz); apply Hn; intros Hz'; apply Hz, elem_of_app; auto.
      * intros z; rewrite H8; apply Hp.
Qed.

(** ** The final merge *)

Lemma links_cons h a b l : links h (a :: b :: l) <-> next h a = b /\ prev h b = a /\ links h (b :: l).
Proof. reflexivity. Qed.

(** Linking one more node. *)
Lemma links_snoc h l t x : links h (l ++ [t]) -> next h t = x -> prev h x = t -> links h ((l ++ [t]) ++ [x]).
Proof.
  induction l as [|a l IH]; intros L E1 E2; [cbn; auto|]; destruct l as [|b l].
  - destruct L as (H1 & H2 & _); cbn; auto.
  - destruct L as (H1 & H2 & L); split; [exact H1|split; [exact H2|exact (IH L E1 E2)]].
Qed.

Lemma links_ext h h' a l t : (forall z, z ∈ a :: l -> next h' z = next h z) -> (forall z, z ∈ l ++ [t] -> prev h' z = prev h z) ->
  links h (a :: l ++ [t]) -> links h' (a :: l ++ [t]).
Proof.
  revert a; induction l as [|b l IH]; intros a Hn Hp L.
  - destruct L as (L1 & L2 & _); cbn; rewrite Hn, Hp by (apply elem_of_cons; auto); auto.
  - destruct L as (L1 & L2 & L3); split; [rewrite Hn by (apply elem_of_cons; auto); exact L1|split; [rewrite Hp by (apply elem_of_cons; auto); exact L2|]].
    apply IH; [intros z Hz; apply Hn, elem_of_cons; auto|intros z Hz; apply Hp, elem_of_cons; auto|exact L3].
Qed.

(** The linked part is [acc ++ [tail]]; a node [x] is appended to it. *)
Definition append (tail x : Z) (h : list_mem) : list_mem := set_prev x tail (set_next tail x h).

Lemma append_links h acc tail x : NoDup (acc ++ [tail]) -> x ∉ acc ++ [tail] -> links h (acc ++ [tail]) -> links (append tail x h) ((acc ++ [tail]) ++ [x]).
Proof.
  intros ND Nx L; apply links_snoc; [|unfold append; cbn; apply upd_eq|unfold append; cbn; apply upd_eq].
  destruct acc as [|a acc]; [exact I|]; apply (links_ext h); [| |exact L].
  - intros z Hz; unfold append; cbn; apply upd_ne; intros ->; apply NoDup_app in ND as (_ & D & _); exact (D tail Hz ltac:(apply elem_of_cons; auto)).
  - intros z Hz; unfold append; cbn; apply upd_ne; intros ->; apply Nx; cbn; apply elem_of_cons; auto.
Qed.

Record appended (h : list_mem) (acc : list Z) (tail : Z) (nodes : list Z) (done : list Z) (h' : list_mem) : Prop := {
  ap_links : links h' (acc ++ tail :: done);
  ap_next z : z ∉ tail :: nodes -> next h' z = next h z;
  ap_prev z : z ∉ nodes -> prev h' z = prev h z
}.

Lemma append_other h tail x z : z <> tail -> next (append tail x h) z = next h z.
Proof. apply upd_ne. Qed.

Lemma append_prev h tail x z : z <> x -> prev (append tail x h) z = prev h z.
Proof. apply upd_ne. Qed.

Lemma link_rest_ok : forall fuel rest b acc tail h, rest <> [] -> chain h b rest -> next h tail = b -> links h (acc ++ [tail]) -> NoDup (acc ++ tail :: rest) ->
  (length rest <= fuel)%nat -> exists t' h', link_rest fuel b tail h = Some (t', h') /\ last rest = Some t' /\ appended h acc tail rest rest h' /\
    (forall z, next h' z = next h z).
Proof.
  induction fuel as [|fuel IH]; intros rest b acc tail h Nr C E L ND Hf; destruct rest as [|x rest]; try contradiction; [cbn in Hf; lia|].
  cbn [link_rest]; destruct C as (-> & Nx & C); rewrite (chain_null (set_prev x tail h) _ rest); cycle 1.
  { apply (chain_ext h); [reflexivity|exact C]. }
  assert (ND2 : NoDup ((acc ++ [tail]) ++ x :: rest)) by (rewrite <- app_assoc; exact ND).
  pose proof ND2 as ND3; apply NoDup_app in ND3 as (ND3 & D & _).
  assert (L2 : links (set_prev x tail h) ((acc ++ [tail]) ++ [x])).
  { apply links_snoc; [|exact E|cbn; apply upd_eq]; destruct acc as [|a acc]; [exact I|]; apply (links_ext h); [reflexivity| |exact L].
    intros z Hz; cbn; apply upd_ne; intros ->; apply (D x); [cbn; apply elem_of_cons; auto|apply elem_of_cons; auto]. }
  destruct rest as [|y rest].
  - exists x, (set_prev x tail h); split; [reflexivity|split; [reflexivity|split; [|reflexivity]]]; split; [rewrite <- app_assoc in L2; exact L2|reflexivity|].
    intros z Hz; cbn; apply upd_ne; intros ->; apply Hz, elem_of_cons; auto.
  - destruct (IH (y :: rest) (next h x) (acc ++ [tail]) x (set_prev x tail h)) as (t' & h' & Eq & Lt & [A1 A2 A3] & Nn); trivial.
    + discriminate.
    + apply (chain_ext h); [reflexivity|exact C].
    + cbn [length] in *; lia.
    + exists t', h'; split; [exact Eq|split; [exact Lt|split; [|intros z; rewrite Nn; reflexivity]]]; split.
      * rewrite <- app_assoc in A1; exact A1.
      * intros z Hz; rewrite Nn; reflexivity.
      * intros z Hz; apply not_elem_of_cons in Hz as [Nz Hz]; rewrite A3 by exact Hz; apply upd_ne, Nz.
Qed.

(** One round of the merging loop. *)
Lemma final_round h acc tail x xs ys h1 done b t h' rest : h1 = append tail x h -> NoDup (acc ++ tail :: x :: xs ++ ys) -> links h (acc ++ [tail]) ->
  (links h1 ((acc ++ [tail]) ++ [x]) -> appended h1 (acc ++ [tail]) x (xs ++ ys) done h' /\ last (x :: done) = Some t /\ chain h' b rest) ->
  appended h acc tail (x :: xs ++ ys) (x :: done) h' /\ last (tail :: x :: done) = Some t /\ chain h' b rest.
Proof.
  intros -> ND L H; change (acc ++ tail :: x :: xs ++ ys) with (acc ++ [tail] ++ x :: xs ++ ys) in ND; rewrite app_assoc in ND; apply NoDup_app in ND as (ND1 & D & _).
  assert (Nx : x ∉ acc ++ [tail]) by (intros Hx; exact (D x Hx ltac:(apply elem_of_cons; auto))).
  destruct H as ([A1 A2 A3] & Lt & C); [apply append_links; assumption|].
  split; [split|split; [exact Lt|exact C]].
  - rewrite <- app_assoc in A1; exact A1.
  - intros z Hz; apply not_elem_of_cons in Hz as [Nt Hz]; rewrite A2 by exact Hz; apply append_other, Nt.
  - intros z Hz; apply not_elem_of_cons in Hz as [Nz Hz]; rewrite A3 by exact Hz; apply append_prev, Nz.
Qed.

Lemma appended_nodes h acc tail n1 n2 done h' : (forall z, z ∈ n1 -> z ∈ n2) -> appended h acc tail n1 done h' -> appended h acc tail n2 done h'.
Proof.
  intros S [A1 A2 A3]; split; [exact A1| |intros z Hz; apply A3; intros Hz'; apply Hz, S, Hz'].
  intros z Hz; apply not_elem_of_cons in Hz as [Nt Hz]; apply A2, not_elem_of_cons; split; [exact Nt|intros Hz'; apply Hz, S, Hz'].
Qed.

(** The node [x] of [x :: xs] is taken, [ys] is the other list. *)
Lemma final_step fuel_ok h acc tail x xs ys q out (next_call : Z -> list_mem -> option (Z * Z * list_mem)) : NoDup (acc ++ tail :: x :: xs ++ ys) -> ys <> [] ->
  chain h x (x :: xs) -> chain h q ys -> links h (acc ++ [tail]) ->
  (forall h1, fuel_ok -> xs <> [] -> NoDup ((acc ++ [tail]) ++ x :: xs ++ ys) -> chain h1 (next h x) xs -> chain h1 q ys -> links h1 ((acc ++ [tail]) ++ [x]) ->
     exists b t h' done rest, next_call (next h x) h1 = Some (b, t, h') /\ done ++ rest = out /\ rest <> [] /\
       appended h1 (acc ++ [tail]) x (xs ++ ys) done h' /\ last (x :: done) = Some t /\ chain h' b rest) ->
  (xs = [] -> out = ys) -> fuel_ok ->
  exists b t h' done rest, (let h1 := append tail x h in let a := next h1 x in if a =? 0 then Some (q, x, h1) else next_call a h1) = Some (b, t, h') /\
    done ++ rest = x :: out /\ rest <> [] /\ appended h acc tail (x :: xs ++ ys) done h' /\ last (tail :: done) = Some t /\ chain h' b rest.
Proof.
  intros ND NY (_ & Nx & Cx) Cy L Next Last Fo; cbv zeta.
  assert (Tn : forall z, z ∈ x :: xs ++ ys -> z <> tail).
  { intros z Hz ->; apply NoDup_app in ND as (_ & _ & N); apply NoDup_cons in N as [N _]; exact (N Hz). }
  assert (K : forall p l, (forall z, z ∈ l -> z ∈ xs ++ ys) -> chain h p l -> chain (append tail x h) p l).
  { intros p l S; apply chain_ext; intros z Hz; apply append_other, Tn, elem_of_cons; auto. }
  assert (NDx : NoDup ((acc ++ [tail]) ++ x :: xs ++ ys)) by (rewrite <- app_assoc; exact ND).
  rewrite append_other by (apply Tn, elem_of_cons; auto); rewrite (chain_null _ _ _ Cx); destruct xs as [|x' xs'].
  - exists q, x, (append tail x h), [x], ys; split; [reflexivity|split; [rewrite Last; reflexivity|split; [exact NY|]]].
    apply (final_round h acc tail x [] ys (append tail x h) [] q x); trivial; intros L1; split; [|split; [reflexivity|apply K; [intros z Hz; exact Hz|exact Cy]]].
    split; [exact L1|reflexivity|reflexivity].
  - pose proof NDx as ND2; apply NoDup_app in ND2 as (ND2 & D & _).
    assert (L1 : links (append tail x h) ((acc ++ [tail]) ++ [x])) by (apply append_links; trivial; intros Hx; exact (D x Hx ltac:(apply elem_of_cons; auto))).
    destruct (Next (append tail x h) Fo) as (b & t & h' & done & rest & E & Eo & Nr & A & Lt & C); trivial.
    + discriminate.
    + apply K; [intros z Hz; apply elem_of_app; auto|exact Cx].
    + apply K; [intros z Hz; apply elem_of_app; auto|exact Cy].
    + exists b, t, h', (x :: done), rest; split; [exact E|split; [cbn; rewrite Eo; reflexivity|split; [exact Nr|]]].
      apply (final_round h acc tail x (x' :: xs') ys (append tail x h) done b t); auto.
Qed.

Lemma merge_final_loop_ok : forall fuel xs ys x y acc tail h, NoDup (acc ++ tail :: (x :: xs) ++ y :: ys) -> chain h x (x :: xs) -> chain h y (y :: ys) ->
  links h (acc ++ [tail]) -> (length xs + length ys < fuel)%nat ->
  exists b t h' done rest, merge_final_loop cmp fuel x y tail h = Some (b, t, h') /\ done ++ rest = lmerge (x :: xs) (y :: ys) /\ rest <> [] /\
    appended h acc tail ((x :: xs) ++ y :: ys) done h' /\ last (tail :: done) = Some t /\ chain h' b rest.
Proof.
  induction fuel as [|fuel IH]; intros xs ys x y acc tail h ND Cx Cy L Hf; [lia|]; cbn [merge_final_loop]; rewrite list_merge_cons.
  destruct (Z.leb_spec (cmp x y) 0) as [Lx|Lx]; (destruct (decide (le x y)) as [D|D]; [|unfold le in D; try lia]); [|unfold le in D; lia|].
  - apply (final_step (length xs + length ys < S fuel)%nat h acc tail x xs (y :: ys) y (lmerge xs (y :: ys)) (fun a hh => merge_final_loop cmp fuel a y x hh)); trivial.
    + discriminate.
    + intros h1 Hf' Nn ND1 C1 C2 L1; destruct xs as [|x' xs']; [contradiction|]; pose proof C1 as [Ex _]; rewrite Ex in C1 |- *; cbn [length] in Hf'.
      apply IH; trivial; lia.
    + intros ->; reflexivity.
  - assert (Pm : (x :: xs) ++ y :: ys ≡ₚ y :: ys ++ x :: xs) by (rewrite (Permutation_app_comm (x :: xs)); reflexivity).
    destruct (final_step (length xs + length ys < S fuel)%nat h acc tail y ys (x :: xs) x (lmerge (x :: xs) ys) (fun b hh => merge_final_loop cmp fuel x b y hh))
      as (b & t & h' & done & rest & E & Eo & Nr & A & Lt & C); trivial.
    + rewrite <- Pm; exact ND.
    + discriminate.
    + intros h1 Hf' Nn ND1 C1 C2 L1; destruct ys as [|y' ys']; [contradiction|]; pose proof C1 as [Ey _]; rewrite Ey in C1 |- *; cbn [length] in Hf'.
      destruct (IH xs ys' x y' (acc ++ [tail]) y h1) as (b & t & h' & done & rest & E & Eo & Nr & A & Lt & C); trivial; [|lia|].
      * rewrite (Permutation_app_comm (x :: xs)); exact ND1.
      * exists b, t, h', done, rest; do 3 (split; [assumption|]); split; [|auto].
        apply (appended_nodes _ _ _ ((x :: xs) ++ y' :: ys')); [intros z; rewrite !elem_of_app; tauto|exact A].
    + intros ->; apply list_merge_nil_r.
    + exists b, t, h', done, rest; do 3 (split; [assumption|]); split; [|auto].
      apply (appended_nodes _ _ _ (y :: ys ++ x :: xs)); [intros z Hz; rewrite Pm; exact Hz|exact A].
Qed.

(** The two lists become a circular list after [head]. *)
Lemma merge_final_ok fuel head a b h xs ys : xs <> [] -> ys <> [] -> NoDup (head :: xs ++ ys) -> chain h a xs -> chain h b ys -> (length xs + length ys <= fuel)%nat ->
  exists h', merge_final cmp fuel head a b h = Some h' /\ links h' (head :: lmerge xs ys ++ [head]) /\
    (forall z, z ∉ head :: xs ++ ys -> next h' z = next h z /\ prev h' z = prev h z).
Proof.
  intros Nx Ny ND Ca Cb Hf; destruct xs as [|x xs]; [contradiction|]; destruct ys as [|y ys]; [contradiction|]; pose proof Ca as [-> _]; pose proof Cb as [-> _].
  set (nodes := (x :: xs) ++ y :: ys) in *; cbn [length] in Hf; unfold merge_final.
  destruct (merge_final_loop_ok fuel xs ys x y [] head h ND Ca Cb I ltac:(lia)) as (b & t & h1 & done & rest & -> & Eo & Nr & [A1 A2 A3] & Lt & C); cbn [mbind option_bind].
  assert (Pm : done ++ rest ≡ₚ nodes) by (rewrite Eo; apply merge_Permutation).
  assert (NDm : NoDup (head :: done ++ rest)) by (rewrite Pm; exact ND).
  destruct (exists_last (l := head :: done)) as [acc [t' Et]]; [discriminate|].
  assert (t' = t) as -> by (rewrite Et, last_snoc in Lt; congruence).
  change (head :: done ++ rest) with ((head :: done) ++ rest) in NDm; rewrite Et, <- app_assoc in NDm; cbn [app] in A1, NDm; rewrite Et in A1.
  pose proof NDm as ND2; apply NoDup_app in ND2 as (_ & D & ND2); apply NoDup_cons in ND2 as [Ntr _].
  assert (Lr : (length rest <= fuel)%nat) by (assert (length (done ++ rest) = length nodes) as El by (rewrite Pm; reflexivity); rewrite length_app in El; unfold nodes in El; rewrite length_app in El; cbn [length] in El; lia).
  destruct (link_rest_ok fuel rest b acc t (set_next t b h1) Nr) as (t2 & h2 & -> & L2 & [B1 B2 B3] & Bn); trivial.
  { apply (chain_ext h1); [|exact C]; intros z Hz; cbn; apply upd_ne; intros ->; contradiction. }
  { cbn; apply upd_eq. }
  { destruct acc as [|a' acc]; [exact I|]; apply (links_ext h1); [|reflexivity|exact A1].
    intros z Hz; cbn; apply upd_ne; intros ->; exact (D t Hz ltac:(apply elem_of_cons; auto)). }
  cbn [mbind option_bind]; eexists; split; [reflexivity|].
  assert (Ea : acc ++ t :: rest = head :: lmerge (x :: xs) (y :: ys)) by (rewrite <- Eo; change (head :: done ++ rest) with ((head :: done) ++ rest); rewrite Et, <- app_assoc; reflexivity).
  rewrite Ea in B1; destruct (exists_last (l := lmerge (x :: xs) (y :: ys))) as [l [t2' El]]; [apply lmerge_nil; discriminate|].
  assert (t2' = t2) as ->.
  { assert (La : last (done ++ rest) = Some t2') by (rewrite Eo, El; apply last_snoc).
    destruct (exists_last Nr) as [r' [t3 Er]]; rewrite Er in La, L2; rewrite app_assoc, last_snoc in La; rewrite last_snoc in L2; congruence. }
  assert (Tin : t2 ∈ nodes) by (rewrite <- Pm, Eo, El; apply elem_of_app; right; apply elem_of_cons; auto).
  assert (NDl : NoDup (head :: l ++ [t2])) by (rewrite <- El, <- Eo, Pm; exact ND).
  split.
  - rewrite El; change (head :: (l ++ [t2]) ++ [head]) with (((head :: l) ++ [t2]) ++ [head]); apply links_snoc; [|cbn; apply upd_eq|cbn; apply upd_eq].
    rewrite El in B1; apply (links_ext h2); [| |exact B1].
    + intros z Hz; cbn; apply upd_ne; intros ->; change (head :: l ++ [t2]) with ((head :: l) ++ [t2]) in NDl.
      apply NoDup_app in NDl as (_ & Dl & _); exact (Dl t2 Hz ltac:(apply elem_of_cons; auto)).
    + intros z Hz; cbn; apply upd_ne; intros ->; apply NoDup_cons in NDl as [Nl _]; exact (Nl Hz).
  - intros z Hz; apply not_elem_of_cons in Hz as [Nh Hz]; assert (Nt2 : z <> t2) by (intros ->; contradiction).
    assert (Nt : z <> t) by (intros ->; assert (Ht : t ∈ head :: done) by (rewrite Et; apply elem_of_app; right; apply elem_of_cons; auto);
      apply elem_of_cons in Ht as [->|Ht]; [contradiction|]; apply Hz; rewrite <- Pm; apply elem_of_app; auto).
    assert (Nr' : z ∉ rest) by (intros Hr; apply Hz; rewrite <- Pm; apply elem_of_app; auto).
    cbn; rewrite !upd_ne by assumption; rewrite Bn, B3 by exact Nr'; cbn; rewrite upd_ne by exact Nt; split; [apply A2, not_elem_of_cons; auto|apply A3, Hz].
Qed.

(** ** Sortedness and stability *)

(** Neither of the two has to come first. *)
Definition eqv (e z : Z) : Prop := le e z /\ le z e.

#[local] Instance eqv_dec e z : Decision (eqv e z).
Proof. unfold eqv; apply _. Defined.

(** The equivalent nodes, in the order of the list. *)
Definition peers (e : Z) (l : list Z) : list Z := filter (eqv e) l.

Definition content (P : list (list Z)) : list Z := concat (rev P).

Lemma content_cons xs P : content (xs :: P) = content P ++ xs.
Proof. unfold content; cbn; rewrite concat_app; cbn; rewrite app_nil_r; reflexivity. Qed.

Section Order.
Context (TR : Transitive le) (TO : Total le).

Lemma peers_none e l : (forall z, z ∈ l -> ~ eqv e z) -> peers e l = [].
Proof.
  intros H; destruct (peers e l) as [|z l'] eqn:E; [reflexivity|exfalso].
  assert (Hz : z ∈ peers e l) by (rewrite E; apply elem_of_cons; auto); apply list_elem_of_filter in Hz as [Hz Hl]; exact (H z Hl Hz).
Qed.

Lemma peers_merge e xs ys : Sorted le xs -> peers e (lmerge xs ys) = peers e xs ++ peers e ys.
Proof.
  intros S; apply Sorted_StronglySorted in S; [|exact TR]; revert ys; induction S as [|x xs S IH F]; intros ys; [rewrite list_merge_nil_l; reflexivity|].
  induction ys as [|y ys IHy]; [unfold peers; rewrite list_merge_nil_r, app_nil_r; reflexivity|]; rewrite list_merge_cons; destruct (decide (le x y)) as [L|L].
  - unfold peers in *; rewrite !(filter_cons _ x), IH; destruct (decide (eqv e x)); reflexivity.
  - unfold peers in *; rewrite (filter_cons (eqv e) y (lmerge (x :: xs) ys)), (filter_cons (eqv e) y ys), IHy; destruct (decide (eqv e y)) as [[E1 E2]|]; [|reflexivity].
    fold (peers e (x :: xs)); rewrite (peers_none e (x :: xs)); [reflexivity|]; intros z Hz [F1 F2]; apply L.
    apply (TR _ e); [apply (TR _ z); [|exact F2]|exact E1]; apply elem_of_cons in Hz as [->|Hz]; [destruct (TO x x); assumption|].
    rewrite Forall_forall in F; apply F, Hz.
Qed.

Lemma peers_app e l l' : peers e (l ++ l') = peers e l ++ peers e l'.
Proof. apply filter_app. Qed.

Lemma absorb_sound e c : forall P, Forall (Sorted le) P -> Forall (Sorted le) (absorb c P) /\ peers e (content (absorb c P)) = peers e (content P).
Proof.
  induction c as [c IH|c IH|]; intros P S; cbn [absorb]; [|destruct P as [|a [|b P]]; auto|destruct P; auto].
  - destruct P as [|xs P]; [auto|]; apply Forall_cons in S as [Sx S]; destruct (IH P S) as [S' E]; split; [constructor; assumption|].
    rewrite !content_cons, !peers_app, E; reflexivity.
  - apply Forall_cons in S as [Sa S]; apply Forall_cons in S as [Sb S]; split; [constructor; [apply Sorted_list_merge; assumption|exact S]|].
    rewrite !content_cons, !peers_app, peers_merge, app_assoc by exact Sb; reflexivity.
Qed.

Lemma absorb_count_sound e c P : Forall (Sorted le) P -> Forall (Sorted le) (absorb_count c P) /\ peers e (content (absorb_count c P)) = peers e (content P).
Proof. destruct c; cbn [absorb_count]; [auto|apply absorb_sound|auto]. Qed.

Lemma runs_sound e L : forall count P, Forall (Sorted le) P -> Forall (Sorted le) (runs count P L) /\ peers e (content (runs count P L)) = peers e (content P ++ L).
Proof.
  induction L as [|x L IH]; intros count P S; cbn [runs]; [rewrite app_nil_r; auto|].
  destruct (absorb_count_sound e count P S) as [S1 E1]; destruct (IH (count + 1) ([x] :: absorb_count count P)) as [S2 E2]; [constructor; [repeat constructor|exact S1]|].
  split; [exact S2|]; rewrite E2, content_cons, !peers_app, E1; change (x :: L) with ([x] ++ L); rewrite peers_app, app_assoc; reflexivity.
Qed.

Lemma runs_perm L : forall count P, concat (runs count P L) ≡ₚ concat P ++ L.
Proof.
  induction L as [|x L IH]; intros count P; cbn [runs]; [rewrite app_nil_r; reflexivity|].
  rewrite IH; cbn [concat app]; rewrite absorb_count_perm, Permutation_middle; reflexivity.
Qed.

Lemma collect_sound e P : forall acc, Sorted le acc -> Forall (Sorted le) P -> Sorted le (collect acc P) /\ peers e (collect acc P) = peers e (content P ++ acc) /\
  collect acc P ≡ₚ concat P ++ acc.
Proof.
  induction P as [|xs P IH]; intros acc Sa S; [auto|]; apply Forall_cons in S as [Sx S]; change (collect acc (xs :: P)) with (collect (lmerge xs acc) P).
  destruct (IH (lmerge xs acc)) as (S1 & E1 & P1); [apply Sorted_list_merge; assumption|exact S|]; split; [exact S1|split].
  - rewrite E1, content_cons, !peers_app, peers_merge, app_assoc by exact Sx; reflexivity.
  - rewrite P1, merge_Permutation; cbn [concat]; rewrite (Permutation_app_comm xs (concat P)), <- app_assoc; reflexivity.
Qed.
End Order.

(** ** The whole sort *)

Lemma runs_sized L : forall count P, 0 <= count -> sized P (sizes count) -> sized (runs count P L) (sizes (count + Z.of_nat (length L))).
Proof.
  induction L as [|x L IH]; intros count P Hc Sz; cbn [runs length]; [rewrite Z.add_0_r; exact Sz|].
  replace (count + Z.of_nat (S (length L))) with ((count + 1) + Z.of_nat (length L)) by lia; apply IH; [lia|apply round_sized; assumption].
Qed.

(** Two elements or more leave two runs or more. *)
Lemma runs_two x y L : exists xs ys P, runs 0 [] (x :: y :: L) = xs :: ys :: P.
Proof.
  assert (Sz : sized (runs 0 [] (x :: y :: L)) (sizes (0 + Z.of_nat (length (x :: y :: L))))) by (apply runs_sized; [lia|constructor]); cbn [length] in Sz.
  replace (0 + Z.of_nat (S (S (length L)))) with (Z.pos (Pos.of_succ_nat (S (length L)))) in Sz by lia; cbn [sizes] in Sz.
  destruct (Pos.of_succ_nat (S (length L))) as [c|c|] eqn:E; [| |lia].
  - cbn [profile app] in Sz; rewrite profile_below in Sz; inversion Sz as [|xs ? P' ? _ Sz']; subst; inversion Sz' as [|ys ? P ? _ _]; subst; eauto.
  - cbn [profile app] in Sz; inversion Sz as [|xs ? P' ? _ Sz']; subst; inversion Sz' as [|ys ? P ? _ _]; subst; eauto.
Qed.

(** A doubly linked list whose last node is cut off from the head is
    null-terminated. *)
Lemma links_chain h L x t : links h (x :: L ++ [t]) -> NoDup (x :: L ++ [t]) -> Forall (fun z => z <> 0) (L ++ [t]) -> chain (set_next t 0 h) (next h x) (L ++ [t]).
Proof.
  revert x; induction L as [|y L IH]; intros x Lk ND NZ.
  - destruct Lk as (-> & _ & _); split; [reflexivity|split; [inversion NZ; assumption|cbn; apply upd_eq]].
  - destruct Lk as (-> & _ & Lk); apply NoDup_cons in ND as [_ ND]; cbn [app] in NZ; apply Forall_cons in NZ as [Ny NZ].
    split; [reflexivity|split; [exact Ny|]]; cbn [next set_next]; rewrite upd_ne; [apply IH; assumption|].
    intros ->; cbn [app] in ND; apply NoDup_cons in ND as [N _]; apply N, elem_of_app; right; apply elem_of_cons; auto.
Qed.

Lemma links_app_l h l l' : links h (l ++ l') -> links h l.
Proof.
  induction l as [|a l IH]; [exact (fun _ => I)|]; destruct l as [|b l]; [exact (fun _ => I)|]; intros (H1 & H2 & H3); split; [exact H1|split; [exact H2|exact (IH H3)]].
Qed.

Lemma links_last h l t x : links h ((l ++ [t]) ++ [x]) -> prev h x = t /\ next h t = x.
Proof.
  induction l as [|a l IH]; [intros (H1 & H2 & _); auto|]; destruct l as [|b l]; [intros (_ & _ & H1 & H2 & _); auto|]; intros (_ & _ & H); exact (IH H).
Qed.

(** From the runs on: they are collected and linked back. *)
Lemma collect_final fuel head pending h xs ys P : NoDup (head :: concat (xs :: ys :: P)) -> pending_runs h pending (xs :: ys :: P) ->
  (length (concat (xs :: ys :: P)) <= fuel)%nat -> exists h',
  (r ← collect_loop cmp fuel fuel pending (prev h pending) h; let '(list, pending, h) := r in merge_final cmp fuel head pending list h) = Some h' /\
  links h' (head :: collect xs (ys :: P) ++ [head]) /\ (forall z, z ∉ head :: concat (xs :: ys :: P) -> next h' z = next h z /\ prev h' z = prev h z).
Proof.
  intros ND (Nx & Cx & R) Hf; apply NoDup_cons in ND as [Nh ND]; change (concat (xs :: ys :: P)) with (xs ++ concat (ys :: P)) in *.
  assert (Lp : (length P < fuel)%nat).
  { destruct R as (Ny & _ & R); rewrite length_app in Hf; cbn [concat] in Hf; rewrite length_app in Hf.
    assert (Lc : forall p Q, pending_runs h p Q -> (length Q <= length (concat Q))%nat).
    { intros p Q; revert p; induction Q as [|q Q IH]; intros p HQ; cbn; [lia|]; destruct HQ as (Nq & _ & HQ); rewrite length_app.
      destruct q; [contradiction|]; specialize (IH _ HQ); cbn; lia. }
    specialize (Lc _ _ R); destruct xs; [contradiction|]; cbn [length] in Hf; lia. }
  destruct (collect_loop_ok fuel fuel pending (prev h pending) h xs ys P Nx Cx R ND Lp Hf) as (l' & p' & h1 & acc & xs' & -> & Ca & Cb & Na & Nb & Pm & Em & Fn & Fp).
  cbn [mbind option_bind]; assert (Lm : (length xs' + length acc <= fuel)%nat) by (rewrite <- length_app, Pm; exact Hf).
  destruct (merge_final_ok fuel head p' l' h1 xs' acc Nb Na) as (h' & -> & Lk & Fr); trivial.
  { apply NoDup_cons; split; [rewrite Pm; exact Nh|rewrite Pm; exact ND]. }
  exists h'; split; [reflexivity|split; [rewrite Em in Lk; exact Lk|]]; intros z Hz; apply not_elem_of_cons in Hz as [Nz Hz].
  destruct (Fr z) as [-> ->]; [apply not_elem_of_cons; split; [exact Nz|rewrite Pm; exact Hz]|split; [apply Fn, Hz|apply Fp]].
Qed.

Lemma list_sort_ok fuel head h L : Transitive le -> Total le -> links h (head :: L ++ [head]) -> NoDup (head :: L) -> Forall (fun z => z <> 0) L ->
  Z.of_nat (length L) < 2 ^ 64 -> (length L <= fuel)%nat ->
  exists h' S, list_sort cmp fuel head h = Some h' /\ links h' (head :: S ++ [head]) /\ S ≡ₚ L /\ Sorted le S /\ (forall e, peers e S = peers e L) /\
    (forall z, z ∉ head :: L -> next h' z = next h z /\ prev h' z = prev h z).
Proof.
  intros TR TO Lk ND NZ Hl Hf; unfold list_sort; destruct L as [|x [|y L]].
  - destruct Lk as (E1 & E2 & _); rewrite E1, E2, Z.eqb_refl; exists h, []; repeat split; auto; constructor.
  - destruct Lk as (E1 & E2 & E3 & E4 & _); rewrite E1, E4, Z.eqb_refl; exists h, [x]; repeat split; auto; repeat constructor.
  - set (L0 := x :: y :: L) in *; destruct (exists_last (l := y :: L)) as [M [t Et]]; [discriminate|].
    assert (E0 : L0 = (x :: M) ++ [t]) by (unfold L0; rewrite Et; reflexivity); rewrite E0 in Lk.
    change (head :: ((x :: M) ++ [t]) ++ [head]) with (((head :: x :: M) ++ [t]) ++ [head]) in Lk; destruct (links_last _ _ _ _ Lk) as [Ep _]; rewrite Ep.
    apply links_app_l in Lk; pose proof ND as ND2; rewrite E0 in ND2, NZ; pose proof (links_chain h (x :: M) head t Lk ND2 NZ) as C; rewrite <- E0 in C.
    assert (Ex : next h head = x) by (destruct Lk as [E _]; exact E).
    assert (Nxt : x <> t) by (intros ->; rewrite Ex in *; apply NoDup_cons in ND2 as [_ ND2]; cbn [app] in ND2; apply NoDup_cons in ND2 as [N _]; apply N, elem_of_app; right; apply elem_of_cons; auto).
    rewrite (proj2 (Z.eqb_neq (next h head) t)) by (rewrite Ex; exact Nxt); apply NoDup_cons in ND as [Nh ND].
    assert (Ht : t ∈ L0) by (rewrite E0; apply elem_of_app; right; apply elem_of_cons; auto).
    destruct (sort_loop_ok fuel fuel L0 (next h head) 0 0 (set_next t 0 h) []) as (p & h1 & -> & R & Fr);
      [discriminate|exact C|exact ND|reflexivity|lia|constructor|lia|exact Hf|exact Hf|].
    cbn [mbind option_bind]; destruct (runs_two x y L) as (xs & ys & P & Er); fold L0 in Er; rewrite Er in R.
    pose proof (runs_perm L0 0 []) as Pm; rewrite Er in Pm; cbn [concat app] in Pm; change (xs ++ ys ++ concat P) with (concat (xs :: ys :: P)) in Pm.
    destruct (collect_final fuel head p h1 xs ys P) as (h' & E & Lk' & Fr'); [apply NoDup_cons; split; rewrite Pm; assumption|exact R|rewrite Pm; exact Hf|].
    exists h', (collect xs (ys :: P)); split; [exact E|split; [exact Lk'|]].
    assert (Sx : forall e, Sorted le xs /\ Forall (Sorted le) (ys :: P) /\ peers e (content (xs :: ys :: P)) = peers e L0).
    { intros e; destruct (runs_sound TR TO e L0 0 [] (Forall_nil_2 _)) as [S1 S2]; rewrite Er in S1, S2; apply Forall_cons in S1 as [S1 S1']; auto. }
    destruct (Sx 0) as (S1 & S2 & _); split; [|split; [exact (proj1 (collect_sound TR TO 0 (ys :: P) xs S1 S2))|split]].
    + rewrite (proj2 (proj2 (collect_sound TR TO 0 (ys :: P) xs S1 S2))), <- Pm; apply Permutation_app_comm.
    + intros e; rewrite (proj1 (proj2 (collect_sound TR TO e (ys :: P) xs S1 S2))), <- content_cons; apply Sx.
    + intros z Hz; apply not_elem_of_cons in Hz as [Nz Hz]; destruct (Fr' z) as [-> ->]; [apply not_elem_of_cons; split; [exact Nz|rewrite Pm; exact Hz]|].
      destruct (Fr z Hz) as [-> ->]; cbn; rewrite upd_ne by (intros ->; contradiction); auto.
Qed.
End Sound.
