(* ===== verification/Glob.v ===== *)
(** Shell-style pattern matching, lib/glob.c, against a reference semantics of
    patterns.

    A C string is the list of its characters up to the NUL; a pointer into it
    is the rest of the list, or [Past] when it points behind the NUL, where
    reading is undefined. *)
From Stdlib Require Import ZArith Lia Bool.
From stdpp Require Import base list.
From S2P Require Import Prelude.

Local Open Scope Z_scope.

(** ** Strings *)

Abbreviation ch_nul := 0.
Abbreviation ch_bang := 33.
Abbreviation ch_star := 42.
Abbreviation ch_minus := 45.
Abbreviation ch_quest := 63.
Abbreviation ch_open := 91.
Abbreviation ch_backslash := 92.
Abbreviation ch_close := 93.

Inductive cptr := At (l : list Z) | Past.

(** [*p++] *)
Definition read (p : cptr) : option (Z * cptr) :=
  match p with
  | At (c :: l) => Some (c, At l)
  | At [] => Some (ch_nul, Past)
  | Past => None
  end.

(** ** The code *)

(** The loop over the spans of a class, with the character [a] read and [l] to
    come: whether [c] is in a span, and the pattern behind the class.  [None]:
    the class is not closed. *)
Fixpoint class_loop (l : list Z) (a c : Z) (m : bool) : option (bool * list Z) :=
  match l with
  | [] => None
  | x :: l' =>
    let single :=
      let m := m || ((a <=? c) && (c <=? a)) in
      if x =? ch_close then Some (m, l') else class_loop l' x c m in
    if x =? ch_minus then
      match l' with
      | [] => None
      | b :: l'' =>
        if b =? ch_close then single
        else
          let m := m || ((a <=? c) && (c <=? b)) in
          match l'' with
          | [] => None
          | a :: l3 => if a =? ch_close then Some (m, l3) else class_loop l3 a c m
          end
      end
    else single
  end.

(** The first character of a class may be a closing bracket. *)
Definition match_class (l : list Z) (c : Z) : option (bool * list Z) :=
  match l with
  | [] => None
  | a :: l => class_loop l a c false
  end.

Inductive glob_result := Matched (b : bool) | Overread.

(** The state of the loop: pattern and string, and where to go back to. *)
Record glob_state := mk_glob { pat : cptr; str : cptr; back : option (cptr * cptr) }.

(** [backtrack]: [c] is the character that did not match. *)
Definition backtrack (c : Z) (s : glob_state) : glob_result + glob_state :=
  match back s with
  | None => inl (Matched false)
  | Some (back_pat, back_str) =>
    if c =? ch_nul then inl (Matched false)
    else
      match read back_str with
      | None => inl Overread
      | Some (_, back_str) => inr (mk_glob back_pat back_str (Some (back_pat, back_str)))
      end
  end.

(** [literal]: [s] is the state with both characters read. *)
Definition literal (c d : Z) (s : glob_state) : glob_result + glob_state :=
  if c =? d then if d =? ch_nul then inl (Matched true) else inr s
  else backtrack c s.

(** One round of the loop. *)
Definition glob_step (s : glob_state) : glob_result + glob_state :=
  match read (str s), read (pat s) with
  | Some (c, str'), Some (d, pat') =>
    let s' := mk_glob pat' str' (back s) in
    if d =? ch_quest then
      if c =? ch_nul then inl (Matched false) else inr s'
    else if d =? ch_star then
      match read pat' with
      | None => inl Overread
      | Some (e, _) => if e =? ch_nul then inl (Matched true) else inr (mk_glob pat' (str s) (Some (pat', str s)))
      end
    else if d =? ch_open then
      match pat' with
      | Past => inl Overread
      | At l =>
        let inverted := match l with x :: _ => x =? ch_bang | [] => false end in
        match match_class (if inverted then tail l else l) c with
        | None => literal c d s'
        | Some (m, rest) => if eqb m inverted then backtrack c s' else inr (mk_glob (At rest) str' (back s))
        end
      end
    else if d =? ch_backslash then
      match read pat' with
      | None => inl Overread
      | Some (d, pat') => literal c d (mk_glob pat' str' (back s))
      end
    else literal c d s'
  | _, _ => inl Overread
  end.

Fixpoint glob_loop (fuel : nat) (s : glob_state) : option glob_result :=
  match fuel with
  | O => None
  | S fuel => match glob_step s with inl r => Some r | inr s => glob_loop fuel s end
  end.

Definition glob_match (fuel : nat) (p s : list Z) : option glob_result := glob_loop fuel (mk_glob (At p) (At s) None).

(** ** Reference semantics *)

(** A class is a list of spans. *)
Inductive token := TAny | TStar | TClass (inverted : bool) (spans : list (Z * Z)) | TLit (c : Z).

Definition in_spans (c : Z) (spans : list (Z * Z)) : Prop := exists a b, (a, b) ∈ spans /\ a <= c <= b.

(** A span [a-b], or a single [a] when no [b] follows the minus before the
    closing bracket. *)
Fixpoint class_spans (l : list Z) (a : Z) : option (list (Z * Z) * list Z) :=
  match l with
  | [] => None
  | x :: l' =>
    let single :=
      if x =? ch_close then Some ([(a, a)], l')
      else '(sp, r) ← class_spans l' x; Some ((a, a) :: sp, r) in
    if x =? ch_minus then
      match l' with
      | [] => None
      | b :: l'' =>
        if b =? ch_close then single
        else
          match l'' with
          | [] => None
          | a' :: l3 => if a' =? ch_close then Some ([(a, b)], l3) else '(sp, r) ← class_spans l3 a'; Some ((a, b) :: sp, r)
          end
      end
    else single
  end.

Definition class_token (l : list Z) : option (token * list Z) :=
  let inverted := match l with x :: _ => x =? ch_bang | [] => false end in
  match (if inverted then tail l else l) with
  | [] => None
  | a :: l => '(sp, r) ← class_spans l a; Some (TClass inverted sp, r)
  end.

(** The first token of a pattern and the rest; an opening bracket without a
    matching close stands for itself. *)
Definition next_token (p : list Z) : option (token * list Z) :=
  match p with
  | [] => None
  | d :: p =>
    if d =? ch_quest then Some (TAny, p)
    else if d =? ch_star then Some (TStar, p)
    else if d =? ch_open then match class_token p with Some t => Some t | None => Some (TLit d, p) end
    else if d =? ch_backslash then match p with [] => None | c :: p => Some (TLit c, p) end
    else Some (TLit d, p)
  end.

(** [tokens p ts]: the pattern [p] is the sequence of tokens [ts].  A backslash
    at the end stands for nothing. *)
Inductive tokens : list Z -> list token -> Prop :=
| tokens_nil : tokens [] []
| tokens_backslash : tokens [ch_backslash] []
| tokens_cons p t p' ts : next_token p = Some (t, p') -> tokens p' ts -> tokens p (t :: ts).

(** A single-character token admits [c]. *)
Definition admits (t : token) (c : Z) : Prop :=
  match t with
  | TAny => True
  | TStar => False
  | TClass false sp => in_spans c sp
  | TClass true sp => ~ in_spans c sp
  | TLit d => c = d
  end.

Inductive gmatch : list token -> list Z -> Prop :=
| gm_nil : gmatch [] []
| gm_one t ts c s : admits t c -> gmatch ts s -> gmatch (t :: ts) (c :: s)
| gm_star ts s s' : gmatch ts s' -> gmatch (TStar :: ts) (s ++ s').
