(* ===== verification/GlobSound.v ===== *)
(** [glob_match] decides the reference semantics of patterns with one level of
    backtracking, in a number of rounds quadratic in the lengths. *)
From Stdlib Require Import ZArith Lia Bool.
From stdpp Require Import base list.
From S2P Require Import Prelude Glob.

Local Open Scope Z_scope.

(** ** Classes *)

Definition in_spans_b (c : Z) (sp : list (Z * Z)) : bool := existsb (fun ab => (ab.1 <=? c) && (c <=? ab.2)) sp.

Lemma in_spans_b_spec c sp : in_spans_b c sp = true <-> in_spans c sp.
Proof.
  unfold in_spans_b, in_spans; rewrite existsb_exists; split.
  - intros ([a b] & I & H); exists a, b; split; [apply list_elem_of_In; exact I|cbn in H; lia].
  - intros (a & b & I & H); exists (a, b); split; [apply list_elem_of_In; exact I|cbn; lia].
Qed.

Lemma class_loop_spans c : forall n l a m, (length l <= n)%nat ->
  class_loop l a c m = '(sp, r) ← class_spans l a; Some (m || in_spans_b c sp, r).
Proof.
  induction n as [|n IH]; intros [|x l] a m H; cbn in H; try lia; [reflexivity|reflexivity|]; cbn [class_loop class_spans].
  assert (Single : (if x =? ch_close then Some (m || ((a <=? c) && (c <=? a)), l) else class_loop l x c (m || ((a <=? c) && (c <=? a)))) =
    '(sp, r) ← (if x =? ch_close then Some ([(a, a)], l) else '(sp, r) ← class_spans l x; Some ((a, a) :: sp, r)); Some (m || in_spans_b c sp, r)).
  { destruct (x =? ch_close); [cbn; rewrite orb_false_r; reflexivity|]; rewrite IH by lia.
    destruct (class_spans l x) as [[sp r]|]; cbn; [rewrite orb_assoc|]; reflexivity. }
  destruct (x =? ch_minus); [|exact Single]; destruct l as [|b l]; [reflexivity|]; destruct (b =? ch_close); [exact Single|].
  destruct l as [|a' l]; [reflexivity|]; destruct (a' =? ch_close); [cbn; rewrite orb_false_r; reflexivity|]; rewrite IH by (cbn in H; lia).
  destruct (class_spans l a') as [[sp r]|]; cbn; [rewrite orb_assoc|]; reflexivity.
Qed.

(** A class takes characters off the pattern, and its spans start at them. *)
Lemma class_spans_sub : forall n l a sp r, (length l <= n)%nat -> class_spans l a = Some (sp, r) ->
  (length r < length l)%nat /\ (forall x, x ∈ r -> x ∈ l) /\ (forall a' b', (a', b') ∈ sp -> a' ∈ a :: l).
Proof.
  induction n as [|n IH]; intros [|x l] a sp r H; cbn in H; try lia; try discriminate; cbn [class_spans]; intros E.
  assert (Sub : forall l' y sp' r', (length l' <= n)%nat -> (forall z, z ∈ y :: l' -> z ∈ x :: l) -> (length l' < length (x :: l))%nat ->
    class_spans l' y = Some (sp', r') -> forall b, sp = (a, b) :: sp' -> r = r' ->
    (length r < length (x :: l))%nat /\ (forall z, z ∈ r -> z ∈ x :: l) /\ (forall a' b', (a', b') ∈ sp -> a' ∈ a :: x :: l)).
  { intros l' y sp' r' Hn Hs Hl E' b -> ->; destruct (IH _ _ _ _ Hn E') as (I1 & I2 & I3); split; [lia|split].
    - intros z Hz; apply Hs, elem_of_cons; right; apply I2, Hz.
    - intros a' b' I; apply elem_of_cons in I as [[= -> ->]|I]; [apply elem_of_cons; auto|]; apply elem_of_cons; right; apply Hs, (I3 _ _ I). }
  assert (One : forall l' b, (length l' < length (x :: l))%nat -> (forall z, z ∈ l' -> z ∈ x :: l) -> sp = [(a, b)] -> r = l' ->
    (length r < length (x :: l))%nat /\ (forall z, z ∈ r -> z ∈ x :: l) /\ (forall a' b', (a', b') ∈ sp -> a' ∈ a :: x :: l)).
  { intros l' b Hl Hs -> ->; split; [exact Hl|split; [exact Hs|]]; intros a' b' I; apply list_elem_of_singleton in I as [= -> ->]; apply elem_of_cons; auto. }
  assert (Single : (if x =? ch_close then Some ([(a, a)], l) else '(sp, r) ← class_spans l x; Some ((a, a) :: sp, r)) = Some (sp, r) ->
    (length r < length (x :: l))%nat /\ (forall z, z ∈ r -> z ∈ x :: l) /\ (forall a' b', (a', b') ∈ sp -> a' ∈ a :: x :: l)).
  { destruct (x =? ch_close); [intros [= <- <-]; apply (One l a); trivial; [cbn; lia|intros z Hz; apply elem_of_cons; auto]|].
    destruct (class_spans l x) as [[sp' r']|] eqn:E'; [|discriminate]; intros [= <- <-]; apply (Sub l x sp' r' ltac:(lia)) with a; trivial; cbn; lia. }
  destruct (x =? ch_minus); [|exact (Single E)]; destruct l as [|b l]; [discriminate|]; destruct (b =? ch_close); [exact (Single E)|].
  destruct l as [|a' l]; [discriminate|].
  assert (Hs : forall z, z ∈ a' :: l -> z ∈ x :: b :: a' :: l) by (intros z Hz; apply elem_of_cons; right; apply elem_of_cons; right; exact Hz).
  destruct (a' =? ch_close); [injection E as <- <-; apply (One l b); trivial; [cbn; lia|intros z Hz; apply Hs, elem_of_cons; auto]|].
  destruct (class_spans l a') as [[sp' r']|] eqn:E'; [|discriminate]; injection E as <- <-; apply (Sub l a' sp' r') with b; trivial; cbn in *; lia.
Qed.

Lemma match_class_token l c inverted : inverted = match l with x :: _ => x =? ch_bang | [] => false end ->
  match class_token l with
  | Some (TClass i sp, r) => i = inverted /\ match_class (if inverted then tail l else l) c = Some (in_spans_b c sp, r) /\
      (length r < length l)%nat /\ (forall x, x ∈ r -> x ∈ l) /\ (forall a b, (a, b) ∈ sp -> a ∈ l)
  | Some _ => False
  | None => match_class (if inverted then tail l else l) c = None
  end.
Proof.
  intros ->; unfold class_token; set (i := match l with x :: _ => x =? ch_bang | [] => false end).
  assert (T : forall z, z ∈ (if i then tail l else l) -> z ∈ l) by (intros z; destruct i; [destruct l; [trivial|intros Hz; apply elem_of_cons; auto]|trivial]).
  assert (Ln : (length (if i then tail l else l) <= length l)%nat) by (destruct i; [destruct l; cbn; lia|lia]).
  destruct (if i then tail l else l) as [|a l'] eqn:E; [reflexivity|]; cbn [match_class]; rewrite (class_loop_spans c (length l') l' a false ltac:(lia)).
  destruct (class_spans l' a) as [[sp r]|] eqn:Es; [|reflexivity]; destruct (class_spans_sub _ _ _ _ _ (le_n _) Es) as (H1 & H2 & H3).
  cbn in Ln; split; [reflexivity|split; [reflexivity|split; [lia|split]]].
  - intros x Hx; apply T, elem_of_cons; right; apply H2, Hx.
  - intros a' b' I; apply T, (H3 _ _ I).
Qed.

(** ** Tokens *)

Definition single (t : token) : Prop := t <> TStar.

Lemma next_token_sub p t r : next_token p = Some (t, r) -> (length r < length p)%nat /\ (forall x, x ∈ r -> x ∈ p).
Proof.
  destruct p as [|d p]; [discriminate|]; cbn [next_token].
  assert (One : forall t' : token, Some (t', p) = Some (t, r) -> (length r < length (d :: p))%nat /\ (forall x, x ∈ r -> x ∈ d :: p)).
  { intros t' [= <- <-]; split; [cbn; lia|intros x Hx; apply elem_of_cons; auto]. }
  destruct (d =? ch_quest); [apply One|]; destruct (d =? ch_star); [apply One|]; destruct (d =? ch_open).
  - pose proof (match_class_token p 0 _ eq_refl) as M; destruct (class_token p) as [[t' r']|]; [|apply One]; intros [= <- <-].
    destruct t'; try contradiction; destruct M as (_ & _ & H1 & H2 & _); split; [cbn; lia|intros x Hx; apply elem_of_cons; auto].
  - destruct (d =? ch_backslash); [|apply One]; destruct p as [|c p]; [discriminate|]; intros [= <- <-]; split; [cbn; lia|].
    intros x Hx; do 2 (apply elem_of_cons; right); exact Hx.
Qed.

(** Matching by the first token. *)
Lemma gmatch_cons t ts s : single t -> gmatch (t :: ts) s <-> exists c s', s = c :: s' /\ admits t c /\ gmatch ts s'.
Proof.
  intros N; split; [intros H; inversion H; subst; [eauto|destruct N; reflexivity]|intros (c & s' & -> & A & G); constructor; assumption].
Qed.

Lemma gmatch_star ts s : gmatch (TStar :: ts) s <-> exists w s', s = w ++ s' /\ gmatch ts s'.
Proof.
  split; [intros H; inversion H as [|? ? ? ? A|]; subst; [destruct A|eauto]|intros (w & s' & -> & G); constructor; exact G].
Qed.

Lemma gmatch_pre pre : Forall single pre -> forall ts s, gmatch (pre ++ ts) s -> exists w s', s = w ++ s' /\ length w = length pre /\ gmatch ts s'.
Proof.
  induction 1 as [|t pre N F IH]; intros ts s G; [exists [], s; auto|]; cbn [app] in G; apply gmatch_cons in G as (c & s' & -> & _ & G); [|exact N].
  destruct (IH ts s' G) as (w & s2 & -> & L & G2); exists (c :: w), s2; cbn; auto.
Qed.

(** ** The loop *)

Definition chars (l : list Z) : Prop := Forall (fun c => 0 < c) l.

Lemma chars_sub l l' : (forall x, x ∈ l' -> x ∈ l) -> chars l -> chars l'.
Proof. unfold chars; rewrite !Forall_forall; auto. Qed.

Section Loop.
Context (p0 s0 : list Z) (ts0 : list token).

(** The tokens match some later part of the string. *)
Definition later (ts : list token) (s : list Z) : Prop := exists x s', s = x ++ s' /\ x <> [] /\ gmatch ts s'.

Lemma later_cons ts c s : later ts (c :: s) <-> gmatch ts s \/ later ts s.
Proof.
  split.
  - intros (x & s' & E & N & G); destruct x as [|y x]; [contradiction|]; injection E as <- ->; destruct x as [|z x]; [left; exact G|].
    right; exists (z :: x), s'; split; [reflexivity|split; [discriminate|exact G]].
  - intros [G|(x & s' & -> & N & G)]; [exists [c], s; split; [reflexivity|split; [discriminate|exact G]]|].
    exists (c :: x), s'; split; [reflexivity|split; [discriminate|exact G]].
Qed.

Lemma later_nil ts : ~ later ts [].
Proof. intros (x & s' & E & N & _); destruct x; [contradiction|discriminate]. Qed.

(** A pattern pointer at the tokens [ts], a suffix of those of the pattern. *)
Record at_tokens (p : list Z) (ts : list token) : Prop := {
  at_toks : tokens p ts;
  at_chars : chars p;
  at_suffix : exists pre0, ts0 = pre0 ++ ts;
  at_length : (length p <= length p0)%nat
}.

(** What the loop keeps: the pattern matches the string if and only if the rest
    of it matches the rest of the string, or it matches later after the last
    star; between the star and here there are only single tokens. *)
Inductive ginv : glob_state -> list Z -> list Z -> list token -> Prop :=
| ginv_none p s ts : at_tokens p ts -> chars s -> (gmatch ts0 s0 <-> gmatch ts s) -> ginv (mk_glob (At p) (At s) None) p s ts
| ginv_some p s ts bp pre w : at_tokens p ts -> chars (w ++ s) -> at_tokens bp (pre ++ ts) -> Forall single pre -> length w = length pre ->
    (gmatch ts0 s0 <-> gmatch ts s \/ later (pre ++ ts) (w ++ s)) -> ginv (mk_glob (At p) (At s) (Some (At bp, At (w ++ s)))) p s ts.

Definition len (p : cptr) : nat := match p with At l => length l | Past => 0 end.

Definition rounds (st : glob_state) : nat :=
  match back st with None => S (len (str st)) | Some (_, bs) => len bs end * S (length p0) + len (pat st).

Definition step_good (st : glob_state) (r : glob_result + glob_state) : Prop :=
  match r with
  | inl (Matched b) => b = true <-> gmatch ts0 s0
  | inl Overread => False
  | inr st' => (exists p s ts, ginv st' p s ts) /\ (rounds st' < rounds st)%nat \/ str st' = Past /\ exists sp, TClass true sp ∈ ts0
  end.

(** Going back to the last star when the rest does not match here. *)
Lemma backtrack_good st p s ts st1 : ginv st p s ts -> ~ gmatch ts s -> back st1 = back st -> step_good st (backtrack (match s with c :: _ => c | [] => 0 end) st1).
Proof.
  intros I N E; unfold backtrack; rewrite E; destruct I as [p s ts A Hc G|p s ts bp pre w A Hc Ab Fp Lw G]; cbn [back].
  { cbn; rewrite G; split; [discriminate|intros H; contradiction]. }
  assert (NL : s = [] -> ~ later (pre ++ ts) (w ++ s)).
  { intros -> (x & s' & Ex & Nx & Gx); apply gmatch_pre in Gx as (w' & s2 & -> & Lw' & _); [|exact Fp].
    rewrite app_nil_r in Ex; rewrite Ex, !length_app in Lw; destruct x; [contradiction|cbn in Lw; lia]. }
  destruct s as [|c s]; [cbn; rewrite G; split; [discriminate|intros [H|H]; [contradiction|exact (False_ind _ (NL eq_refl H))]]|].
  assert (Hc0 : 0 < c) by (unfold chars in Hc; rewrite Forall_forall in Hc; apply Hc, elem_of_app; right; apply elem_of_cons; auto).
  rewrite (proj2 (Z.eqb_neq c 0)) by lia; destruct (w ++ c :: s) as [|y bs] eqn:Eb; [destruct w; discriminate|]; cbn [read step_good].
  left; split; [|unfold rounds; cbn [back len str pat]; pose proof (at_length _ _ Ab); cbn [length]; nia].
  exists bp, bs, (pre ++ ts); apply (ginv_some bp bs (pre ++ ts) bp [] []); trivial.
  - unfold chars in *; apply Forall_cons in Hc as [_ Hc]; exact Hc.
  - rewrite G, later_cons; cbn [app]; split; [intros [H|H]; [contradiction|exact H]|tauto].
Qed.

(** Passing a single token. *)
Lemma pass_good p c s t p' ts bk : ginv (mk_glob (At p) (At (c :: s)) bk) p (c :: s) (t :: ts) -> single t -> admits t c -> next_token p = Some (t, p') -> tokens p' ts ->
  step_good (mk_glob (At p) (At (c :: s)) bk) (inr (mk_glob (At p') (At s) bk)).
Proof.
  intros I St Ad Nt Tk; destruct (next_token_sub _ _ _ Nt) as [Ln Sub]; left.
  assert (Ap' : at_tokens p (t :: ts) -> at_tokens p' ts).
  { intros [T C [pre0 E] L]; split; [exact Tk|exact (chars_sub _ _ Sub C)|exists (pre0 ++ [t]); rewrite <- app_assoc; exact E|lia]. }
  assert (Gm : gmatch (t :: ts) (c :: s) <-> gmatch ts s).
  { rewrite gmatch_cons by exact St; split; [intros (? & ? & [= <- <-] & _ & G); exact G|intros G; eauto]. }
  inversion I as [p1 s1 ts1 A Hc G|p1 s1 ts1 bp pre w A Hc Ab Fp Lw G]; subst.
  - split; [|unfold rounds; cbn [back len str pat length]; nia]; exists p', s, ts; constructor; [exact (Ap' A)|unfold chars in *; apply Forall_cons in Hc as [_ Hc]; exact Hc|rewrite G; exact Gm].
  - split; [|unfold rounds; cbn [back len str pat length]; nia]; exists p', s, ts.
    replace (w ++ c :: s) with ((w ++ [c]) ++ s) in * by (rewrite <- app_assoc; reflexivity).
    assert (Ep : (pre ++ [t]) ++ ts = pre ++ t :: ts) by (rewrite <- app_assoc; reflexivity).
    apply (ginv_some p' s ts bp (pre ++ [t]) (w ++ [c])); [exact (Ap' A)|exact Hc|rewrite Ep; exact Ab|apply Forall_app; split; [exact Fp|repeat constructor; exact St]| |].
    + rewrite !length_app, Lw; reflexivity.
    + rewrite Ep, G, <- Gm; reflexivity.
Qed.

(** Passing a star. *)
Lemma star_good p s p' ts bk : ginv (mk_glob (At p) (At s) bk) p s (TStar :: ts) -> next_token p = Some (TStar, p') -> tokens p' ts ->
  step_good (mk_glob (At p) (At s) bk) (inr (mk_glob (At p') (At s) (Some (At p', At s)))).
Proof.
  intros I Nt Tk; destruct (next_token_sub _ _ _ Nt) as [Ln Sub]; left.
  assert (Ap' : at_tokens p (TStar :: ts) -> at_tokens p' ts).
  { intros [T C [pre0 E] L]; split; [exact Tk|exact (chars_sub _ _ Sub C)|exists (pre0 ++ [TStar]); rewrite <- app_assoc; exact E|lia]. }
  assert (Gs : gmatch (TStar :: ts) s <-> gmatch ts s \/ later ts s).
  { rewrite gmatch_star; split; [intros ([|x w] & s' & -> & G); [left; exact G|right; exists (x :: w), s'; split; [reflexivity|split; [discriminate|exact G]]]|].
    intros [G|(x & s' & -> & _ & G)]; [exists [], s; auto|exists x, s'; auto]. }
  inversion I as [p1 s1 ts1 A Hc G|p1 s1 ts1 bp pre w A Hc Ab Fp Lw G]; subst.
  - split; [|unfold rounds; cbn [back len str pat length]; nia]; exists p', s, ts.
    apply (ginv_some p' s ts p' [] []); [exact (Ap' A)|exact Hc|exact (Ap' A)|constructor|reflexivity|rewrite G; exact Gs].
  - split; [|unfold rounds; cbn [back len str pat]; rewrite length_app; nia]; exists p', s, ts.
    apply (ginv_some p' s ts p' [] []); [exact (Ap' A)|unfold chars in *; apply Forall_app in Hc as [_ Hc]; exact Hc|exact (Ap' A)|constructor|reflexivity|].
    cbn [app]; rewrite <- Gs, G; split; [|auto]; intros [H|(x & s' & E & Nx & H)]; [exact H|].
    apply gmatch_pre in H as (w' & s2 & -> & Lw' & H); [|exact Fp]; apply gmatch_star in H as (v & s3 & -> & H); apply gmatch_star.
    assert (Es : exists u, s = u ++ v ++ s3).
    { exists (drop (length w) (x ++ w')); rewrite <- (drop_app_length' w s (length w)) at 1 by reflexivity; rewrite E, app_assoc.
      apply drop_app_le; rewrite length_app; lia. }
    destruct Es as [u ->]; exists (u ++ v), s3; rewrite <- app_assoc; auto.
Qed.

Lemma fail_good p s t ts bk st1 : ginv (mk_glob (At p) (At s) bk) p s (t :: ts) -> single t -> back st1 = bk -> (forall c s', s = c :: s' -> ~ admits t c) ->
  step_good (mk_glob (At p) (At s) bk) (backtrack (match s with c :: _ => c | [] => 0 end) st1).
Proof.
  intros I St E N; apply (backtrack_good _ p s (t :: ts)); trivial.
  rewrite gmatch_cons by exact St; intros (c & s' & -> & Ad & _); exact (N c s' eq_refl Ad).
Qed.

(** A literal character [e] of the pattern, with [d :: p] read up to [p']. *)
Lemma literal_good p s e p' ts bk : ginv (mk_glob (At p) (At s) bk) p s (TLit e :: ts) -> 0 < e -> next_token p = Some (TLit e, p') -> tokens p' ts ->
  step_good (mk_glob (At p) (At s) bk)
    (match s with c :: s' => literal c e (mk_glob (At p') (At s') bk) | [] => literal 0 e (mk_glob (At p') Past bk) end).
Proof.
  intros I He Nt Tk; unfold literal; rewrite (proj2 (Z.eqb_neq e 0)) by lia; destruct s as [|c s].
  - rewrite (proj2 (Z.eqb_neq 0 e)) by lia; apply (fail_good p [] (TLit e) ts bk (mk_glob (At p') Past bk) I); [discriminate|reflexivity|discriminate].
  - destruct (Z.eqb_spec c e) as [->|N]; [apply (pass_good p e s (TLit e) p' ts bk I); trivial; [discriminate|reflexivity]|].
    apply (fail_good p (c :: s) (TLit e) ts bk (mk_glob (At p') (At s) bk) I); [discriminate|reflexivity|intros c' s' [= <- <-]; exact N].
Qed.

(** A class; an inverted one also takes the NUL, and the string pointer is then
    behind it. *)
Lemma class_good p s i sp p' ts bk : ginv (mk_glob (At p) (At s) bk) p s (TClass i sp :: ts) -> (forall a b, (a, b) ∈ sp -> 0 < a) ->
  next_token p = Some (TClass i sp, p') -> tokens p' ts -> forall st1 : glob_state, back st1 = bk ->
  step_good (mk_glob (At p) (At s) bk)
    (match s with
     | c :: s' => if eqb (in_spans_b c sp) i then backtrack c st1 else inr (mk_glob (At p') (At s') bk)
     | [] => if eqb (in_spans_b 0 sp) i then backtrack 0 st1 else inr (mk_glob (At p') Past bk)
     end).
Proof.
  intros I Hp Nt Tk st1 E1; assert (St : single (TClass i sp)) by discriminate; destruct s as [|c s].
  - assert (in_spans_b 0 sp = false) as ->.
    { apply not_true_is_false; rewrite in_spans_b_spec; intros (a & b & J & H); specialize (Hp a b J); lia. }
    destruct i; cbn [eqb]; [|refine (fail_good p [] _ ts bk _ I St E1 _); discriminate].
    right; split; [reflexivity|]; exists sp; assert (A : at_tokens p (TClass true sp :: ts)) by (inversion I; assumption).
    destruct A as [_ _ [pre0 ->] _]; apply elem_of_app; right; apply elem_of_cons; auto.
  - assert (Ad : admits (TClass i sp) c <-> in_spans_b c sp <> i).
    { destruct i; cbn [admits]; rewrite <- (in_spans_b_spec c sp); destruct (in_spans_b c sp); intuition congruence. }
    destruct (eqb (in_spans_b c sp) i) eqn:E.
    + apply eqb_prop in E; refine (fail_good p (c :: s) _ ts bk _ I St E1 _); intros c' s' [= <- <-]; rewrite Ad; congruence.
    + apply (pass_good p c s _ p' ts bk I St); trivial; apply Ad; intros Ei; rewrite Ei, eqb_reflx in E; discriminate.
Qed.

Lemma ginv_goal st p s ts : ginv st p s ts -> gmatch ts s -> gmatch ts0 s0.
Proof. intros I G; destruct I as [p s ts A C H|p s ts bp pre w A C Ab F L H]; apply H; auto. Qed.

Lemma ginv_at st p s ts : ginv st p s ts -> exists bk, st = mk_glob (At p) (At s) bk /\ at_tokens p ts /\ chars s.
Proof.
  intros I; destruct I as [p s ts A C H|p s ts bp pre w A C Ab F L H]; eexists; (split; [reflexivity|split; [exact A|]]); [exact C|].
  unfold chars in *; apply Forall_app in C as [_ C]; exact C.
Qed.

Lemma step_ok st p s ts : ginv st p s ts -> step_good st (glob_step st).
Proof.
  intros I; destruct (ginv_at _ _ _ _ I) as (bk & -> & A & Cs); destruct (at_toks _ _ A) as [| |p t p' ts Nt Tk].
  { unfold glob_step; cbn [str pat read]; destruct s as [|c s].
    - cbn; split; [intros _; apply (ginv_goal _ _ _ _ I); constructor|reflexivity].
    - unfold chars in Cs; apply Forall_cons in Cs as [Hc _]; cbn [read Z.eqb]; unfold literal; rewrite (proj2 (Z.eqb_neq c 0)) by lia.
      apply (backtrack_good _ [] (c :: s) []); trivial; intros G; inversion G. }
  { unfold glob_step; cbn [str pat read]; destruct s as [|c s].
    - cbn; split; [intros _; apply (ginv_goal _ _ _ _ I); constructor|reflexivity].
    - unfold chars in Cs; apply Forall_cons in Cs as [Hc _]; cbn [read Z.eqb Pos.eqb]; unfold literal; rewrite (proj2 (Z.eqb_neq c 0)) by lia.
      apply (backtrack_good _ [ch_backslash] (c :: s) []); trivial; intros G; inversion G. }
  destruct p as [|d p]; [discriminate|]; pose proof (at_chars _ _ A) as Cp; unfold chars in Cp; apply Forall_cons in Cp as [Hd Cp].
  assert (Rs : read (At s) = Some (match s with c :: _ => c | [] => 0 end, match s with _ :: s' => At s' | [] => Past end)) by (destruct s; reflexivity).
  unfold glob_step; cbn [str pat]; rewrite Rs; cbn [read]; pose proof Nt as Nt'; cbn [next_token] in Nt'.
  destruct (d =? ch_quest) eqn:D1; [injection Nt' as <- <-|].
  { destruct s as [|c s]; cycle 1.
    { unfold chars in Cs; apply Forall_cons in Cs as [Hc _]; rewrite (proj2 (Z.eqb_neq c 0)) by lia; apply (pass_good _ c s TAny p ts bk I); [discriminate|exact Logic.I|exact Nt|exact Tk]. }
    pose proof (fail_good (d :: p) [] TAny ts bk (mk_glob (At p) Past bk) I ltac:(discriminate) eq_refl ltac:(discriminate)) as H.
    unfold backtrack in H; cbn [back Z.eqb] in H |- *; destruct bk as [[]|]; exact H. }
  destruct (d =? ch_star) eqn:D2; [injection Nt' as <- <-|].
  { pose proof (star_good _ s p ts bk I Nt Tk) as H; destruct p as [|e p]; cbn [read].
    - inversion Tk as [| |? ? ? ? E _]; subst; [|discriminate]; clear H; cbn.
      assert (G : gmatch [TStar] s) by (apply gmatch_star; exists s, []; rewrite app_nil_r; split; [reflexivity|constructor]).
      split; [intros _; exact (ginv_goal _ _ _ _ I G)|reflexivity].
    - apply Forall_cons in Cp as [He _]; rewrite (proj2 (Z.eqb_neq e 0)) by lia; exact H. }
  destruct (d =? ch_open) eqn:D3.
  { pose proof (match_class_token p (match s with c :: _ => c | [] => 0 end) _ eq_refl) as M; destruct (class_token p) as [[t' r]|]; cycle 1.
    - rewrite M; injection Nt' as <- <-; pose proof (literal_good _ s d p ts bk I Hd Nt Tk) as H; destruct s; exact H.
    - injection Nt' as -> ->; destruct t as [| |i sp|]; try contradiction; destruct M as (<- & -> & _ & _ & Hs).
      assert (Hp : forall a b, (a, b) ∈ sp -> 0 < a) by (intros a b J; rewrite Forall_forall in Cp; apply Cp, (Hs a b J)).
      pose proof (class_good _ s i sp p' ts bk I Hp Nt Tk (mk_glob (At p) (match s with _ :: s' => At s' | [] => Past end) bk) eq_refl) as H.
      destruct s; exact H. }
  destruct (d =? ch_backslash) eqn:D4.
  { destruct p as [|e p]; [discriminate|]; injection Nt' as <- <-; cbn [read]; apply Forall_cons in Cp as [He _].
    pose proof (literal_good _ s e p ts bk I He Nt Tk) as H; destruct s; exact H. }
  injection Nt' as <- <-; pose proof (literal_good _ s d p ts bk I Hd Nt Tk) as H; destruct s; exact H.
Qed.

(** The result, or a read behind the string in a class that is inverted. *)
Definition result_good (r : glob_result) : Prop :=
  match r with Matched b => b = true <-> gmatch ts0 s0 | Overread => exists sp, TClass true sp ∈ ts0 end.

Lemma loop_ok : forall fuel st p s ts, ginv st p s ts -> (S (rounds st) < fuel)%nat -> exists r, glob_loop fuel st = Some r /\ result_good r.
Proof.
  induction fuel as [|fuel IH]; intros st p s ts I Hf; [lia|]; cbn [glob_loop]; pose proof (step_ok st p s ts I) as H.
  destruct (glob_step st) as [[b|]|st']; cbn in H; [exists (Matched b); auto|contradiction|].
  destruct H as [[(p' & s' & ts' & I') L]|[P Inv]]; [apply (IH st' p' s' ts' I'); lia|].
  exists Overread; split; [|exact Inv]; destruct fuel as [|fuel]; [lia|]; cbn [glob_loop]; unfold glob_step; rewrite P; reflexivity.
Qed.
End Loop.

Lemma glob_match_ok p s ts : chars p -> chars s -> tokens p ts -> forall fuel, ((length s + 2) * (length p + 1) < fuel)%nat ->
  exists r, glob_match fuel p s = Some r /\ result_good s ts r.
Proof.
  intros Cp Cs Tk fuel Hf; apply (loop_ok p s ts fuel (mk_glob (At p) (At s) None) p s ts).
  - apply ginv_none; [split; trivial; exists []; reflexivity|exact Cs|reflexivity].
  - unfold rounds; cbn [back len str pat]; lia.
Qed.

(** Every pattern is a sequence of tokens. *)
Lemma tokens_total p : exists ts, tokens p ts.
Proof.
  induction p as [p IH] using (induction_ltof1 _ (@length Z)); destruct (next_token p) as [[t r]|] eqn:E.
  - destruct (IH r (proj1 (next_token_sub _ _ _ E))) as [ts T]; exists (t :: ts); econstructor; eassumption.
  - destruct p as [|d p]; [exists []; constructor|]; cbn [next_token] in E.
    destruct (d =? ch_quest); [discriminate|]; destruct (d =? ch_star); [discriminate|].
    destruct (d =? ch_open); [destruct (class_token p); discriminate|].
    destruct (Z.eqb_spec d ch_backslash) as [->|]; [|discriminate]; destruct p; [exists []; constructor|discriminate].
Qed.
