(* ===== verification/Kstrtox.v ===== *)
(** Reading numbers from strings: lib/kstrtox.c with the character table of
    lib/ctype.c, and the hexadecimal conversions of lib/hexdump.c.

    A C string is the list of its characters up to the NUL.  The functions are
    compared with the same reading over unbounded integers. *)
From Stdlib Require Import ZArith Lia Bool.
From stdpp Require Import base list.
From S2P Require Import Prelude.

Local Open Scope Z_scope.

(** ** Characters *)

Abbreviation _U := 0x01.
Abbreviation _L := 0x02.
Abbreviation _D := 0x04.
Abbreviation _C := 0x08.
Abbreviation _P := 0x10.
Abbreviation _S := 0x20.
Abbreviation _X := 0x40.
Abbreviation _SP := 0x80.

Definition _ctype : list Z :=
  replicate 9 _C ++ replicate 5 (Z.lor _C _S) ++ replicate 18 _C ++
  [Z.lor _S _SP] ++ replicate 15 _P ++ replicate 10 _D ++ replicate 7 _P ++
  replicate 6 (Z.lor _U _X) ++ replicate 20 _U ++ replicate 6 _P ++
  replicate 6 (Z.lor _L _X) ++ replicate 20 _L ++ replicate 4 _P ++ [_C] ++
  replicate 32 0 ++ [Z.lor _S _SP] ++ replicate 31 _P ++
  replicate 23 _U ++ [_P] ++ replicate 7 _U ++ replicate 24 _L ++ [_P] ++ replicate 8 _L.

Definition __ismask (c : Z) : Z := default 0 (_ctype !! Z.to_nat c).
Definition isxdigit (c : Z) : bool := negb (Z.land (__ismask c) (Z.lor _D _X) =? 0).
Definition isupper (c : Z) : bool := negb (Z.land (__ismask c) _U =? 0).
Definition __tolower (c : Z) : Z := if isupper c then c + 32 else c.
Definition _tolower (c : Z) : Z := Z.lor c 0x20.

(** [s[i]], the terminating NUL included. *)
Definition char_at (s : list Z) (i : nat) : Z := default 0 (s !! i).

(** ** Integers *)

Abbreviation EINVAL := 22.
Abbreviation ERANGE := 34.
Abbreviation KSTRTOX_OVERFLOW := 0x80000000.
Abbreviation INT_MAX := 0x7fffffff.
Abbreviation ULLONG_MAX := 0xffffffffffffffff.

(** The value written through the pointer, or the negated error code. *)
Inductive conv := Ok (v : Z) | Err (e : Z).

Definition _parse_integer_fixup_radix (s : list Z) (base : Z) : list Z * Z :=
  let base :=
    if base =? 0 then
      if char_at s 0 =? 48 then if (_tolower (char_at s 1) =? 120) && isxdigit (char_at s 2) then 16 else 8
      else 10
    else base in
  (if (base =? 16) && (char_at s 0 =? 48) && (_tolower (char_at s 1) =? 120) then drop 2 s else s, base).

(** The value of a digit. *)
Definition digit (c : Z) : option Z :=
  let lc := Z.lor c 0x20 in
  if (48 <=? c) && (c <=? 57) then Some (c - 48)
  else if (97 <=? lc) && (lc <=? 102) then Some (lc - 97 + 10)
  else None.

Fixpoint parse_loop (s : list Z) (base max_chars res rv : Z) : Z * Z :=
  if max_chars =? 0 then (res, rv)
  else
    match s with
    | [] => (res, rv)
    | c :: s =>
      match digit c with
      | None => (res, rv)
      | Some val =>
        if base <=? val then (res, rv)
        else
          let rv :=
            if negb (Z.land res (u64 (Z.shiftl ULLONG_MAX 60)) =? 0) && (res >? (ULLONG_MAX - val) / base)
            then Z.lor rv KSTRTOX_OVERFLOW else rv in
          parse_loop s base (max_chars - 1) (u64 (res * base + val)) (u32 (rv + 1))
      end
    end.

(** The value and the number of characters, with the overflow bit. *)
Definition _parse_integer_limit (s : list Z) (base max_chars : Z) : Z * Z := parse_loop s base max_chars 0 0.

Definition _parse_integer (s : list Z) (base : Z) : Z * Z := _parse_integer_limit s base INT_MAX.

Definition _kstrtoull (s : list Z) (base : Z) : conv :=
  let '(s, base) := _parse_integer_fixup_radix s base in
  let '(res, rv) := _parse_integer s base in
  if negb (Z.land rv KSTRTOX_OVERFLOW =? 0) then Err ERANGE
  else if rv =? 0 then Err EINVAL
  else
    let s := drop (Z.to_nat rv) s in
    let s := if char_at s 0 =? 10 then drop 1 s else s in
    if negb (char_at s 0 =? 0) then Err EINVAL else Ok res.

Definition kstrtoull (s : list Z) (base : Z) : conv := _kstrtoull (if char_at s 0 =? 43 then drop 1 s else s) base.

Definition kstrtoll (s : list Z) (base : Z) : conv :=
  if char_at s 0 =? 45 then
    match _kstrtoull (drop 1 s) base with
    | Err e => Err e
    | Ok tmp => if s64 (u64 (- tmp)) >? 0 then Err ERANGE else Ok (s64 (u64 (- tmp)))
    end
  else
    match kstrtoull s base with
    | Err e => Err e
    | Ok tmp => if s64 tmp <? 0 then Err ERANGE else Ok (s64 tmp)
    end.

(** The narrower types, by the conversion to them. *)
Definition narrow (cast : Z -> Z) (r : conv) : conv :=
  match r with
  | Err e => Err e
  | Ok tmp => if negb (tmp =? cast tmp) then Err ERANGE else Ok tmp
  end.

Definition _kstrtoul (s : list Z) (base : Z) : conv := narrow u64 (kstrtoull s base).
Definition _kstrtol (s : list Z) (base : Z) : conv := narrow s64 (kstrtoll s base).
Definition kstrtouint (s : list Z) (base : Z) : conv := narrow u32 (kstrtoull s base).
Definition kstrtoint (s : list Z) (base : Z) : conv := narrow s32 (kstrtoll s base).
Definition kstrtou16 (s : list Z) (base : Z) : conv := narrow (uwrap 16) (kstrtoull s base).
Definition kstrtos16 (s : list Z) (base : Z) : conv := narrow (swrap 16) (kstrtoll s base).
Definition kstrtou8 (s : list Z) (base : Z) : conv := narrow (uwrap 8) (kstrtoull s base).
Definition kstrtos8 (s : list Z) (base : Z) : conv := narrow (swrap 8) (kstrtoll s base).

(** [None]: no string is given. *)
Definition kstrtobool (s : option (list Z)) : conv :=
  match s with
  | None => Err EINVAL
  | Some s =>
    let c := char_at s 0 in
    if (c =? 121) || (c =? 89) || (c =? 49) then Ok 1
    else if (c =? 110) || (c =? 78) || (c =? 48) then Ok 0
    else if (c =? 111) || (c =? 79) then
      let d := char_at s 1 in
      if (d =? 110) || (d =? 78) then Ok 1
      else if (d =? 102) || (d =? 70) then Ok 0
      else Err EINVAL
    else Err EINVAL
  end.

(** ** Hexadecimal *)

Definition hex_asc : list Z := [48; 49; 50; 51; 52; 53; 54; 55; 56; 57; 97; 98; 99; 100; 101; 102].

Definition hex_byte_pack (byte : Z) : list Z :=
  [default 0 (hex_asc !! Z.to_nat (Z.shiftr (Z.land byte 0xf0) 4)); default 0 (hex_asc !! Z.to_nat (Z.land byte 0x0f))].

Definition hex_to_bin (ch : Z) : Z :=
  if (48 <=? ch) && (ch <=? 57) then ch - 48
  else
    let ch := __tolower ch in
    if (97 <=? ch) && (ch <=? 102) then ch - 97 + 10 else -1.

(** [count] bytes are written; on an error only those before it. *)
Fixpoint hex2bin (src : list Z) (count : nat) : conv * list Z :=
  match count with
  | O => (Ok 0, [])
  | S count =>
    let hi := hex_to_bin (char_at src 0) in
    let lo := hex_to_bin (char_at src 1) in
    if (hi <? 0) || (lo <? 0) then (Err EINVAL, [])
    else let '(r, dst) := hex2bin (drop 2 src) count in (r, Z.lor (Z.shiftl hi 4) lo :: dst)
  end.

Definition bin2hex (src : list Z) : list Z := concat (hex_byte_pack <$> src).
