(* ===== verification/KstrtoxSound.v ===== *)
(** Reading numbers is exact: the overflow check, although it is made only near
    the end of the range, finds every overflow, and each function accepts
    exactly the numbers of its result type. *)
From Stdlib Require Import ZArith Lia Bool.
From stdpp Require Import base list.
From S2P Require Import Prelude Lists Kstrtox.

Local Open Scope Z_scope.

(** ** Reading over unbounded integers *)

(** The digits at the start of a string, and the rest. *)
Fixpoint digits (base : Z) (s : list Z) : list Z * list Z :=
  match s with
  | [] => ([], [])
  | c :: s' =>
    match digit c with
    | Some v => if base <=? v then ([], s) else let '(ds, r) := digits base s' in (v :: ds, r)
    | None => ([], s)
    end
  end.

Definition value_from (base acc : Z) (ds : list Z) : Z := foldl (fun acc d => acc * base + d) acc ds.

(** A number ends at the NUL, or at a newline before it. *)
Definition ends (rest : list Z) : bool := match rest with [] => true | [c] => c =? 10 | _ => false end.

(** The magnitude read from [s]: [ERANGE] from 2^64 on. *)
Definition magnitude (s : list Z) (base : Z) : conv :=
  let '(body, base) := _parse_integer_fixup_radix s base in
  let '(ds, rest) := digits base body in
  let v := value_from base 0 ds in
  if 2 ^ 64 <=? v then Err ERANGE
  else if negb (bool_decide (ds = [])) && ends rest then Ok v else Err EINVAL.

Definition restrict (lo hi : Z) (r : conv) : conv :=
  match r with Ok v => if (lo <=? v) && (v <? hi) then Ok v else Err ERANGE | Err e => Err e end.

(** A number with an optional plus sign, and one with any sign. *)
Definition read_unsigned (s : list Z) (base hi : Z) : conv :=
  restrict 0 hi (magnitude (if char_at s 0 =? 43 then drop 1 s else s) base).

Definition read_signed (s : list Z) (base lo hi : Z) : conv :=
  if char_at s 0 =? 45 then restrict lo hi (match magnitude (drop 1 s) base with Ok v => Ok (- v) | Err e => Err e end)
  else read_unsigned s base hi.

(** ** The loop *)

Lemma digit_range c v : digit c = Some v -> 0 <= v < 16.
Proof.
  unfold digit; cbv zeta; destruct ((48 <=? c) && (c <=? 57)) eqn:E1; [intros H; injection H as H; lia|].
  destruct ((97 <=? Z.lor c 32) && (Z.lor c 32 <=? 102)) eqn:E2; [intros H; injection H as H; lia|discriminate].
Qed.

Lemma value_mono base ds : 1 <= base -> Forall (fun d => 0 <= d) ds -> forall acc, 0 <= acc -> acc <= value_from base acc ds.
Proof.
  intros Hb F; induction F as [|d ds Hd F IH]; intros acc Ha; cbn; [lia|].
  specialize (IH (acc * base + d) ltac:(nia)); fold (value_from base (acc * base + d) ds); nia.
Qed.

Lemma digits_range base s : Forall (fun d => 0 <= d) (digits base s).1.
Proof.
  induction s as [|c s IH]; cbn; [constructor|]; destruct (digit c) as [v|] eqn:E; [|constructor]; destruct (base <=? v); [constructor|].
  destruct (digits base s) as [ds r]; constructor; [apply (digit_range c v E)|exact IH].
Qed.

Lemma digits_split base s : exists t, s = t ++ (digits base s).2 /\ length t = length (digits base s).1.
Proof.
  induction s as [|c s IH]; cbn; [exists []; auto|]; destruct (digit c) as [v|]; [|exists []; auto]; destruct (base <=? v); [exists []; auto|].
  destruct (digits base s) as [ds r]; destruct IH as (t & E & L); exists (c :: t); cbn in *; split; congruence.
Qed.

Lemma overflow_bit n : 0 <= n < 2 ^ 31 -> Z.lor n KSTRTOX_OVERFLOW = n + KSTRTOX_OVERFLOW /\ Z.land n KSTRTOX_OVERFLOW = 0.
Proof.
  intros H; assert (E : Z.land n KSTRTOX_OVERFLOW = 0); [|split; [|exact E]].
  - change KSTRTOX_OVERFLOW with (2 ^ 31); apply Z.bits_inj'; intros i Hi; rewrite Z.land_spec, Z.bits_0, Z.pow2_bits_eqb by lia.
    destruct (Z.eqb_spec 31 i) as [<-|]; [|apply andb_false_r]; rewrite andb_true_r; apply Z.testbit_false; [lia|]; rewrite Z.div_small; [reflexivity|exact H].
  - symmetry; apply Z.add_nocarry_lor, E.
Qed.

(** The count with the overflow bit, for the value [v]. *)
Definition flagged (n v : Z) : Z := if 2 ^ 64 <=? v then n + KSTRTOX_OVERFLOW else n.

Lemma flag_lor n v : 0 <= n < 2 ^ 31 -> Z.lor (flagged n v) KSTRTOX_OVERFLOW = n + KSTRTOX_OVERFLOW.
Proof.
  intros H; destruct (overflow_bit n H) as [E _]; unfold flagged; destruct (_ <=? _); [|exact E].
  rewrite <- E, <- Z.lor_assoc, Z.lor_diag; reflexivity.
Qed.

Lemma flag_land n v : 0 <= n < 2 ^ 31 -> (Z.land (flagged n v) KSTRTOX_OVERFLOW =? 0) = negb (2 ^ 64 <=? v).
Proof.
  intros H; destruct (overflow_bit n H) as [E L]; unfold flagged; destruct (_ <=? _); cbn [negb]; [|rewrite L; reflexivity].
  rewrite <- E, Z.land_lor_distr_l, L, Z.lor_0_l; reflexivity.
Qed.

(** The top four bits are clear below 2^60. *)
Lemma top_bits res : 0 <= res < 2 ^ 64 -> Z.land res (u64 (Z.shiftl ULLONG_MAX 60)) = 0 <-> res < 2 ^ 60.
Proof.
  intros H; change (u64 (Z.shiftl ULLONG_MAX 60)) with (Z.shiftl (Z.ones 4) 60); split.
  - intros E; assert (D : res / 2 ^ 60 = 0); [|pose proof (Z.div_mod res (2 ^ 60) ltac:(lia)); pose proof (Z.mod_pos_bound res (2 ^ 60) ltac:(lia)); lia].
    assert (S : Z.shiftr (Z.land res (Z.shiftl (Z.ones 4) 60)) 60 = 0) by (rewrite E; reflexivity).
    rewrite Z.shiftr_land, Z.shiftr_shiftl_l, Z.sub_diag, Z.shiftl_0_r, Z.land_ones, Z.shiftr_div_pow2 in S by lia.
    rewrite Z.mod_small in S; [exact S|]; split; [apply Z.div_pos; lia|apply Z.div_lt_upper_bound; lia].
  - intros L; apply Z.bits_inj'; intros i Hi; rewrite Z.land_spec, Z.bits_0, Z.shiftl_spec by lia.
    destruct (Z.lt_ge_cases i 60) as [Li|Li]; [rewrite (Z.testbit_neg_r _ (i - 60)) by lia; apply andb_false_r|].
    rewrite (Z.bits_above_log2 res i) by (destruct (Z.eq_dec res 0) as [->|]; [cbn; lia|assert (Z.log2 res < 60) by (apply Z.log2_lt_pow2; lia); lia]); reflexivity.
Qed.

(** The check of one round. *)
Lemma overflow_check base v d : 2 <= base <= 16 -> 0 <= v -> 0 <= d < base ->
  v < 2 ^ 64 -> (negb (Z.land v (u64 (Z.shiftl ULLONG_MAX 60)) =? 0) && (v >? (ULLONG_MAX - d) / base)) = (2 ^ 64 <=? v * base + d).
Proof.
  intros Hb Hv Hd L; destruct (Z.lt_ge_cases v (2 ^ 60)) as [L60|L60].
  - rewrite (proj2 (top_bits v ltac:(lia)) L60); cbn [Z.eqb negb andb]; symmetry; apply Z.leb_gt; nia.
  - destruct (Z.eqb_spec (Z.land v (u64 (Z.shiftl ULLONG_MAX 60))) 0) as [E|_]; [apply top_bits in E; lia|cbn [negb andb]].
    assert (H : (ULLONG_MAX - d) / base < v <-> 2 ^ 64 <= v * base + d).
    { split; intros H; [pose proof (Z.mul_succ_div_gt (ULLONG_MAX - d) base ltac:(lia)); nia|apply Z.div_lt_upper_bound; nia]. }
    destruct (Z.leb_spec (2 ^ 64) (v * base + d)); destruct (Z.gtb_spec v ((ULLONG_MAX - d) / base)); trivial; lia.
Qed.

Lemma parse_loop_ok base : 2 <= base <= 16 -> forall s max v n, 0 <= v -> 0 <= n -> n + Z.of_nat (length s) < 2 ^ 31 -> Z.of_nat (length s) <= max ->
  let v' := value_from base v (digits base s).1 in
  parse_loop s base max (u64 v) (flagged n v) = (u64 v', flagged (n + Z.of_nat (length (digits base s).1)) v').
Proof.
  intros Hb; induction s as [|c s IH]; intros max v n Hv Hn Hl Hm; cbn [parse_loop digits fst].
  - cbn; rewrite Z.add_0_r; destruct (max =? 0); reflexivity.
  - cbn [length] in Hl, Hm; rewrite (proj2 (Z.eqb_neq max 0)) by lia; destruct (digit c) as [d|] eqn:E; [|cbn; rewrite Z.add_0_r; reflexivity].
    destruct (Z.leb_spec base d) as [L|L]; [cbn; rewrite Z.add_0_r; reflexivity|]; destruct (digit_range _ _ E) as [Hd _].
    set (rv := if _ && _ then _ else flagged n v); assert (Er : rv = flagged n (v * base + d)).
    { unfold rv; destruct (Z.lt_ge_cases v (2 ^ 64)) as [Lv|Lv].
      - rewrite (uwrap_id 64 v) by (unfold uin; lia); rewrite overflow_check by lia; rewrite flag_lor by lia.
        unfold flagged; rewrite (proj2 (Z.leb_gt (2 ^ 64) v)) by lia; reflexivity.
      - rewrite flag_lor by lia; unfold flagged; rewrite (proj2 (Z.leb_le (2 ^ 64) v)), (proj2 (Z.leb_le (2 ^ 64) (v * base + d))) by nia.
        destruct (_ && _); reflexivity. }
    rewrite Er; replace (u64 (u64 v * base + d)) with (u64 (v * base + d)).
    2:{ unfold uwrap; rewrite <- (Z.add_mod_idemp_l (v * base)), <- (Z.add_mod_idemp_l (_ mod _ * base)), Z.mul_mod_idemp_l by lia; reflexivity. }
    replace (u32 (flagged n (v * base + d) + 1)) with (flagged (n + 1) (v * base + d)).
    2:{ symmetry; unfold flagged; destruct (_ <=? _); rewrite uwrap_id by (unfold uin; lia); lia. }
    specialize (IH (max - 1) (v * base + d) (n + 1) ltac:(nia) ltac:(lia) ltac:(lia) ltac:(lia)); cbv zeta in IH; rewrite IH.
    destruct (digits base s) as [ds r]; cbn [fst length value_from foldl]; fold (value_from base (v * base + d) ds).
    replace (n + Z.of_nat (S (length ds))) with (n + 1 + Z.of_nat (length ds)) by lia; reflexivity.
Qed.

(** ** The functions *)

Definition base_ok (base : Z) : Prop := base = 0 \/ 2 <= base <= 16.

Lemma fixup_base s base : base_ok base -> 2 <= (_parse_integer_fixup_radix s base).2 <= 16 /\
  (length (_parse_integer_fixup_radix s base).1 <= length s)%nat /\ (forall c, c ∈ (_parse_integer_fixup_radix s base).1 -> c ∈ s).
Proof.
  intros H; unfold _parse_integer_fixup_radix; cbn [fst snd]; split; [|split].
  - destruct H as [->|H]; cbn [Z.eqb]; [destruct (_ =? 48); [destruct (_ && _)|]; lia|]; destruct (Z.eqb_spec base 0); lia.
  - destruct (_ && _); [rewrite length_drop|]; lia.
  - intros c; destruct (_ && _); [|trivial]; intros Hc; rewrite <- (take_drop 2 s); apply elem_of_app; auto.
Qed.

(** Strings hold no NUL and fit in memory. *)
Definition cstring (s : list Z) : Prop := Forall (fun c => c <> 0) s /\ Z.of_nat (length s) < 2 ^ 31.

Lemma ends_check rest : Forall (fun c => c <> 0) rest -> (char_at (if char_at rest 0 =? 10 then drop 1 rest else rest) 0 =? 0) = ends rest.
Proof.
  intros F; destruct rest as [|c rest]; [reflexivity|]; apply Forall_cons in F as [Nc F]; unfold char_at at 2; cbn [lookup list_lookup default]; cbn.
  destruct (Z.eqb_spec c 10) as [->|N].
  - destruct rest as [|c' rest]; [reflexivity|]; apply Forall_cons in F as [Nc' _]; cbn; apply Z.eqb_neq, Nc'.
  - cbn; rewrite (proj2 (Z.eqb_neq c 0) Nc); destruct rest; reflexivity.
Qed.

Lemma kstrtoull_magnitude s base : base_ok base -> cstring s -> _kstrtoull s base = magnitude s base.
Proof.
  intros Hb [F L]; unfold _kstrtoull, magnitude; destruct (fixup_base s base Hb) as (B & Ln & Sub).
  destruct (_parse_integer_fixup_radix s base) as [body b]; cbn [fst snd] in *; unfold _parse_integer, _parse_integer_limit.
  assert (Fb : Forall (fun c => c <> 0) body) by (rewrite Forall_forall in *; auto).
  pose proof (parse_loop_ok b B body INT_MAX 0 0 ltac:(lia) ltac:(lia) ltac:(lia) ltac:(lia)) as P; cbv zeta in P.
  change (u64 0) with 0 in P; change (flagged 0 0) with 0 in P; rewrite P; rewrite Z.add_0_l.
  destruct (digits_split b body) as (t & Eb & Lt); pose proof (value_mono b _ ltac:(lia) (digits_range b body) 0 ltac:(lia)) as Nv.
  destruct (digits b body) as [ds rest]; cbn [fst snd] in *; set (v := value_from b 0 ds) in *.
  assert (Ld : Z.of_nat (length ds) < 2 ^ 31) by (rewrite Eb, length_app in Ln; lia).
  rewrite flag_land, negb_involutive by lia; destruct (Z.leb_spec (2 ^ 64) v) as [O|O]; [reflexivity|].
  unfold flagged; rewrite (proj2 (Z.leb_gt (2 ^ 64) v)) by lia; rewrite Nat2Z.id, (uwrap_id 64 v) by (unfold uin; lia).
  destruct ds as [|d ds]; [reflexivity|]; rewrite bool_decide_eq_false_2 by discriminate; cbn [negb andb].
  rewrite (proj2 (Z.eqb_neq (Z.of_nat (length (d :: ds))) 0)) by (cbn; lia).
  rewrite Eb, <- Lt, drop_app_length, ends_check; [destruct (ends rest); reflexivity|].
  rewrite Eb in Fb; apply Forall_app in Fb as [_ Fb]; exact Fb.
Qed.

Lemma cstring_drop n s : cstring s -> cstring (drop n s).
Proof. intros [F L]; split; [apply Forall_drop, F|rewrite length_drop; lia]. Qed.

Lemma magnitude_range s base v : base_ok base -> magnitude s base = Ok v -> 0 <= v < 2 ^ 64.
Proof.
  intros Hb; unfold magnitude; destruct (fixup_base s base Hb) as (B & _); destruct (_parse_integer_fixup_radix s base) as [body b]; cbn [fst snd] in *.
  pose proof (value_mono b _ ltac:(lia) (digits_range b body) 0 ltac:(lia)) as Nv; destruct (digits b body) as [ds rest]; cbn [fst] in Nv.
  destruct (Z.leb_spec (2 ^ 64) (value_from b 0 ds)); [discriminate|]; destruct (_ && _); [intros [= <-]; lia|discriminate].
Qed.

Lemma kstrtoull_ok s base : base_ok base -> cstring s -> kstrtoull s base = read_unsigned s base (2 ^ 64).
Proof.
  intros Hb C; unfold kstrtoull, read_unsigned; set (s' := if char_at s 0 =? 43 then drop 1 s else s).
  assert (C' : cstring s') by (unfold s'; destruct (_ =? 43); [apply cstring_drop|]; exact C).
  rewrite kstrtoull_magnitude by assumption; pose proof (magnitude_range s' base) as R; destruct (magnitude s' base) as [v|e]; [|reflexivity].
  specialize (R v Hb eq_refl); cbn; rewrite (proj2 (Z.leb_le 0 v)), (proj2 (Z.ltb_lt v (2 ^ 64))) by lia; reflexivity.
Qed.

Lemma restrict_restrict lo hi lo' hi' r : lo' <= lo -> hi <= hi' -> restrict lo hi (restrict lo' hi' r) = restrict lo hi r.
Proof.
  intros H1 H2; destruct r as [v|e]; [cbn|reflexivity]; destruct (Z.leb_spec lo' v), (Z.ltb_spec v hi'); cbn; trivial;
    destruct (Z.leb_spec lo v), (Z.ltb_spec v hi); cbn; trivial; lia.
Qed.

Lemma kstrtoll_ok s base : base_ok base -> cstring s -> kstrtoll s base = read_signed s base (- 2 ^ 63) (2 ^ 63).
Proof.
  intros Hb C; unfold kstrtoll, read_signed; destruct (char_at s 0 =? 45).
  - rewrite kstrtoull_magnitude by (trivial; apply cstring_drop, C); pose proof (magnitude_range (drop 1 s) base) as R.
    destruct (magnitude (drop 1 s) base) as [v|e]; [|reflexivity]; specialize (R v Hb eq_refl); cbn [restrict].
    assert (E : s64 (u64 (- v)) = swrap 64 (- v)) by (apply swrap_uwrap; lia); rewrite E.
    destruct (Z.le_gt_cases v (2 ^ 63)) as [L|L].
    + rewrite swrap_id by (unfold sin; lia); rewrite Z.gtb_ltb, (proj2 (Z.ltb_ge 0 (- v))) by lia.
      rewrite (proj2 (Z.leb_le (- 2 ^ 63) (- v))), (proj2 (Z.ltb_lt (- v) (2 ^ 63))) by lia; reflexivity.
    + assert (Es : swrap 64 (- v) = 2 ^ 64 - v).
      { unfold swrap; replace (- v + 2 ^ (64 - 1)) with ((2 ^ 64 - v + 2 ^ 63) + (-1) * 2 ^ 64) by lia; rewrite Z.mod_add, Z.mod_small by lia; lia. }
      rewrite Es, Z.gtb_ltb, (proj2 (Z.ltb_lt 0 _)), (proj2 (Z.leb_gt (- 2 ^ 63) (- v))) by lia; reflexivity.
  - rewrite kstrtoull_ok by assumption; unfold read_unsigned; set (m := magnitude _ _); rewrite <- (restrict_restrict 0 (2 ^ 63) 0 (2 ^ 64) m) by lia.
    destruct (restrict 0 (2 ^ 64) m) as [v|e] eqn:E; [|reflexivity].
    assert (Hv : 0 <= v < 2 ^ 64) by (destruct m as [w|]; cbn in E; [|discriminate]; destruct (_ && _) eqn:T in E; [injection E as <-; lia|discriminate]).
    cbn [restrict]; rewrite (proj2 (Z.leb_le 0 v)) by lia; cbn [andb]; destruct (Z.ltb_spec v (2 ^ 63)) as [L|L].
    + rewrite swrap_id by (unfold sin; lia); rewrite (proj2 (Z.ltb_ge v 0)) by lia; reflexivity.
    + assert (Es : swrap 64 v = v - 2 ^ 64) by (unfold swrap; rewrite <- (Z.mod_add _ (-1)), Z.mod_small by lia; lia).
      rewrite Es, (proj2 (Z.ltb_lt (v - 2 ^ 64) 0)) by lia; reflexivity.
Qed.

Lemma narrow_unsigned w s base : 0 < w <= 64 -> base_ok base -> cstring s -> narrow (uwrap w) (kstrtoull s base) = read_unsigned s base (2 ^ w).
Proof.
  intros Hw Hb C; rewrite kstrtoull_ok by assumption; unfold read_unsigned; set (m := magnitude _ _).
  pose proof (Z.pow_le_mono_r 2 w 64 ltac:(lia) ltac:(lia)); rewrite <- (restrict_restrict 0 (2 ^ w) 0 (2 ^ 64) m) by lia.
  destruct (restrict 0 (2 ^ 64) m) as [v|e] eqn:E; [|reflexivity].
  assert (Hv : 0 <= v < 2 ^ 64) by (destruct m as [x|]; cbn in E; [|discriminate]; destruct (_ && _) eqn:T in E; [injection E as <-; lia|discriminate]).
  cbn [narrow restrict]; rewrite (proj2 (Z.leb_le 0 v)) by lia; cbn [andb]; pose proof (uwrap_range w v ltac:(lia)) as U; unfold uin in U.
  destruct (Z.ltb_spec v (2 ^ w)) as [L|L]; [rewrite (uwrap_id w v), Z.eqb_refl by (unfold uin; lia); reflexivity|].
  rewrite (proj2 (Z.eqb_neq v (uwrap w v))) by lia; reflexivity.
Qed.

Lemma narrow_signed w s base : 0 < w <= 64 -> base_ok base -> cstring s -> narrow (swrap w) (kstrtoll s base) = read_signed s base (- 2 ^ (w - 1)) (2 ^ (w - 1)).
Proof.
  intros Hw Hb C; rewrite kstrtoll_ok by assumption; pose proof (Z.pow_le_mono_r 2 (w - 1) 63 ltac:(lia) ltac:(lia)).
  assert (Nr : forall lo r, (lo = - 2 ^ (w - 1) \/ lo = 0) -> (forall v, r = Ok v -> lo = 0 -> 0 <= v) -> narrow (swrap w) r = restrict lo (2 ^ (w - 1)) r).
  { intros lo r Hlo Hr; destruct r as [v|e]; [|reflexivity]; cbn [narrow restrict]; pose proof (swrap_range w v ltac:(lia)) as S; unfold sin in S.
    destruct (Z.leb_spec lo v), (Z.ltb_spec v (2 ^ (w - 1))); cbn [andb].
    - rewrite (swrap_id w v), Z.eqb_refl by (unfold sin; lia); reflexivity.
    - rewrite (proj2 (Z.eqb_neq v _)) by lia; reflexivity.
    - destruct Hlo as [->| ->]; [rewrite (proj2 (Z.eqb_neq v _)) by lia; reflexivity|specialize (Hr v eq_refl eq_refl); lia].
    - destruct Hlo as [->| ->]; [rewrite (proj2 (Z.eqb_neq v _)) by lia; reflexivity|specialize (Hr v eq_refl eq_refl); lia]. }
  unfold read_signed, read_unsigned; destruct (char_at s 0 =? 45); set (m := magnitude _ _).
  - rewrite (Nr (- 2 ^ (w - 1))); [apply restrict_restrict; lia|left; reflexivity|intros v _ E; pose proof (Z.pow_pos_nonneg 2 (w - 1)); lia].
  - rewrite (Nr 0); [apply restrict_restrict; lia|right; reflexivity|]; intros v E _; destruct m as [x|]; cbn in E; [|discriminate].
    destruct (_ && _) eqn:T in E; [injection E as <-; lia|discriminate].
Qed.

(** ** Hexadecimal *)

Lemma hex_byte b : 0 <= b < 256 -> exists hi lo, hex_byte_pack b = [hi; lo] /\ 0 <= hex_to_bin hi /\ 0 <= hex_to_bin lo /\ Z.lor (Z.shiftl (hex_to_bin hi) 4) (hex_to_bin lo) = b.
Proof.
  intros H; eexists _, _; split; [reflexivity|].
  assert (F : Forall (fun b => 0 <= hex_to_bin (default 0 (hex_asc !! Z.to_nat (Z.shiftr (Z.land b 0xf0) 4))) /\ 0 <= hex_to_bin (default 0 (hex_asc !! Z.to_nat (Z.land b 0x0f))) /\
    Z.lor (Z.shiftl (hex_to_bin (default 0 (hex_asc !! Z.to_nat (Z.shiftr (Z.land b 0xf0) 4)))) 4) (hex_to_bin (default 0 (hex_asc !! Z.to_nat (Z.land b 0x0f)))) = b) (seqZ 0 256)) by checked.
  rewrite Forall_forall in F; apply (F b), elem_of_seqZ; lia.
Qed.

Lemma hex_roundtrip src rest : Forall (fun b => 0 <= b < 256) src -> hex2bin (bin2hex src ++ rest) (length src) = (Ok 0, src).
Proof.
  induction 1 as [|b src Hb F IH]; [reflexivity|]; destruct (hex_byte b Hb) as (hi & lo & E & H1 & H2 & H3).
  unfold bin2hex in *; cbn [fmap list_fmap concat length hex2bin]; rewrite E; cbn [app char_at lookup list_lookup default drop]; unfold char_at; cbn.
  rewrite (proj2 (Z.ltb_ge (hex_to_bin hi) 0)), (proj2 (Z.ltb_ge (hex_to_bin lo) 0)) by lia; cbn [orb]; rewrite drop_0 || idtac; rewrite IH, H3; reflexivity.
Qed.
