(* ===== verification/Semaphore.v ===== *)
(** Counting semaphores, kernel/locking/semaphore.c.

    Every operation runs under the spinlock of the semaphore except while a
    task sleeps in [__down_common], so the sections under the lock are the
    atomic steps of a system of tasks.  A task is identified with its waiter
    structure. *)
From Stdlib Require Import ZArith Lia Bool.
From stdpp Require Import base list gmap relations.
From S2P Require Import Prelude Lists.

Local Open Scope Z_scope.

(** ** Data *)

Abbreviation EINTR := 4.
Abbreviation ETIME := 62.
Abbreviation TASK_INTERRUPTIBLE := 0x0001.
Abbreviation TASK_UNINTERRUPTIBLE := 0x0002.
Abbreviation TASK_WAKEKILL := 0x0100.
Abbreviation TASK_KILLABLE := 0x0102.
Abbreviation MAX_SCHEDULE_TIMEOUT := 0x7fffffffffffffff.

Record semaphore := mk_sem { count : Z; wait_list : list Z }.

(** The locals of a task that waits. *)
Record semaphore_waiter := mk_waiter { up_flag : bool; w_state : Z; w_timeout : Z }.

(** The semaphore and the waiters, with the number of times it was acquired
    and released. *)
Record sem_sys := mk_sys { sem : semaphore; waiters : gmap Z semaphore_waiter; acquired : Z; released : Z }.

Definition sema_init (val : Z) : sem_sys := mk_sys (mk_sem (u32 val) []) ∅ 0 0.

(** Whether signals are pending, and a fatal one. *)
Record signals := mk_signals { pending : bool; fatal : bool }.

Definition signal_pending_state (state : Z) (p : signals) : bool :=
  if Z.land state (Z.lor TASK_INTERRUPTIBLE TASK_WAKEKILL) =? 0 then false
  else if negb (pending p) then false
  else negb (Z.land state TASK_INTERRUPTIBLE =? 0) || fatal p.

(** ** Operations *)

(** A call returns with the semaphore, sleeps, or fails. *)
Inductive down_result := Acquired | Sleeps | Fails (e : Z).

Definition acquire (s : sem_sys) : sem_sys := mk_sys (mk_sem (u32 (count (sem s) - 1)) (wait_list (sem s))) (waiters s) (acquired s + 1) (released s).

(** [list_del], and the waiter is gone when the function returns. *)
Definition leave (t : Z) (s : sem_sys) : sem_sys :=
  mk_sys (mk_sem (count (sem s)) (filter (fun x => x <> t) (wait_list (sem s)))) (delete t (waiters s)) (acquired s) (released s).

(** The loop of [__down_common] up to the sleep. *)
Definition wait_round (t state timeout : Z) (p : signals) (s : sem_sys) : down_result * sem_sys :=
  if signal_pending_state state p then (Fails EINTR, leave t s)
  else if timeout <=? 0 then (Fails ETIME, leave t s)
  else (Sleeps, mk_sys (sem s) (<[t := mk_waiter false state timeout]> (waiters s)) (acquired s) (released s)).

Definition __down_common (t state timeout : Z) (p : signals) (s : sem_sys) : down_result * sem_sys :=
  let s := mk_sys (mk_sem (count (sem s)) (wait_list (sem s) ++ [t])) (<[t := mk_waiter false state timeout]> (waiters s)) (acquired s) (released s) in
  wait_round t state timeout p s.

(** [schedule_timeout], kernel/time/timer.c, where [before] and [after] are the
    values of [jiffies] when the sleep starts and ends. *)
Definition schedule_timeout (timeout before after : Z) : Z :=
  let out t := if t <? 0 then 0 else t in
  if timeout =? MAX_SCHEDULE_TIMEOUT then out timeout
  else if timeout <? 0 then out timeout
  else out (s64 (u64 (timeout + before) - after)).

(** The loop of [__down_common] from the sleep on. *)
Definition wake (t before after : Z) (p : signals) (s : sem_sys) : option (down_result * sem_sys) :=
  w ← waiters s !! t;
  Some (let timeout := schedule_timeout (w_timeout w) before after in
        if up_flag w then (Acquired, mk_sys (sem s) (delete t (waiters s)) (acquired s + 1) (released s))
        else wait_round t (w_state w) timeout p s).

Definition __down (t : Z) := __down_common t TASK_UNINTERRUPTIBLE MAX_SCHEDULE_TIMEOUT.
Definition __down_interruptible (t : Z) := __down_common t TASK_INTERRUPTIBLE MAX_SCHEDULE_TIMEOUT.
Definition __down_killable (t : Z) := __down_common t TASK_KILLABLE MAX_SCHEDULE_TIMEOUT.
Definition __down_timeout (t timeout : Z) := __down_common t TASK_UNINTERRUPTIBLE timeout.

Definition down (t : Z) (p : signals) (s : sem_sys) : down_result * sem_sys :=
  if 0 <? count (sem s) then (Acquired, acquire s) else __down t p s.

Definition down_interruptible (t : Z) (p : signals) (s : sem_sys) : down_result * sem_sys :=
  if 0 <? count (sem s) then (Acquired, acquire s) else __down_interruptible t p s.

Definition down_killable (t : Z) (p : signals) (s : sem_sys) : down_result * sem_sys :=
  if 0 <? count (sem s) then (Acquired, acquire s) else __down_killable t p s.

Definition down_timeout (t timeout : Z) (p : signals) (s : sem_sys) : down_result * sem_sys :=
  if 0 <? count (sem s) then (Acquired, acquire s) else __down_timeout t timeout p s.

(** Returns 1 when the semaphore was not acquired. *)
Definition down_trylock (s : sem_sys) : Z * sem_sys :=
  let c := s32 (u32 (count (sem s) - 1)) in
  if 0 <=? c then (0, mk_sys (mk_sem (u32 c) (wait_list (sem s))) (waiters s) (acquired s + 1) (released s)) else (1, s).

(** The first waiter [t] leaves the list and owns the semaphore. *)
Definition __up (t : Z) (rest : list Z) (s : sem_sys) : sem_sys :=
  mk_sys (mk_sem (count (sem s)) rest) (alter (fun w => mk_waiter true (w_state w) (w_timeout w)) t (waiters s)) (acquired s) (released s + 1).

Definition up (s : sem_sys) : sem_sys :=
  match wait_list (sem s) with
  | [] => mk_sys (mk_sem (u32 (count (sem s) + 1)) []) (waiters s) (acquired s) (released s + 1)
  | t :: rest => __up t rest s
  end.

(** ** The system *)

(** The task a step belongs to; the semaphore may be released from any
    context.  A task that waits takes no step but to wake up, which it may do
    at any time. *)
Inductive step_by := By (t : Z) | Anyone.

Inductive sem_step : step_by -> sem_sys -> sem_sys -> Prop :=
| st_down t p s : waiters s !! t = None -> sem_step (By t) s (down t p s).2
| st_down_interruptible t p s : waiters s !! t = None -> sem_step (By t) s (down_interruptible t p s).2
| st_down_killable t p s : waiters s !! t = None -> sem_step (By t) s (down_killable t p s).2
| st_down_timeout t timeout p s : waiters s !! t = None -> sem_step (By t) s (down_timeout t timeout p s).2
| st_trylock t s : waiters s !! t = None -> sem_step (By t) s (down_trylock s).2
| st_wake t before after p s r s' : wake t before after p s = Some (r, s') -> sem_step (By t) s s'
| st_up s : sem_step Anyone s (up s).

Definition any_step (s s' : sem_sys) : Prop := exists b, sem_step b s s'.

(** What may happen while [t] waits: steps of others, and that it wakes up
    without having been given the semaphore and sleeps again. *)
Inductive meanwhile (t : Z) (s s' : sem_sys) : Prop :=
| mw_other b : b <> By t -> sem_step b s s' -> meanwhile t s s'
| mw_spurious before after p : wake t before after p s = Some (Sleeps, s') -> meanwhile t s s'.

(** ** Invariant *)

(** The waiters that were given the semaphore and have not returned yet. *)
Definition granted (s : sem_sys) : gmap Z semaphore_waiter := filter (fun kw => up_flag kw.2 = true) (waiters s).

Record sem_inv (n : Z) (s : sem_sys) : Prop := mk_sem_inv {
  si_count : 0 <= count (sem s);
  si_busy : wait_list (sem s) <> [] -> count (sem s) = 0;
  si_nodup : NoDup (wait_list (sem s));
  si_queue : forall t, t ∈ wait_list (sem s) <-> exists w, waiters s !! t = Some w /\ up_flag w = false;
  si_permits : count (sem s) + Z.of_nat (size (granted s)) + (acquired s - released s) = n;
  si_acquired : 0 <= acquired s;
}.
