(* ===== verification/SemaphoreSound.v ===== *)
(** Every step of the semaphore keeps its invariant, and waiters are served in
    the order they came. *)
From Stdlib Require Import ZArith Lia Bool.
From stdpp Require Import base list gmap relations.
From S2P Require Import Prelude Lists Semaphore.

Local Open Scope Z_scope.

(** ** Primitives *)

(** The fields of the system that are not waiters. *)
Lemma granted_idle s t w' : up_flag w' = false -> (forall w, waiters s !! t = Some w -> up_flag w = false) ->
  filter (fun kw : Z * semaphore_waiter => up_flag kw.2 = true) (<[t := w']> (waiters s)) = granted s.
Proof.
  intros H H0. apply map_filter_insert_not'; cbn; [congruence|].
  intros y Y. rewrite (H0 y Y). discriminate.
Qed.

Lemma queue_insert (l : list Z) (W : gmap Z semaphore_waiter) t st tm :
  (forall x, x ∈ l <-> exists w, W !! x = Some w /\ up_flag w = false) -> t ∈ l ->
  forall x, x ∈ l <-> exists w, <[t := mk_waiter false st tm]> W !! x = Some w /\ up_flag w = false.
Proof.
  intros H T x. destruct (decide (x = t)) as [->|N].
  - rewrite lookup_insert_eq. split; [eauto|auto].
  - rewrite lookup_insert_ne by congruence. apply H.
Qed.

Lemma sleep_inv n s t w st tm : sem_inv n s -> waiters s !! t = Some w -> up_flag w = false ->
  sem_inv n (mk_sys (sem s) (<[t := mk_waiter false st tm]> (waiters s)) (acquired s) (released s)).
Proof.
  intros [] W U. split; cbn; auto.
  - apply queue_insert; [auto|]. apply si_queue. eauto.
  - unfold granted at 1. cbn [waiters].
    rewrite granted_idle; [auto|reflexivity|]. intros w' W'. congruence.
Qed.

Lemma leave_inv n s t w : sem_inv n s -> waiters s !! t = Some w -> up_flag w = false -> sem_inv n (leave t s).
Proof.
  intros [] W U. split; cbn; auto.
  - intros H. apply si_busy. intros E. apply H. rewrite E. reflexivity.
  - apply NoDup_filter; auto.
  - intros x. rewrite list_elem_of_filter, si_queue. destruct (decide (x = t)) as [->|N].
    + rewrite lookup_delete_eq. split; [tauto|]. intros (? & ? & _). discriminate.
    + rewrite lookup_delete_ne by congruence. tauto.
  - unfold granted at 1. cbn [waiters leave]. rewrite map_filter_delete_not; [auto|].
    intros y Y. cbn. congruence.
Qed.

Lemma wait_round_inv n s t w st tm p : sem_inv n s -> waiters s !! t = Some w -> up_flag w = false ->
  sem_inv n (wait_round t st tm p s).2.
Proof.
  intros. unfold wait_round.
  destruct (signal_pending_state st p); [|destruct (tm <=? 0)]; cbn [snd]; eauto using leave_inv, sleep_inv.
Qed.

Lemma down_common_inv n s t st tm p : sem_inv n s -> waiters s !! t = None -> count (sem s) = 0 ->
  sem_inv n (__down_common t st tm p s).2.
Proof.
  intros [] W C. unfold __down_common.
  eapply wait_round_inv with (w := mk_waiter false st tm); [|cbn; apply lookup_insert_eq|reflexivity].
  assert (T : t ∉ wait_list (sem s)) by (rewrite si_queue; intros (? & ? & _); congruence).
  split; cbn; auto.
  - apply NoDup_app. repeat split; [auto| |apply NoDup_singleton].
    intros x X ->%list_elem_of_singleton. auto.
  - intros x. rewrite elem_of_app, list_elem_of_singleton. destruct (decide (x = t)) as [->|N].
    + rewrite lookup_insert_eq. split; [eauto|auto].
    + rewrite lookup_insert_ne by congruence. rewrite <- si_queue. tauto.
  - unfold granted at 1. cbn [waiters]. rewrite granted_idle; [auto|reflexivity|congruence].
Qed.

Lemma acquire_inv n s : sem_inv n s -> 0 < count (sem s) -> count (sem s) < 2 ^ 31 -> sem_inv n (acquire s).
Proof.
  intros [] C B. assert (E : u32 (count (sem s) - 1) = count (sem s) - 1) by (apply uwrap_id; unfold uin; lia).
  split; cbn; rewrite ?E; auto; try lia. intros H. specialize (si_busy H). lia.
  change (granted (acquire s)) with (granted s). lia.
Qed.

(** ** Steps *)

Lemma count_bound n s : sem_inv n s -> n + released s < 2 ^ 31 -> count (sem s) < 2 ^ 31.
Proof. intros []. lia. Qed.

Lemma down_gen_inv n s t st tm p : sem_inv n s -> n + released s < 2 ^ 31 -> waiters s !! t = None ->
  sem_inv n (if 0 <? count (sem s) then (Acquired, acquire s) else __down_common t st tm p s).2.
Proof.
  intros S B W. destruct (Z.ltb_spec 0 (count (sem s))).
  - apply acquire_inv; eauto using count_bound.
  - apply down_common_inv; auto. pose proof (si_count n s S). lia.
Qed.

Lemma trylock_inv n s : sem_inv n s -> n + released s < 2 ^ 31 -> sem_inv n (down_trylock s).2.
Proof.
  intros S B. pose proof (count_bound n s S B). pose proof (si_count n s S). unfold down_trylock.
  rewrite swrap_uwrap, swrap_id by (unfold sin; lia). destruct (Z.leb_spec 0 (count (sem s) - 1)); [|exact S].
  apply acquire_inv; [exact S|lia|lia].
Qed.

Lemma wake_inv n s t b a p r s' : sem_inv n s -> wake t b a p s = Some (r, s') -> sem_inv n s'.
Proof.
  intros S W. unfold wake in W. destruct (waiters s !! t) as [w|] eqn:E; [|discriminate].
  cbn in W. destruct (up_flag w) eqn:U.
  - inversion W; subst r s'. destruct S. split; cbn; auto; try lia.
    + intros x. rewrite si_queue. destruct (decide (x = t)) as [->|N].
      * rewrite lookup_delete_eq. split; intros (w' & H & H'); congruence.
      * rewrite lookup_delete_ne by congruence. reflexivity.
    + unfold granted at 1. cbn [waiters]. rewrite map_filter_delete. fold (granted s).
      assert (G : granted s !! t = Some w) by (apply map_lookup_filter_Some; auto).
      rewrite (map_size_delete_Some (M := gmap Z)) by eauto.
      assert (size (granted s) <> 0%nat) by (rewrite map_size_non_empty_iff; intros Z; rewrite Z in G; discriminate).
      lia.
  - inversion W as [W']. apply (f_equal snd) in W'. cbn in W'. subst s'. eapply wait_round_inv; eauto.
Qed.

Lemma up_inv n s : sem_inv n s -> n + released s + 1 < 2 ^ 31 -> sem_inv n (up s).
Proof.
  intros S B. pose proof (count_bound n s S ltac:(lia)) as CB. unfold up. destruct (wait_list (sem s)) as [|t rest] eqn:L.
  - destruct S. assert (E : u32 (count (sem s) + 1) = count (sem s) + 1) by (apply uwrap_id; unfold uin; lia).
    split; cbn; rewrite ?E; auto; try lia; [congruence|constructor| |].
    + intros x. rewrite <- si_queue, L. reflexivity.
    + unfold granted in *. cbn. lia.
  - destruct S. rewrite L in *. pose proof (proj1 (si_queue t) (list_elem_of_here _ _)) as (w & W & U).
    apply NoDup_cons in si_nodup as [Nt Nr].
    assert (C0 : count (sem s) = 0) by (apply si_busy; discriminate).
    split; cbn; auto.
    + intros x. destruct (decide (x = t)) as [->|N].
      * rewrite lookup_alter_eq, W. split; [tauto|]. intros (? & [= <-] & ?). discriminate.
      * rewrite lookup_alter_ne by congruence. rewrite <- si_queue, elem_of_cons. tauto.
    + unfold granted at 1. cbn [waiters __up].
      assert (A : alter (fun w => mk_waiter true (w_state w) (w_timeout w)) t (waiters s)
        = <[t := mk_waiter true (w_state w) (w_timeout w)]> (waiters s)).
      { apply map_eq. intros x. destruct (decide (x = t)) as [->|N].
        - rewrite lookup_alter_eq, lookup_insert_eq, W. reflexivity.
        - rewrite lookup_alter_ne, lookup_insert_ne by congruence. reflexivity. }
      rewrite A, map_filter_insert_True by reflexivity. fold (granted s).
      rewrite map_size_insert_None; [lia|]. apply map_lookup_filter_None. right. intros ? ?. cbn. congruence.
Qed.

(** What a step of the task [x] may change: it releases nothing, touches no
    other waiter, and enters the list at its end or leaves it. *)
Record touches (x : Z) (s s' : sem_sys) : Prop := mk_touches {
  to_released : released s' = released s;
  to_waiters : forall y, y <> x -> waiters s' !! y = waiters s !! y;
  to_list : exists tail, wait_list (sem s') = wait_list (sem s) ++ tail
    \/ wait_list (sem s') = filter (fun y => y <> x) (wait_list (sem s)) ++ tail;
}.

Lemma touches_refl x s : touches x s s.
Proof. split; auto. exists []. left. rewrite app_nil_r. reflexivity. Qed.

Lemma touches_acquire x s : touches x s (acquire s).
Proof. split; auto. exists []. left. rewrite app_nil_r. reflexivity. Qed.

Lemma touches_round x st tm p s : touches x s (wait_round x st tm p s).2.
Proof.
  assert (L : touches x s (leave x s)).
  { split; cbn; auto.
    - intros y N. apply lookup_delete_ne. congruence.
    - exists []. right. rewrite app_nil_r. reflexivity. }
  unfold wait_round. destruct (signal_pending_state st p); [exact L|]. destruct (tm <=? 0); [exact L|].
  split; cbn; auto.
  - intros y N. apply lookup_insert_ne. congruence.
  - exists []. left. rewrite app_nil_r. reflexivity.
Qed.

Lemma touches_common x st tm p s : touches x s (__down_common x st tm p s).2.
Proof.
  unfold __down_common. set (s1 := mk_sys _ _ _ _).
  destruct (touches_round x st tm p s1) as [R W (tail & L)]. split.
  - exact R.
  - intros y N. rewrite W by auto. apply lookup_insert_ne. congruence.
  - cbn in L. destruct L as [L|L]; rewrite L.
    + exists ([x] ++ tail). left. rewrite app_assoc. reflexivity.
    + eexists. right. rewrite filter_app, <- app_assoc. reflexivity.
Qed.

Lemma touches_down x st tm p s : touches x s (if 0 <? count (sem s) then (Acquired, acquire s) else __down_common x st tm p s).2.
Proof. destruct (0 <? count (sem s)); [apply touches_acquire|apply touches_common]. Qed.

Lemma touches_trylock x s : touches x s (down_trylock s).2.
Proof.
  unfold down_trylock. case_match; [|apply touches_refl].
  split; auto. exists []. left. rewrite app_nil_r. reflexivity.
Qed.

Lemma touches_wake x b a p s r s' : wake x b a p s = Some (r, s') -> touches x s s'.
Proof.
  intros W. unfold wake in W. destruct (waiters s !! x) as [w|]; [|discriminate]. cbn in W. destruct (up_flag w).
  - inversion W; subst. split; cbn; auto.
    + intros y N. apply lookup_delete_ne. congruence.
    + exists []. left. rewrite app_nil_r. reflexivity.
  - inversion W as [W']. apply (f_equal snd) in W'. cbn in W'. subst s'. apply touches_round.
Qed.

Lemma step_touches b s s' : sem_step b s s' -> (exists x, b = By x /\ touches x s s') \/ (b = Anyone /\ s' = up s).
Proof.
  intros []; [left; eexists; split; [reflexivity|]..|right; auto];
    eauto using touches_wake, touches_trylock; apply touches_down.
Qed.

Lemma released_up s : released (up s) = released s + 1.
Proof. unfold up. destruct (wait_list (sem s)); reflexivity. Qed.

Lemma released_step s s' : any_step s s' -> released s <= released s'.
Proof.
  intros (b & S). destruct (step_touches b s s' S) as [(x & _ & [R _ _])|[_ ->]]; [lia|].
  rewrite released_up. lia.
Qed.

Lemma released_steps s s' : rtc any_step s s' -> released s <= released s'.
Proof. induction 1 as [|s s1 s' S _ IH]; [lia|]. apply released_step in S. lia. Qed.

Lemma sem_step_inv n s s' : sem_inv n s -> any_step s s' -> n + released s' < 2 ^ 31 -> sem_inv n s'.
Proof.
  intros Inv S B. pose proof (released_step s s' S) as M. destruct S as (b & S).
  inversion S; subst; eauto using wake_inv; try (apply down_gen_inv; auto; lia); [apply trylock_inv; auto; lia|].
  apply up_inv; [auto|]. rewrite released_up in B. lia.
Qed.

Lemma sem_steps_inv n s s' : rtc any_step s s' -> sem_inv n s -> n + released s' < 2 ^ 31 -> sem_inv n s'.
Proof.
  induction 1 as [|s s1 s' S R IH]; [auto|]. intros Inv B. pose proof (released_steps _ _ R).
  apply IH; [|exact B]. eapply sem_step_inv; eauto. lia.
Qed.

Lemma sema_init_inv n : 0 <= n < 2 ^ 31 -> sem_inv n (sema_init n).
Proof.
  intros H. assert (E : u32 n = n) by (apply uwrap_id; unfold uin; lia).
  split; cbn; rewrite ?E; try lia; [congruence|constructor| |].
  - intros t. rewrite lookup_empty. split; [intros X; inversion X|]. intros (? & ? & _). discriminate.
  - unfold granted. cbn. rewrite map_filter_empty, map_size_empty. lia.
Qed.

(** ** Order *)

(** [t] was given the semaphore, or waits behind so many others that the
    releases counted up to [K] reach it. *)
Definition served (t : Z) (s : sem_sys) : Prop := exists w, waiters s !! t = Some w /\ up_flag w = true.
Definition ahead (t K : Z) (s : sem_sys) : Prop :=
  exists l1 l2, wait_list (sem s) = l1 ++ t :: l2 /\ Z.of_nat (length l1) + released s <= K.

Lemma ahead_touches t x K s s' : x <> t -> touches x s s' -> ahead t K s -> ahead t K s'.
Proof.
  intros N [R _ (tail & L)] (l1 & l2 & E & B). rewrite E in L. destruct L as [L|L].
  - exists l1, (l2 ++ tail). rewrite L, <- app_assoc. split; [reflexivity|lia].
  - exists (filter (fun y => y <> x) l1), (filter (fun y => y <> x) l2 ++ tail).
    rewrite L, filter_app, filter_cons_True, <- app_assoc by congruence. split; [reflexivity|].
    pose proof (length_filter (fun y => y <> x) l1). lia.
Qed.

Lemma meanwhile_step n t K s s' : sem_inv n s -> meanwhile t s s' ->
  served t s \/ ahead t K s -> served t s' \/ ahead t K s'.
Proof.
  intros Inv [b N S|bf af p W].
  - destruct (step_touches b s s' S) as [(x & -> & T)|[-> ->]].
    + assert (x <> t) by congruence. intros [(w & W & U)|A]; [left|right; eauto using ahead_touches].
      exists w. rewrite (to_waiters x s s' T) by congruence. auto.
    + unfold up. intros [(w & W & U)|(l1 & l2 & E & B)].
      * left. destruct (wait_list (sem s)) as [|h rest]; [exists w; auto|]. unfold served. cbn.
        destruct (decide (h = t)) as [->|]; [|exists w; rewrite lookup_alter_ne by congruence; auto].
        rewrite lookup_alter_eq, W. eexists. split; reflexivity.
      * rewrite E. destruct l1 as [|h l1]; cbn [app].
        -- left. destruct (proj1 (si_queue n s Inv t)) as (w & W & U); [rewrite E; constructor|].
           unfold served. cbn. rewrite lookup_alter_eq, W. eexists. split; reflexivity.
        -- right. exists l1, l2. cbn in *. split; [reflexivity|lia].
  - unfold wake in W. destruct (waiters s !! t) as [w|] eqn:E; [|discriminate]. cbn in W.
    destruct (up_flag w) eqn:U; [discriminate|]. intros [(w' & W' & U')|A]; [congruence|right].
    unfold wait_round in W. destruct (signal_pending_state _ _); [discriminate|].
    case_match; [discriminate|]. inversion W; subst s'. exact A.
Qed.

Lemma meanwhile_any t s s' : meanwhile t s s' -> any_step s s'.
Proof. intros [b _ S|b a p W]; [exists b; auto|]. exists (By t). eapply st_wake. exact W. Qed.

Lemma meanwhile_steps n t K s s' : rtc (meanwhile t) s s' -> sem_inv n s -> n + released s' < 2 ^ 31 ->
  served t s \/ ahead t K s -> served t s' \/ ahead t K s'.
Proof.
  induction 1 as [|s s1 s' S R IH]; [auto|]. intros Inv B A.
  assert (M : rtc any_step s1 s') by (eapply rtc_subrel; [|exact R]; exact (meanwhile_any t)).
  pose proof (released_steps _ _ M).
  apply IH; [|exact B|eauto using meanwhile_step].
  eapply sem_step_inv; [eauto|eapply meanwhile_any; eauto|lia].
Qed.

(** ** Waiting without end *)

(** [t] waits as [down] does. *)
Definition patient (t : Z) (s : sem_sys) : Prop :=
  exists w, waiters s !! t = Some w /\ w_state w = TASK_UNINTERRUPTIBLE /\ w_timeout w = MAX_SCHEDULE_TIMEOUT.

Lemma patient_round t p s : wait_round t TASK_UNINTERRUPTIBLE MAX_SCHEDULE_TIMEOUT p s =
  (Sleeps, mk_sys (sem s) (<[t := mk_waiter false TASK_UNINTERRUPTIBLE MAX_SCHEDULE_TIMEOUT]> (waiters s)) (acquired s) (released s)).
Proof. reflexivity. Qed.

Lemma down_waits t p s : count (sem s) <= 0 -> (down t p s).1 = Sleeps /\ patient t (down t p s).2.
Proof.
  intros C. unfold down. rewrite (proj2 (Z.ltb_ge _ _) C). unfold __down, __down_common. rewrite patient_round.
  split; [reflexivity|]. eexists. cbn. rewrite lookup_insert_eq. repeat split.
Qed.

Lemma patient_wake t before after p s r s' : patient t s -> wake t before after p s = Some (r, s') -> r = Acquired \/ r = Sleeps.
Proof.
  intros (w & W & S & T). unfold wake. rewrite W. cbn. rewrite S, T. destruct (up_flag w); [|change (schedule_timeout _ _ _) with MAX_SCHEDULE_TIMEOUT; rewrite patient_round];
    intros [= <- _]; auto.
Qed.

Lemma patient_step t s s' : meanwhile t s s' -> patient t s -> patient t s'.
Proof.
  intros [b N St|before after p Wk] (w & W & S & T).
  - destruct (step_touches b s s' St) as [(x & -> & To)|[-> ->]].
    + exists w. rewrite (to_waiters x s s' To) by congruence. auto.
    + unfold up. destruct (wait_list (sem s)) as [|h rest]; [exists w; auto|]. unfold patient. cbn.
      destruct (decide (h = t)) as [->|]; [|exists w; rewrite lookup_alter_ne by congruence; auto].
      rewrite lookup_alter_eq, W. eexists. split; [reflexivity|]. auto.
  - unfold wake in Wk. rewrite W in Wk. cbn in Wk. destruct (up_flag w); [discriminate|].
    rewrite S, T in Wk. change (schedule_timeout _ _ _) with MAX_SCHEDULE_TIMEOUT in Wk. rewrite patient_round in Wk.
    injection Wk as <-. eexists. cbn. rewrite lookup_insert_eq. repeat split.
Qed.

Lemma patient_steps t s s' : rtc (meanwhile t) s s' -> patient t s -> patient t s'.
Proof. induction 1; eauto using patient_step. Qed.
