(* ===== verification/LibTheorems.v ===== *)
(** The properties of the library routines and of semaphores. *)
From Stdlib Require Import ZArith Lia Bool Sorting.Sorted.
From stdpp Require Import base list gmap relations sorting.
From S2P Require Import Prelude Lists ListSort ListSortSound Glob GlobSound Kstrtox KstrtoxSound Semaphore SemaphoreSound.

Local Open Scope Z_scope.

(** ** list_sort *)

(** C25: [list_sort] sorts in place and stably.  On a circular doubly linked list
    of fewer than 2^64 nodes and with a total, transitive comparison it
    terminates, and the list is again circular and doubly linked, holds the
    same nodes in sorted order, keeps equivalent nodes in their order, and no
    link of any other node is changed. *)
Theorem list_sort_stable cmp fuel head h L : Transitive (le cmp) -> Total (le cmp) ->
  links h (head :: L ++ [head]) -> NoDup (head :: L) -> Forall (fun z => z <> 0) L ->
  Z.of_nat (length L) < 2 ^ 64 -> (length L <= fuel)%nat ->
  exists h' S, list_sort cmp fuel head h = Some h' /\ links h' (head :: S ++ [head]) /\
    S ≡ₚ L /\ Sorted (le cmp) S /\ (forall e, peers cmp e S = peers cmp e L) /\
    (forall z, z ∉ head :: L -> next h' z = next h z /\ prev h' z = prev h z).
Proof. intros. eapply list_sort_ok; eassumption. Qed.

(** The circular list of [l], the head first. *)
Definition ring (l : list Z) : list_mem :=
  let n := Z.of_nat (length l) in
  let at_ i := default 0 (l !! Z.to_nat (i mod n)) in
  let pos a := fold_right (fun x i => if x =? a then 0 else 1 + i) 0 l in
  mk_mem (fun a => at_ (pos a + 1)) (fun a => at_ (pos a + n - 1)).

(** Sorting by the tens. *)
Definition by_tens (a b : Z) : Z := a / 10 - b / 10.

Lemma list_sort_stable_witness : exists h' S, list_sort by_tens 5 1 (ring [1; 31; 22; 39; 21; 14]) = Some h' /\
  S ≡ₚ [31; 22; 39; 21; 14] /\ Sorted (le by_tens) S /\ peers by_tens 21 S = [22; 21] /\ peers by_tens 30 S = [31; 39].
Proof.
  destruct (list_sort_stable by_tens 5 1 (ring [1; 31; 22; 39; 21; 14]) [31; 22; 39; 21; 14]) as (h' & S & E & _ & P & O & K & _).
  - intros a b c; unfold le, by_tens; lia.
  - intros a b; unfold le, by_tens; lia.
  - vm_compute; repeat split.
  - checked.
  - checked.
  - vm_compute; reflexivity.
  - vm_compute; lia.
  - exists h', S; repeat split; auto; rewrite K; vm_compute; reflexivity.
Defined.

(** ** glob_match *)

(** C30: [glob_match] ends on every pattern and every string, after at most
    quadratically many rounds.  Every pattern is a sequence of tokens (an
    unclosed bracket stands for itself, a backslash at the end for nothing),
    and the answer is whether the tokens match the whole string: backtracking
    to the last star alone loses no match.  The one other outcome is a read
    behind the string, and only a pattern with an inverted class has it. *)
Theorem glob_match_decides p s fuel : chars p -> chars s -> ((length s + 2) * (length p + 1) < fuel)%nat ->
  (exists ts, tokens p ts) /\
  forall ts, tokens p ts -> exists r, glob_match fuel p s = Some r /\
    match r with Matched b => b = true <-> gmatch ts s | Overread => exists sp, TClass true sp ∈ ts end.
Proof. intros Cp Cs F; split; [apply tokens_total|intros ts T; exact (glob_match_ok p s ts Cp Cs T fuel F)]. Qed.

(** The pattern [a*?[b-d]] and the string "aabcd". *)
Lemma glob_match_decides_witness : exists b, glob_match 70 [97; 42; 63; 91; 98; 45; 100; 93] [97; 97; 98; 99; 100] = Some (Matched b) /\
  (b = true <-> gmatch [TLit 97; TStar; TAny; TClass false [(98, 100)]] [97; 97; 98; 99; 100]).
Proof.
  destruct (glob_match_decides [97; 42; 63; 91; 98; 45; 100; 93] [97; 97; 98; 99; 100] 70) as [_ H]; [checked|checked|vm_compute; lia|].
  destruct (H [TLit 97; TStar; TAny; TClass false [(98, 100)]]) as ([b|] & E & R); [repeat (econstructor; [reflexivity|]); constructor|eauto|].
  vm_compute in E; discriminate.
Defined.

(** an inverted class lets [glob_match] read behind its string: the class
    [\[!a\]] accepts the terminating NUL of the empty string and the next
    round reads the byte after it, although nothing matches. *)
Theorem glob_inverted_class_overread : glob_match 10 [91; 33; 97; 93] [] = Some Overread /\
  tokens [91; 33; 97; 93] [TClass true [(97, 97)]] /\ ~ gmatch [TClass true [(97, 97)]] [].
Proof.
  split; [reflexivity|split].
  - econstructor; [reflexivity|constructor].
  - intros H; inversion H.
Qed.

(** ** Numbers *)

(** C31: the conversions of numbers are exact at every width.  On every string
    shorter than 2^31 each function gives the value a reader with unbounded
    integers gives when that value fits its type, -ERANGE when it does not,
    and -EINVAL when there are no digits or something other than one newline
    follows them. *)
Theorem kstrtox_exact s base : base_ok base -> cstring s ->
  kstrtoull s base = read_unsigned s base (2 ^ 64) /\ kstrtoll s base = read_signed s base (- 2 ^ 63) (2 ^ 63) /\
  _kstrtoul s base = read_unsigned s base (2 ^ 64) /\ _kstrtol s base = read_signed s base (- 2 ^ 63) (2 ^ 63) /\
  kstrtouint s base = read_unsigned s base (2 ^ 32) /\ kstrtoint s base = read_signed s base (- 2 ^ 31) (2 ^ 31) /\
  kstrtou16 s base = read_unsigned s base (2 ^ 16) /\ kstrtos16 s base = read_signed s base (- 2 ^ 15) (2 ^ 15) /\
  kstrtou8 s base = read_unsigned s base (2 ^ 8) /\ kstrtos8 s base = read_signed s base (- 2 ^ 7) (2 ^ 7).
Proof.
  intros B C; repeat split; try (apply narrow_unsigned; [lia|assumption..]); [apply kstrtoull_ok|apply kstrtoll_ok|..]; try assumption;
    [apply (narrow_signed 64)|apply (narrow_signed 32)|apply (narrow_signed 16)|apply (narrow_signed 8)]; try assumption; lia.
Qed.

(** "-2147483648\n" *)
Lemma kstrtox_exact_witness : kstrtoint [45; 50; 49; 52; 55; 52; 56; 51; 54; 52; 56; 10] 0 = Ok (-2147483648).
Proof.
  destruct (kstrtox_exact [45; 50; 49; 52; 55; 52; 56; 51; 54; 52; 56; 10] 0) as (_ & _ & _ & _ & _ & E & _);
    [left; reflexivity|split; [checked|vm_compute; reflexivity]|].
  rewrite E; vm_compute; reflexivity.
Defined.

(** [kstrtoull] detects every overflow: it fails with -ERANGE exactly when
    the digits denote 2^64 or more, although it tests for overflow only when
    one of the top four bits of the partial result is set. *)
Theorem kstrtoull_erange s base : base_ok base -> cstring s ->
  kstrtoull s base = Err ERANGE <->
  let '(body, base') := _parse_integer_fixup_radix (if char_at s 0 =? 43 then drop 1 s else s) base in
  2 ^ 64 <= value_from base' 0 (digits base' body).1.
Proof.
  intros Hb C. unfold kstrtoull. set (s' := if char_at s 0 =? 43 then drop 1 s else s).
  assert (C' : cstring s') by (unfold s'; destruct (_ =? 43); [apply cstring_drop|]; exact C).
  rewrite kstrtoull_magnitude by assumption. unfold magnitude.
  destruct (_parse_integer_fixup_radix s' base) as [body base']. destruct (digits base' body) as [ds rest]. cbn [fst].
  destruct (Z.leb_spec (2 ^ 64) (value_from base' 0 ds)) as [L|L]; [split; trivial|].
  split; [|lia]. destruct (negb _ && _); discriminate.
Qed.

(** "18446744073709551616" *)
Lemma kstrtoull_erange_witness : kstrtoull [49; 56; 52; 52; 54; 55; 52; 52; 48; 55; 51; 55; 48; 57; 53; 53; 49; 54; 49; 54] 10 = Err ERANGE.
Proof.
  apply kstrtoull_erange; [right; lia|split; [checked|vm_compute; reflexivity]|]. vm_compute. discriminate.
Defined.

(** [hex2bin] inverts [bin2hex]: the hexadecimal digits of any bytes are
    read back as the same bytes, whatever follows them. *)
Theorem hex2bin_bin2hex src rest : Forall (fun b => 0 <= b < 256) src ->
  hex2bin (bin2hex src ++ rest) (length src) = (Ok 0, src).
Proof. apply hex_roundtrip. Qed.

Lemma hex2bin_bin2hex_witness : hex2bin (bin2hex [0; 171; 255] ++ [10]) 3 = (Ok 0, [0; 171; 255]).
Proof. apply (hex2bin_bin2hex [0; 171; 255] [10]). checked. Defined.

(** ** Semaphores *)

(** C29: a semaphore is never held more often than it was initialised for plus
    released: in every reachable state the successful calls of the down
    functions exceed the releases by at most [n], what is missing are the free
    permits and the permits of woken tasks that have not run yet, and a task
    waits only when no permit is free. *)
Theorem semaphore_permits n s : 0 <= n -> rtc any_step (sema_init n) s -> n + released s < 2 ^ 31 ->
  acquired s - released s <= n /\
  count (sem s) + Z.of_nat (size (granted s)) = n - (acquired s - released s) /\
  (wait_list (sem s) <> [] -> count (sem s) = 0).
Proof.
  intros N R B. pose proof (released_steps _ _ R) as M. cbn in M.
  destruct (sem_steps_inv n _ _ R (sema_init_inv n ltac:(lia)) B). repeat split; [lia|lia|assumption].
Qed.

(** Tasks 1, 2 and 3 take a semaphore of one permit; 2 and 3 wait. *)
Definition quiet : signals := mk_signals false false.
Definition sem_busy : sem_sys := (down_interruptible 3 quiet (down 2 quiet (down 1 quiet (sema_init 1)).2).2).2.

Lemma sem_busy_reached : rtc any_step (sema_init 1) sem_busy.
Proof.
  eapply rtc_l; [exists (By 1); apply (st_down 1 quiet); vm_compute; reflexivity|].
  eapply rtc_l; [exists (By 2); apply (st_down 2 quiet); vm_compute; reflexivity|].
  eapply rtc_l; [exists (By 3); apply (st_down_interruptible 3 quiet); vm_compute; reflexivity|].
  apply rtc_refl.
Qed.

Lemma semaphore_permits_witness : acquired sem_busy - released sem_busy <= 1 /\ wait_list (sem sem_busy) = [2; 3].
Proof.
  split; [|vm_compute; reflexivity].
  apply (semaphore_permits 1 sem_busy); [lia|exact sem_busy_reached|vm_compute; reflexivity].
Defined.

(** C28: waiters are served in order and no wake-up is lost.  Once a semaphore
    was released more often than there are tasks ahead of a waiter in the list,
    whatever other tasks do meanwhile and however often it wakes up without
    having got the semaphore, the waiter owns it: the next time it runs its
    call returns successfully, also when its time is up or a signal is
    pending. *)
Theorem semaphore_fifo n s s' t l1 l2 : 0 <= n -> rtc any_step (sema_init n) s -> wait_list (sem s) = l1 ++ t :: l2 ->
  rtc (meanwhile t) s s' -> n + released s' < 2 ^ 31 -> Z.of_nat (length l1) < released s' - released s ->
  forall before after p, exists s'', wake t before after p s' = Some (Acquired, s'').
Proof.
  intros N R L M B U before after p.
  assert (M' : rtc any_step s s') by (eapply rtc_subrel; [|exact M]; exact (meanwhile_any t)).
  pose proof (released_steps _ _ R). pose proof (released_steps _ _ M'). cbn in *.
  assert (I : sem_inv n s) by (apply (sem_steps_inv n _ _ R); [apply sema_init_inv|]; lia).
  destruct (meanwhile_steps n t (Z.of_nat (length l1) + released s) s s' M I B) as [(w & W & F)|(k1 & k2 & _ & K)].
  - right. exists l1, l2. split; [exact L|lia].
  - unfold wake. rewrite W. cbn. rewrite F. eauto.
  - lia.
Qed.

Lemma semaphore_fifo_witness : exists s'', wake 3 0 0 (mk_signals true true) (up (up sem_busy)) = Some (Acquired, s'').
Proof.
  apply (semaphore_fifo 1 sem_busy (up (up sem_busy)) 3 [2] []); [lia|exact sem_busy_reached|vm_compute; reflexivity| |vm_compute; reflexivity|vm_compute; reflexivity].
  eapply rtc_l; [apply (mw_other 3 _ _ Anyone); [discriminate|apply st_up]|].
  eapply rtc_l; [apply (mw_other 3 _ _ Anyone); [discriminate|apply st_up]|apply rtc_refl].
Defined.

(** [down] never returns without the semaphore: a task that waits in [down]
    is never turned away by a signal or by the time it slept, although the
    error of [__down] is discarded. *)
Theorem down_never_fails t p before after s s1 r s2 : count (sem s) <= 0 ->
  down t p s = (r, s1) -> rtc (meanwhile t) s1 s2 ->
  r = Sleeps /\ forall q r' s3, wake t before after q s2 = Some (r', s3) -> r' = Acquired \/ r' = Sleeps.
Proof.
  intros C D M. destruct (down_waits t p s C) as (E & P). rewrite D in E, P. split; [exact E|].
  intros q r' s3. apply patient_wake. apply (patient_steps t s1 s2 M P).
Qed.

Lemma down_never_fails_witness : exists s1, down 2 quiet (sema_init 0) = (Sleeps, s1) /\
  forall q r s3, wake 2 0 100 q (up s1) = Some (r, s3) -> r = Acquired \/ r = Sleeps.
Proof.
  eexists; split; [vm_compute; reflexivity|].
  eapply (down_never_fails 2 quiet 0 100 (sema_init 0)); [vm_compute; discriminate|vm_compute; reflexivity|].
  eapply rtc_l; [apply (mw_other 2 _ _ Anyone); [discriminate|apply st_up]|apply rtc_refl].
Defined.
